(* ===== verification/_CoqProject ===== *)
-Q . S2P
Prelude.v
Bytes.v
Engines.v
Planner.v
JobCost.v
Scheduler.v
PgProto.v
RouteStore.v
RespProto.v
MysqlProto.v
MysqlGateway.v
Sessions.v
Resolver.v
PgGateway.v
RespGateway.v
DiskScan.v
UsageTree.v
Reconcile.v
CacheLife.v
QuietDisk.v
Watcher.v
WatchLife.v
WatchedDisk.v
SoftScan.v
SoftLimiter.v
MonitorWatch.v
WatchQueue.v
Monitor.v
MonitorReach.v
MonitorLife.v
Placement.v
DiskRuntime.v
SqlScan.v
SqlPolicy.v
Relay.v
Admission.v
ProjectIds.v
ClickhouseGateway.v
ClickhouseHttp.v
Capacity.v
MongoGateway.v
IpText.v
RemoteEndpoint.v
