(* ===== verification/Prelude.v ===== *)
(** * DatabasesEverywhere: a verification development

    The daemon of this repository (Rust, [src/src/app/]) runs database
    instances for tenants.  Clients reach an instance through a gateway that
    understands the first messages of each protocol and relays the rest;
    imports and exports are scheduled under the resources of the host; the disk
    usage of every instance is watched, measured and enforced; and tenants share
    pools whose capacity is reserved in the database of the daemon.  This
    development models these parts as functions on explicit states, written the
    way the source is written, and proves what each part promises to the others.

    ** The parts, and the files that model them

    Paths are relative to [src/src/app/].

    The gateway:
    - [RouteStore]: [server/state.rs], the store of instances with its routing
      tables, fences and revisions ([InstanceState]; one function per method).
    - [Sessions]: [gateway/sessions.rs] and [gateway/buffers.rs], the live
      sessions of each tenant and the budget of buffered bytes.
    - [Resolver]: [gateway/resolver.rs], which looks a client up in the store,
      opens its session and checks that the route is still the current one.  Its
      functions are tasks ([Task]): they stop at every await, and what they do to
      the sessions is an action of its own.  [gateway_step] interleaves the
      tasks of any number of clients with each other, with changes of the store
      and with cancellations; the listeners run one task on the states of the
      store that its awaits see ([run_task]).
    - [PgProto], [PgGateway]: [gateway/protocols/postgres.rs],
      [gateway/postgres_sessions.rs] and
      [gateway/listeners/postgres_listener.rs]; messages and the cancel registry
      in the first file, the handshake of a client up to the relay, with the
      negotiation of encryption, in the second.
    - [RespProto], [RespGateway]: [gateway/protocols/redis.rs],
      [gateway/listeners/resp_listener.rs] and
      [gateway/listeners/listener_io/handshake.rs].
    - [MysqlProto], [MysqlGateway]: [gateway/protocols/mariadb.rs] and
      [gateway/listeners/mysql_listener.rs].
    - [MongoGateway]: [gateway/protocols/mongodb.rs] and
      [gateway/listeners/mongodb_listener.rs], the dialogue of the gateway with
      client and backend up to the tunnel.
    - [ClickhouseGateway], [ClickhouseHttp]: [gateway/protocols/clickhouse.rs],
      [gateway/listeners/clickhouse_listener.rs], their readers of
      [listener_io/handshake.rs] and [utils/backend.rs]; the native protocol in
      the first file, HTTP in the second.
    - [Relay]: [gateway/listeners/listener_io/], what a client sends after its
      login, message by message ([mysql.rs], [mongodb.rs], [postgres.rs],
      [classify.rs]).
    - [SqlScan], [SqlPolicy]: the lexer of
      [subsystems/import_export/inspection/sql/mod.rs] and the policy on shared
      MySQL sessions of [shared/mysql_command.rs] beside it.
    - [Admission]: [gateway/security.rs], which connections are let in.
    - [Bytes]: bytes, big- and little-endian numbers and UTF-8, as the standard
      library has them.  [Engines]: [databases/protocol.rs] and the constants of
      the engines.

    The import/export scheduler ([server/jobs/import_export/scheduler/]):
    - [JobCost]: the cost of a job and the capacity of the host ([cost.rs],
      [capacity.rs], [config/scheduler.rs] and its validation).
    - [Scheduler]: the queue, admission, permits and the refresh of the
      capacity ([mod.rs], [dispatch.rs]).

    Disk limits without file-system quotas ([server/disk/]):
    - [Planner]: [soft/planner.rs], when an instance is scanned and how.
    - [DiskScan]: the walks over a data directory ([usage.rs], and
      [scan_directory_tree] of [soft/usage_tree.rs]).
    - [UsageTree], [Reconcile], [CacheLife], [QuietDisk]: [soft/usage_tree.rs],
      the tree of cached usages, its partial reconciliation and what the two
      guarantee together.
    - [Watcher], [WatchLife]: [soft/watcher/], which directories changed, and
      every interleaving of its operations.  [WatchedDisk] joins them with the
      reconciliation.
    - [SoftScan]: [soft/cache.rs] and the scans of [soft/scan.rs].
    - [SoftLimiter]: [soft/thresholds.rs], [soft/growth.rs],
      [soft/enforcement.rs] and the rest of [soft/scan.rs] and [soft/mod.rs].
    - [WatchQueue], [Monitor]: the loop of [daemon/soft_disk_limiter/] that joins
      planner, watcher and limiter; [WatchQueue] is [watch_operations.rs],
      [Monitor] the handlers of [root_identity.rs], [targets.rs], [watching.rs],
      [scanning.rs] and [mod.rs], on the record [Monitor] of the loop's
      variables.
    - [MonitorLife]: the loop, the worker of watch operations, the watcher's
      callback and the scans running beside each other ([monitor_step]);
      [MonitorWatch] and [MonitorReach] are its library: what an operation of
      the watcher means to the monitor, and the invariant of one target.

    - [ProjectIds]: [project_id.rs], the registry of project identifiers for
      file-system quotas, as marker files in a directory.

    Instances, pools and imports:
    - [Placement]: [server/manager.rs], the transactions it runs
      ([storage/repositories/mod.rs], [server/placement/repository/runtime.rs]),
      [server/sessions.rs], and the saving and fencing of shared pools of
      [server/placement/lifecycle/].
    - [DiskRuntime]: [daemon/soft_disk_limiter/runtime.rs], the daemon as the
      runtime of [SoftLimiter], with [mark_shared_disk_blocked] and the candidate
      targets of [targets.rs].
    - [Capacity]: [server/placement/repository/], the reservations of tenants in
      shared pools, on tables with the constraints and triggers of
      [src/migrations/], and the table part of the cut-overs of
      [server/placement/migration/commit.rs].
    - [RemoteEndpoint]: [subsystems/import_export/remote/security.rs] and
      [config/origins.rs], which hosts an import may connect to.  [IpText]: the
      textual form of addresses, as the standard library has it.

    ** How the code is modelled

    A structure is a [Record] with the fields of the source, an enumeration an
    [Inductive], a [Result] the type [result] of this file with its bind.  An
    integer of the source is a [Z] in the range of its type, with saturating,
    checked and wrapping operations written out.  A hash map is a [gmap] and a
    hash set a [gset]; where the source iterates over one, the order is that of
    [map_to_list], and the results do not depend on it unless the file says so.
    An asynchronous function that holds a lock is one step; where it awaits in
    between, it is a function of the state it sees each time, or a relation
    whose steps may be interleaved with those of other tasks.  Strings are
    [string]s in the store and lists of bytes on the wire.

    What is not in the repository is a parameter: digests, the hexadecimal
    codec, TLS, random bytes, the clock, the sampled host, the file system
    as the answers of its system calls, the kernel's notifications, the
    power function of the C library, the rate limiter, the DNS resolver, the
    codecs of BSON, base64 and forms, the parser of HTTP heads, whether a
    transaction commits and what the container engine answers.  What the
    code relies on is a named hypothesis of the section that needs it, and
    the witnesses instantiate it.  The semaphores of the asynchronous
    runtime, the runtime that stops an instance, the codec of BSON and the
    libraries around HTTP are type classes ([Semaphore], [SoftDiskRuntime],
    [BsonCodec], [HttpLibraries]); [DiskRuntime] gives the daemon's instance
    of the second.

    ** What is shown

    - The gateway: a client that resolves to an instance gave a name or a
      password of that instance, in every reachable store; a route that passes
      the final check was not touched since it was read; an instance that is
      fenced drains; the limit of connections holds under any interleaving; a
      MySQL backend only sees tokens proven against the verifier it stores;
      start-up packets and RESP frames are parsed exactly and rewritten to the
      resolved user or database.  A tunnel of PostgreSQL, MongoDB or ClickHouse,
      over HTTP too, leads to the owner of the identity its login named, no other
      part of the login disagrees, and a client that is refused leaves no session
      behind.  A PostgreSQL client that repeats the database parameter is
      forwarded with a database that the gateway did not choose
      ([repeated_database_not_rewritten]).  Every live session belongs to exactly
      one client.
    - After the login: the relays of MySQL and MongoDB forward whole messages in
      order and none that would change the user, the database of the session or
      the storage of a shared tenant; the policy on shared MySQL text decides a
      property of the statements as the lexer cuts them, stated without the
      scanner's state.  The lexer does not cut everywhere as MySQL does; the
      theorems speak of its own cuts.  The nesting of executable comments has no
      bound ([comment_nesting_unbounded]).
    - Admission: a peer's count is the number of permits it holds, within its
      limit.
    - The scheduler: the resources in use are exactly the sum of the permits
      held; whatever section of the code takes the lock, what it grants stays
      within the budgets and what fits is admitted; a waiting job is overtaken a
      bounded number of times; a recommendation is what admission does.
    - Disk usage: the two full scans agree; a cached tree always adds up; a
      partial reconciliation of a quiet directory gives what a full scan gives;
      and fails only where a full scan is due; collecting a subtree terminates
      within its fuel; a change reported by the
      kernel is dirty until a scan that started later acknowledges it; what a
      scan captures suffices to bring the cache up to date; the planner settles
      exactly the changes a scan has seen.
    - The monitor: the handlers of the loop are sequences of steps that take the
      watcher's lock once; a change of a watched target is never lost on its way
      from the watcher to a scan; a watch that is given up is kept until the
      worker has removed it.
    - Enforcement: thresholds are in order for every growth rate; a sample has
      the right consequence on every branch; a target that cannot be measured is
      stopped in time; an instance held back stays so until it recovers.
    - The daemon's runtime: no container is stopped before its block is on disk
      and its clients are off the gateway, whatever fails on the way, also for
      scans as a whole; an instance at its threshold is stopped if the database
      takes the block; a recovered disk restarts nothing; a pool that is saved
      hands its status on to its tenants that are loaded, and to no other
      instance.

    - Shared pools: whatever the sequence of reservations, releases, resizes,
      saves, cut-overs, lost acknowledgements and failed statements, no pool is
      promised more tenants or disk than it has, and every attached tenant has
      exactly its reservation; the caller of [reserve] and [release] is told
      what the tables hold.
    - Project identifiers: an identifier has at most one owner, one that was
      released is not given out again, and an allocated one counts as pending
      until it is activated, with any system call failing or the daemon stopping
      at any point.  A marker that was created but not written blocks its
      identifier ([torn_marker_blocks]).
    - Remote imports: an endpoint that is accepted has only public addresses, or
      only private ones of a host the operator named, and none in a special
      range; a literal address is used as it stands.

    ** Fuel

    [Reconcile.collect_loop] takes the number of cached directories plus one
    as fuel, and is shown never to run out of it on a cache the code can
    build; [Scheduler.dispatch_loop] takes the length of the queue plus one
    and removes a job in every round.  [Relay.mysql_upload] and its siblings
    take the number of bytes the client sends plus one, and consume a
    message in every round; [SqlPolicy.check_shared_mysql_command] takes the
    length of the text plus one for the nesting of comments, whose bodies
    are shorter than the comment.  [PgGateway.refuse_gss] takes the length
    of the stream plus one, and more changes nothing.
    [ProjectIds.allocate_loop] and [MongoGateway.authenticate_loop] count
    the rounds of the source's own bounded loops.  The readers of the
    protocols recurse on the bytes that are left, and the walks on the
    directory they see.

    ** Not modelled

    In the loop of the monitor the list of candidate targets is an argument;
    [DiskRuntime] makes it out of the instances and pools, but its
    operations are not interleaved with the loop, nor with other tasks: they
    run under the lock of the instance, which is not modelled.  A panic of a
    task is a result like any other.  In [Capacity] a transaction is one
    step, since each takes the writer's slot of SQLite before it reads; the
    time stamps, the back-end columns and the secrets of the rows are left
    out.  In [Placement] what [save_dedicated_runtime] checks of its
    argument is one of the refusals of the environment.  In [ProjectIds] a
    call holds the lock of the registry from its first read to its end; the
    daemon may stop at any system call, but what reached the file system
    stays: the loss of unsynchronised directory entries in a power failure
    is not modelled.  In [Watcher] [capture] reads the global generation in
    the same step as the dirty paths; the source reads it just before it
    takes the lock, so that a batch may carry an older one and acknowledge
    less.

    Of the manager, quarantine, deletion, recovered secrets, the load at
    start-up and attestations are left out; of placement, everything but saving
    a pool, fencing it, blocking it and reserving its capacity: provisioning,
    the steps of a migration and containment are container calls.

    The inside of TLS and the time-outs and slots of handshakes are left
    out.  The tunnels of RESP and ClickHouse and the answers of a backend
    after the login are byte copying.  The clients of the Docker API, of the
    databases and of object storage, the other SQL statements of [storage/],
    the web handlers and the terminal interface are I/O around other
    programs.  Metrics and log lines are left out everywhere. *)
From stdpp Require Export base tactics option list gmap strings.
From Stdlib Require Export ZArith Lia.

#[export] Set Warnings "-clear-no-such-hyp".

Local Open Scope Z_scope.

(** ** Record update

    [r <| f := v |>] is the record [r] with its field [f] set to [v]; the
    setter is computed from the eta expansion of the record type. *)
Class Settable (R : Type) := eta_of : R → R.
Class Setter {R T : Type} (proj : R → T) := set_with : (T → T) → R → R.

Ltac find_setter :=
  lazymatch goal with
  | |- @Setter ?R ?T ?proj =>
      let e := constr:(_ : Settable R) in
      let e' := eval hnf in e in
      lazymatch eval pattern proj in e' with
      | ?s _ => exact (fun f => s (fun r => f (proj r)))
      end
  end.

#[global] Hint Extern 0 (Setter _) => find_setter : typeclass_instances.
#[global] Typeclasses Opaque Settable Setter.

Notation "r <| f := v |>" := (set_with (proj := f) (fun _ => v) r)
  (at level 1, left associativity, format "r  <| f  :=  v |>").
Notation "r <| f ::= g |>" := (set_with (proj := f) g r)
  (at level 1, left associativity, format "r  <| f  ::=  g |>").

(** ** Fallible computations: Rust's [Result] *)
Inductive result (E A : Type) : Type :=
  | Ok (a : A)
  | Err (e : E).
Arguments Ok {E A} _.
Arguments Err {E A} _.

#[export] Instance result_eq_dec {E A} `{EqDecision E, EqDecision A} : EqDecision (result E A).
Proof. solve_decision. Defined.

Section result_monad.
Context {E : Type}.

#[export] Instance result_ret : MRet (result E) := λ A, Ok.
#[export] Instance result_bind : MBind (result E) := λ A B f m,
  match m with Ok a => f a | Err e => Err e end.
#[export] Instance result_fmap : FMap (result E) := λ A B f m,
  match m with Ok a => Ok (f a) | Err e => Err e end.

(** [Option::ok_or]. *)
Definition ok_or {A} (o : option A) (e : E) : result E A :=
  match o with Some a => Ok a | None => Err e end.

(** [Result::ok]. *)
Definition to_option {A} (m : result E A) : option A :=
  match m with Ok a => Some a | Err _ => None end.

Lemma bind_of_Ok {A B} (a : A) (f : A → result E B) : (Ok a ≫= f) = f a.
Proof. done. Qed.

Lemma bind_Ok {A B} (m : result E A) (f : A → result E B) b :
  m ≫= f = Ok b ↔ ∃ a, m = Ok a ∧ f a = Ok b.
Proof. destruct m; simpl; naive_solver. Qed.

Lemma ok_or_Ok {A} (o : option A) e a : ok_or o e = Ok a ↔ o = Some a.
Proof. destruct o; simpl; naive_solver. Qed.
End result_monad.

Definition result_map_err {E F A} (f : E → F) (m : result E A) : result F A :=
  match m with Ok a => Ok a | Err e => Err (f e) end.

Definition is_ok {E A} (m : result E A) : bool :=
  match m with Ok _ => true | Err _ => false end.

(** [bool::then_some]. *)
Definition then_some {A} (b : bool) (a : A) : option A := if b then Some a else None.

(** ** Machine integers

    An unsigned [w]-bit integer is a [Z] between [0] and [2^w - 1]; [usize] is
    the 64-bit one (the daemon is built for x86_64 and arm64 Linux). *)
Definition u8_max : Z := 255.
Definition u16_max : Z := 65535.
Definition u32_max : Z := 4294967295.
Definition u64_max : Z := 18446744073709551615.
Definition i64_max : Z := 9223372036854775807.
Abbreviation usize_max := u64_max (only parsing).

Definition in_range (m x : Z) : Prop := 0 ≤ x ≤ m.
Abbreviation is_u8 := (in_range u8_max) (only parsing).
Abbreviation is_u32 := (in_range u32_max) (only parsing).
Abbreviation is_u64 := (in_range u64_max) (only parsing).
Abbreviation is_usize := (in_range u64_max) (only parsing).

(** The length of a list as a machine integer. *)
Abbreviation zlength l := (Z.of_nat (length l)).

(** Saturating, checked and wrapping operations of the type whose maximum is
    [m]. *)
Definition sat_add (m a b : Z) : Z := Z.min m (a + b).
Definition sat_sub (a b : Z) : Z := Z.max 0 (a - b).
Definition sat_mul (m a b : Z) : Z := Z.min m (a * b).
Definition checked_add (m a b : Z) : option Z :=
  if a + b <=? m then Some (a + b) else None.
Definition checked_sub (a b : Z) : option Z :=
  if b <=? a then Some (a - b) else None.
Definition checked_mul (m a b : Z) : option Z :=
  if a * b <=? m then Some (a * b) else None.
Definition wrapping_add (m a b : Z) : Z := (a + b) mod (m + 1).
Definition div_ceil (a b : Z) : Z := (a + b - 1) / b.
Definition clamp (lo hi x : Z) : Z := Z.max lo (Z.min hi x).

Abbreviation u64_sat_add := (sat_add u64_max) (only parsing).
Abbreviation u64_sat_mul := (sat_mul u64_max) (only parsing).
Abbreviation usize_sat_add := (sat_add u64_max) (only parsing).

(** [Option::max] on [Option<Duration>]: [None] is the least element. *)
Definition option_Zmax (a b : option Z) : option Z :=
  match a, b with
  | Some x, Some y => Some (Z.max x y)
  | Some x, None => Some x
  | None, _ => b
  end.

(** [std::time::Duration] in nanoseconds: [u64::MAX] seconds and
    [999_999_999] nanoseconds at most. *)
Definition duration_max : Z := u64_max * 1000000000 + 999999999.
Definition duration_checked_add (a b : Z) : option Z := checked_add duration_max a b.
Definition duration_sat_sub (a b : Z) : Z := sat_sub a b.
Definition from_secs (s : Z) : Z := s * 1000000000.

(** ** Automation *)
Create HintDb dbev discriminated.

(** Unfold the integer operations and call [lia]. *)
Ltac int_lia :=
  unfold duration_checked_add, duration_sat_sub, sat_add, sat_sub, sat_mul,
    checked_add, checked_sub, checked_mul, div_ceil, clamp, in_range, u8_max, u16_max, u32_max, u64_max, i64_max, duration_max in *;
  simpl in *; lia.

(** Execute the first step of a sequence of fallible computations, once it was
    rewritten to its value. *)
Ltac step_ok := cbn [ok_or]; rewrite bind_of_Ok; cbv beta iota.

(** Case analysis on every [match] and [if] of the goal or a hypothesis, with
    the impossible cases closed. *)
Ltac split_matches :=
  repeat (case_match; simplify_eq/=; try done).

(** Turn the boolean comparisons of the context into propositions. *)
Ltac to_prop :=
  repeat match goal with
  | H : _ && _ = true |- _ => apply andb_true_iff in H; destruct H
  | H : _ && _ = false |- _ => apply andb_false_iff in H
  | H : _ || _ = true |- _ => apply orb_true_iff in H
  | H : _ || _ = false |- _ => apply orb_false_iff in H; destruct H
  | H : negb _ = true |- _ => apply negb_true_iff in H
  | H : negb _ = false |- _ => apply negb_false_iff in H
  | H : (_ <=? _) = true |- _ => apply Z.leb_le in H
  | H : (_ <=? _) = false |- _ => apply Z.leb_gt in H
  | H : (_ <? _) = true |- _ => apply Z.ltb_lt in H
  | H : (_ <? _) = false |- _ => apply Z.ltb_ge in H
  | H : (_ =? _) = true |- _ => apply Z.eqb_eq in H
  | H : (_ =? _) = false |- _ => apply Z.eqb_neq in H
  | H : bool_decide _ = true |- _ => apply bool_decide_eq_true in H
  | H : bool_decide _ = false |- _ => apply bool_decide_eq_false in H
  end.

(** ** Generic lemmas *)

Lemma checked_add_Some m a b c :
  checked_add m a b = Some c ↔ c = a + b ∧ a + b ≤ m.
Proof. unfold checked_add. case_match; to_prop; naive_solver lia. Qed.

Lemma checked_sub_Some a b c :
  checked_sub a b = Some c ↔ c = a - b ∧ b ≤ a.
Proof. unfold checked_sub. case_match; to_prop; naive_solver lia. Qed.

Lemma checked_mul_Some m a b c :
  checked_mul m a b = Some c ↔ c = a * b ∧ a * b ≤ m.
Proof. unfold checked_mul. case_match; to_prop; naive_solver lia. Qed.

Lemma sat_sub_add m a b : 0 ≤ a → a + b ≤ m → sat_sub (sat_add m a b) b = a.
Proof. int_lia. Qed.
