(* ===== verification/Bytes.v ===== *)
(** * Bytes, byte strings and UTF-8

    The part of the Rust standard library the protocol code relies on: [u8]
    slices as lists of bytes, fixed-width big- and little-endian integers,
    [slice::split], [Iterator::position], and the validity of UTF-8 as
    [str::from_utf8] decides it. *)
From Stdlib Require Export Init.Byte.
From Stdlib Require Import Strings.Byte.
From S2P Require Import Prelude.

Local Open Scope Z_scope.

(** ** Bytes *)

Abbreviation bytes := (list byte).

#[export] Instance byte_eq_dec : EqDecision byte := Byte.byte_eq_dec.

#[export] Instance byte_countable : Countable byte.
Proof.
  apply (inj_countable Byte.to_N Byte.of_N). intros b. apply Byte.of_to_N.
Defined.

(** The value of a byte, and [x as u8]. *)
Definition b2z (b : byte) : Z := Z.of_N (Byte.to_N b).
Definition z2b (x : Z) : byte :=
  match Byte.of_N (Z.to_N (x mod 256)) with Some b => b | None => x00 end.

Lemma b2z_range b : 0 ≤ b2z b < 256.
Proof. unfold b2z. pose proof (Byte.to_N_bounded b). lia. Qed.

Lemma z2b_b2z b : z2b (b2z b) = b.
Proof.
  unfold z2b. rewrite Z.mod_small by apply b2z_range. unfold b2z.
  by rewrite N2Z.id, Byte.of_to_N.
Qed.

Lemma b2z_z2b_mod x : b2z (z2b x) = x mod 256.
Proof.
  unfold z2b, b2z. pose proof (Z.mod_pos_bound x 256 ltac:(lia)).
  destruct (Byte.of_N _) as [b|] eqn:E.
  - apply Byte.to_of_N in E. rewrite E. lia.
  - apply Byte.of_N_None_iff in E. lia.
Qed.

Lemma b2z_z2b x : 0 ≤ x < 256 → b2z (z2b x) = x.
Proof. intros. by rewrite b2z_z2b_mod, Z.mod_small. Qed.

Lemma b2z_inj a b : b2z a = b2z b → a = b.
Proof. intros H. by rewrite <-(z2b_b2z a), H, z2b_b2z. Qed.

(** A byte-string literal. *)
Definition lit (s : string) : bytes := String.list_byte_of_string s.

(** ** Integers in bytes *)

(** [to_le_bytes] and [from_le_bytes] of an [n]-byte unsigned integer. *)
Fixpoint to_le (n : nat) (x : Z) : bytes :=
  match n with
  | O => []
  | S n => z2b x :: to_le n (x / 256)
  end.

Fixpoint from_le (l : bytes) : Z :=
  match l with
  | [] => 0
  | b :: l => b2z b + 256 * from_le l
  end.

(** [to_be_bytes] and [from_be_bytes]. *)
Definition to_be (n : nat) (x : Z) : bytes := rev (to_le n x).
Definition from_be (l : bytes) : Z := from_le (rev l).

Arguments to_be : simpl never.
Arguments from_be : simpl never.

Lemma to_le_length n x : length (to_le n x) = n.
Proof. revert x. induction n; intros; simpl; auto. Qed.

Lemma from_le_to_le n x : 0 ≤ x < 256 ^ Z.of_nat n → from_le (to_le n x) = x.
Proof.
  revert x. induction n as [|n IH]; intros x Hx; simpl; [change (256 ^ 0) with 1 in Hx; lia|].
  rewrite b2z_z2b_mod, IH.
  - pose proof (Z.div_mod x 256). lia.
  - rewrite Nat2Z.inj_succ, Z.pow_succ_r in Hx by lia.
    split; [apply Z.div_pos; lia|apply Z.div_lt_upper_bound; lia].
Qed.

Lemma from_le_range l : 0 ≤ from_le l < 256 ^ zlength l.
Proof.
  induction l as [|b l IH]; cbn [from_le length]; [lia|].
  rewrite Nat2Z.inj_succ, Z.pow_succ_r by lia. pose proof (b2z_range b). lia.
Qed.

Lemma to_le_from_le l : to_le (length l) (from_le l) = l.
Proof.
  induction l as [|b l IH]; simpl; [done|].
  pose proof (b2z_range b) as Hb. f_equal.
  - apply b2z_inj. rewrite b2z_z2b_mod. rewrite Z.mul_comm, Z.mod_add, Z.mod_small; lia.
  - rewrite Z.mul_comm, Z.div_add, Z.div_small, Z.add_0_l by lia. done.
Qed.

Lemma to_be_length n x : length (to_be n x) = n.
Proof. unfold to_be. by rewrite length_rev, to_le_length. Qed.

Lemma from_be_to_be n x : 0 ≤ x < 256 ^ Z.of_nat n → from_be (to_be n x) = x.
Proof. intros. unfold from_be, to_be. rewrite rev_involutive. by apply from_le_to_le. Qed.

Lemma to_be_from_be l : to_be (length l) (from_be l) = l.
Proof.
  unfold from_be, to_be. rewrite <-length_rev, to_le_from_le. apply rev_involutive.
Qed.

Lemma from_be_range l : 0 ≤ from_be l < 256 ^ zlength l.
Proof. unfold from_be. rewrite <-length_rev. apply from_le_range. Qed.

(** The signed reading of an unsigned 32-bit value ([i32::from_be_bytes]). *)
Definition as_i32 (x : Z) : Z := if x <? 2147483648 then x else x - 4294967296.

(** ** Slices *)

(** [bytes.get(start..end)]: absent when the range does not lie in the slice. *)
Definition get_range (start stop : nat) (l : bytes) : option bytes :=
  if (start <=? stop)%nat && (stop <=? length l)%nat
  then Some (take (stop - start) (drop start l)) else None.

(** [bytes.get(start..)]. *)
Definition get_from (start : nat) (l : bytes) : option bytes :=
  if (start <=? length l)%nat then Some (drop start l) else None.

(** [iter().position(p)]. *)
Fixpoint position (p : byte → bool) (l : bytes) : option nat :=
  match l with
  | [] => None
  | b :: l => if p b then Some 0%nat else S <$> position p l
  end.

(** [slice::split(p)]: the pieces between the separators, one more than there
    are separators. *)
Fixpoint split_on (p : byte → bool) (l : bytes) : list bytes :=
  match l with
  | [] => [[]]
  | b :: l =>
      if p b then [] :: split_on p l
      else match split_on p l with
           | [] => [[b]]
           | piece :: pieces => (b :: piece) :: pieces
           end
  end.

Definition is_nul (b : byte) : bool := bool_decide (b = x00).

Definition no_nul (v : bytes) : Prop := Forall (λ b, is_nul b = false) v.

Lemma split_on_ne p l : split_on p l ≠ [].
Proof. destruct l; simpl; [done|]. case_match; [done|]. by case_match. Qed.

Lemma split_on_app p piece b rest :
  Forall (λ b, p b = false) piece → p b = true →
  split_on p (piece ++ b :: rest) = piece :: split_on p rest.
Proof.
  intros Hp Hb. induction Hp as [|x piece Hx _ IH]; simpl; [by rewrite Hb|].
  by rewrite Hx, IH.
Qed.

Lemma position_app p piece b rest :
  Forall (λ b, p b = false) piece → p b = true →
  position p (piece ++ b :: rest) = Some (length piece).
Proof.
  intros Hp Hb. induction Hp as [|x piece Hx _ IH]; simpl; [by rewrite Hb|].
  by rewrite Hx, IH.
Qed.

Lemma get_range_app a b c : get_range (length a) (length a + length b) (a ++ b ++ c) = Some b.
Proof.
  unfold get_range. rewrite !length_app.
  destruct (Nat.leb_spec (length a) (length a + length b)); [|lia].
  destruct (Nat.leb_spec (length a + length b) (length a + (length b + length c))); [|lia].
  cbn [andb]. replace (length a + length b - length a)%nat with (length b) by lia.
  by rewrite drop_app_length, take_app_length.
Qed.

Lemma get_range_Some i j l s :
  get_range i j l = Some s → ∃ a c, l = a ++ s ++ c ∧ length a = i ∧ (j = i + length s)%nat.
Proof.
  unfold get_range.
  destruct (Nat.leb_spec i j); [|done]. destruct (Nat.leb_spec j (length l)); [|done].
  intros [= <-]. exists (take i l), (drop (j - i) (drop i l)).
  rewrite take_drop, take_drop, !length_take, length_drop. split; [done|lia].
Qed.

Lemma get_from_app a b : get_from (length a) (a ++ b) = Some b.
Proof.
  unfold get_from. rewrite length_app.
  destruct (Nat.leb_spec (length a) (length a + length b)); [|lia].
  by rewrite drop_app_length.
Qed.

Lemma position_Some p l i :
  position p l = Some i →
  ∃ b, l = take i l ++ b :: drop (S i) l ∧ p b = true ∧ Forall (λ b, p b = false) (take i l)
       ∧ (i < length l)%nat.
Proof.
  revert i. induction l as [|x l IH]; intros i; simpl; [done|].
  destruct (p x) eqn:Hx.
  - intros [= <-]. exists x. rewrite drop_0. repeat split; [done..|constructor|lia].
  - destruct (position p l) as [j|] eqn:Hj; [|done]. intros [= <-].
    destruct (IH _ eq_refl) as (b & E & Hb & Hf & Hlt). exists b.
    repeat split; [|done|by constructor|lia]. simpl. f_equal. done.
Qed.

(** [read_exact] into a buffer of [n] bytes, on a stream that ends after the
    bytes it is given by. *)
Definition read_exact (n : nat) (stream : bytes) : option (bytes * bytes) :=
  if (n <=? length stream)%nat then Some (take n stream, drop n stream) else None.

Lemma read_exact_app n a rest : length a = n → read_exact n (a ++ rest) = Some (a, rest).
Proof.
  intros <-. unfold read_exact.
  destruct (Nat.leb_spec (length a) (length (a ++ rest))) as [_|H].
  - by rewrite take_app_length, drop_app_length.
  - rewrite length_app in H. lia.
Qed.

Lemma read_exact_Some n s a rest :
  read_exact n s = Some (a, rest) → s = a ++ rest ∧ length a = n.
Proof.
  unfold read_exact. destruct (Nat.leb_spec n (length s)); intros; simplify_eq.
  rewrite take_drop, length_take. split; [done|lia].
Qed.

(** ** Text *)

Definition between (lo hi : Z) (b : byte) : bool := (lo <=? b2z b) && (b2z b <=? hi).

(** [u8::to_ascii_lowercase] and [eq_ignore_ascii_case]. *)
Definition to_ascii_lowercase (b : byte) : byte :=
  if between 65 90 b then z2b (b2z b + 32) else b.
Definition eq_ignore_ascii_case (a b : bytes) : bool :=
  bool_decide (to_ascii_lowercase <$> a = to_ascii_lowercase <$> b).

(** The [String] of a validated byte string. *)
Definition text (v : bytes) : string := String.string_of_list_byte v.

Lemma text_lit s : text (lit s) = s.
Proof. apply String.string_of_list_byte_of_string. Qed.

Lemma lit_text v : lit (text v) = v.
Proof. apply String.list_byte_of_string_of_list_byte. Qed.

(** ** UTF-8 *)

Abbreviation cont := (between 128 191).

(** Well-formed byte sequences (Unicode 15, table 3-7), as [str::from_utf8]
    accepts them. *)
Fixpoint valid_utf8 (l : bytes) : bool :=
  match l with
  | [] => true
  | b :: l1 =>
      if b2z b <? 128 then valid_utf8 l1
      else match l1 with
      | [] => false
      | c1 :: l2 =>
          if between 194 223 b then cont c1 && valid_utf8 l2
          else match l2 with
          | [] => false
          | c2 :: l3 =>
              if between 224 239 b then
                between (if b2z b =? 224 then 160 else 128)
                        (if b2z b =? 237 then 159 else 191) c1
                && cont c2 && valid_utf8 l3
              else match l3 with
              | [] => false
              | c3 :: l4 =>
                  between 240 244 b
                  && between (if b2z b =? 240 then 144 else 128)
                             (if b2z b =? 244 then 143 else 191) c1
                  && cont c2 && cont c3 && valid_utf8 l4
              end
          end
      end
  end.

(** ** White space *)

(** The UTF-8 encodings of the characters [char::is_whitespace] accepts. *)
Definition WHITESPACE : list bytes :=
  [[x09]; [x0a]; [x0b]; [x0c]; [x0d]; [x20]; [xc2; x85]; [xc2; xa0]; [xe1; x9a; x80];
   [xe2; x80; x80]; [xe2; x80; x81]; [xe2; x80; x82]; [xe2; x80; x83]; [xe2; x80; x84];
   [xe2; x80; x85]; [xe2; x80; x86]; [xe2; x80; x87]; [xe2; x80; x88]; [xe2; x80; x89];
   [xe2; x80; x8a]; [xe2; x80; xa8]; [xe2; x80; xa9]; [xe2; x80; xaf]; [xe2; x81; x9f];
   [xe3; x80; x80]].

Definition begins_with (p v : bytes) : bool := bool_decide (take (length p) v = p).

Fixpoint trim_with (spaces : list bytes) (fuel : nat) (v : bytes) : bytes :=
  match fuel with
  | O => v
  | S fuel =>
      match find (λ p, begins_with p v) spaces with
      | Some p => trim_with spaces fuel (drop (length p) v)
      | None => v
      end
  end.

(** [str::trim]. *)
Definition trim_start (v : bytes) : bytes := trim_with WHITESPACE (length v) v.
Definition trim_end (v : bytes) : bytes :=
  reverse (trim_with (reverse <$> WHITESPACE) (length v) (reverse v)).
Definition trim (v : bytes) : bytes := trim_end (trim_start v).

(** ** Bits *)

Lemma lor_disjoint a b n : 0 ≤ n → 0 ≤ a < 2 ^ n → Z.lor a (Z.shiftl b n) = a + b * 2 ^ n.
Proof.
  intros Hn Ha. rewrite Z.shiftl_mul_pow2 by done. symmetry.
  rewrite <-Z.lxor_lor, <-Z.add_nocarry_lxor; try done.
  all: apply Z.bits_inj'; intros i Hi; rewrite Z.land_spec, Z.bits_0.
  all: destruct (Z.lt_ge_cases i n); [rewrite Z.mul_pow2_bits_low by lia; apply andb_false_r|].
  all: destruct (Z.eq_dec a 0) as [->|]; [by rewrite Z.testbit_0_l|].
  all: rewrite (Z.bits_above_log2 a i); [done|lia|].
  all: assert (Z.log2 a < n) by (apply Z.log2_lt_pow2; lia); lia.
Qed.
