(* ===== verification/Engines.v ===== *)
(** * Protocols and engine profiles

    The protocols of [src/src/app/databases/protocol.rs] and the constant
    profiles the engines of [src/src/app/databases/*/engine.rs] declare: their
    family, the cost profile of an import or export job, and the shared-pool
    profile of the engines that can host several tenants. *)
From S2P Require Import Prelude.

Local Open Scope Z_scope.

Inductive Protocol :=
  | Postgres | Redis | Valkey | Mariadb | Mysql | Mongodb | Clickhouse | Qdrant.
#[export] Instance Protocol_eq_dec : EqDecision Protocol.
Proof. solve_decision. Defined.

(** [Protocol::ALL]. *)
Definition protocol_all : list Protocol :=
  [Postgres; Redis; Valkey; Mariadb; Mysql; Mongodb; Clickhouse; Qdrant].

Definition protocol_as_str (p : Protocol) : string :=
  match p with
  | Postgres => "postgres" | Redis => "redis" | Valkey => "valkey"
  | Mariadb => "mariadb" | Mysql => "mysql" | Mongodb => "mongodb"
  | Clickhouse => "clickhouse" | Qdrant => "qdrant"
  end.

Definition protocol_from_str (v : string) : option Protocol :=
  if bool_decide (v = "postgres") || bool_decide (v = "postgresql") then Some Postgres
  else if bool_decide (v = "redis") then Some Redis
  else if bool_decide (v = "valkey") then Some Valkey
  else if bool_decide (v = "mariadb") then Some Mariadb
  else if bool_decide (v = "mysql") then Some Mysql
  else if bool_decide (v = "mongodb") || bool_decide (v = "mongo") then Some Mongodb
  else if bool_decide (v = "clickhouse") || bool_decide (v = "ch") then Some Clickhouse
  else if bool_decide (v = "qdrant") || bool_decide (v = "qdrant-grpc") then Some Qdrant
  else None.

(** The protocol of a database row, [parse_protocol] of the upload repository:
    the inverse of [as_str], aliases excluded. *)
Definition parse_protocol (v : string) : option Protocol :=
  snd <$> list_find (λ p, protocol_as_str p = v) protocol_all.

Inductive EngineFamily :=
  | FamPostgres | FamMysql | FamDocument | FamColumnar | FamResp | FamVector.

Definition family (p : Protocol) : EngineFamily :=
  match p with
  | Postgres => FamPostgres
  | Mariadb | Mysql => FamMysql
  | Mongodb => FamDocument
  | Clickhouse => FamColumnar
  | Redis | Valkey => FamResp
  | Qdrant => FamVector
  end.

Definition family_is_physical (f : EngineFamily) : bool :=
  match f with FamResp | FamVector => true | _ => false end.

Definition is_physical (p : Protocol) : bool := family_is_physical (family p).

Definition native_export_compression (p : Protocol) : bool :=
  match p with Mongodb => true | _ => is_physical p end.

Record JobCostProfile := mkJobCostProfile {
  base_memory_mib : Z;
  io_multiplier : Z;
  base_cpu_units : Z;
  stream_memory_divisor : Z;
  stream_memory_cap_mib : Z;
}.

Definition SQL_JOB_COST : JobCostProfile :=
  {| base_memory_mib := 96; io_multiplier := 4; base_cpu_units := 1;
     stream_memory_divisor := 32; stream_memory_cap_mib := 256 |}.

Definition PHYSICAL_JOB_COST : JobCostProfile :=
  {| base_memory_mib := 128; io_multiplier := 2; base_cpu_units := 1;
     stream_memory_divisor := 32; stream_memory_cap_mib := 256 |}.

Definition mongodb_job_cost : JobCostProfile :=
  {| base_memory_mib := 256; io_multiplier := 4; base_cpu_units := 2;
     stream_memory_divisor := 16; stream_memory_cap_mib := 512 |}.

Definition clickhouse_job_cost : JobCostProfile :=
  {| base_memory_mib := 192; io_multiplier := 3; base_cpu_units := 2;
     stream_memory_divisor := 32; stream_memory_cap_mib := 256 |}.

(** [protocol.engine().job_cost()]. *)
Definition job_cost (p : Protocol) : JobCostProfile :=
  match p with
  | Postgres | Mysql | Mariadb => SQL_JOB_COST
  | Redis | Valkey | Qdrant => PHYSICAL_JOB_COST
  | Mongodb => mongodb_job_cost
  | Clickhouse => clickhouse_job_cost
  end.

Record SharedPoolProfile := mkSharedPoolProfile {
  disk_overhead_mib : Z;
  max_database_name_bytes : Z;
  reserved_databases : list string;
}.

(** [protocol.engine().shared_pool()]. *)
Definition shared_pool (p : Protocol) : option SharedPoolProfile :=
  match p with
  | Postgres => Some (mkSharedPoolProfile 2048 63 ["dbe_control"])
  | Mysql => Some (mkSharedPoolProfile 512 64 ["performance_schema"; "sys"])
  | Mariadb => Some (mkSharedPoolProfile 512 64 ["performance_schema"; "sys"])
  | Mongodb => Some (mkSharedPoolProfile 512 63 ["config"])
  | Clickhouse => Some (mkSharedPoolProfile 1024 128 ["dbe_control"; "default"; "system"])
  | Redis | Valkey | Qdrant => None
  end.

(** [protocol.engine().is_driver_placeholder_database(username, database)]. *)
Definition is_driver_placeholder_database (p : Protocol) (username : string)
    (database : option string) : bool :=
  match p with
  | Postgres => bool_decide (database = Some username)
  | Clickhouse => bool_decide (database = Some "default")
  | _ => false
  end.

Definition BYTES_PER_MIB : Z := 1024 * 1024.
Definition mib_to_bytes (mib : Z) : Z := u64_sat_mul mib BYTES_PER_MIB.
Definition bytes_to_mib_ceil (bytes : Z) : Z := div_ceil bytes BYTES_PER_MIB.

(** ** Facts used by the clients *)

Lemma protocol_all_complete p : p ∈ protocol_all.
Proof. destruct p; unfold protocol_all; set_solver. Qed.

Lemma protocol_as_str_inj p q : protocol_as_str p = protocol_as_str q → p = q.
Proof. by destruct p, q. Qed.

Lemma parse_protocol_as_str p : parse_protocol (protocol_as_str p) = Some p.
Proof. by destruct p. Qed.

(** Every profile divides by a positive number and needs some memory and CPU. *)
Lemma job_cost_bounds p :
  96 ≤ base_memory_mib (job_cost p) ≤ 256 ∧ 2 ≤ io_multiplier (job_cost p) ≤ 4 ∧
  1 ≤ base_cpu_units (job_cost p) ≤ 2 ∧ 16 ≤ stream_memory_divisor (job_cost p) ≤ 32 ∧
  256 ≤ stream_memory_cap_mib (job_cost p) ≤ 512.
Proof. destruct p; simpl; lia. Qed.

Lemma bytes_to_mib_ceil_bounds bytes :
  is_u64 bytes → 0 ≤ bytes_to_mib_ceil bytes ≤ 17592186044416.
Proof.
  unfold bytes_to_mib_ceil, div_ceil, BYTES_PER_MIB, in_range, u64_max. intros ?.
  split; [apply Z.div_pos; lia|]. apply Z.lt_succ_r, Z.div_lt_upper_bound; lia.
Qed.

Lemma bytes_to_mib_ceil_mono a b :
  a ≤ b → bytes_to_mib_ceil a ≤ bytes_to_mib_ceil b.
Proof. intros ?. unfold bytes_to_mib_ceil, div_ceil, BYTES_PER_MIB. apply Z.div_le_mono; lia. Qed.
