(* ===== verification/Planner.v ===== *)
(** * The hybrid soft-disk scan planner

    Model of [src/src/app/server/disk/soft/planner.rs]: the state machine that
    decides when the data directory of each database is measured, by a full
    walk or by a partial rescan of the directories inotify reported.  The
    planner is owned by one task of the daemon, so an operation is one atomic
    step of the state. *)
From S2P Require Import Prelude.

Local Open Scope Z_scope.

(** ** Data *)

Record PlannerConfig := mkPlannerConfig {
  scan_interval : Z;
  full_scan_interval : Z;
  debounce : Z;
  watcher_enabled : bool;
}.
#[export] Instance PlannerConfig_eta : Settable PlannerConfig :=
  λ r, mkPlannerConfig (scan_interval r) (full_scan_interval r) (debounce r)
         (watcher_enabled r).

Definition normalized (c : PlannerConfig) : PlannerConfig :=
  let c := if scan_interval c =? 0 then c <| scan_interval := 1 |> else c in
  c <| full_scan_interval := Z.max (full_scan_interval c) (scan_interval c) |>.

Record RootIdentity := mkRootIdentity { device : Z; inode : Z }.
#[export] Instance RootIdentity_eq_dec : EqDecision RootIdentity.
Proof. solve_decision. Defined.

Record TargetSpec := mkTargetSpec {
  spec_id : string;
  spec_fingerprint : string;
  spec_root_identity : option RootIdentity;
  enabled : bool;
  watcher_trusted : bool;
  force_periodic_full : bool;
}.
#[export] Instance TargetSpec_eta : Settable TargetSpec :=
  λ r, mkTargetSpec (spec_id r) (spec_fingerprint r) (spec_root_identity r)
         (enabled r) (watcher_trusted r) (force_periodic_full r).
#[export] Instance TargetSpec_eq_dec : EqDecision TargetSpec.
Proof. solve_decision. Defined.

Inductive ScanKind := Full | Partial.
#[export] Instance ScanKind_eq_dec : EqDecision ScanKind.
Proof. solve_decision. Defined.

Inductive ScanReason :=
  | Initial
  | TargetChanged
  | Dirty
  | Overflow
  | WatcherFallback
  | PeriodicFull
  | FullDeadline
  | PartialFallback
  | RetryAfterFailure.
#[export] Instance ScanReason_eq_dec : EqDecision ScanReason.
Proof. solve_decision. Defined.

Record ScanCandidate := mkScanCandidate {
  cand_target_id : string;
  cand_kind : ScanKind;
  cand_reason : ScanReason;
  cand_fingerprint : string;
  cand_root_identity : option RootIdentity;
  captured_generation : Z;
  cand_revision : Z;
  cand_token : Z;
  cand_due_at : Z;
}.

Inductive ScanCompletion :=
  | Succeeded (performed : ScanKind)
  | Failed.

Inductive CompletionDisposition := Applied | Stale | Missing.

Inductive UpsertDisposition := Inserted | Reset | Unchanged.

Record FullRequirement := mkFullRequirement {
  req_due_at : Z;
  req_generation : Z;
  req_reason : ScanReason;
}.
#[export] Instance FullRequirement_eta : Settable FullRequirement :=
  λ r, mkFullRequirement (req_due_at r) (req_generation r) (req_reason r).

Record InFlight := mkInFlight { fl_token : Z; fl_revision : Z }.

Record TargetState := mkTargetState {
  spec : TargetSpec;
  revision : Z;
  dirty_generation : Z;
  acknowledged_generation : Z;
  dirty_due : option Z;
  baseline_available : bool;
  full_requirement : option FullRequirement;
  last_dispatch_at : option Z;
  last_scan_at : option Z;
  last_full_at : option Z;
  next_periodic_due : Z;
  full_deadline : Z;
  in_flight : option InFlight;
  last_dispatch_order : Z;
}.
#[export] Instance TargetState_eta : Settable TargetState :=
  λ r, mkTargetState (spec r) (revision r) (dirty_generation r)
         (acknowledged_generation r) (dirty_due r) (baseline_available r)
         (full_requirement r) (last_dispatch_at r) (last_scan_at r)
         (last_full_at r) (next_periodic_due r) (full_deadline r)
         (in_flight r) (last_dispatch_order r).

(** ** One target *)

(** [TargetState::new]. *)
Definition target_new (s : TargetSpec) (now : Z) : TargetState :=
  {| spec := s;
     revision := 1;
     dirty_generation := 0;
     acknowledged_generation := 0;
     dirty_due := None;
     baseline_available := false;
     full_requirement :=
       then_some (enabled s)
         {| req_due_at := now; req_generation := 0; req_reason := Initial |};
     last_dispatch_at := None;
     last_scan_at := None;
     last_full_at := None;
     next_periodic_due := now;
     full_deadline := now;
     in_flight := None;
     last_dispatch_order := 0 |}.

(** [TargetState::reset]: the lease of a running worker is kept. *)
Definition target_reset (t : TargetState) (now : Z) (reason : ScanReason) : TargetState :=
  {| spec := spec t;
     revision := u64_sat_add (revision t) 1;
     dirty_generation := 0;
     acknowledged_generation := 0;
     dirty_due := None;
     baseline_available := false;
     full_requirement :=
       then_some (enabled (spec t))
         {| req_due_at := now; req_generation := 0; req_reason := reason |};
     last_dispatch_at :=
       match in_flight t with Some _ => last_dispatch_at t | None => None end;
     last_scan_at := None;
     last_full_at := None;
     next_periodic_due := now;
     full_deadline := now;
     in_flight := in_flight t;
     last_dispatch_order := last_dispatch_order t |}.

Definition add_tick (left right : Z) : Z :=
  default duration_max (duration_checked_add left right).

Definition debounced_cadence_due (now deb interval : Z) : Z :=
  Z.max (add_tick now deb) (add_tick now interval).

Definition next_dirty_due (t : TargetState) (now : Z) (c : PlannerConfig) : Z :=
  let debounce_due := add_tick now (debounce c) in
  let last_activity := option_Zmax (last_scan_at t) (last_dispatch_at t) in
  let cadence_due :=
    match last_activity with
    | Some activity => add_tick activity (scan_interval c)
    | None => 0
    end in
  Z.max debounce_due cadence_due.

(** [dirty_due.get_or_insert(due_at)]. *)
Definition get_or_insert (o : option Z) (d : Z) : option Z :=
  match o with Some x => Some x | None => Some d end.

(** [HybridScanPlanner::record_full_scan]. *)
Definition record_full_scan (t : TargetState) (now : Z) (cand : ScanCandidate)
    (c : PlannerConfig) : TargetState :=
  let t := t <| baseline_available := true |>
             <| last_full_at := Some now |>
             <| full_deadline := add_tick now (full_scan_interval c) |> in
  match full_requirement t with
  | None => t
  | Some required =>
      if req_generation required <=? captured_generation cand then
        t <| full_requirement := None |>
      else
        let required :=
          if bool_decide (req_reason required = RetryAfterFailure)
          then required <| req_reason := Overflow |> else required in
        let cadence_due := add_tick now (scan_interval c) in
        t <| full_requirement :=
               Some (required <| req_due_at :=
                 Z.min (Z.max (req_due_at required) cadence_due) (full_deadline t) |>) |>
  end.

(** [HybridScanPlanner::require_full_after]. *)
Definition require_full_after (t : TargetState) (now : Z) (cand : ScanCandidate)
    (reason : ScanReason) (deb interval : Z) : TargetState :=
  t <| full_requirement :=
         Some {| req_due_at := debounced_cadence_due now deb interval;
                 req_generation := Z.max (dirty_generation t) (captured_generation cand);
                 req_reason := reason |} |>.

(** [HybridScanPlanner::acknowledge_generation]. *)
Definition acknowledge_generation (t : TargetState) (captured now deb interval : Z) :
    TargetState :=
  let t := t <| acknowledged_generation := Z.max (acknowledged_generation t) captured |> in
  if dirty_generation t <=? captured then t <| dirty_due := None |>
  else t <| dirty_due := Some (debounced_cadence_due now deb interval) |>.

(** ** The planner *)

Record HybridScanPlanner := mkPlanner {
  config : PlannerConfig;
  targets : gmap string TargetState;
  next_token : Z;
  dispatch_order : Z;
  shutdown_flag : bool;
}.
#[export] Instance HybridScanPlanner_eta : Settable HybridScanPlanner :=
  λ r, mkPlanner (config r) (targets r) (next_token r) (dispatch_order r)
         (shutdown_flag r).

Definition planner_new (c : PlannerConfig) : HybridScanPlanner :=
  {| config := normalized c; targets := ∅; next_token := 0; dispatch_order := 0;
     shutdown_flag := false |}.

(** Write back the state of one target. *)
Definition put_target (p : HybridScanPlanner) (id : string) (t : TargetState) :
    HybridScanPlanner :=
  p <| targets := <[id := t]> (targets p) |>.

Definition upsert_target (p : HybridScanPlanner) (now : Z) (s : TargetSpec) :
    HybridScanPlanner * UpsertDisposition :=
  let id := spec_id s in
  match targets p !! id with
  | None => (put_target p id (target_new s now), Inserted)
  | Some t =>
      if bool_decide (spec t = s) then (p, Unchanged)
      else (put_target p id (target_reset (t <| spec := s |>) now TargetChanged), Reset)
  end.

Definition remove_target (p : HybridScanPlanner) (id : string) :
    HybridScanPlanner * bool :=
  (p <| targets := delete id (targets p) |>,
   match targets p !! id with Some _ => true | None => false end).

Definition set_watcher_trusted (p : HybridScanPlanner) (id : string) (trusted : bool)
    (now : Z) : HybridScanPlanner * bool :=
  match targets p !! id with
  | None => (p, false)
  | Some t =>
      if Bool.eqb (watcher_trusted (spec t)) trusted then (p, false)
      else
        let t := t <| spec := (spec t) <| watcher_trusted := trusted |> |> in
        (put_target p id (target_reset t now TargetChanged), true)
  end.

(** The part of [mark_dirty] and [mark_overflow] that records a generation. *)
Definition advance_dirty (t : TargetState) (now generation : Z) (c : PlannerConfig) :
    TargetState :=
  let t := t <| dirty_generation := generation |> in
  t <| dirty_due := get_or_insert (dirty_due t) (next_dirty_due t now c) |>.

Definition mark_dirty (p : HybridScanPlanner) (id : string) (now watcher_generation : Z) :
    HybridScanPlanner * bool :=
  match targets p !! id with
  | None => (p, false)
  | Some t =>
      if negb (enabled (spec t)) || (watcher_generation =? 0)
         || (watcher_generation <=? dirty_generation t) then (p, false)
      else (put_target p id (advance_dirty t now watcher_generation (config p)), true)
  end.

Definition mark_overflow (p : HybridScanPlanner) (id : string) (now watcher_generation : Z) :
    HybridScanPlanner * bool :=
  match targets p !! id with
  | None => (p, false)
  | Some t =>
      if negb (enabled (spec t)) then (p, false)
      else
        let generation_advanced := dirty_generation t <? watcher_generation in
        let t := if generation_advanced
                 then advance_dirty t now watcher_generation (config p) else t in
        match full_requirement t with
        | Some required =>
            let merged := required <| req_generation :=
                            Z.max (req_generation required) (dirty_generation t) |> in
            if bool_decide (req_reason required = RetryAfterFailure) then
              (put_target p id (t <| full_requirement := Some merged |>),
               generation_advanced)
            else if negb generation_advanced then (put_target p id t, false)
            else
              let merged := if req_due_at merged <=? now
                            then merged <| req_reason := Overflow |> else merged in
              (put_target p id (t <| full_requirement := Some merged |>), true)
        | None =>
            (put_target p id
               (t <| full_requirement :=
                      Some {| req_due_at := now; req_generation := dirty_generation t;
                              req_reason := Overflow |} |>), true)
        end
  end.

Definition due_work (c : PlannerConfig) (t : TargetState) :
    option (Z * ScanKind * ScanReason) :=
  if negb (enabled (spec t)) || bool_decide (is_Some (in_flight t)) then None
  else
    match full_requirement t with
    | Some required => Some (req_due_at required, Full, req_reason required)
    | None =>
        if negb (baseline_available t) then Some (next_periodic_due t, Full, Initial)
        else if negb (watcher_enabled c) || negb (watcher_trusted (spec t)) then
          Some (next_periodic_due t, Full, WatcherFallback)
        else if force_periodic_full (spec t) then
          Some (next_periodic_due t, Full, PeriodicFull)
        else
          match dirty_due t with
          | None => Some (full_deadline t, Full, FullDeadline)
          | Some d => if d <? full_deadline t then Some (d, Partial, Dirty)
                      else Some (full_deadline t, Full, FullDeadline)
          end
    end.

(** The work items [next_candidate] compares: due time, last dispatch order,
    target identifier, kind and reason. *)
Record WorkItem := mkWorkItem {
  wi_due : Z; wi_order : Z; wi_id : string; wi_kind : ScanKind; wi_reason : ScanReason;
}.

(** The comparison [(due_at, last_dispatch_order, id)] of [min_by]. *)
Definition work_compare (a b : WorkItem) : comparison :=
  match (wi_due a ?= wi_due b) with
  | Eq => match (wi_order a ?= wi_order b) with
          | Eq => String.compare (wi_id a) (wi_id b)
          | c => c
          end
  | c => c
  end.

(** [Iterator::min_by]: the first of the least elements. *)
Definition min_work (l : list WorkItem) : option WorkItem :=
  match l with
  | [] => None
  | a :: l => Some (foldl (λ best x, match work_compare x best with
                                     | Lt => x | _ => best end) a l)
  end.

Definition work_of (c : PlannerConfig) (now : Z) (kt : string * TargetState) :
    option WorkItem :=
  '(due, kind, reason) ← due_work c (kt.2);
  if due <=? now then
    Some {| wi_due := due; wi_order := last_dispatch_order (kt.2); wi_id := kt.1;
            wi_kind := kind; wi_reason := reason |}
  else None.

Definition due_items (p : HybridScanPlanner) (now : Z) : list WorkItem :=
  omap (work_of (config p) now) (map_to_list (targets p)).

Definition next_candidate (p : HybridScanPlanner) (now : Z) :
    HybridScanPlanner * option ScanCandidate :=
  if shutdown_flag p then (p, None)
  else
    match min_work (due_items p now) with
    | None => (p, None)
    | Some w =>
        let token := Z.max (u64_sat_add (next_token p) 1) 1 in
        let order := Z.max (u64_sat_add (dispatch_order p) 1) 1 in
        let p := p <| next_token := token |> <| dispatch_order := order |> in
        match targets p !! wi_id w with
        | None => (p, None)
        | Some t =>
            let t := t <| last_dispatch_order := order |>
                       <| last_dispatch_at := Some now |>
                       <| in_flight := Some {| fl_token := token;
                                               fl_revision := revision t |} |> in
            (put_target p (wi_id w) t,
             Some {| cand_target_id := wi_id w;
                     cand_kind := wi_kind w;
                     cand_reason := wi_reason w;
                     cand_fingerprint := spec_fingerprint (spec t);
                     cand_root_identity := spec_root_identity (spec t);
                     captured_generation := dirty_generation t;
                     cand_revision := revision t;
                     cand_token := token;
                     cand_due_at := wi_due w |})
        end
    end.

(** [Iterator::min] on due times. *)
Definition min_due (l : list Z) : option Z :=
  match l with [] => None | a :: l => Some (foldl Z.min a l) end.

Definition next_wakeup (p : HybridScanPlanner) (now : Z) : option Z :=
  if shutdown_flag p then None
  else
    (λ due, duration_sat_sub due now) <$>
      min_due (omap (λ kt, (λ w, w.1.1) <$> due_work (config p) (kt.2))
                 (map_to_list (targets p))).

(** The effect of a completion the planner accepts. *)
Definition apply_completion (c : PlannerConfig) (t : TargetState) (cand : ScanCandidate)
    (now : Z) (completion : ScanCompletion) : TargetState :=
  let t := t <| in_flight := None |>
             <| last_scan_at := Some now |>
             <| next_periodic_due := add_tick now (scan_interval c) |> in
  match completion with
  | Succeeded performed =>
      if bool_decide (cand_kind cand = Full) && bool_decide (performed ≠ Full) then
        require_full_after t now cand PartialFallback (debounce c) (scan_interval c)
      else
        let t := acknowledge_generation t (captured_generation cand) now
                   (debounce c) (scan_interval c) in
        if bool_decide (performed = Full) then record_full_scan t now cand c else t
  | Failed =>
      t <| full_requirement :=
             Some {| req_due_at := add_tick now (scan_interval c);
                     req_generation := Z.max (dirty_generation t) (captured_generation cand);
                     req_reason := RetryAfterFailure |} |>
  end.

Definition complete (p : HybridScanPlanner) (cand : ScanCandidate) (now : Z)
    (completion : ScanCompletion) : HybridScanPlanner * CompletionDisposition :=
  let id := cand_target_id cand in
  match targets p !! id with
  | None => (p, Missing)
  | Some t =>
      match in_flight t with
      | None => (p, Stale)
      | Some fl =>
          if negb (fl_token fl =? cand_token cand)
             || negb (fl_revision fl =? cand_revision cand) then (p, Stale)
          else if negb (revision t =? cand_revision cand)
             || negb (bool_decide (spec_fingerprint (spec t) = cand_fingerprint cand))
             || negb (bool_decide (spec_root_identity (spec t) = cand_root_identity cand))
          then (put_target p id (t <| in_flight := None |>), Stale)
          else (put_target p id (apply_completion (config p) t cand now completion), Applied)
      end
  end.

Definition shutdown (p : HybridScanPlanner) : HybridScanPlanner :=
  p <| shutdown_flag := true |>.

(** ** Selection: [min_work] and [min_due] *)

(** [a] comes no later than [b] in the dispatch order. *)
Definition work_le (a b : WorkItem) : Prop :=
  wi_due a < wi_due b ∨
  (wi_due a = wi_due b ∧
   (wi_order a < wi_order b ∨
    (wi_order a = wi_order b ∧ (wi_id a ≤ wi_id b)%string))).

Lemma string_le_compare a b : (a ≤ b)%string ↔ String.compare a b ≠ Gt.
Proof.
  unfold String.le, String.leb. destruct (String.compare a b); simpl; naive_solver.
Qed.

Lemma work_compare_le a b : work_compare a b ≠ Gt ↔ work_le a b.
Proof.
  unfold work_compare, work_le. rewrite string_le_compare.
  destruct (Z.compare_spec (wi_due a) (wi_due b)),
    (Z.compare_spec (wi_order a) (wi_order b)); naive_solver lia.
Qed.

Lemma work_compare_opp a b : work_compare a b = CompOpp (work_compare b a).
Proof.
  unfold work_compare. rewrite (Z.compare_antisym (wi_due b)).
  destruct (wi_due b ?= wi_due a); [|done|done]; simpl.
  rewrite (Z.compare_antisym (wi_order b)).
  destruct (wi_order b ?= wi_order a); [|done|done]; simpl.
  apply String.compare_antisym.
Qed.

#[export] Instance work_le_refl : Reflexive work_le.
Proof. intros a. right. split; [done|]. right. split; [done|]. reflexivity. Qed.

#[export] Instance work_le_trans : Transitive work_le.
Proof.
  intros a b c [?|(?&[?|(?&?)])] [?|(?&[?|(?&?)])]; unfold work_le;
    try (left; lia); right; (split; [lia|]); try (left; lia).
  right. split; [lia|]. by etrans.
Qed.

Lemma min_work_fold_spec l a :
  let m := foldl (λ best x, match work_compare x best with Lt => x | _ => best end) a l in
  (m = a ∨ m ∈ l) ∧ work_le m a ∧ ∀ x, x ∈ l → work_le m x.
Proof.
  revert a. induction l as [|y l IH]; intros a; simpl.
  { split; [by left|]. split; [done|]. intros x Hx. by apply not_elem_of_nil in Hx. }
  set (b := match work_compare y a with Lt => y | _ => a end).
  destruct (IH b) as (Hin & Hb & Hl).
  assert (work_le b a ∧ work_le b y) as [Hba Hby].
  { subst b. destruct (work_compare y a) eqn:E.
    - split; [done|]. apply work_compare_le. rewrite work_compare_opp, E. done.
    - split; [|done]. apply work_compare_le. by rewrite E.
    - split; [done|]. apply work_compare_le. rewrite work_compare_opp, E. done. }
  split; [|split].
  - destruct Hin as [->|?]; [|right; by constructor].
    subst b. destruct (work_compare y a); [by left|right; by left|by left].
  - by etrans.
  - intros x [->|?]%elem_of_cons; [by etrans|auto].
Qed.

Lemma min_work_Some l w :
  min_work l = Some w → w ∈ l ∧ ∀ x, x ∈ l → work_le w x.
Proof.
  destruct l as [|a l]; [done|]. intros [= <-].
  destruct (min_work_fold_spec l a) as (Hin & Ha & Hl). simpl in *. split.
  - destruct Hin as [->|?]; by constructor.
  - intros x [->|?]%elem_of_cons; auto.
Qed.

Lemma min_work_None l : min_work l = None ↔ l = [].
Proof. destruct l; simpl; naive_solver. Qed.

Lemma min_due_fold_spec l a :
  let m := foldl Z.min a l in
  (m = a ∨ m ∈ l) ∧ m ≤ a ∧ ∀ x, x ∈ l → m ≤ x.
Proof.
  revert a. induction l as [|y l IH]; intros a; simpl.
  { split; [by left|]. split; [done|]. intros x Hx. by apply not_elem_of_nil in Hx. }
  destruct (IH (Z.min a y)) as (Hin & Ha & Hl). split; [|split].
  - destruct Hin as [->|?]; [|right; by constructor].
    destruct (Z.min_spec a y) as [[_ ->]|[_ ->]]; [by left|right; by left].
  - lia.
  - intros x [->|?]%elem_of_cons; [lia|auto].
Qed.

Lemma min_due_Some l m : min_due l = Some m → m ∈ l ∧ ∀ x, x ∈ l → m ≤ x.
Proof.
  destruct l as [|a l]; [done|]. intros [= <-].
  destruct (min_due_fold_spec l a) as (Hin & Ha & Hl). simpl in *. split.
  - destruct Hin as [->|?]; by constructor.
  - intros x [->|?]%elem_of_cons; auto.
Qed.

(** The work items on offer are the due works of the targets. *)
Lemma elem_of_due_items p now w :
  w ∈ due_items p now ↔
  ∃ t, targets p !! wi_id w = Some t ∧ wi_order w = last_dispatch_order t ∧
       due_work (config p) t = Some (wi_due w, wi_kind w, wi_reason w) ∧
       wi_due w ≤ now.
Proof.
  unfold due_items. rewrite list_elem_of_omap. split.
  - intros ([id t] & Hin & Hw). apply elem_of_map_to_list in Hin.
    unfold work_of in Hw. simpl in Hw.
    destruct (due_work _ t) as [[[d k] r]|] eqn:E; [|done]. simpl in Hw.
    case_match; simplify_eq/=. to_prop. eauto.
  - intros (t & Ht & Ho & Hd & Hle). exists (wi_id w, t).
    rewrite elem_of_map_to_list. split; [done|]. unfold work_of. simpl.
    rewrite Hd. simpl. apply Z.leb_le in Hle. rewrite Hle. destruct w; naive_solver.
Qed.

Lemma elem_of_due_times p d :
  d ∈ omap (λ kt : string * TargetState, (λ w, w.1.1) <$> due_work (config p) (kt.2))
        (map_to_list (targets p)) ↔
  ∃ id t k r, targets p !! id = Some t ∧ due_work (config p) t = Some (d, k, r).
Proof.
  rewrite list_elem_of_omap. split.
  - intros ([id t] & Hin & Hw). apply elem_of_map_to_list in Hin. simpl in Hw.
    destruct (due_work _ t) as [[[d' k] r]|] eqn:E; simplify_eq/=. eauto 10.
  - intros (id & t & k & r & Ht & Hd). exists (id, t).
    rewrite elem_of_map_to_list. split; [done|]. simpl. by rewrite Hd.
Qed.

(** The shape of a successful [next_candidate]. *)
Lemma next_candidate_Some p now p' cand :
  next_candidate p now = (p', Some cand) →
  ∃ w t, shutdown_flag p = false ∧
    min_work (due_items p now) = Some w ∧ w ∈ due_items p now ∧
    targets p !! wi_id w = Some t ∧
    cand = {| cand_target_id := wi_id w; cand_kind := wi_kind w;
              cand_reason := wi_reason w;
              cand_fingerprint := spec_fingerprint (spec t);
              cand_root_identity := spec_root_identity (spec t);
              captured_generation := dirty_generation t;
              cand_revision := revision t; cand_token := next_token p';
              cand_due_at := wi_due w |} ∧
    next_token p' = Z.max (u64_sat_add (next_token p) 1) 1 ∧
    dispatch_order p' = Z.max (u64_sat_add (dispatch_order p) 1) 1 ∧
    config p' = config p ∧ shutdown_flag p' = shutdown_flag p ∧
    targets p' = <[wi_id w := t <| last_dispatch_order := dispatch_order p' |>
                                <| last_dispatch_at := Some now |>
                                <| in_flight := Some {| fl_token := next_token p';
                                                        fl_revision := revision t |} |>]>
                   (targets p).
Proof.
  unfold next_candidate. destruct (shutdown_flag p) eqn:Es; [done|].
  destruct (min_work _) as [w|] eqn:Em; [|done]. simpl.
  destruct (targets p !! wi_id w) as [t|] eqn:Et; [|done]. intros [= <- <-].
  pose proof (min_work_Some _ _ Em) as [Hin _].
  exists w, t. by repeat split.
Qed.

(** No candidate is issued exactly when the planner is shut down or nothing is
    due: the [expect] of the source cannot fail. *)
Lemma next_candidate_None p now :
  (next_candidate p now).2 = None ↔ shutdown_flag p = true ∨ due_items p now = [].
Proof.
  unfold next_candidate. destruct (shutdown_flag p) eqn:Es; [naive_solver|].
  destruct (min_work _) as [w|] eqn:Em; simpl.
  - destruct (min_work_Some _ _ Em) as [Hin _].
    apply elem_of_due_items in Hin as Ht. destruct Ht as (t & Ht & _). rewrite Ht. simpl.
    split; [done|]. intros [?|Hnil]; [congruence|].
    rewrite Hnil in Hin. by apply not_elem_of_nil in Hin.
  - apply min_work_None in Em. naive_solver.
Qed.

(** ** Executions

    The scanner task drives the planner; the candidates it has been given form
    the second component of the state.  A worker may report a candidate at any
    later time, and the task may report one more than once. *)
Record PlannerWorld := mkWorld {
  planner : HybridScanPlanner;
  issued : list ScanCandidate;
}.

Inductive planner_step : PlannerWorld → PlannerWorld → Prop :=
  | step_upsert p l now s :
      planner_step (mkWorld p l) (mkWorld (upsert_target p now s).1 l)
  | step_remove p l id :
      planner_step (mkWorld p l) (mkWorld (remove_target p id).1 l)
  | step_trust p l id trusted now :
      planner_step (mkWorld p l) (mkWorld (set_watcher_trusted p id trusted now).1 l)
  | step_dirty p l id now g :
      planner_step (mkWorld p l) (mkWorld (mark_dirty p id now g).1 l)
  | step_overflow p l id now g :
      planner_step (mkWorld p l) (mkWorld (mark_overflow p id now g).1 l)
  | step_candidate p l now p' cand :
      next_candidate p now = (p', Some cand) →
      planner_step (mkWorld p l) (mkWorld p' (cand :: l))
  | step_complete p l cand now completion :
      cand ∈ l →
      planner_step (mkWorld p l) (mkWorld (complete p cand now completion).1 l)
  | step_shutdown p l :
      planner_step (mkWorld p l) (mkWorld (shutdown p) l).

Definition planner_reachable (c : PlannerConfig) (w : PlannerWorld) : Prop :=
  rtc planner_step (mkWorld (planner_new c) []) w.

(** ** The invariant *)

(** Generations of one target: everything up to [acknowledged_generation] has
    been measured; [dirty_due] is set exactly while newer events are pending;
    a pending full scan never waits for events that have not happened. *)
Record target_ok (t : TargetState) : Prop := mkTargetOk {
  ok_ack : 0 ≤ acknowledged_generation t ≤ dirty_generation t;
  ok_due : is_Some (dirty_due t) ↔ acknowledged_generation t < dirty_generation t;
  ok_req : ∀ r, full_requirement t = Some r → 0 ≤ req_generation r ≤ dirty_generation t;
}.

(** A candidate that still holds the lease of its target captured a generation
    between what is acknowledged and what is known. *)
Definition lease_ok (l : list ScanCandidate) (id : string) (t : TargetState) : Prop :=
  ∀ fl cand, in_flight t = Some fl → cand ∈ l → cand_target_id cand = id →
    cand_token cand = fl_token fl → fl_revision fl = revision t →
    acknowledged_generation t ≤ captured_generation cand ≤ dirty_generation t.

(** Tokens and revisions are bounded by their counters. *)
Definition bounds_ok (w : PlannerWorld) : Prop :=
  0 ≤ next_token (planner w) ≤ u64_max ∧
  (∀ cand, cand ∈ issued w → cand_token cand ≤ next_token (planner w)) ∧
  ∀ id t, targets (planner w) !! id = Some t →
    1 ≤ revision t ≤ u64_max ∧
    ∀ fl, in_flight t = Some fl →
      fl_token fl ≤ next_token (planner w) ∧ fl_revision fl ≤ revision t.

(** The invariant; the counters of a target are only meaningful while neither
    the token counter nor its revision has saturated at [u64::MAX]. *)
Definition planner_inv (w : PlannerWorld) : Prop :=
  bounds_ok w ∧
  (next_token (planner w) < u64_max →
   ∀ id t, targets (planner w) !! id = Some t → revision t < u64_max →
     target_ok t ∧ lease_ok (issued w) id t).

Lemma target_new_ok s now : target_ok (target_new s now).
Proof.
  split; simpl; [lia| |].
  - split; [by intros [? ?]|lia].
  - intros r. destruct (enabled s); [|done]. intros [= <-]. simpl. lia.
Qed.

Lemma target_reset_ok t now reason : target_ok (target_reset t now reason).
Proof.
  split; simpl; [lia| |].
  - split; [by intros [? ?]|lia].
  - intros r. destruct (enabled (spec t)); [|done]. intros [= <-]. simpl. lia.
Qed.

Lemma get_or_insert_is_Some o d : is_Some (get_or_insert o d).
Proof. destruct o; simpl; eauto. Qed.

Lemma advance_dirty_ok t now g c :
  dirty_generation t < g → target_ok t → target_ok (advance_dirty t now g c).
Proof.
  intros Hg [Ha Hd Hr]. split; simpl.
  - lia.
  - split; [lia|]. intros _. apply get_or_insert_is_Some.
  - intros r E. specialize (Hr r E). lia.
Qed.

Lemma advance_dirty_lease l id t now g c :
  dirty_generation t < g → lease_ok l id t → lease_ok l id (advance_dirty t now g c).
Proof.
  intros Hg Hl fl cand Hfl Hin Hid Htok Hrev. simpl in *.
  specialize (Hl fl cand Hfl Hin Hid Htok Hrev). lia.
Qed.

(** The requirement is irrelevant to leases, and to the other fields. *)
Lemma set_requirement_ok t r :
  0 ≤ req_generation r ≤ dirty_generation t →
  target_ok t → target_ok (t <| full_requirement := Some r |>).
Proof. intros Hr [Ha Hd _]. split; simpl; [done|done|]. by intros r' [= <-]. Qed.

Lemma set_requirement_lease l id t o :
  lease_ok l id t → lease_ok l id (t <| full_requirement := o |>).
Proof. intros H fl cand. apply H. Qed.

#[export] Hint Resolve target_new_ok target_reset_ok advance_dirty_ok
  advance_dirty_lease set_requirement_ok set_requirement_lease : dbev.

Lemma acknowledge_ok t captured now deb interval :
  acknowledged_generation t ≤ captured ≤ dirty_generation t →
  target_ok t → target_ok (acknowledge_generation t captured now deb interval).
Proof.
  intros Hc [Ha Hd Hr]. unfold acknowledge_generation. simpl.
  case_match eqn:E; to_prop; split; simpl; try lia; try done.
  - split; [by intros [? ?]|lia].
  - split; [lia|eauto].
Qed.

Lemma record_full_scan_ok t now cand c :
  target_ok t → target_ok (record_full_scan t now cand c).
Proof.
  intros [Ha Hd Hr]. unfold record_full_scan. simpl.
  destruct (full_requirement t) as [r|] eqn:Er;
    [|split; simpl; [done|done|congruence]].
  specialize (Hr r eq_refl). case_match; split; simpl; try done.
  intros r' [= <-]. by case_match.
Qed.

Lemma apply_completion_ok c t cand now completion :
  acknowledged_generation t ≤ captured_generation cand ≤ dirty_generation t →
  target_ok t → target_ok (apply_completion c t cand now completion).
Proof.
  intros Hc Ht. pose proof Ht as [Ha Hd Hr].
  set (t0 := t <| in_flight := None |> <| last_scan_at := Some now |>
               <| next_periodic_due := add_tick now (scan_interval c) |>).
  assert (target_ok t0) as Ht0 by (split; done).
  unfold apply_completion. fold t0. destruct completion as [performed|].
  - case_match; [apply set_requirement_ok; simpl; [lia|done]|].
    assert (target_ok (acknowledge_generation t0 (captured_generation cand) now
                         (debounce c) (scan_interval c))) by by apply acknowledge_ok.
    case_match; [by apply record_full_scan_ok|done].
  - apply set_requirement_ok; simpl; [lia|done].
Qed.

Lemma acknowledge_in_flight t captured now deb interval :
  in_flight (acknowledge_generation t captured now deb interval) = in_flight t.
Proof. unfold acknowledge_generation. by case_match. Qed.

Lemma acknowledge_revision t captured now deb interval :
  revision (acknowledge_generation t captured now deb interval) = revision t.
Proof. unfold acknowledge_generation. by case_match. Qed.

Lemma record_full_scan_in_flight t now cand c :
  in_flight (record_full_scan t now cand c) = in_flight t.
Proof. unfold record_full_scan. simpl. by repeat case_match. Qed.

Lemma record_full_scan_revision t now cand c :
  revision (record_full_scan t now cand c) = revision t.
Proof. unfold record_full_scan. simpl. by repeat case_match. Qed.

(** An accepted completion releases the lease and keeps the revision. *)
Lemma apply_completion_lease c t cand now completion :
  in_flight (apply_completion c t cand now completion) = None ∧
  revision (apply_completion c t cand now completion) = revision t.
Proof.
  unfold apply_completion. destruct completion as [performed|]; [|done].
  case_match; [done|]. case_match;
    rewrite ?record_full_scan_in_flight, ?record_full_scan_revision,
      ?acknowledge_in_flight, ?acknowledge_revision; done.
Qed.

(** Writing back one target preserves the invariant when the new state does. *)
Lemma put_target_inv p l id t :
  planner_inv (mkWorld p l) →
  1 ≤ revision t ≤ u64_max →
  (∀ fl, in_flight t = Some fl →
     fl_token fl ≤ next_token p ∧ fl_revision fl ≤ revision t) →
  (next_token p < u64_max → revision t < u64_max → target_ok t ∧ lease_ok l id t) →
  planner_inv (mkWorld (put_target p id t) l).
Proof.
  intros [(Htok & Hcand & Hb) Hok] Hrev Hfl Ht. split; [split; [|split]|]; simpl in *.
  - done.
  - done.
  - intros id' t'. rewrite lookup_insert. case_decide; [|eauto]. intros [= <-]. eauto.
  - intros Hn id' t'. rewrite lookup_insert. case_decide; [|eauto].
    subst. intros [= <-]. eauto.
Qed.

(** A reset ends every lease: its revision is new. *)
Lemma reset_inv p l t s id now reason :
  planner_inv (mkWorld p l) → targets p !! id = Some t →
  planner_inv (mkWorld (put_target p id (target_reset (t <| spec := s |>) now reason)) l).
Proof.
  intros Hinv Ht. pose proof Hinv as [(_ & _ & Hb) _]. simpl in Hb.
  destruct (Hb id t Ht) as [Hrev Hfl].
  apply put_target_inv; simpl; [done|int_lia| |].
  - intros fl E. destruct (Hfl fl E). int_lia.
  - intros _ Hlt. split; [apply target_reset_ok|].
    intros fl cand E _ _ _ Heq. simpl in *. destruct (Hfl fl E). int_lia.
Qed.

Lemma upsert_inv p l now s :
  planner_inv (mkWorld p l) → planner_inv (mkWorld (upsert_target p now s).1 l).
Proof.
  intros Hinv. unfold upsert_target. destruct (targets p !! spec_id s) as [t|] eqn:Et.
  - case_match; simpl; [done|]. by apply reset_inv.
  - simpl. apply put_target_inv; [done|simpl; int_lia|done|].
    intros _ _. split; [apply target_new_ok|]. by intros fl cand E.
Qed.

Lemma remove_inv p l id :
  planner_inv (mkWorld p l) → planner_inv (mkWorld (remove_target p id).1 l).
Proof.
  intros [(Htok & Hcand & Hb) Hok]. split; [split; [|split]|]; simpl in *; try done.
  - intros id' t [_ H]%lookup_delete_Some. eauto.
  - intros Hn id' t [_ H]%lookup_delete_Some. eauto.
Qed.

Lemma trust_inv p l id trusted now :
  planner_inv (mkWorld p l) →
  planner_inv (mkWorld (set_watcher_trusted p id trusted now).1 l).
Proof.
  intros Hinv. unfold set_watcher_trusted.
  destruct (targets p !! id) as [t|] eqn:Et; [|done].
  case_match; [done|]. simpl. by apply reset_inv.
Qed.

(** A new state for [id] with the revision and the lease of the old one. *)
Lemma update_inv p l id t t' :
  planner_inv (mkWorld p l) → targets p !! id = Some t →
  revision t' = revision t → in_flight t' = in_flight t →
  (target_ok t → lease_ok l id t → target_ok t' ∧ lease_ok l id t') →
  planner_inv (mkWorld (put_target p id t') l).
Proof.
  intros Hinv Ht Hr Hf Hok. pose proof Hinv as [(_ & _ & Hb) Hin]. simpl in *.
  destruct (Hb id t Ht) as [Hrev Hfl].
  apply put_target_inv; rewrite ?Hr, ?Hf; [done|done|done|].
  intros Hn Hlt. destruct (Hin Hn id t Ht Hlt). auto.
Qed.

Lemma mark_dirty_inv p l id now g :
  planner_inv (mkWorld p l) → planner_inv (mkWorld (mark_dirty p id now g).1 l).
Proof.
  intros Hinv. unfold mark_dirty. destruct (targets p !! id) as [t|] eqn:Et; [|done].
  case_match eqn:E; [done|]. to_prop. simpl.
  eapply update_inv; eauto with dbev.
Qed.

Lemma advance_or_keep_inv t now g c l id :
  let t' := if dirty_generation t <? g then advance_dirty t now g c else t in
  revision t' = revision t ∧ in_flight t' = in_flight t ∧
  (target_ok t → target_ok t') ∧ (lease_ok l id t → lease_ok l id t').
Proof. simpl. case_match eqn:E; to_prop; split_and!; eauto with dbev. Qed.

Lemma mark_overflow_inv p l id now g :
  planner_inv (mkWorld p l) → planner_inv (mkWorld (mark_overflow p id now g).1 l).
Proof.
  intros Hinv. unfold mark_overflow. destruct (targets p !! id) as [t|] eqn:Et; [|done].
  case_match; [done|].
  pose proof (advance_or_keep_inv t now g (config p) l id) as (Hr & Hf & Ho & Hl).
  set (t' := if dirty_generation t <? g then _ else t) in *. clearbody t'.
  destruct (full_requirement t') as [r|] eqn:Er; [case_match; [|case_match]|]; simpl;
    eapply update_inv; try done; intros Hok Hle; (split; [|eauto with dbev]); eauto;
    specialize (Ho Hok); pose proof (ok_req _ Ho) as Hreq; pose proof (ok_ack _ Ho);
    apply set_requirement_ok; auto; simpl.
  - specialize (Hreq r Er). lia.
  - specialize (Hreq r Er). case_match; simpl; lia.
  - lia.
Qed.

(** The token of a new candidate is fresh until the counter saturates. *)
Lemma next_token_fresh p :
  0 ≤ next_token p → Z.max (u64_sat_add (next_token p) 1) 1 < u64_max →
  Z.max (u64_sat_add (next_token p) 1) 1 = next_token p + 1.
Proof. int_lia. Qed.

Lemma candidate_inv p l now p' cand :
  next_candidate p now = (p', Some cand) →
  planner_inv (mkWorld p l) → planner_inv (mkWorld p' (cand :: l)).
Proof.
  intros Hn [(Htok & Hcand & Hb) Hok]. simpl in *.
  apply next_candidate_Some in Hn
    as (w & t & _ & _ & _ & Ht & -> & Hnt & _ & _ & _ & Htg).
  destruct (Hb _ _ Ht) as [Hrev Hfl].
  assert (next_token p ≤ next_token p' ≤ u64_max) as Hmono by (rewrite Hnt; int_lia).
  split; [split; [|split]|]; simpl.
  - lia.
  - intros c [->|Hc]%elem_of_cons; simpl; [lia|]. specialize (Hcand c Hc). lia.
  - intros id u. rewrite Htg, lookup_insert. case_decide.
    + subst. intros [= <-]. simpl. split; [done|]. intros fl [= <-]. simpl. lia.
    + intros Hu. destruct (Hb id u Hu) as [Hru Hfu]. split; [done|].
      intros fl E. destruct (Hfu fl E). lia.
  - intros Hlt id u. rewrite Htg, lookup_insert.
    assert (next_token p < u64_max) as Hlt' by lia.
    rewrite Hnt in Hlt. pose proof (next_token_fresh p ltac:(lia) Hlt) as Hfresh.
    rewrite <- Hnt in Hfresh. case_decide.
    + subst. intros [= <-] Hru. simpl in Hru.
      destruct (Hok Hlt' _ _ Ht Hru) as [[Ha Hd Hr] _]. split; [by split|].
      intros fl c [= <-] [->|Hc]%elem_of_cons _ Htk _; simpl in *; [lia|].
      specialize (Hcand c Hc). lia.
    + intros Hu Hru. destruct (Hok Hlt' _ _ Hu Hru) as [? Hl]. split; [done|].
      intros fl c E [->|Hc]%elem_of_cons Hid Htk Hrv; simpl in *; [done|eauto].
Qed.

(** What [complete] does when it does not accept the report. *)
Lemma complete_cases p cand now completion :
  (complete p cand now completion = (p, Missing) ∧ targets p !! cand_target_id cand = None) ∨
  (complete p cand now completion = (p, Stale)) ∨
  (∃ t fl, targets p !! cand_target_id cand = Some t ∧ in_flight t = Some fl ∧
     fl_token fl = cand_token cand ∧ fl_revision fl = cand_revision cand ∧
     ((complete p cand now completion =
         (put_target p (cand_target_id cand) (t <| in_flight := None |>), Stale)) ∨
      (revision t = cand_revision cand ∧
       spec_fingerprint (spec t) = cand_fingerprint cand ∧
       spec_root_identity (spec t) = cand_root_identity cand ∧
       complete p cand now completion =
         (put_target p (cand_target_id cand)
            (apply_completion (config p) t cand now completion), Applied)))).
Proof.
  unfold complete. destruct (targets p !! _) as [t|] eqn:Et; [|by left].
  destruct (in_flight t) as [fl|] eqn:Ef; [|by right; left].
  case_match eqn:E1; [by right; left|]. to_prop. right. right.
  exists t, fl. split_and!; [done|done|done|done|].
  case_match eqn:E2; [by left|]. to_prop. right. split_and!; done.
Qed.

Lemma complete_inv p l cand now completion :
  cand ∈ l → planner_inv (mkWorld p l) →
  planner_inv (mkWorld (complete p cand now completion).1 l).
Proof.
  intros Hin Hinv. pose proof Hinv as [(_ & _ & Hb) Hok]. simpl in *.
  destruct (complete_cases p cand now completion)
    as [[-> _]|[->|(t & fl & Ht & Hfl & Htok & Hfr & [->|(Hr & _ & _ & ->)])]];
    [done|done| |]; simpl; destruct (Hb _ _ Ht) as [Hrev _].
  - apply put_target_inv; [done|done|done|]. simpl. intros Hn Hlt.
    destruct (Hok Hn _ _ Ht Hlt) as [[? ? ?] _]. split; [by split|]. by intros ? ? E.
  - destruct (apply_completion_lease (config p) t cand now completion) as [Hf' Hr'].
    apply put_target_inv; rewrite ?Hf', ?Hr'; [done|done|done|].
    intros Hn Hlt. destruct (Hok Hn _ _ Ht Hlt) as [Hto Hl]. split.
    + apply apply_completion_ok; [|done]. apply (Hl fl); [done..|by symmetry|congruence].
    + intros ? ? E. congruence.
Qed.

Lemma planner_step_inv w w' : planner_step w w' → planner_inv w → planner_inv w'.
Proof.
  destruct 1; eauto using upsert_inv, remove_inv, trust_inv, mark_dirty_inv,
    mark_overflow_inv, candidate_inv, complete_inv.
Qed.

Lemma planner_reachable_inv c w : planner_reachable c w → planner_inv w.
Proof.
  unfold planner_reachable. apply rtc_ind_r.
  - split; [split; [simpl; int_lia|split]|]; simpl.
    + intros cand Hc. by apply not_elem_of_nil in Hc.
    + intros id t Ht. by rewrite lookup_empty in Ht.
    + intros _ id t Ht. by rewrite lookup_empty in Ht.
  - intros w1 w2 _ Hs Hi. by eapply planner_step_inv.
Qed.

(** ** Frame lemmas for the theorems *)

Lemma due_work_Some c t d k r :
  due_work c t = Some (d, k, r) → enabled (spec t) = true ∧ in_flight t = None.
Proof.
  unfold due_work. destruct (enabled (spec t)), (in_flight t) eqn:E; simpl; try done.
Qed.

Lemma due_work_total c t :
  enabled (spec t) = true → in_flight t = None → is_Some (due_work c t).
Proof. intros He Hf. unfold due_work. rewrite He, Hf. simpl. repeat case_match; eauto. Qed.

(** A new candidate holds the lease of its target. *)
Lemma next_candidate_lease p now p' cand :
  next_candidate p now = (p', Some cand) →
  ∃ t t', targets p !! cand_target_id cand = Some t ∧
    targets p' !! cand_target_id cand = Some t' ∧
    due_work (config p) t = Some (cand_due_at cand, cand_kind cand, cand_reason cand) ∧
    cand_due_at cand ≤ now ∧ config p' = config p ∧
    captured_generation cand = dirty_generation t ∧
    cand_revision cand = revision t ∧
    cand_fingerprint cand = spec_fingerprint (spec t) ∧
    cand_root_identity cand = spec_root_identity (spec t) ∧
    t' = t <| last_dispatch_order := dispatch_order p' |>
           <| last_dispatch_at := Some now |>
           <| in_flight := Some {| fl_token := cand_token cand;
                                   fl_revision := revision t |} |>.
Proof.
  intros Hn. apply next_candidate_Some in Hn
    as (w & t & _ & _ & Hin & Ht & -> & Hnt & _ & Hc & _ & Htg). simpl.
  apply elem_of_due_items in Hin as (t0 & Ht0 & _ & Hd & Hle). simplify_eq.
  eexists t0, _. rewrite Htg, lookup_insert_eq. split_and!; done.
Qed.

(** A completion of the candidate that holds the lease is accepted. *)
Lemma complete_holder p cand t now completion :
  targets p !! cand_target_id cand = Some t →
  in_flight t = Some {| fl_token := cand_token cand; fl_revision := revision t |} →
  cand_revision cand = revision t →
  cand_fingerprint cand = spec_fingerprint (spec t) →
  cand_root_identity cand = spec_root_identity (spec t) →
  complete p cand now completion =
    (put_target p (cand_target_id cand)
       (apply_completion (config p) t cand now completion), Applied).
Proof.
  intros Ht Hf Hr Hfp Hri. unfold complete. rewrite Ht, Hf. simpl.
  rewrite Hr, Hfp, Hri, !Z.eqb_refl. simpl. by rewrite !bool_decide_eq_true_2.
Qed.

(** A lease token that has been given up never comes back on its target. *)
Definition retired (id : string) (token : Z) (p : HybridScanPlanner) : Prop :=
  token ≤ next_token p ∧
  ∀ t fl, targets p !! id = Some t → in_flight t = Some fl → fl_token fl ≠ token.

Lemma put_target_retired id token p id' t :
  retired id token p →
  (∀ fl, id' = id → in_flight t = Some fl → fl_token fl ≠ token) →
  retired id token (put_target p id' t).
Proof.
  intros [Hle Hr] Ht. split; [done|]. intros t' fl. simpl. rewrite lookup_insert.
  case_decide; [|eauto]. intros [= <-]. eauto.
Qed.

Lemma update_retired id token p id' t t' :
  retired id token p → targets p !! id' = Some t →
  (in_flight t' = in_flight t ∨ in_flight t' = None) →
  retired id token (put_target p id' t').
Proof.
  intros Hr Ht Hf. apply put_target_retired; [done|]. intros fl -> E.
  destruct Hf as [Hf|Hf]; rewrite Hf in E; [|done]. destruct Hr; eauto.
Qed.

Lemma planner_step_retired id token w w' :
  planner_step w w' → planner_inv w → next_token (planner w') < u64_max →
  retired id token (planner w) → retired id token (planner w').
Proof.
  intros Hs [((Htok & _) & _ & _) _] Hlt Hr. destruct Hs; simpl in *; try done.
  - unfold upsert_target. destruct (targets p !! _) eqn:Et.
    + case_match; [done|]. eapply update_retired; eauto.
    + by apply put_target_retired.
  - destruct Hr as [Hle Hr]. split; [done|].
    simpl. intros t fl [_ H]%lookup_delete_Some. eauto.
  - unfold set_watcher_trusted. destruct (targets p !! id0) eqn:Et; [|done].
    case_match; [done|]. eapply update_retired; eauto.
  - unfold mark_dirty. destruct (targets p !! id0) eqn:Et; [|done].
    case_match; [done|]. eapply update_retired; eauto.
  - unfold mark_overflow. destruct (targets p !! id0) eqn:Et; [|done].
    case_match; [done|].
    pose proof (advance_or_keep_inv t now g (config p) [] "") as (_ & Hf & _).
    repeat case_match; simpl in *; eapply update_retired; eauto.
  - apply next_candidate_Some in H
      as (w & t & _ & _ & _ & Ht & _ & Hnt & _ & _ & _ & Htg).
    rewrite Hnt in Hlt. pose proof (next_token_fresh p ltac:(done) Hlt) as Hfresh.
    rewrite <- Hnt in Hfresh. destruct Hr as [Hle Hr]. split; [lia|].
    intros t' fl. rewrite Htg, lookup_insert. case_decide; [|eauto].
    intros [= <-] [= <-]. simpl. lia.
  - destruct (complete_cases p cand now completion)
      as [[-> _]|[->|(t & fl & Ht & Hfl & _ & _ & [->|(_ & _ & _ & ->)])]]; try done;
      simpl; (eapply update_retired; [done|done|right]); [done|].
    by destruct (apply_completion_lease (config p) t cand now completion).
Qed.

(** Marks received from the watcher. *)
Inductive WatcherMark :=
  | MarkDirty (id : string) (now generation : Z)
  | MarkOverflow (id : string) (now generation : Z).

Definition apply_mark (p : HybridScanPlanner) (m : WatcherMark) : HybridScanPlanner :=
  match m with
  | MarkDirty id now g => (mark_dirty p id now g).1
  | MarkOverflow id now g => (mark_overflow p id now g).1
  end.

(** The target [id] is backing off until [due]. *)
Definition backing_off (p : HybridScanPlanner) (id : string) (due : Z) : Prop :=
  ∃ t r, targets p !! id = Some t ∧ in_flight t = None ∧
    full_requirement t = Some r ∧ req_due_at r = due ∧ req_reason r = RetryAfterFailure.

Lemma apply_mark_config p m : config (apply_mark p m) = config p.
Proof.
  destruct m as [id now g|id now g]; simpl; unfold mark_dirty, mark_overflow;
    repeat case_match; done.
Qed.

Lemma put_target_backing_off p id due id' t :
  backing_off p id due →
  (id' = id → in_flight t = None ∧ ∃ r, full_requirement t = Some r ∧
     req_due_at r = due ∧ req_reason r = RetryAfterFailure) →
  backing_off (put_target p id' t) id due.
Proof.
  intros (t0 & r & H0 & Hf & Hr) Ht. unfold backing_off. simpl.
  setoid_rewrite lookup_insert. case_decide; [|naive_solver].
  destruct (Ht H) as (? & r' & ? & ? & ?). naive_solver.
Qed.

Lemma apply_mark_backing_off p m id due :
  backing_off p id due → backing_off (apply_mark p m) id due.
Proof.
  intros Hb. destruct m as [id' now g|id' now g]; simpl.
  - unfold mark_dirty. destruct (targets p !! id') as [t|] eqn:Et; [|done].
    case_match; [done|]. simpl. apply put_target_backing_off; [done|]. intros ->.
    destruct Hb as (t0 & r & H0 & ?). simplify_eq. simpl. naive_solver.
  - unfold mark_overflow. destruct (targets p !! id') as [t|] eqn:Et; [|done].
    case_match; [done|].
    set (t' := if dirty_generation t <? g then _ else t).
    assert (full_requirement t' = full_requirement t ∧ in_flight t' = in_flight t)
      as [Hreq Hfl] by (subst t'; by case_match).
    assert (id' = id → in_flight t = None ∧ ∃ r, full_requirement t = Some r ∧
              req_due_at r = due ∧ req_reason r = RetryAfterFailure) as Hid.
    { intros ->. destruct Hb as (t0 & r & H0 & ?). simplify_eq. naive_solver. }
    clearbody t'. rewrite Hreq. destruct (full_requirement t) as [r|] eqn:Er;
      [case_match eqn:Erf; [|case_match]|]; simpl; apply put_target_backing_off; try done;
      intros E; destruct (Hid E) as (Hn & r' & Hr' & Hd & Hre); simplify_eq/=;
      rewrite ?Hfl; to_prop; try done.
    split; [done|]. eexists. split; [done|]. simpl. done.
Qed.

(** The token counter never goes back. *)
Lemma planner_step_token w w' :
  planner_step w w' → planner_inv w → next_token (planner w) ≤ next_token (planner w').
Proof.
  intros Hs [((_ & Htok) & _) _]. destruct Hs; simpl in *; try done; unfold upsert_target, set_watcher_trusted, mark_dirty,
    mark_overflow; try (repeat case_match; simpl; lia).
  - apply next_candidate_Some in H as (? & ? & _ & _ & _ & _ & _ & -> & _). int_lia.
  - by destruct (complete_cases p cand now completion)
      as [[-> _]|[->|(t & fl & _ & _ & _ & _ & [->|(_ & _ & _ & ->)])]].
Qed.

Lemma planner_steps_inv w w' :
  rtc planner_step w w' → planner_inv w → planner_inv w'.
Proof. induction 1; eauto using planner_step_inv. Qed.

Lemma planner_steps_token w w' :
  rtc planner_step w w' → planner_inv w → next_token (planner w) ≤ next_token (planner w').
Proof.
  induction 1 as [|w1 w2 w3 Hs _ IH]; [done|]. intros Hinv.
  pose proof (planner_step_token _ _ Hs Hinv).
  specialize (IH (planner_step_inv _ _ Hs Hinv)). lia.
Qed.

Lemma planner_steps_retired id token w w' :
  rtc planner_step w w' → planner_inv w → next_token (planner w') < u64_max →
  retired id token (planner w) → retired id token (planner w').
Proof.
  induction 1 as [|w1 w2 w3 Hs Hsteps IH]; [done|]. intros Hinv Hlt Hr.
  pose proof (planner_step_inv _ _ Hs Hinv) as Hinv2.
  pose proof (planner_steps_token _ _ Hsteps Hinv2).
  apply IH; [done|done|]. eapply planner_step_retired; [done|done|lia|done].
Qed.

(** Marks do not change what a target is. *)
Lemma apply_mark_spec p m id t' :
  targets (apply_mark p m) !! id = Some t' →
  ∃ t, targets p !! id = Some t ∧ spec t' = spec t.
Proof.
  destruct m as [id' now g|id' now g]; simpl.
  - unfold mark_dirty. destruct (targets p !! id') as [t|] eqn:Et; [|eauto].
    case_match; simpl; [eauto|]. rewrite lookup_insert. case_decide; [|eauto].
    subst. intros [= <-]. eauto.
  - unfold mark_overflow. destruct (targets p !! id') as [t|] eqn:Et; [|eauto].
    case_match; [eauto|]. set (t1 := if dirty_generation t <? g then _ else t).
    assert (spec t1 = spec t) by (subst t1; by case_match). clearbody t1.
    destruct (decide (id' = id)) as [->|Hne].
    + repeat case_match; simpl; rewrite lookup_insert_eq; intros [= <-]; eauto.
    + repeat case_match; simpl; rewrite lookup_insert_ne by done; eauto.
Qed.

(** ** A concrete execution for the witnesses *)
Module PlannerDemo.
Definition cfg : PlannerConfig :=
  {| scan_interval := 10; full_scan_interval := 100; debounce := 2;
     watcher_enabled := true |}.
Definition db : TargetSpec :=
  {| spec_id := "db"; spec_fingerprint := "f1"; spec_root_identity := None;
     enabled := true; watcher_trusted := true; force_periodic_full := false |}.
Definition db2 : TargetSpec := db <| spec_fingerprint := "f2" |>.
Definition cand1 : ScanCandidate :=
  {| cand_target_id := "db"; cand_kind := Full; cand_reason := Initial;
     cand_fingerprint := "f1"; cand_root_identity := None; captured_generation := 0;
     cand_revision := 1; cand_token := 1; cand_due_at := 5 |}.
(** The target is registered at 5, scanned in full from 6 to 8, and changes
    at 20. *)
Definition p1 := (upsert_target (planner_new cfg) 5 db).1.
Definition p2 := (next_candidate p1 6).1.
Definition p3 := (complete p2 cand1 8 (Succeeded Full)).1.
Definition p4 := (mark_dirty p3 "db" 20 1).1.
Definition t4 : TargetState := default (target_new db 5) (targets p4 !! "db").

Definition w1 := mkWorld p1 [].
Definition w2 := mkWorld p2 [cand1].
Definition w3 := mkWorld p3 [cand1].
Definition w4 := mkWorld p4 [cand1].

Lemma dispatch1 : next_candidate p1 6 = (p2, Some cand1).
Proof. reflexivity. Defined.
Lemma reach1 : planner_reachable cfg w1.
Proof. eapply rtc_once, (step_upsert _ [] 5 db). Defined.
Lemma reach2 : planner_reachable cfg w2.
Proof. eapply rtc_r; [exact reach1|]. apply (step_candidate p1 [] 6), dispatch1. Defined.
Lemma reach3 : planner_reachable cfg w3.
Proof.
  eapply rtc_r; [exact reach2|]. apply (step_complete p2 [cand1] cand1 8). by left.
Defined.
Lemma reach4 : planner_reachable cfg w4.
Proof. eapply rtc_r; [exact reach3|]. apply (step_dirty p3 [cand1] "db" 20 1). Defined.
End PlannerDemo.

(** ** Theorems *)

(** In every reachable state, while the counters have not saturated at
    [u64::MAX], the generations of every target are consistent: what is
    acknowledged never exceeds what the watcher reported, a deadline for the
    next partial scan is armed exactly while reported changes are still
    unmeasured, and a required full scan never refers to a change that has not
    been reported. *)
Theorem planner_generations_consistent c w id t :
  planner_reachable c w → next_token (planner w) < u64_max →
  targets (planner w) !! id = Some t → revision t < u64_max →
  0 ≤ acknowledged_generation t ≤ dirty_generation t ∧
  (is_Some (dirty_due t) ↔ acknowledged_generation t < dirty_generation t) ∧
  (∀ r, full_requirement t = Some r → req_generation r ≤ dirty_generation t).
Proof.
  intros Hr Hn Ht Hrev. apply planner_reachable_inv in Hr as [_ Hok].
  destruct (Hok Hn id t Ht Hrev) as [[Ha Hd Hq] _].
  split_and!; [lia..|done|]. intros r E. specialize (Hq r E). lia.
Qed.

Lemma planner_generations_consistent_witness :
  acknowledged_generation PlannerDemo.t4 < dirty_generation PlannerDemo.t4 ∧
  is_Some (dirty_due PlannerDemo.t4).
Proof.
  split; [vm_compute; reflexivity|].
  apply (planner_generations_consistent PlannerDemo.cfg PlannerDemo.w4 "db" PlannerDemo.t4
           PlannerDemo.reach4); vm_compute; reflexivity.
Defined.

(** [next_candidate] selects the work that comes first: the chosen target
    is enabled and has no worker, its work is due, and no target has earlier
    work, comparing the due time, then the order of the last dispatch, then
    the identifier. *)
Theorem next_candidate_selects_earliest p now p' cand :
  next_candidate p now = (p', Some cand) →
  ∃ t, targets p !! cand_target_id cand = Some t ∧
    enabled (spec t) = true ∧ in_flight t = None ∧
    due_work (config p) t = Some (cand_due_at cand, cand_kind cand, cand_reason cand) ∧
    cand_due_at cand ≤ now ∧
    ∀ id u d k r, targets p !! id = Some u → due_work (config p) u = Some (d, k, r) →
      cand_due_at cand < d ∨
      (cand_due_at cand = d ∧
       (last_dispatch_order t < last_dispatch_order u ∨
        (last_dispatch_order t = last_dispatch_order u ∧
         (cand_target_id cand ≤ id)%string))).
Proof.
  intros Hn. apply next_candidate_Some in Hn
    as (w & t & _ & Hm & Hin & Ht & -> & _). simpl.
  apply elem_of_due_items in Hin as (t0 & Ht0 & Ho & Hd & Hle).
  assert (t0 = t) as -> by congruence.
  destruct (due_work_Some _ _ _ _ _ Hd). exists t. split_and!; try done.
  intros id u d k r Hu Hdu.
  destruct (Z.lt_ge_cases now d); [left; lia|].
  apply min_work_Some in Hm as [_ Hmin].
  specialize (Hmin (mkWorkItem d (last_dispatch_order u) id k r)).
  unfold work_le in Hmin. simpl in Hmin. rewrite Ho in Hmin. apply Hmin.
  apply elem_of_due_items. eauto.
Qed.

Lemma next_candidate_selects_earliest_witness :
  ∃ t, targets PlannerDemo.p1 !! "db" = Some t ∧ enabled (spec t) = true.
Proof.
  destruct (next_candidate_selects_earliest PlannerDemo.p1 6 PlannerDemo.p2
              PlannerDemo.cand1 PlannerDemo.dispatch1) as (t & Ht & He & _).
  exists t. split; assumption.
Defined.

(** The wake-up time is exact: when [next_wakeup] asks to sleep for [d],
    work is available after [d] and none is available before, so the scanner
    task neither misses work nor spins. *)
Theorem next_wakeup_exact p now d :
  next_wakeup p now = Some d →
  (next_candidate p (now + d)).2 ≠ None ∧
  ∀ t, now ≤ t < now + d → (next_candidate p t).2 = None.
Proof.
  unfold next_wakeup. destruct (shutdown_flag p) eqn:Es; [done|].
  destruct (min_due _) as [m|] eqn:Em; [|done]. intros [= <-].
  apply min_due_Some in Em as [Hin Hmin].
  apply elem_of_due_times in Hin as (id & t & k & r & Ht & Hd). split.
  - rewrite next_candidate_None. intros [?|Hnil]; [congruence|].
    assert (mkWorkItem m (last_dispatch_order t) id k r ∈
              due_items p (now + duration_sat_sub m now)) as Hw.
    { apply elem_of_due_items. exists t. simpl. split_and!; try done. int_lia. }
    rewrite Hnil in Hw. by apply not_elem_of_nil in Hw.
  - intros u Hu. apply next_candidate_None. right.
    destruct (due_items p u) as [|w l] eqn:E; [done|].
    assert (w ∈ due_items p u) as Hw by (rewrite E; by left).
    apply elem_of_due_items in Hw as (tw & Htw & _ & Hdw & Hle).
    assert (m ≤ wi_due w); [|int_lia].
    apply Hmin, elem_of_due_times. eauto 10.
Qed.

Lemma next_wakeup_exact_witness :
  (next_candidate PlannerDemo.p4 (20 + 2)).2 ≠ None.
Proof.
  apply (next_wakeup_exact PlannerDemo.p4 20 2). vm_compute. reflexivity.
Defined.

(** C24. A scan settles every change reported before it started: when a
    dispatched candidate succeeds with the requested kind (or a full walk) and
    nothing happened in between, the completion is applied, everything known
    is acknowledged and no partial scan is armed; a full walk also clears every
    full-scan requirement and restarts the full-scan deadline. *)
Theorem completed_scan_settles_changes c w now p' cand t later performed :
  planner_reachable c w → next_token (planner w) < u64_max →
  next_candidate (planner w) now = (p', Some cand) →
  targets (planner w) !! cand_target_id cand = Some t → revision t < u64_max →
  performed = cand_kind cand ∨ performed = Full →
  ∃ p'' t'', complete p' cand later (Succeeded performed) = (p'', Applied) ∧
    targets p'' !! cand_target_id cand = Some t'' ∧ in_flight t'' = None ∧
    acknowledged_generation t'' = dirty_generation t ∧
    dirty_generation t'' = dirty_generation t ∧ dirty_due t'' = None ∧
    (performed = Full →
       full_requirement t'' = None ∧ baseline_available t'' = true ∧
       full_deadline t'' = add_tick later (full_scan_interval (config (planner w)))).
Proof.
  intros Hr Hn Hc Ht Hrev Hk. apply planner_reachable_inv in Hr as [_ Hok].
  destruct (Hok Hn _ _ Ht Hrev) as [[Ha Hd Hq] _].
  apply next_candidate_lease in Hc
    as (t0 & t' & Ht0 & Ht' & Hdw & _ & Hcfg & Hcap & Hcr & Hfp & Hri & Et').
  assert (t0 = t) as -> by congruence.
  assert (full_requirement t' = full_requirement t ∧ revision t' = revision t ∧
          spec t' = spec t ∧ dirty_generation t' = dirty_generation t ∧
          acknowledged_generation t' = acknowledged_generation t ∧
          in_flight t' = Some {| fl_token := cand_token cand;
                                 fl_revision := revision t |})
    as (Hf1 & Hf2 & Hf3 & Hf4 & Hf5 & Hf6) by (by subst t').
  erewrite complete_holder by (rewrite ?Hf2, ?Hf3, ?Hf6; done).
  eexists _, _. split; [done|]. split; [apply lookup_insert_eq|].
  rewrite Hcfg. unfold apply_completion.
  assert (bool_decide (cand_kind cand = Full) && bool_decide (performed ≠ Full) = false)
    as -> by (destruct Hk as [->| ->]; destruct (cand_kind cand); done).
  unfold acknowledge_generation. simpl. rewrite Hcap, Hf4, Hf5, Z.leb_refl. simpl.
  destruct performed; simpl.
  - unfold record_full_scan. simpl. rewrite Hf1.
    destruct (full_requirement t) as [q|] eqn:Eq; simpl.
    + rewrite Hcap. destruct (Hq q eq_refl) as [_ Hle%Z.leb_le]. rewrite Hle. simpl.
      split_and!; try done; lia.
    + split_and!; try done; lia.
  - split_and!; try done; lia.
Qed.

Lemma completed_scan_settles_changes_witness :
  ∃ p'' t'', complete PlannerDemo.p2 PlannerDemo.cand1 8 (Succeeded Full) = (p'', Applied) ∧
    targets p'' !! "db" = Some t'' ∧ full_requirement t'' = None.
Proof.
  destruct (completed_scan_settles_changes PlannerDemo.cfg PlannerDemo.w1 6 PlannerDemo.p2
              PlannerDemo.cand1 (target_new PlannerDemo.db 5) 8 Full PlannerDemo.reach1)
    as (p'' & t'' & Hc & Ht & _ & _ & _ & _ & Hf);
    [vm_compute; reflexivity|exact PlannerDemo.dispatch1|reflexivity|vm_compute; reflexivity
    |right; reflexivity|].
  exists p'', t''. destruct (Hf eq_refl) as [Hq _]. repeat split; assumption.
Defined.

(** A scan result is applied at most once: after [complete] has accepted
    the report of a candidate, no later report of the same candidate is
    accepted, whatever happens in between (removal and re-registration of the
    target, resets and new dispatches included). *)
Theorem completion_applied_once c w cand now completion w' later completion' :
  planner_reachable c w → cand ∈ issued w →
  (complete (planner w) cand now completion).2 = Applied →
  rtc planner_step (mkWorld (complete (planner w) cand now completion).1 (issued w)) w' →
  next_token (planner w') < u64_max →
  (complete (planner w') cand later completion').2 ≠ Applied.
Proof.
  intros Hr Hin Happ Hsteps Hlt.
  apply planner_reachable_inv in Hr as Hinv. destruct w as [p l]. simpl in *.
  assert (planner_inv (mkWorld (complete p cand now completion).1 l)) as Hinv1
    by by apply complete_inv.
  assert (retired (cand_target_id cand) (cand_token cand)
            (complete p cand now completion).1) as Hret.
  { destruct Hinv as [(_ & Hc & _) _]. specialize (Hc cand Hin). simpl in Hc.
    destruct (complete_cases p cand now completion)
      as [[E _]|[E|(t & fl & Ht & _ & _ & _ & [E|(_ & _ & _ & E)])]];
      rewrite E in Happ; [done..|]. rewrite E. split; [done|]. intros t' fl'. simpl.
    rewrite lookup_insert_eq. intros [= <-].
    destruct (apply_completion_lease (config p) t cand now completion). congruence. }
  destruct (planner_steps_retired _ _ _ _ Hsteps Hinv1 Hlt Hret) as [_ Hret'].
  destruct (complete_cases (planner w') cand later completion')
    as [[-> _]|[->|(t & fl & Ht & Hfl & Htk & _)]]; [done..|].
  by destruct (Hret' t fl Ht Hfl).
Qed.

Lemma completion_applied_once_witness :
  (complete PlannerDemo.p3 PlannerDemo.cand1 9 Failed).2 ≠ Applied.
Proof.
  apply (completion_applied_once PlannerDemo.cfg PlannerDemo.w2 PlannerDemo.cand1 8
           (Succeeded Full) PlannerDemo.w3 9 Failed PlannerDemo.reach2).
  - by left.
  - vm_compute. reflexivity.
  - apply rtc_refl.
  - vm_compute. reflexivity.
Defined.

(** A failed scan backs off: after a failure reported at [now], the next
    work of that target is a full scan at [now + scan_interval], and no
    sequence of change or overflow notifications, for this target or others,
    brings it forward, postpones it or replaces it. *)
Theorem failed_scan_backs_off p cand now t ms :
  targets p !! cand_target_id cand = Some t → enabled (spec t) = true →
  (complete p cand now Failed).2 = Applied →
  ∃ t', targets (foldl apply_mark (complete p cand now Failed).1 ms)
          !! cand_target_id cand = Some t' ∧
    due_work (config p) t' =
      Some (add_tick now (scan_interval (config p)), Full, RetryAfterFailure).
Proof.
  intros Ht He Happ.
  destruct (complete_cases p cand now Failed)
    as [[E _]|[E|(t0 & fl & Ht0 & _ & _ & _ & [E|(_ & _ & _ & E)])]];
    rewrite E in Happ; [done..|].
  assert (t0 = t) as -> by congruence. rewrite E. simpl.
  set (due := add_tick now (scan_interval (config p))).
  set (p1 := put_target p _ _).
  assert (backing_off p1 (cand_target_id cand) due ∧
          ∀ t', targets p1 !! cand_target_id cand = Some t' → spec t' = spec t)
    as [Hb Hs].
  { split.
    - eexists _, _. simpl. rewrite lookup_insert_eq. split_and!; done.
    - intros t'. simpl. rewrite lookup_insert_eq. by intros [= <-]. }
  clearbody p1. clear Ht Ht0 Happ E.
  revert p1 Hb Hs. induction ms as [|m ms IH]; intros p1 Hb Hs; simpl.
  - destruct Hb as (t' & r & Ht' & Hf & Hr & Hd & Hre). exists t'. split; [done|].
    unfold due_work. rewrite (Hs _ Ht'), He, Hf, Hr. simpl. by rewrite Hd, Hre.
  - apply IH; [by apply apply_mark_backing_off|]. intros t' Ht'.
    destruct (apply_mark_spec _ _ _ _ Ht') as (t1 & Ht1 & ->). eauto.
Qed.

Lemma failed_scan_backs_off_witness :
  ∃ t', targets (foldl apply_mark (complete PlannerDemo.p2 PlannerDemo.cand1 8 Failed).1
                   [MarkOverflow "db" 9 3; MarkDirty "db" 10 4]) !! "db" = Some t' ∧
    due_work PlannerDemo.cfg t' = Some (18, Full, RetryAfterFailure).
Proof.
  apply (failed_scan_backs_off PlannerDemo.p2 PlannerDemo.cand1 8
           (default (target_new PlannerDemo.db 0) (targets PlannerDemo.p2 !! "db")));
    vm_compute; reflexivity.
Defined.

(** Changing a target while a worker is measuring it makes that worker's
    result void: its report is stale whatever it says, the change is not
    acknowledged on its behalf, and once the lease is released a full scan of
    the changed target is due at once. *)
Theorem reset_voids_running_scan p id t cand now s later completion :
  targets p !! id = Some t → cand_target_id cand = id → spec_id s = id →
  in_flight t = Some {| fl_token := cand_token cand; fl_revision := cand_revision cand |} →
  cand_revision cand ≤ revision t < u64_max →
  spec t ≠ s → enabled s = true →
  ∃ p' p'' t'', upsert_target p now s = (p', Reset) ∧
    complete p' cand later completion = (p'', Stale) ∧
    targets p'' !! id = Some t'' ∧ spec t'' = s ∧
    acknowledged_generation t'' = 0 ∧ baseline_available t'' = false ∧
    due_work (config p'') t'' = Some (now, Full, TargetChanged).
Proof.
  intros Ht Hc Hs Hf Hrev Hne He. unfold upsert_target. rewrite Hs, Ht.
  rewrite bool_decide_eq_false_2 by done. eexists _, _, _. split; [done|].
  unfold complete. simpl. rewrite Hc, lookup_insert_eq. simpl. rewrite Hf. simpl.
  rewrite !Z.eqb_refl. simpl.
  assert ((u64_sat_add (revision t) 1 =? cand_revision cand) = false) as ->
    by (apply Z.eqb_neq; int_lia). simpl.
  split; [done|]. simpl. rewrite lookup_insert_eq. split; [done|]. simpl.
  split_and!; try done. unfold due_work. simpl. rewrite He. done.
Qed.

Lemma reset_voids_running_scan_witness :
  ∃ p' p'' t'', upsert_target PlannerDemo.p2 7 PlannerDemo.db2 = (p', Reset) ∧
    complete p' PlannerDemo.cand1 8 (Succeeded Full) = (p'', Stale) ∧
    targets p'' !! "db" = Some t'' ∧ spec t'' = PlannerDemo.db2 ∧
    acknowledged_generation t'' = 0 ∧ baseline_available t'' = false ∧
    due_work (config p'') t'' = Some (7, Full, TargetChanged).
Proof.
  apply (reset_voids_running_scan PlannerDemo.p2 "db"
           (default (target_new PlannerDemo.db 0) (targets PlannerDemo.p2 !! "db")));
    try (vm_compute; reflexivity); [vm_compute; split; congruence|vm_compute; congruence].
Defined.
