(* ===== verification/JobCost.v ===== *)
(** * Cost of a job and capacity of the host

    Models the cost estimate of an import or export job
    ([scheduler/cost.rs]), the capacity the import/export scheduler works with
    ([scheduler/capacity.rs]), its configuration ([config/scheduler.rs]) and the
    validation of that configuration
    ([config/validate/import_export_scheduler.rs]). *)
From S2P Require Import Prelude Engines.

Local Open Scope Z_scope.

Definition MIB : Z := 1024 * 1024.
Definition FALLBACK_AVAILABLE_MEMORY_MIB : Z := 4096.
Definition MAX_DATA_ARCHIVE_BYTES : Z := 64 * 1024 * 1024 * 1024.

(** ** Job cost *)

Record JobResourceCost := mkJobResourceCost {
  input_size_bytes : Z;
  memory_mib : Z;
  io_mib : Z;
  cost_cpu_units : Z;
}.

Record JobEstimateInput := mkJobEstimateInput {
  in_protocol : Protocol;
  in_size_bytes : Z;
  rollback_size_bytes : Z;
  wipe : bool;
  compressed : bool;
  export : bool;
}.

(** [JobResourceCost::estimate]. *)
Definition estimate (i : JobEstimateInput) : JobResourceCost :=
  let source_mib := Z.max (bytes_to_mib_ceil (in_size_bytes i)) 1 in
  let cost := job_cost (in_protocol i) in
  let stream_memory :=
    Z.min (source_mib / stream_memory_divisor cost) (stream_memory_cap_mib cost) in
  let compression_memory := Z.b2z (compressed i) * 64 in
  let logical_wipe := wipe i && (0 <? rollback_size_bytes i) in
  let rollback_memory := Z.b2z logical_wipe * 64 in
  let memory :=
    u64_sat_add (u64_sat_add (u64_sat_add (base_memory_mib cost) stream_memory)
                   compression_memory) rollback_memory in
  let io :=
    if export i then u64_sat_mul source_mib 2
    else
      let rollback_io :=
        if logical_wipe then u64_sat_mul (bytes_to_mib_ceil (rollback_size_bytes i)) 2
        else 0 in
      u64_sat_add (u64_sat_mul source_mib (io_multiplier cost)) rollback_io in
  let cpu := base_cpu_units cost + Z.b2z (compressed i) + Z.b2z logical_wipe in
  {| input_size_bytes := in_size_bytes i;
     memory_mib := Z.max memory 1;
     io_mib := Z.max io 1;
     cost_cpu_units := Z.max cpu 1 |}.

Definition protocol_uses_logical_dumps (p : Protocol) : bool := negb (is_physical p).

Definition conservative_import_input_bytes (p : Protocol)
    (source_bytes prepared_ceiling_bytes target_disk_mib : Z) (compressed : bool) : Z :=
  if compressed && negb (protocol_uses_logical_dumps p) then
    clamp 1 MAX_DATA_ARCHIVE_BYTES (u64_sat_mul target_disk_mib MIB)
  else if compressed then Z.max prepared_ceiling_bytes 1
  else Z.max source_bytes 1.

(** ** Configuration *)

Record ImportExportSchedulerConfig := mkSchedulerConfig {
  dynamic_limiter_enabled : bool;
  max_queued_jobs : Z;
  max_queued_jobs_per_instance : Z;
  manual_max_active_jobs : Z;
  dynamic_max_active_jobs : Z;
  dynamic_memory_budget_mib : Z;
  dynamic_io_budget_mib : Z;
  dynamic_cpu_units : Z;
  starvation_timeout_seconds : Z;
  cfg_max_bypass : Z;
}.

Definition default_scheduler_config : ImportExportSchedulerConfig :=
  {| dynamic_limiter_enabled := true;
     max_queued_jobs := 1024;
     max_queued_jobs_per_instance := 32;
     manual_max_active_jobs := 16;
     dynamic_max_active_jobs := 256;
     dynamic_memory_budget_mib := 0;
     dynamic_io_budget_mib := 0;
     dynamic_cpu_units := 0;
     starvation_timeout_seconds := 30;
     cfg_max_bypass := 8 |}.

(** [(lo..=hi).contains(&x)]. *)
Definition contains (lo hi x : Z) : bool := (lo <=? x) && (x <=? hi).

(** [validate]; the error carries the name of the offending field. *)
Definition validate_scheduler_config (c : ImportExportSchedulerConfig) : result string unit :=
  if negb (contains 64 8192 (max_queued_jobs c)) then Err "max_queued_jobs"
  else if (max_queued_jobs_per_instance c =? 0)
       || (256 <? max_queued_jobs_per_instance c)
       || (max_queued_jobs c <? max_queued_jobs_per_instance c)
  then Err "max_queued_jobs_per_instance"
  else if (manual_max_active_jobs c =? 0)
       || (1024 <? manual_max_active_jobs c)
       || (max_queued_jobs c <? manual_max_active_jobs c)
  then Err "manual_max_active_jobs"
  else if (dynamic_max_active_jobs c =? 0)
       || (1024 <? dynamic_max_active_jobs c)
       || (max_queued_jobs c <? dynamic_max_active_jobs c)
  then Err "dynamic_max_active_jobs"
  else if negb (dynamic_memory_budget_mib c =? 0)
       && negb (contains 128 (16 * 1024 * 1024) (dynamic_memory_budget_mib c))
  then Err "dynamic_memory_budget_mib"
  else if negb (dynamic_io_budget_mib c =? 0)
       && negb (contains 256 (64 * 1024 * 1024) (dynamic_io_budget_mib c))
  then Err "dynamic_io_budget_mib"
  else if 65536 <? dynamic_cpu_units c then Err "dynamic_cpu_units"
  else if negb (contains 1 3600 (starvation_timeout_seconds c))
  then Err "starvation_timeout_seconds"
  else if 1024 <? cfg_max_bypass c then Err "max_bypass"
  else Ok tt.

(** The fields are unsigned integers. *)
Definition config_unsigned (c : ImportExportSchedulerConfig) : Prop :=
  is_usize (max_queued_jobs c) ∧ is_usize (max_queued_jobs_per_instance c) ∧
  is_usize (manual_max_active_jobs c) ∧ is_usize (dynamic_max_active_jobs c) ∧
  is_u64 (dynamic_memory_budget_mib c) ∧ is_u64 (dynamic_io_budget_mib c) ∧
  is_usize (dynamic_cpu_units c) ∧ is_u64 (starvation_timeout_seconds c) ∧
  is_usize (cfg_max_bypass c).

(** ** Capacity *)

Inductive SchedulerMode := Dynamic | Manual.
#[export] Instance SchedulerMode_eq_dec : EqDecision SchedulerMode.
Proof. solve_decision. Defined.

(** What the host provider measured ([SchedulerResourceSample]). *)
Record SchedulerResourceSample := mkSample {
  available_memory_mib : option Z;
  sample_cpu_units : option Z;
  memory_valid : bool;
  cpu_valid : bool;
}.

Record SchedulerCapacity := mkCapacity {
  mode : SchedulerMode;
  max_active_jobs : Z;
  memory_budget_mib : Z;
  io_budget_mib : Z;
  cpu_units : Z;
}.
#[export] Instance SchedulerCapacity_eta : Settable SchedulerCapacity :=
  λ r, mkCapacity (mode r) (max_active_jobs r) (memory_budget_mib r) (io_budget_mib r)
         (cpu_units r).

Definition memory_budget_from_available (available_mib : Z) : Z :=
  Z.max (u64_sat_mul available_mib 3 / 5) 1.

(** [SchedulerCapacity::detect_with_provider], the sample being the one its
    provider returned. *)
Definition detect_with_provider (c : ImportExportSchedulerConfig)
    (max_upload_bytes max_total_upload_bytes : Z) (sample : SchedulerResourceSample) :
    SchedulerCapacity :=
  let m := if dynamic_limiter_enabled c then Dynamic else Manual in
  let memory :=
    if dynamic_memory_budget_mib c =? 0 then
      memory_budget_from_available
        (if memory_valid sample
         then default FALLBACK_AVAILABLE_MEMORY_MIB (available_memory_mib sample) else 1)
    else dynamic_memory_budget_mib c in
  let io :=
    if dynamic_io_budget_mib c =? 0 then
      let one_maximum_physical_restore := u64_sat_mul MAX_DATA_ARCHIVE_BYTES 2 in
      Z.max (bytes_to_mib_ceil
               (Z.max (Z.max max_total_upload_bytes (u64_sat_mul max_upload_bytes 6))
                  one_maximum_physical_restore)) 256
    else dynamic_io_budget_mib c in
  let cpu :=
    if dynamic_cpu_units c =? 0 then
      if cpu_valid sample then default 1 (sample_cpu_units sample) else 1
    else dynamic_cpu_units c in
  let active :=
    match m with
    | Dynamic => dynamic_max_active_jobs c
    | Manual => manual_max_active_jobs c
    end in
  {| mode := m; max_active_jobs := active; memory_budget_mib := memory;
     io_budget_mib := io; cpu_units := Z.max cpu 1 |}.

(** [usize::try_from(total / each.max(1)).unwrap_or(usize::MAX)] on a 64-bit
    target. *)
Definition ratio (total each : Z) : Z := total / Z.max each 1.

Definition model_recommended_active_jobs (c : SchedulerCapacity) (cost : JobResourceCost)
    (maximum : Z) : Z :=
  let by_memory := ratio (memory_budget_mib c) (memory_mib cost) in
  if by_memory =? 0 then 0
  else
    let by_io := Z.max (ratio (io_budget_mib c) (io_mib cost)) 1 in
    let by_cpu := Z.max (cpu_units c / Z.max (cost_cpu_units cost) 1) 1 in
    Z.min (Z.min (Z.min maximum by_memory) by_io) by_cpu.

Definition recommended_active_jobs (c : SchedulerCapacity) (cost : JobResourceCost) : Z :=
  match mode c with
  | Manual => max_active_jobs c
  | Dynamic => model_recommended_active_jobs c cost (max_active_jobs c)
  end.

(** ** Well-formedness *)

(** The costs [estimate] produces: at most 896 MiB of memory, [2^47] MiB of I/O
    and 4 CPU units. *)
Definition cost_ok (cost : JobResourceCost) : Prop :=
  1 ≤ memory_mib cost ≤ 896 ∧ 1 ≤ io_mib cost ≤ 140737488355328 ∧
  1 ≤ cost_cpu_units cost ≤ 4.

(** A capacity as a valid configuration gives it: at least one unit of
    everything, at most 1024 jobs, and budgets below the integer maxima. *)
Definition capacity_ok (c : SchedulerCapacity) : Prop :=
  1 ≤ max_active_jobs c ≤ 1024 ∧ 1 ≤ memory_budget_mib c < u64_max ∧
  1 ≤ io_budget_mib c < u64_max ∧ 1 ≤ cpu_units c < u64_max.

(** Samples come from 64-bit counters; no host has [usize::MAX] processors. *)
Definition sample_ok (s : SchedulerResourceSample) : Prop :=
  (∀ m, available_memory_mib s = Some m → is_u64 m) ∧
  (∀ n, sample_cpu_units s = Some n → 0 ≤ n < u64_max).

Lemma memory_budget_from_available_ok a :
  is_u64 a → 1 ≤ memory_budget_from_available a < u64_max.
Proof.
  intros Ha. unfold memory_budget_from_available. split; [lia|].
  apply Z.max_lub_lt; [|done]. apply Z.div_lt_upper_bound; int_lia.
Qed.

Lemma contains_true lo hi x : contains lo hi x = true ↔ lo ≤ x ≤ hi.
Proof. unfold contains. rewrite andb_true_iff, !Z.leb_le. done. Qed.

Lemma validate_scheduler_config_Ok c :
  validate_scheduler_config c = Ok tt →
  64 ≤ max_queued_jobs c ≤ 8192 ∧
  manual_max_active_jobs c ≠ 0 ∧ manual_max_active_jobs c ≤ 1024 ∧
  dynamic_max_active_jobs c ≠ 0 ∧ dynamic_max_active_jobs c ≤ 1024 ∧
  (dynamic_memory_budget_mib c = 0 ∨ 128 ≤ dynamic_memory_budget_mib c ≤ 16777216) ∧
  (dynamic_io_budget_mib c = 0 ∨ 256 ≤ dynamic_io_budget_mib c ≤ 67108864) ∧
  dynamic_cpu_units c ≤ 65536 ∧ 1 ≤ starvation_timeout_seconds c ≤ 3600 ∧
  cfg_max_bypass c ≤ 1024.
Proof.
  unfold validate_scheduler_config.
  repeat (case_match; [done|]). intros _. to_prop.
  repeat match goal with
  | H : contains _ _ _ = true |- _ => apply contains_true in H
  | H : _ = false ∨ _ = false |- _ => destruct H; to_prop
  end; split_and!; auto; lia.
Qed.

Lemma estimate_ok i :
  is_u64 (in_size_bytes i) → is_u64 (rollback_size_bytes i) → cost_ok (estimate i).
Proof.
  intros Hs Hr. destruct (job_cost_bounds (in_protocol i)) as (Hm & Hi & Hc & Hd & Hcap).
  pose proof (bytes_to_mib_ceil_bounds _ Hs) as Hsb.
  pose proof (bytes_to_mib_ceil_bounds _ Hr) as Hrb.
  unfold estimate, cost_ok. simpl.
  set (source := Z.max (bytes_to_mib_ceil (in_size_bytes i)) 1) in *.
  assert (0 ≤ source / stream_memory_divisor (job_cost (in_protocol i)))
    by (apply Z.div_pos; lia).
  assert (0 ≤ source * io_multiplier (job_cost (in_protocol i)) ≤ source * 4) by nia.
  destruct (wipe i && (0 <? rollback_size_bytes i)), (compressed i), (export i);
    simpl; split_and!; int_lia.
Qed.

Lemma detect_capacity_ok c max_upload max_total sample :
  config_unsigned c → validate_scheduler_config c = Ok tt →
  is_u64 max_upload → is_u64 max_total → sample_ok sample →
  capacity_ok (detect_with_provider c max_upload max_total sample).
Proof.
  intros (_ & _ & Hman & Hdyn & Hmem & Hio & Hcpu & _) Hv Hu Ht [Hsm Hsc].
  apply validate_scheduler_config_Ok in Hv
    as (_ & Hman0 & Hman1 & Hdyn0 & Hdyn1 & Hmem1 & Hio1 & Hcpu1 & _).
  split; [|split; [|split]]; simpl.
  - destruct (dynamic_limiter_enabled c); int_lia.
  - case_match eqn:E; to_prop; [|int_lia]. apply memory_budget_from_available_ok.
    destruct (memory_valid sample); [|int_lia].
    destruct (available_memory_mib sample) as [a|]; simpl; [by apply Hsm|unfold FALLBACK_AVAILABLE_MEMORY_MIB; int_lia].
  - case_match eqn:E; to_prop; [|int_lia].
    assert (is_u64 (Z.max (Z.max max_total (u64_sat_mul max_upload 6))
                      (u64_sat_mul MAX_DATA_ARCHIVE_BYTES 2))) as Hb.
    { unfold MAX_DATA_ARCHIVE_BYTES. int_lia. }
    pose proof (bytes_to_mib_ceil_bounds _ Hb). int_lia.
  - case_match eqn:E; to_prop; [|int_lia]. destruct (cpu_valid sample); [|int_lia].
    destruct (sample_cpu_units sample) as [n|]; simpl; [|int_lia].
    specialize (Hsc n eq_refl). int_lia.
Qed.

(** ** Monotonicity of the estimate *)

(** The estimate with another input size. *)
Definition resize_input (i : JobEstimateInput) (size : Z) : JobEstimateInput :=
  {| in_protocol := in_protocol i; in_size_bytes := size;
     rollback_size_bytes := rollback_size_bytes i; wipe := wipe i;
     compressed := compressed i; export := export i |}.

(** A bigger input never costs less: the memory and I/O estimates are
    monotone in the input size, and the CPU estimate does not depend on it. *)
Theorem estimate_monotone i small large :
  0 ≤ small ≤ large → is_u64 large →
  memory_mib (estimate (resize_input i small)) ≤ memory_mib (estimate (resize_input i large)) ∧
  io_mib (estimate (resize_input i small)) ≤ io_mib (estimate (resize_input i large)) ∧
  cost_cpu_units (estimate (resize_input i small)) =
    cost_cpu_units (estimate (resize_input i large)).
Proof.
  intros Hle Hu. destruct (job_cost_bounds (in_protocol i)) as (Hm & Hi & _ & Hd & _).
  pose proof (bytes_to_mib_ceil_mono small large ltac:(lia)) as Hmono.
  unfold estimate. simpl.
  set (s := Z.max (bytes_to_mib_ceil small) 1).
  set (l := Z.max (bytes_to_mib_ceil large) 1).
  assert (s ≤ l) as Hsl by lia.
  pose proof (Z.div_le_mono s l (stream_memory_divisor (job_cost (in_protocol i)))
                ltac:(lia) Hsl).
  assert (s * io_multiplier (job_cost (in_protocol i)) ≤
          l * io_multiplier (job_cost (in_protocol i))) by nia.
  destruct (export i); split_and!; try done; int_lia.
Qed.

Lemma estimate_monotone_witness :
  let i := {| in_protocol := Postgres; in_size_bytes := 0; rollback_size_bytes := 0;
              wipe := false; compressed := true; export := true |} in
  memory_mib (estimate (resize_input i 5)) ≤ memory_mib (estimate (resize_input i 99999999999)).
Proof.
  apply (estimate_monotone {| in_protocol := Postgres; in_size_bytes := 0;
           rollback_size_bytes := 0; wipe := false; compressed := true; export := true |}
           5 99999999999); int_lia.
Defined.
