(* ===== verification/Scheduler.v ===== *)
(** * The import/export scheduler

    Models [server/jobs/import_export/scheduler/mod.rs] and [dispatch.rs]: jobs
    wait in arrival order for a permit, and [dispatch] hands permits out under
    a job limit and, in dynamic mode, memory, I/O and CPU budgets that follow
    the host.  Every operation runs under the scheduler's mutex, so each one is
    a function from state to state; the world of a running daemon is that state
    with the permits its jobs hold.

    A critical section reads the outside world through [Env]: the clock (read
    once per section), the host sample, which receivers are still listening,
    and whether a runtime is there to run the refresh timer. *)
From S2P Require Import Prelude Engines JobCost.

Local Open Scope Z_scope.

(** ** Data *)

Definition CAPACITY_REFRESH_INTERVAL : Z := from_secs 5.
Definition MIN_REFRESH_WAKEUP_INTERVAL : Z := 10 * 1000000.

Inductive SchedulerAcquireError := Closed | InsufficientCapacity.
#[export] Instance SchedulerAcquireError_eq_dec : EqDecision SchedulerAcquireError.
Proof. solve_decision. Defined.

(** The immutable part of [Shared]; the provider is part of [Env]. *)
Record Shared := mkShared {
  starvation_timeout : Z;
  max_bypass : Z;
  auto_memory_budget : bool;
  auto_cpu_units : bool;
  capacity_refresh_interval : Z;
}.

Definition refreshes_capacity (sh : Shared) : bool :=
  auto_memory_budget sh || auto_cpu_units sh.

(** A waiting job is known to its receiver by its sequence number. *)
Record WaitingJob := mkWaitingJob {
  sequence : Z;
  queued_at : Z;
  bypasses : Z;
  cost : JobResourceCost;
}.
#[export] Instance WaitingJob_eta : Settable WaitingJob :=
  λ r, mkWaitingJob (sequence r) (queued_at r) (bypasses r) (cost r).

Record SchedulerState := mkSchedulerState {
  capacity : SchedulerCapacity;
  pending_memory_increase_mib : option Z;
  pending_cpu_increase : option Z;
  refresh_wakeup_scheduled : bool;
  accepting : bool;
  next_sequence : Z;
  active_jobs : Z;
  active_memory_mib : Z;
  active_io_mib : Z;
  active_cpu_units : Z;
  waiting : list WaitingJob;
}.
#[export] Instance SchedulerState_eta : Settable SchedulerState :=
  λ r, mkSchedulerState (capacity r) (pending_memory_increase_mib r)
         (pending_cpu_increase r) (refresh_wakeup_scheduled r) (accepting r)
         (next_sequence r) (active_jobs r) (active_memory_mib r) (active_io_mib r)
         (active_cpu_units r) (waiting r).

(** Two states are equal when their fields are. *)
Lemma state_ext st st' :
  capacity st = capacity st' →
  pending_memory_increase_mib st = pending_memory_increase_mib st' →
  pending_cpu_increase st = pending_cpu_increase st' →
  refresh_wakeup_scheduled st = refresh_wakeup_scheduled st' →
  accepting st = accepting st' → next_sequence st = next_sequence st' →
  active_jobs st = active_jobs st' → active_memory_mib st = active_memory_mib st' →
  active_io_mib st = active_io_mib st' → active_cpu_units st = active_cpu_units st' →
  waiting st = waiting st' → st = st'.
Proof. destruct st, st'; simpl; congruence. Qed.

(** What a critical section reads from outside. *)
Record Env := mkEnv {
  now : Z;
  provider_sample : SchedulerResourceSample;
  receiver_open : Z → bool;
  runtime_available : bool;
}.

(** What [ready.send] delivers to the receiver of a sequence number: a permit,
    which carries the cost it reserved, or an error. *)
Definition Delivery : Type := Z * result SchedulerAcquireError JobResourceCost.

(** [ready.send(v)]: nothing arrives when the receiver is gone. *)
Definition send (env : Env) (w : WaitingJob) (v : result SchedulerAcquireError JobResourceCost) :
    list Delivery :=
  if receiver_open env (sequence w) then [(sequence w, v)] else [].

(** [queued_at.elapsed()]. *)
Definition elapsed (env : Env) (w : WaitingJob) : Z := duration_sat_sub (now env) (queued_at w).

(** ** Capacity refresh *)

(** [apply_capacity_sample]: a decrease applies at once, an increase only when
    two samples in a row agree on it. *)
Definition apply_capacity_sample (current : Z) (pending : option Z) (candidate : Z) :
    Z * option Z :=
  if candidate <=? current then (candidate, None)
  else match pending with
       | Some previous => (Z.min previous candidate, None)
       | None => (current, Some candidate)
       end.

Definition refresh_memory (env : Env) (st : SchedulerState) : SchedulerState :=
  let sample := provider_sample env in
  if memory_valid sample then
    let candidate := memory_budget_from_available
      (default FALLBACK_AVAILABLE_MEMORY_MIB (available_memory_mib sample)) in
    let '(current, pending) := apply_capacity_sample
      (memory_budget_mib (capacity st)) (pending_memory_increase_mib st) candidate in
    st <| capacity := (capacity st) <| memory_budget_mib := current |> |>
       <| pending_memory_increase_mib := pending |>
  else
    st <| pending_memory_increase_mib := None |>
       <| capacity := (capacity st) <| memory_budget_mib := 1 |> |>.

Definition refresh_cpu (env : Env) (st : SchedulerState) : SchedulerState :=
  let sample := provider_sample env in
  if cpu_valid sample then
    let '(current, pending) := apply_capacity_sample
      (cpu_units (capacity st)) (pending_cpu_increase st)
      (Z.max (default 1 (sample_cpu_units sample)) 1) in
    st <| capacity := (capacity st) <| cpu_units := current |> |>
       <| pending_cpu_increase := pending |>
  else
    st <| pending_cpu_increase := None |>
       <| capacity := (capacity st) <| cpu_units := 1 |> |>.

Definition refresh_capacity (sh : Shared) (env : Env) (st : SchedulerState) : SchedulerState :=
  if negb (refreshes_capacity sh) then st
  else
    let st := if auto_memory_budget sh then refresh_memory env st else st in
    if auto_cpu_units sh then refresh_cpu env st else st.

(** ** Admission tests *)

Definition fits_hard_memory (c : SchedulerCapacity) (k : JobResourceCost) : bool :=
  bool_decide (mode c = Manual) || (memory_mib k <=? memory_budget_mib c).

Definition fits (c : SchedulerCapacity) (st : SchedulerState) (k : JobResourceCost) : bool :=
  if bool_decide (mode c = Manual) then active_jobs st <? max_active_jobs c
  else (u64_sat_add (active_memory_mib st) (memory_mib k) <=? memory_budget_mib c)
    && (u64_sat_add (active_io_mib st) (io_mib k) <=? io_budget_mib c)
    && (usize_sat_add (active_cpu_units st) (cost_cpu_units k) <=? cpu_units c).

Definition reserve (k : JobResourceCost) (st : SchedulerState) : SchedulerState :=
  st <| active_jobs := usize_sat_add (active_jobs st) 1 |>
     <| active_memory_mib := u64_sat_add (active_memory_mib st) (memory_mib k) |>
     <| active_io_mib := u64_sat_add (active_io_mib st) (io_mib k) |>
     <| active_cpu_units := usize_sat_add (active_cpu_units st) (cost_cpu_units k) |>.

Definition release (k : JobResourceCost) (st : SchedulerState) : SchedulerState :=
  st <| active_jobs := sat_sub (active_jobs st) 1 |>
     <| active_memory_mib := sat_sub (active_memory_mib st) (memory_mib k) |>
     <| active_io_mib := sat_sub (active_io_mib st) (io_mib k) |>
     <| active_cpu_units := sat_sub (active_cpu_units st) (cost_cpu_units k) |>.

(** ** Dispatch *)

(** A job past the starvation timeout that cannot fit the current memory
    budget is answered with an error; the others keep their order. *)
Fixpoint reject_expired_unfit (sh : Shared) (env : Env) (c : SchedulerCapacity)
    (ws : list WaitingJob) : list WaitingJob * list Delivery :=
  match ws with
  | [] => ([], [])
  | w :: rest =>
      let '(kept, out) := reject_expired_unfit sh env c rest in
      let expired := starvation_timeout sh <=? elapsed env w in
      let unfit := negb (fits_hard_memory c (cost w)) in
      if expired && unfit then (kept, send env w (Err InsufficientCapacity) ++ out)
      else (w :: kept, out)
  end.

Definition reject_expired_unfit_jobs (sh : Shared) (env : Env) (st : SchedulerState) :
    SchedulerState * list Delivery :=
  if bool_decide (mode (capacity st) ≠ Dynamic) then (st, [])
  else
    let '(kept, out) := reject_expired_unfit sh env (capacity st) (waiting st) in
    (st <| waiting := kept |>, out).

Definition head_is_starving (sh : Shared) (env : Env) (head : WaitingJob) : bool :=
  (max_bypass sh <=? bypasses head) || (starvation_timeout sh <=? elapsed env head).

(** [runnable_index]: the head when it fits or can run alone, otherwise the
    first later job that fits, unless the head is starving. *)
Definition runnable_index (sh : Shared) (env : Env) (st : SchedulerState) : option nat :=
  match waiting st with
  | [] => None
  | head :: rest =>
      let head_fits_hard_memory := fits_hard_memory (capacity st) (cost head) in
      let head_runs_alone := (active_jobs st =? 0) && head_fits_hard_memory in
      if fits (capacity st) st (cost head) || head_runs_alone then Some 0%nat
      else
        let waiting_for_live_capacity :=
          bool_decide (mode (capacity st) = Dynamic) && negb head_fits_hard_memory in
        if negb waiting_for_live_capacity && head_is_starving sh env head then None
        else
          p ← list_find (λ w, (sequence head <? sequence w)
                              && fits (capacity st) st (cost w)) rest;
          Some (S p.1)
  end.

(** [head.bypasses += 1] when a later job is taken. *)
Definition note_bypass (index : nat) (ws : list WaitingJob) : list WaitingJob :=
  match index, ws with
  | S _, head :: rest =>
      head <| bypasses := usize_sat_add (bypasses head) 1 |> :: rest
  | _, _ => ws
  end.

(** One turn of the dispatch loop; [None] is [break] or the loop condition. *)
Definition dispatch_step (sh : Shared) (env : Env) (st : SchedulerState) :
    option (SchedulerState * list Delivery) :=
  if accepting st && (active_jobs st <? max_active_jobs (capacity st)) then
    index ← runnable_index sh env st;
    let ws := note_bypass index (waiting st) in
    w ← ws !! index;
    let st := reserve (cost w) (st <| waiting := delete index ws |>) in
    let out := send env w (Ok (cost w)) in
    Some (if receiver_open env (sequence w) then st else release (cost w) st, out)
  else None.

Fixpoint dispatch_loop (fuel : nat) (sh : Shared) (env : Env) (st : SchedulerState) :
    SchedulerState * list Delivery :=
  match fuel with
  | O => (st, [])
  | S fuel =>
      match dispatch_step sh env st with
      | None => (st, [])
      | Some (st, out) =>
          let '(st, out') := dispatch_loop fuel sh env st in (st, out ++ out')
      end
  end.

(** [schedule_capacity_refresh]: the timer it starts runs [refresh_tick] after
    [capacity_refresh_delay]. *)
Definition schedule_capacity_refresh (sh : Shared) (env : Env) (st : SchedulerState) :
    SchedulerState :=
  if refresh_wakeup_scheduled st || negb (refreshes_capacity sh) then st
  else if negb (runtime_available env) then st
  else st <| refresh_wakeup_scheduled := true |>.

Definition capacity_refresh_delay (sh : Shared) : Z :=
  Z.max (capacity_refresh_interval sh) MIN_REFRESH_WAKEUP_INTERVAL.

(** [dispatch]: every turn of the loop takes a job out of the queue, so one
    more unit of fuel than there are jobs is enough. *)
Definition dispatch (sh : Shared) (env : Env) (st : SchedulerState) :
    SchedulerState * list Delivery :=
  let st := refresh_capacity sh env st in
  let '(st, rejected) := reject_expired_unfit_jobs sh env st in
  let '(st, granted) := dispatch_loop (S (length (waiting st))) sh env st in
  let st :=
    if accepting st && negb (bool_decide (waiting st = [])) then
      schedule_capacity_refresh sh env st
    else st in
  (st, rejected ++ granted).

(** ** Operations *)

(** [new]: the scheduler of a configuration. *)
Definition scheduler_shared (c : ImportExportSchedulerConfig) : Shared :=
  {| starvation_timeout := from_secs (starvation_timeout_seconds c);
     max_bypass := cfg_max_bypass c;
     auto_memory_budget := dynamic_memory_budget_mib c =? 0;
     auto_cpu_units := dynamic_cpu_units c =? 0;
     capacity_refresh_interval := CAPACITY_REFRESH_INTERVAL |}.

Definition scheduler_new (c : SchedulerCapacity) : SchedulerState :=
  {| capacity := c; pending_memory_increase_mib := None; pending_cpu_increase := None;
     refresh_wakeup_scheduled := false; accepting := true; next_sequence := 0;
     active_jobs := 0; active_memory_mib := 0; active_io_mib := 0; active_cpu_units := 0;
     waiting := [] |}.

Definition structurally_exceeds_fixed_budget (sh : Shared) (st : SchedulerState)
    (k : JobResourceCost) : bool :=
  bool_decide (mode (capacity st) = Dynamic) && negb (auto_memory_budget sh)
  && (memory_budget_mib (capacity st) <? memory_mib k).

(** The critical section of [acquire]: an immediate error, or the sequence
    number of the queued request. *)
Definition acquire (sh : Shared) (env : Env) (k : JobResourceCost) (st : SchedulerState) :
    result SchedulerAcquireError Z * (SchedulerState * list Delivery) :=
  if negb (accepting st) then (Err Closed, (st, []))
  else if structurally_exceeds_fixed_budget sh st k then
    (Err InsufficientCapacity, (st, []))
  else
    let seq := next_sequence st in
    let job := {| sequence := seq; queued_at := now env; bypasses := 0; cost := k |} in
    let st := st <| next_sequence := wrapping_add u64_max seq 1 |>
                 <| waiting := waiting st ++ [job] |> in
    (Ok seq, dispatch sh env st).

Definition close (env : Env) (st : SchedulerState) : SchedulerState * list Delivery :=
  (st <| accepting := false |> <| waiting := [] |>,
   flat_map (λ w, send env w (Err Closed)) (waiting st)).

Record SchedulerSnapshot := mkSnapshot {
  snap_capacity : SchedulerCapacity;
  snap_active_jobs : Z;
  snap_waiting_jobs : nat;
  snap_active_memory_mib : Z;
  snap_active_io_mib : Z;
  snap_active_cpu_units : Z;
  snap_accepting : bool;
}.

Definition snapshot (sh : Shared) (env : Env) (st : SchedulerState) :
    SchedulerSnapshot * (SchedulerState * list Delivery) :=
  let '(st, out) := dispatch sh env st in
  ({| snap_capacity := capacity st; snap_active_jobs := active_jobs st;
      snap_waiting_jobs := length (waiting st);
      snap_active_memory_mib := active_memory_mib st;
      snap_active_io_mib := active_io_mib st;
      snap_active_cpu_units := active_cpu_units st;
      snap_accepting := accepting st |}, (st, out)).

(** [Drop for ExecutionPermit]; a permit whose cost was taken does nothing. *)
Definition permit_drop (sh : Shared) (env : Env) (k : option JobResourceCost)
    (st : SchedulerState) : SchedulerState * list Delivery :=
  match k with
  | None => (st, [])
  | Some k => dispatch sh env (release k st)
  end.

(** [Drop for WaitingRegistration]: the caller of [acquire] went away. *)
Definition registration_drop (sh : Shared) (env : Env) (seq : Z) (armed : bool)
    (st : SchedulerState) : SchedulerState * list Delivery :=
  if negb armed then (st, [])
  else match list_find (λ w, sequence w = seq) (waiting st) with
       | Some (index, _) => dispatch sh env (st <| waiting ::= delete index |>)
       | None => (st, [])
       end.

(** The timer of [schedule_capacity_refresh] fires. *)
Definition refresh_tick (sh : Shared) (env : Env) (st : SchedulerState) :
    SchedulerState * list Delivery :=
  dispatch sh env (st <| refresh_wakeup_scheduled := false |>).

(** ** The running daemon

    A world is the scheduler's state with the permits that were delivered and
    not dropped yet, by the sequence number of their request.  Its steps are
    the critical sections, in any order and under any environment. *)

Record World := mkWorld {
  scheduler : SchedulerState;
  permits : list (Z * JobResourceCost);
}.

(** The permits among the deliveries. *)
Definition granted (out : list Delivery) : list (Z * JobResourceCost) :=
  omap (λ d, (λ k, (d.1, k)) <$> to_option d.2) out.

Definition deliver (held : list (Z * JobResourceCost)) (r : SchedulerState * list Delivery) :
    World :=
  {| scheduler := r.1; permits := held ++ granted r.2 |}.

Definition env_ok (env : Env) : Prop := sample_ok (provider_sample env).

(** The sections that hold the lock of the state: what each leaves and sends,
    and the permits that are held meanwhile. *)
Inductive critical_section (sh : Shared) (w : World) (env : Env) :
    list (Z * JobResourceCost) → SchedulerState * list Delivery → Prop :=
  | section_acquire k :
      cost_ok k → critical_section sh w env (permits w) (acquire sh env k (scheduler w)).2
  | section_permit_drop before p after :
      permits w = before ++ p :: after →
      critical_section sh w env (before ++ after) (permit_drop sh env (Some p.2) (scheduler w))
  | section_registration_drop seq armed :
      critical_section sh w env (permits w) (registration_drop sh env seq armed (scheduler w))
  | section_refresh_tick :
      critical_section sh w env (permits w) (refresh_tick sh env (scheduler w))
  | section_snapshot :
      critical_section sh w env (permits w) (snapshot sh env (scheduler w)).2
  | section_close :
      critical_section sh w env (permits w) (close env (scheduler w)).

Inductive step (sh : Shared) : World → World → Prop :=
  | step_section w env held r :
      env_ok env → critical_section sh w env held r → step sh w (deliver held r).

Definition initial (c : SchedulerCapacity) : World :=
  {| scheduler := scheduler_new c; permits := [] |}.

Definition reachable (sh : Shared) (c : SchedulerCapacity) : World → Prop :=
  rtc (step sh) (initial c).

(** ** Accounting *)

Definition total (f : JobResourceCost → Z) (ps : list (Z * JobResourceCost)) : Z :=
  foldr (λ p acc, f p.2 + acc) 0 ps.

Lemma total_app f ps qs : total f (ps ++ qs) = total f ps + total f qs.
Proof. induction ps as [|p ps IH]; simpl; [done|]. rewrite IH. lia. Qed.

Lemma total_bounds f ps m :
  Forall (λ p, 0 ≤ f p.2 ≤ m) ps → 0 ≤ total f ps ≤ m * zlength ps.
Proof. induction 1 as [|p ps Hp _ IH]; simpl; lia. Qed.

(** The counters of the scheduler are the sums over the permits held. *)
Record accounts (st : SchedulerState) (ps : list (Z * JobResourceCost)) : Prop := {
  acc_jobs : active_jobs st = zlength ps;
  acc_memory : active_memory_mib st = total memory_mib ps;
  acc_io : active_io_mib st = total io_mib ps;
  acc_cpu : active_cpu_units st = total cost_cpu_units ps;
}.

Record inv (st : SchedulerState) (ps : list (Z * JobResourceCost)) : Prop := {
  inv_capacity : capacity_ok (capacity st);
  inv_pending_memory x : pending_memory_increase_mib st = Some x → 1 ≤ x < u64_max;
  inv_pending_cpu x : pending_cpu_increase st = Some x → 1 ≤ x < u64_max;
  inv_waiting : Forall (λ w, cost_ok (cost w)) (waiting st);
  inv_permits : Forall (λ p, cost_ok p.2) ps;
  inv_accounts : accounts st ps;
  inv_limit : zlength ps ≤ max_active_jobs (capacity st);
}.

(** With at most 1024 permits of estimated cost, no counter saturates. *)
Lemma totals_small ps :
  Forall (λ p, cost_ok p.2) ps → zlength ps ≤ 1024 →
  0 ≤ total memory_mib ps ≤ 917504 ∧ 0 ≤ total io_mib ps ≤ 144115188075855872 ∧
  0 ≤ total cost_cpu_units ps ≤ 4096.
Proof.
  intros Hps Hlen.
  pose proof (total_bounds memory_mib ps 896) as Hm.
  pose proof (total_bounds io_mib ps 140737488355328) as Hi.
  pose proof (total_bounds cost_cpu_units ps 4) as Hc.
  split_and!; try (apply Hm || apply Hi || apply Hc;
    eapply Forall_impl; [done|]; unfold cost_ok; intros; lia);
  [ etrans; [apply Hm|] | etrans; [apply Hi|] | etrans; [apply Hc|] ]; try lia;
    (eapply Forall_impl; [done|]; unfold cost_ok; intros; lia).
Qed.

Lemma reserve_accounts st ps s k :
  accounts st ps → Forall (λ p, cost_ok p.2) ps → zlength ps < 1024 → cost_ok k →
  accounts (reserve k st) (ps ++ [(s, k)]).
Proof.
  intros [Hj Hm Hi Hc] Hps Hlen (Km & Ki & Kc).
  destruct (totals_small ps Hps ltac:(lia)) as (?&?&?).
  constructor; simpl; rewrite ?length_app, ?total_app; simpl;
    rewrite ?Hj, ?Hm, ?Hi, ?Hc; int_lia.
Qed.

Lemma release_accounts st before p after :
  accounts st (before ++ p :: after) → Forall (λ p, cost_ok p.2) (before ++ p :: after) →
  zlength (before ++ p :: after) ≤ 1024 →
  accounts (release p.2 st) (before ++ after).
Proof.
  intros [Hj Hm Hi Hc] Hps Hlen.
  assert (Forall (λ p, cost_ok p.2) (before ++ after)) as Hba
    by (apply Forall_app; apply Forall_app in Hps as [? H']; by inversion H').
  destruct (totals_small (before ++ after) Hba) as (?&?&?).
  { rewrite length_app in *. simpl in *. lia. }
  revert Hj Hm Hi Hc. rewrite !total_app in *. simpl. intros.
  constructor; simpl; rewrite ?length_app, ?total_app in *; simpl in *; int_lia.
Qed.

Lemma release_reserve st ps k :
  accounts st ps → Forall (λ p, cost_ok p.2) ps → zlength ps < 1024 → cost_ok k →
  release k (reserve k st) = st.
Proof.
  intros [Hj Hm Hi Hc] Hps Hlen (Km & Ki & Kc).
  destruct (totals_small ps Hps ltac:(lia)) as (?&?&?).
  apply state_ext; try done; simpl; apply sat_sub_add; int_lia.
Qed.

(** ** The invariant is preserved *)

Lemma apply_capacity_sample_bounds current pending candidate current' pending' :
  apply_capacity_sample current pending candidate = (current', pending') →
  1 ≤ current < u64_max → 1 ≤ candidate < u64_max →
  (∀ x, pending = Some x → 1 ≤ x < u64_max) →
  1 ≤ current' ≤ candidate ∧ current' < u64_max ∧
  (∀ x, pending' = Some x → 1 ≤ x < u64_max).
Proof.
  unfold apply_capacity_sample. intros Heq Hc Hk Hp.
  case_match; to_prop; simplify_eq; [naive_solver lia|].
  destruct pending as [x|]; simplify_eq; [|naive_solver lia].
  specialize (Hp x eq_refl). split_and!; naive_solver lia.
Qed.

Lemma candidate_bounds env :
  env_ok env →
  1 ≤ memory_budget_from_available
        (default FALLBACK_AVAILABLE_MEMORY_MIB
           (available_memory_mib (provider_sample env))) < u64_max.
Proof.
  intros [Hm _]. apply memory_budget_from_available_ok.
  destruct (available_memory_mib (provider_sample env)) as [a|] eqn:E; simpl;
    [by apply Hm|unfold FALLBACK_AVAILABLE_MEMORY_MIB; int_lia].
Qed.

Lemma refresh_memory_inv env st ps :
  env_ok env → inv st ps → inv (refresh_memory env st) ps.
Proof.
  intros Henv [[Hc1 [Hc2 [Hc3 Hc4]]] Hpm Hpc Hw Hps [Hj Hm Hi Hc] Hl].
  unfold refresh_memory. case_match.
  - destruct (apply_capacity_sample _ _ _) as [cur pend] eqn:E.
    eapply apply_capacity_sample_bounds in E as (?&?&?); eauto using candidate_bounds.
    split; try done; unfold capacity_ok; simpl; lia.
  - split; try done; unfold capacity_ok; simpl; int_lia.
Qed.

Lemma refresh_cpu_inv env st ps :
  env_ok env → inv st ps → inv (refresh_cpu env st) ps.
Proof.
  intros [_ Henv] [[Hc1 [Hc2 [Hc3 Hc4]]] Hpm Hpc Hw Hps [Hj Hm Hi Hc] Hl].
  unfold refresh_cpu. case_match.
  - destruct (apply_capacity_sample _ _ _) as [cur pend] eqn:E.
    eapply apply_capacity_sample_bounds in E as (?&?&?); eauto.
    + split; try done; unfold capacity_ok; simpl; lia.
    + destruct (sample_cpu_units (provider_sample env)) as [n|]; simpl; [|int_lia].
      specialize (Henv n eq_refl). int_lia.
  - split; try done; unfold capacity_ok; simpl; int_lia.
Qed.

Lemma refresh_capacity_inv sh env st ps :
  env_ok env → inv st ps → inv (refresh_capacity sh env st) ps.
Proof.
  intros. unfold refresh_capacity.
  repeat case_match; auto using refresh_memory_inv, refresh_cpu_inv.
Qed.

(** Changing only the queue, the sequence counter or the wakeup flag. *)
Lemma inv_requeue st st' ps :
  inv st ps → Forall (λ w, cost_ok (cost w)) (waiting st') →
  capacity st' = capacity st →
  pending_memory_increase_mib st' = pending_memory_increase_mib st →
  pending_cpu_increase st' = pending_cpu_increase st →
  active_jobs st' = active_jobs st → active_memory_mib st' = active_memory_mib st →
  active_io_mib st' = active_io_mib st → active_cpu_units st' = active_cpu_units st →
  inv st' ps.
Proof.
  intros [Hc Hpm Hpc Hw Hps [Hj Hm Hi Hcpu] Hl] Hw' E1 E2 E3 E4 E5 E6 E7.
  split; rewrite ?E1, ?E2, ?E3; auto. split; congruence.
Qed.

Lemma reject_expired_unfit_sublist sh env c ws :
  (reject_expired_unfit sh env c ws).1 `sublist_of` ws.
Proof.
  induction ws as [|w ws IH]; simpl; [done|].
  destruct (reject_expired_unfit sh env c ws) as [kept out]. simpl in IH.
  case_match; by constructor.
Qed.

Lemma reject_expired_unfit_granted sh env c ws :
  granted (reject_expired_unfit sh env c ws).2 = [].
Proof.
  induction ws as [|w ws IH]; simpl; [done|].
  destruct (reject_expired_unfit sh env c ws) as [kept out]. simpl in IH.
  case_match; simpl; [|done]. unfold send. by case_match.
Qed.

Lemma Forall_sublist {A} (P : A → Prop) l k : l `sublist_of` k → Forall P k → Forall P l.
Proof. induction 1; inversion 1; simplify_eq; eauto. Qed.

Lemma reject_inv sh env st ps :
  inv st ps →
  inv (reject_expired_unfit_jobs sh env st).1
    (ps ++ granted (reject_expired_unfit_jobs sh env st).2).
Proof.
  intros Hinv. unfold reject_expired_unfit_jobs. case_match; simpl;
    [by rewrite app_nil_r|].
  pose proof (reject_expired_unfit_sublist sh env (capacity st) (waiting st)) as Hsub.
  pose proof (reject_expired_unfit_granted sh env (capacity st) (waiting st)) as Hg.
  destruct (reject_expired_unfit sh env (capacity st) (waiting st)) as [kept out].
  simpl in *. rewrite Hg, app_nil_r. eapply inv_requeue; try done.
  simpl. eapply Forall_sublist; [done|apply Hinv].
Qed.

(** ** One turn of the loop *)

Lemma note_bypass_lookup index ws : note_bypass index ws !! index = ws !! index.
Proof. by destruct index, ws. Qed.

Lemma note_bypass_costs P index ws :
  Forall (λ w, P (sequence w) (cost w)) ws →
  Forall (λ w, P (sequence w) (cost w)) (note_bypass index ws).
Proof. by destruct index; destruct 1; simpl; try constructor. Qed.

(** The job [runnable_index] picks, and why it may run. *)
Record runnable (sh : Shared) (env : Env) (st : SchedulerState) (index : nat)
    (w : WaitingJob) : Prop := {
  run_lookup : waiting st !! index = Some w;
  run_fits : fits (capacity st) st (cost w) = true ∨
             (index = 0%nat ∧ active_jobs st = 0 ∧
              fits_hard_memory (capacity st) (cost w) = true);
  run_bypass head i : index = S i → waiting st !! 0%nat = Some head →
    fits_hard_memory (capacity st) (cost head) = false ∨
    head_is_starving sh env head = false;
}.

Lemma runnable_index_Some sh env st index :
  runnable_index sh env st = Some index → ∃ w, runnable sh env st index w.
Proof.
  unfold runnable_index. destruct (waiting st) as [|head rest] eqn:Hw; [done|].
  destruct (_ || _) eqn:Hh.
  { intros [= <-]. exists head. split; [by rewrite Hw| |done].
    apply orb_true_iff in Hh as [|[? ?]%andb_true_iff]; [by left|right].
    by rewrite <-Z.eqb_eq. }
  destruct (negb _ && _) eqn:Hs; [done|].
  intros ([i w] & Hf & [= <-])%bind_Some. exists w.
  apply list_find_Some in Hf as (Hl & Hp & _). apply Is_true_true, andb_true_iff in Hp as [_ ?].
  split; [by rewrite Hw|by left|].
  intros head' j _. rewrite Hw. intros [= <-].
  destruct (fits_hard_memory _ _); [|by left]. rewrite andb_false_r in Hs. by right.
Qed.

(** A state with another queue. *)
Abbreviation with_waiting st ws := (st <| waiting := ws |>).

Lemma dispatch_step_Some sh env st st' out :
  dispatch_step sh env st = Some (st', out) →
  accepting st = true ∧ active_jobs st < max_active_jobs (capacity st) ∧
  ∃ index w, runnable sh env st index w ∧
    let taken := with_waiting st (delete index (note_bypass index (waiting st))) in
    out = send env w (Ok (cost w)) ∧
    st' = if receiver_open env (sequence w) then reserve (cost w) taken
          else release (cost w) (reserve (cost w) taken).
Proof.
  unfold dispatch_step. destruct (_ && _) eqn:Hg; [|done]. to_prop.
  intros (index & Hi & (w & Hw & [= <- <-])%bind_Some)%bind_Some.
  split_and!; try done.
  apply runnable_index_Some in Hi as Hr. destruct Hr as [w' Hr].
  rewrite note_bypass_lookup in Hw. pose proof (run_lookup _ _ _ _ _ Hr).
  simplify_eq. exists index, w. done.
Qed.

Lemma dispatch_step_length sh env st st' out :
  dispatch_step sh env st = Some (st', out) → length (waiting st) = S (length (waiting st')).
Proof.
  intros (_ & _ & index & w & Hr & _ & ->)%dispatch_step_Some.
  pose proof (run_lookup _ _ _ _ _ Hr) as Hl. apply lookup_lt_Some in Hl.
  assert (length (note_bypass index (waiting st)) = length (waiting st)) as Hn
    by (by destruct index, (waiting st)).
  transitivity (S (length (delete index (note_bypass index (waiting st)))));
    [rewrite length_delete; rewrite ?Hn; [lia|apply lookup_lt_is_Some; lia]|by case_match].
Qed.

Lemma dispatch_step_inv sh env st ps st' out :
  inv st ps → dispatch_step sh env st = Some (st', out) → inv st' (ps ++ granted out).
Proof.
  intros Hinv (_ & Hlt & index & w & Hr & -> & ->)%dispatch_step_Some.
  pose proof Hinv as [Hc Hpm Hpc Hw Hps Hacc Hl].
  assert (cost_ok (cost w)) as Hk
    by (eapply (Forall_lookup_1 _ _ _ _ Hw), (run_lookup _ _ _ _ _ Hr)).
  assert (zlength ps < 1024) as Hlen by (rewrite <-(acc_jobs _ _ Hacc); destruct Hc; lia).
  set (taken := with_waiting st _).
  assert (inv taken ps) as Ht.
  { eapply inv_requeue; try done. simpl. apply Forall_delete.
    by apply (note_bypass_costs (λ _, cost_ok)). }
  unfold send. case_match; simpl.
  - destruct Ht as [? ? ? ? ? ? _]. split; try done.
    + apply Forall_app_2; [done|]. by apply Forall_singleton.
    + by apply reserve_accounts.
    + rewrite length_app. simpl in *. rewrite (acc_jobs _ _ Hacc) in Hlt. lia.
  - rewrite app_nil_r, (release_reserve _ ps); auto. by destruct Ht.
Qed.

Lemma granted_app out out' : granted (out ++ out') = granted out ++ granted out'.
Proof. apply omap_app. Qed.

(** What holds of the state and the deliveries so far at every turn holds at
    the end of the loop. *)
Lemma dispatch_loop_preserves (P : SchedulerState → list Delivery → Prop) sh env :
  (∀ st acc st' out, P st acc → dispatch_step sh env st = Some (st', out) →
     P st' (acc ++ out)) →
  ∀ fuel st acc, P st acc →
    P (dispatch_loop fuel sh env st).1 (acc ++ (dispatch_loop fuel sh env st).2).
Proof.
  intros Hstep. induction fuel as [|fuel IH]; simpl; intros st acc HP;
    [by rewrite app_nil_r|].
  destruct (dispatch_step sh env st) as [[st' out]|] eqn:E; simpl; [|by rewrite app_nil_r].
  specialize (IH st' (acc ++ out) (Hstep _ _ _ _ HP E)).
  destruct (dispatch_loop fuel sh env st') as [st'' out']. simpl in *. by rewrite app_assoc.
Qed.

(** The same for the whole of [dispatch], stage by stage. *)
Lemma dispatch_preserves (P : SchedulerState → list Delivery → Prop) sh env st :
  P (refresh_capacity sh env st) [] →
  (∀ st, P st [] → P (reject_expired_unfit_jobs sh env st).1
                     (reject_expired_unfit_jobs sh env st).2) →
  (∀ st acc st' out, P st acc → dispatch_step sh env st = Some (st', out) →
     P st' (acc ++ out)) →
  (∀ st acc, P st acc → P (st <| refresh_wakeup_scheduled := true |>) acc) →
  P (dispatch sh env st).1 (dispatch sh env st).2.
Proof.
  intros Hr Hj Hs Hw. unfold dispatch, schedule_capacity_refresh.
  specialize (Hj _ Hr).
  destruct (reject_expired_unfit_jobs _ _ _) as [st1 rejected]. simpl in Hj.
  pose proof (dispatch_loop_preserves P sh env Hs (S (length (waiting st1))) st1 _ Hj) as H.
  destruct (dispatch_loop _ _ _ _) as [st2 out]. simpl in *. repeat case_match; auto.
Qed.

Lemma dispatch_inv sh env st ps :
  env_ok env → inv st ps →
  inv (dispatch sh env st).1 (ps ++ granted (dispatch sh env st).2).
Proof.
  intros Henv Hinv.
  apply (dispatch_preserves (λ st acc, inv st (ps ++ granted acc))).
  - simpl. rewrite app_nil_r. by apply refresh_capacity_inv.
  - simpl. intros st0. rewrite app_nil_r. apply reject_inv.
  - intros st0 acc st' out H ?. rewrite granted_app, app_assoc. by eapply dispatch_step_inv.
  - intros st0 acc H. by eapply inv_requeue; try apply H.
Qed.

(** The parts of a capacity that a refresh never changes. *)
Definition same_limits (sh : Shared) (c c' : SchedulerCapacity) : Prop :=
  mode c' = mode c ∧ max_active_jobs c' = max_active_jobs c ∧
  io_budget_mib c' = io_budget_mib c ∧
  (auto_memory_budget sh = false → memory_budget_mib c' = memory_budget_mib c) ∧
  (auto_cpu_units sh = false → cpu_units c' = cpu_units c).

Lemma refresh_capacity_limits sh env st :
  same_limits sh (capacity st) (capacity (refresh_capacity sh env st)).
Proof.
  unfold refresh_capacity, refresh_memory, refresh_cpu, same_limits.
  repeat case_match; simpl; split_and!; congruence.
Qed.

Lemma reject_frame sh env st :
  ∃ ws, (reject_expired_unfit_jobs sh env st).1 = with_waiting st ws.
Proof.
  unfold reject_expired_unfit_jobs. case_match.
  - exists (waiting st). by destruct st.
  - destruct (reject_expired_unfit _ _ _ _) as [kept out]. by exists kept.
Qed.

Lemma dispatch_step_frame sh env st st' out :
  dispatch_step sh env st = Some (st', out) →
  capacity st' = capacity st ∧ accepting st' = accepting st ∧
  next_sequence st' = next_sequence st.
Proof. intros (_ & _ & index & w & _ & _ & ->)%dispatch_step_Some. by case_match. Qed.

Lemma dispatch_capacity sh env st :
  capacity (dispatch sh env st).1 = capacity (refresh_capacity sh env st) ∧
  accepting (dispatch sh env st).1 = accepting st ∧
  next_sequence (dispatch sh env st).1 = next_sequence st.
Proof.
  assert (accepting (refresh_capacity sh env st) = accepting st ∧
          next_sequence (refresh_capacity sh env st) = next_sequence st) as [Ha Hn].
  { unfold refresh_capacity, refresh_memory, refresh_cpu. by repeat case_match. }
  rewrite <-Ha, <-Hn.
  apply (dispatch_preserves (λ st' _, capacity st' = capacity (refresh_capacity sh env st) ∧
     accepting st' = accepting (refresh_capacity sh env st) ∧
     next_sequence st' = next_sequence (refresh_capacity sh env st))); [done| | |done].
  - intros st0 ?. destruct (reject_frame sh env st0) as [ws ->]. done.
  - intros st0 acc st' out (?&?&?) (?&?&?)%dispatch_step_frame. split_and!; congruence.
Qed.

Lemma dispatch_limits sh env st :
  same_limits sh (capacity st) (capacity (dispatch sh env st).1).
Proof.
  destruct (dispatch_capacity sh env st) as (-> & _). apply refresh_capacity_limits.
Qed.

(** ** Reachable worlds *)

Definition world_inv (sh : Shared) (c : SchedulerCapacity) (w : World) : Prop :=
  inv (scheduler w) (permits w) ∧ same_limits sh c (capacity (scheduler w)).

Lemma same_limits_trans sh c c' c'' :
  same_limits sh c c' → same_limits sh c' c'' → same_limits sh c c''.
Proof. unfold same_limits. intuition congruence. Qed.

(** A step that ends in [dispatch]. *)
Lemma dispatch_world_inv sh env c st held :
  env_ok env → inv st held → same_limits sh c (capacity st) →
  world_inv sh c (deliver held (dispatch sh env st)).
Proof.
  intros Henv Hinv Hc. split; [by apply dispatch_inv|].
  eapply same_limits_trans; [done|]. apply dispatch_limits.
Qed.

Lemma release_inv st before p after :
  inv st (before ++ p :: after) → inv (release p.2 st) (before ++ after).
Proof.
  intros [Hc Hpm Hpc Hw Hps Hacc Hl].
  assert (zlength (before ++ p :: after) ≤ 1024) as Hlen by (destruct Hc; lia).
  split; try done.
  - apply Forall_app in Hps as [? H']. inversion H'. by apply Forall_app_2.
  - by apply release_accounts.
  - simpl. rewrite length_app in *. simpl in *. lia.
Qed.

Lemma close_granted env st : granted (close env st).2 = [].
Proof.
  simpl. induction (waiting st) as [|w ws IH]; [done|]. simpl.
  rewrite granted_app, IH. unfold send. by case_match.
Qed.

(** What a critical section does before it calls [dispatch]: the state it
    calls it with and the permits that are left. *)
Inductive prepares (sh : Shared) (w : World) (env : Env) :
    SchedulerState → list (Z * JobResourceCost) → Prop :=
  | prepares_queue k :
      cost_ok k → accepting (scheduler w) = true →
      structurally_exceeds_fixed_budget sh (scheduler w) k = false →
      prepares sh w env
        ((scheduler w)
           <| next_sequence := wrapping_add u64_max (next_sequence (scheduler w)) 1 |>
           <| waiting := waiting (scheduler w) ++
                [{| sequence := next_sequence (scheduler w); queued_at := now env;
                    bypasses := 0; cost := k |}] |>)
        (permits w)
  | prepares_release before p after :
      permits w = before ++ p :: after →
      prepares sh w env (release p.2 (scheduler w)) (before ++ after)
  | prepares_cancel index :
      prepares sh w env ((scheduler w) <| waiting ::= delete index |>) (permits w)
  | prepares_tick :
      prepares sh w env ((scheduler w) <| refresh_wakeup_scheduled := false |>) (permits w)
  | prepares_nothing : prepares sh w env (scheduler w) (permits w).

Lemma section_cases sh w env held r :
  critical_section sh w env held r →
  held = permits w ∧ r = (scheduler w, []) ∨
  held = permits w ∧ r = close env (scheduler w) ∨
  ∃ st, prepares sh w env st held ∧ r = dispatch sh env st.
Proof.
  intros [k Hk|before p after Hp|seq armed| | |].
  - unfold acquire. destruct (accepting (scheduler w)) eqn:Ha; [|by left].
    simpl. destruct (structurally_exceeds_fixed_budget _ _ _) eqn:Hx; [by left|].
    right; right. eexists. split; [by apply (prepares_queue _ _ _ k)|done].
  - right; right. eexists. split; [by eapply prepares_release|done].
  - unfold registration_drop. repeat case_match; try by left.
    right; right. eexists. split; [by eapply prepares_cancel|done].
  - right; right. eexists. split; [by eapply prepares_tick|done].
  - right; right. eexists. split; [by eapply prepares_nothing|].
    unfold snapshot. by destruct (dispatch _ _ _).
  - by right; left.
Qed.

Lemma step_cases sh w w' :
  step sh w w' →
  w' = w ∨
  (∃ env, w' = {| scheduler := (close env (scheduler w)).1; permits := permits w |}) ∨
  (∃ env st held, env_ok env ∧ prepares sh w env st held ∧
     w' = deliver held (dispatch sh env st)).
Proof.
  intros [w0 env held r Henv [[-> ->]|[[-> ->]|(st & Hp & ->)]]%section_cases].
  - left. destruct w0. unfold deliver. simpl. by rewrite app_nil_r.
  - right; left. exists env. unfold deliver. by rewrite close_granted, app_nil_r.
  - right; right. eauto 6.
Qed.

Lemma prepares_inv sh w env st held :
  inv (scheduler w) (permits w) → prepares sh w env st held →
  inv st held ∧ capacity st = capacity (scheduler w).
Proof.
  intros Hinv [k Hk _ _|before p after Hp|index| |]; (split; [|done]).
  - eapply inv_requeue; try done. simpl.
    apply Forall_app_2; [apply Hinv|by apply Forall_singleton].
  - apply release_inv. by rewrite <-Hp.
  - eapply inv_requeue; try done. simpl. apply Forall_delete, Hinv.
  - by eapply inv_requeue; try apply Hinv.
  - done.
Qed.

Lemma step_world_inv sh c w w' : world_inv sh c w → step sh w w' → world_inv sh c w'.
Proof.
  intros [Hinv Hc] [->|[[env ->]|(env & st & held & Henv & Hp & ->)]]%step_cases.
  - done.
  - split; [|done]. eapply inv_requeue; [apply Hinv|apply Forall_nil_2|done..].
  - destruct (prepares_inv _ _ _ _ _ Hinv Hp) as [Hi Hcap].
    apply dispatch_world_inv; [done..|]. by rewrite Hcap.
Qed.

Lemma reachable_inv sh c w : capacity_ok c → reachable sh c w → world_inv sh c w.
Proof.
  intros Hc. unfold reachable.
  assert (world_inv sh c (initial c)) as H0.
  { split; [|by split_and!]. split; simpl; try done.
    destruct Hc; lia. }
  revert H0. generalize (initial c). intros w0 H0 Hr. revert H0.
  induction Hr; eauto using step_world_inv.
Qed.

(** ** Accounting theorem *)

(** C1. The scheduler's books always balance.  In every reachable state the
    active-job counter is the number of permits held and never exceeds the
    configured limit, and the memory, I/O and CPU counters are exactly the sums
    of the costs of those permits (no saturating operation ever loses a unit),
    whatever the interleaving of requests, cancellations, drops, refreshes and
    shutdown. *)
Theorem scheduler_accounting_exact cfg max_upload max_total sample w :
  config_unsigned cfg → validate_scheduler_config cfg = Ok tt →
  is_u64 max_upload → is_u64 max_total → sample_ok sample →
  let c := detect_with_provider cfg max_upload max_total sample in
  reachable (scheduler_shared cfg) c w →
  active_jobs (scheduler w) = zlength (permits w) ∧
  active_jobs (scheduler w) ≤ max_active_jobs c ∧
  active_memory_mib (scheduler w) = total memory_mib (permits w) ∧
  active_io_mib (scheduler w) = total io_mib (permits w) ∧
  active_cpu_units (scheduler w) = total cost_cpu_units (permits w).
Proof.
  intros Hu Hv Hmu Hmt Hs c Hr.
  apply reachable_inv in Hr as [[_ _ _ _ _ [] Hl] (_ & Hmax & _)];
    [|by apply detect_capacity_ok].
  split_and!; try done. by rewrite <-Hmax, acc_jobs0.
Qed.

(** ** Budgets *)

(** The state respects the budgets: memory always, I/O and CPU unless a single
    job runs alone. *)
Definition within_budgets (st : SchedulerState) : Prop :=
  active_memory_mib st ≤ memory_budget_mib (capacity st) ∧
  ((active_io_mib st ≤ io_budget_mib (capacity st) ∧
    active_cpu_units st ≤ cpu_units (capacity st)) ∨ active_jobs st = 1).

Lemma reserve_within_budgets sh env st ps index w :
  inv st ps → mode (capacity st) = Dynamic → runnable sh env st index w →
  active_jobs st < max_active_jobs (capacity st) →
  within_budgets (reserve (cost w) st).
Proof.
  intros [Hc _ _ Hw _ Hacc _] Hmode Hr Hlt.
  pose proof (Forall_lookup_1 _ _ _ _ Hw (run_lookup _ _ _ _ _ Hr)) as (Km & Ki & Kc).
  destruct (run_fits _ _ _ _ _ Hr) as [Hf|(_ & H0 & Hf)].
  - unfold fits in Hf. rewrite bool_decide_false in Hf by congruence. to_prop.
    split; simpl; [done|]. by left.
  - unfold fits_hard_memory in Hf. rewrite bool_decide_false in Hf by congruence.
    simpl in Hf. to_prop. destruct Hacc as [Hj Hm _ _].
    assert (ps = []) as -> by (destruct ps; [done|]; simpl in *; lia).
    split; simpl; rewrite ?Hm, ?H0; simpl; [int_lia|right; int_lia].
Qed.

Lemma dispatch_step_within_budgets sh env st ps st' out :
  inv st ps → mode (capacity st) = Dynamic →
  dispatch_step sh env st = Some (st', out) →
  granted out ≠ [] ∨ within_budgets st → within_budgets st'.
Proof.
  intros Hinv Hmode (_ & Hlt & index & w & Hr & -> & ->)%dispatch_step_Some Hor.
  pose proof Hinv as [Hc _ _ Hw Hps Hacc Hl].
  unfold send in *. case_match.
  - pose proof (reserve_within_budgets _ _ _ _ _ _ Hinv Hmode Hr Hlt) as Hb. exact Hb.
  - destruct Hor as [|Hb]; [done|]. rewrite (release_reserve _ ps); auto.
    + by destruct Hacc.
    + rewrite <-(acc_jobs _ _ Hacc). destruct Hc; lia.
    + eapply (Forall_lookup_1 _ _ _ _ Hw), (run_lookup _ _ _ _ _ Hr).
Qed.

(** [dispatch] hands out permits only within the budgets it has just refreshed,
    and keeps budgets that were respected. *)
Lemma dispatch_within_budgets sh env st ps :
  env_ok env → inv st ps → mode (capacity st) = Dynamic →
  granted (dispatch sh env st).2 ≠ [] ∨ within_budgets (refresh_capacity sh env st) →
  within_budgets (dispatch sh env st).1.
Proof.
  intros Henv Hinv Hmode.
  apply (dispatch_preserves (λ st' acc, inv st' (ps ++ granted acc) ∧
    mode (capacity st') = Dynamic ∧
    (granted acc ≠ [] ∨ within_budgets (refresh_capacity sh env st) → within_budgets st'))).
  - split_and!.
    + simpl. rewrite app_nil_r. by apply refresh_capacity_inv.
    + destruct (refresh_capacity_limits sh env st) as (-> & _). done.
    + simpl. naive_solver.
  - intros st0 (Hi & Hm & Hb). simpl in Hi. rewrite app_nil_r in Hi.
    pose proof (reject_inv sh env st0 ps Hi) as Hi'.
    assert (granted (reject_expired_unfit_jobs sh env st0).2 = []) as Hg.
    { unfold reject_expired_unfit_jobs. case_match; [done|].
      pose proof (reject_expired_unfit_granted sh env (capacity st0) (waiting st0)).
      by destruct (reject_expired_unfit _ _ _ _). }
    rewrite Hg in *. split_and!; [done|..]; destruct (reject_frame sh env st0) as [ws ->];
      [done|exact Hb].
  - intros st0 acc st' out (Hi & Hm & Hb) Hs. rewrite granted_app. split_and!.
    + rewrite app_assoc. by eapply dispatch_step_inv.
    + apply dispatch_step_frame in Hs as (-> & _). done.
    + intros Hor. eapply dispatch_step_within_budgets; try done.
      destruct (granted out); [|by left]. right. apply Hb. by rewrite app_nil_r in Hor.
  - intros st0 acc (Hi & Hm & Hb). split_and!; [by eapply inv_requeue; try apply Hi|done|].
    exact Hb.
Qed.

Lemma refresh_memory_below_measure sh env st ps a :
  env_ok env → inv st ps → auto_memory_budget sh = true →
  memory_valid (provider_sample env) = true →
  available_memory_mib (provider_sample env) = Some a →
  memory_budget_mib (capacity (refresh_capacity sh env st)) ≤ memory_budget_from_available a.
Proof.
  intros Henv [[_ [Hm _]] Hp _ _ _ _ _] Hauto Hv Ha.
  pose proof (candidate_bounds env Henv) as Hb. rewrite Ha in Hb. simpl in Hb.
  assert (memory_budget_mib (capacity (refresh_memory env st)) ≤
          memory_budget_from_available a) as H.
  { unfold refresh_memory. rewrite Hv, Ha. simpl.
    destruct (apply_capacity_sample _ _ _) as [cur pend] eqn:E.
    eapply apply_capacity_sample_bounds in E as (?&?&?); eauto. simpl. lia. }
  unfold refresh_capacity, refreshes_capacity. rewrite Hauto. simpl.
  case_match; [|done]. unfold refresh_cpu. repeat case_match; exact H.
Qed.

(** C25. Permits are only handed out within the budgets.  Whenever a critical section
    of a dynamic scheduler grants a permit, be it a request that arrives, a permit
    or a request that is dropped, a refresh of the capacity or a snapshot, all jobs
    together then fit the memory budget, and the I/O and CPU budgets too unless
    exactly one job runs; with an automatic memory budget they fit in three
    fifths of the memory the host reports as available in that section. *)
Theorem dispatch_respects_budgets sh c w env held r :
  capacity_ok c → mode c = Dynamic → reachable sh c w → env_ok env →
  critical_section sh w env held r → granted r.2 ≠ [] →
  within_budgets r.1 ∧
  (∀ a, auto_memory_budget sh = true → memory_valid (provider_sample env) = true →
        available_memory_mib (provider_sample env) = Some a →
        active_memory_mib r.1 ≤ Z.max 1 (3 * a / 5)).
Proof.
  intros Hc Hmode [Hinv (Hm & _)]%reachable_inv Henv Hsec Hg; [|done].
  apply section_cases in Hsec as [[_ ->]|[[_ ->]|(st & Hp & ->)]];
    [done|by rewrite close_granted in Hg|].
  destruct (prepares_inv _ _ _ _ _ Hinv Hp) as [Hi Hcap].
  assert (within_budgets (dispatch sh env st).1) as Hb
    by (eapply dispatch_within_budgets; [done..|congruence|by left]).
  split; [done|]. intros a Hauto Hv Ha. etrans; [apply Hb|].
  destruct (dispatch_capacity sh env st) as (-> & _).
  etrans; [by eapply refresh_memory_below_measure|].
  unfold memory_budget_from_available.
  enough (u64_sat_mul a 3 / 5 ≤ 3 * a / 5) by lia. apply Z.div_le_mono; int_lia.
Qed.

Lemma release_within_budgets st before p after :
  inv st (before ++ p :: after) → within_budgets st → within_budgets (release p.2 st).
Proof.
  intros Hinv [Hm Hor]. pose proof (release_inv _ _ _ _ Hinv) as [(_ & Hc) _ _ _ _ [Hj Hm' Hi' Hc'] _].
  simpl in Hc.
  destruct Hinv as [_ _ _ _ Hps [Hj0 _ _ _] _].
  apply Forall_app in Hps as [_ [(? & ? & ?) _]%Forall_cons].
  split; [simpl; int_lia|]. destruct Hor as [[? ?]|Hone]; [left; simpl; int_lia|].
  assert (before ++ after = []) as E.
  { apply length_zero_iff_nil. rewrite length_app in *. simpl in *. lia. }
  left. rewrite E in *. rewrite Hi', Hc'. simpl in *. lia.
Qed.

Lemma step_within_budgets sh c w w' :
  auto_memory_budget sh = false → auto_cpu_units sh = false → mode c = Dynamic →
  world_inv sh c w → within_budgets (scheduler w) → step sh w w' →
  within_budgets (scheduler w').
Proof.
  intros Ham Hac Hmode [Hinv (Hm & _)] Hb
    [->|[[env ->]|(env & st & held & Henv & Hp & ->)]]%step_cases; try done.
  destruct (prepares_inv _ _ _ _ _ Hinv Hp) as [Hi Hcap].
  eapply dispatch_within_budgets; [done..|congruence|]. right.
  assert (refresh_capacity sh env st = st) as ->.
  { unfold refresh_capacity, refreshes_capacity. by rewrite Ham, Hac. }
  destruct Hp as [| before p after Hp| | |]; try done.
  rewrite Hp in Hinv. by eapply release_within_budgets.
Qed.

(** Configured budgets are never exceeded.  With fixed memory and CPU budgets
    in dynamic mode, every reachable state respects the memory budget, and the
    I/O and CPU budgets too unless exactly one job runs. *)
Theorem fixed_budgets_never_exceeded sh c w :
  capacity_ok c → mode c = Dynamic →
  auto_memory_budget sh = false → auto_cpu_units sh = false → reachable sh c w →
  active_memory_mib (scheduler w) ≤ memory_budget_mib c ∧
  ((active_io_mib (scheduler w) ≤ io_budget_mib c ∧
    active_cpu_units (scheduler w) ≤ cpu_units c) ∨ active_jobs (scheduler w) = 1).
Proof.
  intros Hc Hmode Ham Hac Hr.
  pose proof (reachable_inv _ _ _ Hc Hr) as [_ (_ & _ & <- & <- & <-)]; [|done..].
  change (within_budgets (scheduler w)). revert Hr. apply (rtc_ind_r (λ w, within_budgets (scheduler w))).
  - destruct Hc as (?&?&?&?). split; simpl; [lia|left; lia].
  - intros w1 w2 Hr Hs Hb. pose proof (reachable_inv _ _ _ Hc Hr).
    by eapply step_within_budgets.
Qed.

(** ** Nothing runnable is left waiting *)

Lemma dispatch_loop_done fuel sh env st :
  (length (waiting st) < fuel)%nat →
  dispatch_step sh env (dispatch_loop fuel sh env st).1 = None.
Proof.
  revert st. induction fuel as [|fuel IH]; intros st Hlen; [lia|]. simpl.
  destruct (dispatch_step sh env st) as [[st' out]|] eqn:E; [|done].
  apply dispatch_step_length in E as Hd.
  specialize (IH st' ltac:(lia)). by destruct (dispatch_loop fuel sh env st').
Qed.

(** The wakeup flag plays no part in a turn of the loop. *)
Lemma dispatch_step_wakeup sh env st b :
  dispatch_step sh env st = None →
  dispatch_step sh env (st <| refresh_wakeup_scheduled := b |>) = None.
Proof.
  unfold dispatch_step. simpl. destruct (_ && _); [|done].
  change (runnable_index sh env (st <| refresh_wakeup_scheduled := b |>))
    with (runnable_index sh env st).
  destruct (runnable_index sh env st) as [i|]; [|done].
  simpl. by destruct (note_bypass i (waiting st) !! i).
Qed.

Lemma dispatch_done sh env st : dispatch_step sh env (dispatch sh env st).1 = None.
Proof.
  unfold dispatch, schedule_capacity_refresh.
  destruct (reject_expired_unfit_jobs _ _ _) as [st1 rejected].
  pose proof (dispatch_loop_done (S (length (waiting st1))) sh env st1 ltac:(lia)) as Hd.
  destruct (dispatch_loop _ _ _ _) as [st2 out]. simpl in *.
  repeat case_match; auto using dispatch_step_wakeup.
Qed.

(** Dispatch is work conserving and gives the oldest job priority.  When a
    critical section ends with a free job slot, the head of the queue fits
    neither beside the running jobs nor alone, and unless it waits on purpose
    (it could run alone later and is starving) no younger job fits either. *)
Theorem dispatch_work_conserving sh env st head rest :
  let st' := (dispatch sh env st).1 in
  accepting st' = true → active_jobs st' < max_active_jobs (capacity st') →
  waiting st' = head :: rest →
  fits (capacity st') st' (cost head) = false ∧
  (active_jobs st' = 0 → fits_hard_memory (capacity st') (cost head) = false) ∧
  (fits_hard_memory (capacity st') (cost head) = true ∧ head_is_starving sh env head = true
   ∨ ∀ w, w ∈ rest → sequence head < sequence w → fits (capacity st') st' (cost w) = false).
Proof.
  intros st' Ha Hj Hw. pose proof (dispatch_done sh env st) as Hn. fold st' in Hn.
  unfold dispatch_step in Hn. rewrite Ha in Hn. apply Z.ltb_lt in Hj. rewrite Hj in Hn.
  simpl in Hn. destruct (runnable_index sh env st') as [i|] eqn:Hr; simpl in Hn.
  { apply runnable_index_Some in Hr as [w Hr]. apply run_lookup in Hr.
    by rewrite note_bypass_lookup, Hr in Hn. }
  unfold runnable_index in Hr. rewrite Hw in Hr.
  destruct (_ || _) eqn:Hh; [done|]. apply orb_false_iff in Hh as [Hf Halone].
  split_and!; [done| |].
  { intros Hz. by rewrite Hz in Halone. }
  destruct (negb _ && _) eqn:Hs.
  - left. to_prop. destruct (fits_hard_memory _ _) eqn:Hm; [done|]. exfalso.
    unfold fits_hard_memory in Hm. to_prop. destruct (mode (capacity st')); naive_solver.
  - right. intros w Hin Hseq. apply not_true_is_false. intros Hfw.
    assert (list_find (λ w, (sequence head <? sequence w)
              && fits (capacity st') st' (cost w)) rest = None) as Hnone
      by (by destruct (list_find _ rest)).
    apply list_find_None in Hnone. rewrite Forall_forall in Hnone.
    apply (Hnone w Hin). rewrite Hfw. apply Z.ltb_lt in Hseq. by rewrite Hseq.
Qed.

(** ** Bounded overtaking *)

(** A queue in which every job can run alone and was overtaken at most
    [max_bypass] times. *)
Definition patient (sh : Shared) (st : SchedulerState) : Prop :=
  Forall (λ w, fits_hard_memory (capacity st) (cost w) = true ∧
               0 ≤ bypasses w ≤ max_bypass sh) (waiting st).

Lemma note_bypass_patient sh env st index w :
  runnable sh env st index w → patient sh st →
  patient sh (with_waiting st (note_bypass index (waiting st))).
Proof.
  intros Hr Hp. unfold patient in *. simpl. destruct index as [|i]; [by simpl|].
  destruct (waiting st) as [|head rest] eqn:Hw; [done|]. simpl in *.
  apply Forall_cons in Hp as [[Hh Hb] Hp]. constructor; [|done]. simpl. split; [done|].
  destruct (run_bypass _ _ _ _ _ Hr head i eq_refl) as [?|Hs]; [by rewrite Hw|congruence|].
  unfold head_is_starving in Hs. to_prop. int_lia.
Qed.

Lemma dispatch_step_patient sh env st st' out :
  patient sh st → dispatch_step sh env st = Some (st', out) → patient sh st'.
Proof.
  intros Hp (_ & _ & index & w & Hr & _ & ->)%dispatch_step_Some.
  pose proof (note_bypass_patient _ _ _ _ _ Hr Hp) as H'.
  unfold patient in *. by case_match; apply Forall_delete.
Qed.

Lemma dispatch_patient sh env st :
  patient sh (refresh_capacity sh env st) → patient sh (dispatch sh env st).1.
Proof.
  intros Hp. apply (dispatch_preserves (λ st' _, patient sh st')); try done.
  - intros st0 H. unfold reject_expired_unfit_jobs. case_match; [done|].
    pose proof (reject_expired_unfit_sublist sh env (capacity st0) (waiting st0)) as Hsub.
    destruct (reject_expired_unfit _ _ _ _) as [kept out].
    unfold patient in *. simpl in *. by eapply Forall_sublist.
  - intros st0 acc st' out H. by apply dispatch_step_patient.
Qed.

Lemma refresh_patient sh env st :
  mode (capacity st) = Manual ∨ auto_memory_budget sh = false →
  patient sh st → patient sh (refresh_capacity sh env st).
Proof.
  intros Hor Hp. destruct (refresh_capacity_limits sh env st) as (Hm & _ & _ & Hmem & _).
  assert (waiting (refresh_capacity sh env st) = waiting st) as E.
  { unfold refresh_capacity, refresh_memory, refresh_cpu. by repeat case_match. }
  unfold patient. rewrite E. eapply Forall_impl; [exact Hp|].
  intros w [Hf Hb]. split; [|done]. unfold fits_hard_memory in *. rewrite Hm.
  destruct Hor as [->|Hauto]; [done|by rewrite Hmem].
Qed.

Lemma prepares_patient sh w env st held :
  0 ≤ max_bypass sh →
  mode (capacity (scheduler w)) = Manual ∨ auto_memory_budget sh = false →
  prepares sh w env st held → patient sh (scheduler w) → patient sh st.
Proof.
  intros Hb Hor [k _ _ Hx|before p after _|index| |] Hp; try done.
  - apply Forall_app_2; [done|]. apply Forall_singleton. simpl. split; [|lia].
    unfold structurally_exceeds_fixed_budget, fits_hard_memory in *.
    destruct Hor as [->| ->] in Hx |- *; [done|]. destruct (mode _); [|done].
    simpl in *. to_prop. by apply Z.leb_le.
  - by apply Forall_delete.
Qed.

Lemma reachable_patient sh c w :
  capacity_ok c → mode c = Manual ∨ auto_memory_budget sh = false → 0 ≤ max_bypass sh →
  reachable sh c w → patient sh (scheduler w).
Proof.
  intros Hc Hor Hmb. apply (rtc_ind_r (λ w, patient sh (scheduler w))); [constructor|].
  intros w1 w2 Hr Hs IH. destruct (reachable_inv _ _ _ Hc Hr) as [Hi (Hm & _)].
  rewrite <-Hm in Hor.
  apply step_cases in Hs as [->|[[env' ->]|(env' & st & held & Henv & Hp & ->)]];
    [done|constructor|].
  apply dispatch_patient, refresh_patient; [|by eapply prepares_patient].
  destruct (prepares_inv _ _ _ _ _ Hi Hp) as [_ ->]. done.
Qed.

(** What becomes of the head of the queue while [dispatch] leaves [r]: it still
    waits, and [n] jobs have overtaken it; or it started, after [n] others, and
    its caller, unless it is gone, is sent the permit after theirs. *)
Definition overtaken (sh : Shared) (env : Env) (head : WaitingJob) (n : Z)
    (r : SchedulerState * list Delivery) : Prop :=
  0 ≤ n ∧ bypasses head + n ≤ max_bypass sh ∧ (head_is_starving sh env head = true → n = 0) ∧
  ((∃ rest, waiting r.1 = head <| bypasses := bypasses head + n |> :: rest) ∧
   zlength (granted r.2) ≤ n
   ∨ ∃ before after, r.2 = before ++ send env head (Ok (cost head)) ++ after ∧
       zlength (granted before) ≤ n).

Lemma granted_send env w v : zlength (granted (send env w v)) ≤ 1.
Proof. unfold send. case_match; [|done]. by destruct v. Qed.

Lemma overtaken_none sh env head rest r :
  bypasses head ≤ max_bypass sh → waiting r.1 = head :: rest → granted r.2 = [] →
  overtaken sh env head 0 r.
Proof.
  intros Hb Hw Hg. split; [done|]. split; [lia|]. split; [done|]. left. rewrite Hg. split; [|done].
  exists rest. rewrite Hw, Z.add_0_r. by destruct head.
Qed.

(** One more job overtook the head before. *)
Lemma overtaken_by sh env head j v n r :
  head_is_starving sh env head = false →
  overtaken sh env (head <| bypasses := bypasses head + 1 |>) n r →
  overtaken sh env head (n + 1) (r.1, send env j v ++ r.2).
Proof.
  intros Hs (Hn & Hb & _ & Hor). pose proof (granted_send env j v) as Hj. simpl in Hb.
  split; [lia|]. split; [lia|]. split; [congruence|]. simpl. rewrite granted_app, length_app.
  destruct Hor as [[[rest ->] Hg]|(before & after & -> & Hg)].
  - left. split; [|lia]. exists rest.
    by replace (bypasses head + (n + 1)) with (bypasses head + 1 + n) by lia.
  - right. exists (send env j v ++ before), after. split; [by rewrite <-app_assoc|].
    rewrite granted_app, length_app. lia.
Qed.

Lemma loop_overtaken sh env fuel st head rest :
  max_bypass sh ≤ u64_max → patient sh st → waiting st = head :: rest →
  ∃ n, overtaken sh env head n (dispatch_loop fuel sh env st).
Proof.
  intros Hmb. revert st head rest. induction fuel as [|fuel IH]; intros st head rest Hp Hw.
  all: pose proof Hp as Hhead; unfold patient in Hhead; rewrite Hw in Hhead.
  all: apply Forall_cons in Hhead as [[Hf [_ Hb]] _]; simpl.
  { exists 0. by eapply overtaken_none. }
  destruct (dispatch_step sh env st) as [[st' out]|] eqn:E;
    [|exists 0; by eapply overtaken_none].
  pose proof (dispatch_step_patient _ _ _ _ _ Hp E) as Hp'.
  apply dispatch_step_Some in E as (_ & _ & index & j & Hrun & -> & Hst').
  destruct index as [|i].
  - pose proof (run_lookup _ _ _ _ _ Hrun) as Hl. rewrite Hw in Hl. injection Hl as <-.
    exists 0. split; [done|]. split; [lia|]. split; [done|]. right. exists [].
    destruct (dispatch_loop fuel sh env st') as [st2 out2]. by exists out2.
  - destruct (run_bypass _ _ _ _ _ Hrun head i eq_refl) as [?|Hs]; [by rewrite Hw|congruence|].
    assert (waiting st' = head <| bypasses := bypasses head + 1 |> :: delete i rest) as Hw'.
    { unfold head_is_starving in Hs. to_prop.
      replace (bypasses head + 1) with (usize_sat_add (bypasses head) 1) by (unfold sat_add; lia).
      rewrite Hst', Hw. by case_match. }
    destruct (IH st' _ _ Hp' Hw') as [n Hn]. exists (n + 1).
    apply (overtaken_by sh env head j (Ok (cost j))) in Hn; [|done].
    by destruct (dispatch_loop fuel sh env st').
Qed.

(** In such a queue no job is rejected. *)
Lemma reject_patient sh env st : patient sh st → reject_expired_unfit_jobs sh env st = (st, []).
Proof.
  intros Hp. unfold reject_expired_unfit_jobs. case_bool_decide; [done|].
  assert (∀ ws, Forall (λ w, fits_hard_memory (capacity st) (cost w) = true ∧
                             0 ≤ bypasses w ≤ max_bypass sh) ws →
    reject_expired_unfit sh env (capacity st) ws = (ws, [])) as Hall.
  { induction 1 as [|w ws [Hf _] _ IH]; [done|]. simpl. by rewrite IH, Hf, andb_false_r. }
  rewrite (Hall _ Hp). f_equal. by apply state_ext.
Qed.

Lemma dispatch_overtaken sh env st head rest :
  mode (capacity st) = Manual ∨ auto_memory_budget sh = false → max_bypass sh ≤ u64_max →
  patient sh st → waiting st = head :: rest → ∃ n, overtaken sh env head n (dispatch sh env st).
Proof.
  intros Hor Hmb Hp Hw. pose proof (refresh_patient sh env st Hor Hp) as Hp'.
  assert (waiting (refresh_capacity sh env st) = head :: rest) as Hw'.
  { rewrite <-Hw. unfold refresh_capacity, refresh_memory, refresh_cpu. by repeat case_match. }
  unfold dispatch. rewrite (reject_patient _ _ _ Hp').
  destruct (loop_overtaken sh env (S (length (waiting (refresh_capacity sh env st)))) _ _ _ Hmb Hp' Hw')
    as [n Hn].
  destruct (dispatch_loop _ _ _ _) as [st2 out2]. exists n. simpl.
  unfold schedule_capacity_refresh. by repeat case_match.
Qed.

(** A critical section withdraws the head of the queue, closes the scheduler, does
    nothing, or calls [dispatch] with the head still first. *)
Lemma withdrawn_or_kept sh w env held r head rest :
  waiting (scheduler w) = head :: rest → critical_section sh w env held r →
  r = registration_drop sh env (sequence head) true (scheduler w) ∨
  r = close env (scheduler w) ∨ r = (scheduler w, []) ∨
  ∃ st rest', prepares sh w env st held ∧ waiting st = head :: rest' ∧ r = dispatch sh env st.
Proof.
  intros Hw [k Hk|before p after Hp|seq armed| | |].
  - unfold acquire. destruct (accepting (scheduler w)) eqn:Ha; [|by auto]. simpl.
    destruct (structurally_exceeds_fixed_budget _ _ _) eqn:Hx; [by auto|]. right; right; right.
    do 2 eexists. split; [by apply (prepares_queue _ _ _ k)|]. simpl. rewrite Hw. done.
  - right; right; right. do 2 eexists. split; [by eapply prepares_release|]. done.
  - unfold registration_drop. destruct armed; [|by auto]. simpl.
    destruct (list_find _ (waiting (scheduler w))) as [[[|index] j]|] eqn:Hf; [left|right; right; right|by auto].
    + pose proof Hf as (Hl & Hj & _)%list_find_Some. rewrite Hw in Hl. injection Hl as <-. by rewrite Hj, Hf.
    + do 2 eexists. split; [by eapply (prepares_cancel _ _ _ (S index))|]. simpl. rewrite Hw. done.
  - right; right; right. do 2 eexists. split; [apply prepares_tick|]. done.
  - right; right; right. do 2 eexists. split; [apply prepares_nothing|]. split; [done|].
    unfold snapshot. by destruct (dispatch _ _ _).
  - by auto.
Qed.


(** ** Every request is answered once *)

(** The requests of a queue. *)
Definition requests (ws : list WaitingJob) : list (Z * JobResourceCost) :=
  (λ w, (sequence w, cost w)) <$> ws.

(** A job left the queue for each delivery, and a permit is for the cost that
    was asked for. *)
Definition answered (before : list (Z * JobResourceCost)) (st : SchedulerState)
    (out : list Delivery) : Prop :=
  ∃ gone, before ≡ₚ requests (waiting st) ++ gone ∧ out.*1 = gone.*1 ∧
    Forall2 (λ d g, d.2 = Ok g.2 ∨ d.2 = Err InsufficientCapacity) out gone.

Lemma requests_note_bypass index ws : requests (note_bypass index ws) = requests ws.
Proof. by destruct index, ws. Qed.

Lemma requests_delete index ws w :
  ws !! index = Some w → requests ws ≡ₚ requests (delete index ws) ++ [(sequence w, cost w)].
Proof.
  intros Hl. unfold requests. rewrite (delete_Permutation _ _ _ Hl) at 1.
  rewrite fmap_cons. apply Permutation_cons_append.
Qed.

Lemma reject_answered sh env c ws :
  (∀ s, receiver_open env s = true) →
  ∃ gone, requests ws ≡ₚ requests (reject_expired_unfit sh env c ws).1 ++ gone ∧
    (reject_expired_unfit sh env c ws).2.*1 = gone.*1 ∧
    Forall2 (λ d g, d.2 = Ok g.2 ∨ d.2 = Err InsufficientCapacity)
      (reject_expired_unfit sh env c ws).2 gone.
Proof.
  intros Hopen. induction ws as [|w ws (gone & Hp & Ho & Hf)]; simpl; [by exists []|].
  destruct (reject_expired_unfit sh env c ws) as [kept out]. simpl in *. case_match; simpl.
  - exists ((sequence w, cost w) :: gone). unfold send. rewrite Hopen.
    split_and!; [|cbn; by f_equal|constructor; auto].
    rewrite <-Permutation_middle, <-Hp. done.
  - exists gone. split_and!; [|done..]. cbn. by apply Permutation_skip.
Qed.

(** Dispatch loses no request and answers none twice.  With every caller still
    waiting, the queue before a critical section is, up to order, the queue
    after it together with one request per answer; a permit carries exactly the
    cost its request asked for, and the only error is [InsufficientCapacity]. *)
Theorem dispatch_answers_each_once sh env st :
  (∀ s, receiver_open env s = true) →
  answered (requests (waiting st)) (dispatch sh env st).1 (dispatch sh env st).2.
Proof.
  intros Hopen.
  apply (dispatch_preserves (λ st' out, answered (requests (waiting st)) st' out)).
  - exists []. rewrite app_nil_r. split_and!; [|done..].
    unfold refresh_capacity, refresh_memory, refresh_cpu. by repeat case_match.
  - intros st0 (gone & Hp & Ho & Hf). destruct gone; [|done]. rewrite app_nil_r in Hp.
    unfold reject_expired_unfit_jobs. case_match.
    { exists []. rewrite app_nil_r. done. }
    destruct (reject_answered sh env (capacity st0) (waiting st0) Hopen)
      as (gone & Hp' & Ho' & Hf').
    destruct (reject_expired_unfit _ _ _ _) as [kept out]. simpl in *.
    exists gone. split_and!; [|done..]. by rewrite Hp, Hp'.
  - intros st0 acc st' out (gone & Hp & Ho & Hf)
      (_ & _ & index & w & Hr & -> & ->)%dispatch_step_Some.
    unfold send. rewrite Hopen. exists (gone ++ [(sequence w, cost w)]). split_and!.
    + rewrite Hp. simpl. rewrite app_assoc, Permutation_app_comm.
      rewrite (Permutation_app_comm (requests _ ++ gone)).
      rewrite <-(requests_note_bypass index).
      rewrite (requests_delete index _ w);
        [|rewrite note_bypass_lookup; by eapply run_lookup].
      solve_Permutation.
    + rewrite !fmap_app, Ho. done.
    + apply Forall2_app; [done|]. constructor; [by left|constructor].
  - done.
Qed.

Lemma dispatch_answers_closed sh env st :
  accepting st = false → waiting st = [] →
  accepting (dispatch sh env st).1 = false ∧ waiting (dispatch sh env st).1 = [] ∧
  granted (dispatch sh env st).2 = [].
Proof.
  intros Ha Hq.
  apply (dispatch_preserves (λ st' out, accepting st' = false ∧ waiting st' = [] ∧
    granted out = [])).
  - unfold refresh_capacity, refresh_memory, refresh_cpu. by repeat case_match.
  - intros st0 (Ha0 & Hq0 & _). unfold reject_expired_unfit_jobs. rewrite Hq0.
    by case_match.
  - intros st0 acc st' out (Ha0 & _) (Ha' & _)%dispatch_step_Some. congruence.
  - done.
Qed.

(** After shutdown nothing starts.  Once the scheduler was closed, every later
    state has an empty queue, still refuses requests, and only holds permits
    that were held at shutdown. *)
Theorem closed_scheduler_grants_nothing sh env w w' :
  rtc (step sh) {| scheduler := (close env (scheduler w)).1; permits := permits w |} w' →
  accepting (scheduler w') = false ∧ waiting (scheduler w') = [] ∧
  permits w' `sublist_of` permits w.
Proof.
  set (w0 := {| scheduler := _; permits := _ |}).
  revert w'. apply (rtc_ind_r (λ w', accepting (scheduler w') = false ∧
    waiting (scheduler w') = [] ∧ permits w' `sublist_of` permits w)); [done|].
  intros w1 w2 _ Hs (Ha & Hq & Hsub).
  apply step_cases in Hs as [->|[[env' ->]|(env' & st & held & Henv & Hp & ->)]];
    [done..|].
  assert (accepting st = false ∧ waiting st = [] ∧ held `sublist_of` permits w)
    as (Ha' & Hq' & Hsub').
  { destruct Hp as [| before p after E|index| |]; try done; simpl in *; [congruence|..].
    - split_and!; try done. etrans; [|exact Hsub]. rewrite E.
      apply sublist_app; [done|]. by constructor.
    - by rewrite Hq. }
  destruct (dispatch_answers_closed sh env' st Ha' Hq') as (Ha2 & Hq2 & Hg).
  unfold deliver. simpl. by rewrite Hg, app_nil_r.
Qed.

(** ** The recommended number of jobs *)

(** [j] jobs of cost [k] run, and only such jobs wait. *)
Record uniform (c : SchedulerCapacity) (k : JobResourceCost) (j : Z) (st : SchedulerState) :
    Prop := {
  uni_capacity : capacity st = c;
  uni_accepting : accepting st = true;
  uni_jobs : active_jobs st = j;
  uni_memory : active_memory_mib st = j * memory_mib k;
  uni_io : active_io_mib st = j * io_mib k;
  uni_cpu : active_cpu_units st = j * cost_cpu_units k;
  uni_waiting : Forall (λ w, cost w = k) (waiting st);
}.

Lemma sat_add_multiple_le total each j :
  0 ≤ j → 1 ≤ each → 1 ≤ total < u64_max →
  (u64_sat_add (j * each) each <=? total) = (j <? ratio total each).
Proof.
  intros Hj He Ht. unfold ratio. rewrite Z.max_l by lia.
  apply eq_bool_prop_intro. rewrite !Is_true_true, Z.leb_le, Z.ltb_lt.
  pose proof (Z.mul_div_le total each ltac:(lia)).
  split; intros H'.
  - assert (each * (j + 1) ≤ total) as Hle by int_lia.
    apply Z.div_le_lower_bound in Hle; lia.
  - assert (each * (j + 1) ≤ each * (total / each)) by (apply Z.mul_le_mono_nonneg_l; lia).
    int_lia.
Qed.

Lemma uniform_admits c k j st :
  capacity_ok c → cost_ok k → uniform c k j st → 0 ≤ j < max_active_jobs c →
  fits c st k || ((j =? 0) && fits_hard_memory c k) = (j <? recommended_active_jobs c k).
Proof.
  intros (Hn & Hm & Hi & Hc) (Km & Ki & Kc) [_ _ Ej Em Ei Ec _] Hj.
  unfold fits, fits_hard_memory, recommended_active_jobs, model_recommended_active_jobs.
  rewrite Ej, Em, Ei, Ec.
  destruct (mode c); simpl.
  2: { destruct (Z.ltb_spec j (max_active_jobs c)); [done|lia]. }
  rewrite !sat_add_multiple_le by lia. change (cpu_units c / Z.max (cost_cpu_units k) 1)
    with (ratio (cpu_units c) (cost_cpu_units k)).
  assert (∀ t e, 1 ≤ e → 1 ≤ t → 0 ≤ ratio t e) as Hpos.
  { intros. unfold ratio. apply Z.div_pos; lia. }
  pose proof (sat_add_multiple_le (memory_budget_mib c) (memory_mib k) 0 ltac:(lia)
    ltac:(lia) ltac:(lia)) as Hhard.
  replace (u64_sat_add (0 * memory_mib k) (memory_mib k)) with (memory_mib k) in Hhard
    by int_lia.
  rewrite Hhard. pose proof (Hpos (memory_budget_mib c) (memory_mib k) ltac:(lia) ltac:(lia)).
  set (a := ratio _ _) in *. set (b := ratio _ _) in *. set (d := ratio _ _) in *.
  apply eq_bool_prop_intro. rewrite !Is_true_true.
  destruct (Z.eqb_spec a 0); destruct (Z.eqb_spec j 0); simpl;
    rewrite ?orb_true_iff, ?andb_true_iff, ?orb_false_r, ?Z.ltb_lt; lia.
Qed.

Lemma uniform_step sh env c k j st :
  (∀ s, receiver_open env s = true) → capacity_ok c → cost_ok k →
  uniform c k j st → 0 ≤ j →
  if (j <? max_active_jobs c) && (j <? recommended_active_jobs c k)
     && negb (bool_decide (waiting st = []))
  then ∃ st' out, dispatch_step sh env st = Some (st', out) ∧ uniform c k (j + 1) st' ∧
         length (waiting st) = S (length (waiting st'))
  else dispatch_step sh env st = None.
Proof.
  intros Hopen Hc Hk Hu Hj. pose proof Hu as [Ecap Eacc Ej Em Ei Ec Ew].
  unfold dispatch_step. rewrite Eacc, Ecap, Ej. simpl.
  destruct (Z.ltb_spec j (max_active_jobs c)) as [Hlt|]; simpl; [|done].
  pose proof (uniform_admits c k j st Hc Hk Hu ltac:(lia)) as Hadm.
  unfold runnable_index. rewrite Ecap, Ej.
  destruct (waiting st) as [|head rest] eqn:Hw; simpl; [by rewrite andb_false_r|].
  apply Forall_cons in Ew as [Ehead Erest]. rewrite Ehead, Hadm, andb_true_r.
  destruct (Z.ltb_spec j (recommended_active_jobs c k)) as [Hr|Hr].
  - simpl. rewrite Hopen, Ehead. eexists _, _. split_and!; [done| |done].
    destruct Hk as (?&?&?). assert (max_active_jobs c ≤ 1024) by (destruct Hc; lia).
    pose proof (Z.mul_le_mono_nonneg j 1024 (memory_mib k) 896 ltac:(lia) ltac:(lia)).
    pose proof (Z.mul_le_mono_nonneg j 1024 (io_mib k) 140737488355328 ltac:(lia) ltac:(lia)).
    pose proof (Z.mul_le_mono_nonneg j 1024 (cost_cpu_units k) 4 ltac:(lia) ltac:(lia)).
    split; simpl; rewrite ?Ej, ?Em, ?Ei, ?Ec; try done; int_lia.
  - case_match; [done|]. destruct (list_find _ rest) as [[i w]|] eqn:Hf; [|done]. exfalso.
    apply list_find_Some in Hf as (Hl & Hp & _).
    apply Is_true_true, andb_true_iff in Hp as [_ Hp].
    rewrite (Forall_lookup_1 _ _ _ _ Erest Hl) in Hp. rewrite Hp in Hadm. simpl in Hadm.
    symmetry in Hadm. to_prop. lia.
Qed.

Lemma uniform_loop fuel sh env c k j st :
  (∀ s, receiver_open env s = true) → capacity_ok c → cost_ok k → uniform c k j st →
  0 ≤ j ≤ recommended_active_jobs c k → (length (waiting st) < fuel)%nat →
  active_jobs (dispatch_loop fuel sh env st).1 =
    Z.min (j + zlength (waiting st)) (recommended_active_jobs c k).
Proof.
  intros Hopen Hc Hk. revert j st. induction fuel as [|fuel IH]; intros j st Hu Hj Hlen; [lia|].
  assert (recommended_active_jobs c k ≤ max_active_jobs c) as Hmax.
  { unfold recommended_active_jobs, model_recommended_active_jobs.
    destruct Hc. destruct (mode c); [case_match|]; lia. }
  pose proof (uniform_step sh env c k j st Hopen Hc Hk Hu ltac:(lia)) as Hs. simpl.
  destruct (_ && _ && _) eqn:Hg.
  - destruct Hs as (st' & out & -> & Hu' & Hl). to_prop.
    specialize (IH (j + 1) st' Hu' ltac:(lia) ltac:(lia)).
    destruct (dispatch_loop fuel sh env st'). simpl in *. lia.
  - rewrite Hs. simpl. rewrite (uni_jobs _ _ _ _ Hu).
    destruct (waiting st) eqn:Hw; simpl in *; [lia|].
    rewrite andb_true_r in Hg. to_prop. destruct Hg; to_prop; lia.
Qed.

Lemma reject_uniform sh env c k ws :
  Forall (λ w, cost w = k) ws →
  Forall (λ w, cost w = k) (reject_expired_unfit sh env c ws).1 ∧
  (fits_hard_memory c k = true → (reject_expired_unfit sh env c ws).1 = ws).
Proof.
  induction 1 as [|w ws Hw _ [IH1 IH2]]; simpl; [done|].
  destruct (reject_expired_unfit sh env c ws) as [kept out]. simpl in *.
  rewrite Hw. split; [case_match; simpl; auto|].
  intros Hf. rewrite Hf, andb_false_r. simpl. by rewrite IH2.
Qed.

Lemma unfit_recommended c k :
  capacity_ok c → cost_ok k → fits_hard_memory c k = false →
  recommended_active_jobs c k = 0.
Proof.
  intros (_ & Hm & _) (Km & _) Hf. unfold fits_hard_memory in Hf. to_prop.
  unfold recommended_active_jobs, model_recommended_active_jobs.
  destruct (mode c); [|done]. unfold ratio at 1. by rewrite Z.div_small by lia.
Qed.

(** The recommendation shown to the operator is what the scheduler does.  An
    idle scheduler with configured budgets and any number of waiting jobs of one
    cost starts exactly the recommended number of them, or all when they are
    fewer. *)
Theorem recommendation_is_admission sh env c k st :
  capacity_ok c → cost_ok k → auto_memory_budget sh = false → auto_cpu_units sh = false →
  (∀ s, receiver_open env s = true) → uniform c k 0 st →
  active_jobs (dispatch sh env st).1 =
    Z.min (zlength (waiting st)) (recommended_active_jobs c k).
Proof.
  intros Hc Hk Ham Hac Hopen Hu. unfold dispatch.
  assert (refresh_capacity sh env st = st) as ->.
  { unfold refresh_capacity, refreshes_capacity. by rewrite Ham, Hac. }
  assert (0 ≤ recommended_active_jobs c k) as Hpos.
  { unfold recommended_active_jobs, model_recommended_active_jobs, ratio.
    destruct Hc as (?&?&?&?), Hk as (?&?&?).
    destruct (mode c); [case_match|]; try lia.
    pose proof (Z.div_pos (memory_budget_mib c) (Z.max (memory_mib k) 1)). lia. }
  assert (uniform c k 0 (reject_expired_unfit_jobs sh env st).1 ∧
    Z.min (zlength (waiting (reject_expired_unfit_jobs sh env st).1))
          (recommended_active_jobs c k) =
    Z.min (zlength (waiting st)) (recommended_active_jobs c k)) as [Hu' <-].
  { unfold reject_expired_unfit_jobs. case_match; [done|].
    destruct Hu as [<- ? ? ? ? ? Hw].
    destruct (reject_uniform sh env (capacity st) k (waiting st) Hw) as [Hall Hfit].
    destruct (reject_expired_unfit _ _ _ _) as [kept out]. simpl in *.
    split; [by split|].
    destruct (fits_hard_memory (capacity st) k) eqn:E; [by rewrite Hfit|].
    rewrite (unfit_recommended _ _ Hc Hk E). lia. }
  destruct (reject_expired_unfit_jobs sh env st) as [st1 rejected]. simpl in Hu' |- *.
  pose proof (uniform_loop (S (length (waiting st1))) sh env c k 0 st1 Hopen Hc Hk Hu'
    ltac:(lia) ltac:(lia)) as Hl.
  destruct (dispatch_loop _ _ _ _) as [st2 out] eqn:E. simpl in *. rewrite E. simpl.
  rewrite Z.add_0_l in Hl. rewrite <-Hl. unfold schedule_capacity_refresh. by repeat case_match.
Qed.

(** ** A concrete run *)

Module SchedulerDemo.

Definition demo_config : ImportExportSchedulerConfig :=
  {| dynamic_limiter_enabled := true; max_queued_jobs := 64;
     max_queued_jobs_per_instance := 8; manual_max_active_jobs := 4;
     dynamic_max_active_jobs := 4; dynamic_memory_budget_mib := 1024;
     dynamic_io_budget_mib := 4096; dynamic_cpu_units := 4;
     starvation_timeout_seconds := 30; cfg_max_bypass := 2 |}.

Definition demo_sample : SchedulerResourceSample :=
  {| available_memory_mib := Some 1000; sample_cpu_units := Some 8;
     memory_valid := true; cpu_valid := true |}.

Definition demo_env : Env :=
  {| now := 0; provider_sample := demo_sample; receiver_open := λ _, true;
     runtime_available := true |}.

Definition demo_capacity : SchedulerCapacity :=
  detect_with_provider demo_config 1000000 5000000 demo_sample.

Definition demo_cost (m : Z) : JobResourceCost :=
  {| input_size_bytes := 0; memory_mib := m; io_mib := 100; cost_cpu_units := 1 |}.

(** Jobs of 600 and 600 MiB: the first runs, the second waits. *)
Definition demo_first : World :=
  deliver [] (acquire (scheduler_shared demo_config) demo_env (demo_cost 600)
                (scheduler_new demo_capacity)).2.
Definition demo_world : World :=
  deliver (permits demo_first)
    (acquire (scheduler_shared demo_config) demo_env (demo_cost 600)
       (scheduler demo_first)).2.

Lemma demo_config_unsigned : config_unsigned demo_config.
Proof. unfold config_unsigned, demo_config. simpl. int_lia. Qed.

Lemma demo_env_ok : env_ok demo_env.
Proof. split; simpl; intros ? [= <-]; int_lia. Qed.

Lemma demo_capacity_ok : capacity_ok demo_capacity.
Proof.
  apply detect_capacity_ok; [apply demo_config_unsigned|by vm_compute|int_lia..|].
  apply demo_env_ok.
Qed.

Lemma demo_cost_ok m : 1 ≤ m ≤ 896 → cost_ok (demo_cost m).
Proof. unfold cost_ok. simpl. lia. Qed.

Lemma demo_first_reachable : reachable (scheduler_shared demo_config) demo_capacity demo_first.
Proof.
  apply rtc_once. apply (step_section _ (initial demo_capacity) demo_env []); [apply demo_env_ok|].
  apply (section_acquire _ (initial demo_capacity)). by apply demo_cost_ok.
Qed.

Lemma demo_world_reachable : reachable (scheduler_shared demo_config) demo_capacity demo_world.
Proof.
  eapply rtc_r; [apply demo_first_reachable|].
  apply (step_section _ demo_first demo_env); [apply demo_env_ok|].
  apply section_acquire. by apply demo_cost_ok.
Qed.

(** The same scheduler with an automatic memory budget, idle, one job queued. *)
Definition auto_shared : Shared :=
  {| starvation_timeout := 1000; max_bypass := 2; auto_memory_budget := true;
     auto_cpu_units := true; capacity_refresh_interval := 10 |}.

Definition demo_queue (n : nat) : list WaitingJob :=
  (λ i, {| sequence := Z.of_nat i; queued_at := 0; bypasses := 0; cost := demo_cost 300 |})
    <$> seq 0 n.

Definition demo_queued (n : nat) : SchedulerState :=
  (scheduler_new demo_capacity) <| waiting := demo_queue n |>.

(** A host with little memory: a 300 MiB job waits; then memory is freed. *)
Definition host_env (available t : Z) : Env :=
  {| now := t;
     provider_sample := {| available_memory_mib := Some available;
                           sample_cpu_units := Some 4; memory_valid := true;
                           cpu_valid := true |};
     receiver_open := λ _, true; runtime_available := true |}.
Definition low_capacity : SchedulerCapacity :=
  {| mode := Dynamic; max_active_jobs := 4; memory_budget_mib := 60;
     io_budget_mib := 4096; cpu_units := 4 |}.
Definition waiting_world : World :=
  deliver [] (acquire auto_shared (host_env 100 0) (demo_cost 300)
                (scheduler_new low_capacity)).2.
Definition recovering_world : World :=
  deliver (permits waiting_world) (snapshot auto_shared (host_env 1000 5) (scheduler waiting_world)).2.

Lemma host_env_ok available t : is_u64 available → env_ok (host_env available t).
Proof. intros ?. split; simpl; intros ? [= <-]; [done|int_lia]. Qed.

Lemma recovering_world_reachable : reachable auto_shared low_capacity recovering_world.
Proof.
  eapply rtc_l.
  - apply (step_section _ (initial low_capacity) (host_env 100 0) []); [by apply host_env_ok|].
    apply (section_acquire _ (initial low_capacity) _ (demo_cost 300)). by apply demo_cost_ok.
  - apply rtc_once. apply (step_section auto_shared waiting_world (host_env 1000 5));
      [by apply host_env_ok|]. apply section_snapshot.
Qed.

(** Shutdown, then the running job ends. *)
Definition closed_world : World :=
  {| scheduler := (close demo_env (scheduler demo_world)).1; permits := permits demo_world |}.
Definition drained_world : World :=
  deliver ([] ++ []) (permit_drop (scheduler_shared demo_config) demo_env
                        (Some (demo_cost 600)) (scheduler closed_world)).

Lemma drained_step : step (scheduler_shared demo_config) closed_world drained_world.
Proof.
  apply (step_section _ closed_world demo_env); [apply demo_env_ok|].
  apply (section_permit_drop _ closed_world demo_env [] (0, demo_cost 600) []).
  vm_compute. reflexivity.
Qed.

End SchedulerDemo.

Import SchedulerDemo.

Lemma scheduler_accounting_exact_witness :
  active_jobs (scheduler demo_world) = 1 ∧
  active_memory_mib (scheduler demo_world) = total memory_mib (permits demo_world).
Proof.
  destruct (scheduler_accounting_exact demo_config 1000000 5000000 demo_sample demo_world)
    as (H1 & _ & H2 & _);
    [apply demo_config_unsigned|by vm_compute|int_lia|int_lia|apply demo_env_ok
    |apply demo_world_reachable|].
  split; [rewrite H1; by vm_compute|exact H2].
Defined.

(** A job starts when the timer finds the host's memory freed; another one as it
    arrives. *)
Lemma dispatch_respects_budgets_witness :
  active_memory_mib (refresh_tick auto_shared (host_env 1000 10) (scheduler recovering_world)).1 ≤ 600
  ∧ within_budgets (acquire (scheduler_shared demo_config) demo_env (demo_cost 600)
                      (scheduler_new demo_capacity)).2.1.
Proof.
  split.
  - destruct (dispatch_respects_budgets auto_shared low_capacity recovering_world (host_env 1000 10)
                (permits recovering_world)
                (refresh_tick auto_shared (host_env 1000 10) (scheduler recovering_world))) as [_ H];
      [unfold capacity_ok; simpl; int_lia|done|apply recovering_world_reachable
      |by apply host_env_ok|apply section_refresh_tick|by vm_compute|].
    exact (H 1000 eq_refl eq_refl eq_refl).
  - apply (dispatch_respects_budgets (scheduler_shared demo_config) demo_capacity
             (initial demo_capacity) demo_env []);
      [apply demo_capacity_ok|done|apply rtc_refl|apply demo_env_ok| |by vm_compute].
    apply (section_acquire _ (initial demo_capacity)). by apply demo_cost_ok.
Defined.

Lemma fixed_budgets_never_exceeded_witness :
  active_memory_mib (scheduler demo_world) ≤ 1024.
Proof.
  apply (fixed_budgets_never_exceeded (scheduler_shared demo_config) demo_capacity demo_world);
    [apply demo_capacity_ok|done|done|done|apply demo_world_reachable].
Defined.

Lemma dispatch_work_conserving_witness :
  let st := (dispatch (scheduler_shared demo_config) demo_env (scheduler demo_world)).1 in
  let head := {| sequence := 1; queued_at := 0; bypasses := 0; cost := demo_cost 600 |} in
  fits (capacity st) st (cost head) = false.
Proof.
  intros st head.
  refine (proj1 (dispatch_work_conserving (scheduler_shared demo_config) demo_env
                   (scheduler demo_world) head [] _ _ _)); vm_compute; reflexivity.
Defined.


Lemma dispatch_answers_each_once_witness :
  answered (requests (waiting (demo_queued 5)))
    (dispatch (scheduler_shared demo_config) demo_env
       (demo_queued 5)).1
    (dispatch (scheduler_shared demo_config) demo_env
       (demo_queued 5)).2.
Proof.
  apply (dispatch_answers_each_once (scheduler_shared demo_config) demo_env
           (demo_queued 5)). done.
Defined.

Lemma closed_scheduler_grants_nothing_witness :
  accepting (scheduler drained_world) = false.
Proof.
  exact (proj1 (closed_scheduler_grants_nothing (scheduler_shared demo_config) demo_env
                  demo_world drained_world (rtc_once _ _ drained_step))).
Defined.

Lemma recommendation_is_admission_witness :
  active_jobs (dispatch (scheduler_shared demo_config) demo_env
                 (demo_queued 5)).1 = 3.
Proof.
  rewrite (recommendation_is_admission _ _ demo_capacity (demo_cost 300));
    [by vm_compute|apply demo_capacity_ok|by apply demo_cost_ok|done..|].
  split; try done. repeat constructor.
Defined.
