(* ===== verification/PgProto.v ===== *)
(** * PostgreSQL routing

    Models [gateway/protocols/postgres.rs] (startup packets, cancel keys), the
    packet reader of [gateway/listeners/postgres_listener.rs], and
    [gateway/postgres_sessions.rs] (the proxied startup conversation and the
    registry of cancel keys).

    A packet is a list of bytes and a Rust [String] is its UTF-8 bytes.  A
    connection is the list of bytes its peer will have sent before closing it;
    reading past its end is the I/O error of [read_exact]. *)
From S2P Require Import Prelude Bytes.

Local Open Scope Z_scope.

(** ** Startup packets *)

Definition SSL_REQUEST_CODE : Z := 80877103.
Definition GSSENC_REQUEST_CODE : Z := 80877104.
Definition CANCEL_REQUEST_CODE : Z := 80877102.
Definition MAX_CANCEL_KEY_BYTES : nat := 256.
Definition STARTUP_HEADER_LEN : nat := 8.
Definition PROCESS_ID_LEN : nat := 4.
Definition MIN_CANCEL_SECRET_LEN : nat := 4.
Definition MAX_ROUTING_HANDSHAKE_BYTES : Z := 64 * 1024.

Definition auth_error_packet : bytes :=
  let fields := lit "SFATAL" ++ [x00] ++ lit "VFATAL" ++ [x00] ++ lit "C28000" ++ [x00]
    ++ lit "MAccess denied for requested database" ++ [x00; x00] in
  lit "E" ++ to_be 4 (zlength fields + 4) ++ fields.

Record CancelKey := mkCancelKey { process_id : Z; secret : bytes }.
#[export] Instance CancelKey_eq_dec : EqDecision CancelKey.
Proof. solve_decision. Defined.
#[export] Instance CancelKey_countable : Countable CancelKey.
Proof.
  apply (inj_countable' (λ k, (process_id k, secret k)) (λ p, mkCancelKey p.1 p.2)).
  by intros [].
Defined.

Definition from_backend_data (body : bytes) : option CancelKey :=
  if negb ((PROCESS_ID_LEN + MIN_CANCEL_SECRET_LEN <=? length body)%nat
           && (length body <=? PROCESS_ID_LEN + MAX_CANCEL_KEY_BYTES)%nat) then None
  else Some {| process_id := as_i32 (from_be (take PROCESS_ID_LEN body));
               secret := drop PROCESS_ID_LEN body |}.

Record StartupRoute := mkStartupRoute { user : bytes; database : option bytes }.

Inductive PostgresParseError :=
  | TooShort
  | InvalidLength
  | MissingField (field : string)
  | InvalidUtf8
  | DirectTlsAlpnRequired
  | UnsupportedStartupRequest.

Definition is_ssl_request (packet : bytes) : bool :=
  if negb (length packet =? STARTUP_HEADER_LEN)%nat then false
  else as_i32 (from_be (take 4 (drop 4 packet))) =? SSL_REQUEST_CODE.

Definition startup_request_code (packet : bytes) : option Z :=
  if (length packet <? STARTUP_HEADER_LEN)%nat then None
  else
    let declared_len := from_be (take 4 packet) in
    if negb (declared_len =? zlength packet) then None
    else Some (as_i32 (from_be (take 4 (drop 4 packet)))).

Definition is_gssenc_request (packet : bytes) : bool :=
  bool_decide (startup_request_code packet = Some GSSENC_REQUEST_CODE).

Definition cancel_request_key (packet : bytes) : option CancelKey :=
  if bool_decide (startup_request_code packet ≠ Some CANCEL_REQUEST_CODE) then None
  else get_from STARTUP_HEADER_LEN packet ≫= from_backend_data.

(** The [while let Some(key) = parts.next()] loop over the NUL-separated parts. *)
Fixpoint collect_fields (parts : list bytes) (fields : gmap bytes bytes) :
    result PostgresParseError (gmap bytes bytes) :=
  match parts with
  | [] => Ok fields
  | key :: parts =>
      match key, parts with
      | [], _ => Ok fields
      | _, [] => Ok fields
      | _, value :: parts =>
          if negb (valid_utf8 key) then Err InvalidUtf8
          else if negb (valid_utf8 value) then Err InvalidUtf8
          else collect_fields parts (<[key := value]> fields)
      end
  end.

Definition non_empty (v : bytes) : option bytes :=
  match v with [] => None | _ => Some v end.

Definition parse_startup_route (packet : bytes) : result PostgresParseError StartupRoute :=
  if (length packet <? STARTUP_HEADER_LEN)%nat then Err TooShort
  else
    let declared_len := from_be (take 4 packet) in
    if negb (declared_len =? zlength packet) || (declared_len <? Z.of_nat STARTUP_HEADER_LEN)
    then Err InvalidLength
    else
      fields ← collect_fields (split_on is_nul (drop STARTUP_HEADER_LEN packet)) ∅;
      user ← ok_or (fields !! lit "user") (MissingField "user");
      Ok {| user := user; database := fields !! lit "database" ≫= non_empty |}.

Definition find_nul (packet : bytes) (offset : nat) : result PostgresParseError nat :=
  ok_or (rest ← get_from offset packet;
         relative ← position is_nul rest;
         Some (offset + relative)%nat) InvalidLength.

Definition set_packet_length (packet : bytes) : result PostgresParseError bytes :=
  if zlength packet <=? u32_max then Ok (to_be 4 (zlength packet) ++ drop 4 packet)
  else Err InvalidLength.

(** The [while offset < bytes.len() - 1] scan: the end of the key and of the
    value of the first [database] field. *)
Fixpoint find_database_field (fuel : nat) (packet : bytes) (offset : nat) :
    result PostgresParseError (option (nat * nat)) :=
  match fuel with
  | O => Ok None
  | S fuel =>
      if (offset <? length packet - 1)%nat then
        key_end ← find_nul packet offset;
        if (key_end =? offset)%nat then Ok None
        else
          value_end ← find_nul packet (key_end + 1);
          if bool_decide (take (key_end - offset) (drop offset packet) = lit "database")
          then Ok (Some (key_end, value_end))
          else find_database_field fuel packet (value_end + 1)
      else Ok None
  end.

Definition startup_packet_with_database (packet db : bytes) :
    result PostgresParseError bytes :=
  _ ← parse_startup_route packet;
  if bool_decide (db = []) || existsb is_nul db || bool_decide (last packet ≠ Some x00)
  then Err InvalidLength
  else
    field ← find_database_field (length packet) packet STARTUP_HEADER_LEN;
    match field with
    | Some (key_end, value_end) =>
        set_packet_length (take (key_end + 1) packet ++ db ++ drop value_end packet)
    | None =>
        set_packet_length
          (take (length packet - 1) packet ++ lit "database" ++ [x00] ++ db ++ [x00; x00])
    end.

(** ** Reading from a connection *)

Inductive ListenerError := ListenerIo | ListenerPostgres (e : PostgresParseError).

Definition read_postgres_startup (client : bytes) : result ListenerError (bytes * bytes) :=
  '(len_bytes, client) ← ok_or (read_exact 4 client) ListenerIo;
  let len := from_be len_bytes in
  if negb ((8 <=? len) && (len <=? MAX_ROUTING_HANDSHAKE_BYTES))
  then Err (ListenerPostgres InvalidLength)
  else
    '(body, client) ← ok_or (read_exact (Z.to_nat len - 4) client) ListenerIo;
    Ok (len_bytes ++ body, client).

(** ** Startup conversation *)

Definition MAX_ACTIVE_POSTGRES_CANCEL_KEYS : Z := 65536.
Definition MAX_POSTGRES_STARTUP_MESSAGE_BYTES : Z := 1024 * 1024.
Definition MESSAGE_HEADER_BYTES : nat := 5.
Definition AUTHENTICATION_REQUEST : byte := "R"%byte.
Definition BACKEND_KEY_DATA : byte := "K"%byte.
Definition READY_FOR_QUERY : byte := "Z"%byte.
Definition ERROR_RESPONSE : byte := "E"%byte.
Definition AUTH_REQUESTS_NEEDING_FRONTEND_REPLY : list Z := [3; 5; 7; 8; 9; 10; 11].

Inductive PostgresSessionError :=
  | SessionIo | Malformed | RegistryFull | RegistryCollision | Backend.

Definition read_message (stream : bytes) : result PostgresSessionError (bytes * bytes) :=
  '(header, stream) ← ok_or (read_exact MESSAGE_HEADER_BYTES stream) SessionIo;
  let len := from_be (drop 1 header) in
  if negb ((4 <=? len) && (len <=? MAX_POSTGRES_STARTUP_MESSAGE_BYTES)) then Err Malformed
  else
    total ← ok_or (checked_add usize_max len 1) Malformed;
    '(body, stream) ← ok_or (read_exact (Z.to_nat total - MESSAGE_HEADER_BYTES) stream)
                        SessionIo;
    Ok (header ++ body, stream).

Definition auth_needs_frontend_reply (message : bytes) : result PostgresSessionError bool :=
  if negb (bool_decide (head message = Some AUTHENTICATION_REQUEST)) then Ok false
  else if (length message <? 9)%nat then Err Malformed
  else
    let code := as_i32 (from_be (take 4 (drop 5 message))) in
    Ok (existsb (Z.eqb code) AUTH_REQUESTS_NEEDING_FRONTEND_REPLY).

(** Both connections of a session: what each peer has still to say, and what
    was written to each. *)
Record Conversation := mkConversation {
  client_in : bytes;
  backend_in : bytes;
  client_out : bytes;
  backend_out : bytes;
}.

Record Startup := mkStartup { startup_key : option CancelKey; ready : bytes }.

(** [proxy_startup]; both peers accept what is written to them.  A message has
    at least [MESSAGE_HEADER_BYTES] bytes, so the length of the backend stream
    bounds the turns of the loop. *)
Fixpoint proxy_startup_loop (fuel : nat) (cancel_key : option CancelKey) (c : Conversation) :
    result PostgresSessionError (option Startup * Conversation) :=
  match fuel with
  | O => Err SessionIo
  | S fuel =>
      '(message, backend_rest) ← read_message (backend_in c);
      let message_type := hd x00 message in
      cancel_key ←
        (if bool_decide (message_type = BACKEND_KEY_DATA)
         then Some <$> ok_or (from_backend_data (drop MESSAGE_HEADER_BYTES message)) Malformed
         else Ok cancel_key);
      let c := {| client_in := client_in c; backend_in := backend_rest;
                  client_out := client_out c; backend_out := backend_out c |} in
      if bool_decide (message_type = READY_FOR_QUERY)
      then Ok (Some {| startup_key := cancel_key; ready := message |}, c)
      else
        let c := {| client_in := client_in c; backend_in := backend_in c;
                    client_out := client_out c ++ message; backend_out := backend_out c |} in
        if bool_decide (message_type = ERROR_RESPONSE) then Ok (None, c)
        else
          needs_reply ← auth_needs_frontend_reply message;
          if needs_reply : bool then
            '(reply, client_rest) ← read_message (client_in c);
            proxy_startup_loop fuel cancel_key
              {| client_in := client_rest; backend_in := backend_in c;
                 client_out := client_out c; backend_out := backend_out c ++ reply |}
          else proxy_startup_loop fuel cancel_key c
  end.

Definition proxy_startup (c : Conversation) :
    result PostgresSessionError (option Startup * Conversation) :=
  proxy_startup_loop (S (length (backend_in c))) None c.

(** ** Cancel registry *)

Abbreviation Registry Target := (gmap CancelKey Target).

Section registry.
(** What a session's cancel request is forwarded to ([CancelTarget]). *)
Context {Target : Type}.

(** [Startup::finish]: the registration and the bytes released to the client. *)
Definition finish (s : Startup) (target : Target) (targets : Registry Target) :
    result PostgresSessionError (option CancelKey * bytes * Registry Target) :=
  match startup_key s with
  | None => Ok (None, ready s, targets)
  | Some key =>
      if bool_decide (is_Some (targets !! key)) then Err RegistryCollision
      else if MAX_ACTIVE_POSTGRES_CANCEL_KEYS <=? Z.of_nat (size targets) then Err RegistryFull
      else Ok (Some key, ready s, <[key := target]> targets)
  end.

(** [Drop for CancelRegistration]. *)
Definition cancel_registration_drop (key : option CancelKey) (targets : Registry Target) : Registry Target :=
  match key with Some key => delete key targets | None => targets end.

(** [forward_cancel]: the target the packet is sent to. *)
Definition forward_cancel (key : CancelKey) (targets : Registry Target) : option Target :=
  targets !! key.
End registry.

(** ** The wire format of a startup packet *)

Definition field_bytes (f : bytes * bytes) : bytes := f.1 ++ [x00] ++ f.2 ++ [x00].
Definition fields_bytes (fs : list (bytes * bytes)) : bytes := concat (field_bytes <$> fs).

(** A startup message of the PostgreSQL protocol: length, version, the
    parameters, a terminator. *)
Definition encode_startup (version : bytes) (fs : list (bytes * bytes)) : bytes :=
  to_be 4 (zlength (fields_bytes fs) + 9) ++ version ++ fields_bytes fs ++ [x00].

Definition field_ok (f : bytes * bytes) : Prop :=
  f.1 ≠ [] ∧ no_nul f.1 ∧ no_nul f.2 ∧ valid_utf8 f.1 = true ∧ valid_utf8 f.2 = true.

(** The parameters as the parser sees them: the last one of a name counts. *)
Definition fields_map (fs : list (bytes * bytes)) (m : gmap bytes bytes) : gmap bytes bytes :=
  foldl (λ m f, <[f.1 := f.2]> m) m fs.

Lemma fields_bytes_cons f fs :
  fields_bytes (f :: fs) = f.1 ++ x00 :: f.2 ++ x00 :: fields_bytes fs.
Proof.
  unfold fields_bytes, field_bytes. rewrite fmap_cons. cbn [concat].
  rewrite <-!app_assoc. cbn [app]. by rewrite <-?app_assoc.
Qed.

Lemma split_on_field f rest :
  field_ok f →
  split_on is_nul (field_bytes f ++ rest) = f.1 :: f.2 :: split_on is_nul rest.
Proof.
  intros (_ & H1 & H2 & _). unfold field_bytes. rewrite <-!app_assoc. simpl.
  rewrite split_on_app by done. by rewrite split_on_app.
Qed.

Lemma collect_fields_encoded fs m :
  Forall field_ok fs →
  collect_fields (split_on is_nul (fields_bytes fs ++ [x00])) m = Ok (fields_map fs m).
Proof.
  intros Hfs. revert m. induction Hfs as [|f fs Hf _ IH]; intros m; [done|].
  unfold fields_bytes. rewrite fmap_cons. simpl concat. rewrite <-app_assoc.
  rewrite split_on_field by done. simpl. pose proof Hf as (Hne & _ & _ & -> & ->).
  destruct (f.1) as [|b k] eqn:E; [done|]. simpl. rewrite <-E. apply IH.
Qed.

Lemma encode_startup_length version fs :
  length version = 4%nat →
  zlength (encode_startup version fs) = zlength (fields_bytes fs) + 9.
Proof.
  intros Hv. unfold encode_startup. rewrite !length_app, to_be_length, Hv. simpl. lia.
Qed.

(** The header of a packet with its body. *)
Lemma encode_startup_parts version fs :
  length version = 4%nat →
  take 4 (encode_startup version fs) = to_be 4 (zlength (fields_bytes fs) + 9) ∧
  drop STARTUP_HEADER_LEN (encode_startup version fs) = fields_bytes fs ++ [x00] ∧
  last (encode_startup version fs) = Some x00.
Proof.
  intros Hv. unfold encode_startup. split_and!.
  - apply take_app_length'. by rewrite to_be_length.
  - rewrite app_assoc. apply drop_app_length'. rewrite length_app, to_be_length, Hv. done.
  - rewrite !app_assoc. apply last_snoc.
Qed.

Definition route_of (m : gmap bytes bytes) : result PostgresParseError StartupRoute :=
  user ← ok_or (m !! lit "user") (MissingField "user");
  Ok {| user := user; database := m !! lit "database" ≫= non_empty |}.

Lemma parse_encoded version fs :
  length version = 4%nat → Forall field_ok fs →
  zlength (fields_bytes fs) + 9 ≤ u32_max →
  parse_startup_route (encode_startup version fs) = route_of (fields_map fs ∅).
Proof.
  intros Hv Hfs Hlen. pose proof (encode_startup_length version fs Hv) as Hl.
  destruct (encode_startup_parts version fs Hv) as (Ht & Hd & _).
  unfold parse_startup_route.
  destruct (Nat.ltb_spec (length (encode_startup version fs)) STARTUP_HEADER_LEN) as [Hs|_].
  { unfold STARTUP_HEADER_LEN in Hs. lia. }
  rewrite Ht, from_be_to_be, Hl, Z.eqb_refl by int_lia. cbn [negb orb].
  destruct (Z.ltb_spec (zlength (fields_bytes fs) + 9) (Z.of_nat STARTUP_HEADER_LEN)) as [Hs|_].
  { unfold STARTUP_HEADER_LEN in Hs. lia. }
  rewrite Hd, collect_fields_encoded by done. done.
Qed.

(** ** Rewriting the database *)

Lemma find_nul_app pre piece rest :
  no_nul piece →
  find_nul (pre ++ piece ++ x00 :: rest) (length pre) = Ok (length pre + length piece)%nat.
Proof.
  intros Hp. unfold find_nul, get_from.
  destruct (Nat.leb_spec (length pre) (length (pre ++ piece ++ x00 :: rest))) as [_|H].
  - simpl. rewrite drop_app_length, position_app by done. done.
  - rewrite length_app in H. lia.
Qed.

(** The first [database] parameter: those before it, its value, those after. *)
Fixpoint split_database (fs : list (bytes * bytes)) :
    option (list (bytes * bytes) * bytes * list (bytes * bytes)) :=
  match fs with
  | [] => None
  | f :: fs =>
      if bool_decide (f.1 = lit "database") then Some ([], f.2, fs)
      else '(before, v, after) ← split_database fs; Some (f :: before, v, after)
  end.

Lemma split_database_Some fs before v after :
  split_database fs = Some (before, v, after) →
  fs = before ++ (lit "database", v) :: after ∧
  Forall (λ f, f.1 ≠ lit "database") before.
Proof.
  revert before v after. induction fs as [|[k x] fs IH]; simpl; intros before v after Hs; [done|].
  case_bool_decide as Hk; simplify_eq/=; [done|].
  destruct (split_database fs) as [[[b v'] a]|]; simplify_eq/=.
  destruct (IH _ _ _ eq_refl) as [-> ?]. split; [done|]. by constructor.
Qed.

Lemma split_database_first before v after :
  Forall (λ f, f.1 ≠ lit "database") before →
  split_database (before ++ (lit "database", v) :: after) = Some (before, v, after).
Proof.
  induction 1 as [|f before Hf _ IH]; cbn [app split_database fst snd].
  - by rewrite bool_decide_true.
  - rewrite bool_decide_false by done. by rewrite IH.
Qed.

Lemma split_database_None fs :
  split_database fs = None → Forall (λ f, f.1 ≠ lit "database") fs.
Proof.
  induction fs as [|[k x] fs IH]; simpl; intros Hs; [constructor|].
  case_bool_decide as Hk; [done|]. destruct (split_database fs) as [[[b v'] a]|]; [done|].
  constructor; auto.
Qed.

Lemma Ok_Some_pair (a b c d : nat) :
  a = c → b = d → Ok (E := PostgresParseError) (Some (a, b)) = Ok (Some (c, d)).
Proof. by intros -> ->. Qed.

(** Where the scan finds it, at any depth of the packet. *)
Lemma find_database_field_encoded fuel pre fs :
  Forall field_ok fs → (length (fields_bytes fs) < fuel)%nat →
  find_database_field fuel (pre ++ fields_bytes fs ++ [x00]) (length pre) =
  Ok ('(before, v, _) ← split_database fs;
      let key_end := (length pre + length (fields_bytes before) + 8)%nat in
      Some (key_end, key_end + 1 + length v)%nat).
Proof.
  intros Hfs. revert fuel pre. induction Hfs as [|[k v] fs Hf Hfs IH]; intros fuel pre Hfuel.
  { destruct fuel as [|fuel]; [done|]. change (fields_bytes [] ++ [x00]) with [x00].
    cbn [find_database_field].
    destruct (Nat.ltb_spec (length pre) (length (pre ++ [x00]) - 1)) as [H|]; [|done].
    rewrite length_app in H. simpl in H. lia. }
  destruct fuel as [|fuel]; [lia|].
  pose proof Hf as (Hne & Hk & Hv & _). simpl in Hne, Hk, Hv.
  assert (fields_bytes ((k, v) :: fs) ++ [x00] =
          k ++ x00 :: v ++ x00 :: fields_bytes fs ++ [x00]) as E.
  { rewrite fields_bytes_cons. cbn [fst snd]. rewrite <-app_assoc. cbn [app].
    by rewrite <-app_assoc. }
  assert (pre ++ k ++ x00 :: v ++ x00 :: fields_bytes fs ++ [x00] =
          (pre ++ k ++ [x00]) ++ v ++ x00 :: fields_bytes fs ++ [x00]) as E2
    by (by rewrite <-!app_assoc).
  assert (pre ++ k ++ x00 :: v ++ x00 :: fields_bytes fs ++ [x00] =
          (pre ++ k ++ [x00] ++ v ++ [x00]) ++ fields_bytes fs ++ [x00]) as E3
    by (by rewrite <-!app_assoc).
  assert (length (fields_bytes ((k, v) :: fs)) =
          (length k + length v + 2 + length (fields_bytes fs))%nat) as El.
  { rewrite fields_bytes_cons, length_app. cbn [length fst snd].
    rewrite length_app. cbn [length]. lia. }
  rewrite E. cbn [find_database_field].
  destruct (Nat.ltb_spec (length pre)
    (length (pre ++ k ++ x00 :: v ++ x00 :: fields_bytes fs ++ [x00]) - 1)) as [_|H].
  2: { rewrite E2, !length_app in H. simpl in H. rewrite !length_app in H. simpl in H. lia. }
  rewrite find_nul_app by done. simpl mbind.
  destruct (Nat.eqb_spec (length pre + length k) (length pre)) as [H|_].
  { destruct k; [done|]. simpl in H. lia. }
  rewrite E2 at 1.
  replace (length pre + length k + 1)%nat with (length (pre ++ k ++ [x00]))
    by (rewrite !length_app; simpl; lia).
  rewrite find_nul_app by done. simpl mbind.
  replace (length pre + length k - length pre)%nat with (length k) by lia.
  rewrite drop_app_length, take_app_length.
  assert (length (lit "database") = 8%nat) as E8 by done.
  case_bool_decide as Hdb.
  - simpl mbind. apply Ok_Some_pair; rewrite Hdb, ?length_app, E8; simpl; lia.
  - rewrite E3.
    replace (length (pre ++ k ++ [x00]) + length v + 1)%nat
      with (length (pre ++ k ++ [x00] ++ v ++ [x00]))
      by (rewrite !length_app; simpl; lia).
    rewrite IH by lia.
    destruct (split_database fs) as [[[before w] after]|] eqn:Es; [|done].
    simpl mbind. rewrite fields_bytes_cons.
    apply Ok_Some_pair; rewrite !length_app; cbn [length fst snd];
      rewrite ?length_app; cbn [length]; rewrite ?length_app; cbn [length]; lia.
Qed.

Lemma fields_bytes_app fs gs : fields_bytes (fs ++ gs) = fields_bytes fs ++ fields_bytes gs.
Proof. unfold fields_bytes. by rewrite fmap_app, concat_app. Qed.

(** The parameters with the first [database] replaced, or one added. *)
Definition set_database (db : bytes) (fs : list (bytes * bytes)) : list (bytes * bytes) :=
  match split_database fs with
  | Some (before, _, after) => before ++ (lit "database", db) :: after
  | None => fs ++ [(lit "database", db)]
  end.

(** Writing the length of a packet with the right body gives the encoding. *)
Lemma set_packet_length_encode len_bytes version fs :
  length len_bytes = 4%nat → length version = 4%nat →
  zlength (fields_bytes fs) + 9 ≤ u32_max →
  set_packet_length (len_bytes ++ version ++ fields_bytes fs ++ [x00]) =
    Ok (encode_startup version fs).
Proof.
  intros Hl Hv Hsize. unfold set_packet_length, encode_startup.
  assert (zlength (len_bytes ++ version ++ fields_bytes fs ++ [x00]) =
          zlength (fields_bytes fs) + 9) as ->.
  { rewrite !length_app, Hl, Hv. simpl. lia. }
  destruct (Z.leb_spec (zlength (fields_bytes fs) + 9) u32_max); [|lia].
  by rewrite drop_app_length'.
Qed.

Lemma no_nul_existsb v : no_nul v → existsb is_nul v = false.
Proof. induction 1 as [|b v Hb _ IH]; simpl; [done|]. by rewrite Hb, IH. Qed.

Lemma rewrite_replaces pre before v after db :
  let packet := pre ++ fields_bytes (before ++ (lit "database", v) :: after) ++ [x00] in
  let key_end := (length pre + length (fields_bytes before) + 8)%nat in
  take (key_end + 1) packet ++ db ++ drop (key_end + 1 + length v) packet =
  pre ++ fields_bytes (before ++ (lit "database", db) :: after) ++ [x00].
Proof.
  intros packet key_end.
  set (front := pre ++ fields_bytes before ++ lit "database" ++ [x00]).
  assert (length front = (key_end + 1)%nat) as Hf.
  { unfold front, key_end. rewrite !length_app. simpl. lia. }
  assert (packet = front ++ v ++ x00 :: fields_bytes after ++ [x00]) as ->.
  { unfold packet, front. rewrite fields_bytes_app, fields_bytes_cons. cbn [fst snd].
    rewrite <-!app_assoc. cbn [app]. by rewrite <-!app_assoc. }
  rewrite take_app_length' by done.
  replace (drop _ _) with (x00 :: fields_bytes after ++ [x00]).
  - unfold front. rewrite fields_bytes_app, fields_bytes_cons. cbn [fst snd].
    rewrite <-!app_assoc. cbn [app]. by rewrite <-!app_assoc.
  - rewrite app_assoc, drop_app_length'; [done|]. rewrite length_app. lia.
Qed.

Lemma rewrite_encoded version fs db u :
  length version = 4%nat → Forall field_ok fs → db ≠ [] → no_nul db →
  zlength (fields_bytes fs) + 9 ≤ u32_max →
  zlength (fields_bytes (set_database db fs)) + 9 ≤ u32_max →
  fields_map fs ∅ !! lit "user" = Some u →
  startup_packet_with_database (encode_startup version fs) db =
    Ok (encode_startup version (set_database db fs)).
Proof.
  intros Hv Hfs Hne Hnul Hs1 Hs2 Hu. unfold startup_packet_with_database.
  rewrite parse_encoded by done. unfold route_of. rewrite Hu.
  cbn [mbind result_bind ok_or].
  destruct (encode_startup_parts version fs Hv) as (_ & _ & ->).
  rewrite bool_decide_false, no_nul_existsb, bool_decide_false by auto. cbn [orb].
  set (len_bytes := to_be 4 (zlength (fields_bytes fs) + 9)).
  assert (length len_bytes = 4%nat) as Hl by apply to_be_length.
  assert (encode_startup version fs = (len_bytes ++ version) ++ fields_bytes fs ++ [x00]) as E
    by (unfold encode_startup; by rewrite <-app_assoc).
  assert (STARTUP_HEADER_LEN = length (len_bytes ++ version)) as ->
    by (rewrite length_app, Hl, Hv; done).
  rewrite E, find_database_field_encoded;
    [|done|rewrite (length_app (len_bytes ++ version)), (length_app (fields_bytes fs)); simpl; lia].
  unfold set_database in *. destruct (split_database fs) as [[[before v] after]|] eqn:Es.
  - apply split_database_Some in Es as [-> _]. cbn [mbind option_bind result_bind].
    rewrite rewrite_replaces, <-app_assoc. by apply set_packet_length_encode.
  - cbn [mbind option_bind result_bind].
    rewrite <-(set_packet_length_encode len_bytes) by done. f_equal.
    rewrite (app_assoc _ (fields_bytes fs) [x00]), (length_app _ [x00]), Nat.add_sub.
    rewrite take_app_length, fields_bytes_app, fields_bytes_cons. cbn [fst snd].
    rewrite <-!app_assoc. cbn [app]. by rewrite <-!app_assoc.
Qed.

(** ** Routing theorems *)

Lemma fields_map_cons f fs m : fields_map (f :: fs) m = fields_map fs (<[f.1 := f.2]> m).
Proof. done. Qed.

Lemma fields_map_nil m : fields_map [] m = m.
Proof. done. Qed.

Lemma fields_map_skip fs m k :
  Forall (λ f, f.1 ≠ k) fs → fields_map fs m !! k = m !! k.
Proof.
  intros Hfs. revert m. induction Hfs as [|f fs Hf _ IH]; intros m; [done|].
  rewrite fields_map_cons, IH. by apply lookup_insert_ne.
Qed.

Lemma fields_map_agree fs m m' k :
  m !! k = m' !! k → fields_map fs m !! k = fields_map fs m' !! k.
Proof.
  revert m m'. induction fs as [|f fs IH]; intros m m' Hm; [done|].
  rewrite !fields_map_cons. apply IH. destruct (decide (f.1 = k)) as [->|]; [by rewrite !lookup_insert_eq|].
  by rewrite !lookup_insert_ne.
Qed.

Lemma fields_map_app fs gs m : fields_map (fs ++ gs) m = fields_map gs (fields_map fs m).
Proof. apply foldl_app. Qed.

(** The last parameter of a name hides those before it. *)
Lemma fields_map_last fs m k v : fields_map fs ∅ !! k = Some v → fields_map fs m !! k = Some v.
Proof.
  induction fs as [|f fs IH] using rev_ind; [done|].
  rewrite !fields_map_app, !fields_map_cons, !fields_map_nil.
  destruct (decide (f.1 = k)) as [->|]; [by rewrite !lookup_insert_eq|]. by rewrite !lookup_insert_ne.
Qed.

Lemma set_database_user db fs :
  fields_map (set_database db fs) ∅ !! lit "user" = fields_map fs ∅ !! lit "user".
Proof.
  unfold set_database. destruct (split_database fs) as [[[before v] after]|] eqn:E.
  - apply split_database_Some in E as [-> _]. rewrite !fields_map_app, !fields_map_cons.
    apply fields_map_agree. by rewrite !lookup_insert_ne.
  - rewrite fields_map_app, fields_map_cons, fields_map_nil. by apply lookup_insert_ne.
Qed.

(** At most one parameter is called [database]. *)
Definition database_unique (fs : list (bytes * bytes)) : Prop :=
  ∀ before v after, fs = before ++ (lit "database", v) :: after →
    Forall (λ f, f.1 ≠ lit "database") after.

Lemma set_database_database db fs :
  database_unique fs → fields_map (set_database db fs) ∅ !! lit "database" = Some db.
Proof.
  intros Hu. unfold set_database.
  destruct (split_database fs) as [[[before v] after]|] eqn:E;
    rewrite fields_map_app, fields_map_cons, ?fields_map_nil.
  - apply split_database_Some in E as [-> _].
    rewrite fields_map_skip by (by eapply Hu). by rewrite lookup_insert_eq.
  - by rewrite lookup_insert_eq.
Qed.

Lemma set_database_ok db fs :
  Forall field_ok fs → no_nul db → valid_utf8 db = true →
  Forall field_ok (set_database db fs).
Proof.
  intros Hfs Hn Hv.
  assert (field_ok (lit "database", db)) as Hd.
  { split_and!; try done. repeat constructor. }
  unfold set_database. destruct (split_database fs) as [[[before v] after]|] eqn:E.
  - apply split_database_Some in E as [-> _]. apply Forall_app in Hfs as [? Hfs].
    apply Forall_cons in Hfs as [_ ?]. apply Forall_app_2; [done|]. by constructor.
  - apply Forall_app_2; [done|]. by constructor.
Qed.

Lemma set_database_size db fs :
  zlength (fields_bytes (set_database db fs)) ≤ zlength (fields_bytes fs) + zlength db + 10.
Proof.
  unfold set_database. destruct (split_database fs) as [[[before v] after]|] eqn:E.
  - apply split_database_Some in E as [-> _].
    rewrite !fields_bytes_app, !fields_bytes_cons, !length_app. cbn [length fst snd].
    rewrite !length_app. cbn [length]. lia.
  - rewrite fields_bytes_app, fields_bytes_cons, !length_app. cbn. rewrite !length_app. cbn.
    change (length (fields_bytes [])) with 0%nat. lia.
Qed.

(** The gateway reads a startup message exactly: the route of an encoded
    message is its last [user] parameter and its last non-empty [database]
    parameter, and a message without [user] is refused. *)
Theorem startup_route_exact version fs :
  length version = 4%nat → Forall field_ok fs →
  zlength (fields_bytes fs) + 9 ≤ u32_max →
  parse_startup_route (encode_startup version fs) =
  match fields_map fs ∅ !! lit "user" with
  | None => Err (MissingField "user")
  | Some u =>
      Ok {| user := u; database := fields_map fs ∅ !! lit "database" ≫= non_empty |}
  end.
Proof.
  intros. rewrite parse_encoded by done. unfold route_of.
  by destruct (fields_map fs ∅ !! lit "user").
Qed.

(** C36. Rewriting sends the session to the resolved database.  For every
    well-formed startup message with at most one [database] parameter, the
    packet forwarded to the backend is a well-formed startup message of the same
    protocol version, for the same user, that routes to exactly the database the
    gateway resolved. *)
Theorem rewritten_startup_routes_to_database version fs db u :
  length version = 4%nat → Forall field_ok fs → database_unique fs →
  db ≠ [] → no_nul db → valid_utf8 db = true →
  zlength (fields_bytes fs) + zlength db + 19 ≤ u32_max →
  fields_map fs ∅ !! lit "user" = Some u →
  ∃ fs', startup_packet_with_database (encode_startup version fs) db =
           Ok (encode_startup version fs') ∧
         Forall field_ok fs' ∧
         parse_startup_route (encode_startup version fs') =
           Ok {| user := u; database := Some db |}.
Proof.
  intros Hv Hfs Huniq Hne Hn Hutf Hsize Hu. exists (set_database db fs).
  pose proof (set_database_size db fs) as Hs2. split_and!.
  - eapply rewrite_encoded; try done; lia.
  - by apply set_database_ok.
  - rewrite parse_encoded by (auto using set_database_ok; lia).
    unfold route_of. rewrite set_database_user, Hu, set_database_database by done.
    cbn. by destruct db.
Qed.

(** ** The startup conversation *)

(** A message: type byte, length (itself included), body. *)
Definition frame (t : byte) (body : bytes) : bytes := t :: to_be 4 (zlength body + 4) ++ body.

Definition framed (m : bytes) : Prop :=
  ∃ t body, m = frame t body ∧ zlength body + 4 ≤ MAX_POSTGRES_STARTUP_MESSAGE_BYTES.

Lemma read_message_framed m rest : framed m → read_message (m ++ rest) = Ok (m, rest).
Proof.
  intros (t & body & -> & Hlen). unfold read_message, frame.
  unfold MAX_POSTGRES_STARTUP_MESSAGE_BYTES in *.
  rewrite <-app_comm_cons, <-app_assoc, app_comm_cons.
  rewrite read_exact_app by (cbn; by rewrite to_be_length).
  cbn [mbind result_bind ok_or skipn]. rewrite drop_0, from_be_to_be by lia.
  destruct (Z.leb_spec 4 (zlength body + 4)); [|lia].
  destruct (Z.leb_spec (zlength body + 4) (1024 * 1024)); [|lia]. cbn [andb negb].
  unfold checked_add. destruct (Z.leb_spec (zlength body + 4 + 1) u64_max); [|int_lia].
  cbn [mbind result_bind ok_or].
  replace (Z.to_nat (zlength body + 4 + 1) - MESSAGE_HEADER_BYTES)%nat with (length body)
    by (unfold MESSAGE_HEADER_BYTES; lia).
  rewrite read_exact_app by done. done.
Qed.

Lemma read_message_Ok s m rest :
  read_message s = Ok (m, rest) → s = m ++ rest ∧ framed m.
Proof.
  unfold read_message. intros ([header s1] & Hr & H)%bind_Ok.
  apply ok_or_Ok, read_exact_Some in Hr as [-> Hh].
  destruct header as [|t lenb]; [done|]. rewrite skipn_cons, drop_0 in H.
  destruct (negb _) eqn:Hg; [done|]. apply negb_false_iff in Hg.
  apply bind_Ok in H as (total & Ht & ([body s2] & Hr & [= <- <-])%bind_Ok).
  apply ok_or_Ok, checked_add_Some in Ht as [-> _].
  apply ok_or_Ok, read_exact_Some in Hr as [-> Hb]. to_prop.
  split; [by rewrite app_assoc|]. exists t, body. unfold MESSAGE_HEADER_BYTES in *.
  assert (zlength body + 4 = from_be lenb) as E by lia.
  split; [|lia]. unfold frame. rewrite E. cbn [length] in Hh.
  replace 4%nat with (length lenb) by lia. by rewrite to_be_from_be.
Qed.

(** A turn of the conversation: a message of the backend and the reply of the
    client when it asks for one. *)
Record turn_ok (turn : bytes * option bytes) : Prop := {
  turn_framed : framed turn.1;
  turn_type : hd x00 turn.1 ≠ READY_FOR_QUERY ∧ hd x00 turn.1 ≠ ERROR_RESPONSE;
  turn_key : hd x00 turn.1 = BACKEND_KEY_DATA →
             is_Some (from_backend_data (drop MESSAGE_HEADER_BYTES turn.1));
  turn_auth : auth_needs_frontend_reply turn.1 = Ok (bool_decide (is_Some turn.2));
  turn_reply r : turn.2 = Some r → framed r;
}.

(** The key a turn announces. *)
Definition turn_cancel_key (previous : option CancelKey) (turn : bytes * option bytes) :
    option CancelKey :=
  if bool_decide (hd x00 turn.1 = BACKEND_KEY_DATA)
  then from_backend_data (drop MESSAGE_HEADER_BYTES turn.1) else previous.

Definition messages (turns : list (bytes * option bytes)) : bytes := concat turns.*1.
Definition replies (turns : list (bytes * option bytes)) : bytes :=
  concat ((λ t, default [] t.2) <$> turns).

Lemma proxy_startup_turn fuel key turn c_in b_in c_out b_out :
  turn_ok turn →
  proxy_startup_loop (S fuel) key
    {| client_in := default [] turn.2 ++ c_in; backend_in := turn.1 ++ b_in;
       client_out := c_out; backend_out := b_out |} =
  proxy_startup_loop fuel (turn_cancel_key key turn)
    {| client_in := c_in; backend_in := b_in;
       client_out := c_out ++ turn.1; backend_out := b_out ++ default [] turn.2 |}.
Proof.
  intros [Hf [Hz He] Hk Ha Hr]. cbn [proxy_startup_loop backend_in client_in client_out backend_out].
  rewrite (read_message_framed turn.1) by done. cbn [mbind result_bind].
  unfold turn_cancel_key. rewrite (bool_decide_false (_ = READY_FOR_QUERY)) by done.
  rewrite (bool_decide_false (_ = ERROR_RESPONSE)) by done. rewrite Ha.
  assert (∀ (k : option CancelKey),
    (needs_reply ← Ok (bool_decide (is_Some turn.2));
     if needs_reply : bool then
       '(reply, client_rest) ← read_message (default [] turn.2 ++ c_in);
       proxy_startup_loop fuel k
         {| client_in := client_rest; backend_in := b_in;
            client_out := c_out ++ turn.1; backend_out := b_out ++ reply |}
     else proxy_startup_loop fuel k
         {| client_in := default [] turn.2 ++ c_in; backend_in := b_in;
            client_out := c_out ++ turn.1; backend_out := b_out |}) =
    proxy_startup_loop fuel k
         {| client_in := c_in; backend_in := b_in; client_out := c_out ++ turn.1;
            backend_out := b_out ++ default [] turn.2 |}) as Hrest.
  { intros k. destruct (turn.2) as [r|] eqn:E; cbn.
    - by rewrite read_message_framed by (by apply Hr).
    - by rewrite app_nil_r. }
  destruct (decide (hd x00 turn.1 = BACKEND_KEY_DATA)) as [Hkey|Hkey].
  - rewrite (bool_decide_true (_ = BACKEND_KEY_DATA)) by done.
    destruct (Hk Hkey) as [k ->]. apply Hrest.
  - rewrite (bool_decide_false (_ = BACKEND_KEY_DATA)) by done. apply Hrest.
Qed.

Lemma proxy_startup_turns turns fuel key c_in b_in c_out b_out :
  Forall turn_ok turns →
  proxy_startup_loop (length turns + fuel) key
    {| client_in := replies turns ++ c_in; backend_in := messages turns ++ b_in;
       client_out := c_out; backend_out := b_out |} =
  proxy_startup_loop fuel (foldl turn_cancel_key key turns)
    {| client_in := c_in; backend_in := b_in;
       client_out := c_out ++ messages turns; backend_out := b_out ++ replies turns |}.
Proof.
  intros Hts. revert key c_out b_out. induction Hts as [|t ts Ht _ IH]; intros key c_out b_out.
  { by rewrite !app_nil_r. }
  assert (messages (t :: ts) = t.1 ++ messages ts) as -> by done.
  assert (replies (t :: ts) = default [] t.2 ++ replies ts) as -> by done.
  rewrite <-!app_assoc. cbn [length Nat.add].
  rewrite proxy_startup_turn, IH by done. by rewrite <-!app_assoc.
Qed.

(** The startup conversation is relayed faithfully and stops in time.  For
    every well-formed conversation that ends in [ReadyForQuery], the proxy
    terminates, has forwarded exactly the backend's messages to the client and
    exactly the client's replies to the backend, holds back the
    [ReadyForQuery] itself, consumes nothing beyond it, and returns the cancel
    key announced last. *)
Theorem proxy_startup_relays turns body c_rest b_rest :
  Forall turn_ok turns → framed (frame READY_FOR_QUERY body) →
  proxy_startup {| client_in := replies turns ++ c_rest;
                   backend_in := messages turns ++ frame READY_FOR_QUERY body ++ b_rest;
                   client_out := []; backend_out := [] |} =
  Ok (Some {| startup_key := foldl turn_cancel_key None turns;
              ready := frame READY_FOR_QUERY body |},
      {| client_in := c_rest; backend_in := b_rest;
         client_out := messages turns; backend_out := replies turns |}).
Proof.
  intros Hts Hz. unfold proxy_startup. cbn [backend_in].
  assert (∃ fuel, S (length (messages turns ++ frame READY_FOR_QUERY body ++ b_rest)) =
                  (length turns + S fuel)%nat) as [fuel ->].
  { assert (length turns ≤ length (messages turns))%nat as Hle.
    { clear Hz. induction Hts as [|t ts [(ty & b & E & _) _ _ _ _] _ IH]; [done|].
      unfold messages in *. rewrite fmap_cons. cbn [concat length]. rewrite length_app, E.
      cbn [length frame]. lia. }
    exists (length (messages turns ++ frame READY_FOR_QUERY body ++ b_rest) - length turns)%nat.
    rewrite length_app. lia. }
  rewrite proxy_startup_turns by done.
  cbn [proxy_startup_loop backend_in]. rewrite read_message_framed by done. done.
Qed.

(** The registry as the live sessions see it: every session that registered a
    key and has not ended holds it, with its target. *)
Section registry_world.
Context {Target : Type}.

(** A session that finished its startup: its registration and its target. *)
Record RegistryWorld := mkRegistryWorld {
  targets : Registry Target;
  live : list (option CancelKey * Target);
}.

Inductive registry_step : RegistryWorld → RegistryWorld → Prop :=
  | registry_finish w s target key out targets' :
      finish s target (targets w) = Ok (key, out, targets') →
      registry_step w {| targets := targets'; live := (key, target) :: live w |}
  | registry_drop w before key target after :
      live w = before ++ (key, target) :: after →
      registry_step w {| targets := cancel_registration_drop key (targets w);
                         live := before ++ after |}.

Definition registry_inv (w : RegistryWorld) : Prop :=
  (∀ k t, targets w !! k = Some t ↔ (Some k, t) ∈ live w) ∧
  NoDup (omap fst (live w)) ∧
  Z.of_nat (size (targets w)) ≤ MAX_ACTIVE_POSTGRES_CANCEL_KEYS.

Lemma live_key_unique l (k : CancelKey) (t t' : Target) :
  NoDup (omap fst l) → (Some k, t) ∈ l → (Some k, t') ∈ l → t = t'.
Proof.
  assert (∀ (l : list (option CancelKey * Target)) t, (Some k, t) ∈ l → k ∈ omap fst l) as Hin.
  { intros l0 t0 H. apply list_elem_of_omap. by exists (Some k, t0). }
  induction l as [|[[k'|] x] l IH]; cbn; [by intros _ ?%elem_of_nil|..].
  - intros [Hn Hd]%NoDup_cons [?|?]%elem_of_cons [?|?]%elem_of_cons; simplify_eq; eauto;
      exfalso; eauto.
  - intros Hd [?|?]%elem_of_cons [?|?]%elem_of_cons; simplify_eq; eauto.
Qed.

Lemma registry_finish_inv w s target key out targets' :
  registry_inv w → finish s target (targets w) = Ok (key, out, targets') →
  registry_inv {| targets := targets'; live := (key, target) :: live w |}.
Proof.
  intros (Hl & Hnd & Hsize). unfold finish. destruct (startup_key s) as [k|].
  - case_bool_decide as Hk; [done|]. destruct (Z.leb_spec MAX_ACTIVE_POSTGRES_CANCEL_KEYS (Z.of_nat (size (targets w)))); [done|].
    intros [= <- <- <-]. apply eq_None_not_Some in Hk. split_and!; cbn.
    + intros k' t. rewrite elem_of_cons, <-Hl.
      destruct (decide (k' = k)) as [->|Hne].
      * rewrite lookup_insert_eq, Hk. naive_solver.
      * rewrite lookup_insert_ne by done. naive_solver.
    + apply NoDup_cons. split; [|done].
      intros ([k' t] & Hin & E)%list_elem_of_omap. cbn in E. simplify_eq.
      apply Hl in Hin. congruence.
    + rewrite map_size_insert_None by done. lia.
  - intros [= <- <- <-]. split_and!; cbn; try done.
    intros k' t. rewrite elem_of_cons, <-Hl. naive_solver.
Qed.

Lemma registry_drop_inv w before key target after :
  registry_inv w → live w = before ++ (key, target) :: after →
  registry_inv {| targets := cancel_registration_drop key (targets w);
                  live := before ++ after |}.
Proof.
  intros (Hl & Hnd & Hsize) E. rewrite E in Hl, Hnd. rewrite omap_app in Hnd.
  destruct key as [k|]; cbn in *.
  - apply NoDup_app in Hnd as (Hb & Hdis & [Hn Ha]%NoDup_cons). split_and!; cbn.
    + intros k' t. rewrite lookup_delete_Some, Hl, !elem_of_app, elem_of_cons.
      assert ((Some k, t) ∉ before ++ after) as Hfree.
      { intros [H|H]%elem_of_app.
        - apply (Hdis k); [|by left]. apply list_elem_of_omap. by exists (Some k, t).
        - apply Hn, list_elem_of_omap. by exists (Some k, t). }
      rewrite elem_of_app in Hfree. naive_solver.
    + rewrite omap_app. apply NoDup_app. split_and!; try done.
      intros x Hx Hx'. apply (Hdis x Hx). by right.
    + pose proof (map_size_delete k (targets w)) as Hd. rewrite Hd. case_match; unfold id; lia.
  - split_and!; cbn; try done.
    + intros k' t. rewrite Hl, !elem_of_app, elem_of_cons. naive_solver.
    + by rewrite omap_app.
Qed.

(** Cancel requests reach only their own session.  Whatever sessions have
    come and gone, a cancel key is forwarded exactly when a live session
    registered it, to the target of that session and of no other, and the
    registry never exceeds its bound. *)
Theorem cancel_reaches_own_session w :
  rtc registry_step {| targets := ∅; live := [] |} w →
  (∀ k t, forward_cancel k (targets w) = Some t ↔ (Some k, t) ∈ live w) ∧
  (∀ k t t', (Some k, t) ∈ live w → (Some k, t') ∈ live w → t = t') ∧
  Z.of_nat (size (targets w)) ≤ MAX_ACTIVE_POSTGRES_CANCEL_KEYS.
Proof.
  intros Hr. assert (registry_inv w) as (Hl & Hnd & Hs).
  { revert Hr. apply (rtc_ind_r registry_inv).
    - split_and!; cbn; [|constructor|by rewrite map_size_empty].
      intros k t. rewrite lookup_empty. split; [done|by intros ?%elem_of_nil].
    - intros w1 w2 _ [] ?; eauto using registry_finish_inv, registry_drop_inv. }
  split_and!; [done| |done]. intros. by eapply live_key_unique.
Qed.
End registry_world.

(** ** Examples *)

Module PgDemo.

Definition demo_version : bytes := [x00; x03; x00; x00].
Definition demo_fields : list (bytes * bytes) :=
  [(lit "user", lit "app"); (lit "application_name", lit "psql")].

Lemma lit_ok k v :
  lit k ≠ [] → no_nul (lit k) → no_nul (lit v) → valid_utf8 (lit k) = true →
  valid_utf8 (lit v) = true → field_ok (lit k, lit v).
Proof. intros; by split_and!. Qed.

Lemma demo_fields_ok : Forall field_ok demo_fields.
Proof. repeat apply Forall_cons_2; try apply lit_ok; try done; repeat constructor. Qed.

Lemma demo_unique : database_unique demo_fields.
Proof.
  intros before v after E. exfalso.
  assert ((lit "database", v) ∈ demo_fields) as Hin by (rewrite E; set_solver).
  unfold demo_fields in Hin. rewrite !elem_of_cons in Hin.
  destruct Hin as [?|[?|?%elem_of_nil]]; simplify_eq; done.
Qed.

(** The backend asks for a password, accepts it and announces a cancel key. *)
Definition demo_turns : list (bytes * option bytes) :=
  [(frame "R"%byte (to_be 4 3), Some (frame "p"%byte (lit "secret")));
   (frame "R"%byte (to_be 4 0), None);
   (frame "K"%byte (to_be 4 123 ++ to_be 4 456), None)].

Lemma framed_small t body : zlength body ≤ 100 → framed (frame t body).
Proof. intros H. exists t, body. split; [done|]. unfold MAX_POSTGRES_STARTUP_MESSAGE_BYTES. lia. Qed.

Lemma frame_body t body : drop MESSAGE_HEADER_BYTES (frame t body) = body.
Proof. by apply (drop_app_length' (t :: to_be 4 (zlength body + 4))). Qed.

Lemma turn_ok_frame t body r :
  zlength body ≤ 100 → t ≠ READY_FOR_QUERY → t ≠ ERROR_RESPONSE →
  (t = BACKEND_KEY_DATA → is_Some (from_backend_data body)) →
  auth_needs_frontend_reply (frame t body) = Ok (bool_decide (is_Some r)) →
  (∀ m, r = Some m → framed m) → turn_ok (frame t body, r).
Proof.
  intros Hl Hz He Hk Ha Hr.
  split; [by apply framed_small|done|cbn [fst]; by rewrite frame_body|done|done].
Qed.

Lemma demo_turns_ok : Forall turn_ok demo_turns.
Proof.
  repeat apply Forall_cons_2; [..|apply Forall_nil_2].
  - apply turn_ok_frame; [done..|by vm_compute|]. intros m [= <-]. by apply framed_small.
  - apply turn_ok_frame; [done..|by vm_compute|done].
  - apply turn_ok_frame; [done..|intros _; by eexists|by vm_compute|done].
Qed.

End PgDemo.

Import PgDemo.

Lemma startup_route_exact_witness :
  parse_startup_route (encode_startup demo_version demo_fields) =
    Ok {| user := lit "app"; database := None |}.
Proof.
  rewrite (startup_route_exact demo_version demo_fields);
    [by vm_compute|done|apply demo_fields_ok|by vm_compute].
Defined.

Lemma rewritten_startup_routes_to_database_witness :
  ∃ fs', startup_packet_with_database (encode_startup demo_version demo_fields) (lit "db") =
           Ok (encode_startup demo_version fs') ∧ Forall field_ok fs' ∧
         parse_startup_route (encode_startup demo_version fs') =
           Ok {| user := lit "app"; database := Some (lit "db") |}.
Proof.
  apply (rewritten_startup_routes_to_database demo_version demo_fields (lit "db") (lit "app"));
    [done|apply demo_fields_ok|apply demo_unique|done|repeat constructor|done
    |by vm_compute|by vm_compute].
Defined.

Lemma proxy_startup_relays_witness :
  ∃ c, proxy_startup
    {| client_in := replies demo_turns ++ lit "query"; 
       backend_in := messages demo_turns ++ frame READY_FOR_QUERY (lit "I") ++ [];
       client_out := []; backend_out := [] |} =
  Ok (Some {| startup_key := Some {| process_id := 123; secret := to_be 4 456 |};
              ready := frame READY_FOR_QUERY (lit "I") |}, c) ∧
  client_in c = lit "query".
Proof.
  eexists. split.
  - rewrite (proxy_startup_relays demo_turns (lit "I") (lit "query") []);
      [vm_compute; reflexivity|apply demo_turns_ok|by apply framed_small].
  - vm_compute. reflexivity.
Defined.

Lemma cancel_reaches_own_session_witness :
  let key := {| process_id := 123; secret := to_be 4 456 |} in
  forward_cancel key (<[key := 7%nat]> ∅) = Some 7%nat.
Proof.
  intros key.
  destruct (cancel_reaches_own_session
    {| targets := <[key := 7%nat]> ∅; live := [(Some key, 7%nat)] |}) as (H & _).
  - apply rtc_once.
    apply (registry_finish {| targets := ∅; live := [] |}
             {| startup_key := Some key; ready := [] |} 7%nat (Some key) []).
    reflexivity.
  - apply H. by left.
Defined.
