(* ===== verification/RouteStore.v ===== *)
(** * The instance store and its gateway routes

    Models [server/state.rs]: the in-memory store of managed instances, the
    route tables the gateway resolves clients with, the fences that take an
    instance off the gateway, and the revisions that detect a route gone stale
    while a client was authenticating.  [server/metadata.rs] and
    [server/placement/policy.rs] give the metadata and the connection limit.

    Every operation runs under the store's lock, so it is a function on
    [InstanceState].  SHA-256 is a parameter of the development. *)
From S2P Require Import Prelude Engines.

Local Open Scope Z_scope.

(** ** Metadata *)

Inductive InstanceStatus :=
  | Creating | Booting | Running | Stopped | Failed | Quarantined | Deleting.
#[export] Instance InstanceStatus_eq_dec : EqDecision InstanceStatus.
Proof. solve_decision. Defined.

Inductive DesiredInstanceState := DesiredRunning | DesiredStopped.
#[export] Instance DesiredInstanceState_eq_dec : EqDecision DesiredInstanceState.
Proof. solve_decision. Defined.

Inductive DeploymentMode := Dedicated | SharedMode.
#[export] Instance DeploymentMode_eq_dec : EqDecision DeploymentMode.
Proof. solve_decision. Defined.

Inductive BackendEndpoint :=
  | UnixSocket (socket_path : string)
  | DockerTcp (host : string) (port : Z).
#[export] Instance BackendEndpoint_eq_dec : EqDecision BackendEndpoint.
Proof. solve_decision. Defined.

Record DatabaseIdentity := mkDatabaseIdentity { name : string; username : string }.

(** The limits the daemon decides on; the CPU share is a float it only passes on. *)
Record InstanceLimits := mkInstanceLimits {
  limit_memory_mib : Z;
  limit_disk_mib : Z;
  disk_enforcement_method : string;
}.

Record PoolOwner := mkPoolOwner { panel_id : string; server_id : string }.
#[export] Instance PoolOwner_eq_dec : EqDecision PoolOwner.
Proof. solve_decision. Defined.

Record InstanceImageStatus := mkImageStatus {
  image_current : option string;
  image_configured : string;
  update_available : bool;
}.
#[export] Instance InstanceImageStatus_eta : Settable InstanceImageStatus :=
  λ i, mkImageStatus (image_current i) (image_configured i) (update_available i).

(** A diagnostic is its text. *)
Record InstanceDatabaseVersion := mkDatabaseVersion {
  version_current : option string;
  version_error : option string;
}.

(** The fields of [InstanceMetadata] the store, the placement and the disk
    limiter read or write; [placed_runtime_id] is the field [runtime_id]. *)
Record InstanceMetadata := mkMetadata {
  instance_id : string;
  deployment_mode : DeploymentMode;
  protocol : Protocol;
  status : InstanceStatus;
  desired_state : DesiredInstanceState;
  disk_limit_blocked : bool;
  backend : BackendEndpoint;
  identity : DatabaseIdentity;
  route_key_sha256 : option string;
  mariadb_native_password_sha1_stage2 : option string;
  mysql_native_password_sha1_stage2 : option string;
  tenant_password : option string;
  limits : InstanceLimits;
  created_at : string;
  updated_at : string;
  instance_owner : option PoolOwner;
  placed_runtime_id : string;
  image : option InstanceImageStatus;
  database_version : option InstanceDatabaseVersion;
}.
#[export] Instance InstanceMetadata_eta : Settable InstanceMetadata :=
  λ m, mkMetadata (instance_id m) (deployment_mode m) (protocol m) (status m) (desired_state m)
    (disk_limit_blocked m) (backend m) (identity m) (route_key_sha256 m)
    (mariadb_native_password_sha1_stage2 m) (mysql_native_password_sha1_stage2 m)
    (tenant_password m) (limits m) (created_at m) (updated_at m) (instance_owner m)
    (placed_runtime_id m) (image m) (database_version m).

(** [placement::policy::max_connections]. *)
Definition MEMORY_MIB_PER_CONNECTION : Z := 32.
Definition MIN_CONNECTIONS : Z := 4.
Definition MAX_CONNECTIONS : Z := 100.
Definition max_connections (l : InstanceLimits) : Z :=
  let bounded := clamp MIN_CONNECTIONS MAX_CONNECTIONS
                   (limit_memory_mib l / MEMORY_MIB_PER_CONNECTION) in
  if bounded <=? u32_max then bounded else 100.

Definition connection_limit (m : InstanceMetadata) : option Z :=
  if bool_decide (deployment_mode m = SharedMode) then Some (max_connections (limits m)) else None.

Definition route_eligible (m : InstanceMetadata) : bool :=
  bool_decide (status m = Running) && bool_decide (desired_state m = DesiredRunning)
  && negb (disk_limit_blocked m).

(** ** State *)

Abbreviation DbRoutes := (gmap (string * string) string).
Abbreviation PasswordRoutes := (gmap string (gset string)).

Record InstanceState := mkInstanceState {
  instances : gmap string InstanceMetadata;
  fenced_instances : gset string;
  pinned_fences : gset string;
  route_revisions : gmap string Z;
  next_route_revision : Z;
  postgres_routes : DbRoutes;
  mariadb_routes : DbRoutes;
  mysql_routes : DbRoutes;
  mongodb_routes : DbRoutes;
  clickhouse_routes : DbRoutes;
  qdrant_routes : gmap string string;
  redis_routes : gmap string string;
  valkey_routes : gmap string string;
  redis_password_routes : PasswordRoutes;
  valkey_password_routes : PasswordRoutes;
}.
#[export] Instance InstanceState_eta : Settable InstanceState :=
  λ r, mkInstanceState (instances r) (fenced_instances r) (pinned_fences r)
    (route_revisions r) (next_route_revision r) (postgres_routes r) (mariadb_routes r)
    (mysql_routes r) (mongodb_routes r) (clickhouse_routes r) (qdrant_routes r)
    (redis_routes r) (valkey_routes r) (redis_password_routes r) (valkey_password_routes r).

Definition instance_state_default : InstanceState :=
  mkInstanceState ∅ ∅ ∅ ∅ 0 ∅ ∅ ∅ ∅ ∅ ∅ ∅ ∅ ∅ ∅.

Definition route_revision (id : string) (st : InstanceState) : Z :=
  default 0 (route_revisions st !! id).

Definition bump_route_revision (id : string) (st : InstanceState) : InstanceState :=
  let next := Z.max (wrapping_add u64_max (next_route_revision st) 1) 1 in
  st <| next_route_revision := next |> <| route_revisions := <[id := next]> (route_revisions st) |>.

(** [HashMap::retain] on the routed instance. *)
Definition retain_others `{Countable K} (id : string) (routes : gmap K string) : gmap K string :=
  filter (λ kv, kv.2 ≠ id) routes.

Definition remove_password_route (id : string) (routes : PasswordRoutes) : PasswordRoutes :=
  omap (λ ids : gset string,
          let ids := ids ∖ {[id]} in if bool_decide (ids = ∅) then None else Some ids) routes.

Definition remove_routes_for (id : string) (st : InstanceState) : InstanceState :=
  st <| postgres_routes ::= retain_others id |>
     <| mariadb_routes ::= retain_others id |>
     <| mysql_routes ::= retain_others id |>
     <| mongodb_routes ::= retain_others id |>
     <| clickhouse_routes ::= retain_others id |>
     <| qdrant_routes ::= retain_others id |>
     <| redis_routes ::= retain_others id |>
     <| valkey_routes ::= retain_others id |>
     <| redis_password_routes ::= remove_password_route id |>
     <| valkey_password_routes ::= remove_password_route id |>.

(** ** Resolution results *)

Record RouteTarget := mkRouteTarget {
  target_instance_id : string;
  target_generation : string;
  target_endpoint : BackendEndpoint;
  target_connection_limit : option Z;
  target_revision : Z;
}.

#[export] Instance RouteTarget_eq_dec : EqDecision RouteTarget.
Proof. solve_decision. Defined.

Record MariadbRouteTarget := mkMariadbRouteTarget {
  maria_instance_id : string;
  maria_generation : string;
  maria_endpoint : BackendEndpoint;
  maria_shared : bool;
  maria_verifier : option string;
  maria_tenant_password : option string;
  maria_connection_limit : option Z;
  maria_revision : Z;
}.

Inductive DatabaseRouteResolution (T : Type) :=
  | Found (db : string) (target : T)
  | NotFound
  | Ambiguous.
Arguments Found {T} _ _.
Arguments NotFound {T}.
Arguments Ambiguous {T}.

Inductive RouteKeyResolution :=
  | KeyFound (db id : string)
  | KeyNotFound
  | KeyAmbiguous.

(** [resolve_database_route]; the iteration of a hash map visits its entries
    once each, in some order. *)
Definition resolve_database_route (routes : DbRoutes) (user : string) (db : option string) :
    RouteKeyResolution :=
  match db ≫= (λ d, if bool_decide (d = "") then None else Some d) with
  | Some d =>
      match routes !! (user, d) with
      | Some id => KeyFound d id
      | None => KeyNotFound
      end
  | None =>
      match map_to_list (filter (λ kv, kv.1.1 = user) routes) with
      | [] => KeyNotFound
      | [((_, d), id)] => KeyFound d id
      | _ => KeyAmbiguous
      end
  end.

Definition resolve_database_target {T : Type} (st : InstanceState) (routes : DbRoutes)
    (user : string) (db : option string) (build_target : string → InstanceMetadata → T) :
    DatabaseRouteResolution T :=
  match resolve_database_route routes user db with
  | KeyFound d id =>
      match instances st !! id with
      | Some m => Found d (build_target id m)
      | None => NotFound
      end
  | KeyNotFound => NotFound
  | KeyAmbiguous => Ambiguous
  end.

Definition route_target (st : InstanceState) (id : string) (m : InstanceMetadata) : RouteTarget :=
  {| target_instance_id := instance_id m; target_generation := created_at m;
     target_endpoint := backend m; target_connection_limit := connection_limit m;
     target_revision := route_revision id st |}.

Definition route_target_for (st : InstanceState) (id : string) : option RouteTarget :=
  route_target st id <$> instances st !! id.

Definition mariadb_target (st : InstanceState)
    (verifier : InstanceMetadata → option string) (id : string) (m : InstanceMetadata) :
    MariadbRouteTarget :=
  {| maria_instance_id := instance_id m; maria_generation := created_at m;
     maria_endpoint := backend m;
     maria_shared := bool_decide (deployment_mode m = SharedMode);
     maria_verifier := verifier m; maria_tenant_password := tenant_password m;
     maria_connection_limit := connection_limit m; maria_revision := route_revision id st |}.

Definition resolve_plain_route (st : InstanceState) (routes : DbRoutes) (user : string)
    (db : option string) : DatabaseRouteResolution RouteTarget :=
  resolve_database_target st routes user db (route_target st).

Definition resolve_mariadb_route (st : InstanceState) (routes : DbRoutes) (user : string)
    (db : option string) (verifier : InstanceMetadata → option string) :
    DatabaseRouteResolution MariadbRouteTarget :=
  resolve_database_target st routes user db (mariadb_target st verifier).

Definition resolve_postgres (st : InstanceState) (user : string) (db : option string) :=
  resolve_plain_route st (postgres_routes st) user db.
Definition resolve_clickhouse (st : InstanceState) (user : string) (db : option string) :=
  resolve_plain_route st (clickhouse_routes st) user db.
Definition resolve_mariadb (st : InstanceState) (user : string) (db : option string) :=
  resolve_mariadb_route st (mariadb_routes st) user db mariadb_native_password_sha1_stage2.
Definition resolve_mysql (st : InstanceState) (user : string) (db : option string) :=
  resolve_mariadb_route st (mysql_routes st) user db mysql_native_password_sha1_stage2.
Definition resolve_mongodb (st : InstanceState) (user db : string) : option RouteTarget :=
  id ← mongodb_routes st !! (user, db); route_target_for st id.
Definition resolve_redis (st : InstanceState) (user : string) : option RouteTarget :=
  id ← redis_routes st !! user; route_target_for st id.
Definition resolve_valkey (st : InstanceState) (user : string) : option RouteTarget :=
  id ← valkey_routes st !! user; route_target_for st id.
Definition resolve_qdrant (st : InstanceState) (key : string) : option RouteTarget :=
  id ← qdrant_routes st !! key; route_target_for st id.

Definition resolve_password_route (st : InstanceState) (routes : PasswordRoutes)
    (sha : string) : option (string * RouteTarget) :=
  ids ← routes !! sha;
  if negb (size ids =? 1)%nat then None
  else
    id ← head (elements ids);
    m ← instances st !! id;
    Some (username (identity m), route_target st id m).

Definition resolve_redis_password (st : InstanceState) (sha : string) :=
  resolve_password_route st (redis_password_routes st) sha.
Definition resolve_valkey_password (st : InstanceState) (sha : string) :=
  resolve_password_route st (valkey_password_routes st) sha.

Definition route_is_current (st : InstanceState) (id : string) (revision : Z) : bool :=
  negb (bool_decide (id ∈ fenced_instances st))
  && bool_decide (route_revisions st !! id = Some revision).

Definition routes_fenced (st : InstanceState) (id : string) : bool :=
  bool_decide (id ∈ fenced_instances st).

(** ** Operations *)

Section store.
(** [hex::encode(Sha256::digest(password))], [password_route_sha256] of
    [gateway/protocols/redis.rs]. *)
Context (password_route_sha256 : string → string).

Definition add_password_route (routes : PasswordRoutes) (password : option string)
    (id : string) : PasswordRoutes :=
  match password with
  | None => routes
  | Some password =>
      let key := password_route_sha256 password in
      <[key := default ∅ (routes !! key) ∪ {[id]}]> routes
  end.

Definition publish_routes (m : InstanceMetadata) (st : InstanceState) : InstanceState :=
  let id := instance_id m in
  let user := username (identity m) in
  let key := (username (identity m), name (identity m)) in
  match protocol m with
  | Postgres => st <| postgres_routes ::= <[key := id]> |>
  | Redis => st <| redis_routes ::= <[user := id]> |>
                <| redis_password_routes :=
                     add_password_route (redis_password_routes st) (tenant_password m) id |>
  | Valkey => st <| valkey_routes ::= <[user := id]> |>
                 <| valkey_password_routes :=
                      add_password_route (valkey_password_routes st) (tenant_password m) id |>
  | Mariadb => st <| mariadb_routes ::= <[key := id]> |>
  | Mysql => st <| mysql_routes ::= <[key := id]> |>
  | Mongodb => st <| mongodb_routes ::= <[key := id]> |>
  | Clickhouse => st <| clickhouse_routes ::= <[key := id]> |>
  | Qdrant =>
      match route_key_sha256 m with
      | Some sha => st <| qdrant_routes ::= <[sha := id]> |>
      | None => st
      end
  end.

Definition upsert (m : InstanceMetadata) (st : InstanceState) : InstanceState :=
  let id := instance_id m in
  let st := remove_routes_for id (bump_route_revision id st) in
  if bool_decide (id ∈ pinned_fences st) then
    st <| fenced_instances ::= (.∪ {[id]}) |> <| instances ::= <[id := m]> |>
  else
    let st := st <| fenced_instances ::= (.∖ {[id]}) |> in
    let st := if route_eligible m then publish_routes m st else st in
    st <| instances ::= <[id := m]> |>.

Definition upsert_fenced (m : InstanceMetadata) (st : InstanceState) : InstanceState :=
  let id := instance_id m in
  let st := remove_routes_for id (bump_route_revision id st) in
  st <| fenced_instances ::= (.∪ {[id]}) |> <| instances ::= <[id := m]> |>.

Definition upsert_preserving_fence (m : InstanceMetadata) (st : InstanceState) : InstanceState :=
  let was_open :=
    match instances st !! instance_id m with Some old => route_eligible old | None => false end
    && negb (bool_decide (instance_id m ∈ fenced_instances st)) in
  if was_open then upsert m st else upsert_fenced m st.

Definition fence_existing (id : string) (st : InstanceState) : bool * InstanceState :=
  match instances st !! id with
  | None => (false, st)
  | Some _ =>
      let st := remove_routes_for id (bump_route_revision id st) in
      (true, st <| fenced_instances ::= (.∪ {[id]}) |>)
  end.

Definition from_instances (ms : list InstanceMetadata) : InstanceState :=
  foldl (λ st m, upsert m st) instance_state_default ms.

Definition replace_all (ms : list InstanceMetadata) (st : InstanceState) : InstanceState :=
  from_instances ms.

Definition open_routes (m : InstanceMetadata) (st : InstanceState) : InstanceState :=
  upsert m (st <| pinned_fences ::= (.∖ {[instance_id m]}) |>).

Definition fence_routes (id : string) (st : InstanceState) : bool * InstanceState :=
  fence_existing id st.

Definition pin_routes_fenced (id : string) (st : InstanceState) : bool * InstanceState :=
  match fence_existing id st with
  | (false, st) => (false, st)
  | (true, st) => (true, st <| pinned_fences ::= (.∪ {[id]}) |>)
  end.

Definition remove (id : string) (st : InstanceState) :
    option InstanceMetadata * InstanceState :=
  let st := remove_routes_for id (bump_route_revision id st) in
  (instances st !! id,
   st <| fenced_instances ::= (.∖ {[id]}) |> <| pinned_fences ::= (.∖ {[id]}) |>
      <| route_revisions ::= delete id |> <| instances ::= delete id |>).

(** The operations of the store, as one command type. *)
Inductive Command :=
  | ReplaceAll (ms : list InstanceMetadata)
  | Upsert (m : InstanceMetadata)
  | UpsertFenced (m : InstanceMetadata)
  | UpsertPreservingFence (m : InstanceMetadata)
  | OpenRoutes (m : InstanceMetadata)
  | Remove (id : string)
  | FenceRoutes (id : string)
  | PinRoutesFenced (id : string).

Definition run (c : Command) (st : InstanceState) : InstanceState :=
  match c with
  | ReplaceAll ms => replace_all ms st
  | Upsert m => upsert m st
  | UpsertFenced m => upsert_fenced m st
  | UpsertPreservingFence m => upsert_preserving_fence m st
  | OpenRoutes m => open_routes m st
  | Remove id => (remove id st).2
  | FenceRoutes id => (fence_routes id st).2
  | PinRoutesFenced id => (pin_routes_fenced id st).2
  end.

Definition run_all (cs : list Command) (st : InstanceState) : InstanceState :=
  foldl (λ st c, run c st) st cs.

(** ** What routes where *)

(** Everything a client can be looked up by. *)
Inductive RouteKey :=
  | KDatabase (p : Protocol) (user db : string)
  | KUser (p : Protocol) (user : string)
  | KApiKey (sha : string)
  | KPassword (p : Protocol) (sha : string).

Definition database_routes (p : Protocol) (st : InstanceState) : DbRoutes :=
  match p with
  | Postgres => postgres_routes st
  | Mariadb => mariadb_routes st
  | Mysql => mysql_routes st
  | Mongodb => mongodb_routes st
  | Clickhouse => clickhouse_routes st
  | _ => ∅
  end.

Definition user_routes (p : Protocol) (st : InstanceState) : gmap string string :=
  match p with Redis => redis_routes st | Valkey => valkey_routes st | _ => ∅ end.

Definition password_routes (p : Protocol) (st : InstanceState) : PasswordRoutes :=
  match p with
  | Redis => redis_password_routes st
  | Valkey => valkey_password_routes st
  | _ => ∅
  end.

(** The route tables send key [k] to instance [id]. *)
Definition routed (st : InstanceState) (k : RouteKey) (id : string) : Prop :=
  match k with
  | KDatabase p u d => database_routes p st !! (u, d) = Some id
  | KUser p u => user_routes p st !! u = Some id
  | KApiKey s => qdrant_routes st !! s = Some id
  | KPassword p s => ∃ ids, password_routes p st !! s = Some ids ∧ id ∈ ids
  end.

Definition has_databases (p : Protocol) : bool :=
  match p with Postgres | Mariadb | Mysql | Mongodb | Clickhouse => true | _ => false end.
Definition has_users (p : Protocol) : bool :=
  match p with Redis | Valkey => true | _ => false end.

(** The keys an instance answers to. *)
Definition publishes (m : InstanceMetadata) (k : RouteKey) : Prop :=
  match k with
  | KDatabase p u d =>
      protocol m = p ∧ has_databases p = true ∧
      username (identity m) = u ∧ name (identity m) = d
  | KUser p u => protocol m = p ∧ has_users p = true ∧ username (identity m) = u
  | KApiKey s => protocol m = Qdrant ∧ route_key_sha256 m = Some s
  | KPassword p s =>
      protocol m = p ∧ has_users p = true ∧
      ∃ pw, tenant_password m = Some pw ∧ password_route_sha256 pw = s
  end.

(** A key that can belong to several instances. *)
Definition shared_key (k : RouteKey) : bool :=
  match k with KPassword _ _ => true | _ => false end.

Lemma retain_others_Some `{Countable K} id (routes : gmap K string) k id' :
  retain_others id routes !! k = Some id' ↔ routes !! k = Some id' ∧ id' ≠ id.
Proof. unfold retain_others. by rewrite map_lookup_filter_Some. Qed.

Lemma remove_password_route_Some id routes s id' :
  (∃ ids, remove_password_route id routes !! s = Some ids ∧ id' ∈ ids) ↔
  (∃ ids, routes !! s = Some ids ∧ id' ∈ ids) ∧ id' ≠ id.
Proof.
  unfold remove_password_route. setoid_rewrite lookup_omap_Some. split.
  - intros (ids' & (ids & Hf & Hl) & Hin). case_bool_decide; [done|]. simplify_eq. set_solver.
  - intros [(ids & Hl & Hin) Hne]. exists (ids ∖ {[id]}). split; [|set_solver].
    exists ids. rewrite bool_decide_false by set_solver. done.
Qed.

Lemma remove_routes_routed id st k id' :
  routed (remove_routes_for id st) k id' ↔ routed st k id' ∧ id' ≠ id.
Proof.
  destruct k as [p u d|p u|s|p s]; [destruct p|destruct p| |destruct p]; simpl;
    rewrite ?lookup_empty; try apply retain_others_Some;
    try apply remove_password_route_Some; try naive_solver;
    setoid_rewrite lookup_empty; naive_solver.
Qed.

Lemma add_password_route_Some routes pw id s id' :
  (∃ ids, add_password_route routes pw id !! s = Some ids ∧ id' ∈ ids) ↔
  (∃ p, pw = Some p ∧ password_route_sha256 p = s ∧ id' = id) ∨
  (∃ ids, routes !! s = Some ids ∧ id' ∈ ids).
Proof.
  destruct pw as [pw|]; simpl; [|naive_solver].
  destruct (decide (password_route_sha256 pw = s)) as [<-|Hne].
  - setoid_rewrite lookup_insert_eq. split.
    + intros (ids & [= <-] & [Hin|Hin]%elem_of_union).
      * right. destruct (routes !! _) as [ids|]; [by exists ids|set_solver].
      * left. exists pw. set_solver.
    + intros [(p & [= <-] & _ & ->)|(ids & Hl & Hin)]; eexists; (split; [done|]);
        [set_solver|]. rewrite Hl. set_solver.
  - setoid_rewrite lookup_insert_ne; [|done]. naive_solver.
Qed.

Lemma insert_routed `{Countable K} (routes : gmap K string) key id k id' :
  <[key := id]> routes !! k = Some id' ↔
  (k = key ∧ id' = id) ∨ (routes !! k = Some id' ∧ k ≠ key).
Proof. rewrite lookup_insert_Some. naive_solver. Qed.

Lemma publish_routed m st k id' :
  routed (publish_routes m st) k id' ↔
  (publishes m k ∧ id' = instance_id m) ∨
  (routed st k id' ∧ (publishes m k → shared_key k = true)).
Proof.
  unfold publish_routes.
  destruct (protocol m) eqn:Hp; [..|destruct (route_key_sha256 m) as [r|] eqn:Hr];
    (destruct k as [p u d|p u|s|p s]; [destruct p|destruct p| |destruct p]); simpl;
    rewrite ?lookup_empty, ?insert_routed, ?Hp, ?Hr, ?add_password_route_Some;
    try setoid_rewrite lookup_empty; naive_solver.
Qed.

(** ** Invariant *)

Record store_inv (st : InstanceState) : Prop := {
  inv_routed k id : routed st k id →
    ∃ m, instances st !! id = Some m ∧ publishes m k ∧ route_eligible m = true ∧
         id ∉ fenced_instances st;
  inv_ids id m : instances st !! id = Some m → instance_id m = id;
  inv_pinned : pinned_fences st ⊆ fenced_instances st;
  inv_fenced id : id ∈ fenced_instances st → is_Some (instances st !! id);
  inv_revisions id : is_Some (route_revisions st !! id) ↔ is_Some (instances st !! id);
}.

Lemma store_inv_default : store_inv instance_state_default.
Proof.
  split; simpl.
  - intros k id H. exfalso. destruct k as [p u d|p u|s|p s]; simpl in H; try destruct p;
      simpl in H; try (by rewrite lookup_empty in H);
      destruct H as (ids & H & _); by rewrite lookup_empty in H.
  - intros id m. by rewrite lookup_empty.
  - done.
  - set_solver.
  - intros id. by rewrite !lookup_empty.
Qed.

(** What the operations share: the metadata of one instance is replaced with
    its routes gone, and it is fenced or left open. *)
Lemma replace_fenced_inv st m r st' :
  store_inv st →
  (∀ k id, routed st' k id → routed st k id ∧ id ≠ instance_id m) →
  instances st' = <[instance_id m := m]> (instances st) →
  fenced_instances st' = fenced_instances st ∪ {[instance_id m]} →
  pinned_fences st' ⊆ fenced_instances st' →
  route_revisions st' = <[instance_id m := r]> (route_revisions st) →
  store_inv st'.
Proof.
  intros [Hr Hid Hpin Hf Hrev] Hrouted Ei Ef Hp Er. split; rewrite ?Ei, ?Ef, ?Er.
  - intros k id [H Hne]%Hrouted.
    apply Hr in H as (m' & Hm & Hpub & He & Hnf). exists m'.
    rewrite lookup_insert_ne by done. set_solver.
  - intros id m'. rewrite lookup_insert_Some. naive_solver.
  - by rewrite <-Ef.
  - intros id [H| ->%elem_of_singleton]%elem_of_union; rewrite lookup_insert_is_Some'; auto.
  - intros id. rewrite !lookup_insert_is_Some', Hrev. done.
Qed.

Lemma replace_open_inv st m r st' :
  store_inv st →
  (∀ k id, routed st' k id →
     (publishes m k ∧ id = instance_id m ∧ route_eligible m = true) ∨
     (routed st k id ∧ id ≠ instance_id m)) →
  instances st' = <[instance_id m := m]> (instances st) →
  fenced_instances st' = fenced_instances st ∖ {[instance_id m]} →
  pinned_fences st' ⊆ fenced_instances st' →
  route_revisions st' = <[instance_id m := r]> (route_revisions st) →
  store_inv st'.
Proof.
  intros [Hr Hid Hpin Hf Hrev] Hrouted Ei Ef Hp Er. split; rewrite ?Ei, ?Ef, ?Er.
  - intros k id [(Hpub & -> & He)|[H Hne]]%Hrouted.
    + exists m. rewrite lookup_insert_eq. set_solver.
    + apply Hr in H as (m' & Hm & Hpub & He & Hnf). exists m'.
      rewrite lookup_insert_ne by done. set_solver.
  - intros id m'. rewrite lookup_insert_Some. naive_solver.
  - by rewrite <-Ef.
  - intros id H. rewrite lookup_insert_is_Some'. set_solver.
  - intros id. rewrite !lookup_insert_is_Some', Hrev. done.
Qed.

(** Publishing changes only the route tables. *)
Lemma publish_frame m st :
  instances (publish_routes m st) = instances st ∧
  fenced_instances (publish_routes m st) = fenced_instances st ∧
  pinned_fences (publish_routes m st) = pinned_fences st ∧
  route_revisions (publish_routes m st) = route_revisions st ∧
  next_route_revision (publish_routes m st) = next_route_revision st.
Proof. unfold publish_routes. by repeat case_match. Qed.

(** The next revision number. *)
Definition next_revision (st : InstanceState) : Z :=
  Z.max (wrapping_add u64_max (next_route_revision st) 1) 1.

(** [upsert] field by field. *)
Lemma upsert_fields m st :
  let id := instance_id m in
  instances (upsert m st) = <[id := m]> (instances st) ∧
  route_revisions (upsert m st) = <[id := next_revision st]> (route_revisions st) ∧
  pinned_fences (upsert m st) = pinned_fences st ∧
  next_route_revision (upsert m st) = next_revision st ∧
  fenced_instances (upsert m st) =
    if bool_decide (id ∈ pinned_fences st) then fenced_instances st ∪ {[id]}
    else fenced_instances st ∖ {[id]}.
Proof.
  unfold upsert. simpl. case_bool_decide; [done|].
  destruct (route_eligible m); [|done]. simpl.
  match goal with |- context [publish_routes m ?s] =>
    destruct (publish_frame m s) as (-> & -> & -> & -> & ->) end. done.
Qed.

Lemma upsert_routed m st k id :
  routed (upsert m st) k id →
  (publishes m k ∧ id = instance_id m ∧ route_eligible m = true ∧
   instance_id m ∉ pinned_fences st) ∨
  (routed st k id ∧ id ≠ instance_id m).
Proof.
  unfold upsert. simpl. case_bool_decide as Hpin.
  - intros H. right. by apply (remove_routes_routed (instance_id m) st).
  - destruct (route_eligible m) eqn:He.
    + intros H.
      set (s := (remove_routes_for (instance_id m) (bump_route_revision (instance_id m) st))
                  <| fenced_instances ::= (.∖ {[instance_id m]}) |>) in H.
      change (routed (publish_routes m s) k id) in H.
      apply publish_routed in H as [[? ?]|[H _]]; [by left|right].
      by apply (remove_routes_routed (instance_id m) st).
    + intros H. right. by apply (remove_routes_routed (instance_id m) st).
Qed.

Lemma store_upsert_inv m st : store_inv st → store_inv (upsert m st).
Proof.
  intros Hinv. destruct (upsert_fields m st) as (Ei & Er & Ep & _ & Ef).
  pose proof (inv_pinned _ Hinv) as Hp. case_bool_decide as Hpin.
  - eapply (replace_fenced_inv st m); try done; [|rewrite Ep, Ef; set_solver].
    intros k id H. apply upsert_routed in H as [(_ & _ & _ & ?)|?]; [done|done].
  - eapply (replace_open_inv st m); try done; [|rewrite Ep, Ef; set_solver].
    intros k id H. apply upsert_routed in H as [(? & ? & ? & _)|?]; [by left|by right].
Qed.

Lemma upsert_fenced_inv m st : store_inv st → store_inv (upsert_fenced m st).
Proof.
  intros Hinv. pose proof (inv_pinned _ Hinv) as Hp.
  eapply (replace_fenced_inv st m); try done; [|simpl; set_solver].
  intros k id H. by apply (remove_routes_routed (instance_id m) st).
Qed.

Lemma fence_existing_inv id st : store_inv st → store_inv (fence_existing id st).2.
Proof.
  intros Hinv. unfold fence_existing. destruct (instances st !! id) as [m|] eqn:Hm; [|done].
  pose proof (inv_ids _ Hinv _ _ Hm) as <-. pose proof (inv_pinned _ Hinv) as Hp.
  eapply (replace_fenced_inv st m); try done; [|simpl; by rewrite insert_id|simpl; set_solver].
  intros k id H. by apply (remove_routes_routed (instance_id m) st).
Qed.

Lemma routed_pins st pins k id : routed (st <| pinned_fences := pins |>) k id → routed st k id.
Proof. destruct k as [p u d|p u|s|p s]; [destruct p|destruct p| |destruct p]; exact (λ H, H). Qed.

Lemma pins_inv st pins :
  store_inv st → pins ⊆ fenced_instances st → store_inv (st <| pinned_fences := pins |>).
Proof.
  intros [Hr Hid Hpin Hf Hrev] Hp. split; [|exact Hid|exact Hp|exact Hf|exact Hrev].
  intros k id H%routed_pins. by apply Hr.
Qed.

Lemma open_routes_inv m st : store_inv st → store_inv (open_routes m st).
Proof.
  intros Hinv. apply store_upsert_inv, pins_inv; [done|].
  pose proof (inv_pinned _ Hinv). set_solver.
Qed.

Lemma pin_routes_fenced_inv id st : store_inv st → store_inv (pin_routes_fenced id st).2.
Proof.
  intros Hinv. unfold pin_routes_fenced. pose proof (fence_existing_inv id st Hinv) as Hf.
  destruct (fence_existing id st) as [[] st'] eqn:E; [|done]. simpl in *.
  apply pins_inv; [done|]. pose proof (inv_pinned _ Hf).
  unfold fence_existing in E. case_match; simplify_eq/=. set_solver.
Qed.

Lemma store_remove_inv id st : store_inv st → store_inv (remove id st).2.
Proof.
  intros [Hr Hid Hpin Hf Hrev]. split; simpl.
  - intros k id' H. apply (remove_routes_routed id st k id') in H as [H Hne].
    apply Hr in H as (m' & Hm & Hp & He & Hnf). exists m'.
    rewrite lookup_delete_ne by done. set_solver.
  - intros id' m'. rewrite lookup_delete_Some. naive_solver.
  - set_solver.
  - intros id' H. apply lookup_delete_is_Some. set_solver.
  - intros id'. rewrite !lookup_delete_is_Some, lookup_insert_is_Some', Hrev. naive_solver.
Qed.

Lemma run_inv c st : store_inv st → store_inv (run c st).
Proof.
  intros Hinv. destruct c as [ms|m|m|m|m|id|id|id]; simpl.
  - unfold replace_all, from_instances.
    assert (∀ st, store_inv st → store_inv (foldl (λ st m, upsert m st) st ms)) as H.
    { induction ms as [|m ms IH]; simpl; auto using store_upsert_inv. }
    apply H, store_inv_default.
  - by apply store_upsert_inv.
  - by apply upsert_fenced_inv.
  - unfold upsert_preserving_fence. case_match; auto using store_upsert_inv, upsert_fenced_inv.
  - by apply open_routes_inv.
  - by apply store_remove_inv.
  - by apply fence_existing_inv.
  - by apply pin_routes_fenced_inv.
Qed.

(** The states the store can be in. *)
Definition store_reachable (st : InstanceState) : Prop := ∃ cs, st = run_all cs instance_state_default.

Lemma run_all_inv cs st : store_inv st → store_inv (run_all cs st).
Proof.
  unfold run_all. revert st. induction cs as [|c cs IH]; simpl; auto using run_inv.
Qed.

Lemma store_reachable_inv st : store_reachable st → store_inv st.
Proof. intros [cs ->]. apply run_all_inv, store_inv_default. Qed.

(** ** Tenant isolation *)

(** The instance [id] answers to key [k], is open, and its metadata is [m]. *)
Definition owner (st : InstanceState) (k : RouteKey) (id : string) (m : InstanceMetadata) : Prop :=
  instances st !! id = Some m ∧ instance_id m = id ∧ publishes m k ∧
  route_eligible m = true ∧ route_is_current st id (route_revision id st) = true.

Lemma routed_owner st k id :
  store_inv st → routed st k id → ∃ m, owner st k id m.
Proof.
  intros Hinv Hr. destruct (inv_routed _ Hinv k id Hr) as (m & Hm & Hp & He & Hf).
  exists m. split_and!; try done; [by eapply inv_ids|].
  unfold route_is_current, route_revision. rewrite bool_decide_false by done.
  destruct (proj2 (inv_revisions _ Hinv id) (ex_intro _ m Hm)) as [r ->]. simpl.
  by apply bool_decide_true.
Qed.

(** The database a client gets is the one it named, or, if it named none, the
    only one its user has. *)
Definition asked_for (has : string → Prop) (d : option string) (db : string) : Prop :=
  (∃ x, d = Some x ∧ x ≠ "" ∧ x = db) ∨
  ((d = None ∨ d = Some "") ∧ ∀ db', has db' → db' = db).

Lemma asked_for_named has x db : asked_for has (Some x) db → x = "" ∨ x = db.
Proof. intros [(y & [= ->] & _ & ->)|[[?|[= ->]] _]]; auto. done. Qed.

(** The user [u] of some instance has the database [db]. *)
Definition has_database (p : Protocol) (u : string) (st : InstanceState) (db : string) : Prop :=
  ∃ id, routed st (KDatabase p u db) id.

Lemma resolve_database_route_found routes u d db id :
  resolve_database_route routes u d = KeyFound db id →
  routes !! (u, db) = Some id ∧ asked_for (λ db', is_Some (routes !! (u, db'))) d db.
Proof.
  unfold resolve_database_route.
  assert (∀ db id,
    match map_to_list (filter (λ kv, kv.1.1 = u) routes) with
    | [] => KeyNotFound
    | [((_, d), id)] => KeyFound d id
    | _ => KeyAmbiguous
    end = KeyFound db id →
    routes !! (u, db) = Some id ∧ ∀ db', is_Some (routes !! (u, db')) → db' = db) as Hscan.
  { intros db' id' H. destruct (map_to_list _) as [|[[u' d'] i] [|]] eqn:E; simplify_eq. split.
    - assert (((u', db'), id') ∈ map_to_list (filter (λ kv, kv.1.1 = u) routes)) as Hin
        by (rewrite E; by left).
      apply elem_of_map_to_list, map_lookup_filter_Some in Hin as [Hl Hu]. simpl in Hu. by subst.
    - intros x [i Hi]. assert (((u, x), i) ∈ map_to_list (filter (λ kv, kv.1.1 = u) routes)) as Hin
        by (by apply elem_of_map_to_list, map_lookup_filter_Some).
      rewrite E in Hin. apply list_elem_of_singleton in Hin. by simplify_eq. }
  destruct d as [x|]; simpl.
  - case_bool_decide as Hx; simpl; [intros [? ?]%Hscan; split; [done|by right; split; [right; by f_equal|]]|].
    destruct (routes !! (u, x)) eqn:E; intros; simplify_eq. split; [done|]. left. eauto.
  - intros [? ?]%Hscan. split; [done|]. right. auto.
Qed.

(** Looking a client up by user and database finds the owner of that key. *)
Lemma resolve_database_target_owner {T : Type} p st u d db (t : T) build :
  store_inv st →
  resolve_database_target st (database_routes p st) u d build = Found db t →
  ∃ id m, owner st (KDatabase p u db) id m ∧ t = build id m ∧
    asked_for (has_database p u st) d db.
Proof.
  intros Hinv H. unfold resolve_database_target in H.
  destruct (resolve_database_route _ _ _) as [db' id| |] eqn:E; try done.
  apply resolve_database_route_found in E as [Hl Hd].
  destruct (instances st !! id) as [m|] eqn:Hm; simplify_eq.
  destruct (routed_owner st (KDatabase p u db) id Hinv Hl) as [m' Ho].
  pose proof Ho as [Hm' _]. rewrite Hm in Hm'. injection Hm' as <-. by exists id, m.
Qed.

Lemma route_target_for_owner st k id t :
  store_inv st → routed st k id → route_target_for st id = Some t →
  ∃ m, owner st k id m ∧ t = route_target st id m.
Proof.
  intros Hinv Hr Ht. destruct (routed_owner st k id Hinv Hr) as [m Ho].
  unfold route_target_for in Ht. destruct Ho as [Hm Ho]. rewrite Hm in Ht.
  simplify_eq/=. exists m. by split.
Qed.

Lemma resolve_password_owner p st sha u t :
  store_inv st → resolve_password_route st (password_routes p st) sha = Some (u, t) →
  ∃ id m, owner st (KPassword p sha) id m ∧ t = route_target st id m ∧
    u = username (identity m) ∧
    ∀ id', routed st (KPassword p sha) id' → id' = id.
Proof.
  intros Hinv H. unfold resolve_password_route in H.
  apply bind_Some in H as (ids & Hl & H). destruct (Nat.eqb_spec (size ids) 1) as [Hs|]; [|done].
  simpl in H. apply bind_Some in H as (id & Hh & (m & Hm & [= <- <-])%bind_Some).
  apply size_1_elem_of in Hs as [x Hx].
  assert (ids = {[x]}) as -> by (apply leibniz_equiv, Hx).
  rewrite elements_singleton in Hh. simplify_eq/=.
  destruct (routed_owner st (KPassword p sha) id Hinv) as [m' Ho].
  { exists {[id]}. set_solver. }
  pose proof Ho as [Hm' _]. rewrite Hm in Hm'. injection Hm' as <-.
  exists id, m. split_and!; try done.
  intros id' (ids & Hl' & Hin). simplify_eq. set_solver.
Qed.

(** C2. A client is only ever routed to the instance its credentials belong to.
    In every reachable state each lookup (PostgreSQL and ClickHouse by user and
    optional database, MariaDB and MySQL likewise, MongoDB by user and database,
    Redis and Valkey by user or by password alone, Qdrant by API key) that
    succeeds returns the endpoint, generation, limit and current revision of an
    open, eligible instance of that protocol with exactly those credentials; the
    database is the one the client named, or the only one of its user if it
    named none; a password alone is accepted only when a single instance has
    it. *)
Theorem resolution_respects_ownership st :
  store_reachable st →
  (∀ u d db t, resolve_postgres st u d = Found db t →
     ∃ id m, owner st (KDatabase Postgres u db) id m ∧ asked_for (has_database Postgres u st) d db ∧
       t = route_target st id m) ∧
  (∀ u d db t, resolve_clickhouse st u d = Found db t →
     ∃ id m, owner st (KDatabase Clickhouse u db) id m ∧ asked_for (has_database Clickhouse u st) d db ∧
       t = route_target st id m) ∧
  (∀ u d db t, resolve_mariadb st u d = Found db t →
     ∃ id m, owner st (KDatabase Mariadb u db) id m ∧ asked_for (has_database Mariadb u st) d db ∧
       t = mariadb_target st mariadb_native_password_sha1_stage2 id m) ∧
  (∀ u d db t, resolve_mysql st u d = Found db t →
     ∃ id m, owner st (KDatabase Mysql u db) id m ∧ asked_for (has_database Mysql u st) d db ∧
       t = mariadb_target st mysql_native_password_sha1_stage2 id m) ∧
  (∀ u db t, resolve_mongodb st u db = Some t →
     ∃ id m, owner st (KDatabase Mongodb u db) id m ∧ t = route_target st id m) ∧
  (∀ u t, resolve_redis st u = Some t →
     ∃ id m, owner st (KUser Redis u) id m ∧ t = route_target st id m) ∧
  (∀ u t, resolve_valkey st u = Some t →
     ∃ id m, owner st (KUser Valkey u) id m ∧ t = route_target st id m) ∧
  (∀ key t, resolve_qdrant st key = Some t →
     ∃ id m, owner st (KApiKey key) id m ∧ t = route_target st id m) ∧
  (∀ sha u t, resolve_redis_password st sha = Some (u, t) →
     ∃ id m, owner st (KPassword Redis sha) id m ∧ t = route_target st id m ∧
       u = username (identity m) ∧ ∀ id', routed st (KPassword Redis sha) id' → id' = id) ∧
  (∀ sha u t, resolve_valkey_password st sha = Some (u, t) →
     ∃ id m, owner st (KPassword Valkey sha) id m ∧ t = route_target st id m ∧
       u = username (identity m) ∧ ∀ id', routed st (KPassword Valkey sha) id' → id' = id).
Proof.
  intros Hinv%store_reachable_inv. split_and!.
  - intros u d db t (id & m & ? & ? & ?)%(resolve_database_target_owner Postgres); eauto.
  - intros u d db t (id & m & ? & ? & ?)%(resolve_database_target_owner Clickhouse); eauto.
  - intros u d db t (id & m & ? & ? & ?)%(resolve_database_target_owner Mariadb); eauto.
  - intros u d db t (id & m & ? & ? & ?)%(resolve_database_target_owner Mysql); eauto.
  - intros u db t (id & Hr & (m & ? & ?)%(route_target_for_owner _ (KDatabase Mongodb u db)))%bind_Some; eauto.
  - intros u t (id & Hr & (m & ? & ?)%(route_target_for_owner _ (KUser Redis u)))%bind_Some; eauto.
  - intros u t (id & Hr & (m & ? & ?)%(route_target_for_owner _ (KUser Valkey u)))%bind_Some; eauto.
  - intros k t (id & Hr & (m & ? & ?)%(route_target_for_owner _ (KApiKey k)))%bind_Some; eauto.
  - intros sha u t H. by apply (resolve_password_owner Redis).
  - intros sha u t H. by apply (resolve_password_owner Valkey).
Qed.

(** ** Fences *)

(** A command that may take a pinned fence away from [id]. *)
Definition unpins (id : string) (c : Command) : bool :=
  match c with
  | ReplaceAll _ => true
  | OpenRoutes m => bool_decide (instance_id m = id)
  | Remove id' => bool_decide (id' = id)
  | _ => false
  end.

Lemma fence_existing_fields id st :
  pinned_fences (fence_existing id st).2 = pinned_fences st ∧
  instances (fence_existing id st).2 = instances st.
Proof. unfold fence_existing. by case_match. Qed.

Lemma run_keeps_pin id c st :
  unpins id c = false → id ∈ pinned_fences st → id ∈ pinned_fences (run c st).
Proof.
  intros Hc Hp. destruct c as [ms|m|m|m|m|id'|id'|id']; simpl in *; try done.
  - by destruct (upsert_fields m st) as (_ & _ & -> & _).
  - unfold upsert_preserving_fence. case_match; [|done].
    by destruct (upsert_fields m st) as (_ & _ & -> & _).
  - case_bool_decide; [done|]. unfold open_routes.
    destruct (upsert_fields m (st <| pinned_fences ::= (.∖ {[instance_id m]}) |>))
      as (_ & _ & -> & _). simpl. set_solver.
  - case_bool_decide; [done|]. set_solver.
  - unfold fence_routes. by destruct (fence_existing_fields id' st) as [-> _].
  - unfold pin_routes_fenced.
    destruct (fence_existing_fields id' st) as [E _].
    destruct (fence_existing id' st) as [[] st']; simpl in *; set_solver.
Qed.

(** A pinned fence holds.  Once [pin_routes_fenced] succeeded for an
    instance, no sequence of later operations short of removing it, explicitly
    opening its routes or rebuilding the store makes any key route to it, and no
    route resolved earlier is current for it. *)
Theorem pinned_fence_holds st id cs :
  store_reachable st → (pin_routes_fenced id st).1 = true →
  Forall (λ c, unpins id c = false) cs →
  let st' := run_all cs (pin_routes_fenced id st).2 in
  (∀ k, ¬ routed st' k id) ∧ (∀ r, route_is_current st' id r = false) ∧
  routes_fenced st' id = true.
Proof.
  intros Hinv%store_reachable_inv Hok Hcs st'.
  assert (store_inv st') as Hinv' by (apply run_all_inv; by apply pin_routes_fenced_inv).
  assert (id ∈ pinned_fences st') as Hp.
  { assert (id ∈ pinned_fences (pin_routes_fenced id st).2) as H0.
    { unfold pin_routes_fenced in *. destruct (fence_existing id st) as [[] s]; simpl in *;
        [set_solver|done]. }
    subst st'. clear Hinv'. revert H0. generalize (pin_routes_fenced id st).2.
    induction Hcs as [|c cs Hc _ IH]; simpl; [done|]. eauto using run_keeps_pin. }
  pose proof (inv_pinned _ Hinv' id Hp) as Hf. split_and!.
  - intros k Hr. apply (inv_routed _ Hinv') in Hr as (m & _ & _ & _ & Hnf). done.
  - intros r. unfold route_is_current. by rewrite bool_decide_true.
  - by apply bool_decide_true.
Qed.

(** ** Revisions *)

Definition rebuilds (c : Command) : bool := match c with ReplaceAll _ => true | _ => false end.

(** Revisions handed out so far are at most the counter. *)
Definition revisions_bounded (st : InstanceState) : Prop :=
  0 ≤ next_route_revision st ∧
  ∀ id r, route_revisions st !! id = Some r → r ≤ next_route_revision st.

(** A command leaves [id] alone, or gives it a fresh revision, or removes it. *)
Definition touches_freshly (id : string) (st st' : InstanceState) : Prop :=
  (instances st' !! id = instances st !! id ∧
   route_revisions st' !! id = route_revisions st !! id) ∨
  route_revisions st' !! id = Some (next_route_revision st + 1) ∨
  route_revisions st' !! id = None.

(** What a command does to the revisions, when the counter does not wrap. *)
Definition revision_step (st st' : InstanceState) : Prop :=
  next_route_revision st ≤ next_route_revision st' ≤ next_route_revision st + 1 ∧
  revisions_bounded st' ∧ ∀ id, touches_freshly id st st'.

Lemma revision_step_refl st : revisions_bounded st → revision_step st st.
Proof. intros Hb. split_and!; [lia|lia|done|]. intros id. by left. Qed.

(** One instance gets the next revision, and perhaps other metadata. *)
Lemma revision_step_bump st st' id0 :
  revisions_bounded st → next_route_revision st < u64_max →
  next_route_revision st' = next_revision st →
  (∀ id, id ≠ id0 → instances st' !! id = instances st !! id) →
  (∀ id, id ≠ id0 → route_revisions st' !! id = route_revisions st !! id) →
  (route_revisions st' !! id0 = Some (next_revision st) ∨ route_revisions st' !! id0 = None) →
  revision_step st st'.
Proof.
  intros [H0 Hb] Hlt En Hi Hr H0r.
  assert (next_revision st = next_route_revision st + 1) as E.
  { unfold next_revision, wrapping_add. rewrite Z.mod_small by (unfold u64_max in *; lia). lia. }
  rewrite E in *. split_and!; [lia..| |].
  - split; [lia|]. intros id r Hid. destruct (decide (id = id0)) as [->|Hne].
    + destruct H0r as [H|H]; rewrite H in Hid; simplify_eq. lia.
    + rewrite Hr in Hid by done. apply Hb in Hid. lia.
  - intros id. destruct (decide (id = id0)) as [->|Hne]; [right; naive_solver|left].
    split; [by apply Hi|by apply Hr].
Qed.

Lemma upsert_revision m st :
  revisions_bounded st → next_route_revision st < u64_max → revision_step st (upsert m st).
Proof.
  intros Hb Hlt. destruct (upsert_fields m st) as (Ei & Er & _ & En & _).
  apply (revision_step_bump st _ (instance_id m)); try done; rewrite ?Ei, ?Er.
  - intros id Hne. by rewrite lookup_insert_ne.
  - intros id Hne. by rewrite lookup_insert_ne.
  - left. apply lookup_insert_eq.
Qed.

Lemma upsert_fenced_revision m st :
  revisions_bounded st → next_route_revision st < u64_max →
  revision_step st (upsert_fenced m st).
Proof.
  intros Hb Hlt. apply (revision_step_bump st _ (instance_id m)); try done; simpl.
  - intros id Hne. by rewrite lookup_insert_ne.
  - intros id Hne. by rewrite lookup_insert_ne.
  - left. apply lookup_insert_eq.
Qed.

Lemma fence_existing_revision id st :
  revisions_bounded st → next_route_revision st < u64_max →
  revision_step st (fence_existing id st).2.
Proof.
  intros Hb Hlt. unfold fence_existing. case_match; [|by apply revision_step_refl].
  apply (revision_step_bump st _ id); try done; simpl.
  - intros id' Hne. by rewrite lookup_insert_ne.
  - left. apply lookup_insert_eq.
Qed.

Lemma remove_revision id st :
  revisions_bounded st → next_route_revision st < u64_max →
  revision_step st (remove id st).2.
Proof.
  intros Hb Hlt. apply (revision_step_bump st _ id); try done; simpl.
  - intros id' Hne. by rewrite lookup_delete_ne.
  - intros id' Hne. by rewrite lookup_delete_ne, lookup_insert_ne.
  - right. apply lookup_delete_eq.
Qed.

Lemma run_revision c st :
  rebuilds c = false → revisions_bounded st → next_route_revision st < u64_max →
  revision_step st (run c st).
Proof.
  intros Hc Hb Hlt. destruct c as [ms|m|m|m|m|id|id|id]; try done; cbn [run].
  - by apply upsert_revision.
  - by apply upsert_fenced_revision.
  - unfold upsert_preserving_fence.
    case_match; [by apply upsert_revision|by apply upsert_fenced_revision].
  - unfold open_routes. set (s := set_with _ st).
    pose proof (upsert_revision m s Hb Hlt) as H. exact H.
  - by apply remove_revision.
  - by apply fence_existing_revision.
  - unfold pin_routes_fenced. pose proof (fence_existing_revision id st Hb Hlt) as H.
    destruct (fence_existing id st) as [[] s]; exact H.
Qed.

Lemma run_all_revision cs st id r :
  Forall (λ c, rebuilds c = false) cs → revisions_bounded st →
  next_route_revision st + zlength cs ≤ u64_max → route_revisions st !! id = Some r →
  (instances (run_all cs st) !! id = instances st !! id) ∨
  route_revisions (run_all cs st) !! id ≠ Some r.
Proof.
  intros Hcs Hb Hlen Hr. pose proof (proj2 Hb id r Hr) as Hrb.
  assert (∀ st', revisions_bounded st' → next_route_revision st' + zlength cs ≤ u64_max →
            r ≤ next_route_revision st' →
            (route_revisions st' !! id = Some r → instances st' !! id = instances st !! id) →
            route_revisions (run_all cs st') !! id = Some r →
            instances (run_all cs st') !! id = instances st !! id) as H.
  { clear Hb Hlen. induction Hcs as [|c cs Hc _ IH]; intros st' Hb' Hlen' Hr' Hsame Hend.
    { exact (Hsame Hend). }
    cbn [length] in Hlen'.
    destruct (run_revision c st' Hc Hb' ltac:(lia)) as ([Hn1 Hn2] & Hb1 & Ht).
    apply (IH (run c st')); [done|lia|lia| |exact Hend].
    intros Hrr. destruct (Ht id) as [[Ei Er]|[E|E]]; rewrite ?Ei, ?Er, ?E in *;
      [auto|simplify_eq; lia|done]. }
  destruct (decide (route_revisions (run_all cs st) !! id = Some r)) as [E|E]; [left|by right].
  apply H; auto.
Qed.

Lemma run_all_bounded cs st :
  Forall (λ c, rebuilds c = false) cs → revisions_bounded st →
  next_route_revision st + zlength cs ≤ u64_max →
  revisions_bounded (run_all cs st) ∧
  next_route_revision (run_all cs st) ≤ next_route_revision st + zlength cs.
Proof.
  intros Hcs. revert st. induction Hcs as [|c cs Hc _ IH]; intros st Hb Hlen; [split; [done|]|].
  { cbn. lia. }
  cbn [length] in *. destruct (run_revision c st Hc Hb ltac:(lia)) as ([Hn1 Hn2] & Hb1 & _).
  destruct (IH (run c st) Hb1 ltac:(lia)) as [Hb2 Hn]. split; [exact Hb2|].
  change (run_all (c :: cs) st) with (run_all cs (run c st)). lia.
Qed.

Lemma from_instances_run ms : from_instances ms = run_all (Upsert <$> ms) instance_state_default.
Proof.
  unfold from_instances, run_all. generalize instance_state_default.
  induction ms as [|m ms IH]; intros st; [done|]. exact (IH (upsert m st)).
Qed.

Lemma from_instances_bounded ms :
  zlength ms ≤ u64_max →
  revisions_bounded (from_instances ms) ∧
  next_route_revision (from_instances ms) ≤ zlength ms.
Proof.
  intros Hlen. rewrite from_instances_run.
  assert (zlength (Upsert <$> ms) = zlength ms) as E by (by rewrite length_fmap).
  destruct (run_all_bounded (Upsert <$> ms) instance_state_default) as [Hb Hn].
  - apply Forall_fmap, Forall_true. done.
  - split; [done|]. intros id r. simpl. by rewrite lookup_empty.
  - simpl. lia.
  - split; [done|]. simpl in Hn. lia.
Qed.

(** A route that still passes the revision check is not stale.  Take any
    state after start-up, a key routed there to an instance, and any later
    operations; if the check of the recorded revision still succeeds then the
    instance has the very same metadata as when the client was routed, and is
    not fenced, as long as fewer than [2^64] operations ran since start-up. *)
Theorem current_revision_means_unchanged ms before after k id m :
  Forall (λ c, rebuilds c = false) (before ++ after) →
  zlength ms + zlength before + zlength after ≤ u64_max →
  let st := run_all before (from_instances ms) in
  let st' := run_all after st in
  owner st k id m →
  route_is_current st' id (route_revision id st) = true →
  instances st' !! id = Some m ∧ routes_fenced st' id = false.
Proof.
  intros [Hb Ha]%Forall_app Hlen st st' (Hm & _ & _ & _ & Hcur) Hcur'.
  destruct (from_instances_bounded ms ltac:(lia)) as [Hb0 Hn0].
  destruct (run_all_bounded before (from_instances ms) Hb Hb0 ltac:(lia)) as [Hb1 Hn1].
  fold st in Hb1, Hn1. unfold route_is_current in Hcur, Hcur'. to_prop.
  destruct (run_all_revision after st id (route_revision id st)) as [E|E];
    [done|done|lia|done| |].
  - fold st' in E. rewrite E. split; [done|]. unfold routes_fenced. by apply bool_decide_false.
  - fold st' in E. done.
Qed.

(** ** Completeness *)

(** No two instances share a key that only one can have. *)
Definition unique_identities (st : InstanceState) : Prop :=
  ∀ id1 id2 m1 m2 k,
    instances st !! id1 = Some m1 → instances st !! id2 = Some m2 →
    publishes m1 k → publishes m2 k → shared_key k = false → id1 = id2.

(** The states of a store whose instances never shared a key.  A rebuild is its
    sequence of upserts from the empty store. *)
Inductive history : InstanceState → Prop :=
  | history_start : history instance_state_default
  | history_step st c :
      history st → rebuilds c = false → unique_identities (run c st) → history (run c st).

(** Every open instance is routed by every key it answers to. *)
Definition fully_routed (st : InstanceState) : Prop :=
  ∀ id m k, instances st !! id = Some m → route_eligible m = true →
    id ∉ fenced_instances st → publishes m k → routed st k id.

Lemma upsert_routes_others m st k id :
  routed st k id → id ≠ instance_id m →
  (publishes m k → shared_key k = true) → routed (upsert m st) k id.
Proof.
  intros Hr Hne Hk. unfold upsert. simpl.
  assert (routed (remove_routes_for (instance_id m) st) k id) as H
    by by apply remove_routes_routed.
  case_bool_decide; [exact H|]. destruct (route_eligible m); [|exact H].
  set (s := (remove_routes_for (instance_id m) (bump_route_revision (instance_id m) st))
              <| fenced_instances ::= (.∖ {[instance_id m]}) |>).
  change (routed (publish_routes m s) k id). apply publish_routed. right. by split.
Qed.

Lemma upsert_routes_itself m st k :
  route_eligible m = true → instance_id m ∉ pinned_fences st → publishes m k →
  routed (upsert m st) k (instance_id m).
Proof.
  intros He Hp Hk. unfold upsert. simpl. rewrite bool_decide_false, He by done.
  set (s := (remove_routes_for (instance_id m) (bump_route_revision (instance_id m) st))
              <| fenced_instances ::= (.∖ {[instance_id m]}) |>).
  change (routed (publish_routes m s) k (instance_id m)). apply publish_routed. by left.
Qed.

Lemma upsert_fully_routed m st :
  unique_identities (upsert m st) → fully_routed st → fully_routed (upsert m st).
Proof.
  intros Hu Hf id m' k Hm He Hnf Hk.
  destruct (upsert_fields m st) as (Ei & _ & Ep & _ & Ef).
  destruct (decide (id = instance_id m)) as [->|Hne].
  - rewrite Ei, lookup_insert_eq in Hm. simplify_eq.
    apply upsert_routes_itself; try done. intros Hp.
    rewrite Ef, bool_decide_true in Hnf by done. set_solver.
  - rewrite Ei, lookup_insert_ne in Hm by done.
    apply upsert_routes_others; [|done|].
    + apply (Hf id m' k); try done. rewrite Ef in Hnf. case_bool_decide; set_solver.
    + intros Hk'. destruct (shared_key k) eqn:Es; [done|]. exfalso. apply Hne.
      apply (Hu _ _ m' m k); rewrite ?Ei, ?lookup_insert_eq, ?lookup_insert_ne; done.
Qed.

(** Taking one instance off the gateway keeps the others routed. *)
Lemma fully_routed_without id0 st st' :
  fully_routed st →
  (∀ id, id ≠ id0 → instances st' !! id = instances st !! id) →
  (∀ id, id ≠ id0 → id ∉ fenced_instances st' → id ∉ fenced_instances st) →
  (is_Some (instances st' !! id0) → id0 ∈ fenced_instances st') →
  (∀ k id, routed st k id → id ≠ id0 → routed st' k id) →
  fully_routed st'.
Proof.
  intros Hf Hi Hfn H0 Hr id m k Hm He Hnf Hk.
  destruct (decide (id = id0)) as [->|Hne]; [exfalso; apply Hnf, H0; eauto|].
  apply Hr; [|done]. rewrite Hi in Hm by done. by eapply Hf; eauto.
Qed.

Lemma remove_routes_keeps id0 st k id :
  routed st k id → id ≠ id0 → routed (remove_routes_for id0 st) k id.
Proof. intros. by apply remove_routes_routed. Qed.

Lemma upsert_fenced_fully_routed m st :
  fully_routed st → fully_routed (upsert_fenced m st).
Proof.
  intros Hf. eapply (fully_routed_without (instance_id m)); [exact Hf|..]; simpl.
  - intros id Hne. by rewrite lookup_insert_ne.
  - set_solver.
  - set_solver.
  - intros k id Hr Hne. exact (remove_routes_keeps _ st k id Hr Hne).
Qed.

Lemma fence_existing_fully_routed id st :
  fully_routed st → fully_routed (fence_existing id st).2.
Proof.
  intros Hf. unfold fence_existing. case_match; [|done].
  eapply (fully_routed_without id); [exact Hf|..]; simpl.
  - done.
  - set_solver.
  - set_solver.
  - intros k id' Hr Hne. exact (remove_routes_keeps _ st k id' Hr Hne).
Qed.

Lemma remove_fully_routed id st :
  fully_routed st → fully_routed (remove id st).2.
Proof.
  intros Hf. eapply (fully_routed_without id); [exact Hf|..]; simpl.
  - intros id' Hne. by rewrite lookup_delete_ne.
  - set_solver.
  - rewrite lookup_delete_eq. by intros [].
  - intros k id' Hr Hne. exact (remove_routes_keeps _ st k id' Hr Hne).
Qed.

Lemma routed_pins_iff st f k id :
  routed (st <| pinned_fences ::= f |>) k id ↔ routed st k id.
Proof. destruct k as [p u d|p u|s|p s]; [destruct p|destruct p| |destruct p]; reflexivity. Qed.

Lemma pins_fully_routed st f :
  fully_routed st → fully_routed (st <| pinned_fences ::= f |>).
Proof.
  intros Hf id m k Hm He Hnf Hk. apply routed_pins_iff. exact (Hf id m k Hm He Hnf Hk).
Qed.

Lemma upsert_preserving_fence_fully_routed m st :
  unique_identities (upsert_preserving_fence m st) → fully_routed st →
  fully_routed (upsert_preserving_fence m st).
Proof.
  unfold upsert_preserving_fence.
  case_match; [apply upsert_fully_routed|intros _; apply upsert_fenced_fully_routed].
Qed.

Lemma open_routes_fully_routed m st :
  unique_identities (open_routes m st) → fully_routed st → fully_routed (open_routes m st).
Proof.
  unfold open_routes. intros Hu Hf. apply (upsert_fully_routed m _ Hu).
  apply pins_fully_routed, Hf.
Qed.

Lemma pin_routes_fenced_fully_routed id st :
  fully_routed st → fully_routed (pin_routes_fenced id st).2.
Proof.
  intros Hf. unfold pin_routes_fenced. pose proof (fence_existing_fully_routed id st Hf) as H.
  destruct (fence_existing id st) as [[] s]; [apply pins_fully_routed, H|exact H].
Qed.

Lemma run_upsert m st : run (Upsert m) st = upsert m st.
Proof. reflexivity. Qed.

Lemma run_open_routes m st : run (OpenRoutes m) st = open_routes m st.
Proof. reflexivity. Qed.

Lemma run_fully_routed c st :
  rebuilds c = false → unique_identities (run c st) → fully_routed st →
  fully_routed (run c st).
Proof.
  intros Hc Hu Hf. destruct c as [ms|m|m|m|m|id|id|id]; [done|..].
  - rewrite (run_upsert m st) in Hu |- *. by apply upsert_fully_routed.
  - by apply upsert_fenced_fully_routed.
  - by apply upsert_preserving_fence_fully_routed.
  - rewrite (run_open_routes m st) in Hu |- *. by apply open_routes_fully_routed.
  - by apply remove_fully_routed.
  - by apply fence_existing_fully_routed.
  - by apply pin_routes_fenced_fully_routed.
Qed.

Lemma history_fully_routed st : history st → fully_routed st.
Proof.
  induction 1 as [|st c Hh IH Hc Hu]; [|by apply run_fully_routed].
  intros id m k. simpl. by rewrite lookup_empty.
Qed.

Lemma resolve_own_database {T : Type} p st u n id m (build : string → InstanceMetadata → T) :
  routed st (KDatabase p u n) id → instances st !! id = Some m → n ≠ "" →
  resolve_database_target st (database_routes p st) u (Some n) build = Found n (build id m).
Proof.
  intros Hr Hm Hn. unfold resolve_database_target, resolve_database_route. simpl.
  rewrite bool_decide_false by done. simpl in *. by rewrite Hr, Hm.
Qed.

(** Every open instance can be reached.  When no two instances ever shared an
    identity, an eligible instance that is not fenced resolves from its own
    credentials, for every protocol, to its own endpoint, limit and revision. *)
Theorem own_credentials_resolve st id m :
  history st → instances st !! id = Some m → route_eligible m = true →
  routes_fenced st id = false →
  let u := username (identity m) in
  let n := name (identity m) in
  match protocol m with
  | Postgres => n ≠ "" → resolve_postgres st u (Some n) = Found n (route_target st id m)
  | Clickhouse => n ≠ "" → resolve_clickhouse st u (Some n) = Found n (route_target st id m)
  | Mariadb => n ≠ "" → resolve_mariadb st u (Some n) =
                 Found n (mariadb_target st mariadb_native_password_sha1_stage2 id m)
  | Mysql => n ≠ "" → resolve_mysql st u (Some n) =
                 Found n (mariadb_target st mysql_native_password_sha1_stage2 id m)
  | Mongodb => resolve_mongodb st u n = Some (route_target st id m)
  | Redis => resolve_redis st u = Some (route_target st id m)
  | Valkey => resolve_valkey st u = Some (route_target st id m)
  | Qdrant => ∀ s, route_key_sha256 m = Some s →
                   resolve_qdrant st s = Some (route_target st id m)
  end.
Proof.
  intros Hh Hm He Hf u n. apply history_fully_routed in Hh.
  unfold routes_fenced in Hf. to_prop.
  assert (∀ k, publishes m k → routed st k id) as Hr by (intros; by eapply Hh).
  assert (∀ i, routed st i id → route_target_for st id = Some (route_target st id m)) as Ht
    by (intros; unfold route_target_for; by rewrite Hm).
  destruct (protocol m) eqn:Hp; intros.
  - apply (resolve_own_database Postgres); try done. by apply Hr.
  - specialize (Hr (KUser Redis u) ltac:(done)). unfold resolve_redis. simpl in Hr.
    rewrite Hr. simpl. by eapply (Ht (KUser Redis u)).
  - specialize (Hr (KUser Valkey u) ltac:(done)). unfold resolve_valkey. simpl in Hr.
    rewrite Hr. simpl. by eapply (Ht (KUser Valkey u)).
  - apply (resolve_own_database Mariadb); try done. by apply Hr.
  - apply (resolve_own_database Mysql); try done. by apply Hr.
  - specialize (Hr (KDatabase Mongodb u n) ltac:(done)). unfold resolve_mongodb.
    simpl in Hr. rewrite Hr. simpl. by eapply (Ht (KDatabase Mongodb u n)).
  - apply (resolve_own_database Clickhouse); try done. by apply Hr.
  - specialize (Hr (KApiKey s) ltac:(done)). unfold resolve_qdrant. simpl in Hr.
    rewrite Hr. simpl. by eapply (Ht (KApiKey s)).
Qed.
End store.

(** ** A concrete store *)

Module StoreDemo.

Definition demo_sha (password : string) : string := "sha:" +:+ password.

Definition demo_pg (id user db : string) : InstanceMetadata :=
  {| instance_id := id; deployment_mode := SharedMode; protocol := Postgres;
     status := Running; desired_state := DesiredRunning; disk_limit_blocked := false;
     backend := UnixSocket ("/run/" +:+ id); identity := {| name := db; username := user |};
     route_key_sha256 := None; mariadb_native_password_sha1_stage2 := None;
     mysql_native_password_sha1_stage2 := None; tenant_password := None;
     limits := {| limit_memory_mib := 1024; limit_disk_mib := 10240;
                disk_enforcement_method := "not_supported" |};
     created_at := "2026-01-01"; updated_at := "2026-01-01"; instance_owner := None;
     placed_runtime_id := ""; image := None; database_version := None |}.

Definition demo_a : InstanceMetadata := demo_pg "a" "alice" "shop".
Definition demo_b : InstanceMetadata := demo_pg "b" "bob" "blog".
Definition store_demo_first : InstanceState := upsert demo_sha demo_a instance_state_default.
Definition demo_store : InstanceState := upsert demo_sha demo_b store_demo_first.

Lemma demo_reachable : store_reachable demo_sha demo_store.
Proof.
  exists [Upsert demo_a; Upsert demo_b]. unfold run_all. cbn [foldl].
  by rewrite (run_upsert demo_sha demo_a), (run_upsert demo_sha demo_b).
Qed.

Lemma store_demo_unique st :
  (∀ id m, instances st !! id = Some m → m = demo_a ∧ id = "a" ∨ m = demo_b ∧ id = "b") →
  unique_identities demo_sha st.
Proof.
  intros H id1 id2 m1 m2 k [[-> ->]|[-> ->]]%H [[-> ->]|[-> ->]]%H H1 H2 Hs; try done;
    destruct k; try done; simpl in *; naive_solver.
Qed.

Lemma demo_history : history demo_sha demo_store.
Proof.
  unfold demo_store. rewrite <-(run_upsert demo_sha demo_b). apply history_step; [|done|].
  - unfold store_demo_first. rewrite <-(run_upsert demo_sha demo_a).
    apply history_step; [constructor|done|]. rewrite (run_upsert demo_sha demo_a).
    apply store_demo_unique. intros id m. rewrite (proj1 (upsert_fields demo_sha demo_a _)).
    change (instances instance_state_default) with (∅ : gmap string InstanceMetadata).
    rewrite lookup_insert_Some, lookup_empty. naive_solver.
  - rewrite (run_upsert demo_sha demo_b). apply store_demo_unique. intros id m.
    rewrite (proj1 (upsert_fields demo_sha demo_b _)). unfold store_demo_first.
    rewrite (proj1 (upsert_fields demo_sha demo_a _)).
    change (instances instance_state_default) with (∅ : gmap string InstanceMetadata).
    rewrite !lookup_insert_Some, lookup_empty. naive_solver.
Qed.

End StoreDemo.

Import StoreDemo.

Lemma resolution_respects_ownership_witness :
  ∃ id m, owner demo_sha demo_store (KDatabase Postgres "alice" "shop") id m ∧
    asked_for (has_database Postgres "alice" demo_store) None "shop" ∧
    route_target demo_store "a" demo_a = route_target demo_store id m.
Proof.
  refine (proj1 (resolution_respects_ownership demo_sha demo_store _)
            "alice" None "shop" (route_target demo_store "a" demo_a) _).
  - exact demo_reachable.
  - vm_compute. reflexivity.
Defined.

Lemma pinned_fence_holds_witness :
  ¬ routed (run_all demo_sha [Upsert demo_a; UpsertPreservingFence demo_a]
              (pin_routes_fenced "a" demo_store).2) (KDatabase Postgres "alice" "shop") "a".
Proof.
  refine (proj1 (pinned_fence_holds demo_sha demo_store "a"
                   [Upsert demo_a; UpsertPreservingFence demo_a] _ _ _) _).
  - exact demo_reachable.
  - vm_compute. reflexivity.
  - repeat constructor.
Defined.

Lemma current_revision_means_unchanged_witness :
  instances (run_all demo_sha [Upsert demo_b]
               (run_all demo_sha [Upsert demo_a; Upsert demo_b] (from_instances demo_sha [])))
    !! "a" = Some demo_a.
Proof.
  refine (proj1 (current_revision_means_unchanged demo_sha []
                   [Upsert demo_a; Upsert demo_b] [Upsert demo_b]
                   (KDatabase Postgres "alice" "shop") "a" demo_a _ _ _ _)).
  - repeat constructor.
  - vm_compute. discriminate.
  - split; [vm_compute; reflexivity|split; [done|]].
    split; [by split_and!|split; vm_compute; reflexivity].
  - vm_compute. reflexivity.
Defined.

Lemma own_credentials_resolve_witness :
  resolve_postgres demo_store "alice" (Some "shop") =
    Found "shop" (route_target demo_store "a" demo_a).
Proof.
  refine (own_credentials_resolve demo_sha demo_store "a" demo_a demo_history _ _ _ _);
    [vm_compute; reflexivity..|done].
Defined.
