(* ===== verification/RespProto.v ===== *)
(** * Redis and Valkey routing (RESP)

    Models [gateway/protocols/redis.rs]: the first command of a client (an
    [AUTH] or a [HELLO ... AUTH]) is parsed to find its user or its password,
    and rewritten with the resolved user before it is replayed to the backend.
    Positions in a frame are natural numbers; lengths read from the wire are
    [usize] values. *)
From S2P Require Import Prelude Bytes.

Local Open Scope Z_scope.

(** ** Text *)

(** [usize::to_string]: a [usize] has at most 20 digits. *)
Fixpoint digits (fuel : nat) (x : Z) : bytes :=
  match fuel with
  | O => []
  | S fuel => (if x <? 10 then [] else digits fuel (x / 10)) ++ [z2b (48 + x mod 10)]
  end.
Definition usize_to_string (x : Z) : bytes := digits 20 x.

Definition CRLF : bytes := [x0d; x0a].

(** ** Errors and routes *)

Inductive RedisParseError := Empty | Incomplete | Unsupported | MissingUsername | InvalidUtf8.
#[export] Instance RedisParseError_eq_dec : EqDecision RedisParseError.
Proof. solve_decision. Defined.

Record RedisRoute := mkRedisRoute { route_username : option bytes; route_password : bytes }.

Definition MAX_INITIAL_ARGS : Z := 16.
Definition MAX_BULK_LENGTH : Z := 16 * 1024.

(** ** Reading a frame *)

(** [parse_decimal]: the loop over the digits, with its overflow checks. *)
Fixpoint parse_decimal_from (value : Z) (l : bytes) : result RedisParseError Z :=
  match l with
  | [] => Ok value
  | b :: l =>
      if between 48 57 b then
        value ← ok_or (v ← checked_mul usize_max value 10;
                       checked_add usize_max v (b2z b - 48)) Unsupported;
        parse_decimal_from value l
      else Err Unsupported
  end.
Definition parse_decimal (l : bytes) : result RedisParseError Z := parse_decimal_from 0 l.

(** The position of the first CRLF. *)
Fixpoint find_crlf (l : bytes) : option nat :=
  match l with
  | b :: ((c :: _) as rest) =>
      if bool_decide (b = x0d) && bool_decide (c = x0a) then Some 0%nat
      else S <$> find_crlf rest
  | _ => None
  end.

Definition read_decimal_line (frame : bytes) (offset : nat) : result RedisParseError (Z * nat) :=
  match find_crlf (drop offset frame) with
  | None => Err Incomplete
  | Some len =>
      if (len =? 0)%nat then Err Unsupported
      else
        value ← parse_decimal (take len (drop offset frame));
        Ok (value, offset + len + 2)%nat
  end.

(** One bulk string. *)
Definition read_argument (frame : bytes) (offset : nat) : result RedisParseError (bytes * nat) :=
  match frame !! offset with
  | None => Err Incomplete
  | Some b =>
      if bool_decide (b ≠ "$"%byte) then Err Unsupported
      else
        '(len, offset) ← read_decimal_line frame (offset + 1);
        if MAX_BULK_LENGTH <? len then Err Unsupported
        else
          value_end ← ok_or (checked_add usize_max (Z.of_nat offset) len) Unsupported;
          frame_end ← ok_or (checked_add usize_max value_end 2) Unsupported;
          if zlength frame <? frame_end then Err Incomplete
          else if bool_decide (take 2 (drop (Z.to_nat value_end) frame) ≠ CRLF)
          then Err Unsupported
          else Ok (take (Z.to_nat len) (drop offset frame), Z.to_nat frame_end)
  end.

Fixpoint read_arguments (count : nat) (frame : bytes) (offset : nat) :
    result RedisParseError (list bytes * nat) :=
  match count with
  | O => Ok ([], offset)
  | S count =>
      '(argument, offset) ← read_argument frame offset;
      '(arguments, offset) ← read_arguments count frame offset;
      Ok (argument :: arguments, offset)
  end.

Definition parse_resp_array (frame : bytes) : result RedisParseError (list bytes * nat) :=
  match frame with
  | [] => Err Empty
  | b :: _ =>
      if bool_decide (b ≠ "*"%byte) then Err Unsupported
      else
        '(count, offset) ← read_decimal_line frame 1;
        if MAX_INITIAL_ARGS <? count then Err Unsupported
        else read_arguments (Z.to_nat count) frame offset
  end.

(** ** Writing a frame *)

Definition push_resp_length_line (marker : byte) (len : nat) : bytes :=
  [marker] ++ usize_to_string (Z.of_nat len) ++ CRLF.

Definition serialize_argument (argument : bytes) : bytes :=
  push_resp_length_line "$"%byte (length argument) ++ argument ++ CRLF.

Definition serialize_resp_array (args : list bytes) : bytes :=
  push_resp_length_line "*"%byte (length args) ++ concat (serialize_argument <$> args).

(** ** Routes *)

(** The options of [HELLO] after its version; [index] is the position of the
    first of them in the command. *)
Fixpoint hello_options (options : list bytes) (index : nat) (auth : option nat) :
    result RedisParseError (option nat) :=
  match options with
  | [] => Ok auth
  | option :: rest =>
      if eq_ignore_ascii_case option (lit "AUTH") then
        match rest with
        | _ :: _ :: rest => hello_options rest (index + 3) (Some index)
        | _ => Err MissingUsername
        end
      else if eq_ignore_ascii_case option (lit "SETNAME") then
        match rest with
        | _ :: rest => hello_options rest (index + 2) auth
        | [] => Err Unsupported
        end
      else Err Unsupported
  end.

Definition hello_auth_index (args : list bytes) : result RedisParseError nat :=
  version ← ok_or (args !! 1%nat) MissingUsername;
  if negb (bool_decide (version = lit "2") || bool_decide (version = lit "3"))
  then Err Unsupported
  else
    auth ← hello_options (drop 2 args) 2 None;
    ok_or auth MissingUsername.

Definition redis_string (v : bytes) : result RedisParseError bytes :=
  if valid_utf8 v then Ok v else Err InvalidUtf8.

Definition parse_auth (args : list bytes) : result RedisParseError RedisRoute :=
  match args with
  | [_; password] => Ok {| route_username := None; route_password := password |}
  | [_; user; password] =>
      user ← redis_string user;
      Ok {| route_username := Some user; route_password := password |}
  | _ => Err Unsupported
  end.

Definition parse_hello (args : list bytes) : result RedisParseError RedisRoute :=
  auth ← hello_auth_index args;
  user ← redis_string (default [] (args !! (auth + 1)%nat));
  Ok {| route_username := Some user;
        route_password := default [] (args !! (auth + 2)%nat) |}.

Definition route_from_args (args : list bytes) : result RedisParseError RedisRoute :=
  match args with
  | [] => Err Empty
  | command :: _ =>
      if eq_ignore_ascii_case command (lit "AUTH") then parse_auth args
      else if eq_ignore_ascii_case command (lit "HELLO") then parse_hello args
      else Err Unsupported
  end.

Definition parse_initial_route (frame : bytes) : result RedisParseError RedisRoute :=
  '(args, consumed) ← parse_resp_array frame;
  if negb (consumed =? length frame)%nat then Err Unsupported else route_from_args args.

Definition parse_initial_frame_route (frame : bytes) :
    result RedisParseError (option (RedisRoute * nat)) :=
  match parse_resp_array frame with
  | Ok (args, consumed) => route ← route_from_args args; Ok (Some (route, consumed))
  | Err Incomplete => Ok None
  | Err error => Err error
  end.

(** ** Rewriting *)

(** The arguments with the resolved user in place. *)
Definition rewrite_args (args : list bytes) (user : bytes) : result RedisParseError (list bytes) :=
  match args with
  | [] => Err Unsupported
  | command :: _ =>
      if eq_ignore_ascii_case command (lit "AUTH") then
        match args with
        | [command; password] => Ok [command; user; password]
        | [command; _; password] => Ok [command; user; password]
        | _ => Err Unsupported
        end
      else if eq_ignore_ascii_case command (lit "HELLO") then
        auth ← hello_auth_index args;
        Ok (<[(auth + 1)%nat := user]> args)
      else Err Unsupported
  end.

Definition rewrite_with_resolved_username (route : RedisRoute) (original : bytes)
    (consumed : nat) (resolved : bytes) : result RedisParseError bytes :=
  let has_explicit_username :=
    match route_username route with
    | Some user => negb (eq_ignore_ascii_case user (lit "default"))
    | None => false
    end in
  let invalid := bool_decide (resolved = []) || bool_decide (x0d ∈ resolved)
                 || bool_decide (x0a ∈ resolved) in
  if has_explicit_username || invalid || (length original <? consumed)%nat
  then Err Unsupported
  else
    '(args, parsed) ← parse_resp_array (take consumed original);
    if negb (parsed =? consumed)%nat then Err Unsupported
    else
      args ← rewrite_args args resolved;
      Ok (serialize_resp_array args ++ drop consumed original).

(** ** Decimal numbers *)

Definition is_digit (b : byte) : bool := between 48 57 b.

Lemma digit_of x : 0 ≤ x < 10 → b2z (z2b (48 + x)) = 48 + x.
Proof. intros. apply b2z_z2b. lia. Qed.

Lemma digit_is_digit x : 0 ≤ x < 10 → is_digit (z2b (48 + x)) = true.
Proof.
  intros. unfold is_digit, between. rewrite digit_of by done.
  rewrite andb_true_iff, !Z.leb_le. lia.
Qed.

Lemma digits_are_digits fuel x : 0 ≤ x → Forall (λ b, is_digit b = true) (digits fuel x).
Proof.
  revert x. induction fuel as [|fuel IH]; intros x Hx; simpl; [constructor|].
  apply Forall_app_2.
  - case_match; [constructor|]. apply IH. apply Z.div_pos; lia.
  - apply Forall_singleton, digit_is_digit, Z.mod_pos_bound. lia.
Qed.

Lemma parse_decimal_digits fuel x rest :
  0 ≤ x < 10 ^ Z.of_nat fuel → x ≤ u64_max →
  parse_decimal_from 0 (digits fuel x ++ rest) = parse_decimal_from x rest.
Proof.
  revert x rest. induction fuel as [|fuel IH]; intros x rest Hx Hmax.
  { change (10 ^ Z.of_nat 0) with 1 in Hx. by replace x with 0 by lia. }
  pose proof (Z.mod_pos_bound x 10 ltac:(lia)) as Hmod.
  pose proof (Z.div_mod x 10 ltac:(lia)) as Hdiv.
  assert (∀ v, v * 10 + x mod 10 ≤ u64_max → 0 ≤ v →
    parse_decimal_from v (z2b (48 + x mod 10) :: rest) =
    parse_decimal_from (v * 10 + x mod 10) rest) as Hstep.
  { intros v Hv Hv0. cbn [parse_decimal_from].
    pose proof (digit_is_digit _ Hmod) as Hd. unfold is_digit in Hd. rewrite Hd.
    unfold checked_mul. destruct (Z.leb_spec (v * 10) u64_max); [|lia]. cbn [mbind option_bind].
    unfold checked_add. rewrite digit_of by done.
    replace (48 + x mod 10 - 48) with (x mod 10) by lia.
    destruct (Z.leb_spec (v * 10 + x mod 10) u64_max); [|lia]. done. }
  cbn [digits]. rewrite <-app_assoc. cbn [app]. case_match eqn:E; to_prop; cbn [app].
  - rewrite Hstep; rewrite ?Z.mod_small by lia; [f_equal; lia|lia|lia].
  - rewrite IH.
    + rewrite Hstep; [f_equal; lia|lia|]. apply Z.div_pos; lia.
    + rewrite Nat2Z.inj_succ, Z.pow_succ_r in Hx by lia.
      split; [apply Z.div_pos; lia|apply Z.div_lt_upper_bound; lia].
    + lia.
Qed.

Lemma digits_nonempty fuel x : digits (S fuel) x ≠ [].
Proof. cbn [digits]. intros H. by apply app_nil in H as [_ ?]. Qed.

Lemma parse_usize x : 0 ≤ x ≤ u64_max → parse_decimal (usize_to_string x) = Ok x.
Proof.
  intros Hx. unfold parse_decimal, usize_to_string.
  rewrite <-(app_nil_r (digits 20 x)), parse_decimal_digits; [done| |lia].
  change (10 ^ Z.of_nat 20) with 100000000000000000000. unfold u64_max in Hx. lia.
Qed.

(** ** Round trip *)

Lemma find_crlf_app piece rest :
  Forall (λ b, b ≠ x0d) piece → find_crlf (piece ++ CRLF ++ rest) = Some (length piece).
Proof.
  induction 1 as [|b piece Hb _ IH]; [done|].
  change ((b :: piece) ++ CRLF ++ rest) with (b :: (piece ++ CRLF ++ rest)).
  cbn [find_crlf]. destruct (piece ++ CRLF ++ rest) as [|c l] eqn:E.
  { by destruct piece. }
  rewrite bool_decide_false by done. cbn [andb]. by rewrite IH.
Qed.

Lemma read_decimal_line_app pre x rest :
  0 ≤ x ≤ u64_max →
  read_decimal_line (pre ++ usize_to_string x ++ CRLF ++ rest) (length pre) =
  Ok (x, length pre + length (usize_to_string x) + 2)%nat.
Proof.
  intros Hx. unfold read_decimal_line. rewrite drop_app_length, find_crlf_app.
  - rewrite take_app_length, parse_usize by done.
    destruct (Nat.eqb_spec (length (usize_to_string x)) 0) as [E|]; [|done].
    apply length_zero_iff_nil in E. by apply digits_nonempty in E.
  - eapply Forall_impl; [apply digits_are_digits; lia|].
    intros b Hb ->. by vm_compute in Hb.
Qed.

Lemma read_argument_app pre a rest :
  zlength a ≤ MAX_BULK_LENGTH → zlength (pre ++ serialize_argument a ++ rest) ≤ u64_max →
  read_argument (pre ++ serialize_argument a ++ rest) (length pre) =
  Ok (a, length (pre ++ serialize_argument a)).
Proof.
  intros Ha Hlen. set (n := usize_to_string (zlength a)).
  assert (pre ++ serialize_argument a ++ rest =
          (pre ++ ["$"%byte]) ++ n ++ CRLF ++ (a ++ CRLF ++ rest)) as E.
  { unfold serialize_argument, push_resp_length_line. fold n. by rewrite <-!app_assoc. }
  assert (pre ++ serialize_argument a ++ rest =
          (pre ++ ["$"%byte] ++ n ++ CRLF) ++ a ++ CRLF ++ rest) as E2.
  { rewrite E. by rewrite <-!app_assoc. }
  assert ((pre ++ serialize_argument a ++ rest) !! length pre = Some "$"%byte) as Hl
    by (rewrite E, <-app_assoc; by apply list_lookup_middle).
  unfold read_argument. rewrite Hl.
  rewrite bool_decide_false by naive_solver.
  replace (length pre + 1)%nat with (length (pre ++ ["$"%byte])) by (rewrite length_app; done).
  assert (read_decimal_line (pre ++ serialize_argument a ++ rest)
            (length (pre ++ ["$"%byte])) =
          Ok (zlength a, length (pre ++ ["$"%byte]) + length n + 2)%nat) as ->
    by (rewrite E; apply read_decimal_line_app; unfold MAX_BULK_LENGTH in Ha; int_lia).
  cbn [mbind result_bind].
  destruct (Z.ltb_spec MAX_BULK_LENGTH (zlength a)); [lia|].
  set (o := (length (pre ++ ["$"%byte]) + length n + 2)%nat).
  assert (o = length (pre ++ ["$"%byte] ++ n ++ CRLF)) as Eo.
  { unfold o. rewrite !length_app. simpl. lia. }
  assert (Z.of_nat o + zlength a + 2 ≤ zlength (pre ++ serialize_argument a ++ rest)) as Hfit.
  { rewrite E2, (length_app _ (a ++ _)), <-Eo, !length_app. simpl. lia. }
  unfold checked_add. destruct (Z.leb_spec (Z.of_nat o + zlength a) u64_max); [|lia].
  cbn [mbind result_bind ok_or].
  destruct (Z.leb_spec (Z.of_nat o + zlength a + 2) u64_max); [|lia].
  cbn [mbind result_bind ok_or].
  destruct (Z.ltb_spec (zlength (pre ++ serialize_argument a ++ rest))
              (Z.of_nat o + zlength a + 2)); [lia|].
  replace (Z.to_nat (Z.of_nat o + zlength a)) with (o + length a)%nat by lia.
  rewrite E2, <-drop_drop, Eo, drop_app_length, drop_app_length.
  rewrite Nat2Z.id, take_app_length.
  change (take 2 (CRLF ++ rest)) with CRLF. rewrite bool_decide_false by naive_solver.
  f_equal. f_equal. unfold serialize_argument, push_resp_length_line. fold n.
  rewrite !length_app. simpl. lia.
Qed.

Definition args_ok (args : list bytes) : Prop :=
  zlength args ≤ MAX_INITIAL_ARGS ∧ Forall (λ a, zlength a ≤ MAX_BULK_LENGTH) args.

Lemma read_arguments_app args pre rest :
  Forall (λ a, zlength a ≤ MAX_BULK_LENGTH) args →
  zlength (pre ++ concat (serialize_argument <$> args) ++ rest) ≤ u64_max →
  read_arguments (length args) (pre ++ concat (serialize_argument <$> args) ++ rest)
    (length pre) = Ok (args, length (pre ++ concat (serialize_argument <$> args))).
Proof.
  intros Ha. revert pre. induction Ha as [|a args Ha _ IH]; intros pre Hlen.
  { cbn. by rewrite app_nil_r. }
  rewrite fmap_cons in *. cbn [concat length read_arguments] in *.
  rewrite <-app_assoc in *. rewrite read_argument_app by done. cbn [mbind result_bind].
  rewrite (app_assoc pre) in Hlen |- *. rewrite (IH (pre ++ serialize_argument a)) by done.
  cbn [mbind result_bind]. by rewrite <-!app_assoc.
Qed.

Lemma parse_serialized args rest :
  args_ok args → zlength (serialize_resp_array args ++ rest) ≤ u64_max →
  parse_resp_array (serialize_resp_array args ++ rest) =
    Ok (args, length (serialize_resp_array args)).
Proof.
  intros [Hn Ha] Hlen. unfold serialize_resp_array, push_resp_length_line in *.
  rewrite <-!app_assoc in *. cbn [app parse_resp_array] in *.
  rewrite bool_decide_false by naive_solver. unfold MAX_INITIAL_ARGS in *.
  pose proof (read_decimal_line_app ["*"%byte] (zlength args)
    (concat (serialize_argument <$> args) ++ rest)) as Hd.
  cbn [app length] in Hd. rewrite Hd by int_lia. cbn [mbind result_bind].
  destruct (Z.ltb_spec 16 (zlength args)); [lia|]. rewrite Nat2Z.id.
  set (pre := "*"%byte :: usize_to_string (zlength args) ++ CRLF).
  assert ("*"%byte :: usize_to_string (zlength args) ++
            CRLF ++ concat (serialize_argument <$> args) ++ rest =
          pre ++ concat (serialize_argument <$> args) ++ rest) as E
    by (unfold pre; cbn [app]; by rewrite <-app_assoc).
  rewrite E in *.
  replace (1 + length (usize_to_string (zlength args)) + 2)%nat with (length pre)
    by (unfold pre; cbn [length]; rewrite length_app; simpl; lia).
  rewrite read_arguments_app by done. f_equal. f_equal. unfold pre. cbn [length app].
  by rewrite <-app_assoc.
Qed.

(** ** Partial frames *)

(** A result that more input cannot change. *)
Definition final {A : Type} (r : result RedisParseError A) : Prop :=
  r ≠ Err Incomplete.

Lemma find_crlf_cons b c l :
  find_crlf (b :: c :: l) =
  if bool_decide (b = x0d) && bool_decide (c = x0a) then Some 0%nat
  else S <$> find_crlf (c :: l).
Proof. done. Qed.

Lemma find_crlf_extend l more n :
  find_crlf l = Some n → find_crlf (l ++ more) = Some n ∧ (n + 2 ≤ length l)%nat.
Proof.
  revert n. induction l as [|b l IH]; intros n H; [done|].
  destruct l as [|c l]; [done|].
  change ((b :: c :: l) ++ more) with (b :: c :: (l ++ more)).
  rewrite find_crlf_cons in H |- *.
  destruct (_ && _); [simplify_eq; split; [done|simpl; lia]|].
  apply fmap_Some in H as (m & Hm & ->). destruct (IH m Hm) as [E Hle].
  change (find_crlf (c :: l ++ more)) with (find_crlf ((c :: l) ++ more)). rewrite E.
  split; [done|]. cbn [length] in *. lia.
Qed.

Lemma drop_app_extend (offset : nat) (l more : bytes) :
  (offset ≤ length l)%nat → drop offset (l ++ more) = drop offset l ++ more.
Proof.
  intros. rewrite drop_app. by replace (offset - length l)%nat with 0%nat by lia.
Qed.

Lemma parse_decimal_nonneg v l x : parse_decimal_from v l = Ok x → 0 ≤ v → 0 ≤ x.
Proof.
  revert v. induction l as [|b l IH]; intros v H Hv; cbn in H; [by simplify_eq|].
  destruct (between 48 57 b) eqn:Hb; [|done].
  apply bind_Ok in H as (v' & H1 & H2). apply ok_or_Ok, bind_Some in H1 as (w & Hw & Ha).
  apply checked_mul_Some in Hw as [-> _]. apply checked_add_Some in Ha as [-> _].
  unfold between in Hb. to_prop. eapply IH; [done|]. lia.
Qed.

Lemma read_decimal_line_extend l more offset :
  final (read_decimal_line l offset) →
  read_decimal_line (l ++ more) offset = read_decimal_line l offset ∧
  ∀ x o, read_decimal_line l offset = Ok (x, o) → (o ≤ length l)%nat ∧ 0 ≤ x.
Proof.
  intros Hi. unfold final, read_decimal_line in *.
  destruct (find_crlf (drop offset l)) as [n|] eqn:E; [|done].
  apply (find_crlf_extend _ more) in E as [E Hle]. rewrite length_drop in Hle.
  rewrite drop_app_extend, E by lia.
  rewrite take_app_le by (rewrite length_drop; lia). split; [done|].
  intros x o. case_match; [done|]. intros (v & Hv & [= <- <-])%bind_Ok. split; [lia|].
  by eapply parse_decimal_nonneg.
Qed.

Lemma read_argument_extend l more offset :
  final (read_argument l offset) →
  read_argument (l ++ more) offset = read_argument l offset ∧
  ∀ a o, read_argument l offset = Ok (a, o) → (o ≤ length l)%nat.
Proof.
  unfold read_argument. destruct (l !! offset) as [b|] eqn:Hb; [|by intros []; done].
  rewrite (lookup_app_l_Some _ _ _ _ Hb). case_bool_decide; [done|]. intros Hf.
  assert (final (read_decimal_line l (offset + 1))) as Hd.
  { intros E. by rewrite E in Hf. }
  destruct (read_decimal_line_extend l more _ Hd) as [-> Hle].
  destruct (read_decimal_line l (offset + 1)) as [[len o]|e] eqn:E; [|done].
  destruct (Hle len o eq_refl) as [Ho Hnn]. cbn [mbind result_bind] in *.
  destruct (Z.ltb_spec MAX_BULK_LENGTH len); [done|].
  destruct (checked_add u64_max (Z.of_nat o) len) as [ve|] eqn:Ev; cbn [ok_or mbind result_bind] in *;
    [|done].
  destruct (checked_add u64_max ve 2) as [fe|] eqn:Ef; cbn [ok_or mbind result_bind] in *; [|done].
  apply checked_add_Some in Ev as [-> _]. apply checked_add_Some in Ef as [-> _].
  destruct (Z.ltb_spec (zlength l) (Z.of_nat o + len + 2)) as [|Hfit]; [by destruct Hf|].
  destruct (Z.ltb_spec (zlength (l ++ more)) (Z.of_nat o + len + 2)) as [Hx|_].
  { rewrite length_app in Hx. lia. }
  rewrite !drop_app_extend, !take_app_le by (rewrite ?length_drop; lia).
  split; [done|]. intros a o'. case_bool_decide; [done|]. intros [= <- <-]. lia.
Qed.

Lemma read_arguments_extend count l more offset :
  (offset ≤ length l)%nat → final (read_arguments count l offset) →
  read_arguments count (l ++ more) offset = read_arguments count l offset ∧
  ∀ args o, read_arguments count l offset = Ok (args, o) → (o ≤ length l)%nat.
Proof.
  revert offset. induction count as [|count IH]; intros offset Ho Hf; cbn [read_arguments] in *.
  { split; [done|]. by intros args o [= <- <-]. }
  assert (final (read_argument l offset)) as Ha.
  { intros E. by rewrite E in Hf. }
  destruct (read_argument_extend l more offset Ha) as [-> Hle].
  destruct (read_argument l offset) as [[a o]|e]; [|done]. cbn [mbind result_bind] in *.
  specialize (Hle a o eq_refl).
  assert (final (read_arguments count l o)) as Hr.
  { intros E. by rewrite E in Hf. }
  destruct (IH o Hle Hr) as [-> Hle'].
  split; [done|]. intros args o' ([args' o''] & E & [= <- <-])%bind_Ok. eauto.
Qed.

Lemma parse_resp_array_extend l more :
  l ≠ [] → final (parse_resp_array l) →
  parse_resp_array (l ++ more) = parse_resp_array l ∧
  ∀ args o, parse_resp_array l = Ok (args, o) → (o ≤ length l)%nat.
Proof.
  unfold parse_resp_array. destruct l as [|b l]; [done|]. intros _.
  cbn [app]. case_bool_decide; [done|]. intros Hf.
  change (b :: l ++ more) with ((b :: l) ++ more).
  assert (final (read_decimal_line (b :: l) 1)) as Hd.
  { intros E. by rewrite E in Hf. }
  destruct (read_decimal_line_extend (b :: l) more 1 Hd) as [-> Hle].
  destruct (read_decimal_line (b :: l) 1) as [[count o]|e]; [|done].
  destruct (Hle count o eq_refl) as [Ho _]. cbn [mbind result_bind] in *.
  destruct (Z.ltb_spec MAX_INITIAL_ARGS count); [done|].
  apply read_arguments_extend; done.
Qed.

Lemma resp_frame_incomplete args n :
  args_ok args → zlength (serialize_resp_array args) ≤ u64_max →
  (0 < n < length (serialize_resp_array args))%nat →
  parse_resp_array (take n (serialize_resp_array args)) = Err Incomplete.
Proof.
  intros Hok Hlen Hn. pose proof (parse_serialized args [] Hok) as Hfull.
  rewrite app_nil_r in Hfull. specialize (Hfull Hlen).
  set (frame := serialize_resp_array args) in *. set (l := take n frame).
  assert (length l = n) as Hl by (unfold l; rewrite length_take; lia).
  destruct (decide (parse_resp_array l = Err Incomplete)) as [|Hf]; [done|exfalso].
  destruct (parse_resp_array_extend l (drop n frame)) as [Hx Hle]; [|done|].
  { intros E. rewrite E in Hl. cbn in Hl. lia. }
  unfold l in Hx. rewrite take_drop in Hx. rewrite Hfull in Hx.
  specialize (Hle args (length frame) (eq_sym Hx)). lia.
Qed.

Lemma resp_frame_partial args n :
  args_ok args → zlength (serialize_resp_array args) ≤ u64_max →
  (0 < n < length (serialize_resp_array args))%nat →
  parse_initial_frame_route (take n (serialize_resp_array args)) = Ok None.
Proof.
  intros. unfold parse_initial_frame_route. by rewrite resp_frame_incomplete.
Qed.

(** The first command is recognised whatever way it arrives in pieces.  The
    frame of an argument list parses back to exactly that list and consumes
    exactly its own bytes, whatever follows it; and every proper, non-empty
    prefix of it is reported as incomplete, never as an error or as another
    command. *)
Theorem resp_frame_exact args rest n :
  args_ok args → zlength (serialize_resp_array args ++ rest) ≤ u64_max →
  (0 < n < length (serialize_resp_array args))%nat →
  parse_resp_array (serialize_resp_array args ++ rest) =
    Ok (args, length (serialize_resp_array args)) ∧
  parse_resp_array (take n (serialize_resp_array args)) = Err Incomplete ∧
  parse_initial_frame_route (take n (serialize_resp_array args)) = Ok None.
Proof.
  intros Hok Hlen Hn.
  assert (zlength (serialize_resp_array args) ≤ u64_max) by (rewrite length_app in Hlen; lia).
  auto using parse_serialized, resp_frame_incomplete, resp_frame_partial.
Qed.

(** ** Rewriting keeps the session *)

(** The options end with the [AUTH] they started with, or with a later one
    among them, whose user can be replaced. *)
Lemma hello_options_insert n opts index auth i user :
  (length opts ≤ n)%nat → hello_options opts index auth = Ok (Some i) →
  auth = Some i ∨
  (∃ k, i = index + k ∧ k + 2 < length opts)%nat ∧
    hello_options (<[(i + 1 - index)%nat := user]> opts) index auth = Ok (Some i).
Proof.
  revert opts index auth. induction n as [|n IH]; intros opts index auth Hn H.
  { destruct opts; [left; by simplify_eq/=|simpl in Hn; lia]. }
  destruct opts as [|o rest]; [left; by simplify_eq/=|]. cbn [hello_options length] in *.
  destruct (eq_ignore_ascii_case o (lit "AUTH")) eqn:Ea.
  - destruct rest as [|u [|pw rest]]; try done. cbn [length] in Hn. right.
    destruct (IH rest (index + 3)%nat (Some index) ltac:(lia) H) as [[= <-]|[(k & -> & Hk) H']].
    + split; [exists 0%nat; cbn [length]; lia|].
      replace (index + 1 - index)%nat with 1%nat by lia. cbn -[eq_ignore_ascii_case lit].
      by rewrite Ea.
    + split; [exists (3 + k)%nat; cbn [length]; lia|].
      replace (index + 3 + k + 1 - index)%nat
        with (S (S (S (index + 3 + k + 1 - (index + 3))))) by lia.
      cbn -[eq_ignore_ascii_case lit Nat.sub Nat.add]. by rewrite Ea.
  - destruct (eq_ignore_ascii_case o (lit "SETNAME")) eqn:En; [|done].
    destruct rest as [|x rest]; [done|]. cbn [length] in Hn.
    destruct (IH rest (index + 2)%nat auth ltac:(lia) H) as [->|[(k & -> & Hk) H']]; [by left|right].
    split; [exists (2 + k)%nat; cbn [length]; lia|].
    replace (index + 2 + k + 1 - index)%nat
      with (S (S (index + 2 + k + 1 - (index + 2)))) by lia.
    cbn -[eq_ignore_ascii_case lit Nat.sub Nat.add]. by rewrite Ea, En.
Qed.

Lemma hello_auth_index_insert args i user :
  hello_auth_index args = Ok i →
  hello_auth_index (<[(i + 1)%nat := user]> args) = Ok i ∧ (i + 2 < length args)%nat ∧
  (2 ≤ i)%nat.
Proof.
  unfold hello_auth_index. destruct args as [|c [|v opts]]; try done.
  cbn [lookup list_lookup ok_or mbind result_bind skipn].
  destruct (negb _) eqn:Ev; [done|]. intros (auth & H & Ha%ok_or_Ok)%bind_Ok. subst auth.
  rewrite drop_0 in H.
  destruct (hello_options_insert (length opts) opts 2 None i user ltac:(lia) H)
    as [?|[(k & -> & Hk) H']]; [done|].
  assert (<[(2 + k + 1)%nat := user]> (c :: v :: opts) =
          c :: v :: <[(2 + k + 1 - 2)%nat := user]> opts) as ->.
  { by replace (2 + k + 1 - 2)%nat with (k + 1)%nat by lia. }
  cbn [lookup list_lookup ok_or mbind result_bind skipn].
  rewrite Ev, drop_0, H'. cbn [length]. split; [done|lia].
Qed.

(** The rewritten command names the resolved user and keeps the password. *)
Lemma rewrite_args_route args route user :
  route_from_args args = Ok route → valid_utf8 user = true → args_ok args →
  zlength user ≤ MAX_BULK_LENGTH →
  ∃ args', rewrite_args args user = Ok args' ∧ args_ok args' ∧
    route_from_args args' =
      Ok {| route_username := Some user; route_password := route_password route |}.
Proof.
  intros Hr Hu [Hn Ha] Hlen. destruct args as [|c args]; [done|].
  unfold route_from_args, rewrite_args in *. unfold redis_string in *.
  destruct (eq_ignore_ascii_case c (lit "AUTH")) eqn:Ea.
  - destruct args as [|x [|pw [|]]]; try done; cbn in Hr.
    + simplify_eq. exists [c; user; x]. rewrite Ea. cbn [parse_auth].
      unfold redis_string. rewrite Hu. rewrite !Forall_cons in Ha.
      split_and!; [done|split; [done|rewrite !Forall_cons; naive_solver]|done].
    + apply bind_Ok in Hr as (u & _ & [= <-]). exists [c; user; pw]. rewrite Ea.
      cbn [parse_auth]. unfold redis_string. rewrite Hu. rewrite !Forall_cons in Ha.
      split_and!; [done|split; [done|rewrite !Forall_cons; naive_solver]|done].
  - destruct (eq_ignore_ascii_case c (lit "HELLO")) eqn:Eh; [|done].
    unfold parse_hello in *. apply bind_Ok in Hr as (i & Hi & (u & _ & [= <-])%bind_Ok).
    rewrite Hi. cbn [mbind result_bind]. eexists. split; [done|].
    destruct (hello_auth_index_insert _ i user Hi) as (Hi' & Hl & H2).
    split.
    { split; [by rewrite length_insert|]. by apply Forall_insert. }
    destruct (<[(i + 1)%nat := user]> (c :: args)) as [|c' args'] eqn:E.
    { apply (f_equal length) in E. by rewrite length_insert in E. }
    assert (c' = c) as ->.
    { replace (i + 1)%nat with (S i) in E by lia. by simplify_eq/=. }
    rewrite Ea, Eh, Hi'. cbn [mbind result_bind]. rewrite <-E.
    rewrite list_lookup_insert_eq by lia. unfold redis_string. cbn [from_option id]. rewrite Hu.
    cbn [mbind result_bind]. by rewrite list_lookup_insert_ne by lia.
Qed.

(** Rewriting the first command changes only the user.  A client that
    presented no user (or [default]) is forwarded, after its password was
    resolved to a tenant, as the same [AUTH] or [HELLO] command with that
    tenant's user and the same password, and everything it had pipelined behind
    follows byte for byte. *)
Theorem rewritten_command_authenticates args rest route user :
  args_ok args → zlength (serialize_resp_array args ++ rest) ≤ u64_max →
  route_from_args args = Ok route →
  match route_username route with
  | Some u => eq_ignore_ascii_case u (lit "default") = true
  | None => True
  end →
  user ≠ [] → x0d ∉ user → x0a ∉ user → valid_utf8 user = true →
  zlength user ≤ MAX_BULK_LENGTH →
  ∃ args',
    rewrite_with_resolved_username route (serialize_resp_array args ++ rest)
      (length (serialize_resp_array args)) user = Ok (serialize_resp_array args' ++ rest) ∧
    args_ok args' ∧
    route_from_args args' =
      Ok {| route_username := Some user; route_password := route_password route |}.
Proof.
  intros Hok Hlen Hr Hdef Hne Hcr Hlf Hutf Hul.
  destruct (rewrite_args_route args route user Hr Hutf Hok Hul) as (args' & Hw & Hok' & Hr').
  exists args'. split_and!; [|done..]. unfold rewrite_with_resolved_username.
  rewrite !bool_decide_false by done.
  assert (match route_username route with
          | Some u => negb (eq_ignore_ascii_case u (lit "default"))
          | None => false
          end = false) as -> by (destruct (route_username route); [by rewrite Hdef|done]).
  destruct (Nat.ltb_spec (length (serialize_resp_array args ++ rest))
              (length (serialize_resp_array args))) as [H|_].
  { rewrite length_app in H. lia. }
  cbn [orb]. rewrite take_app_length, drop_app_length.
  assert (parse_resp_array (serialize_resp_array args) =
          Ok (args, length (serialize_resp_array args))) as ->.
  { rewrite <-(app_nil_r (serialize_resp_array args)) at 1. apply parse_serialized; [done|].
    rewrite app_nil_r. rewrite length_app in Hlen. lia. }
  cbn [mbind result_bind]. rewrite Nat.eqb_refl. cbn [negb]. by rewrite Hw.
Qed.

(** ** Examples *)

Module RespDemo.

Definition demo_hello : list bytes :=
  [lit "HELLO"; lit "3"; lit "SETNAME"; lit "AUTH"; lit "AUTH"; lit "default"; lit "secret"].

Lemma demo_hello_ok : args_ok demo_hello.
Proof. split; [done|]. by repeat apply Forall_cons_2. Qed.

End RespDemo.

Import RespDemo.

Lemma resp_frame_exact_witness :
  parse_resp_array (take 20 (serialize_resp_array demo_hello)) = Err Incomplete.
Proof.
  refine (proj1 (proj2 (resp_frame_exact demo_hello [] 20 demo_hello_ok _ _)));
    [by vm_compute|vm_compute; lia].
Defined.

Lemma rewritten_command_authenticates_witness :
  ∃ args', rewrite_with_resolved_username
      {| route_username := Some (lit "default"); route_password := lit "secret" |}
      (serialize_resp_array demo_hello ++ lit "PING") (length (serialize_resp_array demo_hello))
      (lit "tenant") = Ok (serialize_resp_array args' ++ lit "PING") ∧ args_ok args' ∧
    route_from_args args' =
      Ok {| route_username := Some (lit "tenant"); route_password := lit "secret" |}.
Proof.
  apply (rewritten_command_authenticates demo_hello (lit "PING")
    {| route_username := Some (lit "default"); route_password := lit "secret" |} (lit "tenant"));
    [apply demo_hello_ok|by vm_compute|by vm_compute|by vm_compute|done
    |by apply (bool_decide_unpack _); vm_compute|by apply (bool_decide_unpack _); vm_compute
    |by vm_compute|by vm_compute].
Defined.
