(* ===== verification/MysqlProto.v ===== *)
(** * The MySQL and MariaDB handshake

    Models [gateway/protocols/mariadb.rs]: packet framing, the greeting the
    gateway sends, the client's handshake response, the backend's greeting and
    the responses the gateway authenticates with.

    SHA-1, SHA-256 and the hexadecimal codec are library code: they are
    parameters, and what is used of them (the length of a SHA-1 digest, the
    codec inverting itself) is a named hypothesis of the section that needs it.
    Rust strings are byte strings that passed the UTF-8 check.  Writing to a
    socket succeeds; reading past the end of a stream is an I/O error. *)
From S2P Require Import Prelude Bytes.

Local Open Scope Z_scope.

(** ** Constants *)

Definition CLIENT_LONG_PASSWORD : Z := 0x00000001.
Definition CLIENT_LONG_FLAG : Z := 0x00000004.
Definition CLIENT_CONNECT_WITH_DB : Z := 0x00000008.
Definition CLIENT_PROTOCOL_41 : Z := 0x00000200.
Definition CLIENT_SSL : Z := 0x00000800.
Definition CLIENT_SECURE_CONNECTION : Z := 0x00008000.
Definition CLIENT_PLUGIN_AUTH : Z := 0x00080000.
Definition CLIENT_CONNECT_ATTRS : Z := 0x00100000.
Definition CLIENT_PLUGIN_AUTH_LENENC_CLIENT_DATA : Z := 0x00200000.

Definition GATEWAY_CONNECTION_ID : Z := 1.
Definition NATIVE_PASSWORD_PLUGIN : bytes := lit "mysql_native_password".
Definition CACHING_SHA2_PASSWORD_PLUGIN : bytes := lit "caching_sha2_password".
Definition GATEWAY_AUTH_PLUGIN : bytes := NATIVE_PASSWORD_PLUGIN.
Definition AUTH_SEED_ALPHABET : bytes :=
  lit "0123456789ABCDEFGHIJKLMNOPQRSTUVWXYZabcdefghijklmnopqrstuvwxyz".
Definition OK_STATUS_AUTOCOMMIT : bytes := [x02; x00].

Definition MAX_PACKET_PAYLOAD_LEN : Z := 16 * 1024 * 1024.
Definition MAX_WIRE_PAYLOAD_LEN : Z := 0x00ffffff.
Definition SSL_REQUEST_LEN : nat := 32.
Definition HANDSHAKE_RESPONSE_PREFIX_LEN : nat := 4 + 4 + 1 + 23.
Definition HANDSHAKE_RESERVED_BYTES : bytes := replicate 23 x00.
Definition PROTOCOL_VERSION_10 : byte := x0a.
Definition UTF8MB4_GENERAL_CI : byte := x2d.
Definition ER_ACCESS_DENIED_ERROR : Z := 1045.
Definition OK_PACKET_HEADER : byte := x00.
Definition ERR_PACKET_HEADER : byte := xff.
Definition AUTH_SWITCH_REQUEST_HEADER : byte := xfe.
Definition AUTH_MORE_DATA_HEADER : byte := x01.
Definition GATEWAY_AUTH_SEED_LEN : nat := 20.
Definition AUTH_SEED_PART_1_LEN : nat := 8.

(** [capabilities & flag != 0]. *)
Definition has (capabilities flag : Z) : bool := negb (Z.land capabilities flag =? 0).

(** ** Data *)

Inductive GatewayFlavor := FlavorMysql | FlavorMariadb.

Definition server_version (f : GatewayFlavor) : bytes :=
  match f with
  | FlavorMysql => lit "8.0.11"
  | FlavorMariadb => lit "5.5.5-10.11.0-MariaDB"
  end.

Record MariadbRoute := mkMariadbRoute {
  my_username : bytes;
  my_database : bytes;
  auth_response : bytes;
  character_set : byte;
}.

#[export] Instance MariadbRoute_settable : Settable MariadbRoute :=
  λ r, mkMariadbRoute (my_username r) (my_database r) (auth_response r) (character_set r).

Record BackendHandshake := mkBackendHandshake {
  auth_seed : bytes;
  auth_plugin : bytes;
}.

Inductive MariadbProxyError :=
  | MalformedPacket | PacketTooLarge | MysqlIo | MissingPassword
  | NativePasswordPluginRequired | MissingNativePasswordVerifier
  | InvalidNativePasswordVerifier | MissingBackendPassword
  | InsecureBackendFullAuthentication | InvalidBackendPassword | AuthenticationFailed
  | TlsUnavailable | TlsRequired | SharedStorageCommandRejected
  | UnsupportedBackendAuth (plugin : bytes).

#[export] Instance MariadbProxyError_eq_dec : EqDecision MariadbProxyError.
Proof. solve_decision. Defined.

Record MysqlPacket := mkMysqlPacket { sequence_id : byte; payload_of : bytes }.

Inductive CachingSha2Continuation := FastAuthenticationComplete | FullAuthenticationRequired.

(** ** Reading fields *)

Definition read_u16_le (payload : bytes) (offset : nat) : result MariadbProxyError Z :=
  from_le <$> ok_or (get_range offset (offset + 2) payload) MalformedPacket.

Definition read_u32_le (payload : bytes) (offset : nat) : result MariadbProxyError Z :=
  from_le <$> ok_or (get_range offset (offset + 4) payload) MalformedPacket.

(** [take]: [len] bytes at [offset], and the offset behind them. *)
Definition take_bytes (payload : bytes) (offset : nat) (len : Z) :
    result MariadbProxyError (bytes * nat) :=
  stop ← ok_or (checked_add usize_max (Z.of_nat offset) len) MalformedPacket;
  if zlength payload <? stop then Err MalformedPacket
  else
    v ← ok_or (get_range offset (Z.to_nat stop) payload) MalformedPacket;
    Ok (v, Z.to_nat stop).

Definition read_null_string (payload : bytes) (offset : nat) :
    result MariadbProxyError (bytes * nat) :=
  rest ← ok_or (get_from offset payload) MalformedPacket;
  len ← ok_or (position is_nul rest) MalformedPacket;
  let v := take len rest in
  if valid_utf8 v then Ok (v, (offset + (len + 1))%nat) else Err MalformedPacket.

Definition read_lenenc_int (payload : bytes) (offset : nat) :
    result MariadbProxyError (Z * nat) :=
  first ← ok_or (payload !! offset) MalformedPacket;
  let offset := (offset + 1)%nat in
  match first with
  | xfc => v ← read_u16_le payload offset; Ok (v, (offset + 2)%nat)
  | xfd => '(v, offset) ← take_bytes payload offset 3; Ok (from_le v, offset)
  | xfe => '(v, offset) ← take_bytes payload offset 8; Ok (from_le v, offset)
  | value => Ok (b2z value, offset)
  end.

Definition read_auth_response (payload : bytes) (offset : nat) (capabilities : Z) :
    result MariadbProxyError (bytes * nat) :=
  if has capabilities CLIENT_PLUGIN_AUTH_LENENC_CLIENT_DATA then
    '(len, offset) ← read_lenenc_int payload offset;
    take_bytes payload offset len
  else if has capabilities CLIENT_SECURE_CONNECTION then
    len ← ok_or (payload !! offset) MalformedPacket;
    take_bytes payload (offset + 1) (b2z len)
  else read_null_string payload offset.

(** [while bytes.last() == Some(&0) { bytes.pop(); }] *)
Fixpoint strip_nuls (reversed : bytes) : bytes :=
  match reversed with
  | x00 :: reversed => strip_nuls reversed
  | _ => reversed
  end.
Definition trim_trailing_nuls (v : bytes) : bytes := rev (strip_nuls (rev v)).

(** ** Packets *)

Definition read_packet_limited (stream : bytes) (max_payload_size : Z) :
    result MariadbProxyError (MysqlPacket * bytes) :=
  '(header, stream) ← ok_or (read_exact 4 stream) MysqlIo;
  let len := from_le (take 3 header) in
  if Z.min max_payload_size MAX_PACKET_PAYLOAD_LEN <? len then Err PacketTooLarge
  else
    '(payload, stream) ← ok_or (read_exact (Z.to_nat len) stream) MysqlIo;
    Ok (mkMysqlPacket (nth 3 header x00) payload, stream).

Definition read_packet (stream : bytes) : result MariadbProxyError (MysqlPacket * bytes) :=
  read_packet_limited stream MAX_PACKET_PAYLOAD_LEN.

(** The bytes [write_packet] writes. *)
Definition write_packet (sequence : byte) (payload : bytes) : result MariadbProxyError bytes :=
  if MAX_WIRE_PAYLOAD_LEN <? zlength payload then Err PacketTooLarge
  else
    let len := zlength payload in
    Ok ([z2b len; z2b (Z.shiftr len 8); z2b (Z.shiftr len 16); sequence] ++ payload).

Definition is_mysql_ssl_request (payload : bytes) : result MariadbProxyError bool :=
  if negb (length payload =? SSL_REQUEST_LEN)%nat then Ok false
  else capabilities ← read_u32_le payload 0; Ok (has capabilities CLIENT_SSL).

Definition error_packet (message : bytes) : bytes :=
  [ERR_PACKET_HEADER] ++ to_le 2 ER_ACCESS_DENIED_ERROR ++ lit "#28000" ++ message.

Definition packet_is_ok (payload : bytes) : bool :=
  bool_decide (head payload = Some OK_PACKET_HEADER).
Definition packet_is_error (payload : bytes) : bool :=
  bool_decide (head payload = Some ERR_PACKET_HEADER).

(** ** Handshake messages *)

Definition parse_client_handshake_response (payload : bytes) :
    result MariadbProxyError MariadbRoute :=
  if (length payload <? 36)%nat then Err MalformedPacket
  else
    capabilities ← read_u32_le payload 0;
    '(username, offset) ← read_null_string payload HANDSHAKE_RESPONSE_PREFIX_LEN;
    if bool_decide (username = []) then Err MalformedPacket
    else
      '(response, offset) ← read_auth_response payload offset capabilities;
      if bool_decide (response = []) then Err MissingPassword
      else
        '(database, offset) ← (if has capabilities CLIENT_CONNECT_WITH_DB
                               then read_null_string payload offset else Ok ([], offset));
        _ ← (if has capabilities CLIENT_PLUGIN_AUTH && (offset <? length payload)%nat
             then
               '(plugin, _) ← read_null_string payload offset;
               if negb (bool_decide (plugin = GATEWAY_AUTH_PLUGIN))
               then Err NativePasswordPluginRequired else Ok tt
             else Ok tt);
        Ok {| my_username := username; my_database := database;
              auth_response := response; character_set := nth 8 payload x00 |}.

Definition parse_backend_handshake (payload : bytes) :
    result MariadbProxyError BackendHandshake :=
  if (length payload <? 34)%nat || negb (bool_decide (head payload = Some PROTOCOL_VERSION_10))
  then Err MalformedPacket
  else
    '(_, offset) ← read_null_string payload 1;
    let offset := (offset + 4)%nat in
    '(part_1, offset) ← take_bytes payload offset (Z.of_nat AUTH_SEED_PART_1_LEN);
    let offset := (offset + 1)%nat in
    lower_capabilities ← read_u16_le payload offset;
    let offset := (offset + 2)%nat in
    if (length payload <=? offset)%nat
    then Ok {| auth_seed := part_1; auth_plugin := NATIVE_PASSWORD_PLUGIN |}
    else
      let offset := (offset + (1 + 2))%nat in
      upper_capabilities ← read_u16_le payload offset;
      let offset := (offset + 2)%nat in
      let capabilities := Z.lor lower_capabilities (Z.shiftl upper_capabilities 16) in
      auth_data_len ← ok_or (payload !! offset) MalformedPacket;
      let offset := (offset + (1 + 10))%nat in
      let part_2_len := Z.max (sat_sub (b2z auth_data_len) (Z.of_nat AUTH_SEED_PART_1_LEN)) 13 in
      '(seed, offset) ←
        (if (offset <? length payload)%nat then
           let remaining := zlength payload - Z.of_nat offset in
           '(part_2, offset) ← take_bytes payload offset (Z.min remaining part_2_len);
           Ok (trim_trailing_nuls (part_1 ++ part_2), offset)
         else Ok (part_1, offset));
      plugin ←
        (if has capabilities CLIENT_PLUGIN_AUTH && (offset <? length payload)%nat
         then '(plugin, _) ← read_null_string payload offset; Ok plugin
         else Ok NATIVE_PASSWORD_PLUGIN);
      Ok {| auth_seed := seed; auth_plugin := plugin |}.

Definition auth_switch_request (payload : bytes) : option BackendHandshake :=
  if negb (bool_decide (head payload = Some AUTH_SWITCH_REQUEST_HEADER)) then None
  else
    '(plugin, offset) ← to_option (read_null_string payload 1);
    seed ← get_from offset payload;
    let seed := trim_trailing_nuls seed in
    if bool_decide (seed = []) then None
    else Some {| auth_seed := seed; auth_plugin := plugin |}.

Definition caching_sha2_continuation (payload : bytes) :
    result MariadbProxyError (option CachingSha2Continuation) :=
  if negb (bool_decide (head payload = Some AUTH_MORE_DATA_HEADER)) then Ok None
  else if bool_decide (payload = [AUTH_MORE_DATA_HEADER; x03])
  then Ok (Some FastAuthenticationComplete)
  else if bool_decide (payload = [AUTH_MORE_DATA_HEADER; x04])
  then Ok (Some FullAuthenticationRequired)
  else Err MalformedPacket.

Definition caching_sha2_plaintext_password (password : bytes) : result MariadbProxyError bytes :=
  if bool_decide (x00 ∈ password) then Err InvalidBackendPassword
  else Ok (password ++ [x00]).

(** ** The gateway's greeting *)

(** One pass over a block of random bytes: bytes of [limit] or more are
    discarded, and nothing is stored once the seed is full. *)
Fixpoint fill_seed (random : bytes) (seed : bytes) : bytes :=
  match random with
  | [] => seed
  | b :: random =>
      let limit := 256 - 256 mod zlength AUTH_SEED_ALPHABET in
      fill_seed random
        (if (b2z b <? limit) && (length seed <? GATEWAY_AUTH_SEED_LEN)%nat
         then seed ++ [nth (Z.to_nat (b2z b mod zlength AUTH_SEED_ALPHABET)) AUTH_SEED_ALPHABET x00]
         else seed)
  end.

(** [new_gateway_auth_seed] on the successive blocks the system generator
    returns; absent when the blocks do not fill the seed yet. *)
Fixpoint new_gateway_auth_seed_from (seed : bytes) (blocks : list bytes) : option bytes :=
  if (length seed <? GATEWAY_AUTH_SEED_LEN)%nat then
    match blocks with
    | [] => None
    | block :: blocks => new_gateway_auth_seed_from (fill_seed block seed) blocks
    end
  else Some seed.
Definition new_gateway_auth_seed (blocks : list bytes) : option bytes :=
  new_gateway_auth_seed_from [] blocks.

Definition gateway_capabilities (tls_available : bool) : Z :=
  let capabilities :=
    Z.lor (Z.lor (Z.lor (Z.lor (Z.lor CLIENT_LONG_PASSWORD CLIENT_LONG_FLAG) CLIENT_PROTOCOL_41)
      CLIENT_SECURE_CONNECTION) CLIENT_PLUGIN_AUTH) CLIENT_CONNECT_WITH_DB in
  if tls_available then Z.lor capabilities CLIENT_SSL else capabilities.

Definition gateway_handshake_payload (gateway_seed : bytes) (flavor : GatewayFlavor)
    (tls_available : bool) : result MariadbProxyError bytes :=
  if (length gateway_seed <? GATEWAY_AUTH_SEED_LEN)%nat then Err MalformedPacket
  else
    let seed_1 := take AUTH_SEED_PART_1_LEN gateway_seed in
    let seed_2 := take (GATEWAY_AUTH_SEED_LEN - AUTH_SEED_PART_1_LEN)
                       (drop AUTH_SEED_PART_1_LEN gateway_seed) in
    let capabilities := gateway_capabilities tls_available in
    Ok ([PROTOCOL_VERSION_10] ++ server_version flavor ++ [x00]
        ++ to_le 4 GATEWAY_CONNECTION_ID ++ seed_1 ++ [x00]
        ++ to_le 2 capabilities ++ [UTF8MB4_GENERAL_CI] ++ OK_STATUS_AUTOCOMMIT
        ++ to_le 2 (Z.shiftr capabilities 16)
        ++ [z2b (zlength seed_1 + zlength seed_2 + 1)] ++ replicate 10 x00
        ++ seed_2 ++ [x00] ++ GATEWAY_AUTH_PLUGIN ++ [x00]).

(** What [send_gateway_handshake] writes. *)
Definition send_gateway_handshake (gateway_seed : bytes) (flavor : GatewayFlavor)
    (tls_available : bool) : result MariadbProxyError bytes :=
  payload ← gateway_handshake_payload gateway_seed flavor tls_available;
  write_packet x00 payload.

(** ** Password proofs *)

Definition xor_byte (a b : byte) : byte := z2b (Z.lxor (b2z a) (b2z b)).
Definition xor_bytes (left right : bytes) : bytes := zip_with xor_byte left right.

Section passwords.
Context (sha1 sha256 : bytes → bytes).
(** [hex::encode], and [hex::decode_to_slice] into 20 bytes. *)
Context (hex_encode : bytes → bytes) (hex_decode_to_20 : bytes → option bytes).

Definition native_password_sha1_stage2_hex (password : bytes) : bytes :=
  hex_encode (sha1 (sha1 password)).

Definition native_password_challenge (seed stage_2 : bytes) : bytes := sha1 (seed ++ stage_2).

Definition native_password_token (password seed : bytes) : bytes :=
  if bool_decide (password = []) then []
  else
    let stage_1 := sha1 password in
    let stage_2 := sha1 stage_1 in
    xor_bytes stage_1 (sha1 (seed ++ stage_2)).

Definition caching_sha2_password_token (password seed : bytes) : bytes :=
  if bool_decide (password = []) then []
  else
    let stage_1 := sha256 password in
    let stage_2 := sha256 stage_1 in
    let stage_3 := sha256 stage_2 in
    xor_bytes stage_1 (sha256 (stage_3 ++ seed)).

Definition hex_decode_20 (v : bytes) : result MariadbProxyError bytes :=
  ok_or (hex_decode_to_20 v) InvalidNativePasswordVerifier.

Definition derive_native_backend_token (client_token gateway_seed backend_seed verifier : bytes) :
    result MariadbProxyError bytes :=
  stage_2 ← hex_decode_20 verifier;
  if negb (length client_token =? length stage_2)%nat then Err AuthenticationFailed
  else
    let gateway_challenge := native_password_challenge gateway_seed stage_2 in
    let stage_1 := xor_bytes client_token gateway_challenge in
    let derived_stage_2 := sha1 stage_1 in
    if negb (bool_decide (derived_stage_2 = stage_2)) then Err AuthenticationFailed
    else Ok (xor_bytes stage_1 (native_password_challenge backend_seed stage_2)).

Definition backend_capabilities : Z :=
  Z.lor (Z.lor (Z.lor (Z.lor (Z.lor (Z.lor CLIENT_LONG_PASSWORD CLIENT_LONG_FLAG)
    CLIENT_PROTOCOL_41) CLIENT_SECURE_CONNECTION) CLIENT_PLUGIN_AUTH) CLIENT_CONNECT_WITH_DB)
    CLIENT_CONNECT_ATTRS.

Definition backend_handshake_response (handshake : BackendHandshake) (route : MariadbRoute)
    (gateway_seed verifier : bytes) (backend_password : option bytes) :
    result MariadbProxyError bytes :=
  _ ← derive_native_backend_token (auth_response route) gateway_seed gateway_seed verifier;
  if negb (bool_decide (auth_plugin handshake = NATIVE_PASSWORD_PLUGIN))
     && negb (bool_decide (auth_plugin handshake = CACHING_SHA2_PASSWORD_PLUGIN))
  then Err (UnsupportedBackendAuth (auth_plugin handshake))
  else
    response ←
      (if bool_decide (auth_plugin handshake = NATIVE_PASSWORD_PLUGIN)
       then derive_native_backend_token (auth_response route) gateway_seed
              (auth_seed handshake) verifier
       else
         password ← ok_or backend_password MissingBackendPassword;
         Ok (caching_sha2_password_token password (auth_seed handshake)));
    Ok (to_le 4 backend_capabilities ++ to_le 4 MAX_PACKET_PAYLOAD_LEN
        ++ [character_set route] ++ HANDSHAKE_RESERVED_BYTES
        ++ my_username route ++ [x00]
        ++ [z2b (zlength response)] ++ response
        ++ my_database route ++ [x00]
        ++ auth_plugin handshake ++ [x00] ++ [x00]).

Definition backend_auth_switch_response (handshake : BackendHandshake) (route : MariadbRoute)
    (gateway_seed verifier : bytes) (backend_password : option bytes) :
    result MariadbProxyError bytes :=
  if bool_decide (auth_plugin handshake = NATIVE_PASSWORD_PLUGIN)
  then derive_native_backend_token (auth_response route) gateway_seed
         (auth_seed handshake) verifier
  else if bool_decide (auth_plugin handshake = CACHING_SHA2_PASSWORD_PLUGIN)
  then ok_or ((λ password, caching_sha2_password_token password (auth_seed handshake))
                <$> backend_password) MissingBackendPassword
  else Err (UnsupportedBackendAuth (auth_plugin handshake)).
End passwords.

(** ** Cursors

    [cursor payload offset rest]: what is left of [payload] at [offset] is
    [rest]. *)
Definition cursor (payload : bytes) (offset : nat) (rest : bytes) : Prop :=
  ∃ read, payload = read ++ rest ∧ length read = offset.

(** A string the wire format can carry. *)
Definition wire_string (v : bytes) : Prop := no_nul v ∧ valid_utf8 v = true.

Lemma cursor_start payload : cursor payload 0 payload.
Proof. by exists []. Qed.

Lemma cursor_skip payload offset v rest n :
  cursor payload offset (v ++ rest) → n = length v → cursor payload (offset + n) rest.
Proof.
  intros (a & -> & <-) ->. exists (a ++ v). by rewrite app_assoc, length_app.
Qed.

Lemma cursor_skip_string payload offset v rest :
  cursor payload offset (v ++ x00 :: rest) → cursor payload (offset + (length v + 1)) rest.
Proof.
  intros Hc. apply (cursor_skip _ _ (v ++ [x00])); [by rewrite <-app_assoc|].
  by rewrite length_app.
Qed.

Lemma cursor_lookup payload offset b rest :
  cursor payload offset (b :: rest) → payload !! offset = Some b.
Proof. intros (a & -> & <-). by apply list_lookup_middle. Qed.

Lemma cursor_range payload offset v rest n :
  cursor payload offset (v ++ rest) → n = length v →
  get_range offset (offset + n) payload = Some v.
Proof. intros (a & -> & <-) ->. apply get_range_app. Qed.

Lemma cursor_bound payload offset rest :
  cursor payload offset rest → (offset + length rest)%nat = length payload.
Proof. intros (a & -> & <-). by rewrite length_app. Qed.

Lemma cursor_u16 payload offset v rest :
  cursor payload offset (v ++ rest) → length v = 2%nat →
  read_u16_le payload offset = Ok (from_le v).
Proof. intros Hc Hl. unfold read_u16_le. by rewrite (cursor_range _ _ v rest). Qed.

Lemma cursor_u32 payload offset v rest :
  cursor payload offset (v ++ rest) → length v = 4%nat →
  read_u32_le payload offset = Ok (from_le v).
Proof. intros Hc Hl. unfold read_u32_le. by rewrite (cursor_range _ _ v rest). Qed.

Lemma cursor_null_string payload offset v rest :
  cursor payload offset (v ++ x00 :: rest) → wire_string v →
  read_null_string payload offset = Ok (v, (offset + (length v + 1))%nat).
Proof.
  intros (a & -> & <-) [Hn Hu]. unfold read_null_string.
  rewrite get_from_app. cbn [ok_or mbind result_bind].
  rewrite position_app by done. cbn [ok_or mbind result_bind].
  by rewrite take_app_length, Hu.
Qed.

(** Payloads are far smaller than the address space. *)
Lemma cursor_take payload offset v rest :
  cursor payload offset (v ++ rest) → zlength payload ≤ usize_max →
  take_bytes payload offset (zlength v) = Ok (v, (offset + length v)%nat).
Proof.
  intros Hc Hmax. pose proof (cursor_bound _ _ _ Hc) as Hb. rewrite length_app in Hb.
  unfold take_bytes, checked_add.
  destruct (Z.leb_spec (Z.of_nat offset + zlength v) usize_max); [|lia].
  cbn [ok_or mbind result_bind].
  destruct (Z.ltb_spec (zlength payload) (Z.of_nat offset + zlength v)); [lia|].
  replace (Z.to_nat (Z.of_nat offset + zlength v)) with (offset + length v)%nat by lia.
  by rewrite (cursor_range _ _ v rest).
Qed.

#[export] Hint Resolve cursor_start : dbev.

(** ** Packet framing *)

Lemma write_packet_Ok sequence payload written :
  write_packet sequence payload = Ok written ↔
  zlength payload ≤ MAX_WIRE_PAYLOAD_LEN ∧
  written = (to_le 3 (zlength payload) ++ [sequence]) ++ payload.
Proof.
  unfold write_packet.
  destruct (Z.ltb_spec MAX_WIRE_PAYLOAD_LEN (zlength payload)); [naive_solver lia|].
  cbn [to_le]. rewrite !Z.shiftr_div_pow2, Z.div_div by lia.
  split; [intros [= <-]; done|by intros [_ ->]].
Qed.

(** Framing is unambiguous: reading inverts writing.  A packet that was
    written is read back with its sequence number and payload, whatever
    follows it on the stream; and whatever is read from a stream is a packet
    within the limit whose written form is exactly the bytes consumed. *)
Theorem mysql_framing_exact max :
  (∀ sequence payload written rest,
     write_packet sequence payload = Ok written → zlength payload ≤ max →
     read_packet_limited (written ++ rest) max = Ok (mkMysqlPacket sequence payload, rest)) ∧
  (∀ stream packet rest,
     read_packet_limited stream max = Ok (packet, rest) →
     zlength (payload_of packet) ≤ max ∧
     ∃ written, write_packet (sequence_id packet) (payload_of packet) = Ok written ∧
       stream = written ++ rest).
Proof.
  unfold read_packet_limited. split.
  - intros sequence payload written rest (Hw & ->)%write_packet_Ok Hmax.
    pose proof (to_le_length 3 (zlength payload)) as Hl.
    unfold MAX_WIRE_PAYLOAD_LEN, MAX_PACKET_PAYLOAD_LEN in *.
    rewrite <-app_assoc, read_exact_app by (rewrite length_app, Hl; done).
    cbn [ok_or mbind result_bind]. rewrite take_app_le, take_ge by lia.
    rewrite from_le_to_le by lia.
    destruct (Z.ltb_spec (Z.min max (16 * 1024 * 1024)) (zlength payload)); [lia|].
    rewrite Nat2Z.id, read_exact_app by done. done.
  - intros stream packet rest ([header s1] & Hr & H)%bind_Ok.
    apply ok_or_Ok, read_exact_Some in Hr as [-> Hl].
    destruct header as [|a [|b [|c [|q [|]]]]]; try done. cbn [take nth] in H.
    destruct (Z.ltb_spec (Z.min max MAX_PACKET_PAYLOAD_LEN) (from_le [a; b; c])); [done|].
    apply bind_Ok in H as ([payload s2] & Hr & [= <- <-]).
    apply ok_or_Ok, read_exact_Some in Hr as [-> Hp]. cbn [payload_of sequence_id].
    pose proof (from_le_range [a; b; c]) as Hrange. cbn [length] in Hrange.
    assert (zlength payload = from_le [a; b; c]) as Hz by lia.
    split; [lia|]. eexists. rewrite write_packet_Ok, Hz.
    split; [split; [unfold MAX_WIRE_PAYLOAD_LEN; lia|done]|].
    by rewrite (to_le_from_le [a; b; c] : to_le 3 _ = _).
Qed.

(** ** Password proofs *)

Lemma xor_byte_cancel a b : xor_byte (xor_byte a b) b = a.
Proof.
  unfold xor_byte. pose proof (b2z_range a) as Ha. pose proof (b2z_range b) as Hb.
  assert (Z.lxor (b2z a) (b2z b) mod 256 = Z.lxor (b2z a) (b2z b)) as E.
  { apply Z.mod_small. assert (0 ≤ Z.lxor (b2z a) (b2z b)) as H0 by (apply Z.lxor_nonneg; lia).
    split; [done|].
    destruct (decide (Z.lxor (b2z a) (b2z b) = 0)) as [->|]; [lia|].
    apply (Z.log2_lt_pow2 _ 8); [lia|].
    eapply Z.le_lt_trans; [apply Z.log2_lxor; lia|].
    assert (∀ x, 0 ≤ x < 256 → Z.log2 x < 8) as Hlog.
    { intros x Hx. destruct (decide (x = 0)) as [->|]; [done|].
      apply Z.log2_lt_pow2; [lia|]. lia. }
    by apply Z.max_lub_lt; apply Hlog. }
  by rewrite b2z_z2b_mod, E, Z.lxor_assoc, Z.lxor_nilpotent, Z.lxor_0_r, z2b_b2z.
Qed.

Lemma xor_bytes_length a b : length a = length b → length (xor_bytes a b) = length a.
Proof. intros H. unfold xor_bytes. rewrite length_zip_with. lia. Qed.

Lemma xor_bytes_cancel a b : length a = length b → xor_bytes (xor_bytes a b) b = a.
Proof.
  unfold xor_bytes. revert b. induction a as [|x a IH]; intros [|y b]; simpl; try done.
  intros [= H]. by rewrite xor_byte_cancel, IH.
Qed.

Section native_password.
Context (sha1 : bytes → bytes) (sha1_length : ∀ v, length (sha1 v) = 20%nat).
Context (hex_encode : bytes → bytes) (hex_decode_to_20 : bytes → option bytes).
Context (hex_round_trip : ∀ v, length v = 20%nat → hex_decode_to_20 (hex_encode v) = Some v).
Context (hex_decoded_length : ∀ s v, hex_decode_to_20 s = Some v → length v = 20%nat).

Abbreviation token := (native_password_token sha1).
Abbreviation verifier_of := (native_password_sha1_stage2_hex sha1 hex_encode).
Abbreviation derive := (derive_native_backend_token sha1 hex_decode_to_20).

(** What a MySQL server checks: the token answers the challenge [seed] for the
    stored double digest [stage_2]. *)
Definition server_accepts (seed stage_2 client_token : bytes) : Prop :=
  length client_token = 20%nat ∧
  sha1 (xor_bytes client_token (sha1 (seed ++ stage_2))) = stage_2.

Lemma derive_Ok client gateway_seed backend_seed verifier t :
  derive client gateway_seed backend_seed verifier = Ok t →
  ∃ stage_2, hex_decode_to_20 verifier = Some stage_2 ∧
    server_accepts gateway_seed stage_2 client ∧ server_accepts backend_seed stage_2 t ∧
    length t = 20%nat.
Proof.
  unfold derive_native_backend_token, hex_decode_20, native_password_challenge.
  intros (s2 & Hd%ok_or_Ok & H)%bind_Ok. pose proof (hex_decoded_length _ _ Hd) as Hl.
  destruct (Nat.eqb_spec (length client) (length s2)) as [Hc|]; [|done].
  cbn [negb] in H. case_bool_decide as Hs; [|done]. cbn [negb] in H. injection H as <-.
  assert (length (xor_bytes client (sha1 (gateway_seed ++ s2))) = 20%nat) as Hx.
  { rewrite xor_bytes_length, Hc; rewrite ?sha1_length; lia. }
  exists s2. unfold server_accepts.
  rewrite xor_bytes_length by (rewrite Hx, sha1_length; done).
  rewrite xor_bytes_cancel by (rewrite Hx, sha1_length; done).
  split_and!; [done|lia|done..].
Qed.

Lemma derive_refuses client gateway_seed backend_seed verifier stage_2 :
  hex_decode_to_20 verifier = Some stage_2 →
  ¬ server_accepts gateway_seed stage_2 client →
  derive client gateway_seed backend_seed verifier = Err AuthenticationFailed.
Proof.
  intros Hd Hn. pose proof (hex_decoded_length _ _ Hd) as Hl.
  unfold derive_native_backend_token, hex_decode_20, native_password_challenge.
  rewrite Hd. cbn [ok_or mbind result_bind].
  destruct (Nat.eqb_spec (length client) (length stage_2)) as [Hc|]; [|done]. cbn [negb].
  rewrite bool_decide_eq_false_2; [done|]. intros Hs. apply Hn. split; [lia|done].
Qed.

(** The gateway translates password proofs without knowing the password.
    A client with the tenant's password is forwarded with exactly the proof the
    backend expects for its own challenge.  Conversely, when a translation
    succeeds, the client's answer to the gateway's challenge is one a MySQL
    server would accept for the stored verifier and the translated answer is
    accepted for the backend's challenge; any other answer is refused. *)
Theorem native_login_is_translated gateway_seed backend_seed :
  (∀ password, password ≠ [] →
     derive (token password gateway_seed) gateway_seed backend_seed (verifier_of password)
     = Ok (token password backend_seed)) ∧
  (∀ client verifier t,
     derive client gateway_seed backend_seed verifier = Ok t →
     ∃ stage_2, hex_decode_to_20 verifier = Some stage_2 ∧
       server_accepts gateway_seed stage_2 client ∧ server_accepts backend_seed stage_2 t) ∧
  (∀ client verifier stage_2,
     hex_decode_to_20 verifier = Some stage_2 →
     ¬ server_accepts gateway_seed stage_2 client →
     derive client gateway_seed backend_seed verifier = Err AuthenticationFailed).
Proof.
  split_and!.
  - intros password Hne. unfold native_password_token, native_password_sha1_stage2_hex.
    rewrite (bool_decide_eq_false_2 (password = [])) by done.
    unfold derive_native_backend_token, hex_decode_20, native_password_challenge.
    rewrite hex_round_trip by done. cbn [ok_or mbind result_bind].
    rewrite xor_bytes_length, !sha1_length by (by rewrite !sha1_length). cbn [Nat.eqb negb].
    rewrite xor_bytes_cancel by (by rewrite !sha1_length). by rewrite bool_decide_eq_true_2.
  - intros client verifier t (s2 & H1 & H2 & H3 & _)%derive_Ok. by exists s2.
  - intros. by apply (derive_refuses _ _ _ _ stage_2).
Qed.
End native_password.

(** ** The client's handshake response *)

(** A length-encoded integer and the three encodings of the password proof the
    protocol has. *)
Definition lenenc (n : Z) : bytes :=
  if n <? 251 then [z2b n]
  else if n <? 2 ^ 16 then xfc :: to_le 2 n
  else if n <? 2 ^ 24 then xfd :: to_le 3 n
  else xfe :: to_le 8 n.

Definition encode_token (capabilities : Z) (token : bytes) : bytes :=
  if has capabilities CLIENT_PLUGIN_AUTH_LENENC_CLIENT_DATA then lenenc (zlength token) ++ token
  else if has capabilities CLIENT_SECURE_CONNECTION then [z2b (zlength token)] ++ token
  else token ++ [x00].

Definition token_ok (capabilities : Z) (token : bytes) : Prop :=
  if has capabilities CLIENT_PLUGIN_AUTH_LENENC_CLIENT_DATA then True
  else if has capabilities CLIENT_SECURE_CONNECTION then zlength token < 256
  else wire_string token.

(** A handshake response with the given capabilities; [limits] is the client's
    packet limit and [reserved] the 23 bytes nobody reads. *)
Definition encode_response (capabilities : Z) (limits : bytes) (charset : byte)
    (reserved user token database plugin trailing : bytes) : bytes :=
  to_le 4 capabilities ++ limits ++ [charset] ++ reserved ++ user ++ x00 ::
  encode_token capabilities token ++
  (if has capabilities CLIENT_CONNECT_WITH_DB then database ++ [x00] else []) ++
  (if has capabilities CLIENT_PLUGIN_AUTH then plugin ++ [x00] else []) ++ trailing.

Lemma lenenc_small n :
  0 ≤ n < 251 → ∃ b, lenenc n = [b] ∧ b2z b = n ∧ b ≠ xfc ∧ b ≠ xfd ∧ b ≠ xfe.
Proof.
  intros Hn. exists (z2b n). unfold lenenc. destruct (Z.ltb_spec n 251); [|lia].
  assert (b2z (z2b n) = n) as E by (apply b2z_z2b; lia).
  split; [done|]. split; [done|]. repeat split; intros Hz; rewrite Hz in E; vm_compute in E; lia.
Qed.

Lemma cursor_lenenc payload offset n rest :
  cursor payload offset (lenenc n ++ rest) → 0 ≤ n ≤ usize_max → zlength payload ≤ usize_max →
  read_lenenc_int payload offset = Ok (n, (offset + length (lenenc n))%nat).
Proof.
  intros Hc Hn Hmax. unfold read_lenenc_int.
  destruct (Z.lt_ge_cases n 251) as [Hs|Hs].
  - destruct (lenenc_small n) as (b & E & Hb & H1 & H2 & H3); [lia|].
    rewrite E in *. rewrite (cursor_lookup _ _ b rest) by done.
    cbn [ok_or mbind result_bind length]. destruct b; congruence || done.
  - unfold lenenc in *. destruct (Z.ltb_spec n 251); [lia|].
    destruct (Z.ltb_spec n (2 ^ 16)); [|destruct (Z.ltb_spec n (2 ^ 24))];
      rewrite <-app_comm_cons in Hc; rewrite (cursor_lookup _ _ _ _ Hc);
      cbn [ok_or mbind result_bind];
      apply (cursor_skip _ _ [_] _ 1) in Hc; try done.
    + rewrite (cursor_u16 _ _ (to_le 2 n) rest) by (done || apply to_le_length).
      cbn [mbind result_bind length]. rewrite to_le_length, from_le_to_le by lia.
      by rewrite <-Nat.add_assoc.
    + pose proof (cursor_take _ _ (to_le 3 n) rest Hc Hmax) as Ht.
      rewrite to_le_length in Ht. rewrite (Ht : take_bytes _ _ 3 = _).
      cbn [mbind result_bind length]. rewrite to_le_length, from_le_to_le by lia.
      by rewrite <-Nat.add_assoc.
    + pose proof (cursor_take _ _ (to_le 8 n) rest Hc Hmax) as Ht.
      rewrite to_le_length in Ht. rewrite (Ht : take_bytes _ _ 8 = _).
      cbn [mbind result_bind length]. rewrite to_le_length, from_le_to_le by int_lia.
      by rewrite <-Nat.add_assoc.
Qed.

Lemma cursor_token payload offset capabilities token rest :
  cursor payload offset (encode_token capabilities token ++ rest) →
  token_ok capabilities token → zlength payload ≤ usize_max →
  read_auth_response payload offset capabilities =
    Ok (token, (offset + length (encode_token capabilities token))%nat).
Proof.
  intros Hc Hok Hmax. pose proof (cursor_bound _ _ _ Hc) as Hb.
  unfold read_auth_response, encode_token, token_ok in *.
  destruct (has capabilities CLIENT_PLUGIN_AUTH_LENENC_CLIENT_DATA).
  - rewrite <-app_assoc in Hc. rewrite !length_app in Hb.
    rewrite (cursor_lenenc _ _ (zlength token) (token ++ rest)) by (done || lia).
    cbn [mbind result_bind].
    apply (cursor_skip _ _ _ _ (length (lenenc (zlength token)))) in Hc; [|done].
    rewrite (cursor_take _ _ token rest) by done. by rewrite length_app, Nat.add_assoc.
  - destruct (has capabilities CLIENT_SECURE_CONNECTION).
    + rewrite <-app_assoc in Hc. rewrite (cursor_lookup _ _ _ _ Hc).
      cbn [ok_or mbind result_bind]. rewrite b2z_z2b by lia.
      apply (cursor_skip _ _ _ _ 1) in Hc; [|done].
      rewrite (cursor_take _ _ token rest) by done. by rewrite length_app, Nat.add_assoc.
    + rewrite <-app_assoc in Hc. rewrite (cursor_null_string _ _ token rest) by done.
      by rewrite length_app.
Qed.

Definition response_ok (capabilities : Z) (limits reserved user token database plugin : bytes) :
    Prop :=
  in_range u32_max capabilities ∧ length limits = 4%nat ∧ length reserved = 23%nat ∧
  user ≠ [] ∧ wire_string user ∧ token ≠ [] ∧ token_ok capabilities token ∧
  wire_string database ∧ wire_string plugin.

Lemma encode_token_length capabilities token :
  token ≠ [] → (2 ≤ length (encode_token capabilities token))%nat.
Proof.
  intros Hne. assert (1 ≤ length token)%nat by (destruct token; [done|cbn; lia]).
  unfold encode_token. repeat case_match; rewrite length_app; cbn [length]; try lia.
  unfold lenenc. repeat case_match; cbn [length]; lia.
Qed.

(** Reading the user of a response: every later field is at the cursor. *)
Lemma response_prefix capabilities limits charset reserved user rest :
  let payload := to_le 4 capabilities ++ limits ++ [charset] ++ reserved ++ user ++ x00 :: rest in
  in_range u32_max capabilities → length limits = 4%nat → length reserved = 23%nat →
  wire_string user →
  read_u32_le payload 0 = Ok capabilities ∧
  read_null_string payload HANDSHAKE_RESPONSE_PREFIX_LEN =
    Ok (user, (HANDSHAKE_RESPONSE_PREFIX_LEN + (length user + 1))%nat) ∧
  nth 8 payload x00 = charset ∧
  cursor payload (HANDSHAKE_RESPONSE_PREFIX_LEN + (length user + 1)) rest.
Proof.
  intros payload Hcaps Hl Hr Hu.
  pose proof (to_le_length 4 capabilities) as H4.
  assert (cursor payload HANDSHAKE_RESPONSE_PREFIX_LEN (user ++ x00 :: rest)) as Hc.
  { exists (to_le 4 capabilities ++ limits ++ [charset] ++ reserved).
    unfold payload. rewrite !length_app, <-!app_assoc, H4, Hl, Hr. done. }
  split_and!.
  - erewrite (cursor_u32 payload 0 (to_le 4 capabilities)); [|apply cursor_start|done].
    by rewrite from_le_to_le by int_lia.
  - by apply (cursor_null_string _ _ user rest).
  - unfold payload. rewrite app_assoc, app_nth2; rewrite length_app, H4, Hl; [done|lia].
  - by apply cursor_skip_string.
Qed.

Lemma optional_string payload offset (present : bool) v rest :
  wire_string v → cursor payload offset ((if present then v ++ [x00] else []) ++ rest) →
  ∃ offset',
    (if present then read_null_string payload offset else Ok ([], offset))
      = Ok (if present then v else [], offset') ∧
    cursor payload offset' rest.
Proof.
  intros Hv Hc. destruct present; [|by exists offset].
  exists (offset + (length v + 1))%nat. rewrite <-app_assoc in Hc. split.
  - by apply (cursor_null_string _ _ v rest).
  - by apply cursor_skip_string.
Qed.

Lemma parse_encoded_response capabilities limits charset reserved user token database plugin
    trailing :
  let payload := encode_response capabilities limits charset reserved user token database plugin
                   trailing in
  response_ok capabilities limits reserved user token database plugin →
  zlength payload ≤ usize_max →
  parse_client_handshake_response payload =
    if has capabilities CLIENT_PLUGIN_AUTH && negb (bool_decide (plugin = NATIVE_PASSWORD_PLUGIN))
    then Err NativePasswordPluginRequired
    else Ok {| my_username := user;
               my_database := if has capabilities CLIENT_CONNECT_WITH_DB then database else [];
               auth_response := token; character_set := charset |}.
Proof.
  intros payload (Hcaps & Hl & Hr & Hne & Hu & Htne & Htok & Hdb & Hpl) Hmax.
  unfold encode_response in payload.
  set (rest := encode_token capabilities token ++ _) in payload.
  destruct (response_prefix capabilities limits charset reserved user rest)
    as (H32 & Huser & Hcs & Hc); [done..|]. fold payload in H32, Huser, Hcs, Hc.
  set (o1 := (HANDSHAKE_RESPONSE_PREFIX_LEN + (length user + 1))%nat) in *.
  pose proof (cursor_bound _ _ _ Hc) as Hb.
  assert (36 ≤ length payload)%nat as H36.
  { pose proof (encode_token_length capabilities token Htne).
    rewrite <-Hb. unfold o1, rest, HANDSHAKE_RESPONSE_PREFIX_LEN. rewrite length_app.
    destruct user; [done|]. cbn [length]. lia. }
  unfold parse_client_handshake_response.
  destruct (Nat.ltb_spec (length payload) 36); [lia|].
  rewrite H32. cbn [mbind result_bind]. rewrite Huser. cbn [mbind result_bind].
  rewrite (bool_decide_eq_false_2 (user = [])) by done.
  rewrite (cursor_token _ _ _ _ _ Hc) by done. cbn [mbind result_bind].
  rewrite (bool_decide_eq_false_2 (token = [])) by done.
  apply (cursor_skip _ _ _ _ (length (encode_token capabilities token))) in Hc; [|done].
  set (o2 := (o1 + _)%nat) in *. rewrite Hcs.
  destruct (optional_string payload o2 (has capabilities CLIENT_CONNECT_WITH_DB) database _ Hdb Hc)
    as (o3 & -> & Hc3). cbn [mbind result_bind].
  destruct (has capabilities CLIENT_PLUGIN_AUTH); cbn [andb]; [|done].
  pose proof (cursor_bound _ _ _ Hc3) as Hb3. rewrite !length_app in Hb3. cbn [length] in Hb3.
  destruct (Nat.ltb_spec o3 (length payload)); [|lia].
  rewrite <-app_assoc in Hc3. rewrite (cursor_null_string _ _ plugin trailing) by done.
  cbn [mbind result_bind]. unfold GATEWAY_AUTH_PLUGIN. by case_bool_decide.
Qed.

(** The client's handshake response is read exactly.  For every response
    a client can encode, with any capability flags, any of the three encodings
    of its password proof, with or without a database and whatever follows, the
    gateway reads its user, database, proof and character set; and a client
    that announces another plugin than [mysql_native_password] is refused. *)
Theorem client_response_exact capabilities limits charset reserved user token database plugin
    trailing :
  let payload := encode_response capabilities limits charset reserved user token database plugin
                   trailing in
  response_ok capabilities limits reserved user token database plugin →
  zlength payload ≤ usize_max →
  parse_client_handshake_response payload =
    if has capabilities CLIENT_PLUGIN_AUTH && negb (bool_decide (plugin = NATIVE_PASSWORD_PLUGIN))
    then Err NativePasswordPluginRequired
    else Ok {| my_username := user;
               my_database := if has capabilities CLIENT_CONNECT_WITH_DB then database else [];
               auth_response := token; character_set := charset |}.
Proof. intros payload Hok Hmax. by apply parse_encoded_response. Qed.

(** ** The response sent to the backend *)

Section forwarded.
Context (sha1 sha256 : bytes → bytes) (sha1_length : ∀ v, length (sha1 v) = 20%nat).
Context (hex_decode_to_20 : bytes → option bytes).
Context (hex_decoded_length : ∀ s v, hex_decode_to_20 s = Some v → length v = 20%nat).

Abbreviation respond := (backend_handshake_response sha1 sha256 hex_decode_to_20).
Abbreviation derive := (derive_native_backend_token sha1 hex_decode_to_20).

Lemma native_plugin_wire : wire_string NATIVE_PASSWORD_PLUGIN.
Proof. split; [by repeat constructor|done]. Qed.

Lemma forwarded_encoding limits charset reserved user t db :
  encode_response backend_capabilities limits charset reserved user t db NATIVE_PASSWORD_PLUGIN
    [x00] =
  to_le 4 backend_capabilities ++ limits ++ [charset] ++ reserved ++ user ++ [x00]
  ++ [z2b (zlength t)] ++ t ++ db ++ [x00] ++ NATIVE_PASSWORD_PLUGIN ++ [x00] ++ [x00].
Proof.
  unfold encode_response, encode_token.
  change (has backend_capabilities CLIENT_PLUGIN_AUTH_LENENC_CLIENT_DATA) with false.
  change (has backend_capabilities CLIENT_SECURE_CONNECTION) with true.
  change (has backend_capabilities CLIENT_CONNECT_WITH_DB) with true.
  change (has backend_capabilities CLIENT_PLUGIN_AUTH) with true.
  cbn iota. by rewrite <-!app_assoc.
Qed.

Lemma forwarded_length limits charset reserved user t db :
  length (encode_response backend_capabilities limits charset reserved user t db
            NATIVE_PASSWORD_PLUGIN [x00]) =
  (length limits + length reserved + length user + length t + length db + 31)%nat.
Proof.
  rewrite forwarded_encoding, !length_app, to_le_length.
  change (length NATIVE_PASSWORD_PLUGIN) with 21%nat. cbn [length]. lia.
Qed.

Lemma respond_native handshake route gateway_seed verifier password sent :
  auth_plugin handshake = NATIVE_PASSWORD_PLUGIN →
  respond handshake route gateway_seed verifier password = Ok sent →
  ∃ t, derive (auth_response route) gateway_seed (auth_seed handshake) verifier = Ok t ∧
    length t = 20%nat ∧
    sent = encode_response backend_capabilities (to_le 4 MAX_PACKET_PAYLOAD_LEN)
             (character_set route) HANDSHAKE_RESERVED_BYTES (my_username route) t
             (my_database route) NATIVE_PASSWORD_PLUGIN [x00].
Proof.
  intros Hp. unfold backend_handshake_response. rewrite Hp.
  rewrite (bool_decide_eq_true_2 (NATIVE_PASSWORD_PLUGIN = NATIVE_PASSWORD_PLUGIN)) by done.
  cbn [negb andb]. intros (_ & _ & (t & Ht & [= <-])%bind_Ok)%bind_Ok.
  exists t. destruct (derive_Ok sha1 sha1_length _ hex_decoded_length _ _ _ _ _ Ht)
    as (s2 & _ & _ & _ & Hl).
  split_and!; [done..|]. by rewrite forwarded_encoding.
Qed.

(** The login is forwarded faithfully.  When a client's handshake response
    is accepted and forwarded to a backend that uses [mysql_native_password],
    the message the backend receives reads, by the rules of the protocol, as a
    login of the same user with the same character set, to the database the
    gateway resolved, with the client's password proof translated to the
    backend's challenge. *)
Theorem login_forwarded_faithfully capabilities limits charset reserved user token database
    plugin trailing handshake resolved gateway_seed verifier password sent :
  let payload := encode_response capabilities limits charset reserved user token database plugin
                   trailing in
  response_ok capabilities limits reserved user token database plugin →
  zlength payload ≤ MAX_PACKET_PAYLOAD_LEN →
  wire_string resolved → zlength resolved ≤ MAX_PACKET_PAYLOAD_LEN →
  auth_plugin handshake = NATIVE_PASSWORD_PLUGIN →
  (route ← parse_client_handshake_response payload;
   respond handshake (route <| my_database := resolved |>) gateway_seed verifier password)
  = Ok sent →
  ∃ t, derive token gateway_seed (auth_seed handshake) verifier = Ok t ∧
    parse_client_handshake_response sent =
      Ok {| my_username := user; my_database := resolved; auth_response := t;
            character_set := charset |}.
Proof.
  intros payload Hok Hmax Hr Hrlen Hp.
  assert (zlength user ≤ zlength payload) as Hu.
  { unfold payload, encode_response. rewrite !length_app. lia. }
  unfold MAX_PACKET_PAYLOAD_LEN in *.
  unfold payload at 1. rewrite parse_encoded_response by (fold payload; first [done|int_lia]).
  destruct (_ && _); [done|]. cbn [mbind result_bind].
  intros (t & Ht & Hl & ->)%respond_native; [|done]. exists t. split; [done|].
  destruct Hok as (_ & _ & _ & Hne & Huw & _).
  rewrite parse_encoded_response; [done| |].
  - split; [by vm_compute|]. split; [apply to_le_length|]. split; [done|].
    split; [done|]. split; [done|]. split; [by destruct t|].
    split; [change (zlength t < 256); lia|]. split; [done|apply native_plugin_wire].
  - rewrite forwarded_length. cbn. int_lia.
Qed.
End forwarded.

(** ** The greeting *)

Definition seed_ok (seed : bytes) : Prop :=
  length seed = GATEWAY_AUTH_SEED_LEN ∧ Forall (.∈ AUTH_SEED_ALPHABET) seed.

Lemma fill_seed_ok random seed :
  Forall (.∈ AUTH_SEED_ALPHABET) seed → (length seed ≤ GATEWAY_AUTH_SEED_LEN)%nat →
  Forall (.∈ AUTH_SEED_ALPHABET) (fill_seed random seed) ∧
  (length (fill_seed random seed) ≤ GATEWAY_AUTH_SEED_LEN)%nat.
Proof.
  revert seed. induction random as [|b random IH]; intros seed Hs Hl; [done|].
  cbn [fill_seed].
  destruct (_ && _) eqn:Hg; [|by apply IH]. apply andb_true_iff in Hg as [_ Hg].
  apply Nat.ltb_lt in Hg. apply IH; [|rewrite length_app; cbn [length]; lia].
  apply Forall_app. split; [done|]. apply Forall_singleton, list_elem_of_In, nth_In.
  pose proof (Z.mod_pos_bound (b2z b) (zlength AUTH_SEED_ALPHABET) ltac:(done)). lia.
Qed.

Lemma new_gateway_auth_seed_ok blocks seed :
  new_gateway_auth_seed blocks = Some seed → seed_ok seed.
Proof.
  unfold new_gateway_auth_seed.
  assert (∀ s, Forall (.∈ AUTH_SEED_ALPHABET) s → (length s ≤ GATEWAY_AUTH_SEED_LEN)%nat →
    new_gateway_auth_seed_from s blocks = Some seed → seed_ok seed) as H.
  { induction blocks as [|block blocks IH]; intros s Hs Hl; cbn [new_gateway_auth_seed_from];
      destruct (Nat.ltb_spec (length s) GATEWAY_AUTH_SEED_LEN); try done.
    - intros [= <-]. split; [lia|done].
    - destruct (fill_seed_ok block s) as [H1 H2]; [done..|]. by apply IH.
    - intros [= <-]. split; [lia|done]. }
  apply H; [done|]. cbn. lia.
Qed.

Lemma alphabet_not_nul b : b ∈ AUTH_SEED_ALPHABET → b ≠ x00.
Proof.
  intros Hb ->. apply (bool_decide_eq_true_2 (x00 ∈ AUTH_SEED_ALPHABET)) in Hb. done.
Qed.

Lemma trim_trailing v : (∀ b, last v = Some b → b ≠ x00) → trim_trailing_nuls (v ++ [x00]) = v.
Proof.
  intros Hl. unfold trim_trailing_nuls. rewrite rev_app_distr. cbn [rev app strip_nuls].
  rewrite <-(rev_involutive v) at 2. f_equal.
  destruct v as [|b v _] using rev_ind; [done|]. rewrite last_snoc in Hl.
  rewrite rev_app_distr. cbn [rev app strip_nuls].
  specialize (Hl _ eq_refl). by destruct b.
Qed.

Lemma greeting_capabilities tls :
  in_range u32_max (gateway_capabilities tls) ∧
  Z.lor (from_le (to_le 2 (gateway_capabilities tls)))
        (Z.shiftl (from_le (to_le 2 (Z.shiftr (gateway_capabilities tls) 16))) 16)
  = gateway_capabilities tls ∧
  has (gateway_capabilities tls) CLIENT_PLUGIN_AUTH = true ∧
  has (gateway_capabilities tls) CLIENT_SSL = tls.
Proof. destruct tls; vm_compute; repeat split; discriminate. Qed.

Lemma server_version_wire flavor : wire_string (server_version flavor).
Proof. destruct flavor; (split; [by repeat constructor|done]). Qed.

(** A greeting, field by field. *)
Definition encode_greeting (version connection seed_1 : bytes) (capabilities : Z)
    (charset : byte) (status seed_2 plugin : bytes) : bytes :=
  [PROTOCOL_VERSION_10] ++ version ++ [x00] ++ connection ++ seed_1 ++ [x00]
  ++ to_le 2 capabilities ++ [charset] ++ status ++ to_le 2 (Z.shiftr capabilities 16)
  ++ [x15] ++ replicate 10 x00 ++ seed_2 ++ [x00] ++ plugin ++ [x00].

Lemma parse_greeting version connection seed_1 tls charset status seed_2 plugin :
  wire_string version → length connection = 4%nat → length seed_1 = 8%nat →
  length status = 2%nat → length seed_2 = 12%nat → wire_string plugin →
  (∀ b, last (seed_1 ++ seed_2) = Some b → b ≠ x00) →
  zlength version + zlength plugin ≤ u32_max →
  parse_backend_handshake
    (encode_greeting version connection seed_1 (gateway_capabilities tls) charset status seed_2
       plugin)
  = Ok {| auth_seed := seed_1 ++ seed_2; auth_plugin := plugin |}.
Proof.
  intros Hv Hconn Hs1 Hst Hs2 Hp Hlast Hlen.
  destruct (greeting_capabilities tls) as (_ & Hcaps & Hplug & _).
  set (caps := gateway_capabilities tls) in *. clearbody caps.
  pose proof (to_le_length 2 caps) as Hlo. pose proof (to_le_length 2 (Z.shiftr caps 16)) as Hhi.
  set (p := encode_greeting _ _ _ _ _ _ _ _).
  assert (length p = length version + length plugin + 47)%nat as Hpl.
  { unfold p, encode_greeting. rewrite !length_app, Hlo, Hhi, length_replicate.
    cbn [length]. lia. }
  assert (cursor p 1 (version ++ x00 :: (connection ++ seed_1 ++ [x00]
    ++ to_le 2 caps ++ ([charset] ++ status) ++ to_le 2 (Z.shiftr caps 16)
    ++ [x15] ++ replicate 10 x00 ++ seed_2 ++ [x00] ++ plugin ++ [x00]))) as Hc.
  { by exists [PROTOCOL_VERSION_10]. }
  assert (head p = Some PROTOCOL_VERSION_10) as Hhead by done. clearbody p.
  unfold parse_backend_handshake, AUTH_SEED_PART_1_LEN.
  destruct (Nat.ltb_spec (length p) 34); [lia|]. cbn [orb].
  rewrite (bool_decide_eq_true_2 (head p = _)) by done. cbn [negb].
  rewrite (cursor_null_string _ _ _ _ Hc Hv). step_ok.
  apply cursor_skip_string in Hc. apply (cursor_skip _ _ _ _ 4) in Hc; [|done].
  pose proof (cursor_take _ _ _ _ Hc) as Ht. rewrite Hs1 in Ht.
  rewrite (Ht ltac:(int_lia)). step_ok. clear Ht.
  apply (cursor_skip _ _ _ _ 8) in Hc; [|done]. apply (cursor_skip _ _ _ _ 1) in Hc; [|done].
  rewrite (cursor_u16 _ _ _ _ Hc Hlo). step_ok.
  apply (cursor_skip _ _ _ _ 2) in Hc; [|done].
  set (o := (1 + (length version + 1) + 4 + 8 + 1 + 2)%nat) in *.
  destruct (Nat.leb_spec (length p) o); [unfold o in *; lia|].
  apply (cursor_skip _ _ _ _ (1 + 2)) in Hc; [|rewrite length_app, Hst; done].
  rewrite (cursor_u16 _ _ _ _ Hc Hhi). step_ok.
  apply (cursor_skip _ _ _ _ 2) in Hc; [|done]. rewrite Hcaps, Hplug.
  rewrite (cursor_lookup _ _ _ _ Hc). step_ok.
  rewrite app_assoc in Hc. apply (cursor_skip _ _ _ _ (1 + 10)) in Hc; [|done].
  set (o2 := (o + _ + _ + _)%nat) in *.
  pose proof (cursor_bound _ _ _ Hc) as Hb. rewrite !length_app in Hb. cbn [length] in Hb.
  destruct (Nat.ltb_spec o2 (length p)); [|lia].
  change (Z.max (sat_sub (b2z x15) (Z.of_nat 8)) 13) with 13.
  rewrite Z.min_r by lia. rewrite app_assoc in Hc.
  pose proof (cursor_take _ _ _ _ Hc) as Ht. rewrite length_app, Hs2 in Ht.
  rewrite (Ht ltac:(int_lia) : take_bytes _ _ 13 = _). step_ok. step_ok. clear Ht.
  apply (cursor_skip _ _ _ _ (12 + length [x00])) in Hc; [|by rewrite length_app, Hs2].
  cbn [length] in *. destruct (Nat.ltb_spec (o2 + (12 + 1)) (length p)); [|lia]. cbn [andb].
  rewrite (cursor_null_string _ _ _ _ Hc Hp). step_ok.
  by rewrite app_assoc, trim_trailing.
Qed.

(** The challenge reaches the client intact.  Whatever the system generator
    returned, the gateway's seed has 20 characters of the alphabet, every
    character is the image of equally many bytes, and the greeting built from
    it, for either flavour and with or without TLS, reads by the rules of the
    protocol as exactly that seed with [mysql_native_password]; so the client
    answers the challenge that the gateway verifies. *)
Theorem greeting_carries_seed blocks seed flavor tls :
  new_gateway_auth_seed blocks = Some seed →
  seed_ok seed ∧
  (∀ c, c ∈ AUTH_SEED_ALPHABET →
     length (filter (λ x, fill_seed [z2b (Z.of_nat x)] [] = [c]) (seq 0 256)) = 4%nat) ∧
  ∃ greeting,
    gateway_handshake_payload seed flavor tls = Ok greeting ∧
    parse_backend_handshake greeting =
      Ok {| auth_seed := seed; auth_plugin := NATIVE_PASSWORD_PLUGIN |}.
Proof.
  intros Hs%new_gateway_auth_seed_ok. split; [done|]. split.
  { intros c Hc. revert c Hc. apply Forall_forall.
    apply (bool_decide_eq_true_1 _). vm_compute. done. }
  destruct Hs as [Hl Ha]. unfold gateway_handshake_payload, GATEWAY_AUTH_SEED_LEN in *.
  destruct (Nat.ltb_spec (length seed) 20); [lia|]. eexists. split; [done|].
  change (20 - AUTH_SEED_PART_1_LEN)%nat with 12%nat. unfold AUTH_SEED_PART_1_LEN.
  assert (take 12 (drop 8 seed) = drop 8 seed) as E by (apply take_ge; rewrite length_drop; lia).
  rewrite E. assert (length (take 8 seed) = 8%nat) as H8 by (rewrite length_take; lia).
  assert (length (drop 8 seed) = 12%nat) as H12 by (rewrite length_drop; lia).
  rewrite H8, H12. change (z2b _) with x15.
  rewrite <-(take_drop 8 seed) at 3.
  apply (parse_greeting (server_version flavor) (to_le 4 GATEWAY_CONNECTION_ID)); try done.
  - apply server_version_wire.
  - apply native_plugin_wire.
  - rewrite take_drop. intros b Hb. apply alphabet_not_nul.
    rewrite Forall_forall in Ha. apply Ha. apply last_Some in Hb as [l ->].
    apply elem_of_app. right. by apply list_elem_of_singleton.
  - by destruct flavor.
Qed.

(** ** Examples *)

Module MysqlDemo.

(** Stand-ins for the digests and the hexadecimal codec. *)
Definition demo_sha1 (v : bytes) : bytes := take 20 (v ++ replicate 20 x2a).
Definition demo_sha256 (v : bytes) : bytes := take 32 (v ++ replicate 32 x2a).
Definition demo_hex_encode (v : bytes) : bytes := v.
Definition demo_hex_decode (v : bytes) : option bytes :=
  if (length v =? 20)%nat then Some v else None.

Lemma demo_sha1_length v : length (demo_sha1 v) = 20%nat.
Proof. unfold demo_sha1. rewrite length_take, length_app, length_replicate. lia. Qed.

Lemma demo_hex_round_trip v :
  length v = 20%nat → demo_hex_decode (demo_hex_encode v) = Some v.
Proof. unfold demo_hex_decode, demo_hex_encode. by intros ->. Qed.

Lemma demo_hex_length s v : demo_hex_decode s = Some v → length v = 20%nat.
Proof. unfold demo_hex_decode. destruct (Nat.eqb_spec (length s) 20); naive_solver. Qed.

Definition demo_gateway_seed : bytes := lit "abcdefghij0123456789".
Definition demo_backend_seed : bytes := lit "ABCDEFGHIJ0123456789".
Definition demo_password : bytes := lit "secret".
Definition demo_token : bytes := native_password_token demo_sha1 demo_password demo_gateway_seed.
Definition demo_verifier : bytes :=
  native_password_sha1_stage2_hex demo_sha1 demo_hex_encode demo_password.
Definition demo_handshake : BackendHandshake :=
  {| auth_seed := demo_backend_seed; auth_plugin := NATIVE_PASSWORD_PLUGIN |}.
Definition demo_response : bytes :=
  encode_response backend_capabilities (to_le 4 0) x2d (replicate 23 x00) (lit "alice") demo_token
    (lit "shop") NATIVE_PASSWORD_PLUGIN [].
Definition demo_random : list bytes := [lit "This block has more than twenty letters."].

Definition demo_fresh_seed : bytes := lit "MghrWaknbjWgZrWlnqdW".

Lemma demo_response_ok :
  response_ok backend_capabilities (to_le 4 0) (replicate 23 x00) (lit "alice") demo_token
    (lit "shop") NATIVE_PASSWORD_PLUGIN.
Proof.
  repeat (split; [first [done|by vm_compute|by repeat constructor]|]). done.
Qed.

End MysqlDemo.

Import MysqlDemo.

Lemma mysql_framing_exact_witness :
  read_packet_limited ((to_le 3 2 ++ [x01]) ++ [x61; x62] ++ [x63]) 100
  = Ok (mkMysqlPacket x01 [x61; x62], [x63]).
Proof.
  apply (proj1 (mysql_framing_exact 100) x01 [x61; x62] ((to_le 3 2 ++ [x01]) ++ [x61; x62])).
  - vm_compute. reflexivity.
  - cbn. lia.
Defined.

Lemma native_login_is_translated_witness :
  derive_native_backend_token demo_sha1 demo_hex_decode demo_token demo_gateway_seed
    demo_backend_seed demo_verifier
  = Ok (native_password_token demo_sha1 demo_password demo_backend_seed).
Proof.
  apply (proj1 (native_login_is_translated demo_sha1 demo_sha1_length demo_hex_encode
    demo_hex_decode demo_hex_round_trip demo_hex_length demo_gateway_seed demo_backend_seed)).
  discriminate.
Defined.

Lemma client_response_exact_witness :
  parse_client_handshake_response demo_response =
  Ok {| my_username := lit "alice"; my_database := lit "shop"; auth_response := demo_token;
        character_set := x2d |}.
Proof.
  refine (client_response_exact backend_capabilities (to_le 4 0) x2d (replicate 23 x00)
    (lit "alice") demo_token (lit "shop") NATIVE_PASSWORD_PLUGIN [] demo_response_ok _).
  vm_compute. discriminate.
Defined.

Lemma login_forwarded_faithfully_witness :
  ∃ sent t,
    parse_client_handshake_response sent =
      Ok {| my_username := lit "alice"; my_database := lit "shop_1"; auth_response := t;
            character_set := x2d |}.
Proof.
  eexists. destruct (login_forwarded_faithfully demo_sha1 demo_sha256 demo_sha1_length
    demo_hex_decode demo_hex_length backend_capabilities (to_le 4 0) x2d (replicate 23 x00)
    (lit "alice") demo_token (lit "shop") NATIVE_PASSWORD_PLUGIN [] demo_handshake (lit "shop_1")
    demo_gateway_seed demo_verifier None
    (match backend_handshake_response demo_sha1 demo_sha256 demo_hex_decode demo_handshake
             {| my_username := lit "alice"; my_database := lit "shop_1";
                auth_response := demo_token; character_set := x2d |}
             demo_gateway_seed demo_verifier None with Ok v => v | Err _ => [] end))
    as (t & _ & Ht).
  - exact demo_response_ok.
  - vm_compute. discriminate.
  - split; [by repeat constructor|done].
  - vm_compute. discriminate.
  - reflexivity.
  - vm_compute. reflexivity.
  - exists t. exact Ht.
Defined.

Lemma greeting_carries_seed_witness :
  ∃ greeting,
    gateway_handshake_payload demo_fresh_seed FlavorMysql true = Ok greeting ∧
    parse_backend_handshake greeting =
      Ok {| auth_seed := demo_fresh_seed; auth_plugin := NATIVE_PASSWORD_PLUGIN |}.
Proof.
  destruct (greeting_carries_seed demo_random demo_fresh_seed FlavorMysql true)
    as (_ & _ & greeting & Hg & Hp).
  - vm_compute. reflexivity.
  - exists greeting. split; [exact Hg|exact Hp].
Defined.
