(* ===== verification/MysqlGateway.v ===== *)
(** * From a MySQL client's connection to its tunnel

    Models [prepare_mysql_connection] of [gateway/listeners/mysql_listener.rs],
    the whole login between a client, the gateway and a backend, on top of the
    messages of [MysqlProto] and the route tables of [RouteStore].

    A login reads from and writes to both connections ([Conversation] of
    [PgProto]) and may fail after it has written; [Login] is the state and
    error monad of such computations.  What the client and the backend say is
    arbitrary.  TLS, the digests, the hexadecimal codec and the connection to
    the backend are parameters. *)
From S2P Require Import Prelude Bytes Engines RouteStore PgProto MysqlProto.

Local Open Scope Z_scope.

#[export] Instance Conversation_settable : Settable Conversation :=
  λ c, mkConversation (client_in c) (backend_in c) (client_out c) (backend_out c).

(** ** Errors *)

Inductive LoginError :=
  | LoginMysql (e : MariadbProxyError)
  | LoginRouteNotFound
  | LoginAmbiguousRoute
  | LoginBackend
  | LoginTls.

(** The message of an error; the two variants that wrap another error are
    never shown during a login. *)
Definition display (e : MariadbProxyError) : bytes :=
  match e with
  | MalformedPacket => lit "mysql packet is malformed"
  | PacketTooLarge => lit "mysql packet is too large"
  | MysqlIo => lit "mysql packet io failed"
  | MissingPassword => lit "mysql client did not provide a password"
  | NativePasswordPluginRequired => lit "mysql client did not use mysql_native_password"
  | MissingNativePasswordVerifier =>
      lit "mysql native password verifier is missing; recreate the database instance"
  | InvalidNativePasswordVerifier => lit "mysql native password verifier is invalid"
  | MissingBackendPassword =>
      lit "mysql backend password is unavailable; reset or recreate the legacy instance"
  | InsecureBackendFullAuthentication =>
      lit "mysql caching_sha2_password full authentication requires a private Unix socket"
  | InvalidBackendPassword => lit "mysql backend password contains a NUL byte"
  | AuthenticationFailed => lit "mysql password authentication failed"
  | TlsUnavailable =>
      lit "mysql client requested TLS but this listener has no TLS configuration"
  | TlsRequired => lit "mysql listener requires CLIENT_SSL negotiation"
  | SharedStorageCommandRejected =>
      lit "shared tenant command could escape its managed storage boundary"
  | UnsupportedBackendAuth plugin =>
      lit "mysql backend requested unsupported auth plugin: " ++ plugin
  end.

(** ** The login monad *)

Definition Login (A : Type) : Type := Conversation → result LoginError A * Conversation.

#[export] Instance login_ret : MRet Login := λ A a c, (Ok a, c).
#[export] Instance login_bind : MBind Login := λ A B f m c,
  match m c with
  | (Ok a, c) => f a c
  | (Err e, c) => (Err e, c)
  end.

Definition fail {A : Type} (e : LoginError) : Login A := λ c, (Err e, c).

Definition lift {A : Type} (m : result MariadbProxyError A) : Login A := λ c,
  (result_map_err LoginMysql m, c).

Definition read_client (max : Z) : Login MysqlPacket := λ c,
  match read_packet_limited (client_in c) max with
  | Ok (p, rest) => (Ok p, c <| client_in := rest |>)
  | Err e => (Err (LoginMysql e), c)
  end.

Definition read_backend : Login MysqlPacket := λ c,
  match read_packet (backend_in c) with
  | Ok (p, rest) => (Ok p, c <| backend_in := rest |>)
  | Err e => (Err (LoginMysql e), c)
  end.

Definition write_client (v : bytes) : Login unit := λ c,
  (Ok tt, c <| client_out := client_out c ++ v |>).
Definition write_backend (v : bytes) : Login unit := λ c,
  (Ok tt, c <| backend_out := backend_out c ++ v |>).

Definition write_client_packet (sequence : byte) (payload : bytes) : Login unit :=
  v ← lift (write_packet sequence payload); write_client v.
Definition write_backend_packet (sequence : byte) (payload : bytes) : Login unit :=
  v ← lift (write_packet sequence payload); write_backend v.

Definition send_error_packet (sequence : byte) (message : bytes) : Login unit :=
  write_client_packet sequence (error_packet message).

(** The client's stream continues inside TLS. *)
Definition accept_tls (accept : bytes → option bytes) : Login unit := λ c,
  match accept (client_in c) with
  | Some plain => (Ok tt, c <| client_in := plain |>)
  | None => (Err LoginTls, c)
  end.

(** [sequence.wrapping_add(1)]. *)
Definition next_sequence_id (p : MysqlPacket) : byte := z2b (b2z (sequence_id p) + 1).

(** An error that is also reported to the client. *)
Definition or_report {A : Type} (sequence : byte) (m : result MariadbProxyError A) : Login A :=
  match m with
  | Ok a => mret a
  | Err e => send_error_packet sequence (display e);; fail (LoginMysql e)
  end.

(** ** The login *)

Section login.
Context (sha1 sha256 : bytes → bytes) (hex_decode_to_20 : bytes → option bytes).
(** [TlsAcceptor::accept]: the decrypted stream, if the TLS handshake succeeds. *)
Context (tls : option (bytes → option bytes)).
(** [RouteResolver::resolve_mariadb_target]: a session was admitted for the
    target and the route was still current. *)
Context (open_route : MariadbRouteTarget → bool).
(** [tunnel::connect_backend] succeeds. *)
Context (connect : BackendEndpoint → bool).

Abbreviation respond := (backend_handshake_response sha1 sha256 hex_decode_to_20).
Abbreviation respond_switch := (backend_auth_switch_response sha1 sha256 hex_decode_to_20).

(** [resolve_mysql] and [resolve_mariadb] of the resolver. *)
Definition resolve_open (mysql : bool) (st : InstanceState) (user : string)
    (db : option string) : DatabaseRouteResolution MariadbRouteTarget :=
  match (if mysql then resolve_mysql st user db else resolve_mariadb st user db) with
  | Found d t => if open_route t then Found d t else NotFound
  | r => r
  end.

(** The client's handshake response, behind TLS when the client asks for it. *)
Definition negotiate (gateway_seed : bytes) (mysql : bool) : Login MysqlPacket :=
  let tls_available := bool_decide (is_Some tls) in
  greeting ← lift (send_gateway_handshake gateway_seed
                     (if mysql then FlavorMysql else FlavorMariadb) tls_available);
  _ ← write_client greeting;
  first ← read_client MAX_ROUTING_HANDSHAKE_BYTES;
  is_ssl ← lift (is_mysql_ssl_request (payload_of first));
  if is_ssl : bool then
    match tls with
    | None =>
        send_error_packet (next_sequence_id first) (display TlsUnavailable);;
        fail (LoginMysql TlsUnavailable)
    | Some accept =>
        _ ← accept_tls accept;
        read_client MAX_ROUTING_HANDSHAKE_BYTES
    end
  else if tls_available then
    send_error_packet (next_sequence_id first) (display TlsRequired);;
    fail (LoginMysql TlsRequired)
  else mret first.

(** The route of the client: its login with the resolved database, the target
    and its stored verifier. *)
Definition route_client (mysql : bool) (st : InstanceState) (response : MysqlPacket) :
    Login (MariadbRoute * MariadbRouteTarget * string) :=
  let sequence := next_sequence_id response in
  route ← or_report sequence (parse_client_handshake_response (payload_of response));
  let requested := if bool_decide (my_database route = []) then None
                   else Some (text (my_database route)) in
  match resolve_open mysql st (text (my_username route)) requested with
  | Found db target =>
      match maria_verifier target with
      | None =>
          send_error_packet sequence (display MissingNativePasswordVerifier);;
          fail (LoginMysql MissingNativePasswordVerifier)
      | Some verifier => mret (route <| my_database := lit db |>, target, verifier)
      end
  | NotFound =>
      send_error_packet sequence (lit "Access denied for requested database");;
      fail LoginRouteNotFound
  | Ambiguous =>
      send_error_packet sequence (lit "Database must be included for routing");;
      fail LoginAmbiguousRoute
  end.

(** The login at the backend up to its last answer. *)
Definition authenticate_backend (gateway_seed : bytes) (sequence : byte) (route : MariadbRoute)
    (target : MariadbRouteTarget) (verifier : string) : Login MysqlPacket :=
  let backend_password := lit <$> maria_tenant_password target in
  greeting ← read_backend;
  handshake ← lift (parse_backend_handshake (payload_of greeting));
  auth_payload ← or_report sequence
    (respond handshake route gateway_seed (lit verifier) backend_password);
  _ ← write_backend_packet x01 auth_payload;
  response ← read_backend;
  '(handshake, response) ←
    match auth_switch_request (payload_of response) with
    | Some switch =>
        auth_payload ← or_report sequence
          (respond_switch switch route gateway_seed (lit verifier) backend_password);
        _ ← write_backend_packet (next_sequence_id response) auth_payload;
        response ← read_backend;
        mret (switch, response)
    | None => mret (handshake, response)
    end;
  if bool_decide (auth_plugin handshake = CACHING_SHA2_PASSWORD_PLUGIN) then
    continuation ← lift (caching_sha2_continuation (payload_of response));
    match continuation with
    | Some FastAuthenticationComplete => read_backend
    | Some FullAuthenticationRequired =>
        match maria_endpoint target with
        | UnixSocket _ =>
            password ← lift (ok_or backend_password MissingBackendPassword);
            cleartext ← lift (caching_sha2_plaintext_password password);
            _ ← write_backend_packet (next_sequence_id response) cleartext;
            read_backend
        | _ => fail (LoginMysql InsecureBackendFullAuthentication)
        end
    | None => mret response
    end
  else mret response.

(** [prepare_mysql_connection]: the target of the tunnel, or none when the
    backend refused the login and the client was told so. *)
Definition prepare_mysql_connection (mysql : bool) (st : InstanceState) (gateway_seed : bytes) :
    Login (option MariadbRouteTarget) :=
  client_response ← negotiate gateway_seed mysql;
  let sequence := next_sequence_id client_response in
  '(route, target, verifier) ← route_client mysql st client_response;
  if negb (connect (maria_endpoint target)) then fail LoginBackend
  else
    response ← authenticate_backend gateway_seed sequence route target verifier;
    if packet_is_error (payload_of response) then
      write_client_packet sequence (payload_of response);;
      mret None
    else if negb (packet_is_ok (payload_of response)) then
      send_error_packet sequence
        (if mysql then lit "unsupported mysql backend auth response"
         else lit "unsupported mariadb backend auth response");;
      fail (LoginMysql MalformedPacket)
    else
      write_client_packet sequence (payload_of response);;
      mret (Some target).
End login.

(** ** What a login sends to the backend *)

Lemma login_bind_inv {A B : Type} (m : Login A) (f : A → Login B) c r c' :
  (m ≫= f) c = (r, c') →
  (∃ a c1, m c = (Ok a, c1) ∧ f a c1 = (r, c')) ∨ (∃ e, m c = (Err e, c') ∧ r = Err e).
Proof.
  unfold mbind, login_bind. destruct (m c) as [[a|e] c1]; intros H; simplify_eq; eauto.
Qed.

(** [emits P m]: whatever [m] does, it sends the backend a sequence of messages
    that satisfy [P]. *)
Definition emits {A : Type} (P : bytes → Prop) (m : Login A) : Prop :=
  ∀ c r c', m c = (r, c') →
    ∃ sent, backend_out c' = backend_out c ++ concat sent ∧ Forall P sent.

Lemma emits_bind_Ok {A B : Type} P (m : Login A) (f : A → Login B) :
  emits P m → (∀ a c c1, m c = (Ok a, c1) → emits P (f a)) → emits P (m ≫= f).
Proof.
  intros Hm Hf c r c' [(a & c1 & H1 & H2)|(e & H1 & ->)]%login_bind_inv; [|by eapply Hm].
  destruct (Hm _ _ _ H1) as (s1 & E1 & F1).
  destruct (Hf a _ _ H1 _ _ _ H2) as (s2 & E2 & F2).
  exists (s1 ++ s2). rewrite E2, E1, concat_app, app_assoc. split; [done|by apply Forall_app].
Qed.

Lemma emits_bind {A B : Type} P (m : Login A) (f : A → Login B) :
  emits P m → (∀ a, emits P (f a)) → emits P (m ≫= f).
Proof. intros Hm Hf. by apply emits_bind_Ok. Qed.

(** A step that leaves the backend's side alone. *)
Lemma emits_same {A : Type} P (m : Login A) :
  (∀ c, backend_out (m c).2 = backend_out c) → emits P m.
Proof.
  intros Hs c r c' E. exists []. rewrite <-(Hs c), E, app_nil_r. split; [done|constructor].
Qed.

Lemma emits_ret {A : Type} P (a : A) : emits P (mret a).
Proof. by apply emits_same. Qed.
Lemma emits_fail {A : Type} P e : emits P (fail (A := A) e).
Proof. by apply emits_same. Qed.
Lemma emits_lift {A : Type} P (m : result MariadbProxyError A) : emits P (lift m).
Proof. by apply emits_same. Qed.
Lemma emits_read_client P max : emits P (read_client max).
Proof. apply emits_same. intros c. unfold read_client. by repeat case_match. Qed.
Lemma emits_read_backend P : emits P read_backend.
Proof. apply emits_same. intros c. unfold read_backend. by repeat case_match. Qed.
Lemma emits_write_client P v : emits P (write_client v).
Proof. by apply emits_same. Qed.
Lemma emits_accept_tls P accept : emits P (accept_tls accept).
Proof. apply emits_same. intros c. unfold accept_tls. by case_match. Qed.

Lemma emits_write_client_packet P sequence payload : emits P (write_client_packet sequence payload).
Proof. apply emits_bind; [apply emits_lift|]. intros. apply emits_write_client. Qed.

Lemma emits_error_packet P sequence message : emits P (send_error_packet sequence message).
Proof. apply emits_write_client_packet. Qed.

Lemma emits_write_backend_packet (P : bytes → Prop) sequence payload :
  (∀ v, write_packet sequence payload = Ok v → P v) →
  emits P (write_backend_packet sequence payload).
Proof.
  intros HP c r c'. unfold write_backend_packet, lift.
  intros [(v & c1 & H1 & H2)|(e & H1 & ->)]%login_bind_inv.
  - destruct (write_packet sequence payload) as [w|] eqn:Hw; simplify_eq/=.
    unfold write_backend in H2. injection H2 as <- <-. exists [v]. cbn [concat].
    rewrite app_nil_r. split; [done|]. by apply Forall_singleton, HP.
  - injection H1 as _ <-. exists []. rewrite app_nil_r. split; [done|constructor].
Qed.

Lemma lift_Ok {A : Type} (m : result MariadbProxyError A) c a c1 :
  lift m c = (Ok a, c1) → m = Ok a ∧ c1 = c.
Proof. unfold lift. destruct m; intros; by simplify_eq/=. Qed.

Lemma fail_after {A B : Type} (m : Login A) e c (a : B) c1 :
  (m ;; fail e) c ≠ (Ok a, c1).
Proof. by intros [(? & ? & _ & ?)|(? & _ & ?)]%login_bind_inv. Qed.

Lemma or_report_Ok {A : Type} sequence (m : result MariadbProxyError A) c a c1 :
  or_report sequence m c = (Ok a, c1) → m = Ok a ∧ c1 = c.
Proof.
  unfold or_report. destruct m as [x|e]; [by intros [= -> ->]|]. by intros ?%fail_after.
Qed.

Create HintDb login discriminated.
#[export] Hint Resolve emits_ret emits_fail emits_lift emits_read_client emits_read_backend
  emits_write_client emits_accept_tls emits_write_client_packet emits_error_packet : login.

(** Decompose a login into its steps. *)
Ltac emit_steps :=
  repeat first
    [ solve [auto with login nocore]
    | apply emits_bind; [|intros]
    | case_match ].

Lemma emits_or_report {A : Type} P sequence (m : result MariadbProxyError A) :
  emits P (or_report sequence m).
Proof. unfold or_report. emit_steps. Qed.
#[export] Hint Resolve emits_or_report : login.

Section login_proofs.
Context (sha1 sha256 : bytes → bytes) (hex_decode_to_20 : bytes → option bytes).
Context (tls : option (bytes → option bytes)).
Context (open_route : MariadbRouteTarget → bool) (connect : BackendEndpoint → bool).

Abbreviation respond := (backend_handshake_response sha1 sha256 hex_decode_to_20).
Abbreviation respond_switch := (backend_auth_switch_response sha1 sha256 hex_decode_to_20).

Lemma emits_negotiate P seed mysql : emits P (negotiate tls seed mysql).
Proof. unfold negotiate. emit_steps. Qed.

Lemma emits_route_client P mysql st response : emits P (route_client open_route mysql st response).
Proof. unfold route_client. emit_steps. Qed.

(** What may be sent to the backend of [target] for a client that logged in as
    [route]: an answer to a challenge, or the tenant's password when the
    connection is a Unix socket. *)
Inductive permitted (seed : bytes) (verifier : string) (route : MariadbRoute)
    (target : MariadbRouteTarget) : bytes → Prop :=
  | permitted_response handshake sequence payload v :
      respond handshake route seed (lit verifier) (lit <$> maria_tenant_password target)
        = Ok payload →
      write_packet sequence payload = Ok v → permitted seed verifier route target v
  | permitted_switch handshake sequence payload v :
      respond_switch handshake route seed (lit verifier) (lit <$> maria_tenant_password target)
        = Ok payload →
      write_packet sequence payload = Ok v → permitted seed verifier route target v
  | permitted_cleartext path password sequence payload v :
      maria_endpoint target = UnixSocket path →
      maria_tenant_password target = Some password →
      caching_sha2_plaintext_password (lit password) = Ok payload →
      write_packet sequence payload = Ok v → permitted seed verifier route target v.

Lemma emits_authenticate_backend seed sequence route target verifier :
  emits (permitted seed verifier route target)
    (authenticate_backend sha1 sha256 hex_decode_to_20 seed sequence route target verifier).
Proof.
  unfold authenticate_backend.
  apply emits_bind; [auto with login nocore|intros greeting].
  apply emits_bind; [auto with login nocore|intros handshake].
  apply emits_bind_Ok; [auto with login nocore|]. intros payload _ _ [Hp _]%or_report_Ok.
  apply emits_bind; [apply emits_write_backend_packet; by econstructor 1|intros _].
  apply emits_bind; [auto with login nocore|intros response].
  apply emits_bind.
  - case_match; [|emit_steps].
    apply emits_bind_Ok; [auto with login nocore|]. intros switched _ _ [Hs _]%or_report_Ok.
    apply emits_bind; [apply emits_write_backend_packet; by econstructor 2|intros _]. emit_steps.
  - intros [handshake' response']. case_bool_decide; [|emit_steps].
    apply emits_bind; [auto with login nocore|]. intros [[|]|]; [emit_steps| |emit_steps].
    destruct (maria_endpoint target) as [path|] eqn:He; [|emit_steps].
    apply emits_bind_Ok; [auto with login nocore|]. intros password _ _ [Hpw%ok_or_Ok _]%lift_Ok.
    apply fmap_Some in Hpw as (pw & Hpw & ->).
    apply emits_bind_Ok; [auto with login nocore|]. intros clear _ _ [Hcl _]%lift_Ok.
    apply emits_bind; [|emit_steps]. apply emits_write_backend_packet. by econstructor 3.
Qed.

(** The backend hears nothing before the client's proof was verified. *)
Lemma authenticate_after_proof seed sequence route target verifier c r c' :
  authenticate_backend sha1 sha256 hex_decode_to_20 seed sequence route target verifier c
    = (r, c') →
  (∃ e, r = Err e ∧ backend_out c' = backend_out c) ∨
  (∃ handshake payload,
     respond handshake route seed (lit verifier) (lit <$> maria_tenant_password target)
     = Ok payload).
Proof.
  unfold authenticate_backend.
  assert (∀ (A : Type) (m : Login A) c r c',
            (∀ P, emits P m) → m c = (r, c') → backend_out c' = backend_out c) as Hq.
  { intros A m c0 r0 c0' Hm H0. destruct (Hm (λ _, False) _ _ _ H0) as (sent & -> & Hs).
    destruct Hs; [by rewrite app_nil_r|done]. }
  intros [(greeting & c1 & H1 & H)|(e & H1 & ->)]%login_bind_inv;
    apply Hq in H1; try (intros; auto with login nocore); [|by eauto].
  apply login_bind_inv in H as [(handshake & c2 & H2 & H)|(e & H2 & ->)];
    apply Hq in H2; try (intros; auto with login nocore); [|left; eexists; split; [done|congruence]].
  apply login_bind_inv in H as [(payload & c3 & [H3 _]%or_report_Ok & _)|(e & H3 & ->)];
    [by eauto|].
  apply Hq in H3; [|intros; auto with login nocore]. left. eexists; split; [done|congruence].
Qed.

(** The instance the client proved its password for: [target] belongs to the
    open instance [m] of the listener's protocol whose user the client named,
    and its answer to the gateway's challenge is one that a server with that
    instance's verifier accepts. *)
Definition proven (mysql : bool) (st : InstanceState) (seed : bytes) (c : Conversation)
    (route : MariadbRoute) (target : MariadbRouteTarget) (verifier : string) : Prop :=
  let stored := if mysql then mysql_native_password_sha1_stage2
                else mariadb_native_password_sha1_stage2 in
  ∃ response c1 id m stage_2,
    negotiate tls seed mysql c = (Ok response, c1) ∧
    parse_client_handshake_response (payload_of response) = Ok route ∧
    target = mariadb_target st stored id m ∧ instances st !! id = Some m ∧
    protocol m = (if mysql then Mysql else Mariadb) ∧ route_eligible m = true ∧
    username (identity m) = text (my_username route) ∧
    route_is_current st id (maria_revision target) = true ∧
    stored m = Some verifier ∧ hex_decode_to_20 (lit verifier) = Some stage_2 ∧
    server_accepts sha1 seed stage_2 (auth_response route).

Lemma resolve_open_Found mysql st user db d t :
  resolve_open open_route mysql st user db = Found d t →
  open_route t = true ∧
  resolve_database_target st (database_routes (if mysql then Mysql else Mariadb) st) user db
    (mariadb_target st (if mysql then mysql_native_password_sha1_stage2
                        else mariadb_native_password_sha1_stage2)) = Found d t.
Proof.
  unfold resolve_open, resolve_mysql, resolve_mariadb, resolve_mariadb_route.
  destruct mysql; cbn [database_routes];
    (destruct (resolve_database_target _ _ _ _ _) as [d' t'| |]; [|done..]);
    destruct (open_route t') eqn:Ho; [|done| |done]; intros [= <- <-]; done.
Qed.

Lemma route_client_Ok mysql st response c route t verifier c1 :
  route_client open_route mysql st response c = (Ok (route, t, verifier), c1) →
  ∃ parsed requested db,
    parse_client_handshake_response (payload_of response) = Ok parsed ∧
    route = parsed <| my_database := lit db |> ∧
    resolve_open open_route mysql st (text (my_username parsed)) requested = Found db t ∧
    maria_verifier t = Some verifier.
Proof.
  unfold route_client.
  intros [(parsed & c0 & [Hp _]%or_report_Ok & H)|(e & _ & ?)]%login_bind_inv; [|done].
  destruct (resolve_open _ _ _ _ _) as [db t'| |] eqn:Hr;
    [|by apply fail_after in H..].
  destruct (maria_verifier t') as [v|] eqn:Hv; [|by apply fail_after in H].
  injection H as <- <- <- _. eauto 10.
Qed.

Context (sha1_length : ∀ v, length (sha1 v) = 20%nat).
Context (hex_decoded_length : ∀ s v, hex_decode_to_20 s = Some v → length v = 20%nat).
Context (password_route_sha256 : string → string).

(** A response the gateway could compute proves the client's password. *)
Lemma respond_proves mysql st seed c response c1 c2 c3 route t verifier handshake payload :
  store_reachable password_route_sha256 st →
  negotiate tls seed mysql c = (Ok response, c1) →
  route_client open_route mysql st response c2 = (Ok (route, t, verifier), c3) →
  respond handshake route seed (lit verifier) (lit <$> maria_tenant_password t) = Ok payload →
  open_route t = true ∧
  ∃ parsed db, route = parsed <| my_database := db |> ∧ proven mysql st seed c parsed t verifier.
Proof.
  intros Hinv%store_reachable_inv Hn
    (parsed & requested & db & Hp & -> & [Ho Hr]%resolve_open_Found & Hv)%route_client_Ok Hresp.
  split; [done|]. exists parsed, (lit db). split; [done|].
  apply (resolve_database_target_owner password_route_sha256) in Hr
    as (id & m & (Hm & _ & (Hpr & _ & Hu & _) & He & Hc) & -> & _); [|done].
  apply bind_Ok in Hresp as (tok & Htok & _).
  destruct (derive_Ok sha1 sha1_length _ hex_decoded_length _ _ _ _ _ Htok)
    as (s2 & Hd & Ha & _ & _).
  exists response, c1, id, m, s2. split_and!; done.
Qed.

(** C3. A MySQL backend hears only of clients that proved their password.
    Whatever the client and the backend say, a tunnel is opened only to an open
    instance of the listener's protocol, of the user the client named, admitted
    by the resolver, and only after the client answered the gateway's challenge
    the way a server with that instance's verifier demands.  Before such a
    proof nothing at all is sent to a backend; after it, only answers to the
    backend's challenges, and the tenant's password only over a Unix socket. *)
Theorem mysql_backend_sees_only_proofs mysql st seed c r c' :
  store_reachable password_route_sha256 st →
  prepare_mysql_connection sha1 sha256 hex_decode_to_20 tls open_route connect mysql st seed c
    = (r, c') →
  (∀ t, r = Ok (Some t) →
     open_route t = true ∧ ∃ route verifier, proven mysql st seed c route t verifier) ∧
  ∃ sent, backend_out c' = backend_out c ++ concat sent ∧
    (sent = [] ∨
     ∃ route db t verifier, proven mysql st seed c route t verifier ∧
       Forall (permitted seed verifier (route <| my_database := db |>) t) sent).
Proof.
  intros Hst. unfold prepare_mysql_connection.
  intros [(response & c1 & Hn & H)|(e & Hn & ->)]%login_bind_inv;
    destruct (emits_negotiate (λ _, False) _ _ _ _ _ Hn) as (s1 & E1 & F1).
  2: { split; [done|]. exists s1. split; [done|]. left. by destruct F1. }
  destruct F1; [|done]. rewrite app_nil_r in E1. rewrite <-E1.
  apply login_bind_inv in H as [([[route t] verifier] & c2 & Hr & H)|(e & Hr & ->)];
    destruct (emits_route_client (λ _, False) _ _ _ _ _ _ Hr) as (s2 & E2 & F2).
  2: { split; [done|]. exists s2. split; [done|]. left. by destruct F2. }
  destruct F2; [|done]. rewrite app_nil_r in E2. rewrite <-E2.
  destruct (connect (maria_endpoint t)); cbn [negb] in H.
  2: { injection H as <- <-. split; [done|]. exists []. rewrite app_nil_r. eauto. }
  assert (∃ sent, backend_out c' = backend_out c2 ++ concat sent ∧
                  Forall (permitted seed verifier route t) sent) as (sent & Es & Fs).
  { revert H. apply emits_bind; [apply emits_authenticate_backend|]. intros last.
    emit_steps. }
  apply login_bind_inv in H as [(last & c3 & Ha & H)|(e & Ha & ->)];
    destruct (authenticate_after_proof _ _ _ _ _ _ _ _ Ha) as [(e' & ? & Eq)|(hs & p & Hp)];
    simplify_eq;
    try (destruct (respond_proves _ _ _ _ _ _ _ _ _ _ _ _ _ Hst Hn Hr Hp)
           as (Ho & parsed & db & -> & Hprov)).
  - split; [|by eauto 10]. intros t' ->.
    assert (t' = t) as ->; [|by eauto].
    destruct (packet_is_error _); [|destruct (negb _)].
    + by apply login_bind_inv in H as [(? & ? & _ & ?)|(? & _ & ?)].
    + by apply fail_after in H.
    + by apply login_bind_inv in H as [(? & ? & _ & [= ->])|(? & _ & ?)].
  - split; [done|]. exists []. rewrite app_nil_r. eauto.
  - split; [done|]. eauto 10.
Qed.
End login_proofs.

(** ** Examples *)

Module MysqlGatewayDemo.
Import MysqlDemo.

Definition demo_mysql : InstanceMetadata :=
  {| instance_id := "m1"; deployment_mode := Dedicated; protocol := Mysql;
     status := Running; desired_state := DesiredRunning; disk_limit_blocked := false;
     backend := UnixSocket "/run/m1"; identity := {| name := "shop"; username := "alice" |};
     route_key_sha256 := None; mariadb_native_password_sha1_stage2 := None;
     mysql_native_password_sha1_stage2 := Some (text demo_verifier);
     tenant_password := Some "secret";
     limits := {| limit_memory_mib := 1024; limit_disk_mib := 10240;
                disk_enforcement_method := "not_supported" |};
     created_at := "2026-01-01"; updated_at := "2026-01-01"; instance_owner := None;
     placed_runtime_id := ""; image := None; database_version := None |}.

Definition demo_mysql_sha (password : string) : string := password.

Definition demo_mysql_store : InstanceState :=
  upsert demo_mysql_sha demo_mysql instance_state_default.

Lemma demo_mysql_reachable : store_reachable demo_mysql_sha demo_mysql_store.
Proof.
  exists [Upsert demo_mysql]. unfold run_all. cbn [foldl]. by rewrite run_upsert.
Qed.

Definition written (sequence : byte) (payload : bytes) : bytes :=
  match write_packet sequence payload with Ok v => v | Err _ => [] end.

(** A client with the right password and a backend that accepts the login. *)
Definition demo_login : Conversation :=
  {| client_in := written x01 demo_response;
     backend_in :=
       written x00 (encode_greeting (lit "8.0.11") (to_le 4 7) (take 8 demo_backend_seed)
                      (gateway_capabilities false) x2d [x02; x00] (drop 8 demo_backend_seed)
                      NATIVE_PASSWORD_PLUGIN)
       ++ written x02 [x00; x00; x00; x02; x00; x00; x00];
     client_out := []; backend_out := [] |}.

Definition demo_target : MariadbRouteTarget :=
  mariadb_target demo_mysql_store mysql_native_password_sha1_stage2 "m1" demo_mysql.

End MysqlGatewayDemo.

Import MysqlDemo MysqlGatewayDemo.

Lemma mysql_backend_sees_only_proofs_witness :
  ∃ route verifier,
    proven demo_sha1 demo_hex_decode None true demo_mysql_store demo_gateway_seed demo_login
      route demo_target verifier.
Proof.
  destruct (prepare_mysql_connection demo_sha1 demo_sha256 demo_hex_decode None (λ _, true)
    (λ _, true) true demo_mysql_store demo_gateway_seed demo_login) as [r c'] eqn:E.
  assert (r = Ok (Some demo_target)) as Hr.
  { apply (f_equal fst) in E. cbn [fst] in E. rewrite <-E. vm_compute. reflexivity. }
  destruct (mysql_backend_sees_only_proofs demo_sha1 demo_sha256 demo_hex_decode None (λ _, true)
    (λ _, true) demo_sha1_length demo_hex_length demo_mysql_sha true demo_mysql_store
    demo_gateway_seed demo_login r c' demo_mysql_reachable E) as [H _].
  exact (proj2 (H demo_target Hr)).
Defined.
