(* ===== verification/Sessions.v ===== *)
(** * Gateway sessions and query buffers

    Models [gateway/sessions.rs] (the registry of live sessions per tenant, the
    connection limit and cancellation) and [gateway/buffers.rs] (the budgets for
    buffered SQL commands).

    A [TenantSession] and the [SessionState] it owns are one entry of [live];
    a weak reference to it is its identifier, and upgrading it succeeds exactly
    while the entry exists.  A tenant's [QueryBudget] is shared by reference: it
    is named by the session that created it.  Every operation that takes the
    registry lock is one step; [cancel] collects the sessions under the lock
    and cancels them one by one afterwards.  The semaphore of the asynchronous
    runtime is used through the interface [Semaphore]. *)
From S2P Require Import Prelude.

Local Open Scope Z_scope.

(** ** Counting semaphores *)

Class Semaphore (Sem : Type) := {
  sem_new : Z → Sem;
  available_permits : Sem → Z;
  try_acquire_many : Z → Sem → option Sem;
  add_permits : Z → Sem → Sem;
}.

(** The documented behaviour: an acquisition succeeds exactly when enough
    permits are available, and takes them until they are returned. *)
Class SemaphoreLaws (Sem : Type) `{Semaphore Sem} := {
  sem_new_available n : available_permits (sem_new n) = n;
  try_acquire_available n s :
    match try_acquire_many n s with
    | Some s' => n ≤ available_permits s ∧ available_permits s' = available_permits s - n
    | None => available_permits s < n
    end;
  add_permits_available n s : available_permits (add_permits n s) = available_permits s + n;
}.

(** A counter is such a semaphore. *)
#[export] Instance counter_semaphore : Semaphore Z := {|
  sem_new n := n;
  available_permits n := n;
  try_acquire_many n s := if n <=? s then Some (s - n) else None;
  add_permits n s := s + n;
|}.
#[export] Instance counter_semaphore_laws : SemaphoreLaws Z.
Proof.
  split; simpl; [done| |done]. intros n s. destruct (Z.leb_spec n s); lia.
Qed.

(** ** State *)

Definition TENANT_BYTES : Z := 32 * 1024 * 1024.

Record TenantSession := mkTenantSession {
  session_tenant : string;
  session_budget : Z;
  authenticated : bool;
  cancelled : bool;
}.

#[export] Instance TenantSession_settable : Settable TenantSession :=
  λ s, mkTenantSession (session_tenant s) (session_budget s) (authenticated s) (cancelled s).

Record TenantEntry := mkTenantEntry {
  entry_sessions : gset Z;
  entry_budget : Z;
}.

#[export] Instance TenantEntry_settable : Settable TenantEntry :=
  λ e, mkTenantEntry (entry_sessions e) (entry_budget e).

Inductive SessionError := TenantSessionLimit (tenant : string) (limit : Z) | SessionAborted.

Section sessions.
Context {Sem : Type} `{Semaphore Sem}.

Record Sessions := mkSessions {
  tenants : gmap string TenantEntry;
  next_id : Z;
  live : gmap Z TenantSession;
  budgets : gmap Z Sem;
  global_budget : Sem;
}.

#[export] Instance Sessions_settable : Settable Sessions :=
  λ r, mkSessions (tenants r) (next_id r) (live r) (budgets r) (global_budget r).

(** [with_config]; [capacity] is the configured global SQL buffer budget. *)
Definition sessions_new (capacity : Z) : Sessions :=
  {| tenants := ∅; next_id := 0; live := ∅; budgets := ∅; global_budget := sem_new capacity |}.

(** ** Sessions *)

Definition prune_dropped_sessions (st : Sessions) (e : TenantEntry) : TenantEntry :=
  e <| entry_sessions := filter (λ id, is_Some (live st !! id)) (entry_sessions e) |>.

Definition is_authenticated (st : Sessions) (id : Z) : bool :=
  match live st !! id with Some s => authenticated s | None => false end.

Definition authenticated_count (st : Sessions) (e : TenantEntry) : Z :=
  Z.of_nat (size (filter (λ id, is_authenticated st id = true) (entry_sessions e))).

(** [limit] admits another authenticated session. *)
Definition within_limit (st : Sessions) (e : TenantEntry) (limit : option Z) : bool :=
  match limit with Some limit => authenticated_count st e <? limit | None => true end.

(** [entry(..).or_insert_with(..)], pruned. *)
Definition tenant_entry (tenant : string) (id : Z) (st : Sessions) : TenantEntry * Sessions :=
  let '(entry, st) :=
    match tenants st !! tenant with
    | Some entry => (entry, st)
    | None => ({| entry_sessions := ∅; entry_budget := id |},
               st <| budgets := <[id := sem_new TENANT_BYTES]> (budgets st) |>)
    end in
  let entry := prune_dropped_sessions st entry in
  (entry, st <| tenants := <[tenant := entry]> (tenants st) |>).

(** [TenantSessions::insert]. *)
Definition insert_session (tenant : string) (limit : option Z) (auth : bool) (st : Sessions) :
    result SessionError Z * Sessions :=
  let id := next_id st in
  let '(entry, st) :=
    tenant_entry tenant id (st <| next_id := wrapping_add u64_max id 1 |>) in
  if negb (within_limit st entry limit)
  then (Err (TenantSessionLimit tenant (default 0 limit)), st)
  else
    let entry := entry <| entry_sessions := {[id]} ∪ entry_sessions entry |> in
    (Ok id,
     st <| tenants := <[tenant := entry]> (tenants st) |>
        <| live := <[id := mkTenantSession tenant (entry_budget entry) auth false]> (live st) |>).

Definition try_open (tenant : string) (limit : option Z) (st : Sessions) :
    result SessionError Z * Sessions := insert_session tenant limit true st.

Definition open_pending (tenant : string) (st : Sessions) : result SessionError Z * Sessions :=
  insert_session tenant None false st.

(** The sessions [cancel] is going to cancel. *)
Definition cancel_collect (tenant : string) (st : Sessions) : list Z * Sessions :=
  match tenants st !! tenant with
  | None => ([], st)
  | Some entry =>
      let entry := prune_dropped_sessions st entry in
      (elements (entry_sessions entry), st <| tenants := <[tenant := entry]> (tenants st) |>)
  end.

(** [SessionState::cancel]. *)
Definition cancel_session (id : Z) (st : Sessions) : Sessions :=
  st <| live ::= alter (λ s, s <| cancelled := true |>) id |>.

Definition cancel (tenant : string) (st : Sessions) : nat * Sessions :=
  let '(ids, st) := cancel_collect tenant st in
  (length ids, foldr cancel_session st ids).

Definition active (tenant : string) (st : Sessions) : nat * Sessions :=
  match tenants st !! tenant with
  | None => (0%nat, st)
  | Some entry =>
      let entry := prune_dropped_sessions st entry in
      (size (entry_sessions entry), st <| tenants := <[tenant := entry]> (tenants st) |>)
  end.

(** [TenantSession::authenticate] of the live session [id]. *)
Definition authenticate (id : Z) (limit : option Z) (st : Sessions) :
    result SessionError unit * Sessions :=
  match live st !! id with
  | None => (Err SessionAborted, st)
  | Some s =>
      match tenants st !! session_tenant s with
      | None => (Err SessionAborted, st)
      | Some entry =>
          if cancelled s then (Err SessionAborted, st)
          else if authenticated s then (Ok tt, st)
          else if negb (within_limit st entry limit)
          then (Err (TenantSessionLimit (session_tenant s) (default 0 limit)), st)
          else (Ok tt, st <| live := <[id := s <| authenticated := true |>]> (live st) |>)
      end
  end.

(** [SessionState::poll_cancelled]. *)
Definition poll_cancelled (id : Z) (st : Sessions) : bool :=
  match live st !! id with Some s => cancelled s | None => false end.

(** [Drop for TenantSession], and then of the state it owns. *)
Definition drop_session (id : Z) (st : Sessions) : Sessions :=
  match live st !! id with
  | None => st
  | Some s =>
      let st := st <| live := delete id (live st) |> in
      match tenants st !! session_tenant s with
      | None => st
      | Some entry =>
          let entry := entry <| entry_sessions := entry_sessions entry ∖ {[id]} |> in
          if bool_decide (entry_sessions entry = ∅)
          then st <| tenants := delete (session_tenant s) (tenants st) |>
          else st <| tenants := <[session_tenant s := entry]> (tenants st) |>
      end
  end.

(** ** Buffers *)

(** [QueryBudget::reserve]; a permit that was taken is returned when the
    reservation as a whole fails. *)
Definition reserve_bytes (budget : Z) (n : Z) (st : Sessions) : bool * Sessions :=
  if u32_max <? n then (false, st)
  else
    match budgets st !! budget with
    | None => (false, st)
    | Some tenant =>
        match try_acquire_many n tenant with
        | None => (false, st)
        | Some tenant =>
            match try_acquire_many n (global_budget st) with
            | None => (false, st <| budgets := <[budget := add_permits n tenant]> (budgets st) |>)
            | Some global =>
                (true, st <| budgets := <[budget := tenant]> (budgets st) |>
                          <| global_budget := global |>)
            end
        end
    end.

(** [Drop for QueryReservation]. *)
Definition release_bytes (budget : Z) (n : Z) (st : Sessions) : Sessions :=
  st <| budgets ::= alter (add_permits n) budget |> <| global_budget ::= add_permits n |>.
End sessions.
Arguments Sessions : clear implicits.

(** ** Runs of the gateway *)

Section runs.
Context {Sem : Type} `{Semaphore Sem}.

(** The registry, the sessions a [cancel] has still to cancel, and the
    reservations that are held (budget and size). *)
Record SessionWorld := mkSessionWorld {
  registry : Sessions Sem;
  cancelling : list Z;
  reservations : list (Z * Z);
}.

(** [allowed tenant limit]: the limit an authentication of [tenant] may be
    checked against.  Fewer than [2^64] sessions are opened. *)
Inductive session_step (allowed : string → option Z → Prop) :
    SessionWorld → SessionWorld → Prop :=
  | step_open tenant limit auth r st st' ids rs :
      next_id st < u64_max → (auth = true → allowed tenant limit) →
      insert_session tenant limit auth st = (r, st') →
      session_step allowed (mkSessionWorld st ids rs) (mkSessionWorld st' ids rs)
  | step_authenticate id s limit r st st' ids rs :
      live st !! id = Some s → allowed (session_tenant s) limit →
      authenticate id limit st = (r, st') →
      session_step allowed (mkSessionWorld st ids rs) (mkSessionWorld st' ids rs)
  | step_active tenant st ids rs :
      session_step allowed (mkSessionWorld st ids rs) (mkSessionWorld (active tenant st).2 ids rs)
  | step_cancel tenant st ids new st' rs :
      cancel_collect tenant st = (new, st') →
      session_step allowed (mkSessionWorld st ids rs) (mkSessionWorld st' (new ++ ids) rs)
  | step_cancel_one id ids ids' st rs :
      session_step allowed (mkSessionWorld st (ids ++ id :: ids') rs)
        (mkSessionWorld (cancel_session id st) (ids ++ ids') rs)
  | step_drop id st ids rs :
      session_step allowed (mkSessionWorld st ids rs) (mkSessionWorld (drop_session id st) ids rs)
  | step_reserve b n ok st st' ids rs :
      0 ≤ n → is_Some (budgets st !! b) → reserve_bytes b n st = (ok, st') →
      session_step allowed (mkSessionWorld st ids rs)
        (mkSessionWorld st' ids (if ok then (b, n) :: rs else rs))
  | step_release b n st ids rs rs' :
      session_step allowed (mkSessionWorld st ids (rs ++ (b, n) :: rs'))
        (mkSessionWorld (release_bytes b n st) ids (rs ++ rs')).

Definition sessions_reachable allowed (capacity : Z) : SessionWorld → Prop :=
  rtc (session_step allowed) (mkSessionWorld (sessions_new capacity) [] []).

(** ** The registry is exact *)

Record registry_exact (st : Sessions Sem) : Prop := {
  exact_registered id s : live st !! id = Some s →
    ∃ e, tenants st !! session_tenant s = Some e ∧ id ∈ entry_sessions e ∧
         entry_budget e = session_budget s;
  exact_live t e id : tenants st !! t = Some e → id ∈ entry_sessions e →
    ∃ s, live st !! id = Some s ∧ session_tenant s = t;
  exact_next : 0 ≤ next_id st;
  exact_fresh id : is_Some (live st !! id) → id < next_id st;
  exact_budget t e : tenants st !! t = Some e → is_Some (budgets st !! entry_budget e);
  exact_fresh_budget b : is_Some (budgets st !! b) → b < next_id st;
  exact_separate t t' e e' : tenants st !! t = Some e → tenants st !! t' = Some e' →
    entry_budget e = entry_budget e' → t = t';
}.

(** The live sessions of a tenant that are authenticated. *)
Definition live_authenticated (st : Sessions Sem) (tenant : string) : nat :=
  size (filter (λ kv, session_tenant kv.2 = tenant ∧ authenticated kv.2 = true) (live st)).

Lemma prune_exact st t e :
  registry_exact st → tenants st !! t = Some e → prune_dropped_sessions st e = e.
Proof.
  intros Hi He.
  enough (filter (λ id, is_Some (live st !! id)) (entry_sessions e) = entry_sessions e) as E.
  { unfold prune_dropped_sessions. rewrite E. by destruct e. }
  apply leibniz_equiv. intros id. rewrite elem_of_filter. split; [naive_solver|].
  intros Hid. split; [|done]. destruct (exact_live _ Hi _ _ _ He Hid) as (s & -> & _). eauto.
Qed.

Lemma prune_empty (st : Sessions Sem) b :
  prune_dropped_sessions st {| entry_sessions := ∅; entry_budget := b |}
  = {| entry_sessions := ∅; entry_budget := b |}.
Proof.
  unfold prune_dropped_sessions. cbn [entry_sessions].
  assert (filter (λ id, is_Some (live st !! id)) (∅ : gset Z) = ∅) as -> by set_solver. done.
Qed.

Lemma count_exact st t e :
  registry_exact st → tenants st !! t = Some e →
  authenticated_count st e = Z.of_nat (live_authenticated st t).
Proof.
  intros Hi He. unfold authenticated_count, live_authenticated. f_equal.
  rewrite <-size_dom. f_equal. apply leibniz_equiv. intros id.
  rewrite elem_of_filter, elem_of_dom. unfold is_authenticated. split.
  - intros [Ha Hid]. destruct (exact_live _ Hi _ _ _ He Hid) as (s & Hs & Ht).
    rewrite Hs in Ha. exists s. by apply map_lookup_filter_Some.
  - intros (s & (Hs & Ht & Ha)%map_lookup_filter_Some). cbn in Ht, Ha.
    rewrite Hs. split; [done|]. destruct (exact_registered _ Hi _ _ Hs) as (e' & He' & Hid & _).
    rewrite Ht, He in He'. by injection He' as <-.
Qed.

Lemma exact_new capacity : registry_exact (sessions_new capacity).
Proof.
  split; cbn; intros; simplify_map_eq; try lia;
    match goal with Hs : is_Some _ |- _ => destruct Hs; by simplify_map_eq end.
Qed.

Lemma exact_bump st n :
  registry_exact st → next_id st ≤ n → registry_exact (st <| next_id := n |>).
Proof.
  intros [] Hn. split; cbn; try done; [lia|..]; intros x Hx.
  - specialize (exact_fresh0 x Hx). lia.
  - specialize (exact_fresh_budget0 x Hx). lia.
Qed.

Lemma exact_new_entry st tenant b (sem : Sem) :
  registry_exact st → tenants st !! tenant = None → budgets st !! b = None → 0 ≤ b < next_id st →
  registry_exact
    (st <| budgets := <[b := sem]> (budgets st) |>
        <| tenants := <[tenant := {| entry_sessions := ∅; entry_budget := b |}]> (tenants st) |>).
Proof.
  intros Hi Ht Hb Hn. split; cbn.
  - intros id s Hs. destruct (exact_registered _ Hi _ _ Hs) as (e & He & Hid).
    exists e. split; [|done]. rewrite lookup_insert_ne; [done|congruence].
  - intros t e id [[<- <-]|[Hne He]]%lookup_insert_Some Hid; [set_solver|].
    by apply (exact_live _ Hi t e).
  - apply (exact_next _ Hi).
  - apply (exact_fresh _ Hi).
  - intros t e [[<- <-]|[Hne He]]%lookup_insert_Some; cbn; [by simplify_map_eq|].
    destruct (exact_budget _ Hi _ _ He) as [x Hx].
    destruct (decide (entry_budget e = b)) as [->|]; by simplify_map_eq.
  - intros b' [x [[<- <-]|[_ Hx]]%lookup_insert_Some]; [lia|].
    apply (exact_fresh_budget _ Hi). eauto.
  - assert (∀ t e, tenants st !! t = Some e → entry_budget e ≠ b) as Hf.
    { intros t e He <-. destruct (exact_budget _ Hi _ _ He) as [x Hx]. congruence. }
    intros t t' e e' [[<- <-]|[_ He]]%lookup_insert_Some [[<- <-]|[_ He']]%lookup_insert_Some;
      cbn; intros Heq; [done|by destruct (Hf _ _ He')|by destruct (Hf _ _ He)|].
    by eapply (exact_separate _ Hi).
Qed.

(** Opening the entry of a tenant for the session with the next identifier. *)
Lemma tenant_entry_exact tenant st e st' :
  registry_exact st → next_id st < u64_max →
  tenant_entry tenant (next_id st) (st <| next_id := wrapping_add u64_max (next_id st) 1 |>)
    = (e, st') →
  registry_exact st' ∧ tenants st' !! tenant = Some e ∧ live st' = live st ∧
  next_id st' = next_id st + 1 ∧ global_budget st' = global_budget st ∧
  (budgets st' = budgets st ∨
   budgets st !! next_id st = None ∧
   budgets st' = <[next_id st := sem_new TENANT_BYTES]> (budgets st)).
Proof.
  intros Hi Hn. pose proof (exact_next _ Hi) as H0.
  assert (wrapping_add u64_max (next_id st) 1 = next_id st + 1) as ->
    by (unfold wrapping_add; rewrite Z.mod_small; lia).
  assert (budgets st !! next_id st = None) as Hfree.
  { apply eq_None_not_Some. intros Hs%(exact_fresh_budget _ Hi). lia. }
  assert (registry_exact (st <| next_id := next_id st + 1 |>)) as Hi1
    by (apply exact_bump; [done|lia]).
  unfold tenant_entry. cbn. destruct (tenants st !! tenant) as [e0|] eqn:He; cbn.
  - intros [= <- <-]. rewrite (prune_exact _ tenant e0 Hi1 He), (insert_id _ _ _ He).
    cbn. by eauto 10.
  - intros [= <- <-].
    pose proof (exact_new_entry _ tenant (next_id st) (sem_new TENANT_BYTES) Hi1 He Hfree
      ltac:(cbn; lia)) as Hi2.
    rewrite prune_empty. split; [exact Hi2|]. cbn. rewrite lookup_insert_eq. by eauto 10.
Qed.

Lemma exact_add st tenant e id auth :
  registry_exact st → tenants st !! tenant = Some e → live st !! id = None → id < next_id st →
  registry_exact
    (st <| tenants := <[tenant := e <| entry_sessions := {[id]} ∪ entry_sessions e |>]> (tenants st) |>
        <| live := <[id := mkTenantSession tenant (entry_budget e) auth false]> (live st) |>).
Proof.
  intros Hi He Hid Hn. split; cbn.
  - intros x s [[<- <-]|[Hne Hs]]%lookup_insert_Some; cbn.
    + rewrite lookup_insert_eq. eexists. split; [done|]. cbn. set_solver.
    + destruct (exact_registered _ Hi _ _ Hs) as (e' & He' & Hx & Hb).
      destruct (decide (tenant = session_tenant s)) as [->|Hne'].
      * rewrite lookup_insert_eq. eexists. split; [done|]. cbn. simplify_eq. set_solver.
      * rewrite lookup_insert_ne by done. eauto.
  - intros t e' x [[<- <-]|[Hne He']]%lookup_insert_Some; cbn.
    + intros [->%elem_of_singleton|Hx]%elem_of_union; [by simplify_map_eq; eauto|].
      destruct (exact_live _ Hi _ _ _ He Hx) as (s & Hs & Ht). exists s.
      rewrite lookup_insert_ne; [done|congruence].
    + intros Hx. destruct (exact_live _ Hi _ _ _ He' Hx) as (s & Hs & Ht). exists s.
      rewrite lookup_insert_ne; [done|congruence].
  - apply (exact_next _ Hi).
  - intros x [s [[<- _]|[_ Hs]]%lookup_insert_Some]; [done|].
    apply (exact_fresh _ Hi). eauto.
  - intros t e' [[<- <-]|[_ He']]%lookup_insert_Some; cbn; by eapply (exact_budget _ Hi).
  - apply (exact_fresh_budget _ Hi).
  - intros t t' e1 e2 [[<- <-]|[_ H1]]%lookup_insert_Some [[<- <-]|[_ H2]]%lookup_insert_Some;
      cbn; try done; by eapply (exact_separate _ Hi).
Qed.

(** Only the shape of the registry matters: the entries, the identifiers in
    use, and which sessions and budgets exist. *)
Lemma exact_same st st' :
  registry_exact st → tenants st' = tenants st → next_id st' = next_id st →
  (∀ b, is_Some (budgets st' !! b) ↔ is_Some (budgets st !! b)) →
  (∀ id, (λ s, (session_tenant s, session_budget s)) <$> live st' !! id =
         (λ s, (session_tenant s, session_budget s)) <$> live st !! id) →
  registry_exact st'.
Proof.
  intros Hi Et En Eb El.
  assert (∀ id s, live st !! id = Some s → ∃ s', live st' !! id = Some s' ∧
            session_tenant s' = session_tenant s) as Hfwd.
  { intros id s Hs. specialize (El id). rewrite Hs in El.
    apply fmap_Some in El as (s' & Hs' & [= ? ?]). eauto. }
  assert (∀ id s', live st' !! id = Some s' → ∃ s, live st !! id = Some s ∧
            session_tenant s = session_tenant s' ∧ session_budget s = session_budget s') as Hbwd.
  { intros id s' Hs'. specialize (El id). rewrite Hs' in El. symmetry in El.
    apply fmap_Some in El as (s & Hs & [= ? ?]). eauto. }
  split; rewrite ?Et, ?En; try apply Hi.
  - intros id s' (s & Hs & <- & <-)%Hbwd. by apply (exact_registered _ Hi).
  - intros t e id He Hid. destruct (exact_live _ Hi _ _ _ He Hid) as (s & Hs & <-).
    by apply Hfwd.
  - intros id [s' (s & Hs & _)%Hbwd]. apply (exact_fresh _ Hi). eauto.
  - intros t e He. by apply Eb, (exact_budget _ Hi t).
  - intros b Hs. apply (exact_fresh_budget _ Hi). by apply Eb.
Qed.

Lemma exact_cancel st id : registry_exact st → registry_exact (cancel_session id st).
Proof.
  intros Hi. apply (exact_same st); try done. intros x. unfold cancel_session. cbn.
  destruct (decide (id = x)) as [<-|]; [|by rewrite lookup_alter_ne].
  rewrite lookup_alter_eq. by destruct (live st !! id).
Qed.

Lemma exact_shrink st st' id :
  registry_exact st → live st' = delete id (live st) → next_id st' = next_id st →
  budgets st' = budgets st →
  (∀ t e', tenants st' !! t = Some e' → ∃ e, tenants st !! t = Some e ∧
     entry_budget e' = entry_budget e ∧ entry_sessions e' = entry_sessions e ∖ {[id]}) →
  (∀ t e x, tenants st !! t = Some e → x ∈ entry_sessions e → x ≠ id → is_Some (tenants st' !! t)) →
  registry_exact st'.
Proof.
  intros Hi El En Eb Hback Hkept. split; rewrite ?El, ?En, ?Eb; try apply Hi.
  - intros x s [Hne Hs]%lookup_delete_Some.
    destruct (exact_registered _ Hi _ _ Hs) as (e & He & Hx & Hb).
    destruct (Hkept _ _ x He Hx ltac:(congruence)) as [e' He'].
    destruct (Hback _ _ He') as (e0 & He0 & Hb' & Hs'). simplify_eq.
    exists e'. split_and!; [done|set_solver|congruence].
  - intros t e' x He' Hx. destruct (Hback _ _ He') as (e & He & _ & Hs'). rewrite Hs' in Hx.
    destruct (exact_live _ Hi _ _ x He ltac:(set_solver)) as (s & Hs & Ht).
    exists s. split; [|done]. apply lookup_delete_Some. set_solver.
  - intros x [s [_ Hs]%lookup_delete_Some]. apply (exact_fresh _ Hi). eauto.
  - intros t e' (e & He & -> & _)%Hback. by apply (exact_budget _ Hi t).
  - intros t t' e1 e2 (e & He & -> & _)%Hback (e' & He' & -> & _)%Hback.
    by eapply (exact_separate _ Hi).
Qed.

Lemma exact_drop st id : registry_exact st → registry_exact (drop_session id st).
Proof.
  intros Hi. unfold drop_session. destruct (live st !! id) as [s|] eqn:Hs; [|done].
  destruct (exact_registered _ Hi _ _ Hs) as (e & He & Hid & Hb). cbn. rewrite He.
  assert (∀ t e', tenants st !! t = Some e' → t ≠ session_tenant s →
            entry_sessions e' = entry_sessions e' ∖ {[id]}) as Hother.
  { intros t e' He' Hne. apply leibniz_equiv. intros x. rewrite elem_of_difference.
    split; [|naive_solver]. intros Hx. split; [done|]. intros ->%elem_of_singleton.
    destruct (exact_live _ Hi _ _ _ He' Hx) as (s' & Hs' & Ht). congruence. }
  case_bool_decide as Hempty; apply (exact_shrink st _ id Hi); try done; cbn in *.
  - intros t e' [Hne He']%lookup_delete_Some. exists e'. by eauto.
  - intros t e' x He' Hx Hne.
    destruct (decide (session_tenant s = t)) as [<-|]; [|by simplify_map_eq].
    simplify_eq. set_solver.
  - intros t e' [[<- <-]|[Hne He']]%lookup_insert_Some; [by eauto|]. exists e'. by eauto.
  - intros t e' x He' Hx Hne. rewrite lookup_insert. case_decide; eauto.
Qed.

Lemma exact_insert tenant limit auth st r st' :
  registry_exact st → next_id st < u64_max → insert_session tenant limit auth st = (r, st') →
  registry_exact st'.
Proof.
  intros Hi Hn. unfold insert_session.
  destruct (tenant_entry _ _ _) as [e st1] eqn:E.
  apply tenant_entry_exact in E as (Hi1 & He & Hl & Hn1 & _); [|done..].
  destruct (negb _); intros [= <- <-]; [done|].
  apply (exact_add _ _ _ _ auth Hi1 He); [|lia]. rewrite Hl.
  apply eq_None_not_Some. intros Hs%(exact_fresh _ Hi). lia.
Qed.

Lemma exact_refresh st t e :
  registry_exact st → tenants st !! t = Some e →
  registry_exact (st <| tenants := <[t := prune_dropped_sessions st e]> (tenants st) |>).
Proof.
  intros Hi He. rewrite (prune_exact _ _ _ Hi He). apply (exact_same st); try done. cbn.
  by rewrite insert_id.
Qed.

Lemma exact_authenticate id limit st r st' :
  registry_exact st → authenticate id limit st = (r, st') → registry_exact st'.
Proof.
  intros Hi. unfold authenticate. destruct (live st !! id) as [s|] eqn:Hs; [|by intros [= _ <-]].
  repeat case_match; intros [= _ <-]; try done.
  apply (exact_same st); try done. cbn. intros x. destruct (decide (id = x)) as [<-|].
  - by rewrite lookup_insert_eq, Hs.
  - by rewrite lookup_insert_ne.
Qed.

Lemma cancel_collect_exact tenant st ids st' :
  registry_exact st → cancel_collect tenant st = (ids, st') → registry_exact st'.
Proof.
  intros Hi. unfold cancel_collect. destruct (tenants st !! tenant) as [e|] eqn:He;
    intros [= _ <-]; [by apply exact_refresh|done].
Qed.

Lemma reserve_same b n st ok st' :
  reserve_bytes b n st = (ok, st') →
  tenants st' = tenants st ∧ next_id st' = next_id st ∧ live st' = live st ∧
  ∀ x, is_Some (budgets st' !! x) ↔ is_Some (budgets st !! x).
Proof.
  unfold reserve_bytes. destruct (_ <? _); [by intros [= _ <-]|].
  destruct (budgets st !! b) as [s|] eqn:Hb; [|by intros [= _ <-]].
  assert (∀ y x, is_Some (<[b := y]> (budgets st) !! x) ↔ is_Some (budgets st !! x)) as Hins.
  { intros y x. rewrite lookup_insert. case_decide; [|done]. subst. rewrite Hb.
    split; intros _; eauto. }
  destruct (try_acquire_many n s) as [s1|]; [|by intros [= _ <-]].
  destruct (try_acquire_many n (global_budget st)); intros [= _ <-]; cbn; split_and!; done.
Qed.

Lemma session_step_exact allowed w w' :
  session_step allowed w w' → registry_exact (registry w) → registry_exact (registry w').
Proof.
  destruct 1 as [tenant limit auth r st st' ids rs ? _ Hins|id s limit r st st' ids rs _ _ Ha
    |tenant st ids rs|tenant st ids new st' rs Hc|id ids ids' st rs|id st ids rs
    |b n ok st st' ids rs _ _ Hr|b n st ids rs rs']; cbn; intros Hi.
  - by eapply exact_insert.
  - by eapply exact_authenticate.
  - unfold active. destruct (tenants st !! tenant) as [e|] eqn:He; [|done].
    by apply exact_refresh.
  - by eapply cancel_collect_exact.
  - by apply exact_cancel.
  - by apply exact_drop.
  - apply reserve_same in Hr as (Et & En & El & Eb). apply (exact_same st); try done.
    by rewrite El.
  - apply (exact_same st); try done. intros x. cbn. destruct (decide (b = x)) as [<-|].
    + rewrite lookup_alter_eq. destruct (budgets st !! b); split; intros [? ?]; eauto.
    + by rewrite lookup_alter_ne.
Qed.

Lemma sessions_reachable_exact allowed capacity w :
  sessions_reachable allowed capacity w → registry_exact (registry w).
Proof.
  apply (rtc_ind_r (λ w, registry_exact (registry w))); [apply exact_new|].
  intros w1 w2 _ Hs IH. by eapply session_step_exact.
Qed.

(** ** The connection limit *)

(** An operation that changes at most one session, and authenticates it only
    within the limit. *)
Lemma live_authenticated_insert st st' t id s :
  live st' = <[id := s]> (live st) →
  (live_authenticated st' t ≤ live_authenticated st t + 1)%nat ∧
  (session_tenant s ≠ t ∨ authenticated s = false ∨
     (∃ s0, live st !! id = Some s0 ∧ session_tenant s0 = t ∧ authenticated s0 = true) →
   (live_authenticated st' t ≤ live_authenticated st t)%nat).
Proof.
  intros E. unfold live_authenticated. rewrite E, map_filter_insert. cbn.
  set (P := λ kv : Z * TenantSession, session_tenant kv.2 = t ∧ authenticated kv.2 = true).
  assert (size (filter P (delete id (live st))) ≤ size (filter P (live st)))%nat as Hdel.
  { apply map_subseteq_size, map_filter_subseteq_mono, delete_subseteq. }
  destruct (decide _) as [[Ht Ha]|Hn]; [|split; [lia|done]].
  assert (size (<[id := s]> (filter P (live st))) ≤ size (filter P (live st)) + 1)%nat as Hins.
  { rewrite map_size_insert. destruct (filter P (live st) !! id); unfold Datatypes.id; lia. }
  split; [done|]. intros [?|[?|(s0 & Hs0 & Ht0 & Ha0)]]; [congruence..|].
  rewrite map_size_insert_Some; [done|]. exists s0. by apply map_lookup_filter_Some.
Qed.

Lemma insert_session_limit tenant limit auth st r st' t :
  registry_exact st → next_id st < u64_max → insert_session tenant limit auth st = (r, st') →
  (live_authenticated st' t ≤ live_authenticated st t)%nat ∨
  t = tenant ∧ auth = true ∧
  (∀ n, limit = Some n → Z.of_nat (live_authenticated st' t) ≤ n).
Proof.
  intros Hi Hn. unfold insert_session.
  destruct (tenant_entry _ _ _) as [e st1] eqn:E.
  apply tenant_entry_exact in E as (Hi1 & He & Hl & _); [|done..].
  assert (live_authenticated st1 t = live_authenticated st t) as Hsame
    by (unfold live_authenticated; by rewrite Hl).
  destruct (within_limit st1 e limit) eqn:Hw; cbn [negb]; intros [= <- <-]; [|left; lia].
  set (st2 := _ <| live := _ |>).
  destruct (live_authenticated_insert st1 st2 t (next_id st)
    (mkTenantSession tenant (entry_budget e) auth false) eq_refl) as [H1 H2].
  destruct (decide (tenant = t)) as [<-|Hne]; [|left; rewrite <-Hsame; apply H2; by left].
  destruct auth; [|left; rewrite <-Hsame; apply H2; by right; left].
  right. split_and!; [done..|]. intros n ->. cbn in Hw. apply Z.ltb_lt in Hw.
  rewrite (count_exact _ _ _ Hi1 He) in Hw. lia.
Qed.

Lemma authenticate_limit id s limit st r st' t :
  registry_exact st → live st !! id = Some s → authenticate id limit st = (r, st') →
  (live_authenticated st' t ≤ live_authenticated st t)%nat ∨
  t = session_tenant s ∧
  (∀ n, limit = Some n → Z.of_nat (live_authenticated st' t) ≤ n).
Proof.
  intros Hi Hs. unfold authenticate. rewrite Hs.
  destruct (exact_registered _ Hi _ _ Hs) as (e & He & _ & _). rewrite He.
  destruct (cancelled s); [intros [= _ <-]; by left|].
  destruct (authenticated s) eqn:Ha; [intros [= _ <-]; by left|].
  destruct (within_limit st e limit) eqn:Hw; cbn [negb]; intros [= _ <-]; [|by left].
  set (st1 := _ <| live := _ |>).
  destruct (live_authenticated_insert st st1 t id (s <| authenticated := true |>) eq_refl)
    as [H1 H2].
  destruct (decide (session_tenant s = t)) as [<-|Hne]; [|left; apply H2; by left].
  right. split; [done|]. intros n ->. cbn in Hw. apply Z.ltb_lt in Hw.
  rewrite (count_exact _ _ _ Hi He) in Hw. lia.
Qed.

(** The steps that neither open nor authenticate a session. *)
Lemma live_authenticated_mono st st' t :
  (∀ id s', live st' !! id = Some s' → ∃ s, live st !! id = Some s ∧
     session_tenant s = session_tenant s' ∧ authenticated s = authenticated s') →
  (live_authenticated st' t ≤ live_authenticated st t)%nat.
Proof.
  intros Hl. unfold live_authenticated. rewrite <-!size_dom. apply subseteq_size.
  intros id. rewrite !elem_of_dom. intros [s' (Hs' & Ht & Ha)%map_lookup_filter_Some].
  destruct (Hl _ _ Hs') as (s & Hs & Et & Ea). exists s. apply map_lookup_filter_Some.
  cbn in *. split; [done|]. split; congruence.
Qed.

(** C29. The connection limit of a tenant holds.  As long as every session of the
    tenant that is authenticated is checked against a limit of at most [n],
    whether when it is opened or after a pending login, there are never more
    than [n] live authenticated sessions, whatever the interleaving of opens,
    logins, cancellations and drops. *)
Theorem connection_limit_holds allowed capacity tenant n w :
  0 ≤ n →
  (∀ limit, allowed tenant limit → ∃ k, limit = Some k ∧ k ≤ n) →
  sessions_reachable allowed capacity w →
  Z.of_nat (live_authenticated (registry w) tenant) ≤ n.
Proof.
  intros Hn Hal Hr.
  enough (registry_exact (registry w) ∧
          Z.of_nat (live_authenticated (registry w) tenant) ≤ n) by tauto.
  revert Hr. apply (rtc_ind_r (λ w, registry_exact (registry w) ∧
          Z.of_nat (live_authenticated (registry w) tenant) ≤ n)).
  { split; [apply exact_new|]. unfold live_authenticated. cbn.
    by rewrite map_filter_empty, map_size_empty. }
  intros w1 w2 _ Hs [Hi IH]. split; [by eapply session_step_exact|].
  destruct Hs as [t limit auth r st st' ids rs Hid Hau Hins|id s limit r st st' ids rs Hl Hau Ha
    |t st ids rs|t st ids new st' rs Hc|id ids ids' st rs|id st ids rs
    |b k ok st st' ids rs _ _ Hre|b k st ids rs rs']; cbn in *.
  - destruct (insert_session_limit _ _ _ _ _ _ tenant Hi Hid Hins) as [?|(-> & Ht & Hlim)]; [lia|].
    destruct (Hal _ (Hau Ht)) as (k & -> & Hk). specialize (Hlim _ eq_refl). lia.
  - destruct (authenticate_limit _ _ _ _ _ _ tenant Hi Hl Ha) as [?|(-> & Hlim)]; [lia|].
    destruct (Hal _ Hau) as (k & -> & Hk). specialize (Hlim _ eq_refl). lia.
  - unfold active. by destruct (tenants st !! t).
  - unfold cancel_collect in Hc. destruct (tenants st !! t); injection Hc as _ <-; done.
  - etrans; [|exact IH]. apply Nat2Z.inj_le, live_authenticated_mono. cbn. intros x s'.
    destruct (decide (id = x)) as [<-|]; [|rewrite lookup_alter_ne by done; eauto].
    rewrite lookup_alter_eq. intros (s & Hs & ->)%fmap_Some. eauto.
  - etrans; [|exact IH]. apply Nat2Z.inj_le, live_authenticated_mono. intros x s'.
    unfold drop_session. destruct (live st !! id); [|eauto].
    assert (∀ m : gmap Z TenantSession, delete id m !! x = Some s' → ∃ s, m !! x = Some s ∧
      session_tenant s = session_tenant s' ∧ authenticated s = authenticated s') as Hd
      by (intros m [_ ?]%lookup_delete_Some; eauto).
    repeat case_match; cbn; apply Hd.
  - apply reserve_same in Hre as (_ & _ & El & _). unfold live_authenticated. by rewrite El.
  - done.
Qed.

(** ** Cancellation *)

Lemma foldr_cancel_lookup ids (st : Sessions Sem) id :
  live (foldr cancel_session st ids) !! id =
  (λ s, if bool_decide (id ∈ ids) then s <| cancelled := true |> else s) <$> live st !! id.
Proof.
  induction ids as [|x ids IH]; cbn [foldr].
  - rewrite bool_decide_eq_false_2 by set_solver. by destruct (live st !! id).
  - unfold cancel_session at 1. cbn. destruct (decide (x = id)) as [->|Hne].
    + rewrite lookup_alter_eq, IH, (bool_decide_eq_true_2 (id ∈ id :: ids)) by set_solver.
      destruct (live st !! id); cbn; [|done]. by case_bool_decide.
    + rewrite lookup_alter_ne, IH by done.
      by rewrite (bool_decide_ext (id ∈ x :: ids) (id ∈ ids)) by set_solver.
Qed.

Lemma cancel_collect_ids tenant st ids st' :
  registry_exact st → cancel_collect tenant st = (ids, st') →
  live st' = live st ∧ next_id st' = next_id st ∧ NoDup ids ∧
  (∀ id, id ∈ ids ↔ ∃ s, live st !! id = Some s ∧ session_tenant s = tenant).
Proof.
  intros Hi. unfold cancel_collect. destruct (tenants st !! tenant) as [e|] eqn:He.
  - rewrite (prune_exact _ _ _ Hi He). intros [= <- <-]. cbn. split_and!; [done..|apply NoDup_elements|].
    intros id. rewrite elem_of_elements. split.
    + apply (exact_live _ Hi _ _ _ He).
    + intros (s & Hs & Ht). destruct (exact_registered _ Hi _ _ Hs) as (e' & He' & Hid & _).
      by simplify_eq.
  - intros [= <- <-]. split_and!; [done..|constructor|]. intros id. split; [by intros ?%elem_of_nil|].
    intros (s & Hs & Ht). destruct (exact_registered _ Hi _ _ Hs) as (e & He' & _). congruence.
Qed.

Lemma foldr_cancel_next ids (st : Sessions Sem) : next_id (foldr cancel_session st ids) = next_id st.
Proof. by induction ids. Qed.

(** [cancel] marks the live sessions of the tenant, and no others. *)
Lemma cancel_live tenant st n st' :
  registry_exact st → cancel tenant st = (n, st') →
  (∀ id, live st' !! id =
     (λ s, if bool_decide (session_tenant s = tenant) then s <| cancelled := true |> else s)
       <$> live st !! id) ∧
  next_id st' = next_id st ∧ registry_exact st'.
Proof.
  intros Hi. unfold cancel. destruct (cancel_collect tenant st) as [ids st1] eqn:Hc.
  pose proof (cancel_collect_exact _ _ _ _ Hi Hc) as Hi1.
  apply cancel_collect_ids in Hc as (El & En & _ & Hids); [|done]. intros [= _ <-]. split_and!.
  - intros id. rewrite foldr_cancel_lookup, El. destruct (live st !! id) as [s|] eqn:Hs; [|done].
    cbn. rewrite (bool_decide_ext (id ∈ ids) (session_tenant s = tenant)); [done|].
    rewrite Hids. naive_solver.
  - by rewrite foldr_cancel_next.
  - clear -Hi1. induction ids; cbn [foldr]; [done|by apply exact_cancel].
Qed.

(** A session that was cancelled is gone or still cancelled. *)
Definition shut_out (id : Z) (st : Sessions Sem) : Prop :=
  id < next_id st ∧ ∀ s, live st !! id = Some s → cancelled s = true.

Lemma session_step_shut_out allowed w w' id :
  registry_exact (registry w) → session_step allowed w w' →
  shut_out id (registry w) → shut_out id (registry w').
Proof.
  intros Hi Hs. unfold shut_out.
  destruct Hs as [t limit auth r st st' ids rs Hid _ Hins|x s limit r st st' ids rs _ _ Ha
    |t st ids rs|t st ids new st' rs Hc|x ids ids' st rs|x st ids rs
    |b k ok st st' ids rs _ _ Hre|b k st ids rs rs']; cbn in *; intros [Hn Hc'].
  - unfold insert_session in Hins. destruct (tenant_entry _ _ _) as [e st1] eqn:E.
    apply tenant_entry_exact in E as (_ & _ & El & En & _); [|done..].
    destruct (negb _); injection Hins as _ <-; cbn; rewrite El, En; (split; [lia|done]) ||
      (split; [lia|]; intros s; rewrite lookup_insert_ne by lia; apply Hc').
  - unfold authenticate in Ha. destruct (live st !! x) as [y|] eqn:Hx; [|by injection Ha as _ <-].
    destruct (cancelled y) eqn:Hcy.
    { repeat case_match; injection Ha as _ <-; done. }
    repeat case_match; injection Ha as _ <-; try done. cbn. split; [done|].
    intros z [[-> <-]|[_ Hz]]%lookup_insert_Some; [|by apply Hc'].
    specialize (Hc' _ Hx). congruence.
  - unfold active. by destruct (tenants st !! t).
  - apply cancel_collect_ids in Hc as (-> & -> & _); done.
  - split; [done|]. intros s. destruct (decide (x = id)) as [->|].
    + rewrite lookup_alter_eq. by intros (y & _ & ->)%fmap_Some.
    + rewrite lookup_alter_ne by done. apply Hc'.
  - unfold drop_session. destruct (live st !! x); [|done].
    assert (∀ s, delete x (live st) !! id = Some s → cancelled s = true) as Hd
      by (intros s [_ ?]%lookup_delete_Some; by apply Hc').
    by repeat case_match.
  - apply reserve_same in Hre as (_ & -> & -> & _). done.
  - done.
Qed.

(** Cancelling a tenant closes its sessions for good.  [cancel] reports the
    number of live sessions of the tenant and marks exactly those; the sessions
    of other tenants are untouched; and no session that was live then can be
    authenticated at any later time. *)
Theorem cancelled_sessions_stay_out allowed capacity w tenant n st' :
  sessions_reachable allowed capacity w →
  cancel tenant (registry w) = (n, st') →
  n = size (filter (λ kv, session_tenant kv.2 = tenant) (live (registry w))) ∧
  (∀ id, live st' !! id =
     (λ s, if bool_decide (session_tenant s = tenant) then s <| cancelled := true |> else s)
       <$> live (registry w) !! id) ∧
  (∀ id s ids rs w', live (registry w) !! id = Some s → session_tenant s = tenant →
     rtc (session_step allowed) (mkSessionWorld st' ids rs) w' →
     ∀ limit, (authenticate id limit (registry w')).1 = Err SessionAborted).
Proof.
  intros Hi%sessions_reachable_exact Hcancel.
  destruct (cancel_live _ _ _ _ Hi Hcancel) as (Hlive & En & Hi2). revert Hcancel. unfold cancel.
  destruct (cancel_collect tenant (registry w)) as [ids st1] eqn:Hc.
  apply cancel_collect_ids in Hc as (_ & _ & Hnd & Hids); [|done]. intros [= <- <-].
  split_and!; [|done|].
  - rewrite <-size_dom, <-(size_list_to_set (C := gset Z) _ Hnd). f_equal. apply leibniz_equiv.
    intros id. rewrite elem_of_list_to_set, Hids, elem_of_dom. split.
    + intros (s & Hs & Ht). exists s. by apply map_lookup_filter_Some.
    + intros (s & (Hs & Ht)%map_lookup_filter_Some). eauto.
  - intros id s xs rs w' Hs Ht Hrun limit.
    assert (registry_exact (registry w') ∧ shut_out id (registry w')) as [_ [_ Hout]].
    { revert Hrun. apply (rtc_ind_r (λ w', registry_exact (registry w') ∧
        shut_out id (registry w'))).
      - split; [done|]. split; cbn; [|intros y; rewrite Hlive, Hs; cbn].
        + rewrite En. apply (exact_fresh _ Hi). eauto.
        + rewrite bool_decide_eq_true_2 by done. by intros [= <-].
      - intros w1 w2 _ Hstep [He Ho]. split; [by eapply session_step_exact|].
        by eapply session_step_shut_out. }
    unfold authenticate. destruct (live (registry w') !! id) as [y|] eqn:Hy; [|done].
    rewrite (Hout y eq_refl). by destruct (tenants _ !! _).
Qed.

(** ** Buffered bytes *)

Definition total_bytes (rs : list (Z * Z)) : Z := foldr (λ r n, r.2 + n) 0 rs.
Definition bytes_of (b : Z) (rs : list (Z * Z)) : Z :=
  foldr (λ r n, (if bool_decide (r.1 = b) then r.2 else 0) + n) 0 rs.

Lemma total_bytes_remove rs b n rs' :
  total_bytes (rs ++ (b, n) :: rs') = n + total_bytes (rs ++ rs').
Proof. induction rs as [|r rs IH]; cbn; [done|]. unfold total_bytes in *. cbn in *. lia. Qed.

Lemma bytes_of_remove x rs b n rs' :
  bytes_of x (rs ++ (b, n) :: rs') =
  (if bool_decide (b = x) then n else 0) + bytes_of x (rs ++ rs').
Proof. induction rs as [|r rs IH]; cbn; [done|]. unfold bytes_of in *. cbn in *. lia. Qed.

Lemma bytes_of_none b rs :
  Forall (λ r : Z * Z, r.1 ≠ b) rs → bytes_of b rs = 0.
Proof.
  induction 1 as [|r rs Hr _ IH]; cbn; [done|]. unfold bytes_of in IH.
  rewrite bool_decide_eq_false_2 by done. lia.
Qed.

Lemma bytes_of_cons x b n rs :
  bytes_of x ((b, n) :: rs) = (if bool_decide (b = x) then n else 0) + bytes_of x rs.
Proof. done. Qed.

Lemma total_bytes_cons b n rs : total_bytes ((b, n) :: rs) = n + total_bytes rs.
Proof. done. Qed.

#[local] Arguments bytes_of : simpl never.
#[local] Arguments total_bytes : simpl never.

Context `{!SemaphoreLaws Sem}.

(** Every permit is available or held by a reservation. *)
Record permits_exact (capacity : Z) (w : SessionWorld) : Prop := {
  permits_tenant b s : budgets (registry w) !! b = Some s →
    0 ≤ available_permits s ∧ available_permits s + bytes_of b (reservations w) = TENANT_BYTES;
  permits_global : 0 ≤ available_permits (global_budget (registry w)) ∧
    available_permits (global_budget (registry w)) + total_bytes (reservations w) = capacity;
  permits_held : Forall (λ r, 0 ≤ r.2 ∧ is_Some (budgets (registry w) !! r.1)) (reservations w);
}.

(** Steps that leave the budgets alone. *)
Lemma permits_same capacity st st' ids ids' rs :
  budgets st' = budgets st → global_budget st' = global_budget st →
  permits_exact capacity (mkSessionWorld st ids rs) →
  permits_exact capacity (mkSessionWorld st' ids' rs).
Proof. intros Eb Eg []. by split; cbn in *; rewrite ?Eb, ?Eg. Qed.

Lemma permits_insert capacity tenant limit auth r st st' ids rs :
  registry_exact st → next_id st < u64_max → insert_session tenant limit auth st = (r, st') →
  permits_exact capacity (mkSessionWorld st ids rs) →
  permits_exact capacity (mkSessionWorld st' ids rs).
Proof.
  intros Hi Hn Hins Hp. unfold insert_session in Hins.
  destruct (tenant_entry _ _ _) as [e st1] eqn:E.
  apply tenant_entry_exact in E as (_ & _ & _ & _ & Eg & Eb); [|done..].
  assert (permits_exact capacity (mkSessionWorld st1 ids rs)) as Hp1.
  { destruct Eb as [Eb|[Hfree Eb]]; [by apply (permits_same capacity st st1 ids ids rs)|].
    destruct Hp as [H1 H2 H3]. cbn in *. split; cbn; rewrite ?Eb, ?Eg; [|done|].
    - intros b s [[<- <-]|[_ Hs]]%lookup_insert_Some; [|by apply H1].
      rewrite sem_new_available, bytes_of_none; [unfold TENANT_BYTES; lia|].
      eapply Forall_impl; [exact H3|]. intros [b n] [_ [x Hx]] Heq. cbn in *. congruence.
    - eapply Forall_impl; [exact H3|]. intros [b n] [? [x Hx]]. cbn in *. split; [done|].
      rewrite lookup_insert. case_decide; eauto. }
  destruct (negb _); injection Hins as _ <-; [done|].
  by apply (permits_same capacity st1 _ ids ids rs).
Qed.

Lemma permits_reserve capacity b n ok st st' ids rs :
  0 ≤ n → reserve_bytes b n st = (ok, st') →
  permits_exact capacity (mkSessionWorld st ids rs) →
  permits_exact capacity (mkSessionWorld st' ids (if ok then (b, n) :: rs else rs)).
Proof.
  intros Hn Hr Hp. unfold reserve_bytes in Hr.
  destruct (u32_max <? n); [by injection Hr as <- <-|].
  destruct (budgets st !! b) as [s|] eqn:Hb; [|by injection Hr as <- <-].
  pose proof (try_acquire_available n s) as Ht.
  destruct (try_acquire_many n s) as [s1|]; [|by injection Hr as <- <-].
  pose proof (try_acquire_available n (global_budget st)) as Hg.
  destruct Hp as [H1 H2 H3]. cbn in *. destruct (H1 _ _ Hb) as [Hpos Heq].
  assert (∀ y, Forall (λ r, 0 ≤ r.2 ∧ is_Some (<[b := y]> (budgets st) !! r.1)) rs) as H3'.
  { intros y. eapply Forall_impl; [exact H3|]. intros [c m] [? [x Hx]]. cbn in *.
    split; [done|]. rewrite lookup_insert. case_decide; eauto. }
  destruct (try_acquire_many n (global_budget st)) as [g|]; injection Hr as <- <-;
    split; cbn in *.
  - intros c x [[<- <-]|[Hne Hx]]%lookup_insert_Some.
    + rewrite bytes_of_cons, bool_decide_eq_true_2 by done. lia.
    + rewrite bytes_of_cons, bool_decide_eq_false_2 by done. by apply H1.
  - rewrite total_bytes_cons. lia.
  - constructor; [|by apply H3']. cbn. rewrite lookup_insert_eq. eauto.
  - intros c x [[<- <-]|[Hne Hx]]%lookup_insert_Some; [|by apply H1].
    rewrite add_permits_available. lia.
  - done.
  - apply H3'.
Qed.

Lemma permits_release capacity b n st ids rs rs' :
  permits_exact capacity (mkSessionWorld st ids (rs ++ (b, n) :: rs')) →
  permits_exact capacity (mkSessionWorld (release_bytes b n st) ids (rs ++ rs')).
Proof.
  intros [H1 H2 H3]. cbn in *.
  apply Forall_app in H3 as [H3a [[Hn Hb] H3b]%Forall_cons]. cbn in Hn, Hb.
  rewrite total_bytes_remove in H2. split; cbn.
  - intros c x Hx. destruct (decide (b = c)) as [<-|Hne].
    + rewrite lookup_alter_eq in Hx. apply fmap_Some in Hx as (s & Hs & ->).
      destruct (H1 _ _ Hs) as [Hpos Heq]. rewrite add_permits_available.
      rewrite bytes_of_remove, bool_decide_eq_true_2 in Heq by done. lia.
    + rewrite lookup_alter_ne in Hx by done. destruct (H1 _ _ Hx) as [Hpos Heq].
      rewrite bytes_of_remove, bool_decide_eq_false_2 in Heq by done. lia.
  - rewrite add_permits_available. lia.
  - eapply Forall_impl; [apply Forall_app; split; [exact H3a|exact H3b]|].
    intros [c m] [? Hs]. cbn in *. split; [done|].
    destruct (decide (b = c)) as [<-|]; [|by rewrite lookup_alter_ne].
    rewrite lookup_alter_eq. destruct Hs as [y ->]. eauto.
Qed.

Lemma session_step_permits allowed capacity w w' :
  session_step allowed w w' → registry_exact (registry w) →
  permits_exact capacity w → permits_exact capacity w'.
Proof.
  destruct 1 as [t limit auth r st st' ids rs Hid _ Hins|x s limit r st st' ids rs _ _ Ha
    |t st ids rs|t st ids new st' rs Hc|x ids ids' st rs|x st ids rs
    |b k ok st st' ids rs Hk _ Hre|b k st ids rs rs']; cbn; intros Hi.
  - by eapply permits_insert.
  - unfold authenticate in Ha. apply permits_same; repeat case_match; by injection Ha as _ <-.
  - unfold active. apply permits_same; by destruct (tenants st !! t).
  - unfold cancel_collect in Hc. apply permits_same;
      destruct (tenants st !! t); by injection Hc as _ <-.
  - by apply permits_same.
  - apply permits_same; unfold drop_session; by repeat case_match.
  - by apply permits_reserve.
  - apply permits_release.
Qed.

(** Buffered SQL commands stay within their budgets.  In every reachable
    state the bytes reserved by all tenants together are at most the configured
    budget and those of one tenant at most 32 MiB; a reservation is refused
    only when it does not fit one of them; and two live sessions share a budget
    exactly when they belong to the same tenant. *)
Theorem buffers_within_budget allowed capacity w :
  0 ≤ capacity → sessions_reachable allowed capacity w →
  total_bytes (reservations w) ≤ capacity ∧
  (∀ b, is_Some (budgets (registry w) !! b) → bytes_of b (reservations w) ≤ TENANT_BYTES) ∧
  (∀ b n st', is_Some (budgets (registry w) !! b) → 0 ≤ n ≤ u32_max →
     reserve_bytes b n (registry w) = (false, st') →
     TENANT_BYTES < bytes_of b (reservations w) + n ∨
     capacity < total_bytes (reservations w) + n) ∧
  (∀ id id' s s', live (registry w) !! id = Some s → live (registry w) !! id' = Some s' →
     session_budget s = session_budget s' ↔ session_tenant s = session_tenant s').
Proof.
  intros Hcap Hr.
  assert (registry_exact (registry w) ∧ permits_exact capacity w) as [Hi [H1 H2 H3]].
  { revert Hr. apply (rtc_ind_r (λ w, registry_exact (registry w) ∧ permits_exact capacity w)).
    - split; [apply exact_new|]. split; cbn; [by intros ?? ?%lookup_empty_Some| |constructor].
      rewrite sem_new_available. change (total_bytes []) with 0. lia.
    - intros w1 w2 _ Hs [Hi Hp]. split; [by eapply session_step_exact|].
      by eapply session_step_permits. }
  split_and!.
  - lia.
  - intros b [s Hs]. destruct (H1 _ _ Hs). lia.
  - intros b n st' [s Hs] Hn. unfold reserve_bytes.
    destruct (Z.ltb_spec u32_max n); [lia|]. rewrite Hs. destruct (H1 _ _ Hs).
    pose proof (try_acquire_available n s) as Ht.
    destruct (try_acquire_many n s); [|left; lia].
    pose proof (try_acquire_available n (global_budget (registry w))) as Hg.
    destruct (try_acquire_many n (global_budget (registry w))); [done|]. right. lia.
  - intros id id' s s' Hs Hs'.
    destruct (exact_registered _ Hi _ _ Hs) as (e & He & _ & <-).
    destruct (exact_registered _ Hi _ _ Hs') as (e' & He' & _ & <-).
    split; [by eapply (exact_separate _ Hi)|]. intros Ht. rewrite Ht in He. by simplify_eq.
Qed.
End runs.

(** ** Examples *)

Module SessionsDemo.

(** Two tenants with a limit of one connection each. *)
Definition demo_allowed (tenant : string) (limit : option Z) : Prop := limit = Some 1.

Definition demo_opened : Sessions Z := (try_open "a" (Some 1) (sessions_new 100)).2.
Definition demo_pending : Sessions Z := (open_pending "a" demo_opened).2.

Definition demo_reserved : Sessions Z := (reserve_bytes 0 60 demo_pending).2.

Definition demo_session_world : SessionWorld (Sem := Z) :=
  mkSessionWorld demo_reserved [] [(0, 60)].

Lemma demo_sessions_reachable : sessions_reachable demo_allowed 100 demo_session_world.
Proof.
  eapply rtc_l.
  { eapply (step_open _ "a" (Some 1) true (Ok 0) (sessions_new 100) demo_opened); try done. }
  eapply rtc_l.
  { eapply (step_open _ "a" None false (Ok 1) demo_opened demo_pending); try done. }
  eapply rtc_l.
  { eapply (step_reserve _ 0 60 true demo_pending demo_reserved); [lia|by vm_compute; eauto|done]. }
  apply rtc_refl.
Qed.

End SessionsDemo.

Import SessionsDemo.

Lemma connection_limit_holds_witness :
  Z.of_nat (live_authenticated (registry demo_session_world) "a") ≤ 1.
Proof.
  apply (connection_limit_holds demo_allowed 100 "a" 1 demo_session_world).
  - lia.
  - intros limit ->. exists 1. split; [reflexivity|lia].
  - exact demo_sessions_reachable.
Defined.

Lemma cancelled_sessions_stay_out_witness :
  2%nat = size (filter (λ kv, session_tenant kv.2 = "a") (live (registry demo_session_world))).
Proof.
  refine (proj1 (cancelled_sessions_stay_out demo_allowed 100 demo_session_world "a" 2
    (cancel "a" (registry demo_session_world)).2 demo_sessions_reachable _)).
  vm_compute. reflexivity.
Defined.

Lemma buffers_within_budget_witness : total_bytes (reservations demo_session_world) ≤ 100.
Proof.
  refine (proj1 (buffers_within_budget demo_allowed 100 demo_session_world _
    demo_sessions_reachable)).
  lia.
Defined.
