(* ===== verification/Resolver.v ===== *)
(** * Resolving a route and opening its session

    Models [gateway/resolver.rs] and the last phase of
    [gateway/listeners/postgres_listener.rs]: how the route tables of
    [RouteStore] and the session registry of [Sessions] are used together while
    other tasks change both.

    An asynchronous function of the resolver is a [Task]: a program that reads
    the store at each of its awaits and opens, authenticates and drops sessions
    in between.  [gateway_step] runs the tasks of all clients interleaved with
    each other, with route changes and with cancellations; [run_task] runs one
    task alone, on the states of the store it sees at its awaits.  The handles
    for traffic and activity counters are left out of a resolved route. *)
From S2P Require Import Prelude Engines RouteStore Sessions.

Local Open Scope Z_scope.

(** ** Tasks *)

(** The awaits of a resolution: the lookup, the lookup without a database, and
    the two checks that the route is still the current one. *)
Inductive Await := AtLookup | AtRetry | AtCheck | AtRecheck.

(** [held] is the session in scope at an await: it is dropped with the future
    when the client goes away there. *)
Inductive Task (A : Type) :=
  | Ret (a : A)
  | Look {B : Type} (point : Await) (held : option Z) (ask : InstanceState → B) (k : B → Task A)
  | OpenSession (tenant : string) (limit : option Z) (auth : bool) (k : result SessionError Z → Task A)
  | Authenticate (session : Z) (limit : option Z) (k : result SessionError unit → Task A)
  | DropSession (session : Z) (k : Task A).
Arguments Ret {A} _.
Arguments Look {A B} _ _ _ _.
Arguments OpenSession {A} _ _ _ _.
Arguments Authenticate {A} _ _ _.
Arguments DropSession {A} _ _.

#[export] Instance Task_ret : MRet Task := λ A, Ret.
#[export] Instance Task_bind : MBind Task := λ A B f,
  fix go t :=
    match t with
    | Ret a => f a
    | Look p held ask k => Look p held ask (λ b, go (k b))
    | OpenSession tenant limit auth k => OpenSession tenant limit auth (λ r, go (k r))
    | Authenticate session limit k => Authenticate session limit (λ r, go (k r))
    | DropSession session k => DropSession session (go k)
    end.

Definition look {B} (point : Await) (held : option Z) (ask : InstanceState → B) : Task B :=
  Look point held ask Ret.
Definition task_try_open (tenant : string) (limit : option Z) : Task (result SessionError Z) :=
  OpenSession tenant limit true Ret.
Definition task_open_pending (tenant : string) : Task (result SessionError Z) :=
  OpenSession tenant None false Ret.
Definition task_authenticate (session : Z) (limit : option Z) : Task (result SessionError unit) :=
  Authenticate session limit Ret.
Definition task_drop (session : Z) : Task unit := DropSession session (Ret tt).

Section run_task.
Context {Sem : Type} `{Semaphore Sem}.

Fixpoint run_task {A} (see : Await → InstanceState) (t : Task A) (reg : Sessions Sem) :
    A * Sessions Sem :=
  match t with
  | Ret a => (a, reg)
  | Look p _ ask k => run_task see (k (ask (see p))) reg
  | OpenSession tenant limit auth k =>
      let '(r, reg) := insert_session tenant limit auth reg in run_task see (k r) reg
  | Authenticate session limit k =>
      let '(r, reg) := authenticate session limit reg in run_task see (k r) reg
  | DropSession session k => run_task see k (drop_session session reg)
  end.

Lemma run_bind {A B} see (t : Task A) (f : A → Task B) reg :
  run_task see (t ≫= f) reg = run_task see (f (run_task see t reg).1) (run_task see t reg).2.
Proof.
  revert reg. induction t as [a|? p held ask k IH|tenant limit auth k IH|s limit k IH|s k IH]; intros reg; cbn.
  - done.
  - apply IH.
  - destruct (insert_session _ _ _ _). apply IH.
  - destruct (authenticate _ _ _). apply IH.
  - apply IH.
Qed.
End run_task.

(** ** The resolver *)

Record ResolvedRoute := mkResolvedRoute {
  resolved_instance_id : string;
  resolved_endpoint : BackendEndpoint;
  resolved_session : Z;
}.

Record PendingPostgresRoute := mkPendingPostgresRoute {
  pending_target : ResolvedRoute;
  pending_connection_limit : option Z;
  pending_revision : Z;
}.

Record ResolvedMariadbRoute := mkResolvedMariadbRoute {
  resolved_maria : MariadbRouteTarget;
  resolved_maria_session : Z;
}.

Record PendingMongodbRoute := mkPendingMongodbRoute {
  mongo_target : RouteTarget;
  mongo_username : string;
  mongo_database : string;
}.

Definition should_retry_without_database (p : Protocol) (user : string) (db : option string) :
    bool := is_driver_placeholder_database p user db.

(** A check that fails returns early, which drops the session. *)
Definition checked {A} (point : Await) (id : string) (revision session : Z) (rest : Task (option A)) :
    Task (option A) :=
  current ← look point (Some session) (λ st, route_is_current st id revision);
  if current : bool then rest else task_drop session ≫= λ _, mret None.

Definition finish_route (id : string) (endpoint : BackendEndpoint) (revision session : Z) :
    Task (option ResolvedRoute) :=
  checked AtCheck id revision session
    (checked AtRecheck id revision session
       (mret (Some (mkResolvedRoute id endpoint session)))).

Definition resolve_target (id : string) (endpoint : BackendEndpoint) (limit : option Z)
    (revision : Z) : Task (option ResolvedRoute) :=
  session ← task_try_open id limit;
  match session with
  | Ok session => finish_route id endpoint revision session
  | Err _ => mret None
  end.

Definition open_route (t : RouteTarget) : Task (option ResolvedRoute) :=
  resolve_target (target_instance_id t) (target_endpoint t) (target_connection_limit t)
    (target_revision t).

Definition resolve_mariadb_target (t : MariadbRouteTarget) : Task (option ResolvedMariadbRoute) :=
  session ← task_try_open (maria_instance_id t) (maria_connection_limit t);
  match session with
  | Err _ => mret None
  | Ok session =>
      checked AtCheck (maria_instance_id t) (maria_revision t) session
        (checked AtRecheck (maria_instance_id t) (maria_revision t) session
           (mret (Some (mkResolvedMariadbRoute t session))))
  end.

(** [resolve_database_target] and [resolve_mariadb_route] of the resolver. *)
Definition open_found {T R : Type} (open : T → Task (option R))
    (resolution : DatabaseRouteResolution T) : Task (DatabaseRouteResolution R) :=
  match resolution with
  | Found db t =>
      opened ← open t;
      mret (match opened with Some r => Found db r | None => NotFound end)
  | NotFound => mret NotFound
  | Ambiguous => mret Ambiguous
  end.

(** A lookup that is repeated without the database when the client named a
    placeholder its driver inserts. *)
Definition look_retried (p : Protocol) (lookup : InstanceState → option string →
    DatabaseRouteResolution RouteTarget) (user : string) (db : option string) :
    Task (DatabaseRouteResolution RouteTarget) :=
  resolution ← look AtLookup None (λ st, lookup st db);
  match resolution with
  | NotFound =>
      if should_retry_without_database p user db then look AtRetry None (λ st, lookup st None)
      else mret NotFound
  | r => mret r
  end.

Definition resolver_resolve_postgres (user : string) (db : option string) :
    Task (DatabaseRouteResolution PendingPostgresRoute) :=
  resolution ← look_retried Postgres (λ st db, resolve_postgres st user db) user db;
  open_found
    (λ t,
      session ← task_open_pending (target_instance_id t);
      match session with
      | Err _ => mret None
      | Ok session =>
          finished ← finish_route (target_instance_id t) (target_endpoint t) (target_revision t) session;
          mret (match finished with
                | Some r => Some (mkPendingPostgresRoute r (target_connection_limit t) (target_revision t))
                | None => None
                end)
      end)
    resolution.

Definition resolver_resolve_clickhouse (user : string) (db : option string) :
    Task (DatabaseRouteResolution ResolvedRoute) :=
  resolution ← look_retried Clickhouse (λ st db, resolve_clickhouse st user db) user db;
  open_found open_route resolution.

Definition resolver_resolve_mariadb (mysql : bool) (user : string) (db : option string) :
    Task (DatabaseRouteResolution ResolvedMariadbRoute) :=
  resolution ← look AtLookup None
    (λ st, if mysql then resolve_mysql st user db else resolve_mariadb st user db);
  open_found resolve_mariadb_target resolution.

Definition open_some (t : option RouteTarget) : Task (option ResolvedRoute) :=
  match t with Some t => open_route t | None => mret None end.

Definition resolver_resolve_redis (user : string) : Task (option ResolvedRoute) :=
  look AtLookup None (λ st, resolve_redis st user) ≫= open_some.
Definition resolver_resolve_valkey (user : string) : Task (option ResolvedRoute) :=
  look AtLookup None (λ st, resolve_valkey st user) ≫= open_some.
Definition resolver_resolve_qdrant (key : string) : Task (option ResolvedRoute) :=
  look AtLookup None (λ st, resolve_qdrant st key) ≫= open_some.

Definition open_password (t : option (string * RouteTarget)) : Task (option (string * ResolvedRoute)) :=
  match t with
  | Some (user, t) => opened ← open_route t; mret (option_map (pair user) opened)
  | None => mret None
  end.

Definition resolver_resolve_redis_password (sha : string) : Task (option (string * ResolvedRoute)) :=
  look AtLookup None (λ st, resolve_redis_password st sha) ≫= open_password.
Definition resolver_resolve_valkey_password (sha : string) : Task (option (string * ResolvedRoute)) :=
  look AtLookup None (λ st, resolve_valkey_password st sha) ≫= open_password.

Definition pending_mongodb (st : InstanceState) (user db : string) : option PendingMongodbRoute :=
  t ← resolve_mongodb st user db; Some (mkPendingMongodbRoute t user db).
Definition resolve_mongodb_pending (user db : string) : Task (option PendingMongodbRoute) :=
  look AtLookup None (λ st, pending_mongodb st user db).

(** [activate_mongodb]: the identity must still resolve to the very same
    route. *)
Definition activate_mongodb (pending : PendingMongodbRoute) : Task (option ResolvedRoute) :=
  current ← look AtLookup None
    (λ st, resolve_mongodb st (mongo_username pending) (mongo_database pending));
  match current with
  | None => mret None
  | Some current =>
      if bool_decide (current = mongo_target pending) then open_route current else mret None
  end.

(** The end of a PostgreSQL login, after the backend is ready for queries:
    the slot is taken only while the route is current, and kept only if it
    still is. *)
Definition activate_postgres (pending : PendingPostgresRoute) : Task (option ResolvedRoute) :=
  let t := pending_target pending in
  let session := resolved_session t in
  checked AtCheck (resolved_instance_id t) (pending_revision pending) session
    (admitted ← task_authenticate session (pending_connection_limit pending);
     match admitted with
     | Err _ => task_drop session ≫= λ _, mret None
     | Ok _ => checked AtRecheck (resolved_instance_id t) (pending_revision pending) session
                 (mret (Some t))
     end).

(** ** One resolution on its own *)

Section at_states.
Context {Sem : Type} `{Semaphore Sem}.

Definition seen_at (st0 st0' st1 st2 : InstanceState) (p : Await) : InstanceState :=
  match p with AtLookup => st0 | AtRetry => st0' | AtCheck => st1 | AtRecheck => st2 end.

(** The resolutions the listeners of the other files run, on the states their
    awaits see. *)
Definition resolve_clickhouse_at st0 st0' st1 st2 user db (reg : Sessions Sem) :=
  run_task (seen_at st0 st0' st1 st2) (resolver_resolve_clickhouse user db) reg.
Definition resolve_postgres_at st0 st0' st1 st2 user db (reg : Sessions Sem) :=
  run_task (seen_at st0 st0' st1 st2) (resolver_resolve_postgres user db) reg.
Definition activate_mongodb_at st0 st1 st2 pending (reg : Sessions Sem) :=
  run_task (seen_at st0 st0 st1 st2) (activate_mongodb pending) reg.
Definition open_route_at st1 st2 t (reg : Sessions Sem) :=
  run_task (seen_at st1 st1 st1 st2) (open_route t) reg.

Definition retried (p : Protocol) (lookup : InstanceState → option string →
    DatabaseRouteResolution RouteTarget) (st0 st0' : InstanceState) (user : string)
    (db : option string) : DatabaseRouteResolution RouteTarget :=
  match lookup st0 db with
  | NotFound => if should_retry_without_database p user db then lookup st0' None else NotFound
  | r => r
  end.

Lemma run_retried p lookup st0 st0' st1 st2 user db (reg : Sessions Sem) :
  run_task (seen_at st0 st0' st1 st2) (look_retried p lookup user db) reg
  = (retried p lookup st0 st0' user db, reg).
Proof.
  unfold look_retried, retried. cbn. destruct (lookup st0 db); try done.
  by destruct (should_retry_without_database _ _ _).
Qed.

Lemma run_open_found {T R} (open : T → Task (option R)) see resolution (reg : Sessions Sem) :
  run_task see (open_found open resolution) reg =
  match resolution with
  | Found db t =>
      match run_task see (open t) reg with
      | (Some r, reg) => (Found db r, reg)
      | (None, reg) => (NotFound, reg)
      end
  | NotFound => (NotFound, reg)
  | Ambiguous => (Ambiguous, reg)
  end.
Proof.
  destruct resolution as [db t| |]; [|done..]. cbn [open_found]. rewrite run_bind.
  by destruct (run_task see (open t) reg) as [[r|] reg'].
Qed.

Lemma run_checked {A} see point id revision session (rest : Task (option A)) (reg : Sessions Sem) :
  run_task see (checked point id revision session rest) reg =
  if route_is_current (see point) id revision then run_task see rest reg
  else (None, drop_session session reg).
Proof. cbn. by destruct (route_is_current _ _ _). Qed.

Lemma run_finish_route see id endpoint revision session (reg : Sessions Sem) :
  run_task see (finish_route id endpoint revision session) reg =
  if route_is_current (see AtCheck) id revision && route_is_current (see AtRecheck) id revision
  then (Some (mkResolvedRoute id endpoint session), reg) else (None, drop_session session reg).
Proof.
  unfold finish_route. rewrite !run_checked. by destruct (route_is_current _ _ _).
Qed.

Lemma run_open_route_seen see t (reg : Sessions Sem) :
  run_task see (open_route t) reg = open_route_at (see AtCheck) (see AtRecheck) t reg.
Proof.
  unfold open_route_at, open_route, resolve_target, task_try_open. cbn -[finish_route].
  destruct (insert_session _ _ _ _) as [[s|e] reg1]; [|done]. by rewrite !run_finish_route.
Qed.

Lemma resolve_clickhouse_at_eq st0 st0' st1 st2 user db (reg : Sessions Sem) :
  resolve_clickhouse_at st0 st0' st1 st2 user db reg =
  match retried Clickhouse (λ st db, resolve_clickhouse st user db) st0 st0' user db with
  | Found db t =>
      match open_route_at st1 st2 t reg with
      | (Some r, reg) => (Found db r, reg)
      | (None, reg) => (NotFound, reg)
      end
  | NotFound => (NotFound, reg)
  | Ambiguous => (Ambiguous, reg)
  end.
Proof.
  unfold resolve_clickhouse_at, resolver_resolve_clickhouse. rewrite run_bind, run_retried. cbn [fst snd].
  rewrite run_open_found. destruct (retried _ _ _ _ _ _); [|done..]. by rewrite run_open_route_seen.
Qed.

Lemma activate_mongodb_at_eq st0 st1 st2 pending (reg : Sessions Sem) :
  activate_mongodb_at st0 st1 st2 pending reg =
  match resolve_mongodb st0 (mongo_username pending) (mongo_database pending) with
  | None => (None, reg)
  | Some current =>
      if bool_decide (current = mongo_target pending) then open_route_at st1 st2 current reg
      else (None, reg)
  end.
Proof.
  unfold activate_mongodb_at, activate_mongodb. rewrite run_bind. cbn [run_task look fst snd seen_at].
  destruct (resolve_mongodb _ _ _) as [t|]; [|done]. case_bool_decide; [|done]. apply run_open_route_seen.
Qed.
End at_states.

(** ** What a task does with its session

    [task_spec held seen t post]: the task [t], whose client holds the session
    [held] (with its instance) and whose last action was to see the store
    [seen], opens, authenticates and drops only its own session, has it in
    scope at every await, and ends in [post]. *)

Definition Holding : Type := option (string * Z).

Fixpoint task_spec {A} (held : Holding) (seen : option InstanceState) (t : Task A)
    (post : Holding → option InstanceState → A → Prop) : Prop :=
  match t with
  | Ret a => post held seen a
  | Look _ scope ask k => scope = snd <$> held ∧ ∀ st, task_spec held (Some st) (k (ask st)) post
  | OpenSession tenant _ _ k =>
      held = None ∧ ∀ r,
        task_spec (match r with Ok session => Some (tenant, session) | Err _ => None end) None (k r) post
  | Authenticate session _ k => snd <$> held = Some session ∧ ∀ r, task_spec held None (k r) post
  | DropSession session k => snd <$> held = Some session ∧ task_spec None None k post
  end.

Lemma spec_bind {A B} held seen (t : Task A) (f : A → Task B) post :
  task_spec held seen t (λ held seen a, task_spec held seen (f a) post) →
  task_spec held seen (t ≫= f) post.
Proof. revert held seen. induction t; cbn; intros; naive_solver. Qed.

Lemma spec_weaken {A} held seen (t : Task A) (P Q : Holding → option InstanceState → A → Prop) :
  (∀ held seen a, P held seen a → Q held seen a) → task_spec held seen t P → task_spec held seen t Q.
Proof. intros HPQ. revert held seen. induction t; cbn; intros; naive_solver. Qed.

(** A task that may keep its session: either the session is gone, or the last
    thing it saw was a store in which its route is open. *)
Definition settled {A} (session_of : A → Z) (id_of : A → string)
    (held : Holding) (seen : option InstanceState) (r : option A) : Prop :=
  match r with
  | None => held = None
  | Some a => held = Some (id_of a, session_of a) ∧
      ∃ st, seen = Some st ∧ routes_fenced st (id_of a) = false
  end.

Lemma current_not_fenced st id revision :
  route_is_current st id revision = true → routes_fenced st id = false.
Proof.
  unfold routes_fenced, route_is_current. by destruct (bool_decide _).
Qed.

Lemma spec_checked {A} session_of id_of point id revision session (rest : Task (option A)) seen :
  (∀ st, routes_fenced st id = false →
     task_spec (Some (id, session)) (Some st) rest (settled session_of id_of)) →
  task_spec (Some (id, session)) seen (checked point id revision session rest)
    (settled session_of id_of).
Proof.
  intros Hrest. cbn. split; [done|]. intros st.
  destruct (route_is_current st id revision) eqn:E; [|done].
  by apply Hrest, (current_not_fenced _ _ revision).
Qed.

Abbreviation route_settled := (settled resolved_session resolved_instance_id).

Lemma spec_finish_route id endpoint revision session seen :
  task_spec (Some (id, session)) seen (finish_route id endpoint revision session) route_settled.
Proof.
  apply spec_checked. intros st _. apply spec_checked. intros st' Hf. cbn. eauto.
Qed.

Lemma spec_open_route t seen : task_spec None seen (open_route t) route_settled.
Proof. split; [done|]. intros [session|e]; [|done]. apply spec_finish_route. Qed.

Lemma spec_open_some t seen : task_spec None seen (open_some t) route_settled.
Proof. destruct t as [t|]; [apply spec_open_route|done]. Qed.

Lemma spec_open_password t seen :
  task_spec None seen (open_password t)
    (settled (resolved_session ∘ snd) (resolved_instance_id ∘ snd)).
Proof.
  destruct t as [[user t]|]; [|done]. apply spec_bind.
  eapply spec_weaken; [|apply spec_open_route]. by intros held s [r|].
Qed.

Lemma spec_mariadb_target t seen :
  task_spec None seen (resolve_mariadb_target t)
    (settled resolved_maria_session (maria_instance_id ∘ resolved_maria)).
Proof.
  split; [done|]. intros [session|e]; [|done].
  apply spec_checked. intros st _. apply spec_checked. intros st' Hf. cbn. eauto.
Qed.

Definition found_settled {A} (session_of : A → Z) (id_of : A → string) (held : Holding)
    (seen : option InstanceState) (r : DatabaseRouteResolution A) : Prop :=
  settled session_of id_of held seen (match r with Found _ a => Some a | _ => None end).

Lemma spec_open_found {T R} session_of id_of (open : T → Task (option R)) resolution seen :
  (∀ t, task_spec None seen (open t) (settled session_of id_of)) →
  task_spec None seen (open_found open resolution) (found_settled session_of id_of).
Proof.
  intros Hopen. destruct resolution as [db t| |]; [|done..]. apply spec_bind.
  eapply spec_weaken; [|apply Hopen]. by intros held s [r|].
Qed.

Lemma spec_look_retried p lookup user db seen (post : Holding → option InstanceState → _ → Prop) :
  (∀ st r, post None (Some st) r) → task_spec None seen (look_retried p lookup user db) post.
Proof.
  intros Hp. cbn. split; [done|]. intros st. destruct (lookup st db); cbn; try done.
  destruct (should_retry_without_database _ _ _); cbn; auto.
Qed.

(** ** Clients *)

(** What the listeners ask the resolver for. *)
Inductive Login :=
  | LoginPostgres (user : string) (db : option string)
  | LoginClickhouse (user : string) (db : option string)
  | LoginMariadb (mysql : bool) (user : string) (db : option string)
  | LoginMongodb (user db : string)
  | LoginRedis (user : string)
  | LoginValkey (user : string)
  | LoginRedisPassword (sha : string)
  | LoginValkeyPassword (sha : string)
  | LoginQdrant (key : string).

Definition tunnel_of (r : ResolvedRoute) : string * Z := (resolved_instance_id r, resolved_session r).
Definition found {A} (r : DatabaseRouteResolution A) : option A :=
  match r with Found _ a => Some a | _ => None end.

(** From the first lookup to the tunnel: the instance and the session of a
    client that is served.  A PostgreSQL or MongoDB client talks to its backend
    between the two halves of its login. *)
Definition login (l : Login) : Task (option (string * Z)) :=
  match l with
  | LoginPostgres user db =>
      pending ← resolver_resolve_postgres user db;
      match found pending with
      | Some pending => r ← activate_postgres pending; mret (option_map tunnel_of r)
      | None => mret None
      end
  | LoginClickhouse user db =>
      r ← resolver_resolve_clickhouse user db; mret (option_map tunnel_of (found r))
  | LoginMariadb mysql user db =>
      r ← resolver_resolve_mariadb mysql user db;
      mret (option_map (λ r, (maria_instance_id (resolved_maria r), resolved_maria_session r)) (found r))
  | LoginMongodb user db =>
      pending ← resolve_mongodb_pending user db;
      match pending with
      | Some pending => r ← activate_mongodb pending; mret (option_map tunnel_of r)
      | None => mret None
      end
  | LoginRedis user => r ← resolver_resolve_redis user; mret (option_map tunnel_of r)
  | LoginValkey user => r ← resolver_resolve_valkey user; mret (option_map tunnel_of r)
  | LoginRedisPassword sha =>
      r ← resolver_resolve_redis_password sha; mret (option_map (λ r, tunnel_of r.2) r)
  | LoginValkeyPassword sha =>
      r ← resolver_resolve_valkey_password sha; mret (option_map (λ r, tunnel_of r.2) r)
  | LoginQdrant key => r ← resolver_resolve_qdrant key; mret (option_map tunnel_of r)
  end.

(** A client that is served holds the session it was given, and saw its route
    open when it was. *)
Abbreviation served_post := (settled (A := string * Z) snd fst).

Lemma served_fmap {A} session_of id_of (g : A → string * Z) held seen (t : Task (option A)) :
  (∀ a, g a = (id_of a, session_of a)) →
  task_spec held seen t (settled session_of id_of) →
  task_spec held seen (r ← t; mret (option_map g r)) served_post.
Proof.
  intros Hg Ht. apply spec_bind. eapply spec_weaken; [|exact Ht].
  intros h s [a|]; [|done]. cbn. by rewrite Hg.
Qed.

Lemma served_found {A} session_of id_of (g : A → string * Z) held seen
    (t : Task (DatabaseRouteResolution A)) :
  (∀ a, g a = (id_of a, session_of a)) →
  task_spec held seen t (found_settled session_of id_of) →
  task_spec held seen (r ← t; mret (option_map g (found r))) served_post.
Proof.
  intros Hg Ht. apply spec_bind. eapply spec_weaken; [|exact Ht].
  intros h s [d a| |]; [|done..]. cbn. by rewrite Hg.
Qed.

Lemma spec_postgres user db seen :
  task_spec None seen (resolver_resolve_postgres user db)
    (found_settled (resolved_session ∘ pending_target) (resolved_instance_id ∘ pending_target)).
Proof.
  apply spec_bind, spec_look_retried. intros st r. apply spec_open_found. intros t.
  split; [done|]. intros [session|e]; [|done]. cbn -[finish_route]. apply spec_bind.
  eapply spec_weaken; [|apply spec_finish_route]. by intros h s [route|].
Qed.

Lemma spec_activate_postgres pending seen :
  task_spec (Some (resolved_instance_id (pending_target pending), resolved_session (pending_target pending)))
    seen (activate_postgres pending) route_settled.
Proof.
  apply spec_checked. intros st _. split; [done|]. intros [[]|e]; [|done].
  apply spec_checked. intros st' Hf. cbn. eauto.
Qed.

Lemma spec_login l : task_spec None None (login l) served_post.
Proof.
  destruct l as [user db|user db|mysql user db|user db|user|user|sha|sha|key]; cbn [login].
  - apply spec_bind. eapply spec_weaken; [|apply spec_postgres].
    intros h s [d pending| |]; [|by intros ->..]. intros [-> _].
    eapply served_fmap; [done|]. apply spec_activate_postgres.
  - eapply served_found; [done|]. apply spec_bind, spec_look_retried. intros st r.
    apply spec_open_found. intros t. apply spec_open_route.
  - eapply served_found; [done|]. split; [done|]. intros st.
    apply spec_open_found. intros t. apply spec_mariadb_target.
  - split; [done|]. intros st. destruct (pending_mongodb st user db) as [pending|]; [|done].
    eapply served_fmap; [done|]. split; [done|]. intros st'.
    destruct (resolve_mongodb st' _ _) as [t|]; [|done]. cbn -[open_route].
    destruct (bool_decide _); [apply spec_open_route|done].
  - eapply served_fmap; [done|]. split; [done|]. intros st. apply spec_open_some.
  - eapply served_fmap; [done|]. split; [done|]. intros st. apply spec_open_some.
  - eapply served_fmap; [|split; [done|]; intros st; apply spec_open_password]. done.
  - eapply served_fmap; [|split; [done|]; intros st; apply spec_open_password]. done.
  - eapply served_fmap; [done|]. split; [done|]. intros st. apply spec_open_some.
Qed.

(** ** Clients, fences and cancellation

    The interleavings of the tasks of all clients with the operations that
    change routes and with cancellations. *)

Section gateway.
Context {Sem : Type} `{Semaphore Sem} (password_route_sha256 : string → string).

(** One action of a task, and what is left of it. *)
Definition task_step {A} (st : InstanceState) (t : Task A) (reg : Sessions Sem) :
    option (Task A * Sessions Sem) :=
  match t with
  | Ret _ => None
  | Look _ _ ask k => Some (k (ask st), reg)
  | OpenSession tenant limit auth k =>
      let '(r, reg) := insert_session tenant limit auth reg in Some (k r, reg)
  | Authenticate session limit k =>
      let '(r, reg) := authenticate session limit reg in Some (k r, reg)
  | DropSession session k => Some (k, drop_session session reg)
  end.

(** Where a client may go away: at an await, or while it is served; and the
    session that is then dropped. *)
Definition leaving (t : Task (option (string * Z))) : option (option Z) :=
  match t with
  | Look _ held _ _ => Some held
  | Ret r => Some (snd <$> r)
  | _ => None
  end.

(** A client is what is left of its login: it is served once that is a
    result. *)
Record GatewayWorld := mkGatewayWorld {
  gw_store : InstanceState;
  gw_sessions : Sessions Sem;
  gw_cancelling : list Z;
  gw_clients : gmap nat (Task (option (string * Z)));
}.

Definition served (w : GatewayWorld) (i : nat) (id : string) (session : Z) : Prop :=
  gw_clients w !! i = Some (Ret (Some (id, session))).

Inductive gateway_step : GatewayWorld → GatewayWorld → Prop :=
  | gw_command c st reg xs cs :
      gateway_step (mkGatewayWorld st reg xs cs)
        (mkGatewayWorld (run password_route_sha256 c st) reg xs cs)
  | gw_arrive i l st reg xs cs :
      cs !! i = None →
      gateway_step (mkGatewayWorld st reg xs cs) (mkGatewayWorld st reg xs (<[i := login l]> cs))
  | gw_task i t t' st reg reg' xs cs :
      cs !! i = Some t → next_id reg < u64_max → task_step st t reg = Some (t', reg') →
      gateway_step (mkGatewayWorld st reg xs cs) (mkGatewayWorld st reg' xs (<[i := t']> cs))
  | gw_leave i t held st reg xs cs :
      cs !! i = Some t → leaving t = Some held →
      gateway_step (mkGatewayWorld st reg xs cs)
        (mkGatewayWorld st (match held with Some s => drop_session s reg | None => reg end) xs (delete i cs))
  | gw_cancel id ids st reg reg' xs cs :
      cancel_collect id reg = (ids, reg') →
      gateway_step (mkGatewayWorld st reg xs cs) (mkGatewayWorld st reg' (ids ++ xs) cs)
  | gw_cancel_one session xs ys st reg cs :
      gateway_step (mkGatewayWorld st reg (xs ++ session :: ys) cs)
        (mkGatewayWorld st (cancel_session session reg) (xs ++ ys) cs).

Definition gateway_new (capacity : Z) : GatewayWorld :=
  mkGatewayWorld instance_state_default (sessions_new capacity) [] ∅.

(** Every client follows its login, and what it holds is a live session of its
    instance, of its own. *)
Record clients_exact (w : GatewayWorld) (h : nat → Holding) : Prop := {
  clients_registry : registry_exact (gw_sessions w);
  clients_follow i t : gw_clients w !! i = Some t →
    ∃ seen, task_spec (h i) seen t served_post;
  clients_live i t id session : gw_clients w !! i = Some t → h i = Some (id, session) →
    ∃ s, live (gw_sessions w) !! session = Some s ∧ session_tenant s = id;
  clients_own i j t u id id' session : gw_clients w !! i = Some t → gw_clients w !! j = Some u →
    h i = Some (id, session) → h j = Some (id', session) → i = j;
  clients_all session : is_Some (live (gw_sessions w) !! session) →
    ∃ i t id, gw_clients w !! i = Some t ∧ h i = Some (id, session);
}.

(** Registry operations other than a drop keep every session of its tenant. *)
Definition keeps_sessions (reg reg' : Sessions Sem) : Prop :=
  ∀ id s, live reg !! id = Some s →
    ∃ s', live reg' !! id = Some s' ∧ session_tenant s' = session_tenant s.

(** No session is new, unless it is [new]. *)
Definition only_new (new : option Z) (reg reg' : Sessions Sem) : Prop :=
  ∀ id, is_Some (live reg' !! id) → new = Some id ∨ is_Some (live reg !! id).

Lemma keeps_same reg : keeps_sessions reg reg.
Proof. intros id s. eauto. Qed.

Lemma insert_session_keeps tenant limit auth reg r reg' :
  registry_exact reg → next_id reg < u64_max → insert_session tenant limit auth reg = (r, reg') →
  keeps_sessions reg reg' ∧
  only_new (match r with Ok session => Some session | Err _ => None end) reg reg' ∧
  (∀ session, r = Ok session → live reg !! session = None ∧
     ∃ s, live reg' !! session = Some s ∧ session_tenant s = tenant).
Proof.
  intros Hex Hn. unfold insert_session. destruct (tenant_entry _ _ _) as [e reg1] eqn:E.
  apply tenant_entry_exact in E as (_ & _ & El & _); [|done..].
  assert (live reg !! next_id reg = None) as Hnew.
  { apply eq_None_not_Some. intros Hs%(exact_fresh _ Hex). lia. }
  destruct (negb _); intros [= <- <-]; unfold keeps_sessions, only_new; cbn; rewrite ?El.
  - split_and!; [eauto..|done].
  - split_and!.
    + intros id s Hs. rewrite lookup_insert_ne by congruence. eauto.
    + intros id [s [[-> _]|[_ Hs]]%lookup_insert_Some]; [by left|eauto].
    + intros session [= <-]. split; [done|]. rewrite lookup_insert_eq. eauto.
Qed.

Lemma authenticate_keeps id limit reg r reg' :
  authenticate id limit reg = (r, reg') → keeps_sessions reg reg' ∧ only_new None reg reg'.
Proof.
  assert (Hsame : keeps_sessions reg reg ∧ only_new None reg reg)
    by (split; [intros ? ?; eauto|intros ? ?; eauto]).
  unfold authenticate. destruct (live reg !! id) as [y|] eqn:Hy; [|by intros [= _ <-]].
  repeat case_match; intros [= _ <-]; try done. split.
  - intros x s Hs. cbn. destruct (decide (id = x)) as [<-|]; [|rewrite lookup_insert_ne by done; eauto].
    rewrite lookup_insert_eq. simplify_eq. eauto.
  - intros x. cbn. intros [s [[-> _]|[_ Hs]]%lookup_insert_Some]; eauto.
Qed.

Lemma cancel_session_keeps id reg :
  keeps_sessions reg (cancel_session id reg) ∧ only_new None reg (cancel_session id reg).
Proof.
  split; intros x; cbn.
  - intros s Hs. destruct (decide (id = x)) as [<-|].
    + rewrite lookup_alter_eq, Hs. cbn. eauto.
    + rewrite lookup_alter_ne by done. eauto.
  - intros [s [[-> (y & -> & _)]|[_ Hs]]%lookup_alter_Some]; eauto.
Qed.

Lemma drop_session_others id (reg : Sessions Sem) x :
  x ≠ id → live (drop_session id reg) !! x = live reg !! x.
Proof.
  intros Hne. unfold drop_session. destruct (live reg !! id); [|done].
  repeat case_match; cbn; by rewrite lookup_delete_ne.
Qed.

Lemma drop_session_gone id (reg : Sessions Sem) x :
  is_Some (live (drop_session id reg) !! x) → x ≠ id ∧ is_Some (live reg !! x).
Proof.
  unfold drop_session. destruct (live reg !! id) eqn:E.
  - repeat case_match; cbn; intros [y [Hne Hy]%lookup_delete_Some]; eauto.
  - intros Hx. split; [|done]. intros ->. rewrite E in Hx. by destruct Hx.
Qed.

(** What a step does to the session registry is a step of [Sessions]. *)
Lemma gateway_session_step w w' h :
  gateway_step w w' → clients_exact w h →
  (gw_sessions w' = gw_sessions w ∧ gw_cancelling w' = gw_cancelling w) ∨
  session_step (λ _ _, True) (mkSessionWorld (gw_sessions w) (gw_cancelling w) [])
    (mkSessionWorld (gw_sessions w') (gw_cancelling w') []).
Proof.
  destruct 1 as [| |i t t' st reg reg' xs cs Hi Hn Hs|i t held st reg xs cs Hi Hl
    |id ids st reg reg' xs cs Hc|]; cbn; intros Hex; try (by left).
  - destruct t as [a|B p held ask k|tenant limit auth k|s limit k|s k]; cbn in Hs.
    + done.
    + injection Hs as _ <-. by left.
    + destruct (insert_session _ _ _ _) eqn:Ei. injection Hs as _ <-. right. by eapply step_open.
    + destruct (authenticate _ _ _) eqn:Ea. injection Hs as _ <-. right.
      destruct (clients_follow _ _ Hex i _ Hi) as (seen & Hh & _).
      destruct (h i) as [[id s']|] eqn:Eh; [|done]. injection Hh as <-.
      destruct (clients_live _ _ Hex _ _ _ _ Hi Eh) as (x & Hx & _). by eapply step_authenticate.
    + injection Hs as _ <-. right. apply step_drop.
  - destruct held as [s|]; [right; apply step_drop|by left].
  - right. by eapply step_cancel.
  - right. apply step_cancel_one.
Qed.

(** A step that keeps the sessions of all clients, and gives none a new one. *)
Lemma clients_same w w' h :
  clients_exact w h → registry_exact (gw_sessions w') →
  keeps_sessions (gw_sessions w) (gw_sessions w') →
  only_new None (gw_sessions w) (gw_sessions w') → gw_clients w' = gw_clients w →
  clients_exact w' h.
Proof.
  intros Hex Hr Hk Hnew Hc. split; [done|rewrite Hc..|].
  - apply Hex.
  - intros i t id s Ht Hh. destruct (clients_live _ _ Hex _ _ _ _ Ht Hh) as (x & Hx & Hxt).
    destruct (Hk _ _ Hx) as (x' & Hx' & Ht'). exists x'. split; [done|congruence].
  - apply Hex.
  - intros s [?|Hs]%Hnew; [done|]. rewrite Hc. by apply (clients_all _ _ Hex).
Qed.

Definition holding_with (i : nat) (x : Holding) (h : nat → Holding) (j : nat) : Holding :=
  if decide (j = i) then x else h j.

(** The session of a client is safe from what happens to the others'. *)
Definition others_live (w : GatewayWorld) (h : nat → Holding) (i : nat) (reg : Sessions Sem) : Prop :=
  ∀ j t id s, j ≠ i → gw_clients w !! j = Some t → h j = Some (id, s) →
    ∃ y, live reg !! s = Some y ∧ session_tenant y = id.

Definition held_by_other (w : GatewayWorld) (h : nat → Holding) (i : nat) (s : Z) : Prop :=
  ∃ j t id, j ≠ i ∧ gw_clients w !! j = Some t ∧ h j = Some (id, s).

(** A live session is the client's own, or another's. *)
Lemma held_by_any w h i s :
  clients_exact w h → is_Some (live (gw_sessions w) !! s) → snd <$> h i = Some s ∨ held_by_other w h i s.
Proof.
  intros Hex (j & t & id & Hj & Hh)%(clients_all _ _ Hex).
  destruct (decide (j = i)) as [->|]; [left; by rewrite Hh|right; by exists j, t, id].
Qed.

Lemma dropped_by_any w h i id s s' :
  clients_exact w h → h i = Some (id, s) →
  is_Some (live (drop_session s (gw_sessions w)) !! s') → held_by_other w h i s'.
Proof.
  intros Hex Hh [Hne Hs]%drop_session_gone. destruct (held_by_any _ _ i _ Hex Hs) as [He|?]; [|done].
  rewrite Hh in He. by injection He.
Qed.

Lemma others_kept w h i reg :
  clients_exact w h → keeps_sessions (gw_sessions w) reg → others_live w h i reg.
Proof.
  intros Hex Hk j t id s _ Hj Hh. destruct (clients_live _ _ Hex _ _ _ _ Hj Hh) as (x & Hx & <-).
  destruct (Hk _ _ Hx) as (y & Hy & Ht). eauto.
Qed.

Lemma others_dropped w h i t id s :
  clients_exact w h → gw_clients w !! i = Some t → h i = Some (id, s) →
  others_live w h i (drop_session s (gw_sessions w)).
Proof.
  intros Hex Hi Hh j u id' s' Hne Hj Hh'. rewrite drop_session_others.
  - by eapply (clients_live _ _ Hex).
  - intros ->. apply Hne. by eapply (clients_own _ _ Hex).
Qed.

(** One client moves on. *)
Lemma clients_moved w w' h i t' x seen :
  clients_exact w h → registry_exact (gw_sessions w') →
  gw_clients w' = <[i := t']> (gw_clients w) → task_spec x seen t' served_post →
  others_live w h i (gw_sessions w') →
  (∀ id s, x = Some (id, s) →
     (∃ y, live (gw_sessions w') !! s = Some y ∧ session_tenant y = id) ∧
     ∀ j t id', j ≠ i → gw_clients w !! j = Some t → h j ≠ Some (id', s)) →
  (∀ s, is_Some (live (gw_sessions w') !! s) → snd <$> x = Some s ∨ held_by_other w h i s) →
  clients_exact w' (holding_with i x h).
Proof.
  intros Hex Hr Hc Hs Ho Hx Ha. unfold holding_with. split; [done|rewrite Hc..].
  - intros j t Ht. destruct (decide (j = i)) as [->|Hne].
    + rewrite lookup_insert_eq in Ht. simplify_eq. eauto.
    + rewrite lookup_insert_ne in Ht by done. by apply (clients_follow _ _ Hex).
  - intros j t id s Ht Hh. destruct (decide (j = i)) as [->|Hne]; [by apply Hx|].
    rewrite lookup_insert_ne in Ht by done. by eapply Ho.
  - intros j k t u id id' s Ht Hu Hj Hk.
    destruct (decide (j = i)) as [->|Hji], (decide (k = i)) as [->|Hki]; [done|..].
    + rewrite lookup_insert_ne in Hu by done. destruct (Hx _ _ Hj) as [_ Hn]. by destruct (Hn k u id').
    + rewrite lookup_insert_ne in Ht by done. destruct (Hx _ _ Hk) as [_ Hn]. by destruct (Hn j t id).
    + rewrite lookup_insert_ne in Ht, Hu by done. by eapply (clients_own _ _ Hex).
  - intros s [Hxs|(j & t & id & Hne & Hj & Hh)]%Ha.
    + destruct x as [[id s']|]; [|done]. injection Hxs as ->. exists i, t', id.
      by rewrite lookup_insert_eq, decide_True.
    + exists j, t, id. by rewrite lookup_insert_ne, decide_False.
Qed.

(** One client goes away. *)
Lemma clients_left w w' h i :
  clients_exact w h → registry_exact (gw_sessions w') →
  gw_clients w' = delete i (gw_clients w) → others_live w h i (gw_sessions w') →
  (∀ s, is_Some (live (gw_sessions w') !! s) → held_by_other w h i s) →
  clients_exact w' h.
Proof.
  intros Hex Hr Hc Ho Ha. split; [done|rewrite Hc..].
  - intros j t [_ Ht]%lookup_delete_Some. by apply (clients_follow _ _ Hex).
  - intros j t id s [Hne Ht]%lookup_delete_Some Hh. by eapply Ho.
  - intros j k t u id id' s [_ Ht]%lookup_delete_Some [_ Hu]%lookup_delete_Some.
    by eapply (clients_own _ _ Hex).
  - intros s (j & t & id & Hne & Hj & Hh)%Ha. exists j, t, id. by rewrite lookup_delete_ne.
Qed.

Lemma own_session w h i t id s reg :
  clients_exact w h → gw_clients w !! i = Some t → h i = Some (id, s) →
  keeps_sessions (gw_sessions w) reg →
  ∀ id' s', h i = Some (id', s') →
    (∃ y, live reg !! s' = Some y ∧ session_tenant y = id') ∧
    ∀ j u id'', j ≠ i → gw_clients w !! j = Some u → h j ≠ Some (id'', s').
Proof.
  intros Hex Hi Hh Hk id' s' Hh'. simplify_eq. split.
  - destruct (clients_live _ _ Hex _ _ _ _ Hi Hh) as (x & Hx & <-).
    destruct (Hk _ _ Hx) as (y & Hy & Ht). eauto.
  - intros j u id'' Hne Hj Hh''. apply Hne. by eapply (clients_own _ _ Hex).
Qed.

(** An action of a task keeps the invariant.  The client that moves has then
    seen the store exactly if its action was to look at it. *)
Lemma task_step_exact st reg reg' xs cs i t t' h :
  clients_exact (mkGatewayWorld st reg xs cs) h → cs !! i = Some t → next_id reg < u64_max →
  task_step st t reg = Some (t', reg') → registry_exact reg' →
  ∃ x seen, (seen = None ∨ seen = Some st) ∧ task_spec x seen t' served_post ∧
    clients_exact (mkGatewayWorld st reg' xs (<[i := t']> cs)) (holding_with i x h).
Proof.
  intros Hex Hi Hn Hs Hr. destruct (clients_follow _ _ Hex i t Hi) as [seen Hf].
  assert (Hsame : ∀ seen', (seen' = None ∨ seen' = Some st) → task_spec (h i) seen' t' served_post →
    keeps_sessions reg reg' → only_new None reg reg' → ∃ x seen, (seen = None ∨ seen = Some st) ∧
      task_spec x seen t' served_post ∧
      clients_exact (mkGatewayWorld st reg' xs (<[i := t']> cs)) (holding_with i x h)).
  { intros seen' Hse Hsp Hk Hnew. exists (h i), seen'. split; [done|]. split; [done|].
    eapply clients_moved; [exact Hex|done|done|exact Hsp|by apply others_kept|..].
    - destruct (h i) as [[id s]|] eqn:Eh; [|done]. rewrite <-Eh. by eapply own_session.
    - intros s [?|Hs']%Hnew; [done|]. by apply held_by_any. }
  destruct t as [a|B p held ask k|tenant limit auth k|s limit k|s k]; cbn in Hs, Hf; [done|..].
  - injection Hs as <- <-. apply (Hsame (Some st)); [by right|apply Hf|apply keeps_same|by right].
  - destruct (insert_session tenant limit auth reg) as [r reg1] eqn:Ei. injection Hs as <- <-.
    destruct (insert_session_keeps _ _ _ _ _ _ (clients_registry _ _ Hex) Hn Ei) as (Hk & Honly & Hnew).
    eexists _, None. split; [by left|]. destruct Hf as [Hh Hf]. split; [apply (Hf r)|].
    eapply clients_moved; [exact Hex|done|done|apply (Hf r)|by apply others_kept|..].
    + intros id s Hx. destruct r as [s'|]; [|done]. injection Hx as -> ->.
      destruct (Hnew s eq_refl) as (Hfree & y & Hy & Ht). split; [eauto|].
      intros j u id' Hne Hj Hh'. destruct (clients_live _ _ Hex _ _ _ _ Hj Hh') as (z & Hz & _).
      by rewrite Hfree in Hz.
    + intros s [Hs|Hs]%Honly; [left; by destruct r; simplify_eq|].
      destruct (held_by_any _ _ i _ Hex Hs) as [He|?]; [|by right]. by rewrite Hh in He.
  - destruct (authenticate s limit reg) as [r reg1] eqn:Ea. injection Hs as <- <-.
    apply authenticate_keeps in Ea as [? ?]. apply (Hsame None); [by left|apply Hf|done..].
  - injection Hs as <- <-. destruct Hf as [Hh Hf]. exists None, None. split; [by left|]. split; [done|].
    destruct (h i) as [[id s']|] eqn:Eh; [|done]. injection Hh as ->.
    eapply clients_moved; [exact Hex|done|done|exact Hf|by eapply others_dropped|done|].
    intros s'' Hs. right. by eapply dropped_by_any.
Qed.

Lemma leaving_held (h : Holding) seen t held :
  task_spec h seen t served_post → leaving t = Some held → held = snd <$> h.
Proof.
  destruct t as [[[id s]|]|B p scope ask k|tenant limit auth k|s limit k|s k]; cbn; try done.
  - by intros [-> _] [= <-].
  - by intros -> [= <-].
  - intros [-> _]. by intros [= <-].
Qed.

Lemma gateway_step_exact w w' h :
  gateway_step w w' → clients_exact w h → ∃ h', clients_exact w' h'.
Proof.
  intros Hs Hex.
  assert (registry_exact (gw_sessions w')) as Hr.
  { destruct (gateway_session_step _ _ _ Hs Hex) as [[-> _]|Hss]; [apply Hex|].
    apply (session_step_exact _ _ _ Hss), (clients_registry _ _ Hex). }
  destruct Hs as [c st reg xs cs|i l st reg xs cs Hi|i t t' st reg reg' xs cs Hi Hn Ht
    |i t held st reg xs cs Hi Hl|id ids st reg reg' xs cs Hc|s xs ys st reg cs].
  - exists h. apply (clients_same _ _ _ Hex Hr); [apply keeps_same|by right|done].
  - eexists (holding_with i None h).
    eapply clients_moved; [exact Hex|done|done|apply spec_login|by apply others_kept, keeps_same|done|].
    intros s Hs. right. destruct (clients_all _ _ Hex _ Hs) as (j & t & id & Hj & Hh).
    exists j, t, id. split; [|done]. intros ->. cbn in Hj. by rewrite Hi in Hj.
  - destruct (task_step_exact _ _ _ _ _ _ _ _ _ Hex Hi Hn Ht Hr) as (x & seen & _ & _ & Hex'). eauto.
  - exists h. destruct (clients_follow _ _ Hex _ _ Hi) as [seen Hf].
    rewrite (leaving_held _ _ _ _ Hf Hl) in Hr |- *.
    eapply clients_left; [exact Hex|done|done|..]; destruct (h i) as [[id s]|] eqn:Eh; cbn.
    + by eapply others_dropped.
    + by apply others_kept, keeps_same.
    + intros s' Hs'. by apply (dropped_by_any (mkGatewayWorld st reg xs cs) h i id s s' Hex Eh).
    + intros s' Hs'. destruct (held_by_any _ _ i s' Hex Hs') as [He|?]; [by rewrite Eh in He|done].
  - exists h. apply cancel_collect_ids in Hc as (El & _); [|apply Hex].
    apply (clients_same _ _ _ Hex Hr); [| |done]; intros x; cbn; rewrite El; eauto.
  - exists h. apply (clients_same _ _ _ Hex Hr); [apply cancel_session_keeps..|done].
Qed.

Lemma gateway_new_exact capacity : clients_exact (gateway_new capacity) (λ _, None).
Proof.
  split; cbn; [apply exact_new|..]; intros; simplify_map_eq. by destruct H0.
Qed.

Lemma reachable_exact capacity w :
  rtc gateway_step (gateway_new capacity) w → ∃ h, clients_exact w h.
Proof.
  apply (rtc_ind_r (λ w, ∃ h, clients_exact w h)); [eauto using gateway_new_exact|].
  intros w1 w2 _ Hs [h Hex]. by eapply gateway_step_exact.
Qed.

Lemma served_live w h i id s :
  clients_exact w h → served w i id s →
  ∃ x, live (gw_sessions w) !! s = Some x ∧ session_tenant x = id.
Proof.
  intros Hex Hs. destruct (clients_follow _ _ Hex _ _ Hs) as (seen & Hh & _).
  by eapply (clients_live _ _ Hex).
Qed.

(** A client that moves on alone. *)
Fixpoint steps_alone {A} (n : nat) (st : InstanceState) (t : Task A) (reg : Sessions Sem) :
    option (Task A * Sessions Sem) :=
  match n with
  | O => Some (t, reg)
  | S n =>
      if next_id reg <? u64_max
      then '(t, reg) ← task_step st t reg; steps_alone n st t reg
      else None
  end.

Lemma alone_reaches n i st t t' reg reg' xs cs :
  cs !! i = Some t → steps_alone n st t reg = Some (t', reg') →
  rtc gateway_step (mkGatewayWorld st reg xs cs) (mkGatewayWorld st reg' xs (<[i := t']> cs)).
Proof.
  revert t reg cs. induction n as [|n IH]; intros t reg cs Hi; cbn.
  - intros [= -> ->]. by rewrite insert_id.
  - destruct (next_id reg <? u64_max) eqn:Hn; [|done]. intros ([t1 reg1] & Hs & Hrest)%bind_Some.
    eapply rtc_l; [eapply gw_task; [done|lia|exact Hs]|].
    rewrite <-(insert_insert_eq cs i t' t1). apply (IH t1); [by rewrite lookup_insert_eq|done].
Qed.

(** The session a client would drop if it went away now. *)
Definition in_scope {A} (session_of : A → option Z) (t : Task A) : option Z :=
  match t with
  | Ret a => session_of a
  | Look _ held _ _ => held
  | OpenSession _ _ _ _ => None
  | Authenticate session _ _ | DropSession session _ => Some session
  end.
Abbreviation client_session := (in_scope (λ r : option (string * Z), snd <$> r)).

Lemma spec_in_scope (held : Holding) seen t :
  task_spec held seen t served_post → client_session t = snd <$> held.
Proof.
  destruct t as [[[id s]|]|B p scope ask k|tenant limit auth k|s limit k|s k]; cbn.
  - by intros [-> _].
  - by intros ->.
  - by intros [-> _].
  - by intros [-> _].
  - by intros [-> _].
  - by intros [-> _].
Qed.

(** C30. No session is leaked and none is shared.  Whatever clients log in, are
    refused, give up or leave, and whatever routes change or sessions are
    cancelled meanwhile: every live session is in scope in exactly one client,
    and a client that is served has a live session of the instance it is served
    for. *)
Theorem sessions_belong_to_clients capacity w :
  rtc gateway_step (gateway_new capacity) w →
  (∀ s, is_Some (live (gw_sessions w) !! s) →
     ∃ i t, gw_clients w !! i = Some t ∧ client_session t = Some s ∧
       ∀ j u, gw_clients w !! j = Some u → client_session u = Some s → j = i) ∧
  (∀ i id s, served w i id s →
     ∃ x, live (gw_sessions w) !! s = Some x ∧ session_tenant x = id).
Proof.
  intros [h Hex]%reachable_exact. split.
  - intros s (i & t & id & Hi & Hh)%(clients_all _ _ Hex). exists i, t. split; [done|].
    assert (Hsc : ∀ j u, gw_clients w !! j = Some u → client_session u = snd <$> h j).
    { intros j u Hj. destruct (clients_follow _ _ Hex _ _ Hj) as [seen Hf]. by eapply spec_in_scope. }
    split; [by rewrite (Hsc _ _ Hi), Hh|]. intros j u Hj. rewrite (Hsc _ _ Hj).
    destruct (h j) as [[id' s']|] eqn:Eh; [|done]. intros [= ->]. by eapply (clients_own _ _ Hex).
  - intros i id s Hs. by eapply served_live.
Qed.

(** A step during which [id] stays fenced. *)
Definition fenced_step (id : string) (w w' : GatewayWorld) : Prop :=
  gateway_step w w' ∧ routes_fenced (gw_store w') id = true.

(** Every client of [id] that is served is being thrown out. *)
Definition draining (id : string) (w : GatewayWorld) : Prop :=
  ∀ i s, served w i id s → shut_out s (gw_sessions w) ∨ s ∈ gw_cancelling w.

(** What becomes of a session under cancellation. *)
Lemma step_shut_out w w' h s :
  gateway_step w w' → clients_exact w h → is_Some (live (gw_sessions w) !! s) →
  shut_out s (gw_sessions w) ∨ s ∈ gw_cancelling w →
  shut_out s (gw_sessions w') ∨ s ∈ gw_cancelling w'.
Proof.
  intros Hs Hex Hl Hd. destruct (gateway_session_step _ _ _ Hs Hex) as [[-> ->]|Hss]; [done|].
  destruct Hd as [Hd|Hd].
  - left. apply (session_step_shut_out _ _ _ s) in Hss; [done| |done]. apply Hex.
  - inversion Hs; simplify_eq/=; try (by right).
    + right. apply elem_of_app. by right.
    + rewrite elem_of_app, elem_of_cons in Hd. rewrite elem_of_app.
      destruct (decide (s = session)) as [->|]; [|right; naive_solver].
      left. split; [by apply (exact_fresh _ (clients_registry _ _ Hex))|].
      cbn. intros x. rewrite lookup_alter_eq. by intros (y & _ & ->)%fmap_Some.
Qed.

(** Nobody becomes served for a fenced instance. *)
Lemma fenced_served w w' h id i s :
  gateway_step w w' → clients_exact w h → routes_fenced (gw_store w) id = true →
  served w' i id s → served w i id s.
Proof.
  unfold served. intros Hs Hex Hf Hi.
  assert (Hr : registry_exact (gw_sessions w')).
  { destruct (gateway_session_step _ _ _ Hs Hex) as [[-> _]|Hss]; [apply Hex|].
    apply (session_step_exact _ _ _ Hss), (clients_registry _ _ Hex). }
  destruct Hs as [c st reg xs cs|j l st reg xs cs Hj|j t t' st reg reg' xs cs Hj Hn Ht
    |j t held st reg xs cs Hj Hl|id' ids st reg reg' xs cs Hc|s' xs ys st reg cs]; cbn in *; try done.
  - apply lookup_insert_Some in Hi as [[-> Hl]|[_ ?]]; [|done].
    pose proof (spec_login l) as Hsp. rewrite Hl in Hsp. by destruct Hsp.
  - apply lookup_insert_Some in Hi as [[-> ->]|[_ ?]]; [|done].
    destruct (task_step_exact _ _ _ _ _ _ _ _ _ Hex Hj Hn Ht Hr) as (x & seen & Hseen & (_ & st' & -> & Ho) & _).
    destruct Hseen as [?|[= ->]]; [done|]. cbn in Ho. congruence.
  - by apply lookup_delete_Some in Hi as [_ ?].
Qed.

(** C10. Fencing and then cancelling drains an instance.  Clients log in with any
    protocol, each running the resolver's code from its first lookup to its
    tunnel, or giving up on the way, in any interleaving of their actions with
    each other, with route changes and with cancellations.  Once an instance is
    fenced and a cancellation has collected its sessions, then as long as it
    stays fenced, every client that is served for it is one whose session is
    cancelled, as soon as the collected sessions have been cancelled: no client
    slips in between, however far it had come. *)
Theorem fenced_instance_drains capacity w id ids reg w' :
  rtc gateway_step (gateway_new capacity) w →
  routes_fenced (gw_store w) id = true →
  cancel_collect id (gw_sessions w) = (ids, reg) →
  rtc (fenced_step id)
    (mkGatewayWorld (gw_store w) reg (ids ++ gw_cancelling w) (gw_clients w)) w' →
  gw_cancelling w' = [] →
  ∀ i s, served w' i id s → poll_cancelled s (gw_sessions w') = true.
Proof.
  intros Hreach Hf Hc Hrun Hdone i s Hi.
  destruct (reachable_exact _ _ Hreach) as [h Hex].
  set (w1 := mkGatewayWorld _ _ _ _) in Hrun.
  assert (∃ h1, clients_exact w1 h1) as Hex1.
  { apply (gateway_step_exact w w1 h); [|done]. destruct w. by eapply gw_cancel. }
  assert (draining id w1) as Hd1.
  { intros j x Hj. right. cbn. apply elem_of_app. left.
    apply cancel_collect_ids in Hc as (_ & _ & _ & Hids); [|apply Hex].
    destruct (served_live _ _ _ _ _ Hex Hj) as (y & Hy & Hyt). apply Hids. eauto. }
  assert ((∃ h', clients_exact w' h') ∧ routes_fenced (gw_store w') id = true ∧ draining id w')
    as ([h' Hex'] & _ & Hd).
  { revert Hrun. apply (rtc_ind_r (λ w', (∃ h', clients_exact w' h') ∧
      routes_fenced (gw_store w') id = true ∧ draining id w')); [done|].
    intros w2 w3 _ [Hs Hf3] ([h2 He] & Hf2 & Hd2). split_and!; [by eapply gateway_step_exact|done|].
    intros j x Hj. pose proof (fenced_served _ _ _ _ _ _ Hs He Hf2 Hj) as Hj2.
    apply (step_shut_out _ _ _ _ Hs He); [|by eapply Hd2].
    destruct (served_live _ _ _ _ _ He Hj2) as (y & Hy & _). eauto. }
  destruct (Hd _ _ Hi) as [[_ Hout]|Hin]; [|rewrite Hdone in Hin; set_solver].
  destruct (served_live _ _ _ _ _ Hex' Hi) as (x & Hx & _).
  unfold poll_cancelled. rewrite Hx. by apply Hout.
Qed.
End gateway.

(** ** Sessions of a resolution *)

Section resolution.
Context {Sem : Type} `{Semaphore Sem}.

(** The registry [reg'] has one session more than [reg], of [tenant]. *)
Definition one_more (tenant : string) (auth : bool) (session : Z) (reg reg' : Sessions Sem) :
    Prop :=
  live reg !! session = None ∧
  ∃ b, live reg' = <[session := mkTenantSession tenant b auth false]> (live reg).

Lemma insert_one_more tenant limit auth reg r reg' :
  registry_exact reg → next_id reg < u64_max → insert_session tenant limit auth reg = (r, reg') →
  match r with
  | Ok session => one_more tenant auth session reg reg'
  | Err _ => live reg' = live reg
  end.
Proof.
  intros Hex Hn. unfold insert_session. destruct (tenant_entry _ _ _) as [e reg1] eqn:E.
  apply tenant_entry_exact in E as (_ & _ & El & _); [|done..].
  destruct (negb _); intros [= <- <-]; [done|]. split; [|cbn; rewrite El; eauto].
  apply eq_None_not_Some. intros Hs%(exact_fresh _ Hex). lia.
Qed.

Lemma drop_one_more tenant auth session reg reg' :
  one_more tenant auth session reg reg' → live (drop_session session reg') = live reg.
Proof.
  intros (Hnew & b & El). unfold drop_session. rewrite El, lookup_insert_eq. cbn.
  destruct (tenants reg' !! tenant); [case_bool_decide|]; cbn; rewrite ?El;
    by apply delete_insert_id.
Qed.

Lemma finish_route_cases see id endpoint revision session tenant auth reg reg' r reg'' :
  one_more tenant auth session reg reg' →
  run_task see (finish_route id endpoint revision session) reg' = (r, reg'') →
  match r with
  | Some route => route = mkResolvedRoute id endpoint session ∧
      one_more tenant auth session reg reg'' ∧
      route_is_current (see AtCheck) id revision = true ∧
      route_is_current (see AtRecheck) id revision = true
  | None => live reg'' = live reg
  end.
Proof.
  intros Hm. rewrite run_finish_route.
  destruct (route_is_current _ _ _); cbn [andb]; [|intros [= <- <-]; by eapply drop_one_more].
  destruct (route_is_current _ _ _); intros [= <- <-]; [done|by eapply drop_one_more].
Qed.

Lemma open_route_cases st1 st2 t reg r reg' :
  registry_exact reg → next_id reg < u64_max → open_route_at st1 st2 t reg = (r, reg') →
  match r with
  | Some route =>
      route = mkResolvedRoute (target_instance_id t) (target_endpoint t) (resolved_session route) ∧
      one_more (target_instance_id t) true (resolved_session route) reg reg' ∧
      route_is_current st1 (target_instance_id t) (target_revision t) = true ∧
      route_is_current st2 (target_instance_id t) (target_revision t) = true
  | None => live reg' = live reg
  end.
Proof.
  intros Hex Hn. unfold open_route_at, open_route, resolve_target, task_try_open. cbn -[finish_route].
  destruct (insert_session _ _ _ _) as [[s|e] reg1] eqn:Hi;
    apply insert_one_more in Hi; try done; [|by intros [= <- <-]].
  intros Hf. eapply finish_route_cases in Hf; [|done].
  destruct r as [route|]; [|done]. by destruct Hf as (-> & Hf).
Qed.

Lemma insert_next_id tenant limit auth reg r reg' :
  registry_exact reg → next_id reg < u64_max → insert_session tenant limit auth reg = (r, reg') →
  next_id reg' = next_id reg + 1.
Proof.
  intros Hex Hn. unfold insert_session. destruct (tenant_entry _ _ _) as [e reg1] eqn:E.
  apply tenant_entry_exact in E as (_ & _ & _ & Hid); [|done..].
  destruct (negb _); intros [= <- <-]; cbn; lia.
Qed.

Lemma drop_next_id id (reg : Sessions Sem) : next_id (drop_session id reg) = next_id reg.
Proof. unfold drop_session. by repeat case_match. Qed.

(** Opening a route leaves an exact registry and uses up one session number. *)
Lemma open_route_registry see t (reg : Sessions Sem) :
  registry_exact reg → next_id reg < u64_max →
  let reg' := (run_task see (open_route t) reg).2 in
  registry_exact reg' ∧ next_id reg' ≤ next_id reg + 1.
Proof.
  intros Hex Hn. unfold open_route, resolve_target, task_try_open. cbn -[finish_route].
  destruct (insert_session _ _ _ _) as [r reg1] eqn:Hi.
  pose proof (exact_insert _ _ _ _ _ _ Hex Hn Hi). pose proof (insert_next_id _ _ _ _ _ _ Hex Hn Hi).
  destruct r as [s|e]; [|cbn; auto with lia]. rewrite run_finish_route.
  destruct (_ && _); cbn; [auto with lia|]. split; [by apply exact_drop|]. rewrite drop_next_id. lia.
Qed.

(** A resolution never leaks a session and never yields a stale route.
    Whatever the store does meanwhile, a lookup, a pending PostgreSQL login or
    the activation of a MongoDB login that fails leaves the live sessions as
    they were; one that succeeds has opened exactly one session, of the
    instance it resolved to, for a route that was current at the last check,
    and a MongoDB login is activated only on the very route it authenticated
    against. *)
Theorem resolution_opens_one_current_session st0 st0' st1 st2 user db pending reg :
  registry_exact reg → next_id reg < u64_max →
  (∀ t reg', resolve_postgres_at st0 st0' st1 st2 user db reg = (t, reg') →
     match t with
     | Found _ p =>
         let r := pending_target p in
         one_more (resolved_instance_id r) false (resolved_session r) reg reg' ∧
         route_is_current st2 (resolved_instance_id r) (pending_revision p) = true
     | _ => live reg' = live reg
     end) ∧
  (∀ t reg', resolve_clickhouse_at st0 st0' st1 st2 user db reg = (t, reg') →
     match t with
     | Found _ r =>
         one_more (resolved_instance_id r) true (resolved_session r) reg reg' ∧
         ∃ revision, route_is_current st2 (resolved_instance_id r) revision = true
     | _ => live reg' = live reg
     end) ∧
  (∀ r reg', activate_mongodb_at st0 st1 st2 pending reg = (r, reg') →
     match r with
     | Some route =>
         let t := mongo_target pending in
         resolve_mongodb st0 (mongo_username pending) (mongo_database pending) = Some t ∧
         resolved_endpoint route = target_endpoint t ∧
         one_more (target_instance_id t) true (resolved_session route) reg reg' ∧
         route_is_current st2 (target_instance_id t) (target_revision t) = true
     | None => live reg' = live reg
     end).
Proof.
  intros Hex Hn. split_and!.
  - intros r reg'. unfold resolve_postgres_at, resolver_resolve_postgres.
    rewrite run_bind, run_retried. cbn [fst snd]. rewrite run_open_found.
    destruct (retried _ _ _ _ _ _) as [d t| |]; [|by intros [= <- <-]..].
    cbn -[finish_route]. destruct (insert_session _ _ _ _) as [[s|e] reg1] eqn:Hi;
      apply insert_one_more in Hi; try done; [|by intros [= <- <-]].
    cbn -[finish_route]. rewrite run_bind.
    destruct (run_task _ (finish_route _ _ _ _) _) as [[p|] reg2] eqn:Hf;
      eapply finish_route_cases in Hf; try done; [|by intros [= <- <-]].
    destruct Hf as (-> & Hm & _ & Hc). by intros [= <- <-].
  - intros r reg'. rewrite resolve_clickhouse_at_eq.
    destruct (retried _ _ _ _ _ _) as [d t| |]; [|by intros [= <- <-]..].
    destruct (open_route_at _ _ _ _) as [[p|] reg1] eqn:Ho;
      apply open_route_cases in Ho; try done; [|by intros [= <- <-]].
    destruct Ho as (-> & Hm & _ & Hc). intros [= <- <-]. cbn in *. eauto.
  - intros r reg'. rewrite activate_mongodb_at_eq.
    destruct (resolve_mongodb _ _ _) as [t|]; [|by intros [= <- <-]].
    case_bool_decide as Ht; [subst|by intros [= <- <-]].
    intros Ho%open_route_cases; [|done..]. destruct r as [route|]; [|done].
    destruct Ho as (-> & Hm & _ & Hc). done.
Qed.
End resolution.

(** ** Examples *)

Module ResolverDemo.
Import StoreDemo.

(** A client of instance [a] logs in and is served; then [a] is fenced and
    cancelled. *)
Definition demo_login : Login := LoginPostgres "alice" (Some "shop").
Definition demo_st1 : InstanceState := run demo_sha (Upsert demo_a) instance_state_default.
Definition demo_st5 : InstanceState := run demo_sha (FenceRoutes "a") demo_st1.
Definition demo_registry : Sessions Z :=
  default (sessions_new 100) (snd <$> steps_alone 7 demo_st1 (login demo_login) (sessions_new 100)).
Definition demo_collected : Sessions Z := (cancel_collect "a" demo_registry).2.
Definition demo_thrown_out : Sessions Z := cancel_session 0 demo_collected.

Definition demo_arrived : gmap nat (Task (option (string * Z))) := <[0%nat := login demo_login]> ∅.
Definition demo_ready : gmap nat (Task (option (string * Z))) :=
  <[0%nat := Ret (Some ("a", 0))]> demo_arrived.

Abbreviation demo_w5 := (mkGatewayWorld demo_st5 demo_registry [] demo_ready).
Abbreviation demo_w7 := (mkGatewayWorld demo_st5 demo_thrown_out [] demo_ready).

Lemma demo_st1_eq : run demo_sha (Upsert demo_a) instance_state_default = demo_st1.
Proof. unfold demo_st1. reflexivity. Qed.

Lemma demo_st5_eq : run demo_sha (FenceRoutes "a") demo_st1 = demo_st5.
Proof. unfold demo_st5. reflexivity. Qed.

Lemma demo_logged_in :
  steps_alone 7 demo_st1 (login demo_login) (sessions_new 100) = Some (Ret (Some ("a", 0)), demo_registry).
Proof. vm_compute. reflexivity. Qed.

Lemma demo_arrived_first : demo_arrived !! 0%nat = Some (login demo_login).
Proof. apply lookup_insert_eq. Qed.

Lemma demo_ready_first : demo_ready !! 0%nat = Some (Ret (Some ("a", 0))).
Proof. apply lookup_insert_eq. Qed.

Lemma demo_gateway_reachable : rtc (gateway_step demo_sha) (gateway_new 100) demo_w5.
Proof.
  apply (rtc_l _ _ (mkGatewayWorld demo_st1 (sessions_new 100) [] ∅)).
  { rewrite <-demo_st1_eq.
    exact (gw_command demo_sha (Upsert demo_a) instance_state_default (sessions_new 100) [] ∅). }
  apply (rtc_l _ _ (mkGatewayWorld demo_st1 (sessions_new 100) [] demo_arrived)).
  { exact (gw_arrive demo_sha 0 demo_login demo_st1 (sessions_new 100) [] ∅ eq_refl). }
  transitivity (mkGatewayWorld demo_st1 demo_registry [] demo_ready).
  { exact (alone_reaches demo_sha 7 0 demo_st1 (login demo_login) (Ret (Some ("a", 0)))
      (sessions_new 100) demo_registry [] demo_arrived demo_arrived_first demo_logged_in). }
  apply rtc_once. rewrite <-demo_st5_eq.
  exact (gw_command demo_sha (FenceRoutes "a") demo_st1 demo_registry [] demo_ready).
Qed.

Lemma demo_fenced : routes_fenced demo_st5 "a" = true.
Proof. vm_compute. reflexivity. Qed.

Lemma demo_drained :
  rtc (fenced_step demo_sha "a")
    (mkGatewayWorld demo_st5 demo_collected ([0] ++ []) demo_ready) demo_w7.
Proof.
  apply rtc_once. split; [|exact demo_fenced].
  exact (gw_cancel_one demo_sha 0 [] [] demo_st5 demo_collected demo_ready).
Qed.

End ResolverDemo.

Import ResolverDemo.

Lemma fenced_instance_drains_witness : poll_cancelled 0 demo_thrown_out = true.
Proof.
  apply (fenced_instance_drains StoreDemo.demo_sha 100 demo_w5 "a" [0] demo_collected demo_w7
    demo_gateway_reachable demo_fenced) with (i := 0%nat).
  - vm_compute. reflexivity.
  - exact demo_drained.
  - reflexivity.
  - exact demo_ready_first.
Defined.

Lemma sessions_belong_to_clients_witness :
  ∃ x, live (gw_sessions demo_w5) !! 0 = Some x ∧ session_tenant x = "a".
Proof.
  destruct (sessions_belong_to_clients StoreDemo.demo_sha 100 demo_w5 demo_gateway_reachable) as [_ H].
  exact (H 0%nat "a" 0 demo_ready_first).
Defined.

Lemma resolution_opens_one_current_session_witness :
  ∃ reg' : Sessions Z,
    live (resolve_postgres_at StoreDemo.demo_store StoreDemo.demo_store StoreDemo.demo_store
            StoreDemo.demo_store "carol" None (sessions_new 100)).2 = live reg' ∧
    live reg' = ∅.
Proof.
  exists (sessions_new 100). split; [|reflexivity].
  destruct (resolution_opens_one_current_session StoreDemo.demo_store StoreDemo.demo_store
    StoreDemo.demo_store StoreDemo.demo_store "carol" None
    (mkPendingMongodbRoute (route_target StoreDemo.store_demo_first "a" StoreDemo.demo_a) "carol" "x")
    (sessions_new (Sem := Z) 100)) as [H _].
  - apply exact_new.
  - reflexivity.
  - apply (H NotFound). vm_compute. reflexivity.
Defined.
