(* ===== verification/PgGateway.v ===== *)
(** * From the first bytes of a PostgreSQL client to its session

    Models [handle_postgres_client] of [gateway/listeners/postgres_listener.rs]
    up to the relay: the negotiation of encryption, the routing of the startup
    packet ([PgProto], [Resolver]), its rewriting to the resolved database, and
    the second phase, in which the backend authenticates the client and the
    session is admitted.

    The TLS library is a parameter: an acceptor turns what a client sends into
    the protocol negotiated and the bytes inside the encryption, or fails.  The
    timeout and the slots of the handshake are not modelled; a client that is
    given up there is one that goes away in [Resolver]. *)
From S2P Require Import Prelude Bytes Engines PgProto RouteStore Sessions Resolver.

Local Open Scope Z_scope.

(** ** Reading and answering a client *)

(** A handshake reads from a stream, which TLS may replace, and writes to the
    client: the result with what is left of the stream, and what was written. *)
Definition Handshake (A : Type) : Type := bytes → result ListenerError (A * bytes) * bytes.
#[export] Instance Handshake_ret : MRet Handshake := λ A a client, (Ok (a, client), []).
#[export] Instance Handshake_bind : MBind Handshake := λ A B f m client,
  match m client with
  | (Err e, out) => (Err e, out)
  | (Ok (a, client), out) => let '(r, out') := f a client in (r, out ++ out')
  end.

Definition hs_fail {A} (e : ListenerError) : Handshake A := λ _, (Err e, []).
Definition hs_read : Handshake bytes := λ client, (read_postgres_startup client, []).
Definition hs_write (v : bytes) : Handshake unit := λ client, (Ok (tt, client), v).

(** [TlsAcceptor::accept]. *)
Definition TlsAcceptor : Type := bytes → option (option bytes * bytes).
Definition hs_accept (tls : TlsAcceptor) : Handshake (option bytes) := λ client,
  (ok_or (tls client) ListenerIo, []).

Definition TLS_HANDSHAKE_RECORD_TYPE : byte := x16.

(** [peek] leaves the byte in the stream. *)
Definition postgres_wants_direct_tls : Handshake bool := λ client,
  (Ok (bool_decide (head client = Some TLS_HANDSHAKE_RECORD_TYPE), client), []).

(** The loop that answers requests for GSS encryption: a packet has at least
    eight bytes, so the length of the stream bounds its turns. *)
Fixpoint refuse_gss (fuel : nat) (packet : bytes) : Handshake bytes :=
  match fuel with
  | O => hs_fail ListenerIo
  | S fuel =>
      if is_gssenc_request packet
      then hs_write (lit "N") ≫= λ _, hs_read ≫= refuse_gss fuel
      else mret packet
  end.

(** The first packet, and whether the connection is encrypted. *)
Definition read_first (tls : option TlsAcceptor) : Handshake (bytes * bool) :=
  match tls with
  | None => packet ← hs_read; mret (packet, false)
  | Some accept =>
      direct ← postgres_wants_direct_tls;
      if direct : bool then
        alpn ← hs_accept accept;
        if bool_decide (alpn ≠ Some (lit "postgresql"))
        then hs_fail (ListenerPostgres DirectTlsAlpnRequired)
        else packet ← hs_read; mret (packet, true)
      else packet ← hs_read; mret (packet, false)
  end.

(** The packet that starts the session. *)
Definition read_startup_packet (tls : option TlsAcceptor) : Handshake bytes :=
  '(packet, encrypted) ← read_first tls;
  packet ← (λ client, refuse_gss (S (length client)) packet client);
  if is_ssl_request packet then
    if encrypted : bool then hs_fail (ListenerPostgres UnsupportedStartupRequest)
    else
      match tls with
      | Some accept => hs_write (lit "S") ≫= λ _, hs_accept accept ≫= λ _, hs_read
      | None => hs_write (lit "N") ≫= λ _, hs_read
      end
  else if bool_decide (is_Some tls) && negb encrypted
  then hs_fail (ListenerPostgres UnsupportedStartupRequest)
  else mret packet.

(** ** Routing *)

Inductive PgListenerError :=
  | PgListener (e : ListenerError)
  | PgRouteNotFound
  | PgAmbiguousRoute
  | PgBackend
  | PgSession (e : PostgresSessionError).

(** How the first phase ends: a request to cancel is forwarded by its key, a
    session goes on with its route, the packet for the backend and what is left
    of the client's stream. *)
Inductive PgInitial :=
  | PgCancel (key : CancelKey) (packet : bytes)
  | PgRouted (pending : PendingPostgresRoute) (packet client : bytes).

Section listener.
Context {Sem : Type} `{Semaphore Sem}.

Abbreviation pending_session pending := (resolved_session (pending_target pending)).

Definition prepare_postgres (tls : option TlsAcceptor) (st0 st0' st1 st2 : InstanceState)
    (client : bytes) (reg : Sessions Sem) :
    result PgListenerError PgInitial * bytes * Sessions Sem :=
  match read_startup_packet tls client with
  | (Err e, sent) => (Err (PgListener e), sent, reg)
  | (Ok (packet, client), sent) =>
      match cancel_request_key packet with
      | Some key => (Ok (PgCancel key packet), sent, reg)
      | None =>
          match parse_startup_route packet with
          | Err e => (Err (PgListener (ListenerPostgres e)), sent, reg)
          | Ok route =>
              match resolve_postgres_at st0 st0' st1 st2 (text (user route))
                      (option_map text (database route)) reg with
              | (NotFound, reg) => (Err PgRouteNotFound, sent ++ auth_error_packet, reg)
              | (Ambiguous, reg) => (Err PgAmbiguousRoute, sent ++ auth_error_packet, reg)
              | (Found db pending, reg) =>
                  if bool_decide (database route = Some (lit db))
                  then (Ok (PgRouted pending packet client), sent, reg)
                  else
                    match startup_packet_with_database packet (lit db) with
                    | Ok packet => (Ok (PgRouted pending packet client), sent, reg)
                    | Err e =>
                        (Err (PgListener (ListenerPostgres e)), sent,
                         drop_session (pending_session pending) reg)
                    end
              end
          end
      end
  end.

(** ** The second phase *)

(** What the relay starts with: the route, the key that is registered for
    cancellation, and what was written to the client and to the backend. *)
Record PgSessionStart := mkPgSessionStart {
  start_route : ResolvedRoute;
  start_key : option CancelKey;
  start_conversation : Conversation;
}.

(** [backend] is what the backend sends, if it can be reached; the packet of the
    first phase is written to it.  Every early return drops the session with the
    connection to the backend.  [PgRouteNotFound] stands for the error of
    [authenticate_session] as well. *)
Definition authenticate_postgres (st1 st2 : InstanceState) (pending : PendingPostgresRoute)
    (packet client : bytes) (backend : option bytes) (targets : Registry ResolvedRoute)
    (reg : Sessions Sem) :
    result PgListenerError (option PgSessionStart) * Registry ResolvedRoute * Sessions Sem :=
  let dropped := drop_session (pending_session pending) reg in
  match backend with
  | None => (Err PgBackend, targets, dropped)
  | Some backend =>
      match proxy_startup (mkConversation client backend [] packet) with
      | Err e => (Err (PgSession e), targets, dropped)
      | Ok (None, _) => (Ok None, targets, dropped)
      | Ok (Some startup, c) =>
          match run_task (seen_at st1 st1 st1 st2) (activate_postgres pending) reg with
          | (None, reg) => (Err PgRouteNotFound, targets, reg)
          | (Some route, reg) =>
              match finish startup route targets with
              | Err e => (Err (PgSession e), targets, drop_session (resolved_session route) reg)
              | Ok (key, ready, targets) =>
                  (Ok (Some (mkPgSessionStart route key
                    (mkConversation (client_in c) (backend_in c) (client_out c ++ ready) (backend_out c)))),
                   targets, reg)
              end
          end
      end
  end.
End listener.

(** ** The handshake *)

(** Whatever a handshake returns satisfies [P]. *)
Definition yields {A} (m : Handshake A) (P : A → Prop) : Prop :=
  ∀ client a client' out, m client = (Ok (a, client'), out) → P a.

Lemma yields_bind {A B} (m : Handshake A) (f : A → Handshake B) P Q :
  yields m Q → (∀ a, Q a → yields (f a) P) → yields (m ≫= f) P.
Proof.
  intros Hm Hf client b client' out. unfold mbind, Handshake_bind.
  destruct (m client) as [[[a client1]|e] out1] eqn:E; [|done].
  destruct (f a client1) as [r out2] eqn:Ef. intros [= -> _]. by eapply Hf; [eapply Hm|].
Qed.

Lemma yields_any {A} (m : Handshake A) : yields m (λ _, True).
Proof. done. Qed.

Lemma yields_ret {A} (a : A) (P : A → Prop) : P a → yields (mret a) P.
Proof. by intros Ha client x client' out [= <- _ _]. Qed.

Lemma yields_fail {A} e (P : A → Prop) : yields (hs_fail e) P.
Proof. by intros client a client' out ?. Qed.

(** A packet the listener accepts. *)
Definition small (packet : bytes) : Prop := zlength packet ≤ MAX_ROUTING_HANDSHAKE_BYTES.

Lemma read_startup_spec client packet client' :
  read_postgres_startup client = Ok (packet, client') →
  client = packet ++ client' ∧ 8 ≤ zlength packet ∧ small packet.
Proof.
  unfold read_postgres_startup, small. intros ([len rest] & Hr%ok_or_Ok & Hx)%bind_Ok.
  apply read_exact_Some in Hr as [-> Hlen]. destruct (negb _) eqn:Hb; [done|].
  apply negb_false_iff, andb_true_iff in Hb as [H8%Z.leb_le Hmax%Z.leb_le].
  apply bind_Ok in Hx as ([body rest'] & Hr%ok_or_Ok & [= <- <-]).
  apply read_exact_Some in Hr as [-> Hbody]. rewrite <-app_assoc, length_app. split; [done|]. lia.
Qed.

Lemma yields_read : yields hs_read small.
Proof. intros client packet client' out [= H _]. by apply read_startup_spec in H as (_ & _ & ?). Qed.

Lemma yields_refuse_gss fuel packet : small packet → yields (refuse_gss fuel packet) small.
Proof.
  revert packet. induction fuel as [|fuel IH]; intros packet Hp; cbn [refuse_gss]; [apply yields_fail|].
  destruct (is_gssenc_request packet); [|by apply yields_ret].
  eapply yields_bind; [apply yields_any|]. intros [] _. eapply yields_bind; [apply yields_read|]. exact IH.
Qed.

Lemma yields_first tls : yields (read_first tls) (λ p, small p.1).
Proof.
  assert (Hread : ∀ e : bool, yields (packet ← hs_read; mret (packet, e)) (λ p, small p.1)).
  { intros e. eapply yields_bind; [apply yields_read|]. intros packet Hp. by apply yields_ret. }
  destruct tls as [accept|]; [|apply Hread]. cbn [read_first].
  eapply yields_bind; [apply yields_any|]. intros [] _; [|apply Hread].
  eapply yields_bind; [apply yields_any|]. intros alpn _. case_bool_decide; [apply yields_fail|apply Hread].
Qed.

Lemma yields_startup tls : yields (read_startup_packet tls) small.
Proof.
  eapply yields_bind; [apply yields_first|]. intros [packet encrypted] Hp.
  eapply (yields_bind _ _ _ small).
  { intros client a client' out. by apply yields_refuse_gss. }
  intros packet' Hp'. destruct (is_ssl_request packet').
  - destruct encrypted; [apply yields_fail|]. destruct tls as [accept|];
      (eapply yields_bind; [apply yields_any|]); intros [] _; [|apply yields_read].
    eapply yields_bind; [apply yields_any|]. intros ? _. apply yields_read.
  - destruct (_ && _); [apply yields_fail|by apply yields_ret].
Qed.

(** The bound on the turns is no limit: more fuel changes nothing. *)
Lemma refuse_gss_enough fuel packet client :
  (length client < fuel)%nat → refuse_gss (S fuel) packet client = refuse_gss fuel packet client.
Proof.
  assert (Hstep : ∀ n packet, refuse_gss (S n) packet
            = if is_gssenc_request packet
              then hs_write (lit "N");; next ← hs_read; refuse_gss n next
              else mret packet) by done.
  revert packet client. induction fuel as [|fuel IH]; intros packet client Hf; [lia|].
  rewrite (Hstep (S fuel)), (Hstep fuel). destruct (is_gssenc_request packet); [|done].
  unfold hs_write, hs_read, mbind, Handshake_bind.
  destruct (read_postgres_startup client) as [[packet' client']|e] eqn:Hr; [|done].
  apply read_startup_spec in Hr as (-> & Hlen & _). rewrite length_app in Hf.
  by rewrite IH by lia.
Qed.

(** What a handshake takes from the stream it returns. *)
Lemma refuse_gss_takes fuel packet client packet' client' sent :
  refuse_gss fuel packet client = (Ok (packet', client'), sent) →
  ∃ refused, packet ++ client = refused ++ packet' ++ client'.
Proof.
  revert packet client sent. induction fuel as [|fuel IH]; intros packet client sent; [done|].
  cbn [refuse_gss]. destruct (is_gssenc_request packet); [|intros [= <- <- <-]; by exists []].
  unfold hs_write, hs_read, mbind, Handshake_bind.
  destruct (read_postgres_startup client) as [[next client1]|e] eqn:Hr; [|done].
  apply read_startup_spec in Hr as (-> & _).
  destruct (refuse_gss fuel next client1) as [r out] eqn:Hg. intros [= -> _].
  destruct (IH _ _ _ Hg) as [refused ->]. exists (packet ++ refused). by rewrite <-app_assoc.
Qed.

(** The packet and what follows it come out of the encryption that the acceptor
    negotiated on what the client sent. *)
Definition inside_tls (accept : TlsAcceptor) (client packet client' : bytes) : Prop :=
  ∃ before raw alpn refused plain,
    client = before ++ raw ∧ accept raw = Some (alpn, plain) ∧ plain = refused ++ packet ++ client'.

Lemma startup_inside_tls accept client packet client' sent :
  read_startup_packet (Some accept) client = (Ok (packet, client'), sent) →
  inside_tls accept client packet client'.
Proof.
  unfold read_startup_packet, read_first, postgres_wants_direct_tls, hs_accept, hs_read, hs_write, hs_fail,
    mbind, Handshake_bind, mret, Handshake_ret.
  case_bool_decide.
  - destruct (accept client) as [[alpn plain]|] eqn:Ha; cbn -[refuse_gss]; [|done].
    case_bool_decide; [done|].
    destruct (read_postgres_startup plain) as [[first rest]|] eqn:Hr; [|done]. cbn -[refuse_gss].
    apply read_startup_spec in Hr as (-> & _).
    destruct (refuse_gss _ _ _) as [[[next rest']|] out] eqn:Hg; [|done].
    apply refuse_gss_takes in Hg as [refused Hg]. destruct (is_ssl_request next); [done|].
    intros [= <- <- _]. by exists [], client, alpn, refused, (first ++ rest).
  - destruct (read_postgres_startup client) as [[first rest]|] eqn:Hr; [|done]. cbn -[refuse_gss].
    apply read_startup_spec in Hr as (-> & _).
    destruct (refuse_gss _ _ _) as [[[next rest']|] out] eqn:Hg; [|done].
    apply refuse_gss_takes in Hg as [refused Hg]. destruct (is_ssl_request next); [|done].
    destruct (accept rest') as [[alpn plain]|] eqn:Ha; [|done]. cbn.
    destruct (read_postgres_startup plain) as [[last rest'']|] eqn:Hr; [|done].
    apply read_startup_spec in Hr as (-> & _). intros [= <- <- _].
    exists (refused ++ next), rest', alpn, [], (last ++ rest''). by rewrite <-app_assoc.
Qed.

(** ** The packet for the backend *)

Lemma set_database_others db fs :
  filter (λ f, f.1 ≠ lit "database") (set_database db fs) = filter (λ f, f.1 ≠ lit "database") fs.
Proof.
  unfold set_database. destruct (split_database fs) as [[[before v] after]|] eqn:E.
  - apply split_database_Some in E as [-> _].
    rewrite !filter_app, !filter_cons. by rewrite !decide_False by (intros Hx; by apply Hx).
  - rewrite filter_app, filter_cons, decide_False by (intros Hx; by apply Hx). apply app_nil_r.
Qed.

(** [packet'] is the startup message [packet] of a well-behaved client, for
    [db]: the version, the user and every other parameter are the client's. *)
Definition only_names_database (packet packet' : bytes) (u db : bytes) : Prop :=
  ∀ version fs, length version = 4%nat → Forall field_ok fs → database_unique fs →
    packet = encode_startup version fs →
    parse_startup_route packet' = Ok {| user := u; database := Some db |}
    ∧ ∃ fs', packet' = encode_startup version fs' ∧ Forall field_ok fs'
        ∧ filter (λ f, f.1 ≠ lit "database") fs' = filter (λ f, f.1 ≠ lit "database") fs.

Lemma forwarded_names_database packet packet' route db :
  small packet → valid_utf8 db = true → zlength db ≤ 2 ^ 31 → parse_startup_route packet = Ok route →
  (database route = Some db ∧ packet' = packet ∨ startup_packet_with_database packet db = Ok packet') →
  only_names_database packet packet' (user route) db.
Proof.
  intros Hsmall Hutf Hsize Hparse Hfwd version fs Hv Hfs Huniq ->.
  destruct Hfwd as [[Hdb ->]|Hfwd].
  { rewrite Hparse. destruct route as [u d]. cbn in Hdb. rewrite Hdb. eauto. }
  assert (Hlen : zlength (fields_bytes fs) + 9 ≤ 64 * 1024)
    by (rewrite <-(encode_startup_length version fs Hv); exact Hsmall).
  pose proof (set_database_size db fs) as Hs. pose proof Hparse as Hu.
  rewrite parse_encoded in Hu by (auto; int_lia). unfold route_of in Hu.
  apply bind_Ok in Hu as (u & Hu%ok_or_Ok & [= Hroute]). rewrite <-Hroute. cbn [user].
  pose proof Hfwd as Hchecked. unfold startup_packet_with_database in Hchecked.
  rewrite Hparse in Hchecked. cbn [mbind result_bind] in Hchecked.
  destruct (bool_decide (db = [])) eqn:Hne; [done|]. apply bool_decide_eq_false in Hne.
  destruct (existsb is_nul db) eqn:Hnul; [done|].
  assert (no_nul db) as Hnn.
  { apply Forall_forall. intros b Hb. apply not_true_iff_false. intros Hb'.
    assert (existsb is_nul db = true); [|congruence]. apply existsb_exists.
    exists b. by rewrite <-list_elem_of_In. }
  rewrite (rewrite_encoded version fs db u) in Hfwd by (auto; int_lia). injection Hfwd as <-. split.
  - rewrite parse_encoded by (auto using set_database_ok; int_lia). unfold route_of.
    rewrite set_database_user, Hu, set_database_database by done. cbn. by destruct db.
  - exists (set_database db fs). split; [done|]. split; [by apply set_database_ok|apply set_database_others].
Qed.

(** ** The owner of the session *)

Section owner.
Context {Sem : Type} `{Semaphore Sem}.

(** A client whose startup packet asks for [route] is given [pending], with the
    database [db]: the store holds a running instance for this user and this
    database, the route is its endpoint, limit and revision with one new session
    that holds no slot yet, and it was current at the last look.  The database is
    the one asked for; if none was, or a placeholder of a driver, it is the only
    one of the user. *)
Definition pg_routed_to_owner (sha : string → string) (st0 st0' st2 : InstanceState)
    (route : StartupRoute) (db : string) (pending : PendingPostgresRoute)
    (reg reg' : Sessions Sem) : Prop :=
  let session := resolved_session (pending_target pending) in
  ∃ st id m, (st = st0 ∨ st = st0') ∧ owner sha st (KDatabase Postgres (text (user route)) db) id m
    ∧ (let t := route_target st id m in
       pending = mkPendingPostgresRoute (mkResolvedRoute id (target_endpoint t) session)
                   (target_connection_limit t) (target_revision t)
       ∧ route_is_current st2 id (target_revision t) = true)
    ∧ one_more id false session reg reg'
    ∧ ∃ d, asked_for (has_database Postgres (text (user route)) st) d db
        ∧ (d = option_map text (database route)
           ∨ d = None ∧ is_driver_placeholder_database Postgres (text (user route))
                          (option_map text (database route)) = true).

Lemma resolve_postgres_at_cases st0 st0' st1 st2 u d (reg : Sessions Sem) r reg' :
  registry_exact reg → next_id reg < u64_max →
  resolve_postgres_at st0 st0' st1 st2 u d reg = (r, reg') →
  match r with
  | Found db pending =>
      ∃ t, retried Postgres (λ st db, resolve_postgres st u db) st0 st0' u d = Found db t
        ∧ pending = mkPendingPostgresRoute
            (mkResolvedRoute (target_instance_id t) (target_endpoint t)
               (resolved_session (pending_target pending)))
            (target_connection_limit t) (target_revision t)
        ∧ one_more (target_instance_id t) false (resolved_session (pending_target pending)) reg reg'
        ∧ route_is_current st2 (target_instance_id t) (target_revision t) = true
  | _ => live reg' = live reg
  end.
Proof.
  intros Hex Hn. unfold resolve_postgres_at, resolver_resolve_postgres.
  rewrite run_bind, run_retried. cbn [fst snd]. rewrite run_open_found.
  destruct (retried _ _ _ _ _ _) as [db t| |]; [|by intros [= <- <-]..].
  cbn -[finish_route]. destruct (insert_session _ _ _ _) as [[s|e] reg1] eqn:Hi;
    apply insert_one_more in Hi; try done; [|by intros [= <- <-]].
  cbn -[finish_route]. rewrite run_bind.
  destruct (run_task _ (finish_route _ _ _ _) _) as [[p|] reg2] eqn:Hf;
    eapply finish_route_cases in Hf; try done; [|by intros [= <- <-]].
  destruct Hf as (-> & Hm & _ & Hc). intros [= <- <-]. exists t. done.
Qed.

Lemma resolve_postgres_at_owner sha st0 st0' st1 st2 route db pending (reg reg' : Sessions Sem) :
  store_reachable sha st0 → store_reachable sha st0' → registry_exact reg → next_id reg < u64_max →
  resolve_postgres_at st0 st0' st1 st2 (text (user route)) (option_map text (database route)) reg
  = (Found db pending, reg') →
  pg_routed_to_owner sha st0 st0' st2 route db pending reg reg'.
Proof.
  intros Hr0 Hr0' Hex Hn Hres. apply resolve_postgres_at_cases in Hres as (t & Ht & Hp & Hm & Hc); [|done..].
  assert (∃ st d, (st = st0 ∨ st = st0') ∧ resolve_postgres st (text (user route)) d = Found db t
            ∧ (d = option_map text (database route)
               ∨ d = None ∧ is_driver_placeholder_database Postgres (text (user route))
                              (option_map text (database route)) = true))
    as (st & d & Hst & Hres & Hd).
  { unfold retried in Ht. destruct (resolve_postgres st0 _ _) as [d' t'| |] eqn:E.
    - injection Ht as -> ->. exists st0, (option_map text (database route)). auto.
    - unfold should_retry_without_database in Ht.
      destruct (is_driver_placeholder_database _ _ _) eqn:Hpl; [|done]. exists st0', None. auto.
    - done. }
  assert (Hreach : store_reachable sha st) by (by destruct Hst as [->| ->]).
  destruct (resolve_database_target_owner sha Postgres st (text (user route)) d db t (route_target st)
    (store_reachable_inv sha st Hreach) Hres) as (id & m & How & -> & Hdb).
  pose proof How as (_ & Hid & _).
  assert (Ht' : target_instance_id (route_target st id m) = id) by done. rewrite Ht' in *.
  exists st, id, m. do 4 (split; [done|]). exists d. by split.
Qed.

Lemma resolved_names_ok sha (names : string → Prop) st0 st0' st2 route db pending (reg reg' : Sessions Sem) :
  (∀ st id m, st = st0 ∨ st = st0' → instances st !! id = Some m → names (name (identity m))) →
  pg_routed_to_owner sha st0 st0' st2 route db pending reg reg' → names db.
Proof.
  intros Hnames (st & id & m & Hst & (Hm & _ & (_ & _ & _ & <-) & _) & _). by eapply Hnames.
Qed.


(** What is read of a message whose last [database] parameter is [w]. *)
Lemma last_database_read version before x after w u :
  length version = 4%nat → fields_map after ∅ !! lit "database" = Some w → w ≠ [] →
  fields_map (before ++ after) ∅ !! lit "user" = Some u →
  let fs := before ++ (lit "database", x) :: after in
  zlength (fields_bytes fs) + 9 ≤ u32_max → Forall field_ok fs →
  fields_map fs ∅ !! lit "user" = Some u
  ∧ parse_startup_route (encode_startup version fs) = Ok {| user := u; database := Some w |}.
Proof.
  intros Hv Hlast Hw Hu fs Hlen Hok.
  assert (Huser : fields_map fs ∅ !! lit "user" = Some u).
  { unfold fs. rewrite fields_map_app, fields_map_cons, <-Hu, fields_map_app.
    apply fields_map_agree. by apply lookup_insert_ne. }
  split; [done|]. rewrite parse_encoded by done. unfold route_of. rewrite Huser. unfold fs.
  rewrite fields_map_app, fields_map_cons, (fields_map_last _ _ _ w Hlast). cbn. by destruct w.
Qed.

(** C39. The gateway routes by the last [database] parameter but rewrites the first: a
    client that repeats the parameter, and whose last value is a placeholder for
    which the resolver chose [db], is let through with its last value in place.
    The packet the backend gets is read, by the gateway's own parser, as the
    client's database [w] instead of [db]. *)
Theorem repeated_database_not_rewritten tls st0 st0' st1 st2 client client' sent (reg reg' : Sessions Sem)
    version before v after w u db pending :
  let packet := encode_startup version (before ++ (lit "database", v) :: after) in
  let packet' := encode_startup version (before ++ (lit "database", lit db) :: after) in
  length version = 4%nat → Forall field_ok (before ++ (lit "database", v) :: after) →
  Forall (λ f, f.1 ≠ lit "database") before →
  fields_map after ∅ !! lit "database" = Some w → w ≠ [] →
  fields_map (before ++ after) ∅ !! lit "user" = Some u →
  lit db ≠ [] → lit db ≠ w → no_nul (lit db) → valid_utf8 (lit db) = true → zlength (lit db) ≤ 2 ^ 31 →
  read_startup_packet tls client = (Ok (packet, client'), sent) → cancel_request_key packet = None →
  resolve_postgres_at st0 st0' st1 st2 (text u) (Some (text w)) reg = (Found db pending, reg') →
  prepare_postgres tls st0 st0' st1 st2 client reg = (Ok (PgRouted pending packet' client'), sent, reg')
  ∧ parse_startup_route packet' = Ok {| user := u; database := Some w |}.
Proof.
  intros packet packet' Hv Hfs Hbefore Hlast Hw Hu Hne Hdiff Hnul Hutf Hsize Hread Hcancel Hres.
  set (fs := before ++ (lit "database", v) :: after) in *.
  assert (Hset : set_database (lit db) fs = before ++ (lit "database", lit db) :: after)
    by (unfold set_database, fs; by rewrite split_database_first).
  pose proof (yields_startup tls client packet client' sent Hread) as Hsmall.
  assert (Hlen : zlength (fields_bytes fs) + 9 ≤ 64 * 1024)
    by (rewrite <-(encode_startup_length version fs Hv); exact Hsmall).
  pose proof (set_database_size (lit db) fs) as Hs.
  destruct (last_database_read version before v after w u) as [Huser Hparse];
    [done|done|done|done|fold fs; int_lia|done|]. fold fs packet in Hparse.
  split; [|apply last_database_read; rewrite <-?Hset; try done; [int_lia|by apply set_database_ok]].
  unfold prepare_postgres. rewrite Hread, Hcancel, Hparse. cbn [user database option_map].
  rewrite Hres, bool_decide_false by congruence. unfold packet.
  rewrite (rewrite_encoded version fs (lit db) u); [by rewrite Hset|try done; int_lia..].
Qed.

(** ** The admission of the session *)

Lemma authenticate_one_more tenant session limit (reg reg' : Sessions Sem) r reg'' :
  one_more tenant false session reg reg' → authenticate session limit reg' = (r, reg'') →
  match r with
  | Ok _ => one_more tenant true session reg reg''
            ∧ ∃ entry, tenants reg' !! tenant = Some entry ∧ within_limit reg' entry limit = true
  | Err _ => reg'' = reg'
  end.
Proof.
  intros (Hnew & b & El). unfold authenticate. rewrite El, lookup_insert_eq. cbn.
  destruct (tenants reg' !! tenant) as [entry|] eqn:Ee; [|by intros [= <- <-]].
  destruct (within_limit reg' entry limit) eqn:Hl; cbn; [|by intros [= <- <-]].
  intros [= <- <-]. split; [|by eauto]. split; [done|]. exists b. cbn. by rewrite insert_insert_eq.
Qed.

Lemma activate_postgres_cases see pending tenant (reg reg' : Sessions Sem) r reg'' :
  let t := pending_target pending in
  one_more tenant false (resolved_session t) reg reg' →
  run_task see (activate_postgres pending) reg' = (r, reg'') →
  match r with
  | Some route =>
      route = t ∧ one_more tenant true (resolved_session t) reg reg''
      ∧ (∃ entry, tenants reg' !! tenant = Some entry
           ∧ within_limit reg' entry (pending_connection_limit pending) = true)
      ∧ route_is_current (see AtCheck) (resolved_instance_id t) (pending_revision pending) = true
      ∧ route_is_current (see AtRecheck) (resolved_instance_id t) (pending_revision pending) = true
  | None => live reg'' = live reg
  end.
Proof.
  intros t Hm. unfold activate_postgres. rewrite run_checked. fold t.
  destruct (route_is_current _ _ _); [|intros [= <- <-]; by eapply drop_one_more].
  rewrite run_bind. cbn [run_task task_authenticate].
  destruct (authenticate _ _ _) as [admitted reg1] eqn:Ha. cbn [fst snd].
  eapply authenticate_one_more in Ha; [|done]. destruct admitted as [[]|e].
  - destruct Ha as [Hm' Hl]. rewrite run_checked.
    destruct (route_is_current _ _ _); intros [= <- <-]; [done|by eapply drop_one_more].
  - subst reg1. intros [= <- <-]. by eapply drop_one_more.
Qed.

(** A session that was routed is admitted only after the backend is ready for
    queries, within the limit of its instance and while its route is current; it
    then counts as authenticated, its cancel key is registered for its own
    target, and the client gets what the backend sent, the readiness last.
    Every other end of the login leaves neither a session nor a key behind. *)
Theorem postgres_session_admitted st1 st2 pending packet client backend targets (reg0 reg : Sessions Sem)
    r targets' reg' :
  let t := pending_target pending in
  one_more (resolved_instance_id t) false (resolved_session t) reg0 reg →
  authenticate_postgres st1 st2 pending packet client backend targets reg = (r, targets', reg') →
  match r with
  | Ok (Some start) =>
      start_route start = t
      ∧ one_more (resolved_instance_id t) true (resolved_session t) reg0 reg'
      ∧ (∃ entry, tenants reg !! resolved_instance_id t = Some entry
           ∧ within_limit reg entry (pending_connection_limit pending) = true)
      ∧ route_is_current st1 (resolved_instance_id t) (pending_revision pending) = true
      ∧ route_is_current st2 (resolved_instance_id t) (pending_revision pending) = true
      ∧ (∃ answers startup c, backend = Some answers
           ∧ proxy_startup (mkConversation client answers [] packet) = Ok (Some startup, c)
           ∧ start_key start = startup_key startup
           ∧ client_out (start_conversation start) = client_out c ++ ready startup)
      ∧ match start_key start with
        | Some key => targets !! key = None ∧ targets' = <[key := t]> targets
        | None => targets' = targets
        end
  | _ => live reg' = live reg0 ∧ targets' = targets
  end.
Proof.
  intros t Hm. pose proof (drop_one_more _ _ _ _ _ Hm) as Hdrop. unfold authenticate_postgres.
  destruct backend as [answers|]; [|intros [= <- <- <-]; by split].
  destruct (proxy_startup _) as [[[startup|] c]|e] eqn:Hp; [|intros [= <- <- <-]; by split..].
  destruct (run_task _ _ _) as [[route|] reg1] eqn:Ha;
    eapply activate_postgres_cases in Ha; try done; [|intros [= <- <- <-]; by split].
  destruct Ha as (-> & Hm' & Hl & Hc1 & Hc2). unfold finish.
  destruct (startup_key startup) as [key|] eqn:Hk.
  - destruct (bool_decide _) eqn:Hnone; [intros [= <- <- <-]; split; [by eapply drop_one_more|done]|].
    apply bool_decide_eq_false, eq_None_not_Some in Hnone.
    destruct (_ <=? _); intros [= <- <- <-]; [split; [by eapply drop_one_more|done]|].
    split_and!; try done. by exists answers, startup, c.
  - intros [= <- <- <-]. split_and!; try done. by exists answers, startup, c.
Qed.
End owner.

(** ** Examples *)

Module PgGatewayDemo.
Import StoreDemo PgDemo.

(** An acceptor that takes one record type byte for the whole of TLS. *)
Definition demo_accept : TlsAcceptor := λ raw,
  match raw with
  | b :: plain => if bool_decide (b = TLS_HANDSHAKE_RECORD_TYPE) then Some (None, plain) else None
  | [] => None
  end.

Definition demo_request (code : Z) : bytes := to_be 4 8 ++ to_be 4 code.

(** A client that asks for GSS encryption, then for TLS, and names no database. *)
Definition demo_login : bytes :=
  demo_request GSSENC_REQUEST_CODE ++ demo_request SSL_REQUEST_CODE
  ++ TLS_HANDSHAKE_RECORD_TYPE :: encode_startup demo_version [(lit "user", lit "alice")] ++ lit "rest".

Definition demo_repeated : bytes :=
  encode_startup demo_version
    [(lit "user", lit "alice"); (lit "database", lit "x"); (lit "database", lit "alice")].

Lemma demo_pg_names st id m :
  st = demo_store ∨ st = demo_store → instances st !! id = Some m →
  valid_utf8 (lit (name (identity m))) = true ∧ zlength (lit (name (identity m))) ≤ 2 ^ 31.
Proof.
  intros Hst. assert (Hi : instances st = <["b" := demo_b]> (<["a" := demo_a]> ∅))
    by (destruct Hst as [->| ->]; vm_compute; reflexivity).
  rewrite Hi. intros [[_ <-]|[_ [[_ <-]|[_ Hm]]%lookup_insert_Some]]%lookup_insert_Some; [..|done];
    (split; [vm_compute; reflexivity|vm_compute; discriminate]).
Qed.

Lemma demo_repeated_fields :
  Forall field_ok ([(lit "user", lit "alice")]
                   ++ [(lit "database", lit "x"); (lit "database", lit "alice")])
  ∧ Forall (λ f : bytes * bytes, f.1 ≠ lit "database") [(lit "user", lit "alice")]
  ∧ lit "alice" ≠ [] ∧ lit "shop" ≠ [] ∧ lit "shop" ≠ lit "alice" ∧ no_nul (lit "shop").
Proof.
  split; [repeat apply Forall_cons_2; try apply lit_ok; try done; repeat constructor|].
  split; [by repeat constructor|]. split_and!; try done. repeat constructor.
Qed.

End PgGatewayDemo.
Import PgGatewayDemo StoreDemo PgDemo.


Lemma repeated_database_not_rewritten_witness :
  ∃ pending reg' packet',
    prepare_postgres None demo_store demo_store demo_store demo_store demo_repeated
      (sessions_new 100 : Sessions Z) = (Ok (PgRouted pending packet' []), [], reg')
    ∧ resolved_instance_id (pending_target pending) = "a"
    ∧ parse_startup_route packet' = Ok {| user := lit "alice"; database := Some (lit "alice") |}.
Proof.
  destruct (resolve_postgres_at demo_store demo_store demo_store demo_store (text (lit "alice"))
      (Some (text (lit "alice"))) (sessions_new 100 : Sessions Z)) as [res reg'] eqn:Hres.
  assert (Hfound : ∃ pending, res = Found "shop" pending
            ∧ resolved_instance_id (pending_target pending) = "a").
  { vm_compute in Hres. injection Hres as <- <-. eexists. split; reflexivity. }
  destruct Hfound as (pending & -> & Hid).
  destruct demo_repeated_fields as (H1 & H2 & H3 & H4 & H5 & H6).
  destruct (repeated_database_not_rewritten None demo_store demo_store demo_store demo_store
    demo_repeated [] [] (sessions_new 100) reg' demo_version [(lit "user", lit "alice")] (lit "x")
    [(lit "database", lit "alice")] (lit "alice") (lit "alice") "shop" pending eq_refl H1 H2
    ltac:(vm_compute; reflexivity) H3 ltac:(vm_compute; reflexivity) H4 H5 H6
    ltac:(vm_compute; reflexivity) ltac:(vm_compute; discriminate)
    ltac:(vm_compute; reflexivity) ltac:(vm_compute; reflexivity) Hres) as [Hp Hr].
  do 3 eexists. split; [exact Hp|]. split; [exact Hid|exact Hr].
Defined.
