(* ===== verification/RespGateway.v ===== *)
(** * From the first bytes of a Redis or Valkey client to its tunnel

    Models [read_resp_initial_frame] of
    [gateway/listeners/listener_io/handshake.rs] and [prepare_resp_tunnel] of
    [gateway/listeners/resp_listener.rs] on top of the frame parser of
    [RespProto] and the resolver of [Resolver].

    A client is the list of chunks its socket returns, each of them non-empty,
    and then the end of the stream.  Rust strings are byte strings in the parser
    and [string]s in the store; [lit] and [text] convert between them. *)
From S2P Require Import Prelude Bytes Engines RouteStore Sessions Resolver RespProto.

Local Open Scope Z_scope.

Definition MAX_HANDSHAKE_BYTES : Z := 64 * 1024.

Inductive RespListenerError :=
  | RespRouting (e : RedisParseError)
  | RespRouteNotFound.

(** The read loop: [buffer] is what was read so far. *)
Fixpoint read_resp_initial_frame_from (buffer : bytes) (chunks : list bytes) :
    result RespListenerError (RedisRoute * bytes * nat) :=
  match chunks with
  | [] => Err (RespRouting Incomplete)
  | chunk :: chunks =>
      let buffer := buffer ++ chunk in
      match parse_initial_frame_route buffer with
      | Ok (Some (route, consumed)) => Ok (route, buffer, consumed)
      | Ok None =>
          if MAX_HANDSHAKE_BYTES <? zlength buffer then Err (RespRouting Unsupported)
          else read_resp_initial_frame_from buffer chunks
      | Err e => Err (RespRouting e)
      end
  end.

Definition read_resp_initial_frame (chunks : list bytes) :
    result RespListenerError (RedisRoute * bytes * nat) :=
  read_resp_initial_frame_from [] chunks.

Section tunnel.
(** [hex::encode(Sha256::digest(bytes))]. *)
Context (sha256_hex : bytes → string).
Context {Sem : Type} `{Semaphore Sem}.

(** The digest the store indexes passwords with. *)
Definition store_sha256 (password : string) : string := sha256_hex (lit password).

Definition resolve_user (valkey : bool) (user : bytes) : Task (option ResolvedRoute) :=
  if valkey then resolver_resolve_valkey (text user) else resolver_resolve_redis (text user).

Definition resolve_password (valkey : bool) (sha : string) : Task (option (string * ResolvedRoute)) :=
  if valkey then resolver_resolve_valkey_password sha else resolver_resolve_redis_password sha.

(** [prepare_resp_tunnel]: the route and the bytes replayed to its backend.
    The awaits of the lookup by user see the store as [by_user] says, those of
    the lookup by password as [by_password] says. *)
Definition prepare_resp_tunnel (valkey : bool) (by_user by_password : Await → InstanceState)
    (chunks : list bytes) (reg : Sessions Sem) :
    result RespListenerError (ResolvedRoute * bytes) * Sessions Sem :=
  match read_resp_initial_frame chunks with
  | Err e => (Err e, reg)
  | Ok (route, initial, consumed) =>
      let '(explicit_target, reg) :=
        match route_username route with
        | Some user => run_task by_user (resolve_user valkey user) reg
        | None => (None, reg)
        end in
      match explicit_target with
      | Some target => (Ok (target, initial), reg)
      | None =>
          let no_user := match route_username route with
                         | None => true
                         | Some user => eq_ignore_ascii_case user (lit "default")
                         end in
          if no_user then
            match run_task by_password (resolve_password valkey (sha256_hex (route_password route))) reg with
            | (None, reg) => (Err RespRouteNotFound, reg)
            | (Some (user, target), reg) =>
                match rewrite_with_resolved_username route initial consumed (lit user) with
                | Ok rewritten => (Ok (target, rewritten), reg)
                | Err e => (Err (RespRouting e), drop_session (resolved_session target) reg)
                end
            end
          else (Err RespRouteNotFound, reg)
      end
  end.

(** ** Chunking *)

(** How the client's bytes are cut into reads does not matter.  Whatever
    non-empty chunks carry the first command and what is pipelined behind it,
    the read loop returns the route of that command, consumes exactly the
    command, and has kept every byte it read, in order. *)
Theorem initial_frame_independent_of_chunks args rest route chunks :
  args_ok args → zlength (serialize_resp_array args ++ rest) ≤ u64_max →
  zlength (serialize_resp_array args) ≤ MAX_HANDSHAKE_BYTES →
  route_from_args args = Ok route →
  Forall (λ c, c ≠ []) chunks → concat chunks = serialize_resp_array args ++ rest →
  ∃ pipelined unread,
    read_resp_initial_frame chunks =
      Ok (route, serialize_resp_array args ++ pipelined, length (serialize_resp_array args)) ∧
    rest = pipelined ++ unread.
Proof.
  intros Hok Hlen Hmax Hroute Hne Hcat.
  set (frame := serialize_resp_array args) in *.
  assert (∀ buffer, (length buffer < length frame)%nat →
    buffer ++ concat chunks = frame ++ rest →
    ∃ pipelined unread,
      read_resp_initial_frame_from buffer chunks = Ok (route, frame ++ pipelined, length frame) ∧
      rest = pipelined ++ unread) as Hread.
  { clear Hcat. induction Hne as [|c chunks Hc _ IH]; intros buffer Hb Hcat.
    { exfalso. apply (f_equal length) in Hcat. cbn [concat] in Hcat.
      rewrite app_nil_r, length_app in Hcat. lia. }
    cbn [concat read_resp_initial_frame_from] in *. rewrite app_assoc in Hcat.
    destruct (decide (length (buffer ++ c) < length frame)%nat) as [Hs|Hs].
    - assert (buffer ++ c = take (length (buffer ++ c)) frame) as E.
      { transitivity (take (length (buffer ++ c)) ((buffer ++ c) ++ concat chunks)).
        - by rewrite take_app_length.
        - rewrite Hcat. apply take_app_le. lia. }
      assert (0 < length (buffer ++ c))%nat as Hpos
        by (rewrite length_app; destruct c; [done|simpl; lia]).
      assert (parse_initial_frame_route (buffer ++ c) = Ok None) as ->.
      { rewrite E. apply (resp_frame_partial args _ Hok); [|fold frame; lia].
        rewrite length_app in Hlen. fold frame. lia. }
      destruct (Z.ltb_spec MAX_HANDSHAKE_BYTES (zlength (buffer ++ c))); [lia|].
      by apply IH.
    - exists (drop (length frame) (buffer ++ c)), (concat chunks).
      assert (buffer ++ c = frame ++ drop (length frame) (buffer ++ c)) as E.
      { rewrite <-(take_drop (length frame) (buffer ++ c)) at 1. f_equal.
        transitivity (take (length frame) ((buffer ++ c) ++ concat chunks)).
        - symmetry. apply take_app_le. lia.
        - rewrite Hcat. apply take_app_length. }
      assert (rest = drop (length frame) (buffer ++ c) ++ concat chunks) as Er.
      { rewrite E, <-app_assoc in Hcat. by apply app_inv_head in Hcat. }
      split; [|done]. unfold parse_initial_frame_route.
      assert (parse_resp_array (buffer ++ c) = Ok (args, length frame)) as ->.
      { rewrite E. apply parse_serialized; [done|]. fold frame.
        rewrite Er, !length_app in Hlen. rewrite length_app. lia. }
      rewrite Hroute. cbn [mbind result_bind]. by rewrite <-E. }
  apply (Hread []); [|done].
  unfold frame, serialize_resp_array, push_resp_length_line. rewrite !length_app.
  cbn [length]. lia.
Qed.

(** ** The tunnel goes to the owner of the credentials *)

Definition resp_protocol (valkey : bool) : Protocol := if valkey then Valkey else Redis.

(** What the resolver returned is the target of [id], found at the lookup, with
    one new session, and still current at the last check. *)
Definition opened_for (see : Await → InstanceState) (id : string) (m : InstanceMetadata)
    (target : ResolvedRoute) (reg reg' : Sessions Sem) : Prop :=
  let t := route_target (see AtLookup) id m in
  target = mkResolvedRoute id (target_endpoint t) (resolved_session target) ∧
  one_more id true (resolved_session target) reg reg' ∧
  route_is_current (see AtRecheck) id (target_revision t) = true.

Lemma opened_intro see k id m target reg reg' :
  owner store_sha256 (see AtLookup) k id m →
  let t := route_target (see AtLookup) id m in
  target = mkResolvedRoute (target_instance_id t) (target_endpoint t) (resolved_session target) ∧
  one_more (target_instance_id t) true (resolved_session target) reg reg' ∧
  route_is_current (see AtRecheck) (target_instance_id t) (target_revision t) = true →
  opened_for see id m target reg reg'.
Proof.
  intros (_ & Hid & _). unfold opened_for. cbn zeta.
  by replace (target_instance_id (route_target (see AtLookup) id m)) with id by (by rewrite <-Hid).
Qed.

Lemma run_open_some see o reg r reg' :
  registry_exact reg → next_id reg < u64_max → run_task see (open_some o) reg = (r, reg') →
  registry_exact reg' ∧ next_id reg' ≤ next_id reg + 1 ∧
  match r with
  | Some target => ∃ t, o = Some t ∧
      target = mkResolvedRoute (target_instance_id t) (target_endpoint t) (resolved_session target) ∧
      one_more (target_instance_id t) true (resolved_session target) reg reg' ∧
      route_is_current (see AtRecheck) (target_instance_id t) (target_revision t) = true
  | None => live reg' = live reg
  end.
Proof.
  intros Hex Hn. destruct o as [t|]; [|intros [= <- <-]; by auto with lia].
  cbn [open_some]. intros Hrun.
  pose proof (open_route_registry see t reg Hex Hn) as [Hex' Hn']. rewrite Hrun in Hex', Hn'.
  split_and!; [done..|].
  rewrite (run_open_route_seen see) in Hrun. apply open_route_cases in Hrun; [|done..].
  destruct r as [target|]; [|done]. destruct Hrun as (? & ? & _ & ?). eauto.
Qed.

(** A lookup of a user, and of a password. *)
Lemma resolve_user_owner valkey see u reg r reg' :
  store_reachable store_sha256 (see AtLookup) → registry_exact reg → next_id reg < u64_max →
  run_task see (resolve_user valkey u) reg = (r, reg') →
  registry_exact reg' ∧ next_id reg' ≤ next_id reg + 1 ∧
  match r with
  | Some target => ∃ id m,
      owner store_sha256 (see AtLookup) (KUser (resp_protocol valkey) (text u)) id m ∧
      opened_for see id m target reg reg'
  | None => live reg' = live reg
  end.
Proof.
  intros Hinv%store_reachable_inv Hex Hn Hrun.
  assert (∃ o, run_task see (open_some o) reg = (r, reg') ∧ ∀ t, o = Some t → ∃ id m,
    owner store_sha256 (see AtLookup) (KUser (resp_protocol valkey) (text u)) id m ∧
    t = route_target (see AtLookup) id m) as (o & Ho & Hown).
  { destruct valkey; (eexists; split; [exact Hrun|]); intros t;
      unfold resolve_valkey, resolve_redis; intros (id & Hr & Ht)%bind_Some; exists id.
    - by apply (route_target_for_owner store_sha256 _ (KUser Valkey (text u))).
    - by apply (route_target_for_owner store_sha256 _ (KUser Redis (text u))). }
  apply run_open_some in Ho as (? & ? & Hr); [|done..]. split_and!; [done..|].
  destruct r as [target|]; [|done]. destruct Hr as (t & Ht & Hopen).
  destruct (Hown _ Ht) as (id & m & Hm & ->). exists id, m. split; [done|]. by eapply opened_intro.
Qed.

Lemma resolve_password_opened valkey see sha reg r reg' :
  store_reachable store_sha256 (see AtLookup) → registry_exact reg → next_id reg < u64_max →
  run_task see (resolve_password valkey sha) reg = (r, reg') →
  match r with
  | Some (user, target) => ∃ id m,
      owner store_sha256 (see AtLookup) (KPassword (resp_protocol valkey) sha) id m ∧
      user = username (identity m) ∧
      (∀ id', routed (see AtLookup) (KPassword (resp_protocol valkey) sha) id' → id' = id) ∧
      opened_for see id m target reg reg'
  | None => live reg' = live reg
  end.
Proof.
  intros Hinv%store_reachable_inv Hex Hn Hrun.
  assert (∃ o, run_task see (open_password o) reg = (r, reg') ∧ ∀ user t, o = Some (user, t) → ∃ id m,
    owner store_sha256 (see AtLookup) (KPassword (resp_protocol valkey) sha) id m ∧
    t = route_target (see AtLookup) id m ∧ user = username (identity m) ∧
    ∀ id', routed (see AtLookup) (KPassword (resp_protocol valkey) sha) id' → id' = id) as (o & Ho & Hown).
  { destruct valkey; (eexists; split; [exact Hrun|]); intros user t Ht.
    - exact (resolve_password_owner store_sha256 Valkey _ _ _ _ Hinv Ht).
    - exact (resolve_password_owner store_sha256 Redis _ _ _ _ Hinv Ht). }
  destruct o as [[user t]|]; [|cbn in Ho; by injection Ho as <- <-]. cbn [open_password] in Ho.
  rewrite run_bind in Ho. destruct (run_task see (open_route t) reg) as [r1 reg1] eqn:E.
  pose proof (run_open_some see (Some t) reg r1 reg1 Hex Hn E) as (_ & _ & Hr).
  injection Ho as <- <-. destruct r1 as [target|]; [|done]. cbn in Hr |- *.
  destruct Hr as (t' & [= <-] & Hopen). destruct (Hown user t eq_refl) as (id & m & Hm & -> & -> & Hu).
  exists id, m. split_and!; [done..|]. by eapply opened_intro.
Qed.

(** C33. A Redis or Valkey client only reaches an instance it holds credentials for.
    When a tunnel is prepared, its route is that of an open, running instance of
    the protocol at the moment of the lookup, with one new session, and was
    still current at the last check; and either the client named the user of
    that instance and its bytes are replayed unchanged, or it named no user (or
    [default]), its password has the digest of that instance's tenant password
    and of no other routed instance, and its first command was rewritten to
    that instance's user.  A client that is refused leaves no session behind.
    The routes may change between and during the two lookups. *)
Theorem resp_tunnel_to_owner valkey by_user by_password chunks reg r reg' :
  store_reachable store_sha256 (by_user AtLookup) →
  store_reachable store_sha256 (by_password AtLookup) →
  registry_exact reg → next_id reg + 1 < u64_max →
  prepare_resp_tunnel valkey by_user by_password chunks reg = (r, reg') →
  match r with
  | Ok (target, initial) =>
      ∃ route buffer consumed see id m,
        read_resp_initial_frame chunks = Ok (route, buffer, consumed) ∧
        opened_for see id m target reg reg' ∧ instances (see AtLookup) !! id = Some m ∧
        protocol m = resp_protocol valkey ∧ route_eligible m = true ∧
        route_is_current (see AtLookup) id (target_revision (route_target (see AtLookup) id m)) = true ∧
        ((see = by_user ∧
          ∃ u, route_username route = Some u ∧ text u = username (identity m) ∧ initial = buffer) ∨
         (see = by_password ∧
          match route_username route with
          | Some u => eq_ignore_ascii_case u (lit "default") = true
          | None => True
          end ∧
          (∃ pw, tenant_password m = Some pw ∧
                 sha256_hex (lit pw) = sha256_hex (route_password route)) ∧
          (∀ id', routed (see AtLookup)
                    (KPassword (resp_protocol valkey) (sha256_hex (route_password route))) id' → id' = id) ∧
          rewrite_with_resolved_username route buffer consumed (lit (username (identity m))) = Ok initial))
  | Err _ => live reg' = live reg
  end.
Proof.
  intros Hu Hp Hex Hn. unfold prepare_resp_tunnel.
  destruct (read_resp_initial_frame chunks) as [[[route buffer] consumed]|e] eqn:Hread; [|by intros [= <- <-]].
  destruct (match route_username route with Some user => _ | None => _ end) as [explicit reg1] eqn:He.
  assert (registry_exact reg1 ∧ next_id reg1 < u64_max ∧
    match explicit with
    | Some target => ∃ u id m, route_username route = Some u ∧
        owner store_sha256 (by_user AtLookup) (KUser (resp_protocol valkey) (text u)) id m ∧
        opened_for by_user id m target reg reg1
    | None => live reg1 = live reg
    end) as (Hex1 & Hn1 & Hexp).
  { destruct (route_username route) as [u|]; [|injection He as <- <-; auto with lia].
    apply resolve_user_owner in He as (? & ? & Hr); [|done..|lia]. split_and!; [done|lia|].
    destruct explicit as [target|]; [|done]. destruct Hr as (id & m & ? & ?). by exists u, id, m. }
  destruct explicit as [target|].
  { intros [= <- <-]. destruct Hexp as (u & id & m & Hru & (Hm & _ & (Hpr & _ & Hname) & Hel & Hcur) & Hop).
    exists route, buffer, consumed, by_user, id, m. split_and!; try done. left. split; [done|]. by exists u. }
  cbn zeta. lazymatch goal with |- (if ?b then _ else _) = _ → _ => destruct b eqn:Hdef end;
    [|by intros [= <- <-]].
  destruct (run_task by_password _ reg1) as [found reg2] eqn:Hpw.
  apply resolve_password_opened in Hpw; [|done..].
  destruct found as [[user target]|]; [|intros [= <- <-]; congruence].
  destruct Hpw as (id & m & (Hm & _ & (Hpr & _ & pw & Hpw & Hsha) & Hel & Hcur) & -> & Huniq & Hop).
  assert (Hop' : opened_for by_password id m target reg reg2).
  { destruct Hop as (Ht & (Hf & b & El) & Hc). split_and!; [done| |done].
    split; [congruence|]. exists b. congruence. }
  destruct (rewrite_with_resolved_username _ _ _ _) as [rewritten|e] eqn:Hw; intros [= <- <-].
  - exists route, buffer, consumed, by_password, id, m. split_and!; try done. right.
    split_and!; [done| |by exists pw|done|done]. by destruct (route_username route).
  - destruct Hop' as (_ & Hmore & _). by eapply drop_one_more.
Qed.
End tunnel.

(** ** Examples *)

Module RespGatewayDemo.

Definition demo_digest (v : bytes) : string := "sha:" +:+ text v.

Definition demo_redis : InstanceMetadata :=
  {| instance_id := "r1"; deployment_mode := Dedicated; protocol := Redis;
     status := Running; desired_state := DesiredRunning; disk_limit_blocked := false;
     backend := UnixSocket "/run/r1"; identity := {| name := "0"; username := "tenant" |};
     route_key_sha256 := None; mariadb_native_password_sha1_stage2 := None;
     mysql_native_password_sha1_stage2 := None; tenant_password := Some "secret";
     limits := {| limit_memory_mib := 1024; limit_disk_mib := 10240;
                disk_enforcement_method := "not_supported" |};
     created_at := "2026-01-01"; updated_at := "2026-01-01"; instance_owner := None;
     placed_runtime_id := ""; image := None; database_version := None |}.

Definition demo_redis_store : InstanceState :=
  upsert (store_sha256 demo_digest) demo_redis instance_state_default.

Lemma demo_redis_reachable : store_reachable (store_sha256 demo_digest) demo_redis_store.
Proof.
  exists [Upsert demo_redis]. unfold run_all. cbn [foldl]. by rewrite run_upsert.
Qed.

(** [AUTH secret] arrives in two reads, with a [PING] behind it. *)
Definition demo_auth : list bytes := [lit "AUTH"; lit "secret"].
Definition demo_ping : bytes := serialize_resp_array [lit "PING"].
Definition demo_chunks : list bytes :=
  [take 9 (serialize_resp_array demo_auth);
   drop 9 (serialize_resp_array demo_auth) ++ demo_ping].

End RespGatewayDemo.

Import RespGatewayDemo.

Lemma initial_frame_independent_of_chunks_witness :
  ∃ pipelined unread,
    read_resp_initial_frame demo_chunks =
      Ok ({| route_username := None; route_password := lit "secret" |},
          serialize_resp_array demo_auth ++ pipelined,
          length (serialize_resp_array demo_auth)) ∧
    demo_ping = pipelined ++ unread.
Proof.
  apply (initial_frame_independent_of_chunks demo_auth demo_ping
           {| route_username := None; route_password := lit "secret" |} demo_chunks).
  - split; [done|]. by repeat apply Forall_cons_2.
  - by vm_compute.
  - by vm_compute.
  - by vm_compute.
  - by repeat apply Forall_cons_2.
  - vm_compute. reflexivity.
Defined.

Lemma resp_tunnel_to_owner_witness :
  ∃ id m, instances demo_redis_store !! id = Some m ∧ protocol m = Redis.
Proof.
  destruct (prepare_resp_tunnel demo_digest false (λ _, demo_redis_store) (λ _, demo_redis_store)
    demo_chunks (sessions_new (Sem := Z) 100)) as [r reg'] eqn:E.
  pose proof (resp_tunnel_to_owner demo_digest false (λ _, demo_redis_store) (λ _, demo_redis_store)
    demo_chunks (sessions_new (Sem := Z) 100) r reg' demo_redis_reachable demo_redis_reachable
    (exact_new 100) eq_refl E) as H.
  vm_compute in E. injection E as <- <-.
  destruct H as (route & buffer & consumed & see & id & m & _ & _ & Hm & Hp & _ & _ & [[-> _]|[-> _]]);
    exists id, m; (split; [exact Hm|exact Hp]).
Defined.
