(* ===== verification/DiskScan.v ===== *)
(** * Measuring a data directory

    Models [server/disk/usage.rs], the walk that streams over a data
    directory, and the walk of [server/disk/soft/usage_tree.rs]
    ([scan_directory_tree]) that also records every directory it visits.

    A walk sees the file system only through system calls, while the database
    keeps changing it.  [OpenDir] is what one walk sees of an open directory:
    the results of [fstat], of reading its entries, and, for each entry, of
    [statat] and [openat].  Nothing says these results describe one instant.
    The clock is the function [elapsed]: the [n]th reading of the time since
    the walk started. *)
From Stdlib Require Import Ascii.
From S2P Require Import Prelude Planner.

Local Open Scope Z_scope.

(** ** Paths

    A path is the list of its components, by which Rust compares, hashes and
    joins paths. *)

Inductive Component := RootDir | CurDir | ParentDir | Normal (name : string).
#[export] Instance Component_eq_dec : EqDecision Component.
Proof. solve_decision. Defined.
#[export] Instance Component_countable : Countable Component.
Proof.
  refine (inj_countable'
    (λ c, match c with
          | RootDir => inl 0%nat | CurDir => inl 1%nat | ParentDir => inl 2%nat
          | Normal n => inr n
          end)
    (λ x, match x with
          | inl 0%nat => RootDir | inl 1%nat => CurDir | inl _ => ParentDir
          | inr n => Normal n
          end) _).
  by intros [].
Defined.

Abbreviation Path := (list Component) (only parsing).

Fixpoint split_slash (s : string) : list string :=
  match s with
  | EmptyString => [EmptyString]
  | String c s =>
      match split_slash s with
      | part :: parts =>
          if Ascii.eqb c "/"%char then EmptyString :: part :: parts else String c part :: parts
      | [] => []
      end
  end.

Definition component (part : string) : option Component :=
  if bool_decide (part = "" ∨ part = ".") then None
  else if bool_decide (part = "..") then Some ParentDir
  else Some (Normal part).

(** [Path::components]: a leading dot is kept, other dots and empty parts are
    not. *)
Definition components (s : string) : Path :=
  match split_slash s with
  | [] => []
  | first :: rest =>
      if bool_decide (first = ".") then CurDir :: omap component rest
      else if bool_decide (first = "" ∧ rest ≠ []) then RootDir :: omap component rest
      else omap component (first :: rest)
  end.

(** [Path::join] of a relative path. *)
Definition join (path : Path) (name : string) : Path := path ++ components name.

Definition is_single_normal_component (name : string) : bool :=
  match components name with [Normal _] => true | _ => false end.

(** ** What a walk sees *)

Record DirectoryUsage := mkUsage {
  logical_bytes : Z;
  physical_bytes : Z;
  usage_entries : Z;
}.
#[export] Instance DirectoryUsage_eta : Settable DirectoryUsage :=
  λ r, mkUsage (logical_bytes r) (physical_bytes r) (usage_entries r).
#[export] Instance DirectoryUsage_eq_dec : EqDecision DirectoryUsage.
Proof. solve_decision. Defined.

Definition usage_default : DirectoryUsage := mkUsage 0 0 0.

Record ScanLimits := mkScanLimits {
  timeout : Z;
  max_entries : Z;
  max_depth : Z;
}.

Inductive Errno := NOENT | STALE | NOTDIR | LOOP | OtherErrno (code : Z).
#[export] Instance Errno_eq_dec : EqDecision Errno.
Proof. solve_decision. Defined.

Inductive FileType := FileDirectory | FileRegular | FileOther.
#[export] Instance FileType_eq_dec : EqDecision FileType.
Proof. solve_decision. Defined.

Record Stat := mkStat {
  st_dev : Z;
  st_ino : Z;
  st_mode : FileType;
  st_blocks : Z;
  st_size : Z;
}.

Inductive OpenDir :=
  | mkOpenDir (fstat : result Errno Stat) (unreadable : option Errno) (entries : Listing)
with Listing :=
  | LNil
  | LError (e : Errno) (rest : Listing)
  | LEntry (name : string) (statat : result Errno Stat) (openat : Opened) (rest : Listing)
with Opened :=
  | OpenFailed (e : Errno)
  | OpenedDir (d : OpenDir).

Definition fstat (d : OpenDir) : result Errno Stat := let 'mkOpenDir s _ _ := d in s.

(** The errors of a walk, one for each message. *)
Inductive ScanError :=
  | Os (e : Errno)
  | TimedOut (entries : Z)
  | EntryCountOverflow
  | TooManyEntries (max : Z)
  | TooDeep (max : Z)
  | NegativeBlocks
  | NegativeSize
  | UsageOverflow
  | IdentityChanged
  | DuplicatePath
  | CacheDirectoryLimit
  | CacheWithoutRoot
  | EntryLimitTooLarge
  | EntryBoundExceeded
  | NotADirectory
  | RootReplaced
  | UncleanPath.

Definition os {A} (r : result Errno A) : result ScanError A := result_map_err Os r.

Definition transient_entry_error (e : Errno) : bool := bool_decide (e = NOENT ∨ e = STALE).

Definition identity_from_stat (s : Stat) : RootIdentity := mkRootIdentity (st_dev s) (st_ino s).

Definition ALLOCATION_BLOCK_BYTES : Z := 512.

Definition allocated_bytes (s : Stat) : result ScanError Z :=
  if st_blocks s <? 0 then Err NegativeBlocks
  else ok_or (checked_mul u64_max (st_blocks s) ALLOCATION_BLOCK_BYTES) UsageOverflow.

Definition file_size (s : Stat) : result ScanError Z :=
  if st_size s <? 0 then Err NegativeSize else Ok (st_size s).

(** [checked_add] of [usage_tree.rs]. *)
Definition add_bytes (a b : Z) : result ScanError Z := ok_or (checked_add u64_max a b) UsageOverflow.

Definition add_usage (target source : DirectoryUsage) : result ScanError DirectoryUsage :=
  l ← add_bytes (logical_bytes target) (logical_bytes source);
  p ← add_bytes (physical_bytes target) (physical_bytes source);
  e ← add_bytes (usage_entries target) (usage_entries source);
  Ok (mkUsage l p e).

Definition is_dot (name : string) : bool := bool_decide (name = "." ∨ name = "..").

(** A directory of the cache. *)
Record CachedDirectory := mkCachedDirectory {
  base : DirectoryUsage;
  total : DirectoryUsage;
  children : gset string;
}.
#[export] Instance CachedDirectory_eta : Settable CachedDirectory :=
  λ r, mkCachedDirectory (base r) (total r) (children r).

Abbreviation Nodes := (gmap Path CachedDirectory) (only parsing).

Section walk.
Context (elapsed : nat → Z) (limits : ScanLimits).

(** ** The streaming walk: [DirectoryScanner] *)

Record DirectoryScanner := mkDirectoryScanner {
  scanner_usage : DirectoryUsage;
  scanner_checks : nat;
}.
#[export] Instance DirectoryScanner_eta : Settable DirectoryScanner :=
  λ r, mkDirectoryScanner (scanner_usage r) (scanner_checks r).

Definition ensure_budget (s : DirectoryScanner) : result ScanError DirectoryScanner :=
  if timeout limits <=? elapsed (scanner_checks s)
  then Err (TimedOut (usage_entries (scanner_usage s)))
  else Ok (s <| scanner_checks ::= S |>).

Definition count_entry (s : DirectoryScanner) : result ScanError DirectoryScanner :=
  n ← ok_or (checked_add u64_max (usage_entries (scanner_usage s)) 1) EntryCountOverflow;
  if max_entries limits <? n then Err (TooManyEntries (max_entries limits))
  else Ok (s <| scanner_usage ::= λ u, u <| usage_entries := n |> |>).

Definition add_allocated_blocks (st : Stat) (s : DirectoryScanner) :
    result ScanError DirectoryScanner :=
  allocated ← allocated_bytes st;
  n ← add_bytes (physical_bytes (scanner_usage s)) allocated;
  Ok (s <| scanner_usage ::= λ u, u <| physical_bytes := n |> |>).

Definition add_logical_size (st : Stat) (s : DirectoryScanner) :
    result ScanError DirectoryScanner :=
  size ← file_size st;
  n ← add_bytes (logical_bytes (scanner_usage s)) size;
  Ok (s <| scanner_usage ::= λ u, u <| logical_bytes := n |> |>).

(** The body of the loop over the entries; [enter] is the recursive call. *)
Definition scan_open_entry
    (enter : OpenDir → DirectoryScanner → result ScanError DirectoryScanner)
    (name : string) (statat : result Errno Stat) (openat : Opened) (depth : Z)
    (s : DirectoryScanner) : result ScanError DirectoryScanner :=
  if is_dot name then Ok s
  else
    s ← count_entry s;
    match statat with
    | Err e => if transient_entry_error e then Ok s else Err (Os e)
    | Ok st =>
        s ← add_allocated_blocks st s;
        match st_mode st with
        | FileDirectory =>
            if max_depth limits <=? depth then Err (TooDeep (max_depth limits))
            else
              match openat with
              | OpenFailed e => if transient_entry_error e then Ok s else Err (Os e)
              | OpenedDir d => enter d s
              end
        | FileRegular => add_logical_size st s
        | FileOther => Ok s
        end
    end.

Fixpoint scan_open_directory (d : OpenDir) (depth : Z) (s : DirectoryScanner) :
    result ScanError DirectoryScanner :=
  let 'mkOpenDir _ unreadable entries := d in
  s ← ensure_budget s;
  match unreadable with
  | Some e => Err (Os e)
  | None => scan_open_entries entries depth s
  end
with scan_open_entries (l : Listing) (depth : Z) (s : DirectoryScanner) :
    result ScanError DirectoryScanner :=
  match l with
  | LNil => Ok s
  | LError e rest =>
      s ← ensure_budget s;
      if transient_entry_error e then scan_open_entries rest depth s else Err (Os e)
  | LEntry name statat openat rest =>
      s ← ensure_budget s;
      s ← scan_open_entry (λ d s, scan_open_directory d (depth + 1) s)
            name statat openat depth s;
      scan_open_entries rest depth s
  end.

(** ** The walk that fills the cache *)

Record ScanBudget := mkScanBudget {
  budget_entries : Z;
  checks : nat;
}.
#[export] Instance ScanBudget_eta : Settable ScanBudget :=
  λ r, mkScanBudget (budget_entries r) (checks r).

Definition check (b : ScanBudget) : result ScanError ScanBudget :=
  if timeout limits <=? elapsed (checks b) then Err (TimedOut (budget_entries b))
  else Ok (b <| checks ::= S |>).

Definition visit_entry (b : ScanBudget) : result ScanError ScanBudget :=
  n ← ok_or (checked_add u64_max (budget_entries b) 1) EntryCountOverflow;
  if max_entries limits <? n then Err (TooManyEntries (max_entries limits))
  else Ok (b <| budget_entries := n |>).

(** The local variables of [scan_directory_tree] and what it borrows. *)
Record Walk := mkWalk {
  walk_base : DirectoryUsage;
  walk_below : DirectoryUsage;
  walk_children : gset string;
  walk_budget : ScanBudget;
  walk_nodes : Nodes;
}.
#[export] Instance Walk_eta : Settable Walk :=
  λ r, mkWalk (walk_base r) (walk_below r) (walk_children r) (walk_budget r) (walk_nodes r).

Definition base_allocated (allocated : Z) (w : Walk) : result ScanError Walk :=
  n ← add_bytes (physical_bytes (walk_base w)) allocated;
  Ok (w <| walk_base ::= λ u, u <| physical_bytes := n |> |>).

Definition base_logical (st : Stat) (w : Walk) : result ScanError Walk :=
  size ← file_size st;
  n ← add_bytes (logical_bytes (walk_base w)) size;
  Ok (w <| walk_base ::= λ u, u <| logical_bytes := n |> |>).

Definition base_entry (w : Walk) : result ScanError Walk :=
  b ← visit_entry (walk_budget w);
  n ← add_bytes (usage_entries (walk_base w)) 1;
  Ok (w <| walk_budget := b |> <| walk_base ::= λ u, u <| usage_entries := n |> |>).

(** The end of [scan_directory_tree]: the directory is recorded. *)
Definition record_directory (path : Path) (max_cached : Z) (w : Walk) :
    result ScanError (DirectoryUsage * ScanBudget * Nodes) :=
  total ← add_usage (walk_base w) (walk_below w);
  let nodes :=
    <[path := mkCachedDirectory (walk_base w) total (walk_children w)]> (walk_nodes w) in
  match walk_nodes w !! path with
  | Some _ => Err DuplicatePath
  | None =>
      if max_cached <? Z.of_nat (size nodes) then Err CacheDirectoryLimit
      else Ok (total, walk_budget w, nodes)
  end.

(** The body of the loop over the entries; [enter] is the recursive call. *)
Definition scan_tree_entry
    (enter : OpenDir → Stat → ScanBudget → Nodes →
             result ScanError (DirectoryUsage * ScanBudget * Nodes))
    (name : string) (statat : result Errno Stat) (openat : Opened) (depth : Z) (w : Walk) :
    result ScanError Walk :=
  if is_dot name then Ok w
  else
    w ← base_entry w;
    match statat with
    | Err e => if transient_entry_error e then Ok w else Err (Os e)
    | Ok st =>
        allocated ← allocated_bytes st;
        match st_mode st with
        | FileDirectory =>
            if max_depth limits <=? depth then Err (TooDeep (max_depth limits))
            else
              match openat with
              | OpenFailed e =>
                  if transient_entry_error e then base_allocated allocated w else Err (Os e)
              | OpenedDir d =>
                  opened_stat ← os (fstat d);
                  if bool_decide (identity_from_stat opened_stat ≠ identity_from_stat st)
                  then Err IdentityChanged
                  else
                    '(child_total, b, nodes) ← enter d st (walk_budget w) (walk_nodes w);
                    below ← add_usage (walk_below w) child_total;
                    Ok (mkWalk (walk_base w) below ({[name]} ∪ walk_children w) b nodes)
              end
        | FileRegular => w ← base_allocated allocated w; base_logical st w
        | FileOther => base_allocated allocated w
        end
    end.

Fixpoint scan_directory_tree (d : OpenDir) (st : Stat) (path : Path) (depth : Z)
    (b : ScanBudget) (nodes : Nodes) (max_cached : Z) :
    result ScanError (DirectoryUsage * ScanBudget * Nodes) :=
  let 'mkOpenDir _ unreadable entries := d in
  b ← check b;
  allocated ← allocated_bytes st;
  match unreadable with
  | Some e => Err (Os e)
  | None =>
      w ← scan_tree_entries entries path depth max_cached
            (mkWalk (mkUsage 0 allocated 0) usage_default ∅ b nodes);
      record_directory path max_cached w
  end
with scan_tree_entries (l : Listing) (path : Path) (depth : Z) (max_cached : Z) (w : Walk) :
    result ScanError Walk :=
  match l with
  | LNil => Ok w
  | LError e rest =>
      b ← check (walk_budget w);
      if transient_entry_error e
      then scan_tree_entries rest path depth max_cached (w <| walk_budget := b |>)
      else Err (Os e)
  | LEntry name statat openat rest =>
      b ← check (walk_budget w);
      w ← scan_tree_entry
            (λ d st b nodes,
              scan_directory_tree d st (join path name) (depth + 1) b nodes max_cached)
            name statat openat depth (w <| walk_budget := b |>);
      scan_tree_entries rest path depth max_cached w
  end.
End walk.

(** ** What a walk measures

    The measure of what a walk saw, over unbounded integers: the reference both
    walks are compared with. *)

Definition usage_add (a b : DirectoryUsage) : DirectoryUsage :=
  mkUsage (logical_bytes a + logical_bytes b) (physical_bytes a + physical_bytes b)
    (usage_entries a + usage_entries b).

Definition allocation (st : Stat) : DirectoryUsage :=
  mkUsage 0 (st_blocks st * ALLOCATION_BLOCK_BYTES) 0.

Definition file_usage (st : Stat) : DirectoryUsage :=
  mkUsage (if bool_decide (st_mode st = FileRegular) then st_size st else 0)
    (st_blocks st * ALLOCATION_BLOCK_BYTES) 0.

(** What an entry adds to its directory, the directory below it apart. *)
Definition entry_base (name : string) (statat : result Errno Stat) (openat : Opened) :
    DirectoryUsage :=
  if is_dot name then usage_default
  else usage_add (mkUsage 0 0 1)
    match statat with
    | Err _ => usage_default
    | Ok st =>
        match st_mode st, openat with
        | FileDirectory, OpenedDir _ => usage_default
        | _, _ => file_usage st
        end
    end.

(** The directory a walk enters at an entry. *)
Definition subdirectory (name : string) (statat : result Errno Stat) (openat : Opened) :
    option (Stat * OpenDir) :=
  if is_dot name then None
  else
    match statat, openat with
    | Ok st, OpenedDir d => if bool_decide (st_mode st = FileDirectory) then Some (st, d) else None
    | _, _ => None
    end.

Fixpoint listing_base (l : Listing) : DirectoryUsage :=
  match l with
  | LNil => usage_default
  | LError _ rest => listing_base rest
  | LEntry name statat openat rest =>
      usage_add (entry_base name statat openat) (listing_base rest)
  end.

Fixpoint listing_children (l : Listing) : gset string :=
  match l with
  | LNil => ∅
  | LError _ rest => listing_children rest
  | LEntry name statat openat rest =>
      match subdirectory name statat openat with
      | Some _ => {[name]} ∪ listing_children rest
      | None => listing_children rest
      end
  end.

Fixpoint contents (d : OpenDir) : DirectoryUsage :=
  let 'mkOpenDir _ _ l := d in usage_add (listing_base l) (listing_below l)
with listing_below (l : Listing) : DirectoryUsage :=
  match l with
  | LNil => usage_default
  | LError _ rest => listing_below rest
  | LEntry name statat openat rest =>
      match statat, openat with
      | Ok st, OpenedDir d =>
          if is_dot name then listing_below rest
          else if bool_decide (st_mode st = FileDirectory)
          then usage_add (usage_add (allocation st) (contents d)) (listing_below rest)
          else listing_below rest
      | _, _ => listing_below rest
      end
  end.

(** The usage of a directory: its own blocks and everything in it. *)
Definition dir_total (st : Stat) (d : OpenDir) : DirectoryUsage :=
  usage_add (allocation st) (contents d).

(** The nodes a walk records. *)
Fixpoint dir_nodes (path : Path) (st : Stat) (d : OpenDir) : Nodes :=
  let 'mkOpenDir _ _ l := d in
  <[path := mkCachedDirectory (usage_add (allocation st) (listing_base l))
              (usage_add (allocation st) (usage_add (listing_base l) (listing_below l)))
              (listing_children l)]> (listing_nodes path l)
with listing_nodes (path : Path) (l : Listing) : Nodes :=
  match l with
  | LNil => ∅
  | LError _ rest => listing_nodes path rest
  | LEntry name statat openat rest =>
      match statat, openat with
      | Ok st, OpenedDir d =>
          if is_dot name then listing_nodes path rest
          else if bool_decide (st_mode st = FileDirectory)
          then dir_nodes (join path name) st d ∪ listing_nodes path rest
          else listing_nodes path rest
      | _, _ => listing_nodes path rest
      end
  end.

(** How often a walk reads the clock. *)
Fixpoint dir_checks (d : OpenDir) : nat :=
  let 'mkOpenDir _ _ l := d in S (listing_checks l)
with listing_checks (l : Listing) : nat :=
  match l with
  | LNil => 0
  | LError _ rest => S (listing_checks rest)
  | LEntry name statat openat rest =>
      match statat, openat with
      | Ok st, OpenedDir d =>
          if is_dot name then S (listing_checks rest)
          else if bool_decide (st_mode st = FileDirectory)
          then S (dir_checks d + listing_checks rest)
          else S (listing_checks rest)
      | _, _ => S (listing_checks rest)
      end
  end.

(** Every call a walk makes succeeds, or fails in a way it tolerates, and no
    directory is too deep. *)
Fixpoint readable (max : Z) (depth : Z) (d : OpenDir) : Prop :=
  let 'mkOpenDir _ unreadable l := d in (unreadable = None ∧ listing_readable max depth l)
with listing_readable (max : Z) (depth : Z) (l : Listing) : Prop :=
  match l with
  | LNil => True
  | LError e rest => transient_entry_error e = true ∧ listing_readable max depth rest
  | LEntry name statat openat rest =>
      (if is_dot name then True
       else
         match statat with
         | Err e => transient_entry_error e = true
         | Ok st =>
             0 ≤ st_blocks st ∧
             match st_mode st with
             | FileDirectory =>
                 depth < max ∧
                 match openat with
                 | OpenFailed e => transient_entry_error e = true
                 | OpenedDir d => readable max (depth + 1) d
                 end
             | FileRegular => 0 ≤ st_size st
             | FileOther => True
             end
         end) ∧ listing_readable max depth rest
  end.

(** A file system that holds still: an opened directory is the one that was
    looked at, and its name occurs once. *)
Fixpoint steady (d : OpenDir) : Prop :=
  let 'mkOpenDir _ _ l := d in listing_steady l
with listing_steady (l : Listing) : Prop :=
  match l with
  | LNil => True
  | LError _ rest => listing_steady rest
  | LEntry name statat openat rest =>
      (match statat, openat with
      | Ok st, OpenedDir d =>
          if is_dot name then True
          else if bool_decide (st_mode st = FileDirectory)
          then components name = [Normal name] ∧ (name ∉ listing_children rest) ∧
               (∃ opened, fstat d = Ok opened ∧
                  identity_from_stat opened = identity_from_stat st) ∧
               steady d
          else True
      | _, _ => True
      end) ∧ listing_steady rest
  end.

(** The names of directories are single components, each used once. *)
Fixpoint proper (d : OpenDir) : Prop :=
  let 'mkOpenDir _ _ l := d in listing_proper l
with listing_proper (l : Listing) : Prop :=
  match l with
  | LNil => True
  | LError _ rest => listing_proper rest
  | LEntry name statat openat rest =>
      (match statat, openat with
       | Ok st, OpenedDir d =>
           if is_dot name then True
           else if bool_decide (st_mode st = FileDirectory)
           then components name = [Normal name] ∧ (name ∉ listing_children rest) ∧ proper d
           else True
       | _, _ => True
       end) ∧ listing_proper rest
  end.

(** A name in a directory: not empty, and without a slash. *)
Definition entry_name (name : string) : Prop :=
  name ≠ "" ∧ Forall (λ c, c ≠ "/"%char) (String.list_ascii_of_string name).

Fixpoint named (d : OpenDir) : Prop :=
  let 'mkOpenDir _ _ l := d in listing_named l
with listing_named (l : Listing) : Prop :=
  match l with
  | LNil => True
  | LError _ rest => listing_named rest
  | LEntry name _ openat rest =>
      entry_name name ∧ match openat with OpenedDir d => named d | OpenFailed _ => True end ∧
      listing_named rest
  end.

Scheme OpenDir_rect' := Induction for OpenDir Sort Prop
  with Listing_rect' := Induction for Listing Sort Prop
  with Opened_rect' := Induction for Opened Sort Prop.
Combined Scheme OpenDir_Listing_ind from OpenDir_rect', Listing_rect', Opened_rect'.

(** The recursive functions, entry by entry. *)
Definition entry_below (name : string) (statat : result Errno Stat) (openat : Opened) :
    DirectoryUsage :=
  match subdirectory name statat openat with
  | Some (st, d) => dir_total st d
  | None => usage_default
  end.

Definition entry_checks (name : string) (statat : result Errno Stat) (openat : Opened) : nat :=
  match subdirectory name statat openat with Some (_, d) => dir_checks d | None => 0 end.

Definition entry_nodes (path : Path) (name : string) (statat : result Errno Stat)
    (openat : Opened) : Nodes :=
  match subdirectory name statat openat with
  | Some (st, d) => dir_nodes (join path name) st d
  | None => ∅
  end.

Definition entry_children (name : string) (statat : result Errno Stat) (openat : Opened) :
    gset string :=
  match subdirectory name statat openat with Some _ => {[name]} | None => ∅ end.

Definition entry_readable (max depth : Z) (name : string) (statat : result Errno Stat)
    (openat : Opened) : Prop :=
  if is_dot name then True
  else
    match statat with
    | Err e => transient_entry_error e = true
    | Ok st =>
        0 ≤ st_blocks st ∧
        match st_mode st with
        | FileDirectory =>
            depth < max ∧
            match openat with
            | OpenFailed e => transient_entry_error e = true
            | OpenedDir d => readable max (depth + 1) d
            end
        | FileRegular => 0 ≤ st_size st
        | FileOther => True
        end
    end.

Definition entry_steady (name : string) (statat : result Errno Stat) (openat : Opened)
    (rest : Listing) : Prop :=
  match subdirectory name statat openat with
  | Some (st, d) =>
      components name = [Normal name] ∧ (name ∉ listing_children rest) ∧
      (∃ opened, fstat d = Ok opened ∧ identity_from_stat opened = identity_from_stat st) ∧
      steady d
  | None => True
  end.

Definition entry_proper (name : string) (statat : result Errno Stat) (openat : Opened)
    (rest : Listing) : Prop :=
  match subdirectory name statat openat with
  | Some (st, d) => components name = [Normal name] ∧ (name ∉ listing_children rest) ∧ proper d
  | None => True
  end.

Section entries.
Context (name : string) (statat : result Errno Stat) (openat : Opened) (rest : Listing).

Lemma listing_below_entry :
  listing_below (LEntry name statat openat rest) =
  usage_add (entry_below name statat openat) (listing_below rest).
Proof.
  unfold entry_below, subdirectory. simpl.
  repeat case_match; simplify_eq; try done; by destruct (listing_below rest).
Qed.

Lemma listing_nodes_entry path :
  listing_nodes path (LEntry name statat openat rest) =
  entry_nodes path name statat openat ∪ listing_nodes path rest.
Proof.
  unfold entry_nodes, subdirectory. simpl.
  repeat case_match; simplify_eq; try done; by rewrite (left_id_L ∅ (∪)).
Qed.

Lemma listing_checks_entry :
  listing_checks (LEntry name statat openat rest) =
  S (entry_checks name statat openat + listing_checks rest).
Proof. unfold entry_checks, subdirectory. simpl. by repeat case_match; simplify_eq. Qed.

Lemma listing_children_entry :
  listing_children (LEntry name statat openat rest) =
  entry_children name statat openat ∪ listing_children rest.
Proof.
  unfold entry_children. simpl. case_match; [done|]. by rewrite (left_id_L ∅ (∪)).
Qed.

Lemma listing_steady_entry :
  listing_steady (LEntry name statat openat rest) ↔
  entry_steady name statat openat rest ∧ listing_steady rest.
Proof. unfold entry_steady, subdirectory. simpl. by repeat case_match; simplify_eq. Qed.

Lemma listing_proper_entry :
  listing_proper (LEntry name statat openat rest) ↔
  entry_proper name statat openat rest ∧ listing_proper rest.
Proof. unfold entry_proper, subdirectory. simpl. by repeat case_match; simplify_eq. Qed.
End entries.

Lemma steady_proper :
  (∀ d, steady d → proper d) ∧ (∀ l, listing_steady l → listing_proper l) ∧
  (∀ o, match o with OpenedDir d => steady d → proper d | OpenFailed _ => True end).
Proof.
  apply OpenDir_Listing_ind; try done.
  intros name statat openat IHo l IH [He Hl]%listing_steady_entry.
  apply listing_proper_entry. split; [|by apply IH]. unfold entry_steady, entry_proper in *.
  destruct (subdirectory name statat openat) as [[st d]|] eqn:E; [|done].
  destruct He as (? & ? & _ & ?). split_and!; [done..|].
  unfold subdirectory in E. repeat case_match; simplify_eq. by apply IHo.
Qed.

Lemma split_slash_name name :
  Forall (λ c, c ≠ "/"%char) (String.list_ascii_of_string name) → split_slash name = [name].
Proof.
  induction name as [|c name IH]; [done|]. intros [Hc Hn]%Forall_cons. simpl. rewrite IH by done.
  by rewrite (proj2 (Ascii.eqb_neq _ _)).
Qed.

Lemma entry_name_components name :
  entry_name name → is_dot name = false → components name = [Normal name].
Proof.
  intros [Hne Hs] Hd. unfold components. rewrite split_slash_name by done.
  unfold is_dot in Hd. apply bool_decide_eq_false in Hd.
  rewrite !bool_decide_eq_false_2 by naive_solver. simpl.
  unfold component. by rewrite !bool_decide_eq_false_2 by naive_solver.
Qed.

(** ** Sums of usages *)

Definition usage_nonneg (u : DirectoryUsage) : Prop :=
  0 ≤ logical_bytes u ∧ 0 ≤ physical_bytes u ∧ 0 ≤ usage_entries u.
Definition usage_fits (u : DirectoryUsage) : Prop :=
  logical_bytes u ≤ u64_max ∧ physical_bytes u ≤ u64_max ∧ usage_entries u ≤ u64_max.

Lemma usage_ext u v :
  logical_bytes u = logical_bytes v → physical_bytes u = physical_bytes v →
  usage_entries u = usage_entries v → u = v.
Proof. by destruct u, v; simpl; intros -> -> ->. Qed.

(** Equations and bounds between sums of usages, by their components. *)
Ltac usage_lia :=
  unfold usage_nonneg, usage_fits, dir_total, usage_default, allocation, file_usage,
    ALLOCATION_BLOCK_BYTES in *;
  repeat match goal with |- ?u = ?v =>
    match type of u with DirectoryUsage => apply usage_ext end end;
  cbn [usage_add logical_bytes physical_bytes usage_entries] in *; lia.

Lemma add_bytes_Ok a b n : add_bytes a b = Ok n ↔ n = a + b ∧ a + b ≤ u64_max.
Proof. unfold add_bytes. by rewrite ok_or_Ok, checked_add_Some. Qed.

Lemma add_usage_Ok a b u :
  add_usage a b = Ok u ↔ u = usage_add a b ∧ usage_fits (usage_add a b).
Proof.
  unfold add_usage. split.
  - intros (l & [-> ?]%add_bytes_Ok & (p & [-> ?]%add_bytes_Ok &
      (e & [-> ?]%add_bytes_Ok & [= <-])%bind_Ok)%bind_Ok)%bind_Ok. done.
  - intros [-> (Hl & Hp & He)]. cbn in Hl, Hp, He.
    rewrite (proj2 (add_bytes_Ok _ _ _) (conj eq_refl Hl)). step_ok.
    rewrite (proj2 (add_bytes_Ok _ _ _) (conj eq_refl Hp)). step_ok.
    rewrite (proj2 (add_bytes_Ok _ _ _) (conj eq_refl He)). done.
Qed.

Lemma allocated_bytes_Ok st n :
  allocated_bytes st = Ok n ↔
  0 ≤ st_blocks st ∧ n = physical_bytes (allocation st) ∧ n ≤ u64_max.
Proof.
  unfold allocated_bytes. cbn [allocation physical_bytes]. case_match; to_prop.
  - split; [done|lia].
  - rewrite ok_or_Ok, checked_mul_Some. split; [intros [-> ?]|intros (_ & -> & ?)]; lia.
Qed.

Lemma file_size_Ok st n : file_size st = Ok n ↔ 0 ≤ st_size st ∧ n = st_size st.
Proof. unfold file_size. case_match; to_prop; [split; [done|lia]|naive_solver]. Qed.

Lemma transient_or e {A} (x y : A) :
  (if transient_entry_error e then Ok x else Err (Os e)) = Ok y ↔
  transient_entry_error e = true ∧ y = x.
Proof. destruct (transient_entry_error e); naive_solver. Qed.

(** What a walk that gets through measures is not negative. *)
Lemma entry_base_nonneg max depth name statat openat :
  entry_readable max depth name statat openat → usage_nonneg (entry_base name statat openat).
Proof.
  unfold entry_readable, entry_base, file_usage.
  repeat case_match; intros; destruct_and?; to_prop; usage_lia || done.
Qed.

Lemma listing_readable_entry max depth name statat openat rest :
  listing_readable max depth (LEntry name statat openat rest) ↔
  entry_readable max depth name statat openat ∧ listing_readable max depth rest.
Proof. done. Qed.

Lemma subdirectory_Some name statat openat st d :
  subdirectory name statat openat = Some (st, d) ↔
  is_dot name = false ∧ statat = Ok st ∧ openat = OpenedDir d ∧ st_mode st = FileDirectory.
Proof.
  unfold subdirectory. repeat case_match; to_prop; naive_solver.
Qed.

Lemma subdirectory_None name statat openat :
  (∀ st d, statat = Ok st → openat = OpenedDir d → st_mode st ≠ FileDirectory) →
  subdirectory name statat openat = None.
Proof.
  intros H. destruct (subdirectory _ _ _) as [[st d]|] eqn:E; [|done].
  apply subdirectory_Some in E as (_ & -> & -> & Hm). by destruct (H st d).
Qed.

Lemma subdirectory_dot name statat openat :
  is_dot name = true → subdirectory name statat openat = None.
Proof. unfold subdirectory. by intros ->. Qed.

Lemma entry_readable_sub max depth name statat openat st d :
  entry_readable max depth name statat openat → subdirectory name statat openat = Some (st, d) →
  0 ≤ st_blocks st ∧ depth < max ∧ readable max (depth + 1) d.
Proof.
  intros H (Hd & -> & -> & Hm)%subdirectory_Some. unfold entry_readable in H.
  rewrite Hd, Hm in H. naive_solver.
Qed.

Lemma entry_below_nonneg max depth name statat openat :
  (∀ st d, subdirectory name statat openat = Some (st, d) → usage_nonneg (contents d)) →
  entry_readable max depth name statat openat → usage_nonneg (entry_below name statat openat).
Proof.
  intros Hsub H. unfold entry_below. destruct (subdirectory _ _ _) as [[st d]|] eqn:E; [|done].
  destruct (entry_readable_sub _ _ _ _ _ _ _ H E) as [Hb _]. specialize (Hsub _ _ eq_refl).
  usage_lia.
Qed.

Lemma listing_base_nonneg max depth l :
  listing_readable max depth l → usage_nonneg (listing_base l).
Proof.
  induction l as [|e l IH|name statat openat l IH]; [done|by intros [_ ?]; apply IH|].
  intros [He ?]%listing_readable_entry. apply entry_base_nonneg in He. specialize (IH H).
  simpl. usage_lia.
Qed.

Lemma readable_nonneg :
  (∀ d max depth, readable max depth d → usage_nonneg (contents d)) ∧
  (∀ l max depth, listing_readable max depth l → usage_nonneg (listing_below l)) ∧
  (∀ o max depth, match o with
                  | OpenedDir d => readable max depth d → usage_nonneg (contents d)
                  | OpenFailed _ => True
                  end).
Proof.
  apply OpenDir_Listing_ind.
  - intros ? ? l IH max depth [_ H]. apply listing_base_nonneg in H as Hb. apply IH in H.
    simpl. usage_lia.
  - done.
  - intros e l IH max depth [_ H]. by eapply IH.
  - intros name statat openat IHo l IH max depth [He H]%listing_readable_entry.
    rewrite listing_below_entry. apply IH in H.
    enough (usage_nonneg (entry_below name statat openat)) by usage_lia.
    eapply entry_below_nonneg; [|done]. intros st d Hd.
    destruct (entry_readable_sub _ _ _ _ _ _ _ He Hd) as (_ & _ & Hr).
    apply subdirectory_Some in Hd as (_ & _ & -> & _). by eapply IHo.
  - done.
  - intros d IH max depth. apply IH.
Qed.

Lemma entry_usage_nonneg max depth name statat openat :
  entry_readable max depth name statat openat →
  usage_nonneg (usage_add (entry_base name statat openat) (entry_below name statat openat)).
Proof.
  intros H. pose proof (entry_base_nonneg _ _ _ _ _ H).
  enough (usage_nonneg (entry_below name statat openat)) by usage_lia.
  eapply entry_below_nonneg; [|done]. intros st d Hd.
  destruct (entry_readable_sub _ _ _ _ _ _ _ H Hd) as (_ & _ & Hr).
  by eapply readable_nonneg.
Qed.

(** ** The streaming walk is exact *)

Section exact.
Context (elapsed : nat → Z) (limits : ScanLimits).

(** The clock readings of a walk that starts at the [from]th. *)
Definition in_time (from n : nat) : Prop :=
  ∀ t, (from ≤ t < from + n)%nat → elapsed t < timeout limits.

Lemma in_time_S from n :
  in_time from (S n) ↔ elapsed from < timeout limits ∧ in_time (S from) n.
Proof.
  unfold in_time. split.
  - intros H. split; [|intros t ?]; apply H; lia.
  - intros [H0 H] t ?. destruct (decide (t = from)) as [->|]; [done|]. apply H. lia.
Qed.

Lemma in_time_add from n m : in_time from (n + m) ↔ in_time from n ∧ in_time (from + n) m.
Proof.
  unfold in_time. split.
  - intros H. split; intros t ?; apply H; lia.
  - intros [H0 H] t ?. destruct (decide (t < from + n)%nat); [apply H0|apply H]; lia.
Qed.

Definition good (u : DirectoryUsage) : Prop :=
  usage_nonneg u ∧ usage_fits u ∧ usage_entries u ≤ max_entries limits.

Lemma good_less u v : good (usage_add u v) → usage_nonneg u → usage_nonneg v → good u.
Proof. unfold good. usage_lia. Qed.

Lemma ensure_budget_Ok s s' :
  ensure_budget elapsed limits s = Ok s' ↔
  elapsed (scanner_checks s) < timeout limits ∧
  s' = mkDirectoryScanner (scanner_usage s) (S (scanner_checks s)).
Proof. unfold ensure_budget. case_match; to_prop; split; try done; naive_solver lia. Qed.

Lemma count_entry_Ok s s' :
  count_entry limits s = Ok s' ↔
  usage_entries (scanner_usage s) + 1 ≤ u64_max ∧
  usage_entries (scanner_usage s) + 1 ≤ max_entries limits ∧
  s' = mkDirectoryScanner (usage_add (scanner_usage s) (mkUsage 0 0 1)) (scanner_checks s).
Proof.
  unfold count_entry. destruct s as [u c]. simpl. split.
  - intros (n & [-> Hu]%ok_or_Ok%checked_add_Some & Hr)%bind_Ok. case_match; [done|].
    to_prop. simplify_eq. split_and!; try done. destruct u; unfold set_with; simpl; f_equal; usage_lia.
  - intros (Hu & Hm & ->). rewrite (proj2 (ok_or_Ok _ _ _)
      (proj2 (checked_add_Some _ _ _ _) (conj eq_refl Hu))). step_ok.
    rewrite (proj2 (Z.ltb_ge _ _)) by done. destruct u; unfold set_with; simpl; do 2 f_equal; usage_lia.
Qed.

Lemma add_allocated_blocks_Ok st s s' :
  add_allocated_blocks st s = Ok s' ↔
  0 ≤ st_blocks st ∧ physical_bytes (allocation st) ≤ u64_max ∧
  physical_bytes (scanner_usage s) + physical_bytes (allocation st) ≤ u64_max ∧
  s' = mkDirectoryScanner (usage_add (scanner_usage s) (allocation st)) (scanner_checks s).
Proof.
  unfold add_allocated_blocks. destruct s as [u c]. cbn [scanner_usage scanner_checks]. split.
  - intros (n & (? & -> & ?)%allocated_bytes_Ok & (m & [-> ?]%add_bytes_Ok & [= <-])%bind_Ok)%bind_Ok.
    split_and!; try done. destruct u; unfold set_with; simpl; f_equal; usage_lia.
  - intros (Hb & Ha & Hp & ->).
    rewrite (proj2 (allocated_bytes_Ok st _) (conj Hb (conj eq_refl Ha))). step_ok.
    rewrite (proj2 (add_bytes_Ok _ _ _) (conj eq_refl Hp)). step_ok.
    destruct u; unfold set_with; simpl; do 2 f_equal; usage_lia.
Qed.

Lemma add_logical_size_Ok st s s' :
  add_logical_size st s = Ok s' ↔
  0 ≤ st_size st ∧ logical_bytes (scanner_usage s) + st_size st ≤ u64_max ∧
  s' = mkDirectoryScanner (usage_add (scanner_usage s) (mkUsage (st_size st) 0 0))
         (scanner_checks s).
Proof.
  unfold add_logical_size. destruct s as [u c]. cbn [scanner_usage scanner_checks]. split.
  - intros (n & (? & ->)%file_size_Ok & (m & [-> ?]%add_bytes_Ok & [= <-])%bind_Ok)%bind_Ok.
    split_and!; try done. destruct u; unfold set_with; simpl; f_equal; usage_lia.
  - intros (Hs & Hl & ->). rewrite (proj2 (file_size_Ok st _) (conj Hs eq_refl)). step_ok.
    rewrite (proj2 (add_bytes_Ok _ _ _) (conj eq_refl Hl)). step_ok.
    destruct u; unfold set_with; simpl; do 2 f_equal; usage_lia.
Qed.

Definition scanned (s : DirectoryScanner) (u : DirectoryUsage) (n : nat) : DirectoryScanner :=
  mkDirectoryScanner (usage_add (scanner_usage s) u) (scanner_checks s + n).

Definition streamed (depth : Z) (d : OpenDir) (s s' : DirectoryScanner) : Prop :=
  readable (max_depth limits) depth d ∧ in_time (scanner_checks s) (dir_checks d) ∧
  good (usage_add (scanner_usage s) (contents d)) ∧ s' = scanned s (contents d) (dir_checks d).

Lemma scanned_0 s : scanned s usage_default 0 = s.
Proof.
  destruct s as [u c]. unfold scanned. cbn [scanner_usage scanner_checks]. f_equal; [|lia].
  usage_lia.
Qed.

Lemma in_time_0 from : in_time from 0.
Proof. intros t ?. lia. Qed.

Lemma file_usage_regular st :
  st_mode st = FileRegular → file_usage st = usage_add (allocation st) (mkUsage (st_size st) 0 0).
Proof. intros H. unfold file_usage. rewrite H. simpl. usage_lia. Qed.

Lemma file_usage_other st : st_mode st ≠ FileRegular → file_usage st = allocation st.
Proof. intros H. unfold file_usage. by rewrite bool_decide_eq_false_2. Qed.

Ltac scan_lia := unfold good, scanned in *; cbn [scanner_usage scanner_checks] in *; usage_lia.
Ltac scan_eq :=
  unfold scanned; cbn [scanner_usage scanner_checks]; f_equal; first [scan_lia|lia].

(** One entry, once the directories below are known to be measured right. *)
Section stream_entry.
Context (enter : OpenDir → DirectoryScanner → result ScanError DirectoryScanner).
Context (name : string) (statat : result Errno Stat) (openat : Opened) (depth : Z).
Context (s s' : DirectoryScanner).
Hypothesis enter_ok : ∀ st d, subdirectory name statat openat = Some (st, d) →
  ∀ s s', good (scanner_usage s) → enter d s = Ok s' ↔ streamed (depth + 1) d s s'.
Hypothesis s_good : good (scanner_usage s).

Lemma scan_open_entry_Ok :
  let u := usage_add (entry_base name statat openat) (entry_below name statat openat) in
  scan_open_entry limits enter name statat openat depth s = Ok s' ↔
  entry_readable (max_depth limits) depth name statat openat ∧
  in_time (scanner_checks s) (entry_checks name statat openat) ∧
  good (usage_add (scanner_usage s) u) ∧ s' = scanned s u (entry_checks name statat openat).
Proof.
  intros u. assert (Hnn := entry_usage_nonneg (max_depth limits) depth name statat openat).
  fold u in Hnn. revert Hnn. subst u. revert enter_ok. pose proof in_time_0 as H0.
  unfold scan_open_entry, entry_readable, entry_base, entry_below, entry_checks.
  destruct (is_dot name) eqn:Hd.
  { rewrite subdirectory_dot by done. intros _ _. replace (usage_add usage_default usage_default) with usage_default by done.
    rewrite scanned_0. replace (usage_add (scanner_usage s) usage_default) with (scanner_usage s)
      by (destruct (scanner_usage s); scan_lia).
    naive_solver. }
  rewrite bind_Ok. setoid_rewrite count_entry_Ok.
  destruct statat as [st|e].
  - intros Henter Hnn. setoid_rewrite bind_Ok. setoid_rewrite add_allocated_blocks_Ok.
    destruct (st_mode st) eqn:Hm.
    + destruct (max_depth limits <=? depth) eqn:Hdep; to_prop.
      { split; [by intros (? & _ & ? & _ & ?)|lia]. }
      destruct openat as [e|d].
      * rewrite subdirectory_None, file_usage_other in * by (intros; congruence). setoid_rewrite transient_or. split.
        -- intros (a & (?&?&->) & b & (?&?&?&->) & ? & ->).
           split_and!; first [done|scan_lia|scan_eq].
        -- intros ((? & ? & ?) & _ & Hg & ->).
           eexists; split; [split_and!; [..|reflexivity]; scan_lia|].
           eexists; split; [split_and!; [..|reflexivity]; scan_lia|]. split; [done|scan_eq].
      * rewrite (proj2 (subdirectory_Some name (Ok st) (OpenedDir d) st d)) in * by done. split.
        -- intros (a & (?&?&->) & b & (?&?&?&->) & Hin).
           apply (Henter _ _ eq_refl) in Hin; [|scan_lia].
           destruct Hin as (? & ? & ? & ->).
           split_and!; first [done|scan_lia|scan_eq].
        -- intros ((? & ? & Hr) & ? & Hg & ->).
           apply readable_nonneg in Hr as Hc.
           eexists; split; [split_and!; [..|reflexivity]; scan_lia|].
           eexists; split; [split_and!; [..|reflexivity]; scan_lia|].
           apply (Henter _ _ eq_refl); [scan_lia|]. unfold streamed.
           split_and!; first [done|scan_lia|scan_eq].
    + rewrite subdirectory_None, file_usage_regular in * by (intros; congruence). setoid_rewrite add_logical_size_Ok. split.
      * intros (a & (?&?&->) & b & (?&?&?&->) & ? & ? & ->).
        split_and!; first [done|scan_lia|scan_eq].
      * intros ((? & ?) & _ & Hg & ->).
        eexists; split; [split_and!; [..|reflexivity]; scan_lia|].
        eexists; split; [split_and!; [..|reflexivity]; scan_lia|].
        split_and!; [scan_lia..|scan_eq].
    + rewrite subdirectory_None, file_usage_other in * by (intros; congruence). split.
      * intros (a & (?&?&->) & b & (?&?&?&->) & [= <-]).
        split_and!; first [done|scan_lia|scan_eq].
      * intros ((? & _) & _ & Hg & ->).
        eexists; split; [split_and!; [..|reflexivity]; scan_lia|].
        eexists; split; [split_and!; [..|reflexivity]; scan_lia|]. f_equal. scan_eq.
  - rewrite subdirectory_None by (intros; congruence). intros _ Hnn. setoid_rewrite transient_or. split.
    + intros (a & (?&?&->) & ? & ->).
      split_and!; first [done|scan_lia|scan_eq].
    + intros (? & _ & Hg & ->).
      eexists. split_and!; [..|reflexivity|done|scan_eq]; scan_lia.
Qed.
End stream_entry.

Definition streamed_listing (depth : Z) (l : Listing) (s s' : DirectoryScanner) : Prop :=
  let u := usage_add (listing_base l) (listing_below l) in
  listing_readable (max_depth limits) depth l ∧ in_time (scanner_checks s) (listing_checks l) ∧
  good (usage_add (scanner_usage s) u) ∧ s' = scanned s u (listing_checks l).

Lemma scanned_scanned s u n v m :
  scanned (scanned s u n) v m = scanned s (usage_add u v) (n + m).
Proof. scan_eq. Qed.

Lemma good_split u v w :
  good u → usage_nonneg v → usage_nonneg w → good (usage_add u (usage_add v w)) →
  good (usage_add u v) ∧ good (usage_add (usage_add u v) w).
Proof. scan_lia. Qed.

Lemma scan_open_directory_eq fs unreadable l depth s :
  scan_open_directory elapsed limits (mkOpenDir fs unreadable l) depth s =
  (ensure_budget elapsed limits s ≫= λ s,
   match unreadable with
   | Some e => Err (Os e)
   | None => scan_open_entries elapsed limits l depth s
   end).
Proof. done. Qed.

Lemma scan_open_error_eq e rest depth s :
  scan_open_entries elapsed limits (LError e rest) depth s =
  (ensure_budget elapsed limits s ≫= λ s,
   if transient_entry_error e then scan_open_entries elapsed limits rest depth s else Err (Os e)).
Proof. done. Qed.

Lemma scan_open_entry_eq name statat openat rest depth s :
  scan_open_entries elapsed limits (LEntry name statat openat rest) depth s =
  (ensure_budget elapsed limits s ≫= λ s,
   scan_open_entry limits (λ d s, scan_open_directory elapsed limits d (depth + 1) s)
     name statat openat depth s ≫= λ s,
   scan_open_entries elapsed limits rest depth s).
Proof. done. Qed.

(** A walk succeeds exactly when every call does, in time, and the sum is in
    range; the result is the sum. *)
Lemma scan_open_exact :
  (∀ d depth s s', good (scanner_usage s) →
     scan_open_directory elapsed limits d depth s = Ok s' ↔ streamed depth d s s') ∧
  (∀ l depth s s', good (scanner_usage s) →
     scan_open_entries elapsed limits l depth s = Ok s' ↔ streamed_listing depth l s s') ∧
  (∀ o depth s s', good (scanner_usage s) →
     match o with
     | OpenedDir d =>
         scan_open_directory elapsed limits d depth s = Ok s' ↔ streamed depth d s s'
     | OpenFailed _ => True
     end).
Proof.
  apply OpenDir_Listing_ind.
  - intros fs unreadable l IH depth s s' Hg. rewrite scan_open_directory_eq, bind_Ok.
    setoid_rewrite ensure_budget_Ok. unfold streamed. cbn [dir_checks contents readable].
    rewrite in_time_S. split.
    + intros (a & (? & ->) & Hs). destruct unreadable; [done|]. apply IH in Hs; [|done].
      destruct Hs as (? & ? & ? & ->). split_and!; first [done|scan_lia|scan_eq].
    + intros ((-> & ?) & (? & ?) & ? & ->). eexists. split; [done|].
      apply IH; [done|]. split_and!; first [done|scan_lia|scan_eq].
  - intros depth s s' Hg. unfold streamed_listing. cbn. pose proof in_time_0.
    replace (usage_add usage_default usage_default) with usage_default by done.
    rewrite scanned_0. replace (usage_add (scanner_usage s) usage_default) with (scanner_usage s)
      by (destruct (scanner_usage s); usage_lia). naive_solver.
  - intros e l IH depth s s' Hg. rewrite scan_open_error_eq, bind_Ok.
    setoid_rewrite ensure_budget_Ok. unfold streamed_listing.
    cbn [listing_readable listing_checks listing_base listing_below]. rewrite in_time_S. split.
    + intros (a & (? & ->) & Hs). destruct (transient_entry_error e); [|done].
      apply IH in Hs; [|done].
      destruct Hs as (? & ? & ? & ->). split_and!; first [done|scan_lia|scan_eq].
    + intros ((-> & ?) & (? & ?) & ? & ->). eexists. split; [done|].
      apply IH; [done|]. split_and!; first [done|scan_lia|scan_eq].
  - intros name statat openat IHo l IH depth s s' Hg. rewrite scan_open_entry_eq, bind_Ok.
    setoid_rewrite bind_Ok. setoid_rewrite ensure_budget_Ok.
    unfold streamed_listing. rewrite listing_checks_entry, listing_below_entry.
    rewrite listing_readable_entry. cbn [listing_base].
    rewrite in_time_S, in_time_add.
    assert (Henter : ∀ st d, subdirectory name statat openat = Some (st, d) →
      ∀ s s', good (scanner_usage s) →
        scan_open_directory elapsed limits d (depth + 1) s = Ok s' ↔ streamed (depth + 1) d s s').
    { intros st d (_ & _ & -> & _)%subdirectory_Some. apply IHo. }
    split.
    + intros (a & (? & ->) & b & Hb & Hs). apply scan_open_entry_Ok in Hb; [|done..].
      destruct Hb as (Hr & ? & ? & ->). apply IH in Hs; [|done].
      destruct Hs as (? & ? & ? & ->). rewrite scanned_scanned.
      split_and!; first [done|scan_lia|scan_eq].
    + intros ((Hr & Hl) & (? & ? & ?) & Hg' & ->). 
      pose proof (entry_usage_nonneg _ _ _ _ _ Hr).
      pose proof (listing_base_nonneg _ _ _ Hl). apply readable_nonneg in Hl as ?.
      eexists. split; [done|]. eexists. split.
      { apply scan_open_entry_Ok; [done..|]. split_and!; first [done|scan_lia]. }
      apply IH; [scan_lia|]. unfold streamed_listing. rewrite scanned_scanned.
      split_and!; first [done|scan_lia|scan_eq].
  - done.
  - intros d IH depth s s' Hg. by apply IH.
Qed.

(** ** The caching walk is exact *)

Definition budget_good (b : ScanBudget) : Prop :=
  0 ≤ budget_entries b ≤ max_entries limits ∧ budget_entries b ≤ u64_max.

Record walk_good (w : Walk) : Prop := {
  good_base : usage_nonneg (walk_base w) ∧ usage_fits (walk_base w);
  good_below : usage_nonneg (walk_below w) ∧ usage_fits (walk_below w);
  good_budget : budget_good (walk_budget w);
}.

Definition spent (b : ScanBudget) (u : DirectoryUsage) (n : nat) : ScanBudget :=
  mkScanBudget (budget_entries b + usage_entries u) (checks b + n).

Definition advanced (w : Walk) (u v : DirectoryUsage) (cs : gset string) (n : nat) (ns : Nodes) :
    Walk :=
  mkWalk (usage_add (walk_base w) u) (usage_add (walk_below w) v) (cs ∪ walk_children w)
    (spent (walk_budget w) (usage_add u v) n) (ns ∪ walk_nodes w).

Lemma check_Ok b b' :
  check elapsed limits b = Ok b' ↔
  elapsed (checks b) < timeout limits ∧ b' = mkScanBudget (budget_entries b) (S (checks b)).
Proof. unfold check. case_match; to_prop; split; try done; naive_solver lia. Qed.

(** Equality of walks. *)
Lemma walk_ext w w' :
  walk_base w = walk_base w' → walk_below w = walk_below w' →
  walk_children w = walk_children w' →
  budget_entries (walk_budget w) = budget_entries (walk_budget w') →
  checks (walk_budget w) = checks (walk_budget w') → walk_nodes w = walk_nodes w' → w = w'.
Proof. destruct w as [? ? ? [] ?], w' as [? ? ? [] ?]. simpl. by intros -> -> -> -> -> ->. Qed.

Ltac walk_eq :=
  apply walk_ext; unfold set_with, advanced, spent;
  cbn [walk_base walk_below walk_children walk_budget walk_nodes budget_entries checks usage_entries
       usage_add];
  rewrite ?(left_id_L ∅ (∪)); first [done|lia|usage_lia|idtac].

Lemma base_entry_Ok w w' :
  base_entry limits w = Ok w' ↔
  budget_entries (walk_budget w) + 1 ≤ u64_max ∧
  budget_entries (walk_budget w) + 1 ≤ max_entries limits ∧
  usage_entries (walk_base w) + 1 ≤ u64_max ∧
  w' = advanced w (mkUsage 0 0 1) usage_default ∅ 0 ∅.
Proof.
  unfold base_entry, visit_entry. split.
  - intros (b & (n & [-> ?]%ok_or_Ok%checked_add_Some & Hb)%bind_Ok &
      (m & [-> ?]%add_bytes_Ok & [= <-])%bind_Ok)%bind_Ok.
    case_match; simplify_eq. to_prop. split_and!; try done. walk_eq.
  - intros (Hb & Hm & He & ->).
    rewrite (proj2 (ok_or_Ok _ _ _) (proj2 (checked_add_Some _ _ _ _) (conj eq_refl Hb))).
    step_ok. rewrite (proj2 (Z.ltb_ge _ _)) by done. step_ok.
    rewrite (proj2 (add_bytes_Ok _ _ _) (conj eq_refl He)). step_ok. f_equal. walk_eq.
Qed.

Lemma base_allocated_Ok st w w' :
  base_allocated (physical_bytes (allocation st)) w = Ok w' ↔
  physical_bytes (walk_base w) + physical_bytes (allocation st) ≤ u64_max ∧
  w' = advanced w (allocation st) usage_default ∅ 0 ∅.
Proof.
  unfold base_allocated. rewrite bind_Ok. setoid_rewrite add_bytes_Ok. split.
  - intros (n & [-> ?] & [= <-]). split; [done|]. walk_eq.
  - intros [? ->]. eexists. split; [done|]. f_equal. walk_eq.
Qed.

Lemma base_logical_Ok st w w' :
  base_logical st w = Ok w' ↔
  0 ≤ st_size st ∧ logical_bytes (walk_base w) + st_size st ≤ u64_max ∧
  w' = advanced w (mkUsage (st_size st) 0 0) usage_default ∅ 0 ∅.
Proof.
  unfold base_logical. rewrite bind_Ok. setoid_rewrite bind_Ok.
  setoid_rewrite file_size_Ok. setoid_rewrite add_bytes_Ok. split.
  - intros (? & [? ->] & n & [-> ?] & [= <-]). split_and!; [done..|]. walk_eq.
  - intros (? & ? & ->). eexists. split; [done|]. eexists. split; [done|]. f_equal. walk_eq.
Qed.

Lemma advanced_advanced w u v cs n ns u' v' cs' n' ns' :
  advanced (advanced w u v cs n ns) u' v' cs' n' ns' =
  advanced w (usage_add u u') (usage_add v v') (cs' ∪ cs) (n + n') (ns' ∪ ns).
Proof. walk_eq; by rewrite (assoc_L (∪)). Qed.

Lemma advanced_0 w : advanced w usage_default usage_default ∅ 0 ∅ = w.
Proof. walk_eq. Qed.

(** What [scan_directory_tree] returns when it succeeds. *)
Record cached (max_cached depth : Z) (path : Path) (st : Stat) (d : OpenDir) (b : ScanBudget)
    (nodes : Nodes) (r : DirectoryUsage * ScanBudget * Nodes) : Prop := {
  cached_blocks : 0 ≤ st_blocks st;
  cached_readable : readable (max_depth limits) depth d;
  cached_in_time : in_time (checks b) (dir_checks d);
  cached_fits : usage_fits (dir_total st d);
  cached_value : r = (dir_total st d, spent b (dir_total st d) (dir_checks d),
                      dir_nodes path st d ∪ nodes);
  cached_budget : budget_good (spent b (dir_total st d) (dir_checks d));
  cached_fresh : dir_nodes path st d ##ₘ nodes;
  cached_size : Z.of_nat (size (dir_nodes path st d ∪ nodes)) ≤ max_cached;
  cached_proper : named d → proper d;
}.

Record walked (path : Path) (depth : Z) (l : Listing) (w w' : Walk) : Prop := {
  walked_readable : listing_readable (max_depth limits) depth l;
  walked_in_time : in_time (checks (walk_budget w)) (listing_checks l);
  walked_value : w' = advanced w (listing_base l) (listing_below l) (listing_children l)
                        (listing_checks l) (listing_nodes path l);
  walked_fresh : listing_nodes path l ##ₘ walk_nodes w;
  walked_good : walk_good w';
  walked_proper : listing_named l → listing_proper l;
}.

Ltac walk_lia :=
  unfold set_with, budget_good, advanced, spent in *;
  cbn [walk_base walk_below walk_children walk_budget walk_nodes budget_entries checks
       usage_entries] in *; usage_lia.

Ltac entry_ok :=
  first [done|walk_eq; fail|apply map_disjoint_empty_l|split; walk_lia|by intros ? ? [= <- <-]].

(** One entry, once the directories below are known to be measured right. *)
Section tree_entry.
Context (enter : OpenDir → Stat → ScanBudget → Nodes →
                 result ScanError (DirectoryUsage * ScanBudget * Nodes)).
Context (name : string) (statat : result Errno Stat) (openat : Opened).
Context (path : Path) (depth max_cached : Z).

Lemma scan_tree_entry_sound w w' :
  (∀ st d, subdirectory name statat openat = Some (st, d) →
     ∀ b nodes r, budget_good b → enter d st b nodes = Ok r →
       cached max_cached (depth + 1) (join path name) st d b nodes r) →
  walk_good w → scan_tree_entry limits enter name statat openat depth w = Ok w' →
  entry_readable (max_depth limits) depth name statat openat ∧
  in_time (checks (walk_budget w)) (entry_checks name statat openat) ∧
  w' = advanced w (entry_base name statat openat) (entry_below name statat openat)
         (entry_children name statat openat) (entry_checks name statat openat)
         (entry_nodes path name statat openat) ∧
  entry_nodes path name statat openat ##ₘ walk_nodes w ∧ walk_good w' ∧
  (∀ st d, subdirectory name statat openat = Some (st, d) → named d → proper d).
Proof.
  intros Henter Hgood. pose proof in_time_0 as H0. pose proof Hgood as [Hb Hw Hbud].
  unfold scan_tree_entry, entry_readable, entry_base, entry_below, entry_checks, entry_nodes,
    entry_children.
  destruct (is_dot name) eqn:Hd.
  { rewrite subdirectory_dot by done. intros [= <-]. rewrite advanced_0.
    split_and!; try done. apply map_disjoint_empty_l. }
  intros (a & (? & ? & ? & ->)%base_entry_Ok & Ha)%bind_Ok.
  destruct statat as [st|e].
  - apply bind_Ok in Ha as (n & (? & -> & ?)%allocated_bytes_Ok & Ha).
    destruct (st_mode st) eqn:Hm.
    + destruct (max_depth limits <=? depth) eqn:Hdep; [done|to_prop].
      destruct openat as [e|d].
      * rewrite subdirectory_None, file_usage_other in * by (intros; congruence).
        destruct (transient_entry_error e); [|done].
        apply base_allocated_Ok in Ha as (? & ->). rewrite advanced_advanced.
        split_and!; entry_ok.
      * rewrite (proj2 (subdirectory_Some name (Ok st) (OpenedDir d) st d)) in * by done.
        apply bind_Ok in Ha as (opened & _ & Ha). case_match; [done|].
        apply bind_Ok in Ha as ([[t b] nodes] & Hin & Ha).
        apply (Henter _ _ eq_refl) in Hin; [|walk_lia].
        destruct Hin as [? Hr Ht Hf [= -> -> ->] Hbd Hfresh _ Hp].
        cbn [advanced walk_budget spent checks] in Ht. rewrite Nat.add_0_r in Ht.
        apply bind_Ok in Ha as (below & [-> ?]%add_usage_Ok & [= <-]).
        apply readable_nonneg in Hr as Hc.
        cbn [advanced walk_nodes] in Hfresh. rewrite (left_id_L ∅ (∪)) in Hfresh.
        split_and!; entry_ok.
    + rewrite subdirectory_None, file_usage_regular in * by (intros; congruence).
      apply bind_Ok in Ha as (c & (? & ->)%base_allocated_Ok & (? & ? & ->)%base_logical_Ok).
      rewrite !advanced_advanced. split_and!; entry_ok.
    + rewrite subdirectory_None, file_usage_other in * by (intros; congruence).
      apply base_allocated_Ok in Ha as (? & ->). rewrite advanced_advanced. split_and!; entry_ok.
  - rewrite subdirectory_None by (intros; congruence).
    destruct (transient_entry_error e); [|done]. simplify_eq. split_and!; entry_ok.
Qed.
End tree_entry.

Lemma scan_tree_directory_eq fs unreadable l st path depth b nodes max_cached :
  scan_directory_tree elapsed limits (mkOpenDir fs unreadable l) st path depth b nodes max_cached =
  (check elapsed limits b ≫= λ b,
   allocated_bytes st ≫= λ allocated,
   match unreadable with
   | Some e => Err (Os e)
   | None =>
       scan_tree_entries elapsed limits l path depth max_cached
         (mkWalk (mkUsage 0 allocated 0) usage_default ∅ b nodes) ≫=
       record_directory path max_cached
   end).
Proof. done. Qed.

Lemma scan_tree_error_eq e rest path depth max_cached w :
  scan_tree_entries elapsed limits (LError e rest) path depth max_cached w =
  (check elapsed limits (walk_budget w) ≫= λ b,
   if transient_entry_error e
   then scan_tree_entries elapsed limits rest path depth max_cached (w <| walk_budget := b |>)
   else Err (Os e)).
Proof. done. Qed.

Lemma scan_tree_entry_eq name statat openat rest path depth max_cached w :
  scan_tree_entries elapsed limits (LEntry name statat openat rest) path depth max_cached w =
  (check elapsed limits (walk_budget w) ≫= λ b,
   scan_tree_entry limits
     (λ d st b nodes, scan_directory_tree elapsed limits d st (join path name) (depth + 1)
                        b nodes max_cached)
     name statat openat depth (w <| walk_budget := b |>) ≫=
   scan_tree_entries elapsed limits rest path depth max_cached).
Proof. done. Qed.

Lemma record_directory_Ok path max_cached w r :
  record_directory path max_cached w = Ok r ↔
  let t := usage_add (walk_base w) (walk_below w) in
  let nodes := <[path := mkCachedDirectory (walk_base w) t (walk_children w)]> (walk_nodes w) in
  usage_fits t ∧ walk_nodes w !! path = None ∧ Z.of_nat (size nodes) ≤ max_cached ∧
  r = (t, walk_budget w, nodes).
Proof.
  unfold record_directory. rewrite bind_Ok. setoid_rewrite add_usage_Ok. cbv zeta. split.
  - intros (t & [-> ?] & Hr). repeat case_match; simplify_eq. by to_prop.
  - intros (? & Hn & Hs & ->). eexists. split; [done|].
    rewrite Hn, (proj2 (Z.ltb_ge _ _)) by done. done.
Qed.

Lemma dir_nodes_root path st d :
  dir_nodes path st d !! path =
  Some (mkCachedDirectory
          (usage_add (allocation st) (let 'mkOpenDir _ _ l := d in listing_base l))
          (dir_total st d) (let 'mkOpenDir _ _ l := d in listing_children l)).
Proof. destruct d. cbn [dir_nodes]. by rewrite lookup_insert_eq. Qed.

Lemma listing_children_nodes path l name :
  name ∈ listing_children l → is_Some (listing_nodes path l !! join path name).
Proof.
  induction l as [|e l IH|n statat openat l IH]; [set_solver|done|].
  rewrite listing_children_entry, listing_nodes_entry, lookup_union_is_Some.
  unfold entry_children, entry_nodes.
  intros [Hn|Hn]%elem_of_union; [left|right; by apply IH].
  destruct (subdirectory _ _ _) as [[st d]|]; [|set_solver].
  apply elem_of_singleton in Hn as ->. rewrite dir_nodes_root. done.
Qed.

(** The first entry of a listing and the rest of it. *)
Lemma walked_cons path depth name statat openat l w w1 w2 :
  elapsed (checks (walk_budget w)) < timeout limits →
  entry_readable (max_depth limits) depth name statat openat →
  in_time (S (checks (walk_budget w))) (entry_checks name statat openat) →
  w1 = advanced w (entry_base name statat openat) (entry_below name statat openat)
         (entry_children name statat openat) (S (entry_checks name statat openat))
         (entry_nodes path name statat openat) →
  entry_nodes path name statat openat ##ₘ walk_nodes w →
  (∀ st d, subdirectory name statat openat = Some (st, d) → named d → proper d) →
  walked path depth l w1 w2 →
  walked path depth (LEntry name statat openat l) w w2.
Proof.
  intros He Hr Ht -> Hd Hpe [Hlr Hlt -> Hld Hlg Hlp]. cbn [advanced walk_nodes] in Hld.
  apply map_disjoint_union_r in Hld as [Hle Hlw]. split.
  - done.
  - rewrite listing_checks_entry. apply in_time_S. split; [done|]. apply in_time_add.
    split; [done|]. cbn [advanced walk_budget spent checks] in Hlt.
    by replace (S (checks (walk_budget w)) + entry_checks name statat openat)%nat
      with (checks (walk_budget w) + S (entry_checks name statat openat))%nat by lia.
  - rewrite advanced_advanced, listing_checks_entry, listing_below_entry, listing_children_entry,
      listing_nodes_entry. cbn [listing_base].
    by rewrite (map_union_comm (entry_nodes _ _ _ _)), (comm_L (∪) (entry_children _ _ _)).
  - rewrite listing_nodes_entry. by apply map_disjoint_union_l.
  - done.
  - intros (Hn & Ho & Hln). apply listing_proper_entry. split; [|by apply Hlp].
    unfold entry_proper, entry_nodes in *.
    destruct (subdirectory _ _ _) as [[st d]|] eqn:E; [|done].
    specialize (Hpe _ _ eq_refl). apply subdirectory_Some in E as (Hdot & -> & -> & _).
    split; [by apply entry_name_components|]. split; [|by apply Hpe].
    intros [x Hx]%(listing_children_nodes path).
    rewrite map_disjoint_spec in Hle. eapply Hle; [exact Hx|apply dir_nodes_root].
Qed.

(** The directory itself, once its entries are walked. *)
Lemma cached_directory fs l st path depth b nodes max_cached w r :
  elapsed (checks b) < timeout limits →
  0 ≤ st_blocks st →
  walked path depth l (mkWalk (mkUsage 0 (physical_bytes (allocation st)) 0) usage_default ∅
                         (mkScanBudget (budget_entries b) (S (checks b))) nodes) w →
  record_directory path max_cached w = Ok r →
  cached max_cached depth path st (mkOpenDir fs None l) b nodes r.
Proof.
  intros He Hb [Hr Ht -> Hf [Hgb Hgw Hbud] Hp] (Hfit & Hnone & Hsize & ->)%record_directory_Ok.
  cbn [advanced walk_base walk_below walk_children walk_budget walk_nodes] in *.
  assert (Hu : usage_add (usage_add (mkUsage 0 (physical_bytes (allocation st)) 0) (listing_base l))
                 (usage_add usage_default (listing_below l)) =
               dir_total st (mkOpenDir fs None l)) by (unfold dir_total; cbn [contents]; usage_lia).
  assert (Hn : <[path := mkCachedDirectory
                  (usage_add (mkUsage 0 (physical_bytes (allocation st)) 0) (listing_base l))
                  (dir_total st (mkOpenDir fs None l)) (listing_children l ∪ ∅)]>
                 (listing_nodes path l ∪ nodes) =
               dir_nodes path st (mkOpenDir fs None l) ∪ nodes).
  { rewrite insert_union_l, (right_id_L ∅ (∪)). done. }
  assert (Hs : spent (mkScanBudget (budget_entries b) (S (checks b)))
                 (usage_add (listing_base l) (listing_below l)) (listing_checks l) =
               spent b (dir_total st (mkOpenDir fs None l)) (dir_checks (mkOpenDir fs None l))).
  { unfold spent, dir_total. cbn [budget_entries checks dir_checks contents]. f_equal; usage_lia. }
  rewrite Hu, Hn in *. rewrite Hs in *. split; try done.
  - cbn [dir_checks]. by apply in_time_S.
  - apply map_disjoint_insert_l. by apply lookup_union_None in Hnone as [_ ?].
Qed.

Lemma scan_tree_sound :
  (∀ d st path depth b nodes max_cached r, budget_good b →
     scan_directory_tree elapsed limits d st path depth b nodes max_cached = Ok r →
     cached max_cached depth path st d b nodes r) ∧
  (∀ l path depth max_cached w w', walk_good w →
     scan_tree_entries elapsed limits l path depth max_cached w = Ok w' →
     walked path depth l w w') ∧
  (∀ o st path depth b nodes max_cached r, budget_good b →
     match o with
     | OpenedDir d =>
         scan_directory_tree elapsed limits d st path depth b nodes max_cached = Ok r →
         cached max_cached depth path st d b nodes r
     | OpenFailed _ => True
     end).
Proof.
  apply OpenDir_Listing_ind.
  - intros fs unreadable l IH st path depth b nodes max_cached r Hb.
    rewrite scan_tree_directory_eq.
    intros (b1 & (? & ->)%check_Ok & (n & (? & -> & ?)%allocated_bytes_Ok & Ha)%bind_Ok)%bind_Ok.
    destruct unreadable; [done|]. apply bind_Ok in Ha as (w & Hw & Ha).
    apply IH in Hw; [|split; walk_lia]. by eapply cached_directory.
  - intros path depth max_cached w w' Hw [= <-].
    split; [done|apply in_time_0|symmetry; apply advanced_0|apply map_disjoint_empty_l|done..].
  - intros e l IH path depth max_cached w w' Hw. rewrite scan_tree_error_eq.
    intros (b & (? & ->)%check_Ok & Ha)%bind_Ok.
    destruct (transient_entry_error e) eqn:He; [|done].
    apply IH in Ha; [|by split; apply Hw]. destruct Ha as [? ? -> ? ? ?].
    split; try done; [by apply in_time_S|walk_eq; cbn [listing_checks]; lia].
  - intros name statat openat IHo l IH path depth max_cached w w' Hw. rewrite scan_tree_entry_eq.
    intros (b & (? & ->)%check_Ok & (w1 & Hw1 & Ha)%bind_Ok)%bind_Ok.
    eapply (scan_tree_entry_sound _ _ _ _ path _ max_cached) in Hw1 as (? & ? & -> & ? & Hg1 & ?); [| |by split; apply Hw].
    + apply IH in Ha; [|done].
      by eapply walked_cons; [..|exact Ha]; try done; walk_eq.
    + intros st d (_ & _ & -> & _)%subdirectory_Some b nodes r Hb. by apply IHo.
  - done.
  - intros d IH st path depth b nodes max_cached r Hb. by apply IH.
Qed.

(** *** When the caching walk succeeds *)

Definition free_below (path : Path) (nodes : Nodes) : Prop :=
  ∀ q, path `prefix_of` q → nodes !! q = None.

Lemma dir_nodes_below :
  (∀ d path st q, is_Some (dir_nodes path st d !! q) → path `prefix_of` q) ∧
  (∀ l path q, is_Some (listing_nodes path l !! q) →
     ∃ name, name ∈ listing_children l ∧ join path name `prefix_of` q) ∧
  (∀ o path st q, match o with
                  | OpenedDir d => is_Some (dir_nodes path st d !! q) → path `prefix_of` q
                  | OpenFailed _ => True
                  end).
Proof.
  apply OpenDir_Listing_ind.
  - intros fs u l IH path st q. cbn [dir_nodes].
    destruct (decide (path = q)) as [->|Hne]; [done|]. rewrite lookup_insert_ne by done.
    intros (name & _ & Hp)%IH. etrans; [|exact Hp]. by apply prefix_app_r.
  - intros path q. cbn. rewrite lookup_empty. by intros [].
  - intros e l IH path q. apply IH.
  - intros name statat openat IHo l IH path q.
    rewrite listing_nodes_entry, lookup_union_is_Some, listing_children_entry.
    unfold entry_nodes, entry_children.
    intros [He|(n & ? & ?)%IH]; [|exists n; set_solver].
    destruct (subdirectory _ _ _) as [[st d]|] eqn:E; [|by rewrite lookup_empty in He; destruct He].
    apply subdirectory_Some in E as (_ & _ & -> & _). exists name. split; [set_solver|].
    by eapply IHo.
  - done.
  - intros d IH path st q. apply IH.
Qed.

Lemma prefix_join path n m q :
  components n = [Normal n] → components m = [Normal m] →
  join path n `prefix_of` q → join path m `prefix_of` q → n = m.
Proof.
  unfold join. intros -> -> [a ->] [b Hb]. rewrite <-!(assoc_L (++)) in Hb.
  apply (inj (app path)) in Hb. by simplify_eq/=.
Qed.

Lemma steady_names l name :
  listing_steady l → name ∈ listing_children l → components name = [Normal name].
Proof.
  induction l as [|e l IH|n statat openat l IH]; [set_solver|done|].
  intros [He Hl]%listing_steady_entry. rewrite listing_children_entry.
  unfold entry_steady, entry_children in *.
  destruct (subdirectory _ _ _) as [[st d]|]; set_solver.
Qed.

Lemma scan_tree_entry_complete enter name statat openat depth w u v :
  entry_readable (max_depth limits) depth name statat openat →
  (∀ st d, subdirectory name statat openat = Some (st, d) →
     (∃ opened, fstat d = Ok opened ∧ identity_from_stat opened = identity_from_stat st) ∧
     let w1 := advanced w (mkUsage 0 0 1) usage_default ∅ 0 ∅ in
     ∃ b nodes, enter d st (walk_budget w1) (walk_nodes w1) = Ok (dir_total st d, b, nodes)) →
  walk_good w → usage_nonneg u → usage_nonneg v →
  usage_fits (usage_add (walk_base w) (usage_add (entry_base name statat openat) u)) →
  usage_fits (usage_add (walk_below w) (usage_add (entry_below name statat openat) v)) →
  budget_good (spent (walk_budget w)
    (usage_add (usage_add (entry_base name statat openat) (entry_below name statat openat))
       (usage_add u v)) 0) →
  ∃ w', scan_tree_entry limits enter name statat openat depth w = Ok w'.
Proof.
  intros Hr Henter [[Hbn Hbf] [Hwn Hwf] Hbud] Hu Hv.
  pose proof (entry_base_nonneg _ _ _ _ _ Hr) as Hen.
  pose proof (entry_usage_nonneg _ _ _ _ _ Hr) as Hun.
  assert (Hbe : usage_nonneg (entry_below name statat openat)).
  { eapply entry_below_nonneg; [|done]. intros st d Hd.
    destruct (entry_readable_sub _ _ _ _ _ _ _ Hr Hd) as (_ & _ & Hrd).
    by eapply readable_nonneg. }
  assert (Hone : is_dot name = false → usage_entries (entry_base name statat openat) = 1).
  { unfold entry_base, file_usage. intros ->. by repeat case_match. }
  revert Hr Henter Hen Hun Hbe Hone.
  unfold scan_tree_entry, entry_readable, entry_base, entry_below.
  destruct (is_dot name) eqn:Hd; [by eauto|]. intros Hr Henter Hen Hun Hbe Hone Hfb Hfw Hg.
  specialize (Hone eq_refl).
  set (w1 := advanced w (mkUsage 0 0 1) usage_default ∅ 0 ∅) in *.
  assert (base_entry limits w = Ok w1) as -> by
    (apply base_entry_Ok; split_and!; [..|reflexivity]; walk_lia). step_ok.
  destruct statat as [st|e]; [|rewrite Hr; eauto]. destruct Hr as [Hb Hr].
  assert (physical_bytes (allocation st) ≤ u64_max) as Ha.
  { destruct (st_mode st) eqn:Hm; [destruct openat as [e|d]|..];
      rewrite ?file_usage_other, ?file_usage_regular in * by congruence; try walk_lia.
    rewrite (proj2 (subdirectory_Some name (Ok st) (OpenedDir d) st d)) in * by done.
    destruct Hr as [_ Hr]. apply readable_nonneg in Hr. walk_lia. }
  rewrite (proj2 (allocated_bytes_Ok st _) (conj Hb (conj eq_refl Ha))). step_ok.
  destruct (st_mode st) eqn:Hm.
  - destruct Hr as [Hdep Hr]. rewrite (proj2 (Z.leb_gt _ _)) by done.
    destruct openat as [e|d].
    + rewrite file_usage_other in * by congruence. rewrite Hr. eexists.
      apply base_allocated_Ok. split; [|reflexivity]. unfold w1. walk_lia.
    + rewrite (proj2 (subdirectory_Some name (Ok st) (OpenedDir d) st d)) in * by done.
      destruct (Henter _ _ eq_refl) as ((opened & -> & Hid) & b & nodes & ->).
      cbn [os result_map_err]. step_ok. rewrite bool_decide_eq_false_2 by auto. step_ok.
      erewrite (proj2 (add_usage_Ok _ _ _)); [step_ok; eauto|]. split; [reflexivity|].
      unfold w1. walk_lia.
  - rewrite file_usage_regular in * by done. eexists. apply bind_Ok. eexists. split.
    + apply base_allocated_Ok. split; [|reflexivity]. unfold w1. walk_lia.
    + apply base_logical_Ok. split_and!; [done| |reflexivity]. unfold w1. walk_lia.
  - rewrite file_usage_other in * by congruence. eexists.
    apply base_allocated_Ok. split; [|reflexivity]. unfold w1. walk_lia.
Qed.

(** What the success of [scan_directory_tree] depends on. *)
Record can_cache (max_cached depth : Z) (path : Path) (st : Stat) (d : OpenDir) (b : ScanBudget)
    (nodes : Nodes) : Prop := {
  can_steady : steady d;
  can_blocks : 0 ≤ st_blocks st;
  can_readable : readable (max_depth limits) depth d;
  can_in_time : in_time (checks b) (dir_checks d);
  can_fits : usage_fits (dir_total st d);
  can_budget : budget_good b ∧ budget_good (spent b (dir_total st d) (dir_checks d));
  can_free : free_below path nodes;
  can_size : Z.of_nat (size (dir_nodes path st d ∪ nodes)) ≤ max_cached;
}.

Record can_walk (max_cached depth : Z) (path : Path) (l : Listing) (w : Walk) : Prop := {
  walk_steady : listing_steady l;
  walk_readable : listing_readable (max_depth limits) depth l;
  walk_in_time : in_time (checks (walk_budget w)) (listing_checks l);
  walk_before : walk_good w;
  walk_base_fits : usage_fits (usage_add (walk_base w) (listing_base l));
  walk_below_fits : usage_fits (usage_add (walk_below w) (listing_below l));
  walk_budget_good :
    budget_good (spent (walk_budget w) (usage_add (listing_base l) (listing_below l)) 0);
  walk_free name : name ∈ listing_children l → free_below (join path name) (walk_nodes w);
  walk_size : Z.of_nat (size (listing_nodes path l ∪ walk_nodes w)) ≤ max_cached;
}.

Lemma can_walk_directory fs l st path depth b nodes max_cached :
  can_cache max_cached depth path st (mkOpenDir fs None l) b nodes →
  can_walk max_cached depth path l
    (mkWalk (mkUsage 0 (physical_bytes (allocation st)) 0) usage_default ∅
       (mkScanBudget (budget_entries b) (S (checks b))) nodes).
Proof.
  intros [Hst Hb [_ Hr] Ht Hf [Hb1 Hb2] Hfree Hsize]. cbn [steady] in Hst.
  cbn [dir_checks] in Ht. apply in_time_S in Ht as [_ Ht].
  pose proof (listing_base_nonneg _ _ _ Hr) as Hn1. apply readable_nonneg in Hr as Hn2.
  unfold dir_total in Hf, Hb2. cbn [contents dir_checks] in Hf, Hb2.
  split; try done; [split|..]; try walk_lia.
  - intros name _ q Hq. apply Hfree. etrans; [|exact Hq]. by apply prefix_app_r.
  - cbn [walk_nodes]. etrans; [|exact Hsize]. apply inj_le. apply dom_subseteq_size.
    cbn [dir_nodes]. rewrite !dom_union_L, dom_insert_L. set_solver.
Qed.

Lemma free_below_union path m1 m2 :
  free_below path (m1 ∪ m2) ↔ free_below path m1 ∧ free_below path m2.
Proof.
  unfold free_below. setoid_rewrite lookup_union_None. naive_solver.
Qed.

(** The rest of a listing, after its first entry. *)
Lemma can_walk_rest name statat openat l path depth w max_cached :
  can_walk max_cached depth path (LEntry name statat openat l) w →
  walk_good (advanced w (entry_base name statat openat) (entry_below name statat openat)
               (entry_children name statat openat) (S (entry_checks name statat openat))
               (entry_nodes path name statat openat)) →
  can_walk max_cached depth path l
    (advanced w (entry_base name statat openat) (entry_below name statat openat)
       (entry_children name statat openat) (S (entry_checks name statat openat))
       (entry_nodes path name statat openat)).
Proof.
  intros [Hst Hr Ht Hg Hbf Hwf Hbud Hfree Hsize] Hg'.
  apply listing_steady_entry in Hst as [Hse Hsl].
  apply listing_readable_entry in Hr as [Hre Hrl].
  rewrite listing_checks_entry, in_time_S, in_time_add in Ht. destruct Ht as (_ & _ & Ht).
  rewrite listing_below_entry in Hwf, Hbud. cbn [listing_base] in Hbf, Hbud.
  split; try done; try walk_lia.
  - cbn [advanced walk_budget spent checks].
    by replace (checks (walk_budget w) + S (entry_checks name statat openat))%nat
      with (S (checks (walk_budget w)) + entry_checks name statat openat)%nat by lia.
  - intros n Hn. cbn [advanced walk_nodes]. apply free_below_union. split.
    + intros q Hq. apply eq_None_not_Some. intros Hs. unfold entry_nodes, entry_steady in *.
      destruct (subdirectory _ _ _) as [[st d]|]; [|by rewrite lookup_empty in Hs; destruct Hs].
      destruct Hse as (Hc & Hnot & _ & _). apply dir_nodes_below in Hs.
      rewrite (prefix_join _ _ _ _ Hc (steady_names _ _ Hsl Hn) Hs Hq) in Hnot. done.
    + apply Hfree. rewrite listing_children_entry. set_solver.
  - cbn [advanced walk_nodes]. etrans; [|exact Hsize]. apply inj_le. apply dom_subseteq_size.
    rewrite listing_nodes_entry, !dom_union_L. set_solver.
Qed.

(** The directory an entry leads to. *)
Lemma can_cache_entry name statat openat st d l path depth w max_cached :
  subdirectory name statat openat = Some (st, d) →
  can_walk max_cached depth path (LEntry name statat openat l) w →
  let w1 := advanced (w <| walk_budget := mkScanBudget (budget_entries (walk_budget w))
                                            (S (checks (walk_budget w))) |>)
              (mkUsage 0 0 1) usage_default ∅ 0 ∅ in
  can_cache max_cached (depth + 1) (join path name) st d (walk_budget w1) (walk_nodes w1).
Proof.
  intros Hsub [Hst Hr Ht Hg Hbf Hwf Hbud Hfree Hsize] w1.
  apply listing_steady_entry in Hst as [Hse Hsl].
  apply listing_readable_entry in Hr as [Hre Hrl].
  rewrite listing_checks_entry, in_time_S, in_time_add in Ht. destruct Ht as (_ & Ht & _).
  rewrite listing_below_entry in Hwf, Hbud. cbn [listing_base] in Hbf, Hbud.
  rewrite listing_nodes_entry in Hsize.
  pose proof (entry_readable_sub _ _ _ _ _ _ _ Hre Hsub) as (Hb & _ & Hrd).
  pose proof (listing_base_nonneg _ _ _ Hrl) as Hn1. apply readable_nonneg in Hrl as Hn2.
  apply readable_nonneg in Hrd as Hn3.
  assert (Hone : usage_entries (entry_base name statat openat) = 1).
  { apply subdirectory_Some in Hsub as (Hd & -> & -> & Hm). unfold entry_base. by rewrite Hd, Hm. }
  unfold entry_steady, entry_checks, entry_nodes, entry_below in *. rewrite Hsub in *.
  destruct Hg as [[? ?] [? ?] ?].
  split; try done.
  - apply Hse.
  - unfold w1. cbn [advanced walk_budget spent checks]. by rewrite Nat.add_0_r.
  - walk_lia.
  - split; unfold w1; walk_lia.
  - unfold w1. cbn [advanced walk_nodes]. rewrite (left_id_L ∅ (∪)).
    apply Hfree. rewrite listing_children_entry. unfold entry_children. rewrite Hsub. set_solver.
  - unfold w1. cbn [advanced walk_nodes]. rewrite (left_id_L ∅ (∪)).
    etrans; [|exact Hsize]. apply inj_le, dom_subseteq_size. rewrite !dom_union_L. set_solver.
Qed.

Lemma listing_nodes_not_here path l : listing_steady l → listing_nodes path l !! path = None.
Proof.
  intros Hl. apply eq_None_not_Some. intros (n & Hn & Hp)%dir_nodes_below.
  apply prefix_length in Hp. unfold join in Hp. rewrite (steady_names _ _ Hl Hn) in Hp.
  rewrite length_app in Hp. simpl in Hp. lia.
Qed.

Lemma scan_tree_directory_complete fs unreadable l st path depth b nodes max_cached :
  (∀ w, can_walk max_cached depth path l w →
     ∃ w', scan_tree_entries elapsed limits l path depth max_cached w = Ok w') →
  can_cache max_cached depth path st (mkOpenDir fs unreadable l) b nodes →
  ∃ r, scan_directory_tree elapsed limits (mkOpenDir fs unreadable l) st path depth b nodes
         max_cached = Ok r.
Proof.
  intros IH Hc. destruct unreadable; [by destruct Hc as [_ _ [] _ _ _ _ _]|].
  pose proof (can_walk_directory _ _ _ _ _ _ _ _ Hc) as Hcw.
  destruct Hc as [Hst Hb [_ Hr] Ht Hf [Hb1 Hb2] Hfree Hsize].
  cbn [dir_checks] in Ht. apply in_time_S in Ht as [Hnow Ht].
  pose proof (listing_base_nonneg _ _ _ Hr) as Hn1. apply readable_nonneg in Hr as Hn2.
  unfold dir_total in Hf. cbn [contents] in Hf.
  rewrite scan_tree_directory_eq, (proj2 (check_Ok _ _) (conj Hnow eq_refl)). step_ok.
  erewrite (proj2 (allocated_bytes_Ok st _)); [step_ok|split_and!; [done|reflexivity|walk_lia]].
  destruct (IH _ Hcw) as [w Hw]. rewrite Hw. step_ok.
  apply scan_tree_sound in Hw; [|apply Hcw]. destruct Hw as [_ _ -> _ _ _].
  eexists. apply record_directory_Ok. split_and!; [walk_lia..| | |reflexivity].
  - cbn [advanced walk_nodes]. apply lookup_union_None.
    split; [by apply listing_nodes_not_here|by apply Hfree].
  - cbn [advanced walk_nodes]. etrans; [|exact Hsize]. apply inj_le, dom_subseteq_size.
    cbn [dir_nodes]. rewrite !dom_insert_L, !dom_union_L, dom_insert_L. set_solver.
Qed.

Lemma scan_tree_entries_complete name statat openat l path depth max_cached w :
  (∀ st d, subdirectory name statat openat = Some (st, d) → ∀ b nodes,
     can_cache max_cached (depth + 1) (join path name) st d b nodes →
     ∃ r, scan_directory_tree elapsed limits d st (join path name) (depth + 1) b nodes
            max_cached = Ok r) →
  (∀ w, can_walk max_cached depth path l w →
     ∃ w', scan_tree_entries elapsed limits l path depth max_cached w = Ok w') →
  can_walk max_cached depth path (LEntry name statat openat l) w →
  ∃ w', scan_tree_entries elapsed limits (LEntry name statat openat l) path depth max_cached w =
        Ok w'.
Proof.
  intros IHo IH Hc. rewrite scan_tree_entry_eq.
  assert (Ht := walk_in_time _ _ _ _ _ Hc). rewrite listing_checks_entry, in_time_S in Ht.
  rewrite (proj2 (check_Ok _ _) (conj (proj1 Ht) eq_refl)). step_ok.
  set (w0 := w <| walk_budget := _ |>).
  assert (Hg0 : walk_good w0) by (by destruct (walk_before _ _ _ _ _ Hc); split).
  destruct (proj1 (listing_readable_entry _ _ _ _ _ _) (walk_readable _ _ _ _ _ Hc)) as [Hre Hrl].
  pose proof (listing_base_nonneg _ _ _ Hrl) as Hn1. apply readable_nonneg in Hrl as Hn2.
  pose proof (walk_base_fits _ _ _ _ _ Hc) as Hf1. pose proof (walk_below_fits _ _ _ _ _ Hc) as Hf2.
  pose proof (walk_budget_good _ _ _ _ _ Hc) as Hf3.
  rewrite listing_below_entry in Hf2, Hf3. cbn [listing_base] in Hf1, Hf3.
  destruct (scan_tree_entry_complete (λ d st b nodes,
    scan_directory_tree elapsed limits d st (join path name) (depth + 1) b nodes max_cached)
    name statat openat depth w0 (listing_base l) (listing_below l)) as [w1 Hw1];
    [done| |done|done|done|unfold w0; walk_lia..|].
  - intros st d Hsub.
    pose proof (can_cache_entry _ _ _ _ _ _ _ _ _ _ Hsub Hc) as Hcc. cbv zeta in Hcc.
    split.
    { pose proof (walk_steady _ _ _ _ _ Hc) as [Hse _]%listing_steady_entry.
      unfold entry_steady in Hse. rewrite Hsub in Hse. apply Hse. }
    destruct (IHo _ _ Hsub _ _ Hcc) as [r Hr].
    apply scan_tree_sound in Hr as Hs; [|apply (can_budget _ _ _ _ _ _ _ Hcc)].
    rewrite (cached_value _ _ _ _ _ _ _ _ Hs) in Hr. by do 2 eexists.
  - rewrite Hw1. step_ok. apply IH.
    eapply (scan_tree_entry_sound _ _ _ _ path _ max_cached) in Hw1 as (_ & _ & -> & _ & Hg1 & _);
      [| |done].
    + replace (advanced w0 _ _ _ _ _) with
        (advanced w (entry_base name statat openat) (entry_below name statat openat)
           (entry_children name statat openat) (S (entry_checks name statat openat))
           (entry_nodes path name statat openat)) in * by (unfold w0; walk_eq).
      by apply can_walk_rest.
    + intros st d _ b nodes r Hb. by apply scan_tree_sound.
Qed.

Lemma scan_tree_complete :
  (∀ d st path depth b nodes max_cached, can_cache max_cached depth path st d b nodes →
     ∃ r, scan_directory_tree elapsed limits d st path depth b nodes max_cached = Ok r) ∧
  (∀ l path depth max_cached w, can_walk max_cached depth path l w →
     ∃ w', scan_tree_entries elapsed limits l path depth max_cached w = Ok w') ∧
  (∀ o st path depth b nodes max_cached,
     match o with
     | OpenedDir d => can_cache max_cached depth path st d b nodes →
         ∃ r, scan_directory_tree elapsed limits d st path depth b nodes max_cached = Ok r
     | OpenFailed _ => True
     end).
Proof.
  apply OpenDir_Listing_ind.
  - intros fs unreadable l IH st path depth b nodes max_cached.
    apply scan_tree_directory_complete. intros w. apply IH.
  - eauto.
  - intros e l IH path depth max_cached w [Hst [He Hr] Ht Hg Hbf Hwf Hbud Hfree Hsize].
    rewrite scan_tree_error_eq. cbn [listing_checks] in Ht. apply in_time_S in Ht as [Hnow Ht].
    rewrite (proj2 (check_Ok _ _) (conj Hnow eq_refl)). step_ok. rewrite He.
    apply IH. split; try done. by split; apply Hg.
  - intros name statat openat IHo l IH path depth max_cached w.
    apply scan_tree_entries_complete; [|intros w'; apply IH].
    intros st d (_ & _ & -> & _)%subdirectory_Some b nodes. apply IHo.
  - done.
  - intros d IH st path depth b nodes max_cached. apply IH.
Qed.
(** *** A smaller cache changes nothing else *)

(** When [r'] succeeds, so does [r], with the same result, unless the cache is
    too small for it. *)
Definition cut_short {A} (r r' : result ScanError A) : Prop :=
  ∀ a, r' = Ok a → r = Ok a ∨ r = Err CacheDirectoryLimit.

Lemma cut_short_refl {A} (r : result ScanError A) : cut_short r r.
Proof. by left. Qed.

Lemma cut_short_bind {A B} (r r' : result ScanError A) (f f' : A → result ScanError B) :
  cut_short r r' → (∀ a, cut_short (f a) (f' a)) → cut_short (r ≫= f) (r' ≫= f').
Proof.
  intros Hr Hf b (a & Ha & Hb)%bind_Ok. destruct (Hr a Ha) as [->| ->]; [|by right].
  by apply (Hf a b).
Qed.
#[local] Hint Resolve cut_short_refl : core.

Lemma record_directory_cut path m m' w :
  cut_short (record_directory path m w) (record_directory path m' w).
Proof.
  unfold record_directory. apply cut_short_bind; [done|]. intros t.
  destruct (walk_nodes w !! path); [done|]. intros r. destruct (m' <? _); [done|]. intros [= <-].
  destruct (m <? _); auto.
Qed.

Lemma scan_tree_entry_cut enter enter' name statat openat depth w :
  (∀ st d b nodes, subdirectory name statat openat = Some (st, d) →
     cut_short (enter d st b nodes) (enter' d st b nodes)) →
  cut_short (scan_tree_entry limits enter name statat openat depth w)
    (scan_tree_entry limits enter' name statat openat depth w).
Proof.
  intros He. unfold scan_tree_entry. unfold subdirectory in He. destruct (is_dot name); [done|].
  apply cut_short_bind; [done|]. intros w1. destruct statat as [st|e]; [|done].
  apply cut_short_bind; [done|]. intros n. destruct (st_mode st) eqn:Hm; try done.
  destruct (_ <=? _); [done|]. destruct openat as [|d]; [done|].
  apply cut_short_bind; [done|]. intros opened. destruct (bool_decide (identity_from_stat opened ≠ _)); [done|].
  apply cut_short_bind; [|by intros [[? ?] ?]]. by apply He.
Qed.

Lemma scan_tree_cut m m' :
  (∀ d st path depth b nodes,
     cut_short (scan_directory_tree elapsed limits d st path depth b nodes m)
       (scan_directory_tree elapsed limits d st path depth b nodes m')) ∧
  (∀ l path depth w,
     cut_short (scan_tree_entries elapsed limits l path depth m w)
       (scan_tree_entries elapsed limits l path depth m' w)) ∧
  (∀ o, match o with
        | OpenedDir d => ∀ st path depth b nodes,
            cut_short (scan_directory_tree elapsed limits d st path depth b nodes m)
              (scan_directory_tree elapsed limits d st path depth b nodes m')
        | OpenFailed _ => True
        end).
Proof.
  apply OpenDir_Listing_ind.
  - intros fs unreadable l IH st path depth b nodes. rewrite !scan_tree_directory_eq.
    do 2 (apply cut_short_bind; [done|intros ?]). destruct unreadable; [done|].
    apply cut_short_bind; [apply IH|]. intros w. apply record_directory_cut.
  - done.
  - intros e l IH path depth w. rewrite !scan_tree_error_eq.
    apply cut_short_bind; [done|]. intros b. destruct (transient_entry_error e); [apply IH|done].
  - intros name statat openat IHo l IH path depth w. rewrite !scan_tree_entry_eq.
    apply cut_short_bind; [done|]. intros b. apply cut_short_bind; [|intros w1; apply IH].
    apply scan_tree_entry_cut. intros st d b' nodes (_ & _ & -> & _)%subdirectory_Some. apply IHo.
  - done.
  - intros d IH. exact IH.
Qed.
End exact.
