(* ===== verification/UsageTree.v ===== *)
(** * The cached usage tree and its partial reconciliation

    Models [server/disk/soft/usage_tree.rs] above the walk of [DiskScan]: the
    cache of every directory's usage that a full scan leaves behind
    ([scan_full_bounded]), and the update of that cache from the directories
    inotify reported ([reconcile]).

    The file system answers system calls while it changes: [DiskEnv] gives the
    answer to each call as a function of the moment it is made, counted in
    readings of the clock.  Names that the source iterates over in the order of
    a hash map are taken in the order of [map_to_list]; only the choice among
    several reasons for a full scan depends on it. *)
From S2P Require Import Prelude Planner DiskScan.

Local Open Scope Z_scope.

(** ** Data *)

Record DiskEnv := mkDiskEnv {
  elapsed : nat → Z;
  (** Opening the root, and opening the last name below directories that are
      open. *)
  open_path : nat → list string → Opened;
}.

Record UsageTreeCache := mkUsageTreeCache {
  root_identity : RootIdentity;
  target_generation : string;
  max_cached_directories : Z;
  nodes : Nodes;
}.
#[export] Instance UsageTreeCache_eta : Settable UsageTreeCache :=
  λ r, mkUsageTreeCache (root_identity r) (target_generation r) (max_cached_directories r)
         (nodes r).

Inductive BoundedFullScan := Cached (cache : UsageTreeCache) | DirectoryLimitExceeded.

Inductive ReconcileError := FullScanRequired (reason : string) | ReconcileIo (e : ScanError).

(** The fields of a [DirectoryUsage], as signed 128-bit integers. *)
Definition UsageDelta := DirectoryUsage.

Inductive OpenRelativeError := Unavailable | OpenIo (e : ScanError).

Definition io {A} (r : result ScanError A) : result ReconcileError A :=
  result_map_err ReconcileIo r.

Definition full {A} (reason : string) : result ReconcileError A := Err (FullScanRequired reason).

Definition full_unless {A} (o : option A) (reason : string) : result ReconcileError A :=
  ok_or o (FullScanRequired reason).

(** ** Opening directories *)

Definition open_root (env : DiskEnv) (now : nat) :
    result ScanError (OpenDir * RootIdentity * Stat) :=
  match open_path env now [] with
  | OpenFailed e => Err (Os e)
  | OpenedDir d =>
      st ← os (fstat d);
      if bool_decide (st_mode st ≠ FileDirectory) then Err NotADirectory
      else Ok (d, identity_from_stat st, st)
  end.

(** The free function [root_identity]. *)
Definition read_root_identity (env : DiskEnv) (now : nat) : result ScanError RootIdentity :=
  '(_, id, _) ← open_root env now; Ok id.

Definition unavailable_path_error (e : Errno) : bool :=
  bool_decide (e = NOENT ∨ e = STALE ∨ e = NOTDIR ∨ e = LOOP).

Fixpoint open_components (env : DiskEnv) (now : nat) (opened : list string) (d : OpenDir)
    (rest : Path) : result OpenRelativeError OpenDir :=
  match rest with
  | [] => Ok d
  | Normal name :: rest =>
      match open_path env now (opened ++ [name]) with
      | OpenedDir d => open_components env now (opened ++ [name]) d rest
      | OpenFailed e =>
          if unavailable_path_error e then Err Unavailable else Err (OpenIo (Os e))
      end
  | _ :: _ => Err (OpenIo UncleanPath)
  end.

Definition open_relative_directory (env : DiskEnv) (now : nat) (root : OpenDir) (path : Path) :
    result OpenRelativeError OpenDir := open_components env now [] root path.

(** ** Full scans *)

Section limits.
Context (env : DiskEnv) (limits : ScanLimits).

(** [scan_directory_with_id] of [usage.rs]. *)
Definition directory_identity (now : nat) : result ScanError RootIdentity :=
  match open_path env now [] with
  | OpenFailed e => Err (Os e)
  | OpenedDir d => st ← os (fstat d); Ok (identity_from_stat st)
  end.

Definition scan_directory_with_id : result ScanError (DirectoryUsage * RootIdentity) :=
  match open_path env 0 [] with
  | OpenFailed e => Err (Os e)
  | OpenedDir d =>
      st ← os (fstat d);
      allocated ← allocated_bytes st;
      s ← scan_open_directory (elapsed env) limits d 0
            (mkDirectoryScanner (mkUsage 0 allocated 0) 0);
      id ← directory_identity (scanner_checks s);
      if bool_decide (id ≠ identity_from_stat st) then Err RootReplaced
      else Ok (scanner_usage s, identity_from_stat st)
  end.

Definition validate_complete_tree (ns : Nodes) : result ScanError unit :=
  root ← ok_or (ns !! []) CacheWithoutRoot;
  maximum_nodes ← ok_or (checked_add usize_max (max_entries limits) 1) EntryLimitTooLarge;
  if (maximum_nodes <? Z.of_nat (size ns)) ||
     (max_entries limits <? usage_entries (total root))
  then Err EntryBoundExceeded else Ok tt.

Definition scan_full_bounded (generation : string) (max_cached : Z) :
    result ScanError BoundedFullScan :=
  if max_cached =? 0 then Ok DirectoryLimitExceeded
  else
    '(d, id, st) ← open_root env 0;
    match scan_directory_tree (elapsed env) limits d st [] 0 (mkScanBudget 0 0) ∅ max_cached with
    | Err CacheDirectoryLimit => Ok DirectoryLimitExceeded
    | Err e => Err e
    | Ok (_, b, ns) =>
        _ ← validate_complete_tree ns;
        id' ← read_root_identity env (checks b);
        if bool_decide (id' ≠ id) then Err RootReplaced
        else Ok (Cached (mkUsageTreeCache id generation max_cached ns))
    end.

Definition cache_usage (c : UsageTreeCache) : DirectoryUsage :=
  match nodes c !! [] with Some root => total root | None => usage_default end.

Definition directory_count (c : UsageTreeCache) : Z := Z.of_nat (size (nodes c)).

End limits.

(** ** Trees of cached directories *)

Definition total_at (ns : Nodes) (path : Path) : DirectoryUsage :=
  match ns !! path with Some node => total node | None => usage_default end.

Definition usage_sum (us : list DirectoryUsage) : DirectoryUsage :=
  foldr usage_add usage_default us.

(** The totals of the directories [names] of [path]. *)
Definition children_total (ns : Nodes) (path : Path) (names : gset string) : DirectoryUsage :=
  usage_sum ((λ n, total_at ns (join path n)) <$> elements names).

(** Every node accounts for the nodes of its children. *)
Record sums_ok (ns : Nodes) : Prop := {
  ok_child path node name : ns !! path = Some node → name ∈ children node →
    components name = [Normal name] ∧ is_Some (ns !! join path name);
  ok_total path node : ns !! path = Some node →
    total node = usage_add (base node) (children_total ns path (children node));
}.

(** The nodes below [path] are those of the directories [names]. *)
Record forest_ok (path : Path) (names : gset string) (ns : Nodes) : Prop := {
  forest_sums : sums_ok ns;
  forest_below q : is_Some (ns !! q) →
    ∃ name, name ∈ names ∧ (path ++ [Normal name]) `prefix_of` q;
  forest_roots name : name ∈ names →
    components name = [Normal name] ∧ is_Some (ns !! (path ++ [Normal name]));
  forest_parent q c : is_Some (ns !! (q ++ [c])) → q ≠ path →
    ∃ node name, ns !! q = Some node ∧ c = Normal name ∧ name ∈ children node;
}.

(** The nodes are those of the directory [root] and everything below it. *)
Record tree_ok (root : Path) (ns : Nodes) : Prop := {
  tree_sums : sums_ok ns;
  tree_root : is_Some (ns !! root);
  tree_below q : is_Some (ns !! q) → root `prefix_of` q;
  tree_parent q c : is_Some (ns !! (q ++ [c])) → q ++ [c] ≠ root →
    ∃ node name, ns !! q = Some node ∧ c = Normal name ∧ name ∈ children node;
}.

Lemma join_normal path name :
  components name = [Normal name] → join path name = path ++ [Normal name].
Proof. unfold join. by intros ->. Qed.

Lemma usage_add_comm a b : usage_add a b = usage_add b a.
Proof. usage_lia. Qed.
Lemma usage_add_assoc a b c : usage_add a (usage_add b c) = usage_add (usage_add a b) c.
Proof. usage_lia. Qed.
Lemma usage_add_0_l a : usage_add usage_default a = a.
Proof. destruct a. usage_lia. Qed.
Lemma usage_add_0_r a : usage_add a usage_default = a.
Proof. destruct a. usage_lia. Qed.

Lemma usage_sum_cons u us : usage_sum (u :: us) = usage_add u (usage_sum us).
Proof. done. Qed.

Lemma usage_sum_app us vs : usage_sum (us ++ vs) = usage_add (usage_sum us) (usage_sum vs).
Proof.
  induction us as [|u us IH]; cbn [app]; [by rewrite usage_add_0_l|].
  by rewrite !usage_sum_cons, IH, usage_add_assoc.
Qed.

Lemma usage_sum_nonneg us : Forall usage_nonneg us → usage_nonneg (usage_sum us).
Proof. induction 1; [done|]. rewrite usage_sum_cons. usage_lia. Qed.

#[export] Instance usage_sum_proper : Proper ((≡ₚ) ==> (=)) usage_sum.
Proof.
  intros us vs. induction 1 as [| |x y l|]; simpl; [done|congruence| |congruence].
  rewrite !usage_add_assoc. f_equal. apply usage_add_comm.
Qed.

Lemma children_total_ext ns ns' path names :
  (∀ n, n ∈ names → total_at ns (join path n) = total_at ns' (join path n)) →
  children_total ns path names = children_total ns' path names.
Proof.
  intros H. unfold children_total. f_equal. apply list_fmap_ext.
  intros i n Hn. apply H. apply elem_of_elements. by eapply list_elem_of_lookup_2.
Qed.

Lemma children_total_add ns path name names :
  name ∉ names →
  children_total ns path ({[name]} ∪ names) =
  usage_add (total_at ns (join path name)) (children_total ns path names).
Proof.
  intros H. unfold children_total. rewrite elements_union_singleton by done. done.
Qed.

Lemma sums_ok_union ns ns' : sums_ok ns → sums_ok ns' → ns ##ₘ ns' → sums_ok (ns ∪ ns').
Proof.
  intros Hl Hr Hd. split.
  - intros path node name [H|[_ H]]%lookup_union_Some_raw Hn.
    + destruct (ok_child _ Hl _ _ _ H Hn). rewrite lookup_union_is_Some. auto.
    + destruct (ok_child _ Hr _ _ _ H Hn). rewrite lookup_union_is_Some. auto.
  - intros path node [H|[_ H]]%lookup_union_Some_raw; unfold total_at.
    + rewrite (ok_total _ Hl _ _ H). f_equal. apply children_total_ext. intros n Hn.
      destruct (ok_child _ Hl _ _ _ H Hn) as [_ [x Hx]]. unfold total_at.
      by rewrite Hx, (lookup_union_Some_l _ _ _ _ Hx).
    + rewrite (ok_total _ Hr _ _ H). f_equal. apply children_total_ext. intros n Hn.
      destruct (ok_child _ Hr _ _ _ H Hn) as [_ [x Hx]]. unfold total_at.
      by rewrite Hx, (lookup_union_Some_r _ _ _ _ Hd Hx).
Qed.

Lemma forest_empty path : forest_ok path ∅ ∅.
Proof.
  split; [split| | |]; try (intros *; rewrite lookup_empty); try done; try (by intros []).
Qed.

Lemma prefix_snoc_inv (p q : Path) c : p `prefix_of` q ++ [c] → p = q ++ [c] ∨ p `prefix_of` q.
Proof.
  intros [k Hk]. destruct k as [|x k _] using rev_ind; [left; by rewrite app_nil_r in Hk|right].
  rewrite (assoc_L (++)) in Hk. apply app_inj_tail in Hk as [-> _]. by apply prefix_app_r.
Qed.

(** Another directory is added. *)
Lemma forest_add path name names t ns :
  tree_ok (path ++ [Normal name]) t → forest_ok path names ns → name ∉ names →
  components name = [Normal name] → t ##ₘ ns → forest_ok path ({[name]} ∪ names) (t ∪ ns).
Proof.
  intros Ht Hf Hn Hc Hd. split.
  - apply sums_ok_union; [apply Ht|apply Hf|done].
  - intros q [Hq|Hq]%lookup_union_is_Some.
    + exists name. split; [set_solver|]. by apply (tree_below _ _ Ht).
    + destruct (forest_below _ _ _ Hf _ Hq) as (n & ? & ?). exists n. set_solver.
  - intros n [->%elem_of_singleton|Hin]%elem_of_union; rewrite lookup_union_is_Some.
    + split; [done|left]. apply Ht.
    + destruct (forest_roots _ _ _ Hf _ Hin). auto.
  - intros q c [Hq|Hq]%lookup_union_is_Some Hne.
    + destruct (tree_parent _ _ Ht _ _ Hq) as (node & n & H & -> & Hin).
      { intros [-> _]%app_inj_tail. done. }
      exists node, n. by rewrite (lookup_union_Some_l _ _ _ _ H).
    + destruct (forest_parent _ _ _ Hf _ _ Hq Hne) as (node & n & H & -> & Hin).
      exists node, n. by rewrite (lookup_union_Some_r _ _ _ _ Hd H).
Qed.

(** The directory above is added. *)
Lemma forest_tree path names ns b :
  forest_ok path names ns →
  tree_ok path
    (<[path := mkCachedDirectory b (usage_add b (children_total ns path names)) names]> ns).
Proof.
  intros Hf.
  assert (Hnone : ns !! path = None).
  { apply eq_None_not_Some. intros (n & _ & Hp%prefix_length)%(forest_below _ _ _ Hf).
    rewrite length_app in Hp. simpl in Hp. lia. }
  assert (Hat : ∀ q, is_Some (ns !! q) → ∀ x, <[path := x]> ns !! q = ns !! q).
  { intros q [y Hq] x. rewrite lookup_insert_ne; [done|]. intros ->. by rewrite Hnone in Hq. }
  assert (Htot : ∀ q cs x, (∀ n, n ∈ cs → is_Some (ns !! join q n)) →
    children_total (<[path := x]> ns) q cs = children_total ns q cs).
  { intros q cs x H. apply children_total_ext. intros n Hn. unfold total_at. by rewrite Hat by auto. }
  assert (Hsub : ∀ n, n ∈ names → components n = [Normal n] ∧ is_Some (ns !! join path n)).
  { intros n Hn. destruct (forest_roots _ _ _ Hf n Hn). by rewrite join_normal. }
  split.
  - split.
    + intros q node n [[<- <-]|[? Hq]]%lookup_insert_Some Hn; simpl in *.
      * destruct (Hsub n Hn). by rewrite Hat.
      * destruct (ok_child _ (forest_sums _ _ _ Hf) _ _ _ Hq Hn). by rewrite Hat.
    + intros q node [[<- <-]|[? Hq]]%lookup_insert_Some; simpl.
      * rewrite Htot; [done|]. apply Hsub.
      * rewrite (ok_total _ (forest_sums _ _ _ Hf) _ _ Hq), Htot; [done|].
        intros n Hn. by apply (ok_child _ (forest_sums _ _ _ Hf) _ _ _ Hq).
  - rewrite lookup_insert_eq. done.
  - intros q [x [[<- _]|[_ Hq]]%lookup_insert_Some]; [done|].
    destruct (forest_below _ _ _ Hf q) as (n & _ & Hp); [by eauto|].
    etrans; [|exact Hp]. by apply prefix_app_r.
  - intros q c [x [[Hq _]|[_ Hq]]%lookup_insert_Some] Hne; [by rewrite Hq in Hne|].
    destruct (decide (q = path)) as [->|Hqp].
    + destruct (forest_below _ _ _ Hf _ ltac:(eauto)) as (n & Hn & Hp).
      apply prefix_snoc_inv in Hp as [[_ [= <-]]%app_inj_tail|Hp%prefix_length].
      * eexists _, n. by rewrite lookup_insert_eq.
      * rewrite length_app in Hp. simpl in Hp. lia.
    + destruct (forest_parent _ _ _ Hf _ _ ltac:(eauto) Hqp) as (node & n & H & -> & Hin).
      exists node, n. by rewrite lookup_insert_ne.
Qed.

Lemma dir_nodes_tree :
  (∀ d path st, proper d → tree_ok path (dir_nodes path st d)) ∧
  (∀ l path, listing_proper l →
     forest_ok path (listing_children l) (listing_nodes path l) ∧
     children_total (listing_nodes path l) path (listing_children l) = listing_below l) ∧
  (∀ o path st, match o with
                | OpenedDir d => proper d → tree_ok path (dir_nodes path st d)
                | OpenFailed _ => True
                end).
Proof.
  apply OpenDir_Listing_ind.
  - intros fs u l IH path st Hp. destruct (IH path Hp) as [Hf Ht]. cbn [dir_nodes].
    rewrite usage_add_assoc, <-Ht. by apply forest_tree.
  - intros path _. split; [apply forest_empty|done].
  - intros e l IH path Hp. by apply IH.
  - intros name statat openat IHo l IH path [He Hl]%listing_proper_entry.
    destruct (IH path Hl) as [Hf Ht].
    rewrite listing_children_entry, listing_nodes_entry, listing_below_entry.
    unfold entry_children, entry_nodes, entry_below, entry_proper in *.
    destruct (subdirectory name statat openat) as [[st d]|] eqn:E.
    2:{ by rewrite !(left_id_L ∅ (∪)), usage_add_0_l. }
    apply subdirectory_Some in E as (_ & _ & -> & _). destruct He as (Hc & Hn & Hp).
    specialize (IHo (path ++ [Normal name]) st Hp). rewrite join_normal by done.
    assert (Hd : dir_nodes (path ++ [Normal name]) st d ##ₘ listing_nodes path l).
    { apply map_disjoint_spec. intros q x y Hx Hy.
      destruct (forest_below _ _ _ Hf q) as (m & Hm & Hpm); [by eauto|].
      destruct (forest_roots _ _ _ Hf m Hm) as [Hcm _].
      assert (name = m) as ->; [|done]. apply (prefix_join path _ _ q Hc Hcm);
        rewrite join_normal by done; [|done]. by apply (tree_below _ _ IHo). }
    split; [by apply forest_add|].
    rewrite children_total_add, join_normal by done. f_equal.
    + unfold total_at. by rewrite (lookup_union_Some_l _ _ _ _ (dir_nodes_root _ _ _)).
    + rewrite <-Ht. apply children_total_ext. intros m Hm. unfold total_at.
      destruct (forest_roots _ _ _ Hf m Hm) as [Hcm [x Hx]]. rewrite join_normal by done.
      by rewrite (lookup_union_Some_r _ _ _ _ Hd Hx), Hx.
  - done.
  - intros d IH. apply IH.
Qed.

(** A directory is an entry of the one above it. *)
Lemma size_union_le (ns ns' : Nodes) : (size (ns ∪ ns') ≤ size ns + size ns')%nat.
Proof.
  rewrite <-!(size_dom (D := gset Path)), dom_union_L, size_union_alt.
  pose proof (subseteq_size (dom ns' ∖ dom ns) (dom ns') ltac:(set_solver)). lia.
Qed.

Lemma entry_base_entries name statat openat :
  is_dot name = false → usage_entries (entry_base name statat openat) = 1.
Proof. intros Hd. unfold entry_base, file_usage. rewrite Hd. by repeat case_match. Qed.

Lemma dir_nodes_size max :
  (∀ d path st depth, readable max depth d →
     Z.of_nat (size (dir_nodes path st d)) ≤ 1 + usage_entries (contents d)) ∧
  (∀ l path depth, listing_readable max depth l →
     Z.of_nat (size (listing_nodes path l)) ≤
     usage_entries (usage_add (listing_base l) (listing_below l))) ∧
  (∀ o path st, match o with
                | OpenedDir d => ∀ depth, readable max depth d →
                    Z.of_nat (size (dir_nodes path st d)) ≤ 1 + usage_entries (contents d)
                | OpenFailed _ => True
                end).
Proof.
  apply OpenDir_Listing_ind.
  - intros fs u l IH path st depth [_ Hr]. apply (IH path) in Hr. cbn [dir_nodes contents].
    rewrite map_size_insert. case_match; unfold id; lia.
  - intros path depth _. simpl. rewrite map_size_empty. lia.
  - intros e l IH path depth [_ Hr]. by apply (IH path) in Hr.
  - intros name statat openat IHo l IH path depth [He Hl]%listing_readable_entry.
    apply (IH path) in Hl as Hs. rewrite listing_nodes_entry, listing_below_entry.
    cbn [listing_base]. pose proof (size_union_le (entry_nodes path name statat openat)
      (listing_nodes path l)).
    enough (Z.of_nat (size (entry_nodes path name statat openat)) ≤
      usage_entries (usage_add (entry_base name statat openat) (entry_below name statat openat)))
      by usage_lia.
    pose proof (entry_usage_nonneg _ _ _ _ _ He) as Hn.
    unfold entry_nodes, entry_below in *.
    destruct (subdirectory _ _ _) as [[st d]|] eqn:E; [|rewrite map_size_empty; usage_lia].
    destruct (entry_readable_sub _ _ _ _ _ _ _ He E) as (_ & _ & Hr).
    apply subdirectory_Some in E as (Hd & _ & -> & _).
    apply (IHo (join path name) st) in Hr. pose proof (entry_base_entries name statat (OpenedDir d) Hd).
    usage_lia.
  - done.
  - intros d IH path st depth. apply IH.
Qed.

(** Every directory on the way down to a node is a node. *)
Lemma tree_step root ns q :
  tree_ok root ns → is_Some (ns !! q) → ∀ p, root `prefix_of` p → p `prefix_of` q → p ≠ q →
  ∃ node name, ns !! p = Some node ∧ name ∈ children node ∧ (p ++ [Normal name]) `prefix_of` q.
Proof.
  intros Ht. induction q as [|c q IH] using rev_ind; intros Hq p Hr Hp Hne.
  { by apply prefix_nil_inv in Hp. }
  apply prefix_snoc_inv in Hp as [?|Hp]; [done|].
  destruct (tree_parent _ _ Ht q c Hq) as (node & n & Hn & -> & Hin).
  { intros Heq. apply prefix_length in Hr, Hp. rewrite <-Heq, length_app in Hr. simpl in Hr. lia. }
  destruct (decide (p = q)) as [->|Hpq]; [by exists node, n|].
  destruct (IH ltac:(eauto) p Hr Hp Hpq) as (node' & n' & ? & ? & ?).
  exists node', n'. split_and!; [done..|]. by apply prefix_app_r.
Qed.

Lemma tree_up root ns q p :
  tree_ok root ns → is_Some (ns !! q) → root `prefix_of` p → p `prefix_of` q → is_Some (ns !! p).
Proof.
  intros Ht Hq Hr Hp. destruct (decide (p = q)) as [->|Hne]; [done|].
  destruct (tree_step _ _ _ Ht Hq _ Hr Hp Hne) as (? & ? & ? & _). eauto.
Qed.

(** A tree is determined by what is in its directories. *)
Definition outline (node : CachedDirectory) : DirectoryUsage * gset string :=
  (base node, children node).

Lemma sums_unique ns ns' :
  sums_ok ns → sums_ok ns' → (∀ q, outline <$> ns !! q = outline <$> ns' !! q) → ns = ns'.
Proof.
  intros Hs Hs' Ho.
  set (height := S (max_list (length <$> (map_to_list ns).*1))).
  assert (Hh : ∀ q, is_Some (ns !! q) → (length q < height)%nat).
  { intros q [x Hx]. unfold height. apply Nat.lt_succ_r. apply max_list_elem_of_le.
    apply list_elem_of_fmap. exists q. split; [done|]. apply list_elem_of_fmap. exists (q, x).
    split; [done|]. by apply elem_of_map_to_list. }
  assert (Hgo : ∀ k q, (height - length q ≤ k)%nat → ns !! q = ns' !! q).
  { intros k. induction k as [|k IH]; intros q Hk.
    - specialize (Ho q). destruct (ns !! q) eqn:E, (ns' !! q); try done.
      assert (length q < height)%nat by (apply Hh; by rewrite E). lia.
    - pose proof (Ho q) as Hq. destruct (ns !! q) as [x|] eqn:E, (ns' !! q) as [y|] eqn:E'; try done.
      f_equal. destruct x as [b t cs], y as [b' t' cs']. unfold outline in Hq. simplify_eq/=.
      f_equal. pose proof (ok_total _ Hs _ _ E) as H1. pose proof (ok_total _ Hs' _ _ E') as H2.
      simpl in H1, H2. rewrite H1, H2. f_equal. apply children_total_ext. intros n Hn.
      destruct (ok_child _ Hs _ _ _ E Hn) as [Hc Hin]. unfold total_at. rewrite IH; [done|].
      rewrite join_normal, length_app by done. simpl. lia. }
  apply map_eq. intros q. by eapply Hgo.
Qed.

(** The integers of the nodes are in range. *)
Definition tree_bounded (ns : Nodes) : Prop :=
  ∀ q node, ns !! q = Some node →
    usage_nonneg (base node) ∧ usage_nonneg (total node) ∧ usage_fits (total node).

Lemma dir_nodes_bounded max :
  (∀ d path st depth, 0 ≤ st_blocks st → readable max depth d → usage_fits (dir_total st d) →
     tree_bounded (dir_nodes path st d)) ∧
  (∀ l path depth, listing_readable max depth l → usage_fits (listing_below l) →
     tree_bounded (listing_nodes path l)) ∧
  (∀ o path st, match o with
                | OpenedDir d => ∀ depth, 0 ≤ st_blocks st → readable max depth d →
                    usage_fits (dir_total st d) → tree_bounded (dir_nodes path st d)
                | OpenFailed _ => True
                end).
Proof.
  apply OpenDir_Listing_ind.
  - intros fs u l IH path st depth Hb [_ Hr] Hf q node. cbn [dir_nodes].
    pose proof (listing_base_nonneg _ _ _ Hr) as Hn1. apply readable_nonneg in Hr as Hn2.
    unfold dir_total in Hf. cbn [contents] in Hf.
    intros [[<- <-]|[_ Hq]]%lookup_insert_Some; cbn [base total]; [split_and!; usage_lia|].
    eapply IH; [done| |done]. usage_lia.
  - intros path depth _ _ q node Hq. cbn [listing_nodes] in Hq. by rewrite lookup_empty in Hq.
  - intros e l IH path depth [_ Hr]. by eapply IH.
  - intros name statat openat IHo l IH path depth [He Hl]%listing_readable_entry.
    rewrite listing_below_entry. intros Hf q node. rewrite listing_nodes_entry.
    apply readable_nonneg in Hl as Hn.
    assert (Hen : usage_nonneg (entry_below name statat openat)).
    { eapply entry_below_nonneg; [|done]. intros st d Hd.
      destruct (entry_readable_sub _ _ _ _ _ _ _ He Hd) as (_ & _ & Hr).
      by eapply readable_nonneg. }
    intros [Hq|[_ Hq]]%lookup_union_Some_raw; [|eapply IH; [done| |done]; usage_lia].
    unfold entry_nodes, entry_below in *.
    destruct (subdirectory _ _ _) as [[st d]|] eqn:E; [|by rewrite lookup_empty in Hq].
    destruct (entry_readable_sub _ _ _ _ _ _ _ He E) as (Hb & _ & Hr).
    apply subdirectory_Some in E as (_ & _ & -> & _).
    eapply IHo; [exact Hb|exact Hr| |exact Hq]. usage_lia.
  - done.
  - intros d IH path st depth. apply IH.
Qed.

(** ** Both full scans measure the same *)

Section full_scan.
Context (env : DiskEnv) (limits : ScanLimits) (d : OpenDir) (st : Stat).
Hypothesis root_stays : ∀ now, open_path env now [] = OpenedDir d.
Hypothesis root_stat : fstat d = Ok st.
Hypothesis root_mode : st_mode st = FileDirectory.
Hypothesis entries_bound : 0 ≤ max_entries limits < u64_max.

Lemma open_root_ok now : open_root env now = Ok (d, identity_from_stat st, st).
Proof.
  unfold open_root. rewrite root_stays, root_stat. cbn [os result_map_err]. step_ok.
  by rewrite bool_decide_eq_false_2 by naive_solver.
Qed.

Definition measurable : Prop :=
  0 ≤ st_blocks st ∧ readable (max_depth limits) 0 d ∧
  in_time (elapsed env) limits 0 (dir_checks d) ∧
  usage_fits (dir_total st d) ∧ usage_entries (dir_total st d) ≤ max_entries limits.

Lemma streaming_scan_ok u id :
  scan_directory_with_id env limits = Ok (u, id) ↔
  measurable ∧ u = dir_total st d ∧ id = identity_from_stat st.
Proof.
  unfold scan_directory_with_id, directory_identity. rewrite root_stays, root_stat.
  cbn [os result_map_err]. step_ok. unfold measurable. split.
  - intros (n & (Hb & -> & Hn)%allocated_bytes_Ok & (s & Hs & Ha)%bind_Ok)%bind_Ok.
    apply scan_open_exact in Hs; [|unfold good; cbn [scanner_usage]; split_and!; usage_lia].
    destruct Hs as (Hr & Ht & Hg & ->).
    rewrite root_stays, root_stat in Ha. cbn [os result_map_err] in Ha. rewrite bind_of_Ok in Ha.
    rewrite bind_of_Ok, bool_decide_eq_false_2 in Ha by naive_solver. simplify_eq/=.
    unfold good in Hg. split_and!; try done; try usage_lia.
  - intros ((Hb & Hr & Ht & Hf & He) & -> & ->).
    apply readable_nonneg in Hr as Hn.
    assert (Ha : physical_bytes (allocation st) ≤ u64_max) by usage_lia.
    rewrite (proj2 (allocated_bytes_Ok st _) (conj Hb (conj eq_refl Ha))). step_ok.
    set (s0 := mkDirectoryScanner _ _).
    assert (scan_open_directory (elapsed env) limits d 0 s0 =
            Ok (scanned s0 (contents d) (dir_checks d))) as ->.
    { apply scan_open_exact; unfold streamed, good, s0; cbn [scanner_usage scanner_checks];
        split_and!; try done; usage_lia. }
    step_ok. rewrite root_stays, root_stat. cbn [os result_map_err]. do 2 step_ok.
    rewrite bool_decide_eq_false_2 by naive_solver. done.
Qed.

Lemma caching_scan_ok generation max_cached c :
  steady d → Z.of_nat (size (dir_nodes [] st d)) ≤ max_cached →
  scan_full_bounded env limits generation max_cached = Ok (Cached c) ↔
  measurable ∧
  c = mkUsageTreeCache (identity_from_stat st) generation max_cached (dir_nodes [] st d).
Proof.
  intros Hst Hsize. unfold scan_full_bounded.
  assert (Hpos : 0 < max_cached).
  { assert (size (dir_nodes [] st d) ≠ 0%nat); [|lia].
    intros He%map_size_empty_inv. pose proof (dir_nodes_root [] st d) as Hr. rewrite He in Hr.
    by rewrite lookup_empty in Hr. }
  rewrite (proj2 (Z.eqb_neq max_cached 0)) by lia. rewrite open_root_ok. step_ok.
  assert (Hb0 : budget_good limits (mkScanBudget 0 0)) by (unfold budget_good; simpl; lia).
  split.
  - destruct (scan_directory_tree _ _ _ _ _ _ _ _ _) as [[[t b] ns]|e] eqn:Hs;
      [|destruct e; by intros [=]].
    apply scan_tree_sound in Hs; [|done].
    destruct Hs as [Hb Hr Ht Hf [= -> -> ->] [Hbg _] _ _ _].
    rewrite (right_id_L ∅ (∪)).
    intros (x & _ & (id' & Hid & Ha)%bind_Ok)%bind_Ok.
    unfold read_root_identity in Hid. rewrite open_root_ok, bind_of_Ok in Hid. simplify_eq.
    rewrite bool_decide_eq_false_2 in Ha by naive_solver. simplify_eq.
    cbn [spent budget_entries] in Hbg. split; [|done]. split_and!; try done; lia.
  - intros ((Hb & Hr & Ht & Hf & He) & ->).
    apply readable_nonneg in Hr as Hn.
    destruct (proj1 (scan_tree_complete (elapsed env) limits) d st [] 0 (mkScanBudget 0 0) ∅
                max_cached) as [r Hs].
    { split; try done; [|by rewrite (right_id_L ∅ (∪))].
      split; [done|]. unfold budget_good, spent. cbn [budget_entries checks]. usage_lia. }
    rewrite Hs. apply scan_tree_sound in Hs; [|done].
    destruct Hs as [_ _ _ _ -> _ _ _ _]. rewrite (right_id_L ∅ (∪)).
    pose proof (proj1 (dir_nodes_size (max_depth limits)) d [] st 0 Hr) as Hcount.
    assert (validate_complete_tree limits (dir_nodes [] st d) = Ok tt) as ->.
    { unfold validate_complete_tree. rewrite dir_nodes_root. step_ok.
      erewrite (proj2 (checked_add_Some _ _ _ _)) by (split; [reflexivity|lia]). step_ok.
      rewrite (proj2 (Z.ltb_ge _ _)) by usage_lia.
      rewrite (proj2 (Z.ltb_ge _ _)) by (cbn [total]; usage_lia). done. }
    step_ok. unfold read_root_identity. rewrite open_root_ok. do 2 step_ok.
    by rewrite bool_decide_eq_false_2 by naive_solver.
Qed.
(** A directory that can be measured is cached, or is too large for the cache. *)
Lemma caching_scan_total generation max_cached :
  steady d → measurable → ∃ r, scan_full_bounded env limits generation max_cached = Ok r.
Proof.
  intros Hst Hm. set (n := Z.of_nat (size (dir_nodes [] st d))).
  pose proof (proj2 (caching_scan_ok generation n _ Hst (Z.le_refl _)) (conj Hm eq_refl)) as Hfull.
  unfold scan_full_bounded in Hfull |- *. destruct (max_cached =? 0); [eauto|].
  destruct (n =? 0); [done|]. rewrite open_root_ok, bind_of_Ok in Hfull |- *.
  destruct (scan_directory_tree _ _ _ _ _ _ _ _ n) as [[[t b] ns]|e] eqn:E; [|by destruct e].
  destruct (proj1 (scan_tree_cut (elapsed env) limits max_cached n) d st [] 0 _ ∅ _ E) as [->| ->];
    [|eauto].
  apply bind_Ok in Hfull as ([] & -> & (id & -> & H)%bind_Ok). rewrite !bind_of_Ok.
  case_bool_decide; [done|]. eauto.
Qed.
End full_scan.

(** C34. The two ways to measure a data directory agree.  While the directory
    holds still, the walk that fills the cache and the walk that only adds up
    succeed together and measure the same usage, also when a limit, the clock,
    an error or an overflow stops one of them; and the cache that is left
    behind is exactly the tree of directories, every total the sum of what is
    below it.  (The cache must be large enough, else it is given up for the
    streaming walk.) *)
Theorem full_scans_agree env limits d st generation max_cached :
  (∀ now, open_path env now [] = OpenedDir d) → fstat d = Ok st → st_mode st = FileDirectory →
  0 ≤ max_entries limits < u64_max → steady d →
  Z.of_nat (size (dir_nodes [] st d)) ≤ max_cached →
  (∀ u,
    (∃ c, scan_full_bounded env limits generation max_cached = Ok (Cached c) ∧ cache_usage c = u)
    ↔ (∃ id, scan_directory_with_id env limits = Ok (u, id))) ∧
  (∀ c, scan_full_bounded env limits generation max_cached = Ok (Cached c) →
     nodes c = dir_nodes [] st d ∧ tree_ok [] (nodes c)).
Proof.
  intros Hroot Hst Hm He Hsteady Hsize.
  setoid_rewrite (caching_scan_ok env limits d st); [|done..].
  setoid_rewrite (streaming_scan_ok env limits d st); [|done..].
  assert (Hu : cache_usage (mkUsageTreeCache (identity_from_stat st) generation max_cached
                 (dir_nodes [] st d)) = dir_total st d).
  { unfold cache_usage. cbn [nodes]. by rewrite dir_nodes_root. }
  assert (tree_ok [] (dir_nodes [] st d)) by by apply dir_nodes_tree, steady_proper.
  split; [naive_solver|]. intros c [_ ->]. done.
Qed.

(** A small data directory, with one relation file of the given size. *)
Definition demo_base (size : Z) : OpenDir :=
  mkOpenDir (Ok (mkStat 1 11 FileDirectory 8 4096)) None
    (LEntry "16384" (Ok (mkStat 1 12 FileRegular 16 size)) (OpenFailed NOTDIR) LNil).

Definition demo_root_stat : Stat := mkStat 1 10 FileDirectory 8 4096.

Definition demo_root (size : Z) : OpenDir :=
  mkOpenDir (Ok demo_root_stat) None
    (LEntry "." (Ok demo_root_stat) (OpenFailed LOOP)
    (LEntry "PG_VERSION" (Ok (mkStat 1 13 FileRegular 8 3)) (OpenFailed NOTDIR)
    (LEntry "base" (Ok (mkStat 1 11 FileDirectory 8 4096)) (OpenedDir (demo_base size)) LNil))).

Definition demo_disk (size : Z) : DiskEnv :=
  mkDiskEnv (λ now, Z.of_nat now `mod` 7) (λ _ names,
    if bool_decide (names = []) then OpenedDir (demo_root size)
    else if bool_decide (names = ["base"]) then OpenedDir (demo_base size)
    else OpenFailed NOENT).

Definition demo_limits : ScanLimits := mkScanLimits 1000 100 5.

Lemma demo_steady size : steady (demo_root size).
Proof.
  unfold demo_root. cbn. split; [done|]. split; [done|]. split; [|done].
  split_and!; [done|set_solver| |done..]. by eexists.
Qed.

Lemma full_scans_agree_witness :
  (∃ c, scan_full_bounded (demo_disk 5000) demo_limits "g" 10 = Ok (Cached c) ∧
        cache_usage c = mkUsage 5003 20480 3)
  ↔ (∃ id, scan_directory_with_id (demo_disk 5000) demo_limits = Ok (mkUsage 5003 20480 3, id)).
Proof.
  apply (full_scans_agree (demo_disk 5000) demo_limits (demo_root 5000) demo_root_stat "g" 10).
  - done.
  - done.
  - done.
  - vm_compute. by split.
  - apply demo_steady.
  - vm_compute. by intros [=].
Defined.
