(* ===== verification/Reconcile.v ===== *)
(** * Partial reconciliation of the cached usage tree

    Models [UsageTreeCache::reconcile] of [server/disk/soft/usage_tree.rs]: the
    directories inotify reported are scanned again, and the cache is updated
    where they are and on the way up to the root. *)
From stdpp Require Import sorting.
From S2P Require Import Prelude Planner DiskScan UsageTree.

Local Open Scope Z_scope.

(** ** Choosing the subtrees to scan again *)

Definition validate_changed_path (path : Path) : result ReconcileError unit :=
  if bool_decide (path = []) then full "a dirty event names the scan root directly"
  else if forallb (λ c, match c with Normal n => is_single_normal_component n | _ => false end) path
  then Ok tt
  else full "a dirty path is not a clean root-relative path".

Section planning.
Context (env : DiskEnv) (limits : ScanLimits).

(** [nearest_cached_existing_ancestor]; the candidate is given from its last
    component back. *)
Fixpoint nearest_ancestor (c : UsageTreeCache) (root : OpenDir) (reversed : Path)
    (b : ScanBudget) : result ReconcileError (Path * ScanBudget) :=
  b ← io (check (elapsed env) limits b);
  match reversed with
  | [] => full "no existing cached ancestor remains below the scan root"
  | last :: parent =>
      let candidate := reverse reversed in
      match nodes c !! candidate with
      | None => nearest_ancestor c root parent b
      | Some _ =>
          match open_relative_directory env (checks b) root candidate with
          | Ok _ => Ok (candidate, b)
          | Err Unavailable => nearest_ancestor c root parent b
          | Err (OpenIo e) => Err (ReconcileIo e)
          end
      end
  end.

Definition nearest_cached_existing_ancestor (c : UsageTreeCache) (root : OpenDir) (initial : Path)
    (b : ScanBudget) : result ReconcileError (Path * ScanBudget) :=
  nearest_ancestor c root (reverse initial) b.

Fixpoint find_candidates (c : UsageTreeCache) (root : OpenDir) (changed : list Path)
    (b : ScanBudget) : result ReconcileError (list Path * ScanBudget) :=
  match changed with
  | [] => Ok ([], b)
  | path :: changed =>
      b ← io (check (elapsed env) limits b);
      _ ← validate_changed_path path;
      '(candidate, b) ← nearest_cached_existing_ancestor c root path b;
      '(candidates, b) ← find_candidates c root changed b;
      Ok (candidate :: candidates, b)
  end.
End planning.

Definition component_rank (c : Component) : nat * string :=
  match c with
  | RootDir => (0%nat, "") | CurDir => (1%nat, "") | ParentDir => (2%nat, "")
  | Normal n => (3%nat, n)
  end.

Definition component_compare (c d : Component) : comparison :=
  let '(i, s) := component_rank c in
  let '(j, t) := component_rank d in
  match Nat.compare i j with Eq => String.compare s t | o => o end.

(** [Path::cmp]. *)
Fixpoint path_compare (p q : Path) : comparison :=
  match p, q with
  | [], [] => Eq
  | [], _ => Lt
  | _, [] => Gt
  | c :: p, d :: q => match component_compare c d with Eq => path_compare p q | o => o end
  end.

(** The order candidates are sorted by. *)
Definition candidate_le (p q : Path) : Prop :=
  (match Nat.compare (length p) (length q) with Eq => path_compare p q | o => o end) ≠ Gt.
#[export] Instance candidate_le_dec p q : Decision (candidate_le p q).
Proof. unfold candidate_le. apply _. Defined.

(** [Path::starts_with]. *)
Definition starts_with (path ancestor : Path) : bool := bool_decide (ancestor `prefix_of` path).

Definition deduplicate (candidates : list Path) : list Path :=
  foldl (λ kept candidate,
    if existsb (starts_with candidate) kept then kept else kept ++ [candidate]) [] candidates.

Definition plan_candidates (env : DiskEnv) (limits : ScanLimits) (c : UsageTreeCache)
    (root : OpenDir) (changed : list Path) (b : ScanBudget) :
    result ReconcileError (list Path * ScanBudget) :=
  '(candidates, b) ← find_candidates env limits c root changed b;
  Ok (deduplicate (merge_sort candidate_le candidates), b).

(** ** Scanning them *)

Definition staging_bound_message : string :=
  "the cumulative incremental cache directory bound was exceeded while staging dirty subtrees".

Definition stage_replacement (env : DiskEnv) (limits : ScanLimits) (c : UsageTreeCache)
    (root : OpenDir) (candidate : Path) (staged_directory_count : Z) (b : ScanBudget) :
    result ReconcileError (Nodes * ScanBudget) :=
  match open_relative_directory env (checks b) root candidate with
  | Err Unavailable => full "a dirty subtree changed while it was being scanned"
  | Err (OpenIo e) => Err (ReconcileIo e)
  | Ok d =>
      st ← io (os (fstat d));
      if bool_decide (identity_from_stat st = root_identity c) && bool_decide (candidate ≠ [])
      then full "a dirty subtree unexpectedly resolves to the scan root"
      else
        remaining ← full_unless (checked_sub (max_cached_directories c) staged_directory_count)
                      staging_bound_message;
        if remaining =? 0 then full staging_bound_message
        else
          match scan_directory_tree (elapsed env) limits d st candidate
                  (Z.of_nat (length candidate)) b ∅ remaining with
          | Err CacheDirectoryLimit => full staging_bound_message
          | Err e => Err (ReconcileIo e)
          | Ok (_, b, replacement) => Ok (replacement, b)
          end
  end.

Fixpoint stage_replacements (env : DiskEnv) (limits : ScanLimits) (c : UsageTreeCache)
    (root : OpenDir) (candidates : list Path) (staged_directory_count : Z) (b : ScanBudget) :
    result ReconcileError (list (Path * Nodes) * ScanBudget) :=
  match candidates with
  | [] => Ok ([], b)
  | candidate :: candidates =>
      b ← io (check (elapsed env) limits b);
      '(replacement, b) ← stage_replacement env limits c root candidate staged_directory_count b;
      count ← full_unless (checked_add usize_max staged_directory_count
                             (Z.of_nat (size replacement)))
                "the cumulative incremental cache directory count overflowed";
      '(staged, b) ← stage_replacements env limits c root candidates count b;
      Ok ((candidate, replacement) :: staged, b)
  end.

(** ** Checking and committing the new subtrees *)

Fixpoint add_children (ns : Nodes) (path : Path) (calculated : DirectoryUsage)
    (names : list string) : result ReconcileError DirectoryUsage :=
  match names with
  | [] => Ok calculated
  | child :: names =>
      if negb (is_single_normal_component child)
      then full "a cached child contains an unsafe path component"
      else
        node ← full_unless (ns !! join path child) "a cached child is missing";
        calculated ← result_map_err
          (λ _, FullScanRequired "cached directory aggregate arithmetic is invalid")
          (add_usage calculated (total node));
        add_children ns path calculated names
  end.

Definition validate_cached_directory (ns : Nodes) (path : Path) : result ReconcileError unit :=
  node ← full_unless (ns !! path) "a cached directory is missing";
  calculated ← add_children ns path (base node) (elements (children node));
  if bool_decide (calculated ≠ total node)
  then full "a cached directory aggregate is inconsistent"
  else Ok tt.

(** The loop of [collect_subtree_paths]; the top of the stack comes first.
    [None] is a loop that is still running. *)
Fixpoint collect_loop (fuel : nat) (ns : Nodes) (pending : list Path) (collected : gset Path) :
    option (result ReconcileError (gset Path)) :=
  match pending with
  | [] => Some (Ok collected)
  | path :: pending =>
      match fuel with
      | O => None
      | S fuel =>
          if bool_decide (path ∈ collected)
          then Some (full "cached subtrees overlap or contain a cycle")
          else
            match ns !! path with
            | None => Some (full "a cached directory is missing")
            | Some node =>
                match validate_cached_directory ns path with
                | Err e => Some (Err e)
                | Ok _ =>
                    if forallb is_single_normal_component (elements (children node))
                    then collect_loop fuel ns
                           (reverse (join path <$> elements (children node)) ++ pending)
                           ({[path]} ∪ collected)
                    else Some (full "cached child contains an unsafe path component")
                end
            end
      end
  end.

(** Every turn of the loop but the last adds a cached path to [collected]. *)
Definition collect_subtree_paths (ns : Nodes) (root : Path) (collected : gset Path) :
    result ReconcileError (gset Path) :=
  default (full "the walk over the cached directories does not end")
    (collect_loop (S (size ns)) ns [root] collected).

Definition i128_max : Z := 2 ^ 127 - 1.
Definition i128_checked_add (a b : Z) : option Z :=
  if (- i128_max - 1 <=? a + b) && (a + b <=? i128_max) then Some (a + b) else None.

Definition delta_between (old new : DirectoryUsage) : UsageDelta :=
  mkUsage (logical_bytes new - logical_bytes old) (physical_bytes new - physical_bytes old)
    (usage_entries new - usage_entries old).

Definition delta_add (d other : UsageDelta) : result ReconcileError UsageDelta :=
  l ← full_unless (i128_checked_add (logical_bytes d) (logical_bytes other))
        "logical usage delta overflow";
  p ← full_unless (i128_checked_add (physical_bytes d) (physical_bytes other))
        "physical usage delta overflow";
  e ← full_unless (i128_checked_add (usage_entries d) (usage_entries other))
        "entry usage delta overflow";
  Ok (mkUsage l p e).

Definition apply_delta (value delta : Z) : result ReconcileError Z :=
  updated ← full_unless (i128_checked_add value delta) "cached usage delta overflow";
  if (0 <=? updated) && (updated <=? u64_max) then Ok updated
  else full "cached usage would become negative or overflow".

Definition delta_apply (d : UsageDelta) (u : DirectoryUsage) :
    result ReconcileError DirectoryUsage :=
  l ← apply_delta (logical_bytes u) (logical_bytes d);
  p ← apply_delta (physical_bytes u) (physical_bytes d);
  e ← apply_delta (usage_entries u) (usage_entries d);
  Ok (mkUsage l p e).

(** The three collections [commit_replacements] fills before it changes
    anything. *)
Record CommitPlan := mkCommitPlan {
  removed_paths : gset Path;
  replacement_paths : gset Path;
  deltas : gmap Path UsageDelta;
}.

Fixpoint note_replacement_paths (candidate : Path) (paths : list Path) (noted : gset Path) :
    result ReconcileError (gset Path) :=
  match paths with
  | [] => Ok noted
  | path :: paths =>
      if negb (starts_with path candidate) || bool_decide (path ∈ noted)
      then full "replacement subtrees overlap or contain an unrelated path"
      else note_replacement_paths candidate paths ({[path]} ∪ noted)
  end.

(** [Path::ancestors], without the path itself; the path is given from its
    last component back. *)
Fixpoint proper_ancestors (reversed : Path) : list Path :=
  match reversed with
  | [] => []
  | _ :: parent => reverse parent :: proper_ancestors parent
  end.

Fixpoint note_deltas (ns : Nodes) (delta : UsageDelta) (ancestors : list Path)
    (ds : gmap Path UsageDelta) : result ReconcileError (gmap Path UsageDelta) :=
  match ancestors with
  | [] => Ok ds
  | ancestor :: ancestors =>
      match ns !! ancestor with
      | None => full "a cached ancestor is missing"
      | Some _ =>
          _ ← validate_cached_directory ns ancestor;
          d ← delta_add (default usage_default (ds !! ancestor)) delta;
          note_deltas ns delta ancestors (<[ancestor := d]> ds)
      end
  end.

Definition plan_replacement (ns : Nodes) (candidate : Path) (replacement : Nodes)
    (p : CommitPlan) : result ReconcileError CommitPlan :=
  old ← full_unless (ns !! candidate) "a cached dirty subtree disappeared";
  new ← full_unless (replacement !! candidate) "a replacement scan omitted its subtree root";
  removed ← collect_subtree_paths ns candidate (removed_paths p);
  noted ← note_replacement_paths candidate (map_to_list replacement).*1 (replacement_paths p);
  ds ← note_deltas ns (delta_between (total old) (total new)) (proper_ancestors (reverse candidate))
         (deltas p);
  Ok (mkCommitPlan removed noted ds).

Fixpoint plan_commit (ns : Nodes) (staged : list (Path * Nodes)) (p : CommitPlan) :
    result ReconcileError CommitPlan :=
  match staged with
  | [] => Ok p
  | (candidate, replacement) :: staged =>
      p ← plan_replacement ns candidate replacement p;
      plan_commit ns staged p
  end.

Fixpoint update_ancestors (ns : Nodes) (ds : list (Path * UsageDelta)) :
    result ReconcileError (gmap Path DirectoryUsage) :=
  match ds with
  | [] => Ok ∅
  | (path, delta) :: ds =>
      old ← full_unless (ns !! path) "cached ancestor disappeared";
      updated ← delta_apply delta (total old);
      rest ← update_ancestors ns ds;
      Ok (<[path := updated]> rest)
  end.

(** The in-memory commit. *)
Definition commit_nodes (ns : Nodes) (removed : gset Path) (staged : list (Path * Nodes))
    (updated : gmap Path DirectoryUsage) : Nodes :=
  let kept := filter (λ kv, kv.1 ∉ removed) ns in
  let extended := foldl (λ ns s, s.2 ∪ ns) kept staged in
  map_imap (λ path node,
    Some match updated !! path with Some t => node <| total := t |> | None => node end) extended.

Definition commit_replacements (limits : ScanLimits) (c : UsageTreeCache)
    (staged : list (Path * Nodes)) : result ReconcileError (DirectoryUsage * UsageTreeCache) :=
  let ns := nodes c in
  p ← plan_commit ns staged (mkCommitPlan ∅ ∅ ∅);
  final_node_count ←
    full_unless (n ← checked_sub (Z.of_nat (size ns)) (Z.of_nat (size (removed_paths p)));
                 checked_add usize_max n (Z.of_nat (size (replacement_paths p))))
      "cached directory count is inconsistent";
  maximum_entry_nodes ←
    io (ok_or (checked_add usize_max (max_entries limits) 1) EntryLimitTooLarge);
  if max_cached_directories c <? final_node_count
  then full "the incremental cache directory bound was exceeded"
  else if maximum_entry_nodes <? final_node_count then Err (ReconcileIo EntryBoundExceeded)
  else
    updated ← update_ancestors ns (map_to_list (deltas p));
    let final_usage := default (cache_usage c) (updated !! []) in
    if max_entries limits <? usage_entries final_usage then Err (ReconcileIo EntryBoundExceeded)
    else
      Ok (final_usage, c <| nodes := commit_nodes ns (removed_paths p) staged updated |>).

(** An error is returned before the cache is changed, so only success yields a
    cache. *)
Definition reconcile (env : DiskEnv) (limits : ScanLimits) (c : UsageTreeCache)
    (generation : string) (changed : list Path) :
    result ReconcileError (DirectoryUsage * UsageTreeCache) :=
  if bool_decide (generation ≠ target_generation c)
  then full "the target generation no longer matches the cached baseline"
  else
    '(root, current_identity, _) ← io (open_root env 0);
    if bool_decide (current_identity ≠ root_identity c)
    then full "the data directory was replaced at the same pathname"
    else
      _ ← full_unless (nodes c !! []) "the cached usage tree has no root node";
      if bool_decide (changed = []) then Ok (cache_usage c, c)
      else
        '(candidates, b) ← plan_candidates env limits c root changed (mkScanBudget 0 0);
        '(staged, b) ← stage_replacements env limits c root candidates 0 b;
        id ← io (read_root_identity env (checks b));
        if bool_decide (id ≠ root_identity c)
        then full "the data directory was replaced during partial reconciliation"
        else commit_replacements limits c staged.

(** ** Collecting a subtree of the cache *)

Lemma collect_loop_ends fuel ns pending collected :
  (size (dom ns ∖ collected) < fuel)%nat → is_Some (collect_loop fuel ns pending collected).
Proof.
  revert pending collected. induction fuel as [|fuel IH]; [lia|]. intros [|path pending] collected Hs.
  { done. }
  simpl. case_bool_decide as Hin; [done|]. destruct (ns !! path) as [node|] eqn:E; [|done].
  destruct (validate_cached_directory ns path); [|done]. destruct (forallb _ _); [|done].
  apply IH. assert (path ∈ dom ns) by by apply elem_of_dom_2 in E.
  enough (size (dom ns ∖ ({[path]} ∪ collected)) < size (dom ns ∖ collected))%nat by lia.
  apply subset_size. split; [set_solver|]. intros Hsub. specialize (Hsub path). set_solver.
Qed.

Lemma collect_loop_more fuel fuel' ns pending collected r :
  collect_loop fuel ns pending collected = Some r → (fuel ≤ fuel')%nat →
  collect_loop fuel' ns pending collected = Some r.
Proof.
  revert fuel' pending collected. induction fuel as [|fuel IH]; intros fuel' [|path pending] collected;
    [by destruct fuel'|done|by destruct fuel'|].
  destruct fuel' as [|fuel']; [lia|]. simpl. intros H Hle. repeat case_match; try done.
  apply IH; [done|lia].
Qed.

(** C38. The loop that collects the cached directories below a dirty one ends,
    whatever the cache holds, even if its directories were listed as their own
    descendants: it makes at most one turn more than there are cached
    directories, and its result does not depend on the bound. *)
Theorem collect_subtree_paths_terminates ns root collected fuel :
  (S (size ns) ≤ fuel)%nat →
  collect_loop fuel ns [root] collected = Some (collect_subtree_paths ns root collected).
Proof.
  intros Hf. destruct (collect_loop_ends (S (size ns)) ns [root] collected) as [r Hr].
  { rewrite <-(size_dom (D := gset Path)). apply Nat.lt_succ_r, subseteq_size. set_solver. }
  unfold collect_subtree_paths. rewrite Hr. by eapply collect_loop_more.
Qed.

(** A cache in which a directory is its own child. *)
Lemma collect_subtree_paths_terminates_witness :
  collect_loop 2 {[[] := mkCachedDirectory usage_default usage_default {["."]}]} [[]] ∅ =
  Some (full "a cached child contains an unsafe path component").
Proof.
  rewrite (collect_subtree_paths_terminates
    {[[] := mkCachedDirectory usage_default usage_default {["."]}]} [] ∅ 2).
  - vm_compute. reflexivity.
  - vm_compute. lia.
Defined.

(** A correct directory passes its validation. *)
Lemma add_children_ok ns path calculated names :
  (∀ n, n ∈ names → components n = [Normal n] ∧ is_Some (ns !! join path n)) →
  (∀ n, n ∈ names → usage_nonneg (total_at ns (join path n))) → usage_nonneg calculated →
  let sum := usage_add calculated (usage_sum ((λ n, total_at ns (join path n)) <$> names)) in
  usage_fits sum → add_children ns path calculated names = Ok sum.
Proof.
  revert calculated. induction names as [|n names IH]; intros calculated Hc Hn Hnn; cbn -[usage_add usage_sum].
  { by rewrite usage_add_0_r. }
  rewrite usage_sum_cons.
  intros Hf. destruct (Hc n) as [Hcn [node Hnode]]; [set_solver|].
  unfold is_single_normal_component. rewrite Hcn. cbn [negb]. rewrite Hnode. unfold full_unless.
  step_ok. pose proof (Hn n ltac:(set_solver)) as Hnn'. 
  assert (Htot : total_at ns (join path n) = total node) by (unfold total_at; by rewrite Hnode).
  rewrite Htot in *.
  assert (Hsum : usage_nonneg (usage_sum ((λ m, total_at ns (join path m)) <$> names))).
  { apply usage_sum_nonneg, Forall_fmap, Forall_forall. intros m Hm. apply Hn. set_solver. }
  assert (Hfit : usage_fits (usage_add calculated (total node))) by usage_lia.
  rewrite (proj2 (add_usage_Ok _ _ _) (conj eq_refl Hfit)). cbn [result_map_err].
  step_ok. rewrite IH.
  - by rewrite usage_add_assoc.
  - set_solver.
  - set_solver.
  - usage_lia.
  - usage_lia.
Qed.

Lemma validate_cached_directory_ok ns path node :
  sums_ok ns → tree_bounded ns → ns !! path = Some node →
  validate_cached_directory ns path = Ok tt.
Proof.
  intros Hs Hb Hn. unfold validate_cached_directory, full_unless. rewrite Hn. step_ok.
  pose proof (ok_total _ Hs _ _ Hn) as Ht. unfold children_total in Ht.
  destruct (Hb _ _ Hn) as (Hnb & _ & Hf).
  rewrite add_children_ok.
  - step_ok. rewrite bool_decide_eq_false_2; [done|]. rewrite <-Ht. tauto.
  - intros n Hin%elem_of_elements. by eapply ok_child.
  - intros n Hin%elem_of_elements. destruct (ok_child _ Hs _ _ _ Hn Hin) as [_ [x Hx]].
    unfold total_at. rewrite Hx. by apply (Hb _ _ Hx).
  - done.
  - by rewrite <-Ht.
Qed.

(** Two directories neither of which contains the other. *)
Definition apart (p q : Path) : Prop := ¬ p `prefix_of` q ∧ ¬ q `prefix_of` p.

Definition subtree (ns : Nodes) (p : Path) : gset Path := filter (λ q, p `prefix_of` q) (dom ns).

Lemma elem_of_subtree ns p q : q ∈ subtree ns p ↔ p `prefix_of` q ∧ is_Some (ns !! q).
Proof. unfold subtree. rewrite elem_of_filter, elem_of_dom. done. Qed.

Lemma prefix_common (p q r : Path) :
  p `prefix_of` r → q `prefix_of` r → p `prefix_of` q ∨ q `prefix_of` p.
Proof.
  intros [a ->] [b Hb]. apply app_eq_app in Hb as [l [[-> _]|[-> _]]];
    [right|left]; by apply prefix_app_r.
Qed.

Lemma apart_subtrees ns p q : apart p q → subtree ns p ## subtree ns q.
Proof.
  intros [H1 H2] r [Hp _]%elem_of_subtree [Hq _]%elem_of_subtree.
  destruct (prefix_common _ _ _ Hp Hq); auto.
Qed.

Lemma apart_sym p q : apart p q → apart q p.
Proof. unfold apart. tauto. Qed.

Lemma apart_child p q c : apart p q → apart (p ++ [c]) q.
Proof.
  intros [H1 H2]. split.
  - intros H. apply H1. etrans; [|exact H]. by apply prefix_app_r.
  - intros [->|H]%prefix_snoc_inv; [apply H1; by apply prefix_app_r|done].
Qed.

Lemma apart_siblings (p : Path) c d : c ≠ d → apart (p ++ [c]) (p ++ [d]).
Proof.
  intros Hne. split; intros [k Hk]; rewrite <-(assoc_L (++)) in Hk;
    apply (inj (app p)) in Hk; by simplify_eq/=.
Qed.

Lemma subtree_split root ns path node :
  tree_ok root ns → ns !! path = Some node →
  subtree ns path = {[path]} ∪ ⋃ (subtree ns <$> (join path <$> elements (children node))).
Proof.
  intros Ht Hn. apply set_eq. intros q.
  rewrite elem_of_subtree, elem_of_union, elem_of_singleton, elem_of_union_list. split.
  - intros [Hp Hq]. destruct (decide (path = q)) as [->|Hne]; [by left|right].
    destruct (tree_step _ _ _ Ht Hq path) as (node' & n & Hn' & Hin & Hpn); [|done..|].
    { apply (tree_below _ _ Ht). by eauto. }
    simplify_eq. exists (subtree ns (join path n)).
    destruct (ok_child _ (tree_sums _ _ Ht) _ _ _ Hn Hin) as [Hc _].
    split; [|rewrite elem_of_subtree, join_normal; by auto].
    apply list_elem_of_fmap. exists (join path n). split; [done|].
    apply list_elem_of_fmap. exists n. split; [done|]. by apply elem_of_elements.
  - intros [->|(X & HX & Hq)]; [by rewrite Hn|].
    apply list_elem_of_fmap in HX as (p & -> & Hp).
    apply list_elem_of_fmap in Hp as (n & -> & Hin).
    apply elem_of_subtree in Hq as [Hpq ?]. split; [|done]. etrans; [|exact Hpq].
    by apply prefix_app_r.
Qed.

(** Directories none of which contains another. *)
Definition antichain (ps : list Path) : Prop :=
  NoDup ps ∧ ∀ p q, p ∈ ps → q ∈ ps → p ≠ q → apart p q.

Lemma antichain_cons p ps :
  antichain (p :: ps) ↔ (∀ q, q ∈ ps → apart p q) ∧ antichain ps.
Proof.
  unfold antichain. rewrite NoDup_cons. split.
  - intros [[Hp Hn] H]. split_and!; try done; [|set_solver]. intros q Hq.
    apply H; [set_solver..|]. set_solver.
  - intros (Hp & Hn & H). split_and!; [|done|].
    + intros Hin. by destruct (Hp _ Hin) as [[] _].
    + intros q r [->|Hq]%elem_of_cons [->|Hr]%elem_of_cons ?; [done|by apply Hp|
        by apply apart_sym, Hp|by apply H].
Qed.

Lemma antichain_app ps qs :
  antichain ps → antichain qs → (∀ p q, p ∈ ps → q ∈ qs → apart p q) → antichain (ps ++ qs).
Proof.
  intros Hps Hqs H. induction ps as [|p ps IH]; [done|]. simpl.
  apply antichain_cons in Hps as [Hp Hps]. apply antichain_cons. split; [|apply IH; set_solver].
  intros q [Hq|Hq]%elem_of_app; [by apply Hp|apply H; set_solver].
Qed.

Lemma antichain_perm ps qs : ps ≡ₚ qs → antichain ps → antichain qs.
Proof. unfold antichain. intros Hp [? H]. setoid_rewrite <-Hp. done. Qed.

(** The children of a directory, as they are pushed. *)
Definition pushed (path : Path) (node : CachedDirectory) : list Path :=
  reverse (join path <$> elements (children node)).

Lemma elem_of_pushed ns path node q :
  sums_ok ns → ns !! path = Some node →
  q ∈ pushed path node ↔ ∃ n, n ∈ children node ∧ q = path ++ [Normal n].
Proof.
  intros Hs Hn. unfold pushed. rewrite elem_of_reverse, list_elem_of_fmap.
  setoid_rewrite elem_of_elements. split; intros (n & H1 & H2); exists n.
  - destruct (ok_child _ Hs _ _ _ Hn H2). by rewrite <-join_normal.
  - destruct (ok_child _ Hs _ _ _ Hn H1). by rewrite join_normal.
Qed.

Lemma pushed_antichain ns path node :
  sums_ok ns → ns !! path = Some node → antichain (pushed path node).
Proof.
  intros Hs Hn. split.
  - unfold pushed. rewrite reverse_Permutation. apply NoDup_fmap_2_strong; [|apply NoDup_elements].
    intros m n Hm%elem_of_elements Hn'%elem_of_elements.
    destruct (ok_child _ Hs _ _ _ Hn Hm) as [Hcm _], (ok_child _ Hs _ _ _ Hn Hn') as [Hcn _].
    rewrite !join_normal by done. intros [_ [= ->]]%app_inj_tail. done.
  - intros p q (m & _ & ->)%(elem_of_pushed ns) (n & _ & ->)%(elem_of_pushed ns) Hne; try done.
    apply apart_siblings. congruence.
Qed.

Lemma elem_of_subtrees ns ps q :
  q ∈ ⋃ (subtree ns <$> ps) ↔ ∃ p, p ∈ ps ∧ p `prefix_of` q ∧ is_Some (ns !! q).
Proof.
  rewrite elem_of_union_list. setoid_rewrite list_elem_of_fmap. split.
  - intros (X & (p & -> & Hp) & Hq). exists p. by rewrite <-elem_of_subtree.
  - intros (p & Hp & Hq). exists (subtree ns p). rewrite elem_of_subtree. eauto.
Qed.

Lemma subtrees_cons ns p ps :
  ⋃ (subtree ns <$> p :: ps) = subtree ns p ∪ ⋃ (subtree ns <$> ps).
Proof. done. Qed.

Lemma subtrees_pop root ns path node pending :
  tree_ok root ns → ns !! path = Some node → antichain (path :: pending) →
  ⋃ (subtree ns <$> path :: pending) =
    {[path]} ∪ ⋃ (subtree ns <$> pushed path node ++ pending) ∧
  path ∉ ⋃ (subtree ns <$> pushed path node ++ pending).
Proof.
  intros Ht Hn [Hap _]%antichain_cons. rewrite fmap_app, union_list_app_L. split.
  - rewrite subtrees_cons, (subtree_split _ _ _ _ Ht Hn), (assoc_L (∪)). f_equal. f_equal.
    unfold pushed. apply leibniz_equiv. by rewrite reverse_Permutation.
  - intros [(p & Hp & Hpre & _)%elem_of_subtrees|(p & Hp & Hpre & _)%elem_of_subtrees]%elem_of_union.
    + apply (elem_of_pushed ns) in Hp as (n & _ & ->); [|apply Ht|done].
      apply prefix_length in Hpre. rewrite length_app in Hpre. simpl in Hpre. lia.
    + by destruct (Hap _ Hp).
Qed.

(** The loop visits the subtrees of the pending directories. *)
Lemma collect_loop_exact root ns fuel pending collected :
  tree_ok root ns → tree_bounded ns → Forall (λ p, is_Some (ns !! p)) pending →
  antichain pending → ⋃ (subtree ns <$> pending) ## collected →
  (size (⋃ (subtree ns <$> pending)) ≤ fuel)%nat →
  collect_loop fuel ns pending collected = Some (Ok (⋃ (subtree ns <$> pending) ∪ collected)).
Proof.
  intros Ht Hb. revert pending collected.
  induction fuel as [|fuel IH]; intros [|path pending] collected Hin Hanti Hdisj Hsize;
    try (by simpl; rewrite (left_id_L ∅ (∪))).
  all: apply Forall_cons in Hin as [[node Hnode] Hin].
  all: destruct (subtrees_pop _ _ _ _ _ Ht Hnode Hanti) as [Heq Hnot].
  all: rewrite Heq in Hdisj, Hsize |- *; rewrite size_union, size_singleton in Hsize by set_solver.
  { lia. }
  cbn [collect_loop]. rewrite bool_decide_eq_false_2 by set_solver.
  rewrite Hnode, (validate_cached_directory_ok _ _ _ (tree_sums _ _ Ht) Hb Hnode).
  apply antichain_cons in Hanti as [Hap Hanti].
  assert (forallb is_single_normal_component (elements (children node)) = true) as ->.
  { apply forallb_forall. intros n Hn%list_elem_of_In%elem_of_elements.
    destruct (ok_child _ (tree_sums _ _ Ht) _ _ _ Hnode Hn) as [Hc _].
    unfold is_single_normal_component. by rewrite Hc. }
  fold (pushed path node).
  assert (Hpush : ∀ p, p ∈ pushed path node → ∃ n, n ∈ children node ∧ p = path ++ [Normal n]).
  { intros p Hp. apply (elem_of_pushed ns) in Hp; [done|apply Ht|done]. }
  rewrite IH.
  - do 2 f_equal. set_solver.
  - apply Forall_app. split; [|done]. apply Forall_forall. intros p (n & Hn & ->)%Hpush.
    destruct (ok_child _ (tree_sums _ _ Ht) _ _ _ Hnode Hn). by rewrite <-join_normal.
  - apply antichain_app; [by eapply pushed_antichain; [apply Ht|]|done|].
    intros p q (n & _ & ->)%Hpush Hq. by apply apart_child, Hap.
  - set_solver.
  - lia.
Qed.

Lemma collect_subtree_paths_exact root ns path collected :
  tree_ok root ns → tree_bounded ns → is_Some (ns !! path) → subtree ns path ## collected →
  collect_subtree_paths ns path collected = Ok (subtree ns path ∪ collected).
Proof.
  intros Ht Hb Hp Hd. unfold collect_subtree_paths.
  assert (Hone : ⋃ (subtree ns <$> [path]) = subtree ns path).
  { cbn. by rewrite (right_id_L ∅ (∪)). }
  rewrite (collect_loop_exact root); rewrite ?Hone; try done.
  - by apply Forall_singleton.
  - split; [apply NoDup_singleton|]. set_solver.
  - rewrite <-(size_dom (D := gset Path)). apply le_S, subseteq_size. unfold subtree. set_solver.
Qed.

(** ** What the commit will change *)

Definition in_i128 (u : UsageDelta) : Prop :=
  - i128_max - 1 ≤ logical_bytes u ≤ i128_max ∧ - i128_max - 1 ≤ physical_bytes u ≤ i128_max ∧
  - i128_max - 1 ≤ usage_entries u ≤ i128_max.

Lemma i128_checked_add_Some a b n :
  i128_checked_add a b = Some n ↔ n = a + b ∧ - i128_max - 1 ≤ a + b ≤ i128_max.
Proof. unfold i128_checked_add. case_match; to_prop; naive_solver lia. Qed.

Lemma delta_add_Ok d other r :
  delta_add d other = Ok r ↔ r = usage_add d other ∧ in_i128 (usage_add d other).
Proof.
  unfold delta_add, full_unless. split.
  - intros (l & [-> ?]%ok_or_Ok%i128_checked_add_Some &
      (p & [-> ?]%ok_or_Ok%i128_checked_add_Some &
      (e & [-> ?]%ok_or_Ok%i128_checked_add_Some & [= <-])%bind_Ok)%bind_Ok)%bind_Ok. done.
  - intros [-> (Hl & Hp & He)]. cbn in Hl, Hp, He.
    rewrite (proj2 (i128_checked_add_Some _ _ _) (conj eq_refl Hl)). step_ok.
    rewrite (proj2 (i128_checked_add_Some _ _ _) (conj eq_refl Hp)). step_ok.
    rewrite (proj2 (i128_checked_add_Some _ _ _) (conj eq_refl He)). done.
Qed.

Lemma apply_delta_Ok value delta n :
  apply_delta value delta = Ok n ↔ n = value + delta ∧ 0 ≤ value + delta ≤ u64_max.
Proof.
  unfold apply_delta, full_unless. split.
  - intros (m & [-> ?]%ok_or_Ok%i128_checked_add_Some & Hm)%bind_Ok. case_match; [|done].
    to_prop. simplify_eq. lia.
  - intros [-> H].
    assert (Hr : - i128_max - 1 ≤ value + delta ≤ i128_max).
    { unfold i128_max, u64_max in *. lia. }
    rewrite (proj2 (i128_checked_add_Some _ _ _) (conj eq_refl Hr)). step_ok.
    rewrite (proj2 (Z.leb_le _ _)), (proj2 (Z.leb_le _ _)) by lia. done.
Qed.

Lemma delta_apply_Ok d u r :
  delta_apply d u = Ok r ↔
  r = usage_add u d ∧ usage_nonneg (usage_add u d) ∧ usage_fits (usage_add u d).
Proof.
  unfold delta_apply. split.
  - intros (l & [-> ?]%apply_delta_Ok & (p & [-> ?]%apply_delta_Ok &
      (e & [-> ?]%apply_delta_Ok & [= <-])%bind_Ok)%bind_Ok)%bind_Ok.
    split; [done|]. usage_lia.
  - intros (-> & (Hl & Hp & He) & (Hl' & Hp' & He')). cbn in *.
    rewrite (proj2 (apply_delta_Ok _ _ _) (conj eq_refl (conj Hl Hl'))). step_ok.
    rewrite (proj2 (apply_delta_Ok _ _ _) (conj eq_refl (conj Hp Hp'))). step_ok.
    rewrite (proj2 (apply_delta_Ok _ _ _) (conj eq_refl (conj He He'))). done.
Qed.

Definition strictly_below (q p : Path) : Prop := q `prefix_of` p ∧ q ≠ p.
#[export] Instance strictly_below_dec q p : Decision (strictly_below q p).
Proof. unfold strictly_below. apply _. Defined.

Lemma elem_of_proper_ancestors p q :
  q ∈ proper_ancestors (reverse p) ↔ strictly_below q p.
Proof.
  unfold strictly_below. induction p as [|c p IH] using rev_ind.
  { cbn. rewrite elem_of_nil. split; [done|]. by intros [?%prefix_nil_inv ?]. }
  rewrite reverse_snoc. cbn. rewrite elem_of_cons, IH, reverse_involutive. split.
  - intros [->|[Hp Hne]].
    + split; [by apply prefix_app_r|]. intros H%(f_equal length). rewrite length_app in H.
      simpl in H. lia.
    + split; [by apply prefix_app_r|]. intros ->. apply prefix_length in Hp.
      rewrite length_app in Hp. simpl in Hp. lia.
  - intros [[->|Hp]%prefix_snoc_inv Hne]; [done|]. destruct (decide (q = p)); auto.
Qed.

Lemma proper_ancestors_length p q : q ∈ proper_ancestors p → (length q < length p)%nat.
Proof.
  induction p as [|c p IH]; cbn; [by rewrite elem_of_nil|].
  intros [->|H%IH]%elem_of_cons; [rewrite length_reverse|]; lia.
Qed.

Lemma proper_ancestors_NoDup p : NoDup (proper_ancestors p).
Proof.
  induction p as [|c p IH]; cbn; [constructor|]. constructor; [|done].
  intros H%proper_ancestors_length. rewrite length_reverse in H. lia.
Qed.

Lemma note_deltas_sound ns delta ancestors ds ds' :
  note_deltas ns delta ancestors ds = Ok ds' → NoDup ancestors →
  ∀ q, ds' !! q = if decide (q ∈ ancestors)
                  then Some (usage_add (default usage_default (ds !! q)) delta) else ds !! q.
Proof.
  revert ds. induction ancestors as [|a ancestors IH]; intros ds H Hnd q.
  { injection H as <-. case_decide; [set_solver|done]. }
  cbn in H. destruct (ns !! a); [|done]. apply bind_Ok in H as (x & _ & H).
  apply bind_Ok in H as (d & [-> _]%delta_add_Ok & H). apply NoDup_cons in Hnd as [Ha Hnd].
  rewrite (IH _ H Hnd q). destruct (decide (q = a)) as [->|Hne].
  - rewrite decide_False, decide_True by set_solver. by rewrite lookup_insert_eq.
  - rewrite lookup_insert_ne by done. do 2 case_decide; set_solver.
Qed.

Lemma note_deltas_complete ns delta ancestors ds :
  sums_ok ns → tree_bounded ns → NoDup ancestors → (∀ a, a ∈ ancestors → is_Some (ns !! a)) →
  (∀ a, a ∈ ancestors → in_i128 (usage_add (default usage_default (ds !! a)) delta)) →
  ∃ ds', note_deltas ns delta ancestors ds = Ok ds'.
Proof.
  intros Hs Hb. revert ds. induction ancestors as [|a ancestors IH]; intros ds Hnd Hin Hr; [by eauto|].
  apply NoDup_cons in Hnd as [Ha Hnd]. cbn. destruct (Hin a) as [node Hn]; [set_solver|].
  rewrite Hn, (validate_cached_directory_ok _ _ _ Hs Hb Hn). step_ok.
  rewrite (proj2 (delta_add_Ok _ _ _) (conj eq_refl (Hr a ltac:(set_solver)))). step_ok.
  apply IH; [done|set_solver|]. intros b Hb'. rewrite lookup_insert_ne by set_solver. set_solver.
Qed.

Lemma note_replacement_paths_sound candidate paths noted noted' :
  note_replacement_paths candidate paths noted = Ok noted' →
  noted' = list_to_set paths ∪ noted.
Proof.
  revert noted. induction paths as [|p paths IH]; intros noted H; cbn in *; [set_solver|].
  destruct (_ || _); [done|]. rewrite (IH _ H). set_solver.
Qed.

Lemma note_replacement_paths_complete candidate paths noted :
  NoDup paths → (∀ p, p ∈ paths → candidate `prefix_of` p ∧ p ∉ noted) →
  ∃ noted', note_replacement_paths candidate paths noted = Ok noted'.
Proof.
  revert noted. induction paths as [|p paths IH]; intros noted Hnd H; cbn; [by eauto|].
  apply NoDup_cons in Hnd as [Hp Hnd]. destruct (H p) as [Hpre Hnot]; [set_solver|].
  unfold starts_with. rewrite bool_decide_eq_true_2, bool_decide_eq_false_2 by done. cbn.
  apply IH; [done|]. set_solver.
Qed.

(** The subtrees to replace: cached, apart from each other, and none of them
    the root. *)
Record staged_ok (ns : Nodes) (staged : list (Path * Nodes)) : Prop := {
  staged_nodes s : s ∈ staged →
    is_Some (ns !! s.1) ∧ s.1 ≠ [] ∧ tree_ok s.1 s.2 ∧ tree_bounded s.2;
  staged_apart : antichain staged.*1;
}.

Definition delta_of (ns : Nodes) (s : Path * Nodes) : UsageDelta :=
  delta_between (total_at ns s.1) (total_at s.2 s.1).

(** The change of the total of [q], a directory above the replaced ones. *)
Definition strict_delta (ns : Nodes) (staged : list (Path * Nodes)) (q : Path) : UsageDelta :=
  usage_sum ((λ s, if decide (strictly_below q s.1) then delta_of ns s else usage_default)
    <$> staged).

Record planned (ns : Nodes) (staged : list (Path * Nodes)) (p : CommitPlan) : Prop := {
  planned_removed : removed_paths p = ⋃ (subtree ns <$> staged.*1);
  planned_noted : replacement_paths p = ⋃ ((λ s, dom s.2 : gset Path) <$> staged);
  planned_deltas q :
    deltas p !! q = if decide (Exists (λ s, strictly_below q s.1) staged)
                    then Some (strict_delta ns staged q) else None;
}.

Section planning_commit.
Context (ns : Nodes) (ns_ok : tree_ok [] ns) (ns_bounded : tree_bounded ns).

Lemma staged_ok_before before after : staged_ok ns (before ++ after) → staged_ok ns before.
Proof.
  intros [Hn [Hnd Ha]]. rewrite fmap_app in *. split; [set_solver|].
  apply NoDup_app in Hnd as (? & _ & _). split; set_solver.
Qed.

Lemma staged_last_apart before s q :
  staged_ok ns (before ++ [s]) → q ∈ before.*1 → apart q s.1.
Proof.
  intros [_ [Hnd Ha]] Hq. rewrite fmap_app in *. apply Ha; [set_solver..|].
  apply NoDup_app in Hnd as (_ & Hnd & _). cbn in Hnd. set_solver.
Qed.

Lemma strict_delta_none staged q :
  ¬ Exists (λ s, strictly_below q s.1) staged → strict_delta ns staged q = usage_default.
Proof.
  unfold strict_delta. induction staged as [|s staged IH]; [done|]. rewrite Exists_cons.
  intros H. rewrite fmap_cons, usage_sum_cons, IH by tauto. by rewrite decide_False by tauto.
Qed.

Lemma planned_snoc before s p p' :
  planned ns before p →
  removed_paths p' = subtree ns s.1 ∪ removed_paths p →
  replacement_paths p' = list_to_set (map_to_list s.2).*1 ∪ replacement_paths p →
  (∀ q, deltas p' !! q =
     if decide (q ∈ proper_ancestors (reverse s.1))
     then Some (usage_add (default usage_default (deltas p !! q)) (delta_of ns s))
     else deltas p !! q) →
  planned ns (before ++ [s]) p'.
Proof.
  intros [Hr Hn Hd] Hr' Hn' Hd'. split.
  - rewrite Hr', Hr, !fmap_app, union_list_app_L. cbn. set_solver.
  - rewrite Hn', Hn, fmap_app, union_list_app_L. cbn. rewrite (right_id_L ∅ (∪)), (comm_L (∪)).
    f_equal. apply set_eq. intros q. rewrite elem_of_list_to_set, elem_of_dom, list_elem_of_fmap.
    split; [intros ([q' x] & -> & ?%elem_of_map_to_list); eauto|].
    intros [x Hx]. exists (q, x). by rewrite elem_of_map_to_list.
  - intros q. rewrite Hd', Hd. unfold strict_delta. rewrite fmap_app, usage_sum_app. cbn -[usage_add].
    rewrite usage_add_0_r. fold (strict_delta ns before q).
    pose proof (strict_delta_none before q) as Hnone.
    assert (Hex : Exists (λ t, strictly_below q t.1) (before ++ [s]) ↔
      Exists (λ t, strictly_below q t.1) before ∨ strictly_below q s.1).
    { rewrite Exists_app, Exists_cons, Exists_nil. tauto. }
    destruct (decide (q ∈ _)) as [Hin|Hin]; rewrite elem_of_proper_ancestors in Hin;
      destruct (decide (Exists _ before)) as [He|He];
      destruct (decide (Exists _ (before ++ [s]))) as [Ha|Ha]; try tauto.
    + by rewrite decide_True.
    + rewrite decide_True by done. cbn [default]. by rewrite Hnone.
    + rewrite decide_False by done. by rewrite usage_add_0_r.
Qed.

(** The plan for a list of subtrees, and when there is one. *)
Lemma plan_replacement_sound before s p p' :
  staged_ok ns (before ++ [s]) → planned ns before p →
  plan_replacement ns s.1 s.2 p = Ok p' → planned ns (before ++ [s]) p'.
Proof.
  intros Hs Hp. unfold plan_replacement, full_unless.
  intros (old & Hold%ok_or_Ok & (new & Hnew%ok_or_Ok & (removed & Hrem & (noted & Hnoted &
    (ds & Hds & [= <-])%bind_Ok)%bind_Ok)%bind_Ok)%bind_Ok)%bind_Ok.
  eapply planned_snoc; [done|..]; cbn [removed_paths replacement_paths deltas].
  - rewrite (collect_subtree_paths_exact []) in Hrem; [by simplify_eq|done..|by rewrite Hold|].
    rewrite (planned_removed _ _ _ Hp). intros q Hq (t & Ht & Hpre & Hsome)%elem_of_subtrees.
    eapply (apart_subtrees ns t s.1); [by eapply staged_last_apart| |exact Hq].
    by apply elem_of_subtree.
  - by apply note_replacement_paths_sound in Hnoted.
  - intros q. rewrite (note_deltas_sound _ _ _ _ _ Hds (proper_ancestors_NoDup _)).
    unfold delta_of, total_at. by rewrite Hold, Hnew.
Qed.

Lemma plan_commit_sound before staged p p' :
  staged_ok ns (before ++ staged) → planned ns before p → plan_commit ns staged p = Ok p' →
  planned ns (before ++ staged) p'.
Proof.
  revert before p. induction staged as [|[c r] staged IH]; intros before p Hs Hp H; cbn in H.
  { rewrite app_nil_r. by simplify_eq. }
  apply bind_Ok in H as (p1 & H1 & H).
  rewrite (cons_middle (c, r)), (assoc_L (++)) in Hs |- *.
  eapply IH; [done| |done].
  by eapply (plan_replacement_sound before (c, r)); [eapply staged_ok_before| |].
Qed.

Lemma plan_replacement_complete before s p :
  staged_ok ns (before ++ [s]) → planned ns before p →
  (∀ q, strictly_below q s.1 → in_i128 (strict_delta ns (before ++ [s]) q)) →
  ∃ p', plan_replacement ns s.1 s.2 p = Ok p'.
Proof.
  intros Hs Hp Hr. unfold plan_replacement, full_unless.
  destruct (staged_nodes _ _ Hs s) as ([old Hold] & Hne & Htree & Hb); [set_solver|].
  destruct (tree_root _ _ Htree) as [new Hnew]. rewrite Hold. step_ok. rewrite Hnew. step_ok.
  rewrite (collect_subtree_paths_exact []); [step_ok|done..|by rewrite Hold|].
  2:{ rewrite (planned_removed _ _ _ Hp). intros q Hq (t & Ht & Hpre & Hsome)%elem_of_subtrees.
      eapply (apart_subtrees ns t s.1); [by eapply staged_last_apart| |exact Hq].
      by apply elem_of_subtree. }
  destruct (note_replacement_paths_complete s.1 (map_to_list s.2).*1 (replacement_paths p))
    as [noted ->].
  { apply NoDup_fst_map_to_list. }
  { intros q Hq. apply list_elem_of_fmap in Hq as ([q' x] & -> & Hq%elem_of_map_to_list).
    cbn. split; [by apply (tree_below _ _ Htree); eauto|].
    rewrite (planned_noted _ _ _ Hp), elem_of_union_list. intros (X & HX & Hin).
    apply list_elem_of_fmap in HX as (t & -> & Ht). apply elem_of_dom in Hin.
    destruct (staged_nodes _ _ Hs t) as (_ & _ & Htt & _); [set_solver|].
    destruct (staged_last_apart before s t.1 Hs) as [H1 H2]; [apply list_elem_of_fmap; eauto|].
    destruct (prefix_common t.1 s.1 q'); [by apply (tree_below _ _ Htt)|
      apply (tree_below _ _ Htree); eauto|auto..]. }
  step_ok.
  destruct (note_deltas_complete ns (delta_between (total old) (total new))
    (proper_ancestors (reverse s.1)) (deltas p)) as [ds ->].
  - apply ns_ok.
  - done.
  - apply proper_ancestors_NoDup.
  - intros a [Ha _]%elem_of_proper_ancestors. eapply tree_up; [done| |apply prefix_nil|exact Ha].
    by rewrite Hold.
  - intros a Ha%elem_of_proper_ancestors. specialize (Hr a Ha).
    rewrite (planned_deltas _ _ _ Hp). unfold strict_delta in Hr.
    rewrite fmap_app, usage_sum_app in Hr. cbn -[usage_add] in Hr.
    rewrite decide_True, usage_add_0_r in Hr by done. fold (strict_delta ns before a) in Hr.
    unfold delta_of, total_at in Hr. rewrite Hold, Hnew in Hr.
    case_decide; cbn [default]; [done|]. by rewrite strict_delta_none in Hr.
  - step_ok. eauto.
Qed.

Lemma plan_commit_complete before staged p :
  staged_ok ns (before ++ staged) → planned ns before p →
  (∀ q staged', staged' `prefix_of` before ++ staged → in_i128 (strict_delta ns staged' q)) →
  ∃ p', plan_commit ns staged p = Ok p'.
Proof.
  revert before p. induction staged as [|[c r] staged IH]; intros before p Hs Hp Hr; cbn; [by eauto|].
  rewrite (cons_middle (c, r)), (assoc_L (++)) in Hs, Hr.
  pose proof (staged_ok_before _ _ Hs) as Hs1.
  destruct (plan_replacement_complete before (c, r) p Hs1 Hp) as [p1 H1].
  { intros q _. apply Hr. by apply prefix_app_r. }
  cbn [fst snd] in H1. rewrite H1. step_ok. eapply IH; [done| |done]. by eapply (plan_replacement_sound before (c, r)).
Qed.
End planning_commit.

Lemma update_ancestors_sound ns ds updated :
  update_ancestors ns ds = Ok updated → NoDup ds.*1 →
  (∀ q d, (q, d) ∈ ds →
     updated !! q = Some (usage_add (total_at ns q) d) ∧
     usage_nonneg (usage_add (total_at ns q) d) ∧ usage_fits (usage_add (total_at ns q) d)) ∧
  (∀ q, q ∉ ds.*1 → updated !! q = None).
Proof.
  revert updated. induction ds as [|[p d] ds IH]; intros updated H Hnd; cbn in H.
  { simplify_eq. split; [set_solver|by intros; rewrite lookup_empty]. }
  apply bind_Ok in H as (old & Hold%ok_or_Ok & H).
  apply bind_Ok in H as (u & (-> & Hn & Hf)%delta_apply_Ok & H).
  apply bind_Ok in H as (rest & Hrest & [= <-]). apply NoDup_cons in Hnd as [Hp Hnd].
  destruct (IH _ Hrest Hnd) as [H1 H2]. split.
  - intros q d' [[= -> ->]|Hin]%elem_of_cons.
    + rewrite lookup_insert_eq. unfold total_at. by rewrite Hold.
    + rewrite lookup_insert_ne; [by apply H1|]. intros ->. apply Hp.
      apply list_elem_of_fmap. by exists (q, d').
  - intros q [Hqp Hq]%not_elem_of_cons. rewrite lookup_insert_ne by done. by apply H2.
Qed.

Lemma update_ancestors_complete ns ds :
  (∀ q d, (q, d) ∈ ds → is_Some (ns !! q) ∧ usage_nonneg (usage_add (total_at ns q) d) ∧
     usage_fits (usage_add (total_at ns q) d)) →
  ∃ updated, update_ancestors ns ds = Ok updated.
Proof.
  induction ds as [|[p d] ds IH]; intros H; cbn; [by eauto|].
  destruct (H p d) as ([old Hold] & Hn & Hf); [by apply elem_of_cons; left|]. unfold full_unless.
  unfold total_at in Hn, Hf. rewrite Hold in *. step_ok.
  rewrite (proj2 (delta_apply_Ok _ _ _) (conj eq_refl (conj Hn Hf))). step_ok.
  destruct IH as [rest ->]; [intros q d' Hin; apply H, elem_of_cons; auto|]. step_ok. eauto.
Qed.

(** *** Sums with at most one term that counts *)

Lemma usage_sum_none {A} (P : A → Prop) `{∀ x, Decision (P x)} (f : A → DirectoryUsage) l :
  (∀ y, y ∈ l → ¬ P y) →
  usage_sum ((λ y, if decide (P y) then f y else usage_default) <$> l) = usage_default.
Proof.
  induction l as [|x l IH]; [done|]. intros Hn. rewrite fmap_cons, usage_sum_cons.
  rewrite decide_False by (apply Hn, elem_of_cons; auto).
  rewrite IH; [done|]. intros y Hy. apply Hn, elem_of_cons. auto.
Qed.

Lemma usage_sum_single {A} (P : A → Prop) `{∀ x, Decision (P x)} (f : A → DirectoryUsage) l x :
  NoDup l → x ∈ l → P x → (∀ y, y ∈ l → P y → y = x) →
  usage_sum ((λ y, if decide (P y) then f y else usage_default) <$> l) = f x.
Proof.
  intros Hnd Hin Hx Hu. induction Hnd as [|y l Hy Hnd IH]; [by apply elem_of_nil in Hin|].
  rewrite fmap_cons, usage_sum_cons. apply elem_of_cons in Hin as [<-|Hin].
  - rewrite decide_True by done. rewrite usage_sum_none; [apply usage_add_0_r|].
    intros z Hz HP. rewrite (Hu z) in Hz; [done|by apply elem_of_cons; right|done].
  - rewrite decide_False.
    + rewrite usage_add_0_l. apply IH; [done|]. intros z Hz. apply Hu, elem_of_cons. auto.
    + intros HP. rewrite (Hu y) in Hy; [done|by apply elem_of_cons; left|done].
Qed.

Lemma usage_sum_swap {A B} (f : A → B → DirectoryUsage) (l : list A) (k : list B) :
  usage_sum ((λ a, usage_sum (f a <$> k)) <$> l) =
  usage_sum ((λ b, usage_sum ((λ a, f a b) <$> l)) <$> k).
Proof.
  induction l as [|a l IH].
  - cbn. induction k as [|b k IHk]; [done|]. rewrite fmap_cons, usage_sum_cons, <-IHk. done.
  - rewrite fmap_cons, usage_sum_cons, IH. clear IH. induction k as [|b k IHk]; [done|].
    rewrite !fmap_cons, !usage_sum_cons, <-IHk. usage_lia.
Qed.

Lemma usage_sum_add {A} (f g : A → DirectoryUsage) l :
  usage_sum ((λ x, usage_add (f x) (g x)) <$> l) =
  usage_add (usage_sum (f <$> l)) (usage_sum (g <$> l)).
Proof.
  induction l as [|x l IH]; [done|]. rewrite !fmap_cons, !usage_sum_cons, IH. usage_lia.
Qed.

(** ** The committed tree *)

Section commit.
Context (ns : Nodes) (ns_ok : tree_ok [] ns) (ns_bounded : tree_bounded ns).
Context (staged : list (Path * Nodes)) (staged_good : staged_ok ns staged).

Definition covered (q : Path) : Prop := Exists (λ s, s.1 `prefix_of` q) staged.

#[local] Instance covered_dec q : Decision (covered q).
Proof. unfold covered. apply _. Defined.

Definition retotal (q : Path) (node : CachedDirectory) : CachedDirectory :=
  node <| total := usage_add (total node) (strict_delta ns staged q) |>.

(** The nodes after the commit, written as the new tree. *)
Record committed (ns' : Nodes) : Prop := {
  committed_inside s q : s ∈ staged → s.1 `prefix_of` q → ns' !! q = s.2 !! q;
  committed_outside q : ¬ covered q → ns' !! q = retotal q <$> ns !! q;
}.

Lemma staged_same s t q :
  s ∈ staged → t ∈ staged → s.1 `prefix_of` q → t.1 `prefix_of` q → s = t.
Proof.
  intros Hs Ht Hsq Htq. destruct (staged_apart _ _ staged_good) as [Hnd Ha].
  destruct (decide (s.1 = t.1)) as [He|Hne].
  - apply list_elem_of_lookup in Hs as [i Hi], Ht as [j Hj].
    assert (i = j); [|congruence].
    apply (NoDup_lookup staged.*1 i j s.1); [done|by rewrite list_lookup_fmap, Hi|].
    by rewrite list_lookup_fmap, Hj, He.
  - destruct (Ha s.1 t.1) as [H1 H2]; [apply list_elem_of_fmap; eauto..|done|].
    by destruct (prefix_common _ _ _ Hsq Htq).
Qed.

Lemma extended_inside kept s q :
  s ∈ staged → s.1 `prefix_of` q → kept !! q = None →
  foldl (λ ns s, s.2 ∪ ns) kept staged !! q = s.2 !! q.
Proof.
  intros Hs Hq Hk.
  assert (Hgo : ∀ l acc, (∀ t, t ∈ l → t ∈ staged) → s ∈ l ∨ acc !! q = s.2 !! q →
    (acc !! q = None ∨ acc !! q = s.2 !! q) →
    foldl (λ ns s, s.2 ∪ ns) acc l !! q = s.2 !! q).
  { intros l. induction l as [|t l IH]; intros acc Hl Hin Hacc; cbn.
    - destruct Hin as [?|?]; [set_solver|done].
    - assert (Ht : t.2 !! q = None ∨ t = s).
      { destruct (t.2 !! q) eqn:E; [right|by left].
        apply (staged_same t s q); [set_solver|done| |done].
        destruct (staged_nodes _ _ staged_good t) as (_ & _ & Htt & _); [set_solver|].
        apply (tree_below _ _ Htt). by rewrite E. }
      apply IH; [set_solver| |].
      + destruct Ht as [Ht| ->].
        * rewrite lookup_union, Ht, (left_id_L None _).
          destruct Hin as [[->|?]%elem_of_cons|?]; [|by left|by right].
          right. destruct Hacc; congruence.
        * right. rewrite lookup_union. destruct Hacc as [->| ->]; by destruct (s.2 !! q).
      + rewrite lookup_union. destruct Ht as [->| ->]; [by rewrite (left_id_L None _)|].
        destruct Hacc as [->| ->]; destruct (s.2 !! q); auto. }
  apply Hgo; auto.
Qed.

Lemma extended_outside kept q :
  ¬ covered q → foldl (λ ns s, s.2 ∪ ns) kept staged !! q = kept !! q.
Proof.
  intros Hq.
  assert (Hgo : ∀ l acc, (∀ t, t ∈ l → t ∈ staged) →
    foldl (λ ns s, s.2 ∪ ns) acc l !! q = acc !! q).
  { intros l. induction l as [|t l IH]; intros acc Hl; cbn; [done|].
    rewrite IH by set_solver. rewrite lookup_union.
    destruct (t.2 !! q) eqn:E; [exfalso|by rewrite (left_id_L None _)].
    apply Hq, Exists_exists. exists t. split; [set_solver|].
    destruct (staged_nodes _ _ staged_good t) as (_ & _ & Htt & _); [set_solver|].
    apply (tree_below _ _ Htt). by rewrite E. }
  apply Hgo. auto.
Qed.

Lemma committed_exists : ∃ ns', committed ns'.
Proof.
  set (kept := filter (λ kv, ¬ covered kv.1) ns).
  exists (map_imap (λ q node, Some (if decide (covered q) then node else retotal q node))
            (foldl (λ ns s, s.2 ∪ ns) kept staged)).
  split.
  - intros s q Hs Hq.
    assert (Hcov : covered q) by (apply Exists_exists; eauto).
    rewrite map_lookup_imap, (extended_inside kept s); [|done|done|].
    + destruct (s.2 !! q); [|done]. cbn. by rewrite decide_True.
    + apply map_lookup_filter_None. right. cbn. tauto.
  - intros q Hq. rewrite map_lookup_imap, extended_outside by done.
    assert (kept !! q = ns !! q) as ->.
    { destruct (ns !! q) eqn:E; [by apply map_lookup_filter_Some|].
      apply map_lookup_filter_None. by left. }
    destruct (ns !! q); [|done]. cbn. by rewrite decide_False.
Qed.

Lemma above_not_covered q s : s ∈ staged → strictly_below q s.1 → ¬ covered q.
Proof.
  intros Hs [Hp Hne] (t & Ht & Hpre)%Exists_exists.
  assert (Ht' : t.1 `prefix_of` s.1) by by etrans.
  assert (t = s) as -> by by apply (staged_same t s s.1).
  apply Hne. by apply (anti_symm prefix).
Qed.

Lemma commit_nodes_committed p updated :
  planned ns staged p → update_ancestors ns (map_to_list (deltas p)) = Ok updated →
  committed (commit_nodes ns (removed_paths p) staged updated).
Proof.
  intros Hp Hu. apply update_ancestors_sound in Hu as [Hu1 Hu2]; [|apply NoDup_fst_map_to_list].
  assert (Hupd : ∀ q, ¬ Exists (λ s, strictly_below q s.1) staged → updated !! q = None).
  { intros q Hq. apply Hu2. intros ([q' d] & -> & Hd%elem_of_map_to_list)%list_elem_of_fmap.
    rewrite (planned_deltas _ _ _ Hp) in Hd. by case_decide. }
  split.
  - intros s q Hs Hq. unfold commit_nodes. rewrite map_lookup_imap.
    rewrite (extended_inside _ s); [|done|done|].
    + rewrite Hupd; [by destruct (s.2 !! q)|]. intros (t & Ht & Hb)%Exists_exists.
      apply (above_not_covered q t Ht Hb). apply Exists_exists. eauto.
    + apply map_lookup_filter_None. right. intros x Hx. cbn. intros Hnot. apply Hnot.
      rewrite (planned_removed _ _ _ Hp). apply elem_of_subtrees. exists s.1.
      split_and!; [apply list_elem_of_fmap; eauto|done|eauto].
  - intros q Hq. unfold commit_nodes. rewrite map_lookup_imap, extended_outside by done.
    assert (Hk : filter (λ kv, kv.1 ∉ removed_paths p) ns !! q = ns !! q).
    { destruct (ns !! q) as [x|] eqn:E; [|apply map_lookup_filter_None; by left].
      apply map_lookup_filter_Some. split; [done|]. cbn. rewrite (planned_removed _ _ _ Hp).
      intros (t & Ht & Hpre & _)%elem_of_subtrees. apply Hq.
      apply list_elem_of_fmap in Ht as (s & -> & Hs). apply Exists_exists. eauto. }
    rewrite Hk. destruct (ns !! q) as [x|] eqn:E; [|done]. cbn. f_equal. unfold retotal.
    destruct (decide (Exists (λ s, strictly_below q s.1) staged)) as [He|He].
    + destruct (Hu1 q (strict_delta ns staged q)) as [-> _].
      { apply elem_of_map_to_list. rewrite (planned_deltas _ _ _ Hp). by rewrite decide_True. }
      unfold total_at. by rewrite E.
    + rewrite Hupd, (strict_delta_none ns) by done. rewrite usage_add_0_r. by destruct x.
Qed.

(** The change of the total of [q], a directory above the replaced ones or one
    of them. *)
Definition weak_delta (q : Path) : UsageDelta :=
  usage_sum ((λ s, if decide (q `prefix_of` s.1) then delta_of ns s else usage_default) <$> staged).

Lemma staged_NoDup : NoDup staged.
Proof. eapply NoDup_fmap_1, (staged_apart _ _ staged_good). Qed.

Lemma weak_delta_replaced s : s ∈ staged → weak_delta s.1 = delta_of ns s.
Proof.
  intros Hs. unfold weak_delta.
  apply (usage_sum_single (λ t, s.1 `prefix_of` t.1) (delta_of ns));
    [apply staged_NoDup|done|done|].
  intros t Ht Hp. symmetry. by apply (staged_same s t t.1).
Qed.

Lemma weak_delta_above q : ¬ covered q → weak_delta q = strict_delta ns staged q.
Proof.
  intros Hq. unfold weak_delta, strict_delta. f_equal. apply list_fmap_ext. intros i s Hs.
  unfold strictly_below. do 2 case_decide; try tauto. exfalso.
  apply Hq, Exists_exists. exists s. split; [by eapply list_elem_of_lookup_2|].
  destruct (decide (q = s.1)) as [->|]; [done|tauto].
Qed.

Lemma strict_delta_split q node :
  ns !! q = Some node →
  strict_delta ns staged q =
  usage_sum ((λ n, weak_delta (join q n)) <$> elements (children node)).
Proof.
  intros Hq. unfold weak_delta.
  rewrite (usage_sum_swap (λ n s, if decide (join q n `prefix_of` s.1) then delta_of ns s
                                  else usage_default)).
  unfold strict_delta. f_equal. apply list_fmap_ext. intros i s Hs%list_elem_of_lookup_2.
  assert (Hjoin : ∀ n, n ∈ children node → join q n = q ++ [Normal n]).
  { intros n Hn. apply join_normal. by apply (ok_child _ (tree_sums _ _ ns_ok) _ _ _ Hq Hn). }
  case_decide as Hb.
  - destruct Hb as [Hp Hne].
    destruct (staged_nodes _ _ staged_good s Hs) as (Hin & _).
    destruct (tree_step _ _ _ ns_ok Hin q) as (node' & n & Hn' & Hn & Hpn); [apply prefix_nil|done..|].
    simplify_eq. symmetry.
    apply (usage_sum_single (λ n, join q n `prefix_of` s.1) (λ _, delta_of ns s) _ n).
    + apply NoDup_elements.
    + by apply elem_of_elements.
    + by rewrite Hjoin.
    + intros m Hm%elem_of_elements. rewrite Hjoin by done. intros Hpm.
      destruct (decide (m = n)) as [|Hmn]; [done|exfalso].
      destruct (apart_siblings q (Normal m) (Normal n)) as [H1 H2]; [congruence|].
      by destruct (prefix_common _ _ _ Hpm Hpn).
  - symmetry. apply (usage_sum_none (λ n, join q n `prefix_of` s.1) (λ _, delta_of ns s)).
    intros n Hn%elem_of_elements. rewrite Hjoin by done. intros Hp. apply Hb. split.
    + etrans; [|exact Hp]. by apply prefix_app_r.
    + intros ->. apply prefix_length in Hp. rewrite length_app in Hp. simpl in Hp. lia.
Qed.

Section committed.
Context (ns' : Nodes) (Hc : committed ns').

Lemma covered_step q c :
  covered (q ++ [c]) → ¬ covered q → ∃ s, s ∈ staged ∧ s.1 = q ++ [c].
Proof.
  intros (s & Hs & Hp)%Exists_exists Hq. exists s. split; [done|].
  apply prefix_snoc_inv in Hp as [?|Hp]; [done|]. destruct Hq. apply Exists_exists. eauto.
Qed.

Lemma covered_down q r : covered q → q `prefix_of` r → covered r.
Proof.
  intros (s & Hs & Hp)%Exists_exists Hr. apply Exists_exists. exists s. split; [done|by etrans].
Qed.

(** The new total of a directory that is not inside a replaced one. *)
Lemma committed_total q c :
  ¬ covered q → is_Some (ns !! (q ++ [c])) →
  is_Some (ns' !! (q ++ [c])) ∧
  total_at ns' (q ++ [c]) = usage_add (total_at ns (q ++ [c])) (weak_delta (q ++ [c])).
Proof.
  intros Hq [x Hx]. unfold total_at. destruct (decide (covered (q ++ [c]))) as [Hcov|Hcov].
  - destruct (covered_step _ _ Hcov Hq) as (s & Hs & Hsq).
    destruct (staged_nodes _ _ staged_good s Hs) as (_ & _ & Ht & _).
    destruct (tree_root _ _ Ht) as [y Hy].
    rewrite <-Hsq in *. rewrite (committed_inside _ Hc s) by done. rewrite Hy, Hx.
    split; [done|]. rewrite weak_delta_replaced by done. unfold delta_of, total_at.
    rewrite Hx, Hy. destruct (total y). unfold delta_between. usage_lia.
  - rewrite (committed_outside _ Hc) by done. rewrite Hx. cbn.
    rewrite weak_delta_above by done. done.
Qed.

Lemma committed_sums : sums_ok ns'.
Proof.
  split.
  - intros q node n Hq Hn. destruct (decide (covered q)) as [Hcov|Hcov].
    + apply Exists_exists in Hcov as (s & Hs & Hp).
      destruct (staged_nodes _ _ staged_good s Hs) as (_ & _ & Ht & _).
      rewrite (committed_inside _ Hc s) in Hq by done.
      destruct (ok_child _ (tree_sums _ _ Ht) _ _ _ Hq Hn) as [Hcn Hin]. split; [done|].
      rewrite (committed_inside _ Hc s); [done..|]. etrans; [done|]. by apply prefix_app_r.
    + rewrite (committed_outside _ Hc) in Hq by done.
      apply fmap_Some in Hq as (x & Hx & ->). cbn in Hn.
      destruct (ok_child _ (tree_sums _ _ ns_ok) _ _ _ Hx Hn) as [Hcn Hin]. split; [done|].
      rewrite join_normal in * by done. by apply committed_total.
  - intros q node Hq. destruct (decide (covered q)) as [Hcov|Hcov].
    + apply Exists_exists in Hcov as (s & Hs & Hp).
      destruct (staged_nodes _ _ staged_good s Hs) as (_ & _ & Ht & _).
      rewrite (committed_inside _ Hc s) in Hq by done.
      rewrite (ok_total _ (tree_sums _ _ Ht) _ _ Hq). f_equal. apply children_total_ext.
      intros n Hn. unfold total_at. rewrite (committed_inside _ Hc s); [done..|].
      etrans; [done|]. by apply prefix_app_r.
    + rewrite (committed_outside _ Hc) in Hq by done.
      apply fmap_Some in Hq as (x & Hx & ->).
      assert (Hsum : children_total ns' q (children x) =
        usage_add (children_total ns q (children x)) (strict_delta ns staged q)).
      { rewrite (strict_delta_split _ _ Hx). unfold children_total. rewrite <-usage_sum_add.
        f_equal. apply list_fmap_ext. intros i n Hn%list_elem_of_lookup_2%elem_of_elements.
        destruct (ok_child _ (tree_sums _ _ ns_ok) _ _ _ Hx Hn) as [Hcn Hin].
        rewrite join_normal in * by done. by apply committed_total. }
      unfold retotal, set_with. cbn [base total children].
      rewrite Hsum, (ok_total _ (tree_sums _ _ ns_ok) _ _ Hx), usage_add_assoc. done.
Qed.

Lemma root_not_covered : ¬ covered [].
Proof.
  intros (s & Hs & Hp%prefix_nil_inv)%Exists_exists.
  by destruct (staged_nodes _ _ staged_good s Hs) as (_ & ? & _).
Qed.

Lemma committed_outside_node q node :
  ¬ covered q → ns !! q = Some node → ns' !! q = Some (retotal q node).
Proof. intros Hq Hn. by rewrite (committed_outside _ Hc), Hn. Qed.

Lemma committed_tree : tree_ok [] ns'.
Proof.
  split.
  - apply committed_sums.
  - destruct (tree_root _ _ ns_ok) as [x Hx].
    rewrite (committed_outside_node _ _ root_not_covered Hx). done.
  - intros q _. apply prefix_nil.
  - intros q c Hq Hne. destruct (decide (covered q)) as [Hcov|Hcov].
    + apply Exists_exists in Hcov as (s & Hs & Hp).
      destruct (staged_nodes _ _ staged_good s Hs) as (_ & _ & Ht & _).
      rewrite (committed_inside _ Hc s) in Hq; [|done|by apply prefix_app_r].
      destruct (tree_parent _ _ Ht q c Hq) as (node & n & Hn & ? & ?).
      { intros Heq. apply prefix_length in Hp. rewrite <-Heq, length_app in Hp. simpl in Hp. lia. }
      exists node, n. by rewrite (committed_inside _ Hc s).
    + assert (Hin : is_Some (ns !! (q ++ [c]))).
      { destruct (decide (covered (q ++ [c]))) as [Hcov'|Hcov'].
        - destruct (covered_step _ _ Hcov' Hcov) as (s & Hs & <-).
          by apply (staged_nodes _ _ staged_good).
        - rewrite (committed_outside _ Hc) in Hq by done. by apply fmap_is_Some in Hq. }
      destruct (tree_parent _ _ ns_ok q c Hin Hne) as (node & n & Hn & ? & ?).
      exists (retotal q node), n. by rewrite (committed_outside_node _ _ Hcov Hn).
Qed.

Lemma committed_dom :
  dom ns' = (dom ns ∖ ⋃ (subtree ns <$> staged.*1)) ∪ ⋃ ((λ s, dom s.2 : gset Path) <$> staged).
Proof.
  apply set_eq. intros q. rewrite elem_of_union, elem_of_difference, !elem_of_dom.
  rewrite elem_of_subtrees, elem_of_union_list. destruct (decide (covered q)) as [Hcov|Hcov].
  - pose proof Hcov as (s & Hs & Hp)%Exists_exists. rewrite (committed_inside _ Hc s) by done. split.
    + intros Hq. right. exists (dom s.2). split; [|by apply elem_of_dom].
      apply list_elem_of_fmap. eauto.
    + intros [[Hq Hno]|(X & (t & -> & Ht)%list_elem_of_fmap & Hq%elem_of_dom)].
      * destruct Hno. exists s.1. split_and!; [apply list_elem_of_fmap; eauto|done..].
      * destruct (staged_nodes _ _ staged_good t Ht) as (_ & _ & Htt & _).
        by rewrite (staged_same s t q) by (done || by apply (tree_below _ _ Htt)).
  - rewrite (committed_outside _ Hc) by done. rewrite fmap_is_Some. split.
    + intros Hq. left. split; [done|]. intros (t & (s & -> & Hs)%list_elem_of_fmap & Hp & _).
      apply Hcov, Exists_exists. eauto.
    + intros [[Hq _]|(X & (t & -> & Ht)%list_elem_of_fmap & Hq%elem_of_dom)]; [done|].
      destruct (staged_nodes _ _ staged_good t Ht) as (_ & _ & Htt & _). destruct Hcov.
      apply Exists_exists. exists t. split; [done|]. by apply (tree_below _ _ Htt).
Qed.

Lemma committed_size :
  Z.of_nat (size ns') =
  Z.of_nat (size ns) - Z.of_nat (size (⋃ (subtree ns <$> staged.*1)))
    + Z.of_nat (size (⋃ ((λ s, dom s.2 : gset Path) <$> staged))).
Proof.
  rewrite <-!(size_dom (D := gset Path)), committed_dom.
  assert (Hsub : ⋃ (subtree ns <$> staged.*1) ⊆ dom ns).
  { intros q (p & _ & _ & Hq)%elem_of_subtrees. by apply elem_of_dom. }
  rewrite size_union.
  - rewrite size_difference by done. pose proof (subseteq_size _ _ Hsub). lia.
  - intros q [Hq Hno]%elem_of_difference (X & HX & Hin)%elem_of_union_list. apply Hno.
    apply list_elem_of_fmap in HX as (t & -> & Ht). apply elem_of_subtrees.
    destruct (staged_nodes _ _ staged_good t Ht) as (_ & _ & Htt & _).
    exists t.1. split_and!; [apply list_elem_of_fmap; eauto| |by apply elem_of_dom].
    apply (tree_below _ _ Htt). by apply elem_of_dom.
Qed.

Lemma committed_bounded :
  (∀ q, Exists (λ s, strictly_below q s.1) staged →
     usage_nonneg (usage_add (total_at ns q) (strict_delta ns staged q)) ∧
     usage_fits (usage_add (total_at ns q) (strict_delta ns staged q))) →
  tree_bounded ns'.
Proof.
  intros Hu q node Hq. destruct (decide (covered q)) as [Hcov|Hcov].
  - apply Exists_exists in Hcov as (s & Hs & Hp).
    destruct (staged_nodes _ _ staged_good s Hs) as (_ & _ & _ & Hb).
    rewrite (committed_inside _ Hc s) in Hq by done. by apply (Hb _ _ Hq).
  - rewrite (committed_outside _ Hc) in Hq by done. apply fmap_Some in Hq as (x & Hx & ->).
    destruct (ns_bounded _ _ Hx) as (Hnb & Hnt & Hft).
    unfold retotal, set_with. cbn [base total]. split; [done|].
    destruct (decide (Exists (λ s, strictly_below q s.1) staged)) as [He|He].
    + specialize (Hu q He). unfold total_at in Hu. by rewrite Hx in Hu.
    + by rewrite strict_delta_none, usage_add_0_r.
Qed.

Lemma committed_root :
  total_at ns' [] = usage_add (total_at ns []) (strict_delta ns staged []).
Proof.
  destruct (tree_root _ _ ns_ok) as [x Hx]. unfold total_at.
  by rewrite (committed_outside_node _ _ root_not_covered Hx), Hx.
Qed.
End committed.
End commit.

Lemma planned_nothing ns : planned ns [] (mkCommitPlan ∅ ∅ ∅).
Proof. split; [done..|]. intros q. cbn. by rewrite lookup_empty. Qed.

Lemma cache_usage_total_at c : cache_usage c = total_at (nodes c) [].
Proof. done. Qed.

(** The usage a commit returns. *)
Lemma final_usage_eq c staged p updated :
  tree_ok [] (nodes c) → planned (nodes c) staged p →
  update_ancestors (nodes c) (map_to_list (deltas p)) = Ok updated →
  default (cache_usage c) (updated !! []) =
  usage_add (total_at (nodes c) []) (strict_delta (nodes c) staged []).
Proof.
  intros Ht Hp Hu. apply update_ancestors_sound in Hu as [Hu1 Hu2]; [|apply NoDup_fst_map_to_list].
  destruct (decide (Exists (λ s, strictly_below [] s.1) staged)) as [He|He].
  - destruct (Hu1 [] (strict_delta (nodes c) staged [])) as [-> _]; [|done].
    apply elem_of_map_to_list. rewrite (planned_deltas _ _ _ Hp). by rewrite decide_True.
  - rewrite (strict_delta_none (nodes c)), usage_add_0_r by done. rewrite Hu2; [done|].
    intros ([q d] & Hq & Hd%elem_of_map_to_list)%list_elem_of_fmap. cbn in Hq. subst q.
    rewrite (planned_deltas _ _ _ Hp) in Hd. by case_decide.
Qed.

Lemma commit_replacements_sound limits c staged u c' :
  tree_ok [] (nodes c) → tree_bounded (nodes c) → staged_ok (nodes c) staged →
  commit_replacements limits c staged = Ok (u, c') →
  committed (nodes c) staged (nodes c') ∧ tree_bounded (nodes c') ∧
  c' = c <| nodes := nodes c' |> ∧ u = cache_usage c' ∧
  Z.of_nat (size (nodes c')) ≤ max_cached_directories c ∧ usage_entries u ≤ max_entries limits.
Proof.
  intros Ht Hb Hs. unfold commit_replacements, full_unless.
  intros (p & Hp & (count & Hcount%ok_or_Ok & (maximum & Hmax & Ha)%bind_Ok)%bind_Ok)%bind_Ok.
  apply (plan_commit_sound _ Ht Hb [] staged) in Hp; [|done|apply planned_nothing].
  apply bind_Some in Hcount as (n & [-> _]%checked_sub_Some & [-> _]%checked_add_Some).
  destruct (_ <? _) eqn:Hc1; [done|]. destruct (maximum <? _) eqn:Hc2; [done|].
  apply bind_Ok in Ha as (updated & Hu & Ha). destruct (max_entries limits <? _) eqn:He; [done|].
  to_prop. injection Ha as <- <-. cbn [app] in Hp.
  rewrite (final_usage_eq _ _ _ _ Ht Hp Hu) in *.
  pose proof (commit_nodes_committed _ Ht Hb _ Hs _ _ Hp Hu) as Hcom.
  unfold set_with. cbn [nodes].
  apply update_ancestors_sound in Hu as [Hu1 _]; [|apply NoDup_fst_map_to_list].
  split_and!; try done.
  - eapply committed_bounded; try done. intros q Hq.
    apply (Hu1 q). apply elem_of_map_to_list. rewrite (planned_deltas _ _ _ Hp).
    by rewrite decide_True.
  - rewrite cache_usage_total_at. cbn [nodes]. by rewrite (committed_root _ Ht _ Hs _ Hcom).
  - rewrite (committed_size _ _ Hs _ Hcom), <-(planned_removed _ _ _ Hp),
      <-(planned_noted _ _ _ Hp). done.
Qed.

(** When no sum of changes leaves its range, and the tree it would leave behind is
    within the limits of a scan: it succeeds, or that tree is too large for the
    cache. *)
Lemma commit_replacements_complete limits c staged ns' :
  tree_ok [] (nodes c) → tree_bounded (nodes c) → staged_ok (nodes c) staged →
  (∀ q some, some `prefix_of` staged → in_i128 (strict_delta (nodes c) some q)) →
  (∀ q, is_Some (nodes c !! q) →
     usage_nonneg (usage_add (total_at (nodes c) q) (strict_delta (nodes c) staged q)) ∧
     usage_fits (usage_add (total_at (nodes c) q) (strict_delta (nodes c) staged q))) →
  committed (nodes c) staged ns' →
  0 ≤ max_entries limits < u64_max → Z.of_nat (size ns') ≤ max_entries limits + 1 →
  usage_entries (total_at ns' []) ≤ max_entries limits →
  (∃ u c', commit_replacements limits c staged = Ok (u, c')) ∨
  (∃ reason, commit_replacements limits c staged = full reason ∧
     max_cached_directories c < Z.of_nat (size ns')).
Proof.
  intros Ht Hb Hs Hr Hrange Hcom He Hs2 Hroot. unfold commit_replacements, full_unless.
  destruct (plan_commit_complete _ Ht Hb [] staged (mkCommitPlan ∅ ∅ ∅)) as [p Hp];
    [done|apply planned_nothing|auto|].
  rewrite Hp. step_ok.
  apply (plan_commit_sound _ Ht Hb [] staged) in Hp; [|done|apply planned_nothing]. cbn [app] in Hp.
  pose proof (committed_size _ _ Hs _ Hcom) as Hsize.
  rewrite <-(planned_removed _ _ _ Hp), <-(planned_noted _ _ _ Hp) in Hsize.
  assert (Hrem : Z.of_nat (size (removed_paths p)) ≤ Z.of_nat (size (nodes c))).
  { rewrite (planned_removed _ _ _ Hp), <-(size_dom (D := gset Path)).
    apply inj_le, subseteq_size. intros q (x & _ & _ & Hq)%elem_of_subtrees. by apply elem_of_dom. }
  assert ((n ← checked_sub (Z.of_nat (size (nodes c))) (Z.of_nat (size (removed_paths p)));
           checked_add usize_max n (Z.of_nat (size (replacement_paths p)))) =
          Some (Z.of_nat (size ns'))) as ->.
  { apply bind_Some. eexists. rewrite checked_sub_Some, checked_add_Some.
    split; [split; [reflexivity|done]|]. lia. }
  assert (checked_add usize_max (max_entries limits) 1 = Some (max_entries limits + 1)) as ->
    by (apply checked_add_Some; lia).
  step_ok. cbn [io result_map_err ok_or]. rewrite bind_of_Ok.
  destruct (Z.ltb_spec (max_cached_directories c) (Z.of_nat (size ns'))); [right; eauto|left].
  rewrite (proj2 (Z.ltb_ge _ _)) by lia.
  destruct (update_ancestors_complete (nodes c) (map_to_list (deltas p))) as [updated Hu].
  { intros q d Hd%elem_of_map_to_list. rewrite (planned_deltas _ _ _ Hp) in Hd.
    case_decide as Hex; [|done]. simplify_eq. split; [|apply Hrange];
      apply Exists_exists in Hex as (s & Hs' & [Hpre _]);
      destruct (staged_nodes _ _ Hs s Hs') as (Hin & _);
      (eapply tree_up; [done|exact Hin|apply prefix_nil|exact Hpre]). }
  rewrite Hu. step_ok. rewrite (final_usage_eq _ _ _ _ Ht Hp Hu).
  rewrite <-(committed_root _ Ht _ Hs _ Hcom), (proj2 (Z.ltb_ge _ _)) by lia. eauto.
Qed.

(** ** The candidates *)

Lemma component_compare_antisym c d : component_compare d c = CompOpp (component_compare c d).
Proof.
  unfold component_compare. destruct (component_rank c) as [i s], (component_rank d) as [j t].
  rewrite Nat.compare_antisym. destruct (Nat.compare i j); cbn; try done.
  apply String.compare_antisym.
Qed.

Lemma path_compare_antisym p q : path_compare q p = CompOpp (path_compare p q).
Proof.
  revert q. induction p as [|c p IH]; intros [|d q]; cbn; try done.
  rewrite component_compare_antisym. destruct (component_compare c d); cbn; auto.
Qed.

#[export] Instance candidate_le_total : Total candidate_le.
Proof.
  intros p q. unfold candidate_le. rewrite (Nat.compare_antisym (length p)).
  destruct (Nat.compare (length p) (length q)); cbn; try (left; done); try (right; done).
  rewrite (path_compare_antisym p q). destruct (path_compare p q); cbn; auto.
Qed.

Lemma candidate_le_length p q : candidate_le p q → (length p ≤ length q)%nat.
Proof.
  unfold candidate_le. destruct (Nat.compare_spec (length p) (length q)); intros; lia || done.
Qed.

Definition shorter (p q : Path) : Prop := (length p ≤ length q)%nat.

Lemma merge_sort_shorter ps : StronglySorted shorter (merge_sort candidate_le ps).
Proof.
  apply Sorted_StronglySorted; [intros x y z; unfold shorter; lia|].
  assert (H : Sorted candidate_le (merge_sort candidate_le ps)) by (apply Sorted_merge_sort; apply _).
  induction H as [|p qs _ IH Hhd]; constructor; [done|].
  destruct Hhd; constructor. by apply candidate_le_length.
Qed.

(** What deduplication keeps: every candidate is inside a kept one, and the
    kept ones are apart. *)
Lemma deduplicate_from kept ps :
  antichain kept → StronglySorted shorter ps → (∀ k p, k ∈ kept → p ∈ ps → shorter k p) →
  let all := foldl (λ kept c, if existsb (starts_with c) kept then kept else kept ++ [c]) kept ps in
  antichain all ∧ (∀ p, p ∈ kept ++ ps → ∃ k, k ∈ all ∧ k `prefix_of` p) ∧
  (∀ k, k ∈ all → k ∈ kept ++ ps).
Proof.
  revert kept. induction ps as [|p ps IH]; intros kept Ha Hsort Hk; cbn.
  { rewrite app_nil_r. split_and!; [done| |done]. intros p Hp. by exists p. }
  apply StronglySorted_cons in Hsort as [Hp Hsort]. rewrite Forall_forall in Hp.
  destruct (existsb (starts_with p) kept) eqn:E.
  - apply existsb_exists in E as (k & Hkin%list_elem_of_In & Hpre%bool_decide_eq_true).
    destruct (IH kept Ha Hsort) as (H1 & H2 & H3); [set_solver|].
    split_and!; [done| |set_solver]. intros q Hq.
    apply elem_of_app in Hq as [Hq|[->|Hq]%elem_of_cons]; [apply H2; set_solver| |apply H2; set_solver].
    destruct (H2 k) as (k' & ? & ?); [set_solver|]. exists k'. split; [done|by etrans].
  - assert (Hnot : ∀ k, k ∈ kept → apart k p).
    { intros k Hkin. assert (Hkp : ¬ k `prefix_of` p).
      { intros Hpre. apply not_true_iff_false in E. apply E, existsb_exists. exists k.
        split; [by apply list_elem_of_In|by apply bool_decide_eq_true]. }
      split; [done|]. intros [l Hl]. apply Hkp.
      assert (length k ≤ length p)%nat as Hlen by (apply Hk; set_solver).
      rewrite Hl, length_app in Hlen. destruct l; [|cbn in Hlen; lia].
      rewrite Hl, app_nil_r. done. }
    destruct (IH (kept ++ [p])) as (H1 & H2 & H3).
    + apply antichain_app; [done|split; [apply NoDup_singleton|set_solver]|].
      intros q r Hq ->%list_elem_of_singleton. by apply Hnot.
    + done.
    + intros k q [Hkin| ->%list_elem_of_singleton]%elem_of_app Hq; [apply Hk; set_solver|by apply Hp].
    + rewrite <-(assoc_L (++)) in H2, H3. split_and!; done.
Qed.

Lemma deduplicate_ok ps :
  let kept := deduplicate (merge_sort candidate_le ps) in
  antichain kept ∧ (∀ p, p ∈ ps → ∃ k, k ∈ kept ∧ k `prefix_of` p) ∧ (∀ k, k ∈ kept → k ∈ ps).
Proof.
  destruct (deduplicate_from [] (merge_sort candidate_le ps)) as (H1 & H2 & H3).
  - split; [constructor|set_solver].
  - apply merge_sort_shorter.
  - set_solver.
  - cbn [app] in H2, H3. cbv zeta. unfold deduplicate. split_and!; [done|..].
    + intros p Hp. apply H2. by rewrite merge_sort_Permutation.
    + intros k Hk. specialize (H3 k Hk). by rewrite merge_sort_Permutation in H3.
Qed.

Section staging.
Context (env : DiskEnv) (limits : ScanLimits) (c : UsageTreeCache) (root : OpenDir).

Lemma nearest_ancestor_sound reversed b candidate b' :
  nearest_ancestor env limits c root reversed b = Ok (candidate, b') →
  candidate `prefix_of` reverse reversed ∧ candidate ≠ [] ∧ is_Some (nodes c !! candidate).
Proof.
  revert b. induction reversed as [|x parent IH]; intros b H; cbn [nearest_ancestor] in H;
    apply bind_Ok in H as (b1 & _ & H); [done|].
  assert (Hup : ∀ b, nearest_ancestor env limits c root parent b = Ok (candidate, b') →
    candidate `prefix_of` reverse (x :: parent) ∧ candidate ≠ [] ∧ is_Some (nodes c !! candidate)).
  { intros b2 (Hp & ? & ?)%IH. split_and!; try done. rewrite reverse_cons. by apply prefix_app_r. }
  destruct (nodes c !! reverse (x :: parent)) eqn:E; [|by eapply Hup].
  destruct (open_relative_directory _ _ _ _) as [d|[|]]; [|by eapply Hup|done].
  simplify_eq. rewrite E. split_and!; [done| |done].
  rewrite reverse_cons. by destruct (reverse parent).
Qed.

Lemma find_candidates_sound changed b candidates b' :
  find_candidates env limits c root changed b = Ok (candidates, b') →
  Forall2 (λ path candidate, candidate `prefix_of` path ∧ candidate ≠ [] ∧
             is_Some (nodes c !! candidate)) changed candidates.
Proof.
  revert b candidates. induction changed as [|path changed IH]; intros b candidates H; cbn in H.
  { simplify_eq. constructor. }
  apply bind_Ok in H as (b1 & _ & H). apply bind_Ok in H as (_ & _ & H).
  apply bind_Ok in H as ([candidate b2] & Hn & H).
  apply bind_Ok in H as ([rest b3] & Hrest & [= <- <-]). constructor; [|by eapply IH].
  apply nearest_ancestor_sound in Hn. by rewrite reverse_involutive in Hn.
Qed.

Lemma open_components_from now opened d rest d' :
  open_components env now opened d rest = Ok d' → rest = [] ∧ d' = d ∨
  ∃ names, open_path env now names = OpenedDir d'.
Proof.
  revert opened d. induction rest as [|x rest IH]; intros opened d H; cbn in H;
    [left; by simplify_eq|right].
  destruct x as [| | |name]; try done.
  destruct (open_path env now (opened ++ [name])) as [e|d1] eqn:E; [by case_match|].
  destruct (IH _ _ H) as [[-> ->]|?]; eauto.
Qed.

(** What is staged for a candidate: the nodes of the directory that was opened
    under its name. *)
Definition staged_from (s : Path * Nodes) : Prop :=
  ∃ now d st, open_relative_directory env now root s.1 = Ok d ∧ fstat d = Ok st ∧
    0 ≤ st_blocks st ∧ readable (max_depth limits) (Z.of_nat (length s.1)) d ∧
    usage_fits (dir_total st d) ∧ (named d → proper d) ∧ s.2 = dir_nodes s.1 st d.

Lemma stage_replacement_sound candidate count b replacement b' :
  budget_good limits b →
  stage_replacement env limits c root candidate count b = Ok (replacement, b') →
  staged_from (candidate, replacement) ∧ budget_good limits b'.
Proof.
  intros Hb. unfold stage_replacement.
  destruct (open_relative_directory _ _ _ _) as [d|[|]] eqn:Ho; try done.
  intros (st & Hst & H)%bind_Ok. destruct (_ && _); [done|].
  apply bind_Ok in H as (remaining & _ & H). destruct (remaining =? 0); [done|].
  destruct (scan_directory_tree _ _ _ _ _ _ _ _ _) as [[[t b1] ns]|e] eqn:Hs; [|by destruct e].
  apply scan_tree_sound in Hs; [|done]. destruct Hs as [? ? _ ? Hv ? _ _ ?]. simplify_eq.
  split; [|done]. exists (checks b), d, st. rewrite (right_id_L ∅ (∪)).
  destruct (fstat d); [|done]. cbn in Hst. simplify_eq. done.
Qed.

Lemma stage_replacements_sound candidates count b staged b' :
  budget_good limits b →
  stage_replacements env limits c root candidates count b = Ok (staged, b') →
  staged.*1 = candidates ∧ Forall staged_from staged.
Proof.
  revert count b staged. induction candidates as [|candidate candidates IH]; intros count b staged Hb H;
    cbn in H; [by simplify_eq|].
  apply bind_Ok in H as (b1 & Hb1 & H).
  assert (budget_good limits b1) as Hg1.
  { destruct (check _ _ _) eqn:E; [|done]. cbn in Hb1. simplify_eq.
    by apply check_Ok in E as (_ & ->). }
  apply bind_Ok in H as ([replacement b2] & Hs & H).
  apply stage_replacement_sound in Hs as [Hs Hg2]; [|done].
  apply bind_Ok in H as (n & _ & H). apply bind_Ok in H as ([rest b3] & Hrest & [= <- <-]).
  apply IH in Hrest as [<- Hrest]; [|done]. split; [done|]. by constructor.
Qed.
End staging.
