(* ===== verification/CacheLife.v ===== *)
(** * The life of a usage cache

    The properties of [UsageTree] and [Reconcile] together: a cache is made by
    a full scan and updated by partial reconciliations
    ([server/disk/soft/usage_tree.rs]), with the file system answering as it
    likes in between. *)
From S2P Require Import Prelude Planner DiskScan UsageTree Reconcile.

Local Open Scope Z_scope.

(** ** Totals are sums over directories *)

Definition base_at (ns : Nodes) (q : Path) : DirectoryUsage :=
  match ns !! q with Some node => base node | None => usage_default end.

Definition base_sum (ns : Nodes) (qs : gset Path) : DirectoryUsage :=
  usage_sum (base_at ns <$> elements qs).

Lemma base_sum_union ns qs rs :
  qs ## rs → base_sum ns (qs ∪ rs) = usage_add (base_sum ns qs) (base_sum ns rs).
Proof.
  intros Hd. unfold base_sum. rewrite elements_disj_union by done. by rewrite fmap_app, usage_sum_app.
Qed.

Lemma base_sum_subtrees ns ps :
  antichain ps →
  base_sum ns (⋃ (subtree ns <$> ps)) = usage_sum ((λ p, base_sum ns (subtree ns p)) <$> ps).
Proof.
  induction ps as [|p ps IH]; [done|]. intros [Hp Ha]%antichain_cons.
  rewrite subtrees_cons, base_sum_union, IH by
    (try done; intros q Hq (r & Hr & Hpre & Hs)%elem_of_subtrees;
     apply (apart_subtrees ns p r (Hp r Hr) q Hq); by apply elem_of_subtree).
  done.
Qed.

(** The longest path of a cache. *)
Definition height (ns : Nodes) : nat := S (max_list (length <$> (map_to_list ns).*1)).

Lemma height_above ns q : is_Some (ns !! q) → (length q < height ns)%nat.
Proof.
  intros [x Hx]. apply Nat.lt_succ_r, max_list_elem_of_le. apply list_elem_of_fmap.
  exists q. split; [done|]. apply list_elem_of_fmap. exists (q, x).
  split; [done|]. by apply elem_of_map_to_list.
Qed.

Lemma total_is_base_sum root ns :
  tree_ok root ns → ∀ p, is_Some (ns !! p) → total_at ns p = base_sum ns (subtree ns p).
Proof.
  intros Ht.
  assert (Hgo : ∀ k p, (height ns - length p ≤ k)%nat → is_Some (ns !! p) →
    total_at ns p = base_sum ns (subtree ns p)); [|by eauto].
  intros k. induction k as [|k IH]; intros p Hk Hp.
  { apply height_above in Hp. lia. }
  destruct Hp as [node Hnode]. unfold total_at. rewrite Hnode.
  rewrite (ok_total _ (tree_sums _ _ Ht) _ _ Hnode).
  assert (Ha : antichain (join p <$> elements (children node))).
  { eapply antichain_perm, (pushed_antichain ns p node); [|apply Ht|done].
    unfold pushed. apply reverse_Permutation. }
  rewrite (subtree_split _ _ _ _ Ht Hnode), base_sum_union.
  2:{ intros q Hq (r & Hr & Hpre & _)%elem_of_subtrees. apply elem_of_singleton in Hq as ->.
      apply list_elem_of_fmap in Hr as (n & -> & Hn%elem_of_elements).
      destruct (ok_child _ (tree_sums _ _ Ht) _ _ _ Hnode Hn) as [Hc _].
      rewrite join_normal in Hpre by done. apply prefix_length in Hpre.
      rewrite length_app in Hpre. simpl in Hpre. lia. }
  f_equal.
  - unfold base_sum. rewrite elements_singleton. cbn. unfold base_at. rewrite Hnode.
    by rewrite usage_add_0_r.
  - rewrite base_sum_subtrees by done. unfold children_total. rewrite <-list_fmap_compose.
    f_equal. apply list_fmap_ext. intros i n Hn%list_elem_of_lookup_2%elem_of_elements.
    destruct (ok_child _ (tree_sums _ _ Ht) _ _ _ Hnode Hn) as [Hc Hin]. cbn. apply IH; [|done].
    rewrite join_normal, length_app by done. cbn [length]. lia.
Qed.

(** ** Whatever the file system does *)

(** Directory entries have names: not empty, and without a slash. *)
Definition named_env (env : DiskEnv) : Prop :=
  ∀ now names d, open_path env now names = OpenedDir d → named d.

Record cache_ok (c : UsageTreeCache) : Prop := {
  cache_tree : tree_ok [] (nodes c);
  cache_bounded : tree_bounded (nodes c);
  cache_size : Z.of_nat (size (nodes c)) ≤ max_cached_directories c;
}.

Lemma open_root_named env now d id st :
  named_env env → open_root env now = Ok (d, id, st) → named d ∧ fstat d = Ok st.
Proof.
  intros Hn. unfold open_root. destruct (open_path env now []) as [e|d'] eqn:E; [done|].
  intros (st' & Hst & H)%bind_Ok. case_bool_decide; [done|]. simplify_eq.
  destruct (fstat d); [|done]. cbn in Hst. simplify_eq. split; [by eapply Hn|done].
Qed.

Lemma scan_full_bounded_ok env limits generation max_cached c :
  named_env env → 0 ≤ max_entries limits →
  scan_full_bounded env limits generation max_cached = Ok (Cached c) → cache_ok c.
Proof.
  intros Hn Hm. unfold scan_full_bounded. destruct (max_cached =? 0); [done|].
  intros ([[d id] st] & Ho & H)%bind_Ok. apply open_root_named in Ho as [Hd _]; [|done].
  destruct (scan_directory_tree _ _ _ _ _ _ _ _ _) as [[[t b] ns]|e] eqn:Hs; [|by destruct e].
  apply scan_tree_sound in Hs.
  2:{ unfold budget_good. cbn. unfold u64_max. lia. }
  destruct Hs as [? Hr _ Hf [= -> -> ->] _ _ Hsize Hp]. rewrite (right_id_L ∅ (∪)) in *.
  apply bind_Ok in H as (_ & _ & H). apply bind_Ok in H as (id' & _ & H).
  case_bool_decide; [done|]. simplify_eq. split; cbn [nodes].
  - by apply dir_nodes_tree, Hp.
  - by eapply (dir_nodes_bounded (max_depth limits)).
  - done.
Qed.

(** The subtrees staged for the planned candidates. *)
Lemma staged_from_ok env limits c root candidates changed b b1 staged b2 b3 :
  named_env env → named root → 0 ≤ max_entries limits → budget_good limits b1 →
  plan_candidates env limits c root changed b = Ok (candidates, b2) →
  stage_replacements env limits c root candidates 0 b1 = Ok (staged, b3) →
  staged_ok (nodes c) staged ∧ Forall (staged_from env limits root) staged.
Proof.
  intros Hn Hroot Hm Hb Hplan Hstage. unfold plan_candidates in Hplan.
  apply bind_Ok in Hplan as ([found b4] & Hfound & [= <- <-]).
  apply find_candidates_sound in Hfound.
  destruct (deduplicate_ok found) as (Ha & _ & Hin).
  apply stage_replacements_sound in Hstage as [Hcand Hfrom]; [|done].
  split; [|done]. split; [|by rewrite Hcand].
  intros s Hs. rewrite Forall_forall in Hfrom.
  destruct (Hfrom s Hs) as (now & d & st & Ho & Hst & Hbl & Hr & Hf & Hp & ->).
  assert (Hs1 : s.1 ∈ found).
  { apply Hin. rewrite <-Hcand. apply list_elem_of_fmap. eauto. }
  apply list_elem_of_lookup in Hs1 as [i Hi].
  destruct (Forall2_lookup_r _ _ _ _ _ Hfound Hi) as (path & _ & _ & Hne & Hcached).
  assert (Hd : named d).
  { destruct (open_components_from _ _ _ _ _ _ Ho) as [[_ ->]|(names & Hnames)]; [done|].
    by eapply Hn. }
  split_and!; [done..| |]; [by apply dir_nodes_tree, Hp|].
  by eapply (dir_nodes_bounded (max_depth limits)).
Qed.

Lemma check_good env limits b b' :
  io (check (elapsed env) limits b) = Ok b' → budget_good limits b → budget_good limits b'.
Proof.
  destruct (check _ _ _) eqn:E; [|done]. cbn. intros [= <-]. by apply check_Ok in E as (_ & ->).
Qed.

Lemma nearest_ancestor_good env limits c root reversed b candidate b' :
  nearest_ancestor env limits c root reversed b = Ok (candidate, b') →
  budget_good limits b → budget_good limits b'.
Proof.
  revert b. induction reversed as [|x parent IH]; intros b H Hb; cbn [nearest_ancestor] in H;
    apply bind_Ok in H as (b1 & Hb1%check_good & H); try done.
  destruct (nodes c !! reverse (x :: parent)); [|by eapply IH].
  destruct (open_relative_directory _ _ _ _) as [d|[|]]; [by simplify_eq|by eapply IH|done].
Qed.

Lemma find_candidates_good env limits c root changed b candidates b' :
  find_candidates env limits c root changed b = Ok (candidates, b') →
  budget_good limits b → budget_good limits b'.
Proof.
  revert b candidates. induction changed as [|path changed IH]; intros b candidates H Hb; cbn in H.
  { by simplify_eq. }
  apply bind_Ok in H as (b1 & Hb1%check_good & H); [|done].
  apply bind_Ok in H as (_ & _ & H).
  apply bind_Ok in H as ([candidate b2] & Hn%nearest_ancestor_good & H); [|done].
  apply bind_Ok in H as ([rest b3] & Hrest & [= <- <-]). by eapply IH.
Qed.

(** What a reconciliation that changes something commits. *)
Lemma reconcile_staged env limits c generation changed u c' :
  named_env env → 0 ≤ max_entries limits → changed ≠ [] →
  reconcile env limits c generation changed = Ok (u, c') →
  ∃ root id st candidates b staged,
    open_root env 0 = Ok (root, id, st) ∧ id = root_identity c ∧
    plan_candidates env limits c root changed (mkScanBudget 0 0) = Ok (candidates, b) ∧
    staged.*1 = candidates ∧ staged_ok (nodes c) staged ∧
    Forall (staged_from env limits root) staged ∧
    commit_replacements limits c staged = Ok (u, c').
Proof.
  intros Hn Hm Hne. unfold reconcile, full_unless. case_bool_decide; [done|].
  intros ([[root id] st] & Ho & Hx)%bind_Ok. case_bool_decide as Hid; [done|].
  apply bind_Ok in Hx as (x & _ & Hx). case_bool_decide; [done|].
  apply bind_Ok in Hx as ([candidates b] & Hplan & Hx).
  apply bind_Ok in Hx as ([staged b'] & Hstage & Hx).
  apply bind_Ok in Hx as (id' & _ & Hx). case_bool_decide; [done|].
  destruct (open_root env 0) as [[[r i] s]|] eqn:Hopen; [|done]. cbn in Ho. simplify_eq.
  pose proof (open_root_named _ _ _ _ _ Hn Hopen) as [Hroot _].
  assert (Hb0 : budget_good limits (mkScanBudget 0 0)) by (unfold budget_good, u64_max; cbn; lia).
  assert (Hb : budget_good limits b).
  { unfold plan_candidates in Hplan. apply bind_Ok in Hplan as ([found b4] & Hf & [= _ <-]).
    by eapply find_candidates_good. }
  destruct (staged_from_ok env limits c root candidates changed (mkScanBudget 0 0) b staged b b')
    as [Hs1 Hs2]; [done..|].
  apply stage_replacements_sound in Hstage as [Hcand _]; [|done].
  by eexists root, _, _, candidates, b, staged.
Qed.

Lemma reconcile_ok env limits c generation changed u c' :
  named_env env → 0 ≤ max_entries limits → cache_ok c →
  reconcile env limits c generation changed = Ok (u, c') →
  cache_ok c' ∧ u = cache_usage c' ∧ c' = c <| nodes := nodes c' |>.
Proof.
  intros Hn Hm [Ht Hb Hsize] H. destruct (decide (changed = [])) as [->|Hne].
  { unfold reconcile, full_unless in H. case_bool_decide as Hg; [done|].
    apply bind_Ok in H as ([[root id] st] & _ & H). case_bool_decide as Hid; [done|].
    apply bind_Ok in H as (x & _ & H). rewrite bool_decide_eq_true_2 in H by done. simplify_eq.
    split_and!; [done..|by destruct c']. }
  apply reconcile_staged in H as (root & id & st & candidates & b & staged & _ & _ & _ & _ &
    Hs & _ & Hc); [|done..].
  apply commit_replacements_sound in Hc as (Hcom & Hb' & Hc' & Hu & Hsz & _); [|done..].
  split_and!; [|done..]. split; [by eapply committed_tree|done|]. by rewrite Hc'.
Qed.

(** The caches of a scanner: a full scan makes one, partial reconciliations
    update it. *)
Inductive cache_of (limits : ScanLimits) : UsageTreeCache → Prop :=
  | cache_scanned env generation max_cached c :
      named_env env → scan_full_bounded env limits generation max_cached = Ok (Cached c) →
      cache_of limits c
  | cache_reconciled env c generation changed u c' :
      named_env env → cache_of limits c →
      reconcile env limits c generation changed = Ok (u, c') → cache_of limits c'.

Lemma cache_of_ok limits c : 0 ≤ max_entries limits → cache_of limits c → cache_ok c.
Proof.
  intros Hm. induction 1 as [env gen max_cached c Hn Hs|env c gen changed u c' Hn _ IH Hr].
  - by eapply scan_full_bounded_ok.
  - by eapply reconcile_ok in Hr as [? _].
Qed.

(** C35. A cache is always a tree that adds up.  Whatever the file system
    answered during the full scan that made it and the reconciliations since,
    every cached directory is listed by the cached directory above it, down
    from the root; the total of a directory is its own usage plus the totals of
    its children, no integer is out of range, and the number of directories
    stays within its bound.  So the usage that is enforced is the sum of what
    the cached directories hold. *)
Theorem cached_usage_adds_up limits c :
  0 ≤ max_entries limits → cache_of limits c →
  tree_ok [] (nodes c) ∧ tree_bounded (nodes c) ∧
  directory_count c ≤ max_cached_directories c ∧
  cache_usage c = base_sum (nodes c) (dom (nodes c)).
Proof.
  intros Hm Hok%cache_of_ok; [|done].
  destruct Hok as [Ht Hb Hsize]. split_and!; [done..|].
  rewrite cache_usage_total_at, (total_is_base_sum _ _ Ht); [|apply Ht].
  f_equal. apply set_eq. intros q. rewrite elem_of_subtree, elem_of_dom.
  split; [by intros [_ ?]|]. intros Hq. split; [apply prefix_nil|done].
Qed.

Definition demo_cache : UsageTreeCache :=
  mkUsageTreeCache (mkRootIdentity 1 10) "g" 10 (dir_nodes [] demo_root_stat (demo_root 100)).

Lemma demo_named size : named_env (demo_disk size).
Proof.
  assert (Hbase : named (demo_base size)).
  { cbn. unfold entry_name. split_and!; [done| |done..]. cbn. by repeat constructor. }
  intros now names d. cbn. repeat case_bool_decide; intros [= <-]; [|done].
  unfold demo_root. cbn -[demo_base]. unfold entry_name.
  split_and!; try done; cbn; by repeat constructor.
Qed.

Lemma demo_scanned : cache_of demo_limits demo_cache.
Proof.
  apply (cache_scanned _ (demo_disk 100) "g" 10); [apply demo_named|]. vm_compute. reflexivity.
Qed.

Lemma cached_usage_adds_up_witness :
  cache_usage demo_cache = base_sum (nodes demo_cache) (dom (nodes demo_cache)).
Proof.
  apply (cached_usage_adds_up demo_limits demo_cache); [done|apply demo_scanned].
Defined.
