(* ===== verification/QuietDisk.v ===== *)
(** * Partial reconciliation against a quiet disk

    While the data directory holds still, a partial reconciliation
    ([server/disk/soft/usage_tree.rs]) must leave the cache that a full scan
    would leave, although it reads only the directories that were reported. *)
From stdpp Require Import sorting.
From S2P Require Import Prelude Planner DiskScan UsageTree Reconcile CacheLife.

Local Open Scope Z_scope.

(** ** Directories by their names *)

Fixpoint find_sub (name : string) (l : Listing) : option (Stat * OpenDir) :=
  match l with
  | LNil => None
  | LError _ rest => find_sub name rest
  | LEntry n statat openat rest =>
      match subdirectory n statat openat with
      | Some sub => if bool_decide (n = name) then Some sub else find_sub name rest
      | None => find_sub name rest
      end
  end.

Definition entries_of (d : OpenDir) : Listing := let 'mkOpenDir _ _ l := d in l.

Fixpoint descend (names : list string) (st : Stat) (d : OpenDir) : option (Stat * OpenDir) :=
  match names with
  | [] => Some (st, d)
  | name :: names =>
      match find_sub name (entries_of d) with
      | Some (st, d) => descend names st d
      | None => None
      end
  end.

Definition path_of (names : list string) : Path := Normal <$> names.

Lemma path_of_cons path name names :
  path ++ path_of (name :: names) = (path ++ [Normal name]) ++ path_of names.
Proof. by rewrite <-(assoc_L (++)). Qed.

Lemma find_sub_children name l : is_Some (find_sub name l) ↔ name ∈ listing_children l.
Proof.
  induction l as [|e l IH|n statat openat l IH]; cbn [find_sub].
  - cbn. split; [by intros []|set_solver].
  - done.
  - rewrite listing_children_entry. unfold entry_children.
    destruct (subdirectory n statat openat) as [sub|]; [|rewrite IH; set_solver].
    case_bool_decide as Hn; [subst; set_solver|]. rewrite IH. set_solver.
Qed.

(** Looking up below a directory of the listing. *)
Lemma find_sub_nodes path name l q :
  listing_proper l → (path ++ [Normal name]) `prefix_of` q →
  listing_nodes path l !! q =
  match find_sub name l with
  | Some (st, d) => dir_nodes (path ++ [Normal name]) st d !! q
  | None => None
  end.
Proof.
  induction l as [|e l IH|n statat openat l IH]; intros Hl Hq; cbn [find_sub].
  - cbn. apply lookup_empty.
  - by apply IH.
  - apply listing_proper_entry in Hl as [He Hl]. rewrite listing_nodes_entry, lookup_union.
    specialize (IH Hl Hq). unfold entry_nodes, entry_proper in *.
    destruct (subdirectory n statat openat) as [[st d]|]; [|by rewrite lookup_empty, (left_id_L None _)].
    destruct He as (Hc & Hn & Hp). rewrite join_normal by done.
    case_bool_decide as Hnn.
    + subst n. rewrite IH. destruct (find_sub name l) as [sub|] eqn:E.
      { destruct Hn. apply find_sub_children. by rewrite E. }
      by rewrite (right_id_L None _).
    + assert (dir_nodes (path ++ [Normal n]) st d !! q = None) as ->.
      { apply eq_None_not_Some. intros Hs%dir_nodes_below.
        destruct (apart_siblings path (Normal n) (Normal name)) as [H1 H2]; [congruence|].
        by destruct (prefix_common _ _ _ Hs Hq). }
      by rewrite (left_id_L None _).
Qed.

Lemma find_sub_proper name l st d :
  listing_proper l → find_sub name l = Some (st, d) → proper d.
Proof.
  induction l as [|e l IH|n statat openat l IH]; [done|done|].
  intros [He Hl]%listing_proper_entry. cbn [find_sub]. unfold entry_proper in He.
  destruct (subdirectory n statat openat) as [[st' d']|]; [|by apply IH].
  case_bool_decide; [|by apply IH]. intros [= <- <-]. apply He.
Qed.

(** The nodes below a directory are the nodes of that directory. *)
Lemma descend_nodes names path st d q :
  proper d → (path ++ path_of names) `prefix_of` q →
  dir_nodes path st d !! q =
  match descend names st d with
  | Some (st', d') => dir_nodes (path ++ path_of names) st' d' !! q
  | None => None
  end.
Proof.
  revert path st d. induction names as [|name names IH]; intros path st d Hp Hq; cbn [descend].
  { by rewrite app_nil_r. }
  destruct d as [fs u l]. cbn [proper] in Hp. cbn [dir_nodes entries_of].
  assert (Hq1 : (path ++ [Normal name]) `prefix_of` q).
  { etrans; [|exact Hq]. rewrite path_of_cons. by apply prefix_app_r. }
  rewrite lookup_insert_ne.
  2:{ intros ->. apply prefix_length in Hq1. rewrite length_app in Hq1. simpl in Hq1. lia. }
  rewrite (find_sub_nodes _ name) by done.
  destruct (find_sub name l) as [[st' d']|] eqn:E; [|done].
  rewrite path_of_cons in *. apply IH; [by eapply find_sub_proper|done].
Qed.

Lemma descend_root names path st d :
  proper d →
  is_Some (dir_nodes path st d !! (path ++ path_of names)) ↔ is_Some (descend names st d).
Proof.
  intros Hp. rewrite (descend_nodes names) by done.
  destruct (descend names st d) as [[st' d']|]; [|split; by intros []].
  rewrite dir_nodes_root. done.
Qed.

Lemma descend_proper names st d st' d' :
  proper d → descend names st d = Some (st', d') → proper d'.
Proof.
  revert st d. induction names as [|name names IH]; intros st d Hp H; cbn in H; [by simplify_eq|].
  destruct d as [fs u l]. destruct (find_sub name _) as [[st1 d1]|] eqn:E; [|done].
  eapply IH; [|done]. by eapply find_sub_proper.
Qed.

(** ** A disk that holds still *)

(** Every call sees the directory [d] with the metadata [st]. *)
Record serves (env : DiskEnv) (d : OpenDir) (st : Stat) : Prop := {
  serves_mode : st_mode st = FileDirectory;
  serves_down now names st' d' : descend names st d = Some (st', d') →
    open_path env now names = OpenedDir d' ∧ fstat d' = Ok st';
  serves_gone now names : descend names st d = None →
    ∃ e, open_path env now names = OpenFailed e ∧ unavailable_path_error e = true;
}.

Lemma descend_app names names' st d :
  descend (names ++ names') st d =
  match descend names st d with Some (st', d') => descend names' st' d' | None => None end.
Proof.
  revert st d. induction names as [|name names IH]; intros st d; cbn; [done|].
  destruct (find_sub name (entries_of d)) as [[st' d']|]; [apply IH|done].
Qed.

Section quiet.
Context (env : DiskEnv) (d : OpenDir) (st : Stat) (Hserves : serves env d st).

Lemma quiet_open_root now : open_root env now = Ok (d, identity_from_stat st, st).
Proof.
  destruct (serves_down _ _ _ Hserves now [] st d eq_refl) as [Ho Hf].
  unfold open_root. rewrite Ho, Hf. cbn [os result_map_err]. step_ok.
  rewrite bool_decide_eq_false_2; [done|]. rewrite (serves_mode _ _ _ Hserves). tauto.
Qed.

Lemma quiet_open_components now opened st1 d1 names :
  descend opened st d = Some (st1, d1) →
  open_components env now opened d1 (path_of names) =
  match descend names st1 d1 with Some (_, d') => Ok d' | None => Err Unavailable end.
Proof.
  revert opened st1 d1. induction names as [|name names IH]; intros opened st1 d1 Ho; cbn; [done|].
  assert (Hnext : descend (opened ++ [name]) st d = find_sub name (entries_of d1)).
  { rewrite descend_app, Ho. cbn. by destruct (find_sub name (entries_of d1)) as [[]|]. }
  destruct (find_sub name (entries_of d1)) as [[st2 d2]|].
  - destruct (serves_down _ _ _ Hserves now _ _ _ Hnext) as [-> _]. by apply IH.
  - destruct (serves_gone _ _ _ Hserves now _ Hnext) as (e & -> & ->). done.
Qed.

Lemma quiet_open_relative now names :
  open_relative_directory env now d (path_of names) =
  match descend names st d with Some (_, d') => Ok d' | None => Err Unavailable end.
Proof. by apply quiet_open_components. Qed.
End quiet.

(** The paths of a cache are names. *)
Lemma tree_path_names ns q : tree_ok [] ns → is_Some (ns !! q) → ∃ names, q = path_of names.
Proof.
  intros Ht. induction q as [|x q IH] using rev_ind; intros Hq; [by exists []|].
  destruct (tree_parent _ _ Ht q x Hq) as (node & n & Hn & -> & _); [by destruct q|].
  destruct IH as [names ->]; [eauto|]. exists (names ++ [n]). unfold path_of. by rewrite fmap_app.
Qed.

(** The reported paths account for every directory whose own content differs
    from what is cached. *)
Definition reported (ns ns' : Nodes) (changed : list Path) : Prop :=
  ∀ q, outline <$> ns !! q ≠ outline <$> ns' !! q → ∃ x, x ∈ changed ∧ x `prefix_of` q.

Section refinement.
Context (env : DiskEnv) (d : OpenDir) (st : Stat) (Hserves : serves env d st).
Context (d_proper : proper d).

(** What is staged is the part of the new tree below the candidate. *)
Lemma quiet_staged limits c s :
  tree_ok [] (nodes c) → is_Some (nodes c !! s.1) → staged_from env limits d s →
  ∀ q, s.1 `prefix_of` q → s.2 !! q = dir_nodes [] st d !! q.
Proof.
  intros Ht Hin (now & d' & st' & Ho & Hf & _ & _ & _ & _ & Hs) q Hq.
  destruct (tree_path_names _ _ Ht Hin) as [names Hnames]. rewrite Hs, Hnames in *.
  rewrite (quiet_open_relative _ _ _ Hserves) in Ho.
  rewrite (descend_nodes names [] st d) by done.
  destruct (descend names st d) as [[st1 d1]|] eqn:E; [|done]. simplify_eq.
  destruct (serves_down _ _ _ Hserves now _ _ _ E) as [_ Hf1]. rewrite Hf in Hf1. by simplify_eq/=.
Qed.

Lemma committed_is_new limits c staged ns' candidates changed b b' :
  cache_ok c → staged_ok (nodes c) staged → Forall (staged_from env limits d) staged →
  staged.*1 = candidates → plan_candidates env limits c d changed b = Ok (candidates, b') →
  reported (nodes c) (dir_nodes [] st d) changed →
  committed (nodes c) staged ns' → ns' = dir_nodes [] st d.
Proof.
  intros [Ht Hb _] Hs Hfrom <- Hplan Hrep Hcom.
  apply sums_unique; [by eapply committed_sums|by apply dir_nodes_tree|]. intros q.
  destruct (decide (Exists (λ s, s.1 `prefix_of` q) staged)) as [Hcov|Hcov].
  - apply Exists_exists in Hcov as (s & Hin & Hq). rewrite Forall_forall in Hfrom.
    destruct (staged_nodes _ _ Hs s Hin) as (Hc & _).
    by rewrite (committed_inside _ _ _ Hcom s), (quiet_staged limits c s) by auto.
  - rewrite (committed_outside _ _ _ Hcom q Hcov).
    destruct (decide (outline <$> nodes c !! q = outline <$> dir_nodes [] st d !! q)) as [He|He].
    + rewrite <-He. by destruct (nodes c !! q).
    + destruct (Hrep q He) as (x & Hx & Hpre). destruct Hcov.
      unfold plan_candidates in Hplan. apply bind_Ok in Hplan as ([found b4] & Hfound & [= Hded _]).
      apply find_candidates_sound in Hfound. destruct (deduplicate_ok found) as (_ & Hkept & _).
      apply list_elem_of_lookup in Hx as [i Hi].
      destruct (Forall2_lookup_l _ _ _ _ _ Hfound Hi) as (k & Hk & Hkx & _).
      destruct (Hkept k) as (k' & Hk' & Hkk); [by eapply list_elem_of_lookup_2|].
      rewrite Hded in Hk'. apply list_elem_of_fmap in Hk' as (s & -> & Hs').
      apply Exists_exists. exists s. split; [done|]. by etrans; [|etrans].
Qed.

Lemma reconcile_exact limits c generation changed u c' :
  named_env env → 0 ≤ max_entries limits → cache_ok c →
  reported (nodes c) (dir_nodes [] st d) changed →
  reconcile env limits c generation changed = Ok (u, c') →
  nodes c' = dir_nodes [] st d ∧ u = dir_total st d.
Proof.
  intros Hn Hm Hok Hrep H. pose proof H as H'.
  apply reconcile_ok in H' as (_ & Hu & _); [|done..].
  assert (Hnodes : nodes c' = dir_nodes [] st d).
  { destruct (decide (changed = [])) as [->|Hne].
    - unfold reconcile, full_unless in H. case_bool_decide as Hg; [done|].
      apply bind_Ok in H as ([[root id] s] & _ & H). case_bool_decide as Hid; [done|].
      apply bind_Ok in H as (x & _ & H). rewrite bool_decide_eq_true_2 in H by done. simplify_eq.
      apply sums_unique; [apply Hok|by apply dir_nodes_tree|]. intros q.
      destruct (decide (outline <$> nodes c' !! q = outline <$> dir_nodes [] st d !! q)) as [|He];
        [done|]. destruct (Hrep q He) as (x' & Hx' & _). by apply elem_of_nil in Hx'.
    - apply reconcile_staged in H as (root & id & s & candidates & b & staged & Ho & _ & Hplan &
        Hcand & Hs & Hfrom & Hc); [|done..].
      rewrite (quiet_open_root _ _ _ Hserves) in Ho. injection Ho as <- _ _.
      apply commit_replacements_sound in Hc as (Hcom & _); [|apply Hok..|done].
      by eapply committed_is_new. }
  split; [done|]. rewrite Hu, cache_usage_total_at, Hnodes. unfold total_at.
  by rewrite dir_nodes_root.
Qed.
End refinement.

(** ** When it succeeds *)

Lemma find_sub_readable max depth name l st d :
  listing_readable max depth l → find_sub name l = Some (st, d) →
  0 ≤ st_blocks st ∧ readable max (depth + 1) d.
Proof.
  induction l as [|e l IH|n statat openat l IH]; [done|by intros [_ ?]; apply IH|].
  intros [He Hl]%listing_readable_entry. cbn [find_sub].
  destruct (subdirectory n statat openat) as [[st' d']|] eqn:E; [|by apply IH].
  case_bool_decide; [|by apply IH]. intros [= <- <-].
  by apply (entry_readable_sub _ _ _ _ _ _ _ He) in E as (? & _ & ?).
Qed.

Lemma descend_readable max depth names st d st' d' :
  0 ≤ st_blocks st → readable max depth d → descend names st d = Some (st', d') →
  0 ≤ st_blocks st' ∧ readable max (depth + Z.of_nat (length names)) d'.
Proof.
  revert depth st d. induction names as [|name names IH]; intros depth st d Hb Hr H; cbn in H.
  { simplify_eq. cbn [length Z.of_nat]. by rewrite Z.add_0_r. }
  destruct d as [fs u l]. destruct Hr as [_ Hr].
  destruct (find_sub name _) as [[st1 d1]|] eqn:E; [|done].
  apply (find_sub_readable max depth) in E as [Hb1 Hr1]; [|done].
  apply (IH (depth + 1)) in H as [? H]; [|done..]. split; [done|]. cbn [length].
  by replace (depth + Z.of_nat (S (length names))) with (depth + 1 + Z.of_nat (length names)) by lia.
Qed.

Lemma find_sub_steady name l st d :
  listing_steady l → find_sub name l = Some (st, d) → steady d.
Proof.
  induction l as [|e l IH|n statat openat l IH]; [done|done|].
  intros [He Hl]%listing_steady_entry. cbn [find_sub]. unfold entry_steady in He.
  destruct (subdirectory n statat openat) as [[st' d']|]; [|by apply IH].
  case_bool_decide; [|by apply IH]. intros [= <- <-]. apply He.
Qed.

Lemma descend_steady names st d st' d' :
  steady d → descend names st d = Some (st', d') → steady d'.
Proof.
  revert st d. induction names as [|name names IH]; intros st d Hs H; cbn in H; [by simplify_eq|].
  destruct d as [fs u l]. destruct (find_sub name _) as [[st1 d1]|] eqn:E; [|done].
  eapply IH; [|done]. by eapply find_sub_steady.
Qed.

(** The nodes of a directory are a subtree. *)
Lemma descend_dom names st d st' d' :
  proper d → descend names st d = Some (st', d') →
  dom (dir_nodes (path_of names) st' d') = subtree (dir_nodes [] st d) (path_of names).
Proof.
  intros Hp H. apply set_eq. intros q. rewrite elem_of_dom, elem_of_subtree. split.
  - intros Hq. pose proof (proj1 dir_nodes_below _ _ _ _ Hq) as Hpre. split; [done|].
    by rewrite (descend_nodes names), H.
  - intros [Hpre Hq]. by rewrite (descend_nodes names), H in Hq.
Qed.

Lemma base_sum_within ns qs rs :
  tree_bounded ns → qs ⊆ rs →
  ∃ rest, usage_nonneg rest ∧ base_sum ns rs = usage_add (base_sum ns qs) rest.
Proof.
  intros Hb Hsub. exists (base_sum ns (rs ∖ qs)).
  rewrite (union_difference_L _ _ Hsub) at 2. rewrite base_sum_union by set_solver.
  split; [|done]. apply usage_sum_nonneg, Forall_fmap, Forall_forall. intros q _. cbn.
  unfold base_at. destruct (ns !! q) as [x|] eqn:E; [|done]. by apply (Hb _ _ E).
Qed.

(** Directories apart from each other hold no more than the whole. *)
Lemma antichain_within ns ps :
  tree_ok [] ns → tree_bounded ns → antichain ps → (∀ p, p ∈ ps → is_Some (ns !! p)) →
  ∃ rest, usage_nonneg rest ∧ usage_nonneg (usage_sum (total_at ns <$> ps)) ∧
    total_at ns [] = usage_add (usage_sum (total_at ns <$> ps)) rest.
Proof.
  intros Ht Hb Ha Hin.
  destruct (base_sum_within ns (⋃ (subtree ns <$> ps)) (subtree ns []) Hb) as (rest & Hr & He).
  { intros q (p & _ & _ & Hq)%elem_of_subtrees. apply elem_of_subtree.
    split; [apply prefix_nil|done]. }
  rewrite <-(total_is_base_sum [] ns Ht []), base_sum_subtrees in He by (try apply Ht; done).
  exists rest. split; [done|].
  assert ((λ p, base_sum ns (subtree ns p)) <$> ps = total_at ns <$> ps) as Heq.
  { apply list_fmap_ext. intros i p Hp%list_elem_of_lookup_2. symmetry.
    apply (total_is_base_sum []); auto. }
  rewrite Heq in He. split; [|done].
  apply usage_sum_nonneg, Forall_fmap, Forall_forall. intros p Hp. cbn.
  destruct (Hin p Hp) as [x Hx]. unfold total_at. rewrite Hx. by apply (Hb _ _ Hx).
Qed.

Section success.
Context (env : DiskEnv) (limits : ScanLimits) (c : UsageTreeCache) (d : OpenDir) (st : Stat).
Hypothesis quiet : serves env d st.
Hypothesis clock : ∀ now, elapsed env now < timeout limits.
Hypothesis entries_bound : 0 ≤ max_entries limits < u64_max.
Hypothesis d_steady : steady d.
Hypothesis d_blocks : 0 ≤ st_blocks st.
Hypothesis d_readable : readable (max_depth limits) 0 d.
Hypothesis d_fits : usage_fits (dir_total st d).
Hypothesis d_entries : usage_entries (dir_total st d) ≤ max_entries limits.
Hypothesis c_ok : cache_ok c.

Let new := dir_nodes [] st d.

(** The directory is the one the cache was made from, is found again nowhere
    below itself, and is not too large for the cache. *)
Definition cacheable : Prop :=
  root_identity c = identity_from_stat st ∧
  (∀ names st' d', names ≠ [] → descend names st d = Some (st', d') →
     identity_from_stat st' ≠ identity_from_stat st) ∧
  Z.of_nat (size new) ≤ max_cached_directories c.

Lemma new_proper : proper d.
Proof. by apply steady_proper. Qed.
Lemma new_tree : tree_ok [] new.
Proof. apply dir_nodes_tree, new_proper. Qed.
Lemma new_bounded : tree_bounded new.
Proof. by eapply (dir_nodes_bounded (max_depth limits)). Qed.

Lemma check_in_time b :
  check (elapsed env) limits b = Ok (mkScanBudget (budget_entries b) (S (checks b))).
Proof. by apply check_Ok. Qed.

(** A reported path below a directory that is cached and still exists. *)
Definition anchored (x : Path) : Prop :=
  ∃ k, k ≠ [] ∧ k `prefix_of` x ∧ is_Some (nodes c !! k) ∧ is_Some (new !! k).

Lemma nearest_ancestor_cases reversed b :
  (∃ candidate b', nearest_ancestor env limits c d reversed b = Ok (candidate, b') ∧
     is_Some (new !! candidate) ∧ budget_entries b' = budget_entries b) ∨
  (∃ reason, nearest_ancestor env limits c d reversed b = full reason ∧
     ¬ anchored (reverse reversed)).
Proof.
  revert b. induction reversed as [|x parent IH]; intros b; cbn [nearest_ancestor];
    rewrite check_in_time; cbn [io result_map_err]; rewrite bind_of_Ok.
  { right. eexists. split; [done|]. intros (k & Hne & Hpre & _). by apply prefix_nil_inv in Hpre. }
  assert (Hnot : (nodes c !! reverse (x :: parent) = None ∨ new !! reverse (x :: parent) = None) →
    ¬ anchored (reverse parent) → ¬ anchored (reverse (x :: parent))).
  { intros Hnone Hpar (k & Hne & Hpre & Hc & Hnew). rewrite reverse_cons in Hpre, Hnone.
    apply prefix_snoc_inv in Hpre as [->|Hpre]; [|apply Hpar; by exists k].
    destruct Hnone as [Hn|Hn]; rewrite Hn in *; by destruct Hc, Hnew. }
  destruct (nodes c !! reverse (x :: parent)) as [node|] eqn:E.
  2:{ destruct (IH (mkScanBudget (budget_entries b) (S (checks b))))
        as [(k' & b' & ? & ? & ?)|(reason & ? & ?)]; [left; by exists k', b'|right].
      exists reason. auto. }
  destruct (tree_path_names _ (reverse (x :: parent)) (cache_tree _ c_ok)) as [names Hnames];
    [by rewrite E|].
  assert (∀ now, open_relative_directory env now d (reverse (x :: parent)) =
    match descend names st d with Some (_, d') => Ok d' | None => Err Unavailable end) as ->
    by (intros now; rewrite Hnames; apply (quiet_open_relative _ _ _ quiet)).
  pose proof (descend_root names [] st d new_proper) as Hdesc. cbn [app] in Hdesc.
  destruct (descend names st d) as [[st' d']|].
  - left. eexists _, _. split; [done|]. split; [|done]. rewrite Hnames. by apply Hdesc.
  - destruct (IH (mkScanBudget (budget_entries b) (S (checks b))))
      as [(k' & b' & ? & ? & ?)|(reason & ? & Hpar)]; [left; by exists k', b'|right].
    exists reason. split; [done|]. apply Hnot; [right|done]. rewrite Hnames.
    apply eq_None_not_Some. intros Hs%Hdesc. by destruct Hs.
Qed.

(** The reported paths that a partial scan can start from. *)
Definition usable (changed : list Path) : Prop :=
  Forall (λ x, validate_changed_path x = Ok tt ∧ anchored x) changed.

Lemma find_candidates_cases changed b :
  (∃ candidates b', find_candidates env limits c d changed b = Ok (candidates, b') ∧
     Forall (λ k, is_Some (new !! k)) candidates ∧ budget_entries b' = budget_entries b) ∨
  (∃ reason, find_candidates env limits c d changed b = full reason ∧ ¬ usable changed).
Proof.
  revert b. induction changed as [|x changed IH]; intros b; cbn [find_candidates].
  { left. by eexists [], _. }
  rewrite check_in_time. cbn [io result_map_err]. rewrite bind_of_Ok.
  assert (Hv : validate_changed_path x = Ok tt ∨ ∃ reason, validate_changed_path x = full reason).
  { unfold validate_changed_path. repeat case_match; eauto. }
  destruct Hv as [Hv|[reason Hv]]; rewrite Hv.
  2:{ right. exists reason. split; [done|]. intros [[? _] _]%Forall_cons. by rewrite Hv in *. }
  step_ok. unfold nearest_cached_existing_ancestor.
  destruct (nearest_ancestor_cases (reverse x) (mkScanBudget (budget_entries b) (S (checks b))))
    as [(k & b1 & -> & Hk & Hb1)|(reason & -> & Hno)].
  2:{ right. exists reason. split; [done|]. rewrite reverse_involutive in Hno.
      by intros [[_ ?] _]%Forall_cons. }
  step_ok. destruct (IH b1) as [(ks & b2 & -> & Hks & Hb2)|(reason & -> & Hno)].
  - left. step_ok. eexists _, _. split; [done|]. split; [by constructor|]. rewrite Hb2, Hb1. done.
  - right. exists reason. split; [done|]. by intros [_ ?]%Forall_cons.
Qed.

(** The directory at a path of the tree. *)
Lemma new_directory k :
  is_Some (nodes c !! k) → is_Some (new !! k) →
  ∃ st' d', (∀ now, open_relative_directory env now d k = Ok d') ∧ fstat d' = Ok st' ∧
    steady d' ∧ 0 ≤ st_blocks st' ∧ readable (max_depth limits) (Z.of_nat (length k)) d' ∧
    dom (dir_nodes k st' d') = subtree new k ∧ total_at new k = dir_total st' d' ∧
    (k ≠ [] → cacheable → identity_from_stat st' ≠ root_identity c).
Proof.
  intros Hc Hk. destruct (tree_path_names _ k (cache_tree _ c_ok) Hc) as [names ->].
  pose proof (proj1 (descend_root names [] st d new_proper) Hk) as [[st' d'] E].
  exists st', d'. destruct (serves_down _ _ _ quiet 0%nat _ _ _ E) as [_ Hf].
  destruct (descend_readable _ 0 _ _ _ _ _ d_blocks d_readable E) as [Hbl Hr].
  split_and!; try done.
  - intros now. by rewrite (quiet_open_relative _ _ _ quiet), E.
  - by eapply descend_steady.
  - unfold path_of. by rewrite length_fmap.
  - apply descend_dom; [apply new_proper|done].
  - unfold total_at, new. rewrite (descend_nodes names) by (try apply new_proper; done).
    by rewrite E, dir_nodes_root.
  - intros Hne (-> & Halone & _). apply (Halone names st' d'); [by intros ->|done].
Qed.

(** What staging the candidates needs: they are directories of the tree, and
    the limits leave room for them. *)
Record room (candidates : list Path) (count : Z) (b : ScanBudget) : Prop := {
  room_apart : antichain candidates;
  room_nodes k : k ∈ candidates → is_Some (nodes c !! k) ∧ is_Some (new !! k) ∧ k ≠ [];
  room_count : 0 ≤ count;
  room_size : count + Z.of_nat (size (⋃ (subtree new <$> candidates))) ≤ Z.of_nat (size new);
  room_budget : 0 ≤ budget_entries b;
  room_entries : budget_entries b + usage_entries (usage_sum (total_at new <$> candidates)) ≤
                 max_entries limits;
}.

Lemma new_size : Z.of_nat (size new) ≤ max_entries limits + 1.
Proof.
  pose proof (proj1 (dir_nodes_size (max_depth limits)) d [] st 0 d_readable) as Hs.
  unfold new. unfold dir_total in d_entries. cbn in d_entries. lia.
Qed.

Lemma total_nonneg k : usage_nonneg (total_at new k).
Proof.
  unfold total_at. destruct (new !! k) as [x|] eqn:E; [|done]. by apply (new_bounded _ _ E).
Qed.

Lemma totals_nonneg ks : usage_nonneg (usage_sum (total_at new <$> ks)).
Proof. apply usage_sum_nonneg, Forall_fmap, Forall_forall. intros k _. apply total_nonneg. Qed.

Lemma stage_replacement_cases k count b :
  is_Some (nodes c !! k) → is_Some (new !! k) → k ≠ [] → 0 ≤ count →
  count + Z.of_nat (size (subtree new k)) ≤ Z.of_nat (size new) → 0 ≤ budget_entries b →
  budget_entries b + usage_entries (total_at new k) ≤ max_entries limits →
  (∃ replacement b', stage_replacement env limits c d k count b = Ok (replacement, b') ∧
    dom replacement = subtree new k ∧
    budget_entries b' = budget_entries b + usage_entries (total_at new k)) ∨
  (∃ reason, stage_replacement env limits c d k count b = full reason ∧ ¬ cacheable).
Proof.
  intros Hc Hk Hne Hcount Hsize Hb He.
  destruct (new_directory k Hc Hk) as (st' & d' & Ho & Hf & Hst & Hbl & Hr & Hdom & Ht & Hid).
  unfold stage_replacement, full_unless. rewrite Ho, Hf. cbn [os io result_map_err]. step_ok.
  case_bool_decide as Hroot; [right|]; [rewrite bool_decide_eq_true_2 by done; eexists; split; [done|];
    intros ?; by apply Hid|]. cbn [andb].
  assert (Hpos : (0 < size (subtree new k))%nat).
  { assert (k ∈ subtree new k) as Hin by by apply elem_of_subtree.
    destruct (size (subtree new k)) eqn:E; [|lia]. apply size_empty_inv in E. set_solver. }
  destruct (checked_sub (max_cached_directories c) count) as [remaining|] eqn:Hrem; cycle 1.
  { right. eexists. split; [done|]. intros (_ & _ & Hlarge). unfold checked_sub in Hrem.
    destruct (Z.leb_spec count (max_cached_directories c)); [done|lia]. }
  apply checked_sub_Some in Hrem as [-> Hrem]. step_ok.
  destruct (Z.eqb_spec (max_cached_directories c - count) 0) as [Hz|Hz].
  { right. eexists. split; [done|]. intros (_ & _ & Hlarge). lia. }
  pose proof (total_nonneg k) as Hn. rewrite Ht in He, Hn |- *.
  destruct Hk as [x Hx]. destruct (new_bounded _ _ Hx) as (_ & _ & Hfit).
  assert (total x = dir_total st' d') as Hxt by (unfold total_at in Ht; by rewrite Hx in Ht).
  assert (Hg : budget_good limits b) by (unfold budget_good; usage_lia).
  pose (scan := scan_directory_tree (elapsed env) limits d' st' k (Z.of_nat (length k)) b ∅).
  assert (Hall : ∀ m, Z.of_nat (size (subtree new k)) ≤ m → ∃ r, scan m = Ok r).
  { intros m Hm. apply (proj1 (scan_tree_complete (elapsed env) limits)).
    split; try done; [intros t _; apply clock|by rewrite <-Hxt|..].
    - split; [done|]. unfold budget_good, spent. cbn [budget_entries]. usage_lia.
    - by rewrite (right_id_L ∅ (∪)), <-(size_dom (D := gset Path)), Hdom. }
  destruct (Hall _ (Z.le_refl _)) as [r Hr'].
  destruct (proj1 (scan_tree_cut (elapsed env) limits (max_cached_directories c - count) _)
              d' st' k (Z.of_nat (length k)) b ∅ r Hr') as [Hs|Hs]; rewrite Hs.
  - left. apply scan_tree_sound in Hs; [|done]. destruct Hs as [_ _ _ _ -> _ _ _ _].
    rewrite (right_id_L ∅ (∪)). by eexists _, _.
  - right. eexists. split; [done|]. intros (_ & _ & Hlarge).
    destruct (Hall (max_cached_directories c - count)) as [r' Hr2]; [lia|]. unfold scan in Hr2. congruence.
Qed.

Lemma stage_replacements_cases candidates count b :
  room candidates count b →
  (∃ staged b', stage_replacements env limits c d candidates count b = Ok (staged, b')) ∨
  (∃ reason, stage_replacements env limits c d candidates count b = full reason ∧ ¬ cacheable).
Proof.
  revert count b. induction candidates as [|k ks IH]; intros count b [Ha Hn Hc Hs Hb He].
  { left. by eexists [], _. }
  cbn [stage_replacements]. rewrite check_in_time. cbn [io result_map_err]. rewrite bind_of_Ok.
  apply antichain_cons in Ha as [Hk Ha]. destruct (Hn k) as (H1 & H2 & H3); [set_solver|].
  rewrite fmap_cons, usage_sum_cons in He. pose proof (totals_nonneg ks) as Hks.
  rewrite subtrees_cons, size_union in Hs.
  2:{ intros q Hq (r & Hr & Hpre & Hq')%elem_of_subtrees.
      apply (apart_subtrees new k r (Hk r Hr) q Hq). by apply elem_of_subtree. }
  destruct (stage_replacement_cases k count (mkScanBudget (budget_entries b) (S (checks b))))
    as [(replacement & b1 & -> & Hdom & Hb1)|(reason & -> & ?)];
    [done..|lia|done|cbn; usage_lia| |right; eauto]. step_ok.
  unfold full_unless.
  assert (size replacement = size (subtree new k)) as ->
    by (by rewrite <-Hdom, (size_dom (D := gset Path))).
  pose proof new_size. pose proof (total_nonneg k).
  assert (checked_add usize_max count (Z.of_nat (size (subtree new k))) =
          Some (count + Z.of_nat (size (subtree new k)))) as ->
    by (apply checked_add_Some; split; [done|unfold usize_max, u64_max in *; lia]).
  step_ok. destruct (IH (count + Z.of_nat (size (subtree new k))) b1)
    as [(staged & b2 & ->)|(reason & -> & ?)].
  - cbn [budget_entries] in Hb1. split; [done|set_solver|lia|lia|usage_lia|usage_lia].
  - left. step_ok. by eexists _, _.
  - right. eauto.
Qed.

Lemma delta_sums staged q :
  (∀ s, s ∈ staged → total_at s.2 s.1 = total_at new s.1) →
  let above := filter (strictly_below q) staged.*1 in
  strict_delta (nodes c) staged q =
  delta_between (usage_sum (total_at (nodes c) <$> above)) (usage_sum (total_at new <$> above)).
Proof.
  induction staged as [|s staged IH]; intros Hs; [done|]. cbv zeta. rewrite fmap_cons, filter_cons.
  unfold strict_delta. rewrite fmap_cons, usage_sum_cons. fold (strict_delta (nodes c) staged q).
  rewrite IH by (intros; apply Hs; set_solver). cbv zeta.
  case_decide; [|by rewrite usage_add_0_l]. rewrite !fmap_cons, !usage_sum_cons.
  unfold delta_of, delta_between. rewrite Hs by set_solver. usage_lia.
Qed.

(** The changes of disjoint subtrees never leave the range of an [i128]. *)
Lemma delta_in_range staged q :
  staged_ok (nodes c) staged →
  (∀ s, s ∈ staged → total_at s.2 s.1 = total_at new s.1 ∧ is_Some (new !! s.1)) →
  in_i128 (strict_delta (nodes c) staged q).
Proof.
  intros Hok Hs. rewrite delta_sums by naive_solver. cbv zeta.
  set (above := filter (strictly_below q) staged.*1).
  assert (Ha : antichain above).
  { destruct (staged_apart _ _ Hok) as [Hn Hap]. split; [by apply NoDup_filter|].
    intros p r [_ Hp]%list_elem_of_filter [_ Hr]%list_elem_of_filter. by apply Hap. }
  assert (Hin : ∀ p, p ∈ above → ∃ s, s ∈ staged ∧ p = s.1).
  { intros p [_ (s & -> & ?)%list_elem_of_fmap]%list_elem_of_filter. eauto. }
  destruct (antichain_within (nodes c) above) as (rest & Hr & Hn & Ht); [apply c_ok..|done| |].
  { intros p (s & Hin' & ->)%Hin. by apply (staged_nodes _ _ Hok). }
  destruct (antichain_within new above) as (rest' & Hr' & Hn' & Ht');
    [apply new_tree|apply new_bounded|done| |].
  { intros p (s & Hin' & ->)%Hin. by apply Hs. }
  assert (Hf : ∀ ns, tree_ok [] ns → tree_bounded ns → usage_fits (total_at ns [])).
  { intros ns Hns Hb. destruct (tree_root _ _ Hns) as [x Hx]. unfold total_at. rewrite Hx.
    by apply (Hb _ _ Hx). }
  pose proof (Hf _ (cache_tree _ c_ok) (cache_bounded _ c_ok)) as Hf1.
  pose proof (Hf _ new_tree new_bounded) as Hf2. rewrite Ht in Hf1. rewrite Ht' in Hf2.
  assert (i128_max = 2 ^ 127 - 1 ∧ u64_max = 2 ^ 64 - 1) as [H1 H2] by done.
  unfold in_i128, delta_between. cbn [logical_bytes physical_bytes usage_entries]. usage_lia.
Qed.

Lemma commit_cases staged :
  staged_ok (nodes c) staged → committed (nodes c) staged new →
  (∀ s, s ∈ staged → total_at s.2 s.1 = total_at new s.1 ∧ is_Some (new !! s.1)) →
  (∃ u c', commit_replacements limits c staged = Ok (u, c')) ∨
  (∃ reason, commit_replacements limits c staged = full reason ∧ ¬ cacheable).
Proof.
  intros Hok Hcom Hs.
  destruct (commit_replacements_complete limits c staged new) as [?|(reason & ? & Hlarge)]; try done;
    [..|by left|right; exists reason; split; [done|]; intros (_ & _ & ?); lia].
  - apply c_ok.
  - apply c_ok.
  - intros q some [rest ->]. apply delta_in_range; [eapply staged_ok_before; [apply c_ok..|done]|].
    intros s Hin. apply Hs. set_solver.
  - intros q [x Hx]. destruct (decide (Exists (λ s, strictly_below q s.1) staged)) as [He|He].
    + apply Exists_exists in He as (s & Hin & Hq).
      pose proof (committed_outside _ _ _ Hcom q) as Hout.
      rewrite Hx in Hout.
      assert (total_at (nodes c) q = total x) as -> by (unfold total_at; by rewrite Hx).
      assert (Hnew : new !! q = Some (retotal (nodes c) staged q x))
        by (apply Hout; by eapply above_not_covered).
      destruct (new_bounded _ _ Hnew) as (_ & H1 & H2). exact (conj H1 H2).
    + rewrite (strict_delta_none (nodes c)), usage_add_0_r by done. unfold total_at. rewrite Hx.
      by apply (cache_bounded _ c_ok) in Hx as (_ & ? & ?).
  - apply new_size.
  - unfold total_at, new. by rewrite dir_nodes_root.
Qed.

Lemma plan_cases changed :
  (∃ candidates b, plan_candidates env limits c d changed (mkScanBudget 0 0) = Ok (candidates, b) ∧
     room candidates 0 b) ∨
  (∃ reason, plan_candidates env limits c d changed (mkScanBudget 0 0) = full reason ∧
     ¬ usable changed).
Proof.
  unfold plan_candidates.
  destruct (find_candidates_cases changed (mkScanBudget 0 0))
    as [(found & b & Hfound & Hnew & Hb)|(reason & -> & ?)]; [left|right; by exists reason].
  rewrite Hfound. step_ok. eexists _, _. split; [done|].
  apply find_candidates_sound in Hfound. destruct (deduplicate_ok found) as (Ha & _ & Hin).
  set (ks := deduplicate _) in *.
  assert (Hks : ∀ k, k ∈ ks → is_Some (nodes c !! k) ∧ is_Some (new !! k) ∧ k ≠ []).
  { intros k Hk%Hin. rewrite Forall_forall in Hnew. split; [|split; [by apply Hnew|]];
      apply list_elem_of_lookup in Hk as [i Hi];
      by destruct (Forall2_lookup_r _ _ _ _ _ Hfound Hi) as (p & _ & _ & ? & ?). }
  destruct (antichain_within new ks) as (rest & Hr & _ & Ht);
    [apply new_tree|apply new_bounded|done|naive_solver|].
  split; try done.
  - apply inj_le. rewrite <-(size_dom (D := gset Path)). apply subseteq_size.
    intros q (p & _ & _ & Hq)%elem_of_subtrees. by apply elem_of_dom.
  - by rewrite Hb.
  - rewrite Hb. cbn [budget_entries].
    assert (total_at new [] = dir_total st d) as Hroot
      by (unfold total_at, new; by rewrite dir_nodes_root).
    rewrite Hroot in Ht. rewrite Ht in d_entries. usage_lia.
Qed.

(** It fails only by asking for a full scan, and only for paths it cannot start
    from or a directory it cannot cache. *)
Lemma reconcile_cases changed :
  named_env env → reported (nodes c) new changed →
  (∃ u c', reconcile env limits c (target_generation c) changed = Ok (u, c')) ∨
  (∃ reason, reconcile env limits c (target_generation c) changed = full reason ∧
     ¬ (usable changed ∧ cacheable)).
Proof.
  intros Hn Hrep. unfold reconcile, full_unless.
  rewrite bool_decide_eq_false_2 by naive_solver. rewrite (quiet_open_root _ _ _ quiet).
  cbn [io result_map_err]. rewrite bind_of_Ok. cbv beta iota.
  case_bool_decide as Hidentity; [right; eexists; split; [done|]; by intros (_ & ? & _)|].
  assert (c_identity : root_identity c = identity_from_stat st)
    by (destruct (decide (root_identity c = identity_from_stat st)); [done|by destruct Hidentity]).
  destruct (tree_root _ _ (cache_tree _ c_ok)) as [x Hx]. rewrite Hx. step_ok.
  case_bool_decide as Hne; [left; by eexists _, _|].
  destruct (plan_cases changed) as [(ks & b & Hplan & Hroom)|(reason & -> & ?)];
    [|right; exists reason; split; [done|]; by intros [? _]]. rewrite Hplan. step_ok.
  destruct (stage_replacements_cases ks 0 b Hroom) as [(staged & b' & Hstage)|(reason & -> & ?)];
    [|right; exists reason; split; [done|]; by intros [_ ?]].
  rewrite Hstage. step_ok. unfold read_root_identity. rewrite (quiet_open_root _ _ _ quiet).
  rewrite bind_of_Ok. cbv beta iota. cbn [io result_map_err].
  rewrite bind_of_Ok, bool_decide_eq_false_2 by naive_solver.
  assert (Hg : budget_good limits b).
  { destruct Hroom as [_ _ _ _ H1 H2]. pose proof (totals_nonneg ks).
    unfold budget_good. usage_lia. }
  destruct (staged_from_ok env limits c d ks changed (mkScanBudget 0 0) b staged b b')
    as [Hok Hfrom]; [done| |lia|done..|].
  { destruct (serves_down _ _ _ quiet 0%nat [] st d eq_refl) as [Ho _]. by eapply Hn. }
  apply stage_replacements_sound in Hstage as [Hks _]; [|done].
  destruct (committed_exists (nodes c) (cache_tree _ c_ok) (cache_bounded _ c_ok) staged Hok) as [ns' Hcom].
  assert (ns' = new) as -> by (eapply (committed_is_new env d st quiet new_proper); eassumption).
  enough (∀ s, s ∈ staged → total_at s.2 s.1 = total_at new s.1 ∧ is_Some (new !! s.1)) as Hst.
  { destruct (commit_cases staged Hok Hcom Hst) as [?|(reason & ? & ?)]; [by left|].
    right. exists reason. split; [done|]. by intros [_ ?]. }
  intros s Hs.
  assert (is_Some (nodes c !! s.1) ∧ is_Some (new !! s.1)) as [H1 H2].
  { split; apply (room_nodes _ _ _ Hroom); rewrite <-Hks; apply list_elem_of_fmap; eauto. }
  split; [|done]. rewrite Forall_forall in Hfrom. unfold total_at.
  by rewrite (quiet_staged env d st quiet new_proper limits c s) by (try apply c_ok; auto).
Qed.
End success.

(** The directory [d] holds still, is within the limits of the cache, and is
    the one that the cache [c] was made from. *)
Record reconcilable (env : DiskEnv) (limits : ScanLimits) (c : UsageTreeCache) (d : OpenDir)
    (st : Stat) : Prop := {
  scan_named : named_env env;
  scan_serves : serves env d st;
  scan_clock now : elapsed env now < timeout limits;
  scan_entries : 0 ≤ max_entries limits < u64_max;
  scan_steady : steady d;
  scan_alone names st' d' : names ≠ [] → descend names st d = Some (st', d') →
    identity_from_stat st' ≠ identity_from_stat st;
  scan_cache : cache_of limits c;
  scan_identity : root_identity c = identity_from_stat st;
  scan_room : Z.of_nat (size (dir_nodes [] st d)) ≤ max_cached_directories c;
}.

Lemma reconcile_agrees_or_full env limits c d st changed c' :
  reconcilable env limits c d st → reported (nodes c) (dir_nodes [] st d) changed →
  scan_full_bounded env limits (target_generation c) (max_cached_directories c) =
    Ok (Cached c') →
  reconcile env limits c (target_generation c) changed = Ok (cache_usage c', c') ∨
  (∃ reason, reconcile env limits c (target_generation c) changed = full reason) ∧
  ¬ usable c d st changed.
Proof.
  intros Hrc Hrep Hfull. pose proof Hrc as [Hn Hq Hclock He Hst Halone Hc Hid Hlarge].
  assert (Hm : 0 ≤ max_entries limits) by lia. pose proof (cache_of_ok _ _ Hm Hc) as Hok.
  destruct (serves_down _ _ _ Hq 0%nat [] st d eq_refl) as [_ Hf].
  apply (caching_scan_ok env limits d st) in Hfull as [(Hbl & Hr & _ & Hfit & Hent) ->];
    [|intros now; by destruct (serves_down _ _ _ Hq now [] st d eq_refl)|done|apply (serves_mode _ _ _ Hq)|done..].
  destruct (reconcile_cases env limits c d st) with (changed := changed)
    as [(u & c2 & H)|(reason & H & Hno)]; try done; [left|right].
  - rewrite H. pose proof (reconcile_ok _ _ _ _ _ _ _ Hn Hm Hok H) as (_ & _ & Hc2).
    apply (reconcile_exact env d st Hq) in H as [Hnodes ->]; [|by apply steady_proper|done|lia|done..].
    rewrite Hc2, Hnodes, <-Hid. destruct c. unfold cache_usage, set_with. cbn.
    by rewrite dir_nodes_root.
  - split; [eauto|]. intros Hu. by destruct Hno.
Qed.

Lemma reconcile_agrees env limits c d st changed c' :
  reconcilable env limits c d st → reported (nodes c) (dir_nodes [] st d) changed →
  usable c d st changed →
  scan_full_bounded env limits (target_generation c) (max_cached_directories c) =
    Ok (Cached c') →
  reconcile env limits c (target_generation c) changed = Ok (cache_usage c', c').
Proof.
  intros Hrc Hrep Hch Hfull.
  by destruct (reconcile_agrees_or_full _ _ _ _ _ _ _ Hrc Hrep Hfull) as [|[_ ?]].
Qed.

(** C9. On a disk that holds still, a partial reconciliation does what a full
    scan does, although it reads only the subtrees that were reported.  When
    the reported paths account for every directory whose own content changed
    since the cache was correct, and each of them lies in a directory below the
    root that is cached and still there, the reconciliation succeeds and leaves
    exactly the cache and the usage that a full scan of the same directory
    leaves. *)
Theorem reconcile_refines_full_scan env limits c d st changed c' :
  reconcilable env limits c d st → reported (nodes c) (dir_nodes [] st d) changed →
  usable c d st changed →
  scan_full_bounded env limits (target_generation c) (max_cached_directories c) =
    Ok (Cached c') →
  reconcile env limits c (target_generation c) changed = Ok (cache_usage c', c').
Proof. apply reconcile_agrees. Qed.

Lemma demo_find size name :
  find_sub name (entries_of (demo_root size)) =
  if bool_decide ("base" = name)
  then Some (mkStat 1 11 FileDirectory 8 4096, demo_base size) else None.
Proof. reflexivity. Qed.

Lemma demo_descend size names st d :
  names ≠ [] → descend names demo_root_stat (demo_root size) = Some (st, d) →
  names = ["base"] ∧ st = mkStat 1 11 FileDirectory 8 4096 ∧ d = demo_base size.
Proof.
  destruct names as [|name names]; [done|]. intros _. cbn [descend]. rewrite demo_find.
  case_bool_decide; [|done]. subst name.
  destruct names as [|name names]; [by intros [= <- <-]|]. by cbn [descend].
Qed.

Lemma demo_serves size : serves (demo_disk size) (demo_root size) demo_root_stat.
Proof.
  split; [done| |].
  - intros now names st d Hd. destruct (decide (names = [])) as [->|Hne].
    + cbn in Hd. by simplify_eq.
    + by apply demo_descend in Hd as (-> & -> & ->).
  - intros now names Hd. exists NOENT. split; [|done]. cbn.
    rewrite !bool_decide_eq_false_2; [done|..]; by intros ->.
Qed.

Lemma demo_nodes size q :
  q ≠ [Normal "base"] → q ≠ [] →
  dir_nodes [] demo_root_stat (demo_root size) !! q = None.
Proof.
  intros Hq Hne. pose proof (proj1 steady_proper _ (demo_steady size)) as Hp.
  apply eq_None_not_Some. intros Hs.
  destruct (tree_path_names _ q (proj1 dir_nodes_tree _ _ _ Hp) Hs) as [names ->].
  apply (descend_root names []) in Hs as [[st d] Hd]; [|done].
  apply demo_descend in Hd as (-> & _); [done|by intros ->].
Qed.

Lemma demo_differs q :
  outline <$> nodes demo_cache !! q ≠
  outline <$> dir_nodes [] demo_root_stat (demo_root 7000) !! q → q = [Normal "base"].
Proof.
  intros Hq. destruct (decide (q = [Normal "base"])) as [|Hn]; [done|]. destruct Hq.
  destruct (decide (q = [])) as [->|Hne]; [by vm_compute|].
  cbn [demo_cache nodes]. by rewrite !demo_nodes.
Qed.

Lemma demo_reported :
  reported (nodes demo_cache) (dir_nodes [] demo_root_stat (demo_root 7000)) [[Normal "base"]].
Proof. intros q ->%demo_differs. eexists. by split; [apply list_elem_of_singleton|]. Qed.

Definition demo_after : UsageTreeCache :=
  mkUsageTreeCache (mkRootIdentity 1 10) "g" 10 (dir_nodes [] demo_root_stat (demo_root 7000)).

Lemma demo_after_usage : cache_usage demo_after = mkUsage 7003 20480 3.
Proof. vm_compute. reflexivity. Qed.

Lemma demo_after_scanned :
  scan_full_bounded (demo_disk 7000) demo_limits "g" 10 = Ok (Cached demo_after).
Proof. vm_compute. reflexivity. Qed.

Lemma demo_changed :
  usable demo_cache (demo_root 7000) demo_root_stat [[Normal "base"]].
Proof.
  constructor; [|constructor]. split; [reflexivity|].
  exists [Normal "base"]. split_and!; [done|done|vm_compute; eauto..].
Qed.

Lemma demo_reconcilable :
  reconcilable (demo_disk 7000) demo_limits demo_cache (demo_root 7000) demo_root_stat.
Proof.
  split.
  - apply demo_named.
  - apply demo_serves.
  - intros now. cbn [elapsed demo_disk timeout demo_limits].
    pose proof (Z.mod_pos_bound (Z.of_nat now) 7). lia.
  - vm_compute. by split.
  - apply demo_steady.
  - by intros names st' d' Hne (-> & -> & _)%demo_descend.
  - apply demo_scanned.
  - reflexivity.
  - vm_compute. by intros [=].
Qed.

Lemma reconcile_refines_full_scan_witness :
  reconcile (demo_disk 7000) demo_limits demo_cache "g" [[Normal "base"]] =
  Ok (mkUsage 7003 20480 3, demo_after).
Proof.
  rewrite <-demo_after_usage.
  apply (reconcile_refines_full_scan (demo_disk 7000) demo_limits demo_cache (demo_root 7000)
           demo_root_stat [[Normal "base"]] demo_after).
  - apply demo_reconcilable.
  - apply demo_reported.
  - apply demo_changed.
  - apply demo_after_scanned.
Defined.
