(* ===== verification/Watcher.v ===== *)
(** * Watching the data directories for changes

    Models [server/disk/soft/watcher/]: events of the inotify backend mark the
    directories of an instance dirty, a scan captures what is dirty and
    acknowledges it when it is done, and a watch that cannot be trusted is
    degraded and retried.  The backend itself ([notify::RecommendedWatcher]) is
    an environment that answers calls. *)
From stdpp Require Import sorting.
From S2P Require Import Prelude DiskScan UsageTree Reconcile.

Local Open Scope Z_scope.

(** ** Paths *)

Definition is_absolute (path : Path) : bool :=
  match path with RootDir :: _ => true | _ => false end.

(** [Path::parent] of the path whose components are given from the last one
    back. *)
Definition parent_of (reversed : Path) : option Path :=
  match reversed with
  | [] | RootDir :: _ => None
  | _ :: parent => Some parent
  end.

(** The loops that climb from a path to the first ancestor that is a key. *)
Fixpoint climb {A} (m : gmap Path A) (reversed : Path) : option (Path * A) :=
  match m !! reverse reversed with
  | Some a => Some (reverse reversed, a)
  | None =>
      match reversed with
      | [] | RootDir :: _ => None
      | _ :: parent => climb m parent
      end
  end.

Definition route_path (roots : gmap Path string) (event_path : Path) : option (string * Path) :=
  if negb (is_absolute event_path) then None
  else
    match climb roots (reverse event_path) with
    | Some (path, target_id) => Some (target_id, path)
    | None => None
    end.

Definition strip_prefix (root path : Path) : option Path :=
  if bool_decide (root `prefix_of` path) then Some (drop (length root) path) else None.

Definition safe_relative_parent (root event_path : Path) : option Path :=
  relative ← strip_prefix root event_path;
  if bool_decide (relative = []) then None
  else
    let parent := default [] (reverse <$> parent_of (reverse relative)) in
    if forallb (λ c, match c with Normal _ => true | _ => false end) parent
    then Some parent else None.

Definition nearest_recorded_ancestor {A} (paths : gmap Path A) (path : Path) : option Path :=
  fst <$> climb paths (reverse path).

Definition is_strict_descendant (path ancestor : Path) : bool :=
  bool_decide (path ≠ ancestor) && starts_with path ancestor.

Definition next_nonzero (value : Z) : Z :=
  let next := wrapping_add u64_max value 1 in
  if next =? 0 then 1 else next.

(** ** Targets *)

Inductive WatchHealth := Watching | Degraded.
#[export] Instance WatchHealth_eq_dec : EqDecision WatchHealth.
Proof. solve_decision. Defined.

Inductive RecursiveWatchInstall := Installed | FailedCleanly | BackendContaminated.
#[export] Instance RecursiveWatchInstall_eq_dec : EqDecision RecursiveWatchInstall.
Proof. solve_decision. Defined.

(** Durations and instants are in nanoseconds. *)
Record RetryPolicy := mkRetryPolicy { initial : Z; maximum : Z }.

Definition delay (p : RetryPolicy) (attempts : Z) : Z :=
  let multiplier := Z.shiftl 1 (Z.min attempts 16) in
  Z.min (sat_mul duration_max (initial p) multiplier) (maximum p).

(** [TargetState] of the watcher. *)
Record WatchedTarget := mkWatchedTarget {
  fingerprint : string;
  root : Path;
  registration_generation : Z;
  watch_generation : Z;
  full_generation : option Z;
  dirty_paths : gmap Path Z;
  acknowledged_global_generation : Z;
  health : WatchHealth;
  health_generation : Z;
  retry_attempts : Z;
  retry_at : Z;
}.
#[export] Instance WatchedTarget_eta : Settable WatchedTarget :=
  λ t, mkWatchedTarget (fingerprint t) (root t) (registration_generation t) (watch_generation t)
         (full_generation t) (dirty_paths t) (acknowledged_global_generation t) (health t)
         (health_generation t) (retry_attempts t) (retry_at t).

Definition next_generation (t : WatchedTarget) : WatchedTarget :=
  t <| watch_generation := next_nonzero (watch_generation t) |>.

Definition mark_full (t : WatchedTarget) : WatchedTarget :=
  let t := next_generation t in
  t <| full_generation := Some (watch_generation t) |> <| dirty_paths := ∅ |>.

Definition mark_dirty_path (maximum_paths : Z) (relative_directory : Path) (t : WatchedTarget) :
    WatchedTarget :=
  let t := next_generation t in
  let generation := watch_generation t in
  match full_generation t with
  | Some _ => t <| full_generation := Some generation |>
  | None =>
      match nearest_recorded_ancestor (dirty_paths t) relative_directory with
      | Some ancestor => t <| dirty_paths ::= <[ancestor := generation]> |>
      | None =>
          let kept :=
            filter (λ kv, is_strict_descendant kv.1 relative_directory = false) (dirty_paths t) in
          let t := t <| dirty_paths := <[relative_directory := generation]> kept |> in
          if maximum_paths <? Z.of_nat (size (dirty_paths t))
          then t <| dirty_paths := ∅ |> <| full_generation := Some generation |>
          else t
      end
  end.

Definition degrade (now : Z) (policy : RetryPolicy) (t : WatchedTarget) : WatchedTarget :=
  t <| health := Degraded |>
    <| health_generation := next_nonzero (health_generation t) |>
    <| retry_at := now + delay policy (retry_attempts t) |>
    <| retry_attempts := sat_add u32_max (retry_attempts t) 1 |>.

Definition needs_full_reconcile (global : Z) (t : WatchedTarget) : bool :=
  bool_decide (is_Some (full_generation t))
  || negb (acknowledged_global_generation t =? global).

Definition pending (global : Z) (t : WatchedTarget) : bool :=
  bool_decide (is_Some (full_generation t)) || negb (bool_decide (dirty_paths t = ∅))
  || negb (global =? acknowledged_global_generation t).

(** ** Shared state *)

Record WatchState := mkWatchState {
  targets : gmap string WatchedTarget;
  roots : gmap Path string;
  changed_targets : gset string;
  global_change_pending : bool;
  next_registration_generation : Z;
}.
#[export] Instance WatchState_eta : Settable WatchState :=
  λ s, mkWatchState (targets s) (roots s) (changed_targets s) (global_change_pending s)
         (next_registration_generation s).

Record WatchShared := mkWatchShared {
  watch_state : WatchState;
  maximum_dirty_paths : Z;
  maximum_pending_targets : Z;
  retry_policy : RetryPolicy;
  global_generation : Z;
  backend_rebuild_requested : bool;
  change_sequence : Z;
}.
#[export] Instance WatchShared_eta : Settable WatchShared :=
  λ s, mkWatchShared (watch_state s) (maximum_dirty_paths s) (maximum_pending_targets s)
         (retry_policy s) (global_generation s) (backend_rebuild_requested s) (change_sequence s).

Definition signal_change (s : WatchShared) : WatchShared :=
  s <| change_sequence ::= λ n, wrapping_add u64_max n 1 |>.

Definition enqueue_global_change (s : WatchShared) : WatchShared :=
  s <| watch_state ::= λ st,
        st <| global_change_pending := true |> <| changed_targets := ∅ |>
           <| targets ::= fmap mark_full |> |>
    <| global_generation ::= λ n, wrapping_add u64_max n 1 |>.

Definition enqueue_target_change (target_id : string) (s : WatchShared) : WatchShared :=
  if global_change_pending (watch_state s) then s
  else
    let s := s <| watch_state ::= λ st, st <| changed_targets ::= union {[target_id]} |> |> in
    if maximum_pending_targets s <? Z.of_nat (size (changed_targets (watch_state s)))
    then enqueue_global_change s else s.

Definition force_full_all (s : WatchShared) : WatchShared :=
  signal_change (enqueue_global_change s).

Definition degrade_all (now : Z) (s : WatchShared) : WatchShared :=
  let s := s <| backend_rebuild_requested := true |> in
  let s := s <| watch_state ::= λ st, st <| targets ::= fmap (degrade now (retry_policy s)) |> |> in
  signal_change (enqueue_global_change s).

(** What is used of [notify::Event]: its kind, whether it asks for a rescan,
    and its paths. *)
Inductive EventKind :=
  | EventAny | EventAccess | EventCreate | EventModifyName | EventModify | EventRemove | EventOther.
#[export] Instance EventKind_eq_dec : EqDecision EventKind.
Proof. solve_decision. Defined.

Record Event := mkEvent { kind : EventKind; need_rescan : bool; paths : list Path }.

Definition root_watch_may_be_lost (k : EventKind) : bool :=
  bool_decide (k = EventRemove ∨ k = EventModifyName).

(** What the event at one path does to the target it belongs to. *)
Definition mark_event (s : WatchShared) (now : Z) (k : EventKind) (root event_path : Path)
    (t : WatchedTarget) : WatchedTarget :=
  if bool_decide (event_path = root)
  then
    let t := mark_full t in
    if root_watch_may_be_lost k then degrade now (retry_policy s) t else t
  else
    match safe_relative_parent root event_path with
    | None => mark_full t
    | Some relative_directory => mark_dirty_path (maximum_dirty_paths s) relative_directory t
    end.

(** One turn of the loop over the paths of an event. *)
Definition handle_path (now : Z) (k : EventKind) (s : WatchShared) (changed : gset string)
    (event_path : Path) : WatchShared * gset string :=
  match route_path (roots (watch_state s)) event_path with
  | None => (s, changed)
  | Some (target_id, root) =>
      match targets (watch_state s) !! target_id with
      | None => (s, changed)
      | Some target =>
          (s <| watch_state ::= λ st,
                st <| targets ::= <[target_id := mark_event s now k root event_path target]> |> |>,
           {[target_id]} ∪ changed)
      end
  end.

Fixpoint handle_paths (now : Z) (k : EventKind) (s : WatchShared) (changed : gset string)
    (event_paths : list Path) : WatchShared * gset string :=
  match event_paths with
  | [] => (s, changed)
  | event_path :: event_paths =>
      let '(s, changed) := handle_path now k s changed event_path in
      handle_paths now k s changed event_paths
  end.

(** [None] is an error of the backend. *)
Definition handle_callback (now : Z) (result : option Event) (s : WatchShared) : WatchShared :=
  match result with
  | None => degrade_all now s
  | Some event =>
      if need_rescan event then force_full_all s
      else if bool_decide (kind event = EventAccess ∨ kind event = EventOther) then s
      else if bool_decide (paths event = []) then force_full_all s
      else
        let '(s, changed) := handle_paths now (kind event) s ∅ (paths event) in
        let s := foldr enqueue_target_change s (elements changed) in
        if bool_decide (changed = ∅) then s else signal_change s
  end.

(** ** Capturing and acknowledging *)

Record DirtyBatch := mkDirtyBatch {
  batch_target : string;
  batch_fingerprint : string;
  batch_registration : Z;
  batch_generation : Z;
  batch_global : Z;
  relative_paths : list Path;
  full_reconcile : bool;
  watcher_active : bool;
}.

Definition path_le (p q : Path) : Prop := path_compare p q ≠ Gt.
#[export] Instance path_le_dec p q : Decision (path_le p q).
Proof. unfold path_le. apply _. Defined.

Definition capture (target_id : string) (s : WatchShared) : option DirtyBatch :=
  let global := global_generation s in
  target ← targets (watch_state s) !! target_id;
  if negb (pending global target) then None
  else
    let full := needs_full_reconcile global target in
    Some (mkDirtyBatch target_id (fingerprint target) (registration_generation target)
            (watch_generation target) global
            (if full then [] else merge_sort path_le (map_to_list (dirty_paths target)).*1)
            full (bool_decide (health target = Watching))).

Definition settle (b : DirtyBatch) (t : WatchedTarget) : WatchedTarget :=
  t <| dirty_paths ::= filter (λ kv, batch_generation b < kv.2) |>
    <| full_generation :=
         match full_generation t with
         | Some g => if g <=? batch_generation b then None else Some g
         | None => None
         end |>
    <| acknowledged_global_generation ::= λ g, Z.max g (batch_global b) |>.

Definition acknowledge (b : DirtyBatch) (s : WatchShared) : bool * WatchShared :=
  match targets (watch_state s) !! batch_target b with
  | None => (false, s)
  | Some target =>
      if bool_decide (fingerprint target ≠ batch_fingerprint b ∨
                      registration_generation target ≠ batch_registration b)
      then (false, s)
      else (true, s <| watch_state ::= λ st,
                        st <| targets ::= <[batch_target b := settle b target]> |> |>)
  end.

Record TargetWatchStatus := mkTargetWatchStatus {
  status_health : WatchHealth;
  status_registration : Z;
  pending_change : bool;
  status_full_reconcile_pending : bool;
  dirty_directory_count : Z;
}.

Definition status (target_id : string) (s : WatchShared) : option TargetWatchStatus :=
  let global := global_generation s in
  target ← targets (watch_state s) !! target_id;
  Some (mkTargetWatchStatus (health target) (registration_generation target)
          (pending global target) (needs_full_reconcile global target)
          (Z.of_nat (size (dirty_paths target)))).

Definition is_watching (target_id fp : string) (s : WatchShared) : bool :=
  match targets (watch_state s) !! target_id with
  | Some target => bool_decide (fingerprint target = fp) && bool_decide (health target = Watching)
  | None => false
  end.

Record WatcherChanges := mkWatcherChanges {
  sequence : Z;
  global_reconcile : bool;
  target_ids : list string;
}.

Definition drain_changes (s : WatchShared) : WatcherChanges * WatchShared :=
  let global := global_change_pending (watch_state s) in
  let ids := if global then [] else elements (changed_targets (watch_state s)) in
  (mkWatcherChanges (change_sequence s) global ids,
   s <| watch_state ::= λ st, st <| global_change_pending := false |> <| changed_targets := ∅ |> |>).

(** ** The backend *)

Inductive NotifyErrorKind := PathNotFound | WatchNotFound | OtherNotifyError.
#[export] Instance NotifyErrorKind_eq_dec : EqDecision NotifyErrorKind.
Proof. solve_decision. Defined.

(** What the outside answers to the [n]th call: the time, whether a backend can
    be created, and the results of [watch] and [unwatch]. *)
Record NotifyEnv := mkNotifyEnv {
  clock : nat → Z;
  creates : nat → bool;
  watches : nat → Path → result NotifyErrorKind unit;
  unwatches : nat → Path → result NotifyErrorKind unit;
}.

Record BackendState := mkBackendState {
  watcher : bool;
  backend_retry_attempts : Z;
  backend_retry_at : Z;
}.
#[export] Instance BackendState_eta : Settable BackendState :=
  λ b, mkBackendState (watcher b) (backend_retry_attempts b) (backend_retry_at b).

(** [calls] counts the calls to the outside. *)
Record SoftDiskWatcher := mkSoftDiskWatcher {
  shared : WatchShared;
  backend : BackendState;
  calls : nat;
}.
#[export] Instance SoftDiskWatcher_eta : Settable SoftDiskWatcher :=
  λ w, mkSoftDiskWatcher (shared w) (backend w) (calls w).

Inductive WatchRegistrationError := InvalidIdentity | InvalidRoot | RootCollision.

Record WatchRegistration := mkWatchRegistration {
  registration_status : WatchHealth;
  registration_changed : bool;
  full_reconcile_pending : bool;
}.

Record RetrySummary := mkRetrySummary {
  attempted : Z;
  restored : Z;
  still_degraded : Z;
  summary_backend_available : bool;
}.
#[export] Instance RetrySummary_eta : Settable RetrySummary :=
  λ r, mkRetrySummary (attempted r) (restored r) (still_degraded r) (summary_backend_available r).

Definition registration_result (t : WatchedTarget) (changed : bool) : WatchRegistration :=
  mkWatchRegistration (health t) changed (bool_decide (is_Some (full_generation t))).

Definition validate_registration (target_id fp : string) (root : Path) :
    result WatchRegistrationError unit :=
  if bool_decide (target_id = "" ∨ fp = "") then Err InvalidIdentity
  else if negb (is_absolute root)
          || existsb (λ c, match c with RootDir | Normal _ => false | _ => true end) root
  then Err InvalidRoot
  else Ok tt.

Definition unchanged_registration (target_id fp : string) (path : Path) (s : WatchShared) :
    result WatchRegistrationError (option WatchRegistration) :=
  let st := watch_state s in
  let collision :=
    match roots st !! path with
    | Some owner => if bool_decide (owner ≠ target_id) then Err RootCollision else Ok None
    | None => Ok None
    end in
  match targets st !! target_id with
  | Some existing =>
      if bool_decide (fingerprint existing = fp) && bool_decide (root existing = path)
      then Ok (Some (registration_result existing false)) else collision
  | None => collision
  end.

(** The target is removed and registered anew. *)
Definition replace_target_state (now : Z) (target_id fp : string) (path : Path) (s : WatchShared) :
    option Path * Z * WatchShared :=
  let st := watch_state s in
  let old_root := root <$> targets st !! target_id in
  let generation := next_nonzero (next_registration_generation st) in
  let target := mark_full (mkWatchedTarget fp path generation 0 None ∅ (global_generation s)
                             Degraded 0 0 now) in
  let s := s <| watch_state := st
      <| roots ::= λ rs,
           <[path := target_id]> (match old_root with Some r => delete r rs | None => rs end) |>
      <| changed_targets ::= λ c, c ∖ {[target_id]} |>
      <| next_registration_generation := generation |>
      <| targets ::= <[target_id := target]> |> |> in
  (old_root, generation, enqueue_target_change target_id s).

Definition finish_registration (target_id fp : string) (path : Path) (generation : Z)
    (watch_succeeded : bool) (now : Z) (s : WatchShared) :
    WatchRegistration * bool * WatchShared :=
  let stale := (mkWatchRegistration Degraded false false, watch_succeeded,
                enqueue_target_change target_id s) in
  match targets (watch_state s) !! target_id with
  | Some target =>
      if bool_decide (registration_generation target = generation)
         && bool_decide (fingerprint target = fp) && bool_decide (root target = path)
      then
        let target :=
          if watch_succeeded then target <| health := Watching |> <| retry_attempts := 0 |>
          else degrade now (retry_policy s) target in
        (registration_result target true, false,
         enqueue_target_change target_id
           (s <| watch_state ::= λ st, st <| targets ::= <[target_id := target]> |> |>))
      else stale
  | None => stale
  end.

Definition retire (target_id : string) (s : WatchShared) : option Path * WatchShared :=
  match targets (watch_state s) !! target_id with
  | None => (None, s)
  | Some target =>
      let s := s <| watch_state ::= λ st,
        st <| targets ::= delete target_id |> <| roots ::= delete (root target) |>
           <| changed_targets ::= λ c, c ∖ {[target_id]} |> |> in
      (Some (root target), signal_change (enqueue_target_change target_id s))
  end.

Section backend.
Context (env : NotifyEnv).

(** Every call to the outside gets the next answer. *)
Definition now (w : SoftDiskWatcher) : Z * SoftDiskWatcher :=
  (clock env (calls w), w <| calls ::= S |>).

Definition backend_watch (path : Path) (w : SoftDiskWatcher) :
    result NotifyErrorKind unit * SoftDiskWatcher :=
  (watches env (calls w) path, w <| calls ::= S |>).

Definition backend_unwatch (path : Path) (w : SoftDiskWatcher) :
    result NotifyErrorKind unit * SoftDiskWatcher :=
  (unwatches env (calls w) path, w <| calls ::= S |>).

Definition install_recursive_watch (path : Path) (w : SoftDiskWatcher) :
    RecursiveWatchInstall * SoftDiskWatcher :=
  let '(watched, w) := backend_watch path w in
  match watched with
  | Ok _ => (Installed, w)
  | Err watch_error =>
      let '(cleaned, w) := backend_unwatch path w in
      match cleaned with
      | Ok _ => (FailedCleanly, w)
      | Err cleanup_error =>
          (if bool_decide (watch_error = PathNotFound ∧ cleanup_error = WatchNotFound)
           then FailedCleanly else BackendContaminated, w)
      end
  end.

Definition abandon_backend (at_time : Z) (w : SoftDiskWatcher) : SoftDiskWatcher :=
  let w := w <| backend := mkBackendState false 0 at_time |> in
  let '(t, w) := now w in
  w <| shared ::= degrade_all t |>.

Definition ensure_backend (at_time : Z) (w : SoftDiskWatcher) : SoftDiskWatcher :=
  if watcher (backend w) || (at_time <? backend_retry_at (backend w)) then w
  else
    let created := creates env (calls w) in
    let w := w <| calls ::= S |> in
    if created then w <| backend := mkBackendState true 0 at_time |>
    else
      w <| backend ::= λ b,
        b <| backend_retry_at :=
               at_time + delay (retry_policy (shared w)) (backend_retry_attempts b) |>
          <| backend_retry_attempts := sat_add u32_max (backend_retry_attempts b) 1 |> |>.

Definition install_registration_watch (path : Path) (old_root : option Path) (at_time : Z)
    (w : SoftDiskWatcher) : bool * SoftDiskWatcher :=
  let '(outcome, w) :=
    if backend_rebuild_requested (shared w) then (FailedCleanly, w)
    else
      let '(stale_cleanup_failed, w) :=
        match watcher (backend w), old_root with
        | true, Some old_root =>
            let '(r, w) := backend_unwatch old_root w in (negb (is_ok r), w)
        | _, _ => (false, w)
        end in
      if stale_cleanup_failed then (BackendContaminated, w)
      else
        let w := ensure_backend at_time w in
        if watcher (backend w) then install_recursive_watch path w else (FailedCleanly, w) in
  let w := if bool_decide (outcome = BackendContaminated) then abandon_backend at_time w else w in
  (bool_decide (outcome = Installed), w).

Definition unwatch_or_abandon_backend (path : Path) (at_time : Z) (w : SoftDiskWatcher) :
    SoftDiskWatcher :=
  if watcher (backend w)
  then
    let '(r, w) := backend_unwatch path w in
    if is_ok r then w else abandon_backend at_time w
  else w.

Definition register (target_id fp : string) (path : Path) (w : SoftDiskWatcher) :
    result WatchRegistrationError WatchRegistration * SoftDiskWatcher :=
  match validate_registration target_id fp path with
  | Err e => (Err e, w)
  | Ok _ =>
      match unchanged_registration target_id fp path (shared w) with
      | Err e => (Err e, w)
      | Ok (Some unchanged) => (Ok unchanged, w)
      | Ok None =>
          let '(registered_at, w) := now w in
          let '(old_root, generation, s) :=
            replace_target_state registered_at target_id fp path (shared w) in
          let w := w <| shared := signal_change s |> in
          let '(at_time, w) := now w in
          let '(watch_succeeded, w) := install_registration_watch path old_root at_time w in
          let '(registration, stale_watch_installed, s) :=
            finish_registration target_id fp path generation watch_succeeded at_time (shared w) in
          let w := w <| shared := s |> in
          let w := if stale_watch_installed then unwatch_or_abandon_backend path at_time w
                   else w in
          (Ok registration, w <| shared ::= signal_change |>)
      end
  end.

Definition unwatch_retired (retired : Path) (w : SoftDiskWatcher) : SoftDiskWatcher :=
  if bool_decide (is_Some (roots (watch_state (shared w)) !! retired)) then w
  else
    let '(at_time, w) := now w in
    unwatch_or_abandon_backend retired at_time w.

(** ** Retrying degraded watches *)

Record RetryCandidate := mkRetryCandidate {
  candidate_target : string;
  candidate_fingerprint : string;
  candidate_registration : Z;
  candidate_health : Z;
  candidate_root : Path;
}.

Definition retry_candidates (at_time : Z) (st : WatchState) : list RetryCandidate :=
  omap (λ kv,
    if bool_decide (health kv.2 = Degraded) && (retry_at kv.2 <=? at_time)
    then Some (mkRetryCandidate kv.1 (fingerprint kv.2) (registration_generation kv.2)
                 (health_generation kv.2) (root kv.2))
    else None) (map_to_list (targets st)).

(** The outcome of retrying one watch. *)
Definition finish_retry (c : RetryCandidate) (succeeded : bool) (at_time : Z) (s : WatchShared) :
    bool * WatchShared :=
  match targets (watch_state s) !! candidate_target c with
  | None => (false, s)
  | Some target =>
      if bool_decide (fingerprint target ≠ candidate_fingerprint c ∨
                      registration_generation target ≠ candidate_registration c ∨
                      health_generation target ≠ candidate_health c)
      then (false, s)
      else
        let target :=
          if succeeded
          then mark_full (target <| health := Watching |> <| retry_attempts := 0 |>)
          else degrade at_time (retry_policy s) target in
        (succeeded, enqueue_target_change (candidate_target c)
           (s <| watch_state ::= λ st, st <| targets ::= <[candidate_target c := target]> |> |>))
  end.

Fixpoint retry_all (at_time : Z) (candidates : list RetryCandidate) (summary : RetrySummary)
    (w : SoftDiskWatcher) : RetrySummary * SoftDiskWatcher :=
  match candidates with
  | [] => (summary, w)
  | c :: candidates =>
      let summary := summary <| attempted ::= Z.add 1 |> in
      let '(outcome, w) :=
        if watcher (backend w) then install_recursive_watch (candidate_root c) w
        else (FailedCleanly, w) in
      if bool_decide (outcome = BackendContaminated)
      then (summary <| restored := 0 |>, abandon_backend at_time w)
      else
        let '(again, s) := finish_retry c (bool_decide (outcome = Installed)) at_time (shared w) in
        let summary := if again then summary <| restored ::= Z.add 1 |> else summary in
        retry_all at_time candidates summary (w <| shared := s |>)
  end.

Definition retry_degraded (w : SoftDiskWatcher) : RetrySummary * SoftDiskWatcher :=
  let '(at_time, w) := now w in
  let candidates := retry_candidates at_time (watch_state (shared w)) in
  let w :=
    if backend_rebuild_requested (shared w)
    then w <| shared ::= λ s, s <| backend_rebuild_requested := false |> |>
           <| backend ::= λ b, b <| watcher := false |> <| backend_retry_at := at_time |> |>
    else w in
  let w := ensure_backend at_time w in
  let '(summary, w) := retry_all at_time candidates (mkRetrySummary 0 0 0 false) w in
  let summary := summary <| summary_backend_available := watcher (backend w) |>
    <| still_degraded := Z.of_nat (length (filter (λ kv, health kv.2 = Degraded)
                           (map_to_list (targets (watch_state (shared w)))))) |> in
  (summary, if 0 <? attempted summary then w <| shared ::= signal_change |> else w).

Definition new_with_limits (maximum_dirty maximum_pending retry_initial retry_maximum : Z) :
    SoftDiskWatcher :=
  let policy := mkRetryPolicy retry_initial (Z.max retry_maximum retry_initial) in
  let s := mkWatchShared (mkWatchState ∅ ∅ ∅ false 0) (Z.max maximum_dirty 1)
             (Z.max maximum_pending 1) policy 0 false 0 in
  let at_time := clock env 0 in
  let b := if creates env 1 then mkBackendState true 0 at_time
           else mkBackendState false 1 (at_time + delay policy 0) in
  mkSoftDiskWatcher s b 2.
End backend.

(** ** Climbing *)

Lemma climb_Some {A} (m : gmap Path A) path a v :
  climb m (reverse path) = Some (a, v) → a `prefix_of` path ∧ m !! a = Some v.
Proof.
  assert (Hgo : ∀ reversed, climb m reversed = Some (a, v) →
    a `prefix_of` reverse reversed ∧ m !! a = Some v); [|intros H%Hgo; by rewrite reverse_involutive in H].
  induction reversed as [|x parent IH]; cbn [climb].
  - destruct (m !! _) eqn:E; [|done]. intros ?; by simplify_eq.
  - destruct (m !! reverse (x :: parent)) eqn:E; [intros ?; by simplify_eq|].
    intros H. assert (Hup : climb m parent = Some (a, v)) by by destruct x.
    apply IH in Hup as [Hp Hm]. split; [|done]. rewrite reverse_cons. by apply prefix_app_r.
Qed.

(** The loop finds the longest key, as long as it does not climb past the root
    of an absolute path. *)
Lemma climb_longest {A} (m : gmap Path A) path b :
  RootDir ∉ path → b `prefix_of` path → is_Some (m !! b) →
  ∃ a v, climb m (reverse path) = Some (a, v) ∧ b `prefix_of` a.
Proof.
  assert (Hgo : ∀ reversed, RootDir ∉ reversed → b `prefix_of` reverse reversed → is_Some (m !! b) →
    ∃ a v, climb m reversed = Some (a, v) ∧ b `prefix_of` a).
  { induction reversed as [|x parent IH]; intros Hr Hb Hm; cbn [climb].
    - apply prefix_nil_inv in Hb as ->. destruct Hm as [v Hv].
      change (reverse (@nil Component)) with (@nil Component). rewrite Hv. by eexists _, _.
    - destruct (m !! reverse (x :: parent)) eqn:E; [by eexists _, _|].
      assert (∃ a v, climb m parent = Some (a, v) ∧ b `prefix_of` a) as Hup.
      { apply IH; [set_solver| |done]. rewrite reverse_cons in Hb, E.
        apply prefix_snoc_inv in Hb as [->|Hb]; [|done]. by rewrite E in Hm; destruct Hm. }
      destruct x; [set_solver|done..]. }
  intros Hr Hb Hm. apply Hgo; [|by rewrite reverse_involutive|done]. by rewrite elem_of_reverse.
Qed.

(** ** What stays pending *)

(** A change in a target: the path below its root, and the generation it was
    given. *)
Record Report := mkReport {
  report_target : string;
  report_registration : Z;
  report_generation : Z;
  report_path : Path;
}.

(** The entry [path] is in the directory [dir] or below. *)
Definition within (dir path : Path) : Prop := ∃ d c, path = d ++ [c] ∧ dir `prefix_of` d.

Definition covers (t : WatchedTarget) (generation : Z) (path : Path) : Prop :=
  (∃ g, full_generation t = Some g ∧ generation ≤ g) ∨
  (∃ dir g, dirty_paths t !! dir = Some g ∧ generation ≤ g ∧ within dir path).

Definition normal (path : Path) : Prop :=
  Forall (λ c, match c with Normal _ => True | _ => False end) path.

Record watched_ok (maximum : Z) (t : WatchedTarget) : Prop := {
  ok_generation : 0 ≤ watch_generation t;
  ok_full g : full_generation t = Some g → g ≤ watch_generation t;
  ok_dirty dir g : dirty_paths t !! dir = Some g → g ≤ watch_generation t ∧ normal dir;
  ok_size : Z.of_nat (size (dirty_paths t)) ≤ maximum;
  ok_apart dir dir' : is_Some (dirty_paths t !! dir) → is_Some (dirty_paths t !! dir') →
    dir `prefix_of` dir' → dir = dir';
}.

(** [t'] is [t] after at most [k] more generations; whatever was pending still
    is. *)
Record evolves (k : Z) (t t' : WatchedTarget) : Prop := {
  evolves_registration : registration_generation t' = registration_generation t;
  evolves_fingerprint : fingerprint t' = fingerprint t;
  evolves_root : root t' = root t;
  evolves_generation : watch_generation t ≤ watch_generation t' ≤ watch_generation t + k;
  evolves_covers generation path :
    generation ≤ watch_generation t → covers t generation path → covers t' generation path;
}.

Lemma evolves_refl t : evolves 0 t t.
Proof. split; try done. lia. Qed.

Lemma evolves_trans k k' t1 t2 t3 : evolves k t1 t2 → evolves k' t2 t3 → evolves (k + k') t1 t3.
Proof.
  intros [H1 H2 H3 H4 H5] [I1 I2 I3 I4 I5]. split; [congruence..|lia|].
  intros g p Hg Hc. apply I5; [lia|]. by apply H5.
Qed.

Lemma evolves_more k k' t t' : k ≤ k' → evolves k t t' → evolves k' t t'.
Proof. intros Hk [H1 H2 H3 H4 H5]. split; try done. lia. Qed.

Lemma next_nonzero_succ n : 0 ≤ n < u64_max → next_nonzero n = n + 1.
Proof.
  intros Hn. unfold next_nonzero, wrapping_add. rewrite Z.mod_small by lia.
  rewrite (proj2 (Z.eqb_neq _ _)) by lia. done.
Qed.

Section marks.
Context (maximum : Z) (maximum_pos : 1 ≤ maximum).

(** A later generation of a full scan that is pending, or one that replaces the
    recorded directories. *)
Lemma mark_full_again t t' :
  watched_ok maximum t → registration_generation t' = registration_generation t →
  fingerprint t' = fingerprint t → root t' = root t →
  watch_generation t' = watch_generation t + 1 →
  full_generation t' = Some (watch_generation t') →
  dirty_paths t' = dirty_paths t ∨ dirty_paths t' = ∅ →
  watched_ok maximum t' ∧ evolves 1 t t' ∧ ∀ path, covers t' (watch_generation t') path.
Proof.
  intros [H1 H2 H3 H4 H5] Hr Hfp Hroot Hg Hf Hd. split_and!.
  - split; [lia|intros g; rewrite Hf; by intros [= <-]| | |].
    + intros dir g. destruct Hd as [->| ->]; [|by rewrite lookup_empty]. intros [? ?]%H3. split; [lia|done].
    + destruct Hd as [->| ->]; [done|]. rewrite map_size_empty. lia.
    + destruct Hd as [->| ->]; [done|]. intros dir dir' [? He]. by rewrite lookup_empty in He.
  - split; [done..|lia|]. intros generation path Hgen _. left. eexists. split; [done|lia].
  - intros path. left. eexists. split; [done|lia].
Qed.

Lemma mark_full_ok t :
  watched_ok maximum t → watch_generation t < u64_max →
  watched_ok maximum (mark_full t) ∧ evolves 1 t (mark_full t) ∧
  ∀ path, covers (mark_full t) (watch_generation (mark_full t)) path.
Proof.
  intros Hok Hg. pose proof (ok_generation _ _ Hok). apply mark_full_again; try done; [|by right].
  unfold mark_full, next_generation, set_with. cbn. apply next_nonzero_succ. lia.
Qed.

Lemma climb_None_prefix (m : gmap Path Z) path dir :
  normal path → climb m (reverse path) = None → is_Some (m !! dir) → ¬ dir `prefix_of` path.
Proof.
  intros Hn Hc Hm Hp. destruct (climb_longest m path dir) as (a & v & Ha & _); [|done..|congruence].
  intros Hr. unfold normal in Hn. rewrite Forall_forall in Hn. by specialize (Hn _ Hr).
Qed.

(** Recording a directory none of whose ancestors is recorded. *)
Definition recorded (dir : Path) (g : Z) (m : gmap Path Z) : gmap Path Z :=
  <[dir := g]> (filter (λ kv, is_strict_descendant kv.1 dir = false) m).

Lemma recorded_Some dir g m a g' :
  climb m (reverse dir) = None → normal dir →
  recorded dir g m !! a = Some g' ↔
  a = dir ∧ g' = g ∨ m !! a = Some g' ∧ apart a dir.
Proof.
  intros Hc Hn. unfold recorded. destruct (decide (a = dir)) as [->|Hne].
  - rewrite lookup_insert_eq. split; [by left; simplify_eq|]. intros [[_ ->]|[_ [[] _]]]; done.
  - rewrite lookup_insert_ne, map_lookup_filter_Some by done.
    unfold is_strict_descendant, starts_with. cbn. split.
    + intros [Hm Hd]. right. split; [done|]. rewrite bool_decide_eq_true_2 in Hd by done.
      apply bool_decide_eq_false in Hd. split; [|done]. by eapply climb_None_prefix.
    + intros [[? _]|[Hm [_ Hd]]]; [done|]. split; [done|].
      by rewrite (bool_decide_eq_false_2 (dir `prefix_of` a)), andb_false_r.
Qed.

Lemma within_up dir dir' path : dir' `prefix_of` dir → within dir path → within dir' path.
Proof. intros Hp (d & c & -> & Hd). exists d, c. split; [done|]. by etrans. Qed.

Lemma mark_recorded_ok dir t g :
  normal dir → watched_ok maximum t → g = watch_generation t + 1 → full_generation t = None →
  climb (dirty_paths t) (reverse dir) = None →
  let t' := t <| watch_generation := g |> <| dirty_paths := recorded dir g (dirty_paths t) |> in
  Z.of_nat (size (recorded dir g (dirty_paths t))) ≤ maximum →
  watched_ok maximum t' ∧ evolves 1 t t' ∧ ∀ path, within dir path → covers t' g path.
Proof.
  intros Hn [H1 H2 H3 H4 H5] -> Hf Hc t' Hsize. subst t'. unfold set_with. split_and!.
  - split; cbn; [lia|by rewrite Hf| |done|].
    + intros a g'. rewrite recorded_Some by done.
      intros [[-> ->]|[[? ?]%H3 _]]; split; try done; lia.
    + intros a a' [g1 Ha] [g2 Ha'] Hp. rewrite recorded_Some in Ha, Ha' by done.
      destruct Ha as [[-> _]|[Ha [A1 A2]]], Ha' as [[-> _]|[Ha' [B1 B2]]]; try done. eauto.
  - split; cbn; try done; [lia|]. intros generation path Hgen [(g' & ? & _)|(a & g' & Ha & Hg' & Hw)];
      [congruence|right]. cbn. destruct (decide (dir `prefix_of` a)) as [Hd|Hd].
    + exists dir, (watch_generation t + 1). split_and!; [|lia|by eapply within_up].
      apply recorded_Some; auto.
    + exists a, g'. split_and!; try done. apply recorded_Some; [done..|]. right. split; [done|].
      split; [|done]. by eapply climb_None_prefix.
  - intros path Hw. right. exists dir, (watch_generation t + 1). split_and!; [|done|done].
    apply recorded_Some; auto.
Qed.

Lemma mark_ancestor_ok a t g :
  watched_ok maximum t → g = watch_generation t + 1 → is_Some (dirty_paths t !! a) →
  let t' := t <| watch_generation := g |> <| dirty_paths ::= <[a := g]> |> in
  watched_ok maximum t' ∧ evolves 1 t t' ∧ ∀ path, within a path → covers t' g path.
Proof.
  intros [H1 H2 H3 H4 H5] -> [v Ha] t'. subst t'. unfold set_with.
  assert (Hin : ∀ b, is_Some (<[a := watch_generation t + 1]> (dirty_paths t) !! b) ↔
                     is_Some (dirty_paths t !! b)).
  { intros b. rewrite lookup_insert_is_Some. split; [|destruct (decide (a = b)); auto].
    intros [<-|[_ ?]]; eauto. }
  split_and!.
  - split; cbn; [lia|intros g Hg%H2; lia| | |].
    + intros b g. rewrite lookup_insert_Some. intros [[<- <-]|[_ [? ?]%H3]]; split; try lia; [|done].
      by apply H3 in Ha as [_ ?].
    + rewrite map_size_insert_Some by eauto. done.
    + intros b b'. rewrite !Hin. apply H5.
  - split; cbn; try done; [lia|]. intros generation path Hgen [(g' & ? & ?)|(b & g' & Hb & Hg' & Hw)].
    + left. eauto.
    + right. cbn. destruct (decide (b = a)) as [->|Hne].
      * exists a, (watch_generation t + 1). rewrite lookup_insert_eq. split_and!; [done|lia|done].
      * exists b, g'. by rewrite lookup_insert_ne.
  - intros path Hw. right. exists a, (watch_generation t + 1). cbn. by rewrite lookup_insert_eq.
Qed.

Lemma mark_dirty_path_ok dir t :
  normal dir → watched_ok maximum t → watch_generation t < u64_max →
  watched_ok maximum (mark_dirty_path maximum dir t) ∧ evolves 1 t (mark_dirty_path maximum dir t) ∧
  ∀ path, within dir path →
    covers (mark_dirty_path maximum dir t) (watch_generation (mark_dirty_path maximum dir t)) path.
Proof.
  intros Hn Hok Hg. pose proof Hok as [H1 H2 H3 H4 H5].
  unfold mark_dirty_path, next_generation. rewrite next_nonzero_succ by lia. cbv zeta.
  change (full_generation (t <| watch_generation := _ |>)) with (full_generation t).
  change (dirty_paths (t <| watch_generation := _ |>)) with (dirty_paths t).
  change (watch_generation (t <| watch_generation := ?g |>)) with g.
  destruct (full_generation t) as [g|] eqn:Ef.
  { match goal with |- watched_ok _ ?t' ∧ _ =>
      destruct (mark_full_again t t') as (? & ? & ?); [done|reflexivity..|by left|]; auto end. }
  unfold nearest_recorded_ancestor. destruct (climb _ _) as [[a v]|] eqn:Ec; cbn [fmap option_fmap option_map fst].
  - apply climb_Some in Ec as [Ha Hv].
    destruct (mark_ancestor_ok a t (watch_generation t + 1)) as (? & ? & Hc); [done..|eauto|].
    split_and!; [done..|]. intros path Hw. by eapply Hc, within_up.
  - case_match eqn:Hm; to_prop.
    + match goal with |- watched_ok _ ?t' ∧ _ =>
        destruct (mark_full_again t t') as (? & ? & ?); [done|reflexivity..|by right|]; auto end.
    + by apply mark_recorded_ok.
Qed.
End marks.

(** Nothing but the health of the target changes. *)
Lemma same_marks maximum t t' :
  watched_ok maximum t → registration_generation t' = registration_generation t →
  fingerprint t' = fingerprint t → root t' = root t →
  watch_generation t' = watch_generation t → full_generation t' = full_generation t →
  dirty_paths t' = dirty_paths t → watched_ok maximum t' ∧ evolves 0 t t'.
Proof.
  intros [H1 H2 H3 H4 H5] Hr Hfp Hroot Hg Hf Hd. split.
  - split; rewrite ?Hg, ?Hf, ?Hd; done.
  - split; rewrite ?Hg; try done; [lia|]. unfold covers. by rewrite Hf, Hd.
Qed.

Lemma degrade_ok maximum at_time policy t :
  watched_ok maximum t →
  watched_ok maximum (degrade at_time policy t) ∧ evolves 0 t (degrade at_time policy t).
Proof. intros H. by apply same_marks. Qed.

Lemma safe_relative_parent_within root event_path dir :
  safe_relative_parent root event_path = Some dir →
  normal dir ∧ within dir (drop (length root) event_path).
Proof.
  unfold safe_relative_parent, strip_prefix. case_bool_decide; [|done]. cbn.
  case_bool_decide as Hne; [done|]. destruct (forallb _ _) eqn:Hf; [|done]. intros [= Hd].
  assert (Hn : normal dir).
  { subst dir. apply Is_true_true_2, forallb_True in Hf. unfold normal.
    eapply Forall_impl; [done|]. by intros []. }
  split; [done|]. revert Hd Hne. generalize (drop (length root) event_path) as rel. clear.
  intros rel Hd Hne. destruct rel as [|c rel _] using rev_ind; [done|].
  rewrite reverse_snoc in Hd. exists rel, c. split; [done|]. destruct c; cbn in Hd; subst dir;
    rewrite ?reverse_involutive; try done. apply prefix_nil.
Qed.

Lemma mark_event_ok s at_time k path event_path t :
  1 ≤ maximum_dirty_paths s → watched_ok (maximum_dirty_paths s) t → watch_generation t < u64_max →
  let t' := mark_event s at_time k path event_path t in
  watched_ok (maximum_dirty_paths s) t' ∧ evolves 1 t t' ∧
  covers t' (watch_generation t') (drop (length path) event_path).
Proof.
  intros Hm Hok Hg. unfold mark_event. cbv zeta.
  pose proof (mark_full_ok _ Hm t Hok Hg) as (Hok' & Hev & Hcov).
  case_bool_decide; [case_match; [|by auto]|].
  - destruct (degrade_ok _ at_time (retry_policy s) _ Hok') as [? Hd]. split; [done|].
    split; [by apply (evolves_trans 1 0 _ (mark_full t))|]. apply Hcov.
  - destruct (safe_relative_parent path event_path) as [dir|] eqn:E; [|by auto].
    apply safe_relative_parent_within in E as [Hn Hw].
    destruct (mark_dirty_path_ok _ Hm dir t Hn Hok Hg) as (? & ? & Hc). auto.
Qed.

Lemma mark_dirty_path_generation maximum dir t :
  0 ≤ watch_generation t < u64_max →
  watch_generation (mark_dirty_path maximum dir t) = watch_generation t + 1.
Proof.
  intros Hg. rewrite <-(next_nonzero_succ _ Hg). unfold mark_dirty_path, next_generation, set_with.
  cbn. repeat case_match; done.
Qed.

Lemma mark_event_generation s at_time k path event_path t :
  0 ≤ watch_generation t < u64_max →
  watch_generation (mark_event s at_time k path event_path t) = watch_generation t + 1.
Proof.
  intros Hg. unfold mark_event.
  assert (watch_generation (mark_full t) = watch_generation t + 1) by by apply next_nonzero_succ.
  repeat case_match; try done. by apply mark_dirty_path_generation.
Qed.

(** ** Operations on the shared state *)

Record shared_ok (s : WatchShared) : Prop := {
  ok_maximum_dirty : 1 ≤ maximum_dirty_paths s;
  ok_maximum_pending : 1 ≤ maximum_pending_targets s;
  ok_targets id t : targets (watch_state s) !! id = Some t →
    watched_ok (maximum_dirty_paths s) t ∧
    registration_generation t ≤ next_registration_generation (watch_state s);
  ok_roots path id : roots (watch_state s) !! path = Some id ↔
    ∃ t, targets (watch_state s) !! id = Some t ∧ root t = path;
  ok_changed :
    Z.of_nat (size (changed_targets (watch_state s))) ≤ maximum_pending_targets s;
  ok_registrations : 0 ≤ next_registration_generation (watch_state s);
}.

Definition generations_below (n : Z) (s : WatchShared) : Prop :=
  ∀ id t, targets (watch_state s) !! id = Some t → watch_generation t ≤ n.

Record shared_evolves (k : Z) (s s' : WatchShared) : Prop := {
  same_maximum : maximum_dirty_paths s' = maximum_dirty_paths s;
  same_registrations :
    next_registration_generation (watch_state s') = next_registration_generation (watch_state s);
  targets_evolve id : option_Forall2 (evolves k) (targets (watch_state s) !! id)
    (targets (watch_state s') !! id);
}.

Lemma shared_evolves_refl s : shared_evolves 0 s s.
Proof.
  split; try done. intros id. destruct (targets (watch_state s) !! id); constructor. apply evolves_refl.
Qed.

Lemma shared_evolves_trans k k' s1 s2 s3 :
  shared_evolves k s1 s2 → shared_evolves k' s2 s3 → shared_evolves (k + k') s1 s3.
Proof.
  intros [M1 R1 T1] [M2 R2 T2]. split; [congruence..|]. intros id.
  specialize (T1 id). specialize (T2 id). inversion T1 as [t t' Ht E1 E2|E1 E2]; rewrite <-E2 in T2;
    inversion T2; constructor. by eapply evolves_trans.
Qed.

Lemma shared_evolves_more k k' s s' : k ≤ k' → shared_evolves k s s' → shared_evolves k' s s'.
Proof.
  intros Hk [M R T]. split; try done. intros id. destruct (T id); constructor. by eapply evolves_more.
Qed.

Lemma generations_evolve n k s s' :
  generations_below n s → shared_evolves k s s' → generations_below (n + k) s'.
Proof.
  intros Hn [_ _ T] id t Ht. specialize (T id). rewrite Ht in T.
  destruct (targets (watch_state s) !! id) as [t0|] eqn:E; inversion T as [? ? Hev|]; subst.
  apply Hn in E. destruct Hev as [_ _ _ Hg _]. lia.
Qed.

(** An operation that makes at most [k] generations keeps the state in order. *)
Definition keeps (k n : Z) (f : WatchShared → WatchShared) : Prop :=
  ∀ s, shared_ok s → generations_below n s → n + k ≤ u64_max →
    shared_ok (f s) ∧ shared_evolves k s (f s).

Lemma keeps_compose k k' n f g :
  0 ≤ k' → keeps k n f → keeps k' (n + k) g → keeps (k + k') n (λ s, g (f s)).
Proof.
  intros Hk' Hf Hg s Hs Hn Hmax. destruct (Hf s Hs Hn) as [Hs1 He1]; [lia|].
  destruct (Hg (f s) Hs1) as [Hs2 He2]; [by eapply generations_evolve|lia|].
  split; [done|]. by eapply shared_evolves_trans.
Qed.

(** Changing the targets, each in order. *)
Lemma change_targets k s ts :
  shared_ok s →
  (∀ id, option_Forall2 (λ t t', watched_ok (maximum_dirty_paths s) t' ∧ evolves k t t')
           (targets (watch_state s) !! id) (ts !! id)) →
  let s' := s <| watch_state ::= λ st, st <| targets := ts |> |> in
  shared_ok s' ∧ shared_evolves k s s'.
Proof.
  intros [H1 H2 H3 H4 H5 H6] Hts s'. subst s'. unfold set_with. split.
  - split; cbn; try done.
    + intros id t Ht. specialize (Hts id). rewrite Ht in Hts.
      destruct (targets (watch_state s) !! id) as [t0|] eqn:E; inversion Hts as [? ? [? He]|]; subst.
      split; [done|]. rewrite (evolves_registration _ _ _ He). by apply H3 in E as [_ ?].
    + intros path id. rewrite H4. specialize (Hts id).
      split; intros (t & Ht & <-); rewrite Ht in Hts; inversion Hts as [? ? [? He] E1 E2|];
        subst; eexists; (split; [done|]); [|symmetry]; apply He.
  - split; cbn; try done. intros id. destruct (Hts id) as [? ? [_ ?]|]; by constructor.
Qed.

Lemma change_target k s id t t' :
  shared_ok s → 0 ≤ k → targets (watch_state s) !! id = Some t →
  watched_ok (maximum_dirty_paths s) t' → evolves k t t' →
  let s' := s <| watch_state ::= λ st, st <| targets ::= <[id := t']> |> |> in
  shared_ok s' ∧ shared_evolves k s s'.
Proof.
  intros Hs Hk Ht Hok He. apply (change_targets k s (<[id := t']> (targets (watch_state s)))); [done|].
  intros id'. destruct (decide (id' = id)) as [->|Hne].
  - rewrite Ht, lookup_insert_eq. by constructor.
  - rewrite lookup_insert_ne by done. destruct (_ !! id') as [t0|] eqn:E; constructor.
    split; [by apply (ok_targets _ Hs) in E as [? _]|]. eapply evolves_more, evolves_refl. done.
Qed.

Lemma map_targets k n s f :
  shared_ok s → generations_below n s →
  (∀ t, watched_ok (maximum_dirty_paths s) t → watch_generation t ≤ n →
     watched_ok (maximum_dirty_paths s) (f t) ∧ evolves k t (f t)) →
  let s' := s <| watch_state ::= λ st, st <| targets ::= fmap f |> |> in
  shared_ok s' ∧ shared_evolves k s s'.
Proof.
  intros Hs Hn Hf. apply (change_targets k s (f <$> targets (watch_state s))); [done|].
  intros id. rewrite lookup_fmap. destruct (_ !! id) as [t|] eqn:E; constructor.
  apply Hf; [by apply (ok_targets _ Hs) in E as [? _]|by eapply Hn].
Qed.

(** Nothing but the counters and the queue of changed targets changes. *)
Lemma change_queue s s' :
  shared_ok s → maximum_dirty_paths s' = maximum_dirty_paths s →
  maximum_pending_targets s' = maximum_pending_targets s →
  targets (watch_state s') = targets (watch_state s) →
  roots (watch_state s') = roots (watch_state s) →
  next_registration_generation (watch_state s') = next_registration_generation (watch_state s) →
  Z.of_nat (size (changed_targets (watch_state s'))) ≤ maximum_pending_targets s →
  shared_ok s' ∧ shared_evolves 0 s s'.
Proof.
  intros [H1 H2 H3 H4 H5 H6] E1 E2 E3 E4 E5 E6. split.
  - split; rewrite ?E1, ?E2, ?E3, ?E4, ?E5; done.
  - split; [done..|]. intros id. rewrite E3. destruct (_ !! id); constructor. apply evolves_refl.
Qed.

Lemma enqueue_global_change_ok n : keeps 1 n enqueue_global_change.
Proof.
  intros s Hs Hn Hmax.
  destruct (map_targets 1 n s mark_full Hs Hn) as [Hs1 He1].
  { intros t Hok Hg. by destruct (mark_full_ok _ (ok_maximum_dirty _ Hs) t Hok) as (? & ? & _); [lia|]. }
  destruct (change_queue _ (enqueue_global_change s) Hs1) as [Hs2 He2]; [done..| |].
  { cbn. rewrite size_empty. pose proof (ok_maximum_pending _ Hs). lia. }
  split; [done|]. by apply (shared_evolves_trans 1 0 _ _ _ He1 He2).
Qed.

Lemma enqueue_target_change_ok n id : keeps 1 n (enqueue_target_change id).
Proof.
  intros s Hs Hn Hmax. unfold enqueue_target_change. cbv zeta. case_match.
  { split; [done|]. eapply shared_evolves_more, shared_evolves_refl. done. }
  case_match eqn:Hsize; to_prop; [exact (enqueue_global_change_ok n s Hs Hn Hmax)|].
  match goal with |- shared_ok ?s' ∧ _ =>
    destruct (change_queue s s' Hs) as [Hs2 He2]; [reflexivity..|exact Hsize|] end.
  split; [done|]. by eapply shared_evolves_more; [|exact He2].
Qed.

Lemma signal_change_ok n : keeps 0 n signal_change.
Proof. intros s Hs _ _. apply change_queue; try done. exact (ok_changed _ Hs). Qed.

Lemma keeps_more k k' n f : k ≤ k' → keeps k n f → keeps k' n f.
Proof.
  intros Hk Hf s Hs Hn Hmax. destruct (Hf s Hs Hn) as [? ?]; [lia|]. split; [done|].
  by eapply shared_evolves_more.
Qed.

Lemma force_full_all_ok n : keeps 1 n force_full_all.
Proof.
  apply (keeps_compose 1 0 n enqueue_global_change signal_change);
    [done|apply enqueue_global_change_ok|apply signal_change_ok].
Qed.

Lemma degrade_all_ok n at_time : keeps 1 n (degrade_all at_time).
Proof.
  intros s Hs Hn Hmax.
  destruct (map_targets 0 n s (degrade at_time (retry_policy s)) Hs Hn) as [Hs1 He1].
  { intros t Hok _. by apply degrade_ok. }
  match type of Hs1 with shared_ok ?s1 =>
    destruct (change_queue s1 (s1 <| backend_rebuild_requested := true |>) Hs1) as [Hs2 He2];
      [done..|exact (ok_changed _ Hs1)|] end.
  pose proof (shared_evolves_trans _ _ _ _ _ He1 He2) as He.
  destruct (force_full_all_ok n _ Hs2) as [Hs3 He3]; [|lia|].
  { rewrite <-(Z.add_0_r n). by eapply generations_evolve. }
  split; [exact Hs3|]. exact (shared_evolves_trans _ _ _ _ _ He He3).
Qed.

(** ** Reports *)

(** The change an event at one path reports. *)
Definition path_report (at_time : Z) (k : EventKind) (s : WatchShared) (event_path : Path) :
    list Report :=
  match route_path (roots (watch_state s)) event_path with
  | None => []
  | Some (id, path) =>
      match targets (watch_state s) !! id with
      | None => []
      | Some t => [mkReport id (registration_generation t)
                     (watch_generation (mark_event s at_time k path event_path t))
                     (drop (length path) event_path)]
      end
  end.

Fixpoint path_reports (at_time : Z) (k : EventKind) (s : WatchShared) (event_paths : list Path) :
    list Report :=
  match event_paths with
  | [] => []
  | event_path :: event_paths =>
      path_report at_time k s event_path ++
      path_reports at_time k (handle_path at_time k s ∅ event_path).1 event_paths
  end.

(** Everything below every root may have changed. *)
Definition all_changed (s : WatchShared) : list Report :=
  (λ kv, mkReport kv.1 (registration_generation kv.2) (watch_generation kv.2) []) <$>
    map_to_list (targets (watch_state s)).

Definition event_reports (at_time : Z) (result : option Event) (s : WatchShared) : list Report :=
  match result with
  | None => all_changed (handle_callback at_time result s)
  | Some event =>
      if need_rescan event then all_changed (handle_callback at_time result s)
      else if bool_decide (kind event = EventAccess ∨ kind event = EventOther) then []
      else if bool_decide (paths event = []) then all_changed (handle_callback at_time result s)
      else path_reports at_time (kind event) s (paths event)
  end.

(** How many generations an event makes at most. *)
Definition event_cost (result : option Event) : Z :=
  match result with None => 1 | Some event => Z.of_nat (length (paths event)) + 1 end.

(** The report [r] is pending in [s]. *)
Definition is_pending (s : WatchShared) (r : Report) : Prop :=
  ∀ t, targets (watch_state s) !! report_target r = Some t →
    registration_generation t = report_registration r →
    covers t (report_generation r) (report_path r) ∧ report_generation r ≤ watch_generation t.

(** The report [r] was made between [s] and [s']. *)
Definition news (s s' : WatchShared) (r : Report) : Prop :=
  is_pending s' r ∧
  ∃ t, targets (watch_state s) !! report_target r = Some t ∧
    registration_generation t = report_registration r ∧
    watch_generation t < report_generation r.

Lemma pending_evolves k s s' r : shared_evolves k s s' → is_pending s r → is_pending s' r.
Proof.
  intros [_ _ T] Hp t' Ht' Hr. specialize (T (report_target r)). rewrite Ht' in T.
  destruct (targets (watch_state s) !! report_target r) as [t|] eqn:E;
    inversion T as [? ? [R _ _ G C]|]; subst.
  destruct (Hp t E) as [Hc Hg]; [congruence|]. split; [by apply C|lia].
Qed.

Lemma news_after k s s' s'' r : shared_evolves k s' s'' → news s s' r → news s s'' r.
Proof. intros He [Hp Hn]. split; [by eapply pending_evolves|done]. Qed.

Lemma news_before k s s' s'' r : shared_evolves k s s' → news s' s'' r → news s s'' r.
Proof.
  intros [_ _ T] [Hp (t' & Ht' & Hr & Hg)]. split; [done|]. specialize (T (report_target r)).
  rewrite Ht' in T. destruct (targets (watch_state s) !! report_target r) as [t|];
    inversion T as [? ? [R _ _ G _]|]; subst. exists t. split_and!; [done|congruence|lia].
Qed.

(** A global change leaves everything pending. *)
Lemma global_change_news n s r :
  shared_ok s → generations_below n s → n + 1 ≤ u64_max →
  r ∈ all_changed (enqueue_global_change s) → news s (enqueue_global_change s) r.
Proof.
  intros Hs Hn Hmax (kv & -> & Hin)%list_elem_of_fmap. destruct kv as [id t'].
  apply elem_of_map_to_list in Hin. cbn [fst snd] in *.
  pose proof Hin as Hin'. cbn in Hin. rewrite lookup_fmap in Hin.
  apply fmap_Some in Hin as (t0 & E & ->). destruct (ok_targets _ Hs _ _ E) as [Hok _].
  pose proof (Hn _ _ E). pose proof (ok_generation _ _ Hok).
  destruct (mark_full_ok _ (ok_maximum_dirty _ Hs) t0 Hok) as (_ & _ & Hc); [lia|].
  assert (watch_generation (mark_full t0) = watch_generation t0 + 1) by (apply next_nonzero_succ; lia).
  split.
  - intros t Ht _. cbn [report_target report_generation report_path] in *. rewrite Hin' in Ht.
    injection Ht as <-. split; [apply Hc|done].
  - exists t0. cbn [report_target report_generation report_registration]. split_and!; [done|done|lia].
Qed.

Lemma handle_path_targets at_time k s changed changed' event_path :
  (handle_path at_time k s changed event_path).1 = (handle_path at_time k s changed' event_path).1.
Proof. unfold handle_path. repeat case_match; done. Qed.

Lemma handle_path_ok n at_time k event_path : keeps 1 n (λ s, (handle_path at_time k s ∅ event_path).1).
Proof.
  intros s Hs Hn Hmax. unfold handle_path.
  assert (shared_ok s ∧ shared_evolves 1 s s).
  { split; [done|]. eapply shared_evolves_more, shared_evolves_refl. done. }
  destruct (route_path _ _) as [[id path]|]; [|done].
  destruct (targets (watch_state s) !! id) as [t|] eqn:Ht; [|done]. cbn [fst].
  destruct (ok_targets _ Hs _ _ Ht) as [Hok _]. pose proof (Hn _ _ Ht).
  destruct (mark_event_ok s at_time k path event_path t) as (? & ? & _);
    [apply ok_maximum_dirty, Hs|done|lia|]. by eapply change_target.
Qed.

Lemma path_report_news n at_time k s event_path r :
  shared_ok s → generations_below n s → n + 1 ≤ u64_max →
  r ∈ path_report at_time k s event_path → news s (handle_path at_time k s ∅ event_path).1 r.
Proof.
  intros Hs Hn Hmax. unfold path_report, handle_path.
  destruct (route_path _ _) as [[id path]|]; [|by intros ?%elem_of_nil].
  destruct (targets (watch_state s) !! id) as [t|] eqn:Ht; [|by intros ?%elem_of_nil].
  intros ->%list_elem_of_singleton. destruct (ok_targets _ Hs _ _ Ht) as [Hok _].
  pose proof (Hn _ _ Ht). pose proof (ok_generation _ _ Hok).
  destruct (mark_event_ok s at_time k path event_path t) as (_ & _ & ?);
    [apply ok_maximum_dirty, Hs|done|lia|].
  pose proof (mark_event_generation s at_time k path event_path t ltac:(lia)). split.
  - intros t' Ht' _. cbn in Ht'. rewrite lookup_insert_eq in Ht'. by injection Ht' as <-.
  - exists t. cbn [report_target report_generation report_registration]. split_and!; [done|done|lia].
Qed.

Lemma handle_paths_eq at_time k s changed event_path event_paths :
  (handle_paths at_time k s changed (event_path :: event_paths)).1 =
  (handle_paths at_time k (handle_path at_time k s ∅ event_path).1
     (handle_path at_time k s changed event_path).2 event_paths).1.
Proof.
  cbn [handle_paths]. rewrite (handle_path_targets _ _ _ ∅ changed).
  by destruct (handle_path at_time k s changed event_path).
Qed.

Lemma handle_paths_ok n at_time k event_paths s changed :
  shared_ok s → generations_below n s → n + Z.of_nat (length event_paths) ≤ u64_max →
  let s' := (handle_paths at_time k s changed event_paths).1 in
  shared_ok s' ∧ shared_evolves (Z.of_nat (length event_paths)) s s' ∧
  ∀ r, r ∈ path_reports at_time k s event_paths → news s s' r.
Proof.
  revert n s changed. induction event_paths as [|p ps IH]; intros n s changed Hs Hn Hmax; cbv zeta.
  { cbn. split_and!; [done|apply shared_evolves_refl|]. by intros r ?%elem_of_nil. }
  rewrite handle_paths_eq. cbn [length] in *.
  destruct (handle_path_ok n at_time k p s Hs Hn) as [Hs1 He1]; [lia|].
  destruct (IH (n + 1) _ (handle_path at_time k s changed p).2 Hs1) as (Hs2 & He2 & Hr);
    [by eapply generations_evolve|lia|].
  split; [done|]. split.
  - replace (Z.of_nat (S (length ps))) with (1 + Z.of_nat (length ps)) by lia.
    by eapply shared_evolves_trans.
  - intros r [Hin|Hin]%elem_of_app; [|by eapply news_before, Hr]. eapply news_after; [exact He2|].
    eapply path_report_news; [done..|lia|done].
Qed.

Lemma enqueue_once n id s :
  shared_ok s → generations_below n s → n + 1 ≤ u64_max →
  let s' := enqueue_target_change id s in
  shared_ok s' ∧
  (shared_evolves 0 s s' ∨ shared_evolves 1 s s' ∧ global_change_pending (watch_state s') = true).
Proof.
  intros Hs Hn Hmax. pose proof (enqueue_target_change_ok n id s Hs Hn Hmax) as [Hs' He].
  cbv zeta. split; [done|]. unfold enqueue_target_change in *. cbv zeta in *.
  destruct (global_change_pending (watch_state s)); [left; apply shared_evolves_refl|].
  destruct (_ <? _) eqn:Hsize; to_prop; [by right|left].
  match goal with |- shared_evolves 0 _ ?s' =>
    by destruct (change_queue s s' Hs) as [_ ?]; [reflexivity..|exact Hsize|] end.
Qed.

Lemma enqueue_all_ok n ids : keeps 1 n (λ s, foldr enqueue_target_change s ids).
Proof.
  intros s Hs Hn Hmax.
  enough (shared_ok (foldr enqueue_target_change s ids) ∧
    (shared_evolves 0 s (foldr enqueue_target_change s ids) ∨
     shared_evolves 1 s (foldr enqueue_target_change s ids) ∧
     global_change_pending (watch_state (foldr enqueue_target_change s ids)) = true)) as [Hs' He].
  { split; [done|]. destruct He as [He|[He _]]; [|done]. by eapply shared_evolves_more; [|exact He]. }
  induction ids as [|id ids IH]; cbn [foldr]; [split; [done|left; apply shared_evolves_refl]|].
  destruct IH as [Hs1 [He1|[He1 Hp]]].
  - destruct (enqueue_once n id _ Hs1) as [Hs2 He2]; [|done|].
    { rewrite <-(Z.add_0_r n). by eapply generations_evolve. }
    split; [done|]. destruct He2 as [He2|[He2 Hp2]]; [left|right; split; [|done]];
      by eapply (shared_evolves_trans 0).
  - assert (enqueue_target_change id (foldr enqueue_target_change s ids) =
      foldr enqueue_target_change s ids) as -> by (unfold enqueue_target_change at 1; by rewrite Hp).
    auto.
Qed.

Lemma degraded_ok s at_time :
  shared_ok s →
  let s' := s <| backend_rebuild_requested := true |>
              <| watch_state ::= λ st, st <| targets ::= fmap (degrade at_time (retry_policy s)) |> |> in
  shared_ok s' ∧ shared_evolves 0 s s'.
Proof.
  intros Hs s'. subst s'.
  destruct (change_queue s (s <| backend_rebuild_requested := true |>) Hs) as [Hs1 He1];
    [done..|exact (ok_changed _ Hs)|].
  destruct (change_targets 0 (s <| backend_rebuild_requested := true |>)
           (degrade at_time (retry_policy s) <$> targets (watch_state s)) Hs1) as [Hs2 He2].
  - intros id. rewrite lookup_fmap. cbn. destruct (targets (watch_state s) !! id) as [t|] eqn:E;
      constructor. apply degrade_ok. by apply (ok_targets _ Hs) in E as [? _].
  - split; [exact Hs2|]. exact (shared_evolves_trans 0 0 _ _ _ He1 He2).
Qed.

Lemma global_event n at_time s r :
  shared_ok s → generations_below n s → n + 1 ≤ u64_max →
  (r ∈ all_changed (force_full_all s) → news s (force_full_all s) r) ∧
  (r ∈ all_changed (degrade_all at_time s) → news s (degrade_all at_time s) r).
Proof.
  intros Hs Hn Hmax. split; intros Hr.
  - by apply (global_change_news n s r).
  - destruct (degraded_ok s at_time Hs) as [Hs1 He1]. eapply news_before; [exact He1|].
    apply (global_change_news n _ r Hs1); [|done|done].
    rewrite <-(Z.add_0_r n). by eapply generations_evolve.
Qed.

Lemma handle_callback_ok n at_time result s :
  shared_ok s → generations_below n s → n + event_cost result ≤ u64_max →
  let s' := handle_callback at_time result s in
  shared_ok s' ∧ shared_evolves (event_cost result) s s' ∧
  ∀ r, r ∈ event_reports at_time result s → news s s' r.
Proof.
  intros Hs Hn Hmax. cbv zeta.
  assert (Hglobal : ∀ f, f = force_full_all ∨ f = degrade_all at_time →
    shared_ok (f s) ∧ shared_evolves (event_cost result) s (f s) ∧
    ∀ r, r ∈ all_changed (f s) → news s (f s) r).
  { assert (Hc : 1 ≤ event_cost result) by (destruct result; cbn [event_cost]; lia).
    intros f Hf. assert (Hk : keeps 1 n f)
      by (destruct Hf as [->| ->]; [apply force_full_all_ok|apply degrade_all_ok]).
    destruct (Hk s Hs Hn) as [Hs1 He1]; [lia|]. split; [done|].
    split; [by eapply shared_evolves_more|]. intros r.
    destruct (global_event n at_time s r Hs Hn) as [? ?]; [lia|]. by destruct Hf as [->| ->]. }
  unfold event_reports, handle_callback in *. destruct result as [event|]; [|by apply Hglobal; right].
  destruct (need_rescan event); [by apply Hglobal; left|].
  case_bool_decide.
  { split; [done|]. split; [|by intros r ?%elem_of_nil].
    eapply shared_evolves_more, shared_evolves_refl. cbn [event_cost]. lia. }
  case_bool_decide; [by apply Hglobal; left|]. cbn [event_cost] in *.
  destruct (handle_paths_ok n at_time (kind event) (paths event) s ∅ Hs Hn) as (Hs1 & He1 & Hr1); [lia|].
  destruct (handle_paths at_time (kind event) s ∅ (paths event)) as [s1 changed]. cbn [fst] in *.
  destruct (enqueue_all_ok (n + Z.of_nat (length (paths event))) (elements changed) s1 Hs1)
    as [Hs2 He2]; [by eapply generations_evolve|lia|].
  set (s2 := foldr enqueue_target_change s1 (elements changed)) in *.
  assert (Hs3 : shared_ok (if bool_decide (changed = ∅) then s2 else signal_change s2) ∧
    shared_evolves 0 s2 (if bool_decide (changed = ∅) then s2 else signal_change s2)).
  { case_bool_decide; [split; [done|apply shared_evolves_refl]|].
    apply change_queue; try done. exact (ok_changed _ Hs2). }
  destruct Hs3 as [Hs3 He3]. pose proof (shared_evolves_trans _ _ _ _ _ He2 He3) as He4.
  split; [done|]. split; [by apply (shared_evolves_trans _ 1 _ _ _ He1 He4)|].
  intros r Hr%Hr1. by eapply news_after.
Qed.

Lemma finish_registration_ok n id fp path generation succeeded at_time :
  keeps 1 n (λ s, (finish_registration id fp path generation succeeded at_time s).2).
Proof.
  intros s Hs Hn Hmax. unfold finish_registration.
  pose proof (enqueue_target_change_ok n id s Hs Hn Hmax) as Hstale.
  destruct (targets (watch_state s) !! id) as [t|] eqn:Ht; [|done].
  destruct (_ && _); [|done]. cbn [snd].
  destruct (ok_targets _ Hs _ _ Ht) as [Hok _].
  match goal with |- context [<[id := ?t']>] => set (t1 := t') end.
  assert (watched_ok (maximum_dirty_paths s) t1 ∧ evolves 0 t t1) as [Hok1 He1].
  { subst t1. destruct succeeded; [by apply same_marks|by apply degrade_ok]. }
  destruct (change_target 0 s id t t1 Hs) as [Hs1 Hev1]; [done..|].
  destruct (enqueue_target_change_ok n id _ Hs1) as [Hs2 Hev2]; [|done|].
  { rewrite <-(Z.add_0_r n). by eapply generations_evolve. }
  split; [done|]. exact (shared_evolves_trans _ _ _ _ _ Hev1 Hev2).
Qed.

(** A watch that is restored has missed changes. *)
Definition retry_reports (c : RetryCandidate) (succeeded : bool) (at_time : Z) (s : WatchShared) :
    list Report :=
  match targets (watch_state s) !! candidate_target c with
  | Some t =>
      if (finish_retry c succeeded at_time s).1
      then [mkReport (candidate_target c) (registration_generation t)
              (watch_generation (mark_full t)) []]
      else []
  | None => []
  end.

Lemma finish_retry_ok n c succeeded at_time s :
  shared_ok s → generations_below n s → n + 2 ≤ u64_max →
  let s' := (finish_retry c succeeded at_time s).2 in
  shared_ok s' ∧ shared_evolves 2 s s' ∧
  ∀ r, r ∈ retry_reports c succeeded at_time s → news s s' r.
Proof.
  intros Hs Hn Hmax. unfold retry_reports, finish_retry.
  assert (Hsame : shared_ok s ∧ shared_evolves 2 s s).
  { split; [done|]. eapply shared_evolves_more, shared_evolves_refl. done. }
  destruct (targets (watch_state s) !! candidate_target c) as [t|] eqn:Ht.
  2:{ split_and!; [apply Hsame..|]. by intros r ?%elem_of_nil. }
  case_bool_decide.
  { split_and!; [apply Hsame..|]. by intros r ?%elem_of_nil. }
  destruct (ok_targets _ Hs _ _ Ht) as [Hok _]. pose proof (Hn _ _ Ht) as Hg.
  pose proof (ok_generation _ _ Hok) as Hg0. cbv zeta. cbn [fst snd].
  match goal with |- context [<[candidate_target c := ?t']>] => set (t1 := t') end.
  assert (watched_ok (maximum_dirty_paths s) t1 ∧ evolves 1 t t1 ∧
    (succeeded = true → watch_generation t1 = watch_generation (mark_full t) ∧
       ∀ path, covers t1 (watch_generation t1) path)) as (Hok1 & Hev1 & Hc1).
  { subst t1. destruct succeeded.
    - destruct (same_marks _ t (t <| health := Watching |> <| retry_attempts := 0 |>) Hok)
        as [Hok2 Hev2]; [done..|].
      destruct (mark_full_ok _ (ok_maximum_dirty _ Hs) _ Hok2) as (? & Hev3 & ?); [cbn; lia|].
      split; [done|]. split; [exact (evolves_trans 0 1 _ _ _ Hev2 Hev3)|done].
    - destruct (degrade_ok _ at_time (retry_policy s) t Hok) as [? Hev]. split; [done|].
      split; [by eapply evolves_more; [|exact Hev]|done]. }
  destruct (change_target 1 s (candidate_target c) t t1 Hs) as [Hs1 He1]; [done..|].
  match type of Hs1 with shared_ok ?s1 => set (s1' := s1) in * end.
  destruct (enqueue_target_change_ok (n + 1) (candidate_target c) s1' Hs1) as [Hs2 He2];
    [by eapply generations_evolve|lia|].
  split; [done|]. split; [exact (shared_evolves_trans 1 1 _ _ _ He1 He2)|].
  destruct succeeded; [|by intros r ?%elem_of_nil]. intros r ->%list_elem_of_singleton.
  destruct Hc1 as [Hgen Hc1]; [done|].
  assert (watch_generation (mark_full t) = watch_generation t + 1) by (apply next_nonzero_succ; lia).
  eapply news_after; [exact He2|]. split.
  - intros t' Ht' _. cbn in Ht'. rewrite lookup_insert_eq in Ht'. injection Ht' as <-.
    cbn [report_generation]. rewrite <-Hgen. split; [apply Hc1|done].
  - exists t. cbn [report_target report_generation report_registration]. split_and!; [done|done|lia].
Qed.

(** ** Replacing and retiring a target *)

Lemma size_minus_le (X : gset string) id : (size (X ∖ {[id]}) ≤ size X)%nat.
Proof. apply subseteq_size. set_solver. Qed.

Lemma unchanged_registration_None id fp path s :
  unchanged_registration id fp path s = Ok None →
  ∀ owner, roots (watch_state s) !! path = Some owner → owner = id.
Proof.
  unfold unchanged_registration. intros H owner Ho. rewrite Ho in H.
  destruct (decide (owner = id)); [done|]. rewrite bool_decide_eq_true_2 in H by done.
  destruct (targets _ !! _); [|done]. by destruct (_ && _).
Qed.

(** The state before the change is queued. *)
Definition replaced (at_time : Z) (id fp : string) (path : Path) (s : WatchShared) : WatchShared :=
  s <| watch_state ::= λ st, st
      <| roots ::= λ rs, <[path := id]>
           (match root <$> targets st !! id with Some r => delete r rs | None => rs end) |>
      <| changed_targets ::= λ c, c ∖ {[id]} |>
      <| next_registration_generation := next_nonzero (next_registration_generation st) |>
      <| targets ::= <[id := mark_full (mkWatchedTarget fp path
           (next_nonzero (next_registration_generation st)) 0 None ∅ (global_generation s)
           Degraded 0 0 at_time)]> |> |>.

Lemma replace_target_state_eq at_time id fp path s :
  replace_target_state at_time id fp path s =
  (root <$> targets (watch_state s) !! id,
   next_nonzero (next_registration_generation (watch_state s)),
   enqueue_target_change id (replaced at_time id fp path s)).
Proof. done. Qed.

Lemma replaced_roots at_time id fp path s :
  shared_ok s → unchanged_registration id fp path s = Ok None →
  ∀ p i, roots (watch_state (replaced at_time id fp path s)) !! p = Some i ↔
    ∃ t, targets (watch_state (replaced at_time id fp path s)) !! i = Some t ∧ root t = p.
Proof.
  intros Hs Hu p i. pose proof (unchanged_registration_None _ _ _ _ Hu) as Howner.
  pose proof (ok_roots _ Hs) as Hr. unfold replaced, set_with. cbn -[mark_full].
  assert (Hold : ∀ rs, rs = roots (watch_state s) → ∀ q j,
    (match root <$> targets (watch_state s) !! id with Some r => delete r rs | None => rs end) !! q =
      Some j ↔ rs !! q = Some j ∧ j ≠ id).
  { intros rs -> q j. destruct (targets (watch_state s) !! id) as [t|] eqn:E; cbn.
    - rewrite lookup_delete_Some. split; [intros [Hq Hj]|intros [Hj Hq]]; split; try done.
      + intros ->. apply Hr in Hj as (t' & Ht' & <-). congruence.
      + intros <-. assert (roots (watch_state s) !! root t = Some id) by (apply Hr; eauto). congruence.
    - split; [|by intros [? _]]. intros Hj. split; [done|]. intros ->.
      apply Hr in Hj as (t' & Ht' & _). congruence. }
  specialize (Hold _ eq_refl). rewrite lookup_insert_Some, Hold, Hr.
  setoid_rewrite lookup_insert_Some. split.
  - intros [[<- <-]|(Hne & (t & Ht & Hp) & Hi)]; [eexists; split; [by left|done]|].
    exists t. auto.
  - intros (t & [[<- <-]|[Hi Ht]] & Hp); [by left|right].
    assert (roots (watch_state s) !! p = Some i) by (apply Hr; eauto).
    split_and!; [|eauto|done]. intros ->. by apply Hi, eq_sym, Howner.
Qed.

Lemma fresh_ok maximum fp path generation global at_time :
  1 ≤ maximum →
  watched_ok maximum (mkWatchedTarget fp path generation 0 None ∅ global Degraded 0 0 at_time).
Proof.
  intros Hm. split; cbn; [done|done| |rewrite map_size_empty; lia|].
  - intros dir g Hd. by rewrite lookup_empty in Hd.
  - intros dir dir' [? Hd]. by rewrite lookup_empty in Hd.
Qed.

Lemma replaced_ok at_time id fp path s :
  shared_ok s → next_registration_generation (watch_state s) < u64_max →
  unchanged_registration id fp path s = Ok None → shared_ok (replaced at_time id fp path s).
Proof.
  intros Hs Hreg Hu. pose proof (replaced_roots at_time _ _ _ _ Hs Hu) as Hroots.
  destruct Hs as [H1 H2 H3 H4 H5 H6]. split; [done|done| |exact Hroots| |].
  - intros i t. unfold replaced, set_with. cbn -[mark_full].
    rewrite next_nonzero_succ by lia. rewrite lookup_insert_Some. intros [[<- <-]|[_ [Hok ?]%H3]].
    + split; [|done]. apply mark_full_ok; [done|by apply fresh_ok|done].
    + split; [done|lia].
  - unfold replaced, set_with. cbn. pose proof (size_minus_le (changed_targets (watch_state s)) id). lia.
  - unfold replaced, set_with. cbn. rewrite next_nonzero_succ by lia. lia.
Qed.

Lemma replace_ok n at_time id fp path s old generation s' :
  shared_ok s → generations_below n s → n + 2 ≤ u64_max → 0 ≤ n →
  next_registration_generation (watch_state s) < u64_max →
  unchanged_registration id fp path s = Ok None →
  replace_target_state at_time id fp path s = (old, generation, s') →
  shared_ok s' ∧ generation = next_registration_generation (watch_state s) + 1 ∧
  next_registration_generation (watch_state s') = generation ∧ generations_below (n + 2) s' ∧
  (∀ id', id' ≠ id → option_Forall2 (evolves 1) (targets (watch_state s) !! id')
                        (targets (watch_state s') !! id')) ∧
  (∃ t, targets (watch_state s') !! id = Some t ∧ registration_generation t = generation ∧
     1 ≤ watch_generation t ∧ covers t 1 []).
Proof.
  intros Hs Hn Hmax Hn0 Hreg Hu. rewrite replace_target_state_eq. intros [= _ <- <-].
  rewrite next_nonzero_succ by (split; [apply Hs|done]).
  pose proof (replaced_ok at_time id fp path s Hs Hreg Hu) as Hs1.
  set (s1 := replaced at_time id fp path s) in *.
  assert (Hlook : ∀ i, targets (watch_state s1) !! i =
    if decide (i = id)
    then Some (mark_full (mkWatchedTarget fp path
                 (next_nonzero (next_registration_generation (watch_state s))) 0 None ∅
                 (global_generation s) Degraded 0 0 at_time))
    else targets (watch_state s) !! i).
  { intros i. unfold s1, replaced, set_with. cbn -[mark_full]. case_decide as Hi.
    - subst i. by rewrite lookup_insert_eq.
    - by rewrite lookup_insert_ne. }
  assert (Hn1 : generations_below (n + 1) s1).
  { intros i t. rewrite Hlook. case_decide.
    - intros [= <-]. cbn. rewrite (next_nonzero_succ 0) by done. lia.
    - intros Ht%Hn. lia. }
  destruct (enqueue_target_change_ok (n + 1) id s1 Hs1 Hn1) as [Hs2 He2]; [lia|].
  split; [done|]. split; [done|].
  split; [rewrite (same_registrations _ _ _ He2); unfold s1, replaced, set_with; cbn;
          apply next_nonzero_succ; split; [apply Hs|done]|].
  split; [by replace (n + 2) with (n + 1 + 1) by lia; eapply generations_evolve|].
  split.
  - intros i Hi. pose proof (targets_evolve _ _ _ He2 i) as T. rewrite Hlook in T.
    by rewrite decide_False in T.
  - pose proof (targets_evolve _ _ _ He2 id) as T. rewrite Hlook, decide_True in T by done.
    inversion T as [? t He E1 E2|]; subst. exists t. split; [done|].
    destruct He as [R _ _ G C]. cbn in R, G.
    rewrite (next_nonzero_succ 0) in G by done.
    split_and!; [|lia|].
    + rewrite R. apply next_nonzero_succ. split; [apply Hs|done].
    + apply C; [done|]. left. eexists. cbn. split; [done|]. done.
Qed.

(** The target and its root are gone. *)
Definition removed (id : string) (t : WatchedTarget) (s : WatchShared) : WatchShared :=
  s <| watch_state ::= λ st,
    st <| targets ::= delete id |> <| roots ::= delete (root t) |>
       <| changed_targets ::= λ c, c ∖ {[id]} |> |>.

Lemma removed_targets id t s i t' :
  targets (watch_state (removed id t s)) !! i = Some t' ↔
  i ≠ id ∧ targets (watch_state s) !! i = Some t'.
Proof. unfold removed, set_with. cbn. rewrite lookup_delete_Some. naive_solver. Qed.

Lemma removed_ok id t s :
  shared_ok s → targets (watch_state s) !! id = Some t → shared_ok (removed id t s).
Proof.
  intros [H1 H2 H3 H4 H5 H6] Ht. split; [done..| | | |done].
  - intros i t' [_ Ht']%removed_targets. by apply H3 in Ht'.
  - intros p i. setoid_rewrite removed_targets. unfold removed, set_with. cbn.
    rewrite lookup_delete_Some, H4. split.
    + intros [Hp (t' & Ht' & <-)]. exists t'. split_and!; try done. intros ->. congruence.
    + intros (t' & [Hi Ht'] & <-). split; [|eauto]. intros Hp.
      assert (roots (watch_state s) !! root t = Some id) as R1 by (apply H4; eauto).
      assert (roots (watch_state s) !! root t' = Some i) as R2 by (apply H4; eauto).
      congruence.
  - unfold removed, set_with. cbn.
    pose proof (size_minus_le (changed_targets (watch_state s)) id). lia.
Qed.

Lemma retire_ok n id s :
  shared_ok s → generations_below n s → n + 1 ≤ u64_max →
  let s' := (retire id s).2 in
  shared_ok s' ∧ next_registration_generation (watch_state s') =
    next_registration_generation (watch_state s) ∧ generations_below (n + 1) s' ∧
  ∀ id' t', targets (watch_state s') !! id' = Some t' →
    ∃ t, targets (watch_state s) !! id' = Some t ∧ evolves 1 t t'.
Proof.
  intros Hs Hn Hmax. unfold retire. destruct (targets (watch_state s) !! id) as [t|] eqn:Ht.
  2:{ cbn. split_and!; try done; [intros i t' ?%Hn; lia|]. intros i t' Hi. exists t'. split; [done|].
      eapply evolves_more, evolves_refl. done. }
  cbn [snd]. fold (removed id t s). pose proof (removed_ok id t s Hs Ht) as Hs1.
  pose proof (removed_targets id t s) as Hlook. set (s1 := removed id t s) in *.
  destruct (keeps_compose 1 0 n (enqueue_target_change id) signal_change) with (s := s1)
    as [Hs2 He2]; [done|apply enqueue_target_change_ok|apply signal_change_ok|done| |lia|].
  { intros i t' [_ Ht']%Hlook. by eapply Hn. }
  split; [done|]. split; [by rewrite (same_registrations _ _ _ He2)|].
  split; [eapply generations_evolve; [|exact He2]; intros i t' [_ Ht']%Hlook; by eapply Hn|].
  intros i t' Ht'. pose proof (targets_evolve _ _ _ He2 i) as T. cbv beta in T. rewrite Ht' in T.
  destruct (targets (watch_state s1) !! i) as [t0|] eqn:E; inversion T; subst.
  apply Hlook in E as [_ E]. eauto.
Qed.
