(* ===== verification/WatchLife.v ===== *)
(** * No change is lost

    The operations of [Watcher] in any order: events arrive while targets are
    registered, retired and retried, and while scans capture what is dirty and
    acknowledge it later.  Each operation holds the lock of the shared state
    ([server/disk/soft/watcher/state.rs]) while it runs; a registration or a
    retry takes it several times, and events arrive in between. *)
From stdpp Require Import sorting relations.
From S2P Require Import Prelude DiskScan UsageTree Reconcile Watcher.

Local Open Scope Z_scope.

(** A batch covers a change: the scan it asks for looks at it. *)
Definition batch_covers (b : DirtyBatch) (path : Path) : Prop :=
  full_reconcile b = true ∨ ∃ dir, dir ∈ relative_paths b ∧ within dir path.

(** The shared state, and what happened so far: the changes reported, the
    batches captured and the batches acknowledged, each with the changes
    reported before it was captured, and a bound on the generations used. *)
Record WatchWorld := mkWatchWorld {
  ws : WatchShared;
  reports : list Report;
  captured : list (DirtyBatch * list Report);
  settled : list (DirtyBatch * list Report);
  marks : Z;
}.

Inductive watch_step : WatchWorld → WatchWorld → Prop :=
  | on_event at_time result s rs cs ss n :
      watch_step (mkWatchWorld s rs cs ss n)
        (mkWatchWorld (handle_callback at_time result s) (event_reports at_time result s ++ rs)
           cs ss (n + event_cost result))
  | on_replace at_time id fp path old generation s s' rs cs ss n :
      unchanged_registration id fp path s = Ok None →
      replace_target_state at_time id fp path s = (old, generation, s') →
      watch_step (mkWatchWorld s rs cs ss n)
        (mkWatchWorld (signal_change s') (mkReport id generation 1 [] :: rs) cs ss (n + 2))
  | on_finish id fp path generation succeeded at_time s rs cs ss n :
      watch_step (mkWatchWorld s rs cs ss n)
        (mkWatchWorld (finish_registration id fp path generation succeeded at_time s).2 rs cs ss
           (n + 1))
  | on_retry c succeeded at_time s rs cs ss n :
      watch_step (mkWatchWorld s rs cs ss n)
        (mkWatchWorld (finish_retry c succeeded at_time s).2 (retry_reports c succeeded at_time s ++ rs)
           cs ss (n + 2))
  | on_retire id s rs cs ss n :
      watch_step (mkWatchWorld s rs cs ss n) (mkWatchWorld (retire id s).2 rs cs ss (n + 1))
  | on_capture id b s rs cs ss n :
      capture id s = Some b →
      watch_step (mkWatchWorld s rs cs ss n) (mkWatchWorld s rs ((b, rs) :: cs) ss n)
  | on_acknowledge b seen s s' rs cs ss n :
      (b, seen) ∈ cs → acknowledge b s = (true, s') →
      watch_step (mkWatchWorld s rs cs ss n) (mkWatchWorld s' rs cs ((b, seen) :: ss) n)
  | on_drain s rs cs ss n :
      watch_step (mkWatchWorld s rs cs ss n) (mkWatchWorld (drain_changes s).2 rs cs ss n)
  | on_signal s rs cs ss n :
      watch_step (mkWatchWorld s rs cs ss n) (mkWatchWorld (signal_change s) rs cs ss n)
  | on_rebuild s rs cs ss n :
      watch_step (mkWatchWorld s rs cs ss n)
        (mkWatchWorld (s <| backend_rebuild_requested := false |>) rs cs ss n).

Definition about (b : DirtyBatch) (r : Report) : Prop :=
  batch_target b = report_target r ∧ batch_registration b = report_registration r.

(** The change was reported before a batch was captured that covers it and that
    was acknowledged. *)
Definition settled_by (ss : list (DirtyBatch * list Report)) (r : Report) : Prop :=
  ∃ b seen, (b, seen) ∈ ss ∧ r ∈ seen ∧ about b r ∧ batch_covers b (report_path r).

(** ** The invariant *)

Record batch_ok (w : WatchWorld) (b : DirtyBatch) (seen : list Report) : Prop := {
  batch_registered :
    batch_registration b ≤ next_registration_generation (watch_state (ws w));
  batch_older t : targets (watch_state (ws w)) !! batch_target b = Some t →
    registration_generation t = batch_registration b → batch_generation b ≤ watch_generation t;
  batch_seen r : r ∈ seen → about b r → settled_by (settled w) r ∨ batch_covers b (report_path r);
  batch_unseen r : r ∈ reports w → about b r → r ∈ seen ∨ batch_generation b < report_generation r;
}.

Record world_ok (w : WatchWorld) : Prop := {
  world_shared : shared_ok (ws w);
  world_marks : 0 ≤ marks w;
  world_generations : generations_below (marks w) (ws w);
  world_registrations : next_registration_generation (watch_state (ws w)) ≤ marks w;
  world_reports r : r ∈ reports w →
    report_registration r ≤ next_registration_generation (watch_state (ws w)) ∧
    (is_pending (ws w) r ∨ settled_by (settled w) r);
  world_captured b seen : (b, seen) ∈ captured w → batch_ok w b seen;
}.

(** Targets evolve, or are registered anew. *)
Definition renewed (s s' : WatchShared) : Prop :=
  ∀ id t', targets (watch_state s') !! id = Some t' →
    (∃ k t, targets (watch_state s) !! id = Some t ∧ evolves k t t') ∨
    next_registration_generation (watch_state s) < registration_generation t'.

Definition new_report (s s' : WatchShared) (r : Report) : Prop :=
  news s s' r ∨
  is_pending s' r ∧ next_registration_generation (watch_state s) < report_registration r ≤
    next_registration_generation (watch_state s').

Lemma pending_renewed s s' r :
  renewed s s' → report_registration r ≤ next_registration_generation (watch_state s) →
  is_pending s r → is_pending s' r.
Proof.
  intros Hren Hreg Hp t' Ht' Hr. destruct (Hren _ _ Ht') as [(k & t & Ht & [R _ _ G C])|]; [|lia].
  destruct (Hp t Ht) as [Hc Hg]; [congruence|]. split; [by apply C|lia].
Qed.

Lemma world_progress w s' new n' :
  world_ok w → shared_ok s' → generations_below n' s' → marks w ≤ n' →
  next_registration_generation (watch_state (ws w)) ≤
    next_registration_generation (watch_state s') ≤ n' →
  renewed (ws w) s' → (∀ r, r ∈ new → new_report (ws w) s' r) →
  world_ok (mkWatchWorld s' (new ++ reports w) (captured w) (settled w) n').
Proof.
  intros [Hs Hm Hg Hreg Hrep Hcap] Hs' Hg' Hn Hreg' Hren Hnew.
  split; cbn [ws reports captured settled marks]; try done; [lia|lia|..].
  - intros r [Hin|Hin]%elem_of_app.
    + destruct (Hnew r Hin) as [[Hp (t & Ht & Hr & _)]|[Hp Hr]]; (split; [|by left]); [|lia].
      apply (ok_targets _ Hs) in Ht as [_ ?]. lia.
    + destruct (Hrep r Hin) as [Hr [Hp|?]]; (split; [lia|]); [left|by right].
      by eapply pending_renewed.
  - intros b seen Hb. destruct (Hcap b seen Hb) as [B1 B2 B3 B4].
    split; cbn [ws reports captured settled marks]; [lia| |done|].
    + intros t' Ht' Hr. destruct (Hren _ _ Ht') as [(k & t & Ht & [R _ _ G _])|]; [|lia].
      specialize (B2 t Ht). rewrite <-R in B2. specialize (B2 Hr). lia.
    + intros r [Hin|Hin]%elem_of_app Hab; [right|by apply B4].
      destruct Hab as [Hid Hbr]. destruct (Hnew r Hin) as [[_ (t & Ht & Hr & Hlt)]|[_ Hr]]; [|lia].
      rewrite <-Hid in Ht. specialize (B2 t Ht). rewrite Hr, Hbr in B2. specialize (B2 eq_refl). lia.
Qed.

Lemma evolves_renewed k s s' : shared_evolves k s s' → renewed s s'.
Proof.
  intros [_ _ T] id t' Ht'. left. specialize (T id). rewrite Ht' in T.
  destruct (targets (watch_state s) !! id) as [t|] eqn:E; inversion T; subst. eauto.
Qed.

(** An operation under the lock that keeps the state in order. *)
Lemma world_evolves w s' new k :
  world_ok w → 0 ≤ k → shared_ok s' → shared_evolves k (ws w) s' →
  (∀ r, r ∈ new → news (ws w) s' r) →
  world_ok (mkWatchWorld s' (new ++ reports w) (captured w) (settled w) (marks w + k)).
Proof.
  intros Hw Hk Hs' He Hnew. apply world_progress; [done|done| |lia| | |].
  - eapply generations_evolve; [apply Hw|done].
  - rewrite (same_registrations _ _ _ He). pose proof (world_registrations _ Hw). lia.
  - by eapply evolves_renewed.
  - intros r Hr. left. by apply Hnew.
Qed.

Lemma replace_world at_time id fp path old generation s s' rs cs ss n :
  world_ok (mkWatchWorld s rs cs ss n) → n + 2 ≤ u64_max →
  unchanged_registration id fp path s = Ok None →
  replace_target_state at_time id fp path s = (old, generation, s') →
  world_ok (mkWatchWorld (signal_change s') (mkReport id generation 1 [] :: rs) cs ss (n + 2)).
Proof.
  intros Hw Hmax Hu Hrep. pose proof Hw as [Hs Hm Hg Hreg _ _]. cbn [ws marks] in *.
  destruct (replace_ok n at_time id fp path s old generation s') as
    (Hs' & Hgen & Hreg' & Hg' & Hothers & t & Ht & Htr & Htg & Htc); try done; [lia|].
  destruct (change_queue s' (signal_change s') Hs') as [Hs2 _]; [done..|exact (ok_changed _ Hs')|].
  apply (world_progress (mkWatchWorld s rs cs ss n) _ [mkReport id generation 1 []]); cbn; try done.
  - lia.
  - rewrite Hreg'. lia.
  - intros i ti Hi. cbn in Hi. destruct (decide (i = id)) as [->|Hne].
    + right. rewrite Hi in Ht. injection Ht as ->. lia.
    + left. specialize (Hothers i Hne). rewrite Hi in Hothers.
      destruct (targets (watch_state s) !! i) as [t0|] eqn:E; inversion Hothers; subst. eauto.
  - intros r ->%list_elem_of_singleton. right. cbn [report_registration]. split; [|cbn; rewrite Hreg'; lia].
    intros t' Ht' _. cbn in Ht'. rewrite Ht in Ht'. injection Ht' as <-.
    cbn [report_generation report_path]. done.
Qed.

(** ** Capturing and acknowledging *)

Lemma capture_Some id s b :
  capture id s = Some b →
  ∃ t, targets (watch_state s) !! id = Some t ∧ batch_target b = id ∧
    batch_registration b = registration_generation t ∧ batch_generation b = watch_generation t ∧
    ∀ generation path, covers t generation path → batch_covers b path.
Proof.
  unfold capture. intros (t & Ht & H)%bind_Some. destruct (negb _); [done|]. injection H as <-.
  exists t. split_and!; [done..|]. intros generation path Hc. unfold batch_covers. cbn.
  unfold needs_full_reconcile. case_bool_decide as Hf; [by left|]. cbn.
  destruct (negb _); [by left|right]. destruct Hc as [(g & Hg & _)|(dir & g & Hd & _ & Hw)].
  - destruct Hf. eauto.
  - exists dir. split; [|done]. rewrite merge_sort_Permutation. apply list_elem_of_fmap.
    exists (dir, g). split; [done|]. by apply elem_of_map_to_list.
Qed.

Lemma covers_pending generation path t global :
  covers t generation path → pending global t = true.
Proof.
  unfold pending. intros [(g & Hg & _)|(dir & g & Hd & _)].
  - by rewrite bool_decide_eq_true_2 by eauto.
  - rewrite (bool_decide_eq_false_2 (dirty_paths t = ∅)), orb_true_r; [done|].
    intros He. by rewrite He, lookup_empty in Hd.
Qed.

Lemma covers_captured id s t generation path :
  targets (watch_state s) !! id = Some t → covers t generation path →
  ∃ b, capture id s = Some b ∧ batch_covers b path.
Proof.
  intros Ht Hc. destruct (capture id s) as [b|] eqn:E.
  - exists b. split; [done|]. apply capture_Some in E as (t' & Ht' & _ & _ & _ & Hb).
    rewrite Ht in Ht'. injection Ht' as <-. by eapply Hb.
  - unfold capture in E. rewrite Ht in E. cbn in E. by rewrite (covers_pending _ _ _ _ Hc) in E.
Qed.

Lemma settle_ok maximum b t :
  watched_ok maximum t →
  watched_ok maximum (settle b t) ∧
  ∀ generation path, batch_generation b < generation → covers t generation path →
    covers (settle b t) generation path.
Proof.
  intros [H1 H2 H3 H4 H5]. unfold settle, set_with. split.
  - split; cbn; try done.
    + intros g. destruct (full_generation t) as [g'|]; [|done]. case_match; [done|]. apply H2.
    + intros dir g [? _]%map_lookup_filter_Some. by apply H3.
    + etrans; [|exact H4]. apply inj_le, map_subseteq_size, map_filter_subseteq.
    + intros dir dir' [g [? _]%map_lookup_filter_Some] [g' [? _]%map_lookup_filter_Some]. eauto.
  - intros generation path Hg [(g & Hf & Hle)|(dir & g & Hd & Hle & Hw)]; [left|right]; cbn.
    + exists g. rewrite Hf. split; [|done]. case_match; to_prop; [lia|done].
    + exists dir, g. split_and!; [|done|done]. apply map_lookup_filter_Some. split; [done|]. cbn. lia.
Qed.

Lemma acknowledge_true b s s' :
  acknowledge b s = (true, s') →
  ∃ t, targets (watch_state s) !! batch_target b = Some t ∧
    registration_generation t = batch_registration b ∧
    s' = s <| watch_state ::= λ st, st <| targets ::= <[batch_target b := settle b t]> |> |>.
Proof.
  unfold acknowledge. destruct (targets _ !! _) as [t|]; [|done].
  case_bool_decide as Hn; [done|]. intros [= <-]. exists t. split_and!; try done.
  destruct (decide (registration_generation t = batch_registration b)); [done|]. tauto.
Qed.

Lemma settled_more ss x r : settled_by ss r → settled_by (x :: ss) r.
Proof. intros (b & seen & Hin & H). exists b, seen. split; [by right|done]. Qed.

Section acknowledge.
Context (b : DirtyBatch) (t : WatchedTarget) (s : WatchShared).
Context (Ht : targets (watch_state s) !! batch_target b = Some t).

Let s' := s <| watch_state ::= λ st, st <| targets ::= <[batch_target b := settle b t]> |> |>.

(** Every target is what it was, except for what is settled. *)
Lemma acknowledged_target id t' :
  targets (watch_state s') !! id = Some t' →
  ∃ t0, targets (watch_state s) !! id = Some t0 ∧
    registration_generation t' = registration_generation t0 ∧
    watch_generation t' = watch_generation t0 ∧ root t' = root t0 ∧
    (t' = t0 ∨ id = batch_target b ∧ t' = settle b t0).
Proof.
  unfold s', set_with. cbn. rewrite lookup_insert_Some. intros [[<- <-]|[Hne Hi]].
  - exists t. split_and!; try done. by right.
  - exists t'. split_and!; try done. by left.
Qed.

Lemma acknowledged_ok : shared_ok s → shared_ok s'.
Proof.
  intros [H1 H2 H3 H4 H5 H6]. split; try done.
  - intros id t' (t0 & Ht0 & Hr & _ & _ & Hcase)%acknowledged_target.
    change (maximum_dirty_paths s') with (maximum_dirty_paths s).
    change (next_registration_generation (watch_state s'))
      with (next_registration_generation (watch_state s)).
    destruct (H3 _ _ Ht0) as [Hok ?]. rewrite Hr. split; [|done].
    destruct Hcase as [->|[_ ->]]; [done|]. by apply settle_ok.
  - intros path id. rewrite (H4 path id : roots (watch_state s') !! path = Some id ↔ _). split.
    + intros (t0 & Ht0 & <-). unfold s', set_with. cbn.
      destruct (decide (id = batch_target b)) as [->|Hne].
      * exists (settle b t). rewrite lookup_insert_eq. split; [done|]. by simplify_eq.
      * exists t0. by rewrite lookup_insert_ne.
    + intros (t' & (t0 & Ht0 & _ & _ & Hroot & _)%acknowledged_target & <-). exists t0. by rewrite Hroot.
Qed.

Lemma acknowledged_pending r :
  is_pending s r → (about b r → batch_generation b < report_generation r) →
  registration_generation t = batch_registration b → shared_ok s → is_pending s' r.
Proof.
  intros Hp Hlt Hreg Hs t' Ht' Hr.
  apply acknowledged_target in Ht' as (t0 & Ht0 & Hr0 & Hg0 & _ & Hcase).
  destruct (Hp t0 Ht0) as [Hc Hg]; [congruence|]. split; [|lia].
  destruct Hcase as [->|[Hid ->]]; [done|].
  destruct (ok_targets _ Hs _ _ Ht0) as [Hok _]. apply (settle_ok _ b _ Hok); [|done].
  apply Hlt. rewrite Hid, Ht in Ht0. injection Ht0 as <-. split; congruence.
Qed.
End acknowledge.

Lemma acknowledge_world b seen s s' rs cs ss n :
  world_ok (mkWatchWorld s rs cs ss n) → (b, seen) ∈ cs → acknowledge b s = (true, s') →
  world_ok (mkWatchWorld s' rs cs ((b, seen) :: ss) n).
Proof.
  intros [Hs Hm Hg Hreg Hrep Hcap] Hin (t & Ht & Htr & ->)%acknowledge_true.
  cbn [ws reports captured settled marks] in *.
  split; cbn [ws reports captured settled marks]; try done.
  - by apply acknowledged_ok.
  - intros id t' (t0 & Ht0 & _ & Hg0 & _)%acknowledged_target; [|done]. rewrite Hg0. by eapply Hg.
  - intros r Hr. destruct (Hrep r Hr) as [Hrr Hcase]. split; [done|].
    destruct Hcase as [Hp|Hset]; [|right; by apply settled_more].
    destruct (decide (batch_target b = report_target r ∧
                      batch_registration b = report_registration r)) as [Hab|Hab].
    + destruct (batch_unseen _ _ _ (Hcap _ _ Hin) r Hr Hab) as [Hseen|Hlt].
      * right. destruct (batch_seen _ _ _ (Hcap _ _ Hin) r Hseen Hab) as [?|Hcov];
          [by apply settled_more|]. exists b, seen. split; [by left|done].
      * left. by apply acknowledged_pending.
    + left. by apply acknowledged_pending.
  - intros b' seen' Hb'. destruct (Hcap b' seen' Hb') as [B1 B2 B3 B4].
    split; cbn [ws reports captured settled marks]; try done.
    + intros t' (t0 & Ht0 & Hr0 & Hg0 & _)%acknowledged_target Hr; [|done]. rewrite Hg0.
      apply (B2 t0 Ht0). congruence.
    + intros r Hr Hab. destruct (B3 r Hr Hab); [left; by apply settled_more|by right].
Qed.

Lemma capture_world id b s rs cs ss n :
  world_ok (mkWatchWorld s rs cs ss n) → capture id s = Some b →
  world_ok (mkWatchWorld s rs ((b, rs) :: cs) ss n).
Proof.
  intros [Hs Hm Hg Hreg Hrep Hcap] (t & Ht & Hid & Hr & Hgen & Hcov)%capture_Some.
  cbn [ws reports captured settled marks] in *.
  split; cbn [ws reports captured settled marks]; try done.
  intros b' seen [[= -> ->]|Hin]%elem_of_cons; [|by destruct (Hcap _ _ Hin); split].
  split; cbn [ws reports captured settled marks].
  - rewrite Hr. by apply (ok_targets _ Hs) in Ht as [_ ?].
  - intros t' Ht' _. rewrite Hid, Ht in Ht'. injection Ht' as <-. lia.
  - intros r Hin [Ha1 Ha2]. destruct (Hrep r Hin) as [_ [Hp|?]]; [right|by left].
    destruct (Hp t) as [Hc _]; [congruence|congruence|]. by eapply Hcov.
  - intros r Hin _. by left.
Qed.

Lemma watch_step_ok w w' :
  watch_step w w' → marks w' ≤ u64_max → world_ok w → marks w ≤ marks w' ∧ world_ok w'.
Proof.
  assert (Hquiet : ∀ s s' rs cs ss n, world_ok (mkWatchWorld s rs cs ss n) →
    shared_ok s' ∧ shared_evolves 0 s s' → world_ok (mkWatchWorld s' rs cs ss n)).
  { intros s s' rs cs ss n Hw [Hs' He].
    pose proof (world_evolves (mkWatchWorld s rs cs ss n) s' [] 0 Hw) as H. cbn in H.
    rewrite Z.add_0_r in H. apply H; [done..|]. by intros r ?%elem_of_nil. }
  intros Hstep Hmax Hw. pose proof (world_marks _ Hw) as Hm.
  destruct Hstep; cbn [marks] in *.
  - assert (Hc : 1 ≤ event_cost result) by (destruct result; cbn [event_cost]; lia).
    destruct (handle_callback_ok n at_time result s) as (? & ? & ?); [apply Hw|apply Hw|lia|].
    split; [lia|]. apply (world_evolves (mkWatchWorld s rs cs ss n)); try done. lia.
  - split; [lia|]. by eapply replace_world.
  - destruct (finish_registration_ok n id fp path generation succeeded at_time s) as [? ?];
      [apply Hw|apply Hw|lia|]. split; [lia|].
    apply (world_evolves (mkWatchWorld s rs cs ss n) _ []); try done. by intros r ?%elem_of_nil.
  - destruct (finish_retry_ok n c succeeded at_time s) as (? & ? & ?); [apply Hw|apply Hw|lia|].
    split; [lia|]. by apply (world_evolves (mkWatchWorld s rs cs ss n)).
  - destruct (retire_ok n id s) as (? & Hr & ? & Hren); [apply Hw|apply Hw|lia|].
    split; [lia|]. pose proof (world_registrations _ Hw) as Hreg. cbn [ws marks] in Hreg.
    apply (world_progress (mkWatchWorld s rs cs ss n) _ []); try done; cbn [ws marks];
      [lia|rewrite Hr; lia| |by intros r ?%elem_of_nil].
    intros i t' (t & Ht & He)%Hren. left. eauto.
  - split; [done|]. by eapply capture_world.
  - split; [done|]. by eapply acknowledge_world.
  - split; [done|]. eapply Hquiet; [done|]. apply change_queue; try done; [apply Hw|]. cbn.
    rewrite size_empty. pose proof (ok_maximum_pending _ (world_shared _ Hw)) as Hp. cbn [ws] in Hp. lia.
  - split; [done|]. eapply Hquiet; [done|]. apply change_queue; try done; [apply Hw|].
    exact (ok_changed _ (world_shared _ Hw)).
  - split; [done|]. eapply Hquiet; [done|]. apply change_queue; try done; [apply Hw|].
    exact (ok_changed _ (world_shared _ Hw)).
Qed.

(** ** From the start *)

Definition watch_initial (env : NotifyEnv) (maximum_dirty maximum_pending retry_initial
    retry_maximum : Z) : WatchWorld :=
  mkWatchWorld (shared (new_with_limits env maximum_dirty maximum_pending retry_initial
                          retry_maximum)) [] [] [] 0.

Definition watch_reachable (w : WatchWorld) : Prop :=
  ∃ env maximum_dirty maximum_pending retry_initial retry_maximum,
    rtc watch_step (watch_initial env maximum_dirty maximum_pending retry_initial retry_maximum) w.

Lemma watch_initial_ok env md mp ri rm : world_ok (watch_initial env md mp ri rm).
Proof.
  unfold watch_initial, new_with_limits. cbn. split; cbn; try done.
  - split; cbn; [lia|lia| | | |lia].
    + intros id t Ht. by rewrite lookup_empty in Ht.
    + intros path id. setoid_rewrite lookup_empty. naive_solver.
    + rewrite size_empty. lia.
  - by intros r ?%elem_of_nil.
  - by intros b seen ?%elem_of_nil.
Qed.

Lemma watch_step_marks w w' : watch_step w w' → marks w ≤ marks w'.
Proof. intros Hstep. destruct Hstep; cbn; try lia. destruct result; cbn [event_cost]; lia. Qed.

Lemma watch_reachable_ok w : watch_reachable w → marks w ≤ u64_max → world_ok w.
Proof.
  intros (env & md & mp & ri & rm & Hsteps). revert w Hsteps.
  apply (rtc_ind_r (λ w, marks w ≤ u64_max → world_ok w)); [intros _; apply watch_initial_ok|].
  intros w w' _ Hstep IH Hmax.
  pose proof (watch_step_marks _ _ Hstep). apply (watch_step_ok _ _ Hstep Hmax), IH. lia.
Qed.

(** C7. No change is lost.  Events arrive, targets are registered, retired,
    degraded and retried, and scans capture what is dirty and acknowledge it, in
    any order.  A change of a target that is still registered is either
    pending, so that the next capture gives a batch whose scan looks at it, or
    it was reported before a batch was captured whose scan looked at it and
    that was acknowledged.  An acknowledgement never takes back a change that
    came during the scan.  (Unless [u64::MAX] generations were used up.) *)
Theorem no_change_lost w r t :
  watch_reachable w → marks w ≤ u64_max → r ∈ reports w →
  targets (watch_state (ws w)) !! report_target r = Some t →
  registration_generation t = report_registration r →
  (∃ b, capture (report_target r) (ws w) = Some b ∧ batch_covers b (report_path r)) ∨
  settled_by (settled w) r.
Proof.
  intros Hw Hmax Hr Ht Hreg. apply watch_reachable_ok in Hw; [|done].
  destruct (world_reports _ Hw r Hr) as [_ [Hp|?]]; [left|by right].
  destruct (Hp t Ht Hreg) as [Hc _]. by eapply covers_captured.
Qed.

(** A target is registered, its first batch captured, a file changes, and the
    batch is acknowledged. *)
Definition demo_notify : NotifyEnv :=
  mkNotifyEnv (λ n, Z.of_nat n) (λ _, true) (λ _ _, Ok tt) (λ _ _, Ok tt).
Definition demo_path : Path := [RootDir; Normal "data"].
Definition demo_event : option Event :=
  Some (mkEvent EventModify false [demo_path ++ [Normal "base"; Normal "16384"]]).
Definition demo_s0 : WatchShared := shared (new_with_limits demo_notify 8 8 5 300).
Definition demo_s1 : WatchShared :=
  signal_change (replace_target_state 2 "pg" "f" demo_path demo_s0).2.
Definition demo_s2 : WatchShared := (finish_registration "pg" "f" demo_path 1 true 3 demo_s1).2.
Definition demo_batch : DirtyBatch := mkDirtyBatch "pg" "f" 1 1 0 [] true true.
Definition demo_s3 : WatchShared := handle_callback 4 demo_event demo_s2.
Definition demo_s4 : WatchShared := (acknowledge demo_batch demo_s3).2.
Definition demo_registered : Report := mkReport "pg" 1 1 [].
Definition demo_changed_file : Report := mkReport "pg" 1 2 [Normal "base"; Normal "16384"].
Definition demo_watched : WatchWorld :=
  mkWatchWorld demo_s4 [demo_changed_file; demo_registered] [(demo_batch, [demo_registered])]
    [(demo_batch, [demo_registered])] 5.

Lemma demo_acknowledged : acknowledge demo_batch demo_s3 = (true, demo_s4).
Proof. vm_compute. reflexivity. Qed.

Lemma demo_watched_reachable : watch_reachable demo_watched.
Proof.
  exists demo_notify, 8, 8, 5, 300.
  apply (rtc_l _ _ (mkWatchWorld demo_s1 [demo_registered] [] [] 2)).
  { by apply (on_replace 2 "pg" "f" demo_path None 1 demo_s0
                (replace_target_state 2 "pg" "f" demo_path demo_s0).2 [] [] [] 0). }
  apply (rtc_l _ _ (mkWatchWorld demo_s2 [demo_registered] [] [] 3)).
  { apply (on_finish "pg" "f" demo_path 1 true 3 demo_s1 [demo_registered] [] [] 2). }
  apply (rtc_l _ _ (mkWatchWorld demo_s2 [demo_registered] [(demo_batch, [demo_registered])] [] 3)).
  { by apply (on_capture "pg" demo_batch). }
  apply (rtc_l _ _ (mkWatchWorld demo_s3 [demo_changed_file; demo_registered]
                      [(demo_batch, [demo_registered])] [] 5)).
  { apply (on_event 4 demo_event demo_s2 [demo_registered] [(demo_batch, [demo_registered])] [] 3). }
  apply rtc_once.
  apply (on_acknowledge demo_batch [demo_registered]); [by apply list_elem_of_singleton|].
  apply demo_acknowledged.
Qed.

Lemma no_change_lost_witness :
  (∃ b, capture "pg" demo_s4 = Some b ∧ batch_covers b [Normal "base"; Normal "16384"]) ∨
  settled_by [(demo_batch, [demo_registered])] demo_changed_file.
Proof.
  eapply (no_change_lost demo_watched demo_changed_file).
  - apply demo_watched_reachable.
  - done.
  - by left.
  - vm_compute. reflexivity.
  - reflexivity.
Defined.

(** The watcher's state is in order.  Every target has its own root, under
    which it is found; the directories recorded for it are relative paths, none
    inside another, and no more than the bound; and the queue of changed
    targets is no longer than its bound. *)
Theorem watch_state_in_order w :
  watch_reachable w → marks w ≤ u64_max →
  (∀ path id, roots (watch_state (ws w)) !! path = Some id ↔
     ∃ t, targets (watch_state (ws w)) !! id = Some t ∧ root t = path) ∧
  (∀ id t, targets (watch_state (ws w)) !! id = Some t →
     Z.of_nat (size (dirty_paths t)) ≤ maximum_dirty_paths (ws w) ∧
     (∀ dir, is_Some (dirty_paths t !! dir) → normal dir) ∧
     (∀ dir dir', is_Some (dirty_paths t !! dir) → is_Some (dirty_paths t !! dir') →
        dir `prefix_of` dir' → dir = dir')) ∧
  Z.of_nat (size (changed_targets (watch_state (ws w)))) ≤ maximum_pending_targets (ws w).
Proof.
  intros Hw Hmax. apply watch_reachable_ok in Hw; [|done]. destruct (world_shared _ Hw) as [_ _ H3 H4 H5 _].
  split; [done|]. split; [|done]. intros id t [[_ _ Hd Hsize Hapart] _]%H3.
  split; [done|]. split; [|done]. intros dir [g Hg]. by apply Hd in Hg as [_ ?].
Qed.

Lemma watch_state_in_order_witness :
  Z.of_nat (size (changed_targets (watch_state demo_s4))) ≤ maximum_pending_targets demo_s4.
Proof.
  apply (watch_state_in_order demo_watched); [apply demo_watched_reachable|done].
Defined.

(** ** The operations that take the lock several times *)

(** The shared state [s'] is reached from [s] by steps; nothing is captured or
    acknowledged on the way. *)
Definition goes (s s' : WatchShared) : Prop :=
  ∀ rs cs ss n, ∃ rs' n',
    rtc watch_step (mkWatchWorld s rs cs ss n) (mkWatchWorld s' (rs' ++ rs) cs ss n').

Lemma goes_refl s : goes s s.
Proof. intros rs cs ss n. exists [], n. done. Qed.

Lemma goes_trans s1 s2 s3 : goes s1 s2 → goes s2 s3 → goes s1 s3.
Proof.
  intros H1 H2 rs cs ss n. destruct (H1 rs cs ss n) as (rs1 & n1 & Hs1).
  destruct (H2 (rs1 ++ rs) cs ss n1) as (rs2 & n2 & Hs2). exists (rs2 ++ rs1), n2.
  rewrite <-(assoc_L (++)). by etrans.
Qed.

Lemma goes_step s s' f g :
  (∀ rs cs ss n, watch_step (mkWatchWorld s rs cs ss n) (mkWatchWorld s' (f ++ rs) cs ss (g n))) →
  goes s s'.
Proof. intros H rs cs ss n. exists f, (g n). by apply rtc_once. Qed.

Section operations.
Context (env : NotifyEnv).

Lemma goes_signal s : goes s (signal_change s).
Proof. apply (goes_step _ _ [] (λ n, n)). intros. apply on_signal. Qed.

Lemma abandon_goes at_time w : goes (shared w) (shared (abandon_backend env at_time w)).
Proof.
  eapply (goes_step _ _ _ (λ n, n + 1)). intros rs cs ss n.
  apply (on_event (clock env (calls w)) None).
Qed.

Lemma install_shared path w : shared (install_recursive_watch env path w).2 = shared w.
Proof. unfold install_recursive_watch, backend_watch, backend_unwatch. by repeat case_match; simplify_eq/=. Qed.

Lemma ensure_shared at_time w : shared (ensure_backend env at_time w) = shared w.
Proof. unfold ensure_backend. by repeat case_match. Qed.

Lemma install_registration_goes path old_root at_time w :
  goes (shared w) (shared (install_registration_watch env path old_root at_time w).2).
Proof.
  unfold install_registration_watch.
  match goal with |- context [let '(outcome, w) := ?x in _] => destruct x as [outcome w1] eqn:E end.
  assert (Hins : ∀ w2, shared w2 = shared w →
    (if watcher (backend (ensure_backend env at_time w2))
     then install_recursive_watch env path (ensure_backend env at_time w2)
     else (FailedCleanly, ensure_backend env at_time w2)) = (outcome, w1) → shared w1 = shared w).
  { intros w2 <-. destruct (watcher (backend (ensure_backend env at_time w2))); intros E2.
    - rewrite <-(ensure_shared at_time w2), <-(install_shared path (ensure_backend env at_time w2)).
      by rewrite E2.
    - simplify_eq. apply ensure_shared. }
  assert (shared w1 = shared w) as <-.
  { destruct (backend_rebuild_requested (shared w)); [by simplify_eq|].
    destruct (watcher (backend w)), old_root as [old|]; try (eapply Hins; [|exact E]; done).
    unfold backend_unwatch in E. destruct (is_ok (unwatches env (calls w) old)); cbn [negb] in E;
      [eapply Hins; [|exact E]; done|by simplify_eq]. }
  cbn [snd]. case_bool_decide; [apply abandon_goes|apply goes_refl].
Qed.

Lemma unwatch_or_abandon_goes path at_time w :
  goes (shared w) (shared (unwatch_or_abandon_backend env path at_time w)).
Proof.
  unfold unwatch_or_abandon_backend, backend_unwatch. destruct (watcher (backend w)); [|apply goes_refl].
  destruct (is_ok _); [apply goes_refl|].
  change (shared w) with (shared (w <| calls ::= S |>)). apply abandon_goes.
Qed.

(** [register], [unwatch_retired] and [retry_degraded] are sequences of steps,
    between which other steps may come. *)
Lemma register_goes id fp path w : goes (shared w) (shared (register env id fp path w).2).
Proof.
  unfold register. destruct (validate_registration id fp path); [|apply goes_refl].
  destruct (unchanged_registration id fp path (shared w)) as [[|]|] eqn:Hu; [apply goes_refl| |apply goes_refl].
  unfold now. cbn -[replace_target_state install_registration_watch finish_registration].
  destruct (replace_target_state _ _ _ _ _) as [[old generation] s1] eqn:Hrep.
  assert (H1 : goes (shared w) (signal_change s1)).
  { apply (goes_step _ _ [mkReport id generation 1 []] (λ n, n + 2)). intros. by eapply on_replace. }
  match goal with |- context [install_registration_watch env path old ?at_time ?w2] =>
    set (w2' := w2); pose proof (install_registration_goes path old at_time w2') as H2;
    destruct (install_registration_watch env path old at_time w2') as [succeeded w3] end.
  cbn [snd] in H2.
  match goal with |- context [finish_registration id fp path generation succeeded ?at_time ?s3] =>
    assert (H3 : goes s3 (finish_registration id fp path generation succeeded at_time s3).2)
      by (apply (goes_step _ _ [] (λ n, n + 1)); intros; apply on_finish);
    destruct (finish_registration id fp path generation succeeded at_time s3) as [[reg stale] s4] end.
  cbn [snd] in H3 |- *. eapply goes_trans; [exact H1|]. eapply goes_trans; [exact H2|].
  eapply goes_trans; [exact H3|]. eapply goes_trans; [|apply goes_signal].
  destruct stale; [|apply goes_refl]. change s4 with (shared (w3 <| shared := s4 |>)).
  apply unwatch_or_abandon_goes.
Qed.

Lemma unwatch_retired_goes path w : goes (shared w) (shared (unwatch_retired env path w)).
Proof.
  unfold unwatch_retired, now. case_bool_decide; [apply goes_refl|].
  change (shared w) with (shared (w <| calls ::= S |>)). apply unwatch_or_abandon_goes.
Qed.

Lemma retry_all_goes at_time cs summary w :
  goes (shared w) (shared (retry_all env at_time cs summary w).2).
Proof.
  revert summary w. induction cs as [|c cs IH]; intros summary w; cbn [retry_all]; [apply goes_refl|].
  assert (Hins : ∃ outcome w1, (if watcher (backend w)
      then install_recursive_watch env (candidate_root c) w else (FailedCleanly, w)) = (outcome, w1) ∧
    shared w1 = shared w).
  { destruct (watcher (backend w)); [|by eexists _, _]. eexists _, _.
    split; [apply surjective_pairing|apply install_shared]. }
  destruct Hins as (outcome & w1 & -> & <-). case_bool_decide; [apply abandon_goes|].
  destruct (finish_retry c _ at_time (shared w1)) as [again s1] eqn:Hf.
  eapply goes_trans; [|apply IH]. cbn.
  match type of Hf with finish_retry c ?ok at_time _ = _ =>
    apply (goes_step _ _ (retry_reports c ok at_time (shared w1)) (λ n, n + 2)); intros;
    pose proof (on_retry c ok at_time (shared w1) rs cs0 ss n) as Hst; by rewrite Hf in Hst end.
Qed.

Lemma retry_degraded_goes w : goes (shared w) (shared (retry_degraded env w).2).
Proof.
  unfold retry_degraded, now. cbn -[retry_all ensure_backend].
  match goal with |- context [ensure_backend env ?t ?w1] =>
    set (w1' := w1); assert (H1 : goes (shared w) (shared w1')) end.
  { subst w1'. case_match; [|apply goes_refl].
    apply (goes_step _ _ [] (λ n, n)). intros. apply on_rebuild. }
  match goal with |- context [retry_all env ?t ?cs ?s ?w2] =>
    pose proof (retry_all_goes t cs s w2) as H2; destruct (retry_all env t cs s w2) as [summary w3] end.
  rewrite ensure_shared in H2. cbn [snd] in H2. eapply goes_trans; [exact H1|].
  eapply goes_trans; [exact H2|]. cbn [snd]. case_match; [apply goes_signal|apply goes_refl].
Qed.
End operations.

(** The operations of the watcher are made of the steps above.  Registering
    a target, removing a watch that was left behind, and retrying degraded
    watches take the lock of the shared state several times; whatever the
    backend answers, the shared state they leave is reached by steps, with other
    steps possible in between. *)
Theorem watcher_operations_are_steps env w :
  (∀ id fp path, goes (shared w) (shared (register env id fp path w).2)) ∧
  (∀ path, goes (shared w) (shared (unwatch_retired env path w))) ∧
  goes (shared w) (shared (retry_degraded env w).2).
Proof.
  split; [|split]; intros; [apply register_goes|apply unwatch_retired_goes|apply retry_degraded_goes].
Qed.

(** ** Routing *)

Lemma climb_absolute {A} (m : gmap Path A) rest b :
  RootDir ∉ rest → b ≠ [] → b `prefix_of` RootDir :: rest → is_Some (m !! b) →
  ∃ a v, climb m (reverse (RootDir :: rest)) = Some (a, v) ∧ b `prefix_of` a.
Proof.
  induction rest as [|x rest IH] using rev_ind; intros Hr Hne Hb Hm.
  { destruct b as [|y b]; [done|]. pose proof (prefix_cons_inv_1 _ _ _ _ Hb) as ->.
    apply prefix_cons_inv_2, prefix_nil_inv in Hb as ->. destruct Hm as [v Hv].
    change (reverse [RootDir]) with [RootDir]. cbn [climb].
    change (reverse [RootDir]) with [RootDir]. rewrite Hv. by eexists _, _. }
  rewrite app_comm_cons, reverse_snoc. cbn [climb].
  change (x :: reverse (RootDir :: rest)) with ([x] ++ reverse (RootDir :: rest)).
  rewrite reverse_app, reverse_involutive. change (reverse [x]) with [x].
  destruct (m !! ((RootDir :: rest) ++ [x])) eqn:E; [by eexists _, _|].
  destruct IH as (a & v & Ha & Hba); [set_solver|done| |done|].
  { rewrite app_comm_cons in Hb. apply prefix_snoc_inv in Hb as [->|?]; [|done].
    rewrite E in Hm. by destruct Hm. }
  exists a, v. split; [|done]. destruct x; [set_solver|done..].
Qed.

(** An event belongs to the nearest root.  Among the registered roots above
    the path of an event, it is given to the target of the innermost one, and
    an event that no root is above is given to none. *)
Theorem event_goes_to_nearest_root (roots : gmap Path string) rest id path :
  RootDir ∉ rest → (∀ p, is_Some (roots !! p) → is_absolute p = true) →
  route_path roots (RootDir :: rest) = Some (id, path) ↔
  roots !! path = Some id ∧ path `prefix_of` RootDir :: rest ∧
  ∀ path', is_Some (roots !! path') → path' `prefix_of` RootDir :: rest → path' `prefix_of` path.
Proof.
  intros Hr Habs. unfold route_path. cbn [is_absolute negb].
  assert (Hlong : ∀ b, is_Some (roots !! b) → b `prefix_of` RootDir :: rest →
    ∃ a v, climb roots (reverse (RootDir :: rest)) = Some (a, v) ∧ b `prefix_of` a).
  { intros b Hb Hp. apply climb_absolute; try done. intros ->. by apply Habs in Hb. }
  split.
  - destruct (climb _ _) as [[a v]|] eqn:E; [|done]. intros [= <- <-].
    apply climb_Some in E as [Hp Hm]. split_and!; try done. intros b Hb Hpb.
    by destruct (Hlong b Hb Hpb) as (a' & v' & [= <- <-] & Hba).
  - intros (Hm & Hp & Hnear). destruct (Hlong path) as (a & v & E & Hpa); [eauto|done|].
    rewrite E. apply climb_Some in E as [Ha Hv].
    assert (a = path) as -> by (apply (anti_symm prefix); [apply Hnear; eauto|done]). congruence.
Qed.

Lemma event_goes_to_nearest_root_witness :
  route_path {[demo_path := "pg"; [RootDir] := "all"]} (RootDir :: [Normal "data"; Normal "x"]) =
  Some ("pg", demo_path).
Proof.
  apply (event_goes_to_nearest_root {[demo_path := "pg"; [RootDir] := "all"]}).
  - set_solver.
  - intros p [v Hv]. apply lookup_insert_Some in Hv as [[<- _]|[_ Hv]]; [done|].
    by apply lookup_singleton_Some in Hv as [<- _].
  - split; [done|]. split; [by exists [Normal "x"]|]. intros p [v Hv] _.
    apply lookup_insert_Some in Hv as [[<- _]|[_ Hv]]; [done|].
    apply lookup_singleton_Some in Hv as [<- _]. by exists [Normal "data"].
Defined.
