(* ===== verification/WatchedDisk.v ===== *)
(** * From an event to the usage that is enforced

    The watcher ([WatchLife]) and the usage cache ([QuietDisk]) together: the
    directories a scan captures are all it has to look at. *)
From stdpp Require Import sorting.
From S2P Require Import Prelude DiskScan UsageTree Reconcile CacheLife QuietDisk Watcher WatchLife.

Local Open Scope Z_scope.

(** An event for an entry of the directory [q] of the target has been reported,
    and no scan has settled it. *)
Definition awaited (w : WatchWorld) (id : string) (registration : Z) (q : Path) : Prop :=
  ∃ r entry, r ∈ reports w ∧ report_target r = id ∧ report_registration r = registration ∧
    report_path r = q ++ [entry] ∧ ¬ settled_by (settled w) r.

Lemma captured_paths w id b q :
  world_ok w → capture id (ws w) = Some b → full_reconcile b = false →
  awaited w id (batch_registration b) q → ∃ x, x ∈ relative_paths b ∧ x `prefix_of` q.
Proof.
  intros Hw (t & Ht & _ & Hreg & _ & Hcov)%capture_Some Hfull (r & entry & Hr & Hid & Hrr & Hpath & Hns).
  destruct (world_reports _ Hw r Hr) as [_ [Hp|?]]; [|done].
  destruct (Hp t) as [Hc _]; [congruence|congruence|].
  destruct (Hcov _ _ Hc) as [?|(dir & Hdir & d & e & Hd & Hpre)]; [congruence|].
  rewrite Hpath in Hd. apply app_inj_tail in Hd as [-> _]. eauto.
Qed.

(** C22. What a scan captures is enough.  Suppose that since the cache was
    correct, an event was reported for an entry of every directory whose own
    content changed, and that these events have not been settled.  Then, on a
    disk that holds still, for the directory the cache was made from and within
    the cache's size, the partial scan of just the directories that are captured
    leaves the cache and the usage of a full scan; or it asks for that full
    scan, which it does only when the captured paths are not all [usable]: one of
    them names the root or is not a clean path, or is in no directory below the
    root that is cached and still there. *)
Theorem captured_directories_suffice w id b env limits c d st c' :
  watch_reachable w → marks w ≤ u64_max →
  capture id (ws w) = Some b → full_reconcile b = false →
  (∀ q, outline <$> nodes c !! q ≠ outline <$> dir_nodes [] st d !! q →
     awaited w id (batch_registration b) q) →
  reconcilable env limits c d st →
  scan_full_bounded env limits (target_generation c) (max_cached_directories c) =
    Ok (Cached c') →
  reconcile env limits c (target_generation c) (relative_paths b) = Ok (cache_usage c', c') ∨
  (∃ reason, reconcile env limits c (target_generation c) (relative_paths b) =
     Err (FullScanRequired reason)) ∧ ¬ usable c d st (relative_paths b).
Proof.
  intros Hw Hmax Hcap Hfull Hev Hrec Hscan. apply watch_reachable_ok in Hw; [|done].
  eapply reconcile_agrees_or_full; [done| |done]. intros q Hq. by eapply captured_paths, Hev.
Qed.

(** The file is changed again after the first changes were settled. *)
Definition demo_second : DirtyBatch := mkDirtyBatch "pg" "f" 1 2 0 [] true true.
Definition demo_s5 : WatchShared := (acknowledge demo_second demo_s4).2.
Definition demo_s6 : WatchShared := handle_callback 5 demo_event demo_s5.
Definition demo_changed_again : Report := mkReport "pg" 1 3 [Normal "base"; Normal "16384"].
Definition demo_seen : list Report := [demo_changed_file; demo_registered].
Definition demo_batches : list (DirtyBatch * list Report) :=
  [(demo_second, demo_seen); (demo_batch, [demo_registered])].
Definition demo_rescan : WatchWorld :=
  mkWatchWorld demo_s6 (demo_changed_again :: demo_seen) demo_batches demo_batches 7.
Definition demo_partial : DirtyBatch := mkDirtyBatch "pg" "f" 1 3 0 [[Normal "base"]] false true.

Lemma demo_acknowledged_second : acknowledge demo_second demo_s4 = (true, demo_s5).
Proof. vm_compute. reflexivity. Qed.

Lemma demo_captured_second : capture "pg" demo_s4 = Some demo_second.
Proof. vm_compute. reflexivity. Qed.

Lemma demo_reported_again : event_reports 5 demo_event demo_s5 = [demo_changed_again].
Proof. vm_compute. reflexivity. Qed.

Lemma demo_rescan_reachable : watch_reachable demo_rescan.
Proof.
  destruct demo_watched_reachable as (env & md & mp & ri & rm & Hsteps). exists env, md, mp, ri, rm.
  etrans; [exact Hsteps|].
  eapply rtc_l; [exact (on_capture "pg" demo_second _ _ _ _ _ demo_captured_second)|].
  eapply rtc_l; [apply (on_acknowledge demo_second demo_seen); [by left|exact demo_acknowledged_second]|].
  apply rtc_once. pose proof (on_event 5 demo_event demo_s5 demo_seen demo_batches demo_batches 5) as H.
  rewrite demo_reported_again in H. exact H.
Qed.

Lemma demo_captured : capture "pg" demo_s6 = Some demo_partial.
Proof. vm_compute. reflexivity. Qed.

Lemma demo_awaited : awaited demo_rescan "pg" 1 [Normal "base"].
Proof.
  exists demo_changed_again, (Normal "16384"). split_and!; [by left|done..|].
  intros (b & seen & Hin & Hr & _). cbn in Hin. unfold demo_batches, demo_seen in Hin.
  rewrite !elem_of_cons, elem_of_nil in Hin.
  destruct Hin as [[= -> ->]|[[= -> ->]|[]]]; by rewrite !elem_of_cons, elem_of_nil in Hr; naive_solver.
Qed.

Lemma captured_directories_suffice_witness :
  reconcile (demo_disk 7000) demo_limits demo_cache "g" [[Normal "base"]] =
  Ok (mkUsage 7003 20480 3, demo_after).
Proof.
  rewrite <-demo_after_usage.
  destruct (captured_directories_suffice demo_rescan "pg" demo_partial (demo_disk 7000) demo_limits
              demo_cache (demo_root 7000) demo_root_stat demo_after) as [H|[_ Hno]].
  - apply demo_rescan_reachable.
  - done.
  - apply demo_captured.
  - reflexivity.
  - intros q ->%demo_differs. apply demo_awaited.
  - apply demo_reconcilable.
  - apply demo_after_scanned.
  - exact H.
  - destruct (Hno demo_changed).
Defined.
