(* ===== verification/SoftScan.v ===== *)
(** * Measuring an instance, with and without the cache

    Models [server/disk/soft/cache.rs] and the scanning half of
    [server/disk/soft/scan.rs]: every instance has a slot for its usage tree,
    the slots share one budget of cached directories, and a scan uses the tree
    of the slot or streams over the directory. *)
From S2P Require Import Prelude Planner DiskScan UsageTree Reconcile CacheLife QuietDisk.

Local Open Scope Z_scope.

(** ** Slots *)

Record UsageTreeSlotState := mkSlotState {
  cache : option UsageTreeCache;
  cached_directory_count : Z;
  streaming_only : bool;
}.
#[export] Instance UsageTreeSlotState_eta : Settable UsageTreeSlotState :=
  λ s, mkSlotState (cache s) (cached_directory_count s) (streaming_only s).

Definition slot_default : UsageTreeSlotState := mkSlotState None 0 false.

(** The loop of compare-and-exchange ends when the counter did not change in
    between, so that the reservation is one step on the counter. *)
Definition reserve_cached_directories (counter additional limit : Z) : bool * Z :=
  if additional =? 0 then (true, counter)
  else
    match checked_add usize_max counter additional with
    | None => (false, counter)
    | Some updated => if limit <? updated then (false, counter) else (true, updated)
    end.

Definition release_cached_directories (counter released : Z) : Z :=
  if released =? 0 then counter else sat_sub counter released.

Section slot.
Context (global_directory_limit : Z).

(** The operations of [UsageTreeSlot], on its state and the shared counter. *)
Definition switch_to_streaming (s : UsageTreeSlotState) (counter : Z) :
    UsageTreeSlotState * Z :=
  (mkSlotState None 0 true, release_cached_directories counter (cached_directory_count s)).

Definition resize_directory_accounting (new_count : Z) (s : UsageTreeSlotState) (counter : Z) :
    bool * UsageTreeSlotState * Z :=
  let old_count := cached_directory_count s in
  let '(reserved, counter) :=
    if old_count <? new_count
    then reserve_cached_directories counter (new_count - old_count) global_directory_limit
    else (true, counter) in
  if negb reserved then (false, (switch_to_streaming s counter).1, (switch_to_streaming s counter).2)
  else
    let counter :=
      if new_count <? old_count
      then release_cached_directories counter (old_count - new_count) else counter in
    (true, s <| cached_directory_count := new_count |>, counter).

Definition install_cache (c : UsageTreeCache) (s : UsageTreeSlotState) (counter : Z) :
    bool * UsageTreeSlotState * Z :=
  if streaming_only s then (false, s, counter)
  else
    let '(resized, s, counter) := resize_directory_accounting (directory_count c) s counter in
    if resized then (true, s <| cache := Some c |>, counter) else (false, s, counter).

Definition account_reconciled_cache (s : UsageTreeSlotState) (counter : Z) :
    bool * UsageTreeSlotState * Z :=
  match cache s with
  | None => (false, s, counter)
  | Some c => resize_directory_accounting (directory_count c) s counter
  end.

(** [Drop for UsageTreeSlot]. *)
Definition drop_slot (s : UsageTreeSlotState) (counter : Z) : Z :=
  release_cached_directories counter (cached_directory_count s).

(** ** Scans *)

Inductive PerformedScanKind := PerformedFull | PerformedPartial.

Inductive HybridScanRequest :=
  | StreamingFull
  | RequestFull
  | RequestPartial (relative_directories : list Path).

Definition ScanMeasurement : Type := DirectoryUsage * PerformedScanKind * RootIdentity.

Definition streaming_full_scan (env : DiskEnv) (limits : ScanLimits) :
    result ScanError ScanMeasurement :=
  '(usage, identity) ← scan_directory_with_id env limits;
  Ok (usage, PerformedFull, identity).

Record CachedScan := mkCachedScan {
  scan_generation : string;
  scan_limits : ScanLimits;
  per_target_cache_limit : Z;
}.

(** Each walk over the directory sees its own disk: the [n]th one [disks n]. *)
Definition scan_full (disks : nat → DiskEnv) (n : nat) (scan : CachedScan)
    (s : UsageTreeSlotState) (counter : Z) :
    result ScanError ScanMeasurement * UsageTreeSlotState * Z :=
  match scan_full_bounded (disks n) (scan_limits scan) (scan_generation scan)
          (per_target_cache_limit scan) with
  | Err e => (Err e, s, counter)
  | Ok (Cached replacement) =>
      let identity := root_identity replacement in
      let '(installed, s, counter) := install_cache replacement s counter in
      if installed
      then (Ok (match cache s with Some c => cache_usage c | None => usage_default end,
                PerformedFull, identity), s, counter)
      else (streaming_full_scan (disks (S n)) (scan_limits scan), s, counter)
  | Ok DirectoryLimitExceeded =>
      let '(s, counter) := switch_to_streaming s counter in
      (streaming_full_scan (disks (S n)) (scan_limits scan), s, counter)
  end.

Definition scan_partial (disks : nat → DiskEnv) (n : nat) (scan : CachedScan)
    (relative_directories : list Path) (s : UsageTreeSlotState) (counter : Z) :
    result ScanError ScanMeasurement * UsageTreeSlotState * Z :=
  match cache s with
  | None => scan_full disks n scan s counter
  | Some existing =>
      match reconcile (disks n) (scan_limits scan) existing (scan_generation scan)
              relative_directories with
      | Ok (usage, updated) =>
          let s := s <| cache := Some updated |> in
          let '(_, s, counter) := account_reconciled_cache s counter in
          (Ok (usage, PerformedPartial, root_identity updated), s, counter)
      | Err (ReconcileIo e) => (Err e, s, counter)
      | Err (FullScanRequired _) => scan_full disks (S n) scan s counter
      end
  end.

(** The body of the worker that [scan_hybrid] starts, with the slot of the
    target if it may be cached. *)
Definition scan_worker (disks : nat → DiskEnv) (scan : CachedScan) (request : HybridScanRequest)
    (slot : option UsageTreeSlotState) (counter : Z) :
    result ScanError ScanMeasurement * option UsageTreeSlotState * Z :=
  match slot with
  | None => (streaming_full_scan (disks 0%nat) (scan_limits scan), None, counter)
  | Some s =>
      if streaming_only s
      then (streaming_full_scan (disks 0%nat) (scan_limits scan), Some s, counter)
      else
        let '(r, s, counter) :=
          match request with
          | StreamingFull => (streaming_full_scan (disks 0%nat) (scan_limits scan), s, counter)
          | RequestFull => scan_full disks 0 scan s counter
          | RequestPartial directories => scan_partial disks 0 scan directories s counter
          end in
        (r, Some s, counter)
  end.
End slot.

(** ** The budget of cached directories *)

(** The count of a slot is the size of its tree. *)
Record slot_ok (s : UsageTreeSlotState) : Prop := {
  slot_count : cached_directory_count s =
    match cache s with Some c => directory_count c | None => 0 end;
  slot_streaming : streaming_only s = true → cache s = None;
}.

(** The counter is the count of this slot and of [rest] directories in other
    slots. *)
Record accounted (limit rest : Z) (s : UsageTreeSlotState) (counter : Z) : Prop := {
  accounted_counter : counter = rest + cached_directory_count s;
  accounted_rest : 0 ≤ rest;
  accounted_limit : counter ≤ limit;
}.

Section accounting.
Context (limit : Z) (limit_range : 0 ≤ limit ≤ usize_max).

Lemma slot_count_nonneg s : slot_ok s → 0 ≤ cached_directory_count s.
Proof. intros [-> _]. unfold directory_count. destruct (cache s); lia. Qed.

Lemma release_exact counter n rest :
  0 ≤ n → 0 ≤ rest → counter = rest + n → release_cached_directories counter n = rest.
Proof.
  intros Hn Hr ->. unfold release_cached_directories, sat_sub. case_match; to_prop; lia.
Qed.

Lemma switch_accounted rest s counter :
  accounted limit rest s counter → 0 ≤ cached_directory_count s →
  slot_ok (switch_to_streaming s counter).1 ∧
  accounted limit rest (switch_to_streaming s counter).1 (switch_to_streaming s counter).2.
Proof.
  intros [H1 H2 H3] Hn. unfold switch_to_streaming. cbn. split; [by split|].
  rewrite (release_exact _ _ rest) by done. split; cbn; lia.
Qed.

(** Resizing to the directories of a tree. *)
Lemma resize_accounted c rest s counter :
  accounted limit rest s counter → 0 ≤ cached_directory_count s →
  let '(resized, s', counter') := resize_directory_accounting limit (directory_count c) s counter in
  accounted limit rest s' counter' ∧
  (resized = true → s' = s <| cached_directory_count := directory_count c |>) ∧
  (resized = false → slot_ok s').
Proof.
  intros Hacc Hn. pose proof Hacc as [H1 H2 H3]. unfold resize_directory_accounting.
  assert (Hd : 0 ≤ directory_count c) by (unfold directory_count; lia).
  destruct (cached_directory_count s <? directory_count c) eqn:E1; to_prop.
  - unfold reserve_cached_directories. rewrite (proj2 (Z.eqb_neq _ 0)) by lia.
    destruct (checked_add _ _ _) as [updated|] eqn:E2; [|].
    2:{ destruct (switch_accounted rest s counter Hacc Hn). done. }
    apply checked_add_Some in E2 as [-> ?].
    destruct (limit <? _) eqn:E3; to_prop; cbn [negb].
    { destruct (switch_accounted rest s counter Hacc Hn). done. }
    rewrite (proj2 (Z.ltb_ge _ _)) by lia. split; [|done]. split; cbn; lia.
  - cbn [negb]. destruct (directory_count c <? cached_directory_count s) eqn:E2; to_prop.
    + split; [|done]. rewrite (release_exact _ _ (rest + directory_count c)) by lia. split; cbn; lia.
    + split; [|done]. split; cbn; lia.
Qed.

Lemma install_accounted c rest s counter :
  accounted limit rest s counter → slot_ok s →
  let '(installed, s', counter') := install_cache limit c s counter in
  accounted limit rest s' counter' ∧ slot_ok s' ∧ (installed = true → cache s' = Some c).
Proof.
  intros Hacc Hok. unfold install_cache. destruct (streaming_only s) eqn:Es; [done|].
  pose proof (resize_accounted c rest s counter Hacc (slot_count_nonneg _ Hok)) as H.
  destruct (resize_directory_accounting _ _ _ _) as [[[] s'] counter'].
  - destruct H as (Ha & Hs & _). rewrite Hs in * by done. split; [|split; [|done]].
    + destruct Ha as [A1 A2 A3]. by split.
    + split; cbn; [done|]. by rewrite Es.
  - destruct H as (Ha & _ & Hs). split_and!; [done|by apply Hs|done].
Qed.

Lemma scan_full_accounted disks n scan rest s counter :
  accounted limit rest s counter → slot_ok s →
  let '(_, s', counter') := scan_full limit disks n scan s counter in
  accounted limit rest s' counter' ∧ slot_ok s'.
Proof.
  intros Hacc Hok. unfold scan_full. destruct (scan_full_bounded _ _ _ _) as [[c|]|e]; [| |done].
  - pose proof (install_accounted c rest s counter Hacc Hok) as H.
    destruct (install_cache _ _ _ _) as [[[] s'] counter']; destruct H as (? & ? & _); done.
  - destruct (switch_accounted rest s counter Hacc (slot_count_nonneg _ Hok)). done.
Qed.

Lemma scan_partial_accounted disks n scan directories rest s counter :
  accounted limit rest s counter → slot_ok s →
  let '(_, s', counter') := scan_partial limit disks n scan directories s counter in
  accounted limit rest s' counter' ∧ slot_ok s'.
Proof.
  intros Hacc Hok. unfold scan_partial.
  destruct (cache s) as [existing|] eqn:Ec; [|by apply scan_full_accounted].
  destruct (reconcile _ _ _ _ _) as [[usage updated]|[reason|e]];
    [|by apply scan_full_accounted|done].
  unfold account_reconciled_cache. cbn.
  pose proof (resize_accounted updated rest (s <| cache := Some updated |>) counter) as H.
  destruct (resize_directory_accounting _ _ _ _) as [[resized s'] counter'].
  destruct H as (Ha & H1 & H2); [by destruct Hacc; split|apply (slot_count_nonneg _ Hok)|].
  split; [done|]. destruct resized; [|by apply H2]. rewrite H1 by done. split; cbn; [done|].
  intros Hs. by rewrite (slot_streaming _ Hok Hs) in Ec.
Qed.

Lemma scan_worker_accounted disks scan request rest s counter :
  accounted limit rest s counter → slot_ok s →
  let '(_, slot, counter') := scan_worker limit disks scan request (Some s) counter in
  ∃ s', slot = Some s' ∧ accounted limit rest s' counter' ∧ slot_ok s'.
Proof.
  intros Hacc Hok. unfold scan_worker. destruct (streaming_only s); [by exists s|].
  destruct request as [| |directories].
  - by exists s.
  - pose proof (scan_full_accounted disks 0 scan rest s counter Hacc Hok) as H.
    destruct (scan_full _ _ _ _ _ _) as [[r s'] counter']. eauto.
  - pose proof (scan_partial_accounted disks 0 scan directories rest s counter Hacc Hok) as H.
    destruct (scan_partial _ _ _ _ _ _ _) as [[r s'] counter']. eauto.
Qed.
End accounting.

Record SlotWorld := mkSlotWorld {
  slots : gmap nat UsageTreeSlotState;
  cached_directories : Z;
}.

(** Slots are made when an instance is first scanned with a cache, scanned one
    scan at a time, and dropped when neither the limiter nor a scan holds
    them. *)
Inductive slot_step (limit : Z) : SlotWorld → SlotWorld → Prop :=
  | slot_made id m n :
      m !! id = None → slot_step limit (mkSlotWorld m n) (mkSlotWorld (<[id := slot_default]> m) n)
  | slot_scanned id s disks scan request r s' m n n' :
      m !! id = Some s → scan_worker limit disks scan request (Some s) n = (r, Some s', n') →
      slot_step limit (mkSlotWorld m n) (mkSlotWorld (<[id := s']> m) n')
  | slot_dropped id s m n :
      m !! id = Some s → slot_step limit (mkSlotWorld m n) (mkSlotWorld (delete id m) (drop_slot s n)).

Definition total_directories (m : gmap nat UsageTreeSlotState) : Z :=
  map_fold (λ _ s n, cached_directory_count s + n) 0 m.

Lemma total_directories_delete m id s :
  m !! id = Some s →
  total_directories m = cached_directory_count s + total_directories (delete id m).
Proof.
  intros Hs. unfold total_directories. 
  apply (map_fold_delete_L (λ _ s n, cached_directory_count s + n) 0 id s m); [|done]. intros; lia.
Qed.

Lemma total_directories_insert m id s :
  total_directories (<[id := s]> m) = cached_directory_count s + total_directories (delete id m).
Proof.
  rewrite (total_directories_delete _ id s) by apply lookup_insert_eq. by rewrite delete_insert_eq.
Qed.

Lemma total_directories_nonneg m :
  (∀ id s, m !! id = Some s → slot_ok s) → 0 ≤ total_directories m.
Proof.
  induction m as [|id s m Hid IH] using map_ind; intros Hok; [done|].
  rewrite total_directories_insert, delete_id by done.
  pose proof (slot_count_nonneg s (Hok id s ltac:(apply lookup_insert_eq))).
  enough (0 ≤ total_directories m) by lia. apply IH. intros i t Ht. apply (Hok i).
  rewrite lookup_insert_ne; [done|]. congruence.
Qed.

(** The budget of cached directories is kept exactly.  The shared counter
    is always the number of directories cached for all instances together, no
    release ever takes it below zero, and it never passes the configured
    limit; a tree that does not fit is given up and its instance streams from
    then on. *)
Theorem cached_directories_exact limit w :
  0 ≤ limit ≤ usize_max → rtc (slot_step limit) (mkSlotWorld ∅ 0) w →
  cached_directories w = total_directories (slots w) ∧ cached_directories w ≤ limit ∧
  ∀ id s, slots w !! id = Some s →
    cached_directory_count s = (match cache s with Some c => directory_count c | None => 0 end) ∧
    (streaming_only s = true → cache s = None).
Proof.
  intros Hl Hw.
  enough (cached_directories w = total_directories (slots w) ∧ cached_directories w ≤ limit ∧
          ∀ id s, slots w !! id = Some s → slot_ok s) as (? & ? & Hs).
  { split_and!; [done..|]. intros id s []%Hs. auto. }
  revert w Hw. apply (rtc_ind_r (λ w, cached_directories w = total_directories (slots w) ∧
    cached_directories w ≤ limit ∧ ∀ id s, slots w !! id = Some s → slot_ok s)).
  { split_and!; [done|cbn; lia|]. intros id s Hs. cbn in Hs. by rewrite lookup_empty in Hs. }
  intros w w' _ Hstep (Hn & Hle & Hok).
  assert (Hothers : ∀ id, 0 ≤ total_directories (delete id (slots w))).
  { intros id. apply total_directories_nonneg. intros i s [_ Hs]%lookup_delete_Some. eauto. }
  destruct Hstep as [id m n Hid|id s disks scan request r s' m n n' Hs Hscan|id s m n Hs];
    cbn [slots cached_directories] in *; specialize (Hothers id).
  - rewrite total_directories_insert, delete_id by done. split_and!; [done..|].
    intros i s [[<- <-]|[_ ?]]%lookup_insert_Some; [by split|eauto].
  - rewrite (total_directories_delete m id s) in Hn by done.
    pose proof (scan_worker_accounted limit disks scan request (total_directories (delete id m)) s n)
      as H. rewrite Hscan in H.
    destruct H as (s2 & [= <-] & [H1 _ H3] & H4); [split; lia|eauto|].
    rewrite total_directories_insert. split_and!; [lia|lia|].
    intros i t [[<- <-]|[_ ?]]%lookup_insert_Some; [done|eauto].
  - rewrite (total_directories_delete m id s) in Hn by done. unfold drop_slot.
    pose proof (slot_count_nonneg s (Hok _ _ Hs)).
    rewrite (release_exact _ _ (total_directories (delete id m))) by lia. split_and!; [done|lia|].
    intros i t [_ ?]%lookup_delete_Some. eauto.
Qed.

Definition demo_slots : SlotWorld :=
  mkSlotWorld (<[0%nat := mkSlotState (Some demo_cache) 2 false]> {[0%nat := slot_default]}) 2.

Lemma cached_directories_exact_witness :
  cached_directories demo_slots = total_directories (slots demo_slots).
Proof.
  apply (cached_directories_exact 3); [done|].
  apply (rtc_l _ _ (mkSlotWorld {[0%nat := slot_default]} 0)); [by apply slot_made|].
  apply rtc_once.
  apply (slot_scanned 3 0 slot_default (λ _, demo_disk 100)
           (mkCachedScan "g" demo_limits 10) RequestFull
           (Ok (mkUsage 103 20480 3, PerformedFull, mkRootIdentity 1 10))
           (mkSlotState (Some demo_cache) 2 false) {[0%nat := slot_default]} 0 2);
    vm_compute; reflexivity.
Defined.

(** ** What a scan measures *)

(** A tree that a full scan of the directory leaves is the tree of the
    directory. *)
Lemma scan_full_bounded_exact env limits generation max_cached d st c :
  serves env d st → 0 ≤ max_entries limits →
  scan_full_bounded env limits generation max_cached = Ok (Cached c) →
  cache_usage c = dir_total st d ∧ root_identity c = identity_from_stat st.
Proof.
  intros Hs Hm. unfold scan_full_bounded. destruct (max_cached =? 0); [done|].
  rewrite (quiet_open_root _ _ _ Hs). step_ok.
  destruct (scan_directory_tree _ _ _ _ _ _ _ _ _) as [[[t b] ns]|e] eqn:E; [|by destruct e].
  apply scan_tree_sound in E; [|unfold budget_good, u64_max; cbn; lia].
  destruct E as [_ _ _ _ [= -> -> ->] _ _ _ _].
  intros (x & _ & (id' & _ & H)%bind_Ok)%bind_Ok. case_bool_decide; [done|]. simplify_eq.
  split; [|done]. unfold cache_usage. cbn [nodes]. by rewrite (right_id_L ∅ (∪)), dir_nodes_root.
Qed.

Lemma reconcile_identity env limits c generation changed u c' d st :
  serves env d st → reconcile env limits c generation changed = Ok (u, c') →
  root_identity c = identity_from_stat st.
Proof.
  intros Hs. unfold reconcile. case_bool_decide; [done|]. rewrite (quiet_open_root _ _ _ Hs).
  cbn [io result_map_err]. rewrite bind_of_Ok. case_bool_decide as Hid; [done|]. intros _.
  destruct (decide (root_identity c = identity_from_stat st)); [done|]. destruct Hid. congruence.
Qed.

Section exact.
Context (limit : Z) (disks : nat → DiskEnv) (scan : CachedScan) (d : OpenDir) (st : Stat).
Hypothesis disks_still : ∀ n, serves (disks n) d st.
Hypothesis disks_named : ∀ n, named_env (disks n).
Hypothesis d_steady : steady d.
Hypothesis entries_range : 0 ≤ max_entries (scan_limits scan) < u64_max.

(** The usage and identity of the directory, if anything is measured. *)
Definition exact_measurement (r : result ScanError ScanMeasurement) : Prop :=
  ∀ u k id, r = Ok (u, k, id) → u = dir_total st d ∧ id = identity_from_stat st.

Lemma root_still n : (∀ now, open_path (disks n) now [] = OpenedDir d) ∧ fstat d = Ok st.
Proof.
  split; [intros now; by destruct (serves_down _ _ _ (disks_still n) now [] st d eq_refl)|].
  by destruct (serves_down _ _ _ (disks_still n) 0%nat [] st d eq_refl).
Qed.

Lemma streaming_exact n : exact_measurement (streaming_full_scan (disks n) (scan_limits scan)).
Proof.
  intros u k id. unfold streaming_full_scan. intros ([u' id'] & H & [= <- _ <-])%bind_Ok.
  destruct (root_still n) as [Hr Hf].
  by apply (streaming_scan_ok _ _ d st Hr Hf entries_range) in H as (_ & ? & ?).
Qed.

Lemma scan_full_exact n s counter :
  exact_measurement (scan_full limit disks n scan s counter).1.1.
Proof.
  unfold scan_full. destruct (scan_full_bounded _ _ _ _) as [[c|]|e] eqn:E; [| |done].
  - apply (scan_full_bounded_exact _ _ _ _ d st) in E as [Hu Hid]; [|done|lia].
    destruct (install_cache limit c s counter) as [[[] s'] counter'] eqn:Ei;
      [|apply streaming_exact]. cbn. intros u k id [= <- _ <-]. split; [|done].
    assert (cache s' = Some c) as ->; [|done].
    unfold install_cache in Ei. destruct (streaming_only s); [done|].
    destruct (resize_directory_accounting _ _ _ _) as [[[] ?] ?]; [|done]. by simplify_eq.
  - apply streaming_exact.
Qed.

Lemma scan_partial_exact n directories s counter :
  (∀ c, cache s = Some c → cache_of (scan_limits scan) c ∧
     reported (nodes c) (dir_nodes [] st d) directories) →
  exact_measurement (scan_partial limit disks n scan directories s counter).1.1.
Proof.
  intros Hc. unfold scan_partial. destruct (cache s) as [c|] eqn:Ec; [|apply scan_full_exact].
  destruct (Hc c eq_refl) as [Hof Hrep].
  destruct (reconcile _ _ _ _ _) as [[u c']|[reason|e]] eqn:E; [|apply scan_full_exact|done].
  destruct (account_reconciled_cache _ _ _) as [[? s'] counter']. cbn.
  intros u' k id [= <- _ <-]. assert (Hm : 0 ≤ max_entries (scan_limits scan)) by lia.
  pose proof (cache_of_ok _ _ Hm Hof) as Hok.
  pose proof (reconcile_ok _ _ _ _ _ _ _ (disks_named n) Hm Hok E) as (_ & _ & Hc').
  pose proof (reconcile_identity _ _ _ _ _ _ _ _ _ (disks_still n) E) as Hid.
  apply (reconcile_exact _ _ _ (disks_still n)) in E as [_ ->]; [|by apply steady_proper|auto..].
  split; [done|]. by rewrite Hc'.
Qed.
End exact.

Section total.
Context (limit : Z) (disks : nat → DiskEnv) (scan : CachedScan) (d : OpenDir) (st : Stat).
Hypothesis disks_still : ∀ n, serves (disks n) d st.
Hypothesis disks_named : ∀ n, named_env (disks n).
Hypothesis disks_clock : ∀ n now, elapsed (disks n) now < timeout (scan_limits scan).
Hypothesis d_steady : steady d.
Hypothesis entries_range : 0 ≤ max_entries (scan_limits scan) < u64_max.
Hypothesis d_measurable : measurable (disks 0%nat) (scan_limits scan) d st.

Lemma measurable_always n : measurable (disks n) (scan_limits scan) d st.
Proof.
  destruct d_measurable as (? & ? & _ & ? & ?). split_and!; try done. intros t _. apply disks_clock.
Qed.

Lemma streaming_succeeds n : ∃ m, streaming_full_scan (disks n) (scan_limits scan) = Ok m.
Proof.
  destruct (root_still disks d st disks_still n) as [Hr Hf]. unfold streaming_full_scan.
  rewrite (proj2 (streaming_scan_ok (disks n) (scan_limits scan) d st Hr Hf entries_range
                    (dir_total st d) (identity_from_stat st))).
  - by eexists.
  - split; [apply measurable_always|done].
Qed.

Lemma scan_full_succeeds n s counter :
  ∃ m, (scan_full limit disks n scan s counter).1.1 = Ok m.
Proof.
  destruct (root_still disks d st disks_still n) as [Hr Hf]. unfold scan_full.
  destruct (caching_scan_total (disks n) (scan_limits scan) d st Hr Hf
    (serves_mode _ _ _ (disks_still n)) entries_range (scan_generation scan)
    (per_target_cache_limit scan) d_steady (measurable_always n)) as [[c|] ->].
  - destruct (install_cache _ _ _ _) as [[[] s'] counter']; [by eexists|apply streaming_succeeds].
  - apply streaming_succeeds.
Qed.

Lemma scan_partial_succeeds n directories s counter :
  (∀ c, cache s = Some c → cache_of (scan_limits scan) c ∧
     reported (nodes c) (dir_nodes [] st d) directories) →
  ∃ m, (scan_partial limit disks n scan directories s counter).1.1 = Ok m.
Proof.
  intros Hc. unfold scan_partial. destruct (cache s) as [c|] eqn:Ec; [|apply scan_full_succeeds].
  destruct (Hc c eq_refl) as [Hof Hrep].
  destruct (decide (scan_generation scan = target_generation c)) as [Hg|Hg].
  - destruct d_measurable as (Hbl & Hr & _ & Hfit & Hent). rewrite Hg.
    assert (Hok : cache_ok c) by (eapply cache_of_ok; [|done]; lia).
    pose proof (reconcile_cases (disks n) (scan_limits scan) c d st (disks_still n) (disks_clock n)
      entries_range d_steady Hbl Hr Hfit Hent Hok directories (disks_named n) Hrep) as Hcases.
    destruct Hcases as [(u & c' & ->)|(reason & -> & _)]; [|apply scan_full_succeeds].
    destruct (account_reconciled_cache _ _ _) as [[? ?] ?]. by eexists.
  - unfold reconcile. rewrite bool_decide_eq_true_2 by done. apply scan_full_succeeds.
Qed.
End total.

(** C23. Every way to measure an instance gives its usage.  On a disk that holds
    still, whatever scan is asked for, whatever the slot holds (nothing, a tree
    with the changes since reported, or a tree that was given up), a scan that
    returns a usage returns that of the directory.  And it returns one whenever
    the directory can be measured at all in time: when the tree does not fit the
    limit of its target or the budget shared by all of them, the scan streams;
    when a partial scan cannot start from what was reported, when the tree is of
    another generation or another directory, or is outgrown, the scan is a full
    one. *)
Theorem scans_measure_the_directory limit disks scan request slot counter d st :
  (∀ n, serves (disks n) d st) → (∀ n, named_env (disks n)) → steady d →
  0 ≤ max_entries (scan_limits scan) < u64_max →
  (∀ s c, slot = Some s → cache s = Some c → cache_of (scan_limits scan) c ∧
     ∀ directories, request = RequestPartial directories →
       reported (nodes c) (dir_nodes [] st d) directories) →
  let r := (scan_worker limit disks scan request slot counter).1.1 in
  (∀ u k id, r = Ok (u, k, id) → u = dir_total st d ∧ id = identity_from_stat st) ∧
  ((∀ n now, elapsed (disks n) now < timeout (scan_limits scan)) →
   measurable (disks 0%nat) (scan_limits scan) d st →
   ∃ k id, r = Ok (dir_total st d, k, id)).
Proof.
  intros Hs Hn Hst He Hslot r.
  assert (Hex : exact_measurement d st r).
  { subst r. unfold scan_worker. destruct slot as [s|]; [|by apply streaming_exact].
    destruct (streaming_only s); [by apply streaming_exact|].
    destruct request as [| |directories]; [by apply streaming_exact|..].
    - pose proof (scan_full_exact limit disks scan d st Hs He 0 s counter) as H.
      destruct (scan_full _ _ _ _ _ _) as [[? ?] ?]. exact H.
    - pose proof (scan_partial_exact limit disks scan d st Hs Hn Hst He 0 directories s counter) as H.
      destruct (scan_partial _ _ _ _ _ _ _) as [[? ?] ?]. apply H. intros c Hc.
      destruct (Hslot s c eq_refl Hc) as [? Hrep]. auto. }
  split; [done|]. intros Hclock Hm.
  enough (∃ m, r = Ok m) as [[[u k] id] Hr].
  { destruct (Hex u k id Hr) as [-> _]. eauto. }
  subst r. unfold scan_worker. destruct slot as [s|]; [|by eapply streaming_succeeds].
  destruct (streaming_only s); [by eapply streaming_succeeds|].
  destruct request as [| |directories]; [by eapply streaming_succeeds|..].
  - pose proof (scan_full_succeeds limit disks scan d st Hs Hclock Hst He Hm 0 s counter) as H.
    destruct (scan_full _ _ _ _ _ _) as [[? ?] ?]. exact H.
  - pose proof (scan_partial_succeeds limit disks scan d st Hs Hn Hclock Hst He Hm 0
                  directories s counter) as H.
    destruct (scan_partial _ _ _ _ _ _ _) as [[? ?] ?]. apply H. intros c Hc.
    destruct (Hslot s c eq_refl Hc) as [? Hrep]. auto.
Qed.

Lemma demo_measurable : measurable (demo_disk 7000) demo_limits (demo_root 7000) demo_root_stat.
Proof.
  split_and!; [done| | | |].
  - cbn. by repeat split.
  - intros t _. apply demo_reconcilable.
  - vm_compute. by split_and!.
  - vm_compute. by intros [=].
Qed.

Lemma demo_reported_slot s c :
  Some (mkSlotState (Some demo_cache) 2 false) = Some s → cache s = Some c →
  cache_of demo_limits c ∧ ∀ directories, RequestPartial [[Normal "base"]] = RequestPartial directories →
    reported (nodes c) (dir_nodes [] demo_root_stat (demo_root 7000)) directories.
Proof.
  intros [= <-] [= <-]. split; [apply demo_scanned|]. intros directories [= <-]. apply demo_reported.
Qed.

(** The cached tree is brought up to date; one of another generation is of no
    use, and the limit of one directory is too small for the tree. *)
Lemma scans_measure_the_directory_witness :
  (∃ k id,
    (scan_worker 100 (λ _, demo_disk 7000) (mkCachedScan "g" demo_limits 10)
       (RequestPartial [[Normal "base"]]) (Some (mkSlotState (Some demo_cache) 2 false)) 2).1.1 =
    Ok (dir_total demo_root_stat (demo_root 7000), k, id)) ∧
  (∃ k id,
    (scan_worker 100 (λ _, demo_disk 7000) (mkCachedScan "h" demo_limits 1)
       (RequestPartial [[Normal "base"]]) (Some (mkSlotState (Some demo_cache) 2 false)) 2).1.1 =
    Ok (dir_total demo_root_stat (demo_root 7000), k, id)).
Proof.
  split;
  [apply (scans_measure_the_directory 100 (λ _, demo_disk 7000) (mkCachedScan "g" demo_limits 10)
           (RequestPartial [[Normal "base"]]) (Some (mkSlotState (Some demo_cache) 2 false)) 2
           (demo_root 7000) demo_root_stat)
  |apply (scans_measure_the_directory 100 (λ _, demo_disk 7000) (mkCachedScan "h" demo_limits 1)
           (RequestPartial [[Normal "base"]]) (Some (mkSlotState (Some demo_cache) 2 false)) 2
           (demo_root 7000) demo_root_stat)];
  first [intros n; apply demo_serves | intros n; apply demo_named | apply demo_steady
        | apply demo_reported_slot | intros n now; apply demo_reconcilable | apply demo_measurable
        | vm_compute; by split].
Defined.
