(* ===== verification/SoftLimiter.v ===== *)
(** * Enforcing a disk limit by scanning

    Models the rest of [server/disk/soft/]: the thresholds of an instance
    ([thresholds.rs]) from its growth ([growth.rs]), the decisions on a sample
    and on a failed scan ([enforcement.rs]), and the scan and its enforcement
    together ([scan.rs], [mod.rs]).

    Numbers of type [f64] are IEEE 754 numbers, computed by the specification
    [SpecFloat]; only [powf], a function of the C library, is a parameter. *)
From Stdlib Require Import SpecFloat.
From S2P Require Import Prelude Planner Engines DiskScan UsageTree SoftScan.

Local Open Scope Z_scope.

(** ** Floating-point numbers *)

Definition f64 : Type := spec_float.

Definition f64_of_Z (n : Z) : f64 := binary_normalize 53 1024 n 0 false.
Definition f64_add : f64 → f64 → f64 := SFadd 53 1024.
Definition f64_sub : f64 → f64 → f64 := SFsub 53 1024.
Definition f64_mul : f64 → f64 → f64 := SFmul 53 1024.
Definition f64_div : f64 → f64 → f64 := SFdiv 53 1024.
Definition f64_EPSILON : f64 := binary_normalize 53 1024 1 (-52) false.

Definition f64_is_nan (x : f64) : bool := match x with S754_nan => true | _ => false end.
Definition f64_is_finite (x : f64) : bool :=
  match x with S754_zero _ | S754_finite _ _ _ => true | _ => false end.

(** [f64::max] ignores a NaN; [f64::clamp] keeps one. *)
Definition f64_max (x y : f64) : f64 :=
  if f64_is_nan x then y else if f64_is_nan y then x else if SFltb x y then y else x.
Definition f64_clamp (lo hi x : f64) : f64 :=
  let x := if SFltb x lo then lo else x in
  if SFltb hi x then hi else x.

(** [as u64]: towards zero, saturating, and zero for a NaN. *)
Definition f64_to_u64 (x : f64) : Z :=
  match x with
  | S754_zero _ | S754_nan | S754_infinity true | S754_finite true _ _ => 0
  | S754_infinity false => u64_max
  | S754_finite false m e => Z.min u64_max (Z.shiftl (Z.pos m) e)
  end.

Definition f64_ceil (x : f64) : f64 :=
  match x with
  | S754_finite s m e =>
      if 0 <=? e then x
      else
        let n := if s then - Z.shiftr (Z.pos m) (- e) else - Z.shiftr (- Z.pos m) (- e) in
        binary_normalize 53 1024 n 0 s
  | _ => x
  end.

Definition as_secs_f64 (duration : Z) : f64 :=
  f64_add (f64_of_Z (duration / 1000000000))
    (f64_div (f64_of_Z (duration mod 1000000000)) (f64_of_Z 1000000000)).

(** ** Data *)

Record SoftDiskScannerConfig := mkScannerConfig {
  scan_interval_seconds : Z;
  use_inotify : bool;
  full_scan_interval_seconds : Z;
  inotify_debounce_milliseconds : Z;
  max_dirty_paths_per_instance : Z;
  max_concurrent_scans : Z;
  max_cached_directories_global : Z;
  max_entries_per_scan : Z;
  scan_timeout_seconds : Z;
  max_consecutive_scan_failures : Z;
  safety_reserve_mib : Z;
  recovery_percent : Z;
  shutdown_grace_seconds : Z;
}.

Definition default_scanner_config : SoftDiskScannerConfig :=
  mkScannerConfig 15 true 90 500 512 2 32768 1000000 30 3 64 85 30.

Record SoftDiskTarget := mkSoftDiskTarget {
  instance_id : string;
  created_at : string;
  protocol : Protocol;
  data_path : string;
  limit_bytes : Z;
  durable_blocked : bool;
}.

Record TargetFingerprint := mkTargetFingerprint {
  fp_created_at : string;
  fp_protocol : Protocol;
  fp_data_path : string;
  fp_limit_bytes : Z;
}.
#[export] Instance TargetFingerprint_eq_dec : EqDecision TargetFingerprint.
Proof. solve_decision. Defined.

Definition fingerprint_of (t : SoftDiskTarget) : TargetFingerprint :=
  mkTargetFingerprint (created_at t) (protocol t) (data_path t) (limit_bytes t).

Record SoftDiskSnapshot := mkSnapshot {
  snapshot_usage : DirectoryUsage;
  snapshot_limit_bytes : Z;
  stop_threshold_bytes : Z;
  recovery_threshold_bytes : Z;
  growth_bytes_per_second : f64;
  peak_growth_bytes_per_second : f64;
  predicted_seconds_to_limit : option Z;
  blocked : bool;
  sampled_at : Z;
}.

Record TrackerState := mkTracker {
  tracker_target : TargetFingerprint;
  tracker_snapshot : SoftDiskSnapshot;
  warned : bool;
}.

Record TargetScanFailures := mkScanFailures {
  failures_target : TargetFingerprint;
  consecutive : Z;
}.

Record SampleDecision := mkDecision {
  decision_snapshot : SoftDiskSnapshot;
  warning : bool;
  must_stop : bool;
  already_blocked : bool;
  recovered : bool;
}.

Inductive SoftDiskBlockReason :=
  | UsageThreshold
  | Unmeasurable (consecutive_failures : Z) (error : string)
  | ScannerCapacityOutage (consecutive_failures : Z) (error : string).

Record SoftDiskLimitExceeded := mkExceeded {
  exceeded_snapshot : SoftDiskSnapshot;
  exceeded_reason : SoftDiskBlockReason;
}.

Inductive StopOutcome := Graceful | Forced | SkippedStale.

Inductive ScanOutcome :=
  | Healthy (s : SoftDiskSnapshot)
  | Warning (s : SoftDiskSnapshot)
  | Recovered (s : SoftDiskSnapshot)
  | AlreadyBlocked (s : SoftDiskSnapshot)
  | Stopped (s : SoftDiskSnapshot) (outcome : StopOutcome).

(** ** Thresholds *)

Definition mmap_writes_bypass_inotify (p : Protocol) : bool :=
  match p with Qdrant => true | _ => false end.

Definition full_scan_interval_secs (config : SoftDiskScannerConfig) (p : Protocol) : Z :=
  if use_inotify config && negb (mmap_writes_bypass_inotify p)
  then Z.max (full_scan_interval_seconds config) (scan_interval_seconds config)
  else scan_interval_seconds config.

Definition safety_reserve_bytes (config : SoftDiskScannerConfig) (p : Protocol) (limit : Z)
    (growth : f64) : Z :=
  let maximum := limit / 5 in
  let configured := Z.min (mib_to_bytes (safety_reserve_mib config)) maximum in
  let exposure_seconds :=
    u64_sat_add (u64_sat_add (u64_sat_add (full_scan_interval_secs config p)
      (scan_timeout_seconds config)) (shutdown_grace_seconds config)) 1 in
  let predicted :=
    f64_to_u64 (f64_clamp (f64_of_Z 0) (f64_of_Z maximum)
                  (f64_mul growth (f64_of_Z exposure_seconds))) in
  Z.min (Z.max configured predicted) maximum.

Definition thresholds (config : SoftDiskScannerConfig) (p : Protocol) (limit : Z) (growth : f64) :
    Z * Z :=
  let reserve := safety_reserve_bytes config p limit growth in
  let stop_threshold := sat_sub limit reserve in
  let configured_recovery := u64_sat_mul limit (Z.min (recovery_percent config) 99) / 100 in
  let hysteresis_margin := Z.max (limit / 20) 1 in
  (stop_threshold, Z.min configured_recovery (sat_sub stop_threshold hysteresis_margin)).

Definition predict_seconds_to_limit (current limit : Z) (growth : f64) : option Z :=
  if limit <=? current then Some 0
  else if negb (f64_is_finite growth) || SFleb growth (f64_of_Z 0) then None
  else Some (f64_to_u64 (f64_ceil (f64_div (f64_of_Z (limit - current)) growth))).

(** ** Growth *)

(** The doubles nearest to 0.6 and 0.75. *)
Definition PREVIOUS_RATE_DECAY_PER_INTERVAL : f64 := S754_finite false 5404319552844595 (-53).
Definition INSTANTANEOUS_RATE_FLOOR_FACTOR : f64 := f64_div (f64_of_Z 3) (f64_of_Z 4).

Section limiter.
Context (powf : f64 → f64 → f64).

Definition growth_rate (previous : option TrackerState) (bytes now base_scan_interval : Z) : f64 :=
  match previous with
  | None => f64_of_Z 0
  | Some previous =>
      let elapsed := as_secs_f64 (sat_sub now (sampled_at (tracker_snapshot previous))) in
      if SFleb elapsed f64_EPSILON then growth_bytes_per_second (tracker_snapshot previous)
      else
        let instantaneous :=
          f64_div (f64_of_Z (sat_sub bytes
            (physical_bytes (snapshot_usage (tracker_snapshot previous))))) elapsed in
        let elapsed_intervals :=
          f64_div elapsed (f64_max (as_secs_f64 base_scan_interval) f64_EPSILON) in
        let previous_weight :=
          f64_clamp (f64_of_Z 0) (f64_of_Z 1)
            (powf PREVIOUS_RATE_DECAY_PER_INTERVAL elapsed_intervals) in
        f64_max
          (f64_add (f64_mul (growth_bytes_per_second (tracker_snapshot previous)) previous_weight)
             (f64_mul instantaneous (f64_sub (f64_of_Z 1) previous_weight)))
          (f64_mul instantaneous INSTANTANEOUS_RATE_FLOOR_FACTOR)
  end.

(** ** Decisions *)

Definition WARNING_USAGE_PERCENT : Z := 75.

Definition tracked (states : gmap string TrackerState) (target : SoftDiskTarget) :
    option TrackerState :=
  match states !! instance_id target with
  | Some state => if bool_decide (tracker_target state = fingerprint_of target)
                  then Some state else None
  | None => None
  end.

Definition record_sample (config : SoftDiskScannerConfig) (now : Z) (target : SoftDiskTarget)
    (usage : DirectoryUsage) (states : gmap string TrackerState) :
    SampleDecision * gmap string TrackerState :=
  let previous := tracked states target in
  let growth := growth_rate previous (physical_bytes usage) now
                  (from_secs (Z.max (scan_interval_seconds config) 1)) in
  let peak := match previous with
              | Some state =>
                  f64_max (peak_growth_bytes_per_second (tracker_snapshot state)) growth
              | None => growth
              end in
  let '(stop_threshold, recovery_threshold) :=
    thresholds config (protocol target) (limit_bytes target) growth in
  let was_blocked :=
    durable_blocked target
    || match previous with Some state => blocked (tracker_snapshot state) | None => false end in
  let recovered := was_blocked && (physical_bytes usage <? recovery_threshold) in
  let blocked :=
    if recovered then false else was_blocked || (stop_threshold <=? physical_bytes usage) in
  let must_stop := negb was_blocked && blocked in
  let predicted := predict_seconds_to_limit (physical_bytes usage) (limit_bytes target) growth in
  let near_limit :=
    u64_sat_mul (limit_bytes target) WARNING_USAGE_PERCENT / 100 <=? physical_bytes usage in
  let warning_horizon_seconds :=
    u64_sat_mul (full_scan_interval_secs config (protocol target)) 2 in
  let limit_reached_soon :=
    match predicted with Some seconds => seconds <=? warning_horizon_seconds | None => false end in
  let warning_now := negb blocked && (near_limit || limit_reached_soon) in
  let previously_warned := match previous with Some state => warned state | None => false end in
  let snapshot :=
    mkSnapshot usage (limit_bytes target) stop_threshold recovery_threshold growth peak predicted
      blocked now in
  (mkDecision snapshot (warning_now && negb previously_warned) must_stop
     (was_blocked && negb recovered) recovered,
   <[instance_id target := mkTracker (fingerprint_of target) snapshot warning_now]> states).

Definition blocked_scan_snapshot (config : SoftDiskScannerConfig) (now : Z)
    (target : SoftDiskTarget) (states : gmap string TrackerState) :
    SoftDiskSnapshot * gmap string TrackerState :=
  let previous := tracked states target in
  let usage := match previous with
               | Some state => snapshot_usage (tracker_snapshot state)
               | None => usage_default
               end in
  let growth := match previous with
                | Some state => growth_bytes_per_second (tracker_snapshot state)
                | None => f64_of_Z 0
                end in
  let peak := match previous with
              | Some state => peak_growth_bytes_per_second (tracker_snapshot state)
              | None => f64_of_Z 0
              end in
  let '(stop_threshold, recovery_threshold) :=
    thresholds config (protocol target) (limit_bytes target) growth in
  let snapshot :=
    mkSnapshot usage (limit_bytes target) stop_threshold recovery_threshold growth peak
      (predict_seconds_to_limit (physical_bytes usage) (limit_bytes target) growth) true now in
  (snapshot, <[instance_id target := mkTracker (fingerprint_of target) snapshot false]> states).

(** ** The runtime

    What the limiter asks of the daemon: the trait [SoftDiskRuntime], on a state
    of the outside world.  [graceful_stop] gives [None] if it has not returned
    when the grace period is over. *)
Class SoftDiskRuntime (R : Type) := {
  mark_disk_blocked : SoftDiskTarget → SoftDiskLimitExceeded → R → result string unit * R;
  graceful_stop : SoftDiskTarget → Z → R → option (result string unit) * R;
  force_kill : SoftDiskTarget → R → result string unit * R;
  clear_disk_blocked : SoftDiskTarget → R → result string unit * R;
  enforce_disk_stop :
    SoftDiskTarget → SoftDiskLimitExceeded → Z → R → result string StopOutcome * R;
}.

(** The errors the limiter makes itself. *)
Inductive LimiterError :=
  | RuntimeError (error : string)
  | UnmeasurableYet (error : string) (failures threshold : Z)
  | CapacityOutageYet (error : string) (failures threshold : Z)
  | ScanFailed (error : string)
  | StartBlocked (usage recovery limit : Z).

Record UsageTreeState := mkUsageTreeState {
  tree_target : TargetFingerprint;
  slot : UsageTreeSlotState;
}.

Record SoftDiskLimiter := mkLimiter {
  config : SoftDiskScannerConfig;
  states : gmap string TrackerState;
  scan_failures : gmap string TargetScanFailures;
  capacity_outage_failures : Z;
  usage_trees : gmap string UsageTreeState;
  limiter_cached_directories : Z;
  per_target_directories : Z;
  global_directories : Z;
}.
#[export] Instance SoftDiskLimiter_eta : Settable SoftDiskLimiter :=
  λ l, mkLimiter (config l) (states l) (scan_failures l) (capacity_outage_failures l)
         (usage_trees l) (limiter_cached_directories l) (per_target_directories l)
         (global_directories l).

Definition DEFAULT_MAX_CACHED_DIRECTORIES_PER_TARGET : Z := 4096.
Definition MAX_SCAN_DEPTH : Z := 128.

Definition limiter_new (c : SoftDiskScannerConfig) : SoftDiskLimiter :=
  mkLimiter c ∅ ∅ 0 ∅ 0 DEFAULT_MAX_CACHED_DIRECTORIES_PER_TARGET
    (max_cached_directories_global c).

Definition shutdown_grace (c : SoftDiskScannerConfig) : Z :=
  from_secs (Z.max (shutdown_grace_seconds c) 1).

Inductive DiskLimitMode := FuseQuota | ProjectQuota | SoftScanner.
#[export] Instance DiskLimitMode_eq_dec : EqDecision DiskLimitMode.
Proof. solve_decision. Defined.

Definition fuse_quota_unsupported (p : Protocol) : bool :=
  match p with Qdrant => true | _ => false end.

Definition enforcement_required (global_mode : DiskLimitMode) (p : Protocol) : bool :=
  bool_decide (global_mode = SoftScanner)
  || (bool_decide (global_mode = FuseQuota) && fuse_quota_unsupported p).

Definition limiter_snapshot (target : SoftDiskTarget) (l : SoftDiskLimiter) :
    option SoftDiskSnapshot := tracker_snapshot <$> tracked (states l) target.

(** Dropping the last reference to a slot drops the slot. *)
Definition evict_usage_cache (id : string) (l : SoftDiskLimiter) : SoftDiskLimiter :=
  match usage_trees l !! id with
  | None => l
  | Some tree => l <| usage_trees ::= delete id |>
                   <| limiter_cached_directories ::= drop_slot (slot tree) |>
  end.

Definition limiter_remove (id : string) (l : SoftDiskLimiter) : SoftDiskLimiter :=
  evict_usage_cache id (l <| states ::= delete id |> <| scan_failures ::= delete id |>).

(** The slot of the target, fresh if the target is not the one it was. *)
Definition usage_tree_slot (target : SoftDiskTarget) (l : SoftDiskLimiter) :
    UsageTreeSlotState * SoftDiskLimiter :=
  let fresh l := (slot_default, l <| usage_trees ::=
      <[instance_id target := mkUsageTreeState (fingerprint_of target) slot_default]> |>) in
  match usage_trees l !! instance_id target with
  | None => fresh l
  | Some tree =>
      if bool_decide (tree_target tree = fingerprint_of target) then (slot tree, l)
      else fresh (evict_usage_cache (instance_id target) l)
  end.

(** ** Enforcement *)

Section enforcement.
Context {R : Type} `{!SoftDiskRuntime R}.

Definition stop_with_kill_fallback (target : SoftDiskTarget) (grace : Z) (rt : R) :
    result string StopOutcome * R :=
  let '(stopped, rt) := graceful_stop target grace rt in
  match stopped with
  | Some (Ok _) => (Ok Graceful, rt)
  | Some (Err graceful_error) =>
      let '(killed, rt) := force_kill target rt in
      match killed with
      | Ok _ => (Ok Forced, rt)
      | Err kill_error =>
          (Err ("graceful stop failed (" +:+ graceful_error +:+ "); force kill also failed ("
                +:+ kill_error +:+ ")"), rt)
      end
  | None =>
      let '(killed, rt) := force_kill target rt in
      match killed with Ok _ => (Ok Forced, rt) | Err e => (Err e, rt) end
  end.

(** The provided method [enforce_disk_stop] of the trait. *)
Definition default_enforce_disk_stop (target : SoftDiskTarget) (exceeded : SoftDiskLimitExceeded)
    (grace : Z) (rt : R) : result string StopOutcome * R :=
  let '(marked, rt) := mark_disk_blocked target exceeded rt in
  match marked with
  | Err e => (Err e, rt)
  | Ok _ => stop_with_kill_fallback target grace rt
  end.

Definition stop_for (target : SoftDiskTarget) (snapshot : SoftDiskSnapshot)
    (reason : SoftDiskBlockReason) (l : SoftDiskLimiter) (rt : R) :
    result LimiterError ScanOutcome * SoftDiskLimiter * R :=
  let '(stopped, rt) :=
    enforce_disk_stop target (mkExceeded snapshot reason) (shutdown_grace (config l)) rt in
  (match stopped with
   | Ok outcome => Ok (Stopped snapshot outcome)
   | Err e => Err (RuntimeError e)
   end, l, rt).

Definition enforce_measured_usage (now : Z) (target : SoftDiskTarget) (usage : DirectoryUsage)
    (l : SoftDiskLimiter) (rt : R) : result LimiterError ScanOutcome * SoftDiskLimiter * R :=
  let '(decision, sts) := record_sample (config l) now target usage (states l) in
  let l := l <| states := sts |> in
  let snapshot := decision_snapshot decision in
  if recovered decision
  then
    let '(cleared, rt) := clear_disk_blocked target rt in
    (match cleared with Ok _ => Ok (Recovered snapshot) | Err e => Err (RuntimeError e) end, l, rt)
  else if negb (must_stop decision) && negb (already_blocked decision)
  then (Ok (if warning decision then Warning snapshot else Healthy snapshot), l, rt)
  else stop_for target snapshot UsageThreshold l rt.

Definition record_target_scan_failure (target : SoftDiskTarget) (l : SoftDiskLimiter) :
    Z * SoftDiskLimiter :=
  let n := match scan_failures l !! instance_id target with
           | Some f => if bool_decide (failures_target f = fingerprint_of target)
                       then consecutive f else 0
           | None => 0
           end in
  let n := sat_add u8_max n 1 in
  (n, l <| scan_failures ::=
         <[instance_id target := mkScanFailures (fingerprint_of target) n]> |>).

Definition failure_threshold (l : SoftDiskLimiter) : Z :=
  Z.max (max_consecutive_scan_failures (config l)) 1.

Definition enforce_unmeasurable (now : Z) (target : SoftDiskTarget) (error : string)
    (l : SoftDiskLimiter) (rt : R) : result LimiterError ScanOutcome * SoftDiskLimiter * R :=
  let '(n, l) := record_target_scan_failure target l in
  if n <? failure_threshold l then (Err (UnmeasurableYet error n (failure_threshold l)), l, rt)
  else
    let '(snapshot, sts) := blocked_scan_snapshot (config l) now target (states l) in
    stop_for target snapshot (Unmeasurable n error) (l <| states := sts |>) rt.

Definition enforce_capacity_outage (now : Z) (target : SoftDiskTarget) (error : string)
    (l : SoftDiskLimiter) (rt : R) : result LimiterError ScanOutcome * SoftDiskLimiter * R :=
  let n := sat_add u8_max (capacity_outage_failures l) 1 in
  let l := l <| capacity_outage_failures := n |> in
  if n <? failure_threshold l then (Err (CapacityOutageYet error n (failure_threshold l)), l, rt)
  else
    let '(snapshot, sts) := blocked_scan_snapshot (config l) now target (states l) in
    stop_for target snapshot (ScannerCapacityOutage n error) (l <| states := sts |>) rt.

(** ** A scan *)

(** How a scan went: it got no permit, or a permit and then the disks its walks
    saw; and whether the worker was awaited to its end. *)
Inductive ScanRun :=
  | NoPermit (error : string)
  | WithPermit (disks : nat → DiskEnv) (lost : option string).

Inductive ScanFailure := Capacity (error : string) | Measurement (error : string).

Definition cache_allowed (c : SoftDiskScannerConfig) (p : Protocol) (request : HybridScanRequest) :
    bool :=
  use_inotify c && negb (mmap_writes_bypass_inotify p)
  && match request with StreamingFull => false | _ => true end.

Definition limits_of (c : SoftDiskScannerConfig) : ScanLimits :=
  mkScanLimits (from_secs (Z.max (scan_timeout_seconds c) 1)) (Z.max (max_entries_per_scan c) 1)
    MAX_SCAN_DEPTH.

Definition scan_hybrid (scanner_fingerprint : SoftDiskTarget → string)
    (message : ScanError → string) (target : SoftDiskTarget)
    (request : HybridScanRequest) (run : ScanRun) (l : SoftDiskLimiter) :
    result ScanFailure ScanMeasurement * SoftDiskLimiter :=
  match run with
  | NoPermit error => (Err (Capacity error), l)
  | WithPermit disks lost =>
      let limits := limits_of (config l) in
      let scan := mkCachedScan (scanner_fingerprint target) limits
                    (Z.min (per_target_directories l) (usize_sat_add (max_entries limits) 1)) in
      let '(cached, l) :=
        if cache_allowed (config l) (protocol target) request
        then let '(s, l) := usage_tree_slot target l in (Some s, l)
        else (None, evict_usage_cache (instance_id target) l) in
      let '(r, s, n) :=
        scan_worker (global_directories l) disks scan request cached (limiter_cached_directories l) in
      let l := match s with
               | None => l
               | Some s => l <| usage_trees ::=
                   <[instance_id target := mkUsageTreeState (fingerprint_of target) s]> |>
                   <| limiter_cached_directories := n |>
               end in
      (match lost with
       | Some error => Err (Measurement error)
       | None => result_map_err (λ e, Measurement (message e)) r
       end, l)
  end.

Record HybridScanExecution := mkExecution {
  execution_outcome : ScanOutcome;
  performed : PerformedScanKind;
  measurement_succeeded : bool;
  execution_root_identity : option RootIdentity;
}.

Definition unmeasured (outcome : ScanOutcome) : HybridScanExecution :=
  mkExecution outcome PerformedFull false None.

Definition scan_hybrid_and_enforce (scanner_fingerprint : SoftDiskTarget → string)
    (message : ScanError → string) (now : Z) (target : SoftDiskTarget)
    (request : HybridScanRequest) (run : ScanRun) (l : SoftDiskLimiter) (rt : R) :
    result LimiterError HybridScanExecution * SoftDiskLimiter * R :=
  let '(measured, l) := scan_hybrid scanner_fingerprint message target request run l in
  match measured with
  | Ok (usage, kind, root_id) =>
      let l := l <| scan_failures ::= delete (instance_id target) |>
                 <| capacity_outage_failures := 0 |> in
      let '(r, l, rt) := enforce_measured_usage now target usage l rt in
      (match r with
       | Ok outcome => Ok (mkExecution outcome kind true (Some root_id))
       | Err e => Err e
       end, l, rt)
  | Err (Capacity error) =>
      let '(r, l, rt) := enforce_capacity_outage now target error l rt in
      (match r with Ok outcome => Ok (unmeasured outcome) | Err e => Err e end, l, rt)
  | Err (Measurement error) =>
      let '(r, l, rt) := enforce_unmeasurable now target error l rt in
      (match r with Ok outcome => Ok (unmeasured outcome) | Err e => Err e end, l, rt)
  end.

Definition into_message (f : ScanFailure) : string :=
  match f with
  | Capacity error => "soft disk scanner capacity outage: " +:+ error
  | Measurement error => error
  end.
End enforcement.

Definition ensure_start_allowed (scanner_fingerprint : SoftDiskTarget → string)
    (message : ScanError → string) (now : Z) (target : SoftDiskTarget) (run : ScanRun)
    (l : SoftDiskLimiter) : result LimiterError SoftDiskSnapshot * SoftDiskLimiter :=
  let '(measured, l) := scan_hybrid scanner_fingerprint message target StreamingFull run l in
  let l := evict_usage_cache (instance_id target) l in
  match measured with
  | Err f => (Err (ScanFailed (into_message f)), l)
  | Ok (usage, _, _) =>
      let l := l <| capacity_outage_failures := 0 |>
                 <| scan_failures ::= delete (instance_id target) |> in
      let '(decision, sts) := record_sample (config l) now target usage (states l) in
      let l := l <| states := sts |> in
      let snapshot := decision_snapshot decision in
      (if blocked snapshot
       then Err (StartBlocked (physical_bytes (snapshot_usage snapshot))
                   (recovery_threshold_bytes snapshot) (snapshot_limit_bytes snapshot))
       else Ok snapshot, l)
  end.
End limiter.

(** ** Thresholds are in order *)

Lemma f64_to_u64_range x : 0 ≤ f64_to_u64 x ≤ u64_max.
Proof.
  destruct x as [|[]| |[] m e]; cbn [f64_to_u64]; try (unfold u64_max; lia).
  pose proof (proj2 (Z.shiftl_nonneg (Z.pos m) e)). unfold u64_max. lia.
Qed.

Lemma safety_reserve_range c p limit growth :
  0 ≤ limit → 0 ≤ safety_reserve_mib c →
  0 ≤ safety_reserve_bytes c p limit growth ≤ limit / 5.
Proof.
  intros Hl Hm. unfold safety_reserve_bytes.
  match goal with |- context [f64_to_u64 ?x] => pose proof (f64_to_u64_range x) end.
  assert (0 ≤ limit / 5) by (apply Z.div_pos; lia). lia.
Qed.

(** The thresholds are in order, whatever the growth is measured to be.
    At most a fifth of the limit is kept in reserve; an instance is stopped at
    or below its limit, and allowed again only strictly below the level at
    which it is stopped, so that it is not stopped and started in turn. *)
Theorem thresholds_in_order c p limit growth :
  0 < limit → 0 ≤ safety_reserve_mib c → 0 ≤ recovery_percent c →
  let '(stop, recovery) := thresholds c p limit growth in
  limit - limit / 5 ≤ stop ≤ limit ∧ 0 ≤ recovery < stop ∧
  recovery ≤ limit * Z.min (recovery_percent c) 99 / 100.
Proof.
  intros Hl Hm Hp. unfold thresholds.
  pose proof (safety_reserve_range c p limit growth ltac:(lia) Hm) as Hr.
  assert (H5 : 5 * (limit / 5) ≤ limit) by (apply Z.mul_div_le; lia).
  assert (Hrec : 0 ≤ u64_sat_mul limit (Z.min (recovery_percent c) 99) / 100 ≤
                 limit * Z.min (recovery_percent c) 99 / 100).
  { unfold sat_mul. split; [apply Z.div_pos; [unfold u64_max; lia|done]|].
    apply Z.div_le_mono; lia. }
  unfold sat_sub. lia.
Qed.

Lemma thresholds_in_order_witness :
  let '(stop, recovery) :=
    thresholds default_scanner_config Postgres 1000000 (S754_infinity false) in
  1000000 - 1000000 / 5 ≤ stop ≤ 1000000 ∧ 0 ≤ recovery < stop ∧
  recovery ≤ 1000000 * Z.min (recovery_percent default_scanner_config) 99 / 100.
Proof. apply (thresholds_in_order default_scanner_config Postgres 1000000); done. Defined.

(** ** What a sample leads to *)

Section decisions.
Context (powf : f64 → f64 → f64) {R : Type} `{!SoftDiskRuntime R}.

(** The target is held back: by the durable mark, or by the last sample. *)
Definition held_back (sts : gmap string TrackerState) (target : SoftDiskTarget) : Prop :=
  durable_blocked target = true ∨
  ∃ tr, tracked sts target = Some tr ∧ blocked (tracker_snapshot tr) = true.

Lemma held_decide sts target :
  durable_blocked target
  || match tracked sts target with Some tr => blocked (tracker_snapshot tr) | None => false end =
  true ↔ held_back sts target.
Proof.
  unfold held_back. rewrite orb_true_iff. destruct (tracked sts target) as [tr|]; naive_solver.
Qed.

(** The levels a sample is compared to. *)
Definition stop_level (c : SoftDiskScannerConfig) (now : Z) (target : SoftDiskTarget)
    (usage : DirectoryUsage) (sts : gmap string TrackerState) : Z * Z :=
  thresholds c (protocol target) (limit_bytes target)
    (growth_rate powf (tracked sts target) (physical_bytes usage) now
       (from_secs (Z.max (scan_interval_seconds c) 1))).

Lemma record_sample_spec c now target usage sts :
  let '(stop, recovery) := stop_level c now target usage sts in
  let '(d, sts') := record_sample powf c now target usage sts in
  let snapshot := decision_snapshot d in
  (held_back sts target ∧ physical_bytes usage < recovery ∧ recovered d = true ∧
     blocked snapshot = false ∨
   held_back sts target ∧ recovery ≤ physical_bytes usage ∧ already_blocked d = true ∧
     recovered d = false ∧ blocked snapshot = true ∨
   ¬ held_back sts target ∧ stop ≤ physical_bytes usage ∧ must_stop d = true ∧
     recovered d = false ∧ blocked snapshot = true ∨
   ¬ held_back sts target ∧ physical_bytes usage < stop ∧ must_stop d = false ∧
     already_blocked d = false ∧ recovered d = false ∧ blocked snapshot = false) ∧
  snapshot_usage snapshot = usage ∧ stop_threshold_bytes snapshot = stop ∧
  recovery_threshold_bytes snapshot = recovery ∧
  ∃ warned, sts' = <[instance_id target := mkTracker (fingerprint_of target) snapshot warned]> sts.
Proof.
  unfold stop_level, record_sample.
  destruct (thresholds _ _ _ _) as [stop recovery]. cbn [decision_snapshot].
  pose proof (held_decide sts target) as Hheld.
  set (was := durable_blocked target || _) in *. cbn.
  split; [|split_and!; [done..|by eexists]].
  destruct was.
  - assert (Hh : held_back sts target) by by apply Hheld. cbn.
    destruct (physical_bytes usage <? recovery) eqn:E; to_prop; [by left|right; left]. done.
  - assert (Hh : ¬ held_back sts target) by (intros ?%Hheld; done). cbn.
    destruct (stop <=? physical_bytes usage) eqn:E; to_prop; right; right; [left|right]; done.
Qed.

Lemma record_sample_limit c now target usage sts :
  snapshot_limit_bytes (decision_snapshot (record_sample powf c now target usage sts).1) =
  limit_bytes target.
Proof. unfold record_sample. by destruct (thresholds _ _ _ _). Qed.

(** A measured usage has the right consequence on every branch.  An
    instance that is not held back is left alone strictly below its stop
    threshold and stopped from there on; one that is held back is stopped again
    unless its usage is below the recovery threshold, and only then released.
    The sample is recorded accordingly. *)
Theorem measured_usage_enforced now target usage (l : SoftDiskLimiter) (rt : R) :
  let '(stop, recovery) := stop_level (config l) now target usage (states l) in
  let '(r, l', rt') := enforce_measured_usage powf now target usage l rt in
  ∃ snapshot warned,
    snapshot_usage snapshot = usage ∧ stop_threshold_bytes snapshot = stop ∧
    recovery_threshold_bytes snapshot = recovery ∧
    l' = l <| states ::=
           <[instance_id target := mkTracker (fingerprint_of target) snapshot warned]> |> ∧
    ((held_back (states l) target ∧ physical_bytes usage < recovery ∧ blocked snapshot = false ∧
        (r, rt') = (let '(cleared, rt') := clear_disk_blocked target rt in
                    (match cleared with
                     | Ok _ => Ok (Recovered snapshot)
                     | Err e => Err (RuntimeError e)
                     end, rt'))) ∨
     ((held_back (states l) target ∧ recovery ≤ physical_bytes usage ∨
       ¬ held_back (states l) target ∧ stop ≤ physical_bytes usage) ∧ blocked snapshot = true ∧
        (r, rt') = (let '(stopped, rt') :=
                      enforce_disk_stop target (mkExceeded snapshot UsageThreshold)
                        (shutdown_grace (config l)) rt in
                    (match stopped with
                     | Ok outcome => Ok (Stopped snapshot outcome)
                     | Err e => Err (RuntimeError e)
                     end, rt'))) ∨
     (¬ held_back (states l) target ∧ physical_bytes usage < stop ∧ blocked snapshot = false ∧
        rt' = rt ∧ (r = Ok (Healthy snapshot) ∨ r = Ok (Warning snapshot)))).
Proof.
  pose proof (record_sample_spec (config l) now target usage (states l)) as H.
  unfold enforce_measured_usage.
  destruct (stop_level _ _ _ _ _) as [stop recovery].
  destruct (record_sample _ _ _ _ _ _) as [d sts]. cbv zeta in H.
  destruct H as (Hcase & Hu & Hs & Hr & warned & ->).
  destruct Hcase as [(Hh & Hlt & Hrec & Hb)|[(Hh & Hle & Ha & Hrec & Hb)|
    [(Hh & Hle & Hm & Hrec & Hb)|(Hh & Hlt & Hm & Ha & Hrec & Hb)]]]; rewrite Hrec.
  - destruct (clear_disk_blocked target rt) as [cleared rt'].
    exists (decision_snapshot d), warned. split_and!; try done. left. auto.
  - rewrite Ha, andb_false_r. unfold stop_for.
    destruct (enforce_disk_stop _ _ _ _) as [stopped rt'] eqn:E.
    exists (decision_snapshot d), warned. split_and!; try done. right; left. cbn in E. rewrite E. auto.
  - rewrite Hm. unfold stop_for. cbn [negb andb].
    destruct (enforce_disk_stop _ _ _ _) as [stopped rt'] eqn:E.
    exists (decision_snapshot d), warned. split_and!; try done. right; left. cbn in E. rewrite E. auto.
  - rewrite Hm, Ha. cbn [negb andb].
    exists (decision_snapshot d), warned. split_and!; try done. right; right.
    split_and!; try done. destruct (warning d); auto.
Qed.

(** ** Failing closed *)

Definition failures_of (target : SoftDiskTarget) (l : SoftDiskLimiter) : Z :=
  match scan_failures l !! instance_id target with
  | Some f => if bool_decide (failures_target f = fingerprint_of target) then consecutive f else 0
  | None => 0
  end.

(** A scan that could not measure the target. *)
Definition failed_scan (now : Z) (target : SoftDiskTarget) (error : string)
    (w : SoftDiskLimiter * R) : SoftDiskLimiter * R :=
  let '(_, l, rt) := enforce_unmeasurable now target error w.1 w.2 in (l, rt).

Lemma failed_scan_counts now target error w :
  failures_of target (failed_scan now target error w).1 = sat_add u8_max (failures_of target w.1) 1 ∧
  config (failed_scan now target error w).1 = config w.1.
Proof.
  unfold failed_scan, enforce_unmeasurable, record_target_scan_failure.
  fold (failures_of target w.1). destruct w as [l rt]. cbn [fst snd].
  set (n := sat_add u8_max (failures_of target l) 1).
  assert (Hn : ∀ sts, failures_of target (l <| scan_failures ::= <[instance_id target :=
    mkScanFailures (fingerprint_of target) n]> |> <| states := sts |>) = n).
  { intros sts. unfold failures_of, set_with. cbn. rewrite lookup_insert_eq. cbn.
    by rewrite bool_decide_eq_true_2. }
  destruct (n <? _); [split; [apply (Hn (states l))|done]|].
  unfold stop_for. destruct (blocked_scan_snapshot _ _ _ _) as [snapshot sts].
  destruct (enforce_disk_stop _ _ _ _) as [stopped rt']. split; [apply Hn|done].
Qed.

Lemma failed_scans_count now target error k l rt :
  failures_of target l = 0 → Z.of_nat k ≤ u8_max →
  failures_of target (Nat.iter k (failed_scan now target error) (l, rt)).1 = Z.of_nat k ∧
  config (Nat.iter k (failed_scan now target error) (l, rt)).1 = config l.
Proof.
  intros H0. induction k as [|k IH]; intros Hk; [done|]. rewrite Nat.iter_succ.
  destruct IH as [IH1 IH2]; [lia|].
  destruct (failed_scan_counts now target error (Nat.iter k (failed_scan now target error) (l, rt)))
    as [-> ->]. rewrite IH1. split; [unfold sat_add; lia|done].
Qed.

(** An instance that cannot be measured is stopped in time.  The first
    scans that fail in a row only report so, and leave the instance alone; the
    one that reaches the configured number stops it and holds it back, on the
    last usage that is known. *)
Theorem unmeasurable_fails_closed now target error k (l : SoftDiskLimiter) (rt : R) :
  failures_of target l = 0 → 0 ≤ max_consecutive_scan_failures (config l) ≤ u8_max →
  Z.of_nat (S k) ≤ u8_max →
  let '(l0, rt0) := Nat.iter k (failed_scan now target error) (l, rt) in
  let '(r, l', rt') := enforce_unmeasurable now target error l0 rt0 in
  (Z.of_nat (S k) < failure_threshold l →
     r = Err (UnmeasurableYet error (Z.of_nat (S k)) (failure_threshold l)) ∧ rt' = rt0 ∧
     states l' = states l0) ∧
  (failure_threshold l ≤ Z.of_nat (S k) →
     ∃ snapshot, blocked snapshot = true ∧
       states l' = <[instance_id target := mkTracker (fingerprint_of target) snapshot false]>
                     (states l0) ∧
       (r, rt') = (let '(stopped, rt') := enforce_disk_stop target
                      (mkExceeded snapshot (Unmeasurable (Z.of_nat (S k)) error))
                      (shutdown_grace (config l)) rt0 in
                   (match stopped with
                    | Ok outcome => Ok (Stopped snapshot outcome)
                    | Err e => Err (RuntimeError e)
                    end, rt'))).
Proof.
  intros H0 Hm Hk. destruct (failed_scans_count now target error k l rt H0) as [Hn Hc]; [lia|].
  destruct (Nat.iter k _ _) as [l0 rt0]. cbn [fst] in Hn, Hc.
  unfold enforce_unmeasurable, record_target_scan_failure. fold (failures_of target l0). rewrite Hn.
  assert (sat_add u8_max (Z.of_nat k) 1 = Z.of_nat (S k)) as -> by (unfold sat_add; lia).
  match goal with |- context [_ <? failure_threshold ?l1] =>
    assert (failure_threshold l1 = failure_threshold l) as -> by (unfold failure_threshold; cbn; by rewrite Hc) end.
  destruct (_ <? _) eqn:E; to_prop; [split; [done|lia]|]. cbn [config states set_with].
  unfold blocked_scan_snapshot. destruct (thresholds _ _ _ _) as [stop recovery]. unfold stop_for.
  match goal with |- context [mkExceeded ?s _] => set (snapshot := s) end.
  match goal with |- context [shutdown_grace ?c] => replace c with (config l) by (cbn; by rewrite Hc) end.
  destruct (enforce_disk_stop _ _ _ _) as [stopped rt'] eqn:Es. split; [lia|]. intros _.
  exists snapshot. split_and!; try done. by rewrite Es.
Qed.

(** ** Held back until it recovers *)

Context (scanner_fingerprint : SoftDiskTarget → string) (message : ScanError → string).

Inductive LimiterEvent :=
  | EventScan (target : SoftDiskTarget) (request : HybridScanRequest) (run : ScanRun) (now : Z)
  | EventStart (target : SoftDiskTarget) (run : ScanRun) (now : Z)
  | EventRemove (id : string).

Definition apply_event (w : SoftDiskLimiter * R) (e : LimiterEvent) : SoftDiskLimiter * R :=
  match e with
  | EventScan target request run now =>
      let '(_, l, rt) := scan_hybrid_and_enforce powf scanner_fingerprint message now target
                           request run w.1 w.2 in (l, rt)
  | EventStart target run now =>
      ((ensure_start_allowed powf scanner_fingerprint message now target run w.1).2, w.2)
  | EventRemove id => (limiter_remove id w.1, w.2)
  end.

Definition event_target (e : LimiterEvent) : option SoftDiskTarget :=
  match e with
  | EventScan target _ _ _ | EventStart target _ _ => Some target
  | EventRemove _ => None
  end.

Definition is_blocked (target : SoftDiskTarget) (l : SoftDiskLimiter) : Prop :=
  ∃ tr, tracked (states l) target = Some tr ∧ blocked (tracker_snapshot tr) = true.

(** The event releases the target: it is removed, another generation or policy
    of the instance takes its place, or its usage is measured below the
    recovery threshold. *)
Definition releases (target : SoftDiskTarget) (w : SoftDiskLimiter * R) (e : LimiterEvent) : Prop :=
  e = EventRemove (instance_id target) ∨
  (∃ other, event_target e = Some other ∧ instance_id other = instance_id target ∧
     fingerprint_of other ≠ fingerprint_of target) ∨
  (∃ tr, tracked (states (apply_event w e).1) target = Some tr ∧
     blocked (tracker_snapshot tr) = false ∧
     physical_bytes (snapshot_usage (tracker_snapshot tr)) <
       recovery_threshold_bytes (tracker_snapshot tr)).

Lemma evict_states id l : states (evict_usage_cache id l) = states l.
Proof. unfold evict_usage_cache. by case_match. Qed.

Lemma usage_tree_slot_states target l : states (usage_tree_slot target l).2 = states l.
Proof.
  unfold usage_tree_slot. repeat case_match; try done. cbn. apply evict_states.
Qed.

Lemma scan_hybrid_states target request run l :
  states (scan_hybrid scanner_fingerprint message target request run l).2 = states l.
Proof.
  unfold scan_hybrid. destruct run as [error|disks lost]; [done|].
  destruct (cache_allowed _ _ _).
  - pose proof (usage_tree_slot_states target l) as Hs.
    destruct (usage_tree_slot target l) as [s l1]. cbn in Hs.
    destruct (scan_worker _ _ _ _ _ _) as [[r [s'|]] n]; cbn; done.
  - destruct (scan_worker _ _ _ _ _ _) as [[r [s'|]] n]; cbn; apply evict_states.
Qed.

Lemma tracked_other sts other target tr :
  instance_id other ≠ instance_id target →
  tracked (<[instance_id other := tr]> sts) target = tracked sts target.
Proof. intros Hne. unfold tracked. by rewrite lookup_insert_ne. Qed.

Lemma tracked_same sts other target snapshot w :
  instance_id other = instance_id target → fingerprint_of other = fingerprint_of target →
  tracked (<[instance_id other := mkTracker (fingerprint_of other) snapshot w]> sts) target =
  Some (mkTracker (fingerprint_of other) snapshot w).
Proof.
  intros -> Hf. unfold tracked. rewrite lookup_insert_eq. cbn. by rewrite bool_decide_eq_true_2.
Qed.

(** What an event for [other] may record. *)
Definition records (other : SoftDiskTarget) (sts sts' : gmap string TrackerState) : Prop :=
  sts' = sts ∨
  ∃ snapshot warned,
    sts' = <[instance_id other := mkTracker (fingerprint_of other) snapshot warned]> sts ∧
    (blocked snapshot = true ∨
     physical_bytes (snapshot_usage snapshot) < recovery_threshold_bytes snapshot ∨
     ¬ held_back sts other).

Lemma record_sample_records c now other usage sts :
  records other sts (record_sample powf c now other usage sts).2.
Proof.
  pose proof (record_sample_spec c now other usage sts) as H.
  destruct (stop_level _ _ _ _ _) as [stop recovery].
  destruct (record_sample _ _ _ _ _ _) as [d sts']. cbv zeta in H.
  destruct H as (Hcase & <- & _ & <- & warned & ->). right. exists (decision_snapshot d), warned.
  split; [done|]. naive_solver.
Qed.

Lemma blocked_scan_records c now other sts :
  records other sts (blocked_scan_snapshot c now other sts).2.
Proof.
  unfold blocked_scan_snapshot. destruct (thresholds _ _ _ _) as [stop recovery]. right.
  eexists _, _. split; [done|]. by left.
Qed.

Lemma event_records w e other :
  event_target e = Some other → records other (states w.1) (states (apply_event w e).1).
Proof.
  destruct w as [l rt]. destruct e as [target request run now|target run now|id]; intros [= ->];
    cbn [apply_event fst snd].
  - unfold scan_hybrid_and_enforce.
    pose proof (scan_hybrid_states other request run l) as Hs.
    destruct (scan_hybrid _ _ _ _ _ _) as [measured l1]. cbn in Hs. rewrite <-Hs.
    destruct measured as [[[usage k] root_id]|[error|error]].
    + unfold enforce_measured_usage. cbn [config states set_with].
      pose proof (record_sample_records (config l1) now other usage (states l1)) as Hr.
      destruct (record_sample _ _ _ _ _ _) as [d sts]. cbn [snd] in Hr.
      destruct (recovered d); [by destruct (clear_disk_blocked _ _)|].
      destruct (_ && _); [done|]. unfold stop_for. by destruct (enforce_disk_stop _ _ _ _).
    + unfold enforce_capacity_outage. cbv zeta.
      destruct (_ <? failure_threshold _) eqn:?; [by left|]. cbn [config states set_with].
      pose proof (blocked_scan_records (config l1) now other (states l1)) as Hr.
      destruct (blocked_scan_snapshot _ _ _ _) as [sn sts]. unfold stop_for.
      by destruct (enforce_disk_stop _ _ _ _).
    + unfold enforce_unmeasurable, record_target_scan_failure. cbv zeta.
      destruct (_ <? failure_threshold _) eqn:?; [by left|].
      cbn [config states set_with].
      pose proof (blocked_scan_records (config l1) now other (states l1)) as Hr.
      destruct (blocked_scan_snapshot _ _ _ _) as [sn sts]. unfold stop_for.
      by destruct (enforce_disk_stop _ _ _ _).
  - unfold ensure_start_allowed.
    pose proof (scan_hybrid_states other StreamingFull run l) as Hs.
    destruct (scan_hybrid _ _ _ _ _ _) as [measured l1]. cbn in Hs.
    rewrite <-Hs, <-(evict_states (instance_id other) l1). set (l2 := evict_usage_cache _ l1).
    destruct measured as [[[usage k] root_id]|f]; [|by left]. cbn [config states set_with].
    pose proof (record_sample_records (config l2) now other usage (states l2)) as Hr.
    by destruct (record_sample _ _ _ _ _ _) as [d sts].
Qed.

Lemma records_keep other target sts sts' :
  instance_id other = instance_id target → fingerprint_of other = fingerprint_of target →
  records other sts sts' →
  (∃ tr, tracked sts target = Some tr ∧ blocked (tracker_snapshot tr) = true) →
  ∃ tr, tracked sts' target = Some tr ∧
    (blocked (tracker_snapshot tr) = true ∨
     blocked (tracker_snapshot tr) = false ∧
     physical_bytes (snapshot_usage (tracker_snapshot tr)) <
       recovery_threshold_bytes (tracker_snapshot tr)).
Proof.
  intros Hid Hfp [->|(snapshot & w & -> & Hs)] (tr & Htr & Hb); [by eauto|].
  rewrite tracked_same by done. eexists. split; [done|]. cbn.
  destruct (blocked snapshot) eqn:E; [by left|right]. split; [done|].
  destruct Hs as [?|[?|Hh]]; [done..|]. destruct Hh. right. exists tr. split; [|done].
  unfold tracked in *. by rewrite Hid, Hfp.
Qed.

Lemma event_keeps w e target :
  is_blocked target w.1 → is_blocked target (apply_event w e).1 ∨ releases target w e.
Proof.
  intros Hb. destruct (event_target e) as [other|] eqn:He.
  - pose proof (event_records w e other He) as Hr.
    destruct (decide (instance_id other = instance_id target)) as [Hid|Hid].
    + destruct (decide (fingerprint_of other = fingerprint_of target)) as [Hfp|Hfp].
      * destruct (records_keep other target _ _ Hid Hfp Hr Hb) as (tr & Htr & [Ht|[Hf Hlt]]).
        -- left. by exists tr.
        -- right. right; right. by exists tr.
      * right. right; left. by exists other.
    + left. unfold is_blocked in *. destruct Hr as [->|(snapshot & wd & -> & _)]; [done|].
      by rewrite tracked_other.
  - destruct e as [| |id]; [done..|]. cbn [apply_event fst]. unfold limiter_remove.
    destruct (decide (id = instance_id target)) as [->|Hne]; [by right; left|left].
    unfold is_blocked. rewrite evict_states. cbn [states set_with]. unfold tracked.
    rewrite lookup_delete_ne by done. exact Hb.
Qed.

(** C11. An instance that is held back stays held back, through any sequence of
    scans, attempts to start it and removals of other instances: if it is not
    blocked in the end, then at some point, while it was blocked, it was
    removed, replaced by another generation or policy, or its usage was
    measured strictly below its recovery threshold. *)
Theorem held_back_until_recovered target events (w : SoftDiskLimiter * R) :
  is_blocked target w.1 →
  is_blocked target (foldl apply_event w events).1 ∨
  ∃ before e after, events = before ++ e :: after ∧
    is_blocked target (foldl apply_event w before).1 ∧
    releases target (foldl apply_event w before) e.
Proof.
  revert w. induction events as [|e events IH]; intros w Hb; [by left|].
  destruct (event_keeps w e target Hb) as [Hk|Hr].
  - destruct (IH _ Hk) as [?|(before & e' & after & -> & Hb' & Hr)]; [by left|right].
    by exists (e :: before), e', after.
  - right. by exists [], e, events.
Qed.

(** A start is allowed exactly if the data directory could be measured, and
    its usage is strictly below the recovery threshold of an instance that is
    held back, or the stop threshold of one that is not. *)
Theorem start_allowed_exactly_below now target run (l : SoftDiskLimiter) :
  let '(measured, l1) := scan_hybrid scanner_fingerprint message target StreamingFull run l in
  let '(r, l') := ensure_start_allowed powf scanner_fingerprint message now target run l in
  match measured with
  | Err f => r = Err (ScanFailed (into_message f)) ∧ states l' = states l
  | Ok (usage, _, _) =>
      let '(stop, recovery) := stop_level (config l1) now target usage (states l) in
      ((∃ snapshot, r = Ok snapshot ∧ snapshot_usage snapshot = usage) ↔
       held_back (states l) target ∧ physical_bytes usage < recovery ∨
       ¬ held_back (states l) target ∧ physical_bytes usage < stop) ∧
      (r = Err (StartBlocked (physical_bytes usage) recovery (limit_bytes target)) ↔
       is_blocked target l')
  end.
Proof.
  pose proof (scan_hybrid_states target StreamingFull run l) as Hs. unfold ensure_start_allowed.
  destruct (scan_hybrid _ _ _ _ _ _) as [measured l1]. cbn [snd] in Hs.
  destruct measured as [[[usage k] root_id]|f]; [|by rewrite evict_states].
  set (l2 := evict_usage_cache _ _) in *.
  assert (Hc : config l2 = config l1) by (unfold l2, evict_usage_cache; by case_match).
  assert (Hs2 : states l2 = states l) by (unfold l2; by rewrite evict_states).
  cbn [config states set_with]. rewrite Hc, Hs2.
  pose proof (record_sample_spec (config l1) now target usage (states l)) as H.
  pose proof (record_sample_limit (config l1) now target usage (states l)) as Hl.
  destruct (stop_level _ _ _ _ _) as [stop recovery].
  destruct (record_sample _ _ _ _ _ _) as [d sts]. cbv zeta in H. cbn [fst] in Hl.
  destruct H as (Hcase & Hu & Hst & Hr & warned & ->).
  unfold is_blocked. cbn [states set_with]. rewrite tracked_same by done. rewrite Hu, Hr, Hl.
  destruct (blocked (decision_snapshot d)) eqn:Eb.
  - split.
    + split; [naive_solver|]. intros Hlow. naive_solver lia.
    + split; [eauto|done].
  - split.
    + split; [intros _; clear -Hcase; naive_solver|eauto].
    + split; [done|]. intros (tr & [= <-] & Hb). cbn in Hb. congruence.
Qed.
End decisions.

(** ** A concrete runtime

    Every call succeeds and is logged. *)

Inductive RuntimeCall :=
  | CallMark (id : string) | CallStop (id : string) | CallKill (id : string)
  | CallClear (id : string).

#[export] Instance logging_runtime : SoftDiskRuntime (list RuntimeCall) := {
  mark_disk_blocked := λ t _ log, (Ok (), log ++ [CallMark (instance_id t)]);
  graceful_stop := λ t _ log, (Some (Ok ()), log ++ [CallStop (instance_id t)]);
  force_kill := λ t log, (Ok (), log ++ [CallKill (instance_id t)]);
  clear_disk_blocked := λ t log, (Ok (), log ++ [CallClear (instance_id t)]);
  enforce_disk_stop := λ t _ _ log,
    (Ok Graceful, log ++ [CallMark (instance_id t); CallStop (instance_id t)]);
}.

Definition no_decay : f64 → f64 → f64 := λ _ _, f64_of_Z 0.

Definition demo_limited : SoftDiskTarget :=
  mkSoftDiskTarget "a" "2026-01-01T00:00:00Z" Postgres "/data/a" 1000000 false.

Definition demo_limiter : SoftDiskLimiter := limiter_new default_scanner_config.

Lemma unmeasurable_fails_closed_witness :
  let '(l0, rt0) := Nat.iter 2 (failed_scan 7 demo_limited "gone") (demo_limiter, []) in
  let '(r, l', rt') := enforce_unmeasurable 7 demo_limited "gone" l0 rt0 in
  (3 < failure_threshold demo_limiter →
     r = Err (UnmeasurableYet "gone" 3 (failure_threshold demo_limiter)) ∧ rt' = rt0 ∧
     states l' = states l0) ∧
  (failure_threshold demo_limiter ≤ 3 →
     ∃ snapshot, blocked snapshot = true ∧
       states l' = <["a" := mkTracker (fingerprint_of demo_limited) snapshot false]> (states l0) ∧
       (r, rt') = (let '(stopped, rt') := enforce_disk_stop demo_limited
                      (mkExceeded snapshot (Unmeasurable 3 "gone"))
                      (shutdown_grace (config demo_limiter)) rt0 in
                   (match stopped with
                    | Ok outcome => Ok (Stopped snapshot outcome)
                    | Err e => Err (RuntimeError e)
                    end, rt'))).
Proof. apply (unmeasurable_fails_closed 7 demo_limited "gone" 2 demo_limiter []); done. Defined.

(** Three scans in a row find the scanner without capacity. *)
Definition demo_outage : LimiterEvent := EventScan demo_limited RequestFull (NoPermit "closed") 7.
Definition demo_apply : SoftDiskLimiter * list RuntimeCall → LimiterEvent → _ :=
  apply_event no_decay (λ t, data_path t) (λ _, "failed").
Definition demo_held : SoftDiskLimiter * list RuntimeCall :=
  foldl demo_apply (demo_limiter, []) [demo_outage; demo_outage; demo_outage].

Lemma demo_held_blocked : is_blocked demo_limited demo_held.1.
Proof. eexists. split; vm_compute; reflexivity. Qed.

Lemma held_back_until_recovered_witness :
  is_blocked demo_limited (foldl demo_apply demo_held [EventRemove "b"; demo_outage]).1 ∨
  ∃ before e after, [EventRemove "b"; demo_outage] = before ++ e :: after ∧
    is_blocked demo_limited (foldl demo_apply demo_held before).1 ∧
    releases no_decay (λ t, data_path t) (λ _, "failed") demo_limited
      (foldl demo_apply demo_held before) e.
Proof.
  apply (held_back_until_recovered no_decay (λ t, data_path t) (λ _, "failed") demo_limited
           [EventRemove "b"; demo_outage] demo_held).
  exact demo_held_blocked.
Defined.
