(* ===== verification/MonitorWatch.v ===== *)
(** * What the watcher's operations mean to the monitor

    The monitor ([daemon/soft_disk_limiter/]) looks at a target of the watcher
    ([server/disk/soft/watcher/]) when it is told to.  An operation of the
    watcher either leaves the marks of a target alone, or it makes a newer one
    and tells the monitor. *)
From stdpp Require Import sorting relations.
From S2P Require Import Prelude DiskScan UsageTree Reconcile Watcher WatchLife.

Local Open Scope Z_scope.

(** The monitor is going to be told to look at the target; [also] are targets
    that the operation has still to enqueue. *)
Definition queued_in (also : gset string) (id : string) (s : WatchShared) : Prop :=
  global_change_pending (watch_state s) = true ∨ id ∈ changed_targets (watch_state s) ∨ id ∈ also.

Definition calm (also : gset string) (id : string) (s s' : WatchShared) (t t' : WatchedTarget) : Prop :=
  watch_generation t' = watch_generation t ∧ full_generation t' = full_generation t ∧
  dirty_paths t' = dirty_paths t ∧
  acknowledged_global_generation t' = acknowledged_global_generation t ∧
  global_generation s' = global_generation s ∧
  (health t' = health t ∨ health t' = Degraded ∧ queued_in also id s').

Definition stirred (also : gset string) (id : string) (s' : WatchShared) (t t' : WatchedTarget) : Prop :=
  watch_generation t < watch_generation t' ∧ pending (global_generation s') t' = true ∧
  queued_in also id s'.

Definition advances (id : string) (before after : WatchShared * gset string) : Prop :=
  let '(s, also) := before in let '(s', also') := after in
  (queued_in also id s → queued_in also' id s') ∧
  ∀ t', targets (watch_state s') !! id = Some t' →
    ∃ t, targets (watch_state s) !! id = Some t ∧
      registration_generation t' = registration_generation t ∧ fingerprint t' = fingerprint t ∧
      (calm also' id s s' t t' ∨ stirred also' id s' t t').

Lemma calm_pending also id s s' t t' :
  calm also id s s' t t' → pending (global_generation s') t' = pending (global_generation s) t.
Proof. intros (_ & Hf & Hd & Ha & -> & _). unfold pending. by rewrite Hf, Hd, Ha. Qed.

Lemma advances_refl id s also : advances id (s, also) (s, also).
Proof.
  split; [done|]. intros t' Ht'. exists t'. split_and!; [done..|]. left. unfold calm. auto 10.
Qed.

Lemma advances_trans id x y z : advances id x y → advances id y z → advances id x z.
Proof.
  destruct x as [s1 a1], y as [s2 a2], z as [s3 a3]. intros [Q12 T12] [Q23 T23].
  split; [auto|]. intros t3 H3. destruct (T23 t3 H3) as (t2 & H2 & R23 & F23 & C23).
  destruct (T12 t2 H2) as (t1 & H1 & R12 & F12 & C12). exists t1. split_and!; [done|congruence..|].
  destruct C12 as [C12|(G12 & P12 & Qu12)], C23 as [C23|(G23 & P23 & Qu23)].
  - left. destruct C12 as (? & ? & ? & ? & ? & Hh12), C23 as (? & ? & ? & ? & ? & Hh23).
    unfold calm. split_and!; [congruence..|]. destruct Hh23 as [->|?]; [|by right].
    destruct Hh12 as [->|[-> ?]]; [by left|right; auto].
  - right. destruct C12 as (? & _). unfold stirred. split_and!; [lia|done..].
  - right. pose proof (calm_pending _ _ _ _ _ _ C23) as HP. destruct C23 as (? & _).
    unfold stirred. split_and!; [lia|by rewrite HP|auto].
  - right. unfold stirred. split_and!; [lia|done..].
Qed.

(** Only the queue changes, and only by growing. *)
Lemma advances_queue id s s' also also' :
  targets (watch_state s') = targets (watch_state s) → global_generation s' = global_generation s →
  (queued_in also id s → queued_in also' id s') → advances id (s, also) (s', also').
Proof.
  intros Ht Hg Hq. split; [done|]. rewrite Ht. intros t' Ht'. exists t'. split_and!; [done..|].
  left. unfold calm. auto 10.
Qed.

Lemma advances_forget id i s also also' :
  i ≠ id → also' ⊆ also → also ⊆ {[i]} ∪ also' → advances id (s, also) (s, also').
Proof.
  intros Hne H1 H2. apply advances_queue; [done..|]. unfold queued_in. set_solver.
Qed.

Section bounded.
Context (n : Z).

(** The operation [f], which makes at most [k] generations. *)
Definition informs (k : Z) (id : string) (also also' : gset string) (f : WatchShared → WatchShared) :
    Prop :=
  ∀ s, shared_ok s → generations_below n s → n + k ≤ u64_max → advances id (s, also) (f s, also').

Lemma mark_full_stirred also id s' t :
  0 ≤ watch_generation t < u64_max → queued_in also id s' → stirred also id s' t (mark_full t).
Proof.
  intros Hg Hq. unfold stirred. split_and!; [| |done].
  - unfold mark_full, next_generation, set_with. cbn. rewrite next_nonzero_succ by lia. lia.
  - reflexivity.
Qed.

Lemma global_informs id also : informs 1 id also also enqueue_global_change.
Proof.
  intros s Hs Hn Hmax.
  assert (Hq : ∀ i, queued_in also i (enqueue_global_change s)) by (intros i; by left).
  split; [done|]. intros t' Ht'. unfold enqueue_global_change, set_with in Ht'. cbn in Ht'.
  rewrite lookup_fmap in Ht'. destruct (targets (watch_state s) !! id) as [t|] eqn:Ht; [|done].
  injection Ht' as <-. exists t. split_and!; [done..|]. right.
  destruct (ok_targets _ Hs _ _ Ht) as [[? _ _ _ _] _]. pose proof (Hn _ _ Ht).
  apply mark_full_stirred; [lia|done].
Qed.

Lemma enqueue_informs id i also :
  informs 1 id ({[i]} ∪ also) also (enqueue_target_change i).
Proof.
  intros s Hs Hn Hmax. unfold enqueue_target_change.
  destruct (global_change_pending (watch_state s)) eqn:Eg.
  { apply advances_queue; [done..|]. intros _. by left. }
  set (s1 := s <| watch_state ::= _ |>).
  assert (H1 : advances id (s, {[i]} ∪ also) (s1, also)).
  { apply advances_queue; [done..|]. unfold queued_in, s1. cbn. set_solver. }
  destruct (_ <? _) eqn:Esz; [|done]. eapply advances_trans; [exact H1|].
  assert (Hst : targets (watch_state s1) = targets (watch_state s)) by done.
  split; [by left|]. intros t' Ht'. unfold enqueue_global_change, set_with in Ht'. cbn in Ht'.
  rewrite lookup_fmap in Ht'. destruct (targets (watch_state s) !! id) as [t|] eqn:Ht; [|done].
  injection Ht' as <-. exists t. split_and!; [done..|]. right.
  destruct (ok_targets _ Hs _ _ Ht) as [[? _ _ _ _] _]. pose proof (Hn _ _ Ht).
  apply mark_full_stirred; [lia|by left].
Qed.

(** Once everything is queued, nothing more happens. *)
Lemma enqueue_pending i s :
  global_change_pending (watch_state s) = true → enqueue_target_change i s = s.
Proof. unfold enqueue_target_change. by intros ->. Qed.

Lemma enqueue_all_status ids s :
  shared_ok s → generations_below n s → n + 1 ≤ u64_max →
  let s' := foldr enqueue_target_change s ids in
  global_change_pending (watch_state s') = true ∨ shared_ok s' ∧ generations_below n s'.
Proof.
  intros Hs Hn Hmax. cbv zeta. induction ids as [|i ids [IH|[Hs1 Hn1]]]; cbn [foldr]; [by right| |].
  - left. by rewrite enqueue_pending.
  - destruct (enqueue_once n i _ Hs1 Hn1 Hmax) as [Hs2 [He|[_ Hp]]]; [right|by left].
    split; [done|]. rewrite <-(Z.add_0_r n). by eapply generations_evolve.
Qed.

(** The first of these enqueueings that overflows is the last one that does
    anything. *)
Lemma enqueue_all_informs id ids also :
  informs 1 id (list_to_set ids ∪ also) also (λ s, foldr enqueue_target_change s ids).
Proof.
  intros s Hs Hn Hmax. revert also. induction ids as [|i ids IH]; intros also; cbn [foldr list_to_set].
  { apply advances_queue; [done..|]. unfold queued_in. set_solver. }
  eapply advances_trans; [|eapply advances_trans; [apply (IH ({[i]} ∪ also))|]].
  { apply advances_queue; [done..|]. unfold queued_in. set_solver. }
  destruct (enqueue_all_status ids s Hs Hn Hmax) as [Hp|[Hs1 Hn1]].
  - rewrite enqueue_pending by done. apply advances_queue; [done..|]. intros _. by left.
  - by apply enqueue_informs.
Qed.

(** ** Events *)

Lemma mark_event_pending s at_time k path event_path t global :
  1 ≤ maximum_dirty_paths s → watched_ok (maximum_dirty_paths s) t → watch_generation t < u64_max →
  pending global (mark_event s at_time k path event_path t) = true.
Proof.
  intros Hm Hok Hg. destruct (mark_event_ok s at_time k path event_path t Hm Hok Hg) as (_ & _ & Hc).
  by eapply covers_pending.
Qed.

Lemma handle_path_informs id at_time k event_path changed s :
  shared_ok s → generations_below n s → n + 1 ≤ u64_max →
  advances id (s, changed) (handle_path at_time k s changed event_path).
Proof.
  intros Hs Hn Hmax. unfold handle_path.
  destruct (route_path _ _) as [[i path]|]; [|apply advances_refl].
  destruct (targets (watch_state s) !! i) as [t|] eqn:Ht; [|apply advances_refl].
  destruct (ok_targets _ Hs _ _ Ht) as [Hok _]. pose proof (Hn _ _ Ht).
  destruct (mark_event_ok s at_time k path event_path t) as (_ & He & _);
    [apply ok_maximum_dirty, Hs|done|lia|].
  split; [unfold queued_in, set_with; cbn; set_solver|]. intros t' Ht'. cbn in Ht'.
  destruct (decide (id = i)) as [->|Hne].
  - rewrite lookup_insert_eq in Ht'. injection Ht' as <-. exists t.
    split_and!; [done|apply He|apply He|]. right. unfold stirred. split_and!.
    + rewrite mark_event_generation; [lia|]. pose proof (ok_generation _ _ Hok). lia.
    + apply mark_event_pending; [apply ok_maximum_dirty, Hs|done|lia].
    + unfold queued_in. set_solver.
  - rewrite lookup_insert_ne in Ht' by done. exists t'. split_and!; [done..|]. left.
    unfold calm. auto 10.
Qed.

End bounded.

Lemma handle_paths_informs n id at_time k event_paths s changed :
  shared_ok s → generations_below n s → n + Z.of_nat (length event_paths) ≤ u64_max →
  advances id (s, changed) (handle_paths at_time k s changed event_paths).
Proof.
  revert n s changed. induction event_paths as [|p ps IH]; intros n s changed Hs Hn Hmax.
  { apply advances_refl. }
  cbn [handle_paths length] in *.
  pose proof (handle_path_informs n id at_time k p changed s Hs Hn ltac:(lia)) as H1.
  destruct (handle_path_ok n at_time k p s Hs Hn) as [Hs1 He1]; [lia|].
  rewrite (handle_path_targets _ _ _ ∅ changed) in Hs1, He1.
  destruct (handle_path at_time k s changed p) as [s1 changed1]. cbn [fst] in *.
  eapply advances_trans; [exact H1|]. apply (IH (n + 1)); [done| |lia].
  by eapply generations_evolve.
Qed.

Lemma signal_informs id s also : advances id (s, also) (signal_change s, also).
Proof. by apply advances_queue. Qed.

Lemma degrade_all_informs n id at_time : informs n 1 id ∅ ∅ (degrade_all at_time).
Proof.
  intros s Hs Hn Hmax. split; [by left|]. intros t' Ht'.
  unfold degrade_all, signal_change, enqueue_global_change, set_with in Ht'. cbn in Ht'.
  rewrite !lookup_fmap in Ht'. destruct (targets (watch_state s) !! id) as [t|] eqn:Ht; [|done].
  injection Ht' as <-. exists t. split_and!; [done..|]. right.
  destruct (ok_targets _ Hs _ _ Ht) as [[? _ _ _ _] _]. pose proof (Hn _ _ Ht).
  apply (mark_full_stirred ∅ id _ (degrade at_time (retry_policy s) t)); [|by left].
  unfold degrade, set_with. cbn. lia.
Qed.

Lemma handle_callback_informs n id at_time result :
  informs n (event_cost result) id ∅ ∅ (handle_callback at_time result).
Proof.
  intros s Hs Hn Hmax.
  assert (Hc : 1 ≤ event_cost result) by (destruct result; cbn [event_cost]; lia).
  assert (Hforce : advances id (s, ∅) (force_full_all s, ∅)).
  { eapply advances_trans; [|apply signal_informs]. apply (global_informs n); [done..|lia]. }
  unfold handle_callback. destruct result as [event|]; [|apply (degrade_all_informs n); [done..|lia]].
  destruct (need_rescan event); [done|]. case_bool_decide; [apply advances_refl|].
  case_bool_decide; [done|]. cbn [event_cost] in *.
  pose proof (handle_paths_informs n id at_time (kind event) (paths event) s ∅ Hs Hn ltac:(lia)) as H1.
  destruct (handle_paths_ok n at_time (kind event) (paths event) s ∅ Hs Hn) as (Hs1 & He1 & _); [lia|].
  destruct (handle_paths at_time (kind event) s ∅ (paths event)) as [s1 changed]. cbn [fst] in *.
  eapply advances_trans; [exact H1|].
  assert (H2 : advances id (s1, changed) (foldr enqueue_target_change s1 (elements changed), ∅)).
  { pose proof (enqueue_all_informs (n + Z.of_nat (length (paths event))) id (elements changed) ∅ s1
                  Hs1) as H2. rewrite list_to_set_elements_L, (right_id_L ∅ (∪)) in H2.
    apply H2; [by eapply generations_evolve|lia]. }
  case_bool_decide; [done|]. eapply advances_trans; [exact H2|apply signal_informs].
Qed.

(** ** Registrations *)

(** Another target changes and is enqueued. *)
Lemma other_informs n k id i also s s1 :
  i ≠ id → shared_ok s1 → generations_below n s1 → n + 1 ≤ u64_max → 0 ≤ k →
  targets (watch_state s1) !! id = targets (watch_state s) !! id →
  global_generation s1 = global_generation s →
  (queued_in also id s → queued_in also id s1) →
  advances id (s, also) (enqueue_target_change i s1, also).
Proof.
  intros Hne Hs1 Hn Hmax Hk Ht Hg Hq. apply (advances_trans _ _ (s1, also)).
  - split; [done|]. rewrite Ht. intros t' Ht'. exists t'. split_and!; [done..|]. left.
    unfold calm. auto 10.
  - eapply advances_trans; [|by apply (enqueue_informs n id i also)].
    apply advances_queue; [done..|]. unfold queued_in. set_solver.
Qed.

Lemma target_changed n s i t t' k :
  shared_ok s → generations_below n s → targets (watch_state s) !! i = Some t → 0 ≤ k →
  watched_ok (maximum_dirty_paths s) t' → evolves k t t' →
  let s1 := s <| watch_state ::= λ st, st <| targets ::= <[i := t']> |> |> in
  shared_ok s1 ∧ generations_below (n + k) s1.
Proof.
  intros Hs Hn Ht Hk Hok He. destruct (change_target k s i t t') as [Hs1 Hev]; [done..|].
  split; [done|]. by eapply generations_evolve.
Qed.

Lemma finish_registration_informs n id i fp path generation succeeded at_time s :
  i ≠ id → shared_ok s → generations_below n s → n + 1 ≤ u64_max →
  advances id (s, ∅) ((finish_registration i fp path generation succeeded at_time s).2, ∅).
Proof.
  intros Hne Hs Hn Hmax. unfold finish_registration.
  assert (Hstale : advances id (s, ∅) (enqueue_target_change i s, ∅)) by by apply (other_informs n 0).
  destruct (targets (watch_state s) !! i) as [t|] eqn:Ht; [|done].
  destruct (_ && _ && _); [|done]. cbn [snd].
  destruct (ok_targets _ Hs _ _ Ht) as [Hok _].
  match goal with |- advances _ _ (enqueue_target_change i (_ <| watch_state ::= λ st,
    st <| targets ::= <[i := ?x]> |> |>), _) => set (t' := x) end.
  assert (Ht' : watched_ok (maximum_dirty_paths s) t' ∧ evolves 0 t t').
  { unfold t'. destruct succeeded; [by apply same_marks|by apply degrade_ok]. }
  destruct Ht' as [Hok' He'].
  destruct (target_changed n s i t t' 0) as [Hs1 Hn1]; [done..|]. rewrite Z.add_0_r in Hn1.
  apply (other_informs n 0); try done. cbn. by rewrite lookup_insert_ne.
Qed.

Lemma finish_retry_informs n id c succeeded at_time s :
  shared_ok s → generations_below n s → n + 2 ≤ u64_max →
  advances id (s, ∅) ((finish_retry c succeeded at_time s).2, ∅).
Proof.
  intros Hs Hn Hmax. unfold finish_retry.
  destruct (targets (watch_state s) !! candidate_target c) as [t|] eqn:Ht; [|apply advances_refl].
  case_bool_decide; [apply advances_refl|]. cbn [snd].
  destruct (ok_targets _ Hs _ _ Ht) as [Hok _]. pose proof (Hn _ _ Ht) as Hg.
  pose proof (ok_generation _ _ Hok) as Hg0.
  match goal with |- advances _ _ (enqueue_target_change _ (_ <| watch_state ::= λ st,
    st <| targets ::= <[_ := ?x]> |> |>), _) => set (t' := x) end.
  assert (Ht' : watched_ok (maximum_dirty_paths s) t' ∧ evolves 1 t t').
  { unfold t'. destruct succeeded.
    - destruct (same_marks _ t (t <| health := Watching |> <| retry_attempts := 0 |>) Hok)
        as [Hok2 Hev2]; [done..|].
      destruct (mark_full_ok _ (ok_maximum_dirty _ Hs) _ Hok2) as (? & Hev3 & ?); [cbn; lia|].
      split; [done|]. exact (evolves_trans 0 1 _ _ _ Hev2 Hev3).
    - destruct (degrade_ok _ at_time (retry_policy s) t Hok) as [? Hev]. split; [done|].
      by eapply evolves_more; [|exact Hev]. }
  destruct Ht' as [Hok' He'].
  destruct (target_changed n s (candidate_target c) t t' 1) as [Hs1 Hn1]; [done..|].
  destruct (decide (candidate_target c = id)) as [<-|Hne].
  - eapply advances_trans; [|by apply (enqueue_informs (n + 1) (candidate_target c)
      (candidate_target c) ∅); [..|lia]].
    split; [unfold queued_in; cbn; set_solver|]. cbn. rewrite lookup_insert_eq.
    intros ? [= <-]. exists t. split_and!; [done|apply He'|apply He'|].
    unfold t'. destruct succeeded; [right|left].
    + set (t0 := t <| health := Watching |> <| retry_attempts := 0 |>).
      destruct (mark_full_stirred ({[candidate_target c]} ∪ ∅) (candidate_target c)
        (s <| watch_state ::= λ st, st <| targets ::= <[candidate_target c := mark_full t0]> |> |>) t0);
        [cbn; lia|unfold queued_in; set_solver|done].
    + unfold calm, queued_in. cbn. split_and!; [done..|]. right. split; [done|]. set_solver.
  - apply (other_informs (n + 1) 0); try done; [lia|]. cbn. by rewrite lookup_insert_ne.
Qed.

Lemma replace_informs n id i at_time fp path s old generation s' :
  i ≠ id → shared_ok s → generations_below n s → n + 2 ≤ u64_max → 0 ≤ n →
  next_registration_generation (watch_state s) < u64_max →
  unchanged_registration i fp path s = Ok None →
  replace_target_state at_time i fp path s = (old, generation, s') →
  advances id (s, ∅) (signal_change s', ∅).
Proof.
  intros Hne Hs Hn Hmax Hn0 Hreg Hu. rewrite replace_target_state_eq. intros [= _ _ <-].
  eapply advances_trans; [|apply signal_informs].
  apply (other_informs (n + 1) 0); try done.
  - by apply replaced_ok.
  - intros j t. unfold replaced, set_with. cbn -[mark_full].
    intros [[<- <-]|[_ Ht%Hn]]%lookup_insert_Some; [|lia].
    cbn. rewrite (next_nonzero_succ 0) by done. lia.
  - lia.
  - unfold replaced, set_with. cbn. by rewrite lookup_insert_ne.
  - unfold queued_in, replaced. cbn. set_solver.
Qed.

Lemma retire_informs n id i s :
  i ≠ id → shared_ok s → generations_below n s → n + 1 ≤ u64_max →
  advances id (s, ∅) ((retire i s).2, ∅).
Proof.
  intros Hne Hs Hn Hmax. unfold retire.
  destruct (targets (watch_state s) !! i) as [t|] eqn:Ht; [|apply advances_refl].
  cbn [snd]. fold (removed i t s). eapply advances_trans; [|apply signal_informs].
  apply (other_informs n 0); try done.
  - by apply removed_ok.
  - intros j t' [_ Ht']%removed_targets. by eapply Hn.
  - unfold removed, set_with. cbn. by rewrite lookup_delete_ne.
  - unfold queued_in, removed. cbn. set_solver.
Qed.

(** ** The generation of everything

    It does not overflow or fall, and no target has acknowledged a later one. *)
Section globals.
Context (least : Z) (least_nonneg : 0 ≤ least).

Definition globals_below (n : Z) (s : WatchShared) : Prop :=
  least ≤ global_generation s ≤ n ∧
  ∀ id t, targets (watch_state s) !! id = Some t →
    acknowledged_global_generation t ≤ global_generation s.

Lemma globals_more n n' s : n ≤ n' → globals_below n s → globals_below n' s.
Proof. intros Hn [? ?]. split; [lia|done]. Qed.

Lemma globals_put n s i t :
  globals_below n s → acknowledged_global_generation t ≤ global_generation s →
  globals_below n (s <| watch_state ::= λ st, st <| targets ::= <[i := t]> |> |>).
Proof.
  intros [H1 H2] Ht. split; [done|]. cbn. intros j t' [[<- <-]|[_ Hj]]%lookup_insert_Some; eauto.
Qed.

Lemma global_globals n s :
  globals_below n s → n + 1 ≤ u64_max → globals_below (n + 1) (enqueue_global_change s).
Proof.
  intros [H1 H2] Hmax. unfold enqueue_global_change, globals_below. cbn.
  unfold wrapping_add. rewrite Z.mod_small by lia. split; [lia|]. intros j t.
  rewrite lookup_fmap. intros (t0 & Ht0%H2 & ->)%fmap_Some. cbn. lia.
Qed.

Lemma enqueue_globals n i s :
  globals_below n s → n + 1 ≤ u64_max →
  globals_below (n + 1) (enqueue_target_change i s) ∧
  (globals_below n (enqueue_target_change i s) ∨
   global_change_pending (watch_state (enqueue_target_change i s)) = true).
Proof.
  intros Hg Hmax. unfold enqueue_target_change. destruct (global_change_pending _) eqn:E.
  { split; [|by left]. eapply globals_more; [|done]. lia. }
  case_match; [split; [by apply global_globals|by right]|].
  split; [|by left]. eapply globals_more; [|exact Hg]. lia.
Qed.

Lemma enqueue_all_globals n ids s :
  globals_below n s → n + 1 ≤ u64_max →
  let s' := foldr enqueue_target_change s ids in
  globals_below (n + 1) s' ∧
  (globals_below n s' ∨ global_change_pending (watch_state s') = true).
Proof.
  intros Hg Hmax. cbv zeta. induction ids as [|i ids [IH1 [IH2|IH2]]]; cbn [foldr].
  - split; [|by left]. eapply globals_more; [|done]. lia.
  - by apply enqueue_globals.
  - rewrite enqueue_pending by done. auto.
Qed.

Lemma mark_event_acknowledged s at_time k path event_path t :
  acknowledged_global_generation (mark_event s at_time k path event_path t) =
  acknowledged_global_generation t.
Proof. unfold mark_event, mark_dirty_path. by repeat case_match. Qed.

Lemma handle_paths_globals n at_time k event_paths s changed :
  globals_below n s → globals_below n (handle_paths at_time k s changed event_paths).1.
Proof.
  revert s changed. induction event_paths as [|p ps IH]; intros s changed Hg; [done|].
  cbn [handle_paths]. unfold handle_path.
  destruct (route_path _ _) as [[i path]|]; [|by apply IH].
  destruct (targets (watch_state s) !! i) as [t|] eqn:Ht; [|by apply IH].
  apply IH, globals_put; [done|]. rewrite mark_event_acknowledged. by eapply Hg.
Qed.

Lemma handle_callback_globals n at_time result s :
  globals_below n s → n + event_cost result ≤ u64_max →
  globals_below (n + event_cost result) (handle_callback at_time result s).
Proof.
  intros Hg Hmax. assert (Hc : 1 ≤ event_cost result) by (destruct result; cbn [event_cost]; lia).
  apply (globals_more (n + 1)); [lia|].
  assert (Hforce : globals_below (n + 1) (force_full_all s)) by (apply (global_globals n); [done|lia]).
  unfold handle_callback. destruct result as [event|].
  - destruct (need_rescan event); [done|].
    case_bool_decide; [eapply globals_more; [|done]; lia|]. case_bool_decide; [done|].
    pose proof (handle_paths_globals n at_time (kind event) (paths event) s ∅ Hg) as H1.
    destruct (handle_paths at_time (kind event) s ∅ (paths event)) as [s1 changed]. cbn [fst] in H1.
    destruct (enqueue_all_globals n (elements changed) s1 H1) as [H2 _]; [lia|].
    case_bool_decide; done.
  - unfold degrade_all. apply (global_globals n); [|lia]. split; [apply Hg|]. cbn. intros j t.
    rewrite lookup_fmap. intros (t0 & Ht0 & ->)%fmap_Some. exact (proj2 Hg _ _ Ht0).
Qed.

Lemma watch_step_globals w w' :
  watch_step w w' → marks w' ≤ u64_max →
  globals_below (marks w) (ws w) ∧ (∀ b seen, (b, seen) ∈ captured w →
    batch_global b ≤ global_generation (ws w)) → globals_below (marks w') (ws w').
Proof.
  intros Hstep Hmax [Hg Hb]. destruct Hstep; cbn [marks ws captured] in *.
  - by apply handle_callback_globals.
  - rewrite replace_target_state_eq in H0. injection H0 as _ _ <-.
    apply (globals_more (n + 1)); [lia|]. apply (enqueue_globals n); [|lia].
    split; [apply Hg|]. unfold replaced, set_with. cbn -[mark_full].
    intros j t [[<- <-]|[_ Hj]]%lookup_insert_Some; [cbn; lia|]. exact (proj2 Hg _ _ Hj).
  - unfold finish_registration. repeat case_match; cbn [snd]; try by apply enqueue_globals.
    + apply enqueue_globals; [|done]. apply globals_put; [done|].
      cbn. by eapply Hg.
    + apply enqueue_globals; [|done]. apply globals_put; [done|]. cbn. by eapply Hg.
  - unfold finish_retry. apply (globals_more (n + 1)); [lia|].
    repeat case_match; cbn [snd]; try (eapply globals_more; [|done]; lia).
    + apply enqueue_globals; [|lia]. apply globals_put; [done|]. cbn. by eapply Hg.
    + apply enqueue_globals; [|lia]. apply globals_put; [done|]. cbn. by eapply Hg.
  - unfold retire. case_match; cbn [snd]; [|eapply globals_more; [|done]; lia].
    apply (enqueue_globals n); [|lia]. fold (removed id w s).
    split; [apply Hg|]. intros j t [_ Hj]%removed_targets. exact (proj2 Hg _ _ Hj).
  - done.
  - apply acknowledge_true in H0 as (t & Ht & _ & ->). apply globals_put; [done|]. cbn.
    apply Hb in H. pose proof (proj2 Hg _ _ Ht). lia.
  - done.
  - done.
  - done.
Qed.
End globals.

Definition globals_ok (w : WatchWorld) : Prop :=
  globals_below 0 (marks w) (ws w) ∧
  ∀ b seen, (b, seen) ∈ captured w → batch_global b ≤ global_generation (ws w).

Lemma globals_step w w' :
  watch_step w w' → marks w' ≤ u64_max → globals_ok w → globals_ok w'.
Proof.
  intros Hstep Hmax [Hg Hb]. split; [by eapply watch_step_globals|].
  assert (Hmono : global_generation (ws w) ≤ global_generation (ws w')).
  { assert (0 ≤ global_generation (ws w)) by apply Hg.
    apply (watch_step_globals (global_generation (ws w)) ltac:(done) w w' Hstep Hmax).
    split; [|done]. split; [|apply Hg]. destruct Hg as [? _]. lia. }
  intros b seen Hin. assert ((b, seen) ∈ captured w ∨ batch_global b = global_generation (ws w))
    as [Hold|Hnew]; [| |lia].
  - destruct Hstep; cbn [captured] in *; try by left.
    apply elem_of_cons in Hin as [[= -> ->]|?]; [right|by left]. cbn.
    unfold capture in H. apply bind_Some in H as (t & _ & H). destruct (negb _); [done|].
    by injection H as <-.
  - apply Hb in Hold. lia.
Qed.

Lemma globals_reachable w : watch_reachable w → marks w ≤ u64_max → globals_ok w.
Proof.
  intros (env & md & mp & ri & rm & Hsteps). revert w Hsteps.
  apply (rtc_ind_r (λ w, marks w ≤ u64_max → globals_ok w)).
  - intros _. unfold watch_initial, new_with_limits. split; cbn.
    + split; [done|]. intros id t Ht. cbn in Ht. by rewrite lookup_empty in Ht.
    + by intros b seen ?%elem_of_nil.
  - intros w w' _ Hstep IH Hmax. eapply globals_step; [done..|]. apply IH.
    transitivity (marks w'); [|done]. by apply watch_step_marks.
Qed.
