(* ===== verification/WatchQueue.v ===== *)
(** * The queue of watch operations

    Models [daemon/soft_disk_limiter/watch_operations.rs]: which watches the
    monitor wants, which of them are in place, and the operations on the
    kernel's watches it hands to a blocking worker one at a time. *)
From stdpp Require Import sorting relations.
From S2P Require Import Prelude Planner DiskScan.

Local Open Scope Z_scope.

(** ** Data *)

Record DesiredWatch := mkDesiredWatch {
  desired_fingerprint : string;
  desired_target_fingerprint : string;
  desired_root : Path;
}.
#[export] Instance DesiredWatch_eq_dec : EqDecision DesiredWatch.
Proof. solve_decision. Defined.

(** A [RetiredWatch] is the root it watched. *)
Inductive WatchOperation :=
  | Register (target_id : string) (desired : DesiredWatch)
  | Unregister (target_id : string) (retired : Path)
  | RetryDegraded.
#[export] Instance WatchOperation_eq_dec : EqDecision WatchOperation.
Proof. solve_decision. Defined.

Definition operation_target (o : WatchOperation) : option string :=
  match o with
  | Register target_id _ | Unregister target_id _ => Some target_id
  | RetryDegraded => None
  end.

Record ActiveOperation := mkActiveOperation {
  operation : WatchOperation;
  started_at : Z;
  stall_reported : bool;
}.
#[export] Instance ActiveOperation_eta : Settable ActiveOperation :=
  λ a, mkActiveOperation (operation a) (started_at a) (stall_reported a).

Record PendingRetirements := mkPendingRetirements {
  tokens : list Path;
  unresolved_registration : bool;
}.
#[export] Instance PendingRetirements_eta : Settable PendingRetirements :=
  λ p, mkPendingRetirements (tokens p) (unresolved_registration p).

Definition retirements_default : PendingRetirements := mkPendingRetirements [] false.

Definition retirements_insert (retired : Path) (p : PendingRetirements) : PendingRetirements :=
  if bool_decide (retired ∈ tokens p) then p else p <| tokens ::= λ ts, ts ++ [retired] |>.

Definition retirements_is_empty (p : PendingRetirements) : bool :=
  bool_decide (tokens p = []) && negb (unresolved_registration p).

Record WatchOperationQueue := mkWatchQueue {
  desired : gmap string DesiredWatch;
  applied : gmap string string;
  failed_until : gmap string (string * Z);
  pending_removals : gmap string PendingRetirements;
  active : option ActiveOperation;
  retry_requested : bool;
}.
#[export] Instance WatchOperationQueue_eta : Settable WatchOperationQueue :=
  λ q, mkWatchQueue (desired q) (applied q) (failed_until q) (pending_removals q) (active q)
         (retry_requested q).

Definition queue_default : WatchOperationQueue := mkWatchQueue ∅ ∅ ∅ ∅ None false.

(** The entries of a [BTreeMap], in the order of its keys. *)
Definition key_le {A} (x y : string * A) : Prop := String.compare x.1 y.1 ≠ Gt.
#[export] Instance key_le_dec {A} (x y : string * A) : Decision (key_le x y).
Proof. unfold key_le. apply _. Defined.

Definition entries {A} (m : gmap string A) : list (string * A) := merge_sort key_le (map_to_list m).

(** ** Operations *)

Definition queue_upsert (target_id : string) (d : DesiredWatch) (q : WatchOperationQueue) :
    WatchOperationQueue :=
  if bool_decide (desired q !! target_id = Some d) then q
  else q <| applied ::= delete target_id |> <| failed_until ::= delete target_id |>
         <| desired ::= <[target_id := d]> |>.

Definition registering (target_id : string) (q : WatchOperationQueue) : bool :=
  match active q with
  | Some a => match operation a with
              | Register active_target _ => bool_decide (active_target = target_id)
              | _ => false
              end
  | None => false
  end.

(** [entry(target_id).or_default()], changed, and dropped again if it is empty. *)
Definition update_retirements (target_id : string) (f : PendingRetirements → PendingRetirements)
    (q : WatchOperationQueue) : WatchOperationQueue :=
  let p := f (default retirements_default (pending_removals q !! target_id)) in
  q <| pending_removals ::=
         if retirements_is_empty p then delete target_id else <[target_id := p]> |>.

Definition insert_retired (retired : option Path) (p : PendingRetirements) : PendingRetirements :=
  match retired with Some r => retirements_insert r p | None => p end.

Definition queue_remove (target_id : string) (retired : option Path) (q : WatchOperationQueue) :
    WatchOperationQueue :=
  let was_applied := bool_decide (is_Some (applied q !! target_id)) in
  let q := q <| desired ::= delete target_id |> <| applied ::= delete target_id |>
             <| failed_until ::= delete target_id |> in
  let in_flight := registering target_id q in
  if bool_decide (is_Some retired) || was_applied || in_flight
  then update_retirements target_id (λ p,
         insert_retired retired p <| unresolved_registration ::= λ u, u || in_flight |>) q
  else q.

Definition resolve_retirement (target_id : string) (retired : option Path)
    (q : WatchOperationQueue) : WatchOperationQueue :=
  update_retirements target_id (λ p,
    insert_retired retired (p <| unresolved_registration := false |>)) q.

Definition retirement_pending (target_id : string) (q : WatchOperationQueue) : bool :=
  bool_decide (is_Some (pending_removals q !! target_id)).

Definition request_retry (q : WatchOperationQueue) : WatchOperationQueue :=
  q <| retry_requested := true |>.

Definition disable (q : WatchOperationQueue) : WatchOperationQueue := queue_default.

Definition is_confirmed (target_id fp : string) (q : WatchOperationQueue) : bool :=
  match desired q !! target_id with
  | Some d => bool_decide (desired_fingerprint d = fp)
  | None => false
  end && bool_decide (applied q !! target_id = Some fp).

Definition is_current_desire_confirmed (target_id : string) (q : WatchOperationQueue) : bool :=
  match desired q !! target_id with
  | Some d => bool_decide (applied q !! target_id = Some (desired_fingerprint d))
  | None => false
  end.

Definition is_current_registration (o : WatchOperation) (q : WatchOperationQueue) : bool :=
  match o with
  | Register target_id d =>
      negb (retirement_pending target_id q) && bool_decide (desired q !! target_id = Some d)
  | _ => false
  end.

Definition next_unregister (q : WatchOperationQueue) : option WatchOperation :=
  head (omap (λ kv, Unregister kv.1 <$> head (tokens kv.2)) (entries (pending_removals q))).

(** The desire is neither in place nor waiting for a retry. *)
Definition wants_registration (now : Z) (q : WatchOperationQueue) (kv : string * DesiredWatch) :
    bool :=
  let already_applied := bool_decide (applied q !! kv.1 = Some (desired_fingerprint kv.2)) in
  let retry_delayed :=
    match failed_until q !! kv.1 with
    | Some (fp, at_time) => bool_decide (fp = desired_fingerprint kv.2) && (now <? at_time)
    | None => false
    end in
  negb already_applied && negb retry_delayed.

Definition next_registration (now : Z) (q : WatchOperationQueue) : option WatchOperation :=
  (λ kv, Register kv.1 kv.2) <$>
    head (filter (λ kv, wants_registration now q kv = true) (entries (desired q))).

Definition next_operation (now : Z) (q : WatchOperationQueue) : option WatchOperation :=
  match next_unregister q with
  | Some o => Some o
  | None =>
      match next_registration now q with
      | Some o => Some o
      | None => then_some (retry_requested q) RetryDegraded
      end
  end.

(** [next]. *)
Definition queue_next (now : Z) (q : WatchOperationQueue) :
    option WatchOperation * WatchOperationQueue :=
  match active q with
  | Some _ => (None, q)
  | None =>
      match next_operation now q with
      | None => (None, q)
      | Some o => (Some o, q <| active := Some (mkActiveOperation o now false) |>)
      end
  end.

Fixpoint remove_first {A} `{EqDecision A} (a : A) (l : list A) : list A :=
  match l with
  | [] => []
  | b :: l => if bool_decide (b = a) then l else b :: remove_first a l
  end.

(** What a completed operation changes. *)
Definition conclude (o : WatchOperation) (succeeded : bool) (now retry_delay : Z)
    (q : WatchOperationQueue) : WatchOperationQueue :=
  match o with
  | Register target_id d =>
      if bool_decide (desired q !! target_id = Some d) && negb (retirement_pending target_id q)
      then
        if succeeded
        then q <| applied ::= <[target_id := desired_fingerprint d]> |>
               <| failed_until ::= delete target_id |>
        else q <| failed_until ::= <[target_id :=
               (desired_fingerprint d, sat_add duration_max now retry_delay)]> |>
      else q
  | Unregister target_id retired =>
      match pending_removals q !! target_id with
      | Some p =>
          let p := p <| tokens ::= remove_first retired |> in
          q <| pending_removals ::=
                 if retirements_is_empty p then delete target_id else <[target_id := p]> |>
      | None => q
      end
  | RetryDegraded => q <| retry_requested := false |>
  end.

(** [complete]. *)
Definition queue_complete (o : WatchOperation) (succeeded : bool) (now retry_delay : Z)
    (q : WatchOperationQueue) : bool * WatchOperationQueue :=
  match active q with
  | None => (false, q)
  | Some a =>
      if bool_decide (operation a ≠ o) then (false, q)
      else (true, conclude o succeeded now retry_delay (q <| active := None |>))
  end.

Definition fail_active (now retry_delay : Z) (q : WatchOperationQueue) :
    option WatchOperation * WatchOperationQueue :=
  match active q with
  | None => (None, q)
  | Some a =>
      let '(completed, q) := queue_complete (operation a) false now retry_delay q in
      (then_some completed (operation a), q)
  end.

Definition take_stalled (now deadline : Z) (q : WatchOperationQueue) :
    option WatchOperation * WatchOperationQueue :=
  match active q with
  | None => (None, q)
  | Some a =>
      if stall_reported a || (duration_sat_sub now (started_at a) <? deadline) then (None, q)
      else (Some (operation a), q <| active := Some (a <| stall_reported := true |>) |>)
  end.

(** ** The queue is in order

    A watch that is in place is one that is desired, with the same fingerprint;
    none is in place while it is being registered; and what is kept for removal
    is not empty and has no duplicates. *)
Record queue_ok (q : WatchOperationQueue) : Prop := {
  ok_applied id fp : applied q !! id = Some fp →
    ∃ d, desired q !! id = Some d ∧ desired_fingerprint d = fp;
  ok_registering id : registering id q = true → applied q !! id = None;
  ok_retirements id p : pending_removals q !! id = Some p →
    retirements_is_empty p = false ∧ NoDup (tokens p);
}.

Lemma queue_default_ok : queue_ok queue_default.
Proof. split; cbn; [intros ?? H|done|intros ?? H]; by rewrite lookup_empty in H. Qed.

Lemma confirmed_applied id q :
  queue_ok q → is_current_desire_confirmed id q = true ↔ is_Some (applied q !! id).
Proof.
  intros [H1 _ _]. unfold is_current_desire_confirmed. split.
  - destruct (desired q !! id) as [d|]; [|done]. intros ?%bool_decide_eq_true. eauto.
  - intros [fp Hfp]. destruct (H1 _ _ Hfp) as (d & -> & <-). by apply bool_decide_eq_true.
Qed.

Lemma queue_upsert_ok id d q : queue_ok q → queue_ok (queue_upsert id d q).
Proof.
  intros [H1 H2 H3]. unfold queue_upsert. case_bool_decide; [done|]. split; cbn; [| |done].
  - intros i fp [Hne Hi]%lookup_delete_Some. rewrite lookup_insert_ne by done. eauto.
  - intros i Hi. apply H2 in Hi. by rewrite lookup_delete_None; right.
Qed.

Lemma update_retirements_ok id f q :
  (∀ p, NoDup (tokens p) → NoDup (tokens (f p))) → queue_ok q → queue_ok (update_retirements id f q).
Proof.
  intros Hf [H1 H2 H3]. unfold update_retirements. set (p := f _).
  assert (Hp : NoDup (tokens p)).
  { apply Hf. destruct (pending_removals q !! id) as [p'|] eqn:E; [by apply (H3 id)|constructor]. }
  split; cbn; [done..|]. intros i p'. destruct (retirements_is_empty p) eqn:E; cbn.
  - intros [_ Hi]%lookup_delete_Some. eauto.
  - intros [[<- <-]|[_ Hi]]%lookup_insert_Some; eauto.
Qed.

Lemma insert_retired_nodup retired p :
  NoDup (tokens p) → NoDup (tokens (insert_retired retired p)).
Proof.
  intros Hp. destruct retired as [r|]; [|done]. cbn. unfold retirements_insert.
  case_bool_decide as Hr; [done|]. cbn. apply NoDup_app. split_and!; [done| |by apply NoDup_singleton].
  intros x Hx ->%list_elem_of_singleton. done.
Qed.

Lemma queue_remove_ok id retired q : queue_ok q → queue_ok (queue_remove id retired q).
Proof.
  intros Hq. unfold queue_remove. cbv zeta.
  match goal with |- context [registering id ?x] => set (q' := x) end.
  assert (Hq' : queue_ok q').
  { destruct Hq as [H1 H2 H3]. split; cbn; [| |done].
    - intros i fp [Hne Hi]%lookup_delete_Some. rewrite lookup_delete_ne by done. eauto.
    - intros i Hi. apply H2 in Hi. by rewrite lookup_delete_None; right. }
  destruct (_ || _ || _); [|done]. apply update_retirements_ok; [|done].
  intros p Hp. cbn. by apply insert_retired_nodup.
Qed.

Lemma resolve_retirement_ok id retired q : queue_ok q → queue_ok (resolve_retirement id retired q).
Proof. apply update_retirements_ok. intros p Hp. by apply insert_retired_nodup. Qed.

Lemma elem_of_entries {A} (m : gmap string A) kv : kv ∈ entries m ↔ m !! kv.1 = Some kv.2.
Proof.
  unfold entries. rewrite (merge_sort_Permutation key_le), <-elem_of_map_to_list. by destruct kv.
Qed.

(** Only what is not in place is registered. *)
Lemma next_operation_register now q id d :
  next_operation now q = Some (Register id d) →
  desired q !! id = Some d ∧ applied q !! id ≠ Some (desired_fingerprint d).
Proof.
  unfold next_operation. destruct (next_unregister q) as [o|] eqn:Eu.
  { unfold next_unregister in Eu. intros [= ->]. apply head_Some_elem_of in Eu.
    apply list_elem_of_omap in Eu as (kv & _ & Hkv). destruct (head _); by simplify_eq/=. }
  destruct (next_registration now q) as [o|] eqn:Er; [|by destruct (retry_requested q)].
  unfold next_registration in Er. intros [= ->].
  apply fmap_Some in Er as ([i d'] & Hh & [= -> ->]).
  apply head_Some_elem_of, list_elem_of_filter in Hh as [Hw Hin%elem_of_entries].
  split; [done|]. unfold wants_registration in Hw. cbn in Hw.
  apply andb_prop in Hw as [Hw _]. by apply negb_true_iff, bool_decide_eq_false in Hw.
Qed.

Lemma queue_next_ok now q : queue_ok q → queue_ok (queue_next now q).2.
Proof.
  intros Hq. unfold queue_next. destruct (active q) eqn:Ea; [done|].
  destruct (next_operation now q) as [o|] eqn:Eo; [|done]. pose proof Hq as [H1 H2 H3].
  split; cbn; [done| |done]. intros id. unfold registering. cbn.
  destruct o as [i d| |]; [|done..]. intros ->%bool_decide_eq_true.
  apply next_operation_register in Eo as [Hd Hne].
  destruct (applied q !! id) as [fp|] eqn:Efp; [|done].
  destruct (H1 _ _ Efp) as (d' & Hd' & <-). by simplify_eq.
Qed.

Lemma remove_first_subset {A} `{EqDecision A} (a : A) l x : x ∈ remove_first a l → x ∈ l.
Proof. induction l as [|b l IH]; cbn; [done|]. case_bool_decide; set_solver. Qed.

Lemma remove_first_nodup {A} `{EqDecision A} (a : A) l : NoDup l → NoDup (remove_first a l).
Proof.
  induction 1 as [|b l Hb Hl IH]; cbn; [constructor|]. case_bool_decide; [done|].
  constructor; [|done]. intros ?%remove_first_subset. done.
Qed.

Lemma registering_idle id q : active q = None → registering id q = false.
Proof. unfold registering. by intros ->. Qed.

Lemma conclude_ok o succeeded now retry_delay q :
  queue_ok q → active q = None → queue_ok (conclude o succeeded now retry_delay q).
Proof.
  intros [H1 H2 H3] Ha.
  destruct o as [id d|id retired|]; cbn.
  - destruct (bool_decide _ && _) eqn:E; [|done]. apply andb_prop in E as [Ed%bool_decide_eq_true _].
    destruct succeeded; (split; cbn [applied desired set_with]; [|by intros i; rewrite registering_idle|done]); [|done].
    intros i fp [[<- <-]|[Hne Hi]]%lookup_insert_Some; eauto.
  - destruct (pending_removals q !! id) as [p|] eqn:E; [|done]. cbn.
    split; cbn; [done|by intros i; rewrite registering_idle|]. intros i p'.
    destruct (retirements_is_empty _) eqn:Ee; cbn.
    + intros [_ Hi]%lookup_delete_Some. eauto.
    + intros [[<- <-]|[_ Hi]]%lookup_insert_Some; [|eauto]. split; [done|].
      apply remove_first_nodup. by apply (H3 id).
  - split; done.
Qed.

Lemma queue_complete_ok o succeeded now retry_delay q :
  queue_ok q → queue_ok (queue_complete o succeeded now retry_delay q).2.
Proof.
  intros Hq. unfold queue_complete. destruct (active q) as [a|] eqn:Ea; [|done].
  case_bool_decide; [done|]. apply conclude_ok; [|done]. destruct Hq as [H1 H2 H3]. split; done.
Qed.

Lemma fail_active_ok now retry_delay q : queue_ok q → queue_ok (fail_active now retry_delay q).2.
Proof.
  intros Hq. unfold fail_active. destruct (active q) as [a|]; [|done].
  pose proof (queue_complete_ok (operation a) false now retry_delay q Hq).
  by destruct (queue_complete _ _ _ _ _).
Qed.

Lemma take_stalled_ok now deadline q : queue_ok q → queue_ok (take_stalled now deadline q).2.
Proof.
  intros Hq. unfold take_stalled. destruct (active q) as [a|] eqn:Ea; [|done].
  destruct (_ || _); [done|]. destruct Hq as [H1 H2 H3]. split; cbn; [done| |done].
  intros id Hid. apply H2. unfold registering in *. by rewrite Ea.
Qed.

Create HintDb watch_queue.
#[export] Hint Resolve queue_default_ok queue_upsert_ok queue_remove_ok resolve_retirement_ok
  queue_next_ok queue_complete_ok fail_active_ok take_stalled_ok : watch_queue.

(** ** Retired watches

    Every call of the queue's methods in any order, with the roots that were
    handed over for removal and those that were unregistered. *)
Record QueueWorld := mkQueueWorld {
  world_queue : WatchOperationQueue;
  handed : list (string * Path);
  unregistered : list (string * Path);
}.

Definition hand (id : string) (retired : option Path) (l : list (string * Path)) :=
  match retired with Some r => (id, r) :: l | None => l end.

Definition concluded (o : WatchOperation) (l : list (string * Path)) :=
  match o with Unregister id r => (id, r) :: l | _ => l end.

Inductive queue_step : QueueWorld → QueueWorld → Prop :=
  | step_upsert id d q h u :
      queue_step (mkQueueWorld q h u) (mkQueueWorld (queue_upsert id d q) h u)
  | step_remove id retired q h u :
      queue_step (mkQueueWorld q h u) (mkQueueWorld (queue_remove id retired q) (hand id retired h) u)
  | step_resolve id retired q h u :
      queue_step (mkQueueWorld q h u)
        (mkQueueWorld (resolve_retirement id retired q) (hand id retired h) u)
  | step_request q h u :
      queue_step (mkQueueWorld q h u) (mkQueueWorld (request_retry q) h u)
  | step_next now q h u :
      queue_step (mkQueueWorld q h u) (mkQueueWorld (queue_next now q).2 h u)
  | step_complete o succeeded now retry_delay q q' h u :
      queue_complete o succeeded now retry_delay q = (true, q') →
      queue_step (mkQueueWorld q h u) (mkQueueWorld q' h (concluded o u))
  | step_fail now retry_delay o q q' h u :
      fail_active now retry_delay q = (Some o, q') →
      queue_step (mkQueueWorld q h u) (mkQueueWorld q' h (concluded o u))
  | step_stalled now deadline q h u :
      queue_step (mkQueueWorld q h u) (mkQueueWorld (take_stalled now deadline q).2 h u).

Definition token_pending (q : WatchOperationQueue) (id : string) (r : Path) : Prop :=
  ∃ p, pending_removals q !! id = Some p ∧ r ∈ tokens p.

Lemma insert_retired_elem retired p r :
  r ∈ tokens (insert_retired retired p) ↔ r ∈ tokens p ∨ retired = Some r.
Proof.
  destruct retired as [r'|]; cbn; [|set_solver]. unfold retirements_insert.
  case_bool_decide as Hr; cbn; [naive_solver|]. rewrite elem_of_app, list_elem_of_singleton.
  naive_solver.
Qed.

(** What is pending after an update of one target. *)
Lemma update_retirements_pending id f q i r :
  token_pending (update_retirements id f q) i r ↔
  (i = id ∧ r ∈ tokens (f (default retirements_default (pending_removals q !! id)))) ∨
  (i ≠ id ∧ token_pending q i r).
Proof.
  unfold token_pending, update_retirements. set (p := f _). cbn.
  destruct (retirements_is_empty p) eqn:E.
  - assert (Hp : tokens p = []).
    { unfold retirements_is_empty in E. by apply andb_prop in E as [?%bool_decide_eq_true _]. }
    rewrite Hp. setoid_rewrite lookup_delete_Some. set_solver.
  - setoid_rewrite lookup_insert_Some. naive_solver.
Qed.

Lemma remove_pending id retired q i r :
  token_pending (queue_remove id retired q) i r ↔
  token_pending q i r ∨ (i = id ∧ retired = Some r).
Proof.
  unfold queue_remove. cbv zeta.
  match goal with |- context [registering id ?x] => set (q' := x) end.
  assert (Hq' : pending_removals q' = pending_removals q) by done.
  destruct (_ || _ || _) eqn:E.
  - rewrite update_retirements_pending. cbn [tokens set_with]. rewrite insert_retired_elem, Hq'.
    unfold token_pending. rewrite Hq'.
    destruct (decide (i = id)) as [->|]; [|naive_solver].
    destruct (pending_removals q !! id); cbn; set_solver.
  - apply orb_false_iff in E as [E _]. apply orb_false_iff in E as [E%bool_decide_eq_false _].
    unfold token_pending. rewrite Hq'. destruct retired; [destruct E; eauto|naive_solver].
Qed.

Lemma resolve_pending id retired q i r :
  token_pending (resolve_retirement id retired q) i r ↔
  token_pending q i r ∨ (i = id ∧ retired = Some r).
Proof.
  unfold resolve_retirement. rewrite update_retirements_pending, insert_retired_elem. cbn [tokens set_with].
  unfold token_pending. destruct (decide (i = id)) as [->|]; [|naive_solver].
  destruct (pending_removals q !! id); cbn; set_solver.
Qed.

Lemma elem_of_remove_first {A} `{EqDecision A} (a x : A) l :
  x ∈ l → x ∈ remove_first a l ∨ x = a.
Proof.
  induction l as [|b l IH]; cbn; [by intros ?%elem_of_nil|]. case_bool_decide; set_solver.
Qed.

Lemma conclude_pending o succeeded now retry_delay q i r :
  token_pending q i r →
  token_pending (conclude o succeeded now retry_delay q) i r ∨ o = Unregister i r.
Proof.
  intros (p & Hp & Hr). destruct o as [id d|id retired|]; cbn.
  - left. exists p. destruct (_ && _); [destruct succeeded|]; done.
  - destruct (pending_removals q !! id) as [p0|] eqn:E; [|left; by exists p]. cbn.
    destruct (decide (i = id)) as [->|Hne].
    + simplify_eq. destruct (elem_of_remove_first retired r _ Hr) as [Hin| ->]; [left|by right].
      unfold token_pending. cbn. destruct (retirements_is_empty _) eqn:Ee.
      * unfold retirements_is_empty in Ee. apply andb_prop in Ee as [Ee%bool_decide_eq_true _].
        cbn in Ee. rewrite Ee in Hin. by apply elem_of_nil in Hin.
      * eexists. rewrite lookup_insert_eq. by split.
    + left. exists p. cbn. destruct (retirements_is_empty _).
      * by rewrite lookup_delete_ne.
      * by rewrite lookup_insert_ne.
  - left. by exists p.
Qed.

Definition accounted_for (w : QueueWorld) : Prop :=
  ∀ id r, (id, r) ∈ handed w → token_pending (world_queue w) id r ∨ (id, r) ∈ unregistered w.

Lemma complete_accounted o succeeded now retry_delay q q' h u :
  accounted_for (mkQueueWorld q h u) → queue_complete o succeeded now retry_delay q = (true, q') →
  accounted_for (mkQueueWorld q' h (concluded o u)).
Proof.
  intros Hw Hc id r Hin. unfold queue_complete in Hc. destruct (active q) as [a|]; [|done].
  case_bool_decide; [done|]. injection Hc as <-. cbn [world_queue unregistered].
  destruct (Hw id r Hin) as [Hp|Hu].
  - set (idle := q <| active := None |>).
    destruct (conclude_pending o succeeded now retry_delay idle id r Hp)
      as [Hk| ->]; [by left|right; by apply elem_of_cons; left].
  - right. cbn in Hu. destruct o; [done| |done]. by apply elem_of_cons; right.
Qed.

Lemma queue_step_accounted w w' : queue_step w w' → accounted_for w → accounted_for w'.
Proof.
  intros Hstep Hw. destruct Hstep as [id d q h u|id retired q h u|id retired q h u|q h u|now q h u
    |o succeeded now retry_delay q q' h u Hc|now retry_delay o q q' h u Hf|now deadline q h u].
  - intros i r Hin. unfold queue_upsert. cbn in *. case_bool_decide; by apply (Hw i r).
  - intros i r Hin. cbn in *. rewrite remove_pending. destruct retired as [r'|]; cbn in Hin.
    + apply elem_of_cons in Hin as [[= -> ->]|Hin]; [left; right; done|].
      destruct (Hw i r Hin); [left; left; done|right; done].
    + destruct (Hw i r Hin); [left; left; done|right; done].
  - intros i r Hin. cbn in *. rewrite resolve_pending. destruct retired as [r'|]; cbn in Hin.
    + apply elem_of_cons in Hin as [[= -> ->]|Hin]; [left; right; done|].
      destruct (Hw i r Hin); [left; left; done|right; done].
    + destruct (Hw i r Hin); [left; left; done|right; done].
  - exact Hw.
  - intros i r Hin. unfold queue_next. cbn in *. repeat case_match; by apply (Hw i r).
  - by eapply complete_accounted.
  - unfold fail_active in Hf. destruct (active q) as [a|]; [|done].
    destruct (queue_complete _ _ _ _ _) as [[] q1] eqn:Hc; [|done]. injection Hf as <- <-.
    by eapply complete_accounted.
  - intros i r Hin. unfold take_stalled. cbn in *. repeat case_match; by apply (Hw i r).
Qed.

(** A removal comes before everything else. *)
Lemma pending_is_next now q id r :
  token_pending q id r →
  ∃ i r', next_operation now q = Some (Unregister i r') ∧ token_pending q i r'.
Proof.
  intros (p & Hp & Hr). unfold next_operation, next_unregister.
  set (l := omap _ _).
  assert (Hl : ∀ o, o ∈ l → ∃ i r', o = Unregister i r' ∧ token_pending q i r').
  { intros o ([i p'] & Hin%elem_of_entries & Ho)%list_elem_of_omap. cbn in *.
    apply fmap_Some in Ho as (r' & Hh & ->). exists i, r'. split; [done|]. exists p'.
    split; [done|]. by apply head_Some_elem_of. }
  destruct l as [|o l'] eqn:El; cbn.
  - exfalso. destruct (head (tokens p)) as [r'|] eqn:Eh.
    + assert (Hin : Unregister id r' ∈ l); [|rewrite El in Hin; by apply elem_of_nil in Hin].
      apply list_elem_of_omap. exists (id, p). split; [by apply elem_of_entries|]. cbn. by rewrite Eh.
    + destruct (tokens p); [by apply elem_of_nil in Hr|done].
  - destruct (Hl o) as (i & r' & -> & Hi); [by left|]. eauto.
Qed.

(** The watch of a retired root is not forgotten.  Whatever the order of
    calls, a root handed over for removal stays pending until an operation that
    unregisters it is completed; and as long as one is pending, an idle queue
    hands out the removal of a pending root before any other operation. *)
Theorem retired_watches_not_forgotten w id r :
  rtc queue_step (mkQueueWorld queue_default [] []) w → (id, r) ∈ handed w →
  (id, r) ∈ unregistered w ∨
  token_pending (world_queue w) id r ∧
  ∀ now, active (world_queue w) = None →
    ∃ i r', (queue_next now (world_queue w)).1 = Some (Unregister i r') ∧
      token_pending (world_queue w) i r'.
Proof.
  intros Hr Hin.
  assert (Hw : accounted_for w).
  { clear Hin. revert w Hr. apply (rtc_ind_r accounted_for); [by intros i r' ?%elem_of_nil|].
    intros w1 w2 _ Hstep. by apply queue_step_accounted. }
  destruct (Hw id r Hin) as [Hp|Hu]; [right|by left]. split; [done|]. intros now Ha.
  destruct (pending_is_next now _ _ _ Hp) as (i & r' & Hn & Hi). exists i, r'. split; [|done].
  unfold queue_next. by rewrite Ha, Hn.
Qed.

Lemma retired_watches_not_forgotten_witness :
  let q := queue_remove "a" (Some [RootDir; Normal "data"]) queue_default in
  ("a", [RootDir; Normal "data"]) ∈ @nil (string * Path) ∨
  token_pending q "a" [RootDir; Normal "data"] ∧
  ∀ now, active q = None →
    ∃ i r', (queue_next now q).1 = Some (Unregister i r') ∧ token_pending q i r'.
Proof.
  apply (retired_watches_not_forgotten (mkQueueWorld
    (queue_remove "a" (Some [RootDir; Normal "data"]) queue_default)
    [("a", [RootDir; Normal "data"])] []) "a" [RootDir; Normal "data"]).
  - apply rtc_once. apply (step_remove "a" (Some [RootDir; Normal "data"]) queue_default [] []).
  - by left.
Defined.
