(* ===== verification/Monitor.v ===== *)
(** * The soft-disk monitor

    Models [daemon/soft_disk_limiter/]: the loop that joins the planner, the
    watcher and the limiter.  It keeps the targets in step with the instances
    ([targets.rs]) and with the identities of their data directories
    ([root_identity.rs]), hands the operations of the watch queue to a worker
    and takes their results ([watching.rs]), turns the watcher's changes into
    work of the planner, and starts and finishes scans ([scanning.rs]).

    SHA-256 and the hexadecimal encoding are parameters. *)
From stdpp Require Import sorting relations.
From S2P Require Import Prelude Bytes Engines Planner DiskScan UsageTree Reconcile SoftScan.
From S2P Require Import SoftLimiter Watcher WatchQueue.

Local Open Scope Z_scope.

(** ** Fingerprints *)

(** A length and the bytes it counts. *)
Definition counted (b : bytes) : bytes := to_le 8 (zlength b) ++ b.

(** What [SoftDiskTarget::scanner_fingerprint] digests. *)
Definition scanner_preimage (t : SoftDiskTarget) : bytes :=
  counted (lit (created_at t)) ++ counted (lit (protocol_as_str (protocol t)))
  ++ counted (lit (data_path t)) ++ counted (to_le 8 (limit_bytes t)).

(** What [watch_fingerprint] digests. *)
Definition watch_preimage (target_fp : string) (identity : option RootIdentity) : bytes :=
  counted (lit target_fp)
  ++ match identity with Some i => to_le 8 (device i) ++ to_le 8 (inode i) | None => [] end.

(** ** Identities of data directories *)

Inductive ObservationDisposition := Initialized | SameIdentity | Replaced | StaleTarget.
#[export] Instance ObservationDisposition_eq_dec : EqDecision ObservationDisposition.
Proof. solve_decision. Defined.

Record Observation := mkObservation {
  observed_fingerprint : string;
  observed_identity : RootIdentity;
}.
#[export] Instance Observation_eta : Settable Observation :=
  λ o, mkObservation (observed_fingerprint o) (observed_identity o).

(** [RootIdentityTracker]. *)
Abbreviation RootIdentityTracker := (gmap string Observation).

Definition identity_for (id fp : string) (r : RootIdentityTracker) : option RootIdentity :=
  match r !! id with
  | Some o => if bool_decide (observed_fingerprint o = fp) then Some (observed_identity o) else None
  | None => None
  end.

Definition observe (id completed_fp current_fp : string) (identity : RootIdentity)
    (r : RootIdentityTracker) : ObservationDisposition * RootIdentityTracker :=
  let insert_new := (Initialized, <[id := mkObservation current_fp identity]> r) in
  if bool_decide (completed_fp ≠ current_fp) then (StaleTarget, r)
  else
    match r !! id with
    | Some o =>
        if bool_decide (observed_fingerprint o = current_fp)
        then
          if bool_decide (observed_identity o = identity) then (SameIdentity, r)
          else (Replaced, <[id := o <| observed_identity := identity |>]> r)
        else insert_new
    | None => insert_new
    end.

Definition retain_targets (current : gmap string string) (r : RootIdentityTracker) :
    RootIdentityTracker :=
  filter (λ kv, current !! kv.1 = Some (observed_fingerprint kv.2)) r.

(** ** What waits for a refresh *)

Inductive WatchRefresh := NoRefresh | RefreshTarget (id : string) | RefreshAll.

Record PendingWatchRefresh := mkRefresh {
  refresh_all : bool;
  refresh_targets : gset string;
}.
#[export] Instance PendingWatchRefresh_eta : Settable PendingWatchRefresh :=
  λ r, mkRefresh (refresh_all r) (refresh_targets r).

Definition refresh_default : PendingWatchRefresh := mkRefresh false ∅.

Definition include (refresh : WatchRefresh) (r : PendingWatchRefresh) : PendingWatchRefresh :=
  match refresh with
  | NoRefresh => r
  | RefreshTarget id => if refresh_all r then r else r <| refresh_targets ::= union {[id]} |>
  | RefreshAll => mkRefresh true ∅
  end.

Definition take_targets (current : gset string) (r : PendingWatchRefresh) :
    gset string * PendingWatchRefresh :=
  (if refresh_all r then current else refresh_targets r, refresh_default).

(** ** The state of the loop *)

(** [watching_enabled] says whether there is a watcher. *)
Record Monitor := mkMonitor {
  watching_enabled : bool;
  planner : HybridScanPlanner;
  monitored : gmap string SoftDiskTarget;
  identities : RootIdentityTracker;
  queue : WatchOperationQueue;
  forced : PendingWatchRefresh;
}.
#[export] Instance Monitor_eta : Settable Monitor :=
  λ m, mkMonitor (watching_enabled m) (planner m) (monitored m) (identities m) (queue m) (forced m).

Definition monitor_new (watching : bool) (c : PlannerConfig) : Monitor :=
  mkMonitor watching (planner_new (c <| watcher_enabled := watching |>)) ∅ ∅ queue_default
    refresh_default.

(** [is_watching] of [watching.rs]: the health alone. *)
Definition status_watching (id : string) (s : WatchShared) : bool :=
  match status id s with
  | Some st => bool_decide (status_health st = Watching)
  | None => false
  end.

Definition watcher_is_trusted (id : string) (q : WatchOperationQueue) (s : WatchShared) : bool :=
  is_current_desire_confirmed id q && status_watching id s.

Section monitor.
Context (sha256 : bytes → bytes) (hex_encode : bytes → string).

Definition scanner_fingerprint (t : SoftDiskTarget) : string :=
  hex_encode (sha256 (scanner_preimage t)).
Definition watch_fingerprint (target_fp : string) (identity : option RootIdentity) : string :=
  hex_encode (sha256 (watch_preimage target_fp identity)).

Definition desire (t : SoftDiskTarget) (identity : option RootIdentity) : DesiredWatch :=
  mkDesiredWatch (watch_fingerprint (scanner_fingerprint t) identity) (scanner_fingerprint t)
    (components (data_path t)).

Definition spec_of (t : SoftDiskTarget) (identity : option RootIdentity) (trusted : bool) :
    TargetSpec :=
  mkTargetSpec (instance_id t) (scanner_fingerprint t) identity true trusted
    (mmap_writes_bypass_inotify (protocol t)).

Definition put_planner (p : HybridScanPlanner) (m : Monitor) : Monitor := m <| planner := p |>.

Definition observe_root_identity (id completed_fp : string) (identity : RootIdentity) (now : Z)
    (m : Monitor) : ObservationDisposition * Monitor :=
  match monitored m !! id with
  | None => (StaleTarget, m)
  | Some t =>
      let current := scanner_fingerprint t in
      let '(disposition, r) := observe id completed_fp current identity (identities m) in
      let m := m <| identities := r |> in
      match disposition with
      | SameIdentity | StaleTarget => (disposition, m)
      | Initialized | Replaced =>
          let m :=
            if watching_enabled m && negb (mmap_writes_bypass_inotify (protocol t))
            then m <| queue ::= queue_upsert id (desire t (Some identity)) |> else m in
          (disposition,
           put_planner (upsert_target (planner m) now
             (mkTargetSpec id current (Some identity) true false
                (mmap_writes_bypass_inotify (protocol t)))).1 m)
      end
  end.

(** ** Keeping the targets in step *)

(** The turn of the loop over the candidates for one target. *)
Definition sync_target (now : Z) (t : SoftDiskTarget) (m : Monitor) (s : WatchShared) :
    Monitor * WatchShared :=
  let id := instance_id t in
  let bypass := mmap_writes_bypass_inotify (protocol t) in
  let identity := identity_for id (scanner_fingerprint t) (identities m) in
  let d := desire t identity in
  let '(m, s) :=
    if watching_enabled m && negb bypass then (m <| queue ::= queue_upsert id d |>, s)
    else if bypass
    then
      let '(retired, s) := if watching_enabled m then retire id s else (None, s) in
      (m <| queue ::= queue_remove id retired |>, s)
    else (m, s) in
  let trusted := negb bypass && watching_enabled m
                 && is_confirmed id (desired_fingerprint d) (queue m) && status_watching id s in
  (put_planner (upsert_target (planner m) now (spec_of t identity trusted)).1 m
     <| monitored ::= <[id := t]> |>, s).

(** A target that is gone.  Its usage cache is evicted by the limiter. *)
Definition sync_removed (id : string) (m : Monitor) (s : WatchShared) : Monitor * WatchShared :=
  let m := put_planner (remove_target (planner m) id).1 (m <| monitored ::= delete id |>) in
  let '(retired, s) := if watching_enabled m then retire id s else (None, s) in
  (m <| queue ::= queue_remove id retired |>, s).

Definition sync_end (current : gmap string string) (m : Monitor) : Monitor :=
  let m := m <| identities ::= retain_targets current |> in
  if watching_enabled m then m <| queue ::= request_retry |> else m.

Definition current_of (candidates : list SoftDiskTarget) : gmap string string :=
  foldl (λ c t, <[instance_id t := scanner_fingerprint t]> c) ∅ candidates.

Fixpoint sync_targets (now : Z) (candidates : list SoftDiskTarget) (m : Monitor)
    (s : WatchShared) : Monitor * WatchShared :=
  match candidates with
  | [] => (m, s)
  | t :: candidates =>
      let '(m, s) := sync_target now t m s in sync_targets now candidates m s
  end.

Fixpoint sync_removals (ids : list string) (m : Monitor) (s : WatchShared) :
    Monitor * WatchShared :=
  match ids with
  | [] => (m, s)
  | id :: ids => let '(m, s) := sync_removed id m s in sync_removals ids m s
  end.

(** [candidates] are the targets made from the instances and shared pools. *)
Definition sync_soft_disk_targets (now : Z) (candidates : list SoftDiskTarget) (m : Monitor)
    (s : WatchShared) : Monitor * WatchShared :=
  let current := current_of candidates in
  let '(m, s) := sync_targets now candidates m s in
  let removed := filter (λ id, current !! id = None) (map_to_list (monitored m)).*1 in
  let '(m, s) := sync_removals removed m s in
  (sync_end current m, s).

(** ** Changes of the watcher *)

(** The start of a refresh: which targets it looks at. *)
Definition refresh_drain (m : Monitor) (s : WatchShared) :
    list string * Monitor * WatchShared * Z :=
  let '(changes, s) := drain_changes s in
  let '(changed, forced') := take_targets (dom (monitored m)) (forced m) in
  let changed :=
    if global_reconcile changes then changed ∪ dom (monitored m)
    else changed ∪ list_to_set (target_ids changes) in
  (elements changed, m <| forced := forced' |>, s, sequence changes).

(** The first half of a turn: is the watcher trusted? *)
Definition refresh_trust (id : string) (now : Z) (m : Monitor) (s : WatchShared) :
    bool * Monitor :=
  match monitored m !! id with
  | None => (false, m)
  | Some _ =>
      let trusted := watcher_is_trusted id (queue m) s in
      (trusted, put_planner (set_watcher_trusted (planner m) id trusted now).1 m)
  end.

(** The second half, for a target that is trusted. *)
Definition refresh_capture (id : string) (now : Z) (m : Monitor) (s : WatchShared) : Monitor :=
  match capture id s with
  | None => m
  | Some b =>
      put_planner
        (if full_reconcile b then mark_overflow (planner m) id now (batch_generation b)
         else mark_dirty (planner m) id now (batch_generation b)).1 m
  end.

Fixpoint refresh_each (now : Z) (ids : list string) (m : Monitor) (s : WatchShared) : Monitor :=
  match ids with
  | [] => m
  | id :: ids =>
      let '(trusted, m) := refresh_trust id now m s in
      refresh_each now ids (if trusted then refresh_capture id now m s else m) s
  end.

Definition refresh_watcher_work (now previous_sequence : Z) (m : Monitor) (s : WatchShared) :
    Monitor * WatchShared * Z :=
  if negb (watching_enabled m) then (m <| forced := refresh_default |>, s, previous_sequence)
  else
    let '(ids, m, s, n) := refresh_drain m s in
    (refresh_each now ids m s, s, n).

(** ** Watch operations *)

Inductive WatchOperationResult :=
  | Registered (registration : WatchRegistration) (root_identity : RootIdentity)
  | Unregistered
  | Retried (summary : RetrySummary).

Definition dispatch_watch (now : Z) (m : Monitor) : option WatchOperation * Monitor :=
  if negb (watching_enabled m) then (None, m)
  else let '(o, q) := queue_next now (queue m) in (o, m <| queue := q |>).

Definition refresh_of (o : WatchOperation) : WatchRefresh :=
  match o with
  | Register id _ => RefreshTarget id
  | Unregister _ _ => NoRefresh
  | RetryDegraded => RefreshAll
  end.

Definition operation_succeeded (retiring : bool) (o : WatchOperation)
    (r : result string WatchOperationResult) (m : Monitor) (s : WatchShared) : bool :=
  match o, r with
  | Register id d, Ok (Registered registration _) =>
      negb retiring && bool_decide (registration_status registration = Watching)
      && (watching_enabled m && is_watching id (desired_fingerprint d) s)
  | _, Ok _ => true
  | _, Err _ => false
  end.

(** [None]: the task failed. *)
Definition finish_watch (completed : option (WatchOperation * result string WatchOperationResult))
    (now retry_delay : Z) (m : Monitor) (s : WatchShared) : WatchRefresh * Monitor * WatchShared :=
  match completed with
  | None =>
      let '(o, q) := fail_active now retry_delay (queue m) in
      (match o ≫= operation_target with Some id => RefreshTarget id | None => RefreshAll end,
       m <| queue := q |>, s)
  | Some (o, r) =>
      let retirement_target :=
        match o with
        | Register id _ => then_some (retirement_pending id (queue m)) id
        | _ => None
        end in
      let succeeded := operation_succeeded (bool_decide (is_Some retirement_target)) o r m s in
      let current_registration := is_current_registration o (queue m) in
      let '(completed, q) := queue_complete o succeeded now retry_delay (queue m) in
      let m := m <| queue := q |> in
      if negb completed then (refresh_of o, m, s)
      else
        let m :=
          match o, r with
          | Register id d, Ok (Registered _ root_identity) =>
              if succeeded && current_registration
              then (observe_root_identity id (desired_target_fingerprint d) root_identity now m).2
              else m
          | _, _ => m
          end in
        match retirement_target with
        | Some id =>
            let '(retired, s) := if watching_enabled m then retire id s else (None, s) in
            (refresh_of o, m <| queue ::= resolve_retirement id retired |>, s)
        | None => (refresh_of o, m, s)
        end
  end.

(** ** Scans *)

Inductive ScanTaskError :=
  | LockUnavailable
  | LimiterFailed (e : LimiterError)
  | TaskPanicked.

Record RunningScan := mkRunningScan {
  scan_candidate : ScanCandidate;
  scan_batch : option DirtyBatch;
  scan_target : SoftDiskTarget;
}.

Definition scan_request (trusted : bool) (p : Protocol) (kind : ScanKind)
    (batch : option DirtyBatch) : HybridScanRequest :=
  if negb trusted || mmap_writes_bypass_inotify p then StreamingFull
  else if bool_decide (kind = Full)
          || match batch with Some b => full_reconcile b | None => true end
  then RequestFull
  else RequestPartial (match batch with Some b => relative_paths b | None => [] end).

(** The first half of a turn: a candidate whose target is known, and whether the
    watcher is trusted; a candidate whose target is gone fails at once. *)
Definition dispatch_pick (now : Z) (m : Monitor) (s : WatchShared) :
    option (ScanCandidate * option (SoftDiskTarget * bool)) * Monitor :=
  let '(p, o) := next_candidate (planner m) now in
  match o with
  | None => (None, put_planner p m)
  | Some c =>
      match monitored m !! cand_target_id c with
      | None => (Some (c, None), put_planner (complete p c now Failed).1 m)
      | Some t =>
          let trusted := watching_enabled m && watcher_is_trusted (cand_target_id c) (queue m) s in
          (Some (c, Some (t, trusted)), put_planner p m)
      end
  end.

(** The second half: the changes the scan will have seen. *)
Definition dispatch_capture (c : ScanCandidate) (t : SoftDiskTarget) (trusted : bool)
    (s : WatchShared) : RunningScan * HybridScanRequest :=
  let batch := if trusted then capture (cand_target_id c) s else None in
  (mkRunningScan c batch t, scan_request trusted (protocol t) (cand_kind c) batch).

Definition completion_of (r : result ScanTaskError HybridScanExecution) : ScanCompletion :=
  match r with
  | Ok execution =>
      if measurement_succeeded execution
      then Succeeded match performed execution with
                     | PerformedFull => Full
                     | PerformedPartial => Partial
                     end
      else Failed
  | Err _ => Failed
  end.

Definition apply_soft_disk_scan (scan : RunningScan) (r : result ScanTaskError HybridScanExecution)
    (now : Z) (m : Monitor) (s : WatchShared) : Monitor * WatchShared :=
  let completion := completion_of r in
  let '(p, disposition) := complete (planner m) (scan_candidate scan) now completion in
  let m := put_planner p m in
  match disposition, completion, r with
  | Applied, Succeeded _, Ok execution =>
      match execution_root_identity execution with
      | None => (m, s)
      | Some observed =>
          let '(observation, m) :=
            observe_root_identity (instance_id (scan_target scan))
              (scanner_fingerprint (scan_target scan)) observed now m in
          match observation, watching_enabled m, scan_batch scan with
          | SameIdentity, true, Some b => (m, (acknowledge b s).2)
          | _, _, _ => (m, s)
          end
      end
  | _, _, _ => (m, s)
  end.

(** A watch operation that exceeded its deadline: there is no watcher any more. *)
Definition disable_watching (now : Z) (m : Monitor) : Monitor :=
  m <| queue ::= disable |> <| watching_enabled := false |>
    <| planner := foldl (λ p id, (set_watcher_trusted p id false now).1) (planner m)
                    (map_to_list (monitored m)).*1 |>.

Definition check_stalled (now deadline : Z) (m : Monitor) : option WatchOperation * Monitor :=
  let '(o, q) := take_stalled now deadline (queue m) in
  let m := m <| queue := q |> in
  match o with
  | None => (None, m)
  | Some o => (Some o, disable_watching now m)
  end.
End monitor.
