(* ===== verification/MonitorReach.v ===== *)
(** * One target: its changes and the work that is planned for it

    A target of the planner whose watcher is trusted, and the target of the
    watcher with the same name.  [reach] says that every pending change comes to
    a scan: the monitor is going to be told, it is looking, or the planner owes
    a scan; the lemmas say what the operations of the watcher, of the planner
    and of the monitor's loop make of it. *)
From stdpp Require Import sorting relations.
From S2P Require Import Prelude Bytes Engines Planner DiskScan UsageTree Reconcile SoftScan.
From S2P Require Import SoftLimiter Watcher WatchLife MonitorWatch WatchQueue Monitor.

Local Open Scope Z_scope.

(** ** What the planner's operations leave of a target *)

(** The candidate holds the lease of the target [t] of the planner. *)
Definition holds (id : string) (t : TargetState) (c : ScanCandidate) : Prop :=
  cand_target_id c = id ∧
  ∃ fl, in_flight t = Some fl ∧ fl_token fl = cand_token c ∧ fl_revision fl = revision t.

(** The target is planned anew: a full scan is due, and no scan that runs counts. *)
Definition fresh (id : string) (t : TargetState) : Prop :=
  dirty_generation t = 0 ∧ is_Some (full_requirement t) ∧
  (revision t < u64_max → ∀ c, ¬ holds id t c).

Lemma reset_fresh p l id t s now reason :
  bounds_ok (mkWorld p l) → Planner.targets p !! id = Some t → enabled s = true →
  fresh id (target_reset (t <| spec := s |>) now reason).
Proof.
  intros (_ & _ & Hb) Ht He. destruct (Hb _ _ Ht) as [Hr Hf]. unfold fresh. cbn.
  split_and!; [done|rewrite He; by eexists|]. intros Hlt c (_ & fl & Hfl & _ & Hrev). cbn in *.
  apply Hf in Hfl as [_ ?]. int_lia.
Qed.

Lemma upsert_other p now s id :
  id ≠ spec_id s → Planner.targets (upsert_target p now s).1 !! id = Planner.targets p !! id.
Proof.
  intros Hne. unfold upsert_target. repeat case_match; cbn; try done; by rewrite lookup_insert_ne.
Qed.

Lemma upsert_at p l now s :
  bounds_ok (mkWorld p l) → enabled s = true →
  ∃ t, Planner.targets (upsert_target p now s).1 !! spec_id s = Some t ∧ spec t = s ∧
    (Planner.targets p !! spec_id s = Some t ∨ fresh (spec_id s) t).
Proof.
  intros Hb He. unfold upsert_target. destruct (Planner.targets p !! spec_id s) as [t|] eqn:Ht.
  - case_bool_decide as Hs; cbn; [exists t; auto|]. eexists. rewrite lookup_insert_eq.
    split_and!; [done|done|]. right. by eapply reset_fresh.
  - eexists. cbn. rewrite lookup_insert_eq. split_and!; [done|done|]. right.
    unfold fresh. cbn. rewrite He. split_and!; [done|by eexists|]. intros _ c (_ & fl & ? & _). done.
Qed.

Lemma trust_other p id trusted now i :
  i ≠ id → Planner.targets (set_watcher_trusted p id trusted now).1 !! i = Planner.targets p !! i.
Proof.
  intros Hne. unfold set_watcher_trusted. repeat case_match; cbn; try done; by rewrite lookup_insert_ne.
Qed.

Lemma trust_at p l id trusted now t :
  bounds_ok (mkWorld p l) → Planner.targets p !! id = Some t → enabled (spec t) = true →
  ∃ t', Planner.targets (set_watcher_trusted p id trusted now).1 !! id = Some t' ∧
    spec t' = (spec t) <| watcher_trusted := trusted |> ∧ (t' = t ∨ fresh id t').
Proof.
  intros Hb Ht He. unfold set_watcher_trusted. rewrite Ht.
  destruct (Bool.eqb _ _) eqn:E.
  - exists t. apply eqb_prop in E as <-. split_and!; [done| |by left]. by destruct (spec t).
  - eexists. cbn. rewrite lookup_insert_eq. split_and!; [done..|]. right.
    eapply (reset_fresh p l id t ((spec t) <| watcher_trusted := trusted |>)); done.
Qed.

(** ** What reaches the planner *)

(** The planner owes the target a scan that comes before its next deadline. *)
Definition owed (t : TargetState) : Prop :=
  is_Some (full_requirement t) ∨ baseline_available t = false ∨ is_Some (dirty_due t).

Lemma completion_owes c t cand now completion :
  let t' := apply_completion c t cand now completion in
  spec t' = spec t ∧ revision t' = revision t ∧ in_flight t' = None ∧
  dirty_generation t' = dirty_generation t ∧ (completion = Failed → owed t') ∧
  (captured_generation cand < dirty_generation t → owed t').
Proof.
  unfold apply_completion, owed. destruct completion as [performed|];
    [|cbn; split_and!; try done; left; by eexists].
  destruct (_ && _); [cbn; split_and!; try done; left; by eexists|].
  unfold acknowledge_generation, record_full_scan. cbn.
  destruct (dirty_generation t <=? captured_generation cand) eqn:E; to_prop.
  - split_and!; try (by repeat case_match). intros ?. lia.
  - split_and!; try (by repeat case_match). intros _. right. right.
    destruct (bool_decide (performed = Full)); [|by eexists]. repeat case_match; by eexists.
Qed.

(** The planner was told the generation [g]. *)
Record marked (g : Z) (t t' : TargetState) : Prop := {
  marked_spec : spec t' = spec t;
  marked_revision : revision t' = revision t;
  marked_in_flight : in_flight t' = in_flight t;
  marked_generation : dirty_generation t' = Z.max (dirty_generation t) g;
  marked_owed : owed t → owed t';
  marked_advanced : dirty_generation t < g → owed t';
}.

Lemma advance_marked t now g c : dirty_generation t < g → marked g t (advance_dirty t now g c).
Proof.
  intros Hg. split; try done.
  - cbn. lia.
  - intros [?|[?|?]]; unfold owed; [by left|by right; left|right; right; apply get_or_insert_is_Some].
  - intros _. right. right. apply get_or_insert_is_Some.
Qed.

Lemma marked_refl g t : g ≤ dirty_generation t → marked g t t.
Proof. intros Hg. split; try done; lia. Qed.

Lemma mark_dirty_at p id now g t :
  Planner.targets p !! id = Some t → enabled (spec t) = true →
  ∃ t', Planner.targets (mark_dirty p id now g).1 !! id = Some t' ∧
    spec t' = spec t ∧ revision t' = revision t ∧ (0 ≤ dirty_generation t → marked g t t').
Proof.
  intros Ht He. unfold mark_dirty. rewrite Ht, He. cbn [negb orb].
  destruct ((g =? 0) || (g <=? dirty_generation t)) eqn:E; cbn.
  - exists t. split_and!; try done. intros Hd. apply marked_refl.
    apply orb_prop in E as [?|?]; to_prop; lia.
  - apply orb_false_iff in E as [_ ?]. to_prop. eexists. rewrite lookup_insert_eq.
    split_and!; try done. intros _. by apply advance_marked.
Qed.

Lemma mark_overflow_at p id now g t :
  Planner.targets p !! id = Some t → enabled (spec t) = true →
  ∃ t', Planner.targets (mark_overflow p id now g).1 !! id = Some t' ∧ marked g t t' ∧ owed t'.
Proof.
  intros Ht He. unfold mark_overflow. rewrite Ht, He. cbn [negb].
  set (t1 := if dirty_generation t <? g then _ else t).
  assert (H1 : marked g t t1).
  { unfold t1. destruct (_ <? _) eqn:E; to_prop; [by apply advance_marked|by apply marked_refl]. }
  assert (Hreq : ∀ q, marked g t (t1 <| full_requirement := Some q |>) ∧
    owed (t1 <| full_requirement := Some q |>)).
  { intros q. assert (owed (t1 <| full_requirement := Some q |>)) by (left; by eexists).
    destruct H1. by split. }
  clearbody t1. destruct (full_requirement t1) as [q|] eqn:Eq.
  - case_bool_decide; cbn; [eexists; rewrite lookup_insert_eq; split; [done|apply Hreq]|].
    destruct (_ <? _) eqn:E; cbn; (eexists; rewrite lookup_insert_eq; split; [done|]); [apply Hreq|].
    split; [done|]. left. by rewrite Eq.
  - cbn. eexists. rewrite lookup_insert_eq. split; [done|]. apply Hreq.
Qed.

(** A captured batch, full or not. *)
Lemma mark_at (full : bool) p id now g t :
  Planner.targets p !! id = Some t → enabled (spec t) = true →
  ∃ t', Planner.targets (if full then mark_overflow p id now g else mark_dirty p id now g).1 !! id =
      Some t' ∧
    spec t' = spec t ∧ revision t' = revision t ∧ (0 ≤ dirty_generation t → marked g t t').
Proof.
  intros Ht He. destruct full; [|by apply mark_dirty_at].
  destruct (mark_overflow_at p id now g t Ht He) as (t' & Ht' & Hmk & _).
  exists t'. destruct Hmk. by split_and!.
Qed.

Lemma mark_none (full : bool) p id now g :
  Planner.targets p !! id = None →
  (if full then mark_overflow p id now g else mark_dirty p id now g).1 = p.
Proof. intros Ht. unfold mark_overflow, mark_dirty. rewrite Ht. by destruct full. Qed.

Lemma mark_other (full : bool) p id now g i :
  i ≠ id →
  Planner.targets (if full then mark_overflow p id now g else mark_dirty p id now g).1 !! i =
  Planner.targets p !! i.
Proof.
  intros Hi. unfold mark_dirty, mark_overflow.
  repeat case_match; cbn; try done; by rewrite lookup_insert_ne.
Qed.

(** ** One target: its changes at the watcher and the planner's work *)

Section target.
Context (told inspecting : Prop) (global : Z).

(** A scan that runs and holds the lease, with the batch it captured. *)
Definition flight_ok (t : TargetState) (wt : WatchedTarget) (captured : Z)
    (batch : option DirtyBatch) : Prop :=
  match batch with
  | Some b =>
      batch_registration b = registration_generation wt ∧ batch_fingerprint b = fingerprint wt ∧
      captured ≤ batch_generation b ≤ watch_generation wt ∧
      (batch_generation b = watch_generation wt → batch_global b = global) ∧
      (batch_generation b < watch_generation wt → pending global wt = true ∧
         (told ∨ inspecting ∨ captured < dirty_generation t))
  | None =>
      captured ≤ watch_generation wt ∧
      (pending global wt = true →
         (told ∨ inspecting ∨ captured < dirty_generation t) ∧
         (health wt = Watching ∨ inspecting → captured < watch_generation wt))
  end.

(** Every pending change of a target whose watcher is trusted comes to a scan. *)
Record reach (l : list RunningScan) (picked : option ScanCandidate) (id : string) (t : TargetState)
    (wt : WatchedTarget) : Prop := {
  reach_generation : 0 ≤ dirty_generation t ≤ watch_generation wt;
  reach_degraded : health wt = Degraded → told;
  reach_pending : pending global wt = true → told ∨ inspecting ∨ owed t;
  reach_repeated : pending global wt = true → health wt = Watching ∨ inspecting →
    watch_generation wt ≤ dirty_generation t → owed t;
  reach_flight scan : scan ∈ l → holds id t (scan_candidate scan) →
    flight_ok t wt (captured_generation (scan_candidate scan)) (scan_batch scan);
  reach_picked c : picked = Some c → holds id t c → captured_generation c ≤ watch_generation wt;
}.

Lemma fresh_reach l picked id t wt :
  fresh id t → revision t < u64_max → 0 ≤ watch_generation wt → health wt = Watching →
  reach l picked id t wt.
Proof.
  intros (Hd & Hf & Hh) Hr Hg Hw. assert (owed t) by by left.
  split; try done; [lia|congruence|auto| |]; intros; by exfalso; eapply Hh.
Qed.
End target.

(** Fewer scans, and the same target. *)
Lemma reach_weaken (told told' inspecting inspecting' : Prop) global l l' picked picked' id t wt :
  (told → told') → (inspecting ↔ inspecting') →
  (∀ scan, scan ∈ l' → cand_target_id (scan_candidate scan) = id → scan ∈ l) →
  (∀ c, picked' = Some c → cand_target_id c = id → picked = Some c) →
  reach told inspecting global l picked id t wt → reach told' inspecting' global l' picked' id t wt.
Proof.
  intros Ht Hi Hl Hp [G U A A2 F P]. split; auto; [naive_solver|naive_solver| |].
  - intros scan Hin Hh. assert (Hin' : scan ∈ l) by (apply Hl; [done|apply Hh]).
    specialize (F scan Hin' Hh). unfold flight_ok in *. destruct (scan_batch scan); naive_solver.
  - intros c Hc Hh. apply P; [|done]. apply Hp; [done|apply Hh].
Qed.

(** Operations of the watcher. *)
Lemma reach_advances (told told' inspecting : Prop) l picked id t s s' wt' :
  (∀ wt, targets (watch_state s) !! id = Some wt →
     reach told inspecting (global_generation s) l picked id t wt) →
  advances id (s, ∅) (s', ∅) → (told → told') → (queued_in ∅ id s' → told') →
  targets (watch_state s') !! id = Some wt' →
  reach told' inspecting (global_generation s') l picked id t wt'.
Proof.
  intros Hr [_ Ha] Ht Hq Hwt'. destruct (Ha _ Hwt') as (wt & Hwt & Hreg & Hfp & Hcase).
  destruct (Hr _ Hwt) as [G U A A2 F P]. destruct Hcase as [Hcalm|(Hlt & Hpend & Hqu)].
  - pose proof (calm_pending _ _ _ _ _ _ Hcalm) as Hpe. destruct Hcalm as (Hg & _ & _ & _ & Hgl & Hh).
    assert (Hw : health wt' = Watching → health wt = Watching).
    { destruct Hh as [->|[-> _]]; done. }
    split; rewrite ?Hpe, ?Hg; auto.
    + intros Hd. destruct Hh as [Hh|[_ ?]]; [|auto]. rewrite Hh in Hd. auto.
    + intros Hp. destruct (A Hp) as [?|[?|?]]; auto.
    + intros Hp [?|?]; auto.
    + intros scan Hin Hho. specialize (F scan Hin Hho). unfold flight_ok in *.
      destruct (scan_batch scan); rewrite Hg, Hpe, ?Hreg, ?Hfp, ?Hgl in *; naive_solver.
  - assert (told') by auto. split; auto; [lia|intros; lia| |].
    + intros scan Hin Hho. specialize (F scan Hin Hho). unfold flight_ok in *.
      destruct (scan_batch scan) as [b|].
      * destruct F as (F1 & F2 & F3 & _). split_and!; [congruence|congruence|lia|lia|lia|auto].
      * destruct F as (F1 & _). split; [lia|]. intros _. split; [auto|]. intros _. lia.
    + intros c Hc Hho. specialize (P c Hc Hho). lia.
Qed.

Section moves.
Context (global : Z) (l : list RunningScan) (id : string) (t t' : TargetState) (wt : WatchedTarget).

(** The loop has found the watcher in order and is going to capture. *)
Lemma reach_inspect (told told' : Prop) :
  reach told False global l None id t wt → health wt = Watching →
  reach told' True global l None id t wt.
Proof.
  intros [G U A A2 F P] Hw. split; auto; [congruence|].
  intros scan Hin Hho. specialize (F scan Hin Hho). unfold flight_ok in *.
  destruct (scan_batch scan); naive_solver.
Qed.

(** Nothing to capture. *)
Lemma reach_nothing (told : Prop) :
  reach told True global l None id t wt → pending global wt = false →
  reach told False global l None id t wt.
Proof.
  intros [G U A A2 F P] Hp. split; auto; rewrite ?Hp; try done.
  intros scan Hin Hho. specialize (F scan Hin Hho). unfold flight_ok in *.
  destruct (scan_batch scan); rewrite ?Hp in *; naive_solver.
Qed.

(** The planner is told what was captured. *)
Lemma reach_marked (told : Prop) :
  reach told True global l None id t wt → pending global wt = true →
  marked (watch_generation wt) t t' →
  reach told False global l None id t' wt.
Proof.
  intros [G U A A2 F P] Hp [M1 M2 M3 M4 M5 M6].
  assert (Ho : owed t').
  { destruct (decide (watch_generation wt ≤ dirty_generation t)); [auto|apply M6; lia]. }
  assert (Hd : dirty_generation t' = watch_generation wt) by lia.
  split; auto; [lia| |done].
  intros scan Hin (Hc & fl & Hfl). rewrite M2, M3 in Hfl.
  assert (Hho : holds id t (scan_candidate scan)) by (split; eauto).
  specialize (F scan Hin Hho). unfold flight_ok in *. rewrite Hd.
  destruct (scan_batch scan) as [b|].
  - destruct F as (F1 & F2 & F3 & F4 & F5). do 4 (split; [done|]). intros Hlt.
    split; [done|]. right. right. lia.
  - destruct F as [F1 F2]. destruct (F2 Hp) as [_ F3]. specialize (F3 (or_intror I)).
    split; [done|]. intros _. split; [right; right; lia|done].
Qed.

(** The planner gives out a scan. *)
Lemma reach_issued (told : Prop) c :
  reach told False global l None id t wt →
  (∀ scan, scan ∈ l → cand_token (scan_candidate scan) ≠ cand_token c) →
  captured_generation c = dirty_generation t → dirty_generation t' = dirty_generation t →
  in_flight t' = Some (mkInFlight (cand_token c) (revision t)) → (owed t → owed t') →
  reach told False global l (Some c) id t' wt.
Proof.
  intros [G U A A2 F P] Hl Hc Hd Hf Ho. split; rewrite ?Hd; auto.
  - intros Hp. destruct (A Hp) as [?|[?|?]]; auto.
  - intros scan Hin (_ & fl & Hfl & Htok & _). rewrite Hf in Hfl. injection Hfl as <-.
    cbn in Htok. by destruct (Hl scan Hin).
  - intros c' [= <-] _. lia.
Qed.

(** A scan that does not count is over. *)
Lemma reach_dropped (told : Prop) l' :
  reach told False global l None id t wt →
  reach told False global l' None id (t <| in_flight := None |>) wt.
Proof.
  intros [G U A A2 F P]. split; try done. by intros scan _ (_ & fl & ? & _).
Qed.

(** What a scan that starts has captured. *)
Definition captures (batch : option DirtyBatch) : Prop :=
  match batch with
  | Some b =>
      batch_registration b = registration_generation wt ∧ batch_fingerprint b = fingerprint wt ∧
      batch_generation b = watch_generation wt ∧ batch_global b = global
  | None => pending global wt = false ∨ health wt = Degraded
  end.

Lemma reach_started (told : Prop) c target batch :
  reach told False global l (Some c) id t wt → captures batch →
  reach told False global (mkRunningScan c batch target :: l) None id t wt.
Proof.
  intros [G U A A2 F P] Hb. split; auto; [|done].
  intros scan [->|Hin]%elem_of_cons Hho; [|auto]. cbn [scan_candidate scan_batch] in *.
  specialize (P c eq_refl Hho). unfold flight_ok. destruct batch as [b|]; cbn in Hb.
  - destruct Hb as (-> & -> & -> & ->). split_and!; try done. lia.
  - split; [done|]. intros Hp. destruct Hb as [Hb|Hb]; [congruence|].
    split; [auto|]. intros [?|[]]. congruence.
Qed.

(** The scan is over: its lease is gone. *)
Section finished.
Context (told : Prop) (scan : RunningScan) (l' : list RunningScan).
Context (Hreach : reach told False global l None id t wt).
Context (Hin : scan ∈ l) (Hholds : holds id t (scan_candidate scan)).
Context (Hfl : in_flight t' = None) (Hd : dirty_generation t' = dirty_generation t).
Context (Ho : captured_generation (scan_candidate scan) < dirty_generation t → owed t').

Lemma released c : ¬ holds id t' c.
Proof. intros (_ & fl & ? & _). congruence. Qed.

Lemma reach_retried : owed t' → reach told False global l' None id t' wt.
Proof.
  destruct Hreach as [G U A A2 F P]. intros Howed. split; rewrite ?Hd; auto.
  - intros sc _ Hh. by apply released in Hh.
  - done.
Qed.

Lemma reach_unsettled :
  scan_batch scan = None → reach told False global l' None id t' wt.
Proof.
  destruct Hreach as [G U A A2 F P]. intros Hb. specialize (F scan Hin Hholds).
  unfold flight_ok in F. rewrite Hb in F. destruct F as [F1 F2]. split; rewrite ?Hd; auto.
  - intros Hp. destruct (F2 Hp) as [[?|[[]|?]] _]; auto.
  - intros Hp Hw Hle. destruct (F2 Hp) as [_ F3]. specialize (F3 Hw). apply Ho. lia.
  - intros sc _ Hh. by apply released in Hh.
  - done.
Qed.

Lemma reach_settled b maximum :
  scan_batch scan = Some b → watched_ok maximum wt → acknowledged_global_generation wt ≤ global →
  reach told False global l' None id t' (settle b wt).
Proof.
  destruct Hreach as [G U A A2 F P]. intros Hb Hok Hack. specialize (F scan Hin Hholds).
  unfold flight_ok in F. rewrite Hb in F. destruct F as (_ & _ & F3 & F4 & F5).
  assert (Hold : pending global (settle b wt) = true → batch_generation b < watch_generation wt).
  { intros Hp. destruct (decide (batch_generation b = watch_generation wt)) as [He|]; [|lia].
    exfalso. specialize (F4 He). destruct Hok as [_ H2 H3 _ _].
    unfold pending, settle, set_with in Hp. cbn in Hp.
    rewrite (bool_decide_eq_false_2 (is_Some _)), F4, Z.max_r, Z.eqb_refl in Hp; [|lia|].
    - rewrite bool_decide_eq_true_2 in Hp; [done|]. apply map_empty. intros dir.
      apply map_lookup_filter_None. right. intros g Hg%H3. cbn. lia.
    - destruct (full_generation wt) as [g|] eqn:Eg; [|by intros []].
      specialize (H2 g eq_refl). rewrite (proj2 (Z.leb_le g _)) by lia. by intros []. }
  split; cbn [settle set_with watch_generation health]; rewrite ?Hd; auto.
  - intros Hp%Hold%F5. destruct Hp as [_ [?|[[]|?]]]; auto.
  - intros Hp%Hold _ Hle. apply Ho. lia.
  - intros sc _ Hh. by apply released in Hh.
  - done.
Qed.
End finished.
End moves.
