(* ===== verification/MonitorLife.v ===== *)
(** * The monitor brings every change to a scan

    The loop of [Monitor] running beside the watcher's callback and the worker
    that carries out watch operations.  A turn of the loop
    ([daemon/soft_disk_limiter/mod.rs]) is a sequence of steps, and events
    arrive between any two of them: a refresh first drains the watcher's changes
    and then, for each target, asks whether the watcher is trusted and captures
    what is dirty; a scan is picked before its changes are captured, and it is
    reported at any later time. *)
From stdpp Require Import sorting relations.
From S2P Require Import Prelude Bytes Engines Planner DiskScan UsageTree Reconcile SoftScan.
From S2P Require Import SoftLimiter Watcher WatchLife MonitorWatch WatchQueue Monitor MonitorReach.

Local Open Scope Z_scope.

(** ** The loop, the watcher and the scans *)

(** Where the loop is: between two turns, in a refresh, or in a dispatch. *)
Inductive LoopPhase :=
  | Idle
  | Refreshing (ids : list string)
  | Inspecting (id : string) (ids : list string)
  | Dispatching (c : ScanCandidate) (t : SoftDiskTarget).

(** [issued_scans] are the candidates that the planner gave out. *)
Record MonitorWorld := mkMonitorWorld {
  mon : Monitor;
  watch : WatchWorld;
  scans : list RunningScan;
  phase : LoopPhase;
  issued_scans : list ScanCandidate;
}.

(** What goes on without the loop: events; and the worker, which registers and
    retires a target only while the queue's active operation registers it (a
    worker that the loop gave up on may still do so). *)
Definition worker_may (id : string) (m : Monitor) : Prop :=
  watching_enabled m = false ∨ registering id (queue m) = true.

Inductive outside (m : Monitor) : WatchWorld → WatchWorld → Prop :=
  | outside_event at_time result s rs cs ss n :
      outside m (mkWatchWorld s rs cs ss n)
        (mkWatchWorld (handle_callback at_time result s) (event_reports at_time result s ++ rs)
           cs ss (n + event_cost result))
  | outside_replace at_time id fp path old generation s s' rs cs ss n :
      worker_may id m → unchanged_registration id fp path s = Ok None →
      replace_target_state at_time id fp path s = (old, generation, s') →
      outside m (mkWatchWorld s rs cs ss n)
        (mkWatchWorld (signal_change s') (mkReport id generation 1 [] :: rs) cs ss (n + 2))
  | outside_finish id fp path generation succeeded at_time s rs cs ss n :
      worker_may id m →
      outside m (mkWatchWorld s rs cs ss n)
        (mkWatchWorld (finish_registration id fp path generation succeeded at_time s).2 rs cs ss
           (n + 1))
  | outside_retire id s rs cs ss n :
      worker_may id m →
      outside m (mkWatchWorld s rs cs ss n) (mkWatchWorld (retire id s).2 rs cs ss (n + 1))
  | outside_retry c succeeded at_time s rs cs ss n :
      outside m (mkWatchWorld s rs cs ss n)
        (mkWatchWorld (finish_retry c succeeded at_time s).2 (retry_reports c succeeded at_time s ++ rs)
           cs ss (n + 2))
  | outside_signal s rs cs ss n :
      outside m (mkWatchWorld s rs cs ss n) (mkWatchWorld (signal_change s) rs cs ss n)
  | outside_rebuild s rs cs ss n :
      outside m (mkWatchWorld s rs cs ss n)
        (mkWatchWorld (s <| backend_rebuild_requested := false |>) rs cs ss n).

(** The loop leaves the watcher in the state [s]: it may have retired a target
    or acknowledged a batch. *)
Inductive leaves (v : WatchWorld) : WatchShared → WatchWorld → Prop :=
  | leaves_same : leaves v (ws v) v
  | leaves_retired id :
      leaves v (retire id (ws v)).2
        (mkWatchWorld (retire id (ws v)).2 (reports v) (captured v) (settled v) (marks v + 1)).

Definition acknowledged (b : DirtyBatch) (seen : list Report) (s : WatchShared) (v : WatchWorld) :
    WatchWorld :=
  mkWatchWorld s (reports v) (captured v) ((b, seen) :: settled v) (marks v).

Definition drained (s : WatchShared) (v : WatchWorld) : WatchWorld :=
  mkWatchWorld s (reports v) (captured v) (settled v) (marks v).

(** The batch that a scan captured. *)
Definition inspected (batch : option DirtyBatch) (v : WatchWorld) : WatchWorld :=
  match batch with
  | Some b => mkWatchWorld (ws v) (reports v) ((b, reports v) :: captured v) (settled v) (marks v)
  | None => v
  end.

(** A measurement that succeeded knows which directory it measured. *)
Definition identified (r : result ScanTaskError HybridScanExecution) : Prop :=
  ∀ e, r = Ok e → measurement_succeeded e = true → is_Some (execution_root_identity e).

(** The limiter's scans are identified. *)
Lemma enforced_identified powf {R} `{!SoftDiskRuntime R} fp message now target request run limiter
    (rt : R) :
  identified (result_map_err LimiterFailed
    (scan_hybrid_and_enforce powf fp message now target request run limiter rt).1.1).
Proof.
  intros e He Hm. unfold scan_hybrid_and_enforce in He.
  destruct (scan_hybrid _ _ _ _ _ _) as [[[[usage kind] root_id]|[]] l'].
  - destruct (enforce_measured_usage _ _ _ _ _ _) as [[[] ?] ?]; cbn in He; simplify_eq. by eexists.
  - destruct (enforce_capacity_outage _ _ _ _ _) as [[[] ?] ?]; cbn in He; by simplify_eq.
  - destruct (enforce_unmeasurable _ _ _ _ _) as [[[] ?] ?]; cbn in He; by simplify_eq.
Qed.

Section life.
Context (sha256 : bytes → bytes) (hex_encode : bytes → string).

Abbreviation fp_of := (scanner_fingerprint sha256 hex_encode).

Inductive monitor_step : MonitorWorld → MonitorWorld → Prop :=
  | step_outside m v v' l ph cs :
      outside m v v' → monitor_step (mkMonitorWorld m v l ph cs) (mkMonitorWorld m v' l ph cs)
  | step_sync_target now t m m' s' v v' l cs :
      sync_target sha256 hex_encode now t m (ws v) = (m', s') → leaves v s' v' →
      monitor_step (mkMonitorWorld m v l Idle cs) (mkMonitorWorld m' v' l Idle cs)
  | step_sync_removed id m m' s' v v' l cs :
      sync_removed id m (ws v) = (m', s') → leaves v s' v' →
      monitor_step (mkMonitorWorld m v l Idle cs) (mkMonitorWorld m' v' l Idle cs)
  | step_sync_end current m v l cs :
      monitor_step (mkMonitorWorld m v l Idle cs) (mkMonitorWorld (sync_end current m) v l Idle cs)
  | step_refresh_none m v l cs :
      watching_enabled m = false →
      monitor_step (mkMonitorWorld m v l Idle cs)
        (mkMonitorWorld (m <| forced := refresh_default |>) v l Idle cs)
  | step_refresh_drain m v l cs ids m' s' n :
      watching_enabled m = true → refresh_drain m (ws v) = (ids, m', s', n) →
      monitor_step (mkMonitorWorld m v l Idle cs)
        (mkMonitorWorld m' (drained s' v) l (Refreshing ids) cs)
  | step_refresh_trust id ids now m v l cs trusted m' :
      refresh_trust id now m (ws v) = (trusted, m') →
      monitor_step (mkMonitorWorld m v l (Refreshing (id :: ids)) cs)
        (mkMonitorWorld m' v l (if trusted then Inspecting id ids else Refreshing ids) cs)
  | step_refresh_capture id ids now m v l cs :
      monitor_step (mkMonitorWorld m v l (Inspecting id ids) cs)
        (mkMonitorWorld (refresh_capture id now m (ws v)) v l (Refreshing ids) cs)
  | step_refresh_end m v l cs :
      monitor_step (mkMonitorWorld m v l (Refreshing []) cs) (mkMonitorWorld m v l Idle cs)
  | step_dispatch_watch now m v l cs :
      monitor_step (mkMonitorWorld m v l Idle cs)
        (mkMonitorWorld (dispatch_watch now m).2 v l Idle cs)
  | step_finish_watch completed now retry_delay m v l cs refresh m' s' v' :
      finish_watch sha256 hex_encode completed now retry_delay m (ws v) = (refresh, m', s') →
      leaves v s' v' →
      monitor_step (mkMonitorWorld m v l Idle cs)
        (mkMonitorWorld (m' <| forced ::= include refresh |>) v' l Idle cs)
  | step_stalled now deadline m v l cs :
      monitor_step (mkMonitorWorld m v l Idle cs)
        (mkMonitorWorld (check_stalled now deadline m).2 v l Idle cs)
  | step_pick_none now m m' v l cs :
      dispatch_pick now m (ws v) = (None, m') →
      monitor_step (mkMonitorWorld m v l Idle cs) (mkMonitorWorld m' v l Idle cs)
  | step_pick_gone now m m' v l cs c :
      dispatch_pick now m (ws v) = (Some (c, None), m') →
      monitor_step (mkMonitorWorld m v l Idle cs) (mkMonitorWorld m' v l Idle (c :: cs))
  | step_pick now m m' v l cs c t trusted :
      dispatch_pick now m (ws v) = (Some (c, Some (t, trusted)), m') →
      monitor_step (mkMonitorWorld m v l Idle cs)
        (if trusted then mkMonitorWorld m' v l (Dispatching c t) (c :: cs)
         else mkMonitorWorld m' v ((dispatch_capture c t false (ws v)).1 :: l) Idle (c :: cs))
  | step_capture c t m v l cs :
      let scan := (dispatch_capture c t true (ws v)).1 in
      monitor_step (mkMonitorWorld m v l (Dispatching c t) cs)
        (mkMonitorWorld m (inspected (scan_batch scan) v) (scan :: l) Idle cs)
  | step_scan scan r now m m' v l1 l2 cs :
      identified r → apply_soft_disk_scan sha256 hex_encode scan r now m (ws v) = (m', ws v) →
      monitor_step (mkMonitorWorld m v (l1 ++ scan :: l2) Idle cs)
        (mkMonitorWorld m' v (l1 ++ l2) Idle cs)
  | step_scan_acknowledged scan b seen r now m m' s' v l1 l2 cs :
      identified r → scan_batch scan = Some b → (b, seen) ∈ captured v →
      apply_soft_disk_scan sha256 hex_encode scan r now m (ws v) = (m', s') →
      acknowledge b (ws v) = (true, s') →
      monitor_step (mkMonitorWorld m v (l1 ++ scan :: l2) Idle cs)
        (mkMonitorWorld m' (acknowledged b seen s' v) (l1 ++ l2) Idle cs)
  | step_scan_lost scan m v l1 l2 cs :
      monitor_step (mkMonitorWorld m v (l1 ++ scan :: l2) Idle cs)
        (mkMonitorWorld m v (l1 ++ l2) Idle cs).

Definition monitor_reachable (watching : bool) (c : PlannerConfig) (w : MonitorWorld) : Prop :=
  ∃ env maximum_dirty maximum_pending retry_initial retry_maximum,
    rtc monitor_step
      (mkMonitorWorld (monitor_new watching c)
         (watch_initial env maximum_dirty maximum_pending retry_initial retry_maximum) [] Idle []) w.

(** ** The watcher and the planner inside the monitor *)

Lemma outside_watch m v v' : outside m v v' → watch_step v v'.
Proof. destruct 1; econstructor; done. Qed.

Lemma leaves_watch v s v' : leaves v s v' → rtc watch_step v v' ∧ ws v' = s.
Proof.
  destruct 1; (split; [|done]); [done|]. destruct v as [s rs cs ss n]. apply rtc_once, on_retire.
Qed.

Lemma monitor_step_watch w w' : monitor_step w w' → rtc watch_step (watch w) (watch w').
Proof.
  destruct 1; cbn [watch]; try done.
  - by eapply rtc_once, outside_watch.
  - by eapply leaves_watch.
  - by eapply leaves_watch.
  - unfold refresh_drain in H0. destruct (take_targets _ _). cbn in H0. injection H0 as _ _ <- _.
    destruct v as [s rs cs' ss k]. apply rtc_once, on_drain.
  - by eapply leaves_watch.
  - by destruct trusted.
  - subst scan. cbn. destruct (capture _ _) as [b|] eqn:E; [|done].
    destruct v as [s rs cs' ss k]. by eapply rtc_once, on_capture.
  - destruct v as [s rs cs' ss k]. by eapply rtc_once, on_acknowledge.
Qed.

(** Planner steps that lead from one monitor to another. *)
Definition plans (l : list ScanCandidate) (m m' : Monitor) : Prop :=
  rtc planner_step (mkWorld (planner m) l) (mkWorld (planner m') l).

Lemma plans_same l m m' : planner m' = planner m → plans l m m'.
Proof. unfold plans. by intros ->. Qed.

Lemma observe_plans l id fp i now m :
  plans l m (observe_root_identity sha256 hex_encode id fp i now m).2.
Proof.
  unfold plans, observe_root_identity. destruct (monitored m !! id) as [t|]; [|done].
  destruct (observe _ _ _ _ _) as [[] r]; cbn -[upsert_target]; try done;
    case_match; apply rtc_once, Planner.step_upsert.
Qed.

Lemma distrust_plans l ids now p :
  rtc planner_step (mkWorld p l)
    (mkWorld (foldl (λ p id, (set_watcher_trusted p id false now).1) p ids) l).
Proof.
  revert p. induction ids as [|id ids IH]; intros p; cbn [foldl]; [done|].
  eapply rtc_l; [|apply IH]. apply step_trust.
Qed.

(** The scans that run were given out by the planner. *)
Definition known (w : MonitorWorld) : Prop :=
  (∀ scan, scan ∈ scans w → scan_candidate scan ∈ issued_scans w) ∧
  ∀ c t, phase w = Dispatching c t → c ∈ issued_scans w.

Lemma monitor_step_known w w' : monitor_step w w' → known w → known w'.
Proof.
  destruct 1; intros [K1 K2]; (split; cbn [scans phase issued_scans] in *); try done.
  all: try by destruct trusted.
  - intros scan Hin%K1. by right.
  - destruct trusted; cbn [scans issued_scans].
    + intros scan Hin%K1. by right.
    + intros scan [->|Hin%K1]%elem_of_cons; [by left|by right].
  - destruct trusted; cbn [phase issued_scans]; [|done]. intros c' t' [= <- <-]. by left.
  - intros scan' [->|Hin%K1]%elem_of_cons; [|done]. by eapply K2.
  - intros scan' Hin. apply K1. set_solver.
  - intros scan' Hin. apply K1. set_solver.
  - intros scan' Hin. apply K1. set_solver.
Qed.

Lemma complete_plans l scan r now m s m' s' :
  scan_candidate scan ∈ l →
  apply_soft_disk_scan sha256 hex_encode scan r now m s = (m', s') → plans l m m'.
Proof.
  intros Hin. unfold apply_soft_disk_scan.
  destruct (complete _ _ _ _) as [p disposition] eqn:Ec.
  assert (H1 : plans l m (put_planner p m)).
  { apply rtc_once. cbn. replace p with (complete (planner m) (scan_candidate scan) now
      (completion_of r)).1 by by rewrite Ec. by apply Planner.step_complete. }
  assert (H2 : ∀ o observed, observe_root_identity sha256 hex_encode (instance_id (scan_target scan))
    (fp_of (scan_target scan)) observed now (put_planner p m) = o → plans l m o.2).
  { intros o observed <-. unfold plans. etrans; [exact H1|apply observe_plans]. }
  repeat case_match; intros [= <- <-]; try done; by (eapply (H2 (_, _)); done).
Qed.

Lemma finish_watch_plans l completed now retry_delay m s refresh m' s' :
  finish_watch sha256 hex_encode completed now retry_delay m s = (refresh, m', s') → plans l m m'.
Proof.
  unfold finish_watch. destruct completed as [[o r]|].
  2:{ destruct (fail_active _ _ _) as [o q]. intros [= _ <- _]. by apply plans_same. }
  cbv zeta. destruct (queue_complete _ _ _ _ _) as [done_ q] eqn:Eq.
  destruct done_; [cbn [negb]|intros [= _ <- _]; by apply plans_same].
  match goal with |- match _ with Some id => (let '(retired, s) := if watching_enabled ?x then _ else _
    in _) | None => _ end = _ → _ => set (m2 := x) end.
  assert (H2 : plans l m m2).
  { unfold m2. destruct o, r as [[]|]; try by apply plans_same. case_match; [|by apply plans_same].
    set (m1 := m <| queue := q |>). change (plans l m) with (plans l m1). apply observe_plans. }
  clearbody m2. destruct (match o with Register _ _ => _ | _ => _ end);
    [|by intros [= _ <- _]].
  destruct (if watching_enabled m2 then _ else _) as [retired s2]. by intros [= _ <- _].
Qed.

Lemma next_candidate_stays p now p' : next_candidate p now = (p', None) → p' = p.
Proof.
  unfold next_candidate. destruct (shutdown_flag p); [by intros [= <-]|].
  destruct (min_work _) as [w|] eqn:Em; [|by intros [= <-]].
  apply min_work_Some in Em as [Hin _]. apply elem_of_due_items in Hin as (t & Ht & _).
  cbn. by rewrite Ht.
Qed.

Lemma dispatch_pick_cases now m s o m' :
  dispatch_pick now m s = (o, m') →
  ∃ p o', next_candidate (planner m) now = (p, o') ∧
  match o' with
  | None => o = None ∧ m' = put_planner p m
  | Some c =>
      match monitored m !! cand_target_id c with
      | None => o = Some (c, None) ∧ m' = put_planner (complete p c now Failed).1 m
      | Some t =>
          o = Some (c, Some (t, watching_enabled m
                                && watcher_is_trusted (cand_target_id c) (queue m) s)) ∧
          m' = put_planner p m
      end
  end.
Proof.
  unfold dispatch_pick. destruct (next_candidate _ _) as [p o'] eqn:E. intros H. exists p, o'.
  split; [done|]. destruct o' as [c|]; [|by injection H as <- <-].
  destruct (monitored m !! _); by injection H as <- <-.
Qed.

Lemma monitor_step_planner w w' :
  monitor_step w w' → known w →
  rtc planner_step (mkWorld (planner (mon w)) (issued_scans w))
    (mkWorld (planner (mon w')) (issued_scans w')).
Proof.
  destruct 1; intros [K1 K2]; cbn [mon issued_scans scans] in *; try done.
  - unfold sync_target in H. cbv zeta in H.
    match type of H with (let '(m, s) := ?x in _) = _ => destruct x as [m1 s1] eqn:E end.
    injection H as <- _. assert (planner m1 = planner m) as <-.
    { repeat case_match; by simplify_eq. }
    apply rtc_once. apply (Planner.step_upsert (planner m1)).
  - unfold sync_removed in H. cbv zeta in H. destruct (if _ : bool then _ else _) as [retired s1].
    injection H as <- _. apply rtc_once, (Planner.step_remove (planner m)).
  - unfold sync_end. by case_match.
  - unfold refresh_drain in H0. destruct (take_targets _ _). cbn in H0. by injection H0 as _ <- _ _.
  - unfold refresh_trust in H. destruct (monitored m !! id) as [t|]; injection H as <- <-; [|done].
    apply rtc_once, (step_trust (planner m)).
  - unfold refresh_capture. destruct (capture _ _) as [b|]; [|done]. apply rtc_once. cbn.
    case_match; [apply step_overflow|apply step_dirty].
  - unfold dispatch_watch. case_match; [done|]. by destruct (queue_next _ _).
  - cbn. by eapply finish_watch_plans.
  - unfold check_stalled, disable_watching. destruct (take_stalled _ _ _) as [[o|] q]; [|done].
    apply distrust_plans.
  - apply dispatch_pick_cases in H as (p & o & Hn & H). destruct o as [c|];
      [by destruct (monitored m !! _); destruct H|]. destruct H as [_ ->]. apply next_candidate_stays in Hn as ->. done.
  - apply dispatch_pick_cases in H as (p & o & Hn & H). destruct o as [c'|]; [|by destruct H].
    destruct (monitored m !! _); destruct H as [[= ->] ->].
    eapply rtc_l; [by eapply Planner.step_candidate|]. apply rtc_once, Planner.step_complete. by left.
  - apply dispatch_pick_cases in H as (p & o & Hn & H). destruct o as [c'|]; [|by destruct H].
    destruct (monitored m !! _); destruct H as [[= -> -> ->] ->].
    apply rtc_once. by case_match; eapply Planner.step_candidate.
  - eapply complete_plans; [|done]. apply K1. set_solver.
  - eapply complete_plans; [|done]. apply K1. set_solver.
Qed.


(** ** The monitor fits together

    A target of the planner is monitored under the fingerprint it was planned
    with; where the planner trusts the watcher there is one, and the target's
    watch is in place. *)
Record coherent (m : Monitor) : Prop := {
  coherent_queue : queue_ok (queue m);
  coherent_monitored id t : monitored m !! id = Some t → instance_id t = id;
  coherent_planned id t : Planner.targets (planner m) !! id = Some t →
    ∃ target, monitored m !! id = Some target ∧
      spec_fingerprint (spec t) = fp_of target ∧ enabled (spec t) = true;
  coherent_trusted id t : Planner.targets (planner m) !! id = Some t → watcher_trusted (spec t) = true →
    watching_enabled m = true ∧ is_Some (applied (queue m) !! id);
}.

(** What may hold of a target of the planner. *)
Definition in_plan (m : Monitor) (id : string) (t : TargetState) : Prop :=
  (∃ target, monitored m !! id = Some target ∧
     spec_fingerprint (spec t) = fp_of target ∧ enabled (spec t) = true) ∧
  (watcher_trusted (spec t) = true → watching_enabled m = true ∧ is_Some (applied (queue m) !! id)).

Lemma coherent_target m id t :
  coherent m → Planner.targets (planner m) !! id = Some t → in_plan m id t.
Proof. intros Hm Ht. split; [by eapply coherent_planned|by eapply coherent_trusted]. Qed.

(** [m'] differs from [m] at [id] alone. *)
Record differs_at (id : string) (m m' : Monitor) : Prop := {
  differs_watching : watching_enabled m' = watching_enabled m;
  differs_monitored i : i ≠ id → monitored m' !! i = monitored m !! i;
  differs_planner i : i ≠ id →
    Planner.targets (planner m') !! i = Planner.targets (planner m) !! i;
  differs_applied i : i ≠ id → is_Some (applied (queue m) !! i) → is_Some (applied (queue m') !! i);
}.

Lemma differs_in_plan id m m' i t :
  differs_at id m m' → i ≠ id → in_plan m i t → in_plan m' i t.
Proof.
  intros [D1 D2 D3 D4] Hi [(target & Ht & Hf & He) Htr]. split.
  - exists target. by rewrite D2.
  - intros [? ?]%Htr. rewrite D1. auto.
Qed.

Lemma coherent_change id m m' :
  coherent m → differs_at id m m' → queue_ok (queue m') →
  (∀ t, monitored m' !! id = Some t → instance_id t = id) →
  (∀ t, Planner.targets (planner m') !! id = Some t → in_plan m' id t) → coherent m'.
Proof.
  intros Hm Hd Hq Hmon Hpl.
  assert (Hall : ∀ i t, Planner.targets (planner m') !! i = Some t → in_plan m' i t).
  { intros i t Ht. destruct (decide (i = id)) as [->|Hi]; [by apply Hpl|].
    rewrite (differs_planner _ _ _ Hd) in Ht by done.
    eapply differs_in_plan; [done..|]. by apply coherent_target. }
  split; [done| |intros i t Ht; by apply Hall|intros i t Ht; by apply Hall].
  intros i t Ht. destruct (decide (i = id)) as [->|Hi]; [by apply Hmon|].
  rewrite (differs_monitored _ _ _ Hd) in Ht by done. by eapply coherent_monitored.
Qed.

Lemma differs_refl id m : differs_at id m m.
Proof. by split. Qed.

(** Only the planner's target [id] changes, and it keeps its spec. *)
Lemma differs_put m id p :
  (∀ i, i ≠ id → Planner.targets p !! i = Planner.targets (planner m) !! i) →
  differs_at id m (put_planner p m).
Proof. intros Hp. by split. Qed.

Lemma coherent_put m id p :
  coherent m → (∀ i, i ≠ id → Planner.targets p !! i = Planner.targets (planner m) !! i) →
  (∀ t', Planner.targets p !! id = Some t' →
     ∃ t, Planner.targets (planner m) !! id = Some t ∧ spec t' = spec t) →
  coherent (put_planner p m).
Proof.
  intros Hm Hp Hid. eapply coherent_change; [done|by apply differs_put|apply Hm|apply Hm|].
  intros t' (t & Ht & Hs)%Hid. pose proof (coherent_target _ _ _ Hm Ht) as Hpl.
  unfold in_plan in *. by rewrite Hs.
Qed.

(** ** What the turns of the loop change *)

(** Nothing but the queue, which keeps the watches that are in place. *)
Record quiet (m m' : Monitor) : Prop := {
  quiet_watching : watching_enabled m' = watching_enabled m;
  quiet_planner : planner m' = planner m;
  quiet_monitored : monitored m' = monitored m;
  quiet_queue : queue_ok (queue m) → queue_ok (queue m');
  quiet_applied i : is_Some (applied (queue m) !! i) → is_Some (applied (queue m') !! i);
}.

Lemma quiet_differs id m m' : quiet m m' → differs_at id m m'.
Proof. intros [Q1 Q2 Q3 Q4 Q5]. split; [done|by rewrite Q3|by rewrite Q2|auto]. Qed.

Lemma quiet_refl m : quiet m m.
Proof. by split. Qed.

Lemma quiet_coherent m m' : quiet m m' → coherent m → coherent m'.
Proof.
  intros Hq Hm. pose proof (quiet_differs EmptyString _ _ Hq) as Hd. destruct Hq as [Q1 Q2 Q3 Q4 Q5].
  eapply coherent_change; [done|done|apply Q4, Hm|rewrite Q3; apply Hm|]. rewrite Q2.
  intros t [(target & Ht & Hf & He) Htr]%(coherent_target _ _ _ Hm). split.
  - exists target. by rewrite Q3.
  - intros [? ?]%Htr. rewrite Q1. auto.
Qed.

Lemma upsert_applied id d q i :
  i ≠ id → is_Some (applied q !! i) → is_Some (applied (queue_upsert id d q) !! i).
Proof.
  intros Hi Ha. unfold queue_upsert. case_bool_decide; [done|]. cbn. by rewrite lookup_delete_ne.
Qed.

Lemma remove_applied id retired q i :
  i ≠ id → is_Some (applied q !! i) → is_Some (applied (queue_remove id retired q) !! i).
Proof.
  intros Hi Ha. unfold queue_remove. cbv zeta. case_match; cbn; by rewrite lookup_delete_ne.
Qed.

Lemma conclude_applied o succeeded now retry_delay q i :
  is_Some (applied q !! i) → is_Some (applied (conclude o succeeded now retry_delay q) !! i).
Proof.
  intros Ha. destruct o as [id d|id retired|]; cbn; [|by case_match|done].
  destruct (_ && _); [|done]. destruct succeeded; [|done]. cbn.
  destruct (decide (i = id)) as [->|Hi]; [rewrite lookup_insert_eq; by eexists|by rewrite lookup_insert_ne].
Qed.

Lemma complete_applied o succeeded now retry_delay q i :
  is_Some (applied q !! i) →
  is_Some (applied (queue_complete o succeeded now retry_delay q).2 !! i).
Proof.
  intros Ha. unfold queue_complete. destruct (active q) as [a|]; [|done].
  case_bool_decide; [done|]. by apply conclude_applied.
Qed.

Lemma confirmed_in_place id fp q : is_confirmed id fp q = true → is_Some (applied q !! id).
Proof. unfold is_confirmed. intros [_ H%bool_decide_eq_true]%andb_prop. by eexists. Qed.

Section sync.
Context (now : Z) (target : SoftDiskTarget) (m : Monitor) (s : WatchShared) (l : list ScanCandidate).
Context (Hm : coherent m) (Hb : bounds_ok (mkWorld (planner m) l)).

Lemma sync_target_at m' s' :
  sync_target sha256 hex_encode now target m s = (m', s') →
  let id := instance_id target in
  differs_at id m m' ∧ forced m' = forced m ∧ queue_ok (queue m') ∧
  monitored m' !! id = Some target ∧ (s' = s ∨ s' = (retire id s).2) ∧
  ∃ t, Planner.targets (planner m') !! id = Some t ∧ in_plan m' id t ∧
    (Planner.targets (planner m) !! id = Some t ∨ fresh id t) ∧
    (watcher_trusted (spec t) = true → s' = s ∧ status_watching id s = true).
Proof.
  unfold sync_target. cbv zeta. set (id := instance_id target).
  set (d := desire sha256 hex_encode target _).
  match goal with |- (let '(m, s) := ?x in _) = _ → _ => destruct x as [m1 s1] eqn:E end.
  assert (H1 : planner m1 = planner m ∧ monitored m1 = monitored m ∧ forced m1 = forced m ∧
    watching_enabled m1 = watching_enabled m ∧ queue_ok (queue m1) ∧
    (∀ i, i ≠ id → is_Some (applied (queue m) !! i) → is_Some (applied (queue m1) !! i)) ∧
    (s1 = s ∨ s1 = (retire id s).2) ∧
    (mmap_writes_bypass_inotify (protocol target) = false → s1 = s)).
  { pose proof (coherent_queue _ Hm) as Hq.
    destruct (watching_enabled m) eqn:Ew, (mmap_writes_bypass_inotify (protocol target)) eqn:Eb;
      cbn [andb negb] in E.
    - destruct (retire id s) as [retired s2] eqn:Er. injection E as <- <-.
      split_and!; [done..|by apply queue_remove_ok|intros i; apply remove_applied|by right|done].
    - injection E as <- <-.
      split_and!; [done..|by apply queue_upsert_ok|intros i; apply upsert_applied|by left|done].
    - injection E as <- <-.
      split_and!; [done..|by apply queue_remove_ok|intros i; apply remove_applied|by left|done].
    - injection E as <- <-. split_and!; [done..|by left|done]. }
  clear E. destruct H1 as (H1 & H2 & H3 & H4 & H5 & H6 & H7 & H8).
  intros [= <- <-]. cbn -[upsert_target].
  match goal with |- context [upsert_target _ now ?x] => set (sp := x) end.
  assert (Hid : spec_id sp = id) by done.
  destruct (upsert_at (planner m) l now sp Hb eq_refl) as (t & Ht & Hs & Hcase).
  rewrite Hid in Ht, Hcase. rewrite H1.
  split; [split; cbn -[upsert_target]|].
  - done.
  - intros i Hi. rewrite lookup_insert_ne by done. by rewrite H2.
  - intros i Hi. by apply upsert_other.
  - done.
  - split; [done|]. split; [done|]. split; [by rewrite lookup_insert_eq|]. split; [done|].
    exists t. split; [done|].
    assert (Htr : watcher_trusted (spec t) = true → s1 = s ∧ status_watching id s = true ∧
      watching_enabled m = true ∧ is_Some (applied (queue m1) !! id)).
    { rewrite Hs. cbn. rewrite H4. intros [[[Hbyp Hw]%andb_prop Hc]%andb_prop Hst]%andb_prop.
      apply negb_true_iff, H8 in Hbyp. rewrite Hbyp in Hst. apply confirmed_in_place in Hc. done. }
    split_and!; [|done|by intros (? & ? & _)%Htr].
    split; cbn -[upsert_target].
    + exists target. rewrite lookup_insert_eq, Hs. done.
    + rewrite H4. by intros (_ & _ & ? & ?)%Htr.
Qed.
End sync.

Lemma sync_removed_at id m s m' s' :
  queue_ok (queue m) → sync_removed id m s = (m', s') →
  differs_at id m m' ∧ forced m' = forced m ∧ queue_ok (queue m') ∧
  monitored m' !! id = None ∧ Planner.targets (planner m') !! id = None ∧
  (s' = s ∨ s' = (retire id s).2).
Proof.
  intros Hq. unfold sync_removed. cbn -[retire queue_remove remove_target].
  destruct (if watching_enabled m then retire id s else (None, s)) as [retired s1] eqn:Er.
  intros [= <- <-]. cbn -[queue_remove].
  assert (s1 = s ∨ s1 = (retire id s).2).
  { destruct (watching_enabled m); [right; by rewrite Er|left; by simplify_eq]. }
  split_and!; eauto with watch_queue; try by rewrite lookup_delete_eq.
  split; cbn -[queue_remove]; [done|..]; intros i Hi.
  - by rewrite lookup_delete_ne.
  - by rewrite lookup_delete_ne.
  - by apply remove_applied.
Qed.


(** The target is planned anew, and the watcher is not trusted with it. *)
Record replanned (id : string) (m m' : Monitor) : Prop := {
  replanned_differs : differs_at id m m';
  replanned_forced : forced m' = forced m;
  replanned_queue : queue_ok (queue m');
  replanned_monitored : monitored m' = monitored m;
  replanned_target : ∃ t, Planner.targets (planner m') !! id = Some t ∧ in_plan m' id t ∧
    watcher_trusted (spec t) = false;
}.

Lemma replan_at id target i now m m1 bypass l :
  bounds_ok (mkWorld (planner m) l) → monitored m !! id = Some target →
  planner m1 = planner m → monitored m1 = monitored m → forced m1 = forced m →
  watching_enabled m1 = watching_enabled m → queue_ok (queue m1) →
  (∀ i, i ≠ id → is_Some (applied (queue m) !! i) → is_Some (applied (queue m1) !! i)) →
  replanned id m (put_planner (upsert_target (planner m1) now
    (mkTargetSpec id (fp_of target) i true false bypass)).1 m1).
Proof.
  intros Hb Ht H1 H2 H3 H4 H5 H6. set (sp := mkTargetSpec _ _ _ _ _ _).
  split; cbn -[upsert_target]; rewrite ?H1; try done.
  - split; cbn -[upsert_target]; [done|by rewrite H2| |done]. intros j Hj. by apply upsert_other.
  - destruct (upsert_at (planner m) l now sp Hb eq_refl) as (t & Hlt & Hs & _).
    exists t. rewrite Hs. split_and!; [done| |done]. split; rewrite Hs; [|done].
    exists target. cbn. by rewrite H2.
Qed.

Lemma observe_at id completed_fp i now m disposition m' l :
  coherent m → bounds_ok (mkWorld (planner m) l) →
  observe_root_identity sha256 hex_encode id completed_fp i now m = (disposition, m') →
  (disposition = StaleTarget → ∀ target, monitored m !! id = Some target →
     completed_fp ≠ fp_of target) ∧
  (quiet m m' ∧ forced m' = forced m ∧ (disposition = SameIdentity ∨ disposition = StaleTarget) ∨
   replanned id m m' ∧ disposition ≠ SameIdentity).
Proof.
  intros Hm Hb. pose proof (coherent_queue _ Hm) as Hq. unfold observe_root_identity.
  destruct (monitored m !! id) as [target|] eqn:Ht.
  2:{ intros [= <- <-]. split; [done|]. left. split_and!; [done..|by right]. }
  destruct (observe _ _ _ _ _) as [d r] eqn:Eo.
  assert (Hstale : d = StaleTarget → completed_fp ≠ fp_of target).
  { intros ->. unfold observe in Eo. case_bool_decide; [done|]. by repeat case_match. }
  destruct d; intros [= <- <-];
    (split; [intros Hst ? [= <-]; by apply Hstale|]); [right|left|right|left].
  2,4: split_and!; [done..|auto].
  all: (split; [|done]); eapply replan_at; [done..| | | | | |]; destruct (_ && _); try done;
    [by apply queue_upsert_ok|intros j; apply upsert_applied].
Qed.

(** ** Watch operations *)

Lemma fail_active_applied now retry_delay q i :
  is_Some (applied q !! i) → is_Some (applied (fail_active now retry_delay q).2 !! i).
Proof.
  intros Ha. unfold fail_active. destruct (active q) as [a|]; [|done].
  pose proof (complete_applied (operation a) false now retry_delay q i Ha) as Hc.
  by destruct (queue_complete _ _ _ _ _) as [c q1].
Qed.

Lemma completed_registering id d succeeded now retry_delay q :
  (queue_complete (Register id d) succeeded now retry_delay q).1 = true → registering id q = true.
Proof.
  unfold queue_complete, registering. destruct (active q) as [a|]; [|done].
  case_bool_decide as Hn; [done|]. cbn.
  destruct (decide (operation a = Register id d)) as [->|]; [|done].
  intros _. by apply bool_decide_eq_true.
Qed.

Lemma finish_watch_at completed now retry_delay m s refresh m' s' l :
  coherent m → bounds_ok (mkWorld (planner m) l) →
  finish_watch sha256 hex_encode completed now retry_delay m s = (refresh, m', s') →
  forced m' = forced m ∧
  (quiet m m' ∧ s' = s ∨
   ∃ id, registering id (queue m) = true ∧ (quiet m m' ∨ replanned id m m') ∧
     (s' = s ∨ s' = (retire id s).2)).
Proof.
  intros Hm Hb. pose proof (coherent_queue _ Hm) as Hq. unfold finish_watch.
  destruct completed as [[o r]|].
  2:{ pose proof (fail_active_ok now retry_delay _ Hq) as Hok.
      pose proof (fail_active_applied now retry_delay (queue m)) as Ha.
      destruct (fail_active _ _ _) as [o q]. intros [= _ <- <-]. split; [done|]. left. by split. }
  cbv zeta. set (succeeded := operation_succeeded _ o r m s). clearbody succeeded.
  pose proof (queue_complete_ok o succeeded now retry_delay _ Hq) as Hok.
  pose proof (complete_applied o succeeded now retry_delay (queue m)) as Ha.
  assert (Hreg : ∀ id d, o = Register id d →
    (queue_complete o succeeded now retry_delay (queue m)).1 = true → registering id (queue m) = true)
    by (intros id d ->; apply completed_registering).
  destruct (queue_complete _ _ _ _ _) as [done_ q]. cbn [fst snd] in Hok, Ha, Hreg.
  set (m1 := m <| queue := q |>). assert (Hq1 : quiet m m1) by by split.
  destruct done_; cbn [negb]; [|intros [= _ <- <-]; split; [done|by left]].
  assert (Hm1 : coherent m1) by by eapply quiet_coherent.
  destruct o as [id d|id retired|];
    [|by intros [= _ <- <-]; split; [|left]..].
  pose proof (Hreg id d eq_refl eq_refl) as Hid.
  match goal with |- match _ with Some id => (let '(retired, s) := if watching_enabled ?x then _ else _
    in _) | None => _ end = _ → _ => set (m2 := x) end.
  assert (H2 : forced m2 = forced m ∧ (quiet m m2 ∨ replanned id m m2)).
  { unfold m2. destruct r as [[]|]; try by (split; [|left]).
    destruct (_ && _); [|by split; [|left]].
    destruct (observe_root_identity _ _ _ _ _ _ _) as [di m3] eqn:Eo.
    destruct (observe_at _ _ _ _ m1 _ _ l Hm1 Hb Eo) as (_ & [([] & Hf & _)|[[] _]]); cbn [snd].
    - split; [done|left]. split; cbn in *; try congruence; auto.
    - split; [done|right]. destruct replanned_differs0. split; try done.
      split; try done. intros i Hi Hai. apply differs_applied0; [done|]. by apply Ha. }
  clearbody m2. clear Hreg Ha. destruct (then_some _ _) as [id'|] eqn:Et.
  2:{ intros [= _ <- <-]. split; [apply H2|]. right. exists id. split_and!; [done|apply H2|by left]. }
  assert (id' = id) as ->.
  { unfold then_some in Et. by destruct (retirement_pending _ _); simplify_eq. }
  destruct (if watching_enabled m2 then retire id s else (None, s)) as [retired s2] eqn:Er.
  intros [= _ <- <-]. destruct H2 as [Hf2 H2]. split; [done|]. right. exists id. split; [done|].
  split; [|destruct (watching_enabled m2); [right; by rewrite Er|left; by simplify_eq]].
  destruct H2 as [[]|[[] ]]; [left|right].
  - split; try done. intros _. by apply resolve_retirement_ok; auto.
  - split; try done. by apply resolve_retirement_ok.
Qed.


(** ** Every step fits together *)

Lemma replanned_coherent id m m' : coherent m → replanned id m m' → coherent m'.
Proof.
  intros Hm [Hd _ Hq Hmon (t & Ht & Hp & _)]. eapply coherent_change; [done..| |].
  - rewrite Hmon. apply Hm.
  - intros t' Ht'. by simplify_eq.
Qed.

Lemma distrusted ids now p i t' :
  Planner.targets (foldl (λ p id, (set_watcher_trusted p id false now).1) p ids) !! i = Some t' →
  ∃ t, Planner.targets p !! i = Some t ∧ spec_fingerprint (spec t') = spec_fingerprint (spec t) ∧
    enabled (spec t') = enabled (spec t) ∧
    (i ∈ ids ∨ watcher_trusted (spec t) = false → watcher_trusted (spec t') = false).
Proof.
  revert p. induction ids as [|id ids IH]; intros p; cbn [foldl].
  { intros Ht'. exists t'. split_and!; try done. intros [?%elem_of_nil|?]; done. }
  intros (t1 & Ht1 & Hf1 & He1 & Hu1)%IH. unfold set_watcher_trusted in Ht1.
  destruct (Planner.targets p !! id) as [t|] eqn:Ht.
  2:{ exists t1. split_and!; try done. intros [[->|Hi]%elem_of_cons|Hu]; [|by auto..].
      by simplify_eq/=. }
  destruct (Bool.eqb _ _) eqn:E; cbn in Ht1.
  - exists t1. split_and!; try done. intros [[->|Hi]%elem_of_cons|Hu]; [|by auto..].
    simplify_eq. apply Hu1. right. by apply eqb_prop in E.
  - apply lookup_insert_Some in Ht1 as [[<- <-]|[Hne Ht1]].
    + exists t. cbn in *. split_and!; try done. intros _. apply Hu1. by right.
    + exists t1. split_and!; try done. intros [[->|Hi]%elem_of_cons|Hu]; [done|by auto..].
Qed.

Lemma disable_coherent now m :
  coherent m → coherent (disable_watching now m) ∧
  ∀ id t, Planner.targets (planner (disable_watching now m)) !! id = Some t →
    watcher_trusted (spec t) = false.
Proof.
  intros Hm. assert (Hall : ∀ id t, Planner.targets (planner (disable_watching now m)) !! id = Some t →
    ∃ t0, Planner.targets (planner m) !! id = Some t0 ∧
      spec_fingerprint (spec t) = spec_fingerprint (spec t0) ∧ enabled (spec t) = enabled (spec t0) ∧
      watcher_trusted (spec t) = false).
  { intros id t (t0 & Ht0 & Hf & He & Hu)%distrusted. exists t0. split_and!; try done. apply Hu. left.
    apply (coherent_planned _ Hm) in Ht0 as (target & Htg & _).
    apply list_elem_of_fmap. exists (id, target). split; [done|]. by apply elem_of_map_to_list. }
  split; [|intros id t (t0 & _ & _ & _ & ?)%Hall; done]. split.
  - apply queue_default_ok.
  - apply Hm.
  - intros id t (t0 & Ht0 & -> & -> & _)%Hall. by apply (coherent_planned _ Hm).
  - intros id t (t0 & _ & _ & _ & ?)%Hall. congruence.
Qed.

Lemma stalled_quiet now deadline m q :
  take_stalled now deadline (queue m) = (None, q) → quiet m (m <| queue := q |>).
Proof.
  intros E. assert (Hq : queue_ok (queue m) → queue_ok q).
  { intros Hq%(take_stalled_ok now deadline). by rewrite E in Hq. }
  split; try done. intros i. cbn. revert E. unfold take_stalled.
  destruct (active (queue m)) as [a|]; [|by intros [= <-]]. destruct (_ || _); by intros [= <-].
Qed.

Lemma stalled_at now deadline m :
  coherent m →
  let m' := (check_stalled now deadline m).2 in
  coherent m' ∧
  (quiet m m' ∧ forced m' = forced m ∨
   ∀ id t, Planner.targets (planner m') !! id = Some t → watcher_trusted (spec t) = false).
Proof.
  intros Hm. unfold check_stalled. destruct (take_stalled _ _ _) as [[o|] q] eqn:Et; cbn.
  2:{ apply stalled_quiet in Et. split; [by eapply quiet_coherent|by left]. }
  set (m1 := m <| queue := q |>). destruct (disable_coherent now m1) as [? ?]; [|split; [done|by right]].
  destruct Hm as [Hq H1 H2 H3]. pose proof (take_stalled_ok now deadline _ Hq) as Hok.
  rewrite Et in Hok. split; try done. cbn. intros id t Ht Htr. destruct (H3 id t Ht Htr) as [? Ha].
  split; [done|]. revert Et. unfold take_stalled. destruct (active (queue m)) as [a|]; [|done].
  destruct (_ || _); [done|]. by intros [= _ <-].
Qed.

Lemma dispatch_watch_quiet now m : quiet m (dispatch_watch now m).2 ∧
  forced (dispatch_watch now m).2 = forced m.
Proof.
  unfold dispatch_watch. destruct (negb _); [by split|].
  pose proof (queue_next_ok now (queue m)) as Hq.
  assert (Ha : applied (queue_next now (queue m)).2 = applied (queue m)).
  { unfold queue_next. by repeat case_match. }
  destruct (queue_next _ _) as [o q]. cbn in *. split; [|done]. split; try done. cbn. by rewrite Ha.
Qed.

Lemma sync_end_quiet current m : quiet m (sync_end current m) ∧ forced (sync_end current m) = forced m.
Proof.
  unfold sync_end. cbn. destruct (watching_enabled m); [|by split].
  split; [|done]. split; try done. cbn. intros [H1 H2 H3]. by split.
Qed.

Lemma complete_at p c now completion :
  (∀ i, i ≠ cand_target_id c →
     Planner.targets (complete p c now completion).1 !! i = Planner.targets p !! i) ∧
  ∀ t', Planner.targets (complete p c now completion).1 !! cand_target_id c = Some t' →
    ∃ t, Planner.targets p !! cand_target_id c = Some t ∧ spec t' = spec t ∧ revision t' = revision t ∧
      ((complete p c now completion).2 ≠ Applied ∧ (t' = t ∨ t' = t <| in_flight := None |>) ∨
       (complete p c now completion).2 = Applied ∧ holds (cand_target_id c) t c ∧
         spec_fingerprint (spec t) = cand_fingerprint c ∧
         t' = apply_completion (Planner.config p) t c now completion).
Proof.
  destruct (complete_cases p c now completion)
    as [[-> Hn]|[->|(t & fl & Ht & Hfl & Htok & Hfr & [->|(Hr & Hf & _ & ->)])]]; cbn.
  - split; [done|]. intros t' Ht'. congruence.
  - split; [done|]. intros t' Ht'. exists t'. split_and!; try done. left. auto.
  - split; [intros i Hi; by rewrite lookup_insert_ne|]. rewrite lookup_insert_eq. intros t' [= <-].
    exists t. split_and!; try done. left. auto.
  - split; [intros i Hi; by rewrite lookup_insert_ne|]. rewrite lookup_insert_eq. intros t' [= <-].
    destruct (completion_owes (Planner.config p) t c now completion) as (Hs & Hrev & _).
    exists t. split_and!; try done. right. split_and!; try done. split; [done|].
    exists fl. split_and!; try done. congruence.
Qed.

Lemma complete_coherent m c now completion :
  coherent m → coherent (put_planner (complete (planner m) c now completion).1 m).
Proof.
  intros Hm. destruct (complete_at (planner m) c now completion) as [Ho Hid].
  eapply coherent_put; [done|exact Ho|]. intros t' (t & ? & ? & _)%Hid. eauto.
Qed.

Lemma candidate_coherent m now p c :
  coherent m → next_candidate (planner m) now = (p, Some c) → coherent (put_planner p m).
Proof.
  intros Hm Hn. apply next_candidate_Some in Hn
    as (w & t & _ & _ & _ & Ht & -> & _ & _ & _ & _ & Htg).
  apply (coherent_put _ (wi_id w)); [done|..]; rewrite Htg.
  - intros i Hi. by rewrite lookup_insert_ne.
  - rewrite lookup_insert_eq. intros t' [= <-]. exists t. done.
Qed.

Lemma refresh_capture_coherent id now m s : coherent m → coherent (refresh_capture id now m s).
Proof.
  intros Hm. unfold refresh_capture. destruct (capture id s) as [b|]; [|done].
  apply (coherent_put _ id); [done|intros i Hi; by apply mark_other|].
  intros t'. destruct (Planner.targets (planner m) !! id) as [t|] eqn:Ht.
  2:{ rewrite mark_none by done. congruence. }
  destruct (coherent_planned _ Hm _ _ Ht) as (_ & _ & _ & He).
  destruct (mark_at (full_reconcile b) (planner m) id now (batch_generation b) t Ht He)
    as (t1 & Ht1 & Hs & _). rewrite Ht1. intros [= <-]. eauto.
Qed.

Lemma refresh_trust_coherent id now m s l trusted m' :
  coherent m → bounds_ok (mkWorld (planner m) l) → watching_enabled m = true →
  refresh_trust id now m s = (trusted, m') → coherent m'.
Proof.
  intros Hm Hb Hw. unfold refresh_trust. destruct (monitored m !! id) as [target|] eqn:Htg.
  2:{ by intros [= <- <-]. }
  intros [= <- <-]. set (trusted := watcher_is_trusted id (queue m) s).
  eapply (coherent_change id); [done|apply differs_put; intros i Hi; by apply trust_other|apply Hm|apply Hm|].
  cbn [put_planner planner set_with]. intros t' Ht'.
  destruct (Planner.targets (planner m) !! id) as [t|] eqn:Ht.
  2:{ unfold set_watcher_trusted in Ht'. rewrite Ht in Ht'. cbn in Ht'. congruence. }
  destruct (coherent_planned _ Hm _ _ Ht) as (target' & Htg' & Hf & He).
  destruct (trust_at (planner m) l id trusted now t Hb Ht He) as (t1 & Ht1 & Hs & _).
  rewrite Ht1 in Ht'. injection Ht' as <-. split; rewrite Hs; cbn.
  - exists target'. done.
  - intros Htr. split; [done|]. unfold trusted in Htr.
    apply andb_prop in Htr as [Hc _]. by apply confirmed_applied; [apply Hm|].
Qed.

Section scan.
Context (scan : RunningScan) (r : result ScanTaskError HybridScanExecution) (now : Z).
Context (m : Monitor) (s : WatchShared) (l : list ScanCandidate).
Context (Hm : coherent m) (Hinv : planner_inv (mkWorld (planner m) l)).
Context (Hin : scan_candidate scan ∈ l) (Hr : identified r).
Context (Hid : instance_id (scan_target scan) = cand_target_id (scan_candidate scan)).
Context (Hfp : fp_of (scan_target scan) = cand_fingerprint (scan_candidate scan)).

Let completed := complete (planner m) (scan_candidate scan) now (completion_of r).
Let m1 := put_planner completed.1 m.

Lemma apply_scan_at m' s' :
  apply_soft_disk_scan sha256 hex_encode scan r now m s = (m', s') →
  forced m' = forced m ∧
  (replanned (cand_target_id (scan_candidate scan)) m1 m' ∧ s' = s ∨
   quiet m1 m' ∧ (completed.2 ≠ Applied → s' = s) ∧
   (completed.2 = Applied → completion_of r = Failed ∧ s' = s ∨
      s' = match scan_batch scan with
           | Some b => if watching_enabled m then (acknowledge b s).2 else s
           | None => s
           end)).
Proof.
  unfold apply_soft_disk_scan. fold completed.
  assert (Hm1 : coherent m1) by by apply complete_coherent.
  assert (Hb1 : bounds_ok (mkWorld (planner m1) l)) by (by apply complete_inv).
  assert (Hmon : completed.2 = Applied → ∃ target,
    monitored m !! cand_target_id (scan_candidate scan) = Some target ∧
    cand_fingerprint (scan_candidate scan) = fp_of target).
  { unfold completed. destruct (complete_cases (planner m) (scan_candidate scan) now (completion_of r))
      as [[-> _]|[->|(t & fl & Ht & _ & _ & _ & [->|(_ & Hf & _ & ->)])]]; try done. intros _.
    apply (coherent_planned _ Hm) in Ht as (target & Htg & Hf' & _). exists target. split; [done|congruence]. }
  subst m1. destruct completed as [p disposition]. cbn [fst snd] in *.
  destruct disposition; [|by intros [= <- <-]; split; [|right; split]..].
  destruct (Hmon eq_refl) as (target & Htg & Hf). clear Hmon.
  destruct (completion_of r) as [kind|] eqn:Ec;
    [|by intros [= <- <-]; split; [|right; split_and!; [..|left]]].
  destruct r as [e|]; [|done]. unfold completion_of in Ec. cbn in Ec.
  destruct (measurement_succeeded e) eqn:Es; [|done].
  destruct (Hr e eq_refl Es) as [i Hi]. rewrite Hi.
  destruct (observe_root_identity _ _ _ _ _ _ _) as [o m2] eqn:Eo. rewrite Hid in Eo.
  destruct (observe_at _ _ _ _ _ _ _ l Hm1 Hb1 Eo) as [Hstale [(Hq & Hfo & Hcase)|[Hrep Hne]]].
  - assert (Ho : o = SameIdentity).
    { destruct Hcase as [|Hst]; [done|]. destruct (Hstale Hst target); [done|]. congruence. }
    subst o. pose proof (quiet_watching _ _ Hq) as Hw. rewrite Hw. cbn.
    destruct (watching_enabled m), (scan_batch scan); intros [= <- <-];
      (split; [done|right]; split_and!; [done|done|by right]).
  - intros H. assert (m' = m2 ∧ s' = s) as [-> ->] by by repeat case_match; simplify_eq.
    split; [apply Hrep|by left].
Qed.

Lemma apply_scan_coherent m' s' :
  apply_soft_disk_scan sha256 hex_encode scan r now m s = (m', s') → coherent m'.
Proof.
  assert (Hm1 : coherent m1) by by apply complete_coherent.
  intros [_ [[Hrep _]|[Hq _]]]%apply_scan_at; [by eapply replanned_coherent|by eapply quiet_coherent].
Qed.
End scan.

(** The target that a scan was given is the one that it was planned for. *)
Definition scan_fits (c : ScanCandidate) (t : SoftDiskTarget) : Prop :=
  instance_id t = cand_target_id c ∧ fp_of t = cand_fingerprint c.

Lemma pick_at now m s c t trusted m' :
  coherent m → dispatch_pick now m s = (Some (c, Some (t, trusted)), m') →
  ∃ p, next_candidate (planner m) now = (p, Some c) ∧ m' = put_planner p m ∧ scan_fits c t ∧
    trusted = watching_enabled m && watcher_is_trusted (cand_target_id c) (queue m) s.
Proof.
  intros Hm (p & o & Hn & H)%dispatch_pick_cases. exists p. destruct o as [c'|]; [|by destruct H].
  destruct (monitored m !! cand_target_id c') as [t'|] eqn:Ht; destruct H as [[= -> -> ->] ->].
  split_and!; try done. split; [by apply (coherent_monitored _ Hm)|].
  apply next_candidate_lease in Hn as (t0 & _ & Ht0 & _ & _ & _ & _ & _ & _ & -> & _).
  apply (coherent_planned _ Hm) in Ht0 as (target & Htg & -> & _). congruence.
Qed.

(** A target of the planner is monitored: none of its scans is refused. *)
Lemma pick_not_gone now m s c m' :
  coherent m → dispatch_pick now m s ≠ (Some (c, None), m').
Proof.
  intros Hm (p & o & Hn & H)%dispatch_pick_cases. destruct o as [c'|]; [|by destruct H].
  apply next_candidate_lease in Hn as (t0 & _ & Ht0 & _).
  apply (coherent_planned _ Hm) in Ht0 as (target & Htg & _). rewrite Htg in H. by destruct H.
Qed.

(** The static part of the invariant. *)
Record in_order (w : MonitorWorld) : Prop := {
  order_coherent : coherent (mon w);
  order_known : known w;
  order_scan scan : scan ∈ scans w → scan_fits (scan_candidate scan) (scan_target scan) ∧
    ∀ b, scan_batch scan = Some b → batch_target b = cand_target_id (scan_candidate scan) ∧
      ∃ seen, (b, seen) ∈ captured (watch w);
  order_picked c t : phase w = Dispatching c t → scan_fits c t;
  order_watching : match phase w with
                   | Refreshing _ | Inspecting _ _ => watching_enabled (mon w) = true
                   | _ => True
                   end;
}.

Lemma elem_of_middle {A} (x y : A) l1 l2 : x ∈ l1 ++ l2 → x ∈ l1 ++ y :: l2.
Proof. rewrite !elem_of_app. intros [?|?]; [by left|right; by right]. Qed.

Lemma watch_steps_captured v v' x :
  rtc watch_step v v' → x ∈ captured v → x ∈ captured v'.
Proof.
  induction 1 as [|v1 v2 v3 Hstep _ IH]; [done|]. intros Hx. apply IH.
  destruct Hstep; try done. by right.
Qed.

Lemma step_scans w w' :
  monitor_step w w' → in_order w →
  (∀ scan, scan ∈ scans w' → scan_fits (scan_candidate scan) (scan_target scan) ∧
     ∀ b, scan_batch scan = Some b → batch_target b = cand_target_id (scan_candidate scan) ∧
       ∃ seen, (b, seen) ∈ captured (watch w')) ∧
  ∀ c t, phase w' = Dispatching c t → scan_fits c t.
Proof.
  intros Hstep [Hm _ Hs Hp _]. pose proof (monitor_step_watch _ _ Hstep) as Hv.
  assert (Hold : ∀ scan, scan ∈ scans w → scan_fits (scan_candidate scan) (scan_target scan) ∧
    ∀ b, scan_batch scan = Some b → batch_target b = cand_target_id (scan_candidate scan) ∧
      ∃ seen, (b, seen) ∈ captured (watch w')).
  { intros scan [Hf Hb]%Hs. split; [done|]. intros b (Ht & seen & Hin)%Hb. split; [done|].
    exists seen. by eapply watch_steps_captured. }
  clear Hs Hv. destruct Hstep; cbn [scans phase mon] in *; (split; [|try done]); auto.
  all: try by destruct trusted.
  all: try by intros sc Hin; apply Hold, elem_of_middle.
  - apply pick_at in H as (p & _ & _ & Hf & _); [|done]. destruct trusted; cbn [scans]; [auto|].
    intros sc [->|Hin]%elem_of_cons; [done|auto].
  - apply pick_at in H as (p & _ & _ & Hf & _); [|done]. destruct trusted; cbn [phase]; [|done].
    by intros c' t' [= <- <-].
  - intros sc [->|Hin]%elem_of_cons; [|auto]. split; [by apply Hp|]. cbn. intros b Hb. rewrite Hb.
    apply capture_Some in Hb as (wt & _ & -> & _). split; [done|]. eexists. by left.
Qed.

Lemma step_coherent w w' :
  monitor_step w w' → in_order w → planner_inv (mkWorld (planner (mon w)) (issued_scans w)) →
  coherent (mon w').
Proof.
  intros Hstep [Hm [K1 K2] Hs Hp Hw] Hinv. pose proof (proj1 Hinv) as Hb.
  destruct Hstep; cbn [mon phase scans issued_scans] in *; try done.
  - destruct (sync_target_at _ _ _ _ _ Hm Hb _ _ H) as (Hd & _ & Hq & Hmon & _ & t' & Ht' & Hpl & _).
    eapply coherent_change; [done..|intros ?; congruence|]. intros t'' ?. by simplify_eq.
  - apply sync_removed_at in H as (Hd & _ & Hq & Hmon & Hpl & _); [|apply Hm].
    eapply coherent_change; [done..|intros ?; congruence|]. intros t'' ?. by simplify_eq.
  - eapply quiet_coherent; [apply sync_end_quiet|done].
  - apply (quiet_coherent m); [by split|done].
  - unfold refresh_drain in H0. destruct (take_targets _ _) as [ch f]. cbn in H0.
    injection H0 as _ <- _ _. apply (quiet_coherent m); [by split|done].
  - by eapply refresh_trust_coherent.
  - by apply refresh_capture_coherent.
  - eapply quiet_coherent; [apply dispatch_watch_quiet|done].
  - apply (quiet_coherent m'); [by split|].
    destruct (finish_watch_at _ _ _ _ _ _ _ _ _ Hm Hb H) as (_ & [[Hq _]|(id & _ & [Hq|Hrep] & _)]);
      [by eapply quiet_coherent..|by eapply replanned_coherent].
  - by apply stalled_at.
  - apply dispatch_pick_cases in H as (p & o & Hn & H). destruct o as [c|];
      [by destruct (monitored m !! _); destruct H|]. destruct H as [_ ->].
    apply next_candidate_stays in Hn as ->. apply (quiet_coherent m); [by split|done].
  - by apply pick_not_gone in H.
  - apply pick_at in H as (p & Hn & -> & _); [|done]. destruct trusted; by eapply candidate_coherent.
  - assert (Hin : scan ∈ l1 ++ scan :: l2) by set_solver. destruct (Hs _ Hin) as [[Hi Hf] _].
    by eapply (apply_scan_coherent scan r now m (ws v) cs); eauto.
  - assert (Hin : scan ∈ l1 ++ scan :: l2) by set_solver. destruct (Hs _ Hin) as [[Hi Hf] _].
    by eapply (apply_scan_coherent scan r now m (ws v) cs); eauto.
Qed.

Lemma step_in_order w w' :
  monitor_step w w' → in_order w → planner_inv (mkWorld (planner (mon w)) (issued_scans w)) →
  in_order w'.
Proof.
  intros Hstep Hw Hinv. destruct (step_scans _ _ Hstep Hw) as [Hs Hp].
  split; [by eapply step_coherent|eapply monitor_step_known; [done|apply Hw]|done|done|].
  pose proof (order_watching _ Hw) as Hph.
  destruct Hstep; cbn [phase mon] in *; try done.
  - unfold refresh_drain in H0. destruct (take_targets _ _) as [ch f]. cbn in H0. by injection H0 as _ <- _ _.
  - assert (watching_enabled m' = watching_enabled m) as ->; [|by destruct trusted].
    unfold refresh_trust in H. by destruct (monitored m !! id); injection H as _ <-.
  - unfold refresh_capture. by case_match.
  - by destruct trusted.
Qed.

(** ** Every pending change reaches the planner *)

Definition refreshing (id : string) (ph : LoopPhase) : Prop :=
  match ph with Refreshing ids | Inspecting _ ids => id ∈ ids | _ => False end.

(** The loop is going to look at the target. *)
Definition told (w : MonitorWorld) (id : string) : Prop :=
  queued_in ∅ id (ws (watch w)) ∨
  refresh_all (forced (mon w)) = true ∨ id ∈ refresh_targets (forced (mon w)) ∨
  refreshing id (phase w).

Definition inspecting (w : MonitorWorld) (id : string) : Prop :=
  match phase w with Inspecting i _ => i = id | _ => False end.

Definition picked (w : MonitorWorld) : option ScanCandidate :=
  match phase w with Dispatching c _ => Some c | _ => None end.

Definition reach_in (w : MonitorWorld) : string → TargetState → WatchedTarget → Prop :=
  λ id, reach (told w id) (inspecting w id) (global_generation (ws (watch w))) (scans w) (picked w) id.

(** The planner trusts the watcher with the target. *)
Definition entrusted (w : MonitorWorld) (id : string) (t : TargetState) : Prop :=
  Planner.targets (planner (mon w)) !! id = Some t ∧ watcher_trusted (spec t) = true ∧
  revision t < u64_max.

Definition reaching (w : MonitorWorld) : Prop :=
  ∀ id t wt, entrusted w id t → targets (watch_state (ws (watch w))) !! id = Some wt →
    reach_in w id t wt.

(** What the watcher does to a target without telling the planner. *)
Definition watched_on (w w' : MonitorWorld) (id : string) : Prop :=
  targets (watch_state (ws (watch w'))) !! id = targets (watch_state (ws (watch w))) !! id ∧
    global_generation (ws (watch w')) = global_generation (ws (watch w)) ∨
  advances id (ws (watch w), ∅) (ws (watch w'), ∅).

Lemma reach_on w w' id t :
  reaching w → entrusted w id t → watched_on w w' id → (told w id → told w' id) →
  (inspecting w id ↔ inspecting w' id) →
  (∀ scan, scan ∈ scans w' → cand_target_id (scan_candidate scan) = id → scan ∈ scans w) →
  (∀ c, picked w' = Some c → cand_target_id c = id → picked w = Some c) →
  ∀ wt, targets (watch_state (ws (watch w'))) !! id = Some wt → reach_in w' id t wt.
Proof.
  intros Hr Ht Hw Htold Hi Hs Hp wt Hwt. unfold reach_in.
  destruct Hw as [[Hsame Hg]|Ha].
  - rewrite Hsame in Hwt. eapply reach_weaken; [done..|]. rewrite Hg. by apply Hr.
  - eapply (reach_weaken (told w' id)); [done..|].
    eapply reach_advances; [|done|done|by left|done]. intros wt0 Hwt0. by apply Hr.
Qed.

(** What happens at other targets than [id]. *)
Record elsewhere (id : string) (w w' : MonitorWorld) : Prop := {
  elsewhere_differs : differs_at id (mon w) (mon w');
  elsewhere_watched i t : i ≠ id → entrusted w i t → watched_on w w' i;
  elsewhere_told i t : i ≠ id → entrusted w i t → told w i → told w' i;
  elsewhere_inspecting i : i ≠ id → inspecting w i ↔ inspecting w' i;
  elsewhere_scans scan : scan ∈ scans w' → cand_target_id (scan_candidate scan) ≠ id → scan ∈ scans w;
  elsewhere_picked c : picked w' = Some c → cand_target_id c ≠ id → picked w = Some c;
}.

Lemma reaching_at id w w' :
  reaching w → elsewhere id w w' →
  (∀ t wt, entrusted w' id t → targets (watch_state (ws (watch w'))) !! id = Some wt →
     reach_in w' id t wt) → reaching w'.
Proof.
  intros Hr [D W T I S P] Hid i t wt Ht Hwt. destruct (decide (i = id)) as [->|Hi]; [by apply Hid|].
  assert (Ht0 : entrusted w i t).
  { destruct Ht as [Ht ?]. split; [|done]. by rewrite <-(differs_planner _ _ _ D). }
  apply (reach_on w w' i t); eauto.
  - intros scan Hin Hc. apply S; [done|congruence].
  - intros c Hc Hci. apply P; [done|congruence].
Qed.

(** Nothing happens to the planner. *)
Lemma reaching_quiet w w' :
  reaching w → planner (mon w') = planner (mon w) →
  (∀ i t, entrusted w i t → watched_on w w' i) →
  (∀ i t, entrusted w i t → told w i → told w' i) → (∀ i, inspecting w i ↔ inspecting w' i) →
  scans w' ⊆ scans w → (∀ c, picked w' = Some c → picked w = Some c) → reaching w'.
Proof.
  intros Hr Hp W T I S P i t wt Ht Hwt.
  assert (Ht0 : entrusted w i t) by by unfold entrusted in *; rewrite Hp in Ht.
  apply (reach_on w w' i t); eauto.
Qed.

Lemma untrusted_reaching w :
  (∀ id t, Planner.targets (planner (mon w)) !! id = Some t → watcher_trusted (spec t) = false) →
  reaching w.
Proof. intros H id t wt (Ht & Htr & _). apply H in Ht. congruence. Qed.

Lemma watched_same w w' id : ws (watch w') = ws (watch w) → watched_on w w' id.
Proof. intros H. left. by rewrite H. Qed.

Lemma status_watching_health id s wt :
  targets (watch_state s) !! id = Some wt → status_watching id s = true ↔ health wt = Watching.
Proof.
  intros Ht. unfold status_watching, status. rewrite Ht. cbn. apply bool_decide_eq_true.
Qed.

Section steps.
Context (m : Monitor) (v : WatchWorld) (l : list RunningScan) (cs : list ScanCandidate).
Context (Hm : coherent m) (Hinv : planner_inv (mkWorld (planner m) cs)).
Context (Hv : world_ok v) (Hg : globals_ok v).

Lemma outside_reaching v' ph :
  outside m v v' → marks v' ≤ u64_max →
  reaching (mkMonitorWorld m v l ph cs) → reaching (mkMonitorWorld m v' l ph cs).
Proof.
  intros Hout Hmax Hr. pose proof (world_marks _ Hv) as Hm0.
  assert (Ha : ∀ i t, entrusted (mkMonitorWorld m v l ph cs) i t → advances i (ws v, ∅) (ws v', ∅)).
  { intros i t (Ht & Htr & _). destruct (coherent_trusted _ Hm _ _ Ht Htr) as [Hw Happ].
    assert (Hne : ∀ id, worker_may id m → id ≠ i).
    { intros id [?|Hreg] ->; [congruence|]. apply (ok_registering _ (coherent_queue _ Hm)) in Hreg.
      rewrite Hreg in Happ. by destruct Happ. }
    pose proof (world_shared _ Hv) as Hs. pose proof (world_generations _ Hv) as Hgen.
    pose proof (world_registrations _ Hv) as Hreg. destruct Hout; cbn [ws marks] in *.
    - by apply (handle_callback_informs n).
    - eapply (replace_informs n); try done; [by apply Hne|lia].
    - apply (finish_registration_informs n); auto.
    - apply (retire_informs n); auto.
    - by apply (finish_retry_informs n).
    - apply signal_informs.
    - by apply advances_queue. }
  apply (reaching_quiet (mkMonitorWorld m v l ph cs)); try done.
  - intros i t Ht. right. by eapply Ha.
  - intros i t Ht [Hq|Ho]; [left|by right]. cbn in *. destruct (Ha i t Ht) as [Hq' _]. auto.
Qed.

(** A target may have been retired. *)
Lemma leaves_informs s' v' id i :
  leaves v s' v' → marks v' ≤ u64_max → (s' = ws v ∨ s' = (retire id (ws v)).2) → i ≠ id →
  advances i (ws v, ∅) (ws v', ∅).
Proof.
  intros Hl Hmax Hs Hi. destruct Hl as [|id']; cbn [ws marks] in *; [apply advances_refl|].
  destruct Hs as [->| ->]; [apply advances_refl|].
  apply (retire_informs (marks v)); [done|apply Hv|apply Hv|done].
Qed.

Lemma elsewhere_retired id m' s' v' :
  differs_at id m m' → (∀ i, refresh_all (forced m) = true ∨ i ∈ refresh_targets (forced m) →
    refresh_all (forced m') = true ∨ i ∈ refresh_targets (forced m')) →
  leaves v s' v' → marks v' ≤ u64_max → (s' = ws v ∨ s' = (retire id (ws v)).2) →
  elsewhere id (mkMonitorWorld m v l Idle cs) (mkMonitorWorld m' v' l Idle cs).
Proof.
  intros Hd Hf Hl Hmax Hs.
  assert (Ha : ∀ i, i ≠ id → advances i (ws v, ∅) (ws v', ∅)) by (intros i; by eapply leaves_informs).
  split; try done.
  - intros i t Hi _. right. by apply Ha.
  - intros i t Hi _ [Hq|[Ho|[Ho|[]]]]; unfold told; cbn.
    + left. by apply Ha.
    + destruct (Hf i); auto.
    + destruct (Hf i); auto.
Qed.

Lemma sync_target_reaching now target m' s' v' :
  sync_target sha256 hex_encode now target m (ws v) = (m', s') → leaves v s' v' → marks v' ≤ u64_max →
  reaching (mkMonitorWorld m v l Idle cs) → reaching (mkMonitorWorld m' v' l Idle cs).
Proof.
  intros H Hl Hmax Hr.
  destruct (sync_target_at _ _ _ _ _ Hm (proj1 Hinv) _ _ H)
    as (Hd & Hf & _ & _ & Hs & t & Ht & _ & Hcase & Htr).
  assert (He : elsewhere (instance_id target) (mkMonitorWorld m v l Idle cs) (mkMonitorWorld m' v' l Idle cs))
    by (eapply elsewhere_retired; [done|by rewrite Hf|done..]).
  eapply reaching_at; [done..|]. intros t' wt (Ht' & Htrust & Hrev) Hwt. cbn in *.
  rewrite Ht in Ht'. injection Ht' as <-. destruct (Htr Htrust) as [-> Hst].
  destruct (leaves_watch _ _ _ Hl) as [_ Hws]. rewrite Hws in Hwt.
  destruct Hcase as [Hold|Hfresh].
  - apply (reach_on (mkMonitorWorld m v l Idle cs)); try done; [by apply watched_same|
      |by cbn; rewrite Hws].
    unfold told. cbn. by rewrite Hws, Hf.
  - apply fresh_reach; [done..| |by apply (status_watching_health _ _ _ Hwt)].
    by destruct (ok_targets _ (world_shared _ Hv) _ _ Hwt) as [[] _].
Qed.

Lemma finish_watch_reaching completed now retry_delay refresh m' s' v' :
  finish_watch sha256 hex_encode completed now retry_delay m (ws v) = (refresh, m', s') →
  leaves v s' v' → marks v' ≤ u64_max →
  reaching (mkMonitorWorld m v l Idle cs) →
  reaching (mkMonitorWorld (m' <| forced ::= include refresh |>) v' l Idle cs).
Proof.
  intros H Hl Hmax Hr. set (m2 := m' <| forced ::= include refresh |>).
  destruct (finish_watch_at _ _ _ _ _ _ _ _ _ Hm (proj1 Hinv) H) as (Hf & Hcase).
  assert (Hf2 : ∀ i, refresh_all (forced m) = true ∨ i ∈ refresh_targets (forced m) →
    refresh_all (forced m2) = true ∨ i ∈ refresh_targets (forced m2)).
  { intros i. unfold m2. cbn. rewrite Hf. intros Hi. destruct refresh; cbn; [done| |by left].
    destruct (refresh_all (forced m)) eqn:E; [left; done|]. cbn. rewrite E. set_solver. }
  assert (Hq2 : ∀ id, quiet m m' ∨ replanned id m m' → differs_at id m m2).
  { intros id [Hq|[Hd _ _ _ _]]; [|by destruct Hd; split].
    pose proof (quiet_differs id _ _ Hq) as Hd. by destruct Hd; split. }
  destruct (leaves_watch _ _ _ Hl) as [_ Hws].
  destruct Hcase as [[Hq ->]|(id & Hreg & Hcase & Hs)].
  - apply (reaching_quiet (mkMonitorWorld m v l Idle cs)); try done; [apply Hq|by intros; apply watched_same|].
    intros i t _ [Hqu|Ho]; unfold told; cbn; rewrite Hws; [by left|]. right.
    cbn in Ho. destruct Ho as [?|[?|[]]]; destruct (Hf2 i); auto.
  - eapply (reaching_at id); [done| |].
    + eapply elsewhere_retired; [by apply Hq2|done..].
    + intros t wt (Ht & Htr & _) _. exfalso. cbn in Ht.
      apply (ok_registering _ (coherent_queue _ Hm)) in Hreg.
      destruct Hcase as [Hq|[_ _ _ _ (t1 & Ht1 & _ & Hu)]]; [|unfold m2 in Ht; cbn in Ht; congruence].
      rewrite (quiet_planner _ _ Hq) in Ht.
      destruct (coherent_trusted _ Hm _ _ Ht Htr) as [_ Happ]. rewrite Hreg in Happ. by destruct Happ.
Qed.

Lemma drain_reaching ids m' s' n :
  refresh_drain m (ws v) = (ids, m', s', n) →
  reaching (mkMonitorWorld m v l Idle cs) →
  reaching (mkMonitorWorld m' (drained s' v) l (Refreshing ids) cs).
Proof.
  unfold refresh_drain, drain_changes, take_targets. cbn. intros [= <- <- <- _] Hr.
  apply (reaching_quiet (mkMonitorWorld m v l Idle cs)); try done.
  - intros i t _. by left.
  - intros i t (Ht & _) Htold.
    assert (Hi : i ∈ dom (monitored m)).
    { apply (coherent_planned _ Hm) in Ht as (target & Htg & _). by apply elem_of_dom. }
    do 3 right. cbn. unfold told, queued_in in Htold. cbn in Htold.
    apply elem_of_elements. destruct (global_change_pending (watch_state (ws v))); [set_solver|].
    rewrite list_to_set_elements_L. destruct (refresh_all (forced m)); set_solver.
Qed.

Lemma trust_reaching id ids now trusted m' :
  watching_enabled m = true → refresh_trust id now m (ws v) = (trusted, m') →
  reaching (mkMonitorWorld m v l (Refreshing (id :: ids)) cs) →
  reaching (mkMonitorWorld m' v l (if trusted then Inspecting id ids else Refreshing ids) cs).
Proof.
  intros Hw H Hr. set (w := mkMonitorWorld m v l (Refreshing (id :: ids)) cs) in *.
  assert (Hm' : forced m' = forced m ∧ differs_at id m m').
  { unfold refresh_trust in H. destruct (monitored m !! id); injection H as _ <-; [|done].
    split; [done|]. apply differs_put. intros i Hi. by apply trust_other. }
  destruct Hm' as [Hf Hd]. apply (reaching_at id w); [done| |].
  - split; cbn; try done; [by intros; left| | |by destruct trusted].
    + intros i t Hi _. unfold told. cbn. rewrite Hf. destruct trusted; cbn; set_solver.
    + intros i Hi. unfold inspecting. cbn. destruct trusted; naive_solver.
  - intros t wt (Ht & Htr & Hrev) Hwt. cbn [mon watch] in *. unfold refresh_trust in H.
    destruct (monitored m !! id) as [target|] eqn:Htg; injection H as <- <-.
    2:{ destruct (coherent_planned _ Hm _ _ Ht) as (? & ? & _). congruence. }
    set (trusted := watcher_is_trusted id (queue m) (ws v)) in *. cbn [put_planner planner set_with] in Ht.
    destruct (Planner.targets (planner m) !! id) as [t0|] eqn:Ht0.
    2:{ unfold set_watcher_trusted in Ht. rewrite Ht0 in Ht. cbn in Ht. congruence. }
    destruct (coherent_planned _ Hm _ _ Ht0) as (_ & _ & _ & He).
    destruct (trust_at (planner m) cs id trusted now t0 (proj1 Hinv) Ht0 He) as (t1 & Ht1 & Hs & Hcase).
    rewrite Ht1 in Ht. injection Ht as <-. rewrite Hs in Htr. cbn in Htr.
    assert (Hh : health wt = Watching).
    { unfold trusted in Htr. apply andb_prop in Htr as [_ Hst]. by apply (status_watching_health _ _ _ Hwt). }
    rewrite Htr. destruct Hcase as [->|Hfresh].
    + assert (Hw0 : reach_in w id t0 wt) by (apply Hr; [split_and!; try done; by rewrite Hs|done]).
      eapply (reach_weaken (told _ id) _ True); [by intros ?|done..|]. by eapply reach_inspect.
    + apply fresh_reach; [done..| |done]. by destruct (ok_targets _ (world_shared _ Hv) _ _ Hwt) as [[] _].
Qed.

Lemma capture_reaching id ids now :
  reaching (mkMonitorWorld m v l (Inspecting id ids) cs) →
  reaching (mkMonitorWorld (refresh_capture id now m (ws v)) v l (Refreshing ids) cs).
Proof.
  intros Hr. set (w := mkMonitorWorld m v l (Inspecting id ids) cs) in *.
  assert (Hm' : forced (refresh_capture id now m (ws v)) = forced m ∧
    differs_at id m (refresh_capture id now m (ws v))).
  { unfold refresh_capture. destruct (capture id (ws v)) as [b|]; [|done]. split; [done|].
    apply differs_put. intros i Hi. by apply mark_other. }
  destruct Hm' as [Hf Hd]. apply (reaching_at id w); [done| |].
  - split; cbn; try done; [by intros; left|]. intros i t Hi _. unfold told. cbn. by rewrite Hf.
  - intros t' wt (Ht' & Htr & Hrev) Hwt. cbn [mon watch] in *.
    assert (Hweak : ∀ t, reach (told w id) False (global_generation (ws v)) l None id t wt →
      reach_in (mkMonitorWorld (refresh_capture id now m (ws v)) v l (Refreshing ids) cs) id t wt).
    { intros t. apply reach_weaken; try done. unfold told. cbn. by rewrite Hf. }
    assert (Hin : ∀ t, reach_in w id t wt → reach (told w id) True (global_generation (ws v)) l None id t wt)
      by (intros t; by apply reach_weaken). 
    apply Hweak. clear Hweak. unfold refresh_capture in Ht'. unfold capture in Ht'. rewrite Hwt in Ht'.
    cbn [mbind option_bind] in Ht'. destruct (pending (global_generation (ws v)) wt) eqn:Hp; cbn [negb] in Ht'.
    2:{ apply reach_nothing; [|done]. apply Hin, Hr; done. }
    cbn [full_reconcile batch_generation put_planner planner set_with] in Ht'.
    destruct (Planner.targets (planner m) !! id) as [t|] eqn:Ht.
    2:{ rewrite mark_none in Ht' by done. congruence. }
    destruct (coherent_planned _ Hm _ _ Ht) as (_ & _ & _ & He).
    match type of Ht' with Planner.targets (if ?full then _ else _).1 !! _ = _ =>
      destruct (mark_at full (planner m) id now (watch_generation wt) t Ht He)
        as (t1 & Ht1 & Hs & Hre & Hmk) end.
    rewrite Ht1 in Ht'. injection Ht' as <-. rewrite Hs in Htr. rewrite Hre in Hrev.
    assert (Hw0 : reach_in w id t wt) by by apply Hr.
    eapply reach_marked; [by apply Hin|done|]. apply Hmk, Hw0.
Qed.

(** The token of a scan that is given out is new. *)
Lemma issued_fresh now p c scan :
  (∀ sc, sc ∈ l → scan_candidate sc ∈ cs) → next_candidate (planner m) now = (p, Some c) →
  next_token p < u64_max → scan ∈ l → cand_token (scan_candidate scan) ≠ cand_token c.
Proof.
  intros Hk Hn Hlt Hin. destruct Hinv as [(Htok & Hcand & _) _]. cbn in *.
  apply next_candidate_Some in Hn as (w & t & _ & _ & _ & _ & -> & Hnt & _). cbn.
  apply Hk, Hcand in Hin. rewrite Hnt in Hlt |- *. rewrite (next_token_fresh (planner m)) by (done || lia). lia.
Qed.

(** A scan is given out, and holds the lease. *)
Lemma issue_reaching now p c target :
  (∀ sc, sc ∈ l → scan_candidate sc ∈ cs) → next_candidate (planner m) now = (p, Some c) →
  next_token p < u64_max → reaching (mkMonitorWorld m v l Idle cs) →
  reaching (mkMonitorWorld (put_planner p m) v l (Dispatching c target) (c :: cs)).
Proof.
  intros Hk Hn Hlt Hr. set (w := mkMonitorWorld m v l Idle cs) in *.
  pose proof (issued_fresh now p c) as Hfresh. pose proof (next_candidate_Some _ _ _ _ Hn) as
    (x & t & _ & _ & _ & Ht & Hc & _ & _ & _ & _ & Htg).
  assert (Hci : cand_target_id c = wi_id x) by by rewrite Hc.
  apply (reaching_at (cand_target_id c) w); [done| |].
  - split; cbn; try done.
    + apply differs_put. intros i Hi. rewrite Htg, lookup_insert_ne; congruence.
    + by intros; left.
    + intros c' [= <-]. done.
  - intros t' wt (Ht' & Htr & Hrev) Hwt. cbn [mon watch put_planner planner set_with] in *.
    rewrite Htg, Hci, lookup_insert_eq in Ht'. injection Ht' as <-. cbn in Htr, Hrev.
    assert (Hw0 : reach_in w (cand_target_id c) t wt) by (apply Hr; [by rewrite Hci|done]).
    eapply (reach_issued _ _ _ t); [exact Hw0|by intros scan; apply Hfresh|by rewrite Hc|done|by rewrite Hc|done].
Qed.

(** What a scan captures when it starts. *)
Lemma start_reaching c target batch v' :
  ws v' = ws v →
  (∀ wt t, targets (watch_state (ws v)) !! cand_target_id c = Some wt →
     entrusted (mkMonitorWorld m v l (Dispatching c target) cs) (cand_target_id c) t →
     captures (global_generation (ws v)) wt batch) →
  reaching (mkMonitorWorld m v l (Dispatching c target) cs) →
  reaching (mkMonitorWorld m v' (mkRunningScan c batch target :: l) Idle cs).
Proof.
  intros Hws Hb Hr. apply (reaching_at (cand_target_id c) (mkMonitorWorld m v l (Dispatching c target) cs));
    [done| |].
  - split; cbn; try done.
    + intros i t _ _. by apply watched_same.
    + intros i t _ _. unfold told. cbn. by rewrite Hws.
    + intros scan [->|?]%elem_of_cons; done.
  - intros t wt Ht Hwt. cbn [watch] in Hwt. rewrite Hws in Hwt. unfold reach_in. cbn. rewrite Hws.
    eapply reach_weaken; [..|eapply reach_started; [by apply Hr|by eapply Hb]]; try done.
    unfold told. cbn. by rewrite Hws.
Qed.
End steps.

Lemma differs_trans id m1 m2 m3 : differs_at id m1 m2 → differs_at id m2 m3 → differs_at id m1 m3.
Proof.
  intros [A1 A2 A3 A4] [B1 B2 B3 B4]. split; [congruence|..]; intros i Hi; rewrite ?B2, ?B3; auto.
Qed.

Lemma acknowledge_other b s i :
  i ≠ batch_target b →
  targets (watch_state (acknowledge b s).2) !! i = targets (watch_state s) !! i.
Proof.
  intros Hi. unfold acknowledge. destruct (targets (watch_state s) !! batch_target b) as [t|]; [|done].
  case_bool_decide; [done|]. cbn. by rewrite lookup_insert_ne.
Qed.

Lemma acknowledge_global b s : global_generation (acknowledge b s).2 = global_generation s ∧
  changed_targets (watch_state (acknowledge b s).2) = changed_targets (watch_state s) ∧
  global_change_pending (watch_state (acknowledge b s).2) = global_change_pending (watch_state s).
Proof. unfold acknowledge. by repeat case_match. Qed.

Section finish.
Context (m : Monitor) (v : WatchWorld) (l1 l2 : list RunningScan) (scan : RunningScan).
Context (cs : list ScanCandidate) (r : result ScanTaskError HybridScanExecution) (now : Z).
Context (m' : Monitor) (v' : WatchWorld).
Context (Hw : in_order (mkMonitorWorld m v (l1 ++ scan :: l2) Idle cs)).
Context (Hinv : planner_inv (mkWorld (planner m) cs)) (Hv : world_ok v) (Hg : globals_ok v).
Context (Hr : identified r).
Context (Happly : apply_soft_disk_scan sha256 hex_encode scan r now m (ws v) = (m', ws v')).

Let c := scan_candidate scan.
Let id := cand_target_id c.
Let w := mkMonitorWorld m v (l1 ++ scan :: l2) Idle cs.
Let w' := mkMonitorWorld m' v' (l1 ++ l2) Idle cs.
Let completed := complete (planner m) c now (completion_of r).

Lemma scan_in : scan ∈ l1 ++ scan :: l2.
Proof. apply elem_of_app. right. by left. Qed.

Lemma finished_at :
  forced m' = forced m ∧
  (replanned id (put_planner completed.1 m) m' ∧ ws v' = ws v ∨
   quiet (put_planner completed.1 m) m' ∧ (completed.2 ≠ Applied → ws v' = ws v) ∧
   (completed.2 = Applied → completion_of r = Failed ∧ ws v' = ws v ∨
      ws v' = match scan_batch scan with
              | Some b => if watching_enabled m then (acknowledge b (ws v)).2 else ws v
              | None => ws v
              end)).
Proof.
  destruct (order_scan _ Hw scan scan_in) as [[Hi Hf] _].
  apply (apply_scan_at scan r now m (ws v) cs); try done; [apply Hw|].
  apply (order_known _ Hw), scan_in.
Qed.

(** The watcher changes at most at the scan's target. *)
Lemma finished_watch :
  ws v' = ws v ∨ ∃ b, scan_batch scan = Some b ∧ batch_target b = id ∧ ws v' = (acknowledge b (ws v)).2.
Proof.
  destruct finished_at as [_ [[_ ?]|(_ & Hn & Ha)]]; [by left|].
  destruct (order_scan _ Hw scan scan_in) as [_ Hb].
  destruct completed.2; [|by left; apply Hn..].
  destruct (Ha eq_refl) as [[_ ?]|He]; [by left|]. destruct (scan_batch scan) as [b|]; [|by left].
  destruct (watching_enabled m); [|by left]. right. exists b. split_and!; try done. by apply Hb.
Qed.

Lemma finished_elsewhere : elsewhere id w w'.
Proof.
  destruct (complete_at (planner m) c now (completion_of r)) as [Ho _].
  pose proof (differs_put m id _ Ho) as Hd1.
  destruct finished_at as [Hf Hcase]. split; cbn; try done.
  - eapply differs_trans; [exact Hd1|]. destruct Hcase as [[Hrep _]|[Hq _]];
      [apply Hrep|by apply quiet_differs].
  - intros i t Hi _. left. cbn. destruct finished_watch as [->|(b & _ & Hb & ->)]; [done|].
    destruct (acknowledge_global b (ws v)) as [-> _]. rewrite acknowledge_other; [done|congruence].
  - intros i t Hi _. unfold told, queued_in. cbn. rewrite Hf.
    destruct finished_watch as [->|(b & _ & _ & ->)]; [done|].
    destruct (acknowledge_global b (ws v)) as (_ & -> & ->). done.
  - intros sc Hin _. by apply elem_of_middle.
Qed.

(** What it was told stays so. *)
Lemma finished_weaken t wt :
  reach (told w id) False (global_generation (ws v)) (l1 ++ l2) None id t wt → reach_in w' id t wt.
Proof.
  assert (Hgl : global_generation (ws v') = global_generation (ws v)).
  { destruct finished_watch as [->|(b & _ & _ & ->)]; [done|]. apply acknowledge_global. }
  unfold reach_in. cbn. rewrite Hgl. apply reach_weaken; try done.
  unfold told, queued_in. cbn. destruct finished_at as [-> _].
  destruct finished_watch as [->|(b & _ & _ & ->)]; [done|].
  destruct (acknowledge_global b (ws v)) as (_ & -> & ->). done.
Qed.

(** The scan counts. *)
Lemma applied_reach t t' wt wt' :
  reach_in w id t wt → holds id t c → watching_enabled m = true →
  t' = apply_completion (Planner.config (planner m)) t c now (completion_of r) →
  targets (watch_state (ws v)) !! id = Some wt → targets (watch_state (ws v')) !! id = Some wt' →
  completion_of r = Failed ∧ ws v' = ws v ∨
    ws v' = match scan_batch scan with
            | Some b => if watching_enabled m then (acknowledge b (ws v)).2 else ws v
            | None => ws v
            end →
  reach_in w' id t' wt'.
Proof.
  intros Hreach Hho Hwe Ht' Hwt Hwt' Hcase. apply finished_weaken.
  destruct (completion_owes (Planner.config (planner m)) t c now (completion_of r))
    as (_ & _ & Hfl & Hd & Hfail & Hcap). rewrite <-Ht' in *.
  pose proof scan_in as Hin. rewrite Hwe in Hcase.
  destruct Hcase as [[Hc Hs]|Hs]; [|destruct (scan_batch scan) as [b|] eqn:Eb];
    rewrite Hs in Hwt'.
  - rewrite Hwt in Hwt'. injection Hwt' as <-. eapply reach_retried; eauto.
  - pose proof (reach_flight _ _ _ _ _ _ _ _ Hreach scan Hin Hho) as Hfo. rewrite Eb in Hfo.
    destruct (order_scan _ Hw scan Hin) as [_ Hb]. destruct (Hb b Eb) as [Hbt _].
    assert (wt' = settle b wt) as ->.
    { unfold acknowledge in Hwt'. rewrite Hbt in Hwt'. fold c id in Hwt'. rewrite Hwt in Hwt'.
      rewrite bool_decide_eq_false_2 in Hwt' by (destruct Hfo as (-> & -> & _); tauto).
      cbn in Hwt'. rewrite lookup_insert_eq in Hwt'. by injection Hwt'. }
    destruct (ok_targets _ (world_shared _ Hv) _ _ Hwt) as [Hok _].
    eapply reach_settled; eauto. by eapply Hg.
  - rewrite Hwt in Hwt'. injection Hwt' as <-. eapply reach_unsettled; eauto.
Qed.

Lemma finished_reaching : reaching w → reaching w'.
Proof.
  intros Hre. apply (reaching_at id w); [done|apply finished_elsewhere|].
  intros t' wt' (Ht' & Htr & Hrev) Hwt'. unfold w' in Ht', Hwt'. cbn [mon watch] in *.
  destruct finished_at as [_ Hcase]. destruct Hcase as [[[_ _ _ _ (t1 & Ht1 & _ & Hu)] _]|(Hq & Hn & Ha)].
  { exfalso. congruence. }
  rewrite (quiet_planner _ _ Hq) in Ht'. cbn [put_planner planner set_with] in Ht'.
  destruct (complete_at (planner m) c now (completion_of r)) as [_ Hc].
  destruct (Hc t' Ht') as (t & Ht & Hs & Hrv & Hcase). rewrite Hs in Htr. rewrite Hrv in Hrev.
  assert (Hen : entrusted w id t) by done.
  destruct Hcase as [[Hna Hcase]|(Hap & Hho & _ & Hto)].
  - rewrite Hn in Hwt' by done. pose proof (Hre id t wt' Hen Hwt') as Hreach. apply finished_weaken.
    destruct Hcase as [->| ->]; [|by eapply reach_dropped].
    eapply reach_weaken; [..|exact Hreach]; try done. intros sc Hin _. by apply elem_of_middle.
  - destruct (targets (watch_state (ws v)) !! id) as [wt|] eqn:Hwt.
    + eapply applied_reach; eauto.
      by destruct (coherent_trusted _ (order_coherent _ Hw) id t Ht Htr).
    + exfalso. destruct finished_watch as [Hws|(b & _ & Hb & Hws)]; rewrite Hws in Hwt'; [congruence|].
      unfold acknowledge in Hwt'. rewrite Hb, Hwt in Hwt'. cbn in Hwt'. congruence.
Qed.
End finish.

Lemma step_reaching w w' :
  monitor_step w w' → in_order w → planner_inv (mkWorld (planner (mon w)) (issued_scans w)) →
  next_token (planner (mon w')) < u64_max → world_ok (watch w) → globals_ok (watch w) →
  marks (watch w') ≤ u64_max → reaching w → reaching w'.
Proof.
  intros Hstep Hw Hinv Hlt Hv Hg Hmax Hr. pose proof (order_coherent _ Hw) as Hm.
  destruct Hstep; cbn [mon watch scans phase issued_scans] in *.
  - by eapply outside_reaching.
  - by eapply sync_target_reaching.
  - apply sync_removed_at in H as (Hd & Hf & _ & _ & Hn & Hs); [|apply Hm].
    eapply (reaching_at id); [done| |].
    + eapply elsewhere_retired; try done. by rewrite Hf.
    + intros t wt (Ht & _) _. cbn in Ht. congruence.
  - destruct (sync_end_quiet current m) as [Hq Hf]. eapply reaching_quiet; try done; [apply Hq|by intros; left|].
    intros i t _. unfold told. cbn. by rewrite Hf.
  - intros i t wt (Ht & Htr & _). destruct (coherent_trusted _ Hm _ _ Ht Htr). congruence.
  - by eapply drain_reaching.
  - eapply trust_reaching; try done. apply (order_watching _ Hw).
  - by eapply capture_reaching.
  - eapply reaching_quiet; try done; [by intros; left|]. intros i t _. unfold told. cbn. set_solver.
  - destruct (dispatch_watch_quiet now m) as [Hq Hf].
    eapply reaching_quiet; try done; [apply Hq|by intros; left|]. intros i t _. unfold told. cbn. by rewrite Hf.
  - by eapply finish_watch_reaching.
  - destruct (stalled_at now deadline m Hm) as [_ [[Hq Hf]|Hu]]; [|by apply untrusted_reaching].
    eapply reaching_quiet; try done; [apply Hq|by intros; left|]. intros i t _. unfold told. cbn. by rewrite Hf.
  - apply dispatch_pick_cases in H as (p & o & Hn & H). destruct o as [c|];
      [by destruct (monitored m !! _); destruct H|]. destruct H as [_ ->].
    apply next_candidate_stays in Hn as ->. eapply reaching_quiet; try done. by intros; left.
  - by apply pick_not_gone in H.
  - apply pick_at in H as (p & Hn & -> & _ & Htr); [|done].
    pose proof (proj1 (order_known _ Hw)) as Hk. cbn in Hk.
    assert (Hp : next_token p < u64_max) by by destruct trusted.
    pose proof (issue_reaching m v l cs Hinv now p c t Hk Hn Hp Hr) as Hi. destruct trusted; [done|].
    eapply start_reaching; [done| |exact Hi]. intros wt t' Hwt (Ht' & Htr' & _). cbn in Ht'. right.
    assert (coherent (put_planner p m)) as Hfp by by eapply candidate_coherent.
    destruct (coherent_trusted _ Hfp _ _ Ht' Htr') as [Hwe Happ]. cbn in Hwe, Happ.
    rewrite Hwe in Htr. unfold watcher_is_trusted in Htr.
    apply (confirmed_applied _ _ (coherent_queue _ Hm)) in Happ. rewrite Happ in Htr. cbn in Htr.
    pose proof (status_watching_health _ _ _ Hwt) as Hst. rewrite <-Htr in Hst.
    destruct (health wt); [|done]. by destruct Hst as [_ Hst]; specialize (Hst eq_refl).
  - apply (start_reaching m v); [subst scan; cbn; by destruct (capture _ _)| |done].
    intros wt t' Hwt _. unfold scan, dispatch_capture, capture. cbn. rewrite Hwt. cbn.
    destruct (pending _ _) eqn:Hp; cbn; [done|by left].
  - eapply finished_reaching; eauto.
  - eapply finished_reaching; eauto.
  - eapply reaching_quiet; try done; [by intros; left|]. cbn. intros sc Hin. by apply elem_of_middle.
Qed.

(** ** From the start *)

Lemma monitor_reachable_refines watching c w :
  monitor_reachable watching c w →
  watch_reachable (watch w) ∧
  planner_reachable (c <| watcher_enabled := watching |>)
    (mkWorld (planner (mon w)) (issued_scans w)) ∧ known w.
Proof.
  intros (env & md & mp & ri & rm & Hsteps). revert w Hsteps. apply (rtc_ind_r (λ w, _)).
  - split_and!; [by exists env, md, mp, ri, rm|apply rtc_refl|].
    split; cbn; [by intros scan ?%elem_of_nil|done].
  - intros w w' _ Hstep ((env' & md' & mp' & ri' & rm' & Hv) & Hp & Hk). split_and!.
    + exists env', md', mp', ri', rm'. etrans; [done|]. by apply monitor_step_watch.
    + unfold planner_reachable in *. etrans; [done|]. by apply monitor_step_planner.
    + by eapply monitor_step_known.
Qed.

Lemma monitor_reachable_in_order watching c w : monitor_reachable watching c w → in_order w.
Proof.
  intros (env & md & mp & ri & rm & Hsteps).
  assert (H : monitor_reachable watching c w ∧ in_order w); [|apply H].
  revert w Hsteps. apply (rtc_ind_r (λ w, _)).
  - split; [by exists env, md, mp, ri, rm|]. split; cbn; try done.
    + split; cbn; [by intros scan ?%elem_of_nil|done].
    + by intros scan ?%elem_of_nil.
  - intros w w' _ Hstep [Hr Hw]. split.
    + destruct Hr as (env' & md' & mp' & ri' & rm' & Hs). exists env', md', mp', ri', rm'. by eapply rtc_r.
    + apply (step_in_order w); [done..|].
      destruct (monitor_reachable_refines _ _ _ Hr) as (_ & Hp & _). by eapply planner_reachable_inv.
Qed.

Lemma watch_steps_marks v v' : rtc watch_step v v' → marks v ≤ marks v'.
Proof. induction 1 as [|v1 v2 v3 Hs _ IH]; [done|]. apply watch_step_marks in Hs. lia. Qed.

Lemma monitor_reachable_reaching watching c w :
  monitor_reachable watching c w → marks (watch w) ≤ u64_max →
  next_token (planner (mon w)) < u64_max → reaching w.
Proof.
  intros (env & md & mp & ri & rm & Hsteps).
  assert (H : monitor_reachable watching c w ∧ (marks (watch w) ≤ u64_max →
    next_token (planner (mon w)) < u64_max → reaching w)); [|apply H].
  revert w Hsteps. apply (rtc_ind_r (λ w, _)).
  - split; [by exists env, md, mp, ri, rm|]. intros _ _ id t wt (Ht & _). cbn in Ht.
    by rewrite lookup_empty in Ht.
  - intros w w' _ Hstep [Hr IH].
    destruct (monitor_reachable_refines _ _ _ Hr) as (Hv & Hp & Hk).
    apply planner_reachable_inv in Hp as Hinv.
    split; [destruct Hr as (e & a & b & d & f & Hs); exists e, a, b, d, f; by eapply rtc_r|].
    intros Hmax Hlt. pose proof (watch_steps_marks _ _ (monitor_step_watch _ _ Hstep)) as Hle.
    pose proof (monitor_step_planner _ _ Hstep Hk) as Hps.
    apply planner_steps_token in Hps as Hle2; [|done]. cbn in Hle2.
    eapply step_reaching; try done; [by eapply monitor_reachable_in_order|
      apply watch_reachable_ok; [done|lia]|apply globals_reachable; [done|lia]|apply IH; lia].
Qed.

(** C8. Every change comes to a scan.  Take a change that the watcher reported,
    for a target that is still registered as it was then and with which the
    planner trusts the watcher.  Either a scan that looked at the change has
    been acknowledged; or the monitor is going to look at the target, or is
    looking; or the planner owes the target a scan.  This holds between any two
    steps of the loop, of the watcher's callback and of the worker: a change is
    not lost between the watcher, the refresh, the planner and the scans that
    run, when targets degrade and recover, when scans fail, end late or are
    started while the watcher is degraded, and when the data directory is
    replaced.  (Unless [u64::MAX] generations, tokens or revisions were used
    up.) *)
Theorem changes_reach_the_planner watching c w r t wt :
  monitor_reachable watching c w → marks (watch w) ≤ u64_max →
  next_token (planner (mon w)) < u64_max → r ∈ reports (watch w) →
  entrusted w (report_target r) t →
  targets (watch_state (ws (watch w))) !! report_target r = Some wt →
  registration_generation wt = report_registration r →
  settled_by (settled (watch w)) r ∨
  told w (report_target r) ∨ inspecting w (report_target r) ∨ owed t.
Proof.
  intros Hw Hmax Hlt Hr Ht Hwt Hreg.
  pose proof (monitor_reachable_reaching _ _ _ Hw Hmax Hlt _ _ _ Ht Hwt) as Hreach.
  destruct (monitor_reachable_refines _ _ _ Hw) as (Hv & _).
  apply watch_reachable_ok in Hv; [|done].
  destruct (world_reports _ Hv r Hr) as [_ [Hp|?]]; [right|by left].
  destruct (Hp wt Hwt Hreg) as [Hc _]. eapply reach_pending; [done|]. by eapply covers_pending.
Qed.

(** ** The turns of the loop *)

Lemma leaves_retire v id (b : bool) retired s' :
  (if b then retire id (ws v) else (None, ws v)) = (retired, s') → ∃ v', leaves v s' v'.
Proof.
  destruct b; intros H.
  - replace s' with (retire id (ws v)).2 by by rewrite H. eexists. apply leaves_retired.
  - injection H as _ <-. eexists. apply leaves_same.
Qed.

Lemma sync_target_leaves now t m v m' s' :
  sync_target sha256 hex_encode now t m (ws v) = (m', s') → ∃ v', leaves v s' v'.
Proof.
  unfold sync_target. cbv zeta. intros H.
  match type of H with (let '(m, s) := ?x in _) = _ => destruct x as [m1 s1] eqn:E end.
  injection H as _ <-. destruct (watching_enabled m && _); [injection E as _ <-; eexists; apply leaves_same|].
  destruct (mmap_writes_bypass_inotify _); [|injection E as _ <-; eexists; apply leaves_same].
  destruct (if watching_enabled m then _ else _) as [retired s2] eqn:Er. injection E as _ <-.
  by eapply leaves_retire.
Qed.

Section turns.
Context (l : list RunningScan) (cs : list ScanCandidate).

(** The loop goes from one state to another in steps of its own. *)
Definition turns (m : Monitor) (v : WatchWorld) (m' : Monitor) (s' : WatchShared) : Prop :=
  ∃ v', ws v' = s' ∧ rtc monitor_step (mkMonitorWorld m v l Idle cs) (mkMonitorWorld m' v' l Idle cs).

Lemma turns_trans m v m1 s1 m2 s2 :
  turns m v m1 s1 → (∀ v1, ws v1 = s1 → turns m1 v1 m2 s2) → turns m v m2 s2.
Proof.
  intros (v1 & Hv1 & H1) H. destruct (H v1 Hv1) as (v2 & Hv2 & H2). exists v2. split; [done|]. by etrans.
Qed.

Lemma sync_targets_turns now candidates m v m' s' :
  sync_targets sha256 hex_encode now candidates m (ws v) = (m', s') → turns m v m' s'.
Proof.
  revert m v. induction candidates as [|t candidates IH]; intros m v; cbn [sync_targets].
  { intros [= <- <-]. by exists v. }
  destruct (sync_target sha256 hex_encode now t m (ws v)) as [m1 s1] eqn:E. intros H.
  destruct (sync_target_leaves _ _ _ _ _ _ E) as [v1 Hl].
  apply (turns_trans _ _ m1 s1); [|intros v2 <-; by apply IH].
  exists v1. split; [by eapply leaves_watch|]. by eapply rtc_once, step_sync_target.
Qed.

Lemma sync_removals_turns ids m v m' s' :
  sync_removals ids m (ws v) = (m', s') → turns m v m' s'.
Proof.
  revert m v. induction ids as [|id ids IH]; intros m v; cbn [sync_removals].
  { intros [= <- <-]. by exists v. }
  destruct (sync_removed id m (ws v)) as [m1 s1] eqn:E. intros H.
  assert (∃ v1, leaves v s1 v1) as [v1 Hl].
  { unfold sync_removed in E. cbv zeta in E. destruct (if _ : bool then _ else _) as [retired s2] eqn:Er.
    injection E as _ <-. by eapply leaves_retire. }
  apply (turns_trans _ _ m1 s1); [|intros v2 <-; by apply IH].
  exists v1. split; [by eapply leaves_watch|]. by eapply rtc_once, step_sync_removed.
Qed.

Lemma sync_turns now candidates m v m' s' :
  sync_soft_disk_targets sha256 hex_encode now candidates m (ws v) = (m', s') → turns m v m' s'.
Proof.
  unfold sync_soft_disk_targets. cbv zeta.
  destruct (sync_targets _ _ _ _ _ _) as [m1 s1] eqn:E1.
  match goal with |- context [sync_removals ?x m1 s1] => generalize x; intros removed end.
  destruct (sync_removals removed m1 s1) as [m2 s2] eqn:E2. intros [= <- <-].
  eapply turns_trans; [by eapply sync_targets_turns|]. intros v1 <-.
  eapply turns_trans; [by eapply sync_removals_turns|]. intros v2 <-.
  exists v2. split; [done|]. eapply rtc_once, step_sync_end.
Qed.

Lemma refresh_each_turns now ids m v :
  rtc monitor_step (mkMonitorWorld m v l (Refreshing ids) cs)
    (mkMonitorWorld (refresh_each now ids m (ws v)) v l Idle cs).
Proof.
  revert m. induction ids as [|id ids IH]; intros m; cbn [refresh_each].
  { eapply rtc_once, step_refresh_end. }
  destruct (refresh_trust id now m (ws v)) as [trusted m1] eqn:E.
  eapply rtc_l; [by eapply step_refresh_trust|]. destruct trusted; [|apply IH].
  eapply rtc_l; [eapply step_refresh_capture|]. apply IH.
Qed.

Lemma refresh_run now previous m v :
  watching_enabled m = true →
  let result := refresh_watcher_work now previous m (ws v) in
  rtc monitor_step (mkMonitorWorld m v l Idle cs)
    (mkMonitorWorld result.1.1 (drained result.1.2 v) l Idle cs).
Proof.
  intros Hw. unfold refresh_watcher_work. rewrite Hw. cbn [negb].
  destruct (refresh_drain m (ws v)) as [[[ids m1] s1] k] eqn:Ed.
  eapply rtc_l; [by eapply step_refresh_drain|]. apply (refresh_each_turns now ids m1 (drained s1 v)).
Qed.

Lemma refresh_turns now previous m v m' s' n :
  refresh_watcher_work now previous m (ws v) = (m', s', n) → turns m v m' s'.
Proof.
  intros H. destruct (watching_enabled m) eqn:Ew.
  - pose proof (refresh_run now previous m v Ew) as Hr. cbv zeta in Hr. rewrite H in Hr.
    by exists (drained s' v).
  - unfold refresh_watcher_work in H. rewrite Ew in H. injection H as <- <- _.
    exists v. split; [done|]. by apply rtc_once, step_refresh_none.
Qed.

Lemma finish_watch_turns completed now retry_delay m v refresh m' s' :
  finish_watch sha256 hex_encode completed now retry_delay m (ws v) = (refresh, m', s') →
  turns m v (m' <| forced ::= include refresh |>) s'.
Proof.
  intros H. assert (∃ v', leaves v s' v') as [v' Hl].
  { revert H. unfold finish_watch. destruct completed as [[o r]|].
    2:{ destruct (fail_active _ _ _) as [o q]. intros [= _ _ <-]. eexists. apply leaves_same. }
    cbv zeta. destruct (queue_complete _ _ _ _ _) as [[] q]; cbn [negb];
      [|intros [= _ _ <-]; eexists; apply leaves_same].
    match goal with |- match ?x with Some id => (let '(retired, s) := if watching_enabled ?y then _ else _
      in _) | None => _ end = _ → _ => generalize y; intros m2; destruct x as [id|] end.
    - destruct (if watching_enabled m2 then retire id (ws v) else (None, ws v)) as [retired s2] eqn:Er. intros [= _ _ <-].
      by eapply leaves_retire.
    - intros [= _ _ <-]. eexists. apply leaves_same. }
  exists v'. split; [by eapply leaves_watch|]. by eapply rtc_once, step_finish_watch.
Qed.
End turns.

(** A scan that has been picked starts. *)
Lemma dispatch_turns now m v l cs c t trusted m' :
  dispatch_pick now m (ws v) = (Some (c, Some (t, trusted)), m') →
  let scan := (dispatch_capture c t trusted (ws v)).1 in
  ∃ v', ws v' = ws v ∧
    rtc monitor_step (mkMonitorWorld m v l Idle cs) (mkMonitorWorld m' v' (scan :: l) Idle (c :: cs)).
Proof.
  intros H. cbv zeta. pose proof (step_pick now m m' v l cs c t trusted H) as Hs.
  destruct trusted; [|exists v; split; [done|by apply rtc_once]].
  eexists. split; [|eapply rtc_l; [exact Hs|]; eapply rtc_once, step_capture].
  cbn. by destruct (capture _ _).
Qed.

Lemma apply_scan_turns scan r now m v l1 l2 cs m' s' :
  in_order (mkMonitorWorld m v (l1 ++ scan :: l2) Idle cs) → identified r →
  apply_soft_disk_scan sha256 hex_encode scan r now m (ws v) = (m', s') →
  ∃ v', ws v' = s' ∧
    rtc monitor_step (mkMonitorWorld m v (l1 ++ scan :: l2) Idle cs)
      (mkMonitorWorld m' v' (l1 ++ l2) Idle cs).
Proof.
  intros Hw Hr H. assert (Hcase : s' = ws v ∨ ∃ b, scan_batch scan = Some b ∧ s' = (acknowledge b (ws v)).2).
  { revert H. unfold apply_soft_disk_scan. destruct (complete _ _ _ _) as [p d].
    repeat case_match; intros [= <- <-]; eauto. }
  assert (Hquiet : s' = ws v → ∃ v', ws v' = s' ∧ rtc monitor_step
    (mkMonitorWorld m v (l1 ++ scan :: l2) Idle cs) (mkMonitorWorld m' v' (l1 ++ l2) Idle cs)).
  { intros ->. exists v. split; [done|]. by eapply rtc_once, step_scan. }
  destruct Hcase as [?|(b & Hb & Hs)]; [auto|].
  destruct (acknowledge b (ws v)) as [[] s1] eqn:Ea; cbn in Hs; subst s1.
  - destruct (order_scan _ Hw scan) as [_ Hcap]; [apply elem_of_app; right; by left|].
    destruct (Hcap b Hb) as (_ & seen & Hseen). exists (acknowledged b seen s' v). split; [done|].
    by eapply rtc_once, step_scan_acknowledged.
  - apply Hquiet. revert Ea. unfold acknowledge. repeat case_match; by intros [= <-].
Qed.

(** The turns of the loop are made of the steps above, in each of which the
    watcher's lock is taken at most once.  Bringing the targets in step,
    refreshing what the watcher has changed, taking the result of a watch
    operation, starting a scan and taking its result: each leaves the state
    that its steps lead to, with other steps possible in between. *)
Theorem loop_turns_are_steps m v l cs :
  (∀ now candidates m' s',
     sync_soft_disk_targets sha256 hex_encode now candidates m (ws v) = (m', s') →
     turns l cs m v m' s') ∧
  (∀ now previous m' s' n,
     refresh_watcher_work now previous m (ws v) = (m', s', n) → turns l cs m v m' s') ∧
  (∀ completed now retry_delay refresh m' s',
     finish_watch sha256 hex_encode completed now retry_delay m (ws v) = (refresh, m', s') →
     turns l cs m v (m' <| forced ::= include refresh |>) s') ∧
  (∀ now c t trusted m',
     dispatch_pick now m (ws v) = (Some (c, Some (t, trusted)), m') →
     ∃ v', ws v' = ws v ∧ rtc monitor_step (mkMonitorWorld m v l Idle cs)
       (mkMonitorWorld m' v' ((dispatch_capture c t trusted (ws v)).1 :: l) Idle (c :: cs))) ∧
  (∀ scan r now l1 l2 m' s',
     l = l1 ++ scan :: l2 → in_order (mkMonitorWorld m v l Idle cs) → identified r →
     apply_soft_disk_scan sha256 hex_encode scan r now m (ws v) = (m', s') →
     ∃ v', ws v' = s' ∧ rtc monitor_step (mkMonitorWorld m v l Idle cs)
       (mkMonitorWorld m' v' (l1 ++ l2) Idle cs)).
Proof.
  split_and!; intros.
  - by eapply sync_turns.
  - by eapply refresh_turns.
  - by eapply finish_watch_turns.
  - by eapply dispatch_turns.
  - subst l. by eapply apply_scan_turns.
Qed.
End life.

(** ** A run

    A target is monitored and its directory watched; the identity that the
    registration finds has it registered again; the refresh then trusts the
    watcher, and a file changes. *)
Abbreviation demo_no_hash := (λ b : bytes, b).
Abbreviation demo_step := (monitor_step demo_no_hash text).

Definition demo_planning : PlannerConfig := mkPlannerConfig 10 100 1 true.
Definition demo_data_root : Path := components (data_path demo_limited).
Definition demo_identity : RootIdentity := mkRootIdentity 1 2.
Definition demo_desire (identity : option RootIdentity) : DesiredWatch :=
  desire demo_no_hash text demo_limited identity.
Definition demo_registration (identity : option RootIdentity) :
    WatchOperation * result string WatchOperationResult :=
  (Register "a" (demo_desire identity),
   Ok (Registered (mkWatchRegistration Watching true true) demo_identity)).

Definition demo_monitor0 : Monitor := monitor_new true demo_planning.
Definition demo_watch0 : WatchWorld := watch_initial demo_notify 8 8 5 300.
Definition demo_monitor1 : Monitor :=
  (sync_target demo_no_hash text 0 demo_limited demo_monitor0 (ws demo_watch0)).1.
Definition demo_monitor2 : Monitor := (dispatch_watch 0 demo_monitor1).2.

(** The worker registers the target. *)
Definition demo_replaced (identity : option RootIdentity) (v : WatchWorld) : WatchWorld :=
  let '(_, generation, s) := replace_target_state 0 "a"
    (desired_fingerprint (demo_desire identity)) demo_data_root (ws v) in
  mkWatchWorld (signal_change s) (mkReport "a" generation 1 [] :: reports v) (captured v) (settled v)
    (marks v + 2).
Definition demo_installed (identity : option RootIdentity) (generation : Z) (v : WatchWorld) :
    WatchWorld :=
  mkWatchWorld (finish_registration "a" (desired_fingerprint (demo_desire identity)) demo_data_root
                  generation true 0 (ws v)).2 (reports v) (captured v) (settled v) (marks v + 1).

Definition demo_finished (identity : option RootIdentity) (v : WatchWorld) (m : Monitor) : Monitor :=
  let '(refresh, m, _) :=
    finish_watch demo_no_hash text (Some (demo_registration identity)) 0 30 m (ws v) in
  m <| forced ::= include refresh |>.

Definition demo_watch1 : WatchWorld := demo_installed None 1 (demo_replaced None demo_watch0).
Definition demo_monitor3 : Monitor := demo_finished None demo_watch1 demo_monitor2.
Definition demo_monitor4 : Monitor := (dispatch_watch 0 demo_monitor3).2.
Definition demo_watch2 : WatchWorld :=
  demo_installed (Some demo_identity) 2 (demo_replaced (Some demo_identity) demo_watch1).
Definition demo_monitor5 : Monitor := demo_finished (Some demo_identity) demo_watch2 demo_monitor4.

(** The refresh, and the change. *)
Definition demo_monitor6 : Monitor := (refresh_watcher_work 1 0 demo_monitor5 (ws demo_watch2)).1.1.
Definition demo_watch3 : WatchWorld :=
  drained (refresh_watcher_work 1 0 demo_monitor5 (ws demo_watch2)).1.2 demo_watch2.
Definition demo_modified : option Event :=
  Some (mkEvent EventModify false [demo_data_root ++ [Normal "base"; Normal "16384"]]).
Definition demo_after_change (v : WatchWorld) : WatchWorld :=
  mkWatchWorld (handle_callback 2 demo_modified (ws v))
    (event_reports 2 demo_modified (ws v) ++ reports v) (captured v) (settled v)
    (marks v + event_cost demo_modified).
Definition demo_watch4 : WatchWorld := demo_after_change demo_watch3.
Definition demo_modification : Report := mkReport "a" 2 2 [Normal "base"; Normal "16384"].

Definition demo_idle (m : Monitor) (v : WatchWorld) : MonitorWorld := mkMonitorWorld m v [] Idle [].
Definition demo_loop : MonitorWorld := demo_idle demo_monitor6 demo_watch4.

Lemma demo_change m v : demo_step (demo_idle m v) (demo_idle m (demo_after_change v)).
Proof. apply step_outside. destruct v. apply outside_event. Qed.

Lemma demo_register identity generation m v :
  worker_may "a" m →
  unchanged_registration "a" (desired_fingerprint (demo_desire identity)) demo_data_root (ws v) = Ok None →
  rtc demo_step (demo_idle m v) (demo_idle m (demo_installed identity generation (demo_replaced identity v))).
Proof.
  intros Hm Hu. apply (rtc_l _ _ (demo_idle m (demo_replaced identity v))).
  - apply step_outside. unfold demo_replaced.
    destruct (replace_target_state _ _ _ _ _) as [[old g] s] eqn:E. destruct v.
    by eapply outside_replace.
  - apply rtc_once, step_outside. unfold demo_installed.
    destruct (demo_replaced identity v). by apply outside_finish.
Qed.

Lemma demo_finish identity m v :
  (finish_watch demo_no_hash text (Some (demo_registration identity)) 0 30 m (ws v)).2 = ws v →
  demo_step (demo_idle m v) (demo_idle (demo_finished identity v m) v).
Proof.
  intros Hs. unfold demo_finished.
  destruct (finish_watch _ _ _ _ _ _ _) as [[refresh m'] s'] eqn:E. cbn in Hs. subst s'.
  eapply step_finish_watch; [exact E|apply leaves_same].
Qed.

Lemma demo_loop_reachable : monitor_reachable demo_no_hash text true demo_planning demo_loop.
Proof.
  exists demo_notify, 8, 8, 5, 300. fold demo_watch0 demo_monitor0 (demo_idle demo_monitor0 demo_watch0).
  apply (rtc_l _ _ (demo_idle demo_monitor1 demo_watch0)).
  { eapply (step_sync_target _ _ 0 demo_limited); [|apply leaves_same]. vm_compute. reflexivity. }
  apply (rtc_l _ _ (demo_idle demo_monitor2 demo_watch0)); [apply step_dispatch_watch|].
  etrans; [apply (demo_register None 1); [right|]; vm_compute; reflexivity|].
  fold demo_watch1.
  apply (rtc_l _ _ (demo_idle demo_monitor3 demo_watch1)).
  { apply (demo_finish None). vm_compute. reflexivity. }
  apply (rtc_l _ _ (demo_idle demo_monitor4 demo_watch1)); [apply step_dispatch_watch|].
  etrans; [apply (demo_register (Some demo_identity) 2); [right|]; vm_compute; reflexivity|].
  fold demo_watch2.
  apply (rtc_l _ _ (demo_idle demo_monitor5 demo_watch2)).
  { apply (demo_finish (Some demo_identity)). vm_compute. reflexivity. }
  apply (rtc_r _ (demo_idle demo_monitor6 demo_watch3)); [|apply demo_change].
  apply (refresh_run demo_no_hash text [] [] 1 0). vm_compute. reflexivity.
Qed.

(** The planner's target and the watcher's. *)
Definition demo_planned : option TargetState := Planner.targets (planner demo_monitor6) !! "a".
Definition demo_watched_target : option WatchedTarget := targets (watch_state (ws demo_watch4)) !! "a".

Lemma demo_watching_trusted :
  (λ t, (watcher_trusted (spec t), revision t)) <$> demo_planned = Some (true, 3) ∧
  registration_generation <$> demo_watched_target = Some 2 ∧
  reports demo_watch4 = [demo_modification; mkReport "a" 2 1 []; mkReport "a" 1 1 []] ∧
  marks demo_watch4 = 8 ∧ next_token (planner demo_monitor6) = 0 ∧ settled demo_watch4 = [].
Proof. vm_compute. done. Qed.

Lemma changes_reach_the_planner_witness :
  ∃ t, demo_planned = Some t ∧
    (settled_by (settled demo_watch4) demo_modification ∨
     told demo_loop "a" ∨ inspecting demo_loop "a" ∨ owed t).
Proof.
  destruct demo_watching_trusted as (Hp & Hw & Hr & Hm & Ht & _).
  apply fmap_Some in Hp as (t & Et & Hp). injection Hp as Htr Hrev.
  apply fmap_Some in Hw as (wt & Ew & Hreg). exists t. split; [exact Et|].
  apply (changes_reach_the_planner demo_no_hash text true demo_planning demo_loop demo_modification t wt).
  - apply demo_loop_reachable.
  - transitivity 8; [apply Z.eq_le_incl; exact Hm|done].
  - apply (Z.le_lt_trans _ 0); [apply Z.eq_le_incl; exact Ht|done].
  - change (reports (watch demo_loop)) with (reports demo_watch4). rewrite Hr. apply elem_of_cons. by left.
  - split; [exact Et|]. split; [by rewrite <-Htr|]. by rewrite <-Hrev.
  - exact Ew.
  - by rewrite <-Hreg.
Defined.
