(* ===== verification/Placement.v ===== *)
(** * Instances and shared pools, in memory and on disk

    Models what keeps the route store and the daemon's database in step:
    [server/manager.rs] (an instance is saved first and published after), the
    transactions it runs ([storage/repositories/mod.rs] and
    [server/placement/repository/runtime.rs]), [server/sessions.rs] (fencing),
    and the part of [server/placement/lifecycle/] that saves a shared pool and
    hands its state on to the tenants ([runtime_store.rs], [tenants.rs]).

    A transaction is a function on [Durable].  Whether it commits is up to the
    environment, and so is whether the caller hears of it: a commit that
    reports an error may have happened ([CommittedUnseen]).  A transaction also
    counts as refused when one of the checks the model has no data for refuses
    it (the schema version, the encryption of secrets, [EngineRuntime::check]). *)
From S2P Require Import Prelude Engines RouteStore Sessions.

Local Open Scope Z_scope.

(** ** Pools *)

Inductive EngineRuntimeStatus :=
  | PoolCreating | PoolBooting | PoolRunning | PoolStopped | PoolFailed | PoolQuarantined
  | PoolDeleting.
#[export] Instance EngineRuntimeStatus_eq_dec : EqDecision EngineRuntimeStatus.
Proof. solve_decision. Defined.

Record RuntimeReservation := mkReservation { reserved_tenants : Z; reserved_disk_mib : Z }.
#[export] Instance RuntimeReservation_eq_dec : EqDecision RuntimeReservation.
Proof. solve_decision. Defined.

Inductive TenantReservationState := TenantReserved | TenantProvisioned.

(** The fields of [EngineRuntime] the modelled code reads or writes. *)
Record EngineRuntime := mkEngineRuntime {
  pool_id : string;
  pool_owner : option PoolOwner;
  pool_protocol : Protocol;
  pool_mode : DeploymentMode;
  pool_status : EngineRuntimeStatus;
  pool_limits : InstanceLimits;
  pool_image : string;
  pool_version : option string;
  pool_reserved : RuntimeReservation;
  pool_created_at : string;
  pool_updated_at : string;
}.
#[export] Instance EngineRuntime_eta : Settable EngineRuntime :=
  λ p, mkEngineRuntime (pool_id p) (pool_owner p) (pool_protocol p) (pool_mode p) (pool_status p)
    (pool_limits p) (pool_image p) (pool_version p) (pool_reserved p) (pool_created_at p)
    (pool_updated_at p).

(** The method [InstanceMetadata::runtime_id]. *)
Definition runtime_id (m : InstanceMetadata) : string :=
  if bool_decide (placed_runtime_id m = "") then instance_id m else placed_runtime_id m.

Definition fill_runtime_id (m : InstanceMetadata) : InstanceMetadata :=
  if bool_decide (deployment_mode m = Dedicated) && bool_decide (placed_runtime_id m = "")
  then m <| placed_runtime_id := instance_id m |> else m.

(** ** The database *)

Record Durable := mkDurable {
  rows : gmap string InstanceMetadata;
  recovery_required : gset string;
  pool_rows : gmap string EngineRuntime;
  reservation_rows : gmap string (list (string * TenantReservationState));
}.
#[export] Instance Durable_eta : Settable Durable :=
  λ d, mkDurable (rows d) (recovery_required d) (pool_rows d) (reservation_rows d).

Definition status_of_instance (s : InstanceStatus) : EngineRuntimeStatus :=
  match s with
  | Creating => PoolCreating
  | Booting => PoolBooting
  | Running => PoolRunning
  | Stopped => PoolStopped
  | Failed => PoolFailed
  | Quarantined => PoolQuarantined
  | Deleting => PoolDeleting
  end.

Definition save_dedicated_runtime (m : InstanceMetadata) (d : Durable) : result string Durable :=
  if negb (bool_decide (runtime_id m = instance_id m))
  then Err ("dedicated instance " +:+ instance_id m +:+ " cannot use runtime " +:+ runtime_id m)
  else
    let configured := match image m with Some i => image_configured i | None => "" end in
    let version := database_version m ≫= version_current in
    let row :=
      match pool_rows d !! instance_id m with
      | None => mkEngineRuntime (instance_id m) (instance_owner m) (protocol m) Dedicated
                  (status_of_instance (status m)) (limits m) configured version
                  (mkReservation 0 0) (created_at m) (updated_at m)
      | Some old => old <| pool_status := status_of_instance (status m) |>
                        <| pool_owner := instance_owner m |>
                        <| pool_limits := limits m |>
                        <| pool_image := configured |>
                        <| pool_version := version |>
                        <| pool_updated_at := updated_at m |>
      end in
    Ok (d <| pool_rows ::= <[instance_id m := row]> |>).

(** The row [get] gives back: the runtime is written out, and an instance that
    waits for its secrets to be recovered keeps the ones it has. *)
Definition instance_row (m : InstanceMetadata) (d : Durable) : InstanceMetadata :=
  let m := m <| placed_runtime_id := runtime_id m |> in
  match rows d !! instance_id m with
  | Some old =>
      if bool_decide (instance_id m ∈ recovery_required d)
      then m <| mariadb_native_password_sha1_stage2 := mariadb_native_password_sha1_stage2 old |>
             <| mysql_native_password_sha1_stage2 := mysql_native_password_sha1_stage2 old |>
             <| tenant_password := tenant_password old |>
      else m
  | None => m
  end.

(** [upsert_protected_secrets] without recovery and without an incident. *)
Definition upsert_protected_secrets (m : InstanceMetadata) (d : Durable) : result string Durable :=
  let row := instance_row m d in
  d ← (if bool_decide (deployment_mode m = Dedicated) then save_dedicated_runtime m d else Ok d);
  Ok (d <| rows ::= <[instance_id m := row]> |>).

(** [save_with_quarantine] without an incident.  An existing row keeps its
    birth and its reservations; it keeps its limits too if a reservation was
    made since the pool was read. *)
Definition save_with_quarantine (p : EngineRuntime) (d : Durable) : Durable :=
  let row :=
    match pool_rows d !! pool_id p with
    | None => p
    | Some old =>
        p <| pool_limits := if bool_decide (pool_reserved old = pool_reserved p)
                            then pool_limits p else pool_limits old |>
          <| pool_reserved := pool_reserved old |>
          <| pool_created_at := pool_created_at old |>
    end in
  d <| pool_rows ::= <[pool_id p := row]> |>.

(** ** The daemon *)

Inductive Commit := Committed | RolledBack (error : string) | CommittedUnseen (error : string).

(** How a container call failed: [is_not_found], [is_not_running], or another
    error with its text. *)
Inductive ContainerError := ContainerNotFound | ContainerNotRunning | ContainerFault (error : string).

Inductive ContainerCall := StopContainer (id : string) (timeout : Z) | KillContainer (id : string).

(** What the environment answers to the n-th request. *)
Record HostEnv := mkHostEnv {
  commits : nat → Commit;
  read_error : nat → option string;
  stop_answer : nat → option (result ContainerError unit);
  kill_answer : nat → result ContainerError unit;
  now_rfc3339 : nat → string;
}.

Section host.
Context {Sem : Type} `{Semaphore Sem}.

Record Host := mkHost {
  store : InstanceState;
  tenant_sessions : Sessions Sem;
  durable : Durable;
  container_calls : list ContainerCall;
  asked : nat;
}.
#[export] Instance Host_eta : Settable Host :=
  λ h, mkHost (store h) (tenant_sessions h) (durable h) (container_calls h) (asked h).

Context (password_route_sha256 : string → string) (env : HostEnv).

Definition transact (d : Durable) (h : Host) : result string unit * Host :=
  let n := asked h in
  let h := h <| asked := S n |> in
  match commits env n with
  | Committed => (Ok tt, h <| durable := d |>)
  | RolledBack error => (Err error, h)
  | CommittedUnseen error => (Err error, h <| durable := d |>)
  end.

(** A read that fails, or not. *)
Definition query {A} (answer : A) (h : Host) : result string A * Host :=
  let n := asked h in
  (match read_error env n with Some error => Err error | None => Ok answer end,
   h <| asked := S n |>).

(** [InstanceRepository::upsert]. *)
Definition repository_upsert (m : InstanceMetadata) (h : Host) : result string unit * Host :=
  match upsert_protected_secrets m (durable h) with
  | Err error => (Err error, h)
  | Ok d => transact d h
  end.

(** ** The manager *)

(** What [upsert], [upsert_fenced] and [upsert_preserving_fence] share. *)
Definition save_then (publish : InstanceMetadata → InstanceState → InstanceState)
    (m : InstanceMetadata) (h : Host) : result string unit * Host :=
  let m := fill_runtime_id m in
  let '(saved, h) := repository_upsert m h in
  match saved with
  | Err error => (Err error, h)
  | Ok _ => (Ok tt, h <| store ::= publish m |>)
  end.

Definition manager_upsert : InstanceMetadata → Host → result string unit * Host :=
  save_then (upsert password_route_sha256).
Definition manager_upsert_fenced : InstanceMetadata → Host → result string unit * Host :=
  save_then upsert_fenced.
Definition manager_upsert_preserving_fence : InstanceMetadata → Host → result string unit * Host :=
  save_then (upsert_preserving_fence password_route_sha256).

Definition get_persisted (id : string) (h : Host) : result string (option InstanceMetadata) * Host :=
  query (rows (durable h) !! id) h.

(** ** Fencing *)

Definition fence (id : string) (h : Host) : bool * Host :=
  let '(fenced, st) := fence_routes id (store h) in
  let h := h <| store := st |> in
  (fenced,
   if fenced then h <| tenant_sessions := (cancel id (tenant_sessions h)).2 |> else h).

Definition store_tenants (rid : string) (h : Host) : list string :=
  omap (λ m, if bool_decide (deployment_mode m = SharedMode) && bool_decide (runtime_id m = rid)
             then Some (instance_id m) else None)
    (map_to_list (instances (store h))).*2.

Fixpoint fence_all (ids : list string) (all_fenced : bool) (h : Host) : bool * Host :=
  match ids with
  | [] => (all_fenced, h)
  | id :: ids => let '(fenced, h) := fence id h in fence_all ids (all_fenced && fenced) h
  end.

Definition fence_runtime (rid : string) (h : Host) : bool * Host :=
  fence_all (store_tenants rid h) true h.

(** ** Saving a pool *)

Definition runtime_tenants (rid : string) (h : Host) :
    gmap string (option TenantReservationState) * Host :=
  let loaded := list_to_map ((λ id, (id, None)) <$> store_tenants rid h) in
  let '(reserved, h) := query (default [] (reservation_rows (durable h) !! rid)) h in
  (match reserved with
   | Ok reserved => foldl (λ ts r, <[r.1 := Some r.2]> ts) loaded reserved
   | Err _ => loaded
   end, h).

Definition tenant_status (pool : EngineRuntimeStatus) (desired : DesiredInstanceState)
    (current : InstanceStatus) : InstanceStatus :=
  if bool_decide (current = Deleting) || bool_decide (current = Quarantined) then current
  else if bool_decide (pool = PoolQuarantined) then Quarantined
  else if bool_decide (desired = DesiredStopped) then Stopped
  else match pool with
       | PoolCreating => Creating
       | PoolBooting => Booting
       | PoolRunning => Running
       | PoolStopped => Stopped
       | PoolFailed | PoolDeleting => Failed
       | PoolQuarantined => Quarantined
       end.

Definition tenant_matches (p : EngineRuntime) (m : InstanceMetadata) : bool :=
  bool_decide (deployment_mode m = SharedMode) && bool_decide (runtime_id m = pool_id p)
  && bool_decide (protocol m = pool_protocol p) && bool_decide (instance_owner m = pool_owner p).

(** The metadata of a tenant after the state of its pool was handed on. *)
Definition tenant_update (p : EngineRuntime) (now : string) (m : InstanceMetadata) :
    InstanceMetadata :=
  let m := m <| status := tenant_status (pool_status p) (desired_state m) (status m) |> in
  let m := if bool_decide (pool_status p = PoolQuarantined)
           then m <| desired_state := DesiredStopped |> else m in
  let m := match pool_version p, database_version m with
           | Some version, Some _ =>
               m <| database_version := Some (mkDatabaseVersion (Some version) None) |>
           | _, _ => m
           end in
  let m := m <| image ::= fmap (M := option) (λ i, i <| image_current := Some (pool_image p) |>) |> in
  m <| updated_at := now |>.

(** The turn of the loop of [save_runtime] for one tenant. *)
Definition propagate (p : EngineRuntime) (id : string) (h : Host) : result string unit * Host :=
  let '(found, h) := get_persisted id h in
  match found with
  | Err error => (Err error, h)
  | Ok None => (Ok tt, h)
  | Ok (Some m) =>
      if negb (tenant_matches p m) then (Ok tt, h)
      else manager_upsert_preserving_fence (tenant_update p (now_rfc3339 env (asked h)) m) h
  end.

Fixpoint propagate_all (p : EngineRuntime) (ids : list string) (h : Host) :
    result string unit * Host :=
  match ids with
  | [] => (Ok tt, h)
  | id :: ids =>
      let '(r, h) := propagate p id h in
      match r with Err error => (Err error, h) | Ok _ => propagate_all p ids h end
  end.

Definition save_runtime (p : EngineRuntime) (h : Host) : result string unit * Host :=
  let '(saved, h) := transact (save_with_quarantine p (durable h)) h in
  match saved with
  | Err error => (Err error, h)
  | Ok _ =>
      let '(tenants, h) := runtime_tenants (pool_id p) h in
      propagate_all p (map_to_list tenants).*1 h
  end.
End host.
Arguments Host : clear implicits.

(** ** Transactions *)

Section transactions.
Context {Sem : Type} (env : HostEnv).
Implicit Types h : Host Sem.

Lemma transact_spec d h r h' :
  transact env d h = (r, h') →
  store h' = store h ∧ tenant_sessions h' = tenant_sessions h ∧
  container_calls h' = container_calls h ∧
  (r = Ok tt ∧ durable h' = d ∨
   (∃ error, r = Err error) ∧ (durable h' = d ∨ durable h' = durable h)).
Proof. unfold transact. case_match; intros [= <- <-]; naive_solver. Qed.

Lemma query_spec {A} (a : A) h r h' :
  query env a h = (r, h') →
  store h' = store h ∧ tenant_sessions h' = tenant_sessions h ∧ durable h' = durable h ∧
  container_calls h' = container_calls h ∧ (r = Ok a ∨ ∃ error, r = Err error).
Proof. unfold query. intros [= <- <-]. case_match; naive_solver. Qed.

Lemma fill_runtime_id_fields m :
  let m' := fill_runtime_id m in
  instance_id m' = instance_id m ∧ deployment_mode m' = deployment_mode m ∧
  status m' = status m ∧ desired_state m' = desired_state m ∧
  disk_limit_blocked m' = disk_limit_blocked m ∧ runtime_id m' = runtime_id m ∧
  route_eligible m' = route_eligible m.
Proof.
  unfold fill_runtime_id.
  destruct (bool_decide (deployment_mode m = Dedicated)); [|done].
  destruct (bool_decide (placed_runtime_id m = "")) eqn:He; [|done].
  split_and!; try done. unfold runtime_id. cbn. rewrite He. by destruct (bool_decide (instance_id m = "")).
Qed.

Lemma instance_row_fields m d :
  let r := instance_row m d in
  instance_id r = instance_id m ∧ status r = status m ∧ desired_state r = desired_state m ∧
  disk_limit_blocked r = disk_limit_blocked m.
Proof. unfold instance_row. by repeat case_match. Qed.

Lemma save_dedicated_rows m d d' : save_dedicated_runtime m d = Ok d' → rows d' = rows d.
Proof. unfold save_dedicated_runtime. case_match; [done|]. by intros [= <-]. Qed.

Lemma upsert_protected_spec m d d' :
  upsert_protected_secrets m d = Ok d' →
  rows d' = <[instance_id m := instance_row m d]> (rows d) ∧
  (deployment_mode m = SharedMode → pool_rows d' = pool_rows d).
Proof.
  unfold upsert_protected_secrets. intros (d1 & Hd & [= <-])%bind_Ok. cbn.
  case_bool_decide as Hm.
  - apply save_dedicated_rows in Hd as ->. rewrite Hm. done.
  - by injection Hd as <-.
Qed.

(** Saving either publishes what it saved or publishes nothing. *)
Lemma save_then_spec publish m h r h' :
  save_then env publish m h = (r, h') →
  tenant_sessions h' = tenant_sessions h ∧ container_calls h' = container_calls h ∧
  (deployment_mode m = SharedMode → pool_rows (durable h') = pool_rows (durable h)) ∧
  (r = Ok tt ∧ store h' = publish (fill_runtime_id m) (store h) ∧
     rows (durable h') = <[instance_id m := instance_row (fill_runtime_id m) (durable h)]>
                           (rows (durable h)) ∨
   (∃ error, r = Err error) ∧ store h' = store h ∧
     (rows (durable h') = rows (durable h) ∨
      rows (durable h') = <[instance_id m := instance_row (fill_runtime_id m) (durable h)]>
                            (rows (durable h)))).
Proof.
  destruct (fill_runtime_id_fields m) as (Ei & Em & _).
  unfold save_then, repository_upsert. set (m' := fill_runtime_id m) in *.
  destruct (upsert_protected_secrets m' (durable h)) as [d|error] eqn:Hd;
    [|intros [= <- <-]; naive_solver].
  apply upsert_protected_spec in Hd as [Hr Hp]. rewrite Ei in Hr. rewrite Em in Hp.
  destruct (transact env d h) as [saved h1] eqn:Ht.
  apply transact_spec in Ht as (Es & Ess & Ec & [[-> Ed]|[[e ->] Ed]]); intros [= <- <-]; cbn;
    rewrite ?Es; split_and!; try done; naive_solver congruence.
Qed.
End transactions.

(** ** Saving and publishing *)

Section facts.
Context {Sem : Type} `{Semaphore Sem}.
Context (password_route_sha256 : string → string) (env : HostEnv).
Implicit Types h : Host Sem.

(** No client is sent to the instance. *)
Definition off_gateway (st : InstanceState) (id : string) : Prop := ∀ k, ¬ routed st k id.

(** The store and the sessions are in order, and a row is the row of its key. *)
Record host_ok h : Prop := {
  ok_store : store_inv password_route_sha256 (store h);
  ok_rows id m : rows (durable h) !! id = Some m → instance_id m = id;
  ok_sessions : registry_exact (tenant_sessions h);
}.

Lemma ineligible_upsert_routed m st k id :
  route_eligible m = false → routed (upsert password_route_sha256 m st) k id →
  routed st k id ∧ id ≠ instance_id m.
Proof. intros He [(_ & _ & ? & _)|?]%upsert_routed; [congruence|done]. Qed.

Lemma upsert_fenced_routed m st k id :
  routed (upsert_fenced m st) k id → routed st k id ∧ id ≠ instance_id m.
Proof. apply (remove_routes_routed password_route_sha256 (instance_id m) st). Qed.

Lemma ineligible_preserving_routed m st k id :
  route_eligible m = false → routed (upsert_preserving_fence password_route_sha256 m st) k id →
  routed st k id ∧ id ≠ instance_id m.
Proof.
  intros He. unfold upsert_preserving_fence. case_match.
  - by apply ineligible_upsert_routed.
  - apply upsert_fenced_routed.
Qed.

Lemma preserving_instances m st :
  instances (upsert_preserving_fence password_route_sha256 m st) =
  <[instance_id m := m]> (instances st).
Proof.
  unfold upsert_preserving_fence. case_match; [|done].
  apply (upsert_fields password_route_sha256 m st).
Qed.

Lemma preserving_inv m st :
  store_inv password_route_sha256 st →
  store_inv password_route_sha256 (upsert_preserving_fence password_route_sha256 m st).
Proof.
  intros Hi. unfold upsert_preserving_fence.
  case_match; [by apply store_upsert_inv|by apply upsert_fenced_inv].
Qed.

Lemma fence_routed id st k id' :
  is_Some (instances st !! id) →
  routed (fence_routes id st).2 k id' → routed st k id' ∧ id' ≠ id.
Proof.
  intros [m Hm]. unfold fence_routes, fence_existing. rewrite Hm.
  apply (remove_routes_routed password_route_sha256 id st).
Qed.

Lemma fence_shrinks id st k id' : routed (fence_routes id st).2 k id' → routed st k id'.
Proof.
  destruct (instances st !! id) eqn:Hm.
  - intros Hr. by eapply fence_routed in Hr as [? _]; [|rewrite Hm].
  - unfold fence_routes, fence_existing. by rewrite Hm.
Qed.

(** ** Fencing *)

(** Every session of the tenants [ids] is cancelled in [ss'], which has the
    sessions of [ss]. *)
Definition sessions_cut (ids : list string) (ss ss' : Sessions Sem) : Prop :=
  ∀ sid s', live ss' !! sid = Some s' →
    ∃ s, live ss !! sid = Some s ∧ session_tenant s' = session_tenant s ∧
         (cancelled s = true ∨ session_tenant s ∈ ids → cancelled s' = true).

Lemma sessions_cut_nil ss : sessions_cut [] ss ss.
Proof. intros sid s Hs. exists s. split_and!; [done..|]. by intros [?|?%elem_of_nil]. Qed.

Lemma cancel_cut id ss :
  registry_exact ss → sessions_cut [id] ss (cancel id ss).2 ∧ registry_exact (cancel id ss).2.
Proof.
  intros He. destruct (cancel id ss) as [n ss'] eqn:Hc.
  destruct (cancel_live _ _ _ _ He Hc) as (Hl & _ & He'). split; [|done]. intros sid s'. cbn.
  rewrite Hl. intros (s & Hs & ->)%fmap_Some. exists s. split; [done|].
  case_bool_decide; cbn; (split; [done|]); [done|]. rewrite list_elem_of_singleton. naive_solver.
Qed.

Lemma sessions_cut_trans ids ids' ss1 ss2 ss3 :
  sessions_cut ids ss1 ss2 → sessions_cut ids' ss2 ss3 → sessions_cut (ids ++ ids') ss1 ss3.
Proof.
  intros H12 H23 sid s3 H3. destruct (H23 _ _ H3) as (s2 & H2 & E2 & C2).
  destruct (H12 _ _ H2) as (s1 & H1 & E1 & C1). exists s1. split_and!; [done|congruence|].
  rewrite elem_of_app. intros Hc. apply C2. rewrite E1. naive_solver.
Qed.

(** [h'] is [h] with the tenants [ids] taken off the gateway. *)
Record cut_off (ids : list string) h h' : Prop := {
  cut_instances : instances (store h') = instances (store h);
  cut_durable : durable h' = durable h;
  cut_calls : container_calls h' = container_calls h;
  cut_routes k id : routed (store h') k id → routed (store h) k id ∧ id ∉ ids;
  cut_sessions : sessions_cut ids (tenant_sessions h) (tenant_sessions h');
  cut_ok : host_ok h';
}.

Lemma fence_cut id h :
  host_ok h → is_Some (instances (store h) !! id) → cut_off [id] h (fence id h).2.
Proof.
  intros Hok Hid. pose proof (fence_routed id (store h)) as Hr.
  destruct (fence_existing_fields id (store h)) as [_ Ei].
  pose proof (fence_existing_inv password_route_sha256 id _ (ok_store _ Hok)) as Hi.
  unfold fence. unfold fence_routes in *.
  assert ((fence_existing id (store h)).1 = true) as Et.
  { unfold fence_existing. by destruct Hid as [m ->]. }
  destruct (fence_existing id (store h)) as [b st]. cbn in Et |- *. subst b. cbn in *.
  destruct (cancel_cut id _ (ok_sessions _ Hok)) as [Hc He]. split; cbn; try done.
  - intros k id' [? ?]%Hr; [|done]. rewrite list_elem_of_singleton. done.
  - split; cbn; [done|apply (ok_rows _ Hok)|done].
Qed.

Lemma fence_all_cut ids b h :
  host_ok h → Forall (λ id, is_Some (instances (store h) !! id)) ids →
  cut_off ids h (fence_all ids b h).2.
Proof.
  revert b h. induction ids as [|id ids IH]; intros b h Hok Hids; cbn [fence_all].
  - split; try done; [|apply sessions_cut_nil]. intros k id Hr. split; [done|by intros ?%elem_of_nil].
  - apply Forall_cons in Hids as [Hid Hids]. pose proof (fence_cut id h Hok Hid) as C1.
    destruct (fence id h) as [fenced h1]. cbn in C1.
    assert (Forall (λ id, is_Some (instances (store h1) !! id)) ids) as Hids1
      by by rewrite (cut_instances _ _ _ C1).
    pose proof (IH (b && fenced) h1 (cut_ok _ _ _ C1) Hids1) as C2. destruct C1, C2.
    split; try congruence; try done.
    + intros k id' [[? Hn]%cut_routes0 ?]%cut_routes1. split; [done|].
      rewrite list_elem_of_singleton in Hn. by intros [?|?]%elem_of_cons.
    + by apply (sessions_cut_trans [id] ids _ (tenant_sessions h1)).
Qed.

Lemma elem_of_store_tenants rid h id :
  host_ok h →
  id ∈ store_tenants rid h ↔
  ∃ m, instances (store h) !! id = Some m ∧ deployment_mode m = SharedMode ∧ runtime_id m = rid.
Proof.
  intros Hok. unfold store_tenants. rewrite list_elem_of_omap. split.
  - intros (m & ([i m'] & -> & Hm%elem_of_map_to_list)%list_elem_of_fmap & Hf). cbn in *.
    case_match eqn:Hb; [|done]. simplify_eq. pose proof (inv_ids _ _ (ok_store _ Hok) _ _ Hm) as ->.
    apply andb_true_iff in Hb as [?%bool_decide_eq_true_1 ?%bool_decide_eq_true_1]. eauto.
  - intros (m & Hm & Hs & Hr). exists m. split.
    + apply list_elem_of_fmap. exists (id, m). split; [done|]. by apply elem_of_map_to_list.
    + rewrite !bool_decide_eq_true_2 by done. cbn. f_equal.
      by apply (inv_ids _ _ (ok_store _ Hok)).
Qed.

Lemma fence_runtime_cut rid h :
  host_ok h → cut_off (store_tenants rid h) h (fence_runtime rid h).2.
Proof.
  intros Hok. apply fence_all_cut; [done|]. apply Forall_forall.
  intros id (m & -> & _)%elem_of_store_tenants; done.
Qed.

(** ** Handing the state of a pool on *)

Lemma tenant_status_running pool desired current :
  tenant_status pool desired current = Running → pool = PoolRunning.
Proof.
  unfold tenant_status. destruct current, pool, desired; cbn; done.
Qed.

Lemma tenant_update_fields p now m :
  let m' := tenant_update p now m in
  instance_id m' = instance_id m ∧ deployment_mode m' = deployment_mode m ∧
  runtime_id m' = runtime_id m ∧
  status m' = tenant_status (pool_status p) (desired_state m) (status m).
Proof. unfold tenant_update. by repeat case_match. Qed.

(** The status of a tenant that its user wants to run, when its pool has the
    status [pool]. *)
Inductive runs_as : EngineRuntimeStatus → InstanceStatus → Prop :=
  | runs_creating : runs_as PoolCreating Creating
  | runs_booting : runs_as PoolBooting Booting
  | runs_running : runs_as PoolRunning Running
  | runs_stopped : runs_as PoolStopped Stopped
  | runs_failed : runs_as PoolFailed Failed
  | runs_deleted : runs_as PoolDeleting Failed.

(** The status that follows from the pool for a tenant: deletion and quarantine
    are final; a quarantined pool quarantines its tenants, also stopped ones; a
    tenant its user stopped stays stopped; any other is as its pool. *)
Inductive follows (pool : EngineRuntimeStatus) :
    DesiredInstanceState → InstanceStatus → InstanceStatus → Prop :=
  | follows_deleting desired : follows pool desired Deleting Deleting
  | follows_quarantined desired : follows pool desired Quarantined Quarantined
  | follows_contained desired current :
      current ≠ Deleting → pool = PoolQuarantined → follows pool desired current Quarantined
  | follows_stopped current :
      current ≠ Deleting → current ≠ Quarantined → pool ≠ PoolQuarantined →
      follows pool DesiredStopped current Stopped
  | follows_pool current next :
      current ≠ Deleting → current ≠ Quarantined → runs_as pool next →
      follows pool DesiredRunning current next.

(** [follows] gives one status. *)
Lemma follows_unique pool desired current s s' :
  follows pool desired current s → follows pool desired current s' → s = s'.
Proof.
  intros Hs Hs'. inversion Hs; inversion Hs'; subst; try done;
    repeat match goal with Hr : runs_as _ _ |- _ => inversion Hr; clear Hr; subst end; done.
Qed.

Lemma tenant_status_follows pool desired current :
  follows pool desired current (tenant_status pool desired current).
Proof. destruct current, pool, desired; by repeat constructor. Qed.

(** The instance is a tenant of the pool: a shared one in it, of its engine and
    of its owner. *)
Definition tenant_of (p : EngineRuntime) (m : InstanceMetadata) : Prop :=
  deployment_mode m = SharedMode ∧ runtime_id m = pool_id p ∧ protocol m = pool_protocol p
  ∧ instance_owner m = pool_owner p.

Lemma tenant_matches_spec p m : tenant_matches p m = true ↔ tenant_of p m.
Proof. unfold tenant_matches, tenant_of. rewrite !andb_true_iff, !bool_decide_eq_true. tauto. Qed.

Lemma tenant_update_ineligible p now m :
  pool_status p ≠ PoolRunning → route_eligible (fill_runtime_id (tenant_update p now m)) = false.
Proof.
  intros Hp. destruct (fill_runtime_id_fields (tenant_update p now m)) as (_ & _ & _ & _ & _ & _ & ->).
  destruct (tenant_update_fields p now m) as (_ & _ & _ & Es).
  unfold route_eligible. rewrite Es, bool_decide_eq_false_2; [done|].
  by intros ?%tenant_status_running.
Qed.

(** No client is sent to an instance of the pool. *)
Definition pool_off (rid : string) (st : InstanceState) : Prop :=
  ∀ id m, instances st !! id = Some m → deployment_mode m = SharedMode → runtime_id m = rid →
          off_gateway st id.

(** The instance [id] has the status that follows from the pool, in memory and
    on disk, if [m] was its row. *)
Definition handed_on (p : EngineRuntime) (id : string) (m : InstanceMetadata) h : Prop :=
  ∃ s, follows (pool_status p) (desired_state m) (status m) s ∧
  (∃ row, rows (durable h) !! id = Some row ∧ status row = s) ∧
  (∃ loaded, instances (store h) !! id = Some loaded ∧ status loaded = s).

(** What handing the state of [p] on to the instances [ids] leaves as it was. *)
Record propagated (p : EngineRuntime) (ids : list string) h h' : Prop := {
  prop_ok : host_ok h';
  prop_sessions : tenant_sessions h' = tenant_sessions h;
  prop_calls : container_calls h' = container_calls h;
  prop_pools : pool_rows (durable h') = pool_rows (durable h);
  prop_rows id : id ∉ ids → rows (durable h') !! id = rows (durable h) !! id;
  prop_instances id : id ∉ ids → instances (store h') !! id = instances (store h) !! id;
  prop_others id : (∀ m, rows (durable h) !! id = Some m → ¬ tenant_of p m) →
    rows (durable h') !! id = rows (durable h) !! id ∧
    instances (store h') !! id = instances (store h) !! id;
  prop_routes k id : pool_status p ≠ PoolRunning → routed (store h') k id → routed (store h) k id;
  prop_off rid : pool_status p ≠ PoolRunning → pool_off rid (store h) → pool_off rid (store h');
}.

Lemma propagated_same p ids h h' :
  host_ok h → store h' = store h → tenant_sessions h' = tenant_sessions h →
  durable h' = durable h → container_calls h' = container_calls h → propagated p ids h h'.
Proof.
  intros [] Es Ess Ed Ec. split; rewrite ?Es, ?Ed; try done. split; rewrite ?Es, ?Ed, ?Ess; done.
Qed.

Lemma propagated_trans p ids ids' h1 h2 h3 :
  propagated p ids h1 h2 → propagated p ids' h2 h3 → propagated p (ids ++ ids') h1 h3.
Proof.
  intros [] []. split; try congruence; try done; auto.
  - intros id [? ?]%not_elem_of_app. by rewrite prop_rows1, prop_rows0.
  - intros id [? ?]%not_elem_of_app. by rewrite prop_instances1, prop_instances0.
  - intros id Hid. destruct (prop_others0 id Hid) as [E1 E2].
    destruct (prop_others1 id) as [-> ->]; [by rewrite E1|done].
Qed.

(** Saving the metadata of one tenant. *)
Lemma save_tenant_propagated p now id m h r h' :
  host_ok h → rows (durable h) !! id = Some m → tenant_of p m →
  manager_upsert_preserving_fence password_route_sha256 env (tenant_update p now m) h = (r, h') →
  propagated p [id] h h' ∧ (r = Ok tt → handed_on p id m h').
Proof.
  intros Hok Hrow Hten Hsave. pose proof (ok_rows _ Hok _ _ Hrow) as <-.
  pose proof (proj1 Hten) as Hs.
  destruct (tenant_update_fields p now m) as (Ei & Em & _ & Es).
  pose proof (tenant_update_ineligible p now m) as He.
  set (m1 := tenant_update p now m) in *.
  destruct (fill_runtime_id_fields m1) as (Fi & _ & Fs & _). set (m2 := fill_runtime_id m1) in *.
  destruct (instance_row_fields m2 (durable h)) as (Ri & Rs & _). set (row := instance_row _ _) in *.
  apply save_then_spec in Hsave as (Ess & Ec & Ep & Hcase). rewrite Em in Ep. specialize (Ep Hs).
  rewrite Ei in Hcase. fold m2 row in Hcase.
  assert (∀ i x, <[instance_id m := row]> (rows (durable h)) !! i = Some x → instance_id x = i) as Hrk.
  { intros i x [[<- <-]|[_ ?]]%lookup_insert_Some; [congruence|by apply (ok_rows _ Hok)]. }
  assert (∀ i, i ∉ [instance_id m] → instance_id m ≠ i) as Hne.
  { intros i. rewrite list_elem_of_singleton. congruence. }
  destruct Hcase as [(-> & Est & Er)|([e ->] & Est & Er)].
  - assert (instances (store h') = <[instance_id m := m2]> (instances (store h))) as Ein.
    { by rewrite Est, preserving_instances, Fi, Ei. }
    split; [|intros _; exists (status m1); rewrite Es; split; [apply tenant_status_follows|];
      split; eexists; rewrite ?Er, ?Ein, lookup_insert_eq; split; [done|congruence|done|congruence]].
    split; try done.
    + split; [rewrite Est; apply preserving_inv, (ok_store _ Hok)|by rewrite Er|].
      rewrite Ess. apply (ok_sessions _ Hok).
    + intros i ?%Hne. by rewrite Er, lookup_insert_ne.
    + intros i ?%Hne. by rewrite Ein, lookup_insert_ne.
    + intros i Hi. destruct (decide (instance_id m = i)) as [<-|Hn]; [by destruct (Hi m Hrow)|].
      by rewrite Er, Ein, !lookup_insert_ne.
    + intros k i Hp. rewrite Est. by intros [? _]%ineligible_preserving_routed; [|apply He].
    + intros rid Hp Hoff i x. rewrite Ein. intros [[<- <-]|[Hi Hx]]%lookup_insert_Some Hm Hr k;
        rewrite Est; intros [Hk Hn]%ineligible_preserving_routed; try (by apply He).
      * apply Hn. congruence.
      * by apply (Hoff i x Hx Hm Hr k).
  - split; [|done]. split; rewrite ?Est; try done.
    + split; [rewrite Est; apply (ok_store _ Hok)| |rewrite Ess; apply (ok_sessions _ Hok)].
      destruct Er as [->| ->]; [apply (ok_rows _ Hok)|done].
    + intros i ?%Hne. destruct Er as [->| ->]; [done|by rewrite lookup_insert_ne].
    + intros i Hi. destruct (decide (instance_id m = i)) as [<-|Hn]; [by destruct (Hi m Hrow)|].
      destruct Er as [->| ->]; [done|by rewrite lookup_insert_ne].
Qed.

Lemma propagate_propagated p id h r h' :
  host_ok h → propagate password_route_sha256 env p id h = (r, h') →
  propagated p [id] h h' ∧
  (r = Ok tt → ∀ m, rows (durable h) !! id = Some m → tenant_of p m → handed_on p id m h').
Proof.
  intros Hok. unfold propagate, get_persisted. destruct (query _ _ _) as [found h1] eqn:Hq.
  apply query_spec in Hq as (Es & Ess & Ed & Ec & Hf).
  pose proof (λ ids, propagated_same p ids h h1 Hok Es Ess Ed Ec) as P1.
  pose proof (prop_ok _ _ _ _ (P1 [])) as Hok1.
  destruct Hf as [-> |[e ->]]; [|intros [= <- <-]; done].
  destruct (rows (durable h) !! id) as [m|] eqn:Hm; [|intros [= <- <-]; done].
  destruct (tenant_matches p m) eqn:Ht; cbn [negb];
    [|intros [= <- <-]; split; [done|]; intros _ ? [= <-] Hs%tenant_matches_spec; congruence].
  intros Hsave. pose proof (proj1 (tenant_matches_spec p m) Ht) as Hs.
  rewrite <-Ed in Hm. destruct (save_tenant_propagated _ _ _ _ _ _ _ Hok1 Hm Hs Hsave) as [P2 Hh].
  split; [|intros Hr ? [= <-] _; auto].
  by apply (propagated_trans p [] [id] h h1).
Qed.

Lemma propagate_all_propagated p ids h r h' :
  host_ok h → NoDup ids → propagate_all password_route_sha256 env p ids h = (r, h') →
  ∃ visited, visited ⊆ ids ∧ propagated p visited h h' ∧
  (r = Ok tt → ∀ id m, id ∈ ids → rows (durable h) !! id = Some m → tenant_of p m →
     handed_on p id m h').
Proof.
  revert h. induction ids as [|id ids IH]; intros h Hok Hnd; cbn [propagate_all].
  - intros [= <- <-]. exists []. split_and!; [done|by apply propagated_same|].
    by intros _ id m ?%elem_of_nil.
  - apply NoDup_cons in Hnd as [Hid Hnd].
    destruct (propagate password_route_sha256 env p id h) as [r1 h1] eqn:Hp.
    apply propagate_propagated in Hp as [P1 H1]; [|done].
    destruct r1 as [[]|e]; [|intros [= <- <-]; exists [id]; split_and!; [set_solver|done|done]].
    intros Hall. destruct (IH h1 (prop_ok _ _ _ _ P1) Hnd Hall) as (visited & Hsub & P2 & H2).
    exists ([id] ++ visited). split_and!; [set_solver|by eapply propagated_trans|].
    intros -> i m [->|Hi]%elem_of_cons Hm Ht.
    + assert (id ∉ visited) as Hv by set_solver.
      destruct (H1 eq_refl m Hm Ht) as (s & Hs & (row & Hr & ?) & x & Hx & ?).
      exists s. split; [done|]. split; [exists row|exists x]; by rewrite ?(prop_rows _ _ _ _ P2), ?(prop_instances _ _ _ _ P2).
    + apply (H2 eq_refl); [done| |done]. rewrite (prop_rows _ _ _ _ P1); [done|].
      rewrite list_elem_of_singleton. by intros ->.
Qed.

Lemma foldl_insert_keeps (l : list (string * TenantReservationState))
    (ts : gmap string (option TenantReservationState)) id :
  is_Some (ts !! id) → is_Some (foldl (λ ts r, <[r.1 := Some r.2]> ts) ts l !! id).
Proof.
  revert ts. induction l as [|[i x] l IH]; intros ts Hs; cbn; [done|]. apply IH.
  rewrite lookup_insert_is_Some. destruct (decide (i = id)); [by left|by right].
Qed.

Lemma foldl_insert_all (l : list (string * TenantReservationState))
    (ts : gmap string (option TenantReservationState)) id :
  id ∈ l.*1 → is_Some (foldl (λ ts r, <[r.1 := Some r.2]> ts) ts l !! id).
Proof.
  revert ts. induction l as [|[i x] l IH]; intros ts; cbn; [by intros ?%elem_of_nil|].
  intros [->|?]%elem_of_cons; [|by apply IH]. apply foldl_insert_keeps. by rewrite lookup_insert_eq.
Qed.

Lemma elem_of_map_fst (ts : gmap string (option TenantReservationState)) id :
  is_Some (ts !! id) → id ∈ (map_to_list ts).*1.
Proof.
  intros [x Hx]. apply list_elem_of_fmap. exists (id, x). split; [done|]. by apply elem_of_map_to_list.
Qed.

Lemma runtime_tenants_spec rid h ts h' :
  host_ok h → runtime_tenants env rid h = (ts, h') →
  store h' = store h ∧ tenant_sessions h' = tenant_sessions h ∧ durable h' = durable h ∧
  container_calls h' = container_calls h ∧
  ∀ id, id ∈ store_tenants rid h
        ∨ read_error env (asked h) = None
          ∧ id ∈ (default [] (reservation_rows (durable h) !! rid)).*1 →
        id ∈ (map_to_list ts).*1.
Proof.
  intros Hok. unfold runtime_tenants. destruct (query _ _ _) as [reserved h1] eqn:Hq.
  pose proof Hq as (Es & Ess & Ed & Ec & _)%query_spec. intros [= <- <-]. split_and!; try done.
  intros id [Hid|[Hread Hid]]; cycle 1.
  { unfold query in Hq. rewrite Hread in Hq. injection Hq as <- _.
    apply elem_of_map_fst, foldl_insert_all, Hid. }
  assert (is_Some ((list_to_map ((λ id, (id, None)) <$> store_tenants rid h)
    : gmap string (option TenantReservationState)) !! id)) as Hl.
  { apply elem_of_dom. rewrite dom_list_to_map, <-list_fmap_compose, elem_of_list_to_set.
    apply list_elem_of_fmap. eauto. }
  apply elem_of_map_fst. destruct reserved as [l|]; [by apply foldl_insert_keeps|done].
Qed.

(** [h'] is [h] after the pool [p] was saved, or was tried to be. *)
Record pool_saved (p : EngineRuntime) h h' : Prop := {
  saved_ok : host_ok h';
  saved_sessions : tenant_sessions h' = tenant_sessions h;
  saved_calls : container_calls h' = container_calls h;
  saved_routes k id : pool_status p ≠ PoolRunning → routed (store h') k id → routed (store h) k id;
  saved_off rid : pool_status p ≠ PoolRunning → pool_off rid (store h) → pool_off rid (store h');
  saved_others id : (∀ m, rows (durable h) !! id = Some m → ¬ tenant_of p m) →
    rows (durable h') !! id = rows (durable h) !! id ∧
    instances (store h') !! id = instances (store h) !! id;
}.

(** The instances [save_runtime] looks at: those loaded for the pool, and those
    with a reservation in it unless the reservations cannot be read, which is the
    second request it makes. *)
Definition pool_tenant (p : EngineRuntime) (id : string) h : Prop :=
  id ∈ store_tenants (pool_id p) h ∨
  read_error env (S (asked h)) = None ∧
  id ∈ (default [] (reservation_rows (durable h) !! pool_id p)).*1.

Lemma save_with_quarantine_fields p d :
  rows (save_with_quarantine p d) = rows d ∧
  ∃ row, pool_rows (save_with_quarantine p d) !! pool_id p = Some row ∧
         pool_status row = pool_status p.
Proof.
  split; [done|]. unfold save_with_quarantine. cbn. rewrite lookup_insert_eq. eexists.
  split; [done|]. by case_match.
Qed.

Lemma save_runtime_saved p h r h' :
  host_ok h → save_runtime password_route_sha256 env p h = (r, h') →
  pool_saved p h h' ∧
  (r = Ok tt →
   (∃ row, pool_rows (durable h') !! pool_id p = Some row ∧ pool_status row = pool_status p) ∧
   ∀ id m, pool_tenant p id h → rows (durable h) !! id = Some m → tenant_of p m →
     handed_on p id m h').
Proof.
  intros Hok. unfold save_runtime.
  destruct (save_with_quarantine_fields p (durable h)) as [Er Hrow].
  destruct (transact env _ h) as [saved h1] eqn:Ht.
  assert (asked h1 = S (asked h)) as Ea by (unfold transact in Ht; case_match; by injection Ht as <- <-).
  apply transact_spec in Ht as (Es & Ess & Ec & Hd).
  assert (rows (durable h1) = rows (durable h)) as Er1
    by (destruct Hd as [[_ ->]|[_ [->| ->]]]; done).
  assert (host_ok h1) as Hok1.
  { destruct Hok. split; rewrite ?Es, ?Ess, ?Er1; done. }
  destruct saved as [[]|e]; cycle 1.
  { intros [= <- <-]. split; [|done]. split; rewrite ?Es, ?Er1; done. }
  destruct (runtime_tenants env (pool_id p) h1) as [ts h2] eqn:Hts.
  apply runtime_tenants_spec in Hts as (Es2 & Ess2 & Ed2 & Ec2 & Hin); [|done].
  assert (host_ok h2) as Hok2.
  { destruct Hok1. split; rewrite ?Es2, ?Ess2, ?Ed2; done. }
  intros Hall. apply propagate_all_propagated in Hall as (visited & _ & [] & Hdone);
    [|done|apply NoDup_fst_map_to_list].
  split; [split; try done; try congruence|].
  - intros k id Hp. rewrite <-Es, <-Es2. by apply prop_routes0.
  - intros rid Hp. rewrite <-Es, <-Es2. by apply prop_off0.
  - intros id Hid. rewrite <-Es, <-Es2, <-Er1, <-Ed2. apply prop_others0. by rewrite Ed2, Er1.
  - intros Hr. split.
    + destruct Hd as [[_ Hd]|[[? ?] _]]; [|done]. by rewrite prop_pools0, Ed2, Hd.
    + intros id m Hid Hm. apply (Hdone Hr).
      * apply Hin. revert Hid. unfold pool_tenant, store_tenants. rewrite Es, Ea.
        by destruct Hd as [[_ ->]|[[? ?] _]].
      * by rewrite Ed2, Er1.
Qed.

(** C31. A pool hands its state on to its tenants and to no other instance.  If saving
    a pool succeeds, the pool's status is on disk.  So is the status that
    [follows] from it for every tenant of the pool that is loaded, or that has a
    reservation, whether or not the list of reservations could be read for the
    former; the same status is in the store.  An instance on disk that is not of
    the pool, its engine and its owner is left as it was.  No container is
    called, and unless the pool runs no client is sent anywhere it was not sent
    before. *)
Theorem pool_state_reaches_tenants p h h' :
  host_ok h → save_runtime password_route_sha256 env p h = (Ok tt, h') →
  (∃ row, pool_rows (durable h') !! pool_id p = Some row ∧ pool_status row = pool_status p) ∧
  (∀ id m, pool_tenant p id h → rows (durable h) !! id = Some m → tenant_of p m →
     ∃ s, follows (pool_status p) (desired_state m) (status m) s ∧
     (∃ row, rows (durable h') !! id = Some row ∧ status row = s) ∧
     (∃ loaded, instances (store h') !! id = Some loaded ∧ status loaded = s)) ∧
  (∀ id, (∀ m, rows (durable h) !! id = Some m → ¬ tenant_of p m) →
     rows (durable h') !! id = rows (durable h) !! id ∧
     instances (store h') !! id = instances (store h) !! id) ∧
  container_calls h' = container_calls h ∧
  (pool_status p ≠ PoolRunning → ∀ k id, routed (store h') k id → routed (store h) k id).
Proof.
  intros Hok Hsave. apply save_runtime_saved in Hsave as [[] Hdone]; [|done].
  destruct (Hdone eq_refl) as [Hrow Ht]. split_and!; [done|exact Ht|done|done|].
  intros Hp k id. by apply saved_routes0.
Qed.
End facts.

(** ** A concrete pool *)

Module PlacementDemo.
Import StoreDemo.

Definition demo_tenant : InstanceMetadata := demo_a <| placed_runtime_id := "pool" |>.

Definition demo_pool (s : EngineRuntimeStatus) : EngineRuntime :=
  mkEngineRuntime "pool" None Postgres SharedMode s (limits demo_tenant) "postgres:17" None
    (mkReservation 1 10240) "2026-01-01" "2026-01-01".

(** The second request fails: the reservations cannot be read. *)
Definition demo_host_env : HostEnv :=
  mkHostEnv (λ _, Committed) (λ n, if (n =? 1)%nat then Some "busy" else None)
    (λ _, Some (Ok tt)) (λ _, Ok tt) (λ _, "2026-01-02").

Definition demo_host : Host Z :=
  mkHost (upsert demo_sha demo_tenant instance_state_default) (sessions_new 1000)
    (mkDurable {["a" := demo_tenant]} ∅ {["pool" := demo_pool PoolRunning]} ∅) [] 0.

Lemma demo_host_ok : host_ok demo_sha demo_host.
Proof.
  split; cbn.
  - apply store_upsert_inv, store_inv_default.
  - intros id m [<- <-]%lookup_singleton_Some. done.
  - apply exact_new.
Qed.
End PlacementDemo.

Import PlacementDemo.

Lemma pool_state_reaches_tenants_witness :
  ∃ row loaded,
    let h := (save_runtime StoreDemo.demo_sha demo_host_env (demo_pool PoolFailed) demo_host).2 in
    rows (durable h) !! "a" = Some row ∧ status row = Failed ∧
    instances (store h) !! "a" = Some loaded ∧ status loaded = Failed.
Proof.
  destruct (pool_state_reaches_tenants StoreDemo.demo_sha demo_host_env (demo_pool PoolFailed)
    demo_host (save_runtime StoreDemo.demo_sha demo_host_env (demo_pool PoolFailed) demo_host).2)
    as (_ & Ht & _).
  - apply demo_host_ok.
  - vm_compute. reflexivity.
  - destruct (Ht "a" demo_tenant) as (s & Hs & (row & Hr & Es) & x & Hx & Ex).
    + left. vm_compute. constructor.
    + reflexivity.
    + done.
    + assert (s = Failed) as ->
        by (eapply follows_unique; [exact Hs|by apply follows_pool; [..|constructor]]).
      exists row, x. done.
Defined.
