(* ===== verification/DiskRuntime.v ===== *)
(** * Stopping instances that outgrow their disk

    Models [daemon/soft_disk_limiter/runtime.rs], the daemon's implementation of
    the trait [SoftDiskRuntime] the limiter of [SoftLimiter] is written against,
    with [mark_shared_disk_blocked] of [server/placement/lifecycle/start_disk.rs],
    and the part of [daemon/soft_disk_limiter/targets.rs] that makes the targets
    out of the instances and pools.

    The operations run under the instance's lock and are functions on [Host].
    The lock itself, the caches [clear_runtime_caches] empties and the log are
    not part of the state. *)
From Stdlib Require Import Ascii.
From S2P Require Import Prelude Planner Engines DiskScan UsageTree SoftScan SoftLimiter.
From S2P Require Import RouteStore Sessions Placement.

Local Open Scope Z_scope.

(** ** Data directories *)

Definition is_ascii_alphanumeric (c : ascii) : bool :=
  let n := Z.of_nat (nat_of_ascii c) in
  ((48 <=? n) && (n <=? 57)) || ((65 <=? n) && (n <=? 90)) || ((97 <=? n) && (n <=? 122)).

Fixpoint all_bytes (f : ascii → bool) (s : string) : bool :=
  match s with String.EmptyString => true | String.String c s => f c && all_bytes f s end.

Definition validate_instance_id (value : string) : bool :=
  negb (bool_decide (value = ""))
  && all_bytes (λ c, is_ascii_alphanumeric c || bool_decide (c = "_"%char)
                     || bool_decide (c = "-"%char)) value.

(** [Path::is_absolute] and [Path::join] with a relative component. *)
Definition root_is_absolute (path : string) : bool :=
  match path with String.String c _ => bool_decide (c = "/"%char) | _ => false end.
Fixpoint ends_with_slash (path : string) : bool :=
  match path with
  | String.EmptyString => false
  | String.String c String.EmptyString => bool_decide (c = "/"%char)
  | String.String _ path => ends_with_slash path
  end.
Definition path_join (root child : string) : string :=
  if ends_with_slash root then root +:+ child else root +:+ "/" +:+ child.

(** The roots of [PathConfig], the first for the data of instances. *)
Record PathRoots := mkPathRoots { volumes_root : string; other_roots : list string }.

(** [InstancePaths::new], as far as the data directory goes: it fails if any
    root is relative.  A valid name is a single component, so the path is always
    inside its root. *)
Definition instance_data_path (roots : PathRoots) (id : string) : option string :=
  if validate_instance_id id && forallb root_is_absolute (volumes_root roots :: other_roots roots)
  then Some (path_join (volumes_root roots) id) else None.

(** ** Which targets are current *)

Definition soft_monitoring_required (m : InstanceMetadata) (global_mode : DiskLimitMode) : bool :=
  let legacy_qdrant_fuse :=
    fuse_quota_unsupported (protocol m)
    && bool_decide (disk_enforcement_method (limits m) = "fuse_quota") in
  enforcement_required global_mode (protocol m) || legacy_qdrant_fuse.

Definition instance_active (m : InstanceMetadata) : bool :=
  match status m with Running | Booting => true | _ => false end.
Definition pool_active (p : EngineRuntime) : bool :=
  match pool_status p with PoolRunning | PoolBooting => true | _ => false end.

Definition is_current_target (m : InstanceMetadata) (t : SoftDiskTarget)
    (global_mode : DiskLimitMode) : bool :=
  bool_decide (deployment_mode m = Dedicated)
  && bool_decide (instance_id m = SoftLimiter.instance_id t)
  && bool_decide (created_at m = SoftLimiter.created_at t)
  && bool_decide (protocol m = SoftLimiter.protocol t)
  && instance_active m
  && (mib_to_bytes (limit_disk_mib (limits m)) =? limit_bytes t)
  && soft_monitoring_required m global_mode.

Definition shared_disk_target_is_current (p : EngineRuntime) (t : SoftDiskTarget) : bool :=
  bool_decide (pool_mode p = SharedMode)
  && bool_decide (pool_id p = SoftLimiter.instance_id t)
  && bool_decide (pool_created_at p = SoftLimiter.created_at t)
  && bool_decide (pool_protocol p = SoftLimiter.protocol t)
  && pool_active p
  && (mib_to_bytes (limit_disk_mib (pool_limits p)) =? limit_bytes t).

(** The first loop of [sync_soft_disk_targets]. *)
Definition instance_candidate (roots : PathRoots) (mode : DiskLimitMode) (m : InstanceMetadata) :
    option SoftDiskTarget :=
  if negb (bool_decide (deployment_mode m = Dedicated)) || negb (instance_active m)
     || negb (soft_monitoring_required m mode)
  then None
  else
    path ← instance_data_path roots (instance_id m);
    Some (mkSoftDiskTarget (instance_id m) (created_at m) (protocol m) path
            (mib_to_bytes (limit_disk_mib (limits m))) (disk_limit_blocked m)).

Definition pool_candidate (roots : PathRoots) (mode : DiskLimitMode) (p : EngineRuntime) :
    option SoftDiskTarget :=
  if bool_decide (pool_mode p = SharedMode) && pool_active p
     && enforcement_required mode (pool_protocol p)
  then
    path ← instance_data_path roots (pool_id p);
    Some (mkSoftDiskTarget (pool_id p) (pool_created_at p) (pool_protocol p) path
            (mib_to_bytes (limit_disk_mib (pool_limits p))) false)
  else None.

(** ** The runtime *)

Definition GRACEFUL_STOP_TIMEOUT_PADDING : Z := from_secs 5.

Definition ignore_absent_container {A} (r : result ContainerError A) : result string unit :=
  match r with
  | Ok _ => Ok tt
  | Err (ContainerNotFound | ContainerNotRunning) => Ok tt
  | Err (ContainerFault error) => Err error
  end.

Section runtime.
Context {Sem : Type} `{Semaphore Sem}.
Context (password_route_sha256 : string → string) (env : HostEnv) (mode : DiskLimitMode).

(** Targets, with the previous ones if the pools cannot be listed. *)
Definition soft_disk_candidates (roots : PathRoots) (previous : list SoftDiskTarget)
    (h : Host Sem) : list SoftDiskTarget * Host Sem :=
  let dedicated := omap (instance_candidate roots mode) (map_to_list (instances (store h))).*2 in
  let '(pools, h) := query env (map_to_list (pool_rows (durable h))).*2 h in
  (dedicated ++ match pools with
                | Ok pools => omap (pool_candidate roots mode) pools
                | Err _ => previous
                end, h).

Definition mark_shared_disk_blocked (t : SoftDiskTarget) (h : Host Sem) :
    result string bool * Host Sem :=
  let '(found, h) := query env (pool_rows (durable h) !! SoftLimiter.instance_id t) h in
  match found with
  | Err error => (Err error, h)
  | Ok None => (Ok false, h)
  | Ok (Some p) =>
      if negb (shared_disk_target_is_current p t) then (Ok false, h)
      else
        let p := p <| pool_status := PoolFailed |>
                   <| pool_updated_at := now_rfc3339 env (asked h) |> in
        let '(_, h) := fence_runtime (pool_id p) h in
        let '(saved, h) := save_runtime password_route_sha256 env p h in
        (match saved with Ok _ => Ok true | Err error => Err error end, h)
  end.

Definition persist_disk_block (t : SoftDiskTarget) (h : Host Sem) : result string bool * Host Sem :=
  match instances (store h) !! SoftLimiter.instance_id t with
  | Some m =>
      if negb (is_current_target m t mode) then (Ok false, h)
      else
        let m := m <| desired_state := DesiredStopped |> <| disk_limit_blocked := true |>
                   <| updated_at := now_rfc3339 env (asked h) |> in
        let '(saved, h) := manager_upsert password_route_sha256 env m h in
        (match saved with
         | Ok _ => Ok true
         | Err error => Err ("failed to persist disk-limit stop intent: " +:+ error)
         end, h)
  | None => mark_shared_disk_blocked t h
  end.

Definition host_mark_disk_blocked (t : SoftDiskTarget) (_ : SoftDiskLimitExceeded) (h : Host Sem) :
    result string unit * Host Sem :=
  let '(marked, h) := persist_disk_block t h in
  (match marked with Ok _ => Ok tt | Err error => Err error end, h).

(** The container engine is asked to wait longer than the supervisor does. *)
Definition host_graceful_stop (t : SoftDiskTarget) (grace : Z) (h : Host Sem) :
    option (result string unit) * Host Sem :=
  let n := asked h in
  let timeout := sat_add duration_max grace GRACEFUL_STOP_TIMEOUT_PADDING in
  (ignore_absent_container <$> stop_answer env n,
   h <| asked := S n |>
     <| container_calls ::= cons (StopContainer (SoftLimiter.instance_id t) timeout) |>).

Definition host_force_kill (t : SoftDiskTarget) (h : Host Sem) : result string unit * Host Sem :=
  let n := asked h in
  (ignore_absent_container (kill_answer env n),
   h <| asked := S n |> <| container_calls ::= cons (KillContainer (SoftLimiter.instance_id t)) |>).

Definition host_clear_disk_blocked (t : SoftDiskTarget) (h : Host Sem) :
    result string unit * Host Sem :=
  match instances (store h) !! SoftLimiter.instance_id t with
  | None => (Ok tt, h)
  | Some m =>
      if negb (is_current_target m t mode) || negb (disk_limit_blocked m) then (Ok tt, h)
      else
        let m := m <| disk_limit_blocked := false |>
                   <| updated_at := now_rfc3339 env (asked h) |> in
        let '(saved, h) := manager_upsert password_route_sha256 env m h in
        (match saved with
         | Ok _ => Ok tt
         | Err error => Err ("failed to clear durable disk-limit block: " +:+ error)
         end, h)
  end.

(** [stop_with_kill_fallback] only makes the two container calls, so the
    method that uses it is given once the others are there. *)
Definition host_runtime_with
    (enforce : SoftDiskTarget → SoftDiskLimitExceeded → Z → Host Sem →
               result string StopOutcome * Host Sem) : SoftDiskRuntime (Host Sem) :=
  {| mark_disk_blocked := host_mark_disk_blocked;
     graceful_stop := host_graceful_stop;
     force_kill := host_force_kill;
     clear_disk_blocked := host_clear_disk_blocked;
     enforce_disk_stop := enforce |}.

Definition host_enforce_disk_stop (t : SoftDiskTarget) (_ : SoftDiskLimitExceeded) (grace : Z)
    (h : Host Sem) : result string StopOutcome * Host Sem :=
  let '(marked, h) := persist_disk_block t h in
  match marked with
  | Err error => (Err error, h)
  | Ok false => (Ok SkippedStale, h)
  | Ok true =>
      stop_with_kill_fallback
        (SoftDiskRuntime0 := host_runtime_with (λ _ _ _ h, (Ok SkippedStale, h))) t grace h
  end.

#[local] Instance host_runtime : SoftDiskRuntime (Host Sem) :=
  host_runtime_with host_enforce_disk_stop.

(** ** What a block leaves behind *)

(** The instance is to stay stopped, in memory and on disk, and is off the
    gateway. *)
Definition instance_blocked (id : string) (h : Host Sem) : Prop :=
  ∃ m row, instances (store h) !! id = Some m ∧ rows (durable h) !! id = Some row ∧
    desired_state m = DesiredStopped ∧ disk_limit_blocked m = true ∧
    desired_state row = DesiredStopped ∧ disk_limit_blocked row = true ∧
    off_gateway (store h) id.

(** The pool has failed on disk, and its tenants are off the gateway. *)
Definition pool_blocked (rid : string) (h : Host Sem) : Prop :=
  (∃ row, pool_rows (durable h) !! rid = Some row ∧ pool_status row = PoolFailed) ∧
  pool_off rid (store h).

(** [h'] is [h] with the target [id] blocked: an instance, or a pool whose
    tenants also lost their sessions. *)
Definition target_blocked (id : string) (h h' : Host Sem) : Prop :=
  instance_blocked id h' ∨
  (pool_blocked id h' ∧
   sessions_cut (store_tenants id h) (tenant_sessions h) (tenant_sessions h')).

(** Nothing but the count of requests differs. *)
Definition untouched (h h' : Host Sem) : Prop :=
  store h' = store h ∧ tenant_sessions h' = tenant_sessions h ∧ durable h' = durable h ∧
  container_calls h' = container_calls h.

Lemma untouched_ok h h' :
  untouched h h' → host_ok password_route_sha256 h → host_ok password_route_sha256 h'.
Proof. intros (Es & Ess & Ed & _) []. split; rewrite ?Es, ?Ess, ?Ed; done. Qed.

(** What the methods that do not call the container engine do. *)
Record no_container_call (h h' : Host Sem) : Prop := {
  no_call_ok : host_ok password_route_sha256 h';
  no_call_calls : container_calls h' = container_calls h;
}.

Lemma untouched_no_call h h' : host_ok password_route_sha256 h → untouched h h' → no_container_call h h'.
Proof. intros Hok Hu. split; [by eapply untouched_ok|apply Hu]. Qed.

(** Saving an instance that must not be routed. *)
Lemma manager_upsert_spec m h r h' :
  host_ok password_route_sha256 h → manager_upsert password_route_sha256 env m h = (r, h') →
  no_container_call h h' ∧
  (r = Ok tt → ∃ m' row, instances (store h') !! instance_id m = Some m' ∧
     rows (durable h') !! instance_id m = Some row ∧
     desired_state m' = desired_state m ∧ disk_limit_blocked m' = disk_limit_blocked m ∧
     desired_state row = desired_state m ∧ disk_limit_blocked row = disk_limit_blocked m) ∧
  (r ≠ Ok tt → store h' = store h) ∧
  (route_eligible m = false → ∀ k id, routed (store h') k id →
     routed (store h) k id ∧ (r = Ok tt → id ≠ instance_id m)).
Proof.
  intros Hok Hs. apply save_then_spec in Hs as (Ess & Ec & _ & Hcase).
  destruct (fill_runtime_id_fields m) as (Fi & _ & _ & Fd & Fb & _ & Fe).
  set (m2 := fill_runtime_id m) in *.
  destruct (instance_row_fields m2 (durable h)) as (Ri & _ & Rd & Rb).
  set (row := instance_row _ _) in *.
  assert (∀ i x, <[instance_id m := row]> (rows (durable h)) !! i = Some x → instance_id x = i) as Hrk.
  { intros i x [[<- <-]|[_ ?]]%lookup_insert_Some; [congruence|by apply (ok_rows _ _ Hok)]. }
  destruct Hcase as [(-> & Est & Er)|([e ->] & Est & Er)].
  - split_and!; [|intros _|done|].
    + split; [|done]. split; [rewrite Est; apply store_upsert_inv, (ok_store _ _ Hok)|by rewrite Er|].
      rewrite Ess. apply (ok_sessions _ _ Hok).
    + exists m2, row. rewrite Est, (proj1 (upsert_fields password_route_sha256 m2 _)), Er, Fi, !lookup_insert_eq.
      split_and!; congruence.
    + rewrite Est, <-Fe, <-Fi. intros He k id Hr.
      apply ineligible_upsert_routed in Hr as [? ?]; [done|done].
  - split_and!; [|done|done|].
    + split; [|done]. split; rewrite ?Est, ?Ess; [apply (ok_store _ _ Hok)| |apply (ok_sessions _ _ Hok)].
      destruct Er as [->| ->]; [apply (ok_rows _ _ Hok)|done].
    + by rewrite Est.
Qed.

(** Marking a pool. *)
Lemma mark_shared_spec t h r h' :
  host_ok password_route_sha256 h → mark_shared_disk_blocked t h = (r, h') →
  no_container_call h h' ∧ (∀ k id, routed (store h') k id → routed (store h) k id) ∧
  (r = Ok false → untouched h h') ∧
  (r = Ok true → target_blocked (SoftLimiter.instance_id t) h h').
Proof.
  intros Hok. unfold mark_shared_disk_blocked. destruct (query _ _ _) as [found h1] eqn:Hq.
  apply query_spec in Hq as (Es & Ess & Ed & Ec & Hf).
  assert (untouched h h1) as U1 by done. pose proof (untouched_ok _ _ U1 Hok) as Hok1.
  pose proof (untouched_no_call _ _ Hok U1) as Q1.
  assert (∀ k id, routed (store h1) k id → routed (store h) k id) as R1 by by rewrite Es.
  destruct Hf as [->|[e ->]]; [|intros [= <- <-]; done].
  destruct (pool_rows _ !! _) as [p|]; [|intros [= <- <-]; done].
  destruct (shared_disk_target_is_current p t) eqn:Hcur; cbn [negb]; [|intros [= <- <-]; done].
  assert (pool_id p = SoftLimiter.instance_id t) as <-.
  { unfold shared_disk_target_is_current in Hcur.
    rewrite !andb_true_iff, !bool_decide_eq_true in Hcur. naive_solver. }
  set (p' := _ <| pool_updated_at := _ |>). change (pool_id p') with (pool_id p).
  assert (pool_status p' ≠ PoolRunning) as Hp by done.
  pose proof (fence_runtime_cut _ (pool_id p) h1 Hok1) as [].
  assert (store_tenants (pool_id p) h1 = store_tenants (pool_id p) h) as Et
    by (unfold store_tenants; by rewrite Es).
  destruct (fence_runtime (pool_id p) h1) as [b h2]. cbn in *.
  destruct (save_runtime _ env p' h2) as [saved h3] eqn:Hsave.
  apply save_runtime_saved in Hsave as [[] Hdone]; [|done]. intros [= <- <-]. split_and!.
  - split; [done|congruence].
  - intros k id ?%saved_routes; [|done]. apply R1. by eapply cut_routes.
  - by destruct saved.
  - destruct saved as [[]|]; [|done]. intros _. right. split_and!; [split|].
    + by destruct (Hdone eq_refl) as [? _].
    + apply saved_off; [done|]. intros id m Hm Hs Hr k [_ Hn]%cut_routes. apply Hn.
      apply elem_of_store_tenants with password_route_sha256; [done|]. rewrite <-cut_instances. eauto.
    + rewrite saved_sessions, <-Et, <-Ess. done.
Qed.

Lemma is_current_id m t : is_current_target m t mode = true → instance_id m = SoftLimiter.instance_id t.
Proof.
  unfold is_current_target. rewrite !andb_true_iff, !bool_decide_eq_true. naive_solver.
Qed.

(** Marking an instance. *)
Lemma persist_instance_spec t m h r h' :
  host_ok password_route_sha256 h →
  instances (store h) !! SoftLimiter.instance_id t = Some m → persist_disk_block t h = (r, h') →
  no_container_call h h' ∧ (∀ k id, routed (store h') k id → routed (store h) k id) ∧
  (r = Ok false → untouched h h') ∧
  (r = Ok true → instance_blocked (SoftLimiter.instance_id t) h').
Proof.
  intros Hok Hm. unfold persist_disk_block. rewrite Hm.
  destruct (is_current_target m t mode) eqn:Hcur; cbn [negb]; [|intros [= <- <-]; split_and!;
    [by apply untouched_no_call|done|done|done]].
  apply is_current_id in Hcur as <-.
  set (m' := _ <| updated_at := _ |>). change (instance_id m) with (instance_id m') in *.
  assert (route_eligible m' = false) as He.
  { unfold route_eligible. cbn. by rewrite andb_false_r. }
  destruct (manager_upsert _ env m' h) as [saved h1] eqn:Hs.
  apply manager_upsert_spec in Hs as (Q & Hok1 & _ & Hr); [|done]. specialize (Hr He).
  intros [= <- <-]. split_and!; [done|intros k id ?; by apply Hr|by destruct saved|].
  destruct saved as [[]|]; [|done]. intros _.
  destruct (Hok1 eq_refl) as (m2 & row & Hm2 & Hrow & Hd & Hb & Hd' & Hb').
  exists m2, row. rewrite Hd, Hb, Hd', Hb'. split_and!; try done.
  intros k Hk. by destruct (Hr _ _ Hk) as [_ []].
Qed.

Lemma persist_spec t h r h' :
  host_ok password_route_sha256 h → persist_disk_block t h = (r, h') →
  no_container_call h h' ∧ (∀ k id, routed (store h') k id → routed (store h) k id) ∧
  (r = Ok false → untouched h h') ∧
  (r = Ok true → target_blocked (SoftLimiter.instance_id t) h h').
Proof.
  intros Hok Hp. destruct (instances (store h) !! SoftLimiter.instance_id t) as [m|] eqn:Hm.
  - destruct (persist_instance_spec _ _ _ _ _ Hok Hm Hp) as (? & ? & ? & Hb).
    split_and!; try done. intros Hr. left. auto.
  - revert Hp. unfold persist_disk_block. rewrite Hm. by apply mark_shared_spec.
Qed.

(** The measurement is out of date: the instance, or else the pool, of this name is
    not the one that was measured, or neither exists. *)
Definition stale_target (t : SoftDiskTarget) (h : Host Sem) : bool :=
  match instances (store h) !! SoftLimiter.instance_id t with
  | Some m => negb (is_current_target m t mode)
  | None =>
      match pool_rows (durable h) !! SoftLimiter.instance_id t with
      | Some p => negb (shared_disk_target_is_current p t)
      | None => true
      end
  end.

Lemma persist_stale t h r h' :
  persist_disk_block t h = (r, h') →
  if stale_target t h then untouched h h' ∧ r ≠ Ok true else r ≠ Ok false.
Proof.
  unfold persist_disk_block, stale_target.
  destruct (instances (store h) !! _) as [m|].
  - destruct (is_current_target m t mode); cbn [negb]; [|by intros [= <- <-]].
    destruct (manager_upsert _ _ _ _) as [[]]; by intros [= <- <-].
  - unfold mark_shared_disk_blocked. destruct (query _ _ _) as [found h1] eqn:Hq.
    apply query_spec in Hq as (Es & Ess & Ed & Ec & Hf).
    destruct Hf as [->|[e ->]]; [|intros [= <- <-]; repeat case_match; done].
    destruct (pool_rows _ !! _) as [p|]; [|by intros [= <- <-]].
    destruct (shared_disk_target_is_current p t); cbn [negb]; [|by intros [= <- <-]].
    destruct (fence_runtime _ _) as [b h2]. destruct (save_runtime _ _ _ _) as [[]]; by intros [= <- <-].
Qed.

(** ** Stopping *)

(** The container [id] is asked to stop, and then perhaps killed; no other call is
    made. *)
Definition asked_to_stop (id : string) (h h' : Host Sem) : Prop :=
  ∃ timeout, container_calls h' = StopContainer id timeout :: container_calls h
    ∨ container_calls h' = KillContainer id :: StopContainer id timeout :: container_calls h.

Lemma stop_spec t grace (h : Host Sem) r h' :
  stop_with_kill_fallback (SoftDiskRuntime0 := host_runtime_with (λ _ _ _ h, (Ok SkippedStale, h)))
    t grace h = (r, h') →
  store h' = store h ∧ tenant_sessions h' = tenant_sessions h ∧ durable h' = durable h ∧
  r ≠ Ok SkippedStale ∧ asked_to_stop (SoftLimiter.instance_id t) h h'.
Proof.
  unfold stop_with_kill_fallback, asked_to_stop. cbn. unfold host_graceful_stop, host_force_kill.
  repeat case_match; cbn in *; intros [= <- <-]; simplify_eq; cbn; split_and!; try done; eauto.
Qed.

Lemma target_blocked_same id h h1 h2 :
  store h2 = store h1 → tenant_sessions h2 = tenant_sessions h1 → durable h2 = durable h1 →
  target_blocked id h h1 → target_blocked id h h2.
Proof.
  intros Es Ess Ed. unfold target_blocked, instance_blocked, pool_blocked.
  by rewrite Es, Ess, Ed.
Qed.

Lemma enforce_spec t ex grace h r h' :
  host_ok password_route_sha256 h → enforce_disk_stop t ex grace h = (r, h') →
  host_ok password_route_sha256 h' ∧
  (∀ k id, routed (store h') k id → routed (store h) k id) ∧
  (container_calls h' = container_calls h ∨ target_blocked (SoftLimiter.instance_id t) h h') ∧
  (r = Ok SkippedStale → untouched h h' ∧ stale_target t h = true) ∧
  (stale_target t h = true → untouched h h') ∧
  (∀ o, r = Ok o → o ≠ SkippedStale → target_blocked (SoftLimiter.instance_id t) h h').
Proof.
  intros Hok. cbn. unfold host_enforce_disk_stop.
  destruct (persist_disk_block t h) as [marked h1] eqn:Hp. pose proof (persist_stale _ _ _ _ Hp) as Hst.
  apply persist_spec in Hp as ([] & Hr & Hf & Ht); [|done].
  destruct (stale_target t h).
  { destruct Hst as [Hu Hne]. destruct marked as [[]|e]; [done|intros [= <- <-]; split_and!; auto..].
    all: by intros ? [= <-]. }
  destruct marked as [[]|e]; [|done|by intros [= <- <-]; split_and!; auto].
  intros (Es & Ess & Ed & Hn & _)%stop_spec.
  pose proof (target_blocked_same _ h _ _ Es Ess Ed (Ht eq_refl)) as Hb.
  split_and!; auto; [|by rewrite Es|by intros ->|done].
  destruct no_call_ok0. split; rewrite ?Es, ?Ess, ?Ed; done.
Qed.

(** C12. A container is stopped only after its block is safe.  Whatever the
    database and the container engine answer: as soon as stopping a target has
    made a call to the container engine, the target is marked on disk to stay
    stopped (an instance) or failed (a pool), and no client is sent to it or to
    one of its tenants; the sessions of a pool's tenants are cancelled.  The
    same holds whenever the stop is reported done.  A target that is no longer
    current changes nothing, and only such a target is skipped; no client is ever
    sent to a place it was not sent to before. *)
Theorem containers_stop_after_block t ex grace h r h' :
  host_ok password_route_sha256 h → enforce_disk_stop t ex grace h = (r, h') →
  (container_calls h' ≠ container_calls h → target_blocked (SoftLimiter.instance_id t) h h') ∧
  (r = Ok Graceful ∨ r = Ok Forced → target_blocked (SoftLimiter.instance_id t) h h') ∧
  (r = Ok SkippedStale → untouched h h' ∧ stale_target t h = true) ∧
  (stale_target t h = true → untouched h h') ∧
  (∀ k id, routed (store h') k id → routed (store h) k id) ∧
  host_ok password_route_sha256 h'.
Proof.
  intros Hok He. destruct (enforce_spec _ _ _ _ _ _ Hok He) as (? & ? & Hc & ? & ? & Hd).
  split_and!; try done; [by intros ?; destruct Hc|]. by intros [-> | ->]; eapply Hd.
Qed.

(** ** Recovery *)

Lemma clear_spec t h r h' :
  host_ok password_route_sha256 h → clear_disk_blocked t h = (r, h') →
  no_container_call h h' ∧
  (∀ m, instances (store h) !! SoftLimiter.instance_id t = Some m →
     desired_state m = DesiredStopped →
     (∃ m', instances (store h') !! SoftLimiter.instance_id t = Some m' ∧
            desired_state m' = DesiredStopped) ∧
     (∀ k id, routed (store h') k id → routed (store h) k id)).
Proof.
  intros Hok. cbn. unfold host_clear_disk_blocked.
  destruct (instances (store h) !! _) as [m|] eqn:Hm; [|by intros [= <- <-]].
  destruct (is_current_target m t mode) eqn:Hcur; cbn [negb orb];
    [|intros [= <- <-]; split; [done|]; intros ? [= <-]; eauto].
  destruct (disk_limit_blocked m) eqn:Hb; cbn [negb orb];
    [|intros [= <- <-]; split; [done|]; intros ? [= <-]; eauto].
  apply is_current_id in Hcur. rewrite <-Hcur in *.
  set (m1 := _ <| updated_at := _ |>). change (instance_id m) with (instance_id m1) in *.
  destruct (manager_upsert _ env m1 h) as [saved h1] eqn:Hs.
  apply manager_upsert_spec in Hs as (Q & Hdone & Hsame & Hr); [|done].
  intros [= <- <-]. split; [done|]. intros ? [= <-] Hd.
  assert (route_eligible m1 = false) as He.
  { unfold route_eligible. cbn. rewrite Hd. by rewrite andb_false_r. }
  split; [|intros k id ?; by apply (Hr He)].
  destruct saved as [[]|e]; [|rewrite Hsame by done; by exists m].
  destruct (Hdone eq_refl) as (m2 & row & Hm2 & _ & Hd2 & _). exists m2. by rewrite Hd2.
Qed.

(** A recovered disk restarts nothing.  Clearing the block of an instance that
    the limiter stopped makes no call to the container engine, leaves the
    instance meant to stay stopped, and sends no client to it, whether or not
    the change could be saved. *)
Theorem recovery_keeps_stopped t h r h' :
  host_ok password_route_sha256 h → instance_blocked (SoftLimiter.instance_id t) h →
  clear_disk_blocked t h = (r, h') →
  (∃ m, instances (store h') !! SoftLimiter.instance_id t = Some m ∧
        desired_state m = DesiredStopped) ∧
  off_gateway (store h') (SoftLimiter.instance_id t) ∧
  container_calls h' = container_calls h.
Proof.
  intros Hok (m & row & Hm & _ & Hd & _ & _ & _ & Hoff) Hc.
  destruct (clear_spec _ _ _ _ Hok Hc) as [[] Hs]. destruct (Hs m Hm Hd) as [? Hr].
  split_and!; try done. intros k Hk%Hr. by apply (Hoff k).
Qed.

(** ** Targets made from the current state *)

Lemma instance_candidate_current roots m t :
  instance_candidate roots mode m = Some t →
  SoftLimiter.instance_id t = instance_id m ∧ is_current_target m t mode = true.
Proof.
  unfold instance_candidate. case_match eqn:Hc; [done|].
  destruct (instance_data_path roots _) as [path|]; [|done]. cbn. intros [= <-]. split; [done|].
  apply orb_false_iff in Hc as [[Hd%negb_false_iff Ha%negb_false_iff]%orb_false_iff Hm%negb_false_iff].
  unfold is_current_target. cbn. rewrite Hd, Ha, Hm, Z.eqb_refl.
  by rewrite !bool_decide_eq_true_2 by done.
Qed.

Lemma pool_candidate_current roots p t :
  pool_candidate roots mode p = Some t →
  SoftLimiter.instance_id t = pool_id p ∧ shared_disk_target_is_current p t = true.
Proof.
  unfold pool_candidate. case_match eqn:Hc; [|done].
  destruct (instance_data_path roots _) as [path|]; [|done]. cbn. intros [= <-]. split; [done|].
  apply andb_true_iff in Hc as [[Hs Ha]%andb_true_iff _].
  unfold shared_disk_target_is_current. cbn. rewrite Hs, Ha, Z.eqb_refl.
  by rewrite !bool_decide_eq_true_2 by done.
Qed.

(** A target just made is not stale.  A target made from the instances and
    pools of a state is recognised when it is to be stopped in that state: the
    stop either goes ahead or reports an error.  A pool must not have the name
    of an instance, and the pools must be readable. *)
Theorem fresh_targets_are_current roots ts h1 t ex grace h :
  host_ok password_route_sha256 h →
  (∀ rid p, pool_rows (durable h) !! rid = Some p →
     pool_id p = rid ∧ (pool_mode p = SharedMode → instances (store h) !! rid = None)) →
  read_error env (asked h) = None →
  soft_disk_candidates roots [] h = (ts, h1) → t ∈ ts →
  (enforce_disk_stop t ex grace h).1 ≠ Ok SkippedStale.
Proof.
  intros Hok Hpools Hread. unfold soft_disk_candidates, query. rewrite Hread. intros [= <- <-] Ht.
  cbn. unfold host_enforce_disk_stop.
  assert ((persist_disk_block t h).1 ≠ Ok false) as Hp; cycle 1.
  { destruct (persist_disk_block t h) as [marked h2]. destruct marked as [[]|]; try done.
    destruct (stop_with_kill_fallback _ _ _) as [r h3] eqn:E.
    by apply stop_spec in E as (_ & _ & _ & ? & _). }
  unfold persist_disk_block. apply elem_of_app in Ht as [Ht|Ht];
    apply list_elem_of_omap in Ht as (x & ([i y] & -> & Hx%elem_of_map_to_list)%list_elem_of_fmap & Hc);
    cbn in Hc.
  - apply instance_candidate_current in Hc as [-> Hcur].
    rewrite (inv_ids _ _ (ok_store _ _ Hok) _ _ Hx), Hx, Hcur. cbn [negb].
    by destruct (manager_upsert _ _ _ _) as [[]?].
  - apply pool_candidate_current in Hc as [Eid Hcur]. destruct (Hpools _ _ Hx) as [Ey Hno].
    rewrite Ey in Eid. unfold mark_shared_disk_blocked, query. rewrite Eid, Hno.
    + rewrite Hread, Hx, Hcur. cbn [negb].
      destruct (fence_runtime _ _) as [? h2]. by destruct (save_runtime _ _ _ _) as [[]?].
    + unfold shared_disk_target_is_current in Hcur.
      rewrite !andb_true_iff, !bool_decide_eq_true in Hcur. naive_solver.
Qed.

(** ** Scans *)

Context (powf : f64 → f64 → f64).

(** A scan asks the runtime for at most one thing. *)
Lemma stop_for_effect t snapshot reason l h r l' h' :
  stop_for t snapshot reason l h = (r, l', h') →
  ∃ ex grace stopped, enforce_disk_stop t ex grace h = (stopped, h') ∧
    ∀ s o, r = Ok (SoftLimiter.Stopped s o) → stopped = Ok o.
Proof.
  unfold stop_for. destruct (enforce_disk_stop _ _ _ h) as [stopped h1] eqn:E.
  intros [= <- <- <-]. do 3 eexists. split; [exact E|]. intros s o. by destruct stopped; intros [= _ ->].
Qed.

(** What enforcing the outcome of a scan can have done to the daemon. *)
Definition scan_effect (t : SoftDiskTarget) (h h' : Host Sem)
    (stopped_with : StopOutcome → Prop) : Prop :=
  (h' = h ∧ ∀ o, ¬ stopped_with o) ∨
  ((∃ r, clear_disk_blocked t h = (r, h')) ∧ ∀ o, ¬ stopped_with o) ∨
  (∃ ex grace stopped, enforce_disk_stop t ex grace h = (stopped, h') ∧
     ∀ o, stopped_with o → stopped = Ok o).

Lemma measured_effect now t usage l h r l' h' :
  enforce_measured_usage powf now t usage l h = (r, l', h') →
  scan_effect t h h' (λ o, ∃ s, r = Ok (SoftLimiter.Stopped s o)).
Proof.
  unfold enforce_measured_usage. destruct (record_sample _ _ _ _ _ _) as [d sts].
  destruct (recovered d).
  - destruct (clear_disk_blocked t h) as [cleared h1] eqn:E. intros [= <- <- <-].
    right; left. split; [by eexists|]. intros o [s Hs]. by destruct cleared.
  - destruct (negb (must_stop d) && negb (already_blocked d)).
    + intros [= <- <- <-]. left. split; [done|]. intros o [s Hs]. by destruct (warning d).
    + intros (ex & grace & stopped & E & Ho)%stop_for_effect. right; right. exists ex, grace, stopped.
      split; [exact E|]. intros o [s Hs]. by eapply Ho.
Qed.

Lemma unmeasured_effect now t error l h r l' h' :
  enforce_unmeasurable now t error l h = (r, l', h') ∨
  enforce_capacity_outage now t error l h = (r, l', h') →
  scan_effect t h h' (λ o, ∃ s, r = Ok (SoftLimiter.Stopped s o)).
Proof.
  intros Hu. assert ((h' = h ∧ ∃ e, r = Err e) ∨ ∃ snapshot reason l1, stop_for t snapshot reason l1 h = (r, l', h'))
    as [[-> [e ->]]|(snapshot & reason & l1 & Hs)].
  { destruct Hu as [Hu|Hu]; revert Hu; unfold enforce_unmeasurable, enforce_capacity_outage.
    - destruct (record_target_scan_failure t l) as [n l1]. case_match; [intros [= <- <- <-]; eauto|].
      destruct (blocked_scan_snapshot _ _ _ _) as [snapshot sts]. eauto.
    - case_match; [intros [= <- <- <-]; eauto|].
      destruct (blocked_scan_snapshot _ _ _ _) as [snapshot sts]. eauto. }
  - left. split; [done|]. by intros o [s Hs].
  - apply stop_for_effect in Hs as (ex & grace & stopped & E & Ho). right; right.
    exists ex, grace, stopped. split; [exact E|]. intros o [s Hs]. by eapply Ho.
Qed.

Lemma effect_blocks t h h' stopped_with :
  host_ok password_route_sha256 h → scan_effect t h h' stopped_with →
  host_ok password_route_sha256 h' ∧
  (container_calls h' ≠ container_calls h → target_blocked (SoftLimiter.instance_id t) h h') ∧
  (∀ o, stopped_with o → o ≠ SkippedStale → target_blocked (SoftLimiter.instance_id t) h h').
Proof.
  intros Hok [[-> Hno]|[[[r Hc] Hno]|(ex & grace & stopped & He & Ho)]].
  - split_and!; naive_solver.
  - destruct (clear_spec _ _ _ _ Hok Hc) as [[] _]. split_and!; naive_solver.
  - destruct (enforce_spec _ _ _ _ _ _ Hok He) as (? & _ & Hcalls & _ & _ & Hdone).
    split_and!; [done|by intros ?; destruct Hcalls|]. intros o Hs. apply Hdone. by apply Ho.
Qed.

(** A scan stops only what is off the gateway.  Whatever a scan of the limiter
    finds, measured or failed, over the daemon as its runtime: if it made a call
    to the container engine, or reports the target stopped, then the target is
    blocked on disk and neither it nor a tenant of it can be reached through the
    gateway. *)
Theorem scan_stops_only_blocked scanner_fingerprint message now t request run l h r l' h' :
  host_ok password_route_sha256 h →
  scan_hybrid_and_enforce powf scanner_fingerprint message now t request run l h = (r, l', h') →
  host_ok password_route_sha256 h' ∧
  (container_calls h' ≠ container_calls h → target_blocked (SoftLimiter.instance_id t) h h') ∧
  (∀ e s o, r = Ok e → execution_outcome e = SoftLimiter.Stopped s o → o ≠ SkippedStale →
     target_blocked (SoftLimiter.instance_id t) h h').
Proof.
  intros Hok Hs.
  assert (∃ stopped_with, scan_effect t h h' stopped_with ∧
    ∀ e s o, r = Ok e → execution_outcome e = SoftLimiter.Stopped s o → stopped_with o)
    as (stopped_with & He & Hout).
  { revert Hs. unfold scan_hybrid_and_enforce. destruct (scan_hybrid _ _ _ _ _ _) as [measured l1].
    destruct measured as [[[usage kind] root]|[error|error]].
    - destruct (enforce_measured_usage _ _ _ _ _ _) as [[r1 l2] h1] eqn:E. intros [= <- <- <-].
      eexists. split; [by eapply measured_effect|]. intros e s o. destruct r1; [|done].
      intros [= <-] Ho. eexists. by f_equal.
    - destruct (enforce_capacity_outage _ _ _ _ _) as [[r1 l2] h1] eqn:E. intros [= <- <- <-].
      eexists. split; [eapply unmeasured_effect; by right|]. intros e s o. destruct r1; [|done].
      intros [= <-] Ho. eexists. by f_equal.
    - destruct (enforce_unmeasurable _ _ _ _ _) as [[r1 l2] h1] eqn:E. intros [= <- <- <-].
      eexists. split; [eapply unmeasured_effect; by left|]. intros e s o. destruct r1; [|done].
      intros [= <-] Ho. eexists. by f_equal. }
  destruct (effect_blocks _ _ _ _ Hok He) as (? & ? & Hb). split_and!; [done..|].
  intros e s o Hr Ho. apply Hb. by eapply Hout.
Qed.

(** ** An instance that outgrew its disk *)

Lemma recovery_below_stop c p limit growth :
  (thresholds c p limit growth).2 ≤ (thresholds c p limit growth).1.
Proof. unfold thresholds, sat_sub. cbn. lia. Qed.

Lemma persist_succeeds t m h :
  instances (store h) !! SoftLimiter.instance_id t = Some m → is_current_target m t mode = true →
  runtime_id m = instance_id m → commits env (asked h) = Committed →
  (persist_disk_block t h).1 = Ok true.
Proof.
  intros Hm Hcur Hr Hc. unfold persist_disk_block. rewrite Hm, Hcur. cbn [negb].
  unfold manager_upsert, save_then, repository_upsert.
  set (m1 := _ <| updated_at := _ |>). destruct (fill_runtime_id_fields m1) as (Fi & _ & _ & _ & _ & Fr & _).
  assert (∃ d, upsert_protected_secrets (fill_runtime_id m1) (durable h) = Ok d) as [d ->].
  { unfold upsert_protected_secrets. case_bool_decide; [|by eexists].
    unfold save_dedicated_runtime. rewrite Fi, Fr, bool_decide_eq_true_2 by done. by eexists. }
  unfold transact. by rewrite Hc.
Qed.

(** C21. An instance at its stop threshold is stopped.  If a dedicated instance the
    daemon still knows is measured at or above its stop threshold and the
    database takes the block, then the instance is marked on disk to stay
    stopped and taken off the gateway, and its own container is asked to stop,
    then perhaps killed, and no other, whether or not the instance was held back
    before. *)
Theorem overgrown_instance_is_stopped now t m usage l h r l' h' :
  host_ok password_route_sha256 h →
  instances (store h) !! SoftLimiter.instance_id t = Some m → is_current_target m t mode = true →
  runtime_id m = instance_id m → commits env (asked h) = Committed →
  (stop_level powf (config l) now t usage (states l)).1 ≤ physical_bytes usage →
  enforce_measured_usage powf now t usage l h = (r, l', h') →
  instance_blocked (SoftLimiter.instance_id t) h' ∧
  asked_to_stop (SoftLimiter.instance_id t) h h'.
Proof.
  intros Hok Hm Hcur Hrt Hc Hstop.
  pose proof (persist_succeeds t m h Hm Hcur Hrt Hc) as Hp.
  unfold enforce_measured_usage.
  pose proof (record_sample_spec powf (config l) now t usage (states l)) as Hs.
  pose proof (recovery_below_stop (config l) (SoftLimiter.protocol t) (limit_bytes t)
    (growth_rate powf (tracked (states l) t) (physical_bytes usage) now
       (from_secs (Z.max (scan_interval_seconds (config l)) 1)))) as Hrec.
  unfold stop_level in Hs, Hstop. destruct (thresholds _ _ _ _) as [stop recovery]. cbn in Hstop, Hrec.
  destruct (record_sample _ _ _ _ _ _) as [d sts]. cbv zeta in Hs. destruct Hs as [Hcase _].
  assert (recovered d = false ∧ negb (must_stop d) && negb (already_blocked d) = false) as [-> ->].
  { destruct Hcase as [(_ & ? & _)|[(_ & _ & -> & -> & _)|[(_ & _ & -> & -> & _)|(_ & ? & _)]]];
      try lia; by rewrite ?andb_false_r. }
  unfold stop_for. cbn [enforce_disk_stop host_runtime host_runtime_with]. unfold host_enforce_disk_stop.
  destruct (persist_disk_block t h) as [marked h1] eqn:Hpe. cbn in Hp. subst marked.
  pose proof (persist_instance_spec _ _ _ _ _ Hok Hm Hpe) as ([_ Ecalls] & _ & _ & Hb).
  destruct (stop_with_kill_fallback _ _ _) as [stopped h2] eqn:Hst. intros [= _ _ <-].
  apply stop_spec in Hst as (Es & Ess & Ed & _ & Hl). split; [|unfold asked_to_stop in *; by rewrite <-Ecalls].
  unfold instance_blocked. rewrite Es, Ed. by apply Hb.
Qed.
End runtime.

(** ** A concrete daemon *)

Module DiskRuntimeDemo.
Import StoreDemo PlacementDemo.

Definition demo_dedicated : InstanceMetadata := demo_a <| deployment_mode := Dedicated |>.

Definition demo_stopped : InstanceMetadata :=
  demo_dedicated <| desired_state := DesiredStopped |> <| disk_limit_blocked := true |>.

Definition daemon_of (m : InstanceMetadata) : Host Z :=
  mkHost (upsert demo_sha m instance_state_default) (sessions_new 1000)
    (mkDurable {["a" := m]} ∅ ∅ ∅) [] 0.

Lemma daemon_ok m : instance_id m = "a" → host_ok demo_sha (daemon_of m).
Proof.
  intros Hm. split; cbn.
  - apply store_upsert_inv, store_inv_default.
  - by intros id x [<- <-]%lookup_singleton_Some.
  - apply exact_new.
Qed.

Definition demo_disk_target (id : string) : SoftDiskTarget :=
  mkSoftDiskTarget id "2026-01-01" Postgres ("/volumes/" +:+ id) (mib_to_bytes 10240) false.

Definition demo_excess : SoftDiskLimitExceeded :=
  mkExceeded (mkSnapshot usage_default 0 0 0 (f64_of_Z 0) (f64_of_Z 0) None true 0) UsageThreshold.

Lemma demo_stopped_blocked : instance_blocked "a" (daemon_of demo_stopped).
Proof.
  exists demo_stopped, demo_stopped. unfold daemon_of. cbn [store durable rows].
  rewrite (proj1 (upsert_fields demo_sha demo_stopped _)), lookup_singleton_eq.
  split_and!; [apply lookup_insert_eq|done..|].
  intros k Hk. apply ineligible_upsert_routed in Hk as [_ Hn]; [|reflexivity]. by apply Hn.
Qed.

(** The daemon as the runtime of the limiter, and what it is asked to do. *)
#[local] Instance demo_runtime : SoftDiskRuntime (Host Z) :=
  host_runtime demo_sha demo_host_env SoftScanner.

Definition demo_full_disk : DirectoryUsage :=
  usage_default <| physical_bytes := mib_to_bytes 10240 |>.
Definition demo_pool_stop : result string StopOutcome * Host Z :=
  enforce_disk_stop (demo_disk_target "pool") demo_excess (from_secs 30) demo_host.
(** One failed scan is enough. *)
Definition demo_strict_config : SoftDiskScannerConfig :=
  mkScannerConfig 15 true 90 500 512 2 32768 1000000 30 1 64 85 30.
Definition demo_scan : result LimiterError HybridScanExecution * SoftDiskLimiter * Host Z :=
  scan_hybrid_and_enforce (λ x _, x) (λ _, "") (λ _, "") 0 (demo_disk_target "a") StreamingFull
    (NoPermit "busy") (limiter_new demo_strict_config) (daemon_of demo_dedicated).
Definition demo_overgrown : result LimiterError ScanOutcome * SoftDiskLimiter * Host Z :=
  enforce_measured_usage (λ x _, x) 0 (demo_disk_target "a") demo_full_disk
    (limiter_new default_scanner_config) (daemon_of demo_dedicated).
Definition demo_recovered : result string unit * Host Z :=
  clear_disk_blocked (demo_disk_target "a") (daemon_of demo_stopped).
End DiskRuntimeDemo.

Import DiskRuntimeDemo.

Lemma containers_stop_after_block_witness :
  target_blocked "pool" PlacementDemo.demo_host demo_pool_stop.2.
Proof.
  destruct (containers_stop_after_block StoreDemo.demo_sha PlacementDemo.demo_host_env
    SoftScanner (demo_disk_target "pool") demo_excess (from_secs 30) PlacementDemo.demo_host
    (Ok Graceful) demo_pool_stop.2) as (_ & Hb & _).
  - apply PlacementDemo.demo_host_ok.
  - vm_compute. reflexivity.
  - apply Hb. by left.
Defined.

Lemma scan_stops_only_blocked_witness :
  target_blocked "a" (daemon_of demo_dedicated) demo_scan.2.
Proof.
  destruct (scan_stops_only_blocked StoreDemo.demo_sha PlacementDemo.demo_host_env SoftScanner
    (λ x _, x) (λ _, "") (λ _, "") 0 (demo_disk_target "a") StreamingFull (NoPermit "busy")
    (limiter_new demo_strict_config) (daemon_of demo_dedicated)
    demo_scan.1.1 demo_scan.1.2 demo_scan.2) as (_ & Hb & _).
  - by apply daemon_ok.
  - vm_compute. reflexivity.
  - apply Hb. vm_compute. intros [=].
Defined.

Lemma overgrown_instance_is_stopped_witness : instance_blocked "a" demo_overgrown.2.
Proof.
  destruct (overgrown_instance_is_stopped StoreDemo.demo_sha PlacementDemo.demo_host_env
    SoftScanner (λ x _, x) 0 (demo_disk_target "a") demo_dedicated demo_full_disk
    (limiter_new default_scanner_config) (daemon_of demo_dedicated)
    demo_overgrown.1.1 demo_overgrown.1.2 demo_overgrown.2) as [Hb _].
  - by apply daemon_ok.
  - vm_compute. reflexivity.
  - vm_compute. reflexivity.
  - reflexivity.
  - reflexivity.
  - vm_compute. intros [=].
  - vm_compute. reflexivity.
  - exact Hb.
Defined.

Lemma recovery_keeps_stopped_witness : off_gateway (store demo_recovered.2) "a".
Proof.
  destruct (recovery_keeps_stopped StoreDemo.demo_sha PlacementDemo.demo_host_env
    SoftScanner (demo_disk_target "a") (daemon_of demo_stopped) (Ok tt) demo_recovered.2)
    as (_ & Hoff & _).
  - by apply daemon_ok.
  - apply demo_stopped_blocked.
  - vm_compute. reflexivity.
  - exact Hoff.
Defined.
