(* ===== verification/SqlScan.v ===== *)
(** * The SQL scanner

    The bounded lexical scanner of
    [src/src/app/subsystems/import_export/inspection/sql/mod.rs]: the buffered
    byte input with its lookahead, the lexer with its comments, strings,
    quoted identifiers and dollar quotes, the statement buffer, and the loop
    that hands comments, tokens and statements to an observer. The policies
    that observe a scan are modelled in [SqlPolicy] and [SqlImport].

    The lexer works on the bytes that are left to read. [ByteInput] is the
    input the code keeps, and [byte_next_contents] and [peek_n_contents] show
    that its [next] and [peek_n] return the head and the [n]-th of those
    bytes, whatever the sizes of the reads. The readers are in-memory cursors,
    which do not fail; the error of a failing read is not modelled. *)
From Stdlib Require Import Strings.Byte.
From S2P Require Import Prelude Bytes Engines.

Local Open Scope Z_scope.

(** ** The limits *)

Definition MAX_ARCHIVE_DEPTH : Z := 32.
Definition MAX_IDENTIFIER_BYTES : Z := 128.
Definition MAX_SQL_TOKENS_PER_STATEMENT : nat := 4096.
Definition MAX_CAPTURED_COMMENT_BYTES : Z := 64 * 1024.
Definition MAX_DOLLAR_TAG_BYTES : nat := 64.
Definition SQL_READ_BUFFER_BYTES : Z := 64 * 1024.

Inductive InspectionError :=
  | Invalid (message : string)
  | Limit (message : string).

(** ** The classes of [u8] *)

Definition ascii_digit : byte → bool := between 48 57.
Definition ascii_alphabetic (b : byte) : bool := between 65 90 b || between 97 122 b.
Definition ascii_alphanumeric (b : byte) : bool := ascii_digit b || ascii_alphabetic b.
Definition ascii_control (b : byte) : bool := between 0 31 b || (b2z b =? 127).

(** [u8::is_ascii_whitespace]: space, tab, line feed, form feed, carriage
    return (and not vertical tab). *)
Definition ascii_whitespace (b : byte) : bool :=
  match b2z b with 32 | 9 | 10 | 12 | 13 => true | _ => false end.

(** [u8::to_ascii_uppercase]. *)
Definition to_ascii_uppercase (b : byte) : byte :=
  if between 97 122 b then z2b (b2z b - 32) else b.
Definition uppercase (w : bytes) : bytes := to_ascii_uppercase <$> w.

Definition is_byte (c b : byte) : bool := bool_decide (b = c).

(** The next byte is [c]. *)
Definition peek_is (c : byte) (input : bytes) : bool :=
  match input with [] => false | b :: _ => is_byte c b end.

Definition is_word_byte (b : byte) : bool :=
  ascii_alphanumeric b || is_byte "_" b || is_byte "$" b || is_byte "-" b.

(** [is_any_keyword]. *)
Definition is_any_keyword (word : bytes) (expected : list string) : bool :=
  existsb (λ candidate, eq_ignore_ascii_case word (lit candidate)) expected.

(** ** The buffered input

    [reader] lists what the successive reads of the reader deliver; [window]
    is the part of the buffer between [start] and [end]. *)
Record ByteInput := mkByteInput {
  reader : list bytes;
  window : bytes;
  lookahead : bytes;
}.
#[export] Instance ByteInput_eta : Settable ByteInput :=
  λ r, mkByteInput r.(reader) r.(window) r.(lookahead).

Definition byte_input_new (chunks : list bytes) : ByteInput :=
  {| reader := chunks; window := []; lookahead := [] |}.

Definition next_buffer_byte (i : ByteInput) : option byte * ByteInput :=
  match i.(window) with
  | b :: rest => (Some b, i <| window := rest |>)
  | [] =>
      match i.(reader) with
      | [] => (None, i)
      | [] :: chunks => (None, i <| reader := chunks |>)
      | (b :: rest) :: chunks => (Some b, i <| reader := chunks |> <| window := rest |>)
      end
  end.

Definition byte_next (i : ByteInput) : option byte * ByteInput :=
  match i.(lookahead) with
  | b :: rest => (Some b, i <| lookahead := rest |>)
  | [] => next_buffer_byte i
  end.

(** The loop of [peek_n]: [missing] bytes are still to be fetched. *)
Fixpoint fill_lookahead (missing : nat) (i : ByteInput) : bool * ByteInput :=
  match missing with
  | O => (true, i)
  | S missing =>
      match next_buffer_byte i with
      | (None, i) => (false, i)
      | (Some b, i) => fill_lookahead missing (i <| lookahead ::= (λ l, l ++ [b]) |>)
      end
  end.

Definition peek_n (index : nat) (i : ByteInput) : option byte * ByteInput :=
  match fill_lookahead (S index - length i.(lookahead)) i with
  | (true, i) => (i.(lookahead) !! index, i)
  | (false, i) => (None, i)
  end.

(** ** Tokens and comments *)

Inductive SqlToken :=
  | Identifier (word : bytes)
  | QuotedIdentifier (word : bytes)
  | OversizedIdentifier
  | Dot | Backslash | OpenParen | CloseParen | Equal | Semicolon | Other.
#[export] Instance SqlToken_eq_dec : EqDecision SqlToken.
Proof. solve_decision. Defined.

Record SqlComment := mkSqlComment {
  comment_bytes : bytes;
  comment_truncated : bool;
}.

Inductive LexEvent :=
  | EvToken (token : SqlToken)
  | EvComment (comment : SqlComment).

Definition capture_comment_byte (b : byte) (c : SqlComment) : SqlComment :=
  if zlength c.(comment_bytes) <? MAX_CAPTURED_COMMENT_BYTES
  then mkSqlComment (c.(comment_bytes) ++ [to_ascii_lowercase b]) c.(comment_truncated)
  else mkSqlComment c.(comment_bytes) true.

Definition empty_comment : SqlComment := mkSqlComment [] false.

Fixpoint read_line_comment (c : SqlComment) (input : bytes) : SqlComment * bytes :=
  match input with
  | [] => (c, [])
  | b :: rest =>
      if is_byte x0a b then (c, rest) else read_line_comment (capture_comment_byte b c) rest
  end.

Fixpoint read_block_comment (depth : Z) (c : SqlComment) (input : bytes) :
    result InspectionError (SqlComment * bytes) :=
  match input with
  | [] => Err (Invalid "SQL dump has an unterminated comment")
  | b :: rest =>
      match rest with
      | b' :: rest' =>
          if is_byte "/" b && is_byte "*" b' then
            if MAX_ARCHIVE_DEPTH <? depth + 1
            then Err (Limit "SQL comment nesting is too deep")
            else read_block_comment (depth + 1) c rest'
          else if is_byte "*" b && is_byte "/" b' then
            if depth - 1 =? 0 then Ok (c, rest') else read_block_comment (depth - 1) c rest'
          else read_block_comment depth (capture_comment_byte b c) rest
      | [] => read_block_comment depth (capture_comment_byte b c) rest
      end
  end.

Fixpoint skip_string (backslash_escapes : bool) (input : bytes) :
    result InspectionError bytes :=
  match input with
  | [] => Err (Invalid "SQL dump has an unterminated string")
  | b :: rest =>
      if is_byte "\" b && backslash_escapes then
        match rest with
        | [] => Err (Invalid "SQL dump has an unterminated string")
        | _ :: rest => skip_string backslash_escapes rest
        end
      else if is_byte "'" b then
        match rest with
        | [] => Ok []
        | b' :: rest' =>
            if is_byte "'" b' then skip_string backslash_escapes rest' else Ok rest
        end
      else skip_string backslash_escapes rest
  end.

(** An identifier being read: its bytes and whether it is oversized. *)
Definition push_identifier_byte (b : byte) (id : bytes * bool) :
    result InspectionError (bytes * bool) :=
  if is_nul b || ascii_control b
  then Err (Invalid "SQL object identifier contains a control character")
  else if zlength id.1 <? MAX_IDENTIFIER_BYTES then Ok (id.1 ++ [b], id.2)
  else Ok (id.1, true).

(** The identifier as its reader returns it: [None] when oversized. *)
Definition finish_identifier (message : string) (id : bytes * bool) :
    result InspectionError (option bytes) :=
  if id.2 then Ok None
  else if valid_utf8 id.1 then Ok (Some id.1) else Err (Invalid message).

Fixpoint read_quoted_identifier (quote : byte) (id : bytes * bool) (input : bytes) :
    result InspectionError (option bytes * bytes) :=
  match input with
  | [] => Err (Invalid "SQL dump has an unterminated quoted identifier")
  | b :: rest =>
      if is_byte quote b then
        match rest with
        | [] =>
            word ← finish_identifier "SQL dump contains a non-UTF-8 object identifier" id;
            Ok (word, [])
        | b' :: rest' =>
            if is_byte quote b' then
              id ← push_identifier_byte quote id;
              read_quoted_identifier quote id rest'
            else
              word ← finish_identifier "SQL dump contains a non-UTF-8 object identifier" id;
              Ok (word, rest)
        end
      else
        id ← push_identifier_byte b id;
        read_quoted_identifier quote id rest
  end.

Fixpoint read_word_bytes (id : bytes * bool) (input : bytes) :
    result InspectionError ((bytes * bool) * bytes) :=
  match input with
  | [] => Ok (id, [])
  | b :: rest =>
      if is_word_byte b then id ← push_identifier_byte b id; read_word_bytes id rest
      else Ok (id, input)
  end.

Definition read_word (first : byte) (input : bytes) :
    result InspectionError (option bytes * bytes) :=
  id ← push_identifier_byte first ([], false);
  '(id, rest) ← read_word_bytes id input;
  word ← finish_identifier "SQL dump contains an invalid SQL token" id;
  Ok (word, rest).

(** The tag of a dollar quote with its closing dollar, among the next
    [indices] bytes, and what follows it. *)
Fixpoint dollar_tag (indices : nat) (input : bytes) : option (bytes * bytes) :=
  match indices with
  | O => None
  | S indices =>
      match input with
      | [] => None
      | b :: rest =>
          if is_byte "$" b then Some ([b], rest)
          else if negb (ascii_alphanumeric b || is_byte "_" b) then None
          else '(tag, rest) ← dollar_tag indices rest; Some (b :: tag, rest)
      end
  end.

Definition try_dollar_delimiter (input : bytes) : option (bytes * bytes) :=
  '(tag, rest) ← dollar_tag (S MAX_DOLLAR_TAG_BYTES) input;
  Some ("$"%byte :: tag, rest).

Fixpoint skip_dollar_string (delimiter : bytes) (matched : nat) (input : bytes) :
    result InspectionError bytes :=
  match input with
  | [] => Err (Invalid "SQL dump has an unterminated dollar-quoted string")
  | b :: rest =>
      if bool_decide (delimiter !! matched = Some b) then
        if bool_decide (S matched = length delimiter) then Ok rest
        else skip_dollar_string delimiter (S matched) rest
      else skip_dollar_string delimiter
             (if bool_decide (delimiter !! 0%nat = Some b) then 1 else 0)%nat rest
  end.

Definition punctuation (b : byte) : SqlToken :=
  if is_byte "." b then Dot
  else if is_byte "\" b then Backslash
  else if is_byte "(" b then OpenParen
  else if is_byte ")" b then CloseParen
  else if is_byte "=" b then Equal
  else if is_byte ";" b then Semicolon
  else Other.

Definition word_token (quoted : bool) (word : option bytes) : SqlToken :=
  match word with
  | None => OversizedIdentifier
  | Some w => if quoted then QuotedIdentifier w else Identifier w
  end.

(** A word, or the string that follows the prefix [E]. *)
Definition word_event (first : byte) (input : bytes) :
    result InspectionError (option (LexEvent * bytes)) :=
  '(word, rest) ← read_word first input;
  if default false ((λ w, eq_ignore_ascii_case w (lit "E")) <$> word) && peek_is "'" rest then
    rest ← skip_string true (tail rest);
    Ok (Some (EvToken Other, rest))
  else Ok (Some (EvToken (word_token false word), rest)).

Fixpoint next_event (backslash_strings : bool) (input : bytes) :
    result InspectionError (option (LexEvent * bytes)) :=
  match input with
  | [] => Ok None
  | b :: rest =>
      if is_nul b
      then Err (Invalid "SQL dump contains binary data outside a supported dump section")
      else if ascii_whitespace b then next_event backslash_strings rest
      else if is_byte "-" b && peek_is "-" rest then
        let '(c, rest) := read_line_comment empty_comment (tail rest) in
        Ok (Some (EvComment c, rest))
      else if is_byte "#" b then
        let '(c, rest) := read_line_comment empty_comment rest in
        Ok (Some (EvComment c, rest))
      else if is_byte "/" b && peek_is "*" rest then
        '(c, rest) ← read_block_comment 1 empty_comment (tail rest);
        Ok (Some (EvComment c, rest))
      else if is_byte "'" b then
        rest ← skip_string backslash_strings rest;
        Ok (Some (EvToken Other, rest))
      else if is_byte x22 b || is_byte "`" b then
        '(word, rest) ← read_quoted_identifier b ([], false) rest;
        Ok (Some (EvToken (word_token true word), rest))
      else
        match (if is_byte "$" b then try_dollar_delimiter rest else None) with
        | Some (delimiter, rest) =>
            rest ← skip_dollar_string delimiter 0 rest;
            Ok (Some (EvToken Other, rest))
        | None =>
            if is_word_byte b then word_event b rest
            else Ok (Some (EvToken (punctuation b), rest))
        end
  end.

(** [skip_postgres_copy_data]: [line] keeps the first three bytes of the
    current line. *)
Definition strip_cr (line : bytes) : bytes :=
  match rev line with
  | b :: front => if is_byte x0d b then rev front else line
  | [] => line
  end.

Fixpoint skip_postgres_copy_data (line : bytes) (input : bytes) :
    result InspectionError bytes :=
  match input with
  | [] => Err (Invalid "PostgreSQL COPY data is missing its terminator")
  | b :: rest =>
      if is_byte x0a b then
        if bool_decide (strip_cr line = lit "\.") then Ok rest
        else skip_postgres_copy_data [] rest
      else skip_postgres_copy_data (if (length line <? 3)%nat then line ++ [b] else line) rest
  end.

(** ** Statements *)

Record Statement := mkStatement {
  tokens : list SqlToken;
  previous_identifier_was_from : bool;
  copy_from_stdin : bool;
  stmt_truncated : bool;
}.
#[export] Instance Statement_eta : Settable Statement :=
  λ r, mkStatement r.(tokens) r.(previous_identifier_was_from) r.(copy_from_stdin)
         r.(stmt_truncated).

Definition statement_default : Statement := mkStatement [] false false false.

Definition statement_push (token : SqlToken) (st : Statement) : Statement :=
  let st :=
    match token with
    | Identifier w =>
        st <| copy_from_stdin ::=
                (λ c, c || (st.(previous_identifier_was_from)
                            && eq_ignore_ascii_case w (lit "STDIN"))) |>
           <| previous_identifier_was_from := eq_ignore_ascii_case w (lit "FROM") |>
    | QuotedIdentifier _ | Other => st
    | _ => st <| previous_identifier_was_from := false |>
    end in
  if (length st.(tokens) <? MAX_SQL_TOKENS_PER_STATEMENT)%nat
  then st <| tokens ::= (λ ts, ts ++ [token]) |>
  else st <| stmt_truncated := true |>.

Definition identifier_at (ts : list SqlToken) (index : nat) : option bytes :=
  match ts !! index with
  | Some (Identifier w) | Some (QuotedIdentifier w) => Some w
  | _ => None
  end.

(** ** The scan *)

(** Why a bounded run stops: with an error of the code, or because the bound
    on its steps is used up. *)
Inductive Stop (E : Type) :=
  | Failed (e : E)
  | OutOfFuel.
Arguments Failed {E} _.
Arguments OutOfFuel {E}.

(** The trait [SqlObserver], with the conversion from [InspectionError]. *)
Record SqlObserver (Obs E : Type) := mkSqlObserver {
  on_comment : SqlComment → Obs → result (Stop E) Obs;
  on_token : SqlToken → Obs → result (Stop E) Obs;
  on_statement : Protocol → Statement → Obs → result (Stop E) Obs;
  from_inspection : InspectionError → E;
}.
Arguments on_comment {Obs E} _ _ _.
Arguments on_token {Obs E} _ _ _.
Arguments on_statement {Obs E} _ _ _ _.
Arguments from_inspection {Obs E} _ _.

Definition sql_backslash_strings (p : Protocol) : bool :=
  match p with Mysql | Mariadb | Clickhouse => true | _ => false end.

Definition is_postgres_family (p : Protocol) : bool :=
  match family p with FamPostgres => true | _ => false end.
Definition is_mysql_family (p : Protocol) : bool :=
  match family p with FamMysql => true | _ => false end.
Definition is_columnar_family (p : Protocol) : bool :=
  match family p with FamColumnar => true | _ => false end.

Section scan.
Context {Obs E : Type} (observer : SqlObserver Obs E) (protocol : Protocol).

Definition sql_inspected {A} (m : result InspectionError A) : result (Stop E) A :=
  result_map_err (λ e, Failed (from_inspection observer e)) m.

(** [Statement::finish]: whether COPY data follows, and the cleared
    statement. *)
Definition statement_finish (st : Statement) (o : Obs) : result (Stop E) (bool * Statement * Obs) :=
  match st.(tokens) with
  | [] => Ok (false, st, o)
  | _ =>
      o ← on_statement observer protocol st o;
      let first_is_copy :=
        default false ((λ w, eq_ignore_ascii_case w (lit "COPY")) <$> identifier_at st.(tokens) 0) in
      Ok (is_postgres_family protocol && first_is_copy && st.(copy_from_stdin),
          statement_default, o)
  end.

Fixpoint scan_events (fuel : nat) (input : bytes) (st : Statement) (o : Obs) :
    result (Stop E) Obs :=
  match fuel with
  | O => Err OutOfFuel
  | S fuel =>
      event ← sql_inspected (next_event (sql_backslash_strings protocol) input);
      match event with
      | None => '(_, o) ← statement_finish st o; Ok o
      | Some (EvComment c, input) =>
          o ← on_comment observer c o; scan_events fuel input st o
      | Some (EvToken Semicolon, input) =>
          '(copy_data, st, o) ← statement_finish st o;
          if copy_data : bool then
            input ← sql_inspected (skip_postgres_copy_data [] input);
            scan_events fuel input st o
          else scan_events fuel input st o
      | Some (EvToken token, input) =>
          o ← on_token observer token o; scan_events fuel input (statement_push token st) o
      end
  end.

Definition scan_sql_reader (sql : bytes) (o : Obs) : result (Stop E) Obs :=
  scan_events (S (length sql)) sql statement_default o.
End scan.

(** ** The buffered input delivers the bytes of the reader *)

(** A reader delivers non-empty reads until its end. *)
Definition input_wf (i : ByteInput) : Prop := Forall (λ chunk, chunk ≠ []) i.(reader).

(** The bytes that are left to read. *)
Definition input_contents (i : ByteInput) : bytes := i.(lookahead) ++ i.(window) ++ concat i.(reader).

Lemma next_buffer_byte_spec i :
  input_wf i →
  let '(o, i') := next_buffer_byte i in
  input_wf i' ∧ i'.(lookahead) = i.(lookahead)
  ∧ match o with
    | Some b => i.(window) ++ concat i.(reader) = b :: i'.(window) ++ concat i'.(reader)
    | None => i.(window) ++ concat i.(reader) = [] ∧ i' = i
    end.
Proof.
  unfold input_wf, next_buffer_byte. destruct i as [chunks [|b w] l]; simpl.
  - destruct chunks as [|[|b c] chunks]; simpl; intros H; [done| |].
    + by inversion H.
    + by inversion H.
  - done.
Qed.

Theorem byte_next_contents i :
  input_wf i →
  let '(o, i') := byte_next i in
  input_wf i' ∧ o = head (input_contents i) ∧ input_contents i' = tail (input_contents i).
Proof.
  intros Hwf. unfold byte_next, input_contents. destruct i as [chunks w [|b l]]; simpl.
  - pose proof (next_buffer_byte_spec (mkByteInput chunks w []) Hwf) as H.
    destruct (next_buffer_byte _) as [[b|] i']; simpl in H; destruct H as (Hwf' & Hl & H).
    + rewrite Hl, H. done.
    + destruct H as [H ->]. simpl. rewrite H. done.
  - done.
Qed.

Lemma fill_lookahead_spec missing i :
  input_wf i →
  let '(full, i') := fill_lookahead missing i in
  input_wf i' ∧ input_contents i' = input_contents i
  ∧ (if full : bool then length i'.(lookahead) = (length i.(lookahead) + missing)%nat
     else i'.(lookahead) = input_contents i ∧ (length (input_contents i) < length i.(lookahead) + missing)%nat).
Proof.
  revert i. induction missing as [|m IH]; intros i Hwf; cbn [fill_lookahead].
  - split; [done|]. split; [done|lia].
  - pose proof (next_buffer_byte_spec i Hwf) as H.
    destruct (next_buffer_byte i) as [[b|] i']; destruct H as (Hwf' & Hl & H).
    + set (j := i' <| lookahead ::= (λ l, l ++ [b]) |>).
      assert (Hi : input_contents j = input_contents i).
      { unfold input_contents at 1. simpl. rewrite Hl, <-(app_assoc _ [b]). unfold input_contents.
        by rewrite H. }
      specialize (IH j Hwf').
      destruct (fill_lookahead m j) as [full i'']. destruct IH as (Hwf'' & Hc & Hf).
      rewrite Hi in Hc, Hf. split; [done|]. split; [done|].
      simpl in Hf. rewrite length_app in Hf. simpl in Hf. rewrite Hl in Hf.
      destruct full; [lia|]. destruct Hf. split; [done|lia].
    + destruct H as [H ->]. split; [done|]. split; [done|].
      unfold input_contents. rewrite H, app_nil_r. split; [done|lia].
Qed.

Theorem peek_n_contents index i :
  input_wf i →
  let '(o, i') := peek_n index i in
  input_wf i' ∧ o = input_contents i !! index ∧ input_contents i' = input_contents i.
Proof.
  intros Hwf. unfold peek_n. set (missing := (S index - length i.(lookahead))%nat).
  pose proof (fill_lookahead_spec missing i Hwf) as H.
  destruct (fill_lookahead missing i) as [[] i']; destruct H as (Hwf' & Hc & H); split; try done.
  - split; [|done]. rewrite <-Hc. unfold input_contents. rewrite lookup_app_l; [done|]. lia.
  - destruct H as [_ H]. split; [|done]. symmetry. apply lookup_ge_None_2.
    assert (length i.(lookahead) ≤ length (input_contents i))%nat
      by (unfold input_contents; rewrite length_app; lia). lia.
Qed.

(** ** Every event consumes input *)

Lemma capture_comment_byte_length b c :
  (length (capture_comment_byte b c).(comment_bytes) <= S (length c.(comment_bytes)))%nat.
Proof. unfold capture_comment_byte. case_match; simpl; rewrite ?length_app; simpl; lia. Qed.

Lemma read_line_comment_length c input :
  let '(c', rest) := read_line_comment c input in
  (length c'.(comment_bytes) + length rest <= length c.(comment_bytes) + length input)%nat.
Proof.
  revert c. induction input as [|b input IH]; intros c; simpl; [lia|].
  destruct (is_byte x0a b); [lia|]. specialize (IH (capture_comment_byte b c)).
  pose proof (capture_comment_byte_length b c). destruct (read_line_comment _ _). lia.
Qed.

(** Induction on the length of the input, for the loops that consume one or
    two bytes a turn. *)
Lemma length_ind {A} (P : list A → Prop) :
  (∀ l, (∀ l', (length l' < length l)%nat → P l') → P l) → ∀ l, P l.
Proof.
  intros H l. remember (length l) as n eqn:Hn. revert l Hn.
  induction (lt_wf n) as [n _ IH]; intros l ->. apply H. intros l' Hl. by eapply IH.
Qed.

Lemma read_block_comment_length depth c input c' rest :
  read_block_comment depth c input = Ok (c', rest) →
  (length c'.(comment_bytes) + length rest < length c.(comment_bytes) + length input)%nat.
Proof.
  revert depth c. induction input as [input IH] using length_ind; intros depth c.
  destruct input as [|b input]; cbn [read_block_comment]; [done|]. intros H.
  pose proof (capture_comment_byte_length b c) as Hc.
  destruct input as [|b' input]; [done|]. repeat case_match; try done.
  all: first [apply IH in H; [|simpl; lia]; simpl in *; lia | simplify_eq/=; lia].
Qed.

Lemma skip_string_length e input rest :
  skip_string e input = Ok rest → (length rest < length input)%nat.
Proof.
  induction input as [input IH] using length_ind.
  destruct input as [|b input]; cbn [skip_string]; [done|]. destruct input as [|b' input].
  - repeat case_match; intros; simplify_eq/=; lia.
  - intros H. repeat case_match; simplify_eq.
    all: first [apply IH in H; [|simpl; lia]; simpl in *; lia | simpl; lia].
Qed.

Lemma read_quoted_identifier_length q id input word rest :
  read_quoted_identifier q id input = Ok (word, rest) → (length rest < length input)%nat.
Proof.
  revert id. induction input as [input IH] using length_ind; intros id.
  destruct input as [|b input]; cbn [read_quoted_identifier]; [done|]; intros H.
  destruct input as [|b' input].
  - case_match; apply bind_Ok in H as (? & _ & H); simplify_eq/=; lia.
  - repeat case_match; apply bind_Ok in H as (? & _ & H).
    all: first [apply IH in H; [|simpl; lia]; simpl in *; lia | simplify_eq/=; lia].
Qed.

Lemma read_word_bytes_length id input id' rest :
  read_word_bytes id input = Ok (id', rest) → (length rest <= length input)%nat.
Proof.
  revert id. induction input as [|b input IH]; intros id; simpl; [intros; simplify_eq/=; lia|].
  case_match; [|intros; simplify_eq/=; lia].
  intros (? & _ & Hw)%bind_Ok. apply IH in Hw. lia.
Qed.

Lemma read_word_length b input word rest :
  read_word b input = Ok (word, rest) → (length rest <= length input)%nat.
Proof.
  unfold read_word. intros (id & _ & H)%bind_Ok. apply bind_Ok in H as ([id' r] & Hw & H).
  apply bind_Ok in H as (? & _ & H). simplify_eq. by eapply read_word_bytes_length.
Qed.

Lemma dollar_tag_length n input tag rest :
  dollar_tag n input = Some (tag, rest) → (length rest < length input)%nat.
Proof.
  revert input tag. induction n as [|n IH]; intros [|b input] tag; simpl; [done..|].
  repeat case_match; try done; intros Ht.
  - simplify_eq. lia.
  - apply bind_Some in Ht as ([tag' r] & Ht & Hr). simplify_eq. apply IH in Ht. lia.
Qed.

Lemma skip_dollar_string_length d m input rest :
  skip_dollar_string d m input = Ok rest → (length rest < length input)%nat.
Proof.
  revert m. induction input as [|b input IH]; intros m; simpl; [done|].
  repeat case_match; intros Hs; simplify_eq; first [apply IH in Hs; lia | lia].
Qed.

Lemma skip_copy_data_length line input rest :
  skip_postgres_copy_data line input = Ok rest → (length rest < length input)%nat.
Proof.
  revert line. induction input as [|b input IH]; intros line; cbn [skip_postgres_copy_data length]; [done|].
  repeat case_match; intros Hs; simplify_eq/=; try (apply IH in Hs); lia.
Qed.

Lemma word_event_length b input ev rest :
  word_event b input = Ok (Some (ev, rest)) → (length rest <= length input)%nat.
Proof.
  unfold word_event. intros ([w r] & Hw & H)%bind_Ok. apply read_word_length in Hw.
  case_match.
  - apply bind_Ok in H as (r' & Hs & H). apply skip_string_length in Hs. simplify_eq.
    destruct r; simpl in *; lia.
  - simplify_eq. lia.
Qed.

Definition event_size (ev : LexEvent) : nat :=
  match ev with EvComment c => length c.(comment_bytes) | EvToken _ => 0 end.

Lemma peek_is_cons c input : peek_is c input = true → length input = S (length (tail input)).
Proof. by destruct input. Qed.

(** An event is made of bytes that are consumed: a comment's text and what is
    left are together shorter than the input. *)
Lemma next_event_consumes bsl input ev rest :
  next_event bsl input = Ok (Some (ev, rest)) →
  (event_size ev + length rest < length input)%nat.
Proof.
  induction input as [|b input IH]; cbn [next_event length]; [done|].
  destruct (is_nul b); [done|]. destruct (ascii_whitespace b); [intros H; apply IH in H; lia|].
  destruct (is_byte "-" b && peek_is "-" input) eqn:E1.
  { pose proof (read_line_comment_length empty_comment (tail input)) as Hl.
    destruct (read_line_comment _ _). intros [= <- <-].
    apply andb_true_iff in E1 as [_ Hp%peek_is_cons]. simpl in *. lia. }
  destruct (is_byte "#" b).
  { pose proof (read_line_comment_length empty_comment input) as Hl.
    destruct (read_line_comment _ _). intros [= <- <-]. simpl in *. lia. }
  destruct (is_byte "/" b && peek_is "*" input) eqn:E2.
  { intros ([c r] & Hc & [= <- <-])%bind_Ok. apply read_block_comment_length in Hc.
    apply andb_true_iff in E2 as [_ Hp%peek_is_cons]. simpl in *. lia. }
  destruct (is_byte "'" b).
  { intros (r & Hc & [= <- <-])%bind_Ok. apply skip_string_length in Hc. simpl. lia. }
  destruct (is_byte x22 b || is_byte "`" b).
  { intros ([w r] & Hc & [= <- <-])%bind_Ok. apply read_quoted_identifier_length in Hc.
    simpl. lia. }
  destruct (if is_byte "$" b then _ else _) as [[d r0]|] eqn:Ed.
  - intros (r & Hc & [= <- <-])%bind_Ok. apply skip_dollar_string_length in Hc.
    destruct (is_byte "$" b); [|done]. apply bind_Some in Ed as ([? ?] & Ed & ?). simplify_eq.
    apply dollar_tag_length in Ed. simpl. lia.
  - destruct (is_word_byte b).
    + intros Hw. pose proof Hw as Hl. apply word_event_length in Hl.
      assert (event_size ev = 0%nat); [|lia].
      unfold word_event in Hw. apply bind_Ok in Hw as ([w r] & _ & Hw).
      case_match; [apply bind_Ok in Hw as (? & _ & Hw)|]; by simplify_eq.
    + intros [= <- <-]. simpl. lia.
Qed.

(** ** The scan ends *)

Section scan_ends.
Context {Obs E : Type} (observer : SqlObserver Obs E) (protocol : Protocol).

(** The observer's own steps end on the comments of up to [n] bytes, on the
    tokens and on the statements. *)
Definition observer_ends (n : nat) : Prop :=
  (∀ c o, (length c.(comment_bytes) <= n)%nat → on_comment observer c o ≠ Err OutOfFuel)
  ∧ (∀ t o, on_token observer t o ≠ Err OutOfFuel)
  ∧ (∀ p st o, on_statement observer p st o ≠ Err OutOfFuel).

Lemma inspected_ends {A} (m : result InspectionError A) : sql_inspected observer m ≠ Err OutOfFuel.
Proof. by destruct m. Qed.

Lemma bind_ends {A B} (m : result (Stop E) A) (f : A → result (Stop E) B) :
  m ≠ Err OutOfFuel → (∀ a, m = Ok a → f a ≠ Err OutOfFuel) → m ≫= f ≠ Err OutOfFuel.
Proof. destruct m; simpl; auto. intros H _ [= ->]. by apply H. Qed.

Lemma statement_finish_ends n st o :
  observer_ends n → statement_finish observer protocol st o ≠ Err OutOfFuel.
Proof.
  intros (_ & _ & Hs). unfold statement_finish. destruct (tokens st); [done|].
  apply bind_ends; [apply Hs|done].
Qed.

Lemma scan_events_end fuel input st o :
  observer_ends (length input) → (length input < fuel)%nat →
  scan_events observer protocol fuel input st o ≠ Err OutOfFuel.
Proof.
  revert input st o. induction fuel as [|fuel IH]; intros input st o Ho Hf; [lia|].
  cbn [scan_events]. apply bind_ends; [apply inspected_ends|].
  intros [[ev rest]|]; intros Hev.
  2: { apply bind_ends; [by eapply statement_finish_ends|]. by intros [[] ?]. }
  assert (Hrest : (event_size ev + length rest < length input)%nat).
  { destruct (next_event _ _) as [?|?] eqn:En; simplify_eq/=. by eapply next_event_consumes. }
  assert (Hrec : ∀ input' st o, (length input' <= length rest)%nat →
            scan_events observer protocol fuel input' st o ≠ Err OutOfFuel).
  { intros input' st' o' Hle. apply IH; [|lia]. destruct Ho as (Hc & Ht & Hs). repeat split; auto.
    intros c o'' Hn. apply Hc. lia. }
  destruct ev as [t|c].
  - destruct t; try (apply bind_ends; [apply Ho|]; intros; by apply Hrec).
    apply bind_ends; [by eapply statement_finish_ends|]. intros [[copy st'] o'] _.
    destruct copy; [|by apply Hrec]. apply bind_ends; [apply inspected_ends|].
    intros input' Hi. apply Hrec.
    destruct (skip_postgres_copy_data _ _) as [?|?] eqn:Ec; simplify_eq/=.
    apply skip_copy_data_length in Ec. lia.
  - apply bind_ends; [apply Ho; simpl in Hrest; lia|]. intros; by apply Hrec.
Qed.
End scan_ends.

(** ** The events of a text *)

(** [Lexes b sql evs]: the scanner reads [evs] from [sql]. *)
Inductive Lexes (bsl : bool) : bytes → list LexEvent → Prop :=
  | Lexes_end input : next_event bsl input = Ok None → Lexes bsl input []
  | Lexes_event input ev rest evs :
      next_event bsl input = Ok (Some (ev, rest)) → Lexes bsl rest evs →
      Lexes bsl input (ev :: evs).

Lemma Lexes_functional bsl input evs evs' :
  Lexes bsl input evs → Lexes bsl input evs' → evs = evs'.
Proof.
  intros H. revert evs'. induction H as [input H|input ev rest evs H _ IH]; intros evs' H'.
  - destruct H'; congruence.
  - destruct H' as [input H'|input ev' rest' evs' H' Hl]; [congruence|].
    rewrite H in H'. simplify_eq. f_equal. by apply IH.
Qed.

Lemma Lexes_comment_length bsl input evs c :
  Lexes bsl input evs → EvComment c ∈ evs → (length c.(comment_bytes) < length input)%nat.
Proof.
  induction 1 as [|input ev rest evs H _ IH]; [by intros ?%elem_of_nil|].
  apply next_event_consumes in H. intros [<-|Hin]%elem_of_cons; simpl in *; [lia|].
  specialize (IH Hin). lia.
Qed.

Section run.
Context {Obs E : Type} (observer : SqlObserver Obs E) (protocol : Protocol).

(** What the scan does with its events, where no COPY data follows a
    statement. *)
Fixpoint run_events (evs : list LexEvent) (st : Statement) (o : Obs) : result (Stop E) Obs :=
  match evs with
  | [] => '(_, o) ← statement_finish observer protocol st o; Ok o
  | EvComment c :: evs => o ← on_comment observer c o; run_events evs st o
  | EvToken Semicolon :: evs =>
      '(_, st, o) ← statement_finish observer protocol st o; run_events evs st o
  | EvToken t :: evs => o ← on_token observer t o; run_events evs (statement_push t st) o
  end.

Lemma statement_finish_no_copy st o copy st' o' :
  is_postgres_family protocol = false →
  statement_finish observer protocol st o = Ok (copy, st', o') → copy = false.
Proof.
  intros Hp. unfold statement_finish. destruct (tokens st); [by intros [= <- _ _]|].
  intros (? & _ & H)%bind_Ok. rewrite Hp in H. simpl in H. by simplify_eq.
Qed.

Lemma scan_events_run fuel input st o o' :
  is_postgres_family protocol = false → (length input < fuel)%nat →
  scan_events observer protocol fuel input st o = Ok o' ↔
  ∃ evs, Lexes (sql_backslash_strings protocol) input evs ∧ run_events evs st o = Ok o'.
Proof.
  intros Hp. revert input st o. induction fuel as [|fuel IH]; intros input st o Hf; [lia|].
  cbn [scan_events].
  destruct (next_event _ input) as [[[ev rest]|]|e] eqn:Hev; cbn [sql_inspected result_map_err];
    rewrite ?bind_of_Ok.
  - assert (Hr : (length rest < fuel)%nat)
      by (apply next_event_consumes in Hev; lia).
    transitivity (∃ evs, Lexes (sql_backslash_strings protocol) rest evs
                         ∧ run_events (ev :: evs) st o = Ok o').
    + assert (Hstep : ∀ (m : result (Stop E) (Statement * Obs)),
        (m ≫= (λ '(st, o), scan_events observer protocol fuel rest st o)) = Ok o' ↔
        ∃ evs, Lexes (sql_backslash_strings protocol) rest evs
               ∧ (m ≫= (λ '(st, o), run_events evs st o)) = Ok o').
      { intros [[st1 o1]|e]; simpl; [by apply IH|]. split; [done|]. by intros (? & _ & ?). }
      destruct ev as [t|c].
      * destruct (decide (t = Semicolon)) as [->|Ht].
        -- specialize (Hstep (s ← statement_finish observer protocol st o; Ok (s.1.2, s.2))).
           cbn [run_events].
           destruct (statement_finish _ _ _ _) as [[[copy st1] o1]|e] eqn:Ef; [|exact Hstep].
           pose proof (statement_finish_no_copy _ _ _ _ _ Hp Ef) as ->. exact Hstep.
        -- specialize (Hstep (o1 ← on_token observer t o; Ok (statement_push t st, o1))).
           destruct t; try done; cbn [run_events]; destruct (on_token _ _ _); exact Hstep.
      * specialize (Hstep (o1 ← on_comment observer c o; Ok (st, o1))).
        cbn [run_events]. destruct (on_comment _ _ _); exact Hstep.
    + split.
      * intros (evs & Hl & H). exists (ev :: evs). split; [|done]. by econstructor.
      * intros (evs & Hl & H). inversion Hl as [? Hn|? ev' rest' evs' Hn Hl']; subst;
          rewrite Hev in Hn; simplify_eq; by eauto.
  - split.
    + intros H. exists []. split; [by constructor|done].
    + intros (evs & Hl & H). inversion Hl; simplify_eq; [done|congruence].
  - split; [done|]. intros (evs & Hl & H). inversion Hl; congruence.
Qed.
End run.

(** ** Literals

    Text that a client escapes is read back as one token: the bytes between
    the quotes never become words or comments of the statement. *)

(** A byte of a quoted text with the quote doubled. *)
Definition double_byte (q b : byte) : bytes := if is_byte q b then [b; b] else [b].

(** A byte of a string literal: the quote doubled, and the backslash where it
    escapes. *)
Definition escape_byte (bsl : bool) (b : byte) : bytes :=
  if is_byte "'" b || (bsl && is_byte "\" b) then [b; b] else [b].

Lemma is_byte_refl c : is_byte c c = true.
Proof. unfold is_byte. by rewrite bool_decide_true. Qed.

Lemma is_byte_true c b : is_byte c b = true → b = c.
Proof. apply bool_decide_eq_true. Qed.

Lemma skip_string_escaped bsl body rest :
  peek_is "'" rest = false →
  skip_string bsl (concat (escape_byte bsl <$> body) ++ "'"%byte :: rest) = Ok rest.
Proof.
  intros Hr. induction body as [|b body IH].
  - destruct rest as [|c rest]; [done|]. simpl in Hr |- *. by rewrite Hr.
  - rewrite fmap_cons. cbn [concat]. unfold escape_byte at 1.
    destruct (is_byte "'" b) eqn:Hq; [apply is_byte_true in Hq as ->; exact IH|].
    destruct (is_byte "\" b) eqn:Hb.
    + apply is_byte_true in Hb as ->. destruct bsl; exact IH.
    + rewrite andb_false_r. cbn [orb app skip_string]. rewrite Hb, Hq. exact IH.
Qed.

Theorem string_literal_is_one_token bsl body rest :
  peek_is "'" rest = false →
  next_event bsl ("'"%byte :: concat (escape_byte bsl <$> body) ++ "'"%byte :: rest)
  = Ok (Some (EvToken Other, rest)).
Proof. intros Hr. cbn. by rewrite skip_string_escaped. Qed.

Lemma push_identifier_byte_Ok b w :
  ascii_control b = false → zlength w < MAX_IDENTIFIER_BYTES →
  push_identifier_byte b (w, false) = Ok (w ++ [b], false).
Proof.
  intros Hc Hl. unfold push_identifier_byte. rewrite Hc, orb_false_r. cbn [fst snd].
  assert (is_nul b = false) as ->.
  { unfold is_nul. apply bool_decide_false. by intros ->. }
  rewrite (proj2 (Z.ltb_lt _ _)) by done. done.
Qed.

Lemma read_quoted_identifier_doubled q w pre rest :
  peek_is q rest = false → Forall (λ b, ascii_control b = false) w →
  zlength (pre ++ w) ≤ MAX_IDENTIFIER_BYTES → valid_utf8 (pre ++ w) = true →
  read_quoted_identifier q (pre, false) (concat (double_byte q <$> w) ++ q :: rest)
  = Ok (Some (pre ++ w), rest).
Proof.
  intros Hr. revert pre. induction w as [|b w IH]; intros pre Hc Hl Hu.
  - rewrite app_nil_r in *. cbn. rewrite is_byte_refl.
    destruct rest as [|c rest]; [|simpl in Hr; rewrite Hr];
      cbn [finish_identifier fst snd]; by rewrite Hu.
  - inversion Hc as [|? ? Hb Hw]; subst. rewrite length_app in Hl. simpl in Hl.
    assert (Hp : push_identifier_byte b (pre, false) = Ok (pre ++ [b], false))
      by (apply push_identifier_byte_Ok; [done|lia]).
    specialize (IH (pre ++ [b])). rewrite <-app_assoc in IH.
    specialize (IH Hw ltac:(rewrite length_app; simpl; lia) Hu).
    rewrite fmap_cons. cbn [concat]. unfold double_byte at 1.
    destruct (is_byte q b) eqn:Hq.
    + apply is_byte_true in Hq as ->. cbn [app read_quoted_identifier].
      rewrite is_byte_refl, Hp. exact IH.
    + cbn [app read_quoted_identifier]. rewrite Hq, Hp. exact IH.
Qed.

Theorem quoted_identifier_roundtrip bsl q w rest :
  q = x22 ∨ q = "`"%byte → peek_is q rest = false →
  Forall (λ b, ascii_control b = false) w → zlength w ≤ MAX_IDENTIFIER_BYTES →
  valid_utf8 w = true →
  next_event bsl (q :: concat (double_byte q <$> w) ++ q :: rest)
  = Ok (Some (EvToken (QuotedIdentifier w), rest)).
Proof.
  intros Hq Hr Hc Hl Hu.
  pose proof (read_quoted_identifier_doubled q w [] rest Hr Hc Hl Hu) as H.
  destruct Hq as [-> | ->]; cbn [next_event]; cbn -[read_quoted_identifier]; rewrite H; done.
Qed.
