(* ===== verification/SqlPolicy.v ===== *)
(** * The storage policy of live shared MySQL sessions

    [src/src/app/subsystems/import_export/inspection/sql/shared/mysql_command.rs]
    and the word helpers of [shared/words.rs] it uses: the observer that
    inspects a text command of a shared MySQL or MariaDB tenant before the
    gateway forwards it ([Relay]), with its window of four keywords, its
    whole-statement check and its recursion into executable comments.

    [storage_policy_exact] characterises what is accepted: the statements of
    the command, as the scanner delimits them, contain none of the forbidden
    keyword runs, however long they are, and neither do the bodies of the
    executable comments. [comment_nesting_unbounded] records a limit of the
    policy. *)
From Stdlib Require Import Strings.Byte.
From S2P Require Import Prelude Bytes Engines SqlScan.

Local Open Scope Z_scope.

(** ** Words *)

Definition word_is (w : bytes) (expected : string) : bool := eq_ignore_ascii_case w (lit expected).

(** [matches!(token, SqlToken::Identifier(word) if ...)]. *)
Definition keyword_token (token : SqlToken) (expected : string) : bool :=
  match token with Identifier w => word_is w expected | _ => false end.

Definition has_keyword (ts : list SqlToken) (expected : string) : bool :=
  existsb (λ t, keyword_token t expected) ts.

(** [slice::windows]. *)
Fixpoint windows {A} (n : nat) (l : list A) : list (list A) :=
  if (n <=? length l)%nat then
    take n l :: match l with [] => [] | _ :: l => windows n l end
  else [].

Definition has_keyword_sequence (ts : list SqlToken) (expected : list string) : bool :=
  existsb (λ window, forallb (λ te, keyword_token te.1 te.2) (zip window expected))
    (windows (length expected) ts).

Definition statement_words (ts : list SqlToken) : list bytes :=
  omap (λ t, match t with Identifier w => Some (uppercase w) | _ => None end) ts.

Definition CREATE_MODIFIERS : list string :=
  ["OR"; "REPLACE"; "TEMP"; "TEMPORARY"; "UNLOGGED"; "GLOBAL"; "LOCAL"; "UNIQUE"].

(** [create_object]: the first word after the command and its modifiers. *)
Fixpoint skip_words (expected : list string) (words : list bytes) : list bytes :=
  match words with
  | w :: words' => if is_any_keyword w expected then skip_words expected words' else words
  | [] => []
  end.

Definition create_object (words : list bytes) : option bytes :=
  head (skip_words CREATE_MODIFIERS (drop 1 words)).

(** ** Violations *)

Inductive MysqlStorageViolation := VStorageEscape | VDynamicSql.

Inductive MysqlCommandPolicyError := StorageEscape | DynamicSql | PolicyInvalid.

(** [last(offset)] of [mysql_keyword_violation]. *)
Definition last_word (keywords : list bytes) (offset : nat) : option bytes :=
  if (offset + 1 <=? length keywords)%nat
  then keywords !! (length keywords - (offset + 1))%nat else None.

Definition last_is (keywords : list bytes) (offset : nat) (expected : list string) : bool :=
  match last_word keywords offset with
  | Some w => existsb (λ e, bool_decide (w = lit e)) expected
  | None => false
  end.

Definition STORAGE_WORDS : list string :=
  ["TABLESPACE"; "DATAFILE"; "UNDOFILE"; "REDOFILE"; "FILE_NAME"; "TABLE_TYPE";
   "SECONDARY_ENGINE"; "ENGINE_ATTRIBUTE"; "SECONDARY_ENGINE_ATTRIBUTE"].

Definition mysql_keyword_violation (keywords : list bytes) (executable_fragment : bool) :
    option MysqlStorageViolation :=
  let last := last_is keywords in
  if last 0%nat ["PREPARE"] || (last 1%nat ["EXECUTE"] && last 0%nat ["IMMEDIATE"])
  then Some VDynamicSql
  else if
    last 0%nat STORAGE_WORDS
    || (executable_fragment && last 0%nat ["DATABASE"; "SCHEMA"; "DIRECTORY"])
    || (last 1%nat ["CREATE"; "ALTER"; "DROP"; "RENAME"] && last 0%nat ["DATABASE"; "SCHEMA"])
    || (last 1%nat ["DATA"; "INDEX"] && last 0%nat ["DIRECTORY"])
    || (last 1%nat ["LOGFILE"] && last 0%nat ["GROUP"])
    || (last 1%nat ["STORAGE"] && last 0%nat ["DISK"; "MEMORY"])
    || (last 1%nat ["IMPORT"] && last 0%nat ["TABLE"])
    || (last 0%nat ["DATABASE"; "SCHEMA"] && last 1%nat ["REPLACE"] && last 2%nat ["OR"]
        && last 3%nat ["CREATE"])
  then Some VStorageEscape
  else None.

Definition mysql_database_ddl (ts : list SqlToken) (words : list bytes) : bool :=
  match words with
  | [] => false
  | command :: _ =>
      existsb (λ object,
        existsb (λ verb, has_keyword_sequence ts [verb; object])
          ["CREATE"; "ALTER"; "DROP"; "RENAME"]
        || (word_is command "CREATE" && bool_decide (create_object words = Some (lit object))))
        ["DATABASE"; "SCHEMA"]
  end.

Definition mysql_storage_policy_violation (st : Statement) (executable_fragment : bool) :
    option MysqlStorageViolation :=
  let ts := st.(tokens) in
  let words := statement_words ts in
  if has_keyword ts "PREPARE" || has_keyword_sequence ts ["EXECUTE"; "IMMEDIATE"]
  then Some VDynamicSql
  else if executable_fragment
          && existsb (has_keyword ts) ["DATABASE"; "SCHEMA"; "TABLESPACE"; "DIRECTORY"]
  then Some VStorageEscape
  else if mysql_database_ddl ts words then Some VStorageEscape
  else if
    has_keyword ts "TABLESPACE"
    || has_keyword_sequence ts ["DATA"; "DIRECTORY"]
    || has_keyword_sequence ts ["INDEX"; "DIRECTORY"]
    || has_keyword_sequence ts ["LOGFILE"; "GROUP"]
    || has_keyword_sequence ts ["STORAGE"; "DISK"]
    || has_keyword_sequence ts ["STORAGE"; "MEMORY"]
    || has_keyword_sequence ts ["IMPORT"; "TABLE"]
    || existsb (has_keyword ts)
         ["DATAFILE"; "UNDOFILE"; "REDOFILE"; "FILE_NAME"; "TABLE_TYPE"; "SECONDARY_ENGINE";
          "ENGINE_ATTRIBUTE"; "SECONDARY_ENGINE_ATTRIBUTE"]
  then Some VStorageEscape
  else None.

(** ** Executable comments *)

Fixpoint trim_leading (skip : byte → bool) (v : bytes) : bytes :=
  match v with b :: v' => if skip b then trim_leading skip v' else v | [] => [] end.

Fixpoint strip_bytes (p v : bytes) : option bytes :=
  match p, v with
  | [], _ => Some v
  | a :: p, b :: v => if is_byte a b then strip_bytes p v else None
  | _ :: _, [] => None
  end.

(** [Err tt] is [ExecutableCommentTooLarge]. *)
Definition executable_mysql_comment (c : SqlComment) : result unit (option bytes) :=
  let trimmed := trim_leading ascii_whitespace c.(comment_bytes) in
  match strip_bytes (lit "!") trimmed ∪ strip_bytes (lit "M!") trimmed
        ∪ strip_bytes (lit "m!") trimmed with
  | None => Ok None
  | Some body =>
      if c.(comment_truncated) then Err tt
      else
        let body := trim_leading ascii_whitespace body in
        let without_version := trim_leading ascii_digit body in
        Ok (Some (trim_leading ascii_whitespace without_version))
  end.

Definition is_mysqldump_sandbox_directive (body : bytes) : bool :=
  match strip_bytes (lit "\- enable the sandbox mode") body with
  | Some _ => true | None => false end.

(** ** The observer *)

Record MysqlCommandObserver := mkMysqlCommandObserver {
  keywords : list bytes;
  violation : option MysqlStorageViolation;
}.

Definition command_observer_new : MysqlCommandObserver := mkMysqlCommandObserver [] None.

Definition observe_keyword (executable_fragment : bool) (t : SqlToken)
    (o : MysqlCommandObserver) : MysqlCommandObserver :=
  match t with
  | Identifier w =>
      let kept := if (length o.(keywords) =? 4)%nat then drop 1 o.(keywords) else o.(keywords) in
      let ks := kept ++ [uppercase w] in
      {| keywords := ks;
         violation := o.(violation) ∪ mysql_keyword_violation ks executable_fragment |}
  | _ => {| keywords := []; violation := o.(violation) |}
  end.

Definition observe_statement (executable_fragment : bool) (st : Statement)
    (o : MysqlCommandObserver) : result (Stop MysqlCommandPolicyError) MysqlCommandObserver :=
  match o.(violation) ∪ mysql_storage_policy_violation st executable_fragment with
  | Some VDynamicSql => Err (Failed DynamicSql)
  | Some VStorageEscape => Err (Failed StorageEscape)
  | None => Ok command_observer_new
  end.

(** [nested] checks the body of an executable comment. *)
Definition mysql_command_observer (nested : bytes → result (Stop MysqlCommandPolicyError) unit)
    (executable_fragment : bool) : SqlObserver MysqlCommandObserver MysqlCommandPolicyError := {|
  on_comment := λ c o,
    match executable_mysql_comment c with
    | Err _ => Err (Failed PolicyInvalid)
    | Ok None => Ok o
    | Ok (Some body) =>
        if is_mysqldump_sandbox_directive body then Ok o else _ ← nested body; Ok o
    end;
  on_token := λ t o, Ok (observe_keyword executable_fragment t o);
  on_statement := λ _ st o, observe_statement executable_fragment st o;
  from_inspection := λ _, PolicyInvalid;
|}.

(** [check_shared_mysql_command]; [depth] bounds how deep its calls nest. *)
Fixpoint check_shared_mysql_command (depth : nat) (sql : bytes) (protocol : Protocol)
    (executable_fragment : bool) : result (Stop MysqlCommandPolicyError) unit :=
  match depth with
  | O => Err OutOfFuel
  | S depth =>
      if negb (is_mysql_family protocol) then Err (Failed PolicyInvalid)
      else
        _ ← scan_sql_reader
              (mysql_command_observer
                 (λ body, check_shared_mysql_command depth body protocol true)
                 executable_fragment)
              protocol sql command_observer_new;
        Ok tt
  end.

Definition validate_shared_mysql_command (sql : bytes) (protocol : Protocol) :
    result (Stop MysqlCommandPolicyError) unit :=
  check_shared_mysql_command (S (length sql)) sql protocol false.

(** ** The specification *)

(** [occurs run ts]: the words of [run], in any case, are consecutive words of
    [ts] (unquoted, with no punctuation or literal between them). *)
Definition occurs (run : list string) (ts : list SqlToken) : Prop :=
  ∃ pre ws post, ts = pre ++ (Identifier <$> ws) ++ post ∧ uppercase <$> ws = lit <$> run.

Definition singles (words : list string) : list (list string) := (λ w, [w]) <$> words.
Definition pairs (firsts seconds : list string) : list (list string) :=
  a ← firsts; (λ b, [a; b]) <$> seconds.

(** The keyword runs a statement must not contain; in an executable comment,
    whose text is part of a longer statement, a word alone is refused. *)
Definition forbidden_runs (executable_fragment : bool) : list (list string) :=
  singles ["PREPARE"] ++ pairs ["EXECUTE"] ["IMMEDIATE"]
  ++ singles STORAGE_WORDS
  ++ (if executable_fragment then singles ["DATABASE"; "SCHEMA"; "DIRECTORY"] else [])
  ++ pairs ["CREATE"; "ALTER"; "DROP"; "RENAME"] ["DATABASE"; "SCHEMA"]
  ++ pairs ["DATA"; "INDEX"] ["DIRECTORY"]
  ++ pairs ["LOGFILE"] ["GROUP"]
  ++ pairs ["STORAGE"] ["DISK"; "MEMORY"]
  ++ pairs ["IMPORT"] ["TABLE"]
  ++ ((λ object, ["CREATE"; "OR"; "REPLACE"; object]) <$> ["DATABASE"; "SCHEMA"]).

(** The statement creates a database, whatever modifiers it carries. *)
Definition creates_database (ts : list SqlToken) : bool :=
  match statement_words ts with
  | [] => false
  | command :: _ =>
      word_is command "CREATE"
      && existsb (λ object, bool_decide (create_object (statement_words ts) = Some (lit object)))
           ["DATABASE"; "SCHEMA"]
  end.

Definition statement_safe (executable_fragment : bool) (ts : list SqlToken) : Prop :=
  (∀ run, run ∈ forbidden_runs executable_fragment → ¬ occurs run ts)
  ∧ creates_database (take MAX_SQL_TOKENS_PER_STATEMENT ts) = false.

(** The token sequences between the semicolons, and the comments. *)
Fixpoint split_statements (ts : list SqlToken) (evs : list LexEvent) : list (list SqlToken) :=
  match evs with
  | [] => [ts]
  | EvComment _ :: evs => split_statements ts evs
  | EvToken Semicolon :: evs => ts :: split_statements [] evs
  | EvToken t :: evs => split_statements (ts ++ [t]) evs
  end.

Definition comments (evs : list LexEvent) : list SqlComment :=
  omap (λ ev, match ev with EvComment c => Some c | _ => None end) evs.

(** What the policy accepts: safe statements, and executable comments that are
    complete and accepted themselves. *)
Inductive StorageSafe (protocol : Protocol) : bool → bytes → Prop :=
  | storage_safe frag sql evs :
      Lexes (sql_backslash_strings protocol) sql evs →
      (∀ ts, ts ∈ split_statements [] evs → statement_safe frag ts) →
      (∀ c, c ∈ comments evs → is_ok (executable_mysql_comment c) = true) →
      (∀ c body, c ∈ comments evs → executable_mysql_comment c = Ok (Some body) →
         is_mysqldump_sandbox_directive body = false → StorageSafe protocol true body) →
      StorageSafe protocol frag sql.

(** ** Words, in either case *)

Lemma case_fold_byte a b :
  to_ascii_lowercase a = to_ascii_lowercase b ↔ to_ascii_uppercase a = to_ascii_uppercase b.
Proof.
  unfold to_ascii_lowercase, to_ascii_uppercase, between.
  pose proof (b2z_range a). pose proof (b2z_range b).
  split; intros E; apply (f_equal b2z) in E; apply b2z_inj; revert E;
    repeat case_match; to_prop; rewrite ?b2z_z2b by lia; lia.
Qed.

Lemma case_fold a b : eq_ignore_ascii_case a b = true ↔ uppercase a = uppercase b.
Proof.
  unfold eq_ignore_ascii_case, uppercase. rewrite bool_decide_eq_true.
  revert b. induction a as [|x a IH]; intros [|y b]; simpl; [done|done|done|].
  split; intros E; injection E as E1 E2; f_equal; try (by apply case_fold_byte); by apply IH.
Qed.

Definition upper_literal (e : string) : Prop := uppercase (lit e) = lit e.

Lemma word_is_upper w e : upper_literal e → word_is w e = true ↔ uppercase w = lit e.
Proof. intros He. unfold word_is. by rewrite case_fold, He. Qed.

(** ** The window of keywords *)

Lemma last_word_reverse ks offset : last_word ks offset = reverse ks !! offset.
Proof.
  unfold last_word. destruct (Nat.leb_spec (offset + 1) (length ks)).
  - rewrite reverse_lookup by lia. f_equal. lia.
  - symmetry. apply lookup_ge_None_2. rewrite length_reverse. lia.
Qed.

Lemma last_is_true ks offset expected :
  last_is ks offset expected = true ↔ ∃ e, e ∈ expected ∧ reverse ks !! offset = Some (lit e).
Proof.
  unfold last_is. rewrite last_word_reverse. destruct (reverse ks !! offset) as [w|].
  - rewrite existsb_exists. setoid_rewrite list_elem_of_In.
    setoid_rewrite bool_decide_eq_true. naive_solver.
  - naive_solver.
Qed.

(** The last words of [ks] are those of [run]. *)
Definition ends_with (run : list string) (ks : list bytes) : Prop := (lit <$> run) `suffix_of` ks.

Lemma suffix_reverse_prefix {A} (l k : list A) :
  l `suffix_of` k ↔ ∃ rest, reverse k = reverse l ++ rest.
Proof.
  split.
  - intros [rest ->]. exists (reverse rest). by rewrite reverse_app.
  - intros [rest H]. exists (reverse rest). apply (inj reverse).
    by rewrite H, reverse_app, reverse_involutive.
Qed.

Lemma ends_with_lookup {A} (l k : list A) :
  l `suffix_of` k ↔ ∀ i x, reverse l !! i = Some x → reverse k !! i = Some x.
Proof.
  rewrite suffix_reverse_prefix. split.
  - intros [rest ->] i x Hi. by apply lookup_app_l_Some.
  - generalize (reverse l), (reverse k). intros p. induction p as [|x p IH]; intros q H.
    + by exists q.
    + destruct q as [|y q]; [specialize (H 0%nat x eq_refl); done|].
      destruct (IH q) as [rest ->]; [intros i z; apply (H (S i))|].
      specialize (H 0%nat x eq_refl). simpl in H. exists rest. by simplify_eq.
Qed.

Lemma ends_with_1 a ks : ends_with [a] ks ↔ reverse ks !! 0%nat = Some (lit a).
Proof.
  unfold ends_with. rewrite ends_with_lookup. cbn [fmap list_fmap]. split.
  - intros H. by apply H.
  - intros H [|i] x; cbn; [by intros [= <-]|done].
Qed.

Lemma ends_with_2 a b ks :
  ends_with [a; b] ks ↔
  reverse ks !! 1%nat = Some (lit a) ∧ reverse ks !! 0%nat = Some (lit b).
Proof.
  unfold ends_with. rewrite ends_with_lookup. cbn [fmap list_fmap]. split.
  - intros H. split; by apply H.
  - intros [H1 H0] [|[|i]] x; cbn; [by intros [= <-]|by intros [= <-]|done].
Qed.

Lemma ends_with_4 a b c d ks :
  ends_with [a; b; c; d] ks ↔
  reverse ks !! 3%nat = Some (lit a) ∧ reverse ks !! 2%nat = Some (lit b)
  ∧ reverse ks !! 1%nat = Some (lit c) ∧ reverse ks !! 0%nat = Some (lit d).
Proof.
  unfold ends_with. rewrite ends_with_lookup. cbn [fmap list_fmap]. split.
  - intros H. repeat split; by apply H.
  - intros (H3 & H2 & H1 & H0) [|[|[|[|i]]]] x; cbn; try done; by intros [= <-].
Qed.

Lemma last_is_singles ks words :
  last_is ks 0 words = true ↔ Exists (λ run, ends_with run ks) (singles words).
Proof.
  rewrite last_is_true. unfold singles. rewrite Exists_fmap, Exists_exists.
  by setoid_rewrite ends_with_1.
Qed.

Lemma last_is_pairs ks firsts seconds :
  last_is ks 1 firsts = true ∧ last_is ks 0 seconds = true ↔
  Exists (λ run, ends_with run ks) (pairs firsts seconds).
Proof.
  rewrite !last_is_true, Exists_exists. unfold pairs.
  setoid_rewrite list_elem_of_bind. setoid_rewrite list_elem_of_fmap. split.
  - intros ((a & Ha & Ea) & b & Hb & Eb). exists [a; b]. rewrite ends_with_2.
    split; [|done]. exists a. split; [|done]. by exists b.
  - intros (run & (a & (b & -> & Hb) & Ha) & [Ea Eb]%ends_with_2). split; [by exists a|by exists b].
Qed.

Lemma last_is_create_or_replace ks objects :
  last_is ks 0 objects = true ∧ last_is ks 1 ["REPLACE"] = true
  ∧ last_is ks 2 ["OR"] = true ∧ last_is ks 3 ["CREATE"] = true ↔
  Exists (λ run, ends_with run ks) ((λ object, ["CREATE"; "OR"; "REPLACE"; object]) <$> objects).
Proof.
  rewrite Exists_fmap, Exists_exists. setoid_rewrite ends_with_4.
  rewrite !last_is_true. setoid_rewrite list_elem_of_singleton. split.
  - intros ((o & Ho & E0) & (? & -> & E1) & (? & -> & E2) & ? & -> & E3). by exists o.
  - intros (o & Ho & E3 & E2 & E1 & E0). split; [by exists o|]. split; [by eexists|].
    split; by eexists.
Qed.

Lemma two_verdicts {A} (x y : A) (b c : bool) :
  (if b then Some x else if c then Some y else None) ≠ None ↔ b || c = true.
Proof. destruct b, c; simpl; split; done. Qed.

(** The window check refuses exactly the words after which a forbidden run is
    complete. *)
Lemma keyword_violation_spec ks frag :
  mysql_keyword_violation ks frag ≠ None ↔ Exists (λ run, ends_with run ks) (forbidden_runs frag).
Proof.
  unfold mysql_keyword_violation. cbv zeta. rewrite two_verdicts. unfold forbidden_runs.
  rewrite !Exists_app, <-last_is_create_or_replace, <-!last_is_pairs, <-!last_is_singles.
  rewrite !orb_true_iff, !andb_true_iff.
  destruct frag; [rewrite <-last_is_singles|rewrite Exists_nil]; intuition discriminate.
Qed.

(** ** The words at the end of a token sequence *)

(** The upper-case words after the last token that is not a word. *)
Fixpoint trail_from (acc : list bytes) (ts : list SqlToken) : list bytes :=
  match ts with
  | [] => acc
  | Identifier w :: ts => trail_from (acc ++ [uppercase w]) ts
  | _ :: ts => trail_from [] ts
  end.
Definition trail (ts : list SqlToken) : list bytes := trail_from [] ts.

(** The last [n] elements. *)
Definition lastn {A} (n : nat) (l : list A) : list A := drop (length l - n) l.

Lemma trail_from_snoc acc ts t :
  trail_from acc (ts ++ [t])
  = match t with Identifier w => trail_from acc ts ++ [uppercase w] | _ => [] end.
Proof.
  revert acc. induction ts as [|x ts IH]; intros acc; simpl.
  - by destruct t.
  - destruct x; apply IH.
Qed.

Lemma trail_snoc ts t :
  trail (ts ++ [t]) = match t with Identifier w => trail ts ++ [uppercase w] | _ => [] end.
Proof. apply trail_from_snoc. Qed.

Lemma trail_suffix pre ws :
  (uppercase <$> ws) `suffix_of` trail (pre ++ (Identifier <$> ws)).
Proof.
  induction ws as [|w ws IH] using rev_ind.
  - apply suffix_nil.
  - rewrite !fmap_app, app_assoc. cbn [fmap list_fmap]. rewrite trail_snoc.
    destruct IH as [rest ->]. exists rest. by rewrite app_assoc.
Qed.

Lemma suffix_trail ts (us : list bytes) :
  us `suffix_of` trail ts → ∃ pre ws, ts = pre ++ (Identifier <$> ws) ∧ uppercase <$> ws = us.
Proof.
  revert us. induction ts as [|t ts IH] using rev_ind; intros us.
  - intros [rest H]. exists [], []. split; [done|]. cbn in H.
    symmetry in H. by apply app_nil in H as [_ ->].
  - rewrite trail_snoc. intros [rest H].
    destruct us as [|u us _] using rev_ind; [by exists (ts ++ [t]), []; rewrite app_nil_r|].
    rewrite app_assoc in H.
    destruct t as [w| | | | | | | | |]; try (by apply app_cons_not_nil in H).
    apply app_inj_tail in H as [H <-].
    destruct (IH us) as (pre & ws & -> & <-); [by exists rest|].
    exists pre, (ws ++ [w]). by rewrite !fmap_app, app_assoc.
Qed.

(** A run occurs in [ts] when it ends some prefix of [ts]. *)
Lemma occurs_prefix run ts :
  occurs run ts ↔ ∃ pre, pre `prefix_of` ts ∧ ends_with run (trail pre).
Proof.
  split.
  - intros (pre & ws & post & -> & E). exists (pre ++ (Identifier <$> ws)).
    split; [exists post; by rewrite app_assoc|]. unfold ends_with. rewrite <-E. apply trail_suffix.
  - intros (pre & [post ->] & H). apply suffix_trail in H as (p & ws & -> & E).
    exists p, ws, post. by rewrite app_assoc.
Qed.

Lemma lastn_snoc {A} (l : list A) x : 
  lastn 4 (l ++ [x]) =
  (if (length (lastn 4 l) =? 4)%nat then drop 1 (lastn 4 l) else lastn 4 l) ++ [x].
Proof.
  unfold lastn. rewrite length_drop, length_app. simpl.
  destruct (Nat.eqb_spec (length l - (length l - 4)) 4).
  - rewrite drop_drop, drop_app_le by lia. do 2 f_equal. lia.
  - rewrite drop_app_le by lia. do 2 f_equal. lia.
Qed.

Lemma suffix_lastn {A} (n : nat) (l k : list A) :
  (length l <= n)%nat → l `suffix_of` lastn n k ↔ l `suffix_of` k.
Proof.
  intros Hn. split.
  - intros [rest H]. unfold lastn in H. exists (take (length k - n) k ++ rest).
    by rewrite <-app_assoc, <-H, take_drop.
  - intros [rest ->]. unfold lastn. rewrite length_app.
    exists (drop (length rest + length l - n) rest). by rewrite drop_app_le by lia.
Qed.

Lemma forbidden_runs_short frag : Forall (λ run : list string, (length run <= 4)%nat) (forbidden_runs frag).
Proof. destruct frag; vm_compute; repeat (constructor; [lia|]); constructor. Qed.

(** The window after [ts] is enough to see that a forbidden run just ended. *)
Lemma window_violation ts frag :
  mysql_keyword_violation (lastn 4 (trail ts)) frag ≠ None ↔
  Exists (λ run, ends_with run (trail ts)) (forbidden_runs frag).
Proof.
  rewrite keyword_violation_spec, !Exists_exists. pose proof (forbidden_runs_short frag) as Hs.
  rewrite Forall_forall in Hs. unfold ends_with.
  split; intros (run & Hr & H); exists run; (split; [done|]);
    apply (suffix_lastn 4); try done; rewrite length_fmap; by apply Hs.
Qed.

(** ** The whole-statement check adds the creation of a database *)

Lemma existsb_elem {A} (f : A → bool) l : existsb f l = true ↔ ∃ x, x ∈ l ∧ f x = true.
Proof. rewrite existsb_exists. by setoid_rewrite list_elem_of_In. Qed.

Lemma has_keyword_occurs ts e : upper_literal e → has_keyword ts e = true → occurs [e] ts.
Proof.
  intros He. unfold has_keyword. rewrite existsb_elem. intros (t & Ht & H).
  destruct t as [w| | | | | | | | |]; try done. apply word_is_upper in H; [|done].
  apply list_elem_of_split in Ht as (pre & post & ->). exists pre, [w], post.
  split; [done|]. by rewrite fmap_cons, H.
Qed.

Lemma windows_elem {A} n (l w : list A) :
  w ∈ windows n l → ∃ pre post, l = pre ++ w ++ post ∧ length w = n.
Proof.
  assert (Ht : ∀ l : list A, (n <= length l)%nat →
            ∃ pre post, l = pre ++ take n l ++ post ∧ length (take n l) = n).
  { intros l' Hn. exists [], (drop n l'). rewrite length_take. simpl.
    split; [by rewrite take_drop|lia]. }
  induction l as [|x l IH]; cbn [windows]; case_match eqn:Hn;
    try (by intros ?%elem_of_nil); apply Nat.leb_le in Hn; intros [->|Hw]%elem_of_cons; auto.
  - by apply elem_of_nil in Hw.
  - destruct (IH Hw) as (pre & post & -> & Hl). by exists (x :: pre), post.
Qed.

Lemma has_keyword_sequence_occurs ts run :
  Forall upper_literal run → has_keyword_sequence ts run = true → occurs run ts.
Proof.
  intros Hu. unfold has_keyword_sequence. rewrite existsb_elem. intros (w & Hw & H).
  apply windows_elem in Hw as (pre & post & -> & Hl).
  assert (∃ ws, w = Identifier <$> ws ∧ uppercase <$> ws = lit <$> run) as (ws & -> & E).
  { clear -Hl H Hu. revert w Hl H. induction Hu as [|e run He _ IH]; intros [|t w] Hl H;
      simplify_eq/=; [by exists []|].
    apply andb_true_iff in H as [Ht H]. destruct (IH w Hl H) as (ws & -> & E).
    destruct t as [u| | | | | | | | |]; try done. exists (u :: ws).
    apply word_is_upper in Ht; [|done]. split; [done|]. by rewrite !fmap_cons, Ht, E. }
  exists pre, ws, post. done.
Qed.

Lemma occurs_take n run ts : occurs run (take n ts) → occurs run ts.
Proof.
  intros (pre & ws & post & E & H). exists pre, ws, (post ++ drop n ts). split; [|done].
  by rewrite !app_assoc, <-(app_assoc pre), <-E, take_drop.
Qed.

#[local] Instance upper_literal_dec e : Decision (upper_literal e).
Proof. unfold upper_literal. apply _. Defined.

(** Closes the decidable facts about the literals of the policy. *)
Ltac literal_fact :=
  match goal with |- ?P => apply (bool_decide_eq_true_1 P); vm_compute; reflexivity end.

(** What the whole-statement check sees beyond the forbidden runs. *)
Lemma storage_policy_safe st frag :
  (∀ run, run ∈ forbidden_runs frag → ¬ occurs run st.(tokens)) →
  mysql_storage_policy_violation st frag = None ↔ creates_database st.(tokens) = false.
Proof.
  intros Hruns. set (ts := st.(tokens)) in *.
  assert (Hk : ∀ e, [e] ∈ forbidden_runs frag → upper_literal e → has_keyword ts e = false).
  { intros e He Hu. apply not_true_iff_false. intros H. eapply Hruns; [exact He|].
    by apply has_keyword_occurs. }
  assert (Hs : ∀ run, run ∈ forbidden_runs frag → Forall upper_literal run →
                 has_keyword_sequence ts run = false).
  { intros run He Hu. apply not_true_iff_false. intros H. eapply Hruns; [exact He|].
    by apply has_keyword_sequence_occurs. }
  unfold mysql_storage_policy_violation. fold ts.
  assert (Hd : mysql_database_ddl ts (statement_words ts) = creates_database ts).
  { unfold mysql_database_ddl, creates_database. destruct (statement_words ts); [done|].
    cbn [existsb]. clear Hruns Hk.
    destruct frag; rewrite !Hs by literal_fact;
      by destruct (word_is _ _), (bool_decide _), (bool_decide _). }
  rewrite Hd. cbn [existsb]. clear Hruns Hd.
  destruct frag; cbn [andb]; rewrite !Hs, !Hk by literal_fact; cbn;
    by destruct (creates_database ts).
Qed.

(** ** The observer accepts exactly the safe statements *)

Section command_run.
Context (protocol : Protocol) (frag : bool).
Context (nested : bytes → result (Stop MysqlCommandPolicyError) unit).

Abbreviation observer := (mysql_command_observer nested frag).

(** After the tokens [ts] of the current statement. *)
Definition observed (ts : list SqlToken) (st : Statement) (o : MysqlCommandObserver) : Prop :=
  st.(tokens) = take MAX_SQL_TOKENS_PER_STATEMENT ts
  ∧ o.(keywords) = lastn 4 (trail ts)
  ∧ (o.(violation) = None ↔ ∀ run, run ∈ forbidden_runs frag → ¬ occurs run ts).

(** A comment the policy accepts. *)
Definition comment_accepted (c : SqlComment) : Prop :=
  match executable_mysql_comment c with
  | Err _ => False
  | Ok None => True
  | Ok (Some body) => is_mysqldump_sandbox_directive body = true ∨ nested body = Ok tt
  end.

Lemma observed_start : observed [] statement_default command_observer_new.
Proof.
  split; [done|]. split; [done|]. split; [|done]. intros _ run Hr (pre & ws & post & H & E).
  symmetry in H. apply app_nil in H as [_ [H _]%app_nil]. apply fmap_nil_inv in H as ->.
  destruct run; [|done]. clear E. revert Hr. destruct frag; vm_compute; intros H;
    repeat (inversion H as [|? ? ? H']; subst; clear H; rename H' into H).
Qed.

Lemma statement_push_tokens t st ts :
  st.(tokens) = take MAX_SQL_TOKENS_PER_STATEMENT ts →
  (statement_push t st).(tokens) = take MAX_SQL_TOKENS_PER_STATEMENT (ts ++ [t]).
Proof.
  intros H. unfold statement_push.
  assert (Hts : ∀ st' : Statement, st'.(tokens) = st.(tokens) →
    tokens (if (length st'.(tokens) <? MAX_SQL_TOKENS_PER_STATEMENT)%nat
            then st' <| tokens ::= (λ ts, ts ++ [t]) |> else st' <| stmt_truncated := true |>)
    = take MAX_SQL_TOKENS_PER_STATEMENT (ts ++ [t])).
  { intros st' Hst. rewrite Hst, H, length_take.
    destruct (Nat.ltb_spec (MAX_SQL_TOKENS_PER_STATEMENT `min` length ts)
                MAX_SQL_TOKENS_PER_STATEMENT) as [Hl|Hl].
    - simpl. rewrite Hst, H, !take_ge; [done|rewrite length_app; simpl; lia|lia].
    - simpl. rewrite Hst, H, take_app_le by lia. done. }
  destruct t; by apply Hts.
Qed.

(** A token keeps the invariant. *)
Lemma observed_token ts st o t :
  observed ts st o → observed (ts ++ [t]) (statement_push t st) (observe_keyword frag t o).
Proof.
  intros (Ht & Hk & Hv). split; [by apply statement_push_tokens|].
  assert (Hocc : ∀ run, occurs run (ts ++ [t]) ↔
                   occurs run ts ∨ ends_with run (trail (ts ++ [t]))).
  { intros run. rewrite !occurs_prefix. split.
    - intros (pre & [post Hp] & He). destruct post as [|x post _] using rev_ind.
      + rewrite app_nil_r in Hp. subst pre. by right.
      + rewrite app_assoc in Hp. apply app_inj_tail in Hp as [Hp _]. left.
        exists pre. split; [by exists post|done].
    - intros [(pre & Hp & He)|He].
      + exists pre. split; [by apply prefix_app_r|done].
      + by exists (ts ++ [t]). }
  assert (Hsplit : (∀ run, run ∈ forbidden_runs frag → ¬ occurs run (ts ++ [t])) ↔
    (∀ run, run ∈ forbidden_runs frag → ¬ occurs run ts)
    ∧ mysql_keyword_violation (lastn 4 (trail (ts ++ [t]))) frag = None).
  { setoid_rewrite Hocc. pose proof (window_violation (ts ++ [t]) frag) as Hw.
    rewrite Exists_exists in Hw.
    destruct (mysql_keyword_violation _ _); naive_solver. }
  rewrite trail_snoc in Hsplit |- *. unfold observe_keyword.
  destruct t as [w| | | | | | | | |]; cbn [keywords violation];
    try (split; [done|]; rewrite Hsplit, <-Hv; vm_compute (mysql_keyword_violation _ _);
         destruct frag; naive_solver).
  rewrite lastn_snoc in Hsplit |- *. rewrite Hk. split; [done|].
  rewrite Hsplit, <-Hv. destruct (violation o), (mysql_keyword_violation _ _); naive_solver.
Qed.

Lemma union_Some_l {A} (x : A) (m : option A) : Some x ∪ m = Some x.
Proof. by destruct m. Qed.

Lemma take_budget_nil {A} (l : list A) :
  [] = take MAX_SQL_TOKENS_PER_STATEMENT l → l = [].
Proof. intros H. apply (f_equal length) in H. rewrite length_take in H.
  destruct l; [done|]. unfold MAX_SQL_TOKENS_PER_STATEMENT in H. simpl in H. lia. Qed.

Lemma no_run_in_nil run : run ∈ forbidden_runs frag → ¬ occurs run [].
Proof. destruct observed_start as (_ & _ & H). by apply H. Qed.

(** The end of a statement accepts the safe ones, and starts afresh. *)
Lemma finish_accepts ts st o :
  observed ts st o →
  (statement_safe frag ts →
   ∃ copy st' o', statement_finish observer protocol st o = Ok (copy, st', o')
                  ∧ observed [] st' o')
  ∧ (is_ok (statement_finish observer protocol st o) = true → statement_safe frag ts).
Proof.
  intros (Ht & Hk & Hv). unfold statement_finish. destruct (tokens st) as [|t0 ts0] eqn:Hts.
  - assert (ts = []) as -> by (by apply take_budget_nil).
    split; [|intros _; split; [apply no_run_in_nil|done]].
    intros _. by exists false, st, o.
  - cbn [on_statement mysql_command_observer]. unfold observe_statement.
    destruct (violation o) as [v|] eqn:Ev.
    + rewrite union_Some_l. split; [|by destruct v]. intros [Hs _]. by apply Hv in Hs.
    + assert (Hruns : ∀ run, run ∈ forbidden_runs frag → ¬ occurs run ts) by by apply Hv.
      assert (Hp : mysql_storage_policy_violation st frag = None ↔ statement_safe frag ts).
      { rewrite storage_policy_safe; rewrite Hts, Ht.
        - unfold statement_safe. split; [done|]. by intros [_ ?].
        - intros run Hr Ho. eapply Hruns; [done|]. by eapply occurs_take. }
      rewrite (left_id_L None (∪)).
      destruct (mysql_storage_policy_violation st frag) as [v|].
      * split; [|by destruct v]. intros Hs. by apply Hp in Hs.
      * split; [|intros _; by apply Hp]. intros _. do 3 eexists. split; [done|apply observed_start].
Qed.

Lemma comment_step c o :
  on_comment observer c o = Ok o ∧ comment_accepted c
  ∨ is_ok (on_comment observer c o) = false ∧ ¬ comment_accepted c.
Proof.
  unfold comment_accepted. cbn [on_comment mysql_command_observer].
  destruct (executable_mysql_comment c) as [[body|]|]; [|by left|right; naive_solver].
  destruct (is_mysqldump_sandbox_directive body); [left; naive_solver|].
  destruct (nested body) as [[]|e]; [left; naive_solver|right]. split; [done|]. by intros [|].
Qed.

Lemma run_accepts evs ts st o :
  observed ts st o →
  is_ok (run_events observer protocol evs st o) = true ↔
  (∀ ts', ts' ∈ split_statements ts evs → statement_safe frag ts')
  ∧ (∀ c, c ∈ comments evs → comment_accepted c).
Proof.
  revert ts st o. induction evs as [|[t|c] evs IH]; intros ts st o Hobs.
  - cbn [run_events split_statements comments omap list_omap].
    destruct (finish_accepts ts st o Hobs) as [Hf Hs]. setoid_rewrite list_elem_of_singleton.
    split.
    + intros H. split; [|by intros c ?%elem_of_nil]. intros ? ->. apply Hs.
      by destruct (statement_finish _ _ _ _) as [[]|].
    + intros [H _]. destruct Hf as (copy & st' & o' & -> & _); [by apply H|done].
  - destruct (decide (t = Semicolon)) as [->|Hne].
    + cbn [run_events split_statements]. destruct (finish_accepts ts st o Hobs) as [Hf Hs].
      setoid_rewrite elem_of_cons. destruct (statement_finish _ _ _ _) as [[[copy st'] o']|] eqn:Ef.
      * specialize (Hs eq_refl). destruct (Hf Hs) as (? & ? & ? & [= <- <- <-] & Ho').
        cbn [comments omap list_omap]. fold (comments evs). rewrite bind_of_Ok.
        rewrite (IH [] st' o' Ho').
        split; intros [H1 H2]; split; auto. intros ts' [->|]; auto.
      * split; [done|]. intros [H _]. by destruct Hf as (? & ? & ? & ? & _); [apply H; left|].
    + pose proof (observed_token ts st o t Hobs) as Hobs'. specialize (IH _ _ _ Hobs').
      destruct t; try done; exact IH.
  - cbn [run_events split_statements]. cbn [comments omap list_omap]. fold (comments evs).
    setoid_rewrite elem_of_cons. specialize (IH ts st o Hobs).
    destruct (comment_step c o) as [[-> Hc]|[He Hc]].
    + rewrite bind_of_Ok, IH. split; intros [H1 H2]; split; auto. intros c' [->|]; auto.
    + destruct (on_comment _ _ _); [done|]. split; [done|]. intros [_ H2].
      destruct Hc. apply H2. by left.
Qed.
End command_run.

(** ** What the policy accepts *)

Lemma trim_leading_length skip v : (length (trim_leading skip v) <= length v)%nat.
Proof. induction v as [|b v IH]; simpl; [done|]. case_match; simpl; lia. Qed.

Lemma strip_prefix_length p v rest :
  strip_bytes p v = Some rest → length v = (length p + length rest)%nat.
Proof.
  revert v. induction p as [|a p IH]; intros [|b v]; simpl; [naive_solver..|].
  case_match; [|done]. intros Hv%IH. lia.
Qed.

(** The body of an executable comment is shorter than the comment. *)
Lemma executable_body_shorter c body :
  executable_mysql_comment c = Ok (Some body) → (length body < length c.(comment_bytes))%nat.
Proof.
  unfold executable_mysql_comment.
  pose proof (trim_leading_length ascii_whitespace c.(comment_bytes)) as Ht.
  destruct (_ ∪ _) as [b|] eqn:Eb; [|done].
  destruct (comment_truncated c); [done|]. intros [= <-].
  pose proof (trim_leading_length ascii_whitespace (trim_leading ascii_digit (trim_leading ascii_whitespace b))).
  pose proof (trim_leading_length ascii_digit (trim_leading ascii_whitespace b)).
  pose proof (trim_leading_length ascii_whitespace b).
  assert (length b < length (trim_leading ascii_whitespace c.(comment_bytes)))%nat; [|lia].
  apply union_Some in Eb as [Eb|[_ Eb]]; [apply union_Some in Eb as [Eb|[_ Eb]]|];
    apply strip_prefix_length in Eb; simpl in Eb; lia.
Qed.

Lemma command_observer_ends nested frag n :
  (∀ body, (length body < n)%nat → nested body ≠ Err OutOfFuel) →
  observer_ends (mysql_command_observer nested frag) n.
Proof.
  intros Hn. repeat split.
  - intros c o Hc. cbn [on_comment mysql_command_observer].
    destruct (executable_mysql_comment c) as [[body|]|] eqn:E; [|done..].
    apply executable_body_shorter in E. case_match; [done|].
    apply bind_ends; [apply Hn; lia|done].
  - done.
  - intros p st o. cbn [on_statement mysql_command_observer]. unfold observe_statement.
    by repeat case_match.
Qed.

(** Nesting as deep as the text is long is enough. *)
Lemma check_ends depth sql protocol frag :
  (length sql < depth)%nat → check_shared_mysql_command depth sql protocol frag ≠ Err OutOfFuel.
Proof.
  revert sql frag. induction depth as [|depth IH]; intros sql frag Hd; [lia|].
  cbn [check_shared_mysql_command]. case_match; [done|]. apply bind_ends; [|done].
  apply scan_events_end; [|lia]. apply command_observer_ends. intros body Hb. apply IH. lia.
Qed.

Lemma mysql_not_postgres p : is_mysql_family p = true → is_postgres_family p = false.
Proof. by destruct p. Qed.

Lemma check_exact depth sql protocol frag :
  (length sql < depth)%nat → is_mysql_family protocol = true →
  check_shared_mysql_command depth sql protocol frag = Ok tt ↔ StorageSafe protocol frag sql.
Proof.
  intros Hd Hp. revert sql frag Hd. induction depth as [|depth IH]; intros sql frag Hd; [lia|].
  cbn [check_shared_mysql_command]. rewrite Hp. cbn [negb]. rewrite bind_Ok.
  unfold scan_sql_reader. setoid_rewrite scan_events_run; [|by apply mysql_not_postgres|lia].
  set (nested := λ body, check_shared_mysql_command depth body protocol true).
  assert (Hrun : ∀ evs,
    (∃ o', run_events (mysql_command_observer nested frag) protocol evs statement_default
             command_observer_new = Ok o') ↔
    (∀ ts', ts' ∈ split_statements [] evs → statement_safe frag ts')
    ∧ (∀ c, c ∈ comments evs → comment_accepted nested c)).
  { intros evs. rewrite <-(run_accepts protocol) by apply observed_start.
    destruct (run_events _ _ _ _ _) as [o'|].
    - split; [done|]. intros _. by exists o'.
    - split; [by intros [? ?]|done]. }
  assert (Hacc : ∀ c, (length c.(comment_bytes) < length sql)%nat → comment_accepted nested c ↔
    is_ok (executable_mysql_comment c) = true
    ∧ ∀ body, executable_mysql_comment c = Ok (Some body) →
        is_mysqldump_sandbox_directive body = false → StorageSafe protocol true body).
  { intros c Hc. unfold comment_accepted.
    destruct (executable_mysql_comment c) as [[body|]|] eqn:E;
      [|split; [by split|done]|split; [done|by intros [? _]]].
    apply executable_body_shorter in E. unfold nested. rewrite IH by lia. split.
    - intros [Hs|Hs]; (split; [done|]); intros ? [= <-] Hn; [congruence|done].
    - intros [_ Hs]. destruct (is_mysqldump_sandbox_directive body) eqn:Es; [by left|].
      right. by apply Hs. }
  split.
  - intros (o' & (evs & Hl & Hr) & _).
    destruct (proj1 (Hrun evs)) as [Hs Hc]; [by exists o'|].
    assert (Hc' : ∀ c, c ∈ comments evs → (length c.(comment_bytes) < length sql)%nat).
    { intros c ([t|c'] & Hin & [= ->])%list_elem_of_omap. by eapply Lexes_comment_length. }
    apply (storage_safe _ _ _ evs Hl Hs).
    + intros c Hin. by apply (Hacc c (Hc' c Hin)), Hc.
    + intros c body Hin. by apply (Hacc c (Hc' c Hin)), Hc.
  - intros Hsafe. inversion Hsafe as [? ? evs Hl Hs Ho Hb]; subst.
    destruct (proj2 (Hrun evs)) as [o' Hr]; [|by exists o'; split; [exists evs|]].
    split; [done|]. intros c Hin. apply Hacc; [|split; [by apply Ho|intros; by eapply Hb]].
    apply list_elem_of_omap in Hin as ([t|c'] & Hin & [= ->]). by eapply Lexes_comment_length.
Qed.

(** C13. What the gateway's policy accepts from a shared tenant is exactly a command
    of a MySQL-family protocol whose statements, as the scanner delimits them
    and however long they are, hold no forbidden keyword run and create no
    database, and whose executable comments are complete and accepted in turn;
    the check always returns. *)
Theorem storage_policy_exact sql protocol :
  (validate_shared_mysql_command sql protocol = Ok tt ↔
   is_mysql_family protocol = true ∧ StorageSafe protocol false sql)
  ∧ validate_shared_mysql_command sql protocol ≠ Err OutOfFuel.
Proof.
  unfold validate_shared_mysql_command. split; [|apply check_ends; lia].
  destruct (is_mysql_family protocol) eqn:Hp.
  - rewrite check_exact by (done || lia). split; [done|]. by intros [_ ?].
  - cbn. rewrite Hp. split; [done|]. by intros [? _].
Qed.

(** ** Two limits of the policy *)

(** [n] line comments, each the executable body of the one before. *)
Definition nested_comments (n : nat) : bytes := concat (replicate n (lit "#!")).

Lemma nested_comments_S n : nested_comments (S n) = "#"%byte :: "!"%byte :: nested_comments n.
Proof. done. Qed.

Lemma nested_comments_length n : length (nested_comments n) = (2 * n)%nat.
Proof. induction n as [|n IH]; [done|]. rewrite nested_comments_S. simpl. lia. Qed.

Lemma nested_comments_text n :
  Forall (λ b, is_byte x0a b = false) (nested_comments n)
  ∧ to_ascii_lowercase <$> nested_comments n = nested_comments n.
Proof.
  induction n as [|n [IH1 IH2]]; [done|]. rewrite nested_comments_S. split.
  - by repeat constructor.
  - rewrite !fmap_cons, IH2. done.
Qed.

Lemma read_line_comment_all c input :
  Forall (λ b, is_byte x0a b = false) input →
  zlength c.(comment_bytes) + zlength input ≤ MAX_CAPTURED_COMMENT_BYTES →
  read_line_comment c input
  = (mkSqlComment (c.(comment_bytes) ++ (to_ascii_lowercase <$> input)) c.(comment_truncated), []).
Proof.
  intros Hn. revert c. induction Hn as [|b input Hb _ IH]; intros c Hl; simpl.
  - rewrite app_nil_r. by destruct c.
  - rewrite Hb. simpl in Hl. unfold capture_comment_byte.
    rewrite (proj2 (Z.ltb_lt _ _)) by lia.
    rewrite IH by (simpl; rewrite length_app; simpl; lia). simpl. by rewrite <-app_assoc.
Qed.

Lemma nested_comments_event bsl n :
  Z.of_nat n < 32768 →
  next_event bsl (nested_comments (S n))
  = Ok (Some (EvComment (mkSqlComment ("!"%byte :: nested_comments n) false), [])).
Proof.
  intros Hn. destruct (nested_comments_text n) as [Hb Hl].
  rewrite nested_comments_S.
  assert (Hr : read_line_comment empty_comment ("!"%byte :: nested_comments n)
               = (mkSqlComment ("!"%byte :: nested_comments n) false, [])).
  { rewrite read_line_comment_all.
    - rewrite fmap_cons, Hl. done.
    - by constructor.
    - cbn [comment_bytes empty_comment length]. rewrite nested_comments_length.
      unfold MAX_CAPTURED_COMMENT_BYTES. lia. }
  cbn -[read_line_comment]. by rewrite Hr.
Qed.

Lemma nested_comments_body n :
  executable_mysql_comment (mkSqlComment ("!"%byte :: nested_comments n) false)
  = Ok (Some (nested_comments n))
  ∧ is_mysqldump_sandbox_directive (nested_comments n) = false.
Proof. by destruct n. Qed.

Lemma nested_comments_check depth n frag :
  Z.of_nat n < 32768 →
  check_shared_mysql_command (S depth) (nested_comments (S n)) Mysql frag
  = check_shared_mysql_command depth (nested_comments n) Mysql true.
Proof.
  intros Hn. cbn [check_shared_mysql_command is_mysql_family family negb].
  unfold scan_sql_reader. cbn [scan_events]. rewrite nested_comments_event by done.
  cbn [sql_inspected result_map_err]. rewrite bind_of_Ok. cbn [on_comment mysql_command_observer].
  destruct (nested_comments_body n) as [-> ->].
  destruct (check_shared_mysql_command depth _ _ _) as [[]|e]; [|done].
  by rewrite nested_comments_length.
Qed.

(** The calls of the check nest as deep as a tenant writes: [n] line comments
    that open with an exclamation mark, [2 n] bytes, need [n + 1] nested
    calls, up to 32768 of them. *)
Theorem comment_nesting_unbounded n frag :
  Z.of_nat n ≤ 32768 →
  check_shared_mysql_command n (nested_comments n) Mysql frag = Err OutOfFuel
  ∧ check_shared_mysql_command (S n) (nested_comments n) Mysql frag = Ok tt.
Proof.
  revert frag. induction n as [|n IH]; intros frag Hn; [done|].
  rewrite !nested_comments_check by lia. apply IH. lia.
Qed.

Lemma comment_nesting_unbounded_witness :
  check_shared_mysql_command 3 (lit "#!#!#!") Mysql false = Err OutOfFuel
  ∧ check_shared_mysql_command 4 (lit "#!#!#!") Mysql false = Ok tt.
Proof. apply (comment_nesting_unbounded 3 false). vm_compute. discriminate. Defined.
