(* ===== verification/Relay.v ===== *)
(** * The relays of authenticated sessions

    [src/src/app/gateway/listeners/listener_io/]: the upload halves of
    [proxy_mysql_session], [proxy_mongodb_session] and
    [proxy_postgres_session], which forward the client's messages to the
    backend once the login is over, with the classification of their commands
    and the buffer budget of [src/src/app/gateway/buffers.rs].

    A relay is a function of the bytes the client sends before it closes. It
    returns what it wrote to the backend, the operations it counted, and how
    it ended; the download half copies bytes and is not modelled. Where the
    code waits for a bounded time, the moment the deadline passes is an
    argument. *)
From Stdlib Require Import Strings.Byte.
From S2P Require Import Prelude Bytes Engines Sessions SqlScan SqlPolicy.

Local Open Scope Z_scope.

(** ** Constants *)

Definition MYSQL_COM_CHANGE_USER : byte := x11.
Definition MYSQL_COM_CREATE_DB : byte := x05.
Definition MYSQL_COM_DROP_DB : byte := x06.
Definition MYSQL_COM_QUERY : byte := x03.
Definition MYSQL_COM_STMT_PREPARE : byte := x16.
Definition MYSQL_COM_STMT_EXECUTE : byte := x17.
Definition MYSQL_MAX_SINGLE_PACKET_PAYLOAD : Z := 16777215.
Definition MONGODB_OP_QUERY : Z := 2004.
Definition MONGODB_OP_COMPRESSED : Z := 2012.
Definition MONGODB_OP_MSG : Z := 2013.
Definition MONGODB_MAX_CSTRING_BYTES : Z := 1024.
Definition MAX_WIRE_MESSAGE_BYTES : Z := 48000000.
Definition SQL_PREFIX_BYTES : nat := 512.

Inductive OperationKind := KRead | KWrite | KDdl | KOther.
#[export] Instance OperationKind_eq_dec : EqDecision OperationKind.
Proof. solve_decision. Defined.

(** ** Classification *)

Definition SQL_READ_KEYWORDS : list string := ["SELECT"; "SHOW"; "DESCRIBE"; "DESC"; "EXPLAIN"].
Definition SQL_WRITE_KEYWORDS : list string :=
  ["INSERT"; "UPDATE"; "DELETE"; "REPLACE"; "MERGE"; "LOAD"].
Definition SQL_DDL_KEYWORDS : list string :=
  ["CREATE"; "ALTER"; "DROP"; "TRUNCATE"; "RENAME"; "GRANT"; "REVOKE"].
Definition MONGODB_READ_COMMANDS : list string :=
  ["find"; "getMore"; "aggregate"; "count"; "distinct"].
Definition MONGODB_WRITE_COMMANDS : list string :=
  ["insert"; "update"; "delete"; "findAndModify"; "bulkWrite"].
Definition MONGODB_DDL_COMMANDS : list string :=
  ["create"; "drop"; "renameCollection"; "createIndexes"; "dropIndexes"].
Definition MONGODB_IDENTITY_COMMANDS : list string :=
  ["saslStart"; "saslContinue"; "authenticate"; "logout"; "getnonce"; "hello"; "isMaster";
   "ismaster"; "$query"].

Definition matches_any_ignore_case (word : bytes) (candidates : list string) : bool :=
  existsb (λ candidate, eq_ignore_ascii_case word (lit candidate)) candidates.

Definition classify_word (read write ddl : list string) (word : bytes) : OperationKind :=
  if matches_any_ignore_case word read then KRead
  else if matches_any_ignore_case word write then KWrite
  else if matches_any_ignore_case word ddl then KDdl
  else KOther.

(** [comment.windows(2).position(|window| window == b"*/")]. *)
Fixpoint comment_end (v : bytes) : option nat :=
  match v with
  | [] => None
  | a :: v' =>
      match v' with
      | [] => None
      | b :: _ => if is_byte "*" a && is_byte "/" b then Some 0%nat else S <$> comment_end v'
      end
  end.

(** [sql_keyword]; each turn of the loop consumes at least one byte. *)
Fixpoint sql_keyword_loop (fuel : nat) (sql : bytes) : option bytes :=
  match fuel with
  | O => None
  | S fuel =>
      let start := default (length sql)
        (position (λ b, negb (ascii_whitespace b) && negb (is_byte ";" b)) sql) in
      let sql := drop start sql in
      match sql with
      | [] => None
      | first :: _ =>
          if bool_decide (take 2 sql = lit "--") || is_byte "#" first then
            stop ← position (is_byte x0a) sql; sql_keyword_loop fuel (drop (stop + 1) sql)
          else
            match strip_bytes (lit "/*") sql with
            | Some comment =>
                stop ← comment_end comment; sql_keyword_loop fuel (drop (stop + 2) comment)
            | None =>
                let stop := default (length sql)
                  (position (λ b, negb (ascii_alphanumeric b) && negb (is_byte "_" b)) sql) in
                if (0 <? stop)%nat then Some (take stop sql) else None
            end
      end
  end.
Definition sql_keyword (sql : bytes) : option bytes := sql_keyword_loop (S (length sql)) sql.

Definition classify_sql (sql : bytes) : OperationKind :=
  match sql_keyword sql with
  | None => KOther
  | Some keyword =>
      classify_word SQL_READ_KEYWORDS SQL_WRITE_KEYWORDS SQL_DDL_KEYWORDS keyword
  end.

Definition classify_mongodb (command : bytes) : OperationKind :=
  classify_word MONGODB_READ_COMMANDS MONGODB_WRITE_COMMANDS MONGODB_DDL_COMMANDS command.

(** ** The buffer budget *)

Section query_budget.
Context {Sem : Type} `{Semaphore Sem}.

Record QueryBudget := mkQueryBudget { tenant_sem : Sem; global_sem : Sem }.

(** [QueryBudget::reserve]: both semaphores, or neither. *)
Definition query_reserve (n : Z) (b : QueryBudget) : option QueryBudget :=
  if u32_max <? n then None
  else
    tenant ← try_acquire_many n b.(tenant_sem);
    global ← try_acquire_many n b.(global_sem);
    Some (mkQueryBudget tenant global).
End query_budget.
Arguments QueryBudget : clear implicits.

(** ** Runs of a relay *)

Inductive RelayError :=
  | IdentitySwitchRejected
  | SharedStorageCommandRejected (reason : string)
  | MalformedMessage
  | UnexpectedEof
  | InvalidData
  | BufferCapacityReached
  | TransferTimedOut.

Record RelayLog := mkRelayLog {
  to_backend : bytes;
  accepted : list OperationKind;
  rejected : list OperationKind;
}.

(** What was written and counted, and how the upload ended; [Ok tt] when the
    client closed and the backend was shut down. *)
Definition Run : Type := RelayLog * result (Stop RelayError) unit.

Definition finished : Run := (mkRelayLog [] [] [], Ok tt).
Definition stopped (e : RelayError) : Run := (mkRelayLog [] [] [], Err (Failed e)).

(** The run that first writes, accepts or rejects, then goes on. *)
Definition sending (v : bytes) (r : Run) : Run :=
  (mkRelayLog (v ++ r.1.(to_backend)) r.1.(accepted) r.1.(rejected), r.2).
Definition accepting (k : OperationKind) (r : Run) : Run :=
  (mkRelayLog r.1.(to_backend) (k :: r.1.(accepted)) r.1.(rejected), r.2).
Definition rejecting (k : OperationKind) (r : Run) : Run :=
  (mkRelayLog r.1.(to_backend) r.1.(accepted) (k :: r.1.(rejected)), r.2).

(** [copy_exact]: what is there is copied before the missing rest is noticed. *)
Definition copy_exact (n : nat) (client : bytes) (next : bytes → Run) : Run :=
  match read_exact n client with
  | Some (payload, client) => sending payload (next client)
  | None => sending client (stopped UnexpectedEof)
  end.

(** ** PostgreSQL *)

Fixpoint postgres_upload (fuel : nat) (client : bytes) : Run :=
  match fuel with
  | O => (mkRelayLog [] [] [], Err OutOfFuel)
  | S fuel =>
      match client with
      | [] => finished
      | kind :: client =>
          match read_exact 4 client with
          | None => stopped UnexpectedEof
          | Some (size, client) =>
              let len := from_be size in
              if len <? 4 then stopped InvalidData
              else
                sending (kind :: size)
                  (let remaining := Z.to_nat (len - 4) in
                   let prefix_len := Nat.min remaining SQL_PREFIX_BYTES in
                   match read_exact prefix_len client with
                   | None => stopped UnexpectedEof
                   | Some (prefix, client) =>
                       sending prefix
                         (copy_exact (remaining - prefix_len) client (λ client,
                            let rest := postgres_upload fuel client in
                            if is_byte "Q" kind then accepting (classify_sql prefix) rest
                            else if is_byte "E" kind then accepting KOther rest
                            else rest))
                   end)
          end
      end
  end.

Definition proxy_postgres_session (client : bytes) : Run :=
  postgres_upload (S (length client)) client.

(** ** MySQL and MariaDB *)

Definition mysql_payload_len (header : bytes) : Z :=
  match header with
  | h0 :: h1 :: h2 :: _ => Z.lor (Z.lor (b2z h0) (Z.shiftl (b2z h1) 8)) (Z.shiftl (b2z h2) 16)
  | _ => 0
  end.

(** When [QUERY_BODY_TIMEOUT] passes: never, before the whole command was
    read, or when that many bytes of it were written. *)
Inductive Deadline := DeadlineMet | ExpiredReading | ExpiredWriting (written : nat).

Section mysql.
Context {Sem : Type} `{Semaphore Sem} (protocol : Protocol) (shared : bool).
Context (budget : nat → QueryBudget Sem) (deadline : nat → Deadline).

(** The packets of a shared tenant that are inspected in full. *)
Definition mysql_inspected (first : byte) : bool :=
  is_byte MYSQL_COM_QUERY first || is_byte MYSQL_COM_STMT_PREPARE first.

(** The message of a [MysqlCommandPolicyError]; the check does not run out of
    its bound ([storage_policy_exact]). *)
Definition policy_message (e : Stop MysqlCommandPolicyError) : string :=
  match e with
  | Failed StorageEscape =>
      "shared MySQL-family tenants cannot change database or physical storage layout"
  | Failed DynamicSql => "shared MySQL-family tenants cannot execute dynamically prepared SQL"
  | Failed PolicyInvalid => "the shared MySQL-family command could not be validated safely"
  | OutOfFuel => EmptyString
  end.

(** What happens to an inspected command that was read completely. *)
Definition forward_inspected (turn : nat) (header : bytes) (first : byte) (body : bytes)
    (next : Run) : Run :=
  match validate_shared_mysql_command body protocol with
  | Err e => rejecting (classify_sql body) (stopped (SharedStorageCommandRejected (policy_message e)))
  | Ok _ =>
      match deadline turn with
      | ExpiredWriting written =>
          sending (take written (header ++ first :: body)) (stopped TransferTimedOut)
      | _ => sending header (sending (first :: body) (accepting (classify_sql body) next))
      end
  end.

(** A packet that is streamed: its header and first byte, at most 512 bytes
    that classify it, and the rest. *)
Definition forward_streamed (header : bytes) (first : byte) (remaining : nat) (client : bytes)
    (next : bytes → bytes → Run) : Run :=
  sending header (sending [first]
    (let prefix_len := Nat.min remaining SQL_PREFIX_BYTES in
     match read_exact prefix_len client with
     | None => stopped UnexpectedEof
     | Some (prefix, client) =>
         sending prefix (copy_exact (remaining - prefix_len) client (next prefix))
     end)).

(** The activity of a streamed packet: the kind it begins or completes, and
    the command that goes on. *)
Definition streamed_activity (is_command : bool) (first : byte) (prefix : bytes) (len : Z)
    (continued : option OperationKind) : option OperationKind * option OperationKind :=
  let kind :=
    if is_command then
      if mysql_inspected first then Some (classify_sql prefix)
      else if is_byte MYSQL_COM_STMT_EXECUTE first then Some KOther
      else None
    else None in
  match kind with
  | Some kind =>
      if len =? MYSQL_MAX_SINGLE_PACKET_PAYLOAD then (None, Some kind) else (Some kind, continued)
  | None =>
      if negb is_command && (len <? MYSQL_MAX_SINGLE_PACKET_PAYLOAD)
      then (continued, None) else (None, continued)
  end.

Definition accepting_opt (k : option OperationKind) (r : Run) : Run :=
  match k with Some k => accepting k r | None => r end.

Fixpoint mysql_upload (fuel : nat) (continued : option OperationKind) (client : bytes) : Run :=
  match fuel with
  | O => (mkRelayLog [] [] [], Err OutOfFuel)
  | S fuel =>
      match client with
      | [] => finished
      | h0 :: client =>
          match read_exact 3 client with
          | None => stopped UnexpectedEof
          | Some (h, client) =>
              let header := h0 :: h in
              let len := mysql_payload_len header in
              let is_command := bool_decide (header !! 3%nat = Some x00) in
              let continued := if is_command then None else continued in
              if len =? 0 then
                sending header
                  (if negb is_command
                   then accepting_opt continued (mysql_upload fuel None client)
                   else mysql_upload fuel continued client)
              else
                match client with
                | [] => stopped UnexpectedEof
                | first :: client =>
                    if is_command && is_byte MYSQL_COM_CHANGE_USER first
                    then rejecting KOther (stopped IdentitySwitchRejected)
                    else if shared && is_command
                            && (is_byte MYSQL_COM_CREATE_DB first || is_byte MYSQL_COM_DROP_DB first)
                    then rejecting KDdl
                           (stopped (SharedStorageCommandRejected
                              "raw database create/drop commands are unavailable to shared tenants"))
                    else if shared && is_command && mysql_inspected first then
                      if len =? MYSQL_MAX_SINGLE_PACKET_PAYLOAD
                      then rejecting KOther
                             (stopped (SharedStorageCommandRejected
                                "SQL command exceeds the bounded single-packet policy"))
                      else match query_reserve len (budget fuel) with
                      | None => stopped BufferCapacityReached
                      | Some _ =>
                          match deadline fuel, read_exact (Z.to_nat (len - 1)) client with
                          | ExpiredReading, _ => stopped TransferTimedOut
                          | _, None => stopped UnexpectedEof
                          | _, Some (body, client) =>
                              forward_inspected fuel header first body
                                (mysql_upload fuel continued client)
                          end
                      end
                    else
                      forward_streamed header first (Z.to_nat (len - 1)) client (λ prefix client,
                        let '(counted, continued) :=
                          streamed_activity is_command first prefix len continued in
                        accepting_opt counted (mysql_upload fuel continued client))
                end
          end
      end
  end.

Definition proxy_mysql_session (client : bytes) : Run :=
  mysql_upload (S (length client)) None client.
End mysql.

(** ** MongoDB *)

Definition i32_le (v : bytes) : Z := as_i32 (from_le v).

(** A prefix that is being read: its bytes and what is left of the client's. *)
Definition append_exact (n : nat) (message_len : Z) (s : bytes * bytes) :
    result RelayError (bytes * bytes) :=
  match checked_add usize_max (zlength s.1) (Z.of_nat n) with
  | None => Err MalformedMessage
  | Some stop =>
      if message_len <? stop then Err MalformedMessage
      else
        '(v, client) ← ok_or (read_exact n s.2) UnexpectedEof;
        Ok (s.1 ++ v, client)
  end.

(** [append_cstring]: the value, and the prefix with the value and its
    terminator. *)
Fixpoint append_cstring (client : bytes) (message_len : Z) (prefix value : bytes) :
    result RelayError (bytes * (bytes * bytes)) :=
  if (MONGODB_MAX_CSTRING_BYTES <=? zlength value) || (message_len <=? zlength prefix)
  then Err MalformedMessage
  else match client with
  | [] => Err UnexpectedEof
  | b :: client =>
      if is_nul b then Ok (value, (prefix ++ [b], client))
      else append_cstring client message_len (prefix ++ [b]) (value ++ [b])
  end.

Definition read_mongodb_command_key (message_len : Z) (s : bytes * bytes) :
    result RelayError (bytes * (bytes * bytes)) :=
  let start := length s.1 in
  s ← append_exact 5 message_len s;
  let document_len := i32_le (take 4 (drop start s.1)) in
  if (document_len <? 5) || (message_len - Z.of_nat start <? document_len)
  then Err MalformedMessage
  else if bool_decide (s.1 !! (start + 4)%nat = Some x00) then Err MalformedMessage
  else append_cstring s.2 message_len s.1 [].

Definition is_mongodb_identity_command (command : bytes) : bool :=
  matches_any_ignore_case command MONGODB_IDENTITY_COMMANDS.

(** [slice::ends_with]. *)
Definition ends_with_bytes (suffix v : bytes) : bool :=
  bool_decide (drop (length v - length suffix) v = suffix).

(** The command of a message, with the prefix that was read for it. *)
Definition read_mongodb_command (opcode message_len : Z) (header client : bytes) :
    result RelayError (option bytes * (bytes * bytes)) :=
  if opcode =? MONGODB_OP_MSG then
    s ← append_exact 5 message_len (header, client);
    if negb (bool_decide (s.1 !! 20%nat = Some x00)) then Err MalformedMessage
    else
      '(command, s) ← read_mongodb_command_key message_len s;
      Ok (Some command, s)
  else if opcode =? MONGODB_OP_QUERY then
    s ← append_exact 4 message_len (header, client);
    '(collection, s) ← append_cstring s.2 message_len s.1 [];
    s ← append_exact 8 message_len s;
    '(command, s) ← read_mongodb_command_key message_len s;
    Ok (then_some (ends_with_bytes (lit ".$cmd") collection) command, s)
  else Ok (None, (header, client)).

(** The prefix that was read and checked, with the length of its message and
    its command; [None] when the client closed. *)
Definition read_mongodb_prefix (client : bytes) :
    result RelayError (option (bytes * Z * option bytes * bytes)) :=
  match client with
  | [] => Ok None
  | h0 :: client =>
      '(h, client) ← ok_or (read_exact 15 client) UnexpectedEof;
      let header := h0 :: h in
      let message_len := i32_le (take 4 header) in
      if negb ((16 <=? message_len) && (message_len <=? MAX_WIRE_MESSAGE_BYTES))
      then Err MalformedMessage
      else
        let opcode := i32_le (take 4 (drop 12 header)) in
        if opcode =? MONGODB_OP_COMPRESSED then Err IdentitySwitchRejected
        else
          '(command, (prefix, client)) ← read_mongodb_command opcode message_len header client;
          if default false (is_mongodb_identity_command <$> command)
          then Err IdentitySwitchRejected
          else Ok (Some (prefix, message_len, command, client))
  end.

Fixpoint mongodb_upload (fuel : nat) (client : bytes) : Run :=
  match fuel with
  | O => (mkRelayLog [] [] [], Err OutOfFuel)
  | S fuel =>
      match read_mongodb_prefix client with
      | Err IdentitySwitchRejected => rejecting KOther (stopped IdentitySwitchRejected)
      | Err e => stopped e
      | Ok None => finished
      | Ok (Some (prefix, message_len, command, client)) =>
          sending prefix
            (copy_exact (Z.to_nat (message_len - zlength prefix)) client (λ client,
               accepting_opt (classify_mongodb <$> command) (mongodb_upload fuel client)))
      end
  end.

Definition proxy_mongodb_session (client : bytes) : Run :=
  mongodb_upload (S (length client)) client.

(** ** The first keyword *)

Lemma strip_prefix_drop p v rest : strip_bytes p v = Some rest → v = p ++ rest.
Proof.
  revert v. induction p as [|a p IH]; intros [|b v]; simpl; [naive_solver..|].
  destruct (is_byte a b) eqn:Hb; [|done]. apply is_byte_true in Hb as ->.
  intros H%IH. by rewrite H.
Qed.

(** The loop returns for any text: each turn that goes on consumes a byte. *)
Lemma sql_keyword_fuel sql fuel :
  (length sql < fuel)%nat → sql_keyword_loop fuel sql = sql_keyword sql.
Proof.
  unfold sql_keyword. remember (S (length sql)) as fuel' eqn:Hf'.
  assert (Hl' : (length sql < fuel')%nat) by lia. clear Hf'.
  revert fuel fuel' Hl'. induction sql as [sql IH] using length_ind.
  intros [|fuel] [|fuel'] Hl' Hl; [lia..|]. cbn [sql_keyword_loop].
  set (w := drop _ sql). assert (Hv : (length w <= length sql)%nat) by (unfold w; rewrite length_drop; lia).
  destruct w as [|first w1] eqn:Ew; [done|].
  destruct (_ || is_byte "#" first).
  - destruct (position (is_byte x0a) (first :: w1)) as [stop|]; [|done]. simpl mbind.
    assert ((length (drop (stop + 1) (first :: w1)) < length sql)%nat)
      by (rewrite length_drop; simpl in *; lia).
    apply IH; lia.
  - destruct (strip_bytes _ _) as [comment|] eqn:Es; [|done].
    apply strip_prefix_drop in Es. apply (f_equal length) in Es. rewrite length_app in Es.
    destruct (comment_end comment) as [stop|]; [|done]. simpl mbind.
    assert ((length (drop (stop + 2) comment) < length sql)%nat)
      by (rewrite length_drop; simpl in *; lia).
    apply IH; lia.
Qed.

(** ** What a relay forwards *)

(** [Relayed ok out]: [out] is a sequence of messages that satisfy [ok], the
    last of which may be cut short. *)
Inductive Relayed (ok : bytes → Prop) : bytes → Prop :=
  | relayed_nil : Relayed ok []
  | relayed_cut m p : ok m → p `prefix_of` m → Relayed ok p
  | relayed_message m rest : ok m → Relayed ok rest → Relayed ok (m ++ rest).

(** A relay that forwarded [r] of [client]: only messages that satisfy [ok],
    nothing but what the client sent, and all of it when the session ends
    without an error. *)
Definition relays (ok : bytes → Prop) (client : bytes) (r : Run) : Prop :=
  Relayed ok r.1.(to_backend)
  ∧ r.1.(to_backend) `prefix_of` client
  ∧ r.2 ≠ Err OutOfFuel
  ∧ (r.2 = Ok tt → r.1.(to_backend) = client).

Lemma sending_app a b r : sending a (sending b r) = sending (a ++ b) r.
Proof. unfold sending. simpl. by rewrite app_assoc. Qed.

Lemma sending_nil r : sending [] r = r.
Proof. by destruct r as [[? ? ?] ?]. Qed.

Lemma relays_finished ok : relays ok [] finished.
Proof. split; [constructor|]. done. Qed.

Lemma relays_stopped ok client e : relays ok client (stopped e).
Proof. split; [constructor|]. split; [apply prefix_nil|]. done. Qed.

Lemma relays_rejecting ok client k r : relays ok client r → relays ok client (rejecting k r).
Proof. done. Qed.

Lemma relays_accepting ok client k r : relays ok client r → relays ok client (accepting_opt k r).
Proof. by destruct k. Qed.

Lemma relays_message ok m client r :
  ok m → relays ok client r → relays ok (m ++ client) (sending m r).
Proof.
  intros Hm (Hr & Hp & Hf & Ho). split; [by apply relayed_message|].
  split; [by apply prefix_app|]. split; [done|]. intros H. simpl. by rewrite Ho.
Qed.

Lemma relays_cut ok m p client e :
  ok m → p `prefix_of` m → p `prefix_of` client → relays ok client (sending p (stopped e)).
Proof.
  intros Hm Hp Hc. split; [|split]; simpl; rewrite ?app_nil_r; [by eapply relayed_cut|done|done].
Qed.

(** The copy of what is left of a message. *)
Lemma copy_exact_cases n client next :
  (∃ payload rest, client = payload ++ rest ∧ length payload = n
                   ∧ copy_exact n client next = sending payload (next rest))
  ∨ ((length client < n)%nat ∧ copy_exact n client next = sending client (stopped UnexpectedEof)).
Proof.
  unfold copy_exact. destruct (read_exact n client) as [[payload rest]|] eqn:E.
  - apply read_exact_Some in E as [-> <-]. left. by exists payload, rest.
  - right. split; [|done]. unfold read_exact in E.
    destruct (Nat.leb_spec n (length client)); [done|lia].
Qed.

(** ** The PostgreSQL relay *)

(** A frontend message: its type, its length and its body. *)
Definition postgres_frame (m : bytes) : Prop :=
  ∃ kind size body, m = kind :: size ++ body ∧ length size = 4%nat
                    ∧ from_be size = 4 + zlength body.

(** Bytes that stand for the rest of a message that was cut short. *)
Lemma padding (v : bytes) n :
  (length v < n)%nat → ∃ pad, length (v ++ pad) = n.
Proof. intros. exists (replicate (n - length v) x00). rewrite length_app, length_replicate. lia. Qed.

(** The body of a message that is streamed in two parts. *)
Lemma streamed_cases (remaining : nat) client (next : bytes → bytes → Run) :
  let prefix_len := Nat.min remaining SQL_PREFIX_BYTES in
  let r := match read_exact prefix_len client with
           | None => stopped UnexpectedEof
           | Some (prefix, client) =>
               sending prefix (copy_exact (remaining - prefix_len) client (next prefix))
           end in
  (∃ prefix body rest, client = prefix ++ body ++ rest ∧ length (prefix ++ body) = remaining
                       ∧ r = sending (prefix ++ body) (next prefix rest))
  ∨ (∃ p, (length client < remaining)%nat ∧ p `prefix_of` client
          ∧ r = sending p (stopped UnexpectedEof)).
Proof.
  cbv zeta. set (n := Nat.min remaining SQL_PREFIX_BYTES).
  assert (Hn : (n <= remaining)%nat) by lia.
  destruct (read_exact n client) as [[prefix client']|] eqn:E.
  - apply read_exact_Some in E as [-> Hl].
    destruct (copy_exact_cases (remaining - n) client' (next prefix))
      as [(body & rest & -> & Hb & ->)|(Hs & ->)]; rewrite sending_app.
    + left. exists prefix, body, rest. split; [done|]. rewrite length_app. split; [lia|done].
    + right. exists (prefix ++ client'). rewrite length_app. split; [lia|done].
  - right. exists []. split; [|split; [apply prefix_nil|by rewrite sending_nil]].
    unfold read_exact in E. destruct (Nat.leb_spec n (length client)); [done|lia].
Qed.

Lemma postgres_upload_relays fuel client :
  (length client < fuel)%nat → relays postgres_frame client (postgres_upload fuel client).
Proof.
  revert client. induction fuel as [|fuel IH]; intros client Hf; [lia|]. cbn [postgres_upload].
  destruct client as [|kind client]; [apply relays_finished|].
  destruct (read_exact 4 client) as [[size client']|] eqn:E; [|apply relays_stopped].
  apply read_exact_Some in E as [-> Hs].
  destruct (Z.ltb_spec (from_be size) 4) as [Hl|Hl]; [apply relays_stopped|].
  set (next := λ prefix client, let rest := postgres_upload fuel client in
    if is_byte "Q" kind then accepting (classify_sql prefix) rest
    else if is_byte "E" kind then accepting KOther rest else rest).
  simpl in Hf. rewrite length_app, Hs in Hf.
  assert (Hnext : ∀ prefix client', (length client' < fuel)%nat →
            relays postgres_frame client' (next prefix client')).
  { intros prefix c Hc. unfold next. repeat case_match; by apply IH. }
  set (remaining := Z.to_nat (from_be size - 4)).
  destruct (streamed_cases remaining client' next) as [(prefix & body & rest & -> & Hb & Hr)|(p & Hb & Hp & Hr)];
    unfold next in Hr at 1; cbv zeta in Hr |- *; rewrite Hr; clear Hr; rewrite sending_app.
  - rewrite (app_assoc prefix), app_comm_cons, app_assoc. apply relays_message.
    + exists kind, size, (prefix ++ body). split; [done|]. split; [done|].
      rewrite Hb. unfold remaining. lia.
    + apply Hnext. rewrite !length_app in Hf. lia.
  - destruct (padding client' remaining Hb) as [pad Hpad].
    apply (relays_cut _ (kind :: size ++ client' ++ pad)).
    + exists kind, size, (client' ++ pad). split; [done|]. split; [done|].
      rewrite Hpad. unfold remaining. lia.
    + apply prefix_cons, prefix_app. by apply prefix_app_r.
    + by apply prefix_cons, prefix_app.
Qed.

(** ** The MySQL relay *)

Lemma payload_len_spec header :
  length header = 4%nat → mysql_payload_len header = from_le (take 3 header)
                          ∧ 0 ≤ mysql_payload_len header ≤ MYSQL_MAX_SINGLE_PACKET_PAYLOAD.
Proof.
  intros Hl. destruct header as [|h0 [|h1 [|h2 rest]]]; simplify_eq/=.
  pose proof (b2z_range h0) as H0. pose proof (b2z_range h1) as H1. pose proof (b2z_range h2) as H2.
  unfold mysql_payload_len, MYSQL_MAX_SINGLE_PACKET_PAYLOAD.
  rewrite !lor_disjoint by (rewrite ?lor_disjoint; lia). lia.
Qed.

Section mysql_relay.
Context {Sem : Type} `{Semaphore Sem} (protocol : Protocol) (shared : bool).

(** A packet a session may send to its backend: no command packet that
    switches the user; and of a shared tenant no raw creation or removal of a
    database, and no text command the storage policy does not accept. *)
Definition mysql_allowed (header payload : bytes) : Prop :=
  ∀ first body, header !! 3%nat = Some x00 → payload = first :: body →
    first ≠ MYSQL_COM_CHANGE_USER
    ∧ (shared = true →
       first ≠ MYSQL_COM_CREATE_DB ∧ first ≠ MYSQL_COM_DROP_DB
       ∧ (first = MYSQL_COM_QUERY ∨ first = MYSQL_COM_STMT_PREPARE →
          is_mysql_family protocol = true ∧ StorageSafe protocol false body)).

Definition mysql_packet (m : bytes) : Prop :=
  ∃ header payload, m = header ++ payload ∧ length header = 4%nat
    ∧ zlength payload = mysql_payload_len header ∧ mysql_allowed header payload.

Lemma validated_safe body :
  is_ok (validate_shared_mysql_command body protocol) = true →
  is_mysql_family protocol = true ∧ StorageSafe protocol false body.
Proof.
  unfold validate_shared_mysql_command. destruct (is_mysql_family protocol) eqn:Hp.
  - intros H0. split; [done|]. apply (check_exact (S (length body))); [lia|done|].
    by destruct (check_shared_mysql_command _ _ _ _) as [[]|].
  - cbn. by rewrite Hp.
Qed.

Lemma is_byte_false c b : is_byte c b = false → b ≠ c.
Proof. apply bool_decide_eq_false. Qed.

(** What the relay checks before it streams a packet. *)
Definition streamable (is_command : bool) (first : byte) : Prop :=
  is_command && is_byte MYSQL_COM_CHANGE_USER first = false
  ∧ shared && is_command
    && (is_byte MYSQL_COM_CREATE_DB first || is_byte MYSQL_COM_DROP_DB first) = false
  ∧ shared && is_command && mysql_inspected first = false.

Lemma streamable_allowed header first body :
  streamable (bool_decide (header !! 3%nat = Some x00)) first →
  mysql_allowed header (first :: body).
Proof.
  intros (H1 & H2 & H3) f b Hc [= <- <-]. rewrite bool_decide_true in H1, H2, H3 by done.
  split; [by apply is_byte_false|]. intros ->. cbn [andb] in H2, H3.
  apply orb_false_iff in H2 as [H2 H2']. apply orb_false_iff in H3 as [H3 H3'].
  split; [by apply is_byte_false|]. split; [by apply is_byte_false|].
  intros [->| ->]; by rewrite is_byte_refl in *.
Qed.

Context (budget : nat → QueryBudget Sem) (deadline : nat → Deadline).

Lemma streamed_relays header first client remaining next :
  length header = 4%nat → mysql_payload_len header = 1 + Z.of_nat remaining →
  streamable (bool_decide (header !! 3%nat = Some x00)) first →
  (∀ prefix rest, (length rest <= length client)%nat → relays mysql_packet rest (next prefix rest)) →
  relays mysql_packet (header ++ first :: client)
    (forward_streamed header first remaining client next).
Proof.
  intros Hh Hlen Hs Hnext. unfold forward_streamed.
  destruct (streamed_cases remaining client next)
    as [(prefix & body & rest & -> & Hb & Hr)|(p & Hb & Hp & Hr)];
    cbv zeta in Hr |- *; rewrite Hr, !sending_app.
  - replace ((header ++ [first]) ++ prefix ++ body) with (header ++ first :: prefix ++ body)
      by (by rewrite <-app_assoc).
    replace (header ++ first :: prefix ++ body ++ rest)
      with ((header ++ first :: prefix ++ body) ++ rest)
      by (rewrite <-app_assoc; cbn [app]; by rewrite <-app_assoc).
    apply relays_message.
    + exists header, (first :: prefix ++ body). split; [done|]. split; [done|].
      split; [cbn [length]; lia|by apply streamable_allowed].
    + apply Hnext. rewrite !length_app. lia.
  - destruct (padding client remaining Hb) as [pad Hpad]. rewrite <-app_assoc. cbn [app].
    apply (relays_cut _ (header ++ first :: client ++ pad)).
    + exists header, (first :: client ++ pad). split; [done|]. split; [done|].
      split; [cbn [length]; lia|by apply streamable_allowed].
    + apply prefix_app, prefix_cons. by apply prefix_app_r.
    + by apply prefix_app, prefix_cons.
Qed.

Lemma inspected_relays turn header first body client next :
  length header = 4%nat → mysql_payload_len header = zlength (first :: body) →
  is_byte MYSQL_COM_CHANGE_USER first = false →
  is_byte MYSQL_COM_CREATE_DB first || is_byte MYSQL_COM_DROP_DB first = false →
  relays mysql_packet client next →
  relays mysql_packet (header ++ (first :: body) ++ client)
    (forward_inspected protocol deadline turn header first body next).
Proof.
  intros Hh Hlen Hu Hd Hnext. unfold forward_inspected.
  destruct (validate_shared_mysql_command body protocol) eqn:Ev;
    [|apply relays_rejecting, relays_stopped].
  assert (Hm : mysql_packet (header ++ first :: body)).
  { exists header, (first :: body). split; [done|]. split; [done|]. split; [done|].
    intros f b Hc [= <- <-]. apply orb_false_iff in Hd as [Hd1 Hd2].
    split; [by apply is_byte_false|]. intros _.
    split; [by apply is_byte_false|]. split; [by apply is_byte_false|].
    intros _. apply validated_safe. by rewrite Ev. }
  destruct (deadline turn).
  3: { eapply relays_cut; [exact Hm|apply prefix_take|]. rewrite app_assoc.
       apply prefix_app_r, prefix_take. }
  all: rewrite sending_app, app_assoc; apply relays_message; [done|]; exact Hnext.
Qed.

Lemma mysql_upload_relays fuel continued client :
  (length client < fuel)%nat →
  relays mysql_packet client (mysql_upload protocol shared budget deadline fuel continued client).
Proof.
  revert continued client. induction fuel as [|fuel IH]; intros continued client Hf; [lia|].
  cbn [mysql_upload]. destruct client as [|h0 client]; [apply relays_finished|].
  destruct (read_exact 3 client) as [[h client']|] eqn:E; [|apply relays_stopped].
  apply read_exact_Some in E as [-> Hh]. simpl in Hf. rewrite length_app in Hf.
  assert (Hl4 : length (h0 :: h) = 4%nat) by (simpl; lia).
  destruct (payload_len_spec (h0 :: h) Hl4) as [_ Hlen].
  change (h0 :: h ++ client') with ((h0 :: h) ++ client').
  set (header := h0 :: h) in *. set (is_command := bool_decide (header !! 3%nat = Some x00)).
  destruct (Z.eqb_spec (mysql_payload_len header) 0) as [H0|H0].
  { apply relays_message.
    - exists header, []. rewrite app_nil_r. repeat split; done.
    - destruct (negb is_command); [apply relays_accepting|]; apply IH; lia. }
  destruct client' as [|first client']; [apply relays_stopped|]. simpl in Hf.
  destruct (is_command && is_byte MYSQL_COM_CHANGE_USER first) eqn:E1;
    [apply relays_rejecting, relays_stopped|].
  destruct (shared && is_command
            && (is_byte MYSQL_COM_CREATE_DB first || is_byte MYSQL_COM_DROP_DB first)) eqn:E2;
    [apply relays_rejecting, relays_stopped|].
  destruct (shared && is_command && mysql_inspected first) eqn:E3.
  - destruct (_ =? _); [apply relays_rejecting, relays_stopped|].
    destruct (query_reserve _ _) as [b|]; [|apply relays_stopped].
    destruct (read_exact (Z.to_nat (mysql_payload_len header - 1)) client') as [[body rest]|] eqn:Eb;
      [|destruct (deadline fuel); apply relays_stopped].
    apply read_exact_Some in Eb as [-> Hb].
    assert (Hr : relays mysql_packet (header ++ (first :: body) ++ rest)
      (forward_inspected protocol deadline fuel header first body
         (mysql_upload protocol shared budget deadline fuel
            (if is_command then None else continued) rest))).
    { apply andb_true_iff in E3 as [E3 _]. apply andb_true_iff in E3 as [-> Hc].
      rewrite Hc in E1, E2. apply inspected_relays; try done; [cbn [length]; lia|].
      apply IH. rewrite length_app in Hf. lia. }
    destruct (deadline fuel); [exact Hr|apply relays_stopped|exact Hr].
  - apply streamed_relays; [done|lia|by split|].
    intros prefix rest Hrest. destruct (streamed_activity _ _ _ _ _).
    apply relays_accepting, IH. lia.
Qed.
End mysql_relay.

(** ** The MongoDB relay *)

(** The NUL-terminated string at an offset of a message. *)
Definition cstring_at (offset : nat) (m : bytes) : option bytes :=
  n ← position is_nul (drop offset m); Some (take n (drop offset m)).

Definition mongodb_opcode (m : bytes) : Z := i32_le (take 4 (drop 12 m)).

(** The command of a message, read from its wire format: the first key of the
    body section of an [OP_MSG], which follows the flags, the kind of the
    section, and the length and first type of the document; the first key of
    the query document of an [OP_QUERY] on a command collection. *)
Definition mongodb_command (m : bytes) : option bytes :=
  if mongodb_opcode m =? MONGODB_OP_MSG then cstring_at 26 m
  else if mongodb_opcode m =? MONGODB_OP_QUERY then
    collection ← cstring_at 20 m;
    if ends_with_bytes (lit ".$cmd") collection
    then cstring_at (20 + (length collection + 1) + 8 + 5) m else None
  else None.

(** A message a session may send to its backend: of its declared length, not
    compressed, a body section first, and no command that names another
    identity. *)
Definition mongodb_message (m : bytes) : Prop :=
  i32_le (take 4 m) = zlength m
  ∧ mongodb_opcode m ≠ MONGODB_OP_COMPRESSED
  ∧ (mongodb_opcode m = MONGODB_OP_MSG → m !! 20%nat = Some x00)
  ∧ (∀ command, mongodb_command m = Some command → is_mongodb_identity_command command = false).

Lemma append_exact_Ok n len p c p' c' :
  append_exact n len (p, c) = Ok (p', c') →
  ∃ v, p' = p ++ v ∧ c = v ++ c' ∧ length v = n ∧ zlength p' ≤ len.
Proof.
  unfold append_exact. cbn [fst snd]. destruct (checked_add _ _ _) as [stop|] eqn:Hs; [|done].
  apply checked_add_Some in Hs as [-> _].
  destruct (Z.ltb_spec len (zlength p + Z.of_nat n)); [done|].
  intros ([v c''] & Hv & [= <- <-])%bind_Ok. apply ok_or_Ok, read_exact_Some in Hv as [-> <-].
  exists v. rewrite length_app. repeat split; lia.
Qed.

Lemma append_cstring_Ok c len p value r p' c' :
  append_cstring c len p value = Ok (r, (p', c')) →
  ∃ w, r = value ++ w ∧ p' = p ++ w ++ [x00] ∧ c = w ++ x00 :: c' ∧ no_nul w ∧ zlength p' ≤ len.
Proof.
  revert p value. induction c as [|b c IH]; intros p value; cbn [append_cstring];
    destruct (_ || _) eqn:Hl; try done.
  apply orb_false_iff in Hl as [_ Hl%Z.leb_gt].
  destruct (is_nul b) eqn:Hb.
  - intros [= <- <- <-]. exists []. apply bool_decide_eq_true in Hb as ->.
    rewrite app_nil_r, length_app. cbn [app length]. repeat split; [constructor|lia].
  - intros (w & -> & -> & -> & Hw & Hz)%IH. exists (b :: w).
    rewrite <-!app_assoc in *. repeat split; [by constructor|done].
Qed.

Lemma cstring_at_app a w t : no_nul w → cstring_at (length a) (a ++ w ++ x00 :: t) = Some w.
Proof.
  intros Hw. unfold cstring_at. rewrite drop_app_length, position_app by done.
  simpl. by rewrite take_app_length.
Qed.

Lemma command_key_Ok len p c key p' c' :
  read_mongodb_command_key len (p, c) = Ok (key, (p', c')) →
  ∃ v, p' = p ++ v ++ key ++ [x00] ∧ c = v ++ key ++ x00 :: c' ∧ length v = 5%nat
       ∧ no_nul key ∧ zlength p' ≤ len.
Proof.
  unfold read_mongodb_command_key. intros ([p1 c1] & H1 & H)%bind_Ok.
  apply append_exact_Ok in H1 as (v & -> & -> & Hv & _). cbn [fst snd] in H.
  repeat case_match; try done. apply append_cstring_Ok in H as (w & -> & -> & -> & Hw & Hz).
  exists v. rewrite <-!app_assoc in *. done.
Qed.

Section prefix.
Context (header : bytes) (Hheader : length header = 16%nat).

Lemma header_opcode t : mongodb_opcode (header ++ t) = mongodb_opcode header.
Proof.
  unfold mongodb_opcode. rewrite drop_app_le by lia.
  rewrite take_app_le; [done|rewrite length_drop; lia].
Qed.

Lemma header_size t : take 4 (header ++ t) = take 4 header.
Proof. by rewrite take_app_le by lia. Qed.

(** [p] is a prefix of the message, with its command, however it goes on. *)
Definition prefix_shows (len : Z) (client : bytes) (command : option bytes) (p c : bytes) : Prop :=
  header ++ client = p ++ c ∧ (∃ v, p = header ++ v) ∧ zlength p ≤ Z.max 16 len
  ∧ (mongodb_opcode header = MONGODB_OP_MSG → ∀ t, (p ++ t) !! 20%nat = Some x00)
  ∧ ∀ t, mongodb_command (p ++ t) = command.

Lemma msg_command_Ok len client command p c :
  mongodb_opcode header = MONGODB_OP_MSG →
  read_mongodb_command (mongodb_opcode header) len header client = Ok (command, (p, c)) →
  prefix_shows len client command p c.
Proof.
  intros Hop. unfold read_mongodb_command. rewrite Hop. cbn -[append_exact read_mongodb_command_key].
  intros ([p1 c1] & H1 & H)%bind_Ok. apply append_exact_Ok in H1 as (v & -> & -> & Hv & _).
  cbn [fst snd] in H. destruct (negb _) eqn:Hk; [done|].
  apply negb_false_iff, bool_decide_eq_true in Hk.
  apply bind_Ok in H as ([key [p2 c2]] & H2 & [= <- <- <-]).
  apply command_key_Ok in H2 as (v' & -> & -> & Hv' & Hw & Hz).
  split; [by rewrite <-!app_assoc|]. split; [by eexists; rewrite <-!app_assoc|].
  split; [lia|]. split.
  - intros _ t. rewrite <-(app_assoc (header ++ v)), lookup_app_l; [done|].
    rewrite length_app. lia.
  - intros t. unfold mongodb_command. rewrite <-!app_assoc, header_opcode, Hop. cbn [app].
    change (MONGODB_OP_MSG =? MONGODB_OP_MSG) with true. cbv iota.
    rewrite (app_assoc header), (app_assoc _ v').
    replace 26%nat with (length ((header ++ v) ++ v')) by (rewrite !length_app; lia).
    by apply cstring_at_app.
Qed.

Lemma query_command_Ok len client command p c :
  mongodb_opcode header = MONGODB_OP_QUERY →
  read_mongodb_command (mongodb_opcode header) len header client = Ok (command, (p, c)) →
  prefix_shows len client command p c.
Proof.
  intros Hop. unfold read_mongodb_command. rewrite Hop.
  cbn -[append_exact append_cstring read_mongodb_command_key].
  intros ([p1 c1] & H1 & H)%bind_Ok. apply append_exact_Ok in H1 as (v & -> & -> & Hv & _).
  cbn [fst snd] in H. apply bind_Ok in H as ([coll [p2 c2]] & H2 & H).
  apply append_cstring_Ok in H2 as (w & -> & -> & -> & Hw & _). cbn [app] in H.
  apply bind_Ok in H as ([p3 c3] & H3 & H).
  apply append_exact_Ok in H3 as (u & -> & -> & Hu & _).
  apply bind_Ok in H as ([key [p4 c4]] & H4 & [= <- <- <-]).
  apply command_key_Ok in H4 as (v' & -> & -> & Hv' & Hkey & Hz).
  split; [rewrite <-!app_assoc; done|].
  split; [by eexists; rewrite <-!app_assoc|]. split; [lia|]. split; [by rewrite Hop|].
  intros t. unfold mongodb_command. rewrite <-!app_assoc, header_opcode, Hop.
  change (MONGODB_OP_QUERY =? MONGODB_OP_MSG) with false.
  change (MONGODB_OP_QUERY =? MONGODB_OP_QUERY) with true. cbv iota.
  rewrite (app_assoc header). replace 20%nat with (length (header ++ v)) by (rewrite length_app; lia).
  cbn [app]. rewrite cstring_at_app by done. simpl mbind.
  unfold then_some. destruct (ends_with_bytes _ w); [|done].
  replace (length (header ++ v) + (length w + 1) + 8 + 5)%nat
    with (length (((header ++ v) ++ w ++ [x00]) ++ u ++ v')) by (rewrite !length_app; simpl; lia).
  replace ((header ++ v) ++ w ++ x00 :: u ++ v' ++ key ++ x00 :: t)
    with ((((header ++ v) ++ w ++ [x00]) ++ u ++ v') ++ key ++ x00 :: t)
    by (rewrite <-!app_assoc; done).
  by apply cstring_at_app.
Qed.

Lemma read_command_Ok len client command p c :
  read_mongodb_command (mongodb_opcode header) len header client = Ok (command, (p, c)) →
  prefix_shows len client command p c.
Proof.
  intros H. destruct (decide (mongodb_opcode header = MONGODB_OP_MSG)) as [Hm|Hm];
    [by apply msg_command_Ok|].
  destruct (decide (mongodb_opcode header = MONGODB_OP_QUERY)) as [Hq|Hq];
    [by apply query_command_Ok|].
  unfold read_mongodb_command in H.
  rewrite (proj2 (Z.eqb_neq _ _) Hm), (proj2 (Z.eqb_neq _ _) Hq) in H. injection H as <- <- <-.
  split; [done|]. split; [by exists []; rewrite app_nil_r|]. split; [lia|]. split; [done|].
  intros t. unfold mongodb_command. rewrite header_opcode.
  by rewrite (proj2 (Z.eqb_neq _ _) Hm), (proj2 (Z.eqb_neq _ _) Hq).
Qed.
End prefix.

(** A prefix that was let through begins a message that may be sent, however
    it goes on to its declared length. *)
Lemma read_prefix_Ok client prefix len command rest :
  read_mongodb_prefix client = Ok (Some (prefix, len, command, rest)) →
  client = prefix ++ rest ∧ zlength prefix ≤ len ∧ (16 <= length prefix)%nat
  ∧ ∀ t, zlength (prefix ++ t) = len → mongodb_message (prefix ++ t).
Proof.
  unfold read_mongodb_prefix. destruct client as [|h0 client]; [done|].
  intros ([h client'] & Hh & H)%bind_Ok. apply ok_or_Ok, read_exact_Some in Hh as [-> Hh].
  assert (Hl : length (h0 :: h) = 16%nat) by (simpl; lia). revert Hl H.
  change (h0 :: h ++ client') with ((h0 :: h) ++ client').
  generalize (h0 :: h). clear h0 h Hh. intros header Hl H.
  destruct (negb _) eqn:Hlen; [done|]. apply negb_false_iff in Hlen.
  apply andb_true_iff in Hlen as [Hmin%Z.leb_le _].
  change (i32_le (take 4 (drop 12 header))) with (mongodb_opcode header) in H.
  destruct (Z.eqb_spec (mongodb_opcode header) MONGODB_OP_COMPRESSED) as [|Hcomp]; [done|].
  apply bind_Ok in H as ([cmd [p c]] & Hcmd & H).
  destruct (default false _) eqn:Hid; [done|]. injection H as <- <- <- <-.
  apply read_command_Ok in Hcmd as (-> & [v ->] & Hz & Hk & Hc); [|done].
  split; [done|]. split; [lia|]. split; [rewrite length_app; lia|].
  intros t Ht. unfold mongodb_message. rewrite Hc, Ht. rewrite <-!app_assoc in *.
  rewrite header_size, !header_opcode by done. split; [done|]. split; [done|].
  split; [intros Hm; rewrite app_assoc; by apply Hk|]. intros command ->. exact Hid.
Qed.

Lemma mongodb_upload_relays fuel client :
  (length client < fuel)%nat → relays mongodb_message client (mongodb_upload fuel client).
Proof.
  revert client. induction fuel as [|fuel IH]; intros client Hf; [lia|]. cbn [mongodb_upload].
  destruct (read_mongodb_prefix client) as [[[[[prefix len] command] rest]|]|e] eqn:E.
  - apply read_prefix_Ok in E as (-> & Hz & Hl & Hm). rewrite length_app in Hf.
    destruct (copy_exact_cases (Z.to_nat (len - zlength prefix)) rest
                (λ client, accepting_opt (classify_mongodb <$> command) (mongodb_upload fuel client)))
      as [(payload & rest' & -> & Hp & ->)|(Hs & ->)]; rewrite sending_app.
    + rewrite app_assoc. apply relays_message; [apply Hm; rewrite length_app; lia|].
      apply relays_accepting, IH. rewrite length_app in Hf. lia.
    + destruct (padding rest _ Hs) as [pad Hpad].
      apply (relays_cut _ (prefix ++ rest ++ pad)); [apply Hm; rewrite length_app; lia| |done].
      by apply prefix_app, prefix_app_r.
  - destruct client as [|h0 client]; [apply relays_finished|]. exfalso. revert E.
    unfold read_mongodb_prefix. destruct (ok_or _ _) as [[h c]|]; [|done].
    rewrite bind_of_Ok. repeat case_match; try done.
    destruct (read_mongodb_command _ _ _ _) as [[? [? ?]]|]; [|done]. rewrite bind_of_Ok.
    by case_match.
  - destruct e; apply relays_stopped.
Qed.

(** ** The relays *)

(** C5. Whatever a client sends after its login, at whatever moment its buffers are
    refused or its deadline passes, the backend of a MySQL-family session
    receives a prefix of the client's bytes, made of whole packets but for the
    last; no command packet among them switches the user, and those of a
    shared tenant neither create nor drop a database nor hold a text the
    storage policy does not accept. The upload ends, and a session that ends
    without an error was forwarded completely. *)
Theorem mysql_relay_keeps_tenant {Sem} `{Semaphore Sem} protocol shared
    (budget : nat → QueryBudget Sem) deadline client :
  relays (mysql_packet protocol shared) client
    (proxy_mysql_session protocol shared budget deadline client).
Proof. apply mysql_upload_relays. lia. Qed.

(** C19. The backend of a MongoDB session receives a prefix of the client's bytes
    made of whole messages but for the last, and no message that is compressed
    or whose command, in its wire format, would authenticate, log out or
    renegotiate. *)
Theorem mongodb_relay_keeps_identity client :
  relays mongodb_message client (proxy_mongodb_session client).
Proof. apply mongodb_upload_relays. lia. Qed.

(** The PostgreSQL relay forwards whole frames, unchanged. *)
Theorem postgres_relay_exact client :
  relays postgres_frame client (proxy_postgres_session client).
Proof. apply postgres_upload_relays. lia. Qed.

Section transparent.
Context {Sem : Type} `{Semaphore Sem} (protocol : Protocol) (shared : bool).
Context (budget : nat → QueryBudget Sem) (deadline : nat → Deadline).

(** The packets that need one buffer stay below the largest packet. *)
Definition single_packet (m : bytes) : Prop :=
  shared = true → m !! 3%nat = Some x00 →
  m !! 4%nat = Some MYSQL_COM_QUERY ∨ m !! 4%nat = Some MYSQL_COM_STMT_PREPARE →
  mysql_payload_len m ≠ MYSQL_MAX_SINGLE_PACKET_PAYLOAD.

Lemma safe_validated body :
  is_mysql_family protocol = true → StorageSafe protocol false body →
  validate_shared_mysql_command body protocol = Ok tt.
Proof. intros Hp Hs. apply check_exact; [lia|done|done]. Qed.

Lemma payload_len_app header rest :
  length header = 4%nat → mysql_payload_len (header ++ rest) = mysql_payload_len header.
Proof. by destruct header as [|h0 [|h1 [|h2 l]]]. Qed.

Lemma accepting_opt_end k r : (accepting_opt k r).2 = r.2.
Proof. by destruct k. Qed.

Lemma streamed_passes header first body rest next :
  (∀ prefix, (next prefix rest).2 = Ok tt) →
  (forward_streamed header first (length body) (body ++ rest) next).2 = Ok tt.
Proof.
  intros Hnext. unfold forward_streamed.
  destruct (streamed_cases (length body) (body ++ rest) next)
    as [(prefix & b & r & E & Hl & Hr)|(p & Hl & _)]; [|rewrite length_app in Hl; lia].
  cbv zeta in Hr |- *. rewrite Hr. rewrite app_assoc in E. apply app_inj_1 in E as [-> ->]; [|done].
  apply Hnext.
Qed.

Hypothesis (Hbudget : ∀ turn n, n ≤ MYSQL_MAX_SINGLE_PACKET_PAYLOAD →
              query_reserve n (budget turn) ≠ None).
Hypothesis (Hdeadline : ∀ turn, deadline turn = DeadlineMet).

Lemma mysql_upload_passes fuel continued m rest :
  mysql_packet protocol shared m → single_packet m →
  (∀ continued, (mysql_upload protocol shared budget deadline fuel continued rest).2 = Ok tt) →
  (mysql_upload protocol shared budget deadline (S fuel) continued (m ++ rest)).2 = Ok tt.
Proof.
  intros (header & payload & -> & Hl & Hz & Ha) Hs Hrest.
  destruct (payload_len_spec header Hl) as [_ Hlen].
  unfold single_packet in Hs. rewrite payload_len_app in Hs by done. revert Hs.
  rewrite (lookup_app_l header), lookup_app_r, Hl by lia. intros Hs.
  rewrite <-app_assoc. destruct header as [|h0 h]; [done|].
  cbn [mysql_upload app]. rewrite read_exact_app by (simpl in Hl; lia).
  set (header := h0 :: h) in *. cbv zeta.
  destruct payload as [|first body].
  { rewrite (proj2 (Z.eqb_eq _ _)) by (symmetry; exact Hz).
    cbn [sending snd]. case_match; rewrite ?accepting_opt_end; apply Hrest. }
  rewrite (proj2 (Z.eqb_neq _ 0)) by (rewrite <-Hz; simpl; lia). cbn [app].
  assert (Hb : Z.to_nat (mysql_payload_len header - 1) = length body) by (rewrite <-Hz; simpl; lia).
  specialize (Ha first body).
  destruct (bool_decide (header !! 3%nat = Some x00)) eqn:Hc; cbn [andb].
  - apply bool_decide_eq_true in Hc. destruct (Ha Hc eq_refl) as [Hu Hsh].
    unfold is_byte at 1. rewrite bool_decide_false by done. rewrite !andb_true_r.
    destruct (shared && (is_byte MYSQL_COM_CREATE_DB first || is_byte MYSQL_COM_DROP_DB first)) eqn:E2.
    { apply andb_true_iff in E2 as [Hshared E2]. destruct (Hsh Hshared) as (H5 & H6 & _).
      apply orb_true_iff in E2 as [E2|E2]; apply is_byte_true in E2; done. }
    destruct (shared && mysql_inspected first) eqn:E3.
    + apply andb_true_iff in E3 as [Hshared E3]. destruct (Hsh Hshared) as (_ & _ & Hq).
      assert (Hi : first = MYSQL_COM_QUERY ∨ first = MYSQL_COM_STMT_PREPARE).
      { apply orb_true_iff in E3 as [E3|E3]; apply is_byte_true in E3; auto. }
      destruct (Hq Hi) as [Hp Hsafe].
      rewrite (proj2 (Z.eqb_neq _ _)).
      2: { apply Hs; [done|done|]. simpl. destruct Hi as [->| ->]; auto. }
      destruct (query_reserve _ _) eqn:Er; [|by apply Hbudget in Er; [|lia]].
      rewrite Hdeadline, Hb, read_exact_app by done. unfold forward_inspected.
      rewrite safe_validated, Hdeadline by done. apply Hrest.
    + rewrite Hb. apply streamed_passes. intros prefix.
      destruct (streamed_activity _ _ _ _ _). rewrite accepting_opt_end. apply Hrest.
  - rewrite !andb_false_r. cbn [andb]. rewrite Hb. apply streamed_passes. intros prefix.
    destruct (streamed_activity _ _ _ _ _). rewrite accepting_opt_end. apply Hrest.
Qed.

Lemma mysql_session_passes fuel continued packets :
  (length packets < fuel)%nat →
  Forall (mysql_packet protocol shared) packets → Forall single_packet packets →
  (mysql_upload protocol shared budget deadline fuel continued (concat packets)).2 = Ok tt.
Proof.
  revert fuel continued. induction packets as [|m packets IH]; intros [|fuel] continued Hf Hm Hs;
    simpl in Hf; [lia|done|lia|].
  inversion Hm; inversion Hs; subst. apply mysql_upload_passes; [done|done|].
  intros c. apply IH; [lia|done|done].
Qed.
End transparent.

Lemma packets_length protocol shared packets :
  Forall (mysql_packet protocol shared) packets → (length packets <= length (concat packets))%nat.
Proof.
  induction 1 as [|m packets (h & p & -> & Hl & _) _ IH]; simpl; [lia|].
  rewrite !length_app. lia.
Qed.

(** A session that keeps to what its tenant may do is not disturbed: while
    buffers are available and the deadlines are met, every packet reaches the
    backend, unchanged and in order. *)
Theorem mysql_relay_transparent {Sem} `{Semaphore Sem} protocol shared
    (budget : nat → QueryBudget Sem) deadline packets :
  (∀ turn n, n ≤ MYSQL_MAX_SINGLE_PACKET_PAYLOAD → query_reserve n (budget turn) ≠ None) →
  (∀ turn, deadline turn = DeadlineMet) →
  Forall (mysql_packet protocol shared) packets → Forall (single_packet shared) packets →
  (proxy_mysql_session protocol shared budget deadline (concat packets)).1.(to_backend)
  = concat packets
  ∧ (proxy_mysql_session protocol shared budget deadline (concat packets)).2 = Ok tt.
Proof.
  intros Hb Hd Hm Hs. pose proof (packets_length _ _ _ Hm) as Hl.
  assert (Hok : (proxy_mysql_session protocol shared budget deadline (concat packets)).2 = Ok tt)
    by (apply mysql_session_passes; [done|done|lia|done|done]).
  split; [|done].
  destruct (mysql_upload_relays protocol shared budget deadline (S (length (concat packets))) None
              (concat packets)) as (_ & _ & _ & H'); [lia|]. by apply H'.
Qed.

(** A shared session that selects, and asks for a statistics command. *)
Definition demo_packets : list bytes :=
  [to_le 3 9 ++ [x00] ++ x03 :: lit "SELECT 1"; to_le 3 1 ++ [x00] ++ [x09]].

Lemma demo_query_safe : StorageSafe Mysql false (lit "SELECT 1").
Proof.
  apply (check_exact 20); [simpl; lia|done|]. vm_compute. reflexivity.
Qed.

Lemma demo_packets_allowed : Forall (mysql_packet Mysql true) demo_packets.
Proof.
  repeat constructor.
  - exists (to_le 3 9 ++ [x00]), (x03 :: lit "SELECT 1").
    split; [done|]. split; [done|]. split; [done|].
    intros first body _ [= <- <-]. split; [done|]. intros _. split; [done|]. split; [done|].
    intros _. split; [done|]. apply demo_query_safe.
  - exists (to_le 3 1 ++ [x00]), [x09]. split; [done|]. split; [done|]. split; [done|].
    intros first body _ [= <- <-]. split; [done|]. intros _. split; [done|]. split; [done|].
    by intros [|].
Qed.

Lemma mysql_relay_transparent_witness :
  (proxy_mysql_session Mysql true (λ _, mkQueryBudget TENANT_BYTES TENANT_BYTES)
     (λ _, DeadlineMet) (concat demo_packets)).1.(to_backend) = concat demo_packets
  ∧ (proxy_mysql_session Mysql true (λ _, mkQueryBudget TENANT_BYTES TENANT_BYTES)
       (λ _, DeadlineMet) (concat demo_packets)).2 = Ok tt.
Proof.
  apply mysql_relay_transparent.
  - intros _ n Hn. unfold query_reserve. destruct (Z.ltb_spec u32_max n) as [Hu|_].
    + exfalso. unfold MYSQL_MAX_SINGLE_PACKET_PAYLOAD, u32_max in *. lia.
    + simpl. destruct (Z.leb_spec n TENANT_BYTES) as [_|Ht]; [done|].
      unfold MYSQL_MAX_SINGLE_PACKET_PAYLOAD, TENANT_BYTES in *. lia.
  - done.
  - apply demo_packets_allowed.
  - repeat constructor; intros _ _ _; vm_compute; done.
Defined.
