(* ===== verification/Admission.v ===== *)
(** * The admission of gateway connections

    [src/src/app/gateway/security.rs]: the limiter every listener asks before
    it accepts a connection. It caps the connections a peer holds at a time,
    asks the rate limiter, and tracks a bounded number of peers, dropping those
    that were idle for a window.

    The rate limiter itself (the crate governor) is a parameter, the class
    [KeyedRateLimiter]; nothing is assumed of its decisions. The clock is an
    argument of each call. *)
From Stdlib Require Import Strings.Byte.
From S2P Require Import Prelude Bytes.

Local Open Scope Z_scope.

(** ** Peers *)

Definition DB_CONNECTION_WINDOW : Z := from_secs 60.
Definition MAX_GATEWAY_RATE_LIMIT_KEYS : Z := 8192.

Inductive GatewayPeer := PeerV4 (octets : bytes) | V6Prefix64 (octets : bytes).
#[export] Instance GatewayPeer_eq_dec : EqDecision GatewayPeer.
Proof. solve_decision. Defined.
#[export] Instance GatewayPeer_countable : Countable GatewayPeer.
Proof.
  apply (inj_countable'
    (λ p, match p with PeerV4 o => inl o | V6Prefix64 o => inr o end)
    (λ s, match s with inl o => PeerV4 o | inr o => V6Prefix64 o end)).
  by intros [].
Defined.

(** [IpAddr], by its octets. *)
Inductive PeerIp := AddrV4 (octets : bytes) | AddrV6 (octets : bytes).

Definition ip_wf (ip : PeerIp) : Prop :=
  match ip with AddrV4 o => length o = 4%nat | AddrV6 o => length o = 16%nat end.

(** [Ipv6Addr::to_ipv4_mapped]. *)
Definition MAPPED_PREFIX : bytes := replicate 10 x00 ++ [xff; xff].
Definition octets_ipv4_mapped (o : bytes) : option bytes :=
  if bool_decide (take 12 o = MAPPED_PREFIX) then Some (drop 12 o) else None.

Definition from_ip (ip : PeerIp) : GatewayPeer :=
  match ip with
  | AddrV4 o => PeerV4 o
  | AddrV6 o =>
      match octets_ipv4_mapped o with
      | Some v4 => PeerV4 v4
      | None => V6Prefix64 (take 8 o)
      end
  end.

(** ** State *)

(** governor's keyed limiter: a decision for a key, and the removal of the
    keys whose quota is replenished. *)
Class KeyedRateLimiter (L : Type) := {
  check_key : GatewayPeer → Z → L → bool * L;
  retain_recent : Z → L → L;
}.

Record PeerState := mkPeerState {
  last_seen : Z;
  rate_rejection_logged : bool;
  active_rejection_logged : bool;
}.
#[export] Instance PeerState_eta : Settable PeerState :=
  λ r, mkPeerState r.(last_seen) r.(rate_rejection_logged) r.(active_rejection_logged).

Record LimiterState (L : Type) := mkLimiterState {
  limiter : L;
  peers : gmap GatewayPeer PeerState;
  active : gmap GatewayPeer Z;
  last_sweep : Z;
  capacity_rejection_logged : bool;
}.
Arguments mkLimiterState {L}.
Arguments limiter {L}.
Arguments peers {L}.
Arguments active {L}.
Arguments last_sweep {L}.
Arguments capacity_rejection_logged {L}.
#[export] Instance LimiterState_eta L : Settable (LimiterState L) :=
  λ r, mkLimiterState r.(limiter) r.(peers) r.(active) r.(last_sweep)
         r.(capacity_rejection_logged).

Inductive RejectionReason := RateLimited | TooManyActive | KeyCapacityReached.

Record Rejection := mkRejection { reason : RejectionReason; should_log : bool }.

Section admission.
Context {L : Type} `{KeyedRateLimiter L}.
Implicit Types s : LimiterState L.

(** [max_active_per_ip] of [with_clock]. *)
Definition active_limit (max_connections max_active : Z) : Z :=
  Z.min (Z.max max_active 1) (Z.max max_connections 1).

Definition admission_new (l : L) (now : Z) : LimiterState L := mkLimiterState l ∅ ∅ now false.

(** [touch] without the flags its callers set. *)
Definition touch (peer : GatewayPeer) (now : Z) (f : PeerState → PeerState) s : LimiterState L :=
  let state := default (mkPeerState now false false) (s.(peers) !! peer) in
  s <| peers ::= <[peer := f (state <| last_seen := now |>)]> |>.

Definition touched (peer : GatewayPeer) (now : Z) s : PeerState :=
  (default (mkPeerState now false false) (s.(peers) !! peer)) <| last_seen := now |>.

Definition peers_full s : bool := MAX_GATEWAY_RATE_LIMIT_KEYS <=? Z.of_nat (size s.(peers)).

Definition retained (now : Z) s (kv : GatewayPeer * PeerState) : Prop :=
  is_Some (s.(active) !! kv.1) ∨ sat_sub now kv.2.(last_seen) < DB_CONNECTION_WINDOW.
#[local] Instance retained_dec now s kv : Decision (retained now s kv).
Proof. unfold retained. apply _. Defined.

Definition evict_idle_peers (now : Z) s : LimiterState L :=
  let was_full := peers_full s in
  let sweep_due := DB_CONNECTION_WINDOW <=? sat_sub now s.(last_sweep) in
  let s :=
    if sweep_due || was_full
    then s <| peers ::= filter (retained now s) |> <| limiter ::= retain_recent now |>
    else s in
  let s := if sweep_due then s <| last_sweep := now |> else s in
  if peers_full s then s else s <| capacity_rejection_logged := false |>.

Definition active_count (peer : GatewayPeer) s : Z := default 0 (s.(active) !! peer).

(** [try_acquire]: the permit is the peer it is held for. *)
Definition try_acquire (max_active : Z) (ip : PeerIp) (now : Z) s :
    result Rejection GatewayPeer * LimiterState L :=
  let peer := from_ip ip in
  let s := evict_idle_peers now s in
  if peers_full s && negb (bool_decide (is_Some (s.(peers) !! peer))) then
    (Err (mkRejection KeyCapacityReached (negb s.(capacity_rejection_logged))),
     s <| capacity_rejection_logged := true |>)
  else if max_active <=? active_count peer s then
    (Err (mkRejection TooManyActive (negb (touched peer now s).(active_rejection_logged))),
     touch peer now (λ p, p <| active_rejection_logged := true |>) s)
  else
    let '(allowed, l) := check_key peer now s.(limiter) in
    let s := s <| limiter := l |> in
    if negb allowed then
      (Err (mkRejection RateLimited (negb (touched peer now s).(rate_rejection_logged))),
       touch peer now (λ p, p <| rate_rejection_logged := true |>) s)
    else
      (Ok peer,
       (touch peer now
         (λ p, p <| rate_rejection_logged := false |> <| active_rejection_logged := false |>) s)
         <| active ::= <[peer := active_count peer s + 1]> |>).

(** [Drop] of a permit. *)
Definition permit_release (peer : GatewayPeer) s : LimiterState L :=
  match s.(active) !! peer with
  | None => s
  | Some n =>
      let n := sat_sub n 1 in
      if n =? 0 then
        s <| active ::= delete peer |>
          <| peers ::= alter (λ p, p <| active_rejection_logged := false |>) peer |>
      else s <| active ::= <[peer := n]> |>
  end.

(** ** The invariant *)

(** The permits that are held, by peer. *)
Definition permits_held (permits : list GatewayPeer) (peer : GatewayPeer) : Z :=
  zlength (filter (λ p, p = peer) permits).

Record admission_wf (max_active : Z) (permits : list GatewayPeer) s : Prop := {
  wf_active : ∀ peer, s.(active) !! peer = (if permits_held permits peer =? 0 then None else Some (permits_held permits peer));
  wf_bound : ∀ peer, permits_held permits peer ≤ max_active;
  wf_tracked : ∀ peer, is_Some (s.(active) !! peer) → is_Some (s.(peers) !! peer);
  wf_capacity : Z.of_nat (size s.(peers)) ≤ MAX_GATEWAY_RATE_LIMIT_KEYS;
}.

Lemma held_nonneg permits peer : 0 ≤ permits_held permits peer.
Proof. unfold permits_held. lia. Qed.

Lemma held_cons p permits peer :
  permits_held (p :: permits) peer = permits_held permits peer + (if decide (p = peer) then 1 else 0).
Proof. unfold permits_held. rewrite filter_cons. case_decide; simpl; lia. Qed.

Lemma active_count_held max_active permits s peer :
  admission_wf max_active permits s → active_count peer s = permits_held permits peer.
Proof.
  intros Hwf. unfold active_count. rewrite (wf_active _ _ _ Hwf).
  destruct (Z.eqb_spec (permits_held permits peer) 0) as [->|]; done.
Qed.

Lemma evict_wf max_active permits now s :
  admission_wf max_active permits s → admission_wf max_active permits (evict_idle_peers now s).
Proof.
  intros [Ha Hb Ht Hc].
  assert (H1 : ∀ s', s'.(active) = s.(active) →
    (s'.(peers) = s.(peers) ∨ s'.(peers) = filter (retained now s) s.(peers)) →
    admission_wf max_active permits s').
  { intros s' Hsa Hsp. split; [by rewrite Hsa|done| |].
    - intros peer Hp. rewrite Hsa in Hp. destruct Hsp as [->| ->]; [by apply Ht|].
      destruct (Ht peer Hp) as [st Hst]. exists st. apply map_lookup_filter_Some.
      split; [done|by left].
    - destruct Hsp as [->| ->]; [done|]. pose proof (map_size_filter (retained now s) s.(peers)). lia. }
  unfold evict_idle_peers. repeat case_match; apply H1; simpl; auto.
Qed.

Lemma touch_wf max_active permits peer now f s :
  admission_wf max_active permits s →
  peers_full s = false ∨ is_Some (s.(peers) !! peer) →
  admission_wf max_active permits (touch peer now f s).
Proof.
  intros [Ha Hb Ht Hc] Hroom. split; [done|done| |].
  - intros p Hp. cbn [touch peers]. simpl. destruct (decide (p = peer)) as [->|].
    + rewrite lookup_insert_eq. done.
    + rewrite lookup_insert_ne by done. by apply Ht.
  - simpl. destruct Hroom as [Hf|[st Hst]].
    + unfold peers_full in Hf. apply Z.leb_gt in Hf.
      destruct (s.(peers) !! peer) eqn:E.
      * rewrite map_size_insert_Some by done. lia.
      * rewrite map_size_insert_None by done. lia.
    + rewrite map_size_insert_Some by done. done.
Qed.

Lemma room_of_guard s peer :
  peers_full s && negb (bool_decide (is_Some (s.(peers) !! peer))) = false →
  peers_full s = false ∨ is_Some (s.(peers) !! peer).
Proof.
  intros [Hf|Hn]%andb_false_iff; [by left|right].
  apply negb_false_iff, bool_decide_eq_true in Hn. done.
Qed.

Lemma try_acquire_wf max_active permits ip now s :
  admission_wf max_active permits s →
  match try_acquire max_active ip now s with
  | (Ok peer, s') => peer = from_ip ip ∧ admission_wf max_active (peer :: permits) s'
  | (Err _, s') => admission_wf max_active permits s'
  end.
Proof.
  intros Hwf0. unfold try_acquire. pose proof (evict_wf _ _ now _ Hwf0) as Hwf. clear Hwf0.
  set (s1 := evict_idle_peers now s) in *. set (peer := from_ip ip).
  destruct (peers_full s1 && _) eqn:Hg; [by destruct Hwf|].
  apply room_of_guard in Hg.
  destruct (Z.leb_spec max_active (active_count peer s1)) as [|Hlt]; [by apply touch_wf|].
  destruct (check_key peer now s1.(limiter)) as [[] l]; cbn [negb].
  2: { apply touch_wf; [by destruct Hwf|done]. }
  split; [done|].
  rewrite (active_count_held max_active permits) in Hlt by done.
  change (active_count peer (s1 <| limiter := l |>)) with (active_count peer s1).
  rewrite (active_count_held max_active permits) by done.
  assert (Hwf' : admission_wf max_active permits (touch peer now
    (λ p, p <| rate_rejection_logged := false |> <| active_rejection_logged := false |>)
    (s1 <| limiter := l |>))) by (apply touch_wf; [by destruct Hwf|done]).
  destruct Hwf' as [Ha Hb Ht Hc]. pose proof (held_nonneg permits peer).
  split; [| | |done]; simpl.
  - intros p. rewrite held_cons. case_decide as Hp; [subst p|].
    + rewrite lookup_insert_eq. destruct (Z.eqb_spec (permits_held permits peer + 1) 0); [lia|done].
    + rewrite lookup_insert_ne, Z.add_0_r by done. apply Ha.
  - intros p. rewrite held_cons. case_decide as Hp; [subst p; lia|]. rewrite Z.add_0_r. apply Hb.
  - intros p Hp. destruct (decide (p = peer)) as [->|Hne]; [by rewrite lookup_insert_eq|].
    apply Ht. simpl. by rewrite lookup_insert_ne in Hp.
Qed.

Lemma release_wf max_active permits1 peer permits2 s :
  admission_wf max_active (permits1 ++ peer :: permits2) s →
  admission_wf max_active (permits1 ++ permits2) (permit_release peer s).
Proof.
  intros [Ha Hb Ht Hc]. unfold permit_release.
  assert (Hh : ∀ p, permits_held (permits1 ++ peer :: permits2) p
                    = permits_held (permits1 ++ permits2) p + (if decide (peer = p) then 1 else 0)).
  { intros p. unfold permits_held. rewrite !filter_app, filter_cons, !length_app.
    case_decide; simpl; lia. }
  pose proof (held_nonneg (permits1 ++ permits2) peer) as Hn.
  rewrite Ha, Hh, decide_True by done.
  rewrite (proj2 (Z.eqb_neq _ 0)) by lia.
  replace (sat_sub (permits_held (permits1 ++ permits2) peer + 1) 1)
    with (permits_held (permits1 ++ permits2) peer) by int_lia.
  assert (Hb' : ∀ p, permits_held (permits1 ++ permits2) p ≤ max_active).
  { intros p. specialize (Hb p). rewrite Hh in Hb. case_decide; lia. }
  assert (Ha' : ∀ p, p ≠ peer → s.(active) !! p =
    (if permits_held (permits1 ++ permits2) p =? 0 then None else Some (permits_held (permits1 ++ permits2) p))).
  { intros p Hp. by rewrite Ha, Hh, decide_False, Z.add_0_r by done. }
  destruct (Z.eqb_spec (permits_held (permits1 ++ permits2) peer) 0) as [H0|H0]; split; try done; simpl.
  - intros p. destruct (decide (p = peer)) as [->|Hne].
    + by rewrite lookup_delete_eq, H0.
    + rewrite lookup_delete_ne by done. by apply Ha'.
  - intros p Hp. destruct (decide (p = peer)) as [->|Hne];
      [by rewrite lookup_delete_eq in Hp; destruct Hp|].
    rewrite lookup_delete_ne in Hp by done. rewrite lookup_alter_ne by done. by apply Ht.
  - by rewrite <-size_dom, dom_alter_L, size_dom.
  - intros p. destruct (decide (p = peer)) as [->|Hne].
    + rewrite lookup_insert_eq. by rewrite (proj2 (Z.eqb_neq _ 0)) by done.
    + rewrite lookup_insert_ne by done. by apply Ha'.
  - intros p Hp. apply Ht. destruct (decide (p = peer)) as [->|Hne].
    + rewrite Ha, Hh, decide_True by done. by rewrite (proj2 (Z.eqb_neq _ 0)) by lia.
    + by rewrite lookup_insert_ne in Hp.
Qed.

(** ** Runs *)

(** The calls of the listeners, in the order of the lock: an acquisition, whose
    permit is then held, or the drop of a permit that is held. *)
Inductive admission_step (max_active : Z) :
    LimiterState L * list GatewayPeer → LimiterState L * list GatewayPeer → Prop :=
  | step_acquire ip now s permits :
      admission_step max_active (s, permits)
        (let '(r, s') := try_acquire max_active ip now s in
         (s', match r with Ok peer => peer :: permits | Err _ => permits end))
  | step_release permits1 peer permits2 s :
      admission_step max_active (s, permits1 ++ peer :: permits2)
        (permit_release peer s, permits1 ++ permits2).

Lemma limiter_new_wf max_active l now : 0 ≤ max_active → admission_wf max_active [] (admission_new l now).
Proof.
  intros Hm. split; simpl; [done|done| |].
  - intros peer [? Hp]. done.
  - rewrite map_size_empty. unfold MAX_GATEWAY_RATE_LIMIT_KEYS. lia.
Qed.

Lemma step_wf max_active st st' :
  admission_step max_active st st' →
  admission_wf max_active st.2 st.1 → admission_wf max_active st'.2 st'.1.
Proof.
  intros [ip now s permits|permits1 peer permits2 s] Hwf; simpl in *.
  - pose proof (try_acquire_wf max_active permits ip now s Hwf) as H'.
    destruct (try_acquire max_active ip now s) as [[peer|e] s']; [by destruct H'|done].
  - by apply release_wf.
Qed.

Lemma reachable_wf max_active st st' :
  rtc (admission_step max_active) st st' →
  admission_wf max_active st.2 st.1 → admission_wf max_active st'.2 st'.1.
Proof. induction 1 as [|st1 st2 st3 Hs _ IH]; [done|]. intros Hwf. eapply IH, step_wf; done. Qed.

(** C26. The limiter's counts are the permits that are held: however connections
    come and go, a peer never holds more than its limit, its count returns to
    zero with its last permit, it stays tracked while it is connected, and the
    tracked peers stay within the table's capacity. *)
Theorem admission_counts_exact max_connections max_active l now s permits :
  rtc (admission_step (active_limit max_connections max_active)) (admission_new l now, []) (s, permits) →
  (∀ peer, active_count peer s = permits_held permits peer
           ∧ permits_held permits peer ≤ active_limit max_connections max_active
           ∧ (0 < permits_held permits peer → is_Some (s.(peers) !! peer)))
  ∧ Z.of_nat (size s.(peers)) ≤ MAX_GATEWAY_RATE_LIMIT_KEYS.
Proof.
  intros Hr. apply reachable_wf in Hr; [|apply limiter_new_wf; unfold active_limit; lia].
  simpl in Hr. split; [|apply Hr]. intros peer. split; [by eapply active_count_held|].
  split; [apply Hr|]. intros Hp. apply (wf_tracked _ _ _ Hr). rewrite (wf_active _ _ _ Hr).
  by rewrite (proj2 (Z.eqb_neq _ 0)) by lia.
Qed.

(** A full table does not keep new peers out for longer than the window: as
    soon as fewer peers than its capacity are connected or were seen within the
    window, a connection is not refused for want of a key. *)
Theorem capacity_recovers max_active ip now s :
  Z.of_nat (size (filter (retained now s) s.(peers))) < MAX_GATEWAY_RATE_LIMIT_KEYS →
  ∀ log, (try_acquire max_active ip now s).1 ≠ Err (mkRejection KeyCapacityReached log).
Proof.
  intros Hsz log.
  assert (Hf : peers_full (evict_idle_peers now s) = false).
  { unfold evict_idle_peers.
    destruct (DB_CONNECTION_WINDOW <=? sat_sub now s.(last_sweep)), (peers_full s) eqn:Ef; cbn [orb];
      repeat case_match; try done; unfold peers_full in *; simpl in *; apply Z.leb_le in H0; lia. }
  unfold try_acquire. rewrite Hf. cbn [andb]. repeat case_match; simplify_eq/=; done.
Qed.

(** A peer at its limit is logged once: the next refusal for the same reason,
    whenever it comes, is silent, unless a connection was admitted or the
    peer's last one closed in between. *)
Theorem limit_logged_once max_active permits ip now now' s s' log s'' log' :
  1 ≤ max_active → admission_wf max_active permits s →
  try_acquire max_active ip now s = (Err (mkRejection TooManyActive log), s') →
  try_acquire max_active ip now' s' = (Err (mkRejection TooManyActive log'), s'') →
  log' = false.
Proof.
  intros Hm Hwf H1 H2. pose proof (try_acquire_wf max_active permits ip now s Hwf) as Hwf1.
  rewrite H1 in Hwf1. set (peer := from_ip ip).
  assert (Hp : ∃ st, s'.(peers) !! peer = Some st ∧ st.(active_rejection_logged) = true).
  { unfold try_acquire in H1. repeat case_match; simplify_eq/=.
    eexists. rewrite lookup_insert_eq. done. }
  destruct Hp as (st & Hst & Hlog). unfold try_acquire in H2. fold peer in H2.
  destruct (peers_full _ && _); [done|].
  destruct (Z.leb_spec max_active (active_count peer (evict_idle_peers now' s'))) as [Hle|].
  2: { repeat case_match; simplify_eq/=. }
  injection H2 as <- _. rewrite (active_count_held _ _ _ _ (evict_wf _ _ now' _ Hwf1)) in Hle.
  assert (Hact : is_Some (s'.(active) !! peer)).
  { rewrite (wf_active _ _ _ Hwf1). by rewrite (proj2 (Z.eqb_neq _ 0)) by lia. }
  assert (Hkept : (evict_idle_peers now' s').(peers) !! peer = Some st).
  { unfold evict_idle_peers. repeat case_match; simpl; try done.
    all: apply map_lookup_filter_Some; split; [done|by left]. }
  unfold touched. rewrite Hkept. simpl. by rewrite Hlog.
Qed.
End admission.

(** ** Examples *)

(** A limiter that admits everything. *)
#[export] Instance unlimited : KeyedRateLimiter unit := {|
  check_key _ _ l := (true, l); retain_recent _ l := l |}.

Definition demo_ip : PeerIp := AddrV4 [xc0; x00; x02; x14].

Lemma admission_counts_exact_witness :
  let '(r, s) := try_acquire 1 demo_ip 5 (admission_new tt 0) in
  r = Ok (from_ip demo_ip)
  ∧ (∀ peer, active_count peer s = permits_held [from_ip demo_ip] peer
             ∧ permits_held [from_ip demo_ip] peer ≤ active_limit 1 80
             ∧ (0 < permits_held [from_ip demo_ip] peer → is_Some (s.(peers) !! peer)))
  ∧ Z.of_nat (size s.(peers)) ≤ MAX_GATEWAY_RATE_LIMIT_KEYS.
Proof.
  split; [vm_compute; reflexivity|].
  apply (admission_counts_exact 1 80 tt 0).
  eapply rtc_l; [|apply rtc_refl]. exact (step_acquire 1 demo_ip 5 (admission_new tt 0) []).
Defined.
