(* ===== verification/ProjectIds.v ===== *)
(** * The registry of project quota identifiers

    [src/src/app/server/disk/project_id.rs]: the files that reserve a
    filesystem project identifier for an instance. An identifier is claimed by
    publishing a pending marker and then the claim, activated by removing the
    marker, and released by a tombstone that is never removed.

    The registry is the map of its files; their names (the identifier in
    decimal, with a suffix for markers and tombstones) are pairs of a kind and
    an identifier. Every access to the file system consumes a [Choice]: it goes
    through, it fails, or the daemon dies there, leaving a new file absent or
    with any part of its content, and a removed file present or not. The lock
    file serialises the calls, so a history is a sequence of calls, each of
    which may have died. *)
From Stdlib Require Import Strings.Byte.
From S2P Require Import Prelude Bytes.

Local Open Scope Z_scope.

(** ** Constants and data *)

Definition MAX_OWNER_FILE_BYTES : Z := 1024.
Definition PROJECT_ID_ALLOCATION_RANGE_SIZE : Z := 1000000.

Inductive FileKind := ClaimFile | PendingFile | ReleasedFile.
#[export] Instance FileKind_eq_dec : EqDecision FileKind.
Proof. solve_decision. Defined.
#[export] Instance FileKind_countable : Countable FileKind.
Proof.
  apply (inj_countable'
    (λ k, match k with ClaimFile => 0%nat | PendingFile => 1%nat | ReleasedFile => 2%nat end)
    (λ n, match n with 0%nat => ClaimFile | 1%nat => PendingFile | _ => ReleasedFile end)).
  by intros [].
Defined.

(** [registry.join(id)], [pending_path] and [tombstone_path]. *)
Definition RegPath : Type := FileKind * Z.
Definition claim_path (id : Z) : RegPath := (ClaimFile, id).
Definition pending_path (id : Z) : RegPath := (PendingFile, id).
Definition tombstone_path (id : Z) : RegPath := (ReleasedFile, id).

(** What a name of the directory leads to. *)
Inductive Entry := RegularFile (content : bytes) | NotRegular.
Inductive DirState := DirMissing | DirReal | DirOther.

Record IdRegistry := mkRegistry {
  registry_dir : DirState;
  files : gmap RegPath Entry;
}.
#[export] Instance Registry_eta : Settable IdRegistry :=
  λ r, mkRegistry r.(registry_dir) r.(files).

Inductive IdError :=
  | RegistryIo
  | RegistryInvalid (message : string)
  | ProjectIdExhausted (base : Z).

(** ** File system accesses *)

Inductive Choice :=
  | Go
  | Fault (left_behind : option nat)
  | Crash (left_behind : option nat).

Inductive Res (A : Type) :=
  | Done (a : A) (r : IdRegistry) (cs : list Choice)
  | Raised (e : IdError) (r : IdRegistry) (cs : list Choice)
  | Died (r : IdRegistry).
Arguments Done {A} _ _ _.
Arguments Raised {A} _ _ _.
Arguments Died {A} _.

Definition FS (A : Type) : Type := IdRegistry → list Choice → Res A.

#[export] Instance FS_ret : MRet FS := λ A a r cs, Done a r cs.
#[export] Instance FS_bind : MBind FS := λ A B f m r cs,
  match m r cs with
  | Done a r cs => f a r cs
  | Raised e r cs => Raised e r cs
  | Died r => Died r
  end.

Definition raise {A} (e : IdError) : FS A := λ r cs, Raised e r cs.
Definition of_result {A} (m : result IdError A) : FS A :=
  match m with Ok a => mret a | Err e => raise e end.

Definition next_choice (cs : list Choice) : Choice * list Choice :=
  match cs with [] => (Go, []) | c :: cs => (c, cs) end.

(** The content of an owner file, as [read_owner] checks it. *)
Definition ends_with_newline (v : bytes) : bool := bool_decide (last v = Some x0a).
Definition line_break (b : byte) : bool := bool_decide (b = x0a) || bool_decide (b = x0d).

Definition parse_owner (content : bytes) : option bytes :=
  let owner := take (Z.to_nat (MAX_OWNER_FILE_BYTES + 1)) content in
  if negb (valid_utf8 owner) then None
  else if (MAX_OWNER_FILE_BYTES <? zlength owner) || negb (ends_with_newline owner) then None
  else
    let owner := removelast owner in
    if bool_decide (owner = []) || existsb line_break owner then None else Some owner.

Definition read_owner (p : RegPath) : FS (option bytes) := λ r cs,
  match next_choice cs with
  | (Fault _, cs) => Raised RegistryIo r cs
  | (Crash _, cs) => Died r
  | (Go, cs) =>
      match r.(files) !! p with
      | None => Done None r cs
      | Some NotRegular =>
          Raised (RegistryInvalid "project id claim must be a real regular file") r cs
      | Some (RegularFile content) =>
          match parse_owner content with
          | Some owner => Done (Some owner) r cs
          | None => Raised (RegistryInvalid "project id claim contains invalid owner data") r cs
          end
      end
  end.

(** [create_owner_file]: whether the file was created; it exists otherwise. *)
Definition owner_content (owner : bytes) : bytes := owner ++ [x0a].

Definition leave_behind (p : RegPath) (owner : bytes) (kept : option nat) (r : IdRegistry) : IdRegistry :=
  match kept with
  | Some k => r <| files ::= <[p := RegularFile (take k (owner_content owner))]> |>
  | None => r
  end.

Definition create_owner_file (p : RegPath) (owner : bytes) : FS bool := λ r cs,
  let absent := bool_decide (r.(files) !! p = None) in
  match next_choice cs with
  | (Fault kept, cs) => Raised RegistryIo (if absent then leave_behind p owner kept r else r) cs
  | (Crash kept, cs) => Died (if absent then leave_behind p owner kept r else r)
  | (Go, cs) =>
      if absent then Done true (r <| files ::= <[p := RegularFile (owner_content owner)]> |>) cs
      else Done false r cs
  end.

Definition sync_directory : FS unit := λ r cs,
  match next_choice cs with
  | (Fault _, cs) => Raised RegistryIo r cs
  | (Crash _, _) => Died r
  | (Go, cs) => Done tt r cs
  end.

Definition remove_file (p : RegPath) : FS unit := λ r cs,
  match next_choice cs with
  | (Fault _, cs) => Raised RegistryIo r cs
  | (Crash (Some _), _) => Died r
  | (Crash None, _) => Died (r <| files ::= delete p |>)
  | (Go, cs) => Done tt (r <| files ::= delete p |>) cs
  end.

(** ** Claims *)

Inductive ProjectIdState := IdPending | IdActive | IdReleased.
#[export] Instance ProjectIdState_eq_dec : EqDecision ProjectIdState.
Proof. solve_decision. Defined.

Record ProjectIdClaim := mkProjectIdClaim { claim_id : Z; claim_state_of : ProjectIdState }.

Inductive Claim := ClaimCreated | ClaimAlreadyOwned | ClaimOwnedByAnother.

Definition claim_state (has_pending_marker has_tombstone : bool) : ProjectIdState :=
  if has_tombstone then IdReleased else if has_pending_marker then IdPending else IdActive.

Definition claim (p : RegPath) (owner : bytes) : FS Claim :=
  created ← create_owner_file p owner;
  if created : bool then sync_directory ≫= λ _, mret ClaimCreated
  else
    found ← read_owner p;
    mret (if bool_decide (found = Some owner) then ClaimAlreadyOwned else ClaimOwnedByAnother).

Definition write_tombstone (id : Z) (owner : bytes) : FS unit :=
  created ← create_owner_file (tombstone_path id) owner;
  if created : bool then sync_directory
  else
    found ← read_owner (tombstone_path id);
    if bool_decide (found = Some owner) then mret tt
    else raise (RegistryInvalid "project id tombstone belongs to another owner").

Definition remove_pending_marker (id : Z) (owner : bytes) : FS unit :=
  found ← read_owner (pending_path id);
  match found with
  | None => mret tt
  | Some pending_owner =>
      if bool_decide (pending_owner ≠ owner)
      then raise (RegistryInvalid "project id pending marker belongs to another owner")
      else remove_file (pending_path id) ≫= λ _, sync_directory
  end.

Definition publish_pending_claim (id : Z) (owner : bytes) : FS Claim :=
  pending ← claim (pending_path id) owner;
  match pending with
  | ClaimOwnedByAnother => mret ClaimOwnedByAnother
  | ClaimCreated | ClaimAlreadyOwned =>
      published ← claim (claim_path id) owner;
      match published with
      | ClaimCreated | ClaimAlreadyOwned => mret ClaimAlreadyOwned
      | ClaimOwnedByAnother =>
          raise (RegistryInvalid
                   "project id was claimed by another owner after pending publication")
      end
  end.

Definition validate_candidate_owners (claim_owner pending_owner released_owner : option bytes) :
    result IdError unit :=
  match omap id [claim_owner; pending_owner; released_owner] with
  | [] => Ok tt
  | expected :: owners =>
      if forallb (λ owner, bool_decide (owner = expected)) owners then Ok tt
      else Err (RegistryInvalid "project id claim state files have different owners")
  end.

(** ** The probe sequence *)

Definition allocation_span (base : Z) : Z :=
  Z.min (u32_max - base + 1) PROJECT_ID_ALLOCATION_RANGE_SIZE.

(** [Fnv1a32]: the state is [0] before the first write. *)
Definition fnv_step (hash : Z) (b : byte) : Z :=
  Z.lxor hash (b2z b) * 16777619 mod (u32_max + 1).
Definition fnv_write (state : Z) (v : bytes) : Z :=
  foldl fnv_step (if state =? 0 then 2166136261 else state) v.

Definition initial_project_id (owner : bytes) (base span : Z) : Z :=
  base + fnv_write 0 owner mod span.

Definition probe_candidate (base initial span offset : Z) : Z :=
  base + (initial - base + offset) mod span.

Definition validate_owner_id (owner : bytes) : result IdError unit :=
  if bool_decide (owner = []) || (1023 <? zlength owner) || existsb line_break owner
  then Err (RegistryInvalid "instance id must be 1..=1023 bytes and contain no line breaks")
  else Ok tt.

Definition open_existing_registry : FS bool := λ r cs,
  match r.(registry_dir) with
  | DirMissing => Done false r cs
  | DirReal => Done true r cs
  | DirOther => Raised (RegistryInvalid "registry must be a real directory") r cs
  end.

Definition create_private_registry : FS unit := λ r cs,
  match r.(registry_dir) with
  | DirMissing => Done tt (r <| registry_dir := DirReal |>) cs
  | DirReal => Done tt r cs
  | DirOther => Raised (RegistryInvalid "registry must be a real directory") r cs
  end.

(** ** The operations *)

Definition owner_is (o : option bytes) (owner : bytes) : bool := bool_decide (o = Some owner).
Definition is_some {A} (o : option A) : bool := match o with Some _ => true | None => false end.

(** The turns of [allocate_sync] from [offset] on. *)
Fixpoint allocate_loop (n : nat) (owner : bytes) (base initial span offset : Z) : FS Z :=
  match n with
  | O => raise (ProjectIdExhausted base)
  | S n =>
      let candidate := probe_candidate base initial span offset in
      claim_owner ← read_owner (claim_path candidate);
      pending_owner ← read_owner (pending_path candidate);
      released_owner ← read_owner (tombstone_path candidate);
      of_result (validate_candidate_owners claim_owner pending_owner released_owner) ≫= λ _,
      if is_some released_owner then allocate_loop n owner base initial span (offset + 1)
      else if owner_is claim_owner owner && negb (is_some pending_owner) then mret candidate
      else
        let resumes_own_reservation := owner_is pending_owner owner in
        let candidate_unused := negb (is_some claim_owner) && negb (is_some pending_owner) in
        if negb resumes_own_reservation && negb candidate_unused
        then allocate_loop n owner base initial span (offset + 1)
        else
          published ← publish_pending_claim candidate owner;
          match published with
          | ClaimCreated | ClaimAlreadyOwned => mret candidate
          | ClaimOwnedByAnother => allocate_loop n owner base initial span (offset + 1)
          end
  end.

Definition allocate_sync (owner : bytes) (base : Z) : FS Z :=
  of_result (validate_owner_id owner) ≫= λ _,
  create_private_registry ≫= λ _,
  let span := allocation_span base in
  allocate_loop (Z.to_nat span) owner base (initial_project_id owner base span) span 0.

Fixpoint find_loop (n : nat) (owner : bytes) (base initial span offset : Z)
    (released_claim : option ProjectIdClaim) : FS (option ProjectIdClaim) :=
  match n with
  | O => mret released_claim
  | S n =>
      let candidate := probe_candidate base initial span offset in
      claim_owner ← read_owner (claim_path candidate);
      released_owner ← read_owner (tombstone_path candidate);
      pending_owner ← read_owner (pending_path candidate);
      of_result (validate_candidate_owners claim_owner pending_owner released_owner) ≫= λ _,
      let owned_by_caller :=
        owner_is claim_owner owner || owner_is pending_owner owner
        || (negb (is_some claim_owner) && owner_is released_owner owner) in
      let state := claim_state (is_some pending_owner) (is_some released_owner) in
      if owned_by_caller && negb (bool_decide (state = IdReleased))
      then mret (Some (mkProjectIdClaim candidate state))
      else
        let released_claim :=
          if owned_by_caller
          then Some (default (mkProjectIdClaim candidate state) released_claim)
          else released_claim in
        if negb (is_some claim_owner) && negb (is_some pending_owner)
           && negb (is_some released_owner)
        then mret released_claim
        else find_loop n owner base initial span (offset + 1) released_claim
  end.

Definition find_locked (owner : bytes) (base : Z) : FS (option ProjectIdClaim) :=
  let span := allocation_span base in
  find_loop (Z.to_nat span) owner base (initial_project_id owner base span) span 0 None.

Definition find_sync (owner : bytes) (base : Z) : FS (option ProjectIdClaim) :=
  of_result (validate_owner_id owner) ≫= λ _,
  exists_ ← open_existing_registry;
  if negb exists_ then mret None else find_locked owner base.

Definition activate_sync (owner : bytes) (project_id : Z) : FS unit :=
  of_result (validate_owner_id owner) ≫= λ _,
  exists_ ← open_existing_registry;
  if negb exists_ then raise (RegistryInvalid "project id registry does not exist")
  else
    claim_owner ← read_owner (claim_path project_id);
    pending_owner ← read_owner (pending_path project_id);
    released_owner ← read_owner (tombstone_path project_id);
    of_result (validate_candidate_owners claim_owner pending_owner released_owner) ≫= λ _,
    if is_some released_owner
    then raise (RegistryInvalid "released project id cannot be activated")
    else if negb (owner_is claim_owner owner)
    then raise (RegistryInvalid "project id claim is missing or belongs to another owner")
    else remove_pending_marker project_id owner.

Definition release_sync (owner : bytes) (base : Z) : FS (option Z) :=
  of_result (validate_owner_id owner) ≫= λ _,
  exists_ ← open_existing_registry;
  if negb exists_ then mret None
  else
    found ← find_locked owner base;
    match found with
    | None => mret None
    | Some c =>
        write_tombstone c.(claim_id) owner ≫= λ _,
        remove_pending_marker c.(claim_id) owner ≫= λ _,
        mret (Some c.(claim_id))
    end.

(** ** The probe sequence covers the range *)

Lemma allocation_span_bounds base :
  is_u32 base → 1 ≤ allocation_span base ∧ base + allocation_span base ≤ u32_max + 1.
Proof. unfold allocation_span, PROJECT_ID_ALLOCATION_RANGE_SIZE. int_lia. Qed.

Lemma initial_project_id_bounds owner base span :
  0 < span → base ≤ initial_project_id owner base span < base + span.
Proof.
  intros. unfold initial_project_id.
  pose proof (Z.mod_pos_bound (fnv_write 0 owner) span). lia.
Qed.

(** A candidate lies in the range, so the [u32] addition does not overflow. *)
Lemma probe_candidate_bounds base initial span offset :
  0 < span → base ≤ probe_candidate base initial span offset < base + span.
Proof.
  intros. unfold probe_candidate. pose proof (Z.mod_pos_bound (initial - base + offset) span). lia.
Qed.

Lemma probe_candidate_covers base initial span candidate :
  0 < span → base ≤ candidate < base + span →
  ∃ offset, 0 ≤ offset < span ∧ probe_candidate base initial span offset = candidate.
Proof.
  intros Hs Hc. exists ((candidate - initial) mod span).
  split; [by apply Z.mod_pos_bound|]. unfold probe_candidate.
  rewrite Zplus_mod_idemp_r. replace (initial - base + (candidate - initial)) with (candidate - base) by lia.
  rewrite Z.mod_small by lia. lia.
Qed.

(** ** Owner files *)

(** An owner's name as the callers pass it: valid text, accepted by
    [validate_instance_id]. *)
Definition owner_ok (owner : bytes) : Prop :=
  valid_utf8 owner = true ∧ validate_owner_id owner = Ok tt.

Lemma valid_utf8_snoc v b : b2z b < 128 → valid_utf8 v = true → valid_utf8 (v ++ [b]) = true.
Proof.
  intros Hb. induction v as [v IH] using (induction_ltof1 _ (@length byte)). intros Hv.
  assert (Hrec : ∀ w, (length w < length v)%nat → valid_utf8 w = true → valid_utf8 (w ++ [b]) = true).
  { intros w Hw Hu. apply IH; [exact Hw|done]. }
  clear IH. destruct v as [|c v]; simpl in *; [by rewrite (proj2 (Z.ltb_lt _ _) Hb)|].
  destruct (b2z c <? 128); [apply Hrec; [lia|done]|].
  destruct v as [|c1 v]; [done|]. simpl in *.
  destruct (between 194 223 c).
  { apply andb_true_iff in Hv as [-> Hv]. apply Hrec; [lia|done]. }
  destruct v as [|c2 v]; [done|]. simpl in *.
  destruct (between 224 239 c).
  { apply andb_true_iff in Hv as [Hv1 Hv]. rewrite Hv1. apply Hrec; [lia|done]. }
  destruct v as [|c3 v]; [done|]. simpl in *.
  apply andb_true_iff in Hv as [Hv1 Hv]. rewrite Hv1. apply Hrec; [lia|done].
Qed.

Lemma owner_ok_spec owner :
  owner_ok owner →
  owner ≠ [] ∧ zlength owner ≤ 1023 ∧ existsb line_break owner = false ∧ valid_utf8 owner = true.
Proof.
  intros [Hu Hv]. unfold validate_owner_id in Hv.
  destruct (bool_decide (owner = [])) eqn:E1; [done|].
  destruct (Z.ltb_spec 1023 (zlength owner)); [done|].
  destruct (existsb line_break owner); [done|]. apply bool_decide_eq_false in E1. done.
Qed.

Lemma parse_owner_content owner : owner_ok owner → parse_owner (owner_content owner) = Some owner.
Proof.
  intros (Hne & Hl & Hb & Hu)%owner_ok_spec. unfold parse_owner, owner_content.
  rewrite take_ge by (rewrite length_app; unfold MAX_OWNER_FILE_BYTES; simpl; lia).
  rewrite valid_utf8_snoc by done. cbn [negb].
  rewrite length_app. unfold ends_with_newline. rewrite last_snoc, bool_decide_true by done.
  rewrite (proj2 (Z.ltb_ge _ _)) by (unfold MAX_OWNER_FILE_BYTES; simpl; lia). cbn [orb negb].
  rewrite removelast_last, Hb, bool_decide_false by done. done.
Qed.

(** What a file that was being written holds is never another owner. *)
Lemma parse_owner_partial owner k w :
  owner_ok owner → parse_owner (take k (owner_content owner)) = Some w → w = owner.
Proof.
  intros Hok. destruct (le_lt_dec (length (owner_content owner)) k) as [Hk|Hk].
  { rewrite take_ge by done. rewrite parse_owner_content by done. by intros [= ->]. }
  destruct (owner_ok_spec _ Hok) as (_ & _ & Hb & _). intros Hp. exfalso. revert Hp.
  unfold parse_owner. case_match; [done|]. case_match eqn:Hn; [done|]. intros _.
  apply orb_false_iff in Hn as [_ Hn]. apply negb_false_iff, bool_decide_eq_true in Hn.
  assert (Hin : x0a ∈ owner).
  { apply last_Some in Hn as [l Hn].
    assert (Hin : x0a ∈ take (Z.to_nat (MAX_OWNER_FILE_BYTES + 1)) (take k (owner_content owner))).
    { rewrite Hn. set_solver. }
    rewrite take_take in Hin. unfold owner_content in *. rewrite length_app in Hk. simpl in Hk.
    rewrite take_app_le in Hin by lia.
    apply elem_of_take in Hin as (i & Hi & _). by eapply list_elem_of_lookup_2. }
  apply not_true_iff_false in Hb. apply Hb, existsb_exists. exists x0a.
  split; [by apply list_elem_of_In|done].
Qed.

(** ** How the files change *)

(** The file holds an owner's complete line. *)
Definition owner_file (r : IdRegistry) (p : RegPath) (w : bytes) : Prop :=
  ∃ content, r.(files) !! p = Some (RegularFile content) ∧ parse_owner content = Some w.

(** What [read_owner] saw. *)
Definition marker_status (r : IdRegistry) (p : RegPath) (o : option bytes) : Prop :=
  match o with None => r.(files) !! p = None | Some w => owner_file r p w end.

(** The changes the calls make, each with what held before it: a pending marker
    for an identifier without files, a claim under one's own marker, a tombstone
    for one's own identifier, and the removal of a marker once the identifier is
    being activated (in [activating]) or has a tombstone. *)
Inductive change (activating : Z → Prop) : IdRegistry → IdRegistry → Prop :=
  | ch_dir r : change activating r (r <| registry_dir := DirReal |>)
  | ch_pending r id o k :
      owner_ok o → r.(files) !! pending_path id = None → r.(files) !! claim_path id = None →
      r.(files) !! tombstone_path id = None →
      change activating r (leave_behind (pending_path id) o (Some k) r)
  | ch_claim r id o k :
      owner_ok o → owner_file r (pending_path id) o → r.(files) !! claim_path id = None →
      r.(files) !! tombstone_path id = None →
      change activating r (leave_behind (claim_path id) o (Some k) r)
  | ch_tombstone r id o k :
      owner_ok o → (∀ kind w, owner_file r (kind, id) w → w = o) →
      r.(files) !! tombstone_path id = None →
      change activating r (leave_behind (tombstone_path id) o (Some k) r)
  | ch_unpend r id o :
      owner_file r (pending_path id) o →
      (activating id ∧ owner_file r (claim_path id) o) ∨ is_Some (r.(files) !! tombstone_path id) →
      change activating r (r <| files ::= delete (pending_path id) |>).

Abbreviation changes activating := (rtc (change activating)).

(** A file that is created leaves the other files as they are. *)
Lemma leave_behind_lookup r p o k q :
  (leave_behind p o (Some k) r).(files) !! q
  = if decide (p = q) then Some (RegularFile (take k (owner_content o))) else r.(files) !! q.
Proof. simpl. case_decide as E; [subst; by rewrite lookup_insert_eq|by rewrite lookup_insert_ne]. Qed.

Lemma owner_file_created r p o k q w :
  owner_ok o → r.(files) !! p = None →
  owner_file (leave_behind p o (Some k) r) q w → (q = p ∧ w = o) ∨ owner_file r q w.
Proof.
  intros Hok Hp (content & Hc & Hw). rewrite leave_behind_lookup in Hc. case_decide as E; subst.
  - left. simplify_eq. split; [done|]. by eapply parse_owner_partial.
  - right. by exists content.
Qed.

Lemma owner_file_kept r p o k q w :
  r.(files) !! p = None → owner_file r q w → owner_file (leave_behind p o (Some k) r) q w.
Proof.
  intros Hp (content & Hc & Hw). exists content. rewrite leave_behind_lookup.
  rewrite decide_False; [done|]. intros ->. by rewrite Hp in Hc.
Qed.

Section kept.
Context (activating : Z → Prop).

(** A claim, once complete, and a tombstone stay. *)
Lemma claim_kept r r' id o :
  changes activating r r' → owner_file r (claim_path id) o → owner_file r' (claim_path id) o.
Proof.
  induction 1 as [|r1 r2 r3 Hc _ IH]; [done|]. intros Ho. apply IH. clear IH.
  destruct Hc; try (by apply owner_file_kept); try done.
  destruct Ho as (content & Hc & Hw). exists content. split; [|done]. simpl.
  by rewrite lookup_delete_ne.
Qed.

Lemma tombstone_kept r r' id :
  changes activating r r' → is_Some (r.(files) !! tombstone_path id) →
  is_Some (r'.(files) !! tombstone_path id).
Proof.
  induction 1 as [|r1 r2 r3 Hc _ IH]; [done|]. intros Ho. apply IH. clear IH.
  destruct Hc; try done; try (rewrite leave_behind_lookup; by case_decide).
  simpl. by rewrite lookup_delete_ne.
Qed.

(** The complete files of an identifier name one owner. *)
Definition agreed (r : IdRegistry) : Prop :=
  ∀ id k1 k2 w1 w2, owner_file r (k1, id) w1 → owner_file r (k2, id) w2 → w1 = w2.

Lemma change_agreed r r' : change activating r r' → agreed r → agreed r'.
Proof.
  intros Hc Ha. destruct Hc as [r|r i o k Hok Hp Hcl Ht|r i o k Hok Hpo Hcl Ht|r i o k Hok Hw Ht|r i o Hpo Hg];
    intros id k1 k2 w1 w2 H1 H2; try (by eapply Ha).
  - assert (Hno : ∀ kk w, ¬ owner_file r (kk, i) w) by
      (unfold pending_path, claim_path, tombstone_path in *; intros [] w (c & Hc & _); congruence).
    destruct (owner_file_created _ _ _ _ _ _ Hok Hp H1) as [[E1 ->]|H1'],
      (owner_file_created _ _ _ _ _ _ Hok Hp H2) as [[E2 ->]|H2']; try done.
    + injection E1 as -> ->. by apply Hno in H2'.
    + injection E2 as -> ->. by apply Hno in H1'.
    + by eapply Ha.
  - destruct (owner_file_created _ _ _ _ _ _ Hok Hcl H1) as [[E1 ->]|H1'],
      (owner_file_created _ _ _ _ _ _ Hok Hcl H2) as [[E2 ->]|H2']; try done.
    + injection E1 as -> ->. by eapply Ha.
    + injection E2 as -> ->. by eapply Ha.
    + by eapply Ha.
  - destruct (owner_file_created _ _ _ _ _ _ Hok Ht H1) as [[E1 ->]|H1'],
      (owner_file_created _ _ _ _ _ _ Hok Ht H2) as [[E2 ->]|H2']; try done.
    + injection E1 as -> ->. symmetry. by eapply Hw.
    + injection E2 as -> ->. by eapply Hw.
    + by eapply Ha.
  - destruct H1 as (c1 & H1 & ?), H2 as (c2 & H2 & ?). simpl in H1, H2.
    apply lookup_delete_Some in H1 as [_ H1]. apply lookup_delete_Some in H2 as [_ H2].
    eapply Ha; [by exists c1|by exists c2].
Qed.

Lemma changes_agreed r r' : changes activating r r' → agreed r → agreed r'.
Proof. induction 1; eauto using change_agreed. Qed.

(** An identifier [o] will not be given: it was released, or belongs to
    another owner. *)
Definition blocked (r : IdRegistry) (id : Z) (o : bytes) : Prop :=
  is_Some (r.(files) !! tombstone_path id)
  ∨ ∃ o', o' ≠ o ∧ (owner_file r (claim_path id) o' ∨ owner_file r (pending_path id) o').

Lemma blocked_kept r r' id o : changes activating r r' → blocked r id o → blocked r' id o.
Proof.
  induction 1 as [|r1 r2 r3 Hc Hr IH]; [done|]. intros Hb. apply IH. clear IH.
  destruct Hb as [Ht|(o' & Hne & [Hcl|Hp])].
  - left. eapply tombstone_kept; [by apply rtc_once|done].
  - right. exists o'. split; [done|]. left. eapply claim_kept; [by apply rtc_once|done].
  - destruct Hc as [r|r i w k Hok Hpp Hcl Ht|r i w k Hok Hpo Hcl Ht|r i w k Hok Hw Ht|r i w Hpo Hg];
      try (right; exists o'; split; [done|]; right; first [done | by apply owner_file_kept]).
    destruct (decide (i = id)) as [->|Hi].
    + assert (w = o') as ->.
      { destruct Hpo as (c1 & H1 & P1), Hp as (c2 & H2 & P2). by simplify_eq. }
      destruct Hg as [[_ (c & Hc & Pc)]|Ht].
      * right. exists o'. split; [done|]. left. exists c. simpl. by rewrite lookup_delete_ne.
      * left. simpl. by rewrite lookup_delete_ne.
    + right. exists o'. split; [done|]. right. destruct Hp as (c & Hc & Pc). exists c. simpl.
      rewrite lookup_delete_ne; [done|]. unfold pending_path. congruence.
Qed.

(** A claim that is not being activated has its marker, or a tombstone. *)
Definition ids_covered (r : IdRegistry) (id : Z) : Prop :=
  is_Some (r.(files) !! claim_path id) →
  is_Some (r.(files) !! pending_path id) ∨ is_Some (r.(files) !! tombstone_path id).

Lemma covered_kept r r' id :
  changes activating r r' → ¬ activating id → ids_covered r id → ids_covered r' id.
Proof.
  intros Hr Hna. induction Hr as [|r1 r2 r3 Hc _ IH]; [done|]. intros Hcov. apply IH. clear IH.
  destruct Hc as [r|r i w k Hok Hpp Hcl Ht|r i w k Hok Hpo Hcl Ht|r i w k Hok Hw Ht|r i w Hpo Hg];
    try done; unfold ids_covered in *.
  - rewrite !leave_behind_lookup. repeat case_decide; simplify_eq; try done; eauto.
  - rewrite !leave_behind_lookup. repeat case_decide; simplify_eq; try done; eauto.
    intros _. left. destruct Hpo as (c & -> & _). done.
  - rewrite !leave_behind_lookup. repeat case_decide; simplify_eq; try done; eauto.
  - simpl. rewrite !(lookup_delete_ne _ (pending_path i) (claim_path id)),
      !(lookup_delete_ne _ (pending_path i) (tombstone_path id)) by done.
    destruct (decide (i = id)) as [->|Hi].
    + intros _. right. by destruct Hg as [[? _]|].
    + rewrite lookup_delete_ne; [done|]. unfold pending_path. congruence.
Qed.
End kept.

(** ** What the calls do

    [triple P m Q E]: from a registry that satisfies [P], [m] makes only the
    permitted changes, wherever it fails or dies; [Q] holds when it returns and
    [E] when it reports an error. *)
Section triples.
Context (activating : Z → Prop).

Definition triple {A} (P : IdRegistry → Prop) (m : FS A) (Q : A → IdRegistry → Prop)
    (E : IdError → IdRegistry → Prop) : Prop :=
  ∀ r cs, P r →
    match m r cs with
    | Done a r' _ => changes activating r r' ∧ Q a r'
    | Raised e r' _ => changes activating r r' ∧ E e r'
    | Died r' => changes activating r r'
    end.

(** The errors of the file system and of malformed files satisfy [E]. *)
Definition benign (E : IdError → IdRegistry → Prop) : Prop :=
  ∀ r, E RegistryIo r ∧ ∀ message, E (RegistryInvalid message) r.

Lemma triple_ret {A} (a : A) (P : IdRegistry → Prop) Q E :
  (∀ r, P r → Q a r) → triple P (mret a) Q E.
Proof. intros H r cs HP. split; [done|by apply H]. Qed.

Lemma triple_raise {A} e P (Q : A → IdRegistry → Prop) (E : IdError → IdRegistry → Prop) :
  (∀ r, P r → E e r) → triple P (raise e) Q E.
Proof. intros H r cs HP. split; [done|by apply H]. Qed.

Lemma triple_bind {A B} (m : FS A) (f : A → FS B) P Q R E :
  triple P m Q E → (∀ a, triple (Q a) (f a) R E) → triple P (m ≫= f) R E.
Proof.
  intros Hm Hf r cs HP. unfold mbind, FS_bind. specialize (Hm r cs HP).
  destruct (m r cs) as [a r1 cs1|e r1 cs1|r1]; [|done..]. destruct Hm as [H1 Hq].
  specialize (Hf a r1 cs1 Hq). destruct (f a r1 cs1) as [b r2 cs2|e r2 cs2|r2].
  - destruct Hf. split; [by etrans|done].
  - destruct Hf. split; [by etrans|done].
  - by etrans.
Qed.

Lemma triple_pre {A} (P P' : IdRegistry → Prop) (m : FS A) Q E :
  triple P' m Q E → (∀ r, P r → P' r) → triple P m Q E.
Proof. intros Hm HP r cs H. by apply Hm, HP. Qed.

Lemma triple_result {A} (v : result IdError A) (P : IdRegistry → Prop) (Q : A → IdRegistry → Prop) E :
  (∀ e, v = Err e → ∀ r, P r → E e r) →
  (∀ a r, v = Ok a → P r → Q a r) → triple P (of_result v) Q E.
Proof. intros He Hq. destruct v; [apply triple_ret|apply triple_raise]; eauto. Qed.

Lemma triple_read p (P : IdRegistry → Prop) E :
  benign E → triple P (read_owner p) (λ o r, P r ∧ marker_status r p o) E.
Proof.
  intros HE r cs HP. unfold read_owner. destruct (next_choice cs) as [[|k|k] cs'];
    [|split; [done|apply HE]|done].
  destruct (r.(files) !! p) as [[content|]|] eqn:Hf;
    [|split; [done|apply HE]|split; [done|]; split; done].
  destruct (parse_owner content) as [w|] eqn:Hw; [|split; [done|apply HE]].
  split; [done|]. split; [done|]. by exists content.
Qed.

Lemma triple_sync (P : IdRegistry → Prop) E : benign E → triple P sync_directory (λ _, P) E.
Proof.
  intros HE r cs HP. unfold sync_directory.
  destruct (next_choice cs) as [[|k|k] cs']; [done|split; [done|apply HE]|done].
Qed.

Lemma triple_validate c p t (P : IdRegistry → Prop) E :
  benign E →
  triple P (of_result (validate_candidate_owners c p t))
    (λ _ r, P r ∧ ∀ w1 w2, w1 ∈ omap id [c; p; t] → w2 ∈ omap id [c; p; t] → w1 = w2) E.
Proof.
  intros HE. apply triple_result.
  - unfold validate_candidate_owners. intros e He r _. repeat case_match; simplify_eq. apply HE.
  - unfold validate_candidate_owners. intros [] r Hv HP. split; [done|]. intros w1 w2.
    destruct (omap id [c; p; t]) as [|w l]; [by intros ?%elem_of_nil|].
    destruct (forallb _ l) eqn:Hf; [|done]. rewrite forallb_forall in Hf.
    assert (H : ∀ x, x ∈ w :: l → x = w).
    { intros x [->|Hx]%elem_of_cons; [done|]. apply list_elem_of_In, Hf in Hx.
      by apply bool_decide_eq_true in Hx. }
    intros H1%H H2%H. by rewrite H1, H2.
Qed.

(** The creation of a file: what is needed where it is absent. *)
Lemma triple_create p o (P : IdRegistry → Prop) Q E :
  benign E →
  (∀ r, P r → is_Some (r.(files) !! p) → Q false r) →
  (∀ r, P r → r.(files) !! p = None →
     Q true (leave_behind p o (Some (length (owner_content o))) r)
     ∧ ∀ k, change activating r (leave_behind p o (Some k) r)) →
  triple P (create_owner_file p o) Q E.
Proof.
  intros HE Hex Habs r cs HP. unfold create_owner_file.
  destruct (r.(files) !! p) as [e|] eqn:Hf.
  - rewrite bool_decide_false by done.
    destruct (next_choice cs) as [[|k|k] cs']; [|split; [done|apply HE]|done].
    split; [done|]. apply Hex; [done|]. by rewrite Hf.
  - rewrite bool_decide_true by done. destruct (Habs r HP Hf) as [Hq Hk].
    assert (Hl : ∀ k, changes activating r (leave_behind p o k r)).
    { intros [k|]; [apply rtc_once, Hk|done]. }
    destruct (next_choice cs) as [[|k|k] cs']; [|split; [apply Hl|apply HE]|apply Hl].
    specialize (Hl (Some (length (owner_content o)))). unfold leave_behind in Hl, Hq.
    rewrite take_ge in Hl, Hq by done. done.
Qed.

Lemma created_owner_file r p o :
  owner_ok o → owner_file (leave_behind p o (Some (length (owner_content o))) r) p o.
Proof.
  intros Hok. exists (owner_content o). rewrite leave_behind_lookup, decide_True by done.
  rewrite take_ge by done. split; [done|by apply parse_owner_content].
Qed.

Lemma status_owner_file r p o w : marker_status r p o → owner_file r p w → o = Some w.
Proof.
  intros Hs (c & Hc & Hw). destruct o as [w'|]; simpl in Hs; [|congruence].
  destruct Hs as (c' & Hc' & Hw'). by simplify_eq.
Qed.

(** What the changes keep may be carried along. *)
Lemma triple_frame {A} (F P : IdRegistry → Prop) (m : FS A) Q E :
  (∀ r r', changes activating r r' → F r → F r') →
  triple P m Q E → triple (λ r, P r ∧ F r) m (λ a r, Q a r ∧ F r) (λ e r, E e r ∧ F r).
Proof.
  intros HF Hm r cs [HP HFr]. specialize (Hm r cs HP).
  destruct (m r cs) as [a r' cs'|e r' cs'|r']; [| |done].
  - destruct Hm as [Hc Hq]. split; [done|]. split; [done|]. by eapply HF.
  - destruct Hm as [Hc Hq]. split; [done|]. split; [done|]. by eapply HF.
Qed.

Lemma triple_post {A} P (m : FS A) (Q Q' : A → IdRegistry → Prop) (E E' : IdError → IdRegistry → Prop) :
  triple P m Q E → (∀ a r, Q a r → Q' a r) → (∀ e r, E e r → E' e r) → triple P m Q' E'.
Proof.
  intros Hm HQ HE r cs HP. specialize (Hm r cs HP).
  destruct (m r cs); [| |done]; destruct Hm; split; auto.
Qed.

(** [claim] on a file that is absent or one's own. *)
Lemma triple_claim p o (P : IdRegistry → Prop) (Q : IdRegistry → Prop) E :
  benign E → owner_ok o →
  (∀ r, P r → r.(files) !! p = None →
     Q (leave_behind p o (Some (length (owner_content o))) r)
     ∧ ∀ k, change activating r (leave_behind p o (Some k) r)) →
  (∀ r, P r → is_Some (r.(files) !! p) → owner_file r p o ∧ Q r) →
  triple P (claim p o) (λ c r, c ≠ ClaimOwnedByAnother ∧ Q r) E.
Proof.
  intros HE Hok Habs Hex. unfold claim.
  eapply (triple_bind _ _ _ (λ created r, Q r ∧ (created = false → owner_file r p o))).
  { apply triple_create; [done| |].
    - intros r HP Hp. by destruct (Hex r HP Hp).
    - intros r HP Hp. destruct (Habs r HP Hp) as [HQ Hk]. split; [|done]. by split. }
  intros [].
  - eapply triple_bind; [by apply triple_sync|]. intros []. apply triple_ret. by intros r [HQ _].
  - eapply triple_bind; [by apply triple_read|]. intros found. apply triple_ret.
    intros r [[HQ Ho] Hs]. rewrite (status_owner_file _ _ _ _ Hs (Ho eq_refl)).
    rewrite bool_decide_true by done. done.
Qed.

(** Where [allocate_sync] publishes: no tombstone, and no files or one's own
    reservation. *)
Definition publishable (id : Z) (o : bytes) (r : IdRegistry) : Prop :=
  r.(files) !! tombstone_path id = None
  ∧ (r.(files) !! pending_path id = None ∧ r.(files) !! claim_path id = None
     ∨ owner_file r (pending_path id) o
       ∧ (r.(files) !! claim_path id = None ∨ owner_file r (claim_path id) o)).

Definition claimed (id : Z) (o : bytes) (r : IdRegistry) : Prop :=
  r.(files) !! tombstone_path id = None ∧ owner_file r (claim_path id) o.

Lemma triple_publish id o E :
  benign E → owner_ok o →
  triple (publishable id o) (publish_pending_claim id o)
    (λ c r, c = ClaimAlreadyOwned ∧ claimed id o r) E.
Proof.
  intros HE Hok. unfold publish_pending_claim.
  set (Q1 := λ r, r.(files) !! tombstone_path id = None ∧ owner_file r (pending_path id) o
                  ∧ (r.(files) !! claim_path id = None ∨ owner_file r (claim_path id) o)).
  eapply (triple_bind _ _ _ (λ c r, c ≠ ClaimOwnedByAnother ∧ Q1 r)).
  { apply triple_claim; [done|done| |].
    - intros r [Ht [[Hp Hc]|[(c & Hp & _) _]]] Hpn; [|congruence]. split.
      + split; [by rewrite leave_behind_lookup, decide_False|].
        split; [by apply created_owner_file|]. left. by rewrite leave_behind_lookup, decide_False.
      + intros k. by apply ch_pending.
    - intros r [Ht [[Hp Hc]|[Hp Hc]]] [e He]; [congruence|]. by repeat split. }
  intros [| |]; [| |intros r cs [? _]; done].
  all: apply (triple_pre _ Q1); [|by intros r [_ ?]].
  all: eapply (triple_bind _ _ _ (λ c r, c ≠ ClaimOwnedByAnother ∧ claimed id o r)).
  1, 3: apply triple_claim; [done|done| |].
  1, 3: intros r (Ht & Hp & Hc) Hcn; (split; [|intros k; by apply ch_claim]);
    (split; [by rewrite leave_behind_lookup, decide_False|by apply created_owner_file]).
  1, 2: intros r (Ht & Hp & Hc) [e He]; destruct Hc as [Hc|Hc]; [congruence|]; by repeat split.
  all: intros [| |]; [| |intros r cs [? _]; done]; apply triple_ret; by intros r [_ ?].
Qed.

(** ** Allocation *)

Section allocation.
Context (owner : bytes) (Hok : owner_ok owner) (base : Z).
Abbreviation span := (allocation_span base).
Abbreviation initial := (initial_project_id owner base span).
Abbreviation probe := (probe_candidate base initial span).

Definition blocked_before (offset : Z) (r : IdRegistry) : Prop :=
  ∀ i, 0 ≤ i < offset → blocked r (probe i) owner.

Lemma blocked_before_kept offset r r' :
  changes activating r r' → blocked_before offset r → blocked_before offset r'.
Proof. intros Hc Hb i Hi. eapply blocked_kept; [done|by apply Hb]. Qed.

Lemma blocked_before_S offset r :
  blocked_before offset r → blocked r (probe offset) owner → blocked_before (offset + 1) r.
Proof.
  intros Hb Ho i Hi. destruct (decide (i = offset)) as [->|]; [done|]. apply Hb. lia.
Qed.

(** The result of the loop: one's own claim, and every candidate before it is
    taken. *)
Definition allocated (last : Z) (id : Z) (r : IdRegistry) : Prop :=
  claimed id owner r ∧ ∃ j, 0 ≤ j < last ∧ id = probe j ∧ blocked_before j r.

Definition exhausted (last : Z) (e : IdError) (r : IdRegistry) : Prop :=
  e = ProjectIdExhausted base → blocked_before last r.

Lemma exhausted_benign last : benign (exhausted last).
Proof. intros r. split; [done|]. by intros m H. Qed.

(** What a turn that goes on found. *)
Lemma skipped_blocked c p t r id :
  marker_status r (claim_path id) c → marker_status r (pending_path id) p → marker_status r (tombstone_path id) t →
  is_some t = true
  ∨ owner_is c owner && negb (is_some p) = false
    ∧ negb (owner_is p owner) && negb (negb (is_some c) && negb (is_some p)) = true →
  blocked r id owner.
Proof.
  intros Hc Hp Ht [H|[H1 H2]].
  - left. destruct t as [w|]; [|done]. destruct Ht as (content & -> & _). done.
  - right. unfold owner_is in *. destruct p as [w|].
    + exists w. apply andb_true_iff in H2 as [H2 _]. apply negb_true_iff, bool_decide_eq_false in H2.
      split; [congruence|by right].
    + destruct c as [w|]; [|by rewrite andb_false_r in H2].
      exists w. rewrite andb_true_r in H1. apply bool_decide_eq_false in H1.
      split; [congruence|by left].
Qed.

Lemma triple_allocate_loop n offset :
  0 ≤ offset →
  triple (blocked_before offset) (allocate_loop n owner base initial span offset)
    (allocated (offset + Z.of_nat n)) (exhausted (offset + Z.of_nat n)).
Proof.
  revert offset. induction n as [|n IH]; intros offset Ho; cbn [allocate_loop].
  { apply triple_raise. intros r Hb _. by rewrite Z.add_0_r. }
  replace (offset + Z.of_nat (S n)) with (offset + 1 + Z.of_nat n) by lia.
  set (last := offset + 1 + Z.of_nat n) in *.
  specialize (IH (offset + 1) ltac:(lia)). fold last in IH.
  pose proof (exhausted_benign last) as HE. set (c := probe offset).
  eapply triple_bind; [by apply triple_read|]. intros co.
  eapply triple_bind; [by apply triple_read|]. intros po.
  eapply triple_bind; [by apply triple_read|]. intros ro.
  eapply triple_bind; [by apply triple_validate|]. intros [].
  destruct (is_some ro) eqn:Hro.
  { apply (triple_pre _ _ _ _ _ IH). intros r ((((Hb & Hc) & Hp) & Ht) & _).
    apply blocked_before_S; [done|]. eapply skipped_blocked; [done..|by left]. }
  destruct ro as [|]; [done|]. clear Hro.
  assert (Hdone : ∀ r, blocked_before offset r → claimed c owner r → allocated last c r).
  { intros r Hb Hcl. split; [done|]. exists offset. split; [unfold last; lia|done]. }
  destruct (owner_is co owner && negb (is_some po)) eqn:Hown.
  { apply triple_ret. intros r ((((Hb & Hc) & Hp) & Ht) & _). apply Hdone; [done|].
    split; [done|]. apply andb_true_iff in Hown as [Hown _].
    apply bool_decide_eq_true in Hown as ->. done. }
  destruct (negb (owner_is po owner) && _) eqn:Hskip.
  { apply (triple_pre _ _ _ _ _ IH). intros r ((((Hb & Hc) & Hp) & Ht) & _).
    apply blocked_before_S; [done|]. eapply skipped_blocked; [done..|by right]. }
  eapply (triple_bind _ _ _
    (λ cl r, (cl = ClaimAlreadyOwned ∧ claimed c owner r) ∧ blocked_before offset r)).
  - eapply triple_pre.
    + eapply triple_post; [apply (triple_frame (blocked_before offset));
        [intros; by eapply blocked_before_kept|by apply triple_publish]| |].
      * done.
      * by intros e r [? _].
    + intros r ((((Hb & Hc) & Hp) & Ht) & Hv). split; [|done]. split; [done|].
      apply andb_false_iff in Hskip as [Hs|Hs].
      * right. apply negb_false_iff, bool_decide_eq_true in Hs as ->. split; [done|].
        destruct co as [w|]; [right|by left]. rewrite (Hv owner w); [done|simpl; set_solver..].
      * left. apply negb_false_iff, andb_true_iff in Hs as [Hs1 Hs2]. by destruct co, po.
  - intros cl. destruct cl; try (intros r cs [[? _] _]; done).
    apply triple_ret. intros r [[_ Hcl] Hb]. by apply Hdone.
Qed.
End allocation.

Lemma triple_allocate owner base :
  owner_ok owner → is_u32 base →
  triple (λ _, True) (allocate_sync owner base) (allocated owner base (allocation_span base))
    (exhausted owner base (allocation_span base)).
Proof.
  intros Hok Hb. destruct (allocation_span_bounds base Hb) as [Hs1 Hs2].
  pose proof (exhausted_benign owner base (allocation_span base)) as HE.
  unfold allocate_sync. eapply triple_bind.
  { apply (triple_result _ _ (λ _ _, True)); [|done]. intros e He.
    destruct Hok as [_ Hok]. by rewrite Hok in He. }
  intros []. eapply (triple_bind _ _ _ (λ _ _, True)).
  { intros r cs _. unfold create_private_registry.
    destruct (registry_dir r); [split; [apply rtc_once, ch_dir|done]|done|split; [done|apply HE]]. }
  intros []. pose proof (triple_allocate_loop owner Hok base (Z.to_nat (allocation_span base)) 0) as Hl.
  rewrite Z.add_0_l, Z2Nat.id in Hl by lia. eapply triple_pre; [apply Hl; lia|].
  intros r _ i Hi. lia.
Qed.

(** ** Lookup and release *)

(** A claim that was found: the complete files of its identifier are the
    owner's, and it is reported active only where there is a claim without a
    marker or a tombstone. *)
Definition found_claim (owner : bytes) (c : ProjectIdClaim) (r : IdRegistry) : Prop :=
  (∀ kind w, owner_file r (kind, c.(claim_id)) w → w = owner)
  ∧ (c.(claim_state_of) = IdActive →
     is_Some (r.(files) !! claim_path c.(claim_id))
     ∧ r.(files) !! pending_path c.(claim_id) = None
     ∧ r.(files) !! tombstone_path c.(claim_id) = None).

Lemma statuses_found owner co po ro id r :
  marker_status r (claim_path id) co → marker_status r (pending_path id) po → marker_status r (tombstone_path id) ro →
  (∀ w1 w2, w1 ∈ omap Datatypes.id [co; po; ro] → w2 ∈ omap Datatypes.id [co; po; ro] → w1 = w2) →
  owner_is co owner || owner_is po owner || (negb (is_some co) && owner_is ro owner) = true →
  found_claim owner (mkProjectIdClaim id (claim_state (is_some po) (is_some ro))) r.
Proof.
  intros Hc Hp Ht Hv Hown.
  assert (Hin : owner ∈ omap Datatypes.id [co; po; ro]).
  { unfold owner_is in Hown. rewrite !orb_true_iff, andb_true_iff, !bool_decide_eq_true in Hown.
    rewrite list_elem_of_omap. destruct Hown as [[->| ->]|[_ ->]]; (eexists; split; [|reflexivity]);
      set_solver. }
  split; simpl.
  - intros kind w Hw. apply Hv; [|done]. rewrite list_elem_of_omap.
    destruct kind.
    + exists co. split; [set_solver|]. exact (status_owner_file _ _ _ _ Hc Hw).
    + exists po. split; [set_solver|]. exact (status_owner_file _ _ _ _ Hp Hw).
    + exists ro. split; [set_solver|]. exact (status_owner_file _ _ _ _ Ht Hw).
  - unfold claim_state. destruct ro as [|]; [done|]. destruct po as [|]; [done|]. intros _.
    split; [|done]. destruct co as [w|]; [|by rewrite andb_false_r in Hown].
    destruct Hc as (content & -> & _). done.
Qed.

Definition found_opt (owner : bytes) (o : option ProjectIdClaim) (r : IdRegistry) : Prop :=
  match o with Some c => found_claim owner c r | None => True end.

Lemma triple_find_loop owner base initial span E n offset released :
  benign E →
  triple (found_opt owner released) (find_loop n owner base initial span offset released)
    (found_opt owner) E.
Proof.
  intros HE. revert offset released. induction n as [|n IH]; intros offset released; cbn [find_loop].
  { by apply triple_ret. }
  eapply triple_bind; [by apply triple_read|]. intros co.
  eapply triple_bind; [by apply triple_read|]. intros ro.
  eapply triple_bind; [by apply triple_read|]. intros po.
  eapply triple_bind; [by apply triple_validate|]. intros [].
  set (id := probe_candidate base initial span offset).
  set (own := _ || _). set (st := claim_state _ _).
  assert (Hfound : ∀ r, ((((found_opt owner released r ∧ marker_status r (claim_path id) co)
             ∧ marker_status r (tombstone_path id) ro) ∧ marker_status r (pending_path id) po)
           ∧ ∀ w1 w2, w1 ∈ omap Datatypes.id [co; po; ro] → w2 ∈ omap Datatypes.id [co; po; ro] → w1 = w2) →
           own = true → found_claim owner (mkProjectIdClaim id st) r).
  { intros r ((((_ & Hc) & Ht) & Hp) & Hv) Hown. by apply statuses_found with (co := co). }
  destruct (own && negb (bool_decide (st = IdReleased))) eqn:E1.
  { apply andb_true_iff in E1 as [E1 _]. apply triple_ret. intros r H. by apply Hfound. }
  set (released' := if own then _ else released).
  assert (Hrel : ∀ r, ((((found_opt owner released r ∧ marker_status r (claim_path id) co)
             ∧ marker_status r (tombstone_path id) ro) ∧ marker_status r (pending_path id) po)
           ∧ ∀ w1 w2, w1 ∈ omap Datatypes.id [co; po; ro] → w2 ∈ omap Datatypes.id [co; po; ro] → w1 = w2) →
           found_opt owner released' r).
  { intros r H. unfold released'. destruct own eqn:Eo; [|apply H]. simpl.
    destruct released as [c|]; [apply H|]. simpl. by apply Hfound. }
  destruct (_ && _ && _); [by apply triple_ret|]. by apply (triple_pre _ _ _ _ _ (IH _ _)).
Qed.

Lemma triple_find owner base E :
  benign E → triple (λ _, True) (find_sync owner base) (found_opt owner) E.
Proof.
  intros HE. unfold find_sync. eapply triple_bind.
  { apply (triple_result _ _ (λ _ _, True)); [|done]. unfold validate_owner_id.
    intros e He r _. case_match; simplify_eq. apply HE. }
  intros []. eapply (triple_bind _ _ _ (λ _ _, True)).
  { intros r cs _. unfold open_existing_registry.
    destruct (registry_dir r); [done|done|split; [done|apply HE]]. }
  intros []; [|by apply triple_ret]. unfold find_locked.
  eapply triple_pre; [by apply triple_find_loop|done].
Qed.

Lemma triple_remove_pending id owner E :
  benign E →
  triple (λ r, (activating id ∧ owner_file r (claim_path id) owner)
               ∨ is_Some (r.(files) !! tombstone_path id))
    (remove_pending_marker id owner) (λ _ r, True) E.
Proof.
  intros HE. unfold remove_pending_marker. eapply triple_bind; [by apply triple_read|].
  intros [w|]; [|by apply triple_ret].
  destruct (bool_decide (w ≠ owner)) eqn:Ew; [apply triple_raise; intros r _; apply HE|].
  apply bool_decide_eq_false in Ew. assert (w = owner) as -> by (by destruct (decide (w = owner))).
  eapply (triple_bind _ _ _ (λ _ _, True)); [|by intros []; apply triple_sync].
  intros r cs [Hg Hp]. unfold remove_file.
  assert (Hc : change activating r (r <| files ::= delete (pending_path id) |>))
    by (by eapply ch_unpend).
  destruct (next_choice cs) as [[|k|[k|]] cs']; [|split; [done|apply HE]|done|by apply rtc_once].
  split; [by apply rtc_once|done].
Qed.

Lemma triple_release owner base E :
  benign E → owner_ok owner →
  triple (λ _, True) (release_sync owner base)
    (λ o r, ∀ id, o = Some id → is_Some (r.(files) !! tombstone_path id)) E.
Proof.
  intros HE Hok. unfold release_sync. eapply triple_bind.
  { apply (triple_result _ _ (λ _ _, True)); [|done]. unfold validate_owner_id.
    intros e He r _. case_match; simplify_eq. apply HE. }
  intros []. eapply (triple_bind _ _ _ (λ _ _, True)).
  { intros r cs _. unfold open_existing_registry.
    destruct (registry_dir r); [done|done|split; [done|apply HE]]. }
  intros []; [|by apply triple_ret]. eapply (triple_bind _ _ _ (found_opt owner)).
  { unfold find_locked. eapply triple_pre; [by apply triple_find_loop|done]. }
  intros [c|]; [|by apply triple_ret].
  eapply (triple_bind _ _ _ (λ _ r, is_Some (r.(files) !! tombstone_path c.(claim_id)))).
  - unfold write_tombstone.
    eapply (triple_bind _ _ _ (λ _ r, is_Some (r.(files) !! tombstone_path c.(claim_id)))).
    + apply triple_create; [done|done|]. intros r [Hf _] Ht.
      split; [by rewrite leave_behind_lookup, decide_True|]. intros k. by apply ch_tombstone.
    + intros []; [by apply triple_sync|]. eapply triple_bind; [by apply triple_read|].
      intros found. case_match; [by apply triple_ret; intros r [? _]|].
      apply triple_raise. intros r _. apply HE.
  - intros []. eapply (triple_bind _ _ _
      (λ _ r, True ∧ is_Some (r.(files) !! tombstone_path c.(claim_id)))).
    + eapply triple_pre.
      * eapply triple_post; [eapply (triple_frame (λ r, is_Some (r.(files) !! tombstone_path c.(claim_id))));
          [intros; by eapply tombstone_kept|by apply triple_remove_pending]| |].
        -- done.
        -- by intros e r [? _].
      * intros r Ht. split; [by right|done].
    + intros []. apply triple_ret. by intros r [_ Ht] id [= <-].
Qed.

Lemma triple_activate owner id E :
  benign E → activating id → triple (λ _, True) (activate_sync owner id) (λ _ _, True) E.
Proof.
  intros HE Hact. unfold activate_sync. eapply triple_bind.
  { apply (triple_result _ _ (λ _ _, True)); [|done]. unfold validate_owner_id.
    intros e He r _. case_match; simplify_eq. apply HE. }
  intros []. eapply (triple_bind _ _ _ (λ _ _, True)).
  { intros r cs _. unfold open_existing_registry.
    destruct (registry_dir r); [done|done|split; [done|apply HE]]. }
  intros []; [|apply triple_raise; intros r _; apply HE].
  eapply triple_bind; [by apply triple_read|]. intros co.
  eapply triple_bind; [by apply triple_read|]. intros po.
  eapply triple_bind; [by apply triple_read|]. intros ro.
  eapply triple_bind; [by apply triple_validate|]. intros [].
  case_match; [apply triple_raise; intros r _; apply HE|].
  destruct (negb (owner_is co owner)) eqn:Eo; [apply triple_raise; intros r _; apply HE|].
  apply negb_false_iff, bool_decide_eq_true in Eo as ->.
  eapply triple_pre; [by apply triple_remove_pending|].
  intros r ((((_ & Hc) & _) & _) & _). left. by split.
Qed.
End triples.

(** ** Histories *)

Inductive IdCall :=
  | CallAllocate (owner : bytes) (base : Z)
  | CallFind (owner : bytes) (base : Z)
  | CallActivate (owner : bytes) (id : Z)
  | CallRelease (owner : bytes) (base : Z).

(** The registry a call leaves, however it ended. *)
Definition left_by {A} (res : Res A) : IdRegistry :=
  match res with Done _ r _ => r | Raised _ r _ => r | Died r => r end.

Definition run_call (c : IdCall) (r : IdRegistry) (cs : list Choice) : IdRegistry :=
  match c with
  | CallAllocate o base => left_by (allocate_sync o base r cs)
  | CallFind o base => left_by (find_sync o base r cs)
  | CallActivate o id => left_by (activate_sync o id r cs)
  | CallRelease o base => left_by (release_sync o base r cs)
  end.

(** The arguments are of their types: text, and a [u32]. *)
Definition call_wf (c : IdCall) : Prop :=
  match c with
  | CallAllocate o n | CallFind o n | CallActivate o n | CallRelease o n =>
      valid_utf8 o = true ∧ is_u32 n
  end.

(** One call, with any failures; [activating] are the identifiers that may be
    activated. *)
Inductive call_step (activating : Z → Prop) : IdRegistry → IdRegistry → Prop :=
  | call_runs c r cs :
      call_wf c → (∀ o id, c = CallActivate o id → activating id) →
      call_step activating r (run_call c r cs).

Abbreviation id_history activating := (rtc (call_step activating)).

Lemma triple_left {A} activating (P : IdRegistry → Prop) (m : FS A) Q E r cs :
  triple activating P m Q E → P r → changes activating r (left_by (m r cs)).
Proof. intros Hm HP. specialize (Hm r cs HP). destruct (m r cs); naive_solver. Qed.

(** A name that is refused changes nothing. *)
Lemma refused_left {A} (f : unit → FS A) owner r cs e :
  validate_owner_id owner = Err e →
  left_by ((of_result (validate_owner_id owner) ≫= f) r cs) = r.
Proof. by intros ->. Qed.

Definition any_error (e : IdError) (r : IdRegistry) : Prop := True.

Lemma call_changes activating r r' : call_step activating r r' → changes activating r r'.
Proof.
  intros [c r0 cs Hwf Hact].
  assert (Hben : benign any_error) by (by intros ?).
  destruct c as [o base|o base|o id|o base]; destruct Hwf as [Hu Hb]; simpl.
  - destruct (validate_owner_id o) as [[]|e] eqn:Hv.
    + by eapply triple_left; [apply triple_allocate|].
    + unfold allocate_sync. by erewrite refused_left.
  - by eapply triple_left; [apply (triple_find _ _ _ any_error)|].
  - eapply triple_left; [apply (triple_activate _ _ _ any_error); [done|by eapply Hact]|done].
  - destruct (validate_owner_id o) as [[]|e] eqn:Hv.
    + by eapply triple_left; [apply (triple_release _ _ _ any_error)|].
    + unfold release_sync. by erewrite refused_left.
Qed.

Lemma history_changes activating r r' : id_history activating r r' → changes activating r r'.
Proof. induction 1; [done|]. etrans; [by apply call_changes|done]. Qed.

Definition activating_any (id : Z) : Prop := True.

(** The owner of a call that returned was accepted. *)
Lemma allocate_Done activating owner base r cs id r' cs' :
  valid_utf8 owner = true → is_u32 base →
  allocate_sync owner base r cs = Done id r' cs' →
  owner_ok owner ∧ changes activating r r' ∧ allocated owner base (allocation_span base) id r'.
Proof.
  intros Hu Hb Hd. assert (Hok : owner_ok owner).
  { split; [done|]. unfold allocate_sync in Hd.
    destruct (validate_owner_id owner) as [[]|e]; [done|discriminate]. }
  split; [done|]. pose proof (triple_allocate activating owner base Hok Hb r cs I) as Ht.
  by rewrite Hd in Ht.
Qed.

(** C15. Two owners never receive one identifier: whatever calls were made, failed
    or died in between, with whatever bases, the identifier a caller was given
    stays its own; it lies in the caller's range and is a [u32]. *)
Theorem project_ids_exclusive o1 base1 r1 cs1 id r2 cs2 r3 o2 base2 cs3 r4 cs4 :
  valid_utf8 o1 = true → is_u32 base1 → valid_utf8 o2 = true → is_u32 base2 →
  allocate_sync o1 base1 r1 cs1 = Done id r2 cs2 →
  id_history activating_any r2 r3 →
  allocate_sync o2 base2 r3 cs3 = Done id r4 cs4 →
  o1 = o2 ∧ base1 ≤ id < base1 + allocation_span base1 ∧ id ≤ u32_max.
Proof.
  intros Hu1 Hb1 Hu2 Hb2 H1 Hh%history_changes H2.
  apply (allocate_Done activating_any) in H1 as (_ & _ & [_ Hc1] & j & Hj & -> & _); [|done..].
  apply (allocate_Done activating_any) in H2 as (_ & Hc & [_ Hc2] & _); [|done..].
  eapply claim_kept in Hc1; [|etrans; [exact Hh|exact Hc]].
  destruct Hc1 as (c1 & F1 & P1), Hc2 as (c2 & F2 & P2). simplify_eq. split; [done|].
  destruct (allocation_span_bounds base1 Hb1).
  pose proof (probe_candidate_bounds base1 (initial_project_id o2 base1 (allocation_span base1))
                (allocation_span base1) j). lia.
Qed.

(** C27. A released identifier is not given again, to anyone. *)
Theorem released_ids_not_reused o1 base1 r1 cs1 id r2 cs2 r3 o2 base2 cs3 id' r4 cs4 :
  valid_utf8 o1 = true → is_u32 base1 → valid_utf8 o2 = true → is_u32 base2 →
  release_sync o1 base1 r1 cs1 = Done (Some id) r2 cs2 →
  id_history activating_any r2 r3 →
  allocate_sync o2 base2 r3 cs3 = Done id' r4 cs4 → id' ≠ id.
Proof.
  intros Hu1 Hb1 Hu2 Hb2 H1 Hh%history_changes H2 ->.
  assert (Hok : owner_ok o1).
  { split; [done|]. unfold release_sync in H1.
    destruct (validate_owner_id o1) as [[]|e]; [done|discriminate]. }
  pose proof (triple_release activating_any o1 base1 any_error ltac:(by intros ?) Hok r1 cs1 I) as Ht.
  rewrite H1 in Ht. destruct Ht as [_ Ht]. specialize (Ht id eq_refl).
  apply (allocate_Done activating_any) in H2 as (_ & Hc & [Hn _] & _); [|done..].
  eapply tombstone_kept in Ht; [|etrans; [exact Hh|exact Hc]]. rewrite Hn in Ht. by destruct Ht.
Qed.

(** Someone else's claim or marker is not beside one's own claim. *)
Lemma claimed_not_blocked r id o : agreed r → claimed id o r → ¬ blocked r id o.
Proof.
  intros Ha [Hn Hown] [[? ?]|(o' & Hne & [Ho|Ho])]; [congruence|..]; apply Hne; by eapply Ha.
Qed.

(** An owner keeps its identifier: as long as it is not released, every
    allocation that returns gives the same one, also when calls of this or of
    other owners died in between. *)
Theorem allocation_stable o base r1 cs1 id r2 cs2 r3 cs3 id' r4 cs4 :
  valid_utf8 o = true → is_u32 base → agreed r1 →
  allocate_sync o base r1 cs1 = Done id r2 cs2 →
  id_history activating_any r2 r3 →
  allocate_sync o base r3 cs3 = Done id' r4 cs4 →
  r4.(files) !! tombstone_path id = None → id' = id.
Proof.
  intros Hu Hb Hag H1 Hh%history_changes H2 Ht.
  apply (allocate_Done activating_any) in H1 as (_ & H12 & [_ Hc1] & j & Hj & -> & Hb1); [|done..].
  apply (allocate_Done activating_any) in H2 as (_ & Hc & Hcl & j' & Hj' & -> & Hb2); [|done..].
  assert (H24 : changes activating_any r2 r4) by (etrans; [exact Hh|exact Hc]).
  assert (Hag4 : agreed r4) by (eapply changes_agreed; [|exact Hag]; by etrans).
  destruct (Z.lt_trichotomy j' j) as [Hlt|[->|Hgt]]; [|done|]; exfalso.
  - eapply claimed_not_blocked; [exact Hag4|exact Hcl|]. eapply blocked_kept; [exact H24|].
    apply Hb1. lia.
  - eapply claimed_not_blocked; [exact Hag4| |by apply Hb2; split; [apply Hj|]].
    split; [done|]. by eapply claim_kept.
Qed.

(** An allocation reports that the range is used up only where every
    identifier of it was released or belongs to another owner. *)
Theorem exhaustion_is_real o base r cs r' cs' :
  valid_utf8 o = true → is_u32 base →
  allocate_sync o base r cs = Raised (ProjectIdExhausted base) r' cs' →
  ∀ id, base ≤ id < base + allocation_span base → blocked r' id o.
Proof.
  intros Hu Hb Hr id Hid. destruct (allocation_span_bounds base Hb) as [Hs _].
  assert (Hok : owner_ok o).
  { split; [done|]. unfold allocate_sync, validate_owner_id in *. by case_match. }
  pose proof (triple_allocate activating_any o base Hok Hb r cs I) as Ht. rewrite Hr in Ht.
  destruct Ht as [_ Ht]. specialize (Ht eq_refl).
  destruct (probe_candidate_covers base (initial_project_id o base (allocation_span base))
              (allocation_span base) id) as (offset & Ho & <-); [lia|done|]. by apply Ht.
Qed.

(** C28. An identifier is never reported active before its activation: if it had no
    claim and no call activates it, then after any calls, completed or not, no
    lookup reports it active. *)
Theorem pending_until_activated id r r' o base cs c r'' cs' :
  r.(files) !! claim_path id = None →
  id_history (λ i, i ≠ id) r r' →
  find_sync o base r' cs = Done (Some c) r'' cs' →
  c.(claim_id) = id → c.(claim_state_of) ≠ IdActive.
Proof.
  intros Hn Hh%history_changes Hf <- Hs.
  pose proof (triple_find (λ i, i ≠ c.(claim_id)) o base any_error ltac:(by intros ?) r' cs I) as Ht.
  rewrite Hf in Ht. destruct Ht as [Hc [_ Hst]]. destruct (Hst Hs) as (Hcl & Hp & Htomb).
  assert (Hcov : ids_covered r'' c.(claim_id)).
  { eapply (covered_kept (λ i, i ≠ c.(claim_id))); [etrans; [exact Hh|exact Hc]|by intros H|].
    intros [? H]. congruence. }
  destruct (Hcov Hcl) as [[? H]|[? H]]; congruence.
Qed.

(** ** Examples *)

Definition empty_registry : IdRegistry := mkRegistry DirMissing ∅.
Definition demo_made : IdRegistry := mkRegistry DirReal ∅.

(** The range of the last base holds one identifier. *)
Definition demo_project_owner : bytes := lit "inst_one".
Definition demo_allocated : IdRegistry := left_by (allocate_sync demo_project_owner u32_max empty_registry []).

(** An activation that dies before the marker is gone. *)
Definition demo_interrupted : IdRegistry :=
  run_call (CallActivate demo_project_owner u32_max) demo_allocated [Go; Go; Go; Go; Crash (Some 0%nat)].

Lemma demo_id_history : id_history activating_any demo_allocated demo_interrupted.
Proof. apply rtc_once. constructor; [|done]. split; [done|]. vm_compute. by split. Qed.

Lemma project_ids_exclusive_witness :
  demo_project_owner = demo_project_owner
  ∧ u32_max ≤ u32_max < u32_max + allocation_span u32_max ∧ u32_max ≤ u32_max.
Proof.
  apply (project_ids_exclusive demo_project_owner u32_max empty_registry [] u32_max demo_allocated [] demo_interrupted
           demo_project_owner u32_max [] demo_allocated []);
    [done|vm_compute; by split|done|vm_compute; by split| | |].
  - vm_compute. reflexivity.
  - exact demo_id_history.
  - vm_compute. reflexivity.
Defined.

Definition two_ids : Z := u32_max - 1.
Definition demo_two : IdRegistry := left_by (allocate_sync demo_project_owner two_ids empty_registry []).
Definition demo_released : IdRegistry := left_by (release_sync demo_project_owner two_ids demo_two []).

Lemma released_ids_not_reused_witness : u32_max ≠ two_ids.
Proof.
  apply (released_ids_not_reused demo_project_owner two_ids demo_two [] two_ids demo_released [] demo_released
           demo_project_owner two_ids [] u32_max (left_by (allocate_sync demo_project_owner two_ids demo_released [])) []);
    [done|vm_compute; by split|done|vm_compute; by split| |apply rtc_refl|].
  - vm_compute. reflexivity.
  - vm_compute. reflexivity.
Defined.

Lemma allocation_stable_witness : u32_max = u32_max.
Proof.
  apply (allocation_stable demo_project_owner u32_max empty_registry [] u32_max demo_allocated []
           demo_interrupted [] u32_max demo_allocated []);
    [done|vm_compute; by split| | |exact demo_id_history| |].
  - intros id k1 k2 w1 w2 (c & Hc & _). simpl in Hc. by rewrite lookup_empty in Hc.
  - vm_compute. reflexivity.
  - vm_compute. reflexivity.
  - vm_compute. reflexivity.
Defined.

Lemma pending_until_activated_witness : IdPending ≠ IdActive.
Proof.
  apply (pending_until_activated u32_max empty_registry demo_allocated demo_project_owner u32_max []
           (mkProjectIdClaim u32_max IdPending) demo_allocated []).
  - vm_compute. reflexivity.
  - apply rtc_once. apply (call_runs _ (CallAllocate demo_project_owner u32_max) empty_registry []); [|done].
    split; [done|]. vm_compute. by split.
  - vm_compute. reflexivity.
  - reflexivity.
Defined.

(** ** A file that was being written when the daemon died

    The name of a marker is published before its content. *)

(** The identifier an owner probes first. *)
Definition first_candidate (o : bytes) (base : Z) : Z :=
  probe_candidate base (initial_project_id o base (allocation_span base)) (allocation_span base) 0.

Lemma allocation_rounds base :
  is_u32 base → ∃ n, Z.to_nat (allocation_span base) = S n.
Proof.
  intros Hb. destruct (allocation_span_bounds base Hb). exists (Z.to_nat (allocation_span base - 1)). lia.
Qed.

Lemma create_dies p o kept r cs :
  files r !! p = None → create_owner_file p o r (Crash kept :: cs) = Died (leave_behind p o kept r).
Proof. intros Hp. unfold create_owner_file. cbn [next_choice]. by rewrite bool_decide_eq_true_2. Qed.

(** An allocation that finds an empty marker first gives up, and changes
    nothing. *)
Lemma allocate_torn o base r cs :
  owner_ok o → is_u32 base → registry_dir r = DirReal →
  files r !! claim_path (first_candidate o base) = None →
  files r !! pending_path (first_candidate o base) = Some (RegularFile []) →
  (∀ id r' cs', allocate_sync o base r cs ≠ Done id r' cs') ∧ left_by (allocate_sync o base r cs) = r.
Proof.
  intros [_ Hv] Hb Hd Hc Hp. destruct (allocation_rounds base Hb) as [n Hn].
  unfold allocate_sync. rewrite Hv, Hn. cbn [of_result allocate_loop].
  fold (first_candidate o base). unfold mbind, FS_bind, mret, FS_ret, create_private_registry.
  rewrite Hd. unfold read_owner.
  destruct cs as [|[] cs]; cbn [next_choice]; try (split; [discriminate|reflexivity]); rewrite Hc.
  all: try destruct cs as [|[] cs]; cbn [next_choice]; try (split; [discriminate|reflexivity]).
  all: rewrite Hp; split; [discriminate|reflexivity].
Qed.

(** C40. A crash that leaves a marker empty is not recovered from.  An allocation
    whose first candidate is unused and that dies after creating the pending
    marker, before any of its content is on disk, leaves a registry in which
    every allocation that probes this identifier first fails, the retry of the
    same owner included, and leaves the registry as it is. *)
Theorem torn_marker_blocks o base r :
  owner_ok o → is_u32 base → registry_dir r = DirReal →
  files r !! claim_path (first_candidate o base) = None →
  files r !! pending_path (first_candidate o base) = None →
  files r !! tombstone_path (first_candidate o base) = None →
  ∃ torn, allocate_sync o base r [Go; Go; Go; Crash (Some 0%nat)] = Died torn ∧
    ∀ o' cs, owner_ok o' → first_candidate o' base = first_candidate o base →
      (∀ id r' cs', allocate_sync o' base torn cs ≠ Done id r' cs')
      ∧ left_by (allocate_sync o' base torn cs) = torn.
Proof.
  intros Ho Hb Hd Hc Hp Ht. exists (leave_behind (pending_path (first_candidate o base)) o (Some 0%nat) r).
  split.
  - destruct Ho as [_ Hv]. destruct (allocation_rounds base Hb) as [n Hn].
    unfold allocate_sync. rewrite Hv, Hn. cbn [of_result allocate_loop].
    fold (first_candidate o base). unfold mbind, FS_bind, mret, FS_ret, create_private_registry.
    rewrite Hd. unfold read_owner. cbn [next_choice]. rewrite Hc. cbn [next_choice]. rewrite Hp.
    cbn [next_choice]. rewrite Ht. cbn -[first_candidate pending_path publish_pending_claim].
    replace (owner_is None o) with false by reflexivity. cbn -[first_candidate pending_path publish_pending_claim].
    unfold publish_pending_claim, claim, mbind, FS_bind. rewrite (create_dies _ _ _ _ _ Hp). reflexivity.
  - intros o' cs Ho' He. apply allocate_torn; rewrite ?He; try done; cbn; by simplify_map_eq.
Qed.

Lemma torn_marker_blocks_witness :
  ∃ torn, allocate_sync demo_project_owner u32_max demo_made [Go; Go; Go; Crash (Some 0%nat)] = Died torn ∧
    left_by (allocate_sync demo_project_owner u32_max torn []) = torn.
Proof.
  destruct (torn_marker_blocks demo_project_owner u32_max demo_made) as (torn & Ht & H);
    [vm_compute; by split|int_lia|vm_compute; reflexivity..|].
  exists torn. split; [exact Ht|]. apply H; [vm_compute; by split|reflexivity].
Defined.
