(* ===== verification/ClickhouseGateway.v ===== *)
(** * ClickHouse: the native handshake, the HTTP request, and the tunnel

    [src/src/app/gateway/protocols/clickhouse.rs], [read_clickhouse_hello] and
    [read_http_headers] of [gateway/listeners/listener_io/handshake.rs], and
    [gateway/listeners/clickhouse_listener.rs].

    The native hello is parsed and rewritten here completely. The HTTP head is
    split into lines, names and percent-encoded pairs by the crates httparse,
    form_urlencoded and base64, which are parameters of the section [http]. *)
From Stdlib Require Import Strings.Byte.
From S2P Require Import Prelude Bytes Engines RouteStore Sessions Resolver RespGateway SqlScan.

Local Open Scope Z_scope.

(** ** Data *)

Record ClickhouseRoute := mkClickhouseRoute { ch_username : bytes; ch_database : bytes }.

Inductive ClickhouseParseError :=
  | MissingUsername | IncompleteNativeHello | InvalidNativeHello | InvalidNativeUtf8
  | IncompleteHttpRequest | InvalidHttpRequest | MissingHttpUsername | InvalidHttpBasicAuth.

(** ** The native reader *)

(** [NativeReader]: the offset and the bytes from there on. *)
Record NativeReader := mkNativeReader { reader_offset : Z; reader_rest : bytes }.

Definition Parser (A : Type) : Type :=
  NativeReader → result ClickhouseParseError (A * NativeReader).

#[export] Instance Parser_ret : MRet Parser := λ A a r, Ok (a, r).
#[export] Instance Parser_bind : MBind Parser := λ A B f m r,
  match m r with Ok (a, r) => f a r | Err e => Err e end.

Definition parse_fail {A} (e : ClickhouseParseError) : Parser A := λ _, Err e.

(** The turns of [read_uvarint]: [n] shifts are left. *)
Fixpoint uvarint_loop (n : nat) (shift value : Z) : Parser Z := λ r,
  match n with
  | O => Err InvalidNativeHello
  | S n =>
      match r.(reader_rest) with
      | [] => Err IncompleteNativeHello
      | b :: rest =>
          let r := mkNativeReader (r.(reader_offset) + 1) rest in
          let value :=
            Z.lor value (Z.land (Z.shiftl (Z.land (b2z b) 127) shift) u64_max) in
          if Z.land (b2z b) 128 =? 0 then Ok (value, r) else uvarint_loop n (shift + 7) value r
      end
  end.
Definition read_uvarint : Parser Z := uvarint_loop 10 0 0.

(** The bytes [offset..end] of the buffer. *)
Definition read_slice (len : Z) : Parser bytes := λ r,
  match checked_add usize_max r.(reader_offset) len with
  | None => Err InvalidNativeHello
  | Some stop =>
      if len <=? zlength r.(reader_rest)
      then Ok (take (Z.to_nat len) r.(reader_rest),
               mkNativeReader stop (drop (Z.to_nat len) r.(reader_rest)))
      else Err IncompleteNativeHello
  end.

Definition read_string : Parser bytes :=
  len ← read_uvarint;
  value ← read_slice len;
  if valid_utf8 value then mret value else parse_fail InvalidNativeUtf8.

Definition skip_client_identity : Parser unit :=
  read_string ≫= λ _, read_uvarint ≫= λ _, read_uvarint ≫= λ _, read_uvarint ≫= λ _, mret tt.

Definition CLIENT_HELLO_PACKET_TYPE : Z := 0.

(** What precedes the database of a hello. *)
Definition hello_start : Parser unit :=
  packet_type ← read_uvarint;
  if packet_type =? CLIENT_HELLO_PACKET_TYPE then skip_client_identity
  else parse_fail InvalidNativeHello.

Definition hello_user : Parser bytes :=
  username ← read_string;
  read_string ≫= λ _,
  if bool_decide (username = []) then parse_fail MissingUsername else mret username.

Definition native_hello : Parser ClickhouseRoute :=
  hello_start ≫= λ _,
  database ← read_string;
  username ← hello_user;
  mret (mkClickhouseRoute username database).

Definition parse_native_initial_route (v : bytes) : result ClickhouseParseError ClickhouseRoute :=
  '(route, _) ← native_hello (mkNativeReader 0 v); Ok route.

(** [write_uvarint]: a 64-bit value takes at most ten turns. *)
Fixpoint uvarint_bytes (n : nat) (value : Z) : bytes :=
  match n with
  | O => []
  | S n =>
      let low := Z.land value 127 in
      let value := Z.shiftr value 7 in
      if value =? 0 then [z2b low] else z2b (Z.lor low 128) :: uvarint_bytes n value
  end.
Definition write_uvarint (value : Z) : bytes := uvarint_bytes 10 value.

Definition native_hello_with_database (v database : bytes) : result ClickhouseParseError bytes :=
  parse_native_initial_route v ≫= λ _,
  if bool_decide (database = []) then Err InvalidNativeHello
  else
    '(_, start) ← hello_start (mkNativeReader 0 v);
    '(_, stop) ← read_string start;
    Ok (take (length v - length start.(reader_rest)) v
        ++ write_uvarint (zlength database) ++ database ++ stop.(reader_rest)).

(** [clickhouse_auth_error]. *)
Definition write_string (v : bytes) : bytes := write_uvarint (zlength v) ++ v.
Definition clickhouse_auth_error : bytes :=
  [x02] ++ to_le 4 516
  ++ write_string (lit "DB::Exception") ++ write_string (lit "Authentication failed.")
  ++ write_string [] ++ [x00].

(** [read_clickhouse_hello]: [chunks] are the reads of the client, none of
    them empty before its end. *)
Fixpoint read_hello_from (buffer : bytes) (chunks : list bytes) :
    result ClickhouseParseError bytes :=
  match chunks with
  | [] => Err IncompleteNativeHello
  | chunk :: chunks =>
      let buffer := buffer ++ chunk in
      match parse_native_initial_route buffer with
      | Ok _ => Ok buffer
      | Err IncompleteNativeHello =>
          if MAX_HANDSHAKE_BYTES <? zlength buffer then Err InvalidNativeHello
          else read_hello_from buffer chunks
      | Err e => Err e
      end
  end.
Definition read_clickhouse_hello (chunks : list bytes) : result ClickhouseParseError bytes :=
  read_hello_from [] chunks.

(** ** Variable-length integers *)

Lemma land_127 x : Z.land x 127 = x mod 128.
Proof. apply (Z.land_ones x 7). lia. Qed.

Lemma lor_128 x : 0 ≤ x < 128 → Z.lor x 128 = x + 128.
Proof. intros H. exact (lor_disjoint x 1 7 ltac:(lia) H). Qed.

Lemma land_128 b : (Z.land (b2z b) 128 =? 0) = (b2z b <? 128).
Proof. by destruct b. Qed.

Lemma land_u64_max x : 0 ≤ x ≤ u64_max → Z.land x u64_max = x.
Proof.
  intros H. change u64_max with (Z.ones 64). rewrite Z.land_ones by lia.
  apply Z.mod_small. unfold u64_max in H. lia.
Qed.

(** What is written is read back, up to the largest 64-bit value. *)
Lemma uvarint_loop_written n shift value v off more :
  (0 < n)%nat → shift = 7 * (10 - Z.of_nat n) → Z.of_nat n ≤ 10 → 0 ≤ value < 2 ^ shift →
  0 ≤ v → v * 2 ^ shift ≤ u64_max →
  uvarint_loop n shift value (mkNativeReader off (uvarint_bytes n v ++ more))
  = Ok (value + v * 2 ^ shift,
        mkNativeReader (off + zlength (uvarint_bytes n v)) more).
Proof.
  revert shift value v off. induction n as [|n IH]; intros shift value v off Hn Hs Hn10 Hval Hv Hmax;
    [lia|]. assert (Hshift : 0 ≤ shift ≤ 63) by lia.
  assert (Hpow : 0 < 2 ^ shift) by (apply Z.pow_pos_nonneg; lia).
  cbn [uvarint_loop uvarint_bytes]. rewrite land_127, Z.shiftr_div_pow2 by lia.
  change (2 ^ 7) with 128. pose proof (Z.mod_pos_bound v 128 ltac:(lia)) as Hmod.
  pose proof (Z.div_mod v 128 ltac:(lia)) as Hdiv.
  destruct (Z.eqb_spec (v / 128) 0) as [Hz|Hz]; cbn [app reader_rest reader_offset].
  - assert (Hv' : v mod 128 = v) by lia. rewrite Hv'.
    rewrite land_128, !b2z_z2b by lia. rewrite (proj2 (Z.ltb_lt v 128)) by lia.
    rewrite land_127, Hv'. rewrite land_u64_max by (rewrite Z.shiftl_mul_pow2 by lia; nia).
    rewrite lor_disjoint by lia. done.
  - rewrite lor_128 by lia. rewrite land_128, !b2z_z2b by lia.
    rewrite (proj2 (Z.ltb_ge _ 128)) by lia. rewrite land_127.
    replace ((v mod 128 + 128) mod 128) with (v mod 128)
      by (rewrite <-Z.add_mod_idemp_r by lia; change (128 mod 128) with 0;
          rewrite Z.add_0_r, Z.mod_mod; lia).
    assert (Hlow : 0 ≤ v mod 128 * 2 ^ shift ≤ u64_max) by nia.
    rewrite land_u64_max by (rewrite Z.shiftl_mul_pow2 by lia; done).
    rewrite lor_disjoint by lia.
    destruct n as [|n].
    { exfalso. assert (shift = 63) as -> by lia. unfold u64_max in Hmax.
      change (2 ^ 63) with 9223372036854775808 in *. lia. }
    assert (Hp7 : 2 ^ (shift + 7) = 2 ^ shift * 128) by (rewrite Z.pow_add_r by lia; done).
    rewrite IH; [|lia..| |nia|].
    + f_equal. f_equal; [rewrite Hp7; nia|]. f_equal. cbn [length]. lia.
    + rewrite Hp7. nia.
    + rewrite Hp7. nia.
Qed.

Lemma uvarint_written v off more :
  is_u64 v →
  read_uvarint (mkNativeReader off (write_uvarint v ++ more))
  = Ok (v, mkNativeReader (off + zlength (write_uvarint v)) more).
Proof.
  intros Hv. unfold read_uvarint, write_uvarint.
  rewrite uvarint_loop_written; [|lia|done|lia|done|apply Hv|unfold in_range in Hv; lia].
  by rewrite Z.pow_0_r, Z.mul_1_r, Z.add_0_l.
Qed.

(** ** What a parser consumes *)

(** [exact m used a]: before any bytes, [m] reads [used] as [a]; when only a
    proper part of [used] is there, it waits for more. *)
Definition exact {A} (m : Parser A) (used : bytes) (a : A) : Prop :=
  ∀ off, off + zlength used ≤ u64_max →
    (∀ more, m (mkNativeReader off (used ++ more))
             = Ok (a, mkNativeReader (off + zlength used) more))
    ∧ (∀ p q, q ≠ [] → used = p ++ q → m (mkNativeReader off p) = Err IncompleteNativeHello).

(** What a parser returns depends on what it consumed only. *)
Definition reads_good {A} (m : Parser A) : Prop :=
  ∀ r a r', r.(reader_offset) + zlength r.(reader_rest) ≤ u64_max → m r = Ok (a, r') →
    ∃ used, r.(reader_rest) = used ++ r'.(reader_rest)
            ∧ r'.(reader_offset) = r.(reader_offset) + zlength used ∧ exact m used a.

Lemma exact_ret {A} (a : A) : exact (mret a) [] a.
Proof.
  intros off Ho. split; [by intros more; rewrite Z.add_0_r|].
  intros p q Hq E. symmetry in E. by apply app_nil in E as [_ ->].
Qed.

Lemma exact_bind {A B} (m : Parser A) (f : A → Parser B) used used' a b :
  exact m used a → exact (f a) used' b → exact (m ≫= f) (used ++ used') b.
Proof.
  intros Hm Hf off Ho. rewrite length_app in Ho.
  destruct (Hm off ltac:(lia)) as [Hm1 Hm2]. destruct (Hf (off + zlength used) ltac:(lia)) as [Hf1 Hf2].
  unfold mbind, Parser_bind. split.
  - intros more. rewrite <-app_assoc, Hm1, Hf1, length_app. do 3 f_equal. lia.
  - intros p q Hq E. apply app_eq_app in E as (l & [[-> ->]|[-> ->]]).
    + destruct l as [|x l].
      * rewrite app_nil_r in *. cbn [app] in *. specialize (Hm1 []).
        rewrite app_nil_r in Hm1. rewrite Hm1. by eapply (Hf2 [] used').
      * by rewrite (Hm2 p (x :: l)).
    + rewrite Hm1. by eapply Hf2.
Qed.

Lemma good_ret {A} (a : A) : reads_good (mret a).
Proof.
  intros r x r' _ [= <- <-]. exists []. rewrite Z.add_0_r. split; [done|]. split; [done|].
  apply exact_ret.
Qed.

Lemma good_fail {A} e : reads_good (@parse_fail A e).
Proof. by intros r a r' _ ?. Qed.

Lemma good_bind {A B} (m : Parser A) (f : A → Parser B) :
  reads_good m → (∀ a, reads_good (f a)) → reads_good (m ≫= f).
Proof.
  intros Hm Hf r b r' Hr H. unfold mbind, Parser_bind in H.
  destruct (m r) as [[a r1]|e] eqn:E; [|done].
  destruct (Hm r a r1 Hr E) as (u & Hu & Ho & Hex).
  assert (Hr1 : r1.(reader_offset) + zlength r1.(reader_rest) ≤ u64_max).
  { rewrite Hu, length_app in Hr. lia. }
  destruct (Hf a r1 b r' Hr1 H) as (u' & Hu' & Ho' & Hex').
  exists (u ++ u'). split; [by rewrite <-app_assoc, <-Hu'|]. split; [rewrite length_app; lia|].
  by eapply exact_bind.
Qed.

Lemma good_uvarint_loop n shift value : reads_good (uvarint_loop n shift value).
Proof.
  revert shift value. induction n as [|n IH]; intros shift value r a r' Hr; cbn [uvarint_loop]; [done|].
  destruct r as [off [|b rest]]; [done|]. cbn [reader_rest reader_offset] in *.
  destruct (Z.land (b2z b) 128 =? 0) eqn:Hb.
  - intros [= <- <-]. exists [b]. split; [done|]. split; [done|]. intros off' Ho'. split.
    + intros more. cbn [uvarint_loop app reader_rest reader_offset]. by rewrite Hb.
    + intros p q Hq E. destruct p as [|x p]; [done|].
      injection E as _ E. symmetry in E. by apply app_nil in E as [_ ->].
  - intros H. cbn [length] in Hr.
    destruct (IH _ _ (mkNativeReader (off + 1) rest) _ _ ltac:(simpl; lia) H) as (u & Hu & Ho & Hex).
    simpl in Hu, Ho. exists (b :: u). split; [by rewrite Hu|]. split; [cbn [length]; lia|].
    intros off' Ho'. cbn [length] in Ho'. destruct (Hex (off' + 1) ltac:(lia)) as [H1 H2]. split.
    + intros more. cbn [uvarint_loop app reader_rest reader_offset]. rewrite Hb, H1.
      cbn [length]. do 3 f_equal. lia.
    + intros p q Hq E. destruct p as [|x p]; [done|]. injection E as <- E.
      cbn [uvarint_loop reader_rest reader_offset]. rewrite Hb. by eapply H2.
Qed.

Lemma good_uvarint : reads_good read_uvarint.
Proof. apply good_uvarint_loop. Qed.

Lemma uvarint_loop_nonneg n shift value r a r' :
  0 ≤ shift → 0 ≤ value → uvarint_loop n shift value r = Ok (a, r') → 0 ≤ a.
Proof.
  revert shift value r. induction n as [|n IH]; intros shift value r Hs Hv; cbn [uvarint_loop]; [done|].
  destruct (reader_rest r) as [|b rest]; [done|].
  assert (Hn : 0 ≤ Z.lor value (Z.land (Z.shiftl (Z.land (b2z b) 127) shift) u64_max)).
  { apply Z.lor_nonneg. split; [done|]. apply Z.land_nonneg. right. done. }
  destruct (_ =? 0); [by intros [= <- _]|]. apply IH; lia.
Qed.

Lemma exact_slice v : exact (read_slice (zlength v)) v v.
Proof.
  intros off Ho. unfold read_slice. cbn [reader_offset reader_rest].
  rewrite (proj2 (checked_add_Some _ _ _ _) (conj eq_refl Ho)). split.
  - intros more. rewrite length_app, (proj2 (Z.leb_le _ _)) by lia.
    by rewrite Nat2Z.id, take_app_length, drop_app_length.
  - intros p q Hq ->. rewrite length_app, (proj2 (Z.leb_gt _ _)); [done|].
    destruct q; [done|]. simpl. lia.
Qed.

Lemma good_slice len : 0 ≤ len → reads_good (read_slice len).
Proof.
  intros Hlen r a r' Hr. unfold read_slice.
  destruct (checked_add _ _ _) as [stop|] eqn:Ha; [|done]. apply checked_add_Some in Ha as [-> Ha].
  destruct (Z.leb_spec len (zlength r.(reader_rest))) as [Hl|]; [|done]. intros [= <- <-].
  set (v := take (Z.to_nat len) r.(reader_rest)).
  assert (Hv : zlength v = len) by (unfold v; rewrite length_take; lia).
  exists v. cbn [reader_rest reader_offset]. split; [symmetry; apply take_drop|]. split; [lia|].
  pose proof (exact_slice v) as Hx. rewrite Hv in Hx. exact Hx.
Qed.

Lemma good_string : reads_good read_string.
Proof.
  unfold read_string. intros r a r' Hr H. revert H. unfold mbind, Parser_bind at 1.
  destruct (read_uvarint r) as [[len r1]|] eqn:El; [|done]. intros H.
  assert (Hlen : 0 ≤ len) by (by eapply (uvarint_loop_nonneg 10 0 0) in El).
  destruct (good_uvarint r len r1 Hr El) as (u & Hu & Ho & Hex).
  assert (Hg : reads_good (value ← read_slice len;
                     if valid_utf8 value then mret value else parse_fail InvalidNativeUtf8)).
  { apply good_bind; [by apply good_slice|]. intros v. case_match; [apply good_ret|apply good_fail]. }
  assert (Hr1 : r1.(reader_offset) + zlength r1.(reader_rest) ≤ u64_max).
  { rewrite Hu, length_app in Hr. lia. }
  destruct (Hg r1 a r' Hr1 H) as (u' & Hu' & Ho' & Hex').
  exists (u ++ u'). split; [by rewrite <-app_assoc, <-Hu'|]. split; [rewrite length_app; lia|].
  exact (exact_bind read_uvarint _ u u' len a Hex Hex').
Qed.

Lemma good_hello_start : reads_good hello_start.
Proof.
  apply good_bind; [apply good_uvarint|]. intros t. case_match; [|apply good_fail].
  apply good_bind; [apply good_string|]. intros _.
  do 3 (apply good_bind; [apply good_uvarint|]; intros _). apply good_ret.
Qed.

Lemma good_hello_user : reads_good hello_user.
Proof.
  apply good_bind; [apply good_string|]. intros u. apply good_bind; [apply good_string|]. intros _.
  case_match; [apply good_fail|apply good_ret].
Qed.

(** The parts of a hello. *)
Lemma native_hello_parts v route rest :
  zlength v ≤ u64_max → native_hello (mkNativeReader 0 v) = Ok (route, rest) →
  ∃ us ud uu, v = us ++ ud ++ uu ++ rest.(reader_rest)
    ∧ exact hello_start us tt ∧ exact read_string ud route.(ch_database)
    ∧ exact hello_user uu route.(ch_username).
Proof.
  intros Hv. unfold native_hello, mbind, Parser_bind.
  destruct (hello_start _) as [[[] r1]|] eqn:E1; [|done].
  destruct (good_hello_start (mkNativeReader 0 v) _ _ Hv E1) as (us & Hus & Hos & Hxs). simpl in Hus, Hos.
  destruct (read_string r1) as [[db r2]|] eqn:E2; [|done].
  assert (Hr1 : r1.(reader_offset) + zlength r1.(reader_rest) ≤ u64_max)
    by (rewrite Hus, length_app in Hv; lia).
  destruct (good_string _ _ _ Hr1 E2) as (ud & Hud & Hod & Hxd).
  destruct (hello_user r2) as [[user r3]|] eqn:E3; [|done].
  assert (Hr2 : r2.(reader_offset) + zlength r2.(reader_rest) ≤ u64_max)
    by (rewrite Hud, length_app in Hr1; lia).
  destruct (good_hello_user _ _ _ Hr2 E3) as (uu & Huu & Hou & Hxu).
  intros [= <- <-]. exists us, ud, uu. cbn [ch_database ch_username].
  rewrite Hus, Hud, Huu. done.
Qed.

Lemma exact_hello us ud uu db user :
  exact hello_start us tt → exact read_string ud db → exact hello_user uu user →
  exact native_hello (us ++ ud ++ uu) (mkClickhouseRoute user db).
Proof.
  intros Hs Hd Hu. unfold native_hello. eapply (exact_bind _ _ _ _ tt); [done|].
  eapply exact_bind; [done|]. rewrite <-(app_nil_r uu). eapply exact_bind; [done|]. apply exact_ret.
Qed.

Lemma exact_written_string v :
  valid_utf8 v = true → zlength v ≤ u64_max → exact read_string (write_string v) v.
Proof.
  intros Hu Hl. unfold read_string, write_string. eapply exact_bind.
  - intros off Ho. split; [intros more; apply uvarint_written; unfold in_range; lia|].
    intros p q Hq E.
    pose proof (uvarint_written (zlength v) off [] ltac:(unfold in_range; lia)) as Hw.
    rewrite app_nil_r in Hw.
    destruct (good_uvarint (mkNativeReader off (write_uvarint (zlength v))) _ _ Ho Hw)
      as (used & E' & _ & Hex).
    cbn [reader_rest] in E'. rewrite app_nil_r in E'. rewrite E' in E, Ho.
    destruct (Hex off ltac:(lia)) as [_ H2]. by eapply H2.
  - rewrite <-(app_nil_r v) at 2. eapply exact_bind; [apply exact_slice|]. rewrite Hu.
    apply exact_ret.
Qed.

(** ** The rewritten hello *)

Lemma parse_exact used route more :
  exact native_hello used route → zlength used ≤ u64_max →
  parse_native_initial_route (used ++ more) = Ok route.
Proof.
  intros Hx Hl. destruct (Hx 0 ltac:(lia)) as [H1 _]. unfold parse_native_initial_route.
  by rewrite H1.
Qed.

Lemma parse_native_parts v route :
  zlength v ≤ u64_max → parse_native_initial_route v = Ok route →
  ∃ us ud uu rest, v = us ++ ud ++ uu ++ rest
    ∧ exact hello_start us tt ∧ exact read_string ud route.(ch_database)
    ∧ exact hello_user uu route.(ch_username).
Proof.
  intros Hl H. unfold parse_native_initial_route in H.
  apply bind_Ok in H as ([route' rest] & Hn & [= ->]).
  destruct (native_hello_parts v route rest Hl Hn) as (us & ud & uu & -> & Hs & Hd & Hu).
  by exists us, ud, uu, rest.(reader_rest).
Qed.

(** Rewriting replaces the database of a hello and nothing else. *)
Lemma rewritten_parts us ud uu rest old user database :
  exact hello_start us tt → exact read_string ud old → exact hello_user uu user →
  zlength (us ++ ud ++ uu ++ rest) ≤ u64_max → database ≠ [] →
  native_hello_with_database (us ++ ud ++ uu ++ rest) database
  = Ok (us ++ write_string database ++ uu ++ rest).
Proof.
  intros Hs Hd Hu Hl Hne. unfold native_hello_with_database.
  rewrite !length_app in Hl. replace (us ++ ud ++ uu ++ rest) with ((us ++ ud ++ uu) ++ rest)
    by (by rewrite <-!app_assoc).
  rewrite (parse_exact _ (mkClickhouseRoute user old));
    [|by apply exact_hello|rewrite !length_app; lia].
  rewrite bind_of_Ok, bool_decide_false by done. rewrite <-!app_assoc.
  destruct (Hs 0 ltac:(lia)) as [Hs1 _]. rewrite Hs1, bind_of_Ok.
  destruct (Hd (0 + zlength us) ltac:(lia)) as [Hd1 _]. rewrite Hd1, bind_of_Ok.
  cbn [reader_rest]. rewrite (length_app us).
  replace (length us + length (ud ++ uu ++ rest) - length (ud ++ uu ++ rest))%nat with (length us) by lia.
  rewrite take_app_length. unfold write_string. by rewrite <-!app_assoc.
Qed.

(** Two hellos that differ in their databases only.  Both begin with the same
    packet type and client identity, as [hello_start] reads them; then each has
    its database, as [read_string] reads it, the second the first one's bytes or
    the encoding [native_hello_with_database] writes; the user, the password and
    what follows are the same bytes. *)
Definition only_database_differs (hello initial named database : bytes) : Prop :=
  ∃ start old new rest,
    hello = start ++ old ++ rest ∧ initial = start ++ new ++ rest
    ∧ exact hello_start start tt
    ∧ exact read_string old named ∧ exact read_string new database
    ∧ (new = old ∨ new = write_string database).

(** A native hello that is rewritten for a database still names its user, names
    that database, and is otherwise unchanged: what precedes the database, the
    user, the password and what follows. *)
Theorem native_hello_rewritten v route database :
  parse_native_initial_route v = Ok route → database ≠ [] → valid_utf8 database = true →
  zlength v + zlength (write_string database) ≤ u64_max →
  ∃ out, native_hello_with_database v database = Ok out
    ∧ parse_native_initial_route out = Ok (mkClickhouseRoute route.(ch_username) database)
    ∧ ∃ start old rest, v = start ++ old ++ rest ∧ out = start ++ write_string database ++ rest
        ∧ exact hello_start start tt ∧ exact read_string old route.(ch_database).
Proof.
  intros Hp Hne Hu Hl.
  destruct (parse_native_parts v route ltac:(lia) Hp) as (us & ud & uu & rest & -> & Hs & Hd & Huser).
  exists (us ++ write_string database ++ uu ++ rest).
  split; [by eapply rewritten_parts; try done; lia|]. split; [|by exists us, ud, (uu ++ rest); auto 8].
  replace (us ++ write_string database ++ uu ++ rest)
    with ((us ++ write_string database ++ uu) ++ rest) by (by rewrite <-!app_assoc).
  rewrite !length_app in Hl. apply parse_exact.
  - apply exact_hello; [done| |done]. apply exact_written_string; [done|].
    unfold write_string in Hl. rewrite length_app in Hl. lia.
  - rewrite !length_app. lia.
Qed.

(** ** Reading the hello *)

Lemma hello_waits used route p q :
  exact native_hello used route → zlength used ≤ u64_max → q ≠ [] → used = p ++ q →
  parse_native_initial_route p = Err IncompleteNativeHello.
Proof.
  intros Hx Hl Hq E. destruct (Hx 0 ltac:(lia)) as [_ H2]. unfold parse_native_initial_route.
  by rewrite (H2 p q).
Qed.

(** How the client's bytes are cut into reads does not matter: the loop waits
    for the whole hello and keeps every byte it read. *)
Lemma read_hello_chunks used route rest chunks buffer :
  exact native_hello used route → zlength used ≤ MAX_HANDSHAKE_BYTES →
  Forall (λ c, c ≠ []) chunks → (length buffer < length used)%nat →
  buffer ++ concat chunks = used ++ rest →
  ∃ pipelined unread, read_hello_from buffer chunks = Ok (used ++ pipelined)
                      ∧ rest = pipelined ++ unread.
Proof.
  intros Hx Hl Hc. revert buffer. assert (Hmax : zlength used ≤ u64_max)
    by (unfold MAX_HANDSHAKE_BYTES, u64_max in *; lia).
  induction Hc as [|c chunks Hne _ IH]; intros buffer Hb E.
  { apply (f_equal length) in E. cbn [concat] in E. rewrite app_nil_r, length_app in E. lia. }
  cbn [concat read_hello_from] in *. rewrite app_assoc in E.
  destruct (decide (length (buffer ++ c) < length used)%nat) as [Hs|Hs].
  - assert (Hu : used = (buffer ++ c) ++ drop (length (buffer ++ c)) used).
    { rewrite <-(take_drop (length (buffer ++ c)) used) at 1. f_equal.
      rewrite <-(take_app_le used rest) by lia. rewrite <-E. apply take_app_length. }
    assert (Hq : drop (length (buffer ++ c)) used ≠ []).
    { intros Hd. apply (f_equal length) in Hd. rewrite length_drop in Hd. simpl in Hd. lia. }
    rewrite (hello_waits used route _ _ Hx Hmax Hq Hu).
    rewrite (proj2 (Z.ltb_ge _ _)) by lia. by apply IH.
  - assert (∃ extra, buffer ++ c = used ++ extra) as [extra Hu].
    { exists (drop (length used) (buffer ++ c)).
      rewrite <-(take_drop (length used) (buffer ++ c)) at 1. f_equal.
      rewrite <-(take_app_le (buffer ++ c) (concat chunks)) by lia. rewrite E. apply take_app_length. }
    exists extra, (concat chunks). rewrite Hu, (parse_exact _ route) by done. split; [done|].
    rewrite Hu, <-app_assoc in E. by apply app_inv_head in E.
Qed.

(** ** The native listener *)

Section listener.
Context {Sem : Type} `{Semaphore Sem}.

(** The [ListenerError]s of the two ClickHouse listeners. *)
Inductive ClickhouseListenerError :=
  | ChParse (e : ClickhouseParseError)
  | ChRouteNotFound
  | ChAmbiguousRoute
  | ChInvalidBackend.

(** The database a client asks for, when it names one. *)
Definition requested_database (database : bytes) : option string :=
  if bool_decide (database = []) then None else Some (text database).

(** [handle_clickhouse_client] up to the tunnel: the outcome, what was sent to
    the client, and the registry of sessions.  A route that is not used is
    dropped with its session. *)
Definition prepare_clickhouse (st0 st0' st1 st2 : InstanceState) (chunks : list bytes)
    (reg : Sessions Sem) :
    result ClickhouseListenerError (ResolvedRoute * bytes) * bytes * Sessions Sem :=
  match read_clickhouse_hello chunks with
  | Err e => (Err (ChParse e), [], reg)
  | Ok initial =>
      match parse_native_initial_route initial with
      | Err e => (Err (ChParse e), [], reg)
      | Ok route =>
          match resolve_clickhouse_at st0 st0' st1 st2 (text route.(ch_username))
                  (requested_database route.(ch_database)) reg with
          | (NotFound, reg) => (Err ChRouteNotFound, clickhouse_auth_error, reg)
          | (Ambiguous, reg) => (Err ChAmbiguousRoute, clickhouse_auth_error, reg)
          | (Found database target, reg) =>
              if bool_decide (route.(ch_database) = lit database)
              then (Ok (target, initial), [], reg)
              else
                match native_hello_with_database initial (lit database) with
                | Ok initial => (Ok (target, initial), [], reg)
                | Err e => (Err (ChParse e), [], drop_session (resolved_session target) reg)
                end
          end
      end
  end.

Lemma requested_is v : match requested_database v with
                       | Some db => v = lit db ∧ db ≠ EmptyString
                       | None => v = []
                       end.
Proof.
  unfold requested_database. case_bool_decide as Hv; [done|]. rewrite lit_text. split; [done|].
  intros Ht. apply (f_equal lit) in Ht. by rewrite lit_text in Ht.
Qed.

(** A client that asks for [asked] as [user] is given [target], with the
    database [database]: the store holds a running instance for this user and
    this database, the target is its endpoint and one new session of it, and the
    route was current at the last look.  The database is the one asked for; if
    none was, or a placeholder of a driver, it is the only one of the user. *)
Definition routed_to_owner (sha : string → string) (st0 st0' st2 : InstanceState)
    (user asked : bytes) (database : string) (target : ResolvedRoute)
    (reg reg' : Sessions Sem) : Prop :=
  ∃ st id m, (st = st0 ∨ st = st0') ∧ owner sha st (KDatabase Clickhouse (text user) database) id m
    ∧ target = mkResolvedRoute id (target_endpoint (route_target st id m)) (resolved_session target)
    ∧ one_more id true (resolved_session target) reg reg'
    ∧ route_is_current st2 id (target_revision (route_target st id m)) = true
    ∧ ∃ d, asked_for (has_database Clickhouse (text user) st) d database
        ∧ (d = requested_database asked
           ∨ d = None
             ∧ is_driver_placeholder_database Clickhouse (text user) (requested_database asked) = true).

Lemma resolver_clickhouse_owner sha st0 st0' st1 st2 user asked database r reg reg' :
  store_reachable sha st0 → store_reachable sha st0' →
  registry_exact reg → next_id reg < u64_max →
  resolve_clickhouse_at st0 st0' st1 st2 (text user) (requested_database asked) reg
  = (Found database r, reg') →
  routed_to_owner sha st0 st0' st2 user asked database r reg reg'.
Proof.
  intros Hr0 Hr0' Hex Hn. rewrite resolve_clickhouse_at_eq.
  destruct (retried _ _ _ _ _ _) as [d t| |] eqn:Ht; try done.
  destruct (open_route_at _ _ _ _) as [[p|] reg1] eqn:Ho; [|done].
  intros [= -> -> ->]. apply open_route_cases in Ho as (Hr & Hm & _ & Hc); [|done..].
  assert (∃ st d, (st = st0 ∨ st = st0') ∧ resolve_clickhouse st (text user) d = Found database t
            ∧ (d = requested_database asked
               ∨ d = None
                 ∧ is_driver_placeholder_database Clickhouse (text user) (requested_database asked) = true))
    as (st & d & Hst & Hres & Hd).
  { unfold retried in Ht. destruct (resolve_clickhouse st0 _ _) as [d' t'| |] eqn:E.
    - injection Ht as -> ->. exists st0, (requested_database asked). auto.
    - unfold should_retry_without_database in Ht.
      destruct (is_driver_placeholder_database _ _ _) eqn:Hp; [|done]. exists st0', None. auto.
    - done. }
  assert (Hreach : store_reachable sha st) by (by destruct Hst as [->| ->]).
  destruct (resolve_database_target_owner sha Clickhouse st (text user) d database t (route_target st)
    (store_reachable_inv sha st Hreach) Hres) as (id & m & How & -> & Hdb).
  pose proof How as (_ & Hid & _).
  assert (Ht' : target_instance_id (route_target st id m) = id) by done. rewrite Ht' in *.
  exists st, id, m. do 5 (split; [done|]). exists d. by split.
Qed.

(** The resolver keeps the sessions when it finds nothing. *)
Lemma resolver_clickhouse_denied st0 st0' st1 st2 user db t reg reg' :
  registry_exact reg → next_id reg < u64_max →
  resolve_clickhouse_at st0 st0' st1 st2 user db reg = (t, reg') →
  match t with Found _ r => one_more (resolved_instance_id r) true (resolved_session r) reg reg'
             | _ => live reg' = live reg end.
Proof.
  intros Hex Hn. rewrite resolve_clickhouse_at_eq.
  destruct (retried _ _ _ _ _ _) as [d x| |]; [|by intros [= <- <-]..].
  destruct (open_route_at _ _ _ _) as [[p|] reg1] eqn:Ho;
    apply open_route_cases in Ho; try done; [|by intros [= <- <-]].
  destruct Ho as (-> & Hm & _ & Hc). by intros [= <- <-].
Qed.

Lemma read_hello_bounded buffer chunks initial :
  Forall (λ c, zlength c ≤ 128) chunks → zlength buffer ≤ MAX_HANDSHAKE_BYTES →
  read_hello_from buffer chunks = Ok initial → zlength initial ≤ MAX_HANDSHAKE_BYTES + 128.
Proof.
  intros Hc. revert buffer. induction Hc as [|c chunks Hc _ IH]; intros buffer Hb; [done|].
  cbn [read_hello_from].
  destruct (parse_native_initial_route (buffer ++ c)) as [route|e] eqn:E.
  - intros [= <-]. rewrite length_app. lia.
  - destruct e; try done. destruct (Z.ltb_spec MAX_HANDSHAKE_BYTES (zlength (buffer ++ c))); [done|].
    by apply IH.
Qed.

Lemma uvarint_bytes_short n v : zlength (uvarint_bytes n v) ≤ Z.of_nat n.
Proof.
  revert v. induction n as [|n IH]; intros v; cbn [uvarint_bytes length]; [lia|].
  case_match; cbn [length]; [lia|]. specialize (IH (Z.shiftr v 7)). lia.
Qed.

(** What is replayed for a hello: the database [lit database] in its place. *)
Lemma replayed_hello hello route database initial :
  parse_native_initial_route hello = Ok route → zlength hello ≤ MAX_HANDSHAKE_BYTES + 128 →
  valid_utf8 (lit database) = true → zlength (lit database) ≤ 2 ^ 32 →
  (route.(ch_database) = lit database ∧ initial = hello
   ∨ native_hello_with_database hello (lit database) = Ok initial) →
  parse_native_initial_route initial = Ok (mkClickhouseRoute route.(ch_username) (lit database))
  ∧ only_database_differs hello initial route.(ch_database) (lit database).
Proof.
  intros Hp Hl Hu Hd [[<- ->]|Hw].
  - split; [by destruct route|].
    destruct (parse_native_parts hello route) as (us & ud & uu & rest & -> & Hs & Hb & _);
      [unfold MAX_HANDSHAKE_BYTES, u64_max in *; lia|done|].
    exists us, ud, ud, (uu ++ rest). by auto 8.
  - assert (Hne : lit database ≠ []).
    { intros E. unfold native_hello_with_database in Hw. rewrite Hp, bind_of_Ok in Hw.
      by rewrite bool_decide_true in Hw. }
    pose proof (uvarint_bytes_short 10 (zlength (lit database))) as Hs.
    destruct (native_hello_rewritten hello route (lit database) Hp Hne Hu) as (out & Ho & Hr & Hx).
    { unfold write_string, write_uvarint. rewrite length_app. unfold MAX_HANDSHAKE_BYTES, u64_max in *. lia. }
    rewrite Ho in Hw. injection Hw as ->. split; [done|].
    destruct Hx as (s & o & x & -> & -> & Hstart & Hold).
    exists s, o, (write_string (lit database)), x. repeat (split; [done|]).
    split; [|by right]. apply exact_written_string; [done|unfold u64_max; lia].
Qed.

(** C32. A native ClickHouse client is tunnelled only to the instance that owns the
    user and the database of its hello ([routed_to_owner]).  The hello the
    backend gets parses to that user and that database, and its packet type,
    client identity, user, password and what follows are the client's bytes: only
    the field [read_string] reads as the database is replaced, by the encoding of
    the database routed to.  Every other client leaves no session behind,
    and is told nothing but that authentication failed. *)
Theorem clickhouse_tunnel_to_owner sha st0 st0' st1 st2 chunks reg r sent reg' :
  store_reachable sha st0 → store_reachable sha st0' →
  registry_exact reg → next_id reg < u64_max →
  (∀ st id m, st = st0 ∨ st = st0' → instances st !! id = Some m →
     valid_utf8 (lit (name (identity m))) = true ∧ zlength (lit (name (identity m))) ≤ 2 ^ 32) →
  Forall (λ c, zlength c ≤ 128) chunks →
  prepare_clickhouse st0 st0' st1 st2 chunks reg = (r, sent, reg') →
  match r with
  | Ok (target, initial) =>
      ∃ hello route database,
        sent = [] ∧ read_clickhouse_hello chunks = Ok hello
        ∧ parse_native_initial_route hello = Ok route
        ∧ routed_to_owner sha st0 st0' st2 route.(ch_username) route.(ch_database) database
            target reg reg'
        ∧ parse_native_initial_route initial
          = Ok (mkClickhouseRoute route.(ch_username) (lit database))
        ∧ only_database_differs hello initial route.(ch_database) (lit database)
  | Err _ => live reg' = live reg ∧ (sent = [] ∨ sent = clickhouse_auth_error)
  end.
Proof.
  intros Hr0 Hr0' Hex Hn Hnames Hc. unfold prepare_clickhouse.
  destruct (read_clickhouse_hello chunks) as [hello|e] eqn:Hread; [|intros [= <- <- <-]; by auto].
  pose proof (read_hello_bounded [] chunks hello Hc ltac:(done) Hread) as Hlen.
  destruct (parse_native_initial_route hello) as [route|e] eqn:Hparse; [|intros [= <- <- <-]; by auto].
  destruct (resolve_clickhouse_at _ _ _ _ _ _ _) as [res reg1] eqn:Hres.
  pose proof (resolver_clickhouse_denied _ _ _ _ _ _ _ _ _ Hex Hn Hres) as Hkeep.
  destruct res as [database target| |]; [|intros [= <- <- <-]; by auto..].
  pose proof (resolver_clickhouse_owner sha _ _ _ _ _ _ _ _ _ _ Hr0 Hr0' Hex Hn Hres) as Hown.
  assert (Hname : valid_utf8 (lit database) = true ∧ zlength (lit database) ≤ 2 ^ 32).
  { destruct Hown as (st & id & m & Hst & (Hm & _ & Hpub & _) & _).
    destruct Hpub as (_ & _ & _ & <-). by eapply Hnames. }
  destruct Hname as [Hutf Hsize].
  pose proof (λ i, replayed_hello hello route database i Hparse Hlen Hutf Hsize) as Hrep.
  case_bool_decide as Hsame.
  - intros [= <- <- <-]. exists hello, route, database. destruct (Hrep hello (or_introl (conj Hsame eq_refl))). auto 8.
  - destruct (native_hello_with_database hello _) as [initial|e] eqn:Hw; intros [= <- <- <-].
    + exists hello, route, database. destruct (Hrep initial (or_intror eq_refl)). auto 8.
    + split; [by eapply drop_one_more|by left].
Qed.
End listener.

(** ** Examples *)

Module ClickhouseDemo.
Import StoreDemo.

Definition demo_clickhouse : InstanceMetadata :=
  demo_a <| instance_id := "c1" |> <| protocol := Clickhouse |>
    <| identity := {| name := "analytics"; username := "app" |} |>.
Definition demo_clickhouse_store : InstanceState :=
  upsert demo_sha demo_clickhouse instance_state_default.

(** A driver that names no database. *)
Definition demo_native_hello (database : bytes) : bytes :=
  write_uvarint 0 ++ write_string (lit "ClickHouse JDBC")
  ++ write_uvarint 25 ++ write_uvarint 6 ++ write_uvarint 54468
  ++ write_string database ++ write_string (lit "app") ++ write_string (lit "secret").
Definition demo_hello_chunks : list bytes :=
  [take 20 (demo_native_hello []); drop 20 (demo_native_hello []) ++ lit "tail"].

Lemma demo_clickhouse_reachable : store_reachable demo_sha demo_clickhouse_store.
Proof.
  exists [Upsert demo_clickhouse]. unfold run_all, demo_clickhouse_store. cbn [foldl].
  rewrite run_upsert. reflexivity.
Qed.

Lemma demo_clickhouse_instances :
  instances demo_clickhouse_store = <["c1" := demo_clickhouse]> ∅.
Proof. vm_compute. reflexivity. Qed.

Lemma demo_clickhouse_text :
  valid_utf8 (lit (name (identity demo_clickhouse))) = true
  ∧ zlength (lit (name (identity demo_clickhouse))) ≤ 2 ^ 32.
Proof. split; [vm_compute; reflexivity|vm_compute; discriminate]. Qed.

Lemma demo_clickhouse_names st id m :
  st = demo_clickhouse_store ∨ st = demo_clickhouse_store → instances st !! id = Some m →
  valid_utf8 (lit (name (identity m))) = true ∧ zlength (lit (name (identity m))) ≤ 2 ^ 32.
Proof.
  intros Hst. assert (Hi : instances st = <["c1" := demo_clickhouse]> ∅)
    by (rewrite <-demo_clickhouse_instances; destruct Hst as [-> | ->]; reflexivity).
  rewrite Hi, insert_empty. intros [_ <-]%lookup_singleton_Some. exact demo_clickhouse_text.
Qed.

End ClickhouseDemo.
Import ClickhouseDemo StoreDemo.

Lemma native_hello_rewritten_witness :
  ∃ out, native_hello_with_database (demo_native_hello [] ++ lit "tail") (lit "analytics") = Ok out
    ∧ parse_native_initial_route out = Ok (mkClickhouseRoute (lit "app") (lit "analytics"))
    ∧ ∃ start old rest, demo_native_hello [] ++ lit "tail" = start ++ old ++ rest
        ∧ out = start ++ write_string (lit "analytics") ++ rest
        ∧ exact hello_start start tt ∧ exact read_string old [].
Proof.
  apply (native_hello_rewritten (demo_native_hello [] ++ lit "tail") (mkClickhouseRoute (lit "app") [])).
  - vm_compute. reflexivity.
  - done.
  - vm_compute. reflexivity.
  - vm_compute. discriminate.
Defined.

Lemma clickhouse_tunnel_to_owner_witness :
  ∃ target initial reg', prepare_clickhouse demo_clickhouse_store demo_clickhouse_store
      demo_clickhouse_store demo_clickhouse_store demo_hello_chunks (sessions_new 100)
    = (Ok (target, initial), [], reg')
    ∧ initial = demo_native_hello (lit "analytics") ++ lit "tail"
    ∧ ∃ route database,
        routed_to_owner demo_sha demo_clickhouse_store demo_clickhouse_store demo_clickhouse_store
          route.(ch_username) route.(ch_database) database target (sessions_new 100 : Sessions Z) reg'.
Proof.
  destruct (prepare_clickhouse demo_clickhouse_store demo_clickhouse_store
      demo_clickhouse_store demo_clickhouse_store demo_hello_chunks (sessions_new 100 : Sessions Z))
    as [[r sent] reg'] eqn:E.
  pose proof (clickhouse_tunnel_to_owner demo_sha demo_clickhouse_store demo_clickhouse_store
      demo_clickhouse_store demo_clickhouse_store demo_hello_chunks (sessions_new 100 : Sessions Z)
      r sent reg' demo_clickhouse_reachable demo_clickhouse_reachable
      (exact_new 100) ltac:(done) demo_clickhouse_names
      ltac:(by repeat constructor) E) as Ht.
  vm_compute in E. injection E as <- <- <-. do 3 eexists. split; [reflexivity|].
  split; [vm_compute; reflexivity|].
  destruct Ht as (hello & route & database & _ & _ & _ & Ho & _). by exists route, database.
Defined.
