(* ===== verification/ClickhouseHttp.v ===== *)
(** * ClickHouse over HTTP: one request, one tenant

    The HTTP half of [gateway/protocols/clickhouse.rs], [read_http_headers] of
    [gateway/listeners/listener_io/handshake.rs], [handle_clickhouse_http] of
    [gateway/listeners/clickhouse_listener.rs] and [clickhouse_http_socket_path]
    of [utils/backend.rs].

    The crates httparse, form_urlencoded and base64 are parameters of the
    section [http].  What the theorems use of them is in the class
    [HttpLibraries]. *)
From Stdlib Require Import Strings.Byte.
From S2P Require Import Prelude Bytes Engines RouteStore Sessions Resolver RespProto RespGateway.
From S2P Require Import ClickhouseGateway.

Local Open Scope Z_scope.

(** ** The libraries *)

(** What [httparse::Request::parse] leaves behind when it reports [Complete]:
    the bytes it consumed, the method, path and minor version when it saw them,
    and the header lines. *)
Record ParsedRequest := mkParsedRequest {
  parsed_length : nat;
  parsed_method : option bytes;
  parsed_path : option bytes;
  parsed_version : option Z;
  parsed_headers : list (bytes * bytes);
}.

(** [str::split_once] at a single byte. *)
Definition split_once (c : byte) (v : bytes) : option (bytes * bytes) :=
  i ← position (λ b, bool_decide (b = c)) v; Some (take i v, drop (S i) v).

Definition is_amp (b : byte) : bool := bool_decide (b = "&"%byte).

(** The name and the value of one piece of a query. *)
Definition pair_parts (piece : bytes) : bytes * bytes :=
  match split_once "="%byte piece with Some (n, v) => (n, v) | None => (piece, []) end.

Definition is_line_break (b : byte) : bool := bool_decide (b = x0d) || bool_decide (b = x0a).
Definition no_breaks (v : bytes) : Prop := Forall (λ b, is_line_break b = false) v.

(** [url_parse] is [form_urlencoded::parse], [url_pair] a [Serializer] that was
    given one pair.  The laws are the documented ones: a query is split at [&],
    each piece that is not empty at its first [=], and both sides are decoded;
    an encoded pair holds two encoded words, which decode to the originals and
    are free of separators and line breaks; and no part of a request that
    httparse returns has a line break in it. *)
Class HttpLibraries := {
  httparse : bytes → option ParsedRequest;
  url_parse : bytes → list (bytes * bytes);
  url_pair : bytes → bytes → bytes;
  base64_decode : bytes → option bytes;
  url_decode : bytes → bytes;
  url_encode : bytes → bytes;
  httparse_lines v r :
    httparse v = Some r →
    (∀ m, parsed_method r = Some m → no_breaks m) ∧
    (∀ p, parsed_path r = Some p → no_breaks p) ∧
    Forall (λ h, no_breaks h.1 ∧ no_breaks h.2) (parsed_headers r);
  url_parse_pieces q :
    url_parse q =
      (λ piece, (url_decode (pair_parts piece).1, url_decode (pair_parts piece).2))
      <$> filter (λ piece, piece ≠ []) (split_on is_amp q);
  url_decode_nil : url_decode [] = [];
  url_pair_parts k v : url_pair k v = url_encode k ++ ["="%byte] ++ url_encode v;
  url_decode_encode v : valid_utf8 v = true → url_decode (url_encode v) = v;
  url_encode_plain v :
    Forall (λ b, b ≠ "&"%byte ∧ b ≠ "="%byte ∧ b ≠ x0d ∧ b ≠ x0a) (url_encode v);
}.

(** ** Control characters *)

(** [str.chars().any(char::is_control)]: the control characters are those below
    U+0020, and U+007F to U+009F. *)
Fixpoint has_control (v : bytes) : bool :=
  match v with
  | [] => false
  | b :: rest =>
      (b2z b <? 32) || (b2z b =? 127)
      || ((b2z b =? 194) && match rest with c :: _ => between 128 159 c | [] => false end)
      || has_control rest
  end.

(** ** The head of a request *)

Definition HTTP_HEADER_TERMINATOR : bytes := [x0d; x0a; x0d; x0a].

(** [windows(4).position(|window| window == HTTP_HEADER_TERMINATOR)]. *)
Fixpoint find_terminator (v : bytes) : option nat :=
  match v with
  | [] => None
  | _ :: rest =>
      if begins_with HTTP_HEADER_TERMINATOR v then Some 0%nat else S <$> find_terminator rest
  end.

Definition find_header_end (v : bytes) : option nat :=
  (λ i, i + length HTTP_HEADER_TERMINATOR)%nat <$> find_terminator v.

(** The loop of [reject_bare_line_breaks]: [prev] is the byte before [head]. *)
Fixpoint bare_line_break (prev : option byte) (head : bytes) : bool :=
  match head with
  | [] => false
  | b :: rest =>
      (if bool_decide (b = x0a) then negb (bool_decide (prev = Some x0d))
       else if bool_decide (b = x0d)
       then match rest with next :: _ => negb (bool_decide (next = x0a)) | [] => false end
       else false)
      || bare_line_break (Some b) rest
  end.
Definition reject_bare_line_breaks (head : bytes) : result ClickhouseParseError unit :=
  if bare_line_break None head then Err InvalidHttpRequest else Ok tt.

Record HttpHead := mkHttpHead {
  http_method : bytes;
  http_target : bytes;
  minor_version : Z;
  http_headers : list (bytes * bytes);
  body_start : nat;
}.

(** [read_http_headers]: [chunks] are the reads of the client, none of them
    empty before its end; only what a terminator could begin in is scanned
    again. *)
Fixpoint read_http_from (buffer : bytes) (scan_from : nat) (chunks : list bytes) :
    result ClickhouseParseError bytes :=
  match chunks with
  | [] => Err IncompleteHttpRequest
  | chunk :: chunks =>
      let previous_len := length buffer in
      let buffer := buffer ++ chunk in
      let scan_from := (scan_from `min` (previous_len - 3))%nat in
      match find_terminator (drop scan_from buffer) with
      | Some _ => Ok buffer
      | None =>
          if MAX_HANDSHAKE_BYTES <? zlength buffer then Err InvalidHttpRequest
          else read_http_from buffer (length buffer - 3) chunks
      end
  end.
Definition read_http_headers (chunks : list bytes) : result ClickhouseParseError bytes :=
  read_http_from [] 0 chunks.

Section http.
Context `{HttpLibraries}.

(** The header values as text, in order. *)
Fixpoint text_headers (headers : list (bytes * bytes)) :
    result ClickhouseParseError (list (bytes * bytes)) :=
  match headers with
  | [] => Ok []
  | (name, value) :: headers =>
      if valid_utf8 value then headers ← text_headers headers; Ok ((name, value) :: headers)
      else Err InvalidHttpRequest
  end.

Definition parse_http_head (v : bytes) : result ClickhouseParseError HttpHead :=
  let header_end := find_header_end v in
  reject_bare_line_breaks (take (default (length v) header_end) v) ≫= λ _,
  header_end ← ok_or header_end IncompleteHttpRequest;
  if negb (valid_utf8 (take header_end v)) then Err InvalidHttpRequest
  else
    match httparse v with
    | Some r =>
        if negb (parsed_length r =? header_end)%nat then Err InvalidHttpRequest
        else
          match parsed_method r, parsed_path r, parsed_version r with
          | Some method, Some target, Some version =>
              if bool_decide (method = []) || bool_decide (target = [])
              then Err InvalidHttpRequest
              else
                headers ← text_headers (parsed_headers r);
                Ok (mkHttpHead method target version headers header_end)
          | _, _, _ => Err InvalidHttpRequest
          end
    | None => Err InvalidHttpRequest
    end.

(** ** The identity a request names *)

Definition merge_route_field (current : option bytes) (value : bytes) :
    result ClickhouseParseError (option bytes) :=
  match current with
  | Some c => if bool_decide (c = value) then Ok (Some value) else Err InvalidHttpRequest
  | None => Ok (Some value)
  end.

Definition basic_auth_username (value : bytes) : result ClickhouseParseError bytes :=
  decoded ← ok_or (base64_decode (trim value)) InvalidHttpBasicAuth;
  if negb (valid_utf8 decoded) then Err InvalidHttpBasicAuth
  else
    '(username, _) ← ok_or (split_once ":"%byte decoded) InvalidHttpBasicAuth;
    Ok username.

Definition BASIC_AUTH_SCHEME_PREFIX : bytes := lit "basic ".

Definition basic_authorization_payload (value : bytes) :
    result ClickhouseParseError (option bytes) :=
  if negb (forallb (λ b, b2z b <? 128) value) then Err InvalidHttpBasicAuth
  else
    let prefix_len := length BASIC_AUTH_SCHEME_PREFIX in
    match get_range 0 prefix_len value with
    | None => Ok None
    | Some prefix =>
        if negb (eq_ignore_ascii_case prefix BASIC_AUTH_SCHEME_PREFIX) then Ok None
        else Ok (get_from prefix_len value)
    end.

(** The fields found so far: the user name and the database. *)
Abbreviation Fields := (option bytes * option bytes)%type.

Fixpoint merge_query (pairs : list (bytes * bytes)) (f : Fields) :
    result ClickhouseParseError Fields :=
  match pairs with
  | [] => Ok f
  | (key, value) :: pairs =>
      if eq_ignore_ascii_case key (lit "user") then
        u ← merge_route_field f.1 value; merge_query pairs (u, f.2)
      else if eq_ignore_ascii_case key (lit "database") then
        d ← merge_route_field f.2 value; merge_query pairs (f.1, d)
      else merge_query pairs f
  end.

Fixpoint merge_headers (headers : list (bytes * bytes)) (f : Fields) :
    result ClickhouseParseError Fields :=
  match headers with
  | [] => Ok f
  | (name, value) :: headers =>
      let value := trim value in
      if eq_ignore_ascii_case name (lit "x-clickhouse-user") then
        u ← merge_route_field f.1 value; merge_headers headers (u, f.2)
      else if eq_ignore_ascii_case name (lit "x-clickhouse-database") then
        d ← merge_route_field f.2 value; merge_headers headers (f.1, d)
      else if eq_ignore_ascii_case name (lit "authorization") then
        payload ← basic_authorization_payload value;
        encoded ← ok_or payload InvalidHttpBasicAuth;
        username ← basic_auth_username encoded;
        u ← merge_route_field f.1 username; merge_headers headers (u, f.2)
      else merge_headers headers f
  end.

Definition parse_http_initial_route (v : bytes) : result ClickhouseParseError ClickhouseRoute :=
  head ← parse_http_head v;
  f ← match split_once "?"%byte head.(http_target) with
      | Some (_, query) => merge_query (url_parse query) (None, None)
      | None => Ok (None, None)
      end;
  f ← merge_headers head.(http_headers) f;
  username ← ok_or f.1 MissingHttpUsername;
  if bool_decide (username = []) then Err MissingHttpUsername
  else Ok (mkClickhouseRoute username (default [] f.2)).

(** ** The request for the backend *)

Definition push_database_header (database : bytes) : bytes :=
  lit "X-ClickHouse-Database: " ++ database ++ CRLF.

(** [names_database name]: the first pair of the piece's name is [database]. *)
Definition names_database (piece : bytes) : bool :=
  let name := match split_once "="%byte piece with Some (name, _) => name | None => piece end in
  match url_parse name with
  | (name, _) :: _ => eq_ignore_ascii_case name (lit "database")
  | [] => false
  end.

(** [pairs.join("&")]. *)
Fixpoint join_amp (pairs : list bytes) : bytes :=
  match pairs with
  | [] => []
  | [p] => p
  | p :: pairs => p ++ ["&"%byte] ++ join_amp pairs
  end.

Definition target_with_database (target database : bytes) : bytes :=
  let '(path, query) := default (target, []) (split_once "?"%byte target) in
  let pairs := filter (λ piece, piece ≠ [] ∧ names_database piece = false) (split_on is_amp query) in
  path ++ ["?"%byte] ++ join_amp (pairs ++ [url_pair (lit "database") database]).

(** The loop over the headers: the lines, and whether the database was seen. *)
Fixpoint gateway_lines (headers : list (bytes * bytes)) (database : bytes) (seen : bool) :
    bytes * bool :=
  match headers with
  | [] => ([], seen)
  | (name, value) :: headers =>
      if eq_ignore_ascii_case name (lit "x-clickhouse-database") then
        let '(lines, seen) := gateway_lines headers database true in
        (push_database_header database ++ lines, seen)
      else if eq_ignore_ascii_case name (lit "connection")
              || eq_ignore_ascii_case name (lit "proxy-connection")
      then gateway_lines headers database seen
      else
        let '(lines, seen) := gateway_lines headers database seen in
        (name ++ lit ": " ++ value ++ CRLF ++ lines, seen)
  end.

Definition http_request_for_gateway (v database : bytes) : result ClickhouseParseError bytes :=
  parse_http_initial_route v ≫= λ _,
  if bool_decide (database = []) || has_control database then Err InvalidHttpRequest
  else
    head ← parse_http_head v;
    let '(lines, seen) := gateway_lines head.(http_headers) database false in
    Ok (head.(http_method) ++ lit " " ++ target_with_database head.(http_target) database
        ++ lit " HTTP/1." ++ usize_to_string head.(minor_version) ++ CRLF
        ++ lines ++ (if seen then [] else push_database_header database)
        ++ lit "Connection: close" ++ CRLF ++ CRLF
        ++ drop head.(body_start) v).
End http.

(** ** Reading the head *)

Lemma begins_with_app p rest : begins_with p (p ++ rest) = true.
Proof. unfold begins_with. rewrite take_app_length. by apply bool_decide_true. Qed.

Lemma begins_with_spec p v : begins_with p v = true → ∃ rest, v = p ++ rest.
Proof.
  unfold begins_with. intros Hp%bool_decide_eq_true. exists (drop (length p) v).
  rewrite <-Hp at 1. symmetry. apply take_drop.
Qed.

Lemma find_terminator_found p rest : is_Some (find_terminator (p ++ HTTP_HEADER_TERMINATOR ++ rest)).
Proof.
  induction p as [|b p IH]; [by exists 0%nat|].
  cbn [app find_terminator]. case_match; [by eexists|].
  destruct IH as [i ->]. by exists (S i).
Qed.

Lemma find_terminator_Some v i :
  find_terminator v = Some i →
  ∃ rest, v = take i v ++ HTTP_HEADER_TERMINATOR ++ rest ∧ length (take i v) = i.
Proof.
  revert i. induction v as [|b v IH]; intros i; [done|]. cbn [find_terminator].
  destruct (begins_with HTTP_HEADER_TERMINATOR (b :: v)) eqn:Hs.
  - intros [= <-]. apply begins_with_spec in Hs as [rest E]. by exists rest.
  - destruct (find_terminator v) as [j|]; [|done]. intros [= <-].
    destruct (IH j eq_refl) as (rest & E & Hl). exists rest. split; [cbn [take app]; by rewrite <-E|cbn; by f_equal].
Qed.

(** A terminator that was not in [a] begins in the last three bytes of [a] or
    after them. *)
Lemma find_terminator_tail a c :
  find_terminator a = None →
  is_Some (find_terminator (drop (length a - 3) (a ++ c))) ↔ is_Some (find_terminator (a ++ c)).
Proof.
  intros Hn. split; intros [i Hi].
  - apply find_terminator_Some in Hi as (rest & E & _).
    rewrite <-(take_drop (length a - 3) (a ++ c)), E, app_assoc. apply find_terminator_found.
  - apply find_terminator_Some in Hi as (rest & E & Hl).
    destruct (decide (i + 4 <= length a)%nat) as [Hle|Hgt].
    + exfalso. apply (f_equal (take (length a))) in E.
      rewrite take_app_length, app_assoc, take_app_ge in E by (rewrite length_app, Hl; simpl; lia).
      rewrite E, <-app_assoc in Hn. pose proof (find_terminator_found (take i (a ++ c))
        (take (length a - length (take i (a ++ c) ++ HTTP_HEADER_TERMINATOR)) rest)) as [j Hj].
      congruence.
    + rewrite E, drop_app_le by lia. apply find_terminator_found.
Qed.

(** The reference: the whole buffer is searched after every read. *)
Fixpoint read_head_from (buffer : bytes) (chunks : list bytes) : result ClickhouseParseError bytes :=
  match chunks with
  | [] => Err IncompleteHttpRequest
  | chunk :: chunks =>
      let buffer := buffer ++ chunk in
      match find_header_end buffer with
      | Some _ => Ok buffer
      | None =>
          if MAX_HANDSHAKE_BYTES <? zlength buffer then Err InvalidHttpRequest
          else read_head_from buffer chunks
      end
  end.

Lemma read_http_from_exact chunks buffer :
  find_terminator buffer = None →
  read_http_from buffer (length buffer - 3) chunks = read_head_from buffer chunks.
Proof.
  revert buffer. induction chunks as [|c chunks IH]; intros buffer Hn; [done|].
  cbn [read_http_from read_head_from]. rewrite Nat.min_id. unfold find_header_end.
  pose proof (find_terminator_tail buffer c Hn) as [H1 H2].
  destruct (find_terminator (buffer ++ c)) as [i|] eqn:E.
  - destruct H2 as [j ->]; [done|]. done.
  - destruct (find_terminator (drop _ (buffer ++ c))) as [j|].
    { by destruct H1. }
    cbn. case_match; [done|]. by apply IH.
Qed.

(** The incremental search for the end of the head finds it exactly when
    searching everything read so far would: wherever the reads cut the
    terminator. *)
Theorem read_http_headers_exact chunks : read_http_headers chunks = read_head_from [] chunks.
Proof. by apply read_http_from_exact. Qed.

(** ** The framing of the head *)

Lemma no_bare_lookup prev head i b :
  bare_line_break prev head = false → head !! i = Some b →
  (b = x0a → match i with O => prev | S j => head !! j end = Some x0d) ∧
  (b = x0d → ∀ c, head !! S i = Some c → c = x0a).
Proof.
  revert prev i. induction head as [|x head IH]; intros prev i; [done|]. cbn [bare_line_break].
  intros [Hx Hr]%orb_false_iff. destruct i as [|i]; cbn.
  - intros [= ->]. split.
    + intros ->. by destruct (bool_decide_reflect (prev = Some x0d)).
    + intros ->. destruct head as [|n head]; [done|]. intros c [= <-]. cbn in Hx.
      by destruct (bool_decide_reflect (n = x0a)).
  - intros Hi. destruct (IH (Some x) i Hr Hi) as [H1 H2]. split; [|done].
    intros Hb. specialize (H1 Hb). by destruct i.
Qed.

Section http_facts.
Context `{HttpLibraries}.

Lemma parse_http_head_Ok v head :
  parse_http_head v = Ok head →
  find_header_end v = Some head.(body_start) ∧
  bare_line_break None (take head.(body_start) v) = false ∧
  ∃ r, httparse v = Some r ∧ parsed_method r = Some head.(http_method)
    ∧ parsed_path r = Some head.(http_target) ∧ text_headers (parsed_headers r) = Ok head.(http_headers).
Proof.
  unfold parse_http_head, reject_bare_line_breaks.
  destruct (bare_line_break _ _) eqn:Hb; [done|]. cbn [mbind result_bind].
  destruct (find_header_end v) as [stop|]; [|done]. cbn [ok_or default from_option id] in *. rewrite bind_of_Ok.
  destruct (negb (valid_utf8 (take stop v))); [done|]. destruct (httparse v) as [r|] eqn:Hr; [|done].
  destruct (negb _); [done|].
  destruct (parsed_method r) as [m|] eqn:Hm; [|done].
  destruct (parsed_path r) as [t|] eqn:Ht; [|done].
  destruct (parsed_version r) as [n|]; [|done]. destruct (_ || _); [done|].
  intros (headers & Hh & [= <-])%bind_Ok. cbn. eauto 8.
Qed.

(** The head the gateway accepts is framed by CRLF alone: it ends in an empty
    line, every LF follows a CR and every CR precedes an LF. *)
Theorem http_head_strict v head :
  parse_http_head v = Ok head →
  let h := take head.(body_start) v in
  (∃ start, h = start ++ HTTP_HEADER_TERMINATOR) ∧
  ∀ i, (h !! i = Some x0a → ∃ j, i = S j ∧ h !! j = Some x0d) ∧
       (h !! i = Some x0d → h !! S i = Some x0a).
Proof.
  intros (He & Hb & _)%parse_http_head_Ok. cbn zeta.
  assert (∃ start, take head.(body_start) v = start ++ HTTP_HEADER_TERMINATOR) as [start Hs].
  { unfold find_header_end in He. destruct (find_terminator v) as [i|] eqn:Hi; [|done].
    injection He as <-. apply find_terminator_Some in Hi as (rest & E & Hl).
    exists (take i v). rewrite E at 1. rewrite app_assoc. apply take_app_length'.
    rewrite length_app, Hl. done. }
  split; [by exists start|]. intros i. split; intros Hi.
  - destruct (no_bare_lookup _ _ _ _ Hb Hi) as [H1 _]. specialize (H1 eq_refl).
    destruct i as [|j]; [done|by exists j].
  - destruct (no_bare_lookup _ _ _ _ Hb Hi) as [_ H2].
    destruct (take head.(body_start) v !! S i) as [c|] eqn:Hc; [by rewrite (H2 eq_refl c)|].
    exfalso. apply lookup_ge_None in Hc. pose proof (lookup_lt_Some _ _ _ Hi) as Hl.
    rewrite Hs, length_app in Hc, Hl. cbn in Hc, Hl.
    assert (i = length start + 3)%nat as -> by lia.
    rewrite Hs, lookup_app_r in Hi by lia.
    by replace (length start + 3 - length start)%nat with 3%nat in Hi by lia.
Qed.

(** ** Agreement *)

(** Each place of a request that can name its user or its database. *)
Inductive RouteClaim :=
  | ClaimUser (v : bytes)
  | ClaimDatabase (v : bytes)
  | ClaimBroken (e : ClickhouseParseError).
#[export] Instance ClickhouseParseError_eq_dec : EqDecision ClickhouseParseError.
Proof. solve_decision. Defined.
#[export] Instance Claim_eq_dec : EqDecision RouteClaim.
Proof. solve_decision. Defined.

Definition query_claim (pair : bytes * bytes) : list RouteClaim :=
  if eq_ignore_ascii_case pair.1 (lit "user") then [ClaimUser pair.2]
  else if eq_ignore_ascii_case pair.1 (lit "database") then [ClaimDatabase pair.2]
  else [].

Definition authorization_username (value : bytes) : result ClickhouseParseError bytes :=
  payload ← basic_authorization_payload value;
  encoded ← ok_or payload InvalidHttpBasicAuth;
  basic_auth_username encoded.

Definition header_claim (header : bytes * bytes) : list RouteClaim :=
  let value := trim header.2 in
  if eq_ignore_ascii_case header.1 (lit "x-clickhouse-user") then [ClaimUser value]
  else if eq_ignore_ascii_case header.1 (lit "x-clickhouse-database") then [ClaimDatabase value]
  else if eq_ignore_ascii_case header.1 (lit "authorization") then
    match authorization_username value with Ok u => [ClaimUser u] | Err e => [ClaimBroken e] end
  else [].

Definition request_claims (head : HttpHead) : list RouteClaim :=
  match split_once "?"%byte head.(http_target) with
  | Some (_, query) => url_parse query ≫= query_claim
  | None => []
  end ++ (head.(http_headers) ≫= header_claim).

Fixpoint merge_claims (cs : list RouteClaim) (f : option bytes * option bytes) :
    result ClickhouseParseError (option bytes * option bytes) :=
  match cs with
  | [] => Ok f
  | ClaimUser v :: cs => u ← merge_route_field f.1 v; merge_claims cs (u, f.2)
  | ClaimDatabase v :: cs => d ← merge_route_field f.2 v; merge_claims cs (f.1, d)
  | ClaimBroken e :: cs => Err e
  end.

Lemma merge_claims_app cs cs' f :
  merge_claims (cs ++ cs') f = f ← merge_claims cs f; merge_claims cs' f.
Proof.
  revert f. induction cs as [|[v|v|e] cs IH]; intros f; [done|..]; cbn [app merge_claims]; [..|done].
  - destruct (merge_route_field _ _); [apply IH|done].
  - destruct (merge_route_field _ _); [apply IH|done].
Qed.

Lemma merge_query_claims pairs f : merge_query pairs f = merge_claims (pairs ≫= query_claim) f.
Proof.
  revert f. induction pairs as [|[k v] pairs IH]; intros f; [done|]. rewrite bind_cons, merge_claims_app.
  trans (merge_claims (query_claim (k, v)) f ≫= merge_query pairs);
    [|destruct (merge_claims _ f); [apply IH|done]].
  cbn [merge_query]. unfold query_claim. cbn [fst snd].
  destruct (eq_ignore_ascii_case k (lit "user"));
    [|destruct (eq_ignore_ascii_case k (lit "database")); [|done]];
    cbn [merge_claims]; by destruct (merge_route_field _ _).
Qed.

Lemma merge_headers_claims headers f :
  merge_headers headers f = merge_claims (headers ≫= header_claim) f.
Proof.
  revert f. induction headers as [|[k v] headers IH]; intros f; [done|].
  rewrite bind_cons, merge_claims_app.
  trans (merge_claims (header_claim (k, v)) f ≫= merge_headers headers);
    [|destruct (merge_claims _ f); [apply IH|done]].
  cbn [merge_headers]. unfold header_claim. cbn [fst snd].
  destruct (eq_ignore_ascii_case k (lit "x-clickhouse-user"));
    [cbn [merge_claims]; by destruct (merge_route_field _ _)|].
  destruct (eq_ignore_ascii_case k (lit "x-clickhouse-database"));
    [cbn [merge_claims]; by destruct (merge_route_field _ _)|].
  destruct (eq_ignore_ascii_case k (lit "authorization")); [|done].
  unfold authorization_username. destruct (basic_authorization_payload (trim v)) as [p|]; [|done].
  rewrite !bind_of_Ok. destruct (ok_or p _) as [q|]; [|done]. rewrite !bind_of_Ok.
  destruct (basic_auth_username q) as [u|]; [|done]. rewrite bind_of_Ok.
  cbn [merge_claims]. by destruct (merge_route_field _ _).
Qed.

(** What the claims [cs] make of the fields [f]. *)
Record agrees (cs : list RouteClaim) (f f' : option bytes * option bytes) : Prop := {
  agrees_whole e : ClaimBroken e ∉ cs;
  agrees_user v : ClaimUser v ∈ cs ∨ f.1 = Some v → f'.1 = Some v;
  agrees_database v : ClaimDatabase v ∈ cs ∨ f.2 = Some v → f'.2 = Some v;
  agrees_user_from v : f'.1 = Some v → ClaimUser v ∈ cs ∨ f.1 = Some v;
  agrees_database_from v : f'.2 = Some v → ClaimDatabase v ∈ cs ∨ f.2 = Some v;
}.

Lemma merge_route_field_Ok c v r : merge_route_field c v = Ok r ↔ (c = None ∨ c = Some v) ∧ r = Some v.
Proof.
  unfold merge_route_field. destruct c as [c|]; [case_bool_decide|]; subst; naive_solver.
Qed.

Lemma agrees_nil f f' : agrees [] f f' ↔ f = f'.
Proof.
  split.
  - intros [_ Hu Hd Hu' Hd']. destruct f as [u d], f' as [u' d']. cbn in *. f_equal.
    + apply option_eq. intros x. split; [auto|]. intros [?%elem_of_nil|?]%Hu'; done.
    + apply option_eq. intros x. split; [auto|]. intros [?%elem_of_nil|?]%Hd'; done.
  - intros ->. split; [intros e ?%elem_of_nil; done|intros x [?%elem_of_nil|?]; done..|auto|auto].
Qed.

Lemma agrees_user_cons v cs f f' :
  agrees (ClaimUser v :: cs) f f' ↔ (f.1 = None ∨ f.1 = Some v) ∧ agrees cs (Some v, f.2) f'.
Proof.
  split.
  - intros [Hw Hu Hd Hu' Hd'].
    assert (Hv : f'.1 = Some v) by (apply Hu; left; left).
    split; [destruct f.1 as [c|]; [right; rewrite <-Hv; symmetry; auto|by left]|].
    split; cbn.
    + intros e Hin. apply (Hw e). by right.
    + intros x [Hin|[= ->]]; [apply Hu; left; by right|done].
    + intros x [Hin|Hf]; apply Hd; [left; by right|by right].
    + intros x Hx. destruct (Hu' x Hx) as [[[= ->]|Hin]%elem_of_cons|Hf]; [by right|by left|].
      right. congruence.
    + intros x Hx. destruct (Hd' x Hx) as [[?|Hin]%elem_of_cons|Hf]; [done|by left|by right].
  - intros [Hf [Hw Hu Hd Hu' Hd']]. split; cbn in *.
    + intros e [?|Hin]%elem_of_cons; [done|by eapply Hw].
    + intros x [[[= ->]|Hin]%elem_of_cons|Hx]; apply Hu; [by right|by left|].
      right. destruct Hf; congruence.
    + intros x [[?|Hin]%elem_of_cons|Hx]; [done|apply Hd; by left|apply Hd; by right].
    + intros x Hx. destruct (Hu' x Hx) as [Hin|[= ->]]; left; [by right|by left].
    + intros x Hx. destruct (Hd' x Hx) as [Hin|?]; [left; by right|by right].
Qed.

(** The two fields play the same part. *)
Definition swap_claim (c : RouteClaim) : RouteClaim :=
  match c with ClaimUser v => ClaimDatabase v | ClaimDatabase v => ClaimUser v | ClaimBroken e => ClaimBroken e end.

Lemma agrees_swap cs f f' :
  agrees cs f f' → agrees (swap_claim <$> cs) (f.2, f.1) (f'.2, f'.1).
Proof.
  assert (Hs : ∀ c, c ∈ swap_claim <$> cs → swap_claim c ∈ cs)
    by (intros c ([] & -> & ?)%list_elem_of_fmap; done).
  assert (Hs' : ∀ c, c ∈ cs → swap_claim c ∈ swap_claim <$> cs) by (intros; by apply list_elem_of_fmap_2).
  intros [Hw Hu Hd Hu' Hd']. split; cbn.
  - intros e He%Hs. by apply (Hw e).
  - intros v [Hv%Hs|Hv]; auto.
  - intros v [Hv%Hs|Hv]; auto.
  - intros v [Hv%Hs'|Hv]%Hd'; auto.
  - intros v [Hv%Hs'|Hv]%Hu'; auto.
Qed.

Lemma agrees_database_cons v cs f f' :
  agrees (ClaimDatabase v :: cs) f f' ↔ (f.2 = None ∨ f.2 = Some v) ∧ agrees cs (f.1, Some v) f'.
Proof.
  assert (Hid : swap_claim <$> (swap_claim <$> cs) = cs).
  { rewrite <-list_fmap_compose. rewrite <-(list_fmap_id cs) at 2. apply list_fmap_ext. by intros _ [] _. }
  split.
  - intros Ha%agrees_swap. rewrite fmap_cons in Ha. cbn [swap_claim] in Ha.
    apply agrees_user_cons in Ha as [Hf Ha]. split; [done|].
    apply agrees_swap in Ha. cbn [fst snd] in Ha. rewrite Hid in Ha. by destruct f'.
  - intros [Hf Ha%agrees_swap]. cbn [fst snd] in Ha.
    pose proof (proj2 (agrees_user_cons v (swap_claim <$> cs) (f.2, f.1) (f'.2, f'.1)) (conj Hf Ha)) as Hc.
    apply agrees_swap in Hc. rewrite fmap_cons, Hid in Hc. cbn [fst snd swap_claim] in Hc. by destruct f, f'.
Qed.

Lemma merge_claims_agrees cs f f' : merge_claims cs f = Ok f' ↔ agrees cs f f'.
Proof.
  revert f. induction cs as [|[v|v|e] cs IH]; intros f; cbn [merge_claims].
  - rewrite agrees_nil. by split; [intros [= <-]|intros <-].
  - rewrite agrees_user_cons, <-IH, bind_Ok. setoid_rewrite merge_route_field_Ok.
    split; [by intros (u & [Hf ->] & Ha)|]. intros [Hf Ha]. by exists (Some v).
  - rewrite agrees_database_cons, <-IH, bind_Ok. setoid_rewrite merge_route_field_Ok.
    split; [by intros (u & [Hf ->] & Ha)|]. intros [Hf Ha]. by exists (Some v).
  - split; [done|]. intros [Hw _ _ _ _]. exfalso. apply (Hw e). by left.
Qed.

(** The claims of a request agree on one identity. *)
Definition identity_agreed (cs : list RouteClaim) (route : ClickhouseRoute) : Prop :=
  (∀ e, ClaimBroken e ∉ cs) ∧
  ClaimUser route.(ch_username) ∈ cs ∧ route.(ch_username) ≠ [] ∧
  (∀ v, ClaimUser v ∈ cs → v = route.(ch_username)) ∧
  (∀ v, ClaimDatabase v ∈ cs → v = route.(ch_database)) ∧
  (ClaimDatabase route.(ch_database) ∈ cs ∨ route.(ch_database) = []).

Lemma request_route_agreed v route :
  parse_http_initial_route v = Ok route ↔
  ∃ head, parse_http_head v = Ok head ∧ identity_agreed (request_claims head) route.
Proof.
  unfold parse_http_initial_route.
  assert (Hm : ∀ head k,
    (f ← match split_once "?"%byte head.(http_target) with
         | Some (_, query) => merge_query (url_parse query) (None, None)
         | None => Ok (None, None)
         end; f ← merge_headers head.(http_headers) f; k f)
    = (f ← merge_claims (request_claims head) (None, None); k f : result _ ClickhouseRoute)).
  { intros head k. unfold request_claims. rewrite merge_claims_app.
    destruct (split_once _ _) as [[p q]|]; [rewrite <-merge_query_claims|];
      [destruct (merge_query _ _); [|done]|]; by rewrite !bind_of_Ok, merge_headers_claims. }
  split.
  - intros (head & Hh & Hr)%bind_Ok. exists head. split; [done|]. rewrite Hm in Hr.
    apply bind_Ok in Hr as ([u d] & [Hw Hu Hd Hu' Hd']%merge_claims_agrees & Hr). cbn in *.
    apply bind_Ok in Hr as (x & ->%ok_or_Ok & Hr). case_bool_decide as Hx; [done|].
    injection Hr as <-. unfold identity_agreed. cbn.
    assert (Hud : ∀ v, ClaimUser v ∈ request_claims head → v = x).
    { intros y Hy. assert (Some x = Some y) as [= ->] by (apply Hu; by left). done. }
    split; [done|]. split; [by destruct (Hu' x eq_refl)|]. split; [done|]. split; [done|].
    split; [intros y Hy; by rewrite (Hd y (or_introl Hy))|].
    destruct d as [d|]; [left; by destruct (Hd' d eq_refl)|by right].
  - intros (head & Hh & Hw & Hu & Hx & Hus & Hds & Hd). rewrite Hh, bind_of_Ok, Hm.
    apply bind_Ok. destruct route as [user db]. cbn in *.
    set (claimed := decide (ClaimDatabase db ∈ request_claims head)).
    exists (Some user, if claimed then Some db else None). rewrite merge_claims_agrees. split.
    + split; cbn; [done|..].
      * intros y [Hy%Hus| ]; [by subst|done].
      * intros y [Hy| ]; [|done]. pose proof (Hds y Hy). subst. by destruct claimed.
      * intros y [= <-]. by left.
      * destruct claimed; [|done]. intros y [= <-]. by left.
    + cbn [ok_or fst snd]. rewrite bind_of_Ok, bool_decide_false by done. destruct Hd as [Hd| ->].
      * by destruct claimed.
      * by destruct claimed.
Qed.

(** C18. The identity of an HTTP request is the one all its parts agree on.  A
    request is given a route exactly when its head is well framed and every
    place that can name a user or a database - the query, in any case and any
    number, the two headers, and Basic authorization - is readable and names the
    same user and the same database; the user is named and not empty, and the
    database is the named one, or none. *)
Theorem http_identity_agreed v route :
  parse_http_initial_route v = Ok route ↔
  ∃ head, parse_http_head v = Ok head ∧ identity_agreed (request_claims head) route.
Proof. apply request_route_agreed. Qed.

(** ** The query for the backend *)

Definition no_amp (v : bytes) : Prop := Forall (λ b, is_amp b = false) v.

(** A pair as the backend reads it. *)
Definition parsed_piece (piece : bytes) : bytes * bytes :=
  (url_decode (pair_parts piece).1, url_decode (pair_parts piece).2).

Definition is_database (name : bytes) : bool := eq_ignore_ascii_case name (lit "database").

Lemma position_none p v : Forall (λ b, p b = false) v → position p v = None.
Proof. induction 1 as [|b v Hb _ IH]; [done|]. cbn. by rewrite Hb, IH. Qed.

Lemma split_on_plain p v : Forall (λ b, p b = false) v → split_on p v = [v].
Proof. induction 1 as [|b v Hb _ IH]; [done|]. cbn. by rewrite Hb, IH. Qed.

Lemma split_on_pieces p v : Forall (Forall (λ b, p b = false)) (split_on p v).
Proof.
  induction v as [|b v IH]; [by repeat constructor|]. cbn [split_on].
  destruct (p b) eqn:Hb; [by constructor|].
  destruct (split_on p v) as [|piece pieces]; [by repeat constructor|].
  apply Forall_cons in IH as [H1 H2]. by repeat constructor.
Qed.

Lemma split_join pieces :
  pieces ≠ [] → Forall no_amp pieces → split_on is_amp (join_amp pieces) = pieces.
Proof.
  intros Hne Hp. induction Hp as [|p pieces Hp Hps IH]; [done|]. cbn [join_amp].
  destruct pieces as [|p' pieces]; [by apply split_on_plain|].
  cbn [app]. rewrite split_on_app by done. by rewrite IH.
Qed.

(** The name of a piece is decoded alone as it is in the pair. *)
Lemma names_database_parsed piece :
  no_amp piece → names_database piece = is_database (parsed_piece piece).1.
Proof.
  intros Ha. unfold names_database, parsed_piece, pair_parts. cbn [fst].
  assert (Hname : ∀ name, no_amp name → split_once "="%byte name = None →
    match url_parse name with (n, _) :: _ => eq_ignore_ascii_case n (lit "database") | [] => false end
    = is_database (url_decode name)).
  { intros name Hn Hs. rewrite url_parse_pieces, (split_on_plain is_amp) by done.
    destruct (decide (name ≠ [])) as [Hne|Hne].
    - rewrite filter_cons_True by done. cbn. unfold pair_parts. by rewrite Hs.
    - apply dec_stable in Hne as ->. by rewrite url_decode_nil. }
  destruct (split_once "="%byte piece) as [[name value]|] eqn:Hs; [|by apply Hname].
  unfold split_once in Hs. apply bind_Some in Hs as (i & Hi & [= <- <-]).
  apply position_Some in Hi as (b & _ & _ & Hf & _). apply Hname; [by apply Forall_take|].
  unfold split_once. by rewrite position_none.
Qed.

Lemma kept_pairs pieces :
  Forall no_amp pieces →
  parsed_piece <$> filter (λ piece, piece ≠ [] ∧ names_database piece = false) pieces
  = filter (λ pair, is_database pair.1 = false)
      (parsed_piece <$> filter (λ piece, piece ≠ []) pieces).
Proof.
  induction 1 as [|p pieces Hp _ IH]; [done|]. rewrite !filter_cons.
  pose proof (names_database_parsed p Hp) as Hn.
  destruct (decide (p ≠ [])) as [Hne|Hne].
  - rewrite fmap_cons, filter_cons.
    destruct (decide (is_database (parsed_piece p).1 = false)) as [Hd|Hd].
    + rewrite decide_True by (rewrite Hn; done). by rewrite fmap_cons, IH.
    + rewrite decide_False by (rewrite Hn; tauto). done.
  - by rewrite decide_False by tauto.
Qed.

Lemma encoded_pair k v :
  valid_utf8 k = true → valid_utf8 v = true → parsed_piece (url_pair k v) = (k, v).
Proof.
  intros Hk Hv. rewrite url_pair_parts. unfold parsed_piece, pair_parts, split_once. cbn [app].
  rewrite position_app; [|by eapply Forall_impl; [apply url_encode_plain|]; intros b (_ & Hb & _);
    apply bool_decide_false|by apply bool_decide_true].
  cbn [mbind option_bind fst snd]. rewrite take_app_length, drop_app_ge by lia.
  replace (S (length (url_encode k)) - length (url_encode k))%nat with 1%nat by lia.
  cbn [drop]. rewrite drop_0. by rewrite !url_decode_encode.
Qed.

Lemma encoded_pair_no_amp k v : no_amp (url_pair k v).
Proof.
  rewrite url_pair_parts.
  assert (He : ∀ w, no_amp (url_encode w)).
  { intros w. eapply Forall_impl; [apply url_encode_plain|]. intros b (Hb & _).
    by apply bool_decide_false. }
  apply Forall_app. split; [apply He|]. apply Forall_app. split; [by repeat constructor|apply He].
Qed.

(** The query of a target, and what the gateway makes of it. *)
Definition target_parts (target : bytes) : bytes * bytes :=
  default (target, []) (split_once "?"%byte target).

Lemma target_rewritten target database :
  valid_utf8 database = true →
  ∃ query, target_with_database target database = (target_parts target).1 ++ ["?"%byte] ++ query
    ∧ url_parse query
      = filter (λ pair, is_database pair.1 = false) (url_parse (target_parts target).2)
        ++ [(lit "database", database)].
Proof.
  intros Hdb. unfold target_with_database, target_parts.
  destruct (default _ _) as [path query0]. cbn [fst snd]. eexists. split; [done|].
  rewrite !url_parse_pieces. fold parsed_piece. rewrite split_join.
  - rewrite filter_app, fmap_app. f_equal.
    + rewrite <-kept_pairs by apply split_on_pieces. f_equal. rewrite list_filter_filter.
      apply list_filter_iff. tauto.
    + rewrite filter_cons_True; [|by rewrite url_pair_parts; destruct (url_encode _)].
      cbn. f_equal. by apply encoded_pair.
  - by destruct (filter _ _).
  - apply Forall_app. split.
    { apply Forall_forall. intros p [_ Hp]%list_elem_of_filter.
      exact (proj1 (Forall_forall _ _) (split_on_pieces is_amp query0) p Hp). }
    constructor; [apply encoded_pair_no_amp|constructor].
Qed.

(** ** The lines for the backend *)

Definition names_connection (name : bytes) : bool :=
  eq_ignore_ascii_case name (lit "connection") || eq_ignore_ascii_case name (lit "proxy-connection").
Definition names_database_header (name : bytes) : bool :=
  eq_ignore_ascii_case name (lit "x-clickhouse-database").

Definition header_line (header : bytes * bytes) : bytes := header.1 ++ lit ": " ++ header.2.
Definition http_framed (lines : list bytes) : bytes := concat ((λ line, line ++ CRLF) <$> lines).

(** The headers of the loop, and then all of them. *)
Definition replaced_headers (headers : list (bytes * bytes)) (database : bytes) :
    list (bytes * bytes) :=
  headers ≫= λ header,
    if names_database_header header.1 then [(lit "X-ClickHouse-Database", database)]
    else if names_connection header.1 then [] else [header].
Definition forwarded_headers (headers : list (bytes * bytes)) (database : bytes) :
    list (bytes * bytes) :=
  replaced_headers headers database
  ++ (if existsb (λ header, names_database_header header.1) headers then []
      else [(lit "X-ClickHouse-Database", database)])
  ++ [(lit "Connection", lit "close")].

Lemma framed_cons line lines : http_framed (line :: lines) = line ++ CRLF ++ http_framed lines.
Proof. unfold http_framed. rewrite fmap_cons. cbn [concat]. by rewrite <-app_assoc. Qed.

Lemma framed_app lines lines' : http_framed (lines ++ lines') = http_framed lines ++ http_framed lines'.
Proof. unfold http_framed. by rewrite fmap_app, concat_app. Qed.

Lemma framed_database d :
  http_framed (header_line <$> [(lit "X-ClickHouse-Database", d)]) = push_database_header d.
Proof.
  cbn [fmap list_fmap]. rewrite framed_cons. unfold header_line, push_database_header. cbn [fst snd].
  by rewrite <-!app_assoc.
Qed.

Lemma gateway_lines_framed headers database seen :
  gateway_lines headers database seen
  = (http_framed (header_line <$> replaced_headers headers database),
     seen || existsb (λ header, names_database_header header.1) headers).
Proof.
  revert seen. induction headers as [|[name value] headers IH]; intros seen.
  { by rewrite orb_false_r. }
  unfold replaced_headers. rewrite bind_cons, fmap_app, framed_app.
  fold (replaced_headers headers database). cbn [gateway_lines existsb fst snd].
  unfold names_database_header at 1 2. fold (names_connection name).
  destruct (eq_ignore_ascii_case name (lit "x-clickhouse-database")); rewrite ?IH.
  - cbn [fmap list_fmap]. rewrite framed_cons. unfold push_database_header, header_line. cbn [fst snd].
    by rewrite orb_true_r, <-!app_assoc.
  - destruct (names_connection name).
    + done.
    + cbn [fmap list_fmap]. rewrite framed_cons. unfold header_line at 2. cbn [fst snd].
      by rewrite <-!app_assoc.
Qed.

Definition other_header (header : bytes * bytes) : bool :=
  negb (names_database_header header.1) && negb (names_connection header.1).

(** What is forwarded, by the name of the header. *)
Lemma replaced_by_name headers database :
  filter (λ h, other_header h = true) (replaced_headers headers database)
  = filter (λ h, other_header h = true) headers
  ∧ filter (λ h, names_connection h.1 = true) (replaced_headers headers database) = []
  ∧ filter (λ h, names_database_header h.1 = true) (replaced_headers headers database)
    = replicate (length (filter (λ h, names_database_header h.1 = true) headers))
        (lit "X-ClickHouse-Database", database).
Proof.
  induction headers as [|h headers (IH1 & IH2 & IH3)]; [done|].
  unfold replaced_headers in *. rewrite bind_cons, !filter_app, IH1, IH2, IH3, !(filter_cons _ h).
  unfold other_header. destruct (names_database_header h.1) eqn:Hd.
  - cbn. done.
  - destruct (names_connection h.1) eqn:Hc; cbn [negb andb app].
    + done.
    + cbn. unfold filter, list_filter. rewrite Hd, Hc. cbn. done.
Qed.

Lemma forwarded_by_name headers database :
  (∃ n, filter (λ h, names_database_header h.1 = true) (forwarded_headers headers database)
        = replicate (S n) (lit "X-ClickHouse-Database", database))
  ∧ filter (λ h, names_connection h.1 = true) (forwarded_headers headers database)
    = [(lit "Connection", lit "close")]
  ∧ filter (λ h, other_header h = true) (forwarded_headers headers database)
    = filter (λ h, other_header h = true) headers.
Proof.
  destruct (replaced_by_name headers database) as (Hr1 & Hr2 & Hr3).
  unfold forwarded_headers. rewrite !filter_app, Hr1, Hr2, Hr3. split_and!.
  - assert (Hc : filter (λ h, names_database_header h.1 = true) [(lit "Connection", lit "close")] = [])
      by done. rewrite Hc, app_nil_r. destruct (existsb _ headers) eqn:Hx.
    + rewrite filter_nil, app_nil_r. clear Hr1 Hr2 Hr3. destruct (filter _ headers) as [|h hs] eqn:Hf; [|by exists (length hs)].
      exfalso. apply existsb_exists in Hx as (h & Hin%list_elem_of_In & Hn).
      assert (Hin' : h ∈ filter (λ h, names_database_header h.1 = true) headers)
        by (by apply list_elem_of_filter).
      rewrite Hf in Hin'. by apply elem_of_nil in Hin'.
    + eexists. rewrite replicate_S_end. reflexivity.
  - by destruct (existsb _ _).
  - destruct (existsb _ _); by rewrite !app_nil_r.
Qed.

Lemma no_breaks_check v : forallb (λ b, negb (is_line_break b)) v = true → no_breaks v.
Proof.
  induction v as [|b v IH]; [by constructor|]. cbn. intros [Hb Hv]%andb_true_iff.
  constructor; [by apply negb_true_iff|by apply IH].
Qed.

Lemma no_breaks_app a b : no_breaks a → no_breaks b → no_breaks (a ++ b).
Proof. intros Ha Hb. by apply Forall_app. Qed.

Lemma plain_byte b : 32 ≤ b2z b → is_line_break b = false.
Proof. intros Hb. unfold is_line_break. rewrite !bool_decide_false; [done|by intros ->..]. Qed.

Lemma no_control_breaks v : has_control v = false → no_breaks v.
Proof.
  induction v as [|b v IH]; [by constructor|]. cbn [has_control].
  intros [[[Hb _]%orb_false_iff _]%orb_false_iff Hr]%orb_false_iff. constructor; [|by apply IH].
  by apply plain_byte, Z.ltb_ge.
Qed.

Lemma digits_plain fuel x : no_breaks (digits fuel x).
Proof.
  revert x. induction fuel as [|fuel IH]; intros x; [constructor|]. cbn [digits]. apply no_breaks_app.
  - case_match; [constructor|apply IH].
  - constructor; [|constructor]. pose proof (Z.mod_pos_bound x 10 ltac:(lia)) as Hm.
    apply plain_byte. rewrite b2z_z2b; lia.
Qed.

Lemma text_headers_same headers headers' : text_headers headers = Ok headers' → headers' = headers.
Proof.
  revert headers'. induction headers as [|[n v] headers IH]; intros headers'; [by intros [= <-]|].
  cbn [text_headers]. destruct (valid_utf8 v); [|done].
  intros (h & Hh & [= <-])%bind_Ok. by rewrite (IH h).
Qed.

Lemma forwarded_no_breaks headers database :
  Forall (λ h, no_breaks h.1 ∧ no_breaks h.2) headers → no_breaks database →
  Forall no_breaks (header_line <$> forwarded_headers headers database).
Proof.
  intros Hh Hd. apply Forall_fmap.
  assert (Hl : Forall (λ h, no_breaks h.1 ∧ no_breaks h.2) (forwarded_headers headers database)).
  { assert (Hx : no_breaks (lit "X-ClickHouse-Database") ∧ no_breaks database)
      by (split; [by apply no_breaks_check|done]).
    unfold forwarded_headers. apply Forall_app. split; [|apply Forall_app; split].
    - unfold replaced_headers. induction Hh as [|h headers Hh _ IH]; [constructor|].
      rewrite bind_cons. apply Forall_app. split; [|done].
      destruct (names_database_header h.1); [constructor; [done|constructor]|].
      destruct (names_connection h.1); [constructor|constructor; [done|constructor]].
    - case_match; [constructor|constructor; [done|constructor]].
    - constructor; [|constructor]. split; by apply no_breaks_check. }
  eapply Forall_impl; [exact Hl|]. intros h [Hn Hv]. unfold header_line, compose.
  apply no_breaks_app; [done|]. apply no_breaks_app; [by apply no_breaks_check|done].
Qed.

Lemma target_no_breaks target database : no_breaks target → no_breaks (target_with_database target database).
Proof.
  intros Ht. unfold target_with_database.
  assert (Hp : no_breaks (default (target, []) (split_once "?"%byte target)).1
               ∧ no_breaks (default (target, []) (split_once "?"%byte target)).2).
  { unfold split_once. destruct (position _ target); cbn; [|by split; [|constructor]].
    split; [by apply Forall_take|by apply Forall_drop]. }
  destruct (default _ _) as [path query]. destruct Hp as [Hp Hq]. cbn [fst snd] in *.
  apply no_breaks_app; [done|]. apply no_breaks_app; [by apply no_breaks_check|].
  assert (Hpieces : Forall no_breaks (split_on is_amp query)).
  { clear Hp. induction Hq as [|b q Hb Hq IH]; [by repeat constructor|]. cbn [split_on].
    case_match; [constructor; [constructor|done]|].
    destruct (split_on is_amp q); [by repeat constructor|].
    apply Forall_cons in IH as [H1 H2]. constructor; [by constructor|done]. }
  assert (Hjoin : ∀ ps, Forall no_breaks ps → no_breaks (join_amp ps)).
  { induction 1 as [|p ps Hp' Hps IH]; [constructor|]. cbn [join_amp]. destruct ps; [done|].
    apply no_breaks_app; [done|]. apply no_breaks_app; [by apply no_breaks_check|done]. }
  apply Hjoin, Forall_app. split.
  { apply Forall_forall. intros p [_ Hin]%list_elem_of_filter.
    exact (proj1 (Forall_forall _ _) Hpieces p Hin). }
  constructor; [|constructor]. rewrite url_pair_parts.
  assert (He : ∀ w, no_breaks (url_encode w)).
  { intros w. eapply Forall_impl; [apply url_encode_plain|]. intros b (_ & _ & H1 & H2).
    unfold is_line_break. by rewrite !bool_decide_false. }
  apply no_breaks_app; [apply He|]. apply no_breaks_app; [by apply no_breaks_check|apply He].
Qed.

(** What the backend is sent for an HTTP request carries the gateway's database
    and no other.  The request is one request line and header lines, none of
    which contains a line break, an empty line, and the body as it came.  The
    query holds the pairs of the client that do not name a database, and then
    the database of the gateway; every database header carries that database,
    and there is one; the only connection header is [Connection: close]; all
    other headers are the client's, in order. *)
Theorem http_request_rewritten v database out :
  http_request_for_gateway v database = Ok out → valid_utf8 database = true →
  ∃ head query headers,
    parse_http_head v = Ok head ∧
    let '(path, query0) := target_parts head.(http_target) in
    let request := head.(http_method) ++ lit " " ++ path ++ lit "?" ++ query ++ lit " HTTP/1."
                   ++ usize_to_string head.(minor_version) in
    out = http_framed (request :: (header_line <$> headers)) ++ CRLF ++ drop head.(body_start) v
    ∧ Forall no_breaks (request :: (header_line <$> headers))
    ∧ url_parse query = filter (λ pair, is_database pair.1 = false) (url_parse query0)
                        ++ [(lit "database", database)]
    ∧ (∃ n, filter (λ h, names_database_header h.1 = true) headers
            = replicate (S n) (lit "X-ClickHouse-Database", database))
    ∧ filter (λ h, names_connection h.1 = true) headers = [(lit "Connection", lit "close")]
    ∧ filter (λ h, other_header h = true) headers
      = filter (λ h, other_header h = true) head.(http_headers).
Proof.
  intros Ho Hu. unfold http_request_for_gateway in Ho.
  apply bind_Ok in Ho as (route & _ & Ho).
  destruct (_ || has_control database) eqn:Hc; [done|]. apply orb_false_iff in Hc as [_ Hc].
  apply bind_Ok in Ho as (head & Hh & Ho). rewrite gateway_lines_framed in Ho.
  injection Ho as <-. destruct (target_rewritten head.(http_target) database Hu) as (query & Ht & Hq).
  exists head, query, (forwarded_headers head.(http_headers) database). split; [done|].
  destruct (parse_http_head_Ok v head Hh) as (_ & _ & r & Hr & Hm & Hp & Hhs).
  destruct (httparse_lines v r Hr) as (Hm1 & Hp1 & Hh1). apply text_headers_same in Hhs.
  pose proof (target_no_breaks _ database (Hp1 _ Hp)) as Hnb. rewrite Ht in *.
  destruct (target_parts head.(http_target)) as [path query0]. cbn [fst snd] in *.
  split_and!.
  - rewrite framed_cons. unfold forwarded_headers. rewrite !fmap_app, !framed_app.
    destruct (existsb _ _); cbn [orb]; [by rewrite <-!app_assoc|].
    by rewrite framed_database, <-!app_assoc.
  - constructor; [|apply forwarded_no_breaks; [by rewrite Hhs|by apply no_control_breaks]].
    rewrite (app_assoc path), (app_assoc (path ++ _)), <-(app_assoc path).
    apply no_breaks_app; [by apply Hm1|]. apply no_breaks_app; [by apply no_breaks_check|].
    apply no_breaks_app; [exact Hnb|]. apply no_breaks_app; [by apply no_breaks_check|apply digits_plain].
  - done.
  - apply forwarded_by_name.
  - apply forwarded_by_name.
  - apply forwarded_by_name.
Qed.
End http_facts.

(** ** The HTTP socket of an instance *)

Definition is_slash (b : byte) : bool := bool_decide (b = "/"%byte).

(** The part of a path that is its root or a leading [.]: [len_before_body] of
    [std::path::Components]. *)
Definition before_body (path : bytes) : nat :=
  match path with
  | b :: rest =>
      if is_slash b then 1%nat
      else if bool_decide (b = "."%byte)
      then match rest with [] => 1%nat | c :: _ => if is_slash c then 1%nat else 0%nat end
      else 0%nat
  | [] => 0%nat
  end.

(** [parse_next_component_back]: how many bytes the last piece takes with its
    separator, and whether it is a component. *)
Definition next_back (start : nat) (path : bytes) : nat * bool :=
  let body := drop start path in
  let piece := match position is_slash (reverse body) with
               | Some i => (S i, reverse (take i (reverse body)))
               | None => (length body, body)
               end in
  (piece.1, negb (bool_decide (piece.2 = []) || bool_decide (piece.2 = ["."%byte]))).

(** [trim_right]: a path is no longer than its fuel. *)
Fixpoint trim_right (fuel start : nat) (path : bytes) : bytes :=
  match fuel with
  | O => path
  | S fuel =>
      if (length path <=? start)%nat then path
      else
        let '(size, component) := next_back start path in
        if component then path else trim_right fuel start (take (length path - size) path)
  end.

(** [Path::parent]. *)
Definition path_parent (path : bytes) : option bytes :=
  let start := before_body path in
  let path := trim_right (length path) start path in
  if (length path <=? start)%nat then
    match path with
    | b :: _ => if is_slash b then None else Some []
    | [] => None
    end
  else
    let path := take (length path - (next_back start path).1) path in
    Some (trim_right (length path) start path).

(** [Path::join] with a relative file name. *)
Definition socket_path_join (dir file : bytes) : bytes :=
  match last dir with
  | Some b => if is_slash b then dir ++ file else dir ++ ["/"%byte] ++ file
  | None => file
  end.

Definition CLICKHOUSE_HTTP_SOCKET_FILENAME : bytes := lit "clickhouse-http.sock".

Definition clickhouse_http_socket_path (path : bytes) : option bytes :=
  (λ parent, socket_path_join parent CLICKHOUSE_HTTP_SOCKET_FILENAME) <$> path_parent path.

Definition clickhouse_http_endpoint (endpoint : BackendEndpoint) :
    result ClickhouseListenerError BackendEndpoint :=
  match endpoint with
  | UnixSocket socket_path =>
      socket_path ← ok_or (clickhouse_http_socket_path (lit socket_path)) ChInvalidBackend;
      Ok (UnixSocket (text socket_path))
  | DockerTcp _ _ => Err ChInvalidBackend
  end.

(** A component that is a plain file name. *)
Definition plain_component (v : bytes) : Prop :=
  v ≠ [] ∧ v ≠ ["."%byte] ∧ Forall (λ b, is_slash b = false) v.

Lemma next_back_plain start path file :
  (start ≤ length path)%nat → plain_component file →
  next_back start (path ++ ["/"%byte] ++ file) = (S (length file), true).
Proof.
  intros Hs (H1 & H2 & H3). unfold next_back. rewrite drop_app_le by done. rewrite !reverse_app.
  cbn [reverse rev_append app]. change (reverse ["/"%byte]) with ["/"%byte].
  rewrite <-app_assoc. cbn [app]. rewrite position_app; [|by apply Forall_reverse|done].
  cbn [fst snd]. rewrite length_reverse, take_app_length' by (by rewrite length_reverse).
  rewrite reverse_involutive, !bool_decide_false by done. done.
Qed.

Lemma trim_right_plain fuel start path file :
  (start ≤ length path)%nat → plain_component file →
  trim_right fuel start (path ++ ["/"%byte] ++ file) = path ++ ["/"%byte] ++ file.
Proof.
  intros Hs Hf. destruct fuel as [|fuel]; [done|]. cbn [trim_right].
  destruct (_ <=? _)%nat; [done|]. by rewrite next_back_plain.
Qed.

(** The HTTP socket of an instance lies beside its native socket. *)
Theorem http_socket_beside dir component file :
  plain_component component → plain_component file →
  clickhouse_http_socket_path (lit "/" ++ dir ++ lit "/" ++ component ++ lit "/" ++ file)
  = Some (lit "/" ++ dir ++ lit "/" ++ component ++ lit "/clickhouse-http.sock").
Proof.
  intros Hc Hf. set (top := lit "/" ++ dir). set (parent := top ++ lit "/" ++ component).
  assert (Htop : (1 ≤ length top)%nat) by (unfold top; simpl; lia).
  assert (Hpar : (1 ≤ length parent)%nat) by (unfold parent; rewrite length_app; lia).
  replace (lit "/" ++ dir ++ lit "/" ++ component ++ lit "/" ++ file)
    with (parent ++ ["/"%byte] ++ file) by (unfold parent, top; by rewrite <-!app_assoc).
  unfold clickhouse_http_socket_path, path_parent.
  assert (Hb : before_body (parent ++ ["/"%byte] ++ file) = 1%nat) by done. rewrite Hb.
  rewrite trim_right_plain, next_back_plain by done. cbn [fst].
  rewrite (proj2 (Nat.leb_gt _ _)) by (rewrite !length_app; simpl; lia).
  rewrite take_app_length' by (rewrite !length_app; simpl; lia).
  unfold parent at 2. change (lit "/") with ["/"%byte]. rewrite trim_right_plain by done.
  cbn [fmap option_fmap option_map]. f_equal. unfold socket_path_join.
  destruct Hc as (Hne & _ & Hs).
  destruct component as [|b component _] using rev_ind; [done|].
  rewrite !app_assoc, last_snoc. apply Forall_app in Hs as [_ Hs]. apply Forall_cons in Hs as [-> _].
  unfold top. by rewrite <-!app_assoc.
Qed.

(** ** The HTTP listener *)

Section http_listener.
Context `{HttpLibraries} {Sem : Type} `{Semaphore Sem}.

Definition HTTP_ACCESS_DENIED_RESPONSE : bytes :=
  lit "HTTP/1.1 403 Forbidden" ++ CRLF ++ lit "Content-Type: text/plain" ++ CRLF
  ++ lit "Content-Length: 15" ++ CRLF ++ lit "Connection: close" ++ CRLF ++ CRLF
  ++ lit "Access denied." ++ [x0a].

(** [handle_clickhouse_http] up to the tunnel: the endpoint, the instance and
    the session of the tunnel and the bytes replayed to it; what was sent to the
    client; and the registry. *)
Definition prepare_clickhouse_http (st0 st0' st1 st2 : InstanceState) (chunks : list bytes)
    (reg : Sessions Sem) :
    result ClickhouseListenerError (string * BackendEndpoint * Z * bytes) * bytes * Sessions Sem :=
  match read_http_headers chunks with
  | Err e => (Err (ChParse e), [], reg)
  | Ok initial =>
      match parse_http_initial_route initial with
      | Err e => (Err (ChParse e), HTTP_ACCESS_DENIED_RESPONSE, reg)
      | Ok route =>
          match resolve_clickhouse_at st0 st0' st1 st2 (text route.(ch_username))
                  (requested_database route.(ch_database)) reg with
          | (NotFound, reg) => (Err ChRouteNotFound, HTTP_ACCESS_DENIED_RESPONSE, reg)
          | (Ambiguous, reg) => (Err ChAmbiguousRoute, HTTP_ACCESS_DENIED_RESPONSE, reg)
          | (Found database target, reg) =>
              match http_request_for_gateway initial (lit database) with
              | Err e => (Err (ChParse e), [], drop_session (resolved_session target) reg)
              | Ok initial =>
                  match clickhouse_http_endpoint (resolved_endpoint target) with
                  | Err e => (Err e, [], drop_session (resolved_session target) reg)
                  | Ok endpoint =>
                      (Ok (resolved_instance_id target, endpoint, resolved_session target, initial),
                       [], reg)
                  end
              end
          end
      end
  end.

(** C17. An HTTP client of ClickHouse is tunnelled only to the instance that owns
    the one identity its request names.  All claims of the request agree on a
    user and a database, the store holds a running instance for them
    ([routed_to_owner]), the tunnel goes to the HTTP socket beside that
    instance's native socket with one new session, and the request it starts
    with is the client's, rewritten for the resolved database.  Any other client
    leaves no session behind and is told at most that access is denied. *)
Theorem clickhouse_http_to_owner sha st0 st0' st1 st2 chunks reg r sent reg' :
  store_reachable sha st0 → store_reachable sha st0' →
  registry_exact reg → next_id reg < u64_max →
  prepare_clickhouse_http st0 st0' st1 st2 chunks reg = (r, sent, reg') →
  match r with
  | Ok (id, endpoint, session, out) =>
      ∃ request head route database target socket,
        sent = [] ∧ read_http_headers chunks = Ok request
        ∧ parse_http_head request = Ok head ∧ identity_agreed (request_claims head) route
        ∧ routed_to_owner sha st0 st0' st2 route.(ch_username) route.(ch_database) database
            target reg reg'
        ∧ id = resolved_instance_id target ∧ session = resolved_session target
        ∧ resolved_endpoint target = UnixSocket socket
        ∧ Some endpoint = (λ path, UnixSocket (text path)) <$> clickhouse_http_socket_path (lit socket)
        ∧ http_request_for_gateway request (lit database) = Ok out
  | Err _ => live reg' = live reg ∧ (sent = [] ∨ sent = HTTP_ACCESS_DENIED_RESPONSE)
  end.
Proof.
  intros Hr0 Hr0' Hex Hn. unfold prepare_clickhouse_http.
  destruct (read_http_headers chunks) as [request|e] eqn:Hread; [|intros [= <- <- <-]; by auto].
  destruct (parse_http_initial_route request) as [route|e] eqn:Hparse; [|intros [= <- <- <-]; by auto].
  destruct (resolve_clickhouse_at _ _ _ _ _ _ _) as [res reg1] eqn:Hres.
  pose proof (resolver_clickhouse_denied _ _ _ _ _ _ _ _ _ Hex Hn Hres) as Hkeep.
  destruct res as [database target| |]; [|intros [= <- <- <-]; by auto..].
  pose proof (resolver_clickhouse_owner sha _ _ _ _ _ _ _ _ _ _ Hr0 Hr0' Hex Hn Hres) as Hown.
  assert (Hdrop : live (drop_session (resolved_session target) reg1) = live reg)
    by (by eapply drop_one_more).
  destruct (http_request_for_gateway _ _) as [out|e] eqn:Hw; [|intros [= <- <- <-]; by auto].
  destruct (clickhouse_http_endpoint _) as [endpoint|e] eqn:He; [|intros [= <- <- <-]; by auto].
  intros [= <- <- <-]. apply request_route_agreed in Hparse as (head & Hh & Ha).
  unfold clickhouse_http_endpoint in He. destruct (resolved_endpoint target) as [socket|] eqn:Hs; [|done].
  apply bind_Ok in He as (path & Hp%ok_or_Ok & [= <-]).
  exists request, head, route, database, target, socket. rewrite Hp. by auto 12.
Qed.
End http_listener.

(** ** Examples *)

Module HttpDemo.
Import StoreDemo ClickhouseDemo.

(** Stand-ins for the libraries: every byte is percent-encoded, and one request
    is parsed. *)
Definition hex_digit (x : Z) : byte := z2b (if x <? 10 then 48 + x else 55 + x).
Definition unhex (b : byte) : Z := if b2z b <? 65 then b2z b - 48 else b2z b - 55.
Definition demo_encode (v : bytes) : bytes :=
  v ≫= λ b, ["%"%byte; hex_digit (b2z b / 16); hex_digit (b2z b mod 16)].
Fixpoint demo_decode (v : bytes) : bytes :=
  match v with
  | b :: rest =>
      if bool_decide (b = "%"%byte) then
        match rest with
        | hi :: rest =>
            match rest with
            | lo :: rest => z2b (16 * unhex hi + unhex lo) :: demo_decode rest
            | [] => [b; hi]
            end
        | [] => [b]
        end
      else b :: demo_decode rest
  | [] => []
  end.
Definition demo_url_parse (q : bytes) : list (bytes * bytes) :=
  (λ piece, (demo_decode (pair_parts piece).1, demo_decode (pair_parts piece).2))
  <$> filter (λ piece, piece ≠ []) (split_on is_amp q).

Definition demo_head : bytes :=
  lit "POST /?query_id=one&Database=default HTTP/1.1" ++ CRLF
  ++ lit "Host: example" ++ CRLF ++ lit "Connection: keep-alive" ++ CRLF
  ++ lit "X-ClickHouse-User: app" ++ CRLF ++ CRLF.
Definition demo_http_request : bytes := demo_head ++ lit "SELECT 1".
Definition demo_parsed : ParsedRequest :=
  mkParsedRequest (length demo_head) (Some (lit "POST"))
    (Some (lit "/?query_id=one&Database=default")) (Some 1)
    [(lit "Host", lit "example"); (lit "Connection", lit "keep-alive");
     (lit "X-ClickHouse-User", lit "app")].
Definition demo_httparse (v : bytes) : option ParsedRequest :=
  if bool_decide (v = demo_http_request) then Some demo_parsed else None.

Lemma demo_decode_encode v : demo_decode (demo_encode v) = v.
Proof.
  induction v as [|b v IH]; [done|]. unfold demo_encode in *. rewrite bind_cons.
  cbn [app demo_decode]. rewrite bool_decide_true, IH by done. f_equal. by destruct b.
Qed.

Lemma demo_encode_plain v :
  Forall (λ b, b ≠ "&"%byte ∧ b ≠ "="%byte ∧ b ≠ x0d ∧ b ≠ x0a) (demo_encode v).
Proof.
  induction v as [|b v IH]; [constructor|]. unfold demo_encode in *. rewrite bind_cons.
  apply Forall_app. split; [|done].
  match goal with |- ?P => apply (bool_decide_eq_true_1 P) end. by destruct b.
Qed.

Lemma demo_parsed_lines :
  (∀ m, parsed_method demo_parsed = Some m → no_breaks m) ∧
  (∀ p, parsed_path demo_parsed = Some p → no_breaks p) ∧
  Forall (λ h, no_breaks h.1 ∧ no_breaks h.2) (parsed_headers demo_parsed).
Proof.
  split_and!.
  - intros m [= <-]. by apply no_breaks_check.
  - intros p [= <-]. by apply no_breaks_check.
  - repeat (constructor; [split; by apply no_breaks_check|]). constructor.
Qed.

#[export] Program Instance demo_libraries : HttpLibraries := {|
  httparse := demo_httparse;
  url_parse := demo_url_parse;
  url_pair := λ k v, demo_encode k ++ ["="%byte] ++ demo_encode v;
  base64_decode := λ _, None;
  url_decode := demo_decode;
  url_encode := demo_encode;
|}.
Next Obligation.
  intros v r. unfold demo_httparse. case_bool_decide; [|done]. intros [= <-].
  exact demo_parsed_lines.
Qed.
Next Obligation. done. Qed.
Next Obligation. done. Qed.
Next Obligation. done. Qed.
Next Obligation. intros v _. apply demo_decode_encode. Qed.
Next Obligation. apply demo_encode_plain. Qed.

Definition demo_parsed_head : HttpHead :=
  mkHttpHead (lit "POST") (lit "/?query_id=one&Database=default") 1 (parsed_headers demo_parsed)
    (length demo_head).

Definition demo_http_chunks : list bytes := [take 30 demo_http_request; drop 30 demo_http_request].

End HttpDemo.
Import HttpDemo ClickhouseDemo StoreDemo.

Lemma http_head_strict_witness :
  (∃ start, take (length demo_head) demo_http_request = start ++ HTTP_HEADER_TERMINATOR).
Proof.
  destruct (http_head_strict (H := demo_libraries) demo_http_request demo_parsed_head) as [Hs _].
  { vm_compute. reflexivity. }
  exact Hs.
Defined.

Lemma http_request_rewritten_witness :
  ∃ out head, http_request_for_gateway demo_http_request (lit "analytics") = Ok out
    ∧ parse_http_head demo_http_request = Ok head.
Proof.
  destruct (http_request_for_gateway demo_http_request (lit "analytics")) as [out|e] eqn:E;
    [|vm_compute in E; discriminate E].
  destruct (http_request_rewritten demo_http_request (lit "analytics") out E ltac:(vm_compute; reflexivity))
    as (head & query & headers & Hh & _).
  exists out, head. split; [reflexivity|exact Hh].
Defined.

Lemma http_socket_beside_witness :
  clickhouse_http_socket_path (lit "/" ++ lit "run" ++ lit "/" ++ lit "c1" ++ lit "/" ++ lit "native.sock")
  = Some (lit "/run/c1/clickhouse-http.sock").
Proof.
  apply (http_socket_beside (lit "run") (lit "c1") (lit "native.sock"));
    (split; [done|split; [done|by repeat constructor]]).
Defined.

Lemma clickhouse_http_to_owner_witness :
  ∃ id endpoint session out reg',
    prepare_clickhouse_http demo_clickhouse_store demo_clickhouse_store demo_clickhouse_store
      demo_clickhouse_store demo_http_chunks (sessions_new 100 : Sessions Z)
    = (Ok (id, endpoint, session, out), [], reg')
    ∧ ∃ route database target,
        routed_to_owner demo_sha demo_clickhouse_store demo_clickhouse_store demo_clickhouse_store
          route.(ch_username) route.(ch_database) database target (sessions_new 100 : Sessions Z) reg'.
Proof.
  destruct (prepare_clickhouse_http demo_clickhouse_store demo_clickhouse_store
      demo_clickhouse_store demo_clickhouse_store demo_http_chunks (sessions_new 100 : Sessions Z))
    as [[r sent] reg'] eqn:E.
  pose proof (clickhouse_http_to_owner demo_sha demo_clickhouse_store demo_clickhouse_store
      demo_clickhouse_store demo_clickhouse_store demo_http_chunks (sessions_new 100 : Sessions Z)
      r sent reg' demo_clickhouse_reachable demo_clickhouse_reachable (exact_new 100) ltac:(done) E) as Ht.
  vm_compute in E. injection E as <- <- <-. do 5 eexists. split; [reflexivity|].
  destruct Ht as (rq & head & route & database & target & socket & _ & _ & _ & _ & Ho & _).
  exists route, database, target. exact Ho.
Defined.
