(* ===== verification/Capacity.v ===== *)
(** * Reservations of shared pools

    Models [server/placement/repository/capacity.rs] (reserving, provisioning,
    releasing and resizing the capacity of a tenant), [get_reservation] and
    [claim_matches] of [reservations.rs], [save_with_quarantine] and [delete] of
    [runtime.rs] in the same directory, [pool_disk_mib] of
    [server/placement/policy.rs], the reservation part of the two cut-overs of
    [server/placement/migration/commit.rs], and the rows the instance repository
    writes, on the three tables these functions share.

    The tables carry the constraints and triggers of [src/migrations]: checks,
    keys, unique indices and the triggers that tie an instance to its
    reservation.  A statement that violates one fails, and so may any statement
    for reasons of its own; a failed statement ends its transaction, which then
    leaves nothing behind.  Whether a commit happens, and whether the caller
    hears of it, is up to the environment ([Commit]).

    CPU cores are the bits of their [f64]; for the positive finite numbers that
    pass validation the order of the bits is the order of the numbers. *)
From Stdlib Require Import Strings.Byte.
From S2P Require Import Prelude Bytes Engines RouteStore Placement.

Local Open Scope Z_scope.

(** ** Tables *)

Record RuntimeRow := mkRuntimeRow {
  rt_protocol : Protocol;
  rt_mode : DeploymentMode;
  rt_owner : option PoolOwner;
  rt_status : EngineRuntimeStatus;
  rt_desired : DesiredInstanceState;
  rt_max_tenants : Z;
  rt_limit_disk : Z;
  rt_tenants : Z;
  rt_reserved : Z;
}.
#[export] Instance RuntimeRow_eta : Settable RuntimeRow :=
  λ r, mkRuntimeRow (rt_protocol r) (rt_mode r) (rt_owner r) (rt_status r) (rt_desired r)
    (rt_max_tenants r) (rt_limit_disk r) (rt_tenants r) (rt_reserved r).

Record TenantReservation := mkTenantReservation {
  tr_runtime : string;
  tr_database : string;
  tr_username : string;
  tr_state : TenantReservationState;
  tr_cpu : Z;
  tr_memory : Z;
  tr_disk : Z;
  tr_owner : PoolOwner;
}.
#[export] Instance TenantReservation_eta : Settable TenantReservation :=
  λ r, mkTenantReservation (tr_runtime r) (tr_database r) (tr_username r) (tr_state r) (tr_cpu r)
    (tr_memory r) (tr_disk r) (tr_owner r).
#[export] Instance TenantReservationState_eq_dec : EqDecision TenantReservationState.
Proof. solve_decision. Defined.

Record MetaRow := mkMetaRow {
  mt_protocol : Protocol;
  mt_mode : DeploymentMode;
  mt_runtime : string;
  mt_database : string;
  mt_username : string;
  mt_cpu : Z;
  mt_memory : Z;
  mt_disk : Z;
  mt_status : InstanceStatus;
  mt_owner : option PoolOwner;
}.
#[export] Instance MetaRow_eta : Settable MetaRow :=
  λ m, mkMetaRow (mt_protocol m) (mt_mode m) (mt_runtime m) (mt_database m) (mt_username m)
    (mt_cpu m) (mt_memory m) (mt_disk m) (mt_status m) (mt_owner m).

Record Db := mkDb {
  runtimes : gmap string RuntimeRow;
  reservations : gmap string TenantReservation;
  metadata : gmap string MetaRow;
}.
#[export] Instance Db_eta : Settable Db := λ d, mkDb (runtimes d) (reservations d) (metadata d).

(** [SUM] over the reservations of a pool. *)
Definition part (f : TenantReservation → Z) (rid : string) (r : TenantReservation) : Z :=
  if bool_decide (tr_runtime r = rid) then f r else 0.
Definition reserved_total (f : TenantReservation → Z) (rid : string)
    (rs : gmap string TenantReservation) : Z :=
  map_fold (λ _ r acc, part f rid r + acc) 0 rs.
Definition tenants_of (rid : string) (d : Db) : Z := reserved_total (λ _, 1) rid (reservations d).
Definition disk_of (rid : string) (d : Db) : Z := reserved_total tr_disk rid (reservations d).

(** ** Errors and transactions *)

Inductive PlacementRepositoryError :=
  | Sqlx (e : string)
  | UnsupportedSharedProtocol (p : Protocol)
  | RuntimeNotFound (id : string)
  | CapacityUnavailable (id : string)
  | AlreadyReserved (id : string)
  | ReservationNotFound (id : string)
  | ReservationNotAttached (id : string)
  | DatabaseInUse (rid database : string)
  | UsernameInUse (rid username : string)
  | InstanceStillAttached (id : string)
  | InvalidReservation (e : string)
  | InvalidValue (field value : string)
  | InvalidInteger (field : string) (value : Z)
  | IntegerOverflow (field : string) (value : Z).

(** A transaction sees the tables as it has changed them, and the faults that
    await its statements. *)
Definition Tx (A : Type) : Type :=
  Db * list bool → result PlacementRepositoryError (A * (Db * list bool)).
#[export] Instance Tx_ret : MRet Tx := λ A a s, Ok (a, s).
#[export] Instance Tx_bind : MBind Tx := λ A B f m s,
  match m s with Ok (a, s) => f a s | Err e => Err e end.

Definition tx_fail {A} (e : PlacementRepositoryError) : Tx A := λ _, Err e.
Definition tx_lift {A} (r : result PlacementRepositoryError A) : Tx A := λ s,
  match r with Ok a => Ok (a, s) | Err e => Err e end.
Definition tx_require (e : PlacementRepositoryError) (b : bool) : Tx unit :=
  if b then mret tt else tx_fail e.

(** One statement; its result, or the constraint it violates. *)
Definition statement {A} (f : Db → result string (A * Db)) : Tx A := λ '(d, faults),
  match faults with
  | true :: _ => Err (Sqlx "disk I/O error")
  | _ =>
      match f d with
      | Ok (a, d) => Ok (a, (d, tail faults))
      | Err e => Err (Sqlx e)
      end
  end.
Definition select {A} (f : Db → A) : Tx A := statement (λ d, Ok (f d, d)).
Definition begin_immediate : Tx unit := select (λ _, tt).

Inductive Ended (A : Type) :=
  | TxFailed (e : PlacementRepositoryError)
  | CommitDone (a : A)
  | CommitFailed (a : A) (e : PlacementRepositoryError).
Arguments TxFailed {A}. Arguments CommitDone {A}. Arguments CommitFailed {A}.

Definition run_tx {A} (m : Tx A) (commit : Commit) (d : Db) (faults : list bool) :
    Ended A * Db * list bool :=
  match m (d, faults) with
  | Err e => (TxFailed e, d, tail faults)
  | Ok (a, (d', faults)) =>
      match commit with
      | Committed => (CommitDone a, d', faults)
      | RolledBack e => (CommitFailed a (Sqlx e), d, faults)
      | CommittedUnseen e => (CommitFailed a (Sqlx e), d', faults)
      end
  end.

Definition u64_to_i64 (field : string) (v : Z) : result PlacementRepositoryError Z :=
  if v <=? i64_max then Ok v else Err (IntegerOverflow field v).
Definition i64_to_u64 (field : string) (v : Z) : result PlacementRepositoryError Z :=
  if 0 <=? v then Ok v else Err (InvalidInteger field v).

(** ** Constraints *)

(** The checks of [engine_runtimes]. *)
Definition runtime_checks (r : RuntimeRow) : bool :=
  (0 <? rt_max_tenants r) && (0 <=? rt_tenants r) && (rt_tenants r <=? rt_max_tenants r)
  && (0 <? rt_limit_disk r) && (0 <=? rt_reserved r) && (rt_reserved r <=? rt_limit_disk r)
  && (bool_decide (rt_mode r = Dedicated) || bool_decide (shared_pool (rt_protocol r) ≠ None))
  && (bool_decide (rt_mode r ≠ Dedicated) || (rt_max_tenants r =? 1)).

Definition put_runtime (rid : string) (r : RuntimeRow) (d : Db) : result string Db :=
  if runtime_checks r then Ok (d <| runtimes ::= <[rid := r]> |>)
  else Err "CHECK constraint failed: engine_runtimes".

Definition any_reservation (p : string → TenantReservation → bool) (d : Db) : bool :=
  existsb (λ '(id, r), p id r) (map_to_list (reservations d)).
Definition any_metadata (p : string → MetaRow → bool) (d : Db) : bool :=
  existsb (λ '(id, m), p id m) (map_to_list (metadata d)).
Definition any_runtime (p : string → RuntimeRow → bool) (d : Db) : bool :=
  existsb (λ '(id, r), p id r) (map_to_list (runtimes d)).

Definition is_shared (mode : DeploymentMode) : bool := bool_decide (mode = SharedMode).

(** An instance is attached while its metadata is that of a shared tenant. *)
Definition attached (id : string) (d : Db) : bool :=
  match metadata d !! id with Some m => is_shared (mt_mode m) | None => false end.

(** The triggers before an insert into [engine_runtime_reservations], its keys,
    unique indices and checks.  The checks of the names and of the CPU cores
    repeat [check_request], which every insert has passed. *)
Definition insert_reservation (id : string) (r : TenantReservation) (d : Db) : result string Db :=
  match runtimes d !! tr_runtime r with
  | None => Err "runtime reservations require a shared runtime"
  | Some rt =>
      if negb (is_shared (rt_mode rt)) then Err "runtime reservations require a shared runtime"
      else if negb (bool_decide (rt_owner rt = Some (tr_owner r)))
      then Err "reservation owner must match pool owner"
      else if bool_decide (reservations d !! id ≠ None) then Err "UNIQUE constraint failed: instance_id"
      else if any_reservation (λ _ o, bool_decide (tr_runtime o = tr_runtime r)
                                      && bool_decide (tr_database o = tr_database r)) d
      then Err "UNIQUE constraint failed: database_name"
      else if any_reservation (λ _ o, bool_decide (tr_runtime o = tr_runtime r)
                                      && bool_decide (tr_username o = tr_username r)) d
      then Err "UNIQUE constraint failed: database_username"
      else if (tr_memory r <=? 0) || (tr_disk r <=? 0) then Err "CHECK constraint failed: reservation"
      else Ok (d <| reservations ::= <[id := r]> |>)
  end.

(** [trg_runtime_reservation_attached_delete]. *)
Definition delete_reservation (id : string) (d : Db) : result string Db :=
  if bool_decide (reservations d !! id ≠ None) && attached id d
  then Err "attached shared reservation cannot be deleted directly"
  else Ok (d <| reservations ::= delete id |>).

(** [UPDATE engine_runtime_reservations SET instance_id = new WHERE
    instance_id = old AND runtime_id = rid], with
    [trg_runtime_reservation_identity_update]: whether a row was changed. *)
Definition rename_reservation (old new rid : string) (d : Db) : result string (bool * Db) :=
  match reservations d !! old with
  | None => Ok (false, d)
  | Some r =>
      if negb (bool_decide (tr_runtime r = rid)) then Ok (false, d)
      else if attached old d && negb (bool_decide (new = old))
      then Err "attached shared reservation identity is immutable"
      else if negb (bool_decide (new = old)) && bool_decide (reservations d !! new ≠ None)
      then Err "UNIQUE constraint failed: instance_id"
      else Ok (true, d <| reservations := <[new := r]> (delete old (reservations d)) |>)
  end.

(** The triggers before an insert or update of [instance_metadata]: the runtime
    matches, a dedicated instance owns its runtime, and a shared one has exactly
    the reservation its metadata describes and the owner of its pool. *)
Definition exact_reservation (m : MetaRow) (r : TenantReservation) : bool :=
  bool_decide (tr_runtime r = mt_runtime m) && bool_decide (tr_database r = mt_database m)
  && bool_decide (tr_username r = mt_username m) && bool_decide (tr_state r = TenantProvisioned)
  && (tr_cpu r =? mt_cpu m) && (tr_memory r =? mt_memory m) && (tr_disk r =? mt_disk m).

Definition is_retired (s : InstanceStatus) : bool :=
  bool_decide (s = Quarantined) || bool_decide (s = Deleting).
Definition owner_matches (m : MetaRow) (rt : RuntimeRow) : bool :=
  bool_decide (is_Some (mt_owner m)) && bool_decide (rt_owner rt = mt_owner m).

Definition metadata_triggers (id : string) (m : MetaRow) (d : Db) : result string unit :=
  if bool_decide (mt_runtime m = "") then Err "instance runtime_id is required"
  else
    match runtimes d !! mt_runtime m with
    | None => Err "instance placement does not match its engine runtime"
    | Some rt =>
        if negb (bool_decide (rt_protocol rt = mt_protocol m))
           || negb (bool_decide (rt_mode rt = mt_mode m))
        then Err "instance placement does not match its engine runtime"
        else if bool_decide (mt_mode m = Dedicated) && negb (bool_decide (mt_runtime m = id))
        then Err "dedicated instance must own its runtime"
        else if is_shared (mt_mode m)
             && negb (match reservations d !! id with Some r => exact_reservation m r | None => false end)
        then Err "shared instance requires an exact runtime reservation"
        else if is_shared (mt_mode m) && negb (is_retired (mt_status m)) && negb (owner_matches m rt)
        then Err "tenant owner must match pool owner"
        else Ok tt
    end.

(** [owned_tenant_insert], which an upsert runs as well. *)
Definition owned_tenant_insert (id : string) (m : MetaRow) (d : Db) : result string unit :=
  let allowed :=
    match runtimes d !! mt_runtime m with Some rt => owner_matches m rt | None => false end in
  let unowned :=
    match metadata d !! id with
    | Some o => is_retired (mt_status m) && bool_decide (mt_runtime o = mt_runtime m)
                && is_retired (mt_status o) && bool_decide (mt_owner o = None)
    | None => false
    end in
  if is_shared (mt_mode m) && negb allowed && negb unowned
  then Err "tenant owner must match pool owner" else Ok tt.

(** [tenant_owner_immutable]. *)
Definition tenant_owner_immutable (id : string) (m : MetaRow) (d : Db) : result string unit :=
  match metadata d !! id with
  | Some o => if bool_decide (is_Some (mt_owner o)) && negb (bool_decide (mt_owner o = mt_owner m))
              then Err "tenant ownership is immutable" else Ok tt
  | None => Ok tt
  end.

(** The unique indices of [instance_metadata]. *)
Definition metadata_unique (id : string) (m : MetaRow) (d : Db) : result string unit :=
  if any_metadata (λ o_id o, negb (bool_decide (o_id = id)) && bool_decide (mt_mode o = mt_mode m)
       && bool_decide (mt_runtime o = mt_runtime m)
       && (bool_decide (mt_mode m = Dedicated) || bool_decide (mt_database o = mt_database m)
           || bool_decide (mt_username o = mt_username m))) d
  then Err "UNIQUE constraint failed: instance_metadata" else Ok tt.

Definition put_metadata (id : string) (m : MetaRow) (d : Db) : result string Db :=
  metadata_triggers id m d ≫= λ _, tenant_owner_immutable id m d ≫= λ _,
  metadata_unique id m d ≫= λ _, Ok (d <| metadata ::= <[id := m]> |>).

(** [sync_runtime_capacity]: the counters of a pool from its reservations.  The
    sum of a column that does not fit an integer is an error. *)
Definition sync_counters (rid : string) (d : Db) : result string (bool * Db) :=
  match runtimes d !! rid with
  | None => Ok (false, d)
  | Some rt =>
      if negb (is_shared (rt_mode rt)) then Ok (false, d)
      else if i64_max <? disk_of rid d then Err "integer overflow"
      else
        d' ← put_runtime rid (rt <| rt_tenants := tenants_of rid d |>
                                 <| rt_reserved := disk_of rid d |>) d;
        Ok (true, d')
  end.
Definition sync_runtime_capacity (rid : string) : Tx unit :=
  updated ← statement (sync_counters rid);
  tx_require (RuntimeNotFound rid) updated.

(** ** Policy *)

Definition ROOT_SPILL_DIVISOR : Z := 20.
Definition ROOT_SPILL_CAP_MIB : Z := 8 * 1024.

Definition engine_disk_overhead (p : Protocol) : option Z := disk_overhead_mib <$> shared_pool p.

Definition root_spill_mib (p : Protocol) (tenant_disk : Z) : option Z :=
  engine_disk_overhead p ≫= λ _,
  let rounded := div_ceil tenant_disk ROOT_SPILL_DIVISOR in
  Some (if rounded <? ROOT_SPILL_CAP_MIB then rounded else ROOT_SPILL_CAP_MIB).

Definition pool_disk_mib (p : Protocol) (tenant_disk : Z) : option Z :=
  overhead ← engine_disk_overhead p;
  spill ← root_spill_mib p tenant_disk;
  Some (u64_sat_add (u64_sat_add tenant_disk overhead) spill).

Definition pool_disk_limit (p : Protocol) (next : Z) : result PlacementRepositoryError Z :=
  limit ← ok_or (pool_disk_mib p next) (UnsupportedSharedProtocol p);
  u64_to_i64 "limit_disk_mib" limit.

(** The limits an instance asks for. *)
Record Limits := mkLimits { lim_cpu : Z; lim_memory : Z; lim_disk : Z }.

(** [MIN_CPU_CORES], [MAX_CPU_CORES] and infinity, as bits. *)
Definition MIN_CPU_CORES : Z := 0x3F847AE147AE147B.
Definition MAX_CPU_CORES : Z := 0x4090000000000000.
Definition F64_INFINITY : Z := 0x7FF0000000000000.
Definition MAX_MEMORY_MIB : Z := 1024 * 1024.

Inductive ResourceLimitError := InvalidCpuCores | CpuCoresTooHigh | InvalidMemory | MemoryTooHigh.

Definition validate_runtime_limits (cpu memory : Z) : result ResourceLimitError unit :=
  if (F64_INFINITY <=? cpu) || (cpu <? MIN_CPU_CORES) then Err InvalidCpuCores
  else if MAX_CPU_CORES <? cpu then Err CpuCoresTooHigh
  else if memory =? 0 then Err InvalidMemory
  else if MAX_MEMORY_MIB <? memory then Err MemoryTooHigh
  else Ok tt.

Definition check_reservation (l : Limits) : result PlacementRepositoryError unit :=
  match validate_runtime_limits (lim_cpu l) (lim_memory l) with
  | Err _ => Err (InvalidReservation "invalid limits")
  | Ok _ => if lim_disk l =? 0 then Err (InvalidReservation "disk_mib must be greater than zero")
            else Ok tt
  end.

Definition check_identity (field value : string) : result PlacementRepositoryError unit :=
  if bool_decide (value = "") || negb (bool_decide (trim (lit value) = lit value))
  then Err (InvalidValue field value) else Ok tt.

Definition is_valid_owner_key (value : string) : bool :=
  let v := lit value in
  negb (bool_decide (v = [])) && (zlength v <=? 128)
  && forallb (λ b, between 48 57 b || between 65 90 b || between 97 122 b
                   || bool_decide (b ∈ ["-"%byte; "_"%byte; "."%byte])) v.

Definition owner_check (o : PoolOwner) : result PlacementRepositoryError unit :=
  if is_valid_owner_key (panel_id o) && is_valid_owner_key (server_id o) then Ok tt
  else Err (InvalidReservation "invalid owner").

(** ** Reads *)

(** A query outside of a transaction may fail. *)
Definition db_query {A} (r : result PlacementRepositoryError A) (faults : list bool) :
    result PlacementRepositoryError A * list bool :=
  match faults with
  | true :: faults => (Err (Sqlx "disk I/O error"), faults)
  | _ => (r, tail faults)
  end.

Definition get_reservation (id : string) (d : Db) :
    result PlacementRepositoryError (option TenantReservation) :=
  match reservations d !! id with
  | Some r =>
      match runtimes d !! tr_runtime r with
      | Some _ =>
          i64_to_u64 "memory_mib" (tr_memory r) ≫= λ _,
          i64_to_u64 "disk_mib" (tr_disk r) ≫= λ _, Ok (Some r)
      | None => Ok None
      end
  | None => Ok None
  end.

(** [get], with the part of [EngineRuntime::check] that concerns these
    columns. *)
Definition read_runtime (r : RuntimeRow) : result PlacementRepositoryError RuntimeRow :=
  if (rt_tenants r <? 0) || (u32_max <? rt_tenants r)
  then Err (InvalidInteger "tenant_count" (rt_tenants r))
  else if (rt_max_tenants r <? 0) || (u32_max <? rt_max_tenants r)
  then Err (InvalidInteger "max_tenants" (rt_max_tenants r))
  else if rt_reserved r <? 0 then Err (InvalidInteger "reserved_disk_mib" (rt_reserved r))
  else if is_shared (rt_mode r) && bool_decide (shared_pool (rt_protocol r) = None)
  then Err (UnsupportedSharedProtocol (rt_protocol r))
  else if match rt_owner r with
          | Some o => negb (is_valid_owner_key (panel_id o) && is_valid_owner_key (server_id o))
          | None => is_shared (rt_mode r) && negb (bool_decide (rt_status r = PoolQuarantined))
                    && negb (bool_decide (rt_status r = PoolDeleting))
          end
  then Err (InvalidReservation "owner")
  else if (rt_limit_disk r =? 0) || (rt_max_tenants r =? 0)
          || (bool_decide (rt_mode r = Dedicated) && negb (rt_max_tenants r =? 1))
          || (rt_max_tenants r <? rt_tenants r) || (rt_limit_disk r <? rt_reserved r)
  then Err (InvalidReservation "limits")
  else Ok r.

Definition get_runtime (rid : string) (d : Db) : result PlacementRepositoryError RuntimeRow :=
  r ← ok_or (runtimes d !! rid) (RuntimeNotFound rid); read_runtime r.

(** ** Reserving *)

Record ReserveTenant := mkReserveTenant {
  rq_owner : PoolOwner;
  rq_instance : string;
  rq_runtime : string;
  rq_database : string;
  rq_username : string;
  rq_limits : Limits;
}.

Definition reservation_of (q : ReserveTenant) : TenantReservation :=
  mkTenantReservation (rq_runtime q) (rq_database q) (rq_username q) TenantReserved
    (lim_cpu (rq_limits q)) (lim_memory (rq_limits q)) (lim_disk (rq_limits q)) (rq_owner q).

(** [EXISTS(SELECT 1 ... UNION ALL SELECT 1 ...)] for one column. *)
Definition in_use (rid : string) (of_reservation : TenantReservation → string)
    (of_metadata : MetaRow → string) (value : string) (d : Db) : bool :=
  any_reservation (λ _ r, bool_decide (tr_runtime r = rid) && bool_decide (of_reservation r = value)) d
  || any_metadata (λ _ m, is_shared (mt_mode m) && bool_decide (mt_runtime m = rid)
                          && bool_decide (of_metadata m = value)) d.

(** The guarded [UPDATE] of [reserve]: whether it changed a row. *)
Definition claim_capacity (q : ReserveTenant) (limit : Z) (d : Db) : result string (bool * Db) :=
  match runtimes d !! rq_runtime q with
  | None => Ok (false, d)
  | Some rt =>
      if is_shared (rt_mode rt) && bool_decide (rt_owner rt = Some (rq_owner q))
         && bool_decide (rt_status rt = PoolRunning) && bool_decide (rt_desired rt = DesiredRunning)
         && (rt_tenants rt <? rt_max_tenants rt) && (limit <=? rt_limit_disk rt)
      then
        d' ← put_runtime (rq_runtime q)
               (rt <| rt_tenants ::= Z.add 1 |>
                   <| rt_reserved := rt_reserved rt + lim_disk (rq_limits q) |>) d;
        Ok (true, d')
      else Ok (false, d)
  end.

Definition reserve_tx (q : ReserveTenant) : Tx unit :=
  let rid := rq_runtime q in
  begin_immediate ≫= λ _,
  found ← select (λ d, runtimes d !! rid);
  rt ← tx_lift (ok_or found (RuntimeNotFound rid));
  reserved ← tx_lift (i64_to_u64 "reserved_disk_mib" (rt_reserved rt));
  next ← tx_lift (ok_or (checked_add u64_max reserved (lim_disk (rq_limits q)))
                   (InvalidReservation "shared runtime disk reservation overflow"));
  limit ← tx_lift (pool_disk_limit (rt_protocol rt) next);
  already ← select (λ d, bool_decide (reservations d !! rq_instance q ≠ None));
  tx_require (AlreadyReserved (rq_instance q)) (negb already) ≫= λ _,
  used ← select (λ d, (in_use rid tr_database mt_database (rq_database q) d,
                       in_use rid tr_username mt_username (rq_username q) d));
  tx_require (DatabaseInUse rid (rq_database q)) (negb used.1) ≫= λ _,
  tx_require (UsernameInUse rid (rq_username q)) (negb used.2) ≫= λ _,
  claimed ← statement (claim_capacity q limit);
  tx_require (CapacityUnavailable rid) claimed ≫= λ _,
  statement (λ d, d ← insert_reservation (rq_instance q) (reservation_of q) d; Ok (tt, d)) ≫= λ _,
  sync_runtime_capacity rid.

(** [claim_matches]. *)
Definition claim_matches (r : TenantReservation) (q : ReserveTenant) : bool :=
  bool_decide (tr_runtime r = rq_runtime q) && bool_decide (tr_database r = rq_database q)
  && bool_decide (tr_username r = rq_username q) && bool_decide (tr_state r = TenantReserved)
  && (tr_cpu r =? lim_cpu (rq_limits q)) && (tr_memory r =? lim_memory (rq_limits q))
  && (tr_disk r =? lim_disk (rq_limits q)).

Definition check_request (q : ReserveTenant) : result PlacementRepositoryError unit :=
  check_reservation (rq_limits q) ≫= λ _, owner_check (rq_owner q) ≫= λ _,
  check_identity "database_name" (rq_database q) ≫= λ _,
  check_identity "database_username" (rq_username q) ≫= λ _,
  u64_to_i64 "memory_mib" (lim_memory (rq_limits q)) ≫= λ _,
  u64_to_i64 "disk_mib" (lim_disk (rq_limits q)) ≫= λ _, Ok tt.

(** [reserve]: a commit that reports an error is looked up. *)
Definition reserve_tenant (q : ReserveTenant) (commit : Commit) (d : Db) (faults : list bool) :
    result PlacementRepositoryError RuntimeRow * Db :=
  match check_request q with
  | Err e => (Err e, d)
  | Ok _ =>
      match run_tx (reserve_tx q) commit d faults with
      | (TxFailed e, d, _) => (Err e, d)
      | (CommitDone _, d, faults) => ((db_query (get_runtime (rq_runtime q) d) faults).1, d)
      | (CommitFailed _ e, d, faults) =>
          let '(found, faults) := db_query (get_reservation (rq_instance q) d) faults in
          match found with
          | Ok (Some r) =>
              if claim_matches r q then ((db_query (get_runtime (rq_runtime q) d) faults).1, d)
              else (Err e, d)
          | _ => (Err e, d)
          end
      end
  end.

(** ** Provisioning *)

(** The [UPDATE] runs in a transaction of its own. *)
Definition provision_row (id : string) (d : Db) : result string (bool * Db) :=
  match reservations d !! id with
  | Some r => Ok (true, d <| reservations ::= <[id := r <| tr_state := TenantProvisioned |>]> |>)
  | None => Ok (false, d)
  end.

Definition existing (id : string) (r : result PlacementRepositoryError (option TenantReservation)) :
    result PlacementRepositoryError TenantReservation :=
  r ← r; ok_or r (ReservationNotFound id).

Definition mark_provisioned (id : string) (commit : Commit) (d : Db) (faults : list bool) :
    result PlacementRepositoryError TenantReservation * Db :=
  match run_tx (statement (provision_row id)) commit d faults with
  | (CommitDone true, d, faults) => (existing id (db_query (get_reservation id d) faults).1, d)
  | (CommitDone false, d, faults) =>
      (match (db_query (get_reservation id d) faults).1 with
       | Err e => Err e
       | Ok (Some r) => if bool_decide (tr_state r = TenantProvisioned) then Ok r
                        else Err (ReservationNotFound id)
       | Ok None => Err (ReservationNotFound id)
       end, d)
  | (TxFailed e, d, faults) | (CommitFailed _ e, d, faults) =>
      (* [recover_lost_provision_ack] *)
      let '(found, faults) := db_query (get_reservation id d) faults in
      match found with
      | Ok (Some r) =>
          if bool_decide (tr_state r = TenantProvisioned)
          then (existing id (db_query (get_reservation id d) faults).1, d)
          else (Err e, d)
      | _ => (Err e, d)
      end
  end.

(** ** Releasing *)

Definition release_tx (id : string) : Tx bool :=
  begin_immediate ≫= λ _,
  held ← select (attached id);
  tx_require (InstanceStillAttached id) (negb held) ≫= λ _,
  found ← select (λ d, r ← reservations d !! id; _ ← runtimes d !! tr_runtime r; Some r);
  match found with
  | None => mret false
  | Some r =>
      statement (λ d, d ← delete_reservation id d; Ok (tt, d)) ≫= λ _,
      sync_runtime_capacity (tr_runtime r) ≫= λ _, mret true
  end.

(** [release]: a transaction that finds nothing is dropped, not committed. *)
Definition release_tenant (id : string) (commit : Commit) (d : Db) (faults : list bool) :
    result PlacementRepositoryError bool * Db :=
  match release_tx id (d, faults) with
  | Ok (false, _) => (Ok false, d)
  | _ =>
      match run_tx (release_tx id) commit d faults with
      | (TxFailed e, d, _) => (Err e, d)
      | (CommitDone _, d, _) => (Ok true, d)
      | (CommitFailed _ e, d, faults) =>
          match (db_query (get_reservation id d) faults).1 with
          | Ok None => (Ok true, d)
          | _ => (Err e, d)
          end
      end
  end.

(** ** Resizing *)

Definition move_capacity (rid : string) (old_disk new_disk limit : Z) (d : Db) :
    result string (bool * Db) :=
  match runtimes d !! rid with
  | None => Ok (false, d)
  | Some rt =>
      if is_shared (rt_mode rt) && bool_decide (rt_status rt = PoolRunning) && (0 <? rt_tenants rt)
         && (old_disk <=? rt_reserved rt) && (limit <=? rt_limit_disk rt)
      then
        d' ← put_runtime rid (rt <| rt_reserved := rt_reserved rt - old_disk + new_disk |>) d;
        Ok (true, d')
      else Ok (false, d)
  end.

Definition resize_row (id : string) (l : Limits) (d : Db) : result string (bool * Db) :=
  match reservations d !! id with
  | None => Ok (false, d)
  | Some r =>
      if (lim_memory l <=? 0) || (lim_disk l <=? 0) then Err "CHECK constraint failed: reservation"
      else Ok (true, d <| reservations ::= <[id := r <| tr_cpu := lim_cpu l |>
                 <| tr_memory := lim_memory l |> <| tr_disk := lim_disk l |>]> |>)
  end.

Definition resize_metadata (id rid : string) (l : Limits) (d : Db) : result string (bool * Db) :=
  match metadata d !! id with
  | None => Ok (false, d)
  | Some m =>
      if is_shared (mt_mode m) && bool_decide (mt_runtime m = rid)
      then
        d' ← put_metadata id (m <| mt_cpu := lim_cpu l |> <| mt_memory := lim_memory l |>
                                <| mt_disk := lim_disk l |>) d;
        Ok (true, d')
      else Ok (false, d)
  end.

Definition resize_tx (id : string) (l : Limits) : Tx string :=
  begin_immediate ≫= λ _,
  found ← select (λ d, r ← reservations d !! id; rt ← runtimes d !! tr_runtime r; Some (r, rt));
  current ← tx_lift (ok_or found (ReservationNotFound id));
  let '(r, rt) := current in
  let rid := tr_runtime r in
  runtime_disk ← tx_lift (i64_to_u64 "reserved_disk_mib" (rt_reserved rt));
  old_disk ← tx_lift (i64_to_u64 "disk_mib" (tr_disk r));
  next ← tx_lift (ok_or (checked_sub runtime_disk old_disk ≫= λ left, checked_add u64_max left (lim_disk l))
                   (InvalidReservation "shared runtime disk resize overflow"));
  limit ← tx_lift (pool_disk_limit (rt_protocol rt) next);
  moved ← statement (move_capacity rid (tr_disk r) (lim_disk l) limit);
  tx_require (CapacityUnavailable rid) moved ≫= λ _,
  resized ← statement (resize_row id l);
  tx_require (ReservationNotFound id) resized ≫= λ _,
  described ← statement (resize_metadata id rid l);
  tx_require (ReservationNotAttached id) described ≫= λ _,
  sync_runtime_capacity rid ≫= λ _, mret rid.

Definition resize (id : string) (l : Limits) (commit : Commit) (d : Db) (faults : list bool) :
    result PlacementRepositoryError RuntimeRow * Db :=
  match (check_reservation l ≫= λ _, u64_to_i64 "memory_mib" (lim_memory l) ≫= λ _,
         u64_to_i64 "disk_mib" (lim_disk l)) with
  | Err e => (Err e, d)
  | Ok _ =>
      match run_tx (resize_tx id l) commit d faults with
      | (TxFailed e, d, _) | (CommitFailed _ e, d, _) => (Err e, d)
      | (CommitDone rid, d, faults) => ((db_query (get_runtime rid d) faults).1, d)
      end
  end.

(** ** Pools and instances *)

(** The triggers before an insert or an update of [engine_runtimes]. *)
Definition owned_pool_insert (rid : string) (p : RuntimeRow) (d : Db) : result string unit :=
  let pool_retired r := bool_decide (rt_status r = PoolQuarantined) || bool_decide (rt_status r = PoolDeleting) in
  let unowned := match rt_owner p with
                 | None => true
                 | Some o => bool_decide (panel_id o = "") || bool_decide (server_id o = "")
                 end in
  let legacy := match runtimes d !! rid with
                | Some old => bool_decide (rt_owner old = None) && pool_retired old && pool_retired p
                | None => false
                end in
  if is_shared (rt_mode p) && unowned && negb legacy
  then Err "shared pool requires a verified owner" else Ok tt.

Definition runtime_update_triggers (rid : string) (old new : RuntimeRow) (d : Db) : result string unit :=
  if any_metadata (λ _ m, bool_decide (mt_runtime m = rid)
       && (negb (bool_decide (mt_protocol m = rt_protocol new))
           || negb (bool_decide (mt_mode m = rt_mode new)))) d
     || any_reservation (λ _ r, bool_decide (tr_runtime r = rid)
       && (negb (bool_decide (rt_protocol new = rt_protocol old))
           || negb (is_shared (rt_mode new)))) d
  then Err "engine runtime identity is in use"
  else if (negb (bool_decide (rt_owner old = rt_owner new))
           || negb (bool_decide (rt_protocol old = rt_protocol new))
           || negb (bool_decide (rt_mode old = rt_mode new)))
          && negb (bool_decide (rt_mode old = Dedicated) && bool_decide (rt_mode new = Dedicated)
                   && bool_decide (rt_protocol old = rt_protocol new)
                   && bool_decide (rt_owner old = None) && bool_decide (is_Some (rt_owner new)))
  then Err "runtime ownership and protocol are immutable"
  else if is_shared (rt_mode new) && negb (bool_decide (rt_status new = PoolQuarantined))
          && negb (bool_decide (rt_status new = PoolDeleting)) && bool_decide (rt_owner new = None)
  then Err "unowned shared pool must remain quarantined"
  else Ok tt.

(** [uq_server_pool]. *)
Definition server_pool_unique (rid : string) (p : RuntimeRow) (d : Db) : result string unit :=
  if is_shared (rt_mode p) && bool_decide (is_Some (rt_owner p))
     && any_runtime (λ id r, negb (bool_decide (id = rid)) && is_shared (rt_mode r)
          && bool_decide (rt_owner r = rt_owner p) && bool_decide (rt_protocol r = rt_protocol p)) d
  then Err "UNIQUE constraint failed: uq_server_pool" else Ok tt.

(** The [INSERT ... ON CONFLICT] of [save_with_quarantine]: an existing row keeps
    its counters, and its limits too when the pool was read before they
    changed. *)
Definition save_pool_row (rid : string) (p : RuntimeRow) (d : Db) : result string (unit * Db) :=
  owned_pool_insert rid p d ≫= λ _,
  match runtimes d !! rid with
  | None => server_pool_unique rid p d ≫= λ _, d ← put_runtime rid p d; Ok (tt, d)
  | Some old =>
      let limit := if (rt_tenants old =? rt_tenants p) && (rt_reserved old =? rt_reserved p)
                   then rt_limit_disk p else rt_limit_disk old in
      let row := p <| rt_limit_disk := limit |> <| rt_tenants := rt_tenants old |>
                   <| rt_reserved := rt_reserved old |> in
      runtime_update_triggers rid old row d ≫= λ _,
      server_pool_unique rid row d ≫= λ _, d ← put_runtime rid row d; Ok (tt, d)
  end.

Definition repository_save (rid : string) (p : RuntimeRow) (commit : Commit) (d : Db)
    (faults : list bool) : result PlacementRepositoryError unit * Db :=
  match (read_runtime p ≫= λ _, u64_to_i64 "disk_mib" (rt_limit_disk p) ≫= λ _,
         u64_to_i64 "reserved_disk_mib" (rt_reserved p)) with
  | Err e => (Err e, d)
  | Ok _ =>
      match run_tx (statement (save_pool_row rid p)) commit d faults with
      | (TxFailed e, d, _) | (CommitFailed _ e, d, _) => (Err e, d)
      | (CommitDone _, d, _) => (Ok tt, d)
      end
  end.

(** [delete]: rows that refer to the runtime keep it. *)
Definition delete_runtime_row (rid : string) (d : Db) : result string (bool * Db) :=
  if any_reservation (λ _ r, bool_decide (tr_runtime r = rid)) d
     || any_metadata (λ _ m, bool_decide (mt_runtime m = rid)) d
  then Err "FOREIGN KEY constraint failed"
  else Ok (bool_decide (runtimes d !! rid ≠ None), d <| runtimes ::= delete rid |>).

(** [save_dedicated_runtime] on these columns. *)
Definition save_dedicated_row (id : string) (m : MetaRow) (d : Db) : result string (unit * Db) :=
  match runtimes d !! id with
  | None =>
      d ← put_runtime id (mkRuntimeRow (mt_protocol m) Dedicated (mt_owner m)
            (status_of_instance (mt_status m)) DesiredRunning 1 (mt_disk m) 0 0) d;
      Ok (tt, d)
  | Some old =>
      let row := old <| rt_status := status_of_instance (mt_status m) |>
                     <| rt_owner := mt_owner m |> <| rt_limit_disk := mt_disk m |> in
      runtime_update_triggers id old row d ≫= λ _, d ← put_runtime id row d; Ok (tt, d)
  end.

(** The two statements of the instance repository's upsert that touch these
    tables. *)
Definition upsert_instance_tx (id : string) (m : MetaRow) : Tx unit :=
  begin_immediate ≫= λ _,
  (if bool_decide (mt_mode m = Dedicated)
   then tx_require (InvalidReservation "dedicated runtime") (bool_decide (mt_runtime m = id)) ≫= λ _,
        statement (save_dedicated_row id m)
   else mret tt) ≫= λ _,
  statement (λ d, metadata_triggers id m d ≫= λ _, owned_tenant_insert id m d ≫= λ _,
                  d ← put_metadata id m d; Ok (tt, d)).

(** [DELETE FROM instance_metadata] with
    [trg_instance_release_runtime_reservation] and
    [trg_instance_delete_dedicated_runtime]. *)
Definition delete_instance_row (id : string) (d : Db) : result string (bool * Db) :=
  match metadata d !! id with
  | None => Ok (false, d)
  | Some m =>
      let d := d <| metadata ::= delete id |> in
      if negb (is_shared (mt_mode m)) then '(_, d) ← delete_runtime_row (mt_runtime m) d; Ok (true, d)
      else
        d ← delete_reservation id d;
        match runtimes d !! mt_runtime m with
        | None => Ok (true, d)
        | Some rt =>
            if i64_max <? disk_of (mt_runtime m) d then Err "integer overflow"
            else
              d' ← put_runtime (mt_runtime m)
                     (rt <| rt_tenants := tenants_of (mt_runtime m) d |>
                         <| rt_reserved := disk_of (mt_runtime m) d |>) d;
              Ok (true, d')
        end
  end.

(** ** Cut-overs *)

(** The tables' part of [commit_dedicated_to_shared]: [ready] is that the
    migration stands at the expected revision and its target is [m]. *)
Definition dedicated_to_shared_tx (ready : bool) (id provisional : string) (m : MetaRow) : Tx unit :=
  tx_require (InvalidReservation "cutover") (is_shared (mt_mode m) && ready) ≫= λ _,
  begin_immediate ≫= λ _,
  moved ← statement (rename_reservation provisional id (mt_runtime m));
  tx_require (ReservationNotFound provisional) moved ≫= λ _,
  placed ← statement (λ d,
    match metadata d !! id with
    | Some old =>
        if bool_decide (mt_protocol old = mt_protocol m) && bool_decide (mt_mode old = Dedicated)
           && bool_decide (mt_runtime old = id)
        then d' ← put_metadata id (m <| mt_protocol := mt_protocol old |>
                    <| mt_database := mt_database old |> <| mt_username := mt_username old |>) d;
             Ok (true, d')
        else Ok (false, d)
    | None => Ok (false, d)
    end);
  tx_require (InvalidReservation "source placement changed") placed.

(** The tables' part of [commit_shared_to_dedicated]: the source reservation is
    kept under the migration's id until its tenant is dropped. *)
Definition shared_to_dedicated_tx (ready : bool) (id retained source : string) (m : MetaRow) : Tx unit :=
  tx_require (InvalidReservation "cutover")
    (bool_decide (mt_mode m = Dedicated) && bool_decide (mt_runtime m = id) && ready) ≫= λ _,
  begin_immediate ≫= λ _,
  found ← select (λ d, reservations d !! id);
  r ← tx_lift (ok_or found (ReservationNotFound id));
  tx_require (InvalidReservation "source placement changed") (bool_decide (tr_runtime r = source)) ≫= λ _,
  placed ← statement (λ d,
    match metadata d !! id with
    | Some old =>
        if bool_decide (mt_protocol old = mt_protocol m) && is_shared (mt_mode old)
           && bool_decide (mt_runtime old = tr_runtime r)
        then d' ← put_metadata id (m <| mt_protocol := mt_protocol old |>
                    <| mt_database := mt_database old |> <| mt_username := mt_username old |>) d;
             Ok (true, d')
        else Ok (false, d)
    | None => Ok (false, d)
    end);
  tx_require (InvalidReservation "source placement changed") placed ≫= λ _,
  kept ← statement (rename_reservation id retained (tr_runtime r));
  tx_require (ReservationNotFound id) kept.

(** ** Histories *)

(** What the daemon does to the tables, in any order, with any faults and any
    outcome of the commits. *)
Inductive db_step : Db → Db → Prop :=
  | step_reserve q commit faults d r d' :
      reserve_tenant q commit d faults = (r, d') → db_step d d'
  | step_provision id commit faults d r d' :
      mark_provisioned id commit d faults = (r, d') → db_step d d'
  | step_release id commit faults d r d' :
      release_tenant id commit d faults = (r, d') → db_step d d'
  | step_resize id l commit faults d r d' :
      resize id l commit d faults = (r, d') → db_step d d'
  | step_save rid p commit faults d r d' :
      repository_save rid p commit d faults = (r, d') → db_step d d'
  | step_delete_pool rid commit faults d e d' fs :
      run_tx (statement (delete_runtime_row rid)) commit d faults = (e, d', fs) → db_step d d'
  | step_upsert id m commit faults d e d' fs :
      run_tx (upsert_instance_tx id m) commit d faults = (e, d', fs) → db_step d d'
  | step_delete id commit faults d e d' fs :
      run_tx (statement (delete_instance_row id)) commit d faults = (e, d', fs) → db_step d d'
  | step_to_shared ready id provisional m commit faults d e d' fs :
      run_tx (dedicated_to_shared_tx ready id provisional m) commit d faults = (e, d', fs) → db_step d d'
  | step_to_dedicated ready id retained source m commit faults d e d' fs :
      run_tx (shared_to_dedicated_tx ready id retained source m) commit d faults = (e, d', fs) →
      db_step d d'.

Definition empty_db : Db := mkDb ∅ ∅ ∅.
Definition db_reachable (d : Db) : Prop := rtc db_step empty_db d.

(** ** Sums *)

Lemma total_insert f rid rs id r :
  rs !! id = None → reserved_total f rid (<[id := r]> rs) = part f rid r + reserved_total f rid rs.
Proof.
  intros Hn. unfold reserved_total.
  rewrite (map_fold_insert_L (λ _ r acc, part f rid r + acc)); [done| |done]. intros. lia.
Qed.

Lemma total_delete f rid rs id r :
  rs !! id = Some r → reserved_total f rid (delete id rs) = reserved_total f rid rs - part f rid r.
Proof.
  intros Hr. rewrite <-(insert_delete_id rs id r) at 2 by done.
  rewrite total_insert by apply lookup_delete_eq. lia.
Qed.

Lemma total_update f rid rs id r r' :
  rs !! id = Some r → reserved_total f rid (<[id := r']> rs) = reserved_total f rid rs - part f rid r + part f rid r'.
Proof.
  intros Hr. rewrite <-insert_delete_eq, total_insert by apply lookup_delete_eq.
  rewrite (total_delete f rid rs id r) by done. lia.
Qed.

Lemma reserved_total_nonneg f rid rs :
  (∀ id r, rs !! id = Some r → 0 ≤ f r) → 0 ≤ reserved_total f rid rs.
Proof.
  induction rs as [|id r rs Hn IH] using map_ind; intros Hf; [done|].
  rewrite total_insert by done. assert (0 ≤ part f rid r).
  { unfold part. case_bool_decide; [|done]. apply (Hf id). apply lookup_insert_eq. }
  assert (0 ≤ reserved_total f rid rs); [|lia]. apply IH. intros i x Hx. apply (Hf i).
  rewrite lookup_insert_ne; [done|]. intros ->. congruence.
Qed.

Lemma total_none f rid rs :
  (∀ id r, rs !! id = Some r → tr_runtime r ≠ rid) → reserved_total f rid rs = 0.
Proof.
  induction rs as [|id r rs Hn IH] using map_ind; intros Hf; [done|].
  rewrite total_insert by done. unfold part. rewrite bool_decide_false.
  - apply IH. intros i x Hx. apply (Hf i). rewrite lookup_insert_ne; [done|]. intros ->. congruence.
  - apply (Hf id). apply lookup_insert_eq.
Qed.

(** ** Statements *)

Lemma tx_bind_Ok {A B} (m : Tx A) (f : A → Tx B) s b s' :
  (m ≫= f) s = Ok (b, s') → ∃ a s1, m s = Ok (a, s1) ∧ f a s1 = Ok (b, s').
Proof.
  unfold mbind, Tx_bind. destruct (m s) as [[a s1]|e]; [|done]. eauto.
Qed.

Lemma statement_Ok {A} (f : Db → result string (A * Db)) d fs a s' :
  statement f (d, fs) = Ok (a, s') → ∃ d' fs', s' = (d', fs') ∧ f d = Ok (a, d').
Proof.
  unfold statement. destruct fs as [|[] fs]; cbn; [|done|];
    destruct (f d) as [[x d']|e]; try done; intros [= <- <-]; eauto.
Qed.

Lemma select_Ok {A} (f : Db → A) d fs a s' :
  select f (d, fs) = Ok (a, s') → ∃ fs', s' = (d, fs') ∧ a = f d.
Proof. intros (d' & fs' & -> & [= <- <-])%statement_Ok. eauto. Qed.

Lemma tx_require_Ok e b s x s' : tx_require e b s = Ok (x, s') → b = true ∧ s' = s.
Proof. destruct b; [by intros [= _ <-]|done]. Qed.

Lemma tx_lift_Ok {A} (r : result PlacementRepositoryError A) s a s' :
  tx_lift r s = Ok (a, s') → r = Ok a ∧ s' = s.
Proof. unfold tx_lift. destruct r; [by intros [= <- <-]|done]. Qed.

Lemma any_reservation_false p d :
  any_reservation p d = false → ∀ id r, reservations d !! id = Some r → p id r = false.
Proof.
  unfold any_reservation. intros Hf id r Hr. apply not_true_is_false. intros Hp.
  apply not_true_iff_false in Hf. apply Hf, existsb_exists. exists (id, r).
  split; [|done]. by apply list_elem_of_In, elem_of_map_to_list.
Qed.

Lemma any_metadata_false p d :
  any_metadata p d = false → ∀ id m, metadata d !! id = Some m → p id m = false.
Proof.
  unfold any_metadata. intros Hf id r Hr. apply not_true_is_false. intros Hp.
  apply not_true_iff_false in Hf. apply Hf, existsb_exists. exists (id, r).
  split; [|done]. by apply list_elem_of_In, elem_of_map_to_list.
Qed.

Lemma runtime_checks_bounds r :
  runtime_checks r = true →
  0 ≤ rt_tenants r ≤ rt_max_tenants r ∧ 0 ≤ rt_reserved r ≤ rt_limit_disk r.
Proof.
  unfold runtime_checks. rewrite !andb_true_iff, !Z.leb_le, !Z.ltb_lt. intuition.
Qed.

Lemma put_runtime_Ok rid r d d' :
  put_runtime rid r d = Ok d' → runtime_checks r = true ∧ d' = d <| runtimes ::= <[rid := r]> |>.
Proof. unfold put_runtime. destruct (runtime_checks r); [by intros [= <-]|done]. Qed.

(** [tx_run H] takes a transaction that succeeded apart: what its reads saw and
    its guards required, and which statements changed the tables. *)
Ltac tx_run H :=
  repeat match type of H with
  | (_ ≫= _) (_, _) = Ok (_, _) =>
      let a := fresh "a" in let s := fresh "s" in let Ht := fresh "Ht" in
      apply tx_bind_Ok in H as (a & s & Ht & H);
      lazymatch type of Ht with
      | begin_immediate _ = _ => apply select_Ok in Ht as (? & -> & _)
      | select _ _ = _ => apply select_Ok in Ht as (? & -> & ->)
      | tx_require _ _ _ = _ => apply tx_require_Ok in Ht as [Ht ->]
      | tx_lift _ _ = _ => apply tx_lift_Ok in Ht as [Ht ->]
      | statement _ _ = _ => apply statement_Ok in Ht as (? & ? & -> & Ht)
      | _ => idtac
      end
  end.

(** ** The invariant *)

(** Pools and reservations fit: a pool's counters cover its reservations and
    stay within its limits, and its maximum of tenants is a [u32]; every reservation is for disk of a shared pool of
    its owner; no two reservations of a pool share a database or a user. *)
Record pools_ok (d : Db) : Prop := {
  ok_counters rid rt : runtimes d !! rid = Some rt →
    runtime_checks rt = true ∧ tenants_of rid d ≤ rt_tenants rt ∧ disk_of rid d ≤ rt_reserved rt;
  ok_reserved id r : reservations d !! id = Some r →
    0 < tr_disk r ∧ ∃ rt, runtimes d !! tr_runtime r = Some rt ∧ rt_mode rt = SharedMode
                          ∧ rt_owner rt = Some (tr_owner r);
  ok_unique id id' r r' : reservations d !! id = Some r → reservations d !! id' = Some r' →
    tr_runtime r = tr_runtime r' → tr_database r = tr_database r' ∨ tr_username r = tr_username r' →
    id = id';
  ok_width rid rt : runtimes d !! rid = Some rt → rt_max_tenants rt ≤ u32_max;
}.

(** Every shared tenant holds exactly the reservation its metadata describes. *)
Definition tenants_ok (d : Db) : Prop :=
  ∀ id m, metadata d !! id = Some m → mt_mode m = SharedMode →
    ∃ r, reservations d !! id = Some r ∧ exact_reservation m r = true.

Definition db_ok (d : Db) : Prop := pools_ok d ∧ tenants_ok d.

(** The counters of a pool are those of its reservations. *)
Definition counters_exact (rid : string) (d : Db) : Prop :=
  ∃ rt, runtimes d !! rid = Some rt ∧ rt_tenants rt = tenants_of rid d ∧ rt_reserved rt = disk_of rid d.

Lemma sync_counters_Ok rid d d' :
  sync_counters rid d = Ok (true, d') →
  ∃ rt, runtimes d !! rid = Some rt ∧ rt_mode rt = SharedMode ∧
    let rt' := rt <| rt_tenants := tenants_of rid d |> <| rt_reserved := disk_of rid d |> in
    runtime_checks rt' = true ∧ d' = d <| runtimes ::= <[rid := rt']> |>.
Proof.
  unfold sync_counters. destruct (runtimes d !! rid) as [rt|]; [|done].
  unfold is_shared. case_bool_decide as Hm; [|done]. cbn [negb].
  destruct (_ <? _); [done|]. intros (d1 & [Hc ->]%put_runtime_Ok & [= <-])%bind_Ok.
  by exists rt.
Qed.

Lemma sync_Ok rid d fs a s' :
  sync_runtime_capacity rid (d, fs) = Ok (a, s') → ∃ d' fs', s' = (d', fs') ∧ sync_counters rid d = Ok (true, d').
Proof.
  unfold sync_runtime_capacity. intros H. tx_run H. apply tx_require_Ok in H as [-> ->]. eauto.
Qed.

Lemma insert_reservation_Ok id r d d' :
  insert_reservation id r d = Ok d' →
  ∃ rt, runtimes d !! tr_runtime r = Some rt ∧ rt_mode rt = SharedMode
    ∧ rt_owner rt = Some (tr_owner r) ∧ reservations d !! id = None ∧ (0 < tr_memory r ∧ 0 < tr_disk r)
    ∧ (∀ i o, reservations d !! i = Some o → tr_runtime o = tr_runtime r →
         tr_database o ≠ tr_database r ∧ tr_username o ≠ tr_username r)
    ∧ d' = d <| reservations ::= <[id := r]> |>.
Proof.
  unfold insert_reservation. destruct (runtimes d !! tr_runtime r) as [rt|]; [|done].
  unfold is_shared. case_bool_decide as Hm; [|done]. cbn [negb].
  case_bool_decide as Ho; [|done]. cbn [negb]. case_bool_decide as Hn; [done|].
  destruct (any_reservation _ d) eqn:H1; [done|]. destruct (any_reservation _ d) eqn:H2 in |- *; [done|].
  destruct (_ || _) eqn:Hd; [done|]. apply orb_false_iff in Hd as [Hmem%Z.leb_gt Hd%Z.leb_gt]. intros [= <-].
  exists rt. split_and!; try done.
  intros i o Hi Hr. pose proof (any_reservation_false _ _ H1 i o Hi) as Hdb.
  pose proof (any_reservation_false _ _ H2 i o Hi) as Hus.
  cbv beta in Hdb, Hus. rewrite bool_decide_true in Hdb, Hus by done. cbn in Hdb, Hus.
  by apply bool_decide_eq_false in Hdb, Hus.
Qed.

Lemma claim_capacity_Ok q limit d d' :
  claim_capacity q limit d = Ok (true, d') →
  ∃ rt, runtimes d !! rq_runtime q = Some rt ∧ rt_mode rt = SharedMode
    ∧ rt_owner rt = Some (rq_owner q) ∧ rt_status rt = PoolRunning ∧ rt_desired rt = DesiredRunning
    ∧ rt_tenants rt < rt_max_tenants rt ∧ limit ≤ rt_limit_disk rt
    ∧ d' = d <| runtimes ::= <[rq_runtime q := rt <| rt_tenants ::= Z.add 1 |>
                 <| rt_reserved := rt_reserved rt + lim_disk (rq_limits q) |>]> |>.
Proof.
  unfold claim_capacity. destruct (runtimes d !! _) as [rt|]; [|done].
  destruct (_ && _) eqn:Hg; [|done]. intros (d1 & [_ ->]%put_runtime_Ok & [= <-])%bind_Ok.
  apply andb_true_iff in Hg as [Hg Hl%Z.leb_le]. apply andb_true_iff in Hg as [Hg Ht%Z.ltb_lt].
  apply andb_true_iff in Hg as [Hg Hd%bool_decide_eq_true].
  apply andb_true_iff in Hg as [Hg Hs%bool_decide_eq_true].
  apply andb_true_iff in Hg as [Hm%bool_decide_eq_true Ho%bool_decide_eq_true]. by exists rt.
Qed.

(** The pool after a reservation. *)
Definition reserved_row (q : ReserveTenant) (d : Db) (rt : RuntimeRow) : RuntimeRow :=
  rt <| rt_tenants := 1 + tenants_of (rq_runtime q) d |>
     <| rt_reserved := lim_disk (rq_limits q) + disk_of (rq_runtime q) d |>.

(** A reservation that gets through its transaction. *)
Record reserved_from (q : ReserveTenant) (d d' : Db) (rt : RuntimeRow) (limit : Z) : Prop := {
  rf_pool : runtimes d !! rq_runtime q = Some rt;
  rf_mode : rt_mode rt = SharedMode;
  rf_owner : rt_owner rt = Some (rq_owner q);
  rf_running : rt_status rt = PoolRunning ∧ rt_desired rt = DesiredRunning;
  rf_room : rt_tenants rt < rt_max_tenants rt;
  rf_limit : pool_disk_limit (rt_protocol rt) (rt_reserved rt + lim_disk (rq_limits q)) = Ok limit;
  rf_disk : limit ≤ rt_limit_disk rt;
  rf_fresh : reservations d !! rq_instance q = None;
  rf_positive : 0 < lim_memory (rq_limits q) ∧ 0 < lim_disk (rq_limits q);
  rf_names id r : reservations d !! id = Some r → tr_runtime r = rq_runtime q →
    tr_database r ≠ rq_database q ∧ tr_username r ≠ rq_username q;
  rf_checks : runtime_checks (reserved_row q d rt) = true;
  rf_result : d' = mkDb (<[rq_runtime q := reserved_row q d rt]> (runtimes d))
                        (<[rq_instance q := reservation_of q]> (reservations d)) (metadata d);
}.

Lemma reserve_tx_Ok q d fs a s' :
  reserve_tx q (d, fs) = Ok (a, s') → ∃ rt limit, reserved_from q d s'.1 rt limit.
Proof.
  unfold reserve_tx. intros Hx. tx_run Hx. rename a1 into rt, a4 into limit. subst a8.
  apply ok_or_Ok in Ht. apply ok_or_Ok, checked_add_Some in Ht1 as [-> _].
  unfold i64_to_u64 in Ht0. destruct (0 <=? rt_reserved rt); [|done]. injection Ht0 as <-.
  apply claim_capacity_Ok in Ht6 as (rt' & Hrt & Hm & Ho & Hs & Hd & Hroom & Hdisk & ->).
  rewrite Ht in Hrt. injection Hrt as <-.
  apply bind_Ok in Ht8 as (d2 & Hi & [= _ <-]).
  apply insert_reservation_Ok in Hi as (? & _ & _ & _ & Hf & Hpos & Hn & ->). cbn in Hf, Hpos, Hn.
  apply sync_Ok in Hx as (d' & fs' & -> & Hy).
  apply sync_counters_Ok in Hy as (rt' & Hrt & _ & Hc & ->).
  cbn in Hrt. rewrite lookup_insert_eq in Hrt. injection Hrt as <-.
  exists rt, limit. unfold tenants_of, disk_of in Hc |- *. cbn in Hc |- *.
  rewrite !total_insert in Hc |- * by done. unfold part in Hc |- *. cbn in Hc |- *.
  rewrite bool_decide_true in Hc |- * by done.
  split; try done. unfold reserved_row, tenants_of, disk_of, set_with; cbn. by rewrite insert_insert_eq.
Qed.

(** ** What each change of a table keeps *)

Lemma pools_set_runtime rid rt' d :
  pools_ok d → runtime_checks rt' = true → rt_max_tenants rt' ≤ u32_max →
  tenants_of rid d ≤ rt_tenants rt' → disk_of rid d ≤ rt_reserved rt' →
  (∀ id r, reservations d !! id = Some r → tr_runtime r = rid →
     rt_mode rt' = SharedMode ∧ rt_owner rt' = Some (tr_owner r)) →
  pools_ok (d <| runtimes ::= <[rid := rt']> |>).
Proof.
  intros [Hc Hr Hu Hw] Hck Hx Ht Hd Hm. split; cbn; [| |exact Hu|].
  - intros rid' rt. destruct (decide (rid' = rid)) as [->|Hne].
    + rewrite lookup_insert_eq. by intros [= <-].
    + rewrite lookup_insert_ne by done. apply Hc.
  - intros id r Hi. destruct (Hr id r Hi) as (Hp & rt & Hrt & Hmode & Ho). split; [done|].
    destruct (decide (tr_runtime r = rid)) as [E|Hne].
    + exists rt'. rewrite E, lookup_insert_eq. split; [done|]. by apply (Hm id).
    + exists rt. by rewrite lookup_insert_ne.
  - intros rid' rt [[<- <-]|[_ Hrt]]%lookup_insert_Some; [done|by eapply Hw].
Qed.

Lemma pools_insert id r d rt :
  pools_ok d → reservations d !! id = None → 0 < tr_disk r →
  runtimes d !! tr_runtime r = Some rt → rt_mode rt = SharedMode → rt_owner rt = Some (tr_owner r) →
  1 + tenants_of (tr_runtime r) d ≤ rt_tenants rt → tr_disk r + disk_of (tr_runtime r) d ≤ rt_reserved rt →
  (∀ i o, reservations d !! i = Some o → tr_runtime o = tr_runtime r →
     tr_database o ≠ tr_database r ∧ tr_username o ≠ tr_username r) →
  pools_ok (d <| reservations ::= <[id := r]> |>).
Proof.
  intros [Hc Hr Hu Hw] Hn Hp Hrt Hm Ho Ht Hd Hnames. split; cbn; [| | |exact Hw].
  - intros rid rt0 Hrt0. destruct (Hc rid rt0 Hrt0) as (Hck & Ht0 & Hd0). split; [done|].
    unfold tenants_of, disk_of in *. cbn. rewrite !total_insert by done. unfold part.
    case_bool_decide as E; [|lia]. subst rid. rewrite Hrt in Hrt0. injection Hrt0 as <-. lia.
  - intros id' r' [[<- <-]|[_ Hi]]%lookup_insert_Some; [eauto|]. by apply (Hr id').
  - intros i i' o o' [[<- <-]|[Hne Hi]]%lookup_insert_Some [[<- <-]|[Hne' Hi']]%lookup_insert_Some Er En.
    + done.
    + destruct (Hnames i' o' Hi'); [done|]. destruct En; congruence.
    + destruct (Hnames i o Hi Er) as [H1 H2]. destruct En; congruence.
    + by eapply Hu.
Qed.

Lemma pools_delete id d : pools_ok d → pools_ok (d <| reservations ::= delete id |>).
Proof.
  intros [Hc Hr Hu Hw]. split; cbn; [| | |exact Hw].
  - intros rid rt Hrt. destruct (Hc rid rt Hrt) as (Hck & Ht & Hd). split; [done|].
    unfold tenants_of, disk_of in *. cbn.
    destruct (reservations d !! id) as [r|] eqn:Hi; [|by rewrite delete_id].
    rewrite !(total_delete _ _ _ id r) by done. destruct (Hr id r Hi) as [Hp _].
    unfold part. case_bool_decide; lia.
  - intros id' r' [_ Hi]%lookup_delete_Some. by apply (Hr id').
  - intros i i' o o' [_ Hi]%lookup_delete_Some [_ Hi']%lookup_delete_Some. by eapply Hu.
Qed.

(** A reservation and the row of its pool change together. *)
Lemma pools_replace id r r' rt rt' d :
  pools_ok d → reservations d !! id = Some r → 0 < tr_disk r' →
  tr_runtime r' = tr_runtime r → tr_database r' = tr_database r → tr_username r' = tr_username r →
  tr_owner r' = tr_owner r →
  runtimes d !! tr_runtime r = Some rt → rt_mode rt' = rt_mode rt → rt_owner rt' = rt_owner rt →
  rt_max_tenants rt' = rt_max_tenants rt → runtime_checks rt' = true → tenants_of (tr_runtime r) d ≤ rt_tenants rt' →
  disk_of (tr_runtime r) d - tr_disk r + tr_disk r' ≤ rt_reserved rt' →
  pools_ok (mkDb (<[tr_runtime r := rt']> (runtimes d)) (<[id := r']> (reservations d)) (metadata d)).
Proof.
  intros [Hc Hr Hu Hw] Hi Hp E1 E2 E3 E4 Hrt Em Eo Ex Hck Htn Hs.
  assert (Hrow : ∀ i o, reservations d !! i = Some o →
    ∃ row, <[tr_runtime r := rt']> (runtimes d) !! tr_runtime o = Some row ∧ rt_mode row = SharedMode
           ∧ rt_owner row = Some (tr_owner o)).
  { intros i o (_ & row & H1 & H2 & H3)%Hr. destruct (decide (tr_runtime r = tr_runtime o)) as [E|E].
    - exists rt'. rewrite <-E, lookup_insert_eq. rewrite <-E, Hrt in H1. injection H1 as <-.
      split_and!; congruence.
    - exists row. by rewrite lookup_insert_ne. }
  split; cbn.
  - intros rid row Hrow'. unfold tenants_of, disk_of in *. cbn.
    rewrite !(total_update _ _ _ id r) by done. unfold part. rewrite E1. case_bool_decide as E.
    + subst rid. rewrite lookup_insert_eq in Hrow'. injection Hrow' as <-. split; [done|lia].
    + rewrite lookup_insert_ne in Hrow' by done. destruct (Hc rid row Hrow') as (? & ? & ?).
      split; [done|lia].
  - intros i o [[<- <-]|[_ Hi']]%lookup_insert_Some.
    + split; [done|]. rewrite E1, E4. by apply (Hrow id).
    + split; [by apply (Hr i)|by apply (Hrow i)].
  - assert (Hold : ∀ i o, <[id := r']> (reservations d) !! i = Some o →
      ∃ o', reservations d !! i = Some o' ∧ tr_runtime o = tr_runtime o'
            ∧ tr_database o = tr_database o' ∧ tr_username o = tr_username o').
    { intros i o [[<- <-]|[_ Ho]]%lookup_insert_Some; eauto. }
    intros i i' o o' (x & Hx & -> & -> & ->)%Hold (x' & Hx' & -> & -> & ->)%Hold. by eapply Hu.
  - intros rid row [[<- <-]|[_ Hx]]%lookup_insert_Some; [rewrite Ex|]; by eapply Hw.
Qed.

Lemma pools_rename old new r d :
  pools_ok d → reservations d !! old = Some r → new = old ∨ reservations d !! new = None →
  pools_ok (d <| reservations := <[new := r]> (delete old (reservations d)) |>).
Proof.
  intros [Hc Hr Hu Hw] Hi Hn. assert (Hf : delete old (reservations d) !! new = None).
  { destruct Hn as [->|Hn]; [apply lookup_delete_eq|]. apply lookup_delete_None. by right. }
  split; cbn; [| | |exact Hw].
  - intros rid rt Hrt. destruct (Hc rid rt Hrt) as (Hck & Ht & Hd). split; [done|].
    unfold tenants_of, disk_of in *. cbn. rewrite !total_insert, !(total_delete _ _ _ old r) by done. lia.
  - intros id' o [[<- <-]|[_ [_ Hi']%lookup_delete_Some]]%lookup_insert_Some; [by apply (Hr old)|].
    by apply (Hr id').
  - intros i i' o o' [[<- <-]|[Hne [Hne2 Hx]%lookup_delete_Some]]%lookup_insert_Some
      [[<- <-]|[Hne' [Hne2' Hx']%lookup_delete_Some]]%lookup_insert_Some Er En; [done|..].
    + destruct Hne2'. by eapply (Hu old i').
    + destruct Hne2. symmetry. by eapply (Hu i old).
    + by eapply Hu.
Qed.

Lemma pools_metadata f d : pools_ok d → pools_ok (d <| metadata ::= f |>).
Proof. intros [Hc Hr Hu Hw]. by split. Qed.

Lemma put_metadata_Ok id m d d' :
  put_metadata id m d = Ok d' →
  d' = d <| metadata ::= <[id := m]> |> ∧
  (mt_mode m = SharedMode → ∃ r, reservations d !! id = Some r ∧ exact_reservation m r = true).
Proof.
  unfold put_metadata. intros ([] & Ht & Hx)%bind_Ok. apply bind_Ok in Hx as ([] & _ & Hx).
  apply bind_Ok in Hx as ([] & _ & [= <-]). split; [done|]. intros Hm.
  unfold metadata_triggers in Ht. destruct (bool_decide (mt_runtime m = _)); [done|].
  destruct (runtimes d !! mt_runtime m) as [rt|]; [|done]. destruct (_ || _); [done|].
  rewrite (bool_decide_false (mt_mode m = Dedicated)) in Ht by congruence. cbn [andb] in Ht.
  unfold is_shared in Ht. rewrite (bool_decide_true _ Hm) in Ht. cbn [andb] in Ht.
  destruct (reservations d !! id) as [r|]; [|done]. destruct (exact_reservation m r) eqn:E; [|done].
  eauto.
Qed.

(** The tenants apart from [x]. *)
Definition tenants_but (x : string) (d : Db) : Prop :=
  ∀ id m, id ≠ x → metadata d !! id = Some m → mt_mode m = SharedMode →
    ∃ r, reservations d !! id = Some r ∧ exact_reservation m r = true.

Lemma tenants_put id m d d' :
  tenants_but id d → put_metadata id m d = Ok d' → tenants_ok d'.
Proof.
  intros Hb [-> He]%put_metadata_Ok. intros i o. cbn.
  intros [[<- <-]|[Hne Hi]]%lookup_insert_Some; [exact He|]. by apply Hb.
Qed.

Lemma tenants_but_ok x d : tenants_ok d → tenants_but x d.
Proof. intros Ht id m _. apply Ht. Qed.

Lemma tenants_insert id r d :
  tenants_ok d → reservations d !! id = None → tenants_ok (d <| reservations ::= <[id := r]> |>).
Proof.
  intros Ht Hn i m Hi Hm. cbn. destruct (Ht i m Hi Hm) as (o & Ho & He). exists o.
  rewrite lookup_insert_ne; [done|]. intros ->. congruence.
Qed.

Lemma tenants_delete id d :
  tenants_ok d → attached id d = false → tenants_ok (d <| reservations ::= delete id |>).
Proof.
  intros Ht Ha i m Hi Hm. cbn in Hi |- *. destruct (Ht i m Hi Hm) as (o & Ho & He). exists o.
  rewrite lookup_delete_ne; [done|]. intros ->. unfold attached, is_shared in Ha. rewrite Hi in Ha.
  by rewrite (bool_decide_true _ Hm) in Ha.
Qed.

Lemma delete_reservation_Ok id d d' :
  delete_reservation id d = Ok d' →
  d' = d <| reservations ::= delete id |> ∧ (reservations d !! id = None ∨ attached id d = false).
Proof.
  unfold delete_reservation. destruct (_ && _) eqn:E; [done|]. intros [= <-]. split; [done|].
  apply andb_false_iff in E as [E|E]; [|by right]. left.
  apply bool_decide_eq_false in E. destruct (reservations d !! id); [|done]. by destruct E.
Qed.

Lemma rename_reservation_Ok old new rid d d' :
  rename_reservation old new rid d = Ok (true, d') →
  ∃ r, reservations d !! old = Some r ∧ tr_runtime r = rid
    ∧ (attached old d = false ∨ new = old) ∧ (new = old ∨ reservations d !! new = None)
    ∧ d' = d <| reservations := <[new := r]> (delete old (reservations d)) |>.
Proof.
  unfold rename_reservation. destruct (reservations d !! old) as [r|]; [|done].
  case_bool_decide as Er; [|done]. cbn [negb].
  destruct (_ && _) eqn:E1; [done|]. destruct (_ && bool_decide (_ ≠ None)) eqn:E2; [done|].
  intros [= <-]. exists r. split_and!; try done.
  - apply andb_false_iff in E1 as [E1|E1]; [by left|right].
    by apply negb_false_iff, bool_decide_eq_true in E1.
  - apply andb_false_iff in E2 as [E2|E2]; [left|right].
    + by apply negb_false_iff, bool_decide_eq_true in E2.
    + apply bool_decide_eq_false in E2. destruct (reservations d !! new); [by destruct E2|done].
Qed.

Lemma tenants_rename old new r d :
  tenants_ok d → reservations d !! old = Some r → new = old ∨ reservations d !! new = None →
  attached old d = false ∨ new = old →
  tenants_ok (d <| reservations := <[new := r]> (delete old (reservations d)) |>).
Proof.
  intros Ht Hr Hn Ha i m Hi Hm. cbn in *. destruct (Ht i m Hi Hm) as (o & Ho & He).
  destruct (decide (new = i)) as [->|Hne].
  - rewrite lookup_insert_eq. exists r. split; [done|].
    destruct Hn as [->|Hn]; congruence.
  - rewrite lookup_insert_ne by done. exists o. rewrite lookup_delete_ne; [done|]. intros ->.
    destruct Ha as [Ha|Ha]; [|congruence]. unfold attached, is_shared in Ha. rewrite Hi in Ha.
    by rewrite (bool_decide_true _ Hm) in Ha.
Qed.

Lemma sync_ok rid d d' :
  db_ok d → sync_counters rid d = Ok (true, d') → db_ok d' ∧ counters_exact rid d'.
Proof.
  intros [Hp Ht] (rt & Hrt & Hm & Hc & ->)%sync_counters_Ok.
  split; [split|].
  - apply pools_set_runtime; [done|done|exact (ok_width _ Hp _ _ Hrt)|cbn; lia|cbn; lia|]. intros id r Hi E. subst rid.
    destruct (ok_reserved _ Hp id r Hi) as (_ & rt' & Hrt' & Hm' & Ho). rewrite Hrt in Hrt'.
    injection Hrt' as <-. done.
  - exact Ht.
  - eexists. cbn. rewrite lookup_insert_eq. split; [done|]. done.
Qed.

Lemma reserved_from_ok q d d' rt limit :
  db_ok d → reserved_from q d d' rt limit → db_ok d' ∧ counters_exact (rq_runtime q) d'.
Proof.
  intros [Hp Ht] Hf. rewrite (rf_result _ _ _ _ _ Hf). split; [split|].
  - set (d1 := d <| runtimes ::= <[rq_runtime q := reserved_row q d rt]> |>).
    apply (pools_insert (rq_instance q) (reservation_of q) d1 (reserved_row q d rt)); cbn.
    + apply pools_set_runtime; [done|apply (rf_checks _ _ _ _ _ Hf)| |cbn; lia| |].
      * apply (ok_width _ Hp _ _ (rf_pool _ _ _ _ _ Hf)).
      * destruct (rf_positive _ _ _ _ _ Hf). cbn. lia.
      * intros id r Hi E. destruct (ok_reserved _ Hp id r Hi) as (_ & rt' & Hrt' & Hm' & Ho).
        rewrite E, (rf_pool _ _ _ _ _ Hf) in Hrt'. injection Hrt' as <-. done.
    + apply (rf_fresh _ _ _ _ _ Hf).
    + apply (rf_positive _ _ _ _ _ Hf).
    + apply lookup_insert_eq.
    + apply (rf_mode _ _ _ _ _ Hf).
    + apply (rf_owner _ _ _ _ _ Hf).
    + done.
    + done.
    + apply (rf_names _ _ _ _ _ Hf).
  - exact (tenants_insert (rq_instance q) (reservation_of q)
      (d <| runtimes ::= <[rq_runtime q := reserved_row q d rt]> |>) Ht (rf_fresh _ _ _ _ _ Hf)).
  - eexists. cbn. rewrite lookup_insert_eq. split; [done|]. unfold tenants_of, disk_of. cbn.
    rewrite !total_insert by apply (rf_fresh _ _ _ _ _ Hf). unfold part. cbn.
    by rewrite bool_decide_true.
Qed.

(** ** Transactions keep the invariant *)

Lemma provision_ok id d b d' : db_ok d → provision_row id d = Ok (b, d') → db_ok d'.
Proof.
  intros [Hp Ht]. unfold provision_row. destruct (reservations d !! id) as [r|] eqn:Hr;
    intros [= <- <-]; [|done]. split.
  - destruct (ok_reserved _ Hp id r Hr) as (Hpos & rt & Hrt & _).
    destruct (ok_counters _ Hp _ _ Hrt) as (Hck & ? & ?).
    pose proof (pools_replace id r (r <| tr_state := TenantProvisioned |>) rt rt d Hp Hr) as Hx.
    rewrite insert_id in Hx by done. apply Hx; cbn; try done. lia.
  - intros i m Hi Hm. cbn in Hi |- *. destruct (Ht i m Hi Hm) as (o & Ho & He).
    destruct (decide (id = i)) as [->|Hne]; [|exists o; by rewrite lookup_insert_ne].
    rewrite lookup_insert_eq. eexists. split; [done|]. rewrite Hr in Ho. injection Ho as <-.
    unfold exact_reservation in He |- *. cbn in *. rewrite (bool_decide_true (TenantProvisioned = _)) by done.
    destruct (bool_decide (tr_state r = _)); [done|]. by rewrite !andb_false_r in He.
Qed.

Lemma release_ok id d fs s' :
  db_ok d → release_tx id (d, fs) = Ok (true, s') →
  db_ok s'.1 ∧ attached id d = false ∧
  ∃ r, reservations d !! id = Some r ∧ reservations s'.1 = delete id (reservations d)
       ∧ counters_exact (tr_runtime r) s'.1.
Proof.
  intros [Hp Ht] Hx. unfold release_tx in Hx. tx_run Hx.
  apply negb_true_iff in Ht0.
  destruct (reservations d !! id) as [r|] eqn:Hr; [|done].
  destruct (runtimes d !! tr_runtime r) as [rt|] eqn:Hrt; [|by cbn in Hx; rewrite Hrt in Hx].
  cbn [mbind option_bind] in Hx. rewrite Hrt in Hx. cbn in Hx. tx_run Hx.
  apply bind_Ok in Ht1 as (d1 & [-> _]%delete_reservation_Ok & [= _ <-]).
  apply sync_Ok in Ht2 as (d' & fs' & -> & Hs). injection Hx as <-. cbn [fst].
  assert (Hd : db_ok (d <| reservations ::= delete id |>)).
  { split; [by apply pools_delete|by apply tenants_delete]. }
  destruct (sync_ok _ _ _ Hd Hs) as [Hok Hex]. split; [done|]. split; [done|]. exists r.
  split; [done|]. split; [|done].
  apply sync_counters_Ok in Hs as (rt' & _ & _ & _ & ->). done.
Qed.

Definition resized (l : Limits) (r : TenantReservation) : TenantReservation :=
  r <| tr_cpu := lim_cpu l |> <| tr_memory := lim_memory l |> <| tr_disk := lim_disk l |>.
Definition resized_meta (l : Limits) (m : MetaRow) : MetaRow :=
  m <| mt_cpu := lim_cpu l |> <| mt_memory := lim_memory l |> <| mt_disk := lim_disk l |>.

Lemma move_capacity_Ok rid old new limit d d' :
  move_capacity rid old new limit d = Ok (true, d') →
  ∃ rt, runtimes d !! rid = Some rt ∧ rt_mode rt = SharedMode ∧ rt_status rt = PoolRunning
    ∧ limit ≤ rt_limit_disk rt
    ∧ d' = d <| runtimes ::= <[rid := rt <| rt_reserved := rt_reserved rt - old + new |>]> |>.
Proof.
  unfold move_capacity. destruct (runtimes d !! rid) as [rt|]; [|done].
  destruct (_ && _) eqn:Hg; [|done]. intros (d1 & [_ ->]%put_runtime_Ok & [= <-])%bind_Ok.
  apply andb_true_iff in Hg as [Hg Hl%Z.leb_le]. apply andb_true_iff in Hg as [Hg _].
  apply andb_true_iff in Hg as [Hg _].
  apply andb_true_iff in Hg as [Hm%bool_decide_eq_true Hs%bool_decide_eq_true]. by exists rt.
Qed.

(** A resize that gets through its transaction. *)
Record resized_from (id : string) (l : Limits) (d d' : Db) (rid : string) (r : TenantReservation)
    (rt : RuntimeRow) (m : MetaRow) (limit : Z) : Prop := {
  zf_reservation : reservations d !! id = Some r;
  zf_runtime : tr_runtime r = rid;
  zf_pool : runtimes d !! rid = Some rt;
  zf_mode : rt_mode rt = SharedMode ∧ rt_status rt = PoolRunning;
  zf_limit : pool_disk_limit (rt_protocol rt) (rt_reserved rt - tr_disk r + lim_disk l) = Ok limit;
  zf_disk : limit ≤ rt_limit_disk rt;
  zf_positive : 0 < lim_disk l;
  zf_metadata : metadata d !! id = Some m;
  zf_shared : mt_mode m = SharedMode;
  zf_exact : exact_reservation (resized_meta l m) (resized l r) = true;
  zf_result : ∃ row, rt_mode row = rt_mode rt ∧ rt_owner row = rt_owner rt
    ∧ rt_max_tenants row = rt_max_tenants rt ∧ runtime_checks row = true
    ∧ rt_limit_disk row = rt_limit_disk rt
    ∧ d' = mkDb (<[rid := row]> (runtimes d)) (<[id := resized l r]> (reservations d))
                (<[id := resized_meta l m]> (metadata d))
    ∧ rt_tenants row = tenants_of rid d' ∧ rt_reserved row = disk_of rid d';
}.

Lemma resize_row_Ok id l r d d' :
  reservations d !! id = Some r → resize_row id l d = Ok (true, d') →
  0 < lim_disk l ∧ d' = d <| reservations ::= <[id := resized l r]> |>.
Proof.
  intros Hr. unfold resize_row. rewrite Hr. destruct (_ || _) eqn:E; [done|]. intros [= <-].
  apply orb_false_iff in E as [_ E%Z.leb_gt]. done.
Qed.

Lemma resize_metadata_Ok id rid l d d' :
  resize_metadata id rid l d = Ok (true, d') →
  ∃ m, metadata d !! id = Some m ∧ mt_mode m = SharedMode
    ∧ d' = d <| metadata ::= <[id := resized_meta l m]> |>
    ∧ ∃ r, reservations d !! id = Some r ∧ exact_reservation (resized_meta l m) r = true.
Proof.
  unfold resize_metadata. destruct (metadata d !! id) as [m|]; [|done].
  destruct (_ && _) eqn:Hg; [|done]. apply andb_true_iff in Hg as [Hm%bool_decide_eq_true _].
  intros (d1 & [-> He]%put_metadata_Ok & [= <-])%bind_Ok. exists m. eauto.
Qed.

Lemma resize_tx_Ok id l d fs rid s' :
  resize_tx id l (d, fs) = Ok (rid, s') →
  ∃ r rt m limit, resized_from id l d s'.1 rid r rt m limit.
Proof.
  unfold resize_tx. intros Hx. tx_run Hx. apply ok_or_Ok in Ht.
  destruct a0 as [r rt]. apply bind_Some in Ht as (r' & Hr & Ht).
  apply bind_Some in Ht as (rt' & Hrt & [= -> ->]). tx_run Hx.
  unfold i64_to_u64 in Ht, Ht0. destruct (0 <=? rt_reserved rt); [|done]. injection Ht as <-.
  destruct (0 <=? tr_disk r); [|done]. injection Ht0 as <-.
  apply ok_or_Ok, bind_Some in Ht1 as (rest & [-> _]%checked_sub_Some & [-> _]%checked_add_Some).
  subst. apply move_capacity_Ok in Ht3 as (rt' & Hrt' & Hm & Hs & Hl & ->).
  rewrite Hrt in Hrt'. injection Hrt' as <-.
  apply (resize_row_Ok id l r) in Ht5 as [Hpos ->]; [|done].
  apply resize_metadata_Ok in Ht7 as (m & Hmeta & Hms & -> & r' & Hr' & He). cbn in Hr', Hmeta.
  rewrite lookup_insert_eq in Hr'. injection Hr' as <-.
  apply sync_Ok in Ht9 as (d' & fs' & -> & Hy). injection Hx as <- <-.
  apply sync_counters_Ok in Hy as (rt' & Hrt' & _ & Hc & ->). cbn in Hrt'.
  rewrite lookup_insert_eq in Hrt'. injection Hrt' as <-.
  exists r, rt, m, a3. split; try done. eexists. split_and!; [| | |exact Hc| | | |]; try done.
  unfold set_with. cbn. by rewrite insert_insert_eq.
Qed.

Lemma resized_from_ok id l d d' rid r rt m limit :
  db_ok d → resized_from id l d d' rid r rt m limit → db_ok d' ∧ counters_exact rid d'.
Proof.
  intros [Hp Ht] Hz. destruct (zf_result _ _ _ _ _ _ _ _ _ Hz) as (row & Em & Eo & Ex & Hck & _ & -> & Etn & Eds).
  pose proof (zf_reservation _ _ _ _ _ _ _ _ _ Hz) as Hr.
  pose proof (zf_runtime _ _ _ _ _ _ _ _ _ Hz) as <-.
  unfold tenants_of, disk_of in Etn, Eds. cbn in Etn, Eds.
  rewrite !(total_update _ _ _ id r) in Etn by done. rewrite !(total_update _ _ _ id r) in Eds by done.
  unfold part in Etn, Eds. cbn in Etn, Eds. rewrite !bool_decide_true in Etn, Eds by done.
  split; [split|].
  - refine (pools_metadata (<[id := resized_meta l m]>)
      (mkDb (<[tr_runtime r := row]> (runtimes d)) (<[id := resized l r]> (reservations d)) (metadata d)) _).
    apply (pools_replace id r (resized l r) rt row d); try done.
    + apply (zf_positive _ _ _ _ _ _ _ _ _ Hz).
    + apply (zf_pool _ _ _ _ _ _ _ _ _ Hz).
    + unfold tenants_of. lia.
    + unfold disk_of. cbn. lia.
  - intros i o Hi Hm. cbn in Hi |- *. apply lookup_insert_Some in Hi as [[<- <-]|[Hne Hi]].
    + rewrite lookup_insert_eq. eexists. split; [done|]. apply (zf_exact _ _ _ _ _ _ _ _ _ Hz).
    + rewrite lookup_insert_ne by done. by apply Ht.
  - exists row. cbn. rewrite lookup_insert_eq. split; [done|]. unfold tenants_of, disk_of. cbn.
    rewrite !(total_update _ _ _ id r) by done. unfold part. cbn. rewrite !bool_decide_true by done. lia.
Qed.

(** A row of a pool may change as long as it stays the pool of its reservations. *)
Lemma runtime_update_keeps rid old new d :
  pools_ok d → runtimes d !! rid = Some old → runtime_update_triggers rid old new d = Ok tt →
  ∀ id r, reservations d !! id = Some r → tr_runtime r = rid →
    rt_mode new = SharedMode ∧ rt_owner new = Some (tr_owner r).
Proof.
  intros Hp Hold. unfold runtime_update_triggers.
  destruct (any_metadata _ d || any_reservation _ d) eqn:Hu; [done|].
  apply orb_false_iff in Hu as [_ Hu]. destruct (_ && negb _) eqn:Hi; [done|]. intros _ id r Hr E.
  pose proof (any_reservation_false _ _ Hu id r Hr) as Hx. cbv beta in Hx.
  rewrite bool_decide_true in Hx by done. cbn [andb] in Hx. apply orb_false_iff in Hx as [_ Hx].
  apply negb_false_iff, bool_decide_eq_true in Hx.
  destruct (ok_reserved _ Hp id r Hr) as (_ & rt & Hrt & Hm & Ho). rewrite E, Hold in Hrt.
  injection Hrt as <-. split; [done|].
  rewrite (bool_decide_false (rt_mode old = Dedicated)) in Hi by congruence. cbn [andb negb] in Hi.
  rewrite andb_true_r in Hi. apply orb_false_iff in Hi as [Hi _]. apply orb_false_iff in Hi as [Hi _].
  apply negb_false_iff, bool_decide_eq_true in Hi. congruence.
Qed.

Lemma no_reservations rid d :
  pools_ok d → runtimes d !! rid = None → ∀ id r, reservations d !! id = Some r → tr_runtime r ≠ rid.
Proof. intros Hp Hn id r Hr E. destruct (ok_reserved _ Hp id r Hr) as (_ & rt & Hrt & _). congruence. Qed.

Lemma pools_new_runtime rid rt d :
  pools_ok d → runtimes d !! rid = None → runtime_checks rt = true → rt_max_tenants rt ≤ u32_max →
  pools_ok (d <| runtimes ::= <[rid := rt]> |>).
Proof.
  intros Hp Hn Hc Hw. pose proof (no_reservations rid d Hp Hn) as Hnone.
  destruct (runtime_checks_bounds rt Hc) as (? & ?).
  apply pools_set_runtime; [done|done|done| | |].
  - unfold tenants_of. rewrite total_none by done. lia.
  - unfold disk_of. rewrite total_none by done. lia.
  - intros id r Hi Hx. by destruct (Hnone id r Hi).
Qed.

Lemma save_pool_ok rid p d d' a :
  rt_max_tenants p ≤ u32_max → db_ok d → save_pool_row rid p d = Ok (a, d') → db_ok d'.
Proof.
  intros Hw [Hp Ht]. unfold save_pool_row. intros ([] & _ & Hx)%bind_Ok.
  destruct (runtimes d !! rid) as [old|] eqn:Hold.
  - apply bind_Ok in Hx as ([] & Htr & Hx). apply bind_Ok in Hx as ([] & _ & Hx).
    apply bind_Ok in Hx as (d1 & [Hc ->]%put_runtime_Ok & [= _ <-]). split; [|exact Ht].
    destruct (ok_counters _ Hp rid old Hold) as (_ & ? & ?).
    apply pools_set_runtime; [done|done|exact Hw|done|done|]. by eapply runtime_update_keeps.
  - apply bind_Ok in Hx as ([] & _ & Hx).
    apply bind_Ok in Hx as (d1 & [Hc ->]%put_runtime_Ok & [= _ <-]). split; [|exact Ht].
    by apply pools_new_runtime.
Qed.

Lemma delete_runtime_ok rid d b d' : db_ok d → delete_runtime_row rid d = Ok (b, d') → db_ok d'.
Proof.
  intros [Hp Ht]. unfold delete_runtime_row. destruct (_ || _) eqn:Hu; [done|]. intros [= _ <-].
  apply orb_false_iff in Hu as [Hu _]. split; [|exact Ht]. destruct Hp as [Hc Hr Hn Hw]. split; cbn; [| |exact Hn|].
  - intros rid' rt [_ Hrt]%lookup_delete_Some. by apply Hc.
  - intros id r Hi. destruct (Hr id r Hi) as (Hpos & rt & Hrt & Hm & Ho). split; [done|]. exists rt.
    rewrite lookup_delete_ne; [done|]. intros E.
    pose proof (any_reservation_false _ _ Hu id r Hi) as Hx. cbv beta in Hx.
    by rewrite bool_decide_true in Hx.
  - intros rid' rt [_ Hrt]%lookup_delete_Some. by eapply Hw.
Qed.

Lemma save_dedicated_ok id m d a d' : db_ok d → save_dedicated_row id m d = Ok (a, d') → db_ok d'.
Proof.
  intros [Hp Ht]. unfold save_dedicated_row. destruct (runtimes d !! id) as [old|] eqn:Hold.
  - intros ([] & Htr & Hx)%bind_Ok. apply bind_Ok in Hx as (d1 & [Hc ->]%put_runtime_Ok & [= _ <-]).
    split; [|exact Ht]. destruct (ok_counters _ Hp id old Hold) as (_ & ? & ?).
    apply pools_set_runtime; [done|done|exact (ok_width _ Hp _ _ Hold)|done|done|].
    by eapply runtime_update_keeps.
  - intros (d1 & [Hc ->]%put_runtime_Ok & [= _ <-])%bind_Ok. split; [|exact Ht].
    by apply pools_new_runtime.
Qed.

Lemma put_metadata_keeps id m d d' : db_ok d → put_metadata id m d = Ok d' → db_ok d'.
Proof.
  intros [Hp Ht] Hm. split; [|by eapply tenants_put; [apply tenants_but_ok|]].
  apply put_metadata_Ok in Hm as [-> _]. by apply pools_metadata.
Qed.

Lemma upsert_instance_ok id m d fs a s' :
  db_ok d → upsert_instance_tx id m (d, fs) = Ok (a, s') → db_ok s'.1.
Proof.
  intros Hd Hx. unfold upsert_instance_tx in Hx. apply tx_bind_Ok in Hx as (a0 & s0 & H0 & Hx).
  apply select_Ok in H0 as (fs0 & -> & _). apply tx_bind_Ok in Hx as (a1 & s1 & H1 & Hx).
  assert (∃ d1 fs1, s1 = (d1, fs1) ∧ db_ok d1) as (d1 & fs1 & -> & Hd1).
  { destruct (bool_decide (mt_mode m = Dedicated)).
    - tx_run H1. apply statement_Ok in H1 as (d1 & fs1 & -> & Hs).
      exists d1, fs1. split; [done|]. by eapply save_dedicated_ok.
    - injection H1 as _ <-. by exists d, fs0. }
  apply statement_Ok in Hx as (d2 & fs2 & -> & Hx). apply bind_Ok in Hx as ([] & _ & Hx).
  apply bind_Ok in Hx as ([] & _ & Hx). apply bind_Ok in Hx as (d3 & Hm & [= _ <-]).
  by eapply put_metadata_keeps.
Qed.

Lemma delete_instance_ok id d b d' : db_ok d → delete_instance_row id d = Ok (b, d') → db_ok d'.
Proof.
  intros [Hp Ht]. unfold delete_instance_row. destruct (metadata d !! id) as [m|] eqn:Hm;
    [|by intros [= _ <-]].
  set (d1 := d <| metadata ::= delete id |>). assert (Hd1 : db_ok d1).
  { split; [by apply pools_metadata|]. intros i o Hi Ho. cbn in Hi.
    apply lookup_delete_Some in Hi as [_ Hi]. by apply Ht. }
  destruct (negb _).
  { intros ([b' d2] & Hx & [= _ <-])%bind_Ok. by eapply delete_runtime_ok. }
  intros (d2 & [-> _]%delete_reservation_Ok & Hx)%bind_Ok.
  assert (Hd2 : db_ok (d1 <| reservations ::= delete id |>)).
  { destruct Hd1 as [Hp1 Ht1]. split; [by apply pools_delete|]. apply tenants_delete; [done|].
    unfold attached. cbn. by rewrite lookup_delete_eq. }
  destruct (runtimes _ !! mt_runtime m) as [rt|] eqn:Hrt; [|by injection Hx as _ <-].
  destruct (_ <? _); [done|]. apply bind_Ok in Hx as (d3 & [Hc ->]%put_runtime_Ok & [= _ <-]).
  destruct Hd2 as [Hp2 Ht2]. split; [|exact Ht2].
  apply pools_set_runtime; [done|done|exact (ok_width _ Hp2 _ _ Hrt)|cbn; lia|cbn; lia|]. intros i r Hi E.
  destruct (ok_reserved _ Hp2 i r Hi) as (_ & rt' & Hrt' & Hmode & Ho). rewrite E, Hrt in Hrt'.
  by injection Hrt' as <-.
Qed.

Lemma rename_keeps old new rid d d' :
  db_ok d → rename_reservation old new rid d = Ok (true, d') → db_ok d'.
Proof.
  intros [Hp Ht] (r & Hr & _ & Ha & Hn & ->)%rename_reservation_Ok.
  split; [by apply pools_rename|by apply tenants_rename].
Qed.

Lemma dedicated_to_shared_ok ready id provisional m d fs a s' :
  db_ok d → dedicated_to_shared_tx ready id provisional m (d, fs) = Ok (a, s') → db_ok s'.1.
Proof.
  intros Hd Hx. unfold dedicated_to_shared_tx in Hx. tx_run Hx. subst.
  apply tx_require_Ok in Hx as [-> ->]. cbn [fst].
  assert (Hd1 := rename_keeps _ _ _ _ _ Hd Ht0). clear Ht.
  destruct (metadata _ !! id) as [old|]; [|done]. destruct (_ && _); [|done].
  apply bind_Ok in Ht2 as (d2 & Hm & [= <-]). by eapply put_metadata_keeps.
Qed.

Lemma shared_to_dedicated_ok ready id retained source m d fs a s' :
  db_ok d → shared_to_dedicated_tx ready id retained source m (d, fs) = Ok (a, s') → db_ok s'.1.
Proof.
  intros Hd Hx. unfold shared_to_dedicated_tx in Hx. tx_run Hx. subst.
  apply tx_require_Ok in Hx as [-> ->]. cbn [fst]. clear Ht.
  destruct (metadata d !! id) as [old|]; [|done]. destruct (_ && _); [|done].
  apply bind_Ok in Ht2 as (d2 & Hm & [= <-]).
  eapply rename_keeps; [|done]. by eapply put_metadata_keeps.
Qed.

(** A transaction commits as a whole or not at all. *)
Lemma run_tx_cases {A} (m : Tx A) commit d fs e d' fs' :
  run_tx m commit d fs = (e, d', fs') → d' = d ∨ ∃ a fs1, m (d, fs) = Ok (a, (d', fs1)).
Proof.
  unfold run_tx. destruct (m (d, fs)) as [[a [d1 fs1]]|]; [|by intros [= _ <- _]; left].
  destruct commit; intros [= _ <- _]; eauto.
Qed.

Lemma run_tx_ok {A} (m : Tx A) commit d fs e d' fs' :
  db_ok d → (∀ a s', m (d, fs) = Ok (a, s') → db_ok s'.1) →
  run_tx m commit d fs = (e, d', fs') → db_ok d'.
Proof. intros Hd Hm [->|(a & fs1 & Hx)]%run_tx_cases; [done|]. exact (Hm _ _ Hx). Qed.

Lemma run_statement_ok {A} (f : Db → result string (A * Db)) commit d fs e d' fs' :
  db_ok d → (∀ a d', f d = Ok (a, d') → db_ok d') →
  run_tx (statement f) commit d fs = (e, d', fs') → db_ok d'.
Proof.
  intros Hd Hf. apply run_tx_ok; [done|]. intros a s' (d1 & fs1 & -> & Hx)%statement_Ok. by eapply Hf.
Qed.

Lemma reserve_ok q commit d fs r d' : db_ok d → reserve_tenant q commit d fs = (r, d') → db_ok d'.
Proof.
  intros Hd. unfold reserve_tenant. destruct (check_request q) as [[]|]; [|by intros [= _ <-]].
  destruct (run_tx (reserve_tx q) commit d fs) as [[e d1] fs1] eqn:E.
  assert (Hd1 : db_ok d1).
  { eapply run_tx_ok; [exact Hd| |exact E]. intros a s' (rt & limit & Hf)%reserve_tx_Ok.
    by apply (reserved_from_ok q d s'.1 rt limit). }
  destruct e; [by intros [= _ <-]..|]. destruct (db_query _ fs1) as [found fs2].
  destruct found as [[x|]|]; [|by intros [= _ <-]..]. by destruct (claim_matches x q); intros [= _ <-].
Qed.

Lemma mark_provisioned_ok id commit d fs r d' :
  db_ok d → mark_provisioned id commit d fs = (r, d') → db_ok d'.
Proof.
  intros Hd. unfold mark_provisioned.
  destruct (run_tx (statement (provision_row id)) commit d fs) as [[e d1] fs1] eqn:E.
  assert (Hd1 : db_ok d1).
  { eapply run_statement_ok; [exact Hd| |exact E]. intros b d2. by apply provision_ok. }
  assert (Hrec : ∀ e : PlacementRepositoryError,
    (let '(found, fs2) := db_query (get_reservation id d1) fs1 in
     match found with
     | Ok (Some r) => if bool_decide (tr_state r = TenantProvisioned)
                      then (existing id (db_query (get_reservation id d1) fs2).1, d1) else (Err e, d1)
     | _ => (Err e, d1)
     end) = (r, d') → db_ok d').
  { intros e'. destruct (db_query _ fs1) as [[[x|]|] fs2]; [|by intros [= _ <-]..].
    by case_bool_decide; intros [= _ <-]. }
  destruct e as [e|[]|b e]; [exact (Hrec e)|by intros [= _ <-]..|exact (Hrec e)].
Qed.

Lemma release_keeps id commit d fs r d' : db_ok d → release_tenant id commit d fs = (r, d') → db_ok d'.
Proof.
  intros Hd. unfold release_tenant. destruct (release_tx id (d, fs)) as [[[] s]|e0] eqn:Ex.
  2: by intros [= _ <-].
  - destruct (run_tx (release_tx id) commit d fs) as [[e d1] fs1] eqn:E.
    assert (Hd1 : db_ok d1).
    { eapply run_tx_ok; [exact Hd| |exact E]. intros a s' Hs. rewrite Ex in Hs. injection Hs as <- <-.
      by eapply (release_ok id d fs). }
    destruct e; [by intros [= _ <-]..|]. by destruct ((db_query _ fs1).1) as [[]|]; intros [= _ <-].
  - unfold run_tx. rewrite Ex. by intros [= _ <-].
Qed.

Lemma resize_keeps id l commit d fs r d' : db_ok d → resize id l commit d fs = (r, d') → db_ok d'.
Proof.
  intros Hd. unfold resize. destruct (check_reservation l ≫= _) as [x|]; [|by intros [= _ <-]].
  destruct (run_tx (resize_tx id l) commit d fs) as [[e d1] fs1] eqn:E.
  assert (Hd1 : db_ok d1).
  { eapply run_tx_ok; [exact Hd| |exact E]. intros rid s' (rt & m & o & limit & Hz)%resize_tx_Ok.
    by eapply resized_from_ok. }
  by destruct e; intros [= _ <-].
Qed.

Lemma read_runtime_width r r' : read_runtime r = Ok r' → rt_max_tenants r ≤ u32_max.
Proof.
  unfold read_runtime. destruct (_ || _); [done|].
  destruct ((_ <? _) || _) eqn:E; [done|]. by apply orb_false_iff in E as [_ E%Z.ltb_ge].
Qed.

Lemma repository_save_ok rid p commit d fs r d' :
  db_ok d → repository_save rid p commit d fs = (r, d') → db_ok d'.
Proof.
  intros Hd. unfold repository_save. destruct (read_runtime p ≫= _) as [x|] eqn:Hread;
    [|by intros [= _ <-]].
  apply bind_Ok in Hread as (row & Hw%read_runtime_width & _).
  destruct (run_tx (statement (save_pool_row rid p)) commit d fs) as [[e d1] fs1] eqn:E.
  assert (Hd1 : db_ok d1).
  { eapply run_statement_ok; [exact Hd| |exact E]. intros [] d2. by apply save_pool_ok. }
  by destruct e; intros [= _ <-].
Qed.

Lemma step_ok d d' : db_step d d' → db_ok d → db_ok d'.
Proof.
  intros Hs Hd. destruct Hs as [q commit fs d r d' E|id commit fs d r d' E|id commit fs d r d' E
    |id l commit fs d r d' E|rid p commit fs d r d' E|rid commit fs d e d' fs' E|id m commit fs d e d' fs' E
    |id commit fs d e d' fs' E|ready id prov m commit fs d e d' fs' E
    |ready id ret source m commit fs d e d' fs' E].
  - by eapply reserve_ok.
  - by eapply mark_provisioned_ok.
  - by eapply release_keeps.
  - by eapply resize_keeps.
  - by eapply repository_save_ok.
  - eapply run_statement_ok; [exact Hd| |exact E]. intros b d1. by apply delete_runtime_ok.
  - eapply run_tx_ok; [exact Hd| |exact E]. intros a s' Hx. by eapply upsert_instance_ok.
  - eapply run_statement_ok; [exact Hd| |exact E]. intros b d1. by apply delete_instance_ok.
  - eapply run_tx_ok; [exact Hd| |exact E]. intros a s' Hx. by eapply dedicated_to_shared_ok.
  - eapply run_tx_ok; [exact Hd| |exact E]. intros a s' Hx. by eapply shared_to_dedicated_ok.
Qed.

Lemma empty_ok : db_ok empty_db.
Proof. by split; [split|]. Qed.

Lemma reachable_ok d : db_reachable d → db_ok d.
Proof.
  unfold db_reachable. intros Hr. assert (Hg : ∀ a, rtc db_step a d → db_ok a → db_ok d).
  { intros a Ha. induction Ha as [a|a b c Hab _ IH]; [done|]. intros Hok. apply IH; [done|].
    by eapply step_ok. }
  exact (Hg _ Hr empty_ok).
Qed.

(** C4. The pools are never over-committed, and no tenant runs without its
    reservation.  Whatever reservations, releases, resizes, saves, deletions and
    cut-overs the daemon makes, with failing statements and commits that are
    lost or whose acknowledgement is: the reservations of a pool are no more
    than its maximum of tenants and ask for no more disk than its limit; each is
    in a shared pool of the same owner; no two of a pool share a database or a
    user; and every shared instance has a provisioned reservation for exactly
    its pool, database, user and limits. *)
Theorem pools_never_overcommitted d :
  db_reachable d →
  (∀ rid rt, runtimes d !! rid = Some rt →
     0 ≤ tenants_of rid d ≤ rt_max_tenants rt ∧ 0 ≤ disk_of rid d ≤ rt_limit_disk rt) ∧
  (∀ id r, reservations d !! id = Some r →
     0 < tr_disk r ∧ ∃ rt, runtimes d !! tr_runtime r = Some rt ∧ rt_mode rt = SharedMode
                           ∧ rt_owner rt = Some (tr_owner r)) ∧
  (∀ id id' r r', reservations d !! id = Some r → reservations d !! id' = Some r' →
     tr_runtime r = tr_runtime r' → tr_database r = tr_database r' ∨ tr_username r = tr_username r' →
     id = id') ∧
  (∀ id m, metadata d !! id = Some m → mt_mode m = SharedMode →
     ∃ r, reservations d !! id = Some r ∧ tr_runtime r = mt_runtime m
          ∧ tr_database r = mt_database m ∧ tr_username r = mt_username m
          ∧ tr_state r = TenantProvisioned ∧ tr_cpu r = mt_cpu m ∧ tr_memory r = mt_memory m
          ∧ tr_disk r = mt_disk m).
Proof.
  intros [Hp Ht]%reachable_ok. split; [|split; [apply (ok_reserved _ Hp)|split; [apply (ok_unique _ Hp)|]]].
  - intros rid rt Hrt. destruct (ok_counters _ Hp rid rt Hrt) as (Hc & H1 & H2).
    destruct (runtime_checks_bounds rt Hc) as [? ?].
    assert (0 ≤ tenants_of rid d) by (by apply reserved_total_nonneg).
    assert (0 ≤ disk_of rid d).
    { apply reserved_total_nonneg. intros id r Hr. destruct (ok_reserved _ Hp id r Hr). lia. }
    lia.
  - intros id m Hm Hs. destruct (Ht id m Hm Hs) as (r & Hr & He). exists r. split; [done|].
    unfold exact_reservation in He. repeat rewrite andb_true_iff in He.
    rewrite !bool_decide_eq_true, !Z.eqb_eq in He. intuition.
Qed.

(** ** What the caller is told *)

(** How many statements a transaction that succeeds has run, by its result: each
    took one of the faults that awaited it. *)
Definition takes {A} (m : Tx A) (n : A → nat) : Prop :=
  ∀ d fs a d' fs', m (d, fs) = Ok (a, (d', fs')) → fs' = drop (n a) fs.

Lemma takes_ret {A} (a : A) : takes (mret a) (λ _, 0%nat).
Proof. by intros d fs x d' fs' [= _ _ <-]. Qed.

Lemma takes_statement {A} (f : Db → result string (A * Db)) : takes (statement f) (λ _, 1%nat).
Proof.
  intros d fs a d' fs'. cbn. destruct fs as [|[] fs]; [|done|];
    (destruct (f d) as [[x y]|]; [|done]); by intros [= _ _ <-].
Qed.

Lemma takes_lift {A} (r : result PlacementRepositoryError A) : takes (tx_lift r) (λ _, 0%nat).
Proof. intros d fs a d' fs'. unfold tx_lift. destruct r; [|done]. by intros [= _ _ <-]. Qed.

Lemma takes_require e b : takes (tx_require e b) (λ _, 0%nat).
Proof. destruct b; [apply takes_ret|done]. Qed.

Lemma takes_bind {A B} (m : Tx A) (f : A → Tx B) k n :
  takes m (λ _, k) → (∀ a, takes (f a) n) → takes (m ≫= f) (λ b, k + n b)%nat.
Proof.
  intros Hm Hf d fs b d' fs' Hx. apply tx_bind_Ok in Hx as (a & [d1 fs1] & H1 & H2).
  rewrite (Hf _ _ _ _ _ _ H2), (Hm _ _ _ _ _ H1), drop_drop. done.
Qed.

Create HintDb takes_tx.
#[local] Hint Resolve takes_ret takes_statement takes_lift takes_require : takes_tx.

Lemma takes_sync rid : takes (sync_runtime_capacity rid) (λ _, 1%nat).
Proof. apply (takes_bind _ _ 1 (λ _, 0%nat)); auto with takes_tx. Qed.

(** The statements of [reserve]'s transaction, and those of [release]'s. *)
Definition RESERVE_STATEMENTS : nat := 7.
Definition RELEASE_STATEMENTS : nat := 5.

Lemma takes_reserve q : takes (reserve_tx q) (λ _, RESERVE_STATEMENTS).
Proof.
  unfold reserve_tx, begin_immediate, select.
  apply (takes_bind _ _ 1 (λ _, 6%nat)); [auto with takes_tx|intros ?].
  apply (takes_bind _ _ 1 (λ _, 5%nat)); [auto with takes_tx|intros ?].
  do 4 (apply (takes_bind _ _ 0 (λ _, 5%nat)); [auto with takes_tx|intros ?]).
  apply (takes_bind _ _ 1 (λ _, 4%nat)); [auto with takes_tx|intros ?].
  apply (takes_bind _ _ 0 (λ _, 4%nat)); [auto with takes_tx|intros ?].
  apply (takes_bind _ _ 1 (λ _, 3%nat)); [auto with takes_tx|intros ?].
  do 2 (apply (takes_bind _ _ 0 (λ _, 3%nat)); [auto with takes_tx|intros ?]).
  apply (takes_bind _ _ 1 (λ _, 2%nat)); [auto with takes_tx|intros ?].
  apply (takes_bind _ _ 0 (λ _, 2%nat)); [auto with takes_tx|intros ?].
  apply (takes_bind _ _ 1 (λ _, 1%nat)); [auto with takes_tx|intros ?]. apply takes_sync.
Qed.

Lemma takes_release id : takes (release_tx id) (λ b : bool, if b then RELEASE_STATEMENTS else 3%nat).
Proof.
  unfold release_tx, begin_immediate, select. intros d fs b d' fs' Hx.
  cut (fs' = drop (1 + (1 + (0 + (1 + (if b then 2 else 0)))))%nat fs); [by destruct b|].
  revert d fs b d' fs' Hx.
  apply (takes_bind _ _ 1 (λ b : bool, (1 + (0 + (1 + (if b then 2 else 0))))%nat));
    [auto with takes_tx|intros ?].
  apply (takes_bind _ _ 1 (λ b : bool, (0 + (1 + (if b then 2 else 0)))%nat)); [auto with takes_tx|intros ?].
  apply (takes_bind _ _ 0 (λ b : bool, (1 + (if b then 2 else 0))%nat)); [auto with takes_tx|intros ?].
  apply (takes_bind _ _ 1 (λ b : bool, if b then 2%nat else 0%nat)); [auto with takes_tx|intros [r|]];
    [|by intros d fs b d' fs' [= <- _ <-]].
  intros d fs b d' fs' Hx. apply tx_bind_Ok in Hx as ([] & [d1 fs1] & H1%takes_statement & Hx).
  apply tx_bind_Ok in Hx as ([] & [d2 fs2] & H2%takes_sync & [= <- _ <-]). by rewrite H2, H1, drop_drop.
Qed.

Lemma query_Ok {A} (r : result PlacementRepositoryError A) fs a : (db_query r fs).1 = Ok a → r = Ok a.
Proof. unfold db_query. destruct fs as [|[] fs]; by intros. Qed.

Lemma pool_disk_mib_mono p a b x y :
  0 ≤ a ≤ b → pool_disk_mib p a = Some x → pool_disk_mib p b = Some y → x ≤ y.
Proof.
  intros Hab. unfold pool_disk_mib, root_spill_mib.
  destruct (engine_disk_overhead p) as [o|]; [|done]. cbn. intros [= <-] [= <-].
  assert (div_ceil a ROOT_SPILL_DIVISOR ≤ div_ceil b ROOT_SPILL_DIVISOR)
    by (unfold div_ceil, ROOT_SPILL_DIVISOR; apply Z.div_le_mono; lia).
  unfold sat_add, ROOT_SPILL_CAP_MIB, u64_max.
  destruct (Z.ltb_spec (div_ceil a ROOT_SPILL_DIVISOR) (8 * 1024)),
    (Z.ltb_spec (div_ceil b ROOT_SPILL_DIVISOR) (8 * 1024)); lia.
Qed.

Lemma get_reservation_found id r rt d :
  reservations d !! id = Some r → runtimes d !! tr_runtime r = Some rt → 0 < tr_memory r ∧ 0 < tr_disk r →
  get_reservation id d = Ok (Some r).
Proof.
  intros Hr Hrt [Hm Hd]. unfold get_reservation, i64_to_u64. rewrite Hr, Hrt.
  by rewrite !(proj2 (Z.leb_le _ _)) by lia.
Qed.

Lemma claim_matches_own q : claim_matches (reservation_of q) q = true.
Proof. unfold claim_matches. cbn. by rewrite !bool_decide_true, !Z.eqb_refl by done. Qed.

(** The claim is in the tables. *)
Definition reservation_recorded (q : ReserveTenant) (d : Db) : Prop :=
  reservations d !! rq_instance q = Some (reservation_of q) ∧ counters_exact (rq_runtime q) d.

(** The pool has room for what is reserved, its engine's own disk and the spill
    of its tenants. *)
Definition disk_fits (rid : string) (row : RuntimeRow) (d : Db) : Prop :=
  ∃ need, pool_disk_mib (rt_protocol row) (disk_of rid d) = Some need ∧ need ≤ rt_limit_disk row.

Lemma reserved_fits q d d' rt limit :
  db_ok d → reserved_from q d d' rt limit →
  reservation_recorded q d' ∧ runtimes d' !! rq_runtime q = Some (reserved_row q d rt)
  ∧ disk_fits (rq_runtime q) (reserved_row q d rt) d'.
Proof.
  intros Hd Hf. destruct (reserved_from_ok _ _ _ _ _ Hd Hf) as [[Hp' _] Hex].
  pose proof Hf as [Hrt _ _ _ _ Hlim Hdisk Hfresh [_ Hpos] _ _ ->]. cbn.
  split; [split; [apply lookup_insert_eq|done]|]. split; [apply lookup_insert_eq|].
  destruct Hd as [Hp _]. destruct (ok_counters _ Hp _ _ Hrt) as (_ & _ & Hcov).
  unfold pool_disk_limit in Hlim. apply bind_Ok in Hlim as (top & Htop%ok_or_Ok & Hl).
  unfold u64_to_i64 in Hl. destruct (top <=? i64_max); [|done]. injection Hl as ->.
  assert (Hsum : disk_of (rq_runtime q) (mkDb (<[rq_runtime q := reserved_row q d rt]> (runtimes d))
    (<[rq_instance q := reservation_of q]> (reservations d)) (metadata d))
    = lim_disk (rq_limits q) + disk_of (rq_runtime q) d).
  { unfold disk_of. cbn. rewrite total_insert by done. unfold part. cbn. by rewrite bool_decide_true. }
  assert (Hnn : 0 ≤ disk_of (rq_runtime q) d).
  { apply reserved_total_nonneg. intros id r Hr. destruct (ok_reserved _ Hp id r Hr). lia. }
  unfold disk_fits. rewrite Hsum. cbn.
  destruct (pool_disk_mib (rt_protocol rt) (lim_disk (rq_limits q) + disk_of (rq_runtime q) d)) as [need|] eqn:Hn.
  - exists need. split; [done|]. transitivity limit; [|done].
    eapply pool_disk_mib_mono; [|exact Hn|exact Htop]. lia.
  - exfalso. unfold pool_disk_mib, root_spill_mib in Hn, Htop.
    by destruct (engine_disk_overhead (rt_protocol rt)).
Qed.

Lemma get_runtime_Ok rid d row : get_runtime rid d = Ok row → runtimes d !! rid = Some row.
Proof.
  unfold get_runtime. intros (r & ->%ok_or_Ok & Hr)%bind_Ok. unfold read_runtime in Hr.
  repeat (case_match; [done|]). by injection Hr as ->.
Qed.

Lemma query_Err {A} (r : result PlacementRepositoryError A) a fs e :
  r = Ok a → (db_query r fs).1 = Err e → fs !! 0%nat = Some true ∧ e = Sqlx "disk I/O error".
Proof. intros ->. unfold db_query. destruct fs as [|[] fs]; [done| |done]. by intros [= <-]. Qed.

(** The row of a pool that took a claim reads back. *)
Lemma reserved_row_reads q d d' rt limit :
  db_ok d → check_request q = Ok tt → reserved_from q d d' rt limit →
  get_runtime (rq_runtime q) d' = Ok (reserved_row q d rt).
Proof.
  intros [Hp _] Hq [Hrt Hm Ho [Hs _] Hroom _ _ _ _ _ Hc ->]. unfold get_runtime. cbn.
  rewrite lookup_insert_eq. cbn. pose proof (ok_width _ Hp _ _ Hrt) as Hw.
  unfold check_request in Hq. apply bind_Ok in Hq as (_ & _ & Hq). apply bind_Ok in Hq as ([] & Hown & _).
  unfold owner_check in Hown. destruct (_ && _) eqn:Hkeys in Hown; [|done].
  unfold runtime_checks in Hc. rewrite !andb_true_iff, !Z.leb_le, !Z.ltb_lt in Hc.
  destruct Hc as [[[[[[[? ?] ?] ?] ?] ?] Hpool] _]. cbn in *.
  rewrite Hm, bool_decide_false, orb_false_l, bool_decide_eq_true in Hpool by done.
  unfold read_runtime. cbn. rewrite Hm, Ho, Hkeys, (bool_decide_false _ Hpool).
  rewrite !(proj2 (Z.ltb_ge _ _)), !(proj2 (Z.eqb_neq _ _)) by lia. done.
Qed.

(** What [reserve] may return, from [d] to [d'], with [fs] the faults of the
    statements and queries in the order in which they are sent. *)
Definition reserve_told (q : ReserveTenant) (commit : Commit) (d : Db) (fs : list bool)
    (r : result PlacementRepositoryError RuntimeRow) (d' : Db) : Prop :=
  match r with
  | Ok row =>
      reservation_recorded q d' ∧ runtimes d' !! rq_runtime q = Some row ∧ rt_status row = PoolRunning
      ∧ rt_owner row = Some (rq_owner q) ∧ rt_tenants row ≤ rt_max_tenants row
      ∧ disk_fits (rq_runtime q) row d'
  | Err e =>
      d' = d ∨
      reservation_recorded q d' ∧
      match commit with
      | Committed => fs !! RESERVE_STATEMENTS = Some true ∧ e = Sqlx "disk I/O error"
      | RolledBack _ => False
      | CommittedUnseen lost =>
          fs !! RESERVE_STATEMENTS = Some true ∧ e = Sqlx lost
          ∨ fs !! S RESERVE_STATEMENTS = Some true ∧ e = Sqlx "disk I/O error"
      end
  end.

Lemma reserve_read q commit d d' rt limit fs n r :
  db_ok d → check_request q = Ok tt → reserved_from q d d' rt limit →
  (db_query (get_runtime (rq_runtime q) d') (drop n fs)).1 = r →
  (commit = Committed ∧ n = RESERVE_STATEMENTS
   ∨ (∃ lost, commit = CommittedUnseen lost) ∧ n = S RESERVE_STATEMENTS) →
  reserve_told q commit d fs r d'.
Proof.
  intros Hd Hq Hf Hr Hn. destruct (reserved_fits _ _ _ _ _ Hd Hf) as (Hrec & Hrow & Hfit).
  destruct r as [row|e]; cbn.
  - apply query_Ok, get_runtime_Ok in Hr. rewrite Hrow in Hr. injection Hr as <-.
    destruct (rf_running _ _ _ _ _ Hf) as [Hs _].
    destruct (runtime_checks_bounds _ (rf_checks _ _ _ _ _ Hf)) as [? _].
    split_and!; try done; [apply (rf_owner _ _ _ _ _ Hf)|lia].
  - right. split; [done|].
    apply (query_Err _ _ _ _ (reserved_row_reads _ _ _ _ _ Hd Hq Hf)) in Hr as [Hr ->].
    rewrite lookup_drop, Nat.add_0_r in Hr. destruct Hn as [[-> ->]|[[lost ->] ->]]; auto.
Qed.

(** C20. [reserve] tells the truth.  When it returns a pool, the claim is in the
    database, the pool is the one there, running, of the claim's owner, its
    counters are those of its reservations, and it has the disk for them.  When
    it returns an error, nothing was reserved, but for two cases: the claim was
    committed, and the query that reads the pool back failed; or the commit
    happened, its acknowledgement was lost, and the query that looks the claim up
    failed as well, when the error is the commit's.  A commit that happened but
    was reported as failed is found out in every other case. *)
Theorem reservation_reported q commit d fs r d' :
  db_reachable d → reserve_tenant q commit d fs = (r, d') → reserve_told q commit d fs r d'.
Proof.
  intros Hd%reachable_ok. unfold reserve_tenant.
  destruct (check_request q) as [[]|] eqn:Hq; [|by intros [= <- <-]; left].
  unfold run_tx. destruct (reserve_tx q (d, fs)) as [[[] [d2 fs2]]|e0] eqn:Ex; [|by intros [= <- <-]; left].
  pose proof Ex as (rt & limit & Hf)%reserve_tx_Ok. cbn [fst] in Hf.
  apply takes_reserve in Ex as ->. destruct commit as [|er|er].
  - intros [= Hr <-]. eapply reserve_read; eauto.
  - unfold get_reservation. rewrite (rf_fresh _ _ _ _ _ Hf). unfold db_query.
    destruct (drop _ fs) as [|[] fs2]; intros [= <- <-]; by left.
  - assert (Hg : get_reservation (rq_instance q) d2 = Ok (Some (reservation_of q))).
    { rewrite (rf_result _ _ _ _ _ Hf).
      eapply get_reservation_found; cbn; [apply lookup_insert_eq..|apply (rf_positive _ _ _ _ _ Hf)]. }
    destruct (db_query _ (drop RESERVE_STATEMENTS fs)) as [found fs3] eqn:Eq.
    assert (fs3 = drop (S RESERVE_STATEMENTS) fs) as ->.
    { apply (f_equal snd) in Eq. cbn [snd] in Eq. rewrite <-Eq, <-Nat.add_1_r, <-drop_drop.
      by destruct (drop RESERVE_STATEMENTS fs) as [|[] ?]. }
    apply (f_equal fst) in Eq. cbn [fst] in Eq. destruct found as [o|e].
    + apply query_Ok in Eq. rewrite Hg in Eq. injection Eq as <-.
      rewrite claim_matches_own. intros [= Hr <-]. eapply reserve_read; eauto.
    + intros [= <- <-]. right. destruct (reserved_fits _ _ _ _ _ Hd Hf) as (Hrec & _).
      split; [done|]. left. apply (query_Err _ _ _ _ Hg) in Eq as [Eq _].
      by rewrite lookup_drop, Nat.add_0_r in Eq.
Qed.

(** [release] tells the truth.  When it returns true, the reservation is gone,
    its tenant was not attached, and the counters of its pool are those of the
    reservations that are left; when it returns false, there was none; when it
    returns an error, the reservation is still there, unless the commit happened,
    its acknowledgement was lost, and the query that looks the reservation up
    failed as well. *)
Theorem release_reported id commit d fs r d' :
  db_reachable d → release_tenant id commit d fs = (r, d') →
  match r with
  | Ok true => attached id d = false ∧ ∃ o, reservations d !! id = Some o
      ∧ reservations d' = delete id (reservations d) ∧ counters_exact (tr_runtime o) d'
  | Ok false => reservations d !! id = None ∧ d' = d
  | Err e =>
      d' = d ∨ reservations d' = delete id (reservations d)
               ∧ ∃ lost, commit = CommittedUnseen lost ∧ e = Sqlx lost
                         ∧ fs !! RELEASE_STATEMENTS = Some true
  end.
Proof.
  intros Hd%reachable_ok. unfold release_tenant, run_tx.
  destruct (release_tx id (d, fs)) as [[[] [d2 fs2]]|e0] eqn:Ex; [| |by intros [= <- <-]; left].
  - pose proof (release_ok id d fs _ Hd Ex) as (_ & Ha & o & Ho & Hdel & Hex). cbn [fst] in *.
    apply takes_release in Ex as ->. destruct commit as [|er|er].
    + intros [= <- <-]. eauto.
    + destruct (ok_reserved _ (proj1 Hd) id o Ho) as (Hpos & rt & Hrt & _).
      assert (Hg : get_reservation id d ≠ Ok None).
      { unfold get_reservation. rewrite Ho, Hrt. destruct (i64_to_u64 "memory_mib" _) ; [|done].
        by destruct (i64_to_u64 "disk_mib" _). }
      destruct ((db_query (get_reservation id d) _).1) as [[x|]|] eqn:Hq.
      * intros [= <- <-]. by left.
      * by apply query_Ok in Hq.
      * intros [= <- <-]. by left.
    + assert (Hg : get_reservation id d2 = Ok None)
        by (unfold get_reservation; by rewrite Hdel, lookup_delete_eq).
      destruct ((db_query (get_reservation id d2) _).1) as [x|e] eqn:Hq.
      * apply query_Ok in Hq. rewrite Hg in Hq. injection Hq as <-. intros [= <- <-]. eauto.
      * intros [= <- <-]. right. split; [done|]. exists er. split; [done|]. split; [done|].
        apply (query_Err _ _ _ _ Hg) in Hq as [Hq _]. by rewrite lookup_drop, Nat.add_0_r in Hq.
  - intros [= <- <-]. split; [|done]. unfold release_tx in Ex. tx_run Ex.
    destruct (reservations d !! id) as [o|] eqn:Ho; [exfalso|done].
    destruct (ok_reserved _ (proj1 Hd) id o Ho) as (_ & rt & Hrt & _).
    cbn [mbind option_bind] in Ex. rewrite Hrt in Ex. cbn in Ex. tx_run Ex.
    by injection Ex.
Qed.

(** ** Examples *)

Module CapacityDemo.

Definition demo_pool_owner : PoolOwner := mkPoolOwner "panel" "server".
Definition demo_pool_row : RuntimeRow :=
  mkRuntimeRow Postgres SharedMode (Some demo_pool_owner) PoolRunning DesiredRunning 2 20480 0 0.
Definition demo_tenant_limits : Limits := mkLimits 0x3FF0000000000000 1024 10240.
Definition demo_reserve_request (id database : string) : ReserveTenant :=
  mkReserveTenant demo_pool_owner id "pool" database database demo_tenant_limits.
Definition demo_meta : MetaRow :=
  mkMetaRow Postgres SharedMode "pool" "shop" "shop" 0x3FF0000000000000 1024 10240 Running
    (Some demo_pool_owner).

(** A pool is saved, a tenant reserved, provisioned and attached; the
    acknowledgement of its reservation is lost. *)
Definition demo_d1 : Db := (repository_save "pool" demo_pool_row Committed empty_db []).2.
Definition demo_d2 : Db := (reserve_tenant (demo_reserve_request "a" "shop") (CommittedUnseen "lost") demo_d1 []).2.
Definition demo_d3 : Db := (mark_provisioned "a" Committed demo_d2 []).2.
Definition demo_d4 : Db := (run_tx (upsert_instance_tx "a" demo_meta) Committed demo_d3 []).1.2.

Lemma demo_d1_reachable : db_reachable demo_d1.
Proof.
  apply (rtc_l _ _ demo_d1); [apply (step_save _ _ _ _ _ _ _ (surjective_pairing _))|apply rtc_refl].
Qed.

Lemma demo_d2_reachable : db_reachable demo_d2.
Proof.
  unfold db_reachable. transitivity demo_d1; [exact demo_d1_reachable|].
  apply (rtc_l _ _ demo_d2); [apply (step_reserve _ _ _ _ _ _ (surjective_pairing _))|apply rtc_refl].
Qed.

Lemma demo_d4_reachable : db_reachable demo_d4.
Proof.
  unfold db_reachable. transitivity demo_d2; [exact demo_d2_reachable|].
  apply (rtc_l _ _ demo_d3); [apply (step_provision _ _ _ _ _ _ (surjective_pairing _))|].
  apply (rtc_l _ _ demo_d4); [|apply rtc_refl].
  eapply (step_upsert "a" demo_meta Committed []).
  rewrite (surjective_pairing (run_tx _ _ _ _)) at 1.
  rewrite (surjective_pairing (run_tx _ _ _ _).1) at 1. reflexivity.
Qed.

End CapacityDemo.
Import CapacityDemo.

Lemma pools_never_overcommitted_witness :
  metadata demo_d4 !! "a" = Some demo_meta ∧ ∃ r, reservations demo_d4 !! "a" = Some r
    ∧ tr_database r = "shop".
Proof.
  assert (Hm : metadata demo_d4 !! "a" = Some demo_meta) by (vm_compute; reflexivity).
  destruct (pools_never_overcommitted demo_d4 demo_d4_reachable) as (_ & _ & _ & Ht).
  destruct (Ht "a" demo_meta Hm eq_refl) as (r & Hr & _ & Hdb & _). split; [exact Hm|].
  exists r. split; [exact Hr|exact Hdb].
Defined.

(** The first tenant gets its capacity though the acknowledgement is lost, unless
    the claim cannot be looked up either; the second asks for more disk than is
    left. *)
Lemma reservation_reported_witness :
  (∃ row, reserve_told (demo_reserve_request "a" "shop") (CommittedUnseen "lost") demo_d1 [] (Ok row) demo_d2)
  ∧ reserve_told (demo_reserve_request "a" "shop") (CommittedUnseen "lost") demo_d1
      [false; false; false; false; false; false; false; true] (Err (Sqlx "lost")) demo_d2
  ∧ reserve_told (demo_reserve_request "b" "blog") Committed demo_d2 [] (Err (CapacityUnavailable "pool")) demo_d2.
Proof.
  split; [|split].
  - eexists. apply (reservation_reported (demo_reserve_request "a" "shop") (CommittedUnseen "lost") demo_d1 []).
    + exact demo_d1_reachable.
    + vm_compute. reflexivity.
  - apply (reservation_reported (demo_reserve_request "a" "shop") (CommittedUnseen "lost") demo_d1
      [false; false; false; false; false; false; false; true] _ demo_d2 demo_d1_reachable).
    vm_compute. reflexivity.
  - apply (reservation_reported (demo_reserve_request "b" "blog") Committed demo_d2 [] _ demo_d2 demo_d2_reachable).
    vm_compute. reflexivity.
Defined.

Lemma release_reported_witness :
  attached "a" demo_d2 = false ∧ ∃ o, reservations demo_d2 !! "a" = Some o
    ∧ reservations (release_tenant "a" (CommittedUnseen "lost") demo_d2 []).2 = delete "a" (reservations demo_d2)
    ∧ counters_exact (tr_runtime o) (release_tenant "a" (CommittedUnseen "lost") demo_d2 []).2.
Proof.
  apply (release_reported "a" (CommittedUnseen "lost") demo_d2 [] (Ok true) _ demo_d2_reachable).
  vm_compute. reflexivity.
Defined.
