(* ===== verification/MongoGateway.v ===== *)
(** * MongoDB: from the first message to the authenticated tunnel

    [gateway/protocols/mongodb.rs] and [gateway/listeners/mongodb_listener.rs]:
    messages, the identity they name, and the dialogue with the client and the
    backend that ends in a tunnel.  What the tunnel does afterwards is in
    [Relay].

    The bson crate is a parameter: a document is what [Document::from_reader]
    makes of bytes.  The client and the backend are the bytes they will send;
    every write may fail.  TLS is not modelled. *)
From Stdlib Require Import Strings.Byte.
From stdpp Require Import pretty.
From S2P Require Import Prelude Bytes Engines RouteStore Sessions Resolver.
From S2P Require Import Relay ClickhouseHttp.

Local Open Scope Z_scope.

(** ** Documents *)

(** The values the gateway looks at; a double is the bits of its [f64]. *)
Local Unset Elimination Schemes.
Inductive Bson :=
  | BInt32 (x : Z)
  | BInt64 (x : Z)
  | BDouble (bits : Z)
  | BString (v : bytes)
  | BBool (b : bool)
  | BBinary (subtype : Z) (v : bytes)
  | BDocument (d : list (bytes * Bson))
  | BArray (l : list Bson)
  | BOther.
Local Set Elimination Schemes.
Abbreviation Document := (list (bytes * Bson)).

Definition doc_get (key : bytes) (d : Document) : option Bson :=
  snd <$> find (λ kv, bool_decide (kv.1 = key)) d.
Definition contains_key (key : bytes) (d : Document) : bool :=
  bool_decide (is_Some (doc_get key d)).

(** [Document::insert]: in place, or at the end. *)
Definition doc_insert (key : bytes) (v : Bson) (d : Document) : Document :=
  if contains_key key d
  then (λ kv, if bool_decide (kv.1 = key) then (key, v) else kv) <$> d
  else d ++ [(key, v)].

Definition get_str (key : bytes) (d : Document) : option bytes :=
  match doc_get key d with Some (BString v) => Some v | _ => None end.
Definition get_bool (key : bytes) (d : Document) : option bool :=
  match doc_get key d with Some (BBool b) => Some b | _ => None end.
(** [get_binary_generic]: the generic subtype only. *)
Definition get_binary_generic (key : bytes) (d : Document) : option bytes :=
  match doc_get key d with
  | Some (BBinary subtype v) => if subtype =? 0 then Some v else None
  | _ => None
  end.

(** ** Messages *)

Definition OP_MSG : Z := 2013.
Definition OP_REPLY : Z := 1.
Definition OP_QUERY : Z := 2004.
Definition MAX_BUFFERED_MESSAGE_BYTES : Z := 16 * 1024 * 1024.
Definition MESSAGE_HEADER_LEN : Z := 16.
Definition MAX_MONGODB_HANDSHAKE : Z := 64 * 1024.
Definition i32_max : Z := 2147483647.

Record MongodbRoute := mkMongodbRoute { mongo_user : bytes; mongo_db : bytes }.
#[export] Instance MongodbRoute_eq_dec : EqDecision MongodbRoute.
Proof. solve_decision. Defined.

Inductive AuthReplyState := SpeculativeFallback | Continue | Authenticated | Rejected.

Record MongoMessage := mkMongoMessage {
  request_id : Z;
  op_code : Z;
  msg_body : option Document;
  msg_raw : bytes;
}.

Inductive MongodbProxyError :=
  | MongoIo
  | MalformedMongoMessage
  | MessageTooLarge
  | UnsupportedOpcode (op : Z)
  | MissingDatabase
  | MissingMongoUsername
  | InvalidHelloRoute
  | AuthIdentityChanged
  | InvalidAuthResponse
  | BsonDecode
  | BsonEncode.

(** The bson crate: [Document::from_reader], [Document::to_vec], the time of
    day as a value, and the text of an error that is not the gateway's. *)
Class BsonCodec := {
  bson_decode : bytes → option Document;
  bson_encode : Document → option bytes;
  bson_now : nat → Bson;
  foreign_text : bytes;
}.

(** [Display]. *)
Definition error_text `{BsonCodec} (e : MongodbProxyError) : bytes :=
  match e with
  | MongoIo => lit "mongodb message io failed: " ++ foreign_text
  | MalformedMongoMessage => lit "mongodb message is malformed"
  | MessageTooLarge => lit "mongodb message is too large"
  | UnsupportedOpcode op => lit "mongodb opcode " ++ lit (pretty op) ++ lit " is not supported"
  | MissingDatabase => lit "mongodb saslStart did not include an auth database"
  | MissingMongoUsername => lit "mongodb saslStart did not include a username"
  | InvalidHelloRoute => lit "mongodb hello authentication route is malformed"
  | AuthIdentityChanged => lit "mongodb authentication continuation changed its database identity"
  | InvalidAuthResponse => lit "mongodb authentication response is malformed"
  | BsonDecode => lit "mongodb bson decode failed: " ++ foreign_text
  | BsonEncode => lit "mongodb bson encode failed: " ++ foreign_text
  end.

Section messages.
Context `{BsonCodec}.

Definition decode_document (v : bytes) : result MongodbProxyError Document :=
  ok_or (bson_decode v) BsonDecode.

(** The loop of [parse_op_msg_body] over the sections; every turn but the last
    moves on, so the payload's length bounds the turns. *)
Fixpoint op_msg_sections (fuel : nat) (payload : bytes) (offset : nat) :
    result MongodbProxyError Document :=
  match fuel with
  | O => Err MalformedMongoMessage
  | S fuel =>
      match payload !! offset with
      | None => Err MalformedMongoMessage
      | Some kind =>
          let offset := S offset in
          if bool_decide (kind = x00) then decode_document (drop offset payload)
          else if bool_decide (kind = x01) then
            if (length payload <? offset + 4)%nat then Err MalformedMongoMessage
            else
              let size := i32_le (take 4 (drop offset payload)) in
              if size <=? 4 then Err MalformedMongoMessage
              else op_msg_sections fuel payload (offset + Z.to_nat size)
          else Err MalformedMongoMessage
      end
  end.
Definition parse_op_msg_body (payload : bytes) : result MongodbProxyError Document :=
  if (length payload <? 5)%nat then Err MalformedMongoMessage
  else op_msg_sections (length payload) payload 4.

Definition parse_op_query_body (payload : bytes) : result MongodbProxyError Document :=
  if (length payload <? 12)%nat then Err MalformedMongoMessage
  else
    collection_len ← ok_or (position is_nul (drop 4 payload)) MalformedMongoMessage;
    let offset := (4 + collection_len + 1 + 8)%nat in
    if (length payload <=? offset)%nat then Err MalformedMongoMessage
    else decode_document (drop offset payload).

(** [read_message_limited]: the message and the rest of the stream. *)
Definition read_message_limited (max : Z) (stream : bytes) :
    result MongodbProxyError (MongoMessage * bytes) :=
  '(len_bytes, rest) ← ok_or (read_exact 4 stream) MongoIo;
  let len := i32_le len_bytes in
  if len <? MESSAGE_HEADER_LEN then Err MalformedMongoMessage
  else if max `min` MAX_BUFFERED_MESSAGE_BYTES <? len then Err MessageTooLarge
  else
    '(tl, rest) ← ok_or (read_exact (Z.to_nat len - 4) rest) MongoIo;
    let raw := len_bytes ++ tl in
    let op_code := i32_le (take 4 (drop 12 raw)) in
    let payload := drop 16 raw in
    body ← (if op_code =? OP_MSG then body ← parse_op_msg_body payload; Ok (Some body)
            else if op_code =? OP_QUERY then body ← parse_op_query_body payload; Ok (Some body)
            else Ok None);
    Ok (mkMongoMessage (i32_le (take 4 (drop 4 raw))) op_code body raw, rest).

(** ** The identity a message names *)

Definition command_name (m : MongoMessage) : option bytes :=
  body ← msg_body m; fst <$> head body.

Definition is_hello (m : MongoMessage) : bool :=
  bool_decide (command_name m ∈ [Some (lit "hello"); Some (lit "isMaster"); Some (lit "ismaster")]).

Definition is_enabled_flag (v : option Bson) : bool :=
  match v with Some (BInt32 x) | Some (BInt64 x) => x =? 1 | _ => false end.

(** [value.replace(from, to)]: left to right, the text found is not searched
    again.  The patterns have three bytes. *)
Fixpoint replace3 (a b c : byte) (to : bytes) (v : bytes) : bytes :=
  match v with
  | x :: tl =>
      match tl with
      | y :: tl2 =>
          match tl2 with
          | z :: tl3 =>
              if bool_decide (x = a) && bool_decide (y = b) && bool_decide (z = c)
              then to ++ replace3 a b c to tl3 else x :: replace3 a b c to tl
          | [] => v
          end
      | [] => v
      end
  | [] => []
  end.
Definition unescape_scram_username (v : bytes) : bytes :=
  replace3 "="%byte "3"%byte "D"%byte (lit "=") (replace3 "="%byte "2"%byte "C"%byte (lit ",") v).

Definition is_comma (b : byte) : bool := bool_decide (b = ","%byte).

Definition scram_username (first_message : bytes) : option bytes :=
  part ← find (λ part, begins_with (lit "n=") part) (split_on is_comma first_message);
  Some (unescape_scram_username (drop 2 part)).

Definition parse_scram_route (body : Document) (database_field : bytes) :
    result MongodbProxyError MongodbRoute :=
  database ← ok_or (get_str database_field body) MissingDatabase;
  payload ← ok_or (get_binary_generic (lit "payload") body) MissingMongoUsername;
  if negb (valid_utf8 payload) then Err MalformedMongoMessage
  else
    username ← ok_or (scram_username payload) MissingMongoUsername;
    Ok (mkMongodbRoute username database).

Definition auth_opcode (m : MongoMessage) : bool := (op_code m =? OP_MSG) || (op_code m =? OP_QUERY).

Definition parse_sasl_start_route (m : MongoMessage) : result MongodbProxyError MongodbRoute :=
  if negb (auth_opcode m) then Err (UnsupportedOpcode (op_code m))
  else
    body ← ok_or (msg_body m) MalformedMongoMessage;
    if negb (is_enabled_flag (doc_get (lit "saslStart") body)) then Err MalformedMongoMessage
    else parse_scram_route body (lit "$db").

Definition valid_managed_identifier (v : bytes) : bool :=
  let alpha b := between 65 90 b || between 97 122 b in
  match v with
  | [] => false
  | first :: rest =>
      (zlength v <=? 63) && alpha first
      && forallb (λ b, alpha b || between 48 57 b || bool_decide (b = "_"%byte)
                       || bool_decide (b = "-"%byte)) rest
  end.

Definition validate_managed_route (r : MongodbRoute) : result MongodbProxyError unit :=
  if valid_managed_identifier (mongo_user r) && valid_managed_identifier (mongo_db r) then Ok tt
  else Err InvalidHelloRoute.

Definition parse_speculative_route (speculative : Document) :
    result MongodbProxyError (option MongodbRoute) :=
  if negb (is_enabled_flag (doc_get (lit "saslStart") speculative)) then Ok None
  else if negb (bool_decide (get_str (lit "mechanism") speculative
                             ∈ [Some (lit "SCRAM-SHA-1"); Some (lit "SCRAM-SHA-256")]))
  then Ok None
  else
    match parse_scram_route speculative (lit "db") with
    | Err _ => Err InvalidHelloRoute
    | Ok route => validate_managed_route route ≫= λ _, Ok (Some route)
    end.

Definition parse_hello_speculative_route (m : MongoMessage) :
    result MongodbProxyError (option MongodbRoute) :=
  if negb (is_hello m) then Err MalformedMongoMessage
  else
    body ← ok_or (msg_body m) MalformedMongoMessage;
    match doc_get (lit "speculativeAuthenticate") body with
    | None => Ok None
    | Some (BDocument speculative) => parse_speculative_route speculative
    | Some _ => Err InvalidHelloRoute
    end.

Definition validate_sasl_continue (m : MongoMessage) (route : MongodbRoute) :
    result MongodbProxyError unit :=
  if negb (auth_opcode m) then Err (UnsupportedOpcode (op_code m))
  else
    body ← ok_or (msg_body m) MalformedMongoMessage;
    let is_continue := is_enabled_flag (doc_get (lit "saslContinue") body) in
    let same_database := bool_decide (get_str (lit "$db") body = Some (mongo_db route)) in
    if negb is_continue || negb same_database then Err AuthIdentityChanged else Ok tt.

(** ** Replies *)

Definition F64_SIGN : Z := 0x8000000000000000.
Definition bits_finite (bits : Z) : bool := Z.land bits 0x7FF0000000000000 <? 0x7FF0000000000000.

Definition command_succeeded (body : Document) : result MongodbProxyError bool :=
  match doc_get (lit "ok") body with
  | Some (BInt32 x) | Some (BInt64 x) => Ok (negb (x =? 0))
  | Some (BDouble bits) =>
      if bits_finite bits then Ok (negb ((bits =? 0) || (bits =? F64_SIGN)))
      else Err InvalidAuthResponse
  | _ => Err InvalidAuthResponse
  end.

Definition auth_reply_state (m : MongoMessage) (speculative : bool) :
    result MongodbProxyError AuthReplyState :=
  body ← ok_or (msg_body m) InvalidAuthResponse;
  succeeded ← command_succeeded body;
  if negb succeeded then Ok Rejected
  else
    auth ← (if speculative then
              match doc_get (lit "speculativeAuthenticate") body with
              | Some (BDocument auth) => Ok (Some auth)
              | None => Ok None
              | Some _ => Err InvalidAuthResponse
              end
            else Ok (Some body));
    match auth with
    | None => Ok SpeculativeFallback
    | Some auth =>
        refused ← (if contains_key (lit "ok") auth then
                     succeeded ← command_succeeded auth; Ok (negb succeeded)
                   else Ok false);
        if refused : bool then Ok Rejected
        else
          match get_bool (lit "done") auth with
          | Some true => Ok Authenticated
          | Some false => Ok Continue
          | None => Err InvalidAuthResponse
          end
    end.

Definition validate_hello_reply (m : MongoMessage) : result MongodbProxyError unit :=
  body ← ok_or (msg_body m) MalformedMongoMessage;
  succeeded ← command_succeeded body;
  if succeeded && contains_key (lit "maxWireVersion") body then Ok tt else Err MalformedMongoMessage.

(** [encode_command]. *)
Definition encode_command (body : Document) : result MongodbProxyError bytes :=
  body ← ok_or (bson_encode body) BsonEncode;
  let len := MESSAGE_HEADER_LEN + 5 + zlength body in
  if i32_max <? len then Err MessageTooLarge
  else Ok (to_le 4 len ++ to_le 4 1 ++ to_le 4 0 ++ to_le 4 OP_MSG ++ to_le 4 0 ++ [x00] ++ body).

Definition op_msg_response (response_to : Z) (body : Document) : result MongodbProxyError bytes :=
  body ← ok_or (bson_encode body) BsonEncode;
  let payload := to_le 4 0 ++ [x00] ++ body in
  Ok (to_le 4 (MESSAGE_HEADER_LEN + zlength payload) ++ to_le 4 1 ++ to_le 4 response_to
      ++ to_le 4 OP_MSG ++ payload).

Definition op_reply_response (response_to : Z) (body : Document) : result MongodbProxyError bytes :=
  body ← ok_or (bson_encode body) BsonEncode;
  Ok (to_le 4 (MESSAGE_HEADER_LEN + 20 + zlength body) ++ to_le 4 1 ++ to_le 4 response_to
      ++ to_le 4 OP_REPLY ++ to_le 4 0 ++ to_le 8 0 ++ to_le 4 0 ++ to_le 4 1 ++ body).

(** The bytes of [write_response]. *)
Definition response_bytes (request : MongoMessage) (body : Document) : result MongodbProxyError bytes :=
  if op_code request =? OP_MSG then op_msg_response (request_id request) body
  else if op_code request =? OP_QUERY then op_reply_response (request_id request) body
  else Err (UnsupportedOpcode (op_code request)).

(** The bytes of [relay_auth_response]: a hello reply offers no compression. *)
Definition auth_response_bytes (request response : MongoMessage) (speculative : bool) :
    result MongodbProxyError bytes :=
  if negb speculative then Ok (msg_raw response)
  else
    body ← ok_or (msg_body response) InvalidAuthResponse;
    response_bytes request (doc_insert (lit "compression") (BArray []) body).

Definition hello_response (now : Bson) (request : MongoMessage) : Document :=
  let response :=
    [(lit "ok", BDouble 0x3FF0000000000000); (lit "helloOk", BBool true);
     (lit "isWritablePrimary", BBool true); (lit "ismaster", BBool true);
     (lit "secondary", BBool false); (lit "maxBsonObjectSize", BInt32 16777216);
     (lit "maxMessageSizeBytes", BInt32 MAX_WIRE_MESSAGE_BYTES);
     (lit "maxWriteBatchSize", BInt32 100000); (lit "localTime", now);
     (lit "maxWireVersion", BInt32 21); (lit "minWireVersion", BInt32 0);
     (lit "logicalSessionTimeoutMinutes", BInt32 30); (lit "connectionId", BInt32 1);
     (lit "readOnly", BBool false); (lit "compression", BArray [])] in
  if match msg_body request with
     | Some body => contains_key (lit "saslSupportedMechs") body
     | None => false
     end
  then doc_insert (lit "saslSupportedMechs")
         (BArray [BString (lit "SCRAM-SHA-1"); BString (lit "SCRAM-SHA-256")]) response
  else response.

Definition backend_hello_request : result MongodbProxyError bytes :=
  encode_command [(lit "hello", BInt32 1); (lit "helloOk", BBool true); (lit "$db", BString (lit "admin"))].

Definition command_error (message : bytes) (code : Z) : Document :=
  [(lit "ok", BDouble 0); (lit "errmsg", BString message); (lit "code", BInt32 code);
   (lit "codeName", BString (lit "AuthenticationFailed"))].
(** More turns than the payload has bytes change nothing. *)
Lemma op_msg_sections_fuel f f' payload offset :
  (length payload - offset < f)%nat → (length payload - offset < f')%nat →
  op_msg_sections f payload offset = op_msg_sections f' payload offset.
Proof.
  revert f' offset. induction f as [|f IH]; intros [|f'] offset Hf Hf'; [lia..|].
  cbn [op_msg_sections]. destruct (payload !! offset) as [kind|] eqn:E; [|done].
  apply lookup_lt_Some in E. case_bool_decide; [done|]. case_bool_decide; [|done].
  destruct (_ <? _)%nat; [done|]. destruct (Z.leb_spec (i32_le (take 4 (drop (S offset) payload))) 4); [done|].
  apply IH; lia.
Qed.

(** What is read is what was sent: the message is a prefix of the stream, and
    reads the same whatever follows it. *)
Lemma read_message_prefix max s m rest :
  read_message_limited max s = Ok (m, rest) →
  s = msg_raw m ++ rest
  ∧ ∀ rest', read_message_limited max (msg_raw m ++ rest') = Ok (m, rest').
Proof.
  unfold read_message_limited. intros ([len_bytes r] & [-> Hl]%ok_or_Ok%read_exact_Some & H1)%bind_Ok.
  cbn in H1.
  destruct (_ <? _) eqn:Hlow in H1; [done|]. destruct (_ <? _) eqn:Hhigh in H1; [done|].
  apply bind_Ok in H1 as ([tl r'] & [-> Ht]%ok_or_Ok%read_exact_Some & H1). cbn in H1.
  apply bind_Ok in H1 as (body & Hb & [= <- <-]). cbn [msg_raw].
  split; [by rewrite <-app_assoc|]. intros rest'. rewrite <-app_assoc, read_exact_app by done. cbn.
  rewrite Hlow, Hhigh.
  rewrite read_exact_app by done. cbn. by rewrite Hb.
Qed.
End messages.

(** ** User names of SCRAM *)

(** RFC 5802: a comma and an equals sign in a name are escaped. *)
Definition escape_scram_username (v : bytes) : bytes :=
  v ≫= λ b, if bool_decide (b = ","%byte) then lit "=2C"
            else if bool_decide (b = "="%byte) then lit "=3D" else [b].

Lemma replace3_skip a b c to x v : x ≠ a → replace3 a b c to (x :: v) = x :: replace3 a b c to v.
Proof.
  intros Hx. destruct v as [|y [|z v]]; [done..|]. cbn [replace3]. by rewrite bool_decide_false.
Qed.

Lemma replace3_miss a b c to x y v :
  y ≠ b → replace3 a b c to (x :: y :: v) = x :: replace3 a b c to (y :: v).
Proof.
  intros Hy. destruct v as [|z v]; [done|]. cbn [replace3].
  rewrite (bool_decide_false (y = b)) by done. by rewrite andb_false_r.
Qed.

Lemma replace3_hit a b c to v : replace3 a b c to (a :: b :: c :: v) = to ++ replace3 a b c to v.
Proof. cbn [replace3]. rewrite !(bool_decide_true (_ = _)) by done. done. Qed.

Lemma unescape_escape v : unescape_scram_username (escape_scram_username v) = v.
Proof.
  unfold unescape_scram_username. induction v as [|x v IH]; [done|].
  unfold escape_scram_username. cbn [mbind list_bind].
  change (list_bind _ _ _ v) with (escape_scram_username v).
  case_bool_decide as Hc; [subst|case_bool_decide as He; [subst|]].
  - change (lit "=2C") with ["="; "2"; "C"]%byte. cbn [app]. rewrite replace3_hit.
    change (lit ",") with [","%byte]. cbn [app]. rewrite replace3_skip by done. by f_equal.
  - change (lit "=3D") with ["="; "3"; "D"]%byte. cbn [app].
    rewrite replace3_miss, !(replace3_skip "="%byte "2"%byte), replace3_hit by done.
    change (lit "=" ++ ?x) with ("="%byte :: x). by f_equal.
  - cbn [app]. rewrite !replace3_skip by done. by f_equal.
Qed.

Lemma escape_no_comma v : Forall (λ b, is_comma b = false) (escape_scram_username v).
Proof.
  unfold escape_scram_username. induction v as [|x v IH]; cbn; [constructor|].
  apply Forall_app_2; [|done]. case_bool_decide; [repeat constructor|].
  case_bool_decide; [repeat constructor|]. constructor; [|done]. by apply bool_decide_false.
Qed.

(** The name a SCRAM client sends, whatever its bytes, is the name the gateway
    routes by: in the first message of a client without channel binding the
    user is what was escaped into it. *)
Theorem scram_username_exact user rest :
  scram_username (lit "n,," ++ lit "n=" ++ escape_scram_username user ++ lit "," ++ rest) = Some user.
Proof.
  unfold scram_username. change (lit "n,," ++ ?x) with (["n"%byte] ++ ","%byte :: [] ++ ","%byte :: x).
  rewrite !(split_on_app is_comma) by first [done | repeat constructor].
  change (lit "," ++ rest) with (","%byte :: rest). rewrite app_assoc, split_on_app;
    [|apply Forall_app_2; [repeat constructor|apply escape_no_comma]|done].
  change (find _ _) with (Some (lit "n=" ++ escape_scram_username user)). cbn [mbind option_bind].
  change (drop 2 _) with (escape_scram_username user). by rewrite unescape_escape.
Qed.

(** ** The listener *)

Definition MAX_HELLO_MESSAGES : nat := 8.
Definition AUTHENTICATION_FAILED_CODE : Z := 18.

Section listener.
Context {Sem : Type} `{Semaphore Sem} `{BsonCodec}.

(** The [ListenerError]s of the MongoDB listener. *)
Inductive MongodbListenerError :=
  | MgIo
  | MgProxy (e : MongodbProxyError)
  | MgRouteNotFound
  | MgBackend (instance : string)
  | MgMessageLimit.

(** The two peers and the registry of sessions: what each peer will still send,
    what was handed to [write_all] for each, the writes that will fail. *)
Record Dialogue := mkDialogue {
  client_in : bytes;
  backend_in : bytes;
  to_client : list bytes;
  to_backend : list bytes;
  write_faults : list bool;
  registry : Sessions Sem;
}.
#[export] Instance Dialogue_eta : Settable Dialogue :=
  λ d, mkDialogue (client_in d) (backend_in d) (to_client d) (to_backend d) (write_faults d)
         (registry d).

Definition Talk (A : Type) : Type := Dialogue → result MongodbListenerError A * Dialogue.
#[export] Instance Talk_ret : MRet Talk := λ A a d, (Ok a, d).
#[export] Instance Talk_bind : MBind Talk := λ A B f m d,
  match m d with (Ok a, d) => f a d | (Err e, d) => (Err e, d) end.

Definition talk_fail {A} (e : MongodbListenerError) : Talk A := λ d, (Err e, d).
Definition talk_lift {A} (r : result MongodbProxyError A) : Talk A := λ d,
  match r with Ok a => (Ok a, d) | Err e => (Err (MgProxy e), d) end.

(** [read_message_limited] on either peer; no peer is read after an error. *)
Definition mongo_read_client : Talk MongoMessage := λ d,
  match read_message_limited MAX_MONGODB_HANDSHAKE (client_in d) with
  | Ok (m, rest) => (Ok m, d <| client_in := rest |>)
  | Err e => (Err (MgProxy e), d)
  end.
Definition mongo_read_backend : Talk MongoMessage := λ d,
  match read_message_limited MAX_MONGODB_HANDSHAKE (backend_in d) with
  | Ok (m, rest) => (Ok m, d <| backend_in := rest |>)
  | Err e => (Err (MgProxy e), d)
  end.

Definition write_done (e : MongodbListenerError) : Talk unit := λ d,
  (if default false (head (write_faults d)) then Err e else Ok tt, d <| write_faults ::= tail |>).
Definition send_client (v : bytes) : Talk unit := λ d,
  write_done (MgProxy MongoIo) (d <| to_client ::= (.++ [v]) |>).
Definition send_backend (v : bytes) : Talk unit := λ d,
  write_done MgIo (d <| to_backend ::= (.++ [v]) |>).

Definition write_response (request : MongoMessage) (body : Document) : Talk unit :=
  talk_lift (response_bytes request body) ≫= send_client.
Definition relay_auth_response (request response : MongoMessage) (speculative : bool) : Talk unit :=
  talk_lift (auth_response_bytes request response speculative) ≫= send_client.

(** Tells the client, and ends. *)
Definition refuse {A} (request : MongoMessage) (message : bytes) (e : MongodbListenerError) : Talk A :=
  write_response request (command_error message AUTHENTICATION_FAILED_CODE) ≫= λ _, talk_fail e.

(** [m], or the end of the session when it fails. *)
Definition or_drop {A} (target : ResolvedRoute) (m : Talk A) : Talk A := λ d,
  match m d with
  | (Err e, d) => (Err e, d <| registry ::= drop_session (resolved_session target) |>)
  | r => r
  end.

(** The store at the lookup, and as the activation sees it; [connect] is what
    the backend at an endpoint will answer, if it can be reached. *)
Context (st0 a0 a1 a2 : InstanceState) (connect : BackendEndpoint → option bytes).

Definition activate (pending : PendingMongodbRoute) : Talk (option ResolvedRoute) := λ d,
  let '(target, reg) := activate_mongodb_at a0 a1 a2 pending (registry d) in
  (Ok target, d <| registry := reg |>).

(** The loop of [authenticate_mongodb]. *)
Fixpoint authenticate_loop (n : nat) (pending : PendingMongodbRoute) (route : MongodbRoute)
    (request : MongoMessage) (speculative : bool) : Talk (option ResolvedRoute) :=
  match n with
  | O => talk_fail MgMessageLimit
  | S n =>
      response ← mongo_read_backend;
      state ← talk_lift (auth_reply_state response speculative);
      match state with
      | SpeculativeFallback =>
          relay_auth_response request response speculative ≫= λ _,
          next ← mongo_read_client;
          fallback_route ← talk_lift (parse_sasl_start_route next);
          if negb (bool_decide (fallback_route = route)) then
            refuse next (lit "Authentication identity changed") (MgProxy AuthIdentityChanged)
          else
            send_backend (msg_raw next) ≫= λ _,
            authenticate_loop n pending route next false
      | Rejected =>
          relay_auth_response request response speculative ≫= λ _, mret None
      | Authenticated =>
          target ← activate pending;
          match target with
          | None => refuse request (lit "Authentication route changed") MgRouteNotFound
          | Some target =>
              or_drop target (relay_auth_response request response speculative) ≫= λ _,
              mret (Some target)
          end
      | Continue =>
          relay_auth_response request response speculative ≫= λ _,
          next ← mongo_read_client;
          match validate_sasl_continue next route with
          | Err error => refuse next (error_text error) (MgProxy error)
          | Ok _ =>
              send_backend (msg_raw next) ≫= λ _,
              authenticate_loop n pending route next false
          end
      end
  end.

Definition authenticate_mongodb (pending : PendingMongodbRoute) (route : MongodbRoute)
    (request : MongoMessage) (backend_hello : option bytes) : Talk (option ResolvedRoute) :=
  let speculative := is_hello request in
  (if negb speculative then
     hello ← match backend_hello with
             | Some hello => mret hello
             | None => talk_lift backend_hello_request
             end;
     send_backend hello ≫= λ _,
     response ← mongo_read_backend;
     talk_lift (validate_hello_reply response)
   else mret tt) ≫= λ _,
  send_backend (msg_raw request) ≫= λ _,
  authenticate_loop MAX_HELLO_MESSAGES pending route request speculative.

Definition connect_backend (pending : PendingMongodbRoute) : Talk unit := λ d,
  match connect (target_endpoint (mongo_target pending)) with
  | None => (Err (MgBackend (target_instance_id (mongo_target pending))), d)
  | Some answers => (Ok tt, d <| backend_in := answers |>)
  end.

(** The loop of [handle_mongodb_client]. *)
Fixpoint greet (n : nat) (backend_hello : option bytes) : Talk (option ResolvedRoute) :=
  match n with
  | O => talk_fail MgMessageLimit
  | S n =>
      message ← mongo_read_client;
      match (if is_hello message then parse_hello_speculative_route message
             else Some <$> parse_sasl_start_route message) with
      | Ok None =>
          write_response message (hello_response (bson_now n) message) ≫= λ _,
          greet n (Some (msg_raw message))
      | Err error => refuse message (error_text error) (MgProxy error)
      | Ok (Some route) =>
          match pending_mongodb st0 (text (mongo_user route)) (text (mongo_db route)) with
          | None => refuse message (lit "Authentication failed") MgRouteNotFound
          | Some pending =>
              connect_backend pending ≫= λ _,
              authenticate_mongodb pending route message backend_hello
          end
      end
  end.

(** [handle_mongodb_client] up to the tunnel. *)
Definition prepare_mongodb (client : bytes) (faults : list bool) (reg : Sessions Sem) :
    result MongodbListenerError (option ResolvedRoute) * Dialogue :=
  greet MAX_HELLO_MESSAGES None (mkDialogue client [] [] [] faults reg).
(** ** What the backend is told *)

(** The bytes of one message that may go to a backend while [route] is being
    authenticated: a hello that names nobody, a hello or a [saslStart] that names
    this user and this database, or a [saslContinue] for this database. *)
Definition speaks_for (route : MongodbRoute) (v : bytes) : Prop :=
  backend_hello_request = Ok v
  ∨ ∃ m, read_message_limited MAX_MONGODB_HANDSHAKE v = Ok (m, [])
      ∧ (parse_hello_speculative_route m = Ok None
         ∨ parse_hello_speculative_route m = Ok (Some route)
         ∨ parse_sasl_start_route m = Ok route
         ∨ validate_sasl_continue m route = Ok tt).

(** A step of the dialogue that opens no session: the streams move on, and the
    backend is told what it may be told. *)
Record quiet_talk (route : MongodbRoute) (d d' : Dialogue) : Prop := mkQuiet {
  quiet_backend : ∃ sent, to_backend d' = to_backend d ++ sent ∧ Forall (speaks_for route) sent;
  quiet_client_in : ∃ used, client_in d = used ++ client_in d';
  quiet_backend_in : ∃ used, backend_in d = used ++ backend_in d';
  quiet_registry : registry d' = registry d;
}.

(** The end of an authentication. *)
Record ended (route : MongodbRoute) (pending : PendingMongodbRoute) (d : Dialogue)
    (r : result MongodbListenerError (option ResolvedRoute)) (d' : Dialogue) : Prop := mkEnded {
  ended_backend : ∃ sent, to_backend d' = to_backend d ++ sent ∧ Forall (speaks_for route) sent;
  ended_client_in : ∃ used, client_in d = used ++ client_in d';
  ended_session :
    match r with
    | Ok (Some target) =>
        let t := mongo_target pending in
        resolve_mongodb a0 (mongo_username pending) (mongo_database pending) = Some t
        ∧ target = mkResolvedRoute (target_instance_id t) (target_endpoint t) (resolved_session target)
        ∧ one_more (target_instance_id t) true (resolved_session target) (registry d) (registry d')
        ∧ route_is_current a2 (target_instance_id t) (target_revision t) = true
        ∧ ∃ before reply speculative,
            backend_in d = before ++ msg_raw reply ++ backend_in d'
            ∧ auth_reply_state reply speculative = Ok Authenticated
    | _ => live (registry d') = live (registry d)
    end;
}.

(** Steps that are quiet whatever happens, and end with a value of [P]. *)
Definition talks {A} (route : MongodbRoute) (P : A → Prop) (m : Talk A) : Prop :=
  ∀ d r d', m d = (r, d') → quiet_talk route d d' ∧ match r with Ok a => P a | Err _ => True end.
Definition ends (route : MongodbRoute) (pending : PendingMongodbRoute)
    (m : Talk (option ResolvedRoute)) : Prop :=
  ∀ d r d', registry_exact (registry d) → next_id (registry d) < u64_max →
    m d = (r, d') → ended route pending d r d'.

Lemma quiet_step_refl route d : quiet_talk route d d.
Proof. split; [by exists []; rewrite app_nil_r|by exists []..|done]. Qed.

Lemma quiet_ended route pending d d1 r d' :
  quiet_talk route d d1 → ended route pending d1 r d' → ended route pending d r d'.
Proof.
  intros [(s1 & E1 & F1) [u1 C1] [b1 B1] R1] [(s2 & E2 & F2) [u2 C2] Hs]. split.
  - exists (s1 ++ s2). rewrite E2, E1, app_assoc. split; [done|by apply Forall_app_2].
  - exists (u1 ++ u2). by rewrite C1, C2, app_assoc.
  - rewrite R1 in Hs. destruct r as [[target|]|e]; [|done..].
    destruct Hs as (Ht & Hr & Hm & Hc & before & reply & spec & Hb & Ha).
    do 4 (split; [done|]). exists (b1 ++ before), reply, spec. by rewrite B1, Hb, app_assoc.
Qed.

Lemma quiet_step_trans route d d1 d' : quiet_talk route d d1 → quiet_talk route d1 d' → quiet_talk route d d'.
Proof.
  intros [(s1 & E1 & F1) [u1 C1] [b1 B1] R1] [(s2 & E2 & F2) [u2 C2] [b2 B2] R2]. split.
  - exists (s1 ++ s2). rewrite E2, E1, app_assoc. split; [done|by apply Forall_app_2].
  - exists (u1 ++ u2). by rewrite C1, C2, app_assoc.
  - exists (b1 ++ b2). by rewrite B1, B2, app_assoc.
  - by rewrite R2.
Qed.

Lemma quiet_end route pending d r d' :
  quiet_talk route d d' → match r with Ok (Some _) => False | _ => True end → ended route pending d r d'.
Proof. intros [? ? _ R] Hr. split; [done..|]. destruct r as [[?|]|?]; [done|by rewrite R..]. Qed.

Lemma talks_bind {A B} route (P : A → Prop) (Q : B → Prop) (m : Talk A) (f : A → Talk B) :
  talks route P m → (∀ a, P a → talks route Q (f a)) → talks route Q (m ≫= f).
Proof.
  intros Hm Hf d r d'. unfold mbind, Talk_bind. destruct (m d) as [[a|e] d1] eqn:E;
    apply Hm in E as [Hq Ha].
  - intros [Hq' Hr]%Hf; [|done]. split; [by eapply quiet_step_trans|done].
  - by intros [= <- <-].
Qed.

Lemma ends_bind {A} route pending (P : A → Prop) (m : Talk A) f :
  talks route P m → (∀ a, P a → ends route pending (f a)) → ends route pending (m ≫= f).
Proof.
  intros Hm Hf d r d' Hex Hn. unfold mbind, Talk_bind. destruct (m d) as [[a|e] d1] eqn:E;
    apply Hm in E as [Hq Ha].
  - intros He. eapply quiet_ended; [done|]. pose proof (quiet_registry _ _ _ Hq) as R.
    eapply Hf; [done|by rewrite R..|done].
  - intros [= <- <-]. by apply quiet_end.
Qed.

Lemma talks_end route pending m : talks route (λ o, o = None) m → ends route pending m.
Proof.
  intros Hm d r d' _ _ [Hq Hr]%Hm. apply quiet_end; [done|]. by destruct r as [[?|]|?].
Qed.

Lemma talks_mono {A} route (P Q : A → Prop) (m : Talk A) :
  (∀ a, P a → Q a) → talks route P m → talks route Q m.
Proof. intros HPQ Hm d [a|e] d' [? ?]%Hm; auto. Qed.

Lemma talks_ret {A} route (a : A) : talks route (eq a) (mret a).
Proof. intros d r d' [= <- <-]. split; [apply quiet_step_refl|done]. Qed.

Lemma talks_fail {A} route (P : A → Prop) e : talks route P (talk_fail e).
Proof. intros d r d' [= <- <-]. split; [apply quiet_step_refl|done]. Qed.

Lemma talks_lift {A} route (x : result MongodbProxyError A) :
  talks route (λ a, x = Ok a) (talk_lift x).
Proof.
  intros d r d'. unfold talk_lift. destruct x; intros [= <- <-]; (split; [apply quiet_step_refl|done]).
Qed.

Lemma talks_read_client route :
  talks route (λ m, read_message_limited MAX_MONGODB_HANDSHAKE (msg_raw m) = Ok (m, []))
    mongo_read_client.
Proof.
  intros d r d'. unfold mongo_read_client.
  destruct (read_message_limited _ _) as [[m rest]|e] eqn:E; intros [= <- <-];
    [|split; [apply quiet_step_refl|done]].
  apply read_message_prefix in E as [E Hm]. specialize (Hm []). rewrite app_nil_r in Hm.
  split; [|done]. split; [by exists []; rewrite app_nil_r|by exists (msg_raw m)|by exists []|done].
Qed.

Lemma read_backend_cases route d r d' :
  mongo_read_backend d = (r, d') →
  quiet_talk route d d' ∧ match r with Ok m => backend_in d = msg_raw m ++ backend_in d' | Err _ => True end.
Proof.
  unfold mongo_read_backend. destruct (read_message_limited _ _) as [[m rest]|e] eqn:E; intros [= <- <-];
    [|split; [apply quiet_step_refl|done]].
  apply read_message_prefix in E as [E _].
  split; [|done]. split; [by exists []; rewrite app_nil_r|by exists []|by exists (msg_raw m)|done].
Qed.

Lemma talks_read_backend route : talks route (λ _, True) mongo_read_backend.
Proof. intros d r d' [Hq _]%(read_backend_cases route). split; [done|by destruct r]. Qed.

Lemma talks_send_client route v : talks route (λ _, True) (send_client v).
Proof.
  intros d r d' [= <- <-]. split; [|by case_match].
  split; [by exists []; rewrite app_nil_r|by exists []..|done].
Qed.

Lemma talks_send_backend route v : speaks_for route v → talks route (λ _, True) (send_backend v).
Proof.
  intros Hv d r d' [= <- <-]. split; [|by case_match].
  split; [by exists [v]; split; [|by constructor]|by exists []..|done].
Qed.

Lemma talks_write_response route request body : talks route (λ _, True) (write_response request body).
Proof. eapply talks_bind; [apply talks_lift|]. intros v _. apply talks_send_client. Qed.

Lemma talks_relay route request response speculative :
  talks route (λ _, True) (relay_auth_response request response speculative).
Proof. eapply talks_bind; [apply talks_lift|]. intros v _. apply talks_send_client. Qed.

Lemma talks_refuse {A} route (P : A → Prop) request message e : talks route P (refuse request message e).
Proof. eapply talks_bind; [apply talks_write_response|]. intros _ _. apply talks_fail. Qed.
Lemma relay_same request response speculative d r d' :
  relay_auth_response request response speculative d = (r, d') →
  client_in d' = client_in d ∧ backend_in d' = backend_in d ∧ to_backend d' = to_backend d
  ∧ registry d' = registry d.
Proof.
  unfold relay_auth_response, mbind, Talk_bind, talk_lift.
  destruct (auth_response_bytes _ _ _); by intros [= <- <-].
Qed.

Lemma activate_mongodb_cases pending reg t reg' :
  registry_exact reg → next_id reg < u64_max →
  activate_mongodb_at a0 a1 a2 pending reg = (t, reg') →
  match t with
  | Some target =>
      let t := mongo_target pending in
      resolve_mongodb a0 (mongo_username pending) (mongo_database pending) = Some t
      ∧ target = mkResolvedRoute (target_instance_id t) (target_endpoint t) (resolved_session target)
      ∧ one_more (target_instance_id t) true (resolved_session target) reg reg'
      ∧ route_is_current a2 (target_instance_id t) (target_revision t) = true
  | None => live reg' = live reg
  end.
Proof.
  intros Hex Hn. rewrite activate_mongodb_at_eq.
  destruct (resolve_mongodb _ _ _) as [x|]; [|by intros [= <- <-]].
  case_bool_decide as Ht; [subst|by intros [= <- <-]].
  intros Ho%open_route_cases; [|done..]. destruct t as [target|]; [|done].
  destruct Ho as (Htarget & Hm & _ & Hc). auto.
Qed.

(** A session is opened only for the route that is still current, and closed
    again when the client cannot be told. *)
Lemma activation_ends route pending request response speculative d d1 before r d' :
  registry_exact (registry d) → next_id (registry d) < u64_max →
  quiet_talk route d d1 → backend_in d = before ++ msg_raw response ++ backend_in d1 →
  auth_reply_state response speculative = Ok Authenticated →
  (activate pending ≫= λ target,
     match target with
     | None => refuse request (lit "Authentication route changed") MgRouteNotFound
     | Some target =>
         or_drop target (relay_auth_response request response speculative) ≫= λ _, mret (Some target)
     end) d1 = (r, d') →
  ended route pending d r d'.
Proof.
  intros Hex Hn Hq Hb Ha. pose proof (quiet_registry _ _ _ Hq) as R.
  unfold mbind at 1, Talk_bind at 1, activate.
  destruct (activate_mongodb_at _ _ _ _ _) as [t reg] eqn:Hact. rewrite R in Hact.
  apply activate_mongodb_cases in Hact; [|done..]. destruct t as [t|].
  - destruct Hact as (Ht & Htarget & Hm & Hc). unfold mbind, Talk_bind, or_drop.
    destruct (relay_auth_response _ _ _ _) as [[[]|e] d2] eqn:Hrelay;
      apply relay_same in Hrelay as (E1 & E2 & E3 & E4); cbn in E1, E2, E3, E4;
      destruct Hq as [HB HC _ _]; intros [= <- <-]; split; cbn; rewrite ?E1, ?E2, ?E3, ?E4;
      [done..| |done|done|].
    + do 4 (split; [done|]). by exists before, response, speculative.
    + by eapply drop_one_more.
  - intros [Hq2 Hr]%(talks_refuse route (λ _, False)).
    destruct Hq as [(s1 & E1 & F1) [u1 C1] _ _], Hq2 as [(s2 & E2 & F2) [u2 C2] _ R2].
    cbn in E2, C2, R2. split; [| |by destruct r as [[?|]|?]; [..|rewrite R2]].
    + exists (s1 ++ s2). rewrite E2, E1, app_assoc. split; [done|by apply Forall_app_2].
    + exists (u1 ++ u2). by rewrite C1, C2, app_assoc.
Qed.

Lemma authenticate_loop_ends n pending route request speculative :
  ends route pending (authenticate_loop n pending route request speculative).
Proof.
  revert request speculative. induction n as [|n IH]; intros request speculative;
    [apply talks_end, talks_fail|].
  intros d r d' Hex Hn. cbn [authenticate_loop]. unfold mbind at 1, Talk_bind at 1.
  destruct (mongo_read_backend d) as [[response|e] d1] eqn:E; apply (read_backend_cases route) in E as [Hq Hb];
    [|by intros [= <- <-]; apply quiet_end].
  unfold mbind at 1, Talk_bind at 1, talk_lift at 1.
  destruct (auth_reply_state response speculative) as [state|e] eqn:Hs;
    [|by intros [= <- <-]; apply quiet_end].
  pose proof (quiet_registry _ _ _ Hq) as R. rewrite <-R in Hex, Hn.
  destruct state; intros Hrun.
  - eapply quiet_ended; [done|]. revert Hrun. apply ends_bind with (λ _, True); [apply talks_relay| |done..].
    intros _ _. eapply ends_bind; [apply talks_read_client|]. intros next Hread.
    eapply ends_bind; [apply talks_lift|]. intros fallback Hf. cbn beta in Hf.
    case_bool_decide as He; [subst fallback|apply talks_end, talks_refuse]. cbn [negb].
    eapply ends_bind; [apply talks_send_backend|intros _ _; apply IH].
    right. exists next. auto.
  - eapply quiet_ended; [done|]. revert Hrun. apply ends_bind with (λ _, True); [apply talks_relay| |done..].
    intros _ _. eapply ends_bind; [apply talks_read_client|]. intros next Hread.
    destruct (validate_sasl_continue next route) as [[]|e] eqn:Hv; [|apply talks_end, talks_refuse].
    eapply ends_bind; [apply talks_send_backend|intros _ _; apply IH].
    right. exists next. auto.
  - rewrite R in Hex, Hn. by eapply (activation_ends _ _ _ _ _ _ _ []).
  - eapply quiet_ended; [done|]. revert Hrun. apply ends_bind with (λ _, True); [apply talks_relay| |done..].
    intros _ _. apply talks_end. eapply talks_mono; [|apply talks_ret]. by intros ? <-.
Qed.

Lemma authenticate_ends pending route request backend_hello :
  read_message_limited MAX_MONGODB_HANDSHAKE (msg_raw request) = Ok (request, []) →
  (if is_hello request then parse_hello_speculative_route request
   else Some <$> parse_sasl_start_route request) = Ok (Some route) →
  (∀ v, backend_hello = Some v → speaks_for route v) →
  ends route pending (authenticate_mongodb pending route request backend_hello).
Proof.
  intros Hread Hp Hh. unfold authenticate_mongodb.
  apply ends_bind with (λ _, True).
  - destruct (is_hello request); [by eapply talks_mono; [|apply talks_ret]|]. cbn [negb].
    apply talks_bind with (speaks_for route).
    { destruct backend_hello as [v|].
      - eapply talks_mono; [|apply talks_ret]. intros ? <-. auto.
      - eapply talks_mono; [|apply talks_lift]. intros v Hv. by left. }
    intros v Hv. eapply talks_bind; [by apply talks_send_backend|]. intros _ _.
    eapply talks_bind; [apply talks_read_backend|]. intros m _.
    eapply talks_mono; [|apply talks_lift]. done.
  - intros _ _. eapply ends_bind; [apply talks_send_backend|intros _ _; apply authenticate_loop_ends].
    right. exists request. split; [done|]. destruct (is_hello request); [auto|].
    destruct (parse_sasl_start_route request) as [x|]; [|done]. injection Hp as ->. auto.
Qed.

(** What a client gets in the end. *)
Definition served (sha : string → string) (client : bytes) (reg : Sessions Sem)
    (r : result MongodbListenerError (option ResolvedRoute)) (d : Dialogue) : Prop :=
  ∃ route, Forall (speaks_for route) (to_backend d)
    ∧ (∃ used, client = used ++ client_in d)
    ∧ match r with
      | Ok (Some target) =>
          ∃ id m, owner sha a0 (KDatabase Mongodb (text (mongo_user route)) (text (mongo_db route))) id m
            ∧ resolve_mongodb st0 (text (mongo_user route)) (text (mongo_db route))
              = Some (route_target a0 id m)
            ∧ target = mkResolvedRoute id (target_endpoint (route_target a0 id m)) (resolved_session target)
            ∧ one_more id true (resolved_session target) reg (registry d)
            ∧ route_is_current a2 id (target_revision (route_target a0 id m)) = true
            ∧ ∃ before reply speculative,
                connect (resolved_endpoint target) = Some (before ++ msg_raw reply ++ backend_in d)
                ∧ auth_reply_state reply speculative = Ok Authenticated
      | _ => live (registry d) = live reg
      end.

(** Nobody has been named to the backend yet. *)
Definition unnamed (d : Dialogue) : Prop := ∀ route, Forall (speaks_for route) (to_backend d).
Definition all_quiet (d d' : Dialogue) : Prop := ∀ route, quiet_talk route d d'.

Lemma all_quiet_unnamed d d' : all_quiet d d' → unnamed d → unnamed d'.
Proof. intros Hq Hu route. destruct (Hq route) as [(s & -> & F) _ _ _]. by apply Forall_app_2. Qed.

Lemma quiet_served sha d r d' :
  unnamed d → all_quiet d d' → match r with Ok (Some _) => False | _ => True end →
  served sha (client_in d) (registry d) r d'.
Proof.
  intros Hu Hq Hr. exists (mkMongodbRoute [] []). split; [by apply (all_quiet_unnamed d)|].
  destruct (Hq (mkMongodbRoute [] [])) as [_ C _ R]. split; [done|].
  destruct r as [[?|]|?]; [done|by rewrite R..].
Qed.

Lemma refuse_served sha request message e d r d' :
  unnamed d → refuse request message e d = (r, d') → served sha (client_in d) (registry d) r d'.
Proof.
  intros Hu Hrun.
  pose proof (λ route, talks_refuse route (λ _, False) _ _ _ _ _ _ Hrun) as Hq.
  apply quiet_served; [done|intros route; apply (Hq route)|].
  destruct (Hq (mkMongodbRoute [] [])) as [_ Hr]. by destruct r as [[?|]|?].
Qed.

Lemma served_after sha d d1 r d' :
  all_quiet d d1 → served sha (client_in d1) (registry d1) r d' →
  served sha (client_in d) (registry d) r d'.
Proof.
  intros Hq (route & Hs & [u C] & Hr). exists route. destruct (Hq route) as [_ [u1 C1] _ R].
  rewrite R in Hr. split; [done|]. split; [|done]. exists (u1 ++ u). by rewrite C1, C, app_assoc.
Qed.

Lemma ended_served sha route pending d r d' :
  store_reachable sha a0 → unnamed d → ended route pending d r d' →
  pending_mongodb st0 (text (mongo_user route)) (text (mongo_db route)) = Some pending →
  connect (target_endpoint (mongo_target pending)) = Some (backend_in d) →
  served sha (client_in d) (registry d) r d'.
Proof.
  intros Ha0 Hu [(s & E & F) C Hs] (t & Ht & [= <-])%bind_Some Hc. exists route.
  split; [rewrite E; by apply Forall_app_2|]. split; [done|].
  destruct r as [[target|]|e]; [|done..]. cbn in Hs.
  destruct Hs as (Hres & Htarget & Hm & Hcur & before & reply & spec & Hb & Ha).
  pose proof Hres as (id & Hr & Hfor)%bind_Some.
  destruct (route_target_for_owner sha a0 (KDatabase Mongodb (text (mongo_user route)) (text (mongo_db route)))
    id t (store_reachable_inv sha a0 Ha0) Hr Hfor) as (m & How & ->).
  pose proof How as (_ & Hid & _).
  assert (Hti : target_instance_id (route_target a0 id m) = id) by done. rewrite Hti in *.
  exists id, m. do 5 (split; [done|]). exists before, reply, spec. split; [|done].
  rewrite Htarget. cbn in Hc |- *. by rewrite Hc, Hb.
Qed.

Lemma greet_serves sha n backend_hello d r d' :
  store_reachable sha a0 → registry_exact (registry d) → next_id (registry d) < u64_max →
  (∀ v route, backend_hello = Some v → speaks_for route v) → unnamed d →
  greet n backend_hello d = (r, d') → served sha (client_in d) (registry d) r d'.
Proof.
  intros Ha0. revert backend_hello d. induction n as [|n IH]; intros backend_hello d Hex Hn Hh Hu.
  { intros [= <- <-]. apply quiet_served; [done|intros ?; apply quiet_step_refl|done]. }
  cbn [greet]. unfold mbind at 1, Talk_bind at 1.
  destruct (mongo_read_client d) as [[m|e] d1] eqn:E;
    pose proof (λ route, talks_read_client route _ _ _ E) as Hq;
    assert (Hq1 : all_quiet d d1) by (intros route; apply (Hq route));
    [|by intros [= <- <-]; apply quiet_served].
  destruct (Hq (mkMongodbRoute [] [])) as [[_ _ _ R] Hread]. cbn beta in Hread.
  pose proof (all_quiet_unnamed _ _ Hq1 Hu) as Hu1. rewrite <-R in Hex, Hn.
  intros Hrun. apply (served_after _ _ d1); [done|]. revert Hrun.
  destruct (if is_hello m then _ else _) as [[route|]|e] eqn:Hp.
  - destruct (pending_mongodb _ _ _) as [pending|] eqn:Hpend.
    + unfold mbind, Talk_bind, connect_backend.
      destruct (connect _) as [answers|] eqn:Hc; [|intros [= <- <-]; apply quiet_served;
        [done|intros ?; apply quiet_step_refl|done]].
      intros Hrun. apply (authenticate_ends pending route m backend_hello) in Hrun; try done; [|auto].
      refine (ended_served sha route pending _ r d' Ha0 _ Hrun Hpend _); [exact Hu1|exact Hc].
    + by apply refuse_served.
  - unfold mbind, Talk_bind.
    destruct (write_response _ _ _) as [[[]|e] d2] eqn:Hw;
      assert (Hq2 : all_quiet d1 d2) by
        (intros route; apply (talks_write_response route _ _ _ _ _ Hw));
      [|by intros [= <- <-]; apply quiet_served].
    intros Hrun. apply (served_after _ _ d2); [done|].
    pose proof (quiet_registry _ _ _ (Hq2 (mkMongodbRoute [] []))) as R2.
    eapply (IH (Some (msg_raw m))); [by rewrite R2..| |by eapply all_quiet_unnamed|done].
    intros v route [= <-]. right. exists m. split; [done|]. left.
    destruct (is_hello m); [done|]. by destruct (parse_sasl_start_route m).
  - by apply refuse_served.
Qed.

(** C6. A MongoDB client is given a tunnel only after the backend itself said that
    it is authenticated, and only to the instance that owns the user and the
    database it named; while that was going on the backend was told nothing but
    hellos that name nobody, the start of an authentication for exactly this
    user and database, and continuations for this database.  The tunnel starts
    at the first byte of either peer that was not part of the dialogue.  Every
    other end leaves no session behind, also when the client is lost after its
    session was opened. *)
Theorem mongodb_tunnel_to_owner sha client faults reg r d :
  store_reachable sha a0 → registry_exact reg → next_id reg < u64_max →
  prepare_mongodb client faults reg = (r, d) →
  served sha client reg r d.
Proof.
  intros Ha0 Hex Hn Hrun.
  refine (greet_serves sha MAX_HELLO_MESSAGES None (mkDialogue client [] [] [] faults reg) r d
    Ha0 Hex Hn _ _ Hrun); [done|intros route; constructor].
Qed.
End listener.

(** ** Example *)

Module MongoDemo.
Import StoreDemo.

Definition demo_mongodb : InstanceMetadata :=
  demo_a <| instance_id := "m1" |> <| protocol := Mongodb |>
    <| identity := {| name := "shop"; username := "app" |} |>.
Definition demo_mongodb_store : InstanceState := upsert demo_sha demo_mongodb instance_state_default.

Lemma demo_mongodb_reachable : store_reachable demo_sha demo_mongodb_store.
Proof.
  exists [Upsert demo_mongodb]. unfold run_all, demo_mongodb_store. cbn [foldl].
  rewrite run_upsert. reflexivity.
Qed.

(** The documents of one login, each under a name of one byte. *)
Definition demo_documents : list (bytes * Document) :=
  [(lit "H", [(lit "hello", BInt32 1); (lit "$db", BString (lit "admin"))]);
   (lit "S", [(lit "saslStart", BInt32 1); (lit "mechanism", BString (lit "SCRAM-SHA-256"));
              (lit "payload", BBinary 0 (lit "n,,n=app,r=nonce")); (lit "$db", BString (lit "shop"))]);
   (lit "C", [(lit "saslContinue", BInt32 1); (lit "$db", BString (lit "shop"))]);
   (lit "h", [(lit "ok", BDouble 0x3FF0000000000000); (lit "maxWireVersion", BInt32 21)]);
   (lit "c", [(lit "ok", BInt32 1); (lit "done", BBool false)]);
   (lit "d", [(lit "ok", BInt32 1); (lit "done", BBool true)])].
Definition demo_codec : BsonCodec :=
  {| bson_decode v := snd <$> find (λ d, bool_decide (d.1 = v)) demo_documents;
     bson_encode d := Some (lit "?"); bson_now _ := BOther; foreign_text := [] |}.

Definition demo_op_msg (v : bytes) : bytes :=
  to_le 4 (21 + zlength v) ++ to_le 4 7 ++ to_le 4 0 ++ to_le 4 OP_MSG ++ to_le 4 0 ++ [x00] ++ v.
Definition demo_client : bytes :=
  demo_op_msg (lit "H") ++ demo_op_msg (lit "S") ++ demo_op_msg (lit "C") ++ lit "later".
Definition demo_answers : bytes :=
  demo_op_msg (lit "h") ++ demo_op_msg (lit "c") ++ demo_op_msg (lit "d") ++ lit "reply".

Definition demo_mongodb_run :
    result MongodbListenerError (option ResolvedRoute) * Dialogue (Sem := Z) :=
  prepare_mongodb (H0 := demo_codec) demo_mongodb_store demo_mongodb_store demo_mongodb_store
    demo_mongodb_store (λ _, Some demo_answers) demo_client [] (sessions_new 100).
End MongoDemo.
Import MongoDemo StoreDemo.

Lemma mongodb_tunnel_to_owner_witness :
  ∃ target d, demo_mongodb_run = (Ok (Some target), d)
    ∧ resolved_instance_id target = "m1" ∧ client_in d = lit "later" ∧ backend_in d = lit "reply"
    ∧ to_backend d = [demo_op_msg (lit "H"); demo_op_msg (lit "S"); demo_op_msg (lit "C")]
    ∧ served (H0 := demo_codec) demo_mongodb_store demo_mongodb_store demo_mongodb_store
        (λ _, Some demo_answers) demo_sha demo_client (sessions_new 100) (Ok (Some target)) d.
Proof.
  unfold demo_mongodb_run. destruct (prepare_mongodb _ _ _ _ _ _ _ _) as [r d] eqn:E.
  pose proof (mongodb_tunnel_to_owner (H0 := demo_codec) demo_mongodb_store demo_mongodb_store
    demo_mongodb_store demo_mongodb_store (λ _, Some demo_answers) demo_sha demo_client []
    (sessions_new 100 : Sessions Z) r d demo_mongodb_reachable (exact_new 100) ltac:(done) E) as Ht.
  assert (Hr : ∃ target, r = Ok (Some target) ∧ resolved_instance_id target = "m1"
    ∧ client_in d = lit "later" ∧ backend_in d = lit "reply"
    ∧ to_backend d = [demo_op_msg (lit "H"); demo_op_msg (lit "S"); demo_op_msg (lit "C")]).
  { vm_compute in E. injection E as <- <-. eexists. split; [reflexivity|].
    repeat split; vm_compute; reflexivity. }
  destruct Hr as (target & -> & Hi & Hc & Hb & Hs). exists target, d.
  exact (conj eq_refl (conj Hi (conj Hc (conj Hb (conj Hs Ht))))).
Defined.
