(* ===== verification/IpText.v ===== *)
(** * Internet addresses and their text

    What the gateway and the importers use of [std::net]: an [Ipv4Addr] is a
    [u32], an [Ipv6Addr] a [u128], and [FromStr] and [Display] are inverse to
    each other ([ip_text_roundtrip]). *)
From Stdlib Require Import Strings.Byte.
From S2P Require Import Prelude Bytes.

Local Open Scope Z_scope.

Inductive IpAddr := V4 (a : Z) | V6 (a : Z).
#[export] Instance IpAddr_eq_dec : EqDecision IpAddr.
Proof. solve_decision. Defined.

Definition ip_ok (a : IpAddr) : Prop :=
  match a with V4 a => 0 ≤ a < 2 ^ 32 | V6 a => 0 ≤ a < 2 ^ 128 end.

(** The big-endian digits of [x] in base [b]. *)
Fixpoint digits_be (b : Z) (n : nat) (x : Z) : list Z :=
  match n with O => [] | S n => digits_be b n (x / b) ++ [x mod b] end.
Definition number_be (b : Z) (l : list Z) : Z := foldl (λ acc x, acc * b + x) 0 l.

Definition octets4 (a : Z) : list Z := digits_be 256 4 a.
Definition segments (a : Z) : list Z := digits_be 65536 8 a.

(** [Ipv6Addr::to_ipv4_mapped]. *)
Definition to_ipv4_mapped (a : Z) : option Z :=
  if Z.shiftr a 32 =? 0xffff then Some (Z.land a (2 ^ 32 - 1)) else None.

(** ** [Display] *)

Definition digit_char (d : Z) : byte := z2b (if d <? 10 then 48 + d else 87 + d).

(** The digits of a number without its leading zeros. *)
Fixpoint strip_zeros (l : list Z) : list Z :=
  match l with
  | 0 :: ((_ :: _) as tl) => strip_zeros tl
  | _ => l
  end.
Definition print_number (radix : Z) (n : nat) (x : Z) : bytes :=
  digit_char <$> strip_zeros (digits_be radix n x).

Fixpoint join_with (sep : byte) (l : list bytes) : bytes :=
  match l with
  | [] => []
  | [v] => v
  | v :: l => v ++ sep :: join_with sep l
  end.

Definition print_ipv4 (a : Z) : bytes := join_with "."%byte (print_number 10 3 <$> octets4 a).
Definition fmt_subslice (l : list Z) : bytes := join_with ":"%byte (print_number 16 4 <$> l).

(** The first of the longest runs of zero segments: its start and its length. *)
Definition zero_span (l : list Z) : nat * nat :=
  (foldl (λ '((start, len), (cstart, clen), i) segment,
     if segment =? 0 then
       let cstart := if (clen =? 0)%nat then i else cstart in
       let clen := S clen in
       (if (len <? clen)%nat then (cstart, clen) else (start, len), (cstart, clen), S i)
     else ((start, len), (0, 0)%nat, S i))
   ((0, 0)%nat, (0, 0)%nat, 0%nat) l).1.1.

Definition print_ipv6 (a : Z) : bytes :=
  match to_ipv4_mapped a with
  | Some v4 => lit "::ffff:" ++ print_ipv4 v4
  | None =>
      let l := segments a in
      let '(start, len) := zero_span l in
      if (1 <? len)%nat then fmt_subslice (take start l) ++ lit "::" ++ fmt_subslice (drop (start + len) l)
      else fmt_subslice l
  end.

Definition print_ip (a : IpAddr) : bytes :=
  match a with V4 a => print_ipv4 a | V6 a => print_ipv6 a end.

(** ** [FromStr] *)

(** A reader gives what it read and the rest, or leaves its input alone. *)
Definition Reader (A : Type) : Type := bytes → option (A * bytes).

Definition read_given_char (c : byte) : Reader unit := λ p,
  match p with x :: p => if bool_decide (x = c) then Some (tt, p) else None | [] => None end.

Definition to_digit (radix : Z) (b : byte) : option Z :=
  let d := if between 48 57 b then Some (b2z b - 48)
           else if between 97 122 b then Some (b2z b - 87)
           else if between 65 90 b then Some (b2z b - 55) else None in
  d ← d; if d <? radix then Some d else None.

(** The loop of [read_number]: [max] digits may still come. *)
Fixpoint read_digits (radix : Z) (max : nat) (acc : Z) (count : nat) (p : bytes) :
    option (Z * nat * bytes) :=
  match p with
  | x :: tl =>
      match to_digit radix x with
      | Some d =>
          match max with
          | O => None
          | S max => read_digits radix max (acc * radix + d) (S count) tl
          end
      | None => Some (acc, count, p)
      end
  | [] => Some (acc, count, p)
  end.

(** [read_number] with a limit on the digits, for an integer up to [bound]. *)
Definition read_number (radix : Z) (max : nat) (allow_zero_prefix : bool) (bound : Z) : Reader Z := λ p,
  let has_leading_zero := bool_decide (head p = Some "0"%byte) in
  match read_digits radix max 0 0 p with
  | None => None
  | Some (result, count, rest) =>
      if (count =? 0)%nat then None
      else if negb allow_zero_prefix && has_leading_zero && (1 <? count)%nat then None
      else if result <=? bound then Some (result, rest) else None
  end.

Definition read_separator {A} (sep : byte) (index : nat) (inner : Reader A) : Reader A := λ p,
  if (0 <? index)%nat then '(_, p) ← read_given_char sep p; inner p else inner p.

Fixpoint read_octets (n : nat) (i : nat) (p : bytes) : option (list Z * bytes) :=
  match n with
  | O => Some ([], p)
  | S n =>
      '(octet, p) ← read_separator "."%byte i (read_number 10 3 false 255) p;
      '(octets, p) ← read_octets n (S i) p;
      Some (octet :: octets, p)
  end.
Definition read_ipv4_addr : Reader Z := λ p,
  '(octets, p) ← read_octets 4 0 p; Some (number_be 256 octets, p).

(** [read_groups]: the groups, whether an IPv4 address ended them, and the rest. *)
Fixpoint read_groups (slots : nat) (i : nat) (p : bytes) : list Z * bool * bytes :=
  match slots with
  | O => ([], false, p)
  | S slots =>
      match (if (0 <? slots)%nat then read_separator ":"%byte i read_ipv4_addr p else None) with
      | Some (v4, p) => (digits_be 65536 2 v4, true, p)
      | None =>
          match read_separator ":"%byte i (read_number 16 4 true 65535) p with
          | Some (g, p) => let '(gs, v4, p) := read_groups slots (S i) p in (g :: gs, v4, p)
          | None => ([], false, p)
          end
      end
  end.

Definition read_ipv6_addr : Reader Z := λ p,
  let '(head, head_ipv4, p) := read_groups 8 0 p in
  if (length head =? 8)%nat then Some (number_be 65536 head, p)
  else if head_ipv4 : bool then None
  else
    '(_, p) ← read_given_char ":"%byte p;
    '(_, p) ← read_given_char ":"%byte p;
    let '(tail, _, p) := read_groups (7 - length head) 0 p in
    Some (number_be 65536 (head ++ replicate (8 - length head - length tail) 0 ++ tail), p).

Definition read_all {A} (r : Reader A) (v : bytes) : option A :=
  match r v with Some (a, []) => Some a | _ => None end.
Definition parse_ipv6 (v : bytes) : option Z := read_all read_ipv6_addr v.
Definition parse_ip (v : bytes) : option IpAddr :=
  read_all (λ p, match read_ipv4_addr p with
                 | Some (a, p) => Some (V4 a, p)
                 | None => '(a, p) ← read_ipv6_addr p; Some (V6 a, p)
                 end) v.

(** ** Numbers *)

Lemma number_be_snoc b l x : number_be b (l ++ [x]) = number_be b l * b + x.
Proof. unfold number_be. by rewrite foldl_app. Qed.

Lemma number_digits b n x : 1 < b → 0 ≤ x < b ^ Z.of_nat n → number_be b (digits_be b n x) = x.
Proof.
  intros Hb. revert x. induction n as [|n IH]; intros x Hx; cbn [digits_be].
  - change (b ^ Z.of_nat 0) with 1 in Hx. cbn. lia.
  - rewrite number_be_snoc, IH.
    + pose proof (Z.div_mod x b). lia.
    + rewrite Nat2Z.inj_succ, Z.pow_succ_r in Hx by lia. split; [apply Z.div_pos; lia|].
      apply Z.div_lt_upper_bound; lia.
Qed.

Lemma digits_be_length b n x : length (digits_be b n x) = n.
Proof. revert x. induction n; intros x; cbn; [done|]. rewrite length_app. cbn. rewrite IHn. lia. Qed.

Lemma digits_be_range b n x : 0 < b → Forall (λ d, 0 ≤ d < b) (digits_be b n x).
Proof.
  intros Hb. revert x. induction n as [|n IH]; intros x; cbn; [constructor|].
  apply Forall_app_2; [done|]. constructor; [|done]. by apply Z.mod_pos_bound.
Qed.

Lemma foldl_number b l acc : foldl (λ acc x, acc * b + x) acc l = acc * b ^ Z.of_nat (length l) + number_be b l.
Proof.
  unfold number_be. revert acc. induction l as [|x l IH]; intros acc; cbn [foldl length].
  - change (b ^ Z.of_nat 0) with 1. lia.
  - rewrite IH, (IH (0 * b + x)), Nat2Z.inj_succ, Z.pow_succ_r by lia. lia.
Qed.

Lemma strip_zeros_number b l : number_be b (strip_zeros l) = number_be b l.
Proof.
  induction l as [|x l IH]; [done|]. cbn [strip_zeros].
  destruct x; [|done..]. destruct l as [|y l]; [done|]. rewrite IH. done.
Qed.

(** What is left: not nothing, no more than there was, a zero only alone. *)
Lemma strip_zeros_shape l :
  (length (strip_zeros l) ≤ length l)%nat ∧ (l ≠ [] → strip_zeros l ≠ [])
  ∧ (∀ P, Forall P l → Forall P (strip_zeros l))
  ∧ ∀ tl, strip_zeros l = 0 :: tl → tl = [].
Proof.
  induction l as [|x l (IH1 & IH2 & IH3 & IH4)]; [by split_and!|]. cbn [strip_zeros].
  destruct x as [|x|x]; [|by split_and!; try done; intros ? [= ?]..].
  destruct l as [|y l]; [by split_and!; try done; intros ? [= ?]|]. split_and!.
  - cbn [length] in *. lia.
  - intros _. by apply IH2.
  - intros P HP. apply IH3. by apply Forall_cons in HP as [_ ?].
  - done.
Qed.

Lemma b2z_digit_char d : 0 ≤ d < 16 → b2z (digit_char d) = if d <? 10 then 48 + d else 87 + d.
Proof. intros Hd. unfold digit_char. apply b2z_z2b. case_match; lia. Qed.

Lemma to_digit_char radix d : 0 ≤ d < radix → radix ≤ 16 → to_digit radix (digit_char d) = Some d.
Proof.
  intros Hd Hr. unfold to_digit, between. rewrite b2z_digit_char by lia.
  destruct (Z.ltb_spec d 10).
  - rewrite (proj2 (Z.leb_le 48 _)), (proj2 (Z.leb_le _ 57)) by lia. cbn.
    rewrite (Z.add_simpl_l 48 d). by rewrite (proj2 (Z.ltb_lt d radix)) by lia.
  - rewrite (proj2 (Z.leb_le 48 _)), (proj2 (Z.leb_gt _ 57)), (proj2 (Z.leb_le 97 _)),
      (proj2 (Z.leb_le _ 122)) by lia. cbn.
    rewrite (Z.add_simpl_l 87 d). by rewrite (proj2 (Z.ltb_lt d radix)) by lia.
Qed.

(** ** Numbers and their text *)

(** Reading stops here. *)
Definition no_digit (radix : Z) (p : bytes) : Prop :=
  match p with x :: _ => to_digit radix x = None | [] => True end.

Lemma read_digits_chars radix max acc count l rest :
  radix ≤ 16 → Forall (λ d, 0 ≤ d < radix) l → (length l ≤ max)%nat → no_digit radix rest →
  read_digits radix max acc count ((digit_char <$> l) ++ rest)
  = Some (acc * radix ^ Z.of_nat (length l) + number_be radix l, (count + length l)%nat, rest).
Proof.
  intros Hr Hl. rewrite <-foldl_number. revert max acc count.
  induction Hl as [|d l Hd _ IH]; intros max acc count Hmax Hrest.
  - cbn. rewrite Nat.add_0_r. destruct rest as [|x rest]; [by destruct max|].
    cbn in Hrest. destruct max; cbn [read_digits]; by rewrite Hrest.
  - destruct max as [|max]; cbn [length] in Hmax; [lia|]. cbn [fmap list_fmap app read_digits].
    rewrite to_digit_char by lia. rewrite IH by (done || lia). cbn [foldl length]. by rewrite Nat.add_succ_r.
Qed.

Lemma read_print_number radix n allow bound x rest :
  1 < radix ≤ 16 → (0 < n)%nat → 0 ≤ x < radix ^ Z.of_nat n → x ≤ bound → no_digit radix rest →
  read_number radix n allow bound (print_number radix n x ++ rest) = Some (x, rest).
Proof.
  intros Hr Hn Hx Hb Hrest. unfold read_number, print_number.
  pose proof (strip_zeros_shape (digits_be radix n x)) as (Hlen & Hne & HP & Hz).
  rewrite digits_be_length in Hlen.
  assert (Hne' : digits_be radix n x ≠ []).
  { intros E. apply (f_equal length) in E. rewrite digits_be_length in E. cbn in E. lia. }
  specialize (Hne Hne'). rewrite read_digits_chars;
    [|lia|apply HP, digits_be_range; lia|done|done].
  rewrite strip_zeros_number, number_digits by lia. rewrite Z.mul_0_l, Z.add_0_l.
  destruct (strip_zeros (digits_be radix n x)) as [|d tl] eqn:E; [done|]. cbn [length Nat.add Nat.eqb].
  rewrite (proj2 (Z.leb_le x bound)) by done. case_match eqn:Hc; [|done].
  apply andb_true_iff in Hc as [[_ H0]%andb_true_iff H1].
  apply bool_decide_eq_true in H0. cbn in H0. injection H0 as H0.
  assert (Hd : 0 ≤ d < radix).
  { specialize (HP _ (digits_be_range radix n x ltac:(lia))). by apply Forall_cons in HP as [? _]. }
  apply (f_equal b2z) in H0. rewrite b2z_digit_char in H0 by lia. change (b2z "0"%byte) with 48 in H0.
  assert (d = 0) as -> by (destruct (Z.ltb_spec d 10); lia).
  rewrite (Hz tl eq_refl) in H1. done.
Qed.

(** A reader's rest is a suffix of its input. *)
Lemma read_digits_suffix radix max acc count p a c rest :
  read_digits radix max acc count p = Some (a, c, rest) → ∃ used, p = used ++ rest.
Proof.
  revert max acc count. induction p as [|x p IH]; intros max acc count; cbn [read_digits].
  - destruct max; intros [= _ _ <-]; by exists [].
  - destruct max as [|max]; cbn [read_digits]; destruct (to_digit radix x); try done.
    + intros [= _ _ <-]. by exists [].
    + intros [used ->]%IH. by exists (x :: used).
    + intros [= _ _ <-]. by exists [].
Qed.

Lemma read_number_suffix radix n allow bound p a rest :
  read_number radix n allow bound p = Some (a, rest) → ∃ used, p = used ++ rest.
Proof.
  unfold read_number. destruct (read_digits _ _ _ _ _) as [[[x c] r]|] eqn:E; [|done].
  apply read_digits_suffix in E. repeat case_match; try done. by intros [= _ <-].
Qed.

Definition no_dot (p : bytes) : Prop := Forall (λ b, b ≠ "."%byte) p.

Lemma read_given_char_hit c p : read_given_char c (c :: p) = Some (tt, p).
Proof. cbn. by rewrite bool_decide_true. Qed.

Lemma read_separator_first {A} sep (inner : Reader A) p : read_separator sep 0 inner p = inner p.
Proof. done. Qed.
Lemma read_separator_next {A} sep i (inner : Reader A) p :
  read_separator sep (S i) inner p
  = match p with x :: p => if bool_decide (x = sep) then inner p else None | [] => None end.
Proof. unfold read_separator, read_given_char. destruct p as [|x p]; [done|]. cbn. by case_bool_decide. Qed.

Lemma read_ipv4_no_dot p : no_dot p → read_ipv4_addr p = None.
Proof.
  intros Hp. unfold read_ipv4_addr. cbn [read_octets]. rewrite read_separator_first.
  destruct (read_number _ _ _ _ p) as [[a rest]|] eqn:E; [|done].
  apply read_number_suffix in E as [used ->]. cbn [mbind option_bind]. rewrite read_separator_next.
  apply Forall_app in Hp as [_ Hp]. destruct Hp as [|x rest Hx]; [done|]. by rewrite bool_decide_false.
Qed.

(** ** Lists of numbers *)

(** Every piece after a separator. *)
Definition with_sep (sep : byte) (l : list bytes) : bytes := l ≫= cons sep.

Lemma join_with_cons sep v l : join_with sep (v :: l) = v ++ with_sep sep l.
Proof.
  revert v. induction l as [|w l IH]; intros v; [cbn; by rewrite app_nil_r|].
  change (join_with sep (v :: w :: l)) with (v ++ sep :: join_with sep (w :: l)). by rewrite IH.
Qed.

Lemma no_digit_with_sep radix sep l rest :
  to_digit radix sep = None → no_digit radix rest → no_digit radix (with_sep sep l ++ rest).
Proof. by destruct l. Qed.

Lemma read_octets_sep l i rest :
  Forall (λ x, 0 ≤ x < 256) l → no_digit 10 rest →
  read_octets (length l) (S i) (with_sep "."%byte (print_number 10 3 <$> l) ++ rest) = Some (l, rest).
Proof.
  intros Hl Hrest. revert i. induction Hl as [|x l Hx _ IH]; intros i; [done|].
  cbn [length read_octets fmap list_fmap]. rewrite read_separator_next. cbn [with_sep mbind list_bind app].
  rewrite bool_decide_true by done. rewrite <-app_assoc.
  rewrite read_print_number; [|done|lia|change (10 ^ Z.of_nat 3) with 1000; lia|lia
                              |by apply no_digit_with_sep].
  cbn [mbind option_bind]. by rewrite IH.
Qed.

Lemma read_octets_first n p :
  read_octets (S n) 0 p
  = ('(octet, p) ← read_number 10 3 false 255 p;
     '(octets, p) ← read_octets n 1 p; Some (octet :: octets, p)).
Proof. done. Qed.

Lemma read_print_ipv4 a rest :
  0 ≤ a < 2 ^ 32 → no_digit 10 rest → read_ipv4_addr (print_ipv4 a ++ rest) = Some (a, rest).
Proof.
  intros Ha Hrest. unfold read_ipv4_addr, print_ipv4, octets4.
  pose proof (digits_be_range 256 4 a ltac:(lia)) as Hr.
  pose proof (number_digits 256 4 a ltac:(lia) Ha) as Hnum. revert Hr Hnum.
  pose proof (digits_be_length 256 4 a) as Hlen. revert Hlen.
  destruct (digits_be 256 4 a) as [|x l]; [done|]. intros [= Hlen] Hr Hnum.
  apply Forall_cons in Hr as [Hx Hl]. rewrite read_octets_first. cbn [fmap list_fmap].
  rewrite join_with_cons, <-app_assoc, read_print_number;
    [|done|lia|change (10 ^ Z.of_nat 3) with 1000; lia|lia|by apply no_digit_with_sep].
  pose proof (read_octets_sep l 0 rest Hl Hrest) as Ho. rewrite Hlen in Ho.
  cbn [mbind option_bind]. rewrite Ho. cbn [mbind option_bind]. by rewrite Hnum.
Qed.

Definition no_group (p : bytes) : Prop := p = [] ∨ ∃ p', p = ":"%byte :: ":"%byte :: p'.

Lemma no_group_stops i slots p : no_dot p → no_group p → read_groups slots i p = ([], false, p).
Proof.
  intros Hd Hg. destruct slots as [|slots]; [done|]. cbn [read_groups].
  assert (E4 : (if (0 <? slots)%nat then read_separator ":"%byte i read_ipv4_addr p else None) = None).
  { case_match; [|done]. destruct i as [|i]; [by rewrite read_separator_first, read_ipv4_no_dot|].
    rewrite read_separator_next. destruct Hd as [|x p Hx Hp]; [done|]. case_match; [|done].
    by apply read_ipv4_no_dot. }
  rewrite E4. destruct i as [|i]; [rewrite read_separator_first|rewrite read_separator_next];
    by destruct Hg as [->|[p' ->]].
Qed.

Lemma no_digit_group p : no_group p → no_digit 16 p.
Proof. by intros [->|[p' ->]]. Qed.

Lemma read_groups_sep slots l i rest :
  Forall (λ x, 0 ≤ x < 65536) l → (length l ≤ slots)%nat → no_group rest →
  no_dot (with_sep ":"%byte (print_number 16 4 <$> l) ++ rest) →
  read_groups slots (S i) (with_sep ":"%byte (print_number 16 4 <$> l) ++ rest) = (l, false, rest).
Proof.
  intros Hl. revert i slots. induction Hl as [|x l Hx _ IH]; intros i slots Hs Hg Hd.
  { by apply no_group_stops. }
  destruct slots as [|slots]; cbn [length] in Hs; [lia|]. cbn [fmap list_fmap with_sep mbind list_bind] in *.
  rewrite <-app_assoc in *. cbn [app] in *. apply Forall_cons in Hd as [_ Hd]. cbn [read_groups].
  rewrite !read_separator_next, bool_decide_true by done. rewrite read_ipv4_no_dot by done.
  replace (if (0 <? slots)%nat then None else None) with (@None (Z * bytes)) by by case_match.
  rewrite read_print_number; [|done|lia|change (16 ^ Z.of_nat 4) with 65536; lia|lia
    |apply no_digit_with_sep; [done|by apply no_digit_group]].
  rewrite IH; [done|lia|done|]. by apply Forall_app in Hd as [_ ?].
Qed.

Lemma read_groups_subslice slots l rest :
  Forall (λ x, 0 ≤ x < 65536) l → (length l ≤ slots)%nat → no_group rest →
  no_dot (fmt_subslice l ++ rest) →
  read_groups slots 0 (fmt_subslice l ++ rest) = (l, false, rest).
Proof.
  intros Hl Hs Hg Hd. destruct Hl as [|x l Hx Hl]; [by apply no_group_stops|].
  destruct slots as [|slots]; cbn [length] in Hs; [lia|]. unfold fmt_subslice in *.
  cbn [fmap list_fmap] in *. rewrite join_with_cons, <-app_assoc in *. cbn [read_groups].
  rewrite !read_separator_first, read_ipv4_no_dot by done.
  replace (if (0 <? slots)%nat then None else None) with (@None (Z * bytes)) by by case_match.
  rewrite read_print_number; [|done|lia|change (16 ^ Z.of_nat 4) with 65536; lia|lia
    |apply no_digit_with_sep; [done|by apply no_digit_group]].
  rewrite read_groups_sep; [done|done|lia|done|]. by apply Forall_app in Hd as [_ ?].
Qed.

(** ** Addresses *)

Lemma print_number_chars radix n x :
  1 < radix ≤ 16 → Forall (λ b, b ≠ "."%byte ∧ b ≠ ":"%byte) (print_number radix n x).
Proof.
  intros Hr. unfold print_number. apply Forall_fmap.
  pose proof (strip_zeros_shape (digits_be radix n x)) as (_ & _ & HP & _).
  eapply Forall_impl; [apply HP, digits_be_range; lia|]. intros d Hd. cbn in Hd |- *.
  pose proof (b2z_digit_char d ltac:(lia)) as Hb.
  split; intros E; rewrite E in Hb; [change (b2z _) with 46 in Hb|change (b2z _) with 58 in Hb];
    destruct (Z.ltb_spec d 10); lia.
Qed.

Lemma fmt_subslice_no_dot l : no_dot (fmt_subslice l).
Proof.
  assert (Hn : ∀ x, no_dot (print_number 16 4 x)).
  { intros x. eapply Forall_impl; [apply (print_number_chars 16 4 x); lia|]. by intros b []. }
  unfold fmt_subslice. destruct l as [|x l]; [constructor|]. cbn [fmap list_fmap].
  rewrite join_with_cons. apply Forall_app_2; [apply Hn|].
  induction l as [|y l IH]; [constructor|]. apply Forall_cons; split; [done|].
  apply Forall_app_2; [apply Hn|done].
Qed.

(** What the search for a run of zeros knows after a prefix. *)
Definition span_inv (l : list Z) (st : (nat * nat) * (nat * nat) * nat) : Prop :=
  let '((start, len), (cstart, clen), i) := st in
  i = length l ∧ (start + len ≤ i)%nat ∧ (cstart + clen ≤ i)%nat ∧ (clen ≠ 0 → cstart + clen = i)%nat
  ∧ (∀ k, (start ≤ k < start + len)%nat → l !! k = Some 0)
  ∧ (∀ k, (cstart ≤ k < cstart + clen)%nat → l !! k = Some 0).

Lemma zero_span_zeros l :
  let '(start, len) := zero_span l in
  (start + len ≤ length l)%nat ∧ l = take start l ++ replicate len 0 ++ drop (start + len) l.
Proof.
  unfold zero_span. match goal with |- context [foldl ?f ?a l] => set (step := f); set (init := a) end.
  assert (Hinv : span_inv l (foldl step init l)).
  { induction l as [|x l IH] using rev_ind; [by cbn; split_and!; try lia; intros; lia|].
    rewrite foldl_app. cbn [foldl]. destruct (foldl step init l) as [[[start len] [cstart clen]] i].
    destruct IH as (-> & H1 & H2 & H3 & H4 & H5). unfold step.
    assert (Hl : ∀ k, (k < length l)%nat → (l ++ [x]) !! k = l !! k) by (intros; by apply lookup_app_l).
    destruct (Z.eqb_spec x 0) as [->|Hx].
    - set (cs := if (clen =? 0)%nat then length l else cstart).
      assert (Hcs : (cs + clen = length l)%nat) by (unfold cs; destruct (Nat.eqb_spec clen 0); lia).
      assert (Hz : ∀ k, (cs ≤ k < cs + S clen)%nat → (l ++ [0]) !! k = Some 0).
      { intros k Hk. destruct (decide (k = length l)) as [->|]; [by rewrite list_lookup_middle|].
        rewrite Hl by lia. apply H5. unfold cs in *. destruct (Nat.eqb_spec clen 0); lia. }
      destruct (Nat.ltb_spec len (S clen)); unfold span_inv; rewrite length_app; cbn [length];
        split_and!; try lia; try done; intros k Hk; rewrite Hl by lia; auto.
    - unfold span_inv. rewrite length_app. cbn [length]. split_and!; try lia;
      intros k Hk; try lia; rewrite Hl by lia; auto. }
  destruct (foldl step init l) as [[[start len] [cstart clen]] i]. cbn.
  destruct Hinv as (-> & H1 & _ & _ & H4 & _). split; [done|].
  rewrite <-(take_drop start l) at 1. f_equal. rewrite <-drop_drop.
  rewrite <-(take_drop len (drop start l)) at 1. f_equal.
  apply list_eq_same_length with len;
    [by rewrite length_replicate|rewrite length_take, length_drop; lia|].
  intros k y z Hk. rewrite lookup_take_lt, lookup_drop, H4 by lia. rewrite lookup_replicate_2 by done. congruence.
Qed.

Lemma mapped_value a v4 :
  0 ≤ a → to_ipv4_mapped a = Some v4 → a = 0xffff * 2 ^ 32 + v4 ∧ 0 ≤ v4 < 2 ^ 32.
Proof.
  intros Ha. unfold to_ipv4_mapped. destruct (Z.eqb_spec (Z.shiftr a 32) 0xffff) as [E|]; [|done].
  intros [= <-]. rewrite Z.shiftr_div_pow2 in E by lia.
  change (2 ^ 32 - 1) with (Z.ones 32). rewrite Z.land_ones by lia.
  pose proof (Z.div_mod a (2 ^ 32)). pose proof (Z.mod_pos_bound a (2 ^ 32)). lia.
Qed.

Lemma read_print_mapped v4 :
  0 ≤ v4 < 2 ^ 32 → read_ipv6_addr (lit "::ffff:" ++ print_ipv4 v4) = Some (0xffff * 2 ^ 32 + v4, []).
Proof.
  intros Hv. pose proof (read_print_ipv4 v4 [] Hv I) as Hr. rewrite app_nil_r in Hr.
  assert (Hg : read_groups 7 0 (lit "ffff:" ++ print_ipv4 v4)
               = (0xffff :: digits_be 65536 2 v4, true, [])).
  { change (read_groups 7 0 (lit "ffff:" ++ print_ipv4 v4)) with
      (let '(gs, v4, p) := read_groups 6 1 (":"%byte :: print_ipv4 v4) in (0xffff :: gs, v4, p)).
    cbn [read_groups]. rewrite read_separator_next, bool_decide_true by done. cbn [Nat.ltb Nat.leb].
    by rewrite Hr. }
  unfold read_ipv6_addr.
  change (read_groups 8 0 (lit "::ffff:" ++ print_ipv4 v4))
    with (@nil Z, false, lit "::ffff:" ++ print_ipv4 v4).
  cbn [length Nat.eqb lit app]. change (lit "::ffff:" ++ ?x) with (":"%byte :: ":"%byte :: lit "ffff:" ++ x).
  rewrite read_given_char_hit. cbn [mbind option_bind]. rewrite read_given_char_hit.
  cbn [mbind option_bind Nat.sub]. rewrite Hg. cbn [length digits_be app Nat.sub replicate]. unfold number_be. cbn [foldl].
  pose proof (Z.div_mod v4 65536). rewrite (Z.mod_small (v4 / 65536)).
  - do 2 f_equal. lia.
  - split; [apply Z.div_pos; lia|apply Z.div_lt_upper_bound; lia].
Qed.

Lemma read_print_ipv6 a : 0 ≤ a < 2 ^ 128 → read_ipv6_addr (print_ipv6 a) = Some (a, []).
Proof.
  intros Ha. unfold print_ipv6. destruct (to_ipv4_mapped a) as [v4|] eqn:Em.
  { apply mapped_value in Em as [-> Hv]; [|lia]. by apply read_print_mapped. }
  pose proof (digits_be_range 65536 8 a ltac:(lia)) as Hr.
  pose proof (number_digits 65536 8 a ltac:(lia) Ha) as Hnum.
  pose proof (digits_be_length 65536 8 a) as Hlen. fold (segments a) in *.
  generalize dependent (segments a). intros l Hr Hnum Hlen.
  pose proof (zero_span_zeros l) as Hz. destruct (zero_span l) as [start len].
  destruct Hz as [Hb Hz]. unfold read_ipv6_addr. destruct (Nat.ltb_spec 1 len) as [Hl|_].
  - rewrite read_groups_subslice; [|by apply Forall_take|rewrite length_take; lia
      |right; by eexists|apply Forall_app_2; [|apply Forall_app_2]; try apply fmt_subslice_no_dot;
       by repeat constructor].
    rewrite length_take, Nat.min_l by lia.
    destruct (Nat.eqb_spec start 8) as [|_]; [lia|].
    change (lit "::" ++ ?x) with (":"%byte :: ":"%byte :: x).
    rewrite read_given_char_hit. cbn [mbind option_bind]. rewrite read_given_char_hit.
    cbn [mbind option_bind].
    pose proof (read_groups_subslice (7 - start) (drop (start + len) l) []) as Ht.
    rewrite app_nil_r in Ht. rewrite Ht; [|by apply Forall_drop|rewrite length_drop; lia|by left
      |apply fmt_subslice_no_dot]. clear Ht.
    rewrite length_drop. replace (8 - start - (length l - (start + len)))%nat with len by lia.
    rewrite <-Hz. by rewrite Hnum.
  - pose proof (read_groups_subslice 8 l []) as Ht. rewrite app_nil_r in Ht.
    rewrite Ht; [|done|lia|by left|apply fmt_subslice_no_dot]. rewrite Hlen. cbn. by rewrite Hnum.
Qed.

(** The text of an address is never that of the other kind. *)
Lemma print_ipv6_not_ipv4 a : read_ipv4_addr (print_ipv6 a) = None.
Proof.
  unfold print_ipv6. destruct (to_ipv4_mapped a); [done|]. destruct (zero_span _) as [start len].
  apply read_ipv4_no_dot. case_match; [|apply fmt_subslice_no_dot].
  apply Forall_app_2; [|apply Forall_app_2]; try apply fmt_subslice_no_dot; by repeat constructor.
Qed.

Lemma ip_text_roundtrip a : ip_ok a → parse_ip (print_ip a) = Some a.
Proof.
  unfold parse_ip, read_all. destruct a as [a|a]; cbn [ip_ok print_ip]; intros Ha.
  - pose proof (read_print_ipv4 a [] Ha I) as H. rewrite app_nil_r in H. by rewrite H.
  - by rewrite print_ipv6_not_ipv4, read_print_ipv6.
Qed.

(** ** Characters *)

Lemma Forall_join_with (P : byte → Prop) sep l :
  P sep → Forall (Forall P) l → Forall P (join_with sep l).
Proof.
  intros Hs Hl. destruct Hl as [|v l Hv Hl]; [constructor|]. rewrite join_with_cons.
  apply Forall_app_2; [done|]. induction Hl as [|w l Hw _ IH]; [constructor|].
  apply Forall_cons. split; [done|]. by apply Forall_app_2.
Qed.

Lemma print_number_Forall (P : byte → Prop) radix n x :
  1 < radix ≤ 16 → (∀ d, 0 ≤ d < 16 → P (digit_char d)) → Forall P (print_number radix n x).
Proof.
  intros Hr HP. unfold print_number. apply Forall_fmap.
  pose proof (strip_zeros_shape (digits_be radix n x)) as (_ & _ & Hs & _).
  eapply Forall_impl; [apply Hs, digits_be_range; lia|]. intros d Hd. cbn in Hd. apply HP. lia.
Qed.

(** The text of an address has hexadecimal digits, dots and colons. *)
Lemma print_ip_Forall (P : byte → Prop) a :
  (∀ d, 0 ≤ d < 16 → P (digit_char d)) → P "."%byte → P ":"%byte → Forall P (print_ip a).
Proof.
  intros HP Hdot Hcolon.
  assert (H4 : ∀ x, Forall P (print_ipv4 x)).
  { intros x. apply Forall_join_with; [done|]. apply Forall_fmap, Forall_true. intros y.
    by apply print_number_Forall. }
  assert (H6 : ∀ l, Forall P (fmt_subslice l)).
  { intros l. apply Forall_join_with; [done|]. apply Forall_fmap, Forall_true. intros y.
    by apply print_number_Forall. }
  destruct a as [a|a]; [apply H4|]. cbn [print_ip]. unfold print_ipv6.
  pose proof (HP 15 ltac:(lia)) as Hf. change (digit_char 15) with "f"%byte in Hf.
  destruct (to_ipv4_mapped a); [apply Forall_app_2; [by repeat constructor|apply H4]|].
  destruct (zero_span _) as [start len]. case_match; [|apply H6].
  apply Forall_app_2; [apply H6|]. apply Forall_app_2; [by repeat constructor|apply H6].
Qed.

(** ** What is read is an address *)

Lemma number_be_range b l : 0 < b → Forall (λ d, 0 ≤ d < b) l → 0 ≤ number_be b l < b ^ Z.of_nat (length l).
Proof.
  intros Hb. induction l as [|x l IH] using rev_ind; [done|]. intros [Hl Hx]%Forall_app.
  specialize (IH Hl). apply Forall_cons in Hx as [Hx _].
  rewrite number_be_snoc, length_app, Nat2Z.inj_add, Z.pow_add_r, Z.pow_1_r by lia. nia.
Qed.

Lemma read_digits_nonneg radix max acc count p a c rest :
  0 < radix → 0 ≤ acc → read_digits radix max acc count p = Some (a, c, rest) → 0 ≤ a.
Proof.
  intros Hr. revert max acc count. induction p as [|x p IH]; intros max acc count Hacc.
  - destruct max; by intros [= <- _ _].
  - destruct max as [|max]; cbn [read_digits]; destruct (to_digit radix x) as [d|] eqn:Ed; try done;
      [by intros [= <- _ _]| |by intros [= <- _ _]].
    apply IH. unfold to_digit, between in Ed. apply bind_Some in Ed as (e & He & Ed).
    case_match; [|done]. injection Ed as ->.
    repeat case_match; simplify_eq; repeat match goal with H : (_ && _) = true |- _ =>
      apply andb_true_iff in H as [?%Z.leb_le _] end; nia.
Qed.

Lemma read_number_range radix n allow bound p a rest :
  0 < radix → read_number radix n allow bound p = Some (a, rest) → 0 ≤ a ≤ bound.
Proof.
  intros Hr. unfold read_number. destruct (read_digits _ _ _ _ _) as [[[x c] r]|] eqn:E; [|done].
  apply read_digits_nonneg in E; [|done..]. do 2 (case_match; [done|]).
  destruct (Z.leb_spec x bound); [|done]. by intros [= <- _].
Qed.

Lemma read_separator_Some {A} sep i (r : Reader A) p a rest :
  read_separator sep i r p = Some (a, rest) → ∃ p', r p' = Some (a, rest).
Proof.
  destruct i as [|i]; [rewrite read_separator_first; eauto|]. rewrite read_separator_next.
  destruct p as [|x p]; [done|]. case_bool_decide; [eauto|done].
Qed.

Lemma read_octets_range n i p l rest :
  read_octets n i p = Some (l, rest) → length l = n ∧ Forall (λ d, 0 ≤ d < 256) l.
Proof.
  revert i p l rest. induction n as [|n IH]; intros i p l rest; cbn [read_octets].
  { intros [= <- _]. by split. }
  intros ([o p1] & Ho & H1)%bind_Some. apply read_separator_Some in Ho as [p' Ho].
  apply read_number_range in Ho; [|done]. cbn in H1. apply bind_Some in H1 as ([os p2] & [<- Hos]%IH & [= <- _]).
  split; [done|]. constructor; [lia|done].
Qed.

Lemma read_ipv4_range p a rest : read_ipv4_addr p = Some (a, rest) → 0 ≤ a < 2 ^ 32.
Proof.
  intros ([l p'] & [Hl Hr]%read_octets_range & [= <- _])%bind_Some.
  pose proof (number_be_range 256 l ltac:(lia) Hr) as Hn. by rewrite Hl in Hn.
Qed.

Lemma read_groups_range slots i p :
  let '(l, _, _) := read_groups slots i p in
  (length l ≤ slots)%nat ∧ Forall (λ d, 0 ≤ d < 65536) l.
Proof.
  revert i p. induction slots as [|slots IH]; intros i p; cbn [read_groups]; [by split|].
  destruct (if (0 <? slots)%nat then _ else _) as [[v4 p']|] eqn:E.
  - destruct (Nat.ltb_spec 0 slots); [|done]. rewrite digits_be_length.
    split; [lia|by apply digits_be_range].
  - destruct (read_separator _ _ (read_number _ _ _ _) _) as [[g p']|] eqn:Eg; [|by split; [cbn; lia|]].
    apply read_separator_Some in Eg as [p1 Eg%read_number_range]; [|done].
    specialize (IH (S i) p'). destruct (read_groups slots (S i) p') as [[gs v4] p2].
    destruct IH as [IH1 IH2]. split; [cbn; lia|]. constructor; [lia|done].
Qed.

Lemma read_ipv6_range p a rest : read_ipv6_addr p = Some (a, rest) → 0 ≤ a < 2 ^ 128.
Proof.
  unfold read_ipv6_addr. pose proof (read_groups_range 8 0 p) as Hh.
  destruct (read_groups 8 0 p) as [[hd v4] p1]. destruct Hh as [Hl Hr].
  assert (Hmax : ∀ l, length l = 8%nat → Forall (λ d, 0 ≤ d < 65536) l → 0 ≤ number_be 65536 l < 2 ^ 128).
  { intros l E Hd. pose proof (number_be_range 65536 l ltac:(lia) Hd) as Hn. by rewrite E in Hn. }
  destruct (Nat.eqb_spec (length hd) 8) as [E|E]; [intros [= <- _]; auto|]. destruct v4; [done|].
  intros ([[] p2] & _ & H)%bind_Some. cbn in H. apply bind_Some in H as ([[] p3] & _ & H). cbn in H.
  pose proof (read_groups_range (7 - length hd) 0 p3) as Ht.
  destruct (read_groups (7 - length hd) 0 p3) as [[tl b] p4]. destruct Ht as [Htl Htr].
  injection H as <- _. apply Hmax.
  - rewrite !length_app, length_replicate. lia.
  - apply Forall_app_2; [done|]. apply Forall_app_2; [by apply Forall_replicate|done].
Qed.

Lemma parse_ip_ok v a : parse_ip v = Some a → ip_ok a.
Proof.
  unfold parse_ip, read_all. destruct (read_ipv4_addr v) as [[x p]|] eqn:E4.
  - apply read_ipv4_range in E4. destruct p; [|done]. by intros [= <-].
  - destruct (read_ipv6_addr v) as [[x p]|] eqn:E6; [|done]. apply read_ipv6_range in E6. cbn.
    destruct p; [|done]. by intros [= <-].
Qed.

Lemma parse_ipv6_ok v a : parse_ipv6 v = Some a → 0 ≤ a < 2 ^ 128.
Proof.
  unfold parse_ipv6, read_all. destruct (read_ipv6_addr v) as [[x p]|] eqn:E6; [|done].
  apply read_ipv6_range in E6. destruct p; [|done]. by intros [= <-].
Qed.
