(* ===== verification/RemoteEndpoint.v ===== *)
(** * Where a remote import may connect

    [subsystems/import_export/remote/security.rs] and the host names of
    [config/origins.rs]: an import from a server somewhere else runs inside the
    node's network, so the addresses of that server are resolved once, checked,
    and pinned.  [remote_endpoint_guarded] says which endpoints pass.

    The resolver of names is an argument: what the lookup of a host answers,
    or that it failed or took too long. *)
From Stdlib Require Import Strings.Byte.
From stdpp Require Import sorting.
From S2P Require Import Prelude Bytes SqlPolicy IpText.

Local Open Scope Z_scope.

(** ** Host names *)

Definition MAX_DNS_NAME_LEN : Z := 253.
Definition MAX_DNS_LABEL_LEN : Z := 63.

Definition is_ascii_alphabetic (b : byte) : bool := between 65 90 b || between 97 122 b.
Definition is_ascii_digit (b : byte) : bool := between 48 57 b.
Definition is_ascii_hexdigit (b : byte) : bool :=
  is_ascii_digit b || between 65 70 b || between 97 102 b.
Definition is_ascii_control (b : byte) : bool := between 0 31 b || bool_decide (b2z b = 127).

Definition is_plausible_dns_name (host : bytes) : bool :=
  let has_forbidden_byte :=
    existsb (λ b, is_ascii_control b || bool_decide (b ∈ lit "/\:@#?[]")) host in
  negb (bool_decide (host = [])) && (zlength host <=? MAX_DNS_NAME_LEN)
  && forallb (λ b, b2z b <? 128) host && negb has_forbidden_byte.

Definition is_valid_dns_label (label : bytes) : bool :=
  negb (bool_decide (label = [])) && (zlength label <=? MAX_DNS_LABEL_LEN)
  && negb (bool_decide (head label = Some "-"%byte))
  && negb (bool_decide (last label = Some "-"%byte))
  && forallb (λ b, is_ascii_alphabetic b || is_ascii_digit b || bool_decide (b = "-"%byte)) label.

Definition is_numeric_ipv4_label (label : bytes) : bool :=
  let is_decimal := forallb is_ascii_digit label in
  let is_hexadecimal :=
    match strip_bytes (lit "0x") label ∪ strip_bytes (lit "0X") label with
    | Some digits => negb (bool_decide (digits = [])) && forallb is_ascii_hexdigit digits
    | None => false
    end in
  is_decimal || is_hexadecimal.

(** [value.strip_suffix(c)]. *)
Definition strip_suffix (c : byte) (v : bytes) : option bytes :=
  match last v with
  | Some x => if bool_decide (x = c) then Some (take (length v - 1) v) else None
  | None => None
  end.

Definition is_label_dot (b : byte) : bool := bool_decide (b = "."%byte).

(** A name that is not an address. *)
Definition normalize_dns_name (value : bytes) : option bytes :=
  let host := default value (strip_suffix "."%byte value) in
  if negb (is_plausible_dns_name host) then None
  else if negb (forallb is_valid_dns_label (split_on is_label_dot host)) then None
  else
    let numeric_notation := forallb is_numeric_ipv4_label (split_on is_label_dot host) in
    if numeric_notation then None else Some (to_ascii_lowercase <$> host).

Definition normalize_remote_import_host (value : bytes) : option bytes :=
  let value := trim value in
  if bool_decide (value = []) then None
  else
    match parse_ip value with
    | Some address => Some (print_ip address)
    | None =>
        match (v ← strip_bytes (lit "[") value; v ← strip_suffix "]"%byte v; parse_ipv6 v) with
        | Some address => Some (print_ipv6 address)
        | None => normalize_dns_name value
        end
    end.

(** ** Classes of addresses *)

Inductive AddressClass := Public | Private | Forbidden.
#[export] Instance AddressClass_eq_dec : EqDecision AddressClass.
Proof. solve_decision. Defined.

Definition checked_shl (w x n : Z) : option Z :=
  if n <? w then Some (Z.shiftl x n mod 2 ^ w) else None.

(** [in_ipv4_prefix] with [w = 32] and [in_ipv6_prefix] with [w = 128]. *)
Definition in_prefix (w address network prefix : Z) : bool :=
  let mask := default 0 (checked_shl w (2 ^ w - 1) (w - prefix)) in
  Z.land address mask =? Z.land network mask.
Definition in_ipv4_prefix : Z → Z → Z → bool := in_prefix 32.
Definition in_ipv6_prefix : Z → Z → Z → bool := in_prefix 128.

Definition ip4 (a b c d : Z) : Z := number_be 256 [a; b; c; d].
Definition ip6 (a b c d e f g h : Z) : Z := number_be 65536 [a; b; c; d; e; f; g; h].

Definition CLOUD_CONTROL_PLANE_IPV4_ADDRESSES : list Z := [ip4 100 100 100 200; ip4 168 63 129 16].
Definition PRIVATE_IPV4_RANGES : list (Z * Z) :=
  [(ip4 10 0 0 0, 8); (ip4 172 16 0 0, 12); (ip4 192 168 0 0, 16); (ip4 100 64 0 0, 10)].
Definition FORBIDDEN_IPV4_RANGES : list (Z * Z) :=
  [(ip4 0 0 0 0, 8); (ip4 127 0 0 0, 8); (ip4 169 254 0 0, 16); (ip4 192 0 0 0, 24);
   (ip4 192 0 2 0, 24); (ip4 192 31 196 0, 24); (ip4 192 52 193 0, 24); (ip4 192 88 99 0, 24);
   (ip4 192 175 48 0, 24); (ip4 198 18 0 0, 15); (ip4 198 51 100 0, 24); (ip4 203 0 113 0, 24);
   (ip4 224 0 0 0, 4); (ip4 240 0 0 0, 4)].

Definition classify_ipv4 (address : Z) : AddressClass :=
  if bool_decide (address ∈ CLOUD_CONTROL_PLANE_IPV4_ADDRESSES) then Forbidden
  else
    let in_any_range := existsb (λ '(network, prefix), in_ipv4_prefix address network prefix) in
    if in_any_range PRIVATE_IPV4_RANGES then Private
    else if in_any_range FORBIDDEN_IPV4_RANGES then Forbidden else Public.

Definition classify_ipv6 (address : Z) : AddressClass :=
  if address =? ip6 0xfd00 0x0ec2 0 0 0 0 0 0x0254 then Forbidden
  else
    let segment0 := default 0 (segments address !! 0%nat) in
    if Z.land segment0 0xfe00 =? 0xfc00 then Private
    else
      let first_byte := Z.shiftr address 120 in
      let forbidden :=
        (address =? 0) || (address =? 1)
        || (Z.land segment0 0xffc0 =? 0xfe80) || (Z.land segment0 0xffc0 =? 0xfec0)
        || (first_byte =? 0xff) || (first_byte =? 0)
        || in_ipv6_prefix address (ip6 0x2001 0 0 0 0 0 0 0) 23
        || in_ipv6_prefix address (ip6 0x2001 0x0db8 0 0 0 0 0 0) 32
        || in_ipv6_prefix address (ip6 0x2002 0 0 0 0 0 0 0) 16
        || in_ipv6_prefix address (ip6 0x2620 0x004f 0x8000 0 0 0 0 0) 48
        || in_ipv6_prefix address (ip6 0x3fff 0 0 0 0 0 0 0) 20
        || negb (Z.land segment0 0xe000 =? 0x2000) in
      if forbidden then Forbidden else Public.

Definition classify_address (address : IpAddr) : AddressClass :=
  match address with
  | V4 a => classify_ipv4 a
  | V6 a => if bool_decide (is_Some (to_ipv4_mapped a)) then Forbidden else classify_ipv6 a
  end.

(** ** Endpoints *)

(** A [SocketAddr] as [SocketAddr::new] makes it, and its [Ord]. *)
Abbreviation SocketAddr := (IpAddr * Z)%type.
Definition ip_rank (a : IpAddr) : Z * Z := match a with V4 a => (0, a) | V6 a => (1, a) end.
Definition socket_le (x y : SocketAddr) : Prop :=
  let '(kx, ax) := ip_rank x.1 in
  let '(ky, ay) := ip_rank y.1 in
  kx < ky ∨ kx = ky ∧ (ax < ay ∨ ax = ay ∧ x.2 ≤ y.2).
#[export] Instance socket_le_dec x y : Decision (socket_le x y).
Proof. unfold socket_le. destruct (ip_rank x.1), (ip_rank y.1). solve_decision. Defined.

(** [Vec::dedup]. *)
Fixpoint dedup (l : list SocketAddr) : list SocketAddr :=
  match l with
  | x :: ((y :: _) as tl) => if bool_decide (x = y) then dedup tl else x :: dedup tl
  | _ => l
  end.

Definition MAX_RESOLVED_REMOTE_ADDRESSES : nat := 64.

Record RemoteEndpointRequest := mkRemoteEndpointRequest {
  request_host : bytes;
  request_port : option Z;
  request_tls : bool;
}.
Record ResolvedRemoteEndpoint := mkResolvedRemoteEndpoint {
  resolved_host : bytes;
  resolved_port : Z;
  resolved_addresses : list SocketAddr;
  resolved_tls : bool;
}.
Record RemoteImportSecurityConfig := mkRemoteImportSecurityConfig {
  remote_enabled : bool;
  allow_plaintext : bool;
  allowed_private_hosts : list bytes;
}.

(** The reasons in the [ApiError::BadRequest]s. *)
Inductive RemoteEndpointError :=
  | ImportsDisabled
  | TlsRequired
  | InvalidHost
  | PortIsZero
  | LookupTimedOut (host : bytes)
  | LookupFailed (host : bytes)
  | NoAddress (host : bytes)
  | TooManyAddresses (host : bytes)
  | PrivateNotAllowed (host : bytes)
  | ForbiddenAddress (host : bytes)
  | MixedAddresses (host : bytes).

(** What comes of a lookup. *)
Inductive Lookup := LookedUp (addresses : list SocketAddr) | LookupError | LookupTimeout.

(** The loop over the addresses. *)
Fixpoint check_classes (host : bytes) (private_allowed saw_public saw_private : bool)
    (l : list SocketAddr) : result RemoteEndpointError (bool * bool) :=
  match l with
  | [] => Ok (saw_public, saw_private)
  | address :: l =>
      match classify_address address.1 with
      | Public => check_classes host private_allowed true saw_private l
      | Private =>
          if negb private_allowed then Err (PrivateNotAllowed host)
          else check_classes host private_allowed saw_public true l
      | Forbidden => Err (ForbiddenAddress host)
      end
  end.

Definition private_host_allowed (security : RemoteImportSecurityConfig) (host : bytes) : bool :=
  existsb (λ allowed, eq_ignore_ascii_case allowed host)
    (omap normalize_remote_import_host (allowed_private_hosts security)).

Definition validate_resolved_addresses (host : bytes) (addresses : list SocketAddr)
    (security : RemoteImportSecurityConfig) : result RemoteEndpointError (list SocketAddr) :=
  let addresses := dedup (merge_sort socket_le addresses) in
  if bool_decide (addresses = []) then Err (NoAddress host)
  else if (MAX_RESOLVED_REMOTE_ADDRESSES <? length addresses)%nat then Err (TooManyAddresses host)
  else
    '(saw_public, saw_private) ←
      check_classes host (private_host_allowed security host) false false addresses;
    if saw_public && saw_private then Err (MixedAddresses host) else Ok addresses.

Definition resolve_endpoint_with (request : RemoteEndpointRequest) (default_port : Z)
    (security : RemoteImportSecurityConfig) (resolver : bytes → Z → Lookup) :
    result RemoteEndpointError ResolvedRemoteEndpoint :=
  if negb (remote_enabled security) then Err ImportsDisabled
  else if negb (request_tls request) && negb (allow_plaintext security) then Err TlsRequired
  else
    host ← ok_or (normalize_remote_import_host (request_host request)) InvalidHost;
    let port := default default_port (request_port request) in
    if port =? 0 then Err PortIsZero
    else
      addresses ←
        match parse_ip host with
        | Some address => Ok [(address, port)]
        | None =>
            match resolver host port with
            | LookupTimeout => Err (LookupTimedOut host)
            | LookupError => Err (LookupFailed host)
            | LookedUp addresses => Ok ((λ address, (address.1, port)) <$> addresses)
            end
        end;
      addresses ← validate_resolved_addresses host addresses security;
      Ok (mkResolvedRemoteEndpoint host port addresses (request_tls request)).

(** [helper_extra_hosts]: the entries that pin the name in a helper. *)
Definition helper_extra_hosts (ep : ResolvedRemoteEndpoint) : list bytes :=
  if bool_decide (is_Some (parse_ip (resolved_host ep))) then []
  else
    (λ address : SocketAddr,
       match address.1 with
       | V4 a => resolved_host ep ++ lit ":" ++ print_ipv4 a
       | V6 a => resolved_host ep ++ lit ":[" ++ print_ipv6 a ++ lit "]"
       end) <$> resolved_addresses ep.

(** ** The classes as ranges of addresses *)

Lemma land_mask w k x :
  0 ≤ k < w → 0 ≤ x < 2 ^ w → Z.land x (Z.shiftl (2 ^ w - 1) k mod 2 ^ w) = x / 2 ^ k * 2 ^ k.
Proof.
  intros Hk Hx. replace (2 ^ w - 1) with (Z.ones w) by (rewrite Z.ones_equiv; lia).
  apply Z.bits_inj'. intros i Hi.
  rewrite Z.land_spec, <-Z.land_ones, Z.land_spec, Z.shiftl_spec by lia.
  rewrite <-Z.shiftl_mul_pow2, Z.shiftl_spec, <-Z.shiftr_div_pow2 by lia.
  destruct (Z.lt_ge_cases i k).
  - rewrite !(Z.testbit_neg_r _ (i - k)) by lia. apply andb_false_r.
  - rewrite Z.shiftr_spec, Z.sub_add, !Z.testbit_ones_nonneg by lia.
    destruct (Z.lt_ge_cases i w).
    + rewrite !(proj2 (Z.ltb_lt _ _)) by lia. by rewrite !andb_true_r.
    + rewrite (Z.bits_above_log2 x i); [done|lia|].
      destruct (Z.eq_dec x 0) as [->|]; [cbn; lia|]. apply Z.log2_lt_pow2; [lia|].
      assert (2 ^ w ≤ 2 ^ i) by (apply Z.pow_le_mono_r; lia). lia.
Qed.

(** A network and the addresses that have its prefix. *)
Lemma in_prefix_range w a network prefix :
  0 < prefix ≤ w → 0 ≤ a < 2 ^ w → 0 ≤ network < 2 ^ w → network mod 2 ^ (w - prefix) = 0 →
  in_prefix w a network prefix = true ↔ network ≤ a ≤ network + (2 ^ (w - prefix) - 1).
Proof.
  intros Hp Ha Hn Hal. unfold in_prefix, checked_shl. rewrite (proj2 (Z.ltb_lt _ _)) by lia. cbn [from_option id].
  rewrite !land_mask by lia. rewrite Z.eqb_eq. set (k := 2 ^ (w - prefix)) in *.
  assert (Hk : 0 < k) by (apply Z.pow_pos_nonneg; lia).
  assert (En : network / k * k = network) by (pose proof (Z.div_mod network k); lia). rewrite En.
  pose proof (Z.div_mod a k). pose proof (Z.mod_pos_bound a k). split; [lia|].
  intros [H1 H2]. rewrite <-En in H1, H2 |- *. f_equal. symmetry.
  apply Z.div_unique with (a - network / k * k); lia.
Qed.

(** ** What the classes are for *)

(** The addresses of some ranges, both ends included. *)
Definition in_ranges (ranges : list (Z * Z)) (a : Z) : Prop := Exists (λ r, r.1 ≤ a ≤ r.2) ranges.

Definition private4 : list (Z * Z) :=
  [(ip4 10 0 0 0, ip4 10 255 255 255); (ip4 172 16 0 0, ip4 172 31 255 255);
   (ip4 192 168 0 0, ip4 192 168 255 255); (ip4 100 64 0 0, ip4 100 127 255 255)].

(** This network, loopback, link-local, the special-purpose registry, tests and
    documentation, multicast, reserved. *)
Definition special4 : list (Z * Z) :=
  [(ip4 0 0 0 0, ip4 0 255 255 255); (ip4 127 0 0 0, ip4 127 255 255 255);
   (ip4 169 254 0 0, ip4 169 254 255 255); (ip4 192 0 0 0, ip4 192 0 0 255);
   (ip4 192 0 2 0, ip4 192 0 2 255); (ip4 192 31 196 0, ip4 192 31 196 255);
   (ip4 192 52 193 0, ip4 192 52 193 255); (ip4 192 88 99 0, ip4 192 88 99 255);
   (ip4 192 175 48 0, ip4 192 175 48 255); (ip4 198 18 0 0, ip4 198 19 255 255);
   (ip4 198 51 100 0, ip4 198 51 100 255); (ip4 203 0 113 0, ip4 203 0 113 255);
   (ip4 224 0 0 0, ip4 239 255 255 255); (ip4 240 0 0 0, ip4 255 255 255 255)].

(** Inside the global unicast addresses: protocol assignments with Teredo and
    ORCHID, documentation, 6to4, AS112, documentation. *)
Definition special6 : list (Z * Z) :=
  [(ip6 0x2001 0 0 0 0 0 0 0, ip6 0x2001 0x1ff 0xffff 0xffff 0xffff 0xffff 0xffff 0xffff);
   (ip6 0x2001 0xdb8 0 0 0 0 0 0, ip6 0x2001 0xdb8 0xffff 0xffff 0xffff 0xffff 0xffff 0xffff);
   (ip6 0x2002 0 0 0 0 0 0 0, ip6 0x2002 0xffff 0xffff 0xffff 0xffff 0xffff 0xffff 0xffff);
   (ip6 0x2620 0x4f 0x8000 0 0 0 0 0, ip6 0x2620 0x4f 0x8000 0xffff 0xffff 0xffff 0xffff 0xffff);
   (ip6 0x3fff 0 0 0 0 0 0 0, ip6 0x3fff 0xfff 0xffff 0xffff 0xffff 0xffff 0xffff 0xffff)].

(** An address of the Internet: for IPv6, global unicast. *)
Definition public_address (a : IpAddr) : Prop :=
  match a with
  | V4 a => (a ∉ CLOUD_CONTROL_PLANE_IPV4_ADDRESSES) ∧ ¬ in_ranges private4 a ∧ ¬ in_ranges special4 a
  | V6 a => (ip6 0x2000 0 0 0 0 0 0 0 ≤ a
             ≤ ip6 0x3fff 0xffff 0xffff 0xffff 0xffff 0xffff 0xffff 0xffff) ∧ ¬ in_ranges special6 a
  end.

(** An address of a private network, for IPv6 unique local, that is not a
    cloud's control plane. *)
Definition private_address (a : IpAddr) : Prop :=
  match a with
  | V4 a => in_ranges private4 a ∧ a ∉ CLOUD_CONTROL_PLANE_IPV4_ADDRESSES
  | V6 a => (ip6 0xfc00 0 0 0 0 0 0 0 ≤ a
             ≤ ip6 0xfdff 0xffff 0xffff 0xffff 0xffff 0xffff 0xffff 0xffff)
            ∧ a ≠ ip6 0xfd00 0xec2 0 0 0 0 0 0x254
  end.

Definition range_of (w : Z) (np : Z * Z) : Z * Z := (np.1, np.1 + (2 ^ (w - np.2) - 1)).
Definition aligned (w : Z) (np : Z * Z) : Prop :=
  0 < np.2 ≤ w ∧ 0 ≤ np.1 < 2 ^ w ∧ np.1 mod 2 ^ (w - np.2) = 0.

Lemma prefixes_range w a l :
  0 ≤ a < 2 ^ w → Forall (aligned w) l →
  existsb (λ '(network, prefix), in_prefix w a network prefix) l = true ↔ in_ranges (range_of w <$> l) a.
Proof.
  intros Ha. induction 1 as [|[n p] l (Hp & Hn & Hal) _ IH]; cbn [existsb fmap list_fmap].
  - split; [done|]. by intros ?%Exists_nil.
  - unfold in_ranges. rewrite Exists_cons, orb_true_iff, IH. cbn in *.
    by rewrite (in_prefix_range w a n p Hp Ha Hn Hal).
Qed.

Ltac aligned_list := repeat constructor; cbn [fst snd]; vm_compute; intuition (discriminate || reflexivity).

Lemma classify_ipv4_spec a :
  0 ≤ a < 2 ^ 32 →
  match classify_ipv4 a with
  | Public => public_address (V4 a)
  | Private => private_address (V4 a)
  | Forbidden => ¬ public_address (V4 a) ∧ ¬ private_address (V4 a)
  end.
Proof.
  intros Ha. unfold classify_ipv4. cbn [public_address private_address].
  change private4 with (range_of 32 <$> PRIVATE_IPV4_RANGES).
  change special4 with (range_of 32 <$> FORBIDDEN_IPV4_RANGES).
  pose proof (prefixes_range 32 a PRIVATE_IPV4_RANGES Ha ltac:(aligned_list)) as Hp.
  pose proof (prefixes_range 32 a FORBIDDEN_IPV4_RANGES Ha ltac:(aligned_list)) as Hf.
  case_bool_decide; [tauto|]. unfold in_ipv4_prefix.
  destruct (existsb _ PRIVATE_IPV4_RANGES); [intuition congruence|].
  destruct (existsb _ FORBIDDEN_IPV4_RANGES); intuition congruence.
Qed.

Lemma segment0_value a : 0 ≤ a < 2 ^ 128 → default 0 (segments a !! 0%nat) = a / 2 ^ 112.
Proof.
  intros Ha. unfold segments. cbn [digits_be app lookup list_lookup from_option id].
  rewrite !Z.div_div by lia. cbn [Z.mul Pos.mul]. rewrite Z.mod_small; [done|].
  split; [apply Z.div_pos; lia|apply Z.div_lt_upper_bound; lia].
Qed.

(** The masks of [classify_ipv6] on the first segment. *)
Lemma land_segment k x : 0 ≤ k < 16 → 0 ≤ x < 65536 → Z.land x (65536 - 2 ^ k) = x / 2 ^ k * 2 ^ k.
Proof.
  intros Hk Hx. rewrite <-(land_mask 16 k x) by lia. f_equal.
  rewrite Z.shiftl_mul_pow2 by lia. change (2 ^ 16) with 65536.
  apply Z.mod_unique with (2 ^ k - 1); [left|lia].
  assert (2 ^ k < 2 ^ 16) by (apply Z.pow_lt_mono_r; lia). assert (0 < 2 ^ k) by (apply Z.pow_pos_nonneg; lia). lia.
Qed.

Lemma special6_prefixes a :
  0 ≤ a < 2 ^ 128 →
  in_ipv6_prefix a (ip6 0x2001 0 0 0 0 0 0 0) 23
  || in_ipv6_prefix a (ip6 0x2001 0x0db8 0 0 0 0 0 0) 32
  || in_ipv6_prefix a (ip6 0x2002 0 0 0 0 0 0 0) 16
  || in_ipv6_prefix a (ip6 0x2620 0x004f 0x8000 0 0 0 0 0) 48
  || in_ipv6_prefix a (ip6 0x3fff 0 0 0 0 0 0 0) 20 = true ↔ in_ranges special6 a.
Proof.
  intros Ha.
  set (l := [(ip6 0x2001 0 0 0 0 0 0 0, 23); (ip6 0x2001 0x0db8 0 0 0 0 0 0, 32);
    (ip6 0x2002 0 0 0 0 0 0 0, 16); (ip6 0x2620 0x004f 0x8000 0 0 0 0 0, 48);
    (ip6 0x3fff 0 0 0 0 0 0 0, 20)]).
  change special6 with (range_of 128 <$> l).
  rewrite <-(prefixes_range 128 a l Ha ltac:(aligned_list)). unfold l. cbn [existsb].
  by rewrite orb_false_r, !orb_assoc.
Qed.

Lemma div_between a k : 0 < k → k * (a / k) ≤ a < k * (a / k) + k.
Proof. intros Hk. pose proof (Z.div_mod a k). pose proof (Z.mod_pos_bound a k). lia. Qed.

Lemma classify_ipv6_spec a :
  0 ≤ a < 2 ^ 128 →
  match classify_ipv6 a with
  | Public => public_address (V6 a)
  | Private => private_address (V6 a)
  | Forbidden => ¬ public_address (V6 a) ∧ ¬ private_address (V6 a)
  end.
Proof.
  intros Ha. unfold classify_ipv6. rewrite segment0_value by done. cbn [public_address private_address].
  pose proof (special6_prefixes a Ha) as Hw. revert Hw.
  generalize (in_ipv6_prefix a (ip6 0x2001 0 0 0 0 0 0 0) 23),
    (in_ipv6_prefix a (ip6 0x2001 0x0db8 0 0 0 0 0 0) 32),
    (in_ipv6_prefix a (ip6 0x2002 0 0 0 0 0 0 0) 16),
    (in_ipv6_prefix a (ip6 0x2620 0x004f 0x8000 0 0 0 0 0) 48),
    (in_ipv6_prefix a (ip6 0x3fff 0 0 0 0 0 0 0) 20). intros p1 p2 p3 p4 p5 Hw. set (s := a / 2 ^ 112) in *.
  assert (Hs : 0 ≤ s < 65536) by (split; [apply Z.div_pos; lia|apply Z.div_lt_upper_bound; lia]).
  pose proof (div_between a (2 ^ 112) ltac:(done)) as Hdiv. fold s in Hdiv.
  assert (Hf : Z.shiftr a 120 = s / 256).
  { unfold s. rewrite Z.shiftr_div_pow2, Z.div_div by lia. done. }
  rewrite Hf. change 0xfe00 with (65536 - 2 ^ 9). change 0xffc0 with (65536 - 2 ^ 6).
  change 0xe000 with (65536 - 2 ^ 13). rewrite !land_segment by lia. clear Hf. clearbody s.
  unfold ip6, number_be. cbn [foldl].
  destruct (Z.eqb_spec a ((((((((0 * 65536 + 0xfd00) * 65536 + 0x0ec2) * 65536 + 0) * 65536 + 0) * 65536 + 0)
    * 65536 + 0) * 65536 + 0) * 65536 + 0x0254)); [lia|].
  change (2 ^ 9) with 512. change (2 ^ 6) with 64. change (2 ^ 13) with 8192.
  pose proof (div_between s 512 ltac:(done)). pose proof (div_between s 64 ltac:(done)).
  pose proof (div_between s 256 ltac:(done)). pose proof (div_between s 8192 ltac:(done)).
  destruct (Z.eqb_spec (s / 512 * 512) 0xfc00); [split; [lia|done]|].
  match goal with |- context [if ?b then Forbidden else Public] => destruct b eqn:E end.
  - rewrite !orb_true_iff, negb_true_iff, Z.eqb_neq, !Z.eqb_eq in E. split; [|lia].
    intros [Hr Hn]. rewrite <-Hw, !orb_true_iff in Hn.
    assert (0x2000 ≤ s ≤ 0x3fff ∧ 1 < a) as [Hs' Ha'] by lia. clear n n0 Hw Hr Hdiv Ha.
    destruct E as [[[[[[[[[[[E|E]|E]|E]|E]|E]|E]|E]|E]|E]|E]|E];
      first [exfalso; apply Hn; tauto|lia].
  - rewrite !orb_false_iff, negb_false_iff, Z.eqb_eq, !Z.eqb_neq in E. split; [lia|].
    rewrite <-Hw, !orb_true_iff. intuition congruence.
Qed.

Lemma classify_address_spec a :
  ip_ok a →
  match classify_address a with
  | Public => public_address a
  | Private => private_address a
  | Forbidden => ¬ public_address a ∧ ¬ private_address a
  end.
Proof.
  destruct a as [a|a]; cbn [ip_ok classify_address]; intros Ha; [by apply classify_ipv4_spec|].
  case_bool_decide as Hm; [|by apply classify_ipv6_spec]. destruct Hm as [v4 Hm].
  apply mapped_value in Hm as [-> Hv]; [|lia]. cbn [public_address private_address].
  unfold ip6, number_be. cbn [foldl]. lia.
Qed.

(** ** The list of addresses *)

#[export] Instance socket_le_trans : Transitive socket_le.
Proof.
  intros [a p] [b q] [c r]. unfold socket_le. destruct a, b, c; cbn; lia.
Qed.
#[export] Instance socket_le_total : Total socket_le.
Proof. intros [a p] [b q]. unfold socket_le. destruct a, b; cbn; lia. Qed.
#[export] Instance socket_le_antisymm : AntiSymm (=) socket_le.
Proof.
  intros [a p] [b q]. unfold socket_le. destruct a, b; cbn; intros H1 H2; try lia;
    (assert (a = a0 ∧ p = q) as [-> ->] by lia; done).
Qed.

Lemma dedup_cons y z l :
  dedup (y :: z :: l) = if bool_decide (y = z) then dedup (z :: l) else y :: dedup (z :: l).
Proof. done. Qed.

Lemma elem_of_dedup x l : x ∈ dedup l ↔ x ∈ l.
Proof.
  induction l as [|y [|z l] IH]; [done..|]. rewrite dedup_cons. case_bool_decide as E.
  - subst y. rewrite IH, (elem_of_cons (z :: l)). rewrite elem_of_cons. tauto.
  - rewrite elem_of_cons, IH, (elem_of_cons (z :: l)). done.
Qed.

Lemma NoDup_dedup l : StronglySorted socket_le l → NoDup (dedup l).
Proof.
  induction l as [|y [|z l] IH]; intros Hs; [constructor|apply NoDup_singleton|].
  apply StronglySorted_inv in Hs as [Hs Hy]. rewrite dedup_cons. case_bool_decide as E; [by apply IH|].
  apply NoDup_cons. split; [|by apply IH]. rewrite elem_of_dedup. intros Hin. apply E.
  apply Forall_cons in Hy as [Hyz _].
  assert (Hzy : socket_le z y).
  { apply elem_of_cons in Hin as [->|Hin]; [done|].
    apply StronglySorted_inv in Hs as [_ Hz]. by apply (proj1 (Forall_forall _ _) Hz). }
  by apply (anti_symm socket_le).
Qed.

Lemma check_classes_Ok host allowed sp sv l sp' sv' :
  check_classes host allowed sp sv l = Ok (sp', sv') →
  (∀ x, x ∈ l → classify_address x.1 = Public ∧ sp' = true
        ∨ classify_address x.1 = Private ∧ sv' = true ∧ allowed = true)
  ∧ (sp = true → sp' = true) ∧ (sv = true → sv' = true).
Proof.
  revert sp sv. induction l as [|y l IH]; intros sp sv; cbn [check_classes].
  { intros [= -> ->]. split; [by intros x ?%elem_of_nil|done]. }
  destruct (classify_address y.1) eqn:Ec; [..|done].
  - intros (H1 & H2 & H3)%IH. split; [|auto]. intros x [->|Hx]%elem_of_cons; auto.
  - destruct allowed; [|done]. cbn [negb]. intros (H1 & H2 & H3)%IH. split; [|auto].
    intros x [->|Hx]%elem_of_cons; auto.
Qed.

Lemma validate_Ok host addresses security l :
  validate_resolved_addresses host addresses security = Ok l →
  (1 ≤ length l ≤ 64)%nat ∧ NoDup l ∧ (∀ x, x ∈ l ↔ x ∈ addresses)
  ∧ ((∀ x, x ∈ l → classify_address x.1 = Public)
     ∨ (∀ x, x ∈ l → classify_address x.1 = Private) ∧ private_host_allowed security host = true).
Proof.
  unfold validate_resolved_addresses. set (l' := dedup _). case_bool_decide as Hne; [done|].
  unfold MAX_RESOLVED_REMOTE_ADDRESSES. destruct (Nat.ltb_spec 64 (length l')) as [|Hlen]; [done|].
  intros ([sp sv] & (Hc & _ & _)%check_classes_Ok & H)%bind_Ok. destruct (sp && sv) eqn:Es; [done|].
  injection H as <-. split; [split; [destruct l'; [done|cbn; lia]|done]|].
  split; [apply NoDup_dedup, StronglySorted_merge_sort; apply _|].
  split; [intros x; unfold l'; rewrite elem_of_dedup; by rewrite merge_sort_Permutation|].
  destruct sp, sv; try done.
  - left. intros x Hx. destruct (Hc x Hx) as [[? _]|(_ & ? & _)]; done.
  - right. split; [intros x Hx; destruct (Hc x Hx) as [[_ ?]|[? _]]; done|].
    destruct l' as [|x l']; [done|]. destruct (Hc x) as [[_ ?]|(_ & _ & ?)]; [left|done..].
  - destruct l' as [|x l']; [done|]. destruct (Hc x) as [[_ ?]|(_ & ? & _)]; [left|done..].
Qed.

(** ** Names in their normal form *)

Lemma lower_idem b : to_ascii_lowercase (to_ascii_lowercase b) = to_ascii_lowercase b.
Proof. by destruct b. Qed.

Lemma lower_digit_char d : 0 ≤ d < 16 → to_ascii_lowercase (digit_char d) = digit_char d.
Proof.
  intros Hd. unfold to_ascii_lowercase, between. rewrite b2z_digit_char by done.
  destruct (Z.ltb_spec d 10).
  - by rewrite (proj2 (Z.leb_gt 65 _)) by lia.
  - by rewrite (proj2 (Z.leb_gt _ 90)), andb_false_r by lia.
Qed.

Lemma lower_fixed v : Forall (λ b, to_ascii_lowercase b = b) v → to_ascii_lowercase <$> v = v.
Proof. induction 1 as [|b v Hb _ IH]; [done|]. cbn. by rewrite Hb, IH. Qed.

Lemma normalize_lower v n : normalize_remote_import_host v = Some n → to_ascii_lowercase <$> n = n.
Proof.
  assert (Hip : ∀ a, to_ascii_lowercase <$> print_ip a = print_ip a).
  { intros a. apply lower_fixed, print_ip_Forall; [apply lower_digit_char|done..]. }
  unfold normalize_remote_import_host. case_match; [done|].
  destruct (parse_ip (trim v)); [intros [= <-]; apply Hip|].
  destruct (strip_bytes _ _ ≫= _) as [a|]; [intros [= <-]; apply (Hip (V6 a))|].
  unfold normalize_dns_name. repeat (case_match; [done|]). intros [= <-].
  rewrite <-list_fmap_compose. apply list_fmap_ext. intros i b _. apply lower_idem.
Qed.

Lemma private_host_allowed_named security host :
  to_ascii_lowercase <$> host = host → private_host_allowed security host = true →
  ∃ allowed, allowed ∈ allowed_private_hosts security
    ∧ normalize_remote_import_host allowed = Some host.
Proof.
  intros Hl. unfold private_host_allowed. intros (n & Hin & He)%existsb_exists.
  apply list_elem_of_In, list_elem_of_omap in Hin as (allowed & Hin & Hn). exists allowed. split; [done|].
  apply bool_decide_eq_true in He. by rewrite (normalize_lower _ _ Hn), Hl in He; subst.
Qed.

(** ** Endpoints that pass *)

(** The addresses of an endpoint are the literal one, or those of the lookup,
    with the port. *)
Definition addresses_from (resolver : bytes → Z → Lookup) (ep : ResolvedRemoteEndpoint) : Prop :=
  match parse_ip (resolved_host ep) with
  | Some a => resolved_addresses ep = [(a, resolved_port ep)]
  | None =>
      ∃ l, resolver (resolved_host ep) (resolved_port ep) = LookedUp l
        ∧ ∀ x, x ∈ resolved_addresses ep ↔ ∃ y, y ∈ l ∧ x = (y.1, resolved_port ep)
  end.

Lemma resolve_endpoint_Ok request default_port security resolver ep :
  resolve_endpoint_with request default_port security resolver = Ok ep →
  remote_enabled security = true
  ∧ (request_tls request = true ∨ allow_plaintext security = true)
  ∧ normalize_remote_import_host (request_host request) = Some (resolved_host ep)
  ∧ resolved_port ep = default default_port (request_port request) ∧ resolved_port ep ≠ 0
  ∧ resolved_tls ep = request_tls request
  ∧ ∃ l, match parse_ip (resolved_host ep) with
         | Some a => l = [(a, resolved_port ep)]
         | None => ∃ found, resolver (resolved_host ep) (resolved_port ep) = LookedUp found
                     ∧ l = (λ address, (address.1, resolved_port ep)) <$> found
         end
      ∧ validate_resolved_addresses (resolved_host ep) l security = Ok (resolved_addresses ep).
Proof.
  unfold resolve_endpoint_with. destruct (remote_enabled security); [|done]. cbn [negb].
  destruct (negb _ && _) eqn:Et; [done|]. intros (host & Hn%ok_or_Ok & H)%bind_Ok. cbn in H.
  destruct (Z.eqb_spec (default default_port (request_port request)) 0) as [|Hp]; [done|].
  apply bind_Ok in H as (l & Hl & (l' & Hv & [= <-])%bind_Ok). cbn. split_and!; try done.
  - destruct (request_tls request), (allow_plaintext security); auto; done.
  - exists l. split; [|done]. destruct (parse_ip host); [by injection Hl as <-|].
    destruct (resolver _ _) as [found| |]; [|done..]. injection Hl as <-. eauto.
Qed.

(** C14. An import connects only where it may.  Whatever names resolve to, an
    endpoint that is accepted has between one and 64 different addresses, which
    are exactly the literal address or the answer of the one lookup, on a port
    that is not zero; they are all addresses of the Internet, or all private
    addresses of a host the node's policy names; no loopback, link-local,
    multicast, documentation, reserved or IPv4-mapped address and no cloud
    control plane is among them.  Plain text needs the policy too. *)
Theorem remote_endpoint_guarded request default_port security resolver ep :
  (∀ host port l, resolver host port = LookedUp l → Forall (λ x, ip_ok x.1) l) →
  resolve_endpoint_with request default_port security resolver = Ok ep →
  remote_enabled security = true
  ∧ (resolved_tls ep = true ∨ allow_plaintext security = true)
  ∧ resolved_port ep = default default_port (request_port request) ∧ resolved_port ep ≠ 0
  ∧ (1 ≤ length (resolved_addresses ep) ≤ 64)%nat ∧ NoDup (resolved_addresses ep)
  ∧ addresses_from resolver ep
  ∧ ((∀ x, x ∈ resolved_addresses ep → public_address x.1)
     ∨ (∀ x, x ∈ resolved_addresses ep → private_address x.1)
       ∧ ∃ allowed, allowed ∈ allowed_private_hosts security
           ∧ normalize_remote_import_host allowed = Some (resolved_host ep)).
Proof.
  intros Hres (He & Ht & Hn & Hport & Hp & -> & l & Hl & Hv)%resolve_endpoint_Ok.
  apply validate_Ok in Hv as (Hlen & Hnd & Hin & Hc).
  assert (Hok : ∀ x, x ∈ l → ip_ok x.1).
  { destruct (parse_ip (resolved_host ep)) as [a|] eqn:Ea.
    - subst l. intros x ->%list_elem_of_singleton. by eapply parse_ip_ok.
    - destruct Hl as (found & Hf & ->). intros x (y & -> & Hy)%list_elem_of_fmap. cbn.
      by apply (proj1 (Forall_forall _ _) (Hres _ _ _ Hf)). }
  do 6 (split; [done|]). split.
  - unfold addresses_from. destruct (parse_ip (resolved_host ep)) as [a|] eqn:Ea.
    + subst l. apply Permutation_singleton_r. apply NoDup_Permutation; [done|apply NoDup_singleton|done].
    + destruct Hl as (found & Hf & ->). exists found. split; [done|]. intros x.
      rewrite Hin, list_elem_of_fmap. naive_solver.
  - assert (Hclass : ∀ x, x ∈ resolved_addresses ep → ip_ok x.1) by (intros x ?%Hin; auto).
    destruct Hc as [Hc|[Hc Ha]]; [left|right].
    + intros x Hx. pose proof (classify_address_spec x.1 (Hclass x Hx)) as Hs. by rewrite (Hc x Hx) in Hs.
    + split; [|by apply private_host_allowed_named; [eapply normalize_lower|]].
      intros x Hx. pose proof (classify_address_spec x.1 (Hclass x Hx)) as Hs. by rewrite (Hc x Hx) in Hs.
Qed.

(** A literal address is taken as it is written: no name is looked up, and the
    endpoint is that one address, in the normal form of its text. *)
Theorem literal_host_pinned request default_port security resolver resolver' a :
  parse_ip (trim (request_host request)) = Some a →
  resolve_endpoint_with request default_port security resolver
  = resolve_endpoint_with request default_port security resolver'
  ∧ ∀ ep, resolve_endpoint_with request default_port security resolver = Ok ep →
      resolved_host ep = print_ip a ∧ resolved_addresses ep = [(a, resolved_port ep)]
      ∧ helper_extra_hosts ep = [].
Proof.
  intros Ha. pose proof (ip_text_roundtrip a (parse_ip_ok _ _ Ha)) as Hr.
  assert (Hn : normalize_remote_import_host (request_host request) = Some (print_ip a)).
  { unfold normalize_remote_import_host. rewrite Ha. case_bool_decide as He; [|done].
    rewrite He in Ha. discriminate Ha. }
  split.
  - unfold resolve_endpoint_with. do 2 (case_match; [done|]). rewrite Hn. cbn [ok_or]. rewrite !bind_of_Ok. by rewrite Hr.
  - intros ep (_ & _ & Hn' & _ & _ & _ & l & Hl & Hv)%resolve_endpoint_Ok.
    rewrite Hn in Hn'. injection Hn' as Hh. rewrite <-Hh, Hr in Hl. subst l.
    apply validate_Ok in Hv as (_ & Hnd & Hin & _). split_and!; [done| |].
    + apply Permutation_singleton_r. apply NoDup_Permutation; [done|apply NoDup_singleton|done].
    + unfold helper_extra_hosts. by rewrite <-Hh, Hr.
Qed.

(** ** Example *)

Module RemoteDemo.

Definition demo_security : RemoteImportSecurityConfig :=
  mkRemoteImportSecurityConfig true false [lit " DB.Internal.Example. "].
Definition demo_resolver (host : bytes) (port : Z) : Lookup :=
  if bool_decide (host = lit "db.internal.example")
  then LookedUp [(V4 (ip4 10 0 0 9), port); (V4 (ip4 10 0 0 1), port); (V4 (ip4 10 0 0 9), port)]
  else LookupError.
Definition demo_endpoint_request (host : string) : RemoteEndpointRequest :=
  mkRemoteEndpointRequest (lit host) None true.
Definition demo_endpoint : ResolvedRemoteEndpoint :=
  mkResolvedRemoteEndpoint (lit "db.internal.example") 5432
    [(V4 (ip4 10 0 0 1), 5432); (V4 (ip4 10 0 0 9), 5432)] true.

Lemma demo_resolver_ok host port l :
  demo_resolver host port = LookedUp l → Forall (λ x : SocketAddr, ip_ok x.1) l.
Proof.
  unfold demo_resolver. case_match; [|done]. intros [= <-]. repeat constructor; vm_compute; done.
Qed.
End RemoteDemo.
Import RemoteDemo.

Lemma remote_endpoint_guarded_witness :
  resolve_endpoint_with (demo_endpoint_request "db.internal.example") 5432 demo_security demo_resolver
  = Ok demo_endpoint
  ∧ ((∀ x, x ∈ resolved_addresses demo_endpoint → public_address x.1)
     ∨ (∀ x, x ∈ resolved_addresses demo_endpoint → private_address x.1)
       ∧ ∃ allowed, allowed ∈ allowed_private_hosts demo_security
           ∧ normalize_remote_import_host allowed = Some (resolved_host demo_endpoint)).
Proof.
  assert (E : resolve_endpoint_with (demo_endpoint_request "db.internal.example") 5432 demo_security demo_resolver
    = Ok demo_endpoint) by (vm_compute; reflexivity).
  split; [exact E|].
  exact (proj2 (proj2 (proj2 (proj2 (proj2 (proj2 (proj2
    (remote_endpoint_guarded (demo_endpoint_request "db.internal.example") 5432 demo_security demo_resolver
      demo_endpoint demo_resolver_ok E)))))))).
Defined.

Lemma literal_host_pinned_witness :
  resolve_endpoint_with (demo_endpoint_request "[2001:4860:0:0:0::8888") 5432 demo_security demo_resolver
  = Err InvalidHost
  ∧ ∀ ep, resolve_endpoint_with (demo_endpoint_request " 2001:4860:0:0:0::8888 ") 5432 demo_security demo_resolver
          = Ok ep →
      resolved_host ep = lit "2001:4860::8888"
      ∧ resolved_addresses ep = [(V6 (ip6 0x2001 0x4860 0 0 0 0 0 0x8888), resolved_port ep)]
      ∧ helper_extra_hosts ep = [].
Proof.
  split; [vm_compute; reflexivity|].
  exact (proj2 (literal_host_pinned (demo_endpoint_request " 2001:4860:0:0:0::8888 ") 5432 demo_security
    demo_resolver demo_resolver (V6 (ip6 0x2001 0x4860 0 0 0 0 0 0x8888)) ltac:(vm_compute; reflexivity))).
Defined.
